(* ===== verification/_CoqProject ===== *)
-Q . S2P
Prelude.v
SortedSpec.v
LinkedHeap.v
CString.v
AVLTree.v
BPlusTree.v
SkipList.v
LRUCache.v
Float32.v
Numbers.v
Strtok.v
ByteFile.v
Kernel.v
Actors.v
BlockCache.v
BlockDevice.v
KVStore.v
KVSession.v
CrashRecovery.v
WalDemo.v
MemoryPool.v
MemoryTracker.v
SlabCache.v
PageReplacement.v
QueryEngine.v
PageManager.v
BloomFilter.v
HashTable.v
Monitor.v
BoundedBuffer.v
ReadWriteLock.v
TurnTaking.v
WorkQueue.v
VersionStore.v
FileCache.v
SharedLinks.v
MedianFinder.v
RecordFile.v
FileCopy.v
FileBench.v
FileMerge.v
AsyncIO.v
Counting.v
Fenwick.v
RangeCount.v
SlidingWindow.v
Anagrams.v
BinaryTree.v
Parentheses.v
TinyUrl.v
Employees.v
SmallExercises.v
Students.v
MarkSheet.v
LevelOrder.v
WordCount.v
SelectServer.v
Poll.v
Multiplex.v
EventFiles.v
EchoSession.v
ChatClient.v
TwoProcesses.v
Calculator.v
Latency.v
MiniServer.v
Chat.v
FileTransfer.v
ShmFlag.v
ShmLife.v
Signals.v
Supervisor.v
Shell.v
ConcurrentMap.v
Counters.v
