(* ===== verification/Prelude.v ===== *)
(** * A verification library of the IITM repository

    The repository is a collection of C programs: data structures, caches and allocators,
    logs and stores that survive crashes, simulations, and programs with threads.  Each is a
    component of its own with a file here; where programs share a part, so do the files.
    This file is the prelude: what a C computation returns, machine integers, arrays and
    strings, and the lemmas and tactics that all files use.

    ** How the code is modelled

    A C function is a Rocq function of the same name.  A loop or a recursion that is not
    structural takes fuel.  The result is an [outcome]: [Done] for a return, [Undef] for
    undefined behaviour (NULL and dangling pointers, an access outside of an array, a cell
    read before it is written, signed overflow where a definition checks it), [OutOfFuel] for
    a loop that did not end.  A theorem that a call is [Done] therefore says that the code
    returns and that nothing undefined happened on the way.  State is passed explicitly, in
    the monad [cmd] where there is much of it.  A node with one owner is a value; nodes that
    are reached in two ways live in the heap of LinkedHeap.v.  What the kernel, the allocator,
    the clock and [rand] answer are arguments.  [malloc] is taken to succeed where the code
    does not test it.  Threads are step relations whose steps are as small as the locking of
    the code lets other threads see.

    ** The parts

    Shared: SortedSpec.v (sorted lists, for the trees), LinkedHeap.v (load, store, [malloc]
    and [free] as the interface [HeapState]; doubly linked lists as the interface [DLNode]),
    CString.v (string.h and [sscanf]), ByteFile.v (files as bytes), Kernel.v (system calls on
    named files, whose answers are a list that is an argument), Float32.v (single and double
    precision, and when integers are exact in them), Numbers.v ([atoi], [%lf], [%.2f] and that
    integers are read back), Strtok.v, Counting.v (counting in lists), Actors.v (actors on a
    shared state, bounded runs), Monitor.v (any number of threads under one mutex with
    condition variables: the class [Monitor], its step relation, and the laws for invariants),
    TwoProcesses.v (the interleavings of two processes and their invariants).

    Trees and ordered structures:
    - AVLTree.v: Trees/AVLTree.c.  Insertion and deletion keep the tree an AVL tree and do to
      its listing what a sorted set does; the height is logarithmic.
    - MedianFinder.v: "LEETCODE PROBLEMS/mediandta.c".  The same rotations with counts and
      sizes; the median is that of the sorted numbers.
    - BPlusTree.v: Trees/BplusTreeDy.c.  For any keys and range, [main] ends and prints the
      keys of the range in order; all leaves stay at one depth.
    - SkipList.v: SKIPLIST/skiplist.c.  For any coin, every run of operations answers as a
      sorted set does, and what is displayed is that set with levels of its sublists.
    - LevelOrder.v: Trees/trees.c.  Up to 100 values come back in the order of entry.
    - BinaryTree.v: TASK/TreeTask.c, TASK/TreeAssessments.c and four exercises on trees.

    Caches, tables and allocators:
    - LRUCache.v ("LEETCODE PROBLEMS/lrucache.c") and HashTable.v (HashTable/hashTable.c):
      heap structures that refine an association list and a map.
    - BlockCache.v and BlockDevice.v: MemoryAllocation/cache.c.  The cache refines a list in
      order of use with a limit on its bytes; through cache, buffer pool and file together a
      read returns what was last written.  BlockDevice.v calls BlockCache.v.
    - FileCache.v (FIleCache/FileCahce.c with bufferPool.c) and SharedLinks.v
      (FIleCache/LruCahce.c, whose two lists share one link field).
    - MemoryPool.v (MemoryPool/), MemoryTracker.v (MemoryAllocation/memoryAllocation.c, over
      an abstract allocator), SlabCache.v (Memory_Allocation/mainFIle: behind an allocator
      that keeps heap.c's table the caches give everything back; behind heap.c's own nothing
      is ever cached and each block is lost), PageManager.v (TASK/24-10-2025/pages_memory_manager.c),
      PageReplacement.v (week 8/Page cache, week 8/pageReplacementPolicy), BloomFilter.v.

    Stores, logs and files:
    - KVStore.v: the two libraries of week 8/staticAndDynamicLIB, the server of
      IPCs/SharedMemory/KeyValueStored, and the protocol they speak, against the class
      [KVStore] whose laws [KVStoreLaws] each store discharges.
    - KVSession.v: any number of clients of the locked server, the threads of their connections
      and [main] around its store, with the steps between the lock and the unlock: every client
      reads the right replies in order and every run ends.
    - CrashRecovery.v (FILEIO/CrashRecovery) and WalDemo.v (FILEIO/wal_demo.c): recovery is
      replay of the log, also after a crash in the middle of it; a torn last line is ignored.
    - RecordFile.v: FILEIO/lowlevelfileio.c, over a kernel that transfers partially.
    - FileCopy.v (FILEIO/lowLevelTask.c, FILEIO/memoryMapped.c), FileBench.v
      (FILEIO/directVSbuffer.c, FILEIO/DirectVSBufferFile.c), FileMerge.v (FILEIO/Task.c) and
      AsyncIO.v (FILEIO/POSIX.c, FILEIO/IO_uring.c), over Kernel.v: what is in the files at the
      end, whatever the kernel answers; what happens when it is willing; the order of
      completion of threads and of asynchronous writes is arbitrary.
    - VersionStore.v: POSIX/Thread/threads.c.  A rolled back transaction leaves no version; a
      snapshot does not see versions that are newer.
    - QueryEngine.v: the predicate trees and the pull-based query of week 8.

    Programs with threads:
    - BoundedBuffer.v (POSIX/futexTask.c, POSIX/posix.c), ReadWriteLock.v (POSIX/read-write.c),
      TurnTaking.v (TASK/ThreadsTask.c) and WorkQueue.v (TASK/ThreadAssessment.c) are
      instances of Monitor.v: exclusion, order, no lost wake-up, termination.
    - ConcurrentMap.v: POSIX/thread-safe.c, with a lock per bucket and steps inside a walk:
      linearizable, and every schedule ends.
    - WordCount.v: POSIX/PosixTask.c, what the parts of the threads count together.

    - Counters.v: POSIX/atomic_counter.c and IPCs/SharedMemory/Counters.c, with the load and
      the store of an increment as two steps behind the lock, and as atomic steps.

    Processes that talk to each other:
    - SelectServer.v: the servers of IPCs/clientchatserver and IPCs/Nonblocking refine a room
      whose members hear each other.  EchoSession.v: any number of clients of the second server
      get their whole input back, in every interleaving.  ChatClient.v: the client of the first.
    - Chat.v (IPCs/SharedMemory/Chat), FileTransfer.v (IPCs/SharedMemory/FileTransfer) and
      ShmFlag.v (shmForkDemo.c, shmWriter.c, shmReader.c, commonShm.c), over TwoProcesses.v:
      every interleaving delivers what was sent, in order, and ends.  ShmLife.v: the same
      programs with the calls that make and remove the segment, any of which may fail.
    - Calculator.v (IPCs/task): client and server agree on the exact result in double precision.
      MiniServer.v (IPCs/miniServer): any number of clients of the server with processes, whose
      children are never reaped, or threads.  Multiplex.v (multiplexing-poll.c) and EventFiles.v
      (EBFP/ebfp.c): polled files are read through, and the second program ends.
    - Poll.v (IPCs/Poll): the parent prints the whole message however it arrives.  Latency.v
      (IPCs/checkLatency): the ten conversations of client and server take place.
    - Signals.v (IPCs/signals/signals.c, multiplesignal.c, Timer/periodicSetTime.c): what is
      reported under every order of arrivals and deliveries, and when the tasks of the timer run.
    - Supervisor.v (IPCs/signals/controller.c): the table of children under every order of
      signals.  Shell.v (IPCs/exec/shell.c): the commands of the lines that are typed.

    Records and small programs: Students.v (filegets.c, in single precision), MarkSheet.v
    (Students_Marksheet.c: what it makes of reports, and where the program goes wrong), Employees.v
    (TASK/SQLAssessment.c, TASK/SQLTask.c), Parentheses.v, TinyUrl.v and SmallExercises.v (the
    smaller exercises, Trees/BTree.c, TASK/24-10-2025/PageMap.c).

    Array programs of "LEETCODE PROBLEMS": Fenwick.v (countersmallernumber.c, createSorted.c),
    RangeCount.v (countRange.c) and SlidingWindow.v (SlidingWindowMaximum.c) are equal to
    reference definitions that count or take the maximum directly; Anagrams.v
    (validBinarysearch.c) groups exactly the words that are anagrams.

    ** Bounds and fuel

    Capacities are those of the code (NUM_BUCKETS, MAX_RECORDS, arrays of 100, and so on) and
    appear as hypotheses only where the code does not test them.  Fuel is a bound that the
    state gives (the length of an array, the number of nodes of a heap, the difference of two
    indices) and the theorems conclude [Done], so that it is enough; where it is an argument
    (BPlusTree.v, [lRUCacheFree]) the theorem says how much is.  The thread programs have
    no fuel: TurnTaking.v, ConcurrentMap.v, Poll.v, Latency.v, AsyncIO.v, KVSession.v, MiniServer.v
    and Calculator.v bound the length of their runs by a measure.
    Memory is sequentially consistent; the unlocked reads of TurnTaking.v and WorkQueue.v,
    which are data races in C, are taken as atomic steps, and so is the read of a cell after the
    unlock in KVSession.v, where no write changes the cell.

    ** Not modelled

    Printing is kept where it is what a program is for and left out where it reports progress.
    Floating point is left out of the time measurements and the ratios that report progress.
    Programs that only call the kernel (the demonstrations of exec and fork)
    have no state of their own.  Setting up a socket is left out everywhere: the models of
    servers start when they listen.
    Trees/BPlusTree.c and "LEETCODE PROBLEMS/covertsorted.c" are not C programs that compile. *)
From Stdlib Require Export Ascii.
From stdpp Require Export base gmap sets list strings pretty numbers sorting.

From Stdlib Require Export Lia ZArith.

#[export] Set Warnings "-clear-no-such-hyp".
#[global] Open Scope Z_scope.
#[global] Arguments String.append : simpl nomatch.

(** ** Outcomes of a C computation

    [Done a] is a normal return, [Undef] an execution with undefined behaviour
    (NULL or dangling dereference, out of bounds access, division by zero,
    signed overflow where a definition tracks it), [OutOfFuel] a loop that has
    not finished within the fuel it was given. *)

Inductive outcome (A : Type) : Type :=
| Done (a : A)
| Undef
| OutOfFuel.
Arguments Done {A} a.
Arguments Undef {A}.
Arguments OutOfFuel {A}.

#[export] Instance outcome_ret : MRet outcome := @Done.
#[export] Instance outcome_bind : MBind outcome := fun A B f m =>
  match m with
  | Done a => f a
  | Undef => Undef
  | OutOfFuel => OutOfFuel
  end.

(** Boolean operators with C's short circuit: the right operand is only
    evaluated (and may only be undefined) when the left one does not decide. *)
Definition c_and (b : bool) (m : outcome bool) : outcome bool :=
  if b then m else Done false.

Definition of_option {A} (o : option A) : outcome A :=
  match o with Some a => Done a | None => Undef end.

(** ** State and outcome: commands over an explicit store *)

Definition cmd (S A : Type) : Type := S -> outcome (A * S).

#[export] Instance cmd_ret {S} : MRet (cmd S) := fun A a s => Done (a, s).
#[export] Instance cmd_bind {S} : MBind (cmd S) := fun A B f m s =>
  match m s with
  | Done (a, s') => f a s'
  | Undef => Undef
  | OutOfFuel => OutOfFuel
  end.

Definition get {S} : cmd S S := fun s => Done (s, s).
Definition modify {S} (f : S -> S) : cmd S unit := fun s => Done (tt, f s).
Definition gets {S A} (f : S -> A) : cmd S A := fun s => Done (f s, s).
Definition undef {S A} : cmd S A := fun _ => Undef.
Definition lift {S A} (m : outcome A) : cmd S A := fun s =>
  match m with
  | Done a => Done (a, s)
  | Undef => Undef
  | OutOfFuel => OutOfFuel
  end.

(** ** Machine integers *)

Definition int_min : Z := - 2 ^ 31.
Definition int_max : Z := 2 ^ 31 - 1.
Definition in_int (z : Z) : Prop := int_min <= z <= int_max.
#[export] Instance in_int_dec z : Decision (in_int z).
Proof. unfold in_int. apply _. Defined.

(** unsigned int, size_t: arithmetic modulo 2^32 and 2^64 *)
Definition u32 (z : Z) : Z := z mod 2 ^ 32.
Definition u64 (z : Z) : Z := z mod 2 ^ 64.

(** the int with the same bits as an unsigned int *)
Definition i32 (z : Z) : Z :=
  let u := u32 z in if u <? 2 ^ 31 then u else u - 2 ^ 32.

(** signed arithmetic whose overflow is undefined *)
Definition int_chk (z : Z) : outcome Z :=
  if bool_decide (in_int z) then Done z else Undef.

(** ** Arrays indexed by a C integer *)

Definition arr_get {A} (l : list A) (i : Z) : outcome A :=
  if i <? 0 then Undef else of_option (l !! Z.to_nat i).

Definition arr_set {A} (l : list A) (i : Z) (x : A) : outcome (list A) :=
  if (i <? 0) || (Z.of_nat (length l) <=? i) then Undef
  else Done (<[Z.to_nat i := x]> l).

(** [a[n++] = x] in an array of [size] cells that is filled from the front: [a] are the
    cells written so far, and [n] is their number *)
Definition push {A} (size : Z) (a : list A) (x : A) : outcome (list A) :=
  if Z.of_nat (length a) <? size then Done (a ++ [x]) else Undef.

(** ** C strings

    A C string is the Rocq [string] of its bytes before the terminating NUL.
    [char] is signed, as on the x86 targets of the Makefile-less programs. *)

Definition nl : string := String "010" EmptyString.
Definition quote : string := String "034" EmptyString.

Definition schar (a : ascii) : Z :=
  let n := Z.of_N (Ascii.N_of_ascii a) in
  if n <? 128 then n else n - 256.

Fixpoint strlen (s : string) : nat :=
  match s with
  | EmptyString => 0
  | String _ s' => S (strlen s')
  end.

(** [strtrunc n s]: what [strncpy(d, s, n); d[n] = 0] leaves in [d] *)
Fixpoint strtrunc (n : nat) (s : string) : string :=
  match n, s with
  | S n', String c s' => String c (strtrunc n' s')
  | _, _ => EmptyString
  end.

Definition streq (a b : string) : bool := bool_decide (a = b).

(** ** Lemmas and automation shared by all components *)

Create HintDb iitm.
Create Rewrite HintDb iitm.

Lemma int_chk_ok z : int_min <= z <= int_max -> int_chk z = Done z.
Proof. intros H. unfold int_chk. by rewrite bool_decide_true. Qed.

Lemma int_chk_Done z d : int_chk z = Done d -> d = z.
Proof. unfold int_chk. case_bool_decide; [by intros [= ->]|done]. Qed.

Lemma outcome_bind_Done {A B} (m : outcome A) (f : A -> outcome B) b :
  m ≫= f = Done b <-> exists a, m = Done a /\ f a = Done b.
Proof.
  split.
  - destruct m; simpl; [eauto|discriminate..].
  - by intros (a & -> & ?).
Qed.

Lemma cmd_bind_Done {S A B} (m : cmd S A) (f : A -> cmd S B) s r :
  (m ≫= f) s = Done r <-> exists a s', m s = Done (a, s') /\ f a s' = Done r.
Proof.
  unfold mbind, cmd_bind. split.
  - destruct (m s) as [[a s']| |]; intros H; [eauto|discriminate..].
  - intros (a & s' & -> & H). done.
Qed.

Lemma cmd_bind_eq {S A B} (m : cmd S A) (f : A -> cmd S B) s a s' :
  m s = Done (a, s') -> (m ≫= f) s = f a s'.
Proof. intros H. unfold mbind, cmd_bind. by rewrite H. Qed.

Lemma u32_bound z : 0 <= u32 z < 2 ^ 32.
Proof. apply Z.mod_pos_bound. lia. Qed.

Lemma u32_small z : 0 <= z < 2 ^ 32 -> u32 z = z.
Proof. apply Z.mod_small. Qed.

Lemma u64_bound z : 0 <= u64 z < 2 ^ 64.
Proof. apply Z.mod_pos_bound. lia. Qed.

Lemma u64_small z : 0 <= z < 2 ^ 64 -> u64 z = z.
Proof. apply Z.mod_small. Qed.

Lemma schar_inj a b : schar a = schar b -> a = b.
Proof.
  unfold schar. intros H. rewrite <- (Ascii.ascii_N_embedding a), <- (Ascii.ascii_N_embedding b). f_equal.
  pose proof (Ascii.N_ascii_bounded a). pose proof (Ascii.N_ascii_bounded b). repeat match goal with _ : context [?x <? ?y] |- _ => destruct (Z.ltb_spec x y) end; lia.
Qed.

Lemma streq_spec a b : streq a b = true <-> a = b.
Proof. apply bool_decide_eq_true. Qed.

Lemma streq_refl a : streq a a = true.
Proof. by apply streq_spec. Qed.

Lemma streq_false a b : streq a b = false <-> a <> b.
Proof. apply bool_decide_eq_false. Qed.

Lemma arr_get_Done {A} (l : list A) i x :
  arr_get l i = Done x <-> 0 <= i /\ l !! Z.to_nat i = Some x.
Proof.
  unfold arr_get. destruct (Z.ltb_spec i 0).
  - split; [done|lia].
  - destruct (l !! Z.to_nat i); simpl.
    + split; [intros [= ->]; done|by intros (_ & [= ->])].
    + by split; [|intros (_ & ?)].
Qed.

Lemma arr_get_in {A} (l : list A) i :
  0 <= i < Z.of_nat (length l) -> exists x, arr_get l i = Done x.
Proof.
  intros Hi. destruct (lookup_lt_is_Some_2 l (Z.to_nat i)) as [x Hx]; [lia|].
  exists x. apply arr_get_Done. split; [lia|done].
Qed.

Lemma arr_get_mid {A} (l1 l2 : list A) x i : i = Z.of_nat (length l1) -> arr_get (l1 ++ x :: l2) i = Done x.
Proof.
  intros ->. apply arr_get_Done. split; [lia|]. rewrite Nat2Z.id. by apply list_lookup_middle.
Qed.

Lemma arr_set_in {A} (l : list A) i x :
  0 <= i < Z.of_nat (length l) -> arr_set l i x = Done (<[Z.to_nat i := x]> l).
Proof.
  intros Hi. unfold arr_set.
  destruct (Z.ltb_spec i 0), (Z.leb_spec (Z.of_nat (length l)) i); simpl; first [lia|done].
Qed.

Lemma push_ok {A} size (a : list A) x : Z.of_nat (length a) < size -> push size a x = Done (a ++ [x]).
Proof. intros H. unfold push. by rewrite (proj2 (Z.ltb_lt _ _) H). Qed.

Lemma list_insert_mid {A} (l1 l2 : list A) x y :
  <[length l1 := y]> (l1 ++ x :: l2) = l1 ++ y :: l2.
Proof. induction l1 as [|a l1 IH]; simpl; [done|]. by f_equal. Qed.

Lemma list_alter_mid {A} (f : A -> A) (l1 l2 : list A) x :
  alter f (length l1) (l1 ++ x :: l2) = l1 ++ f x :: l2.
Proof. induction l1 as [|a l1 IH]; simpl; [done|]. by f_equal. Qed.

Lemma sum_list_with_insert {A} (f : A -> nat) l i x y : l !! i = Some x ->
  (sum_list_with f (<[i := y]> l) + f x = sum_list_with f l + f y)%nat.
Proof. intros (l1 & l2 & -> & ->)%list_elem_of_split_length. rewrite list_insert_mid, !sum_list_with_app. simpl. lia. Qed.

Lemma sum_list_with_decr {A} (f : A -> nat) l i x y : l !! i = Some x -> (f y < f x)%nat ->
  (sum_list_with f (<[i := y]> l) < sum_list_with f l)%nat.
Proof. intros (l1 & l2 & -> & ->)%list_elem_of_split_length Hf. rewrite list_insert_mid, !sum_list_with_app. simpl. lia. Qed.

Lemma sum_list_with_two {A} (f : A -> nat) l i j x y : i <> j -> l !! i = Some x -> l !! j = Some y ->
  (f x + f y <= sum_list_with f l)%nat.
Proof.
  revert i j. induction l as [|z l IH]; intros [|i] [|j] Hne Hi Hj; simpl in *; simplify_eq.
  - pose proof (sum_list_with_in y f l (list_elem_of_lookup_2 _ _ _ Hj)). lia.
  - pose proof (sum_list_with_in x f l (list_elem_of_lookup_2 _ _ _ Hi)). lia.
  - assert (i <> j) as Hij by congruence. specialize (IH i j Hij Hi Hj). lia.
Qed.

Lemma sum_list_with_pos {A} (f : A -> nat) l : (0 < sum_list_with f l)%nat -> exists i x, l !! i = Some x /\ (0 < f x)%nat.
Proof.
  induction l as [|x l IH]; simpl; [lia|]. intros H. destruct (f x) eqn:Hf; [|by exists 0%nat, x; rewrite Hf; split; [|lia]].
  destruct IH as (i & y & Hi & Hy); [lia|]. by exists (S i), y.
Qed.

Lemma filter_all {A} (P : A -> Prop) `{!forall x, Decision (P x)} l : Forall P l -> filter P l = l.
Proof. induction 1 as [|x l Hx _ IH]; [done|]. rewrite filter_cons_True by done. by f_equal. Qed.

Lemma filter_none {A} (P : A -> Prop) `{!forall x, Decision (P x)} l : Forall (fun x => ~ P x) l -> filter P l = [].
Proof. induction 1; [done|]. by rewrite filter_cons_False. Qed.

Lemma filter_ne_mid {A} `{!EqDecision A} (p : A) l1 l2 : NoDup (l1 ++ p :: l2) ->
  filter (fun x => x <> p) (l1 ++ p :: l2) = l1 ++ l2.
Proof.
  intros (Hn1 & Hd & [Hp Hn2]%NoDup_cons)%NoDup_app.
  rewrite filter_app, filter_cons_False by tauto.
  f_equal; apply filter_all, Forall_forall; intros x Hx ->; [by eapply Hd; [done|left]|done].
Qed.

#[export] Hint Resolve u32_bound u64_bound streq_refl : iitm.
#[export] Hint Rewrite @u32_small @u64_small using lia : iitm.

(** ** Association lists: the specification of the key/value components *)

Section assoc.
Context {K V : Type} `{!EqDecision K}.
Implicit Types (l : list (K * V)) (k : K) (v : V).

(** the value of the first pair with that key *)
Fixpoint assoc k l : option V :=
  match l with
  | [] => None
  | (k', v) :: l' => if decide (k' = k) then Some v else assoc k l'
  end.

Definition assoc_remove k l : list (K * V) := filter (fun x => x.1 <> k) l.

Lemma assoc_elem k v l : assoc k l = Some v -> (k, v) ∈ l.
Proof.
  induction l as [|[k' v'] l IH]; simpl; [done|].
  case_decide as Hk; [intros [= ->]; subst; left|right; auto].
Qed.

Lemma assoc_None k l : assoc k l = None <-> k ∉ l.*1.
Proof.
  induction l as [|[k' v'] l IH]; simpl; [set_solver|].
  case_decide as Hk; rewrite not_elem_of_cons; naive_solver.
Qed.

Lemma assoc_app k l1 l2 :
  assoc k (l1 ++ l2) = match assoc k l1 with Some v => Some v | None => assoc k l2 end.
Proof.
  induction l1 as [|[k' v'] l1 IH]; simpl; [done|]. by case_decide.
Qed.

Lemma assoc_mid k v l1 l2 : k ∉ l1.*1 -> assoc k (l1 ++ (k, v) :: l2) = Some v.
Proof. intros ?%assoc_None. rewrite assoc_app, H. simpl. by rewrite decide_True. Qed.

Lemma assoc_split k v l : assoc k l = Some v ->
  exists l1 l2, l = l1 ++ (k, v) :: l2 /\ k ∉ l1.*1.
Proof.
  induction l as [|[k' v'] l IH]; simpl; [done|]. case_decide as Hk.
  - intros [= ->]. exists [], l. subst. split; [done|set_solver].
  - intros (l1 & l2 & -> & Hni)%IH. exists ((k', v') :: l1), l2. split; [done|].
    rewrite fmap_cons, not_elem_of_cons. naive_solver.
Qed.

Lemma assoc_NoDup k v l : NoDup l.*1 -> (k, v) ∈ l -> assoc k l = Some v.
Proof.
  intros Hn (l1 & l2 & ->)%list_elem_of_split. apply assoc_mid.
  rewrite fmap_app, fmap_cons in Hn. apply NoDup_app in Hn as (_ & Hd & _).
  intros Hk%Hd. set_solver.
Qed.

Lemma assoc_remove_notin k l : k ∉ l.*1 -> assoc_remove k l = l.
Proof.
  induction l as [|[k' v'] l IH]; [done|]. rewrite fmap_cons, not_elem_of_cons.
  intros [Hne Hni]. unfold assoc_remove. rewrite filter_cons_True by (simpl in *; congruence).
  f_equal. by apply IH.
Qed.

Lemma assoc_remove_mid k v l1 l2 : NoDup (l1 ++ (k, v) :: l2).*1 ->
  assoc_remove k (l1 ++ (k, v) :: l2) = l1 ++ l2.
Proof.
  rewrite fmap_app, fmap_cons. intros (_ & Hd & [Hk _]%NoDup_cons)%NoDup_app.
  unfold assoc_remove. rewrite filter_app, filter_cons_False by (simpl; tauto).
  f_equal; apply assoc_remove_notin; [|done]. intros ?%Hd. set_solver.
Qed.

Lemma assoc_remove_same k l : assoc k (assoc_remove k l) = None.
Proof.
  apply assoc_None. unfold assoc_remove. rewrite list_elem_of_fmap.
  intros ([k' v'] & -> & [Hne _]%list_elem_of_filter). done.
Qed.

Lemma assoc_remove_ne k k' l : k <> k' -> assoc k (assoc_remove k' l) = assoc k l.
Proof.
  intros Hne. induction l as [|[k2 v2] l IH]; [done|]. unfold assoc_remove.
  destruct (decide (k2 = k')) as [->|Hk].
  - rewrite filter_cons_False by (simpl; tauto). simpl. rewrite decide_False by done. apply IH.
  - rewrite filter_cons_True by done. simpl. case_decide; [done|apply IH].
Qed.
End assoc.

(** Case analysis on the integer tests of the conditions in the goal. *)
Ltac zcases :=
  repeat (match goal with
  | |- context [Z.gtb ?a ?b] => rewrite (Z.gtb_ltb a b)
  | |- context [Z.geb ?a ?b] => rewrite (Z.geb_leb a b)
  | |- context [Z.ltb ?a ?b] => destruct (Z.ltb_spec a b)
  | |- context [Z.leb ?a ?b] => destruct (Z.leb_spec a b)
  | |- context [Z.eqb ?a ?b] => destruct (Z.eqb_spec a b)
  end; cbv match).

(** The same in a hypothesis. *)
Ltac zcases_in H :=
  repeat (match type of H with
  | context [Z.gtb ?a ?b] => rewrite (Z.gtb_ltb a b) in H
  | context [Z.geb ?a ?b] => rewrite (Z.geb_leb a b) in H
  | context [Z.ltb ?a ?b] => destruct (Z.ltb_spec a b)
  | context [Z.leb ?a ?b] => destruct (Z.leb_spec a b)
  | context [Z.eqb ?a ?b] => destruct (Z.eqb_spec a b)
  end; cbv match in H).

(** Split every monadic bind of a hypothesis that says a command returned. *)
Ltac bind_inv H :=
  repeat match type of H with
  | (_ ≫= _) = Done _ =>
      apply outcome_bind_Done in H;
      let a := fresh "a" in let E := fresh "E" in destruct H as (a & E & H)
  | (_ ≫= _) _ = Done _ =>
      apply cmd_bind_Done in H;
      let a := fresh "a" in let s := fresh "s" in let E := fresh "E" in
      destruct H as (a & s & E & H)
  end.
