(* ===== verification/SortedSpec.v ===== *)
(** * Sorted integer lists: the specification side of the search trees

    The search trees of the repository are specified through their inorder
    listing: a tree is ordered when the listing is strictly increasing, insertion
    is [linsert] on the listing and deletion is [lremove]. *)
From S2P Require Import Prelude.

Definition ssorted (l : list Z) : Prop := StronglySorted Z.lt l.

(** insertion of a key in a strictly increasing list, without duplicates *)
Fixpoint linsert (x : Z) (l : list Z) : list Z :=
  match l with
  | [] => [x]
  | y :: l' => if x <? y then x :: l else if y <? x then y :: linsert x l' else l
  end.

(** removal of a key *)
Definition lremove (x : Z) (l : list Z) : list Z := filter (fun y => y <> x) l.

Lemma ssorted_mid l x r :
  ssorted (l ++ x :: r) <->
  ssorted l /\ ssorted r /\ Forall (fun y => y < x) l /\ Forall (fun y => x < y) r.
Proof.
  unfold ssorted. rewrite StronglySorted_app. split.
  - intros (Hlt & Hl & Hr). inversion Hr; subst. repeat split; [done|done| |done].
    apply Forall_forall. intros y Hy. apply Hlt; [done|]. left.
  - intros (Hl & Hr & Hlx & Hxr). rewrite Forall_forall in Hlx.
    split_and!; [|done|by constructor].
    intros x1 x2 H1 H2. rewrite Forall_forall in Hxr.
    apply elem_of_cons in H2 as [->|H2]; [by apply Hlx|].
    specialize (Hlx x1 H1). specialize (Hxr x2 H2). lia.
Qed.

Lemma linsert_lt x l y r :
  ssorted (l ++ y :: r) -> x < y -> linsert x (l ++ y :: r) = linsert x l ++ y :: r.
Proof.
  intros Hs Hx. induction l as [|a l IH]; simpl.
  - zcases; first [lia|done].
  - inversion Hs; subst. zcases; [done| |done]. rewrite IH by done. done.
Qed.

Lemma linsert_gt x l y r :
  ssorted (l ++ y :: r) -> y < x -> linsert x (l ++ y :: r) = l ++ y :: linsert x r.
Proof.
  intros (Hl & Hr & Hly & Hyr)%ssorted_mid Hx. induction l as [|a l IH]; simpl.
  - zcases; first [lia|done].
  - inversion Hl; inversion Hly; simplify_eq/=. zcases; [lia| |lia]. by rewrite IH.
Qed.

Lemma linsert_eq x l r :
  ssorted (l ++ x :: r) -> linsert x (l ++ x :: r) = l ++ x :: r.
Proof.
  intros (Hl & Hr & Hly & Hyr)%ssorted_mid. induction l as [|a l IH]; simpl.
  - zcases; first [lia|done].
  - inversion Hl; inversion Hly; simplify_eq/=. zcases; [lia| |lia]. by rewrite IH.
Qed.

Lemma elem_of_linsert x y l : y ∈ linsert x l <-> y = x \/ y ∈ l.
Proof.
  induction l as [|a l IH]; simpl; [set_solver|].
  zcases; [set_solver|set_solver|]. assert (x = a) by lia. set_solver.
Qed.

Lemma linsert_sorted x l : ssorted l -> ssorted (linsert x l).
Proof.
  induction 1 as [|a l Hl IH Ha]; simpl; [repeat constructor|].
  zcases.
  - repeat constructor; [done|done|done|].
    eapply Forall_impl; [done|]. simpl. lia.
  - constructor; [done|]. apply Forall_forall. intros y [->|Hy]%elem_of_linsert; [done|].
    rewrite Forall_forall in Ha. by apply Ha.
  - by constructor.
Qed.

Lemma lremove_app x l r : lremove x (l ++ r) = lremove x l ++ lremove x r.
Proof. apply filter_app. Qed.

Lemma lremove_id x l : x ∉ l -> lremove x l = l.
Proof.
  induction l as [|a l IH]; intros Hx; [done|]. unfold lremove.
  rewrite filter_cons_True by set_solver. f_equal. apply IH. set_solver.
Qed.

Lemma lremove_lt x l y r :
  ssorted (l ++ y :: r) -> x < y -> lremove x (l ++ y :: r) = lremove x l ++ y :: r.
Proof.
  intros (_ & _ & _ & Hr)%ssorted_mid Hx. rewrite lremove_app. f_equal.
  apply lremove_id. intros [->|Hin]%elem_of_cons; [lia|].
  rewrite Forall_forall in Hr. specialize (Hr _ Hin). lia.
Qed.

Lemma lremove_gt x l y r :
  ssorted (l ++ y :: r) -> y < x -> lremove x (l ++ y :: r) = l ++ y :: lremove x r.
Proof.
  intros (_ & _ & Hl & _)%ssorted_mid Hx. rewrite lremove_app. f_equal.
  - apply lremove_id. intros Hin. rewrite Forall_forall in Hl.
    specialize (Hl _ Hin). lia.
  - unfold lremove. rewrite filter_cons_True by lia. done.
Qed.

Lemma lremove_eq x l r : ssorted (l ++ x :: r) -> lremove x (l ++ x :: r) = l ++ r.
Proof.
  intros (_ & _ & Hl & Hr)%ssorted_mid. rewrite lremove_app. rewrite Forall_forall in Hl, Hr.
  rewrite (lremove_id x l) by (intros Hin; specialize (Hl _ Hin); lia).
  unfold lremove. rewrite filter_cons_False by naive_solver. f_equal.
  apply lremove_id. intros Hin; specialize (Hr _ Hin); lia.
Qed.

Lemma elem_of_lremove x y l : y ∈ lremove x l <-> y ∈ l /\ y <> x.
Proof. unfold lremove. rewrite list_elem_of_filter. naive_solver. Qed.

Lemma lremove_sorted x l : ssorted l -> ssorted (lremove x l).
Proof.
  unfold ssorted, lremove. induction 1 as [|a l Hl IH Ha]; [constructor|].
  destruct (decide (a <> x)).
  - rewrite filter_cons_True by done. constructor; [done|].
    apply Forall_forall. intros y [_ Hy]%list_elem_of_filter. rewrite Forall_forall in Ha. by apply Ha.
  - rewrite filter_cons_False by done. done.
Qed.

(** The least key of a sorted list sits in front: removing it leaves the tail. *)
Lemma lremove_head x l : ssorted (x :: l) -> lremove x (x :: l) = l.
Proof. intros H. apply (lremove_eq x [] l H). Qed.

Lemma ssorted_NoDup l : ssorted l -> NoDup l.
Proof.
  induction 1 as [|a l Hl IH Ha]; constructor; [|done].
  intros Hin. rewrite Forall_forall in Ha. specialize (Ha _ Hin). lia.
Qed.

#[export] Hint Resolve linsert_sorted lremove_sorted ssorted_NoDup : iitm.
#[export] Hint Rewrite elem_of_linsert elem_of_lremove lremove_app : iitm.
