(* ===== verification/LinkedHeap.v ===== *)
(** * Heaps of linked nodes

    The linked structures of the repository that alias their nodes (a node reached
    both from a list and from a hash chain) are modelled over an explicit heap: a
    finite map from locations to nodes.  [HeapState] is the interface a component's
    state offers to the load, store, malloc and free commands; [DLNode] the
    interface a node type offers to the theory of doubly linked lists. *)
From S2P Require Import Prelude.

Abbreviation loc := positive.
(** a C pointer to a heap node: [None] is NULL *)
Abbreviation ptr := (option positive).

Class HeapState (S V : Type) := {
  heap_of : S -> gmap loc V;
  with_heap : gmap loc V -> S -> S;
  heap_of_with : forall h s, heap_of (with_heap h s) = h;
  with_with : forall h h' s, with_heap h (with_heap h' s) = with_heap h s;
}.

Section commands.
Context {S V : Type} `{!HeapState S V}.

(** [*p]: undefined for NULL and for a freed or never allocated location *)
Definition load (p : ptr) : cmd S V := fun s =>
  match p with
  | None => Undef
  | Some q => match heap_of s !! q with Some v => Done (v, s) | None => Undef end
  end.

Definition store (p : ptr) (v : V) : cmd S unit := fun s =>
  match p with
  | None => Undef
  | Some q => match heap_of s !! q with
              | Some _ => Done (tt, with_heap (<[q := v]> (heap_of s)) s)
              | None => Undef
              end
  end.

(** [p->field = e] for one field: [f] is the update of that field *)
Definition update (p : ptr) (f : V -> V) : cmd S unit := fun s =>
  match p with
  | None => Undef
  | Some q => match heap_of s !! q with
              | Some _ => Done (tt, with_heap (alter f q (heap_of s)) s)
              | None => Undef
              end
  end.

(** [malloc], taken to succeed, with the contents the code then writes *)
Definition alloc (v : V) : cmd S ptr := fun s =>
  let p := fresh (dom (heap_of s)) in
  Done (Some p, with_heap (<[p := v]> (heap_of s)) s).

Definition free (p : ptr) : cmd S unit := fun s =>
  match p with
  | None => Done (tt, s)
  | Some q => match heap_of s !! q with
              | Some _ => Done (tt, with_heap (delete q (heap_of s)) s)
              | None => Undef
              end
  end.

Lemma load_ok s p v : heap_of s !! p = Some v -> load (Some p) s = Done (v, s).
Proof. unfold load. by intros ->. Qed.

Lemma store_ok s p v v' : heap_of s !! p = Some v ->
  store (Some p) v' s = Done (tt, with_heap (<[p := v']> (heap_of s)) s).
Proof. unfold store. by intros ->. Qed.

Lemma update_ok s p f v : heap_of s !! p = Some v ->
  update (Some p) f s = Done (tt, with_heap (alter f p (heap_of s)) s).
Proof. unfold update. by intros ->. Qed.

Lemma free_ok s p v : heap_of s !! p = Some v ->
  free (Some p) s = Done (tt, with_heap (delete p (heap_of s)) s).
Proof. unfold free. by intros ->. Qed.

Lemma alloc_ok s v : exists p, heap_of s !! p = None /\
  alloc v s = Done (Some p, with_heap (<[p := v]> (heap_of s)) s).
Proof.
  exists (fresh (dom (heap_of s))). split; [|done].
  apply not_elem_of_dom, is_fresh.
Qed.
End commands.

(** ** Doubly linked lists *)

Class DLNode (V P : Type) := {
  prv : V -> ptr;
  nxt : V -> ptr;
  pay : V -> P;
  set_prv : ptr -> V -> V;
  set_nxt : ptr -> V -> V;
  prv_set_prv : forall p v, prv (set_prv p v) = p;
  nxt_set_prv : forall p v, nxt (set_prv p v) = nxt v;
  pay_set_prv : forall p v, pay (set_prv p v) = pay v;
  prv_set_nxt : forall p v, prv (set_nxt p v) = prv v;
  nxt_set_nxt : forall p v, nxt (set_nxt p v) = p;
  pay_set_nxt : forall p v, pay (set_nxt p v) = pay v;
}.

#[export] Hint Rewrite @prv_set_prv @nxt_set_prv @pay_set_prv @prv_set_nxt @nxt_set_nxt @pay_set_nxt
  @heap_of_with @with_with : iitm.

Section dll.
Context {V P : Type} `{!DLNode V P}.
Implicit Types (h : gmap loc V) (l : list (loc * P)) (pv nx : ptr).

(** the location of the first, resp. last, node, [d] if there is none *)
Definition firstp l (d : ptr) : ptr := match l with [] => d | x :: _ => Some x.1 end.
Definition lastp l (d : ptr) : ptr := match last l with None => d | Some x => Some x.1 end.

(** the heap holds the chain [l], entered from [pv] and leaving to [nx] *)
Fixpoint dll h pv l nx : Prop :=
  match l with
  | [] => True
  | x :: l' =>
      (exists v, h !! x.1 = Some v /\ pay v = x.2 /\ prv v = pv /\ nxt v = firstp l' nx) /\
      dll h (Some x.1) l' nx
  end.

Lemma lastp_snoc l x d : lastp (l ++ [x]) d = Some x.1.
Proof. unfold lastp. by rewrite last_snoc. Qed.

Lemma lastp_cons l x d : lastp (x :: l) d = lastp l (Some x.1).
Proof. unfold lastp. rewrite last_cons. by destruct (last l). Qed.

Lemma firstp_app l1 l2 d : firstp (l1 ++ l2) d = firstp l1 (firstp l2 d).
Proof. by destruct l1. Qed.

Lemma lastp_app l1 l2 d : lastp (l1 ++ l2) d = lastp l2 (lastp l1 d).
Proof.
  unfold lastp. rewrite last_app. by destruct (last l2).
Qed.

Lemma dll_app h pv l1 l2 nx :
  dll h pv (l1 ++ l2) nx <-> dll h pv l1 (firstp l2 nx) /\ dll h (lastp l1 pv) l2 nx.
Proof.
  revert pv. induction l1 as [|x l1 IH]; intros pv; simpl; [tauto|].
  rewrite IH, lastp_cons, firstp_app. tauto.
Qed.

Lemma dll_frame h p v pv l nx :
  p ∉ l.*1 -> dll (<[p := v]> h) pv l nx <-> dll h pv l nx.
Proof.
  revert pv. induction l as [|x l IH]; intros pv Hp; simpl; [done|].
  rewrite fmap_cons in Hp. apply not_elem_of_cons in Hp as [Hne Hp].
  rewrite IH by done. by rewrite lookup_insert_ne.
Qed.

Lemma dll_frame_delete h p pv l nx :
  p ∉ l.*1 -> dll (delete p h) pv l nx <-> dll h pv l nx.
Proof.
  revert pv. induction l as [|x l IH]; intros pv Hp; simpl; [done|].
  rewrite fmap_cons in Hp. apply not_elem_of_cons in Hp as [Hne Hp].
  rewrite IH by done. by rewrite lookup_delete_ne.
Qed.

Lemma dll_lookup h pv l1 x l2 nx :
  dll h pv (l1 ++ x :: l2) nx ->
  exists v, h !! x.1 = Some v /\ pay v = x.2 /\ prv v = lastp l1 pv /\ nxt v = firstp l2 nx.
Proof. intros [_ Hx]%dll_app. simpl in Hx. naive_solver. Qed.

Lemma dll_elem h pv l nx x : dll h pv l nx -> x ∈ l -> exists v, h !! x.1 = Some v /\ pay v = x.2.
Proof.
  intros H (l1 & l2 & ->)%list_elem_of_split.
  apply dll_lookup in H. naive_solver.
Qed.

Lemma dll_frame_alter h p f pv l nx :
  p ∉ l.*1 -> dll (alter f p h) pv l nx <-> dll h pv l nx.
Proof.
  revert pv. induction l as [|x l IH]; intros pv Hp; simpl; [done|].
  rewrite fmap_cons in Hp. apply not_elem_of_cons in Hp as [Hne Hp].
  rewrite IH by done. by rewrite lookup_alter_ne.
Qed.

(** [x->next = nx'] on the last node of a chain *)
Lemma dll_set_next h pv l x nx nx' :
  dll h pv (l ++ [x]) nx -> x.1 ∉ l.*1 ->
  dll (alter (set_nxt nx') x.1 h) pv (l ++ [x]) nx'.
Proof.
  intros [Hl Hx]%dll_app Hni. apply dll_app. split; [by apply dll_frame_alter|].
  simpl in *. destruct Hx as [(v & Hv & ? & ? & ?) _]. split; [|done].
  exists (set_nxt nx' v). rewrite lookup_alter_eq, Hv. split; [done|].
  by autorewrite with iitm.
Qed.

(** [x->prev = pv'] on the first node of a chain *)
Lemma dll_set_prev h pv l x nx pv' :
  dll h pv (x :: l) nx -> x.1 ∉ l.*1 ->
  dll (alter (set_prv pv') x.1 h) pv' (x :: l) nx.
Proof.
  intros [(v & Hv & ? & ? & ?) Hl] Hni. simpl. split.
  - exists (set_prv pv' v). rewrite lookup_alter_eq, Hv. split; [done|].
    by autorewrite with iitm.
  - by apply dll_frame_alter.
Qed.

Definition alter_ptr (f : V -> V) (p : ptr) h : gmap loc V :=
  match p with None => h | Some q => alter f q h end.

Lemma lookup_alter_ptr_ne f p q h : p <> Some q -> alter_ptr f p h !! q = h !! q.
Proof. destruct p as [r|]; simpl; [|done]. intros Hne. apply lookup_alter_ne. congruence. Qed.

Lemma dom_alter_ptr f p h : dom (alter_ptr f p h) = dom h.
Proof. destruct p; simpl; [apply dom_alter_L|done]. Qed.

Lemma dll_alter_last h pv l nx nx' :
  dll h pv l nx -> NoDup l.*1 ->
  dll (alter_ptr (set_nxt nx') (lastp l None) h) pv l nx'.
Proof.
  destruct l as [|x l _] using rev_ind; [done|]. rewrite lastp_snoc, fmap_app. simpl.
  intros Hl (_ & Hni & _)%NoDup_app. apply dll_set_next with nx; [done|]. set_solver.
Qed.

Lemma dll_alter_first h pv pv' l nx :
  dll h pv l nx -> NoDup l.*1 ->
  dll (alter_ptr (set_prv pv') (firstp l None) h) pv' l nx.
Proof.
  destruct l as [|x l]; [done|]. rewrite fmap_cons. intros Hl [Hni _]%NoDup_cons.
  by apply dll_set_prev with pv.
Qed.

Lemma lastp_elem l q : lastp l None = Some q -> q ∈ l.*1.
Proof.
  destruct l as [|x l _] using rev_ind; [done|]. rewrite lastp_snoc. intros [= <-]. set_solver.
Qed.

Lemma firstp_elem l q : firstp l None = Some q -> q ∈ l.*1.
Proof. destruct l as [|x l]; [done|]. intros [= <-]. set_solver. Qed.

Lemma dll_frame_alter_ptr h f p pv l nx :
  (forall q, p = Some q -> q ∉ l.*1) -> dll (alter_ptr f p h) pv l nx <-> dll h pv l nx.
Proof. destruct p as [q|]; simpl; [|done]. intros H. apply dll_frame_alter. by apply H. Qed.

(** what else changes in the nodes does not matter *)
Lemma dll_same h h' pv l nx :
  (forall p v, p ∈ l.*1 -> h !! p = Some v -> exists v', h' !! p = Some v' /\ pay v' = pay v /\ prv v' = prv v /\ nxt v' = nxt v) ->
  dll h pv l nx -> dll h' pv l nx.
Proof.
  revert pv. induction l as [|x l IH]; intros pv Hs; simpl; [done|]. rewrite fmap_cons in Hs.
  intros [(v & Hv & <- & <- & <-) Hl]. split; [apply Hs in Hv; [naive_solver|by left]|].
  apply IH; [|done]. intros p w Hp. apply Hs. by right.
Qed.

(** Unlinking [x]: its neighbours are made to point to each other. *)
Definition unlink (pv nx : ptr) h : gmap loc V :=
  alter_ptr (set_prv pv) nx (alter_ptr (set_nxt nx) pv h).

Lemma dll_unlink h l1 x l2 :
  dll h None (l1 ++ x :: l2) None -> NoDup (l1 ++ x :: l2).*1 ->
  dll (unlink (lastp l1 None) (firstp l2 None) h) None (l1 ++ l2) None /\
  (unlink (lastp l1 None) (firstp l2 None) h) !! x.1 = h !! x.1.
Proof.
  intros [Hl1 [_ Hl2]]%dll_app. rewrite fmap_app, fmap_cons.
  intros (Hn1 & Hd & [Hx Hn2]%NoDup_cons)%NoDup_app.
  assert (forall q, lastp l1 None = Some q -> q ∉ x.1 :: l2.*1) as Hlast.
  { intros q Hq%lastp_elem. by apply Hd. }
  assert (forall q, firstp l2 None = Some q -> (q ∉ l1.*1) /\ (q <> x.1)) as Hfirst.
  { intros q Hq%firstp_elem. split; [intros ?%Hd; set_solver|set_solver]. }
  unfold unlink. split.
  - apply dll_app. split.
    + apply dll_frame_alter_ptr; [naive_solver|]. by apply dll_alter_last with (firstp (x :: l2) None).
    + apply dll_alter_first with (Some x.1); [|done].
      apply dll_frame_alter_ptr; [set_solver|done].
  - rewrite !lookup_alter_ptr_ne; [done|..]; intros Heq.
    + apply Hlast in Heq. set_solver.
    + apply Hfirst in Heq. naive_solver.
Qed.

(** Linking a node in front of a chain. *)
Definition push_front (p : loc) (nx : ptr) h : gmap loc V :=
  alter_ptr (set_prv (Some p)) nx (alter (set_prv None) p (alter (set_nxt nx) p h)).

Lemma dll_push_front h l x v :
  dll h None l None -> NoDup (x :: l).*1 -> h !! x.1 = Some v -> pay v = x.2 ->
  dll (push_front x.1 (firstp l None) h) None (x :: l) None.
Proof.
  rewrite fmap_cons. intros Hl [Hx Hn]%NoDup_cons Hv Hp. unfold push_front. split.
  - rewrite lookup_alter_ptr_ne by (intros ?%firstp_elem; done).
    rewrite !lookup_alter_eq, Hv. simpl. eexists. split; [done|]. by autorewrite with iitm.
  - apply dll_alter_first with None; [|done]. by rewrite !dll_frame_alter.
Qed.

Lemma dom_unlink pv nx h : dom (unlink pv nx h) = dom h.
Proof. unfold unlink. by rewrite !dom_alter_ptr. Qed.

Lemma dom_push_front p nx h : dom (push_front p nx h) = dom h.
Proof. unfold push_front. by rewrite dom_alter_ptr, !dom_alter_L. Qed.
End dll.

(** ** Singly linked lists *)

Class SLNode (V P : Type) := {
  snx : V -> ptr;
  spay : V -> P;
  set_snx : ptr -> V -> V;
  snx_set_snx : forall p v, snx (set_snx p v) = p;
  spay_set_snx : forall p v, spay (set_snx p v) = spay v;
}.

Section sll.
Context {V P : Type} `{!SLNode V P}.
Implicit Types (h : gmap loc V) (l : list (loc * P)) (e : ptr).

(** the heap holds the chain [l], which starts at [firstp l e] and leads to [e] *)
Fixpoint sll h l e : Prop :=
  match l with
  | [] => True
  | x :: l' => (exists v, h !! x.1 = Some v /\ spay v = x.2 /\ snx v = firstp l' e) /\ sll h l' e
  end.

Lemma sll_app h l1 l2 e : sll h (l1 ++ l2) e <-> sll h l1 (firstp l2 e) /\ sll h l2 e.
Proof. induction l1 as [|x l1 IH]; simpl; [tauto|]. rewrite IH, firstp_app. tauto. Qed.

Lemma sll_frame h h' l e : (forall p, p ∈ l.*1 -> h' !! p = h !! p) -> sll h l e -> sll h' l e.
Proof.
  induction l as [|x l IH]; intros Heq; [done|]. rewrite fmap_cons in Heq.
  intros [Hx Hl]. split; [rewrite Heq by (by left); done|].
  apply IH; [|done]. intros p Hp. apply Heq. by right.
Qed.

Lemma sll_same h h' l e :
  (forall p v, p ∈ l.*1 -> h !! p = Some v -> exists v', h' !! p = Some v' /\ spay v' = spay v /\ snx v' = snx v) ->
  sll h l e -> sll h' l e.
Proof.
  induction l as [|x l IH]; intros Hs; simpl; [done|]. rewrite fmap_cons in Hs.
  intros [(v & Hv & <- & <-) Hl]. split; [apply Hs in Hv; [naive_solver|by left]|].
  apply IH; [|done]. intros p w Hp. apply Hs. by right.
Qed.

Lemma sll_elem h l e x : sll h l e -> x ∈ l -> exists v, h !! x.1 = Some v /\ spay v = x.2.
Proof.
  induction l as [|y l IH]; [by intros _ ?%elem_of_nil|].
  intros [(v & ? & ? & _) Hl] [->|Hx]%elem_of_cons; [by eauto|by apply IH].
Qed.

Lemma sll_fuel h l e : sll h l e -> NoDup l.*1 -> (length l <= size h)%nat.
Proof.
  intros Hl Hn. rewrite <- (length_fmap fst l), <- size_dom, <- (size_list_to_set (C := gset loc) l.*1) by done.
  apply subseteq_size. intros p (x & -> & Hx)%elem_of_list_to_set%list_elem_of_fmap.
  destruct (sll_elem _ _ _ _ Hl Hx) as (v & Hv & _). by apply elem_of_dom_2 in Hv.
Qed.

(** redirecting the end of a non-empty chain *)
Lemma sll_set_end h l x e e' v : sll h (l ++ [x]) e -> x.1 ∉ l.*1 -> h !! x.1 = Some v ->
  sll (<[x.1 := set_snx e' v]> h) (l ++ [x]) e'.
Proof.
  intros [Hl Hx]%sll_app Hni Hv. apply sll_app. split.
  - revert Hl. apply sll_frame. intros p Hp. rewrite lookup_insert_ne; [done|]. by intros <-.
  - simpl in *. destruct Hx as [(v' & Hv' & Hp & _) _]. split; [|done]. exists (set_snx e' v).
    rewrite lookup_insert_eq, spay_set_snx, snx_set_snx. split_and!; [done|congruence|done].
Qed.

(** a new first node *)
Lemma sll_cons h l e x v : sll h l e -> x.1 ∉ l.*1 -> spay v = x.2 -> snx v = firstp l e ->
  sll (<[x.1 := v]> h) (x :: l) e.
Proof.
  intros Hl Hni Hp Hn. split; [exists v; by rewrite lookup_insert_eq|].
  revert Hl. apply sll_frame. intros p Hx. rewrite lookup_insert_ne; [done|]. by intros <-.
Qed.

(** changing the payload of a node in place *)
Lemma sll_set_pay h l1 x y l2 e v v' : sll h (l1 ++ x :: l2) e -> NoDup (l1 ++ x :: l2).*1 ->
  h !! x.1 = Some v -> y.1 = x.1 -> spay v' = y.2 -> snx v' = snx v ->
  sll (<[x.1 := v']> h) (l1 ++ y :: l2) e.
Proof.
  intros [Hl1 [Hx Hl2]]%sll_app Hnd Hv Hyx Hp Hs. rewrite fmap_app, fmap_cons in Hnd.
  apply NoDup_app in Hnd as (_ & Hd & [Hni _]%NoDup_cons). apply sll_app.
  assert (firstp (y :: l2) e = firstp (x :: l2) e) as -> by (simpl; by rewrite Hyx). split.
  - revert Hl1. apply sll_frame. intros p Hpl. rewrite lookup_insert_ne; [done|]. intros <-.
    apply (Hd x.1 Hpl). by left.
  - split.
    + destruct Hx as (v0 & Hv0 & _ & Hn0). exists v'. rewrite Hyx, lookup_insert_eq.
      split_and!; [done..|]. rewrite Hs. by simplify_eq.
    + revert Hl2. apply sll_frame. intros p Hpl. rewrite lookup_insert_ne; [done|]. by intros <-.
Qed.
End sll.
