(* ===== verification/CString.v ===== *)
(** * The string.h and stdio.h scanning functions the programs use

    [span], [skip_ws], [scan_s] and [scan_set] are the conversions of [sscanf]:
    a blank in the format skips white space, [%63s] reads at most 63 characters
    that are not white space after skipping some, [%255[^\n]] at most 255
    characters that are not a newline.  [strcspn]-style cuts, [strncmp] prefixes
    and [strstr] complete the list. *)
From S2P Require Import Prelude.

(** the characters [isspace] accepts in the C locale *)
Definition is_space (a : ascii) : bool :=
  let n := Ascii.nat_of_ascii a in ((9 <=? n) && (n <=? 13) || (n =? 32))%nat.

Definition is_char (c : nat) (a : ascii) : bool := (Ascii.nat_of_ascii a =? c)%nat.
Definition is_newline : ascii -> bool := is_char 10.
Definition is_crlf (a : ascii) : bool := is_char 13 a || is_char 10 a.

Fixpoint str_all (p : ascii -> bool) (s : string) : bool :=
  match s with
  | EmptyString => true
  | String a s' => p a && str_all p s'
  end.

Definition head_is (p : ascii -> bool) (s : string) : bool :=
  match s with EmptyString => false | String a _ => p a end.

(** the longest prefix of at most [n] characters that satisfy [p], and the rest *)
Fixpoint span (n : nat) (p : ascii -> bool) (s : string) : string * string :=
  match n, s with
  | S n', String a s' =>
      if p a then let '(t, r) := span n' p s' in (String a t, r) else (EmptyString, s)
  | _, _ => (EmptyString, s)
  end.

Fixpoint skip_ws (s : string) : string :=
  match s with
  | String a s' => if is_space a then skip_ws s' else s
  | EmptyString => EmptyString
  end.

(** [%<n>s] *)
Definition scan_s (n : nat) (s : string) : option (string * string) :=
  match span n (fun a => negb (is_space a)) (skip_ws s) with
  | (EmptyString, _) => None
  | (t, r) => Some (t, r)
  end.

(** [%<n>[^\n]] *)
Definition scan_line (n : nat) (s : string) : option (string * string) :=
  match span n (fun a => negb (is_newline a)) s with
  | (EmptyString, _) => None
  | (t, r) => Some (t, r)
  end.

(** [s[strcspn(s, set)] = 0] *)
Definition cut (p : ascii -> bool) (s : string) : string :=
  (span (strlen s) (fun a => negb (p a)) s).1.

(** [strncmp(s, pre, strlen(pre)) == 0], and the string after the prefix *)
Fixpoint strip_prefix (pre s : string) : option string :=
  match pre, s with
  | EmptyString, _ => Some s
  | String a pre', String b s' => if Ascii.eqb a b then strip_prefix pre' s' else None
  | _, EmptyString => None
  end.

Definition starts_with (pre s : string) : bool := bool_decide (is_Some (strip_prefix pre s)).

(** [strstr(s, sub) != NULL] *)
Fixpoint contains (sub s : string) : bool :=
  starts_with sub s ||
  match s with EmptyString => false | String _ s' => contains sub s' end.

(** [fgets(line, n + 1, f)]: at most [n] characters, up to and with a newline *)
Fixpoint fgets (n : nat) (s : string) : string * string :=
  match n, s with
  | S n', String a s' =>
      if is_newline a then (String a EmptyString, s')
      else let '(t, r) := fgets n' s' in (String a t, r)
  | _, _ => (EmptyString, s)
  end.

(** ** Lemmas *)

Lemma fgets_line n l rest :
  str_all (fun a => negb (is_newline a)) l = true -> (strlen l < n)%nat ->
  fgets n (l +:+ nl +:+ rest) = (l +:+ nl, rest).
Proof.
  revert n. induction l as [|a l IH]; intros n; simpl.
  - intros _ Hn. destruct n as [|n]; [lia|done].
  - intros [Ha%negb_true_iff Hl]%andb_true_iff Hn. destruct n as [|n]; [lia|].
    simpl. rewrite Ha, IH; [done|done|lia].
Qed.

Lemma strlen_app s t : strlen (s +:+ t) = (strlen s + strlen t)%nat.
Proof. induction s; simpl; auto. Qed.

Lemma str_app_nil_r s : s +:+ "" = s.
Proof. induction s as [|a s IH]; simpl; [done|]. by f_equal. Qed.

Lemma str_app_assoc s t u : (s +:+ t) +:+ u = s +:+ (t +:+ u).
Proof. induction s as [|a s IH]; simpl; [done|]. by f_equal. Qed.

Lemma str_all_app p s t : str_all p (s +:+ t) = str_all p s && str_all p t.
Proof. induction s as [|a s IH]; simpl; [done|]. by rewrite IH, andb_assoc. Qed.

Lemma str_all_impl (p q : ascii -> bool) s :
  (forall a, p a = true -> q a = true) -> str_all p s = true -> str_all q s = true.
Proof.
  intros Hpq. induction s as [|a s IH]; simpl; [done|].
  rewrite !andb_true_iff. intros [Ha Hs]. auto.
Qed.

(** [span] reads exactly a run of accepted characters when the length bound
    allows it and the run is followed by a rejected character or the end. *)
Lemma span_app n p t s :
  str_all p t = true -> (strlen t <= n)%nat -> (head_is p s = false \/ strlen t = n) ->
  span n p (t +:+ s) = (t, s).
Proof.
  revert n. induction t as [|a t IH]; intros n; simpl.
  - intros _ _ [Hs|<-]; [|done]. destruct n; [done|]. destruct s as [|b s]; [done|].
    simpl in *. by rewrite Hs.
  - intros [Ha Ht]%andb_true_iff Hn Hs. destruct n as [|n]; [lia|]. simpl. rewrite Ha, IH; [done|done|lia|].
    destruct Hs; [by left|right; lia].
Qed.

Lemma span_whole n p t : str_all p t = true -> (strlen t <= n)%nat -> span n p t = (t, "").
Proof.
  intros Ht Hn. rewrite <- (str_app_nil_r t) at 1. apply span_app; [done|done|by left].
Qed.

Lemma skip_ws_id s : head_is is_space s = false -> skip_ws s = s.
Proof. destruct s as [|a s]; simpl; [done|]. by intros ->. Qed.

Lemma scan_s_app n t s :
  t <> "" -> str_all (fun a => negb (is_space a)) t = true -> (strlen t <= n)%nat ->
  (head_is (fun a => negb (is_space a)) s = false \/ strlen t = n) ->
  scan_s n (t +:+ s) = Some (t, s).
Proof.
  intros Hne Ht Hn Hs. unfold scan_s. rewrite skip_ws_id.
  - rewrite span_app by done. by destruct t.
  - destruct t as [|a t]; [done|]. simpl in *. apply andb_true_iff in Ht as [Ha _].
    by apply negb_true_iff.
Qed.

Lemma scan_s_whole n t :
  t <> "" -> str_all (fun a => negb (is_space a)) t = true -> (strlen t <= n)%nat ->
  scan_s n t = Some (t, "").
Proof. intros. rewrite <- (str_app_nil_r t) at 1. apply scan_s_app; auto. Qed.

Lemma scan_s_space n a s : is_space a = true -> scan_s n (String a s) = scan_s n s.
Proof. intros Ha. unfold scan_s. simpl. by rewrite Ha. Qed.

Lemma scan_line_whole n t :
  t <> "" -> str_all (fun a => negb (is_newline a)) t = true -> (strlen t <= n)%nat ->
  scan_line n t = Some (t, "").
Proof. intros Hne Ht Hn. unfold scan_line. rewrite span_whole by done. by destruct t. Qed.

Lemma cut_id p s : str_all (fun a => negb (p a)) s = true -> cut p s = s.
Proof. intros Hs. unfold cut. by rewrite span_whole. Qed.

Lemma cut_app p s t :
  str_all (fun a => negb (p a)) s = true -> head_is p t = true -> cut p (s +:+ t) = s.
Proof.
  intros Hs Ht. unfold cut. rewrite span_app; [done|done|rewrite strlen_app; lia|].
  left. destruct t as [|a t]; [done|]. simpl in *. by rewrite Ht.
Qed.

Lemma strip_prefix_app pre s : strip_prefix pre (pre +:+ s) = Some s.
Proof. induction pre as [|a pre IH]; simpl; [done|]. by rewrite Ascii.eqb_refl. Qed.

Lemma starts_with_app pre s : starts_with pre (pre +:+ s) = true.
Proof. apply bool_decide_eq_true. rewrite strip_prefix_app. eauto. Qed.

Lemma strtrunc_id n s : (strlen s <= n)%nat -> strtrunc n s = s.
Proof.
  revert n. induction s as [|a s IH]; intros n; simpl; [by destruct n|].
  destruct n as [|n]; [lia|]. intros H. simpl. rewrite IH; [done|lia].
Qed.

Lemma strlen_strtrunc n s : (strlen (strtrunc n s) <= n)%nat.
Proof.
  revert n. induction s as [|a s IH]; intros n; destruct n as [|n]; simpl; try lia.
  specialize (IH n). lia.
Qed.

Lemma str_all_strtrunc p n s : str_all p s = true -> str_all p (strtrunc n s) = true.
Proof.
  revert n. induction s as [|a s IH]; intros [|n]; simpl; try done.
  intros [Ha Hs]%andb_true_iff. by rewrite Ha, IH.
Qed.

Lemma strtrunc_app n s t : strtrunc n (s +:+ t) = strtrunc n s +:+ strtrunc (n - strlen s) t.
Proof.
  revert n. induction s as [|a s IH]; intros n; [by rewrite Nat.sub_0_r; destruct n|].
  destruct n as [|n]; [by destruct t|]. cbn. by rewrite IH.
Qed.

Lemma strtrunc_le n s : (strlen (strtrunc n s) <= strlen s)%nat.
Proof. revert n. induction s as [|a s IH]; intros [|n]; cbn; try lia. specialize (IH n). lia. Qed.

Lemma strlen_strtrunc_eq n s : (n <= strlen s)%nat -> strlen (strtrunc n s) = n.
Proof. revert n. induction s as [|a s IH]; intros [|n]; cbn; try lia. intros H. rewrite IH; lia. Qed.

(** the last line of a file that does not end in a newline *)
Lemma fgets_last n l : str_all (fun a => negb (is_newline a)) l = true -> (strlen l <= n)%nat -> fgets n l = (l, "").
Proof.
  revert n. induction l as [|a l IH]; intros [|n]; simpl; try done; try lia.
  intros [Ha%negb_true_iff Hl]%andb_true_iff Hn. rewrite Ha, IH; [done|done|lia].
Qed.

Lemma starts_with_strtrunc pre n s : starts_with pre (strtrunc n s) = true -> starts_with pre s = true.
Proof.
  unfold starts_with. rewrite !bool_decide_eq_true. revert n s. induction pre as [|a pre IH]; intros n s; [by eexists|].
  destruct n as [|n], s as [|b s]; cbn; try (by intros [? [=]]). destruct (Ascii.eqb a b); [apply IH|by intros [? [=]]].
Qed.

Lemma contains_strtrunc sub n s : contains sub s = false -> contains sub (strtrunc n s) = false.
Proof.
  revert n. induction s as [|a s IH]; intros n.
  - by destruct n.
  - intros [Hs Hc]%orb_false_iff. assert (starts_with sub (strtrunc n (String a s)) = false) as He.
    { destruct (starts_with sub (strtrunc n (String a s))) eqn:He; [|done]. apply starts_with_strtrunc in He. congruence. }
    destruct n as [|n]; cbn in *; rewrite He; [done|]. by apply IH.
Qed.

Lemma not_space_not_newline s :
  str_all (fun a => negb (is_space a)) s = true -> str_all (fun a => negb (is_newline a)) s = true.
Proof.
  apply str_all_impl. intros a. unfold is_space, is_newline, is_char. rewrite !negb_true_iff.
  intros [H _]%orb_false_iff. apply Nat.eqb_neq. intros Heq. rewrite Heq in H. done.
Qed.

Lemma not_space_not_crlf s :
  str_all (fun a => negb (is_space a)) s = true -> str_all (fun a => negb (is_crlf a)) s = true.
Proof.
  apply str_all_impl. intros a. unfold is_space, is_crlf, is_char. rewrite !negb_true_iff.
  intros [H _]%orb_false_iff. apply orb_false_iff.
  split; apply Nat.eqb_neq; intros Heq; rewrite Heq in H; done.
Qed.

#[export] Hint Rewrite strlen_app str_all_app str_app_assoc : iitm.
#[export] Hint Resolve not_space_not_newline not_space_not_crlf strtrunc_id : iitm.
