(* ===== verification/AVLTree.v ===== *)
(** * The AVL tree of Trees/AVLTree.c

    A [struct node] is owned by exactly one pointer (its parent's child field or
    the [root] variable of [main]), so a tree of nodes is a value of [node], with
    [NULL] for the null pointer.  Every dereference of a possibly null pointer is
    explicit: the rotations and the value tests return an [outcome], [Undef] when
    the C code would read through NULL.  What the functions print is the list of
    strings they return.  [malloc] is taken to succeed, as the code does. *)
From S2P Require Import Prelude SortedSpec.

(** ** The program *)

Inductive node : Type :=
| NULL
| Node (val height : Z) (leftChild rightChild : node).

Definition max (a b : Z) : Z := if a >? b then a else b.

Definition getHeight (n : node) : Z :=
  match n with NULL => 0 | Node _ h _ _ => h end.

Definition getBalance (n : node) : Z :=
  match n with NULL => 0 | Node _ _ l r => getHeight l - getHeight r end.

Definition newNode (val : Z) : node := Node val 1 NULL NULL.

(** [n->val] *)
Definition val_of (n : node) : outcome Z :=
  match n with NULL => Undef | Node v _ _ _ => Done v end.

Definition rotateRight (y : node) : outcome node :=
  match y with
  | Node yv _ (Node xv _ xl T2) yr =>
      let y := Node yv (max (getHeight T2) (getHeight yr) + 1) T2 yr in
      Done (Node xv (max (getHeight xl) (getHeight y) + 1) xl y)
  | _ => Undef
  end.

Definition rotateLeft (x : node) : outcome node :=
  match x with
  | Node xv _ xl (Node yv _ T2 yr) =>
      let x := Node xv (max (getHeight xl) (getHeight T2) + 1) xl T2 in
      Done (Node yv (max (getHeight x) (getHeight yr) + 1) x yr)
  | _ => Undef
  end.

(** lines 71-98: what [insert] does to the node [v] whose subtree was changed *)
Definition insert_fix (v : Z) (l r : node) (val : Z) : outcome (node * list string) :=
  let root := Node v (1 + max (getHeight l) (getHeight r)) l r in
  let balance := getBalance root in
  ll ← c_and (balance >? 1) (lv ← val_of l; mret (val <? lv));
  if (ll : bool) then t ← rotateRight root; mret (t, []) else
  rr ← c_and (balance <? -1) (rv ← val_of r; mret (val >? rv));
  if (rr : bool) then t ← rotateLeft root; mret (t, []) else
  lr ← c_and (balance >? 1) (lv ← val_of l; mret (val >? lv));
  if (lr : bool) then
    l' ← rotateLeft l;
    t ← rotateRight (Node v (getHeight root) l' r); mret (t, [])
  else
  rl ← c_and (balance <? -1) (rv ← val_of r; mret (val <? rv));
  if (rl : bool) then
    r' ← rotateRight r;
    t ← rotateLeft (Node v (getHeight root) l r'); mret (t, [])
  else
  mret (root, ["Inserted " +:+ pretty val +:+ ", Balance at " +:+ pretty v +:+ " = "
               +:+ pretty balance +:+ nl]).

Fixpoint insert (root : node) (val : Z) : outcome (node * list string) :=
  match root with
  | NULL => mret (newNode val, [])
  | Node v _ l r =>
      if val <? v then
        '(l', out) ← insert l val;
        '(t, out') ← insert_fix v l' r val; mret (t, out ++ out')
      else if val >? v then
        '(r', out) ← insert r val;
        '(t, out') ← insert_fix v l r' val; mret (t, out ++ out')
      else mret (root, [])
  end.

(** [findMin] on a non-null tree, returning the value of the leftmost node *)
Fixpoint findMin (n : node) : outcome Z :=
  match n with
  | NULL => Undef
  | Node v _ NULL _ => Done v
  | Node _ _ l _ => findMin l
  end.

(** lines 129-152: rebalancing of [deleteNode] *)
Definition delete_fix (v : Z) (l r : node) : outcome node :=
  let root := Node v (1 + max (getHeight l) (getHeight r)) l r in
  let balance := getBalance root in
  if (balance >? 1) && (getBalance l >=? 0) then rotateRight root
  else if (balance >? 1) && (getBalance l <? 0) then
    l' ← rotateLeft l; rotateRight (Node v (getHeight root) l' r)
  else if (balance <? -1) && (getBalance r <=? 0) then rotateLeft root
  else if (balance <? -1) && (getBalance r >? 0) then
    r' ← rotateRight r; rotateLeft (Node v (getHeight root) l r')
  else mret root.

Fixpoint deleteNode (root : node) (val : Z) : outcome node :=
  match root with
  | NULL => mret NULL
  | Node v _ l r =>
      if val <? v then l' ← deleteNode l val; delete_fix v l' r
      else if val >? v then r' ← deleteNode r val; delete_fix v l r'
      else
        match l, r with
        | NULL, _ => mret r
        | _, NULL => mret l
        | _, _ =>
            m ← findMin r;
            r' ← deleteNode r m;
            delete_fix m l r'
        end
  end.

Fixpoint displayTree (root : node) (space : Z) : list string :=
  match root with
  | NULL => []
  | Node v _ l r =>
      let space := space + 5 in
      displayTree r space ++ replicate (Z.to_nat space) " "
      ++ [pretty v +:+ nl] ++ displayTree l space
  end.

(** the values of the nodes in the order [freeTree] frees them *)
Fixpoint freeTree (root : node) : list Z :=
  match root with
  | NULL => []
  | Node v _ l r => freeTree l ++ freeTree r ++ [v]
  end.

(** One turn of the menu loop: the numbers typed at the prompts are a list.
    [None] as next root is the [return 0] of option 5. *)
Fixpoint insert_all (root : node) (arr : list Z) : outcome (node * list string) :=
  match arr with
  | [] => mret (root, [])
  | x :: arr' =>
      '(root, out) ← insert root x;
      '(root, out') ← insert_all root arr'; mret (root, out ++ out')
  end.

Definition menu_turn (root : node) (input : list Z) :
    outcome (option node * list Z * list string) :=
  match input with
  | 1 :: data :: rest =>
      '(root, out) ← insert root data; mret (Some root, rest, out)
  | 2 :: n :: rest =>
      let k := Z.to_nat n in
      if (length rest <? k)%nat then OutOfFuel else
      '(root, out) ← insert_all root (take k rest); mret (Some root, drop k rest, out)
  | 3 :: rest =>
      mret (Some root, rest, [nl +:+ "AVL Tree Structure:" +:+ nl] ++ displayTree root 0)
  | 4 :: data :: rest => root ← deleteNode root data; mret (Some root, rest, [])
  | 5 :: rest => mret (None, rest, [])
  | 1 :: [] | 2 :: [] | 4 :: [] | [] => OutOfFuel
  | _ :: rest => mret (Some root, rest, ["Invalid option." +:+ nl])
  end.

(** The menu loop of [main]: it ends by option 5; when the input ends first the
    C program keeps repeating the last option for ever, [OutOfFuel] here. *)
Fixpoint main_loop (fuel : nat) (root : node) (input : list Z) : outcome (list string) :=
  match fuel with
  | O => OutOfFuel
  | S fuel =>
      '(next, rest, out) ← menu_turn root input;
      match next with
      | None => mret out
      | Some root => out' ← main_loop fuel root rest; mret (out ++ out')
      end
  end.

Definition main (input : list Z) : outcome (list string) :=
  main_loop (S (length input)) NULL input.

(** what the menu does to the tree, one value at a time (options 1, 2 and 4) *)
Inductive tree_op := Insert (val : Z) | Delete (val : Z).

Definition apply_op (root : node) (o : tree_op) : outcome node :=
  match o with
  | Insert val => '(root, _) ← insert root val; mret root
  | Delete val => deleteNode root val
  end.

Fixpoint apply_ops (root : node) (ops : list tree_op) : outcome node :=
  match ops with [] => mret root | o :: ops => root ← apply_op root o; apply_ops root ops end.

(** ** Specification *)

Fixpoint inorder (t : node) : list Z :=
  match t with
  | NULL => []
  | Node v _ l r => inorder l ++ v :: inorder r
  end.

(** the stored heights are right and every node is balanced *)
Fixpoint balanced (t : node) : Prop :=
  match t with
  | NULL => True
  | Node _ h l r =>
      h = 1 + Z.max (getHeight l) (getHeight r) /\
      -1 <= getHeight l - getHeight r <= 1 /\ balanced l /\ balanced r
  end.

Definition avl (t : node) : Prop := ssorted (inorder t) /\ balanced t.

(** the nodes on the longest path from the root: how deep [insert] and [deleteNode] recurse *)
Fixpoint depth (t : node) : Z :=
  match t with NULL => 0 | Node _ _ l r => 1 + Z.max (depth l) (depth r) end.

(** what the operations do to the sorted listing *)
Definition listing_op (l : list Z) (o : tree_op) : list Z :=
  match o with Insert val => linsert val l | Delete val => lremove val l end.

Definition insertions (ops : list tree_op) : list Z :=
  omap (fun o => match o with Insert val => Some val | Delete _ => None end) ops.

(** how a tree looks when an insertion of [val] made it higher *)
Definition grown (t : node) (val : Z) : Prop :=
  match t with
  | NULL => False
  | Node v _ l r =>
      (l = NULL /\ r = NULL) \/
      (val < v /\ getHeight l = getHeight r + 1) \/
      (v < val /\ getHeight r = getHeight l + 1)
  end.

(** ** Lemmas *)

Lemma max_spec a b : max a b = Z.max a b.
Proof. unfold max. zcases; lia. Qed.

Lemma height_nonneg t : balanced t -> 0 <= getHeight t.
Proof. induction t; simpl; [lia|]. intros (-> & ? & ?%IHt1 & ?%IHt2). lia. Qed.

Lemma height_0 t : balanced t -> getHeight t <= 0 -> t = NULL.
Proof.
  destruct t as [|v h l r]; simpl; [done|]. intros (-> & ? & Hl & Hr) ?.
  pose proof (height_nonneg _ Hl). lia.
Qed.

Lemma height_pos t : balanced t -> 0 < getHeight t ->
  exists v l r, t = Node v (getHeight t) l r /\
    getHeight t = 1 + Z.max (getHeight l) (getHeight r) /\
    -1 <= getHeight l - getHeight r <= 1 /\ balanced l /\ balanced r /\
    0 <= getHeight l /\ 0 <= getHeight r.
Proof.
  destruct t as [|v h l r]; simpl; [lia|]. intros (Hh & ? & Hl & Hr) ?.
  pose proof (height_nonneg _ Hl). pose proof (height_nonneg _ Hr). by exists v, l, r.
Qed.

Ltac open_node t v l r :=
  let Ht := fresh "H" t in
  destruct (height_pos t) as (v & l & r & Ht & ? & ? & ? & ? & ? & ?);
  [done|lia|rewrite Ht in *; clear Ht; simpl in *].

Ltac bsolve := simpl in *; rewrite ?max_spec in *; simpl in *; split_and!;
  try done; try lia; try (repeat (rewrite <- app_assoc; simpl); done).

Lemma rotateRight_inorder y t : rotateRight y = Done t -> inorder t = inorder y.
Proof.
  destruct y as [|yv yh [|xv xh xl T2] yr]; simpl; intros [= <-].
  simpl. by rewrite <- app_assoc.
Qed.

Lemma rotateLeft_inorder x t : rotateLeft x = Done t -> inorder t = inorder x.
Proof.
  destruct x as [|xv xh xl [|yv yh T2 yr]]; simpl; intros [= <-].
  simpl. by rewrite <- app_assoc.
Qed.

Lemma insert_fix_ok v l r val :
  -1 <= getHeight l - getHeight r <= 1 ->
  exists out, insert_fix v l r val = Done (Node v (1 + max (getHeight l) (getHeight r)) l r, out).
Proof.
  intros Hb. unfold insert_fix. simpl.
  rewrite (Z.gtb_ltb (_ - _) 1).
  destruct (Z.ltb_spec 1 (getHeight l - getHeight r)); [lia|].
  destruct (Z.ltb_spec (getHeight l - getHeight r) (-1)); [lia|]. simpl. eauto.
Qed.

Lemma insert_fix_left v l r val :
  balanced l -> balanced r -> grown l val -> getHeight l = getHeight r + 2 ->
  exists t, insert_fix v l r val = Done (t, []) /\ balanced t /\
    getHeight t = getHeight l /\ inorder t = inorder l ++ v :: inorder r.
Proof.
  intros Hl Hr Hg Hh. pose proof (height_nonneg _ Hr).
  open_node l lv ll lr. destruct Hl as (_ & _ & Hll & Hlr).
  unfold insert_fix. simpl. rewrite !(Z.gtb_ltb _ 1).
  destruct (Z.ltb_spec 1 (getHeight l - getHeight r)); [simpl|lia].
  destruct Hg as [[-> ->]|[[Hlt Hg]|[Hlt Hg]]]; simpl in *; [lia| |].
  - destruct (Z.ltb_spec val lv); [|lia]. simpl. eexists. split; [done|].
    bsolve.
  - destruct (Z.ltb_spec val lv); [lia|]. simpl.
    destruct (Z.ltb_spec (getHeight l - getHeight r) (-1)); [lia|]. simpl.
    rewrite Z.gtb_ltb. destruct (Z.ltb_spec lv val); [|lia]. simpl.
    open_node lr xv xl xr. eexists. split; [done|].
    bsolve.
Qed.

Lemma insert_fix_right v l r val :
  balanced l -> balanced r -> grown r val -> getHeight r = getHeight l + 2 ->
  exists t, insert_fix v l r val = Done (t, []) /\ balanced t /\
    getHeight t = getHeight r /\ inorder t = inorder l ++ v :: inorder r.
Proof.
  intros Hl Hr Hg Hh. pose proof (height_nonneg _ Hl).
  open_node r rv rl rr. destruct Hr as (_ & _ & Hrl & Hrr).
  unfold insert_fix. simpl. rewrite !(Z.gtb_ltb (_ - _) 1).
  destruct (Z.ltb_spec 1 (getHeight l - getHeight r)); [lia|simpl].
  destruct (Z.ltb_spec (getHeight l - getHeight r) (-1)); [simpl|lia].
  rewrite Z.gtb_ltb.
  destruct Hg as [[-> ->]|[[Hlt Hg]|[Hlt Hg]]]; simpl in *; [lia| |].
  - destruct (Z.ltb_spec rv val); [lia|]. simpl.
    destruct (Z.ltb_spec val rv); [|lia]. simpl.
    open_node rl xv xl xr. eexists. split; [done|].
    bsolve.
  - destruct (Z.ltb_spec rv val); [|lia]. simpl. eexists. split; [done|].
    bsolve.
Qed.

Lemma insert_ok t val :
  avl t -> exists t' out, insert t val = Done (t', out) /\ balanced t' /\
    inorder t' = linsert val (inorder t) /\
    (getHeight t' = getHeight t \/ getHeight t' = getHeight t + 1 /\ grown t' val).
Proof.
  intros [Hs Hb]. induction t as [|v h l IHl r IHr]; simpl in *.
  - do 2 eexists. split; [done|]. bsolve. right. split; [lia|auto].
  - destruct Hb as (Hh & Hbal & Hl & Hr). pose proof Hs as (Hsl & Hsr & _)%ssorted_mid.
    pose proof (height_nonneg _ Hl). pose proof (height_nonneg _ Hr).
    rewrite Z.gtb_ltb. destruct (Z.ltb_spec val v); [|destruct (Z.ltb_spec v val)].
    + destruct (IHl Hsl Hl) as (l' & out & -> & Hl' & Hi & Hg). simpl.
      rewrite linsert_lt, <- Hi by done.
      destruct (decide (getHeight l' = getHeight r + 2)) as [Hbig|Hok].
      * destruct (insert_fix_left v l' r val) as (t & -> & ? & ? & ?); [done..|naive_solver lia|done|].
        simpl. do 2 eexists. split; [done|]. split_and!; [done|done|]. left. lia.
      * destruct (insert_fix_ok v l' r val) as (out' & ->); [lia|]. simpl.
        do 2 eexists. split; [done|]. bsolve.
    + destruct (IHr Hsr Hr) as (r' & out & -> & Hr' & Hi & Hg). simpl.
      rewrite linsert_gt, <- Hi by done.
      destruct (decide (getHeight r' = getHeight l + 2)) as [Hbig|Hok].
      * destruct (insert_fix_right v l r' val) as (t & -> & ? & ? & ?); [done..|naive_solver lia|done|].
        simpl. do 2 eexists. split; [done|]. split_and!; [done|done|]. left. lia.
      * destruct (insert_fix_ok v l r' val) as (out' & ->); [lia|]. simpl.
        do 2 eexists. split; [done|]. bsolve.
    + assert (v = val) as -> by lia. do 2 eexists. split; [done|]. bsolve.
      by rewrite linsert_eq.
Qed.

Lemma findMin_ok t : t <> NULL -> exists m rest, findMin t = Done m /\ inorder t = m :: rest.
Proof.
  induction t as [|v h l IHl r _]; [done|]. intros _. destruct l as [|lv lh ll lr]; simpl; [eauto|].
  destruct IHl as (m & rest & Hm & Hi); [done|]. simpl in Hm, Hi. rewrite Hm, Hi. eauto.
Qed.

Lemma delete_fix_balanced v l r :
  -1 <= getHeight l - getHeight r <= 1 ->
  delete_fix v l r = Done (Node v (1 + max (getHeight l) (getHeight r)) l r).
Proof.
  intros Hb. unfold delete_fix. simpl. rewrite !(Z.gtb_ltb (_ - _) 1).
  destruct (Z.ltb_spec 1 (getHeight l - getHeight r)); [lia|].
  destruct (Z.ltb_spec (getHeight l - getHeight r) (-1)); [lia|done].
Qed.

Lemma delete_fix_left v l r :
  balanced l -> balanced r -> getHeight l = getHeight r + 2 ->
  exists t, delete_fix v l r = Done t /\ balanced t /\
    getHeight l <= getHeight t <= getHeight l + 1 /\ inorder t = inorder l ++ v :: inorder r.
Proof.
  intros Hl Hr Hh. pose proof (height_nonneg _ Hr).
  open_node l lv ll lr. destruct Hl as (_ & _ & Hll & Hlr).
  unfold delete_fix. simpl. rewrite !(Z.gtb_ltb (_ - _) 1), Z.geb_leb.
  destruct (Z.ltb_spec 1 (getHeight l - getHeight r)); [simpl|lia].
  destruct (Z.leb_spec 0 (getHeight ll - getHeight lr)); simpl.
  - eexists. split; [done|]. bsolve.
  - destruct (Z.ltb_spec (getHeight ll - getHeight lr) 0); [simpl|lia].
    open_node lr xv xl xr. eexists. split; [done|]. bsolve.
Qed.

Lemma delete_fix_right v l r :
  balanced l -> balanced r -> getHeight r = getHeight l + 2 ->
  exists t, delete_fix v l r = Done t /\ balanced t /\
    getHeight r <= getHeight t <= getHeight r + 1 /\ inorder t = inorder l ++ v :: inorder r.
Proof.
  intros Hl Hr Hh. pose proof (height_nonneg _ Hl).
  open_node r rv rl rr. destruct Hr as (_ & _ & Hrl & Hrr).
  unfold delete_fix. simpl. rewrite !(Z.gtb_ltb (_ - _) 1), Z.gtb_ltb.
  destruct (Z.ltb_spec 1 (getHeight l - getHeight r)); [lia|simpl].
  destruct (Z.ltb_spec (getHeight l - getHeight r) (-1)); [simpl|lia].
  destruct (Z.leb_spec (getHeight rl - getHeight rr) 0); simpl.
  - eexists. split; [done|]. bsolve.
  - destruct (Z.ltb_spec 0 (getHeight rl - getHeight rr)); [simpl|lia].
    open_node rl xv xl xr. eexists. split; [done|]. bsolve.
Qed.

Lemma delete_fix_ok v l r :
  balanced l -> balanced r -> -2 <= getHeight l - getHeight r <= 2 ->
  exists t, delete_fix v l r = Done t /\ balanced t /\ inorder t = inorder l ++ v :: inorder r /\
    Z.max (getHeight l) (getHeight r) <= getHeight t <= 1 + Z.max (getHeight l) (getHeight r) /\
    (-1 <= getHeight l - getHeight r <= 1 -> getHeight t = 1 + Z.max (getHeight l) (getHeight r)).
Proof.
  intros Hl Hr Hb.
  destruct (decide (getHeight l = getHeight r + 2)).
  { destruct (delete_fix_left v l r) as (t & ? & ? & ? & ?); [done..|].
    exists t. split_and!; try done; lia. }
  destruct (decide (getHeight r = getHeight l + 2)).
  { destruct (delete_fix_right v l r) as (t & ? & ? & ? & ?); [done..|].
    exists t. split_and!; try done; lia. }
  rewrite delete_fix_balanced by lia. eexists. split; [done|]. bsolve.
Qed.

Lemma deleteNode_ok t val :
  avl t -> exists t', deleteNode t val = Done t' /\ balanced t' /\
    inorder t' = lremove val (inorder t) /\
    getHeight t - 1 <= getHeight t' <= getHeight t.
Proof.
  intros [Hs Hb]. revert val. induction t as [|v h l IHl r IHr]; simpl in *; intros val.
  { eexists. split; [done|]. bsolve. }
  destruct Hb as (Hh & Hbal & Hl & Hr). pose proof Hs as (Hsl & Hsr & _)%ssorted_mid.
  specialize (IHl Hsl Hl). specialize (IHr Hsr Hr).
  rewrite Z.gtb_ltb. destruct (Z.ltb_spec val v); [|destruct (Z.ltb_spec v val)].
  - destruct (IHl val) as (l' & -> & Hl' & Hi & Hg). simpl.
    destruct (delete_fix_ok v l' r) as (t & -> & ? & Ht & ?); [done|done|lia|].
    exists t. rewrite Ht, Hi, lremove_lt by done. split_and!; try done; lia.
  - destruct (IHr val) as (r' & -> & Hr' & Hi & Hg). simpl.
    destruct (delete_fix_ok v l r') as (t & -> & ? & Ht & ?); [done|done|lia|].
    exists t. rewrite Ht, Hi, lremove_gt by done. split_and!; try done; lia.
  - assert (val = v) as -> by lia. rewrite lremove_eq by done.
    pose proof (height_nonneg _ Hl). pose proof (height_nonneg _ Hr).
    destruct l as [|lv lh ll lr]; [exists r; simpl in *; split_and!; try done; lia|].
    destruct r as [|rv rh rl rr].
    { exists (Node lv lh ll lr). cbn [inorder] in *. rewrite app_nil_r. split_and!; try done; simpl in *; lia. }
    destruct (findMin_ok (Node rv rh rl rr)) as (m & rest & -> & Hm); [done|]. cbn [mbind outcome_bind].
    destruct (IHr m) as (r' & -> & Hr' & Hi & Hg). cbn [mbind outcome_bind].
    destruct (delete_fix_ok m (Node lv lh ll lr) r') as (t & -> & ? & Ht & ?); [done|done|lia|].
    exists t. rewrite Ht, Hi, Hm, lremove_head by (by rewrite <- Hm). split_and!; try done; lia.
Qed.

Lemma avl_insert t val : avl t ->
  exists t' out, insert t val = Done (t', out) /\ avl t' /\ inorder t' = linsert val (inorder t).
Proof.
  intros H. destruct (insert_ok t val H) as (t' & out & ? & ? & Hi & _).
  exists t', out. unfold avl. rewrite Hi. destruct H. auto with iitm.
Qed.

Lemma avl_delete t val : avl t ->
  exists t', deleteNode t val = Done t' /\ avl t' /\ inorder t' = lremove val (inorder t).
Proof.
  intros H. destruct (deleteNode_ok t val H) as (t' & ? & ? & Hi & _).
  exists t'. unfold avl. rewrite Hi. destruct H. auto with iitm.
Qed.

Lemma avl_insert_all arr t : avl t ->
  exists t' out, insert_all t arr = Done (t', out) /\ avl t' /\
    inorder t' = fold_left (fun l x => linsert x l) arr (inorder t).
Proof.
  revert t. induction arr as [|x arr IH]; intros t Ht; simpl; [eauto|].
  destruct (avl_insert t x Ht) as (t1 & out & -> & Ht1 & Hi). simpl.
  destruct (IH t1 Ht1) as (t2 & out2 & -> & Ht2 & Hi2). simpl. rewrite <- Hi. eauto.
Qed.

Lemma menu_turn_avl t input : avl t ->
  menu_turn t input = OutOfFuel \/
  exists next rest out, menu_turn t input = Done (next, rest, out) /\
    (length rest < length input)%nat /\ (forall t', next = Some t' -> avl t').
Proof.
  intros Ht. unfold menu_turn.
  assert (Hskip : forall (rest : list Z) (out : list string), (length rest < length input)%nat ->
    exists next rest' out', Done (Some t, rest, out) = Done (next, rest', out') /\
      (length rest' < length input)%nat /\ (forall t', next = Some t' -> avl t')).
  { intros rest out Hlen. exists (Some t), rest, out.
    split_and!; [done|lia|by intros t' [= <-]]. }
  destruct input as [|opt rest]; [by left|].
  destruct opt as [|[[[p|p|]|[p|p|]|]|[[p|p|]|[p|p|]|]|]|p]; simpl;
    try (right; apply Hskip; simpl; lia).
  - right. exists None, rest, []. split_and!; [done|simpl; lia|done].
  - destruct rest as [|data rest]; [by left|right].
    destruct (avl_delete t data Ht) as (t1 & -> & Ht1 & _). simpl.
    exists (Some t1), rest, []. split_and!; [done|simpl; lia|by intros t' [= <-]].
  - destruct rest as [|n rest]; [by left|].
    destruct (Nat.ltb_spec (length rest) (Z.to_nat n)); [by left|right].
    destruct (avl_insert_all (take (Z.to_nat n) rest) t Ht) as (t1 & out & -> & Ht1 & _). simpl.
    exists (Some t1), (drop (Z.to_nat n) rest), out.
    split_and!; [done|rewrite length_drop; simpl; lia|by intros t' [= <-]].
  - destruct rest as [|data rest]; [by left|right].
    destruct (avl_insert t data Ht) as (t1 & out & -> & Ht1 & _). simpl.
    exists (Some t1), rest, out. split_and!; [done|simpl; lia|by intros t' [= <-]].
Qed.

Lemma main_loop_safe fuel t input : avl t -> main_loop fuel t input <> Undef.
Proof.
  revert t input. induction fuel as [|fuel IH]; intros t input Ht; simpl; [done|].
  destruct (menu_turn_avl t input Ht) as [->|(next & rest & out & -> & _ & Hn)]; simpl; [done|].
  destruct next as [t'|]; [|done]. specialize (IH t' rest (Hn _ eq_refl)).
  by destruct (main_loop fuel t' rest).
Qed.

(** A tree of height [2k] or [2k+1] has at least [2^k - 1] nodes. *)
Lemma avl_size k t : balanced t -> 2 * Z.of_nat k <= getHeight t ->
  2 ^ Z.of_nat k <= Z.of_nat (length (inorder t)) + 1.
Proof.
  revert t. induction k as [|k IH]; intros t Hb Hk; [simpl; lia|].
  open_node t v l r. rewrite length_app. simpl.
  assert (2 ^ Z.of_nat k <= Z.of_nat (length (inorder l)) + 1) by (apply IH; [done|lia]).
  assert (2 ^ Z.of_nat k <= Z.of_nat (length (inorder r)) + 1) by (apply IH; [done|lia]).
  rewrite Nat2Z.inj_succ, Z.pow_succ_r by lia. lia.
Qed.

(** the stored heights are the real ones *)
Lemma depth_height t : balanced t -> depth t = getHeight t.
Proof. induction t as [|v h l IHl r IHr]; [done|]. intros (-> & _ & Hl & Hr). simpl. by rewrite IHl, IHr. Qed.

Lemma height_size t : balanced t -> 2 ^ (getHeight t / 2) <= Z.of_nat (length (inorder t)) + 1.
Proof.
  intros Hb. pose proof (height_nonneg t Hb).
  rewrite <- (Z2Nat.id (getHeight t / 2)) by (apply Z.div_pos; lia).
  apply avl_size; [done|]. rewrite Z2Nat.id by (apply Z.div_pos; lia).
  pose proof (Z.mul_div_le (getHeight t) 2). lia.
Qed.

Lemma height_log t n : balanced t -> Z.of_nat (length (inorder t)) <= n -> getHeight t <= 2 * Z.log2 (n + 1) + 1.
Proof.
  intros Hb Hn. pose proof (height_nonneg t Hb). pose proof (height_size t Hb).
  assert (getHeight t / 2 <= Z.log2 (n + 1)) by (apply Z.log2_le_pow2; lia).
  pose proof (Z.div_mod (getHeight t) 2). pose proof (Z.mod_pos_bound (getHeight t) 2). lia.
Qed.

Lemma linsert_length x l : (length (linsert x l) <= S (length l))%nat.
Proof. induction l as [|y l IH]; simpl; [done|]. zcases; simpl; lia. Qed.

Lemma avl_op t o : avl t -> exists t', apply_op t o = Done t' /\ avl t' /\ inorder t' = listing_op (inorder t) o.
Proof.
  intros Ht. destruct o as [x|x]; simpl; [|by apply avl_delete].
  destruct (avl_insert t x Ht) as (t' & out & -> & ? & ?). by exists t'.
Qed.

Lemma avl_ops ops t : avl t -> exists t', apply_ops t ops = Done t' /\ avl t' /\
  inorder t' = foldl listing_op (inorder t) ops /\ (length (inorder t') <= length (inorder t) + length (insertions ops))%nat.
Proof.
  revert t. induction ops as [|o ops IH]; intros t Ht; [exists t; split_and!; simpl; try done; lia|].
  destruct (avl_op t o Ht) as (t1 & H1 & Ht1 & Hi1). destruct (IH t1 Ht1) as (t2 & H2 & Ht2 & Hi2 & Hl2).
  exists t2. cbn [apply_ops foldl]. rewrite H1. cbn [mbind outcome_bind]. rewrite <- Hi1. split_and!; [done..|].
  rewrite Hi1 in Hl2. destruct o as [x|x]; cbn [listing_op] in Hl2.
  - pose proof (linsert_length x (inorder t)). change (insertions (Insert x :: ops)) with (x :: insertions ops). simpl. lia.
  - pose proof (length_filter (fun y => y <> x) (inorder t)). unfold lremove in Hl2. change (insertions (Delete x :: ops)) with (insertions ops). lia.
Qed.

(** ** Properties *)

(** C1: [insert] on an AVL tree never dereferences NULL; it returns an AVL tree
    (strictly ordered, right heights, every balance in -1..1) whose inorder
    listing is the sorted insertion of the value, duplicates being ignored. *)
Theorem insert_correct t val : avl t ->
  exists t' out, insert t val = Done (t', out) /\ avl t' /\ inorder t' = linsert val (inorder t).
Proof. apply avl_insert. Qed.

(** C2: [deleteNode] on an AVL tree never dereferences NULL; it returns an AVL tree
    whose inorder listing is the one of the argument without the value. *)
Theorem deleteNode_correct t val : avl t ->
  exists t', deleteNode t val = Done t' /\ avl t' /\ inorder t' = lremove val (inorder t).
Proof. apply avl_delete. Qed.

(** C28: any sequence of insertions and deletions that starts with the empty tree returns a tree
    without reading through NULL; it lists what the same operations leave in a sorted list, and it
    is shallow: the height stored in its root is the length of its longest path, and with [n]
    insertions it is at most 2 log2 (n + 1) + 1 (so it is below 64 as long as fewer than 2^31
    values are inserted, which bounds the int [height] and the recursion of the operations). *)
Theorem height_bound ops : exists t,
  apply_ops NULL ops = Done t /\ inorder t = foldl listing_op [] ops /\ depth t = getHeight t /\
  2 ^ (depth t / 2) <= Z.of_nat (length (inorder t)) + 1 /\
  depth t <= 2 * Z.log2 (Z.of_nat (length (insertions ops)) + 1) + 1.
Proof.
  destruct (avl_ops ops NULL) as (t & Ho & [Hs Hb] & Hi & Hl); [by split; [constructor|]|]. exists t. rewrite depth_height by done.
  split_and!; [done|done|done|by apply height_size|]. apply height_log; [done|]. simpl in Hl. lia.
Qed.

(** No sequence of numbers typed at the menu makes the program dereference NULL. *)
Theorem main_safe input : main input <> Undef.
Proof. apply main_loop_safe. by split; [constructor|]. Qed.

(** ** Witnesses *)

Definition sample : node := Node 20 2 (Node 10 1 NULL NULL) (Node 30 1 NULL NULL).

Lemma insert_correct_witness :
  exists t' out, insert sample 25 = Done (t', out) /\ avl t' /\ inorder t' = [10; 20; 25; 30].
Proof.
  apply (insert_correct sample 25).
  split; [repeat constructor|simpl; split_and!; done].
Defined.

Lemma deleteNode_correct_witness :
  exists t', deleteNode sample 20 = Done t' /\ avl t' /\ inorder t' = [10; 30].
Proof.
  apply (deleteNode_correct sample 20).
  split; [repeat constructor|simpl; split_and!; done].
Defined.

Example hundred_values : (t ← apply_ops NULL (Insert <$> seqZ 0 100); Done (getHeight t)) = Done 7.
Proof. vm_compute. reflexivity. Qed.

Example main_run :
  main [2; 3; 10; 20; 30; 4; 20; 1; 5; 9; 5]
  = Done ["Inserted 20, Balance at 10 = -1" +:+ nl; "Inserted 30, Balance at 20 = -1" +:+ nl;
          "Inserted 5, Balance at 10 = 1" +:+ nl;
          "Invalid option." +:+ nl].
Proof. vm_compute. reflexivity. Qed.
