(* ===== verification/BPlusTree.v ===== *)
(** * The B+ tree of Trees/BplusTreeDy.c

    The nodes live in an explicit heap, because a leaf is reached both from its
    parent and from the leaf before it.  A key that [malloc] has left uninitialised is
    [None], and reading one is undefined.  [insert] returns NULL or its own node; the
    key and the node it then leaves in [*upKey] and [*newChild] are returned with it.
    The recursion and the loops of the tree take fuel, which the theorem about [main]
    shows to be enough when it exceeds the number of keys. *)
From S2P Require Import Prelude LinkedHeap.

(** ** The program *)

Definition MAX : Z := 3.

Record BPlusTreeNode := mkNode {
  keys : list (option Z); count : Z; child : list ptr; next : ptr; isLeaf : bool }.

Abbreviation memory := (gmap loc BPlusTreeNode).
#[export] Instance memory_heap : HeapState memory BPlusTreeNode := {
  heap_of h := h; with_heap h _ := h; heap_of_with _ _ := eq_refl; with_with _ _ _ := eq_refl }.

Definition set_keys (ks : list (option Z)) (c : Z) (n : BPlusTreeNode) : BPlusTreeNode :=
  mkNode ks c (child n) (next n) (isLeaf n).
Definition set_next (p : ptr) (n : BPlusTreeNode) : BPlusTreeNode :=
  mkNode (keys n) (count n) (child n) p (isLeaf n).
Definition set_node (ks : list (option Z)) (c : Z) (cs : list ptr) (n : BPlusTreeNode) : BPlusTreeNode :=
  mkNode ks c cs (next n) (isLeaf n).

(** [a[i]] of a key array *)
Definition get_key (a : list (option Z)) (i : Z) : outcome Z := k ← arr_get a i; of_option k.

(** the keys [a[i]], ..., [a[i + n - 1]], copied one by one *)
Fixpoint read_keys (n : nat) (a : list (option Z)) (i : Z) : outcome (list Z) :=
  match n with
  | O => Done []
  | S n' => k ← get_key a i; l ← read_keys n' a (i + 1); Done (k :: l)
  end.

(** [a[i + j] = l[j]] for the elements of [l] *)
Fixpoint write_arr {A} (a : list A) (i : Z) (l : list A) : outcome (list A) :=
  match l with
  | [] => Done a
  | x :: l' => a ← arr_set a i x; write_arr a (i + 1) l'
  end.
Definition write_keys (a : list (option Z)) (i : Z) (l : list Z) : outcome (list (option Z)) :=
  write_arr a i (Some <$> l).

Definition blank_keys : list (option Z) := replicate (Z.to_nat MAX) None.
Definition blank_children : list ptr := replicate (Z.to_nat (MAX + 1)) None.

Definition createNode (leaf : bool) : cmd memory ptr := alloc (mkNode blank_keys 0 blank_children None leaf).

(** the loop of [insertLeaf], from [i = n - 1] down: the array and the final [i] *)
Fixpoint shift_keys (n : nat) (a : list (option Z)) (key : Z) : outcome (list (option Z) * Z) :=
  match n with
  | O => Done (a, -1)
  | S i =>
      k ← get_key a (Z.of_nat i);
      if k >? key then a ← arr_set a (Z.of_nat i + 1) (Some k); shift_keys i a key
      else Done (a, Z.of_nat i)
  end.

Definition insertLeaf (leaf : ptr) (key : Z) : cmd memory unit :=
  n ← load leaf;
  '(a, i) ← lift (shift_keys (Z.to_nat (count n)) (keys n) key);
  a ← lift (arr_set a (i + 1) (Some key));
  update leaf (set_keys a (count n + 1)).

(** the sorting loop of [splitLeaf], from index [i] down *)
Fixpoint sink (i : nat) (t : list Z) : outcome (list Z) :=
  match i with
  | O => Done t
  | S j =>
      a ← arr_get t (Z.of_nat i); b ← arr_get t (Z.of_nat j);
      if a <? b then t ← arr_set t (Z.of_nat i) b; t ← arr_set t (Z.of_nat j) a; sink j t
      else Done t
  end.

Definition splitLeaf (leaf : ptr) (key : Z) : cmd memory (Z * ptr) :=
  n ← load leaf;
  t ← lift (read_keys (Z.to_nat MAX) (keys n) 0);
  t ← lift (sink (Z.to_nat MAX) (t ++ [key]));
  let mid := Z.quot (MAX + 1) 2 in
  newLeaf ← createNode true;
  a ← lift (write_keys (keys n) 0 (take (Z.to_nat mid) t));
  b ← lift (write_keys blank_keys 0 (drop (Z.to_nat mid) t));
  update leaf (set_keys a mid);;
  update newLeaf (set_keys b (MAX + 1 - mid));;
  update newLeaf (set_next (next n));;
  update leaf (set_next newLeaf);;
  upKey ← lift (get_key b 0);
  mret (upKey, newLeaf).

(** [while (i < root->count && key > root->keys[i]) i++], [n] the turns left *)
Fixpoint find_child (n : nat) (i : Z) (a : list (option Z)) (key : Z) : outcome Z :=
  match n with
  | O => Done i
  | S n' => k ← get_key a i; if key >? k then find_child n' (i + 1) a key else Done i
  end.

(** the loop [for (j = i + n; j > i; j--)] that moves keys and children up *)
Fixpoint open_gap (n : nat) (i : Z) (a : list (option Z)) (c : list ptr) : outcome (list (option Z) * list ptr) :=
  match n with
  | O => Done (a, c)
  | S n' =>
      let j := i + Z.of_nat n in
      k ← get_key a (j - 1); a ← arr_set a j (Some k);
      p ← arr_get c j; c ← arr_set c (j + 1) p;
      open_gap n' i a c
  end.

(** [keys[i] = k; child[i + 1] = p] after the loop *)
Definition insert_at (i count k : Z) (p : ptr) (a : list (option Z)) (c : list ptr) :
    outcome (list (option Z) * list ptr) :=
  '(a, c) ← open_gap (Z.to_nat (count - i)) i a c;
  a ← arr_set a i (Some k); c ← arr_set c (i + 1) p; Done (a, c).

(** the split of a full internal node *)
Definition splitInternal (root : ptr) (i k : Z) (p : ptr) : cmd memory (Z * ptr) :=
  n ← load root;
  '(a, c) ← lift (insert_at i MAX k p (keys n ++ [None]) (child n ++ [None]));
  let mid := Z.quot (MAX + 1) 2 in
  lk ← lift (read_keys (Z.to_nat mid) a 0);
  la ← lift (write_keys (keys n) 0 lk);
  lc ← lift (write_arr (child n) 0 (take (Z.to_nat (mid + 1)) c));
  update root (set_node la mid lc);;
  upKey ← lift (get_key a mid);
  newInternal ← createNode false;
  rk ← lift (read_keys (Z.to_nat (MAX - mid)) a (mid + 1));
  ra ← lift (write_keys blank_keys 0 rk);
  rc ← lift (write_arr blank_children 0 (drop (Z.to_nat (mid + 1)) c));
  update newInternal (set_node ra (MAX - mid) rc);;
  mret (upKey, newInternal).

(** what [insert] does to an internal node whose child has been split *)
Definition add_child (root : ptr) (i tempKey : Z) (tempChild : ptr) : cmd memory (option (Z * ptr)) :=
  n ← load root;
  if count n <? MAX then
    '(a, c) ← lift (insert_at i (count n) tempKey tempChild (keys n) (child n));
    update root (set_node a (count n + 1) c);; mret None
  else r ← splitInternal root i tempKey tempChild; mret (Some r).

Fixpoint insert (fuel : nat) (root : ptr) (key : Z) : cmd memory (option (Z * ptr)) :=
  match fuel with
  | O => fun _ => OutOfFuel
  | S fuel' =>
      n ← load root;
      if isLeaf n then
        if count n <? MAX then insertLeaf root key;; mret None
        else r ← splitLeaf root key; mret (Some r)
      else
        i ← lift (find_child (Z.to_nat (count n)) 0 (keys n) key);
        c ← lift (arr_get (child n) i);
        r ← insert fuel' c key;
        match r with
        | None => mret None
        | Some (tempKey, tempChild) => add_child root i tempKey tempChild
        end
  end.

(** the descent of [printRange] *)
Fixpoint descend (fuel : nat) (root : ptr) (start : Z) : cmd memory ptr :=
  match fuel with
  | O => fun _ => OutOfFuel
  | S fuel' =>
      n ← load root;
      if isLeaf n then mret root
      else
        i ← lift (find_child (Z.to_nat (count n)) 0 (keys n) start);
        c ← lift (arr_get (child n) i); descend fuel' c start
  end.

(** the keys of one leaf: what is printed, and whether the function returns *)
Fixpoint print_leaf (l : list Z) (a b : Z) : list Z * bool :=
  match l with
  | [] => ([], false)
  | k :: l' =>
      let out := if (k >=? a) && (k <=? b) then [k] else [] in
      if k >? b then (out, true) else let '(r, stop) := print_leaf l' a b in (out ++ r, stop)
  end.

Fixpoint print_leaves (fuel : nat) (p : ptr) (a b : Z) : cmd memory (list Z) :=
  match fuel with
  | O => fun _ => OutOfFuel
  | S fuel' =>
      match p with
      | None => mret []
      | Some _ =>
          n ← load p; l ← lift (read_keys (Z.to_nat (count n)) (keys n) 0);
          let '(out, stop) := print_leaf l a b in
          if (stop : bool) then mret out else r ← print_leaves fuel' (next n) a b; mret (out ++ r)
      end
  end.

(** the keys that [printRange] prints *)
Definition printRange (fuel : nat) (root : ptr) (start end_ : Z) : cmd memory (list Z) :=
  p ← descend fuel root start; print_leaves fuel p start end_.

(** one turn of the insertion loop of [main] *)
Definition insert_root (fuel : nat) (root : ptr) (key : Z) : cmd memory ptr :=
  r ← insert fuel root key;
  match r with
  | None => mret root
  | Some (upKey, newChild) =>
      newRoot ← createNode false;
      a ← lift (arr_set blank_keys 0 (Some upKey));
      c ← lift (write_arr blank_children 0 [root; newChild]);
      update newRoot (set_node a 1 c);; mret newRoot
  end.

Fixpoint insert_all (fuel : nat) (root : ptr) (ks : list Z) : cmd memory ptr :=
  match ks with
  | [] => mret root
  | k :: ks' => root ← insert_root fuel root k; insert_all fuel root ks'
  end.

(** [main] on the keys it has read *)
Definition main (fuel : nat) (ks : list Z) (start end_ : Z) : cmd memory (list Z) :=
  root ← createNode true; root ← insert_all fuel root ks; printRange fuel root start end_.

(** ** Arrays *)

Lemma arr_set_mid {A} (l1 l2 : list A) x y i : i = Z.of_nat (length l1) ->
  arr_set (l1 ++ x :: l2) i y = Done (l1 ++ y :: l2).
Proof.
  intros ->. rewrite arr_set_in by (rewrite length_app; simpl; lia). by rewrite Nat2Z.id, list_insert_mid.
Qed.

Lemma get_key_mid l1 l2 k i : i = Z.of_nat (length l1) -> get_key (l1 ++ Some k :: l2) i = Done k.
Proof. intros Hi. unfold get_key. by rewrite arr_get_mid. Qed.

Lemma read_keys_ok l l1 l2 i : i = Z.of_nat (length l1) ->
  read_keys (length l) (l1 ++ (Some <$> l) ++ l2) i = Done l.
Proof.
  revert l1 i. induction l as [|k l IH]; intros l1 i Hi; [done|]. cbn [length read_keys fmap list_fmap app].
  rewrite get_key_mid by done. simpl. rewrite (cons_middle (Some k)), (assoc_L _ l1), IH; [done|].
  rewrite length_app. simpl. lia.
Qed.

Lemma write_arr_ok {A} (l l1 old l2 : list A) i : i = Z.of_nat (length l1) -> length old = length l ->
  write_arr (l1 ++ old ++ l2) i l = Done (l1 ++ l ++ l2).
Proof.
  revert l1 old i. induction l as [|x l IH]; intros l1 [|o old] i Hi Hlen; try done. cbn [write_arr app].
  rewrite arr_set_mid by done. simpl. rewrite !(cons_middle x), !(assoc_L _ l1), IH; [done| |simpl in Hlen; lia].
  rewrite length_app. simpl. lia.
Qed.

(** where [insertLeaf] and [splitLeaf] put a key: after the keys that are not greater *)
Definition place (key : Z) (ks ks1 ks2 : list Z) : Prop :=
  ks = ks1 ++ ks2 /\ Forall (fun k => key < k) ks2 /\ forall ks' k, ks1 = ks' ++ [k] -> k <= key.

Lemma shift_keys_ok key ks x g : exists ks1 ks2 y, place key ks ks1 ks2 /\
  shift_keys (length ks) ((Some <$> ks) ++ x :: g) key =
    Done ((Some <$> ks1) ++ y :: (Some <$> ks2) ++ g, Z.of_nat (length ks1) - 1).
Proof.
  revert x g. induction ks as [|k ks IH] using rev_ind; intros x g.
  - exists [], [], x. split; [|done]. split_and!; [done|done|]. by intros [|? [|??]] ?.
  - rewrite length_app, Nat.add_1_r, fmap_app, <- app_assoc. cbn [shift_keys fmap list_fmap app].
    rewrite get_key_mid by (by rewrite length_fmap). simpl. destruct (Z.gtb_spec k key) as [Hk|Hk].
    + rewrite (cons_middle (Some k)), (assoc_L _ (Some <$> ks)), arr_set_mid
        by (rewrite length_app, length_fmap; simpl; lia).
      simpl. rewrite <- app_assoc. simpl. destruct (IH (Some k) (Some k :: g)) as (ks1 & ks2 & y & (-> & Hf & Hl) & ->).
      exists ks1, (ks2 ++ [k]), y. split; [|by rewrite fmap_app, <- app_assoc].
      split_and!; [by rewrite app_assoc|apply Forall_app; split; [done|]; by repeat constructor|done].
    + exists (ks ++ [k]), [], x. split.
      * split_and!; [by rewrite app_nil_r|done|]. by intros ks' k' [_ [= <-]]%app_inj_2.
      * rewrite fmap_app, <- app_assoc, length_app. simpl. f_equal. f_equal. lia.
Qed.

Lemma sink_ok key ks g : exists ks1 ks2, place key ks ks1 ks2 /\
  sink (length ks) (ks ++ key :: g) = Done (ks1 ++ key :: ks2 ++ g).
Proof.
  revert g. induction ks as [|k ks IH] using rev_ind; intros g.
  - exists [], []. split; [|done]. split_and!; [done|done|]. by intros [|? [|??]] ?.
  - rewrite length_app, Nat.add_1_r, <- app_assoc. cbn [sink app].
    rewrite (arr_get_mid ks _ k (Z.of_nat (length ks))) by done.
    replace (ks ++ k :: key :: g) with ((ks ++ [k]) ++ key :: g) by (by rewrite <- app_assoc).
    rewrite arr_get_mid by (rewrite length_app; simpl; lia). simpl. destruct (Z.ltb_spec key k) as [Hk|Hk].
    + rewrite arr_set_mid by (rewrite length_app; simpl; lia). simpl.
      replace ((ks ++ [k]) ++ k :: g) with (ks ++ k :: k :: g) by (by rewrite <- app_assoc).
      rewrite arr_set_mid by done. simpl. destruct (IH (k :: g)) as (ks1 & ks2 & (-> & Hf & Hl) & ->).
      exists ks1, (ks2 ++ [k]). split; [|by rewrite <- app_assoc].
      split_and!; [by rewrite app_assoc|apply Forall_app; split; [done|]; by repeat constructor|done].
    + exists (ks ++ [k]), []. split; [|done].
      split_and!; [by rewrite app_nil_r|done|]. by intros ks' k' [_ [= <-]]%app_inj_2.
Qed.

Lemma place_sorted key ks ks1 ks2 : place key ks ks1 ks2 -> StronglySorted Z.le ks ->
  StronglySorted Z.le (ks1 ++ key :: ks2).
Proof.
  intros (-> & Hf & Hl) (Hle & Hs1 & Hs2)%StronglySorted_app.
  apply StronglySorted_app. split_and!; [|done|constructor; [done|]; eapply Forall_impl; [done|]; simpl; lia].
  intros a b Ha Hb. assert (a <= key).
  { destruct ks1 as [|k ks1 _] using rev_ind; [set_solver|]. specialize (Hl ks1 k eq_refl).
    apply StronglySorted_app in Hs1 as (H1 & _). apply elem_of_app in Ha as [Ha|Ha]; [|set_solver].
    specialize (H1 a k Ha ltac:(left)). lia. }
  apply elem_of_cons in Hb as [->|Hb]; [done|by apply Hle].
Qed.

(** the children to the left of the key *)
Fixpoint index (key : Z) (ks : list Z) : nat :=
  match ks with [] => O | k :: ks' => if key >? k then S (index key ks') else O end.

Lemma find_child_ok key ks l1 g i : i = Z.of_nat (length l1) ->
  find_child (length ks) i (l1 ++ (Some <$> ks) ++ g) key = Done (i + Z.of_nat (index key ks)).
Proof.
  revert l1 i. induction ks as [|k ks IH]; intros l1 i Hi; cbn [length find_child index fmap list_fmap app].
  - f_equal. simpl. lia.
  - rewrite get_key_mid by done. simpl. destruct (key >? k); [|f_equal; lia].
    rewrite (cons_middle (Some k)), (assoc_L _ l1), IH; [f_equal; lia|]. rewrite length_app. simpl. lia.
Qed.

Lemma open_gap_ok ks2 cs2 a c x y g1 g2 i : length cs2 = length ks2 -> i = Z.of_nat (length a) ->
  length c = S (length a) ->
  exists x' y', open_gap (length ks2) i (a ++ (Some <$> ks2) ++ x :: g1) (c ++ cs2 ++ y :: g2) =
    Done (a ++ x' :: (Some <$> ks2) ++ g1, c ++ y' :: cs2 ++ g2).
Proof.
  intros Hlen Hi Hc. revert cs2 x y g1 g2 Hlen.
  induction ks2 as [|k ks2 IH] using rev_ind; intros cs2 x y g1 g2 Hlen.
  { destruct cs2; [|done]. by exists x, y. }
  destruct cs2 as [|p cs2 _] using rev_ind; [rewrite length_app in Hlen; simpl in Hlen; lia|].
  rewrite !length_app, !Nat.add_1_r in *. injection Hlen as Hlen. cbn [open_gap].
  replace (a ++ (Some <$> ks2 ++ [k]) ++ x :: g1) with ((a ++ (Some <$> ks2)) ++ Some k :: x :: g1)
    by (by rewrite fmap_app, <- !app_assoc).
  replace (c ++ (cs2 ++ [p]) ++ y :: g2) with ((c ++ cs2) ++ p :: y :: g2) by (by rewrite <- !app_assoc).
  rewrite get_key_mid by (rewrite length_app, length_fmap; lia). simpl.
  rewrite (cons_middle (Some k)), (assoc_L app (a ++ _)), arr_set_mid
    by (rewrite !length_app, length_fmap; simpl; lia). simpl.
  rewrite arr_get_mid by (rewrite length_app; lia). simpl.
  rewrite (cons_middle p), (assoc_L app (c ++ _)), arr_set_mid by (rewrite !length_app; simpl; lia). simpl.
  rewrite <- !app_assoc. simpl. destruct (IH cs2 (Some k) p (Some k :: g1) (p :: g2) Hlen) as (x' & y' & ->).
  exists x', y'. by rewrite fmap_app, <- !app_assoc.
Qed.

Lemma insert_at_ok ks1 ks2 cs1 cs2 c0 k p x y g1 g2 i n :
  length cs1 = length ks1 -> length cs2 = length ks2 ->
  i = Z.of_nat (length ks1) -> n = i + Z.of_nat (length ks2) ->
  insert_at i n k p ((Some <$> ks1 ++ ks2) ++ x :: g1) ((cs1 ++ c0 :: cs2) ++ y :: g2) =
    Done ((Some <$> ks1 ++ k :: ks2) ++ g1, (cs1 ++ c0 :: p :: cs2) ++ g2).
Proof.
  intros Hc1 Hc2 -> ->. unfold insert_at. rewrite Z.add_simpl_l, Nat2Z.id, !fmap_app, <- !app_assoc.
  destruct (open_gap_ok ks2 cs2 (Some <$> ks1) (cs1 ++ [c0]) x y g1 g2 (Z.of_nat (length ks1))) as (x' & y' & Heq);
    [done|by rewrite length_fmap|rewrite length_app, length_fmap; simpl; lia|].
  rewrite <- app_assoc in Heq. simpl in Heq. simpl. rewrite Heq. simpl.
  rewrite (arr_set_mid (cs1 ++ [c0])) by (rewrite length_app; simpl; lia).
  rewrite (arr_set_mid (Some <$> ks1)) by (by rewrite length_fmap). simpl. by rewrite <- app_assoc.
Qed.

(** ** The tree *)

(** the leaves of a tree from left to right, with their keys *)
Abbreviation leaves := (list (loc * list Z)).

Definition keys_of (lv : leaves) : list Z := concat lv.*2.

(** [lo <= x <= hi], [None] for no bound *)
Definition within (lo hi : option Z) (x : Z) : Prop := from_option (fun l => l <= x) True lo /\ from_option (fun h => x <= h) True hi.

(** the leading entries of an array of [len] *)
Definition holds {A B} (f : A -> B) (len : nat) (a : list B) (l : list A) : Prop :=
  exists g, a = (f <$> l) ++ g /\ length a = len.

Definition leaf_at (m : memory) (x : loc * list Z) : Prop :=
  exists n, m !! x.1 = Some n /\ isLeaf n = true /\ holds Some 3 (keys n) x.2 /\ count n = Z.of_nat (length x.2).

(** the subtrees between the separators of a node: [R] is the relation of one subtree *)
Inductive kids (R : option Z -> option Z -> loc -> list loc -> leaves -> Prop) :
    option Z -> option Z -> list Z -> list loc -> list loc -> leaves -> Prop :=
| kids_last lo hi c fp lv : R lo hi c fp lv -> kids R lo hi [] [c] fp lv
| kids_cons lo hi k ks c cs fp1 lv1 fp2 lv2 :
    within lo hi k -> R lo (Some k) c fp1 lv1 -> kids R (Some k) hi ks cs fp2 lv2 ->
    kids R lo hi (k :: ks) (c :: cs) (fp1 ++ fp2) (lv1 ++ lv2).

(** a tree of height [h] at [l], keys within the bounds: [fp] its nodes, [lv] its leaves *)
Fixpoint tree (h : nat) (m : memory) (lo hi : option Z) (l : loc) (fp : list loc) (lv : leaves) : Prop :=
  match h with
  | O => exists ks, leaf_at m (l, ks) /\ StronglySorted Z.le ks /\ Forall (within lo hi) ks /\ fp = [l] /\ lv = [(l, ks)]
  | S h' => exists n ks cs fps, m !! l = Some n /\ isLeaf n = false /\ holds Some 3 (keys n) ks /\
      count n = Z.of_nat (length ks) /\ ks <> [] /\ holds Some 4 (child n) cs /\
      kids (tree h' m) lo hi ks cs fps lv /\ fp = l :: fps
  end.

(** the [next] pointers from leaf to leaf, [z] after the last *)
Fixpoint chained (m : memory) (ls : list loc) (z : ptr) : Prop :=
  match ls with
  | [] => True
  | l :: ls' => (exists n, m !! l = Some n /\ next n = from_option Some z (head ls')) /\ chained m ls' z
  end.

Lemma within_left lo hi k x : within lo hi k -> within lo (Some k) x -> within lo hi x.
Proof. unfold within. destruct lo, hi; simpl; lia. Qed.
Lemma within_right lo hi k x : within lo hi k -> within (Some k) hi x -> within lo hi x.
Proof. unfold within. destruct lo, hi; simpl; lia. Qed.

Lemma keys_of_app lv1 lv2 : keys_of (lv1 ++ lv2) = keys_of lv1 ++ keys_of lv2.
Proof. unfold keys_of. by rewrite fmap_app, concat_app. Qed.

Section kids.
Context (R : option Z -> option Z -> loc -> list loc -> leaves -> Prop).

Lemma kids_impl (R' : option Z -> option Z -> loc -> list loc -> leaves -> Prop) lo hi ks cs fp lv :
  kids R lo hi ks cs fp lv ->
  (forall lo hi c f v, R lo hi c f v -> f ⊆ fp -> R' lo hi c f v) -> kids R' lo hi ks cs fp lv.
Proof.
  induction 1 as [|lo hi k ks c cs fp1 lv1 fp2 lv2 Hk Hc _ IH]; intros HR.
  - constructor. by apply HR.
  - constructor; [done|apply HR; [done|set_solver]|]. apply IH. intros. apply HR; [done|set_solver].
Qed.

(** what holds of every subtree and of two neighbours together holds of all *)
Lemma kids_closed (Q : list loc -> leaves -> Prop) lo hi ks cs fp lv :
  (forall lo hi c f v, R lo hi c f v -> Q f v) ->
  (forall f1 v1 f2 v2, Q f1 v1 -> Q f2 v2 -> Q (f1 ++ f2) (v1 ++ v2)) ->
  kids R lo hi ks cs fp lv -> Q fp lv.
Proof. intros HR Happ. induction 1; eauto. Qed.

Lemma kids_length lo hi ks cs fp lv : kids R lo hi ks cs fp lv -> length cs = S (length ks).
Proof. induction 1; simpl; congruence. Qed.

Lemma kids_within lo hi ks cs fp lv :
  (forall lo hi c f v, R lo hi c f v -> Forall (within lo hi) (keys_of v)) ->
  kids R lo hi ks cs fp lv -> Forall (within lo hi) (keys_of lv).
Proof.
  intros HR. induction 1 as [|lo hi k ks c cs fp1 lv1 fp2 lv2 Hk Hc _ IH]; [by eapply HR|].
  rewrite keys_of_app, Forall_app. split.
  - eapply Forall_impl; [by eapply HR|]. intros x. by apply within_left.
  - eapply Forall_impl; [done|]. intros x. by apply within_right.
Qed.

Lemma kids_sorted lo hi ks cs fp lv :
  (forall lo hi c f v, R lo hi c f v -> Forall (within lo hi) (keys_of v) /\ StronglySorted Z.le (keys_of v)) ->
  kids R lo hi ks cs fp lv -> StronglySorted Z.le (keys_of lv).
Proof.
  intros HR. induction 1 as [|lo hi k ks c cs fp1 lv1 fp2 lv2 Hk Hc Hks IH]; [by eapply HR|].
  rewrite keys_of_app. apply StronglySorted_app. split_and!; [|by eapply HR|done].
  intros a b Ha Hb. destruct (HR _ _ _ _ _ Hc) as [H1 _].
  assert (H2 := kids_within _ _ _ _ _ _ (fun lo hi c f v H => proj1 (HR lo hi c f v H)) Hks).
  rewrite Forall_forall in H1, H2. destruct (H1 a Ha) as [_ ?], (H2 b Hb) as [? _]. simpl in *. lia.
Qed.

Lemma kids_size n lo hi ks cs fp lv : (forall lo hi c f v, R lo hi c f v -> (n <= length v)%nat) ->
  kids R lo hi ks cs fp lv -> (n * length cs <= length lv)%nat.
Proof.
  intros HR. induction 1 as [lo hi c fp lv Hc|lo hi k ks c cs fp1 lv1 fp2 lv2 Hk Hc Hks IH]; simpl.
  - apply HR in Hc. lia.
  - apply HR in Hc. rewrite length_app. lia.
Qed.

Lemma kids_split lo hi ks1 k ks2 cs fp lv : kids R lo hi (ks1 ++ k :: ks2) cs fp lv ->
  exists cs1 cs2 fp1 fp2 lv1 lv2, cs = cs1 ++ cs2 /\ fp = fp1 ++ fp2 /\ lv = lv1 ++ lv2 /\
    length cs1 = S (length ks1) /\ within lo hi k /\
    kids R lo (Some k) ks1 cs1 fp1 lv1 /\ kids R (Some k) hi ks2 cs2 fp2 lv2.
Proof.
  revert lo cs fp lv. induction ks1 as [|k1 ks1 IH]; intros lo cs fp lv; inversion 1; subst.
  - exists [c], cs0, fp1, fp2, lv1, lv2. split_and!; try done. by constructor.
  - destruct (IH (Some k1) cs0 fp2 lv2) as (cs1 & cs2 & f1 & f2 & l1 & l2 & -> & -> & -> & Hlen & Hw & HA & HB); [done|].
    exists (c :: cs1), cs2, (fp1 ++ f1), f2, (lv1 ++ l1), l2. rewrite <- !app_assoc. simpl.
    split_and!; [done..|by rewrite Hlen|by eapply within_right| |done].
    constructor; [|done..]. destruct lo, hi; unfold within in *; simpl in *; lia.
Qed.

(** the subtree in which a key belongs, and how a replacement of it goes back *)
Lemma kids_focus key lo hi ks cs fp lv :
  (forall lo hi c f v, R lo hi c f v -> Forall (within lo hi) (keys_of v)) ->
  (forall lo hi c f v, R lo hi c f v -> v.*1 ⊆ f) -> within lo hi key -> kids R lo hi ks cs fp lv ->
  exists ks1 ks2 cs1 c cs2 fp1 fpc fp2 lv1 lvc lv2 lo' hi',
    ks = ks1 ++ ks2 /\ length ks1 = index key ks /\ cs = cs1 ++ c :: cs2 /\ length cs1 = length ks1 /\
    fp = fp1 ++ fpc ++ fp2 /\ lv = lv1 ++ lvc ++ lv2 /\ R lo' hi' c fpc lvc /\ within lo' hi' key /\
    Forall (fun x => x < key) (keys_of lv1) /\ lv1.*1 ⊆ fp1 /\ lv2.*1 ⊆ fp2 /\
    forall R' : option Z -> option Z -> loc -> list loc -> leaves -> Prop,
      (forall lo hi c f v, R lo hi c f v -> f ⊆ fp1 ++ fp2 -> R' lo hi c f v) ->
      forall ksn csn fpn lvn, kids R' lo' hi' ksn csn fpn lvn ->
      kids R' lo hi (ks1 ++ ksn ++ ks2) (cs1 ++ csn ++ cs2) (fp1 ++ fpn ++ fp2) (lv1 ++ lvn ++ lv2).
Proof.
  intros HR HR2 Hkey. induction 1 as [lo hi c fp lv Hc|lo hi k ks c cs fp1 lv1 fp2 lv2 Hk Hc Hks IH].
  { exists [], [], [], c, [], [], fp, [], [], lv, [], lo, hi. rewrite !app_nil_r.
    split_and!; try done. intros R' _ ksn csn fpn lvn Hn. by rewrite !app_nil_r. }
  simpl. destruct (Z.gtb_spec key k) as [Hgt|Hle].
  - destruct IH as (ks1 & ks2 & cs1 & c' & cs2 & f1 & fc & f2 & l1 & lc & l2 & lo' & hi' & -> & Hi & -> & Hl & -> & -> & Hc' & Hw & Hlt & Hs1 & Hs2 & Hback).
    { unfold within in *. simpl. destruct lo, hi; simpl in *; lia. }
    exists (k :: ks1), ks2, (c :: cs1), c', cs2, (fp1 ++ f1), fc, f2, (lv1 ++ l1), lc, l2, lo', hi'.
    simpl. rewrite <- !app_assoc. split_and!; try done; try congruence.
    + rewrite keys_of_app. apply Forall_app. split; [|done]. eapply Forall_impl; [by eapply HR|].
      intros x [_ Hx]. simpl in Hx. lia.
    + apply HR2 in Hc. rewrite fmap_app. set_solver.
    + intros R' HR' ksn csn fpn lvn Hn. rewrite <- !app_assoc. constructor; [done|apply HR'; [done|set_solver]|].
      apply Hback; [|done]. intros. apply HR'; [done|set_solver].
  - exists [], (k :: ks), [], c, cs, [], fp1, fp2, [], lv1, lv2, lo, (Some k).
    simpl. split_and!; try done.
    { unfold within in *. simpl. destruct lo; simpl in *; lia. }
    { revert Hks. apply (kids_closed (fun f v => v.*1 ⊆ f)); [done|]. intros. rewrite fmap_app. set_solver. }
    intros R' HR' ksn csn fpn lvn Hn. clear IH.
    assert (Hks' : kids R' (Some k) hi ks cs fp2 lv2) by (by eapply kids_impl).
    clear -Hk Hn Hks'. remember (Some k) as hi' eqn:Hhi. revert Hk.
    induction Hn as [lo hi0 c0 f v Hc0|lo hi0 k0 ks0 c0 cs0 f1 v1 f2 v2 Hk0 Hc0 _ IH]; intros Hk; subst hi0.
    + by constructor.
    + simpl. rewrite <- !app_assoc. constructor; [by eapply within_left|done|]. apply IH; [done..|].
      destruct hi; unfold within in *; simpl in *; lia.
Qed.
End kids.

Lemma tree_within h m lo hi l fp lv : tree h m lo hi l fp lv -> Forall (within lo hi) (keys_of lv).
Proof.
  revert lo hi l fp lv. induction h as [|h IH]; intros lo hi l fp lv; simpl.
  - intros (ks & _ & _ & Hw & -> & ->). unfold keys_of. simpl. by rewrite app_nil_r.
  - intros (n & ks & cs & fps & _ & _ & _ & _ & _ & _ & Hk & _). eapply kids_within; [|done]. apply IH.
Qed.

Lemma tree_sorted h m lo hi l fp lv : tree h m lo hi l fp lv -> StronglySorted Z.le (keys_of lv).
Proof.
  revert lo hi l fp lv. induction h as [|h IH]; intros lo hi l fp lv; simpl.
  - intros (ks & _ & Hs & _ & -> & ->). unfold keys_of. simpl. by rewrite app_nil_r.
  - intros (n & ks & cs & fps & _ & _ & _ & _ & _ & _ & Hk & _). eapply kids_sorted; [|done].
    intros. split; [by eapply tree_within|by eapply IH].
Qed.

Lemma tree_size h m lo hi l fp lv : tree h m lo hi l fp lv -> (2 ^ h <= length lv)%nat.
Proof.
  revert lo hi l fp lv. induction h as [|h IH]; intros lo hi l fp lv; simpl.
  - intros (ks & _ & _ & _ & -> & ->). done.
  - intros (n & ks & cs & fps & _ & _ & _ & _ & Hne & _ & Hk & _).
    assert (Hl := kids_length _ _ _ _ _ _ _ Hk). assert (Hs := kids_size _ _ _ _ _ _ _ _ IH Hk).
    destruct ks; [done|]. simpl in Hl. nia.
Qed.

Lemma tree_frame h m m' lo hi l fp lv : tree h m lo hi l fp lv -> (forall q, q ∈ fp -> m' !! q = m !! q) ->
  tree h m' lo hi l fp lv.
Proof.
  revert lo hi l fp lv. induction h as [|h IH]; intros lo hi l fp lv; simpl.
  - intros (ks & (n & Hn & Hx) & Hs & Hw & -> & ->) Heq. exists ks. split; [|done]. exists n. split; [|done].
    simpl in *. rewrite Heq; [done|left].
  - intros (n & ks & cs & fps & Hn & H1 & H2 & H3 & H4 & H5 & Hk & ->) Heq.
    exists n, ks, cs, fps. split_and!; try done; [rewrite Heq; [done|left]|].
    eapply kids_impl; [done|]. intros lo' hi' c f v Hc Hf. apply IH; [done|]. intros q Hq. apply Heq. set_solver.
Qed.

(** the leaves are nodes of the tree, and the nodes are allocated *)
Lemma tree_dom h m lo hi l fp lv : tree h m lo hi l fp lv ->
  Forall (fun q => is_Some (m !! q)) fp /\ lv.*1 ⊆ fp /\ Forall (leaf_at m) lv.
Proof.
  revert lo hi l fp lv. induction h as [|h IH]; intros lo hi l fp lv; simpl.
  - intros (ks & Hl & _ & _ & -> & ->). split_and!; [|set_solver|by repeat constructor].
    constructor; [|done]. destruct Hl as (n & Hn & _). by exists n.
  - intros (n & ks & cs & fps & Hn & _ & _ & _ & _ & _ & Hk & ->).
    cut (Forall (fun q => is_Some (m !! q)) fps /\ lv.*1 ⊆ fps /\ Forall (leaf_at m) lv).
    { intros (H1 & H2 & H3). split_and!; [constructor; [by exists n|done]|set_solver|done]. }
    revert Hk. apply (kids_closed _ (fun f v => Forall _ f /\ v.*1 ⊆ f /\ Forall (leaf_at m) v)); [apply IH|].
    intros f1 v1 f2 v2 (? & ? & ?) (? & ? & ?). rewrite !Forall_app, fmap_app. split_and!; [done..|set_solver|done|done].
Qed.

Lemma chained_app m l1 l2 z :
  chained m (l1 ++ l2) z <-> chained m l1 (from_option Some z (head l2)) /\ chained m l2 z.
Proof. induction l1 as [|l l1 IH]; simpl; [tauto|]. rewrite IH. destruct l1; simpl; tauto. Qed.

Lemma chained_frame m m' ls z : chained m ls z -> (forall q, q ∈ ls -> m' !! q = m !! q) -> chained m' ls z.
Proof.
  induction ls as [|l ls IH]; simpl; [done|]. intros [(n & Hn & Hx) Hc] Heq. split.
  - exists n. split; [|done]. rewrite Heq; [done|left].
  - apply IH; [done|]. intros q Hq. apply Heq. by right.
Qed.

(** the effect of an insertion on the leaves: one leaf takes the key, or is replaced by two *)
Definition leaf_insert (key : Z) (lv lv' : leaves) : Prop :=
  exists A l ks B ks1 rest, lv = A ++ (l, ks) :: B /\ lv' = A ++ ((l, ks1) :: rest) ++ B /\
    (length rest <= 1)%nat /\ Forall (fun x => x.2 <> []) ((l, ks1) :: rest) /\
    keys_of ((l, ks1) :: rest) ≡ₚ key :: ks.

Lemma leaf_insert_context key lv lv' l1 l2 : leaf_insert key lv lv' -> leaf_insert key (l1 ++ lv ++ l2) (l1 ++ lv' ++ l2).
Proof.
  intros (A & l & ks & B & ks1 & rest & -> & -> & H). exists (l1 ++ A), l, ks, (B ++ l2), ks1, rest.
  by rewrite <- !app_assoc; simpl; rewrite <- ?app_assoc.
Qed.

Lemma leaf_insert_head key lv lv' : leaf_insert key lv lv' -> head lv'.*1 = head lv.*1.
Proof. intros ([|a A] & l & ks & B & ks1 & rest & -> & -> & _); done. Qed.

(** ** Insertion *)

Lemma bp_load (m : memory) l n : m !! l = Some n -> load (Some l) m = Done (n, m).
Proof. exact (load_ok m l n). Qed.

Lemma bp_update (m : memory) l n f : m !! l = Some n -> update (Some l) f m = Done (tt, <[l := f n]> m).
Proof.
  intros Hn. unfold update. simpl. rewrite Hn. do 2 f_equal. apply map_eq. intros i.
  destruct (decide (i = l)) as [->|]; [by rewrite lookup_alter_eq, lookup_insert_eq, Hn|].
  by rewrite lookup_alter_ne, lookup_insert_ne.
Qed.

Lemma bp_alloc (m : memory) n : exists p, m !! p = None /\ alloc n m = Done (Some p, <[p := n]> m).
Proof. exact (alloc_ok m n). Qed.

Lemma lift_eq {S A} (x : outcome A) a (s : S) : x = Done a -> lift x s = Done (a, s).
Proof. by intros ->. Qed.

Lemma place_perm key ks ks1 ks2 : place key ks ks1 ks2 -> ks1 ++ key :: ks2 ≡ₚ key :: ks.
Proof. intros (-> & _). by rewrite Permutation_middle. Qed.

Lemma insertLeaf_ok (m : memory) l n ks key : m !! l = Some n -> holds Some 3 (keys n) ks ->
  count n = Z.of_nat (length ks) -> (length ks < 3)%nat ->
  exists ks1 ks2 a, place key ks ks1 ks2 /\ holds Some 3 a (ks1 ++ key :: ks2) /\
    insertLeaf (Some l) key m = Done (tt, <[l := set_keys a (count n + 1) n]> m).
Proof.
  intros Hn (g & Ha & Hlen) Hc Hlt. rewrite Ha, length_app, length_fmap in Hlen.
  destruct g as [|x g]; simpl in Hlen; [lia|].
  destruct (shift_keys_ok key ks x g) as (ks1 & ks2 & y & Hp & Hs).
  exists ks1, ks2, ((Some <$> ks1 ++ key :: ks2) ++ g). split_and!; [done| |].
  { exists g. split; [done|]. rewrite length_app, length_fmap, (Permutation_length (place_perm _ _ _ _ Hp)). simpl. lia. }
  unfold insertLeaf. rewrite (cmd_bind_eq _ _ _ _ _ (bp_load m l n Hn)), Ha, Hc, Nat2Z.id, Hs.
  unfold mbind at 1, cmd_bind, lift. rewrite arr_set_mid by (rewrite length_fmap; lia).
  rewrite fmap_app, <- app_assoc. by apply (bp_update m l n).
Qed.

Lemma splitLeaf_ok (m : memory) l n ks key : m !! l = Some n -> holds Some 3 (keys n) ks -> length ks = 3%nat ->
  exists ks1 ks2 a b c d ka kb p, place key ks ks1 ks2 /\ ks1 ++ key :: ks2 = [a; b; c; d] /\ m !! p = None /\
    holds Some 3 ka [a; b] /\ holds Some 3 kb [c; d] /\
    splitLeaf (Some l) key m =
      Done ((c, Some p), <[l := mkNode ka 2 (child n) (Some p) (isLeaf n)]>
        (<[p := mkNode kb 2 blank_children (next n) true]> m)).
Proof.
  intros Hn (g & Ha & Hlen) H3. destruct (sink_ok key ks []) as (ks1 & ks2 & Hp & Hs).
  assert (Ht : length (ks1 ++ key :: ks2) = 4%nat) by (rewrite (Permutation_length (place_perm _ _ _ _ Hp)); simpl; lia).
  rewrite app_nil_r, H3 in Hs. remember (ks1 ++ key :: ks2) as t eqn:Heq.
  destruct t as [|a [|b [|c [|d [|]]]]]; try done.
  destruct ks as [|k1 [|k2 [|k3 [|]]]]; try done. destruct g; [|simpl in *; rewrite Ha in Hlen; done].
  destruct (bp_alloc m (mkNode blank_keys 0 blank_children None true)) as (p & Hpn & Halloc).
  exists ks1, ks2, a, b, c, d, [Some a; Some b; Some k3], [Some c; Some d; None], p.
  split_and!; [done|done|done|by exists [Some k3]|by exists [None]|].
  assert (Hpl : p <> l) by congruence.
  unfold splitLeaf. rewrite (cmd_bind_eq _ _ _ _ _ (bp_load m l n Hn)), Ha.
  rewrite (cmd_bind_eq _ _ _ [k1; k2; k3] m eq_refl), (cmd_bind_eq _ _ _ [a; b; c; d] m (lift_eq _ _ _ Hs)).
  rewrite (cmd_bind_eq _ _ _ _ _ Halloc).
  erewrite cmd_bind_eq; [|by apply lift_eq]. erewrite cmd_bind_eq; [|by apply lift_eq].
  erewrite cmd_bind_eq; [|by apply bp_update; rewrite lookup_insert_ne].
  erewrite cmd_bind_eq; [|by apply bp_update; rewrite lookup_insert_ne, lookup_insert_eq].
  erewrite cmd_bind_eq; [|by apply bp_update; rewrite lookup_insert_eq].
  erewrite cmd_bind_eq; [|by apply bp_update; do 2 rewrite lookup_insert_ne by done; rewrite lookup_insert_eq].
  erewrite cmd_bind_eq; [|by apply lift_eq]. unfold mret, cmd_ret. do 2 f_equal.
  apply map_eq. intros q. destruct (decide (q = l)) as [->|]; [by rewrite !lookup_insert_eq|].
  rewrite !(lookup_insert_ne _ l) by done.
  destruct (decide (q = p)) as [->|]; [by rewrite !lookup_insert_eq|by rewrite !lookup_insert_ne].
Qed.

(** what [insert] has made of the tree at [l]: one tree, or two around [upKey] *)
Definition inserted (h : nat) (m : memory) (lo hi : option Z) (l : loc) (r : option (Z * ptr)) (fp : list loc) (lv : leaves) : Prop :=
  match r with
  | None => kids (tree h m) lo hi [] [l] fp lv
  | Some (up, Some q) => kids (tree h m) lo hi [up] [l; q] fp lv
  | Some (_, None) => False
  end.

(** the nodes of [fp] may change, and new ones be added *)
Definition changes (fp : list loc) (m m' : memory) : Prop :=
  forall q, is_Some (m !! q) -> is_Some (m' !! q) /\ (q ∉ fp -> m' !! q = m !! q).

Definition insert_spec (h : nat) (m : memory) lo hi l fp lv key z (r : option (Z * ptr)) (m' : memory) : Prop :=
  exists fp' lv', inserted h m' lo hi l r fp' lv' /\ NoDup fp' /\ (forall q, q ∈ fp' -> q ∈ fp \/ m !! q = None) /\
    changes fp m m' /\ leaf_insert key lv lv' /\ chained m' lv'.*1 z.

Lemma changes_insert fp m m' l n : changes fp m m' -> l ∈ fp \/ m !! l = None -> changes fp m (<[l := n]> m').
Proof.
  intros H Hl q Hq. destruct (decide (q = l)) as [->|Hne].
  - rewrite lookup_insert_eq. split; [by eexists|]. intros Hni. destruct Hl as [|Hl]; [done|]. rewrite Hl in Hq. by destruct Hq.
  - rewrite lookup_insert_ne by done. by apply H.
Qed.

Lemma changes_refl fp m : changes fp m m.
Proof. done. Qed.

Lemma leaf_insert_one key l ks ks1 rest : (length rest <= 1)%nat -> Forall (fun x => x.2 <> []) ((l, ks1) :: rest) ->
  keys_of ((l, ks1) :: rest) ≡ₚ key :: ks -> leaf_insert key [(l, ks)] ((l, ks1) :: rest).
Proof. intros. exists [], l, ks, [], ks1, rest. simpl. by rewrite app_nil_r. Qed.

Lemma split_leaf_tree lo hi l p a b c d (m : memory) nl np : StronglySorted Z.le [a; b; c; d] ->
  Forall (within lo hi) [a; b; c; d] -> p <> l -> isLeaf nl = true -> isLeaf np = true ->
  holds Some 3 (keys nl) [a; b] -> holds Some 3 (keys np) [c; d] -> count nl = 2 -> count np = 2 ->
  kids (tree 0 (<[l := nl]> (<[p := np]> m))) lo hi [c] [l; p] [l; p] [(l, [a; b]); (p, [c; d])].
Proof.
  intros Hs Hw Hne Hl1 Hl2 Hk1 Hk2 Hc1 Hc2. decompose_Forall_hyps.
  repeat match goal with H : StronglySorted _ (_ :: _) |- _ => apply StronglySorted_inv in H as [? ?] end.
  decompose_Forall_hyps. unfold within in *.
  apply (kids_cons _ _ _ _ _ _ _ [l] [(l, [a; b])] [p] [(p, [c; d])]); [done| |constructor].
  - exists [a; b]. split_and!; [|by repeat constructor|repeat constructor; simpl; tauto|done|done].
    exists nl. by rewrite lookup_insert_eq.
  - exists [c; d]. split_and!; [|by repeat constructor|repeat constructor; simpl; (lia || tauto)|done|done].
    exists np. by rewrite lookup_insert_ne, lookup_insert_eq.
Qed.

Lemma insert_leaf_ok (m : memory) lo hi l fp lv key z fuel : tree 0 m lo hi l fp lv -> within lo hi key ->
  chained m lv.*1 z -> exists r m', insert (S fuel) (Some l) key m = Done (r, m') /\ insert_spec 0 m lo hi l fp lv key z r m'.
Proof.
  intros (ks & (n & Hn & Hl & Hks & Hc) & Hs & Hw & -> & ->) Hkey [(n' & Hn' & Hz) _]. simpl in *. simplify_eq.
  assert (Hw' : forall ks1 ks2, place key ks ks1 ks2 -> Forall (within lo hi) (ks1 ++ key :: ks2)).
  { intros ks1 ks2 Hp. rewrite (place_perm _ _ _ _ Hp). by constructor. }
  rewrite (cmd_bind_eq _ _ _ _ _ (bp_load m l n Hn)), Hl. destruct (Z.ltb_spec (count n) MAX) as [Hlt|Hge].
  - unfold MAX in Hlt. destruct (insertLeaf_ok m l n ks key Hn Hks Hc) as (ks1 & ks2 & a & Hp & Ha & Heq); [lia|].
    exists None, (<[l := set_keys a (count n + 1) n]> m). rewrite (cmd_bind_eq _ _ _ _ _ Heq). split; [done|].
    exists [l], [(l, ks1 ++ key :: ks2)]. split_and!.
    + constructor. exists (ks1 ++ key :: ks2). split_and!; [|by eapply place_sorted|by apply Hw'|done|done].
      eexists. rewrite lookup_insert_eq. split_and!; [done|done|done|].
      simpl. rewrite (Permutation_length (place_perm _ _ _ _ Hp)). simpl. lia.
    + apply NoDup_singleton.
    + by left.
    + apply changes_insert; [apply changes_refl|left; left].
    + apply leaf_insert_one; [simpl; lia|constructor; [by destruct ks1|done]|].
      unfold keys_of. simpl. by rewrite app_nil_r, (place_perm _ _ _ _ Hp).
    + split; [|done]. eexists. rewrite lookup_insert_eq. split; [done|]. by simpl.
  - unfold MAX in Hge. assert (H3 : length ks = 3%nat).
    { destruct Hks as (g & Ha & Hlen). rewrite Ha, length_app, length_fmap in Hlen. lia. }
    destruct (splitLeaf_ok m l n ks key Hn Hks H3) as (ks1 & ks2 & a & b & c & d & ka & kb & p & Hp & Ht & Hpn & Hka & Hkb & Heq).
    rewrite (cmd_bind_eq _ _ _ _ _ Heq). eexists _, _. split; [done|].
    assert (Hpl : p <> l) by congruence.
    assert (Hsort := place_sorted _ _ _ _ Hp Hs). assert (Hall := Hw' _ _ Hp). rewrite Ht in Hsort, Hall.
    exists [l; p], [(l, [a; b]); (p, [c; d])]. split_and!.
    + by apply split_leaf_tree.
    + constructor; [set_solver|apply NoDup_singleton].
    + intros q [->|[->|?%not_elem_of_nil]%elem_of_cons]%elem_of_cons; [by left; left|by right|done].
    + apply changes_insert, or_introl, list_elem_of_here. apply changes_insert; [apply changes_refl|by right].
    + apply leaf_insert_one; [simpl; lia|by repeat constructor|].
      rewrite <- (place_perm _ _ _ _ Hp), Ht. done.
    + split; [|split; [|done]]; eexists; simpl; [by rewrite lookup_insert_eq|].
      by rewrite lookup_insert_ne, lookup_insert_eq.
Qed.

Lemma tree_leaves h m lo hi l fp lv : tree h m lo hi l fp lv -> lv.*1 ⊆ fp.
Proof. intros H. apply (tree_dom _ _ _ _ _ _ _ H). Qed.

Lemma kids_dom h m lo hi ks cs fp lv : kids (tree h m) lo hi ks cs fp lv ->
  Forall (fun q => is_Some (m !! q)) fp /\ lv.*1 ⊆ fp.
Proof.
  apply (kids_closed _ (fun f v => Forall _ f /\ v.*1 ⊆ f)).
  - intros lo' hi' c f v Hc. destruct (tree_dom _ _ _ _ _ _ _ Hc) as (? & ? & _). done.
  - intros f1 v1 f2 v2 [? ?] [? ?]. rewrite Forall_app, fmap_app. split; [done|set_solver].
Qed.

(** replacing the nodes of one subtree keeps the nodes of all distinct *)
Lemma NoDup_replace (m : memory) (fp1 fpc fp2 fpn : list loc) :
  NoDup (fp1 ++ fpc ++ fp2) -> NoDup fpn -> Forall (fun q => is_Some (m !! q)) (fp1 ++ fpc ++ fp2) ->
  (forall q, q ∈ fpn -> q ∈ fpc \/ m !! q = None) -> NoDup (fp1 ++ fpn ++ fp2).
Proof.
  intros (H1 & H12 & (Hc & Hc2 & H2)%NoDup_app)%NoDup_app Hn Hdom Hfresh. rewrite Forall_forall in Hdom.
  assert (Hnew : forall q, q ∈ fpn -> (q ∉ fp1) /\ (q ∉ fp2)).
  { intros q [Hq|Hq]%Hfresh.
    - split; [intros ?; apply (H12 q); set_solver|by apply Hc2].
    - split; intros Hin; destruct (Hdom q ltac:(set_solver)); congruence. }
  apply NoDup_app. split_and!; [done| |apply NoDup_app; split_and!; [done| |done]].
  - intros q Hq [Hin|Hin]%elem_of_app; [by apply Hnew in Hin as [? _]|apply (H12 q); set_solver].
  - intros q Hq. by apply Hnew.
Qed.

Lemma insert_child h (m : memory) lo hi ks cs fps lv key z (ins : ptr -> Z -> cmd memory (option (Z * ptr))) :
  (forall lo hi l fp lv z, tree h m lo hi l fp lv -> NoDup fp -> within lo hi key -> chained m lv.*1 z ->
     exists r m', ins (Some l) key m = Done (r, m') /\ insert_spec h m lo hi l fp lv key z r m') ->
  kids (tree h m) lo hi ks cs fps lv -> NoDup fps -> within lo hi key -> chained m lv.*1 z ->
  exists ks1 ks2 cs1 c cs2 r m1 fps' lv', ks = ks1 ++ ks2 /\ length ks1 = index key ks /\
    cs = cs1 ++ c :: cs2 /\ length cs1 = length ks1 /\ ins (Some c) key m = Done (r, m1) /\
    changes fps m m1 /\ NoDup fps' /\ (forall q, q ∈ fps' -> q ∈ fps \/ m !! q = None) /\
    leaf_insert key lv lv' /\ chained m1 lv'.*1 z /\
    match r with
    | None => kids (tree h m1) lo hi (ks1 ++ ks2) (cs1 ++ c :: cs2) fps' lv'
    | Some (up, Some q) => kids (tree h m1) lo hi (ks1 ++ up :: ks2) (cs1 ++ c :: q :: cs2) fps' lv'
    | Some (_, None) => False
    end.
Proof.
  intros Hins Hkids Hnd Hkey Hch. destruct (kids_dom _ _ _ _ _ _ _ _ Hkids) as [Hdom _].
  destruct (kids_focus _ key _ _ _ _ _ _ (tree_within h m) (tree_leaves h m) Hkey Hkids)
    as (ks1 & ks2 & cs1 & c & cs2 & fp1 & fpc & fp2 & lv1 & lvc & lv2 & lo' & hi' & -> & Hi & -> & Hl & -> & -> & Hc & Hw & _ & Hs1 & Hs2 & Hback).
  rewrite !fmap_app, !chained_app in Hch. destruct Hch as (Hch1 & Hchc & Hch2).
  destruct (Hins lo' hi' c fpc lvc (from_option Some z (head lv2.*1)) Hc) as (r & m1 & Heq & fpn & lvn & Hr & Hndn & Hfresh & Hm & Hlf & Hchn); [|done..|].
  { by apply NoDup_app in Hnd as (_ & _ & (? & _)%NoDup_app). }
  assert (Hfr : forall q, q ∈ fp1 ++ fp2 -> m1 !! q = m !! q).
  { intros q Hq. rewrite Forall_forall in Hdom. apply Hm; [apply Hdom; set_solver|].
    apply NoDup_app in Hnd as (_ & Hd1 & (_ & Hd2 & _)%NoDup_app). set_solver. }
  assert (Hhd := leaf_insert_head _ _ _ Hlf).
  exists ks1, ks2, cs1, c, cs2, r, m1, (fp1 ++ fpn ++ fp2), (lv1 ++ lvn ++ lv2). split_and!; try done.
  - intros q Hq. destruct (Hm q Hq) as [? Hq']. split; [done|]. set_solver.
  - by eapply NoDup_replace.
  - intros q Hq. specialize (Hfresh q). set_solver.
  - by apply leaf_insert_context.
  - rewrite !fmap_app, !chained_app. split_and!.
    + replace (head (lvn.*1 ++ lv2.*1)) with (head (lvc.*1 ++ lv2.*1)); [|by destruct lvc, lvn].
      apply (chained_frame m); [done|]. intros q Hq. apply Hfr. set_solver.
    + done.
    + apply (chained_frame m); [done|]. intros q Hq. apply Hfr. set_solver.
  - assert (Hk : forall ksn csn, kids (tree h m1) lo' hi' ksn csn fpn lvn ->
      kids (tree h m1) lo hi (ks1 ++ ksn ++ ks2) (cs1 ++ csn ++ cs2) (fp1 ++ fpn ++ fp2) (lv1 ++ lvn ++ lv2)).
    { intros ksn csn. apply (Hback (tree h m1)). intros lo0 hi0 c0 f v Ht Hf. eapply tree_frame; [done|]. intros q Hq. apply Hfr. set_solver. }
    unfold inserted in Hr. destruct r as [[up [q|]]|]; [exact (Hk _ _ Hr)|done|exact (Hk _ _ Hr)].
Qed.

Lemma splitInternal_ok (m : memory) l n ks1 ks2 cs1 c cs2 up q i : m !! l = Some n ->
  holds Some 3 (keys n) (ks1 ++ ks2) -> length (ks1 ++ ks2) = 3%nat ->
  holds Some 4 (child n) (cs1 ++ c :: cs2) -> length cs1 = length ks1 -> length cs2 = length ks2 ->
  i = Z.of_nat (length ks1) ->
  exists a b up' d p nl np lc rc, ks1 ++ up :: ks2 = [a; b; up'; d] /\ cs1 ++ c :: q :: cs2 = lc ++ rc /\
    length lc = 3%nat /\ m !! p = None /\
    holds Some 3 (keys nl) [a; b] /\ count nl = 2 /\ holds Some 4 (child nl) lc /\ isLeaf nl = isLeaf n /\
    holds Some 3 (keys np) [d] /\ count np = 1 /\ holds Some 4 (child np) rc /\ isLeaf np = false /\
    splitInternal (Some l) i up (Some q) m = Done ((up', Some p), <[p := np]> (<[l := nl]> m)).
Proof.
  intros Hn (g & Hk & Hklen) Hlen (g2 & Hc & Hclen) Hl1 Hl2 ->.
  rewrite Hk, length_app, length_fmap, Hlen in Hklen. destruct g; [|done].
  assert (length (cs1 ++ c :: cs2) = 4%nat) by (rewrite length_app in *; simpl; lia).
  rewrite Hc, length_app, length_fmap in Hclen. destruct g2; [|simpl in Hclen; lia]. rewrite app_nil_r in Hk, Hc.
  assert (Hins : insert_at (Z.of_nat (length ks1)) MAX up (Some q) (keys n ++ [None]) (child n ++ [None]) =
    Done (Some <$> ks1 ++ up :: ks2, Some <$> cs1 ++ c :: q :: cs2)).
  { rewrite Hk, Hc, (fmap_app _ cs1), fmap_cons. rewrite (insert_at_ok ks1 ks2 (Some <$> cs1) (Some <$> cs2));
      [|by rewrite length_fmap|by rewrite length_fmap|done|rewrite length_app in Hlen; unfold MAX; lia].
    by rewrite !app_nil_r, (fmap_app _ cs1). }
  assert (Ht : length (ks1 ++ up :: ks2) = 4%nat) by (rewrite length_app in *; simpl; lia).
  assert (Ht2 : length (cs1 ++ c :: q :: cs2) = 5%nat) by (rewrite length_app in *; simpl in *; lia).
  destruct (ks1 ++ up :: ks2) as [|a [|b [|u [|d [|]]]]]; try done.
  destruct (cs1 ++ c :: q :: cs2) as [|c1 [|c2 [|c3 [|c4 [|c5 [|]]]]]]; try done.
  destruct (ks1 ++ ks2) as [|k1 [|k2 [|k3 [|]]]]; try done. destruct (cs1 ++ c :: cs2) as [|d1 [|d2 [|d3 [|d4 [|]]]]]; try done.
  destruct (bp_alloc (<[l := set_node [Some a; Some b; Some k3] 2 [Some c1; Some c2; Some c3; Some d4] n]> m)
    (mkNode blank_keys 0 blank_children None false)) as (p & Hp & Halloc).
  exists a, b, u, d, p, (set_node [Some a; Some b; Some k3] 2 [Some c1; Some c2; Some c3; Some d4] n),
    (mkNode [Some d; None; None] 1 [Some c4; Some c5; None; None] None false), [c1; c2; c3], [c4; c5].
  assert (Hpm : m !! p = None).
  { destruct (decide (p = l)) as [->|]; [by rewrite lookup_insert_eq in Hp|by rewrite lookup_insert_ne in Hp]. }
  split_and!; try done; [by exists [Some k3]|by exists [Some d4]|by exists [None; None]|by exists [None; None]|].
  unfold splitInternal. rewrite (cmd_bind_eq _ _ _ _ _ (bp_load m l n Hn)).
  erewrite cmd_bind_eq; [|by apply lift_eq, Hins]. simpl. rewrite Hk, Hc.
  rewrite (cmd_bind_eq _ _ _ [a; b] m eq_refl).
  erewrite cmd_bind_eq; [|by apply lift_eq]. erewrite cmd_bind_eq; [|by apply lift_eq].
  erewrite cmd_bind_eq; [|by apply bp_update]. rewrite (cmd_bind_eq _ _ _ u _ eq_refl).
  rewrite (cmd_bind_eq _ _ _ _ _ Halloc). rewrite (cmd_bind_eq _ _ _ [d] _ eq_refl).
  erewrite cmd_bind_eq; [|by apply lift_eq]. erewrite cmd_bind_eq; [|by apply lift_eq].
  erewrite cmd_bind_eq; [|by apply bp_update; rewrite lookup_insert_eq].
  unfold mret, cmd_ret. rewrite insert_insert_eq. reflexivity.
Qed.

Lemma kids_frame h (m m' : memory) lo hi ks cs fp lv : kids (tree h m) lo hi ks cs fp lv ->
  (forall q, q ∈ fp -> m' !! q = m !! q) -> kids (tree h m') lo hi ks cs fp lv.
Proof.
  intros Hk Heq. eapply kids_impl; [done|]. intros lo' hi' c f v Hc Hf. eapply tree_frame; [done|].
  intros q Hq. apply Heq. set_solver.
Qed.

Lemma add_child_ok h (m : memory) lo hi l n ks1 ks2 cs1 c cs2 up q fps lv i :
  m !! l = Some n -> isLeaf n = false -> holds Some 3 (keys n) (ks1 ++ ks2) ->
  count n = Z.of_nat (length (ks1 ++ ks2)) -> holds Some 4 (child n) (cs1 ++ c :: cs2) ->
  length cs1 = length ks1 -> i = Z.of_nat (length ks1) ->
  kids (tree h m) lo hi (ks1 ++ up :: ks2) (cs1 ++ c :: q :: cs2) fps lv -> NoDup (l :: fps) ->
  exists r m' fp', add_child (Some l) i up (Some q) m = Done (r, m') /\
    inserted (S h) m' lo hi l r fp' lv /\ NoDup fp' /\ (forall x, x ∈ fp' -> x ∈ l :: fps \/ m !! x = None) /\
    changes [l] m m' /\ forall x, x ∈ fps -> m' !! x = m !! x.
Proof.
  intros Hn Hlf Hk Hcnt Hc Hl1 Hi Hkids [Hl Hnd]%NoDup_cons.
  assert (Hl2 : length cs2 = length ks2).
  { apply kids_length in Hkids. rewrite !length_app in Hkids. simpl in Hkids. lia. }
  destruct (kids_dom _ _ _ _ _ _ _ _ Hkids) as [Hdom _]. rewrite Forall_forall in Hdom.
  unfold add_child. rewrite (cmd_bind_eq _ _ _ _ _ (bp_load m l n Hn)). destruct (Z.ltb_spec (count n) MAX) as [Hlt|Hge].
  - destruct Hk as (g & Hk & Hklen), Hc as (g2 & Hc & Hclen).
    rewrite Hk, length_app, length_fmap in Hklen. rewrite Hc, length_app, length_fmap in Hclen.
    rewrite length_app in Hclen. rewrite Hcnt in Hlt. unfold MAX in Hlt. rewrite length_app in *. simpl in Hclen.
    destruct g as [|x g]; [simpl in Hklen; lia|]. destruct g2 as [|y g2]; [simpl in Hclen; lia|].
    rewrite Hk, Hc, (fmap_app _ cs1), fmap_cons.
    erewrite cmd_bind_eq; [|apply lift_eq, (insert_at_ok ks1 ks2 (Some <$> cs1) (Some <$> cs2));
      [by rewrite length_fmap|by rewrite length_fmap|done|lia]].
    cbv beta iota. erewrite cmd_bind_eq; [|by apply bp_update]. eexists _, _, (l :: fps). split; [done|].
    assert (Hfr : forall x, x ∈ fps -> (<[l := set_node ((Some <$> ks1 ++ up :: ks2) ++ g) (count n + 1)
      (((Some <$> cs1) ++ Some c :: Some q :: (Some <$> cs2)) ++ g2) n]> m) !! x = m !! x).
    { intros x' Hx. rewrite lookup_insert_ne; [done|]. congruence. }
    split_and!; [|by constructor|by left|apply changes_insert, or_introl, list_elem_of_here; apply changes_refl|done].
    constructor. eexists _, (ks1 ++ up :: ks2), (cs1 ++ c :: q :: cs2), fps. rewrite lookup_insert_eq.
    split_and!; [done|done| | |by destruct ks1| |by eapply kids_frame|done].
    + exists g. split; [done|]. simpl. rewrite length_app, length_fmap, length_app. simpl in *. lia.
    + simpl. rewrite Hcnt, length_app. simpl. lia.
    + exists g2. split; [by rewrite (fmap_app _ cs1)|]. simpl. rewrite !length_app. simpl. rewrite !length_fmap. simpl in *. lia.
  - assert (Hlen : length (ks1 ++ ks2) = 3%nat).
    { destruct Hk as (g & Hk & Hklen). rewrite Hk, length_app, length_fmap in Hklen. unfold MAX in Hge. lia. }
    destruct (splitInternal_ok m l n ks1 ks2 cs1 c cs2 up q i Hn Hk Hlen Hc Hl1 Hl2 Hi)
      as (a & b & u & d & p & nl & np & lc & rc & Hks & Hcs & Hlc & Hp & Heq).
    destruct Heq as (Hnl & Hnlc & Hnlch & Hnll & Hnp & Hnpc & Hnpch & Hnpl & Heq).
    rewrite (cmd_bind_eq _ _ _ _ _ Heq). eexists _, _. rewrite Hks, Hcs in Hkids.
    destruct (kids_split _ lo hi [a; b] u [d] _ _ _ Hkids) as (csA & csB & f1 & f2 & v1 & v2 & Hcc & -> & -> & HlA & Hw & HkA & HkB).
    apply app_inj_1 in Hcc as [<- <-]; [|simpl in HlA; lia]. clear Hkids.
    assert (Hpf : p <> l /\ p ∉ f1 ++ f2).
    { split; [congruence|]. intros Hin. destruct (Hdom p Hin). congruence. }
    assert (Hfr : forall x, x ∈ f1 ++ f2 -> (<[p := np]> (<[l := nl]> m)) !! x = m !! x).
    { intros x Hx. rewrite !lookup_insert_ne; [done|congruence|set_solver]. }
    exists (l :: f1 ++ p :: f2). split; [done|]. split_and!; [| | | |done].
    + apply (kids_cons _ _ _ _ _ _ _ (l :: f1) v1 (p :: f2) v2); [done| |constructor].
      * exists nl, [a; b], lc, f1. rewrite lookup_insert_ne, lookup_insert_eq by tauto.
        split_and!; [done|congruence|done|done|done|done| |done]. eapply kids_frame; [done|]. intros. apply Hfr. set_solver.
      * exists np, [d], rc, f2. rewrite lookup_insert_eq.
        split_and!; [done|done|done|done|done|done| |done]. eapply kids_frame; [done|]. intros. apply Hfr. set_solver.
    + constructor; [set_solver|]. rewrite <- Permutation_middle. constructor; [apply Hpf|done].
    + intros x Hx. destruct (decide (x = p)) as [->|]; [by right|left; set_solver].
    + apply changes_insert; [|by right]. apply changes_insert; [apply changes_refl|left; left].
Qed.

(** [insert] on a tree of height less than the fuel *)
Lemma tree_insert_ok h (m : memory) lo hi l fp lv key z fuel : (h < fuel)%nat -> tree h m lo hi l fp lv -> NoDup fp ->
  within lo hi key -> chained m lv.*1 z ->
  exists r m', insert fuel (Some l) key m = Done (r, m') /\ insert_spec h m lo hi l fp lv key z r m'.
Proof.
  revert m lo hi l fp lv z fuel. induction h as [|h IH]; intros m lo hi l fp lv z [|fuel] Hf Ht Hnd Hkey Hch; try lia.
  { by apply insert_leaf_ok. }
  destruct Ht as (n & ks & cs & fps & Hn & Hlf & Hk & Hcnt & Hne & Hc & Hkids & ->).
  destruct (insert_child h m lo hi ks cs fps lv key z (insert fuel))
    as (ks1 & ks2 & cs1 & c & cs2 & r & m1 & fps' & lv' & -> & Hi & -> & Hl1 & Heq & Hm & Hnd' & Hfresh & Hlv & Hch' & Hr);
    [intros; apply IH; [lia|done..]|done|by apply NoDup_cons in Hnd as [_ ?]|done|done|].
  apply NoDup_cons in Hnd as [Hl Hnd].
  destruct (Hm l ltac:(by exists n)) as [_ Hn']. rewrite Hn in Hn'. specialize (Hn' Hl).
  assert (Hnd2 : NoDup (l :: fps')).
  { constructor; [|done]. intros [|]%Hfresh; [done|congruence]. }
  assert (Hstart : insert (S fuel) (Some l) key m =
    match r with None => Done (None, m1) | Some (up, q) => add_child (Some l) (Z.of_nat (length ks1)) up q m1 end).
  { cbn [insert]. rewrite (cmd_bind_eq _ _ _ _ _ (bp_load m l n Hn)), Hlf.
    destruct Hk as (g & Hk & _), Hc as (g2 & Hc & _). rewrite Hk, Hcnt, Nat2Z.id.
    erewrite cmd_bind_eq; [|by apply lift_eq, (find_child_ok _ _ [])].
    erewrite cmd_bind_eq; [|by apply lift_eq; rewrite Hc, fmap_app, <- app_assoc; apply arr_get_mid; rewrite length_fmap, Hl1, Hi].
    rewrite (cmd_bind_eq _ _ _ _ _ Heq), <- Hi. by destruct r as [[up q]|]. }
  rewrite Hstart. destruct r as [[up [q|]]|]; [|done|].
  - destruct (add_child_ok h m1 lo hi l n ks1 ks2 cs1 c cs2 up q fps' lv' _ Hn' Hlf Hk Hcnt Hc Hl1 eq_refl Hr Hnd2)
      as (r & m2 & fp2 & -> & Hins & Hnd3 & Hfresh2 & Hm2 & Hfr). exists r, m2. split; [done|].
    exists fp2, lv'. split_and!; try done.
    + intros x [[->|Hx]%elem_of_cons|Hx]%Hfresh2; [left; left|destruct (Hfresh x Hx); [left; by right|by right]|].
      right. destruct (m !! x) eqn:Hmx; [|done]. destruct (Hm x ltac:(by eexists)) as [[? ?] _]. congruence.
    + intros x Hx. destruct (Hm x Hx) as [Hx1 Hx1']. destruct (Hm2 x Hx1) as [Hx2 Hx2']. split; [done|].
      intros Hni. rewrite Hx2', Hx1'; [done|set_solver..].
    + eapply chained_frame; [done|]. intros x Hx. apply Hfr. by apply (kids_dom _ _ _ _ _ _ _ _ Hr).
  - exists None, m1. split; [done|]. exists (l :: fps'), lv'. split_and!; try done.
    + constructor. by exists n, (ks1 ++ ks2), (cs1 ++ c :: cs2), fps'.
    + intros x [->|[|]%Hfresh]%elem_of_cons; [left; left|left; by right|by right].
    + intros x Hx. destruct (Hm x Hx) as [Hx1 Hx1']. split; [done|]. set_solver.
Qed.

(** ** The tree of [main] *)

(** a whole tree: ordered, all leaves at depth [h], chained from left to right, holding [ks] *)
Definition well_formed (m : memory) (root : ptr) (h : nat) (lv : leaves) (ks : list Z) : Prop :=
  exists l fp, root = Some l /\ tree h m None None l fp lv /\ NoDup fp /\ chained m lv.*1 None /\ keys_of lv ≡ₚ ks.

Lemma leaf_insert_keys key lv lv' : leaf_insert key lv lv' -> keys_of lv' ≡ₚ key :: keys_of lv.
Proof.
  intros (A & l & ks & B & ks1 & rest & -> & -> & _ & _ & Hp). rewrite !keys_of_app, Hp.
  change (keys_of ((l, ks) :: B)) with (ks ++ keys_of B). simpl. by rewrite <- Permutation_middle.
Qed.

Lemma leaf_insert_length key lv lv' : leaf_insert key lv lv' -> (length lv' <= S (length lv))%nat.
Proof.
  intros (A & l & ks & B & ks1 & rest & -> & -> & Hr & _). rewrite !length_app. simpl. rewrite ?length_app. lia.
Qed.

(** only the empty tree has an empty leaf *)
Definition filled (lv : leaves) (ks : list Z) : Prop :=
  (ks = [] /\ length lv = 1%nat) \/ Forall (fun x => x.2 <> []) lv.

Lemma leaf_insert_filled key lv lv' ks : leaf_insert key lv lv' -> filled lv ks -> filled lv' (key :: ks).
Proof.
  intros (A & l & ks' & B & ks1 & rest & -> & -> & _ & Hne & _) Hfl. right. rewrite !Forall_app.
  destruct Hfl as [[-> Hlen]|Hfl].
  - rewrite length_app in Hlen. simpl in Hlen. destruct A, B; simpl in Hlen; try lia. done.
  - apply Forall_app in Hfl as [? [_ ?]%Forall_cons]. done.
Qed.

Lemma insert_root_ok fuel m root h lv ks key : well_formed m root h lv ks -> (h < fuel)%nat ->
  exists root' m' h' lv', insert_root fuel root key m = Done (root', m') /\
    well_formed m' root' h' lv' (key :: ks) /\ (h' <= S h)%nat /\ leaf_insert key lv lv'.
Proof.
  intros (l & fp & -> & Ht & Hnd & Hch & Hp) Hf.
  destruct (tree_insert_ok h m None None l fp lv key None fuel Hf Ht Hnd)
    as (r & m1 & Heq & fp' & lv' & Hr & Hnd' & Hfresh & Hm & Hlv & Hch'); [done|done|].
  unfold insert_root. rewrite (cmd_bind_eq _ _ _ _ _ Heq).
  assert (Hks : keys_of lv' ≡ₚ key :: ks) by (rewrite (leaf_insert_keys _ _ _ Hlv); by constructor).
  destruct r as [[up [q|]]|]; [|done|].
  - destruct (bp_alloc m1 (mkNode blank_keys 0 blank_children None false)) as (p & Hpn & Halloc).
    destruct (kids_dom _ _ _ _ _ _ _ _ Hr) as [Hdom Hsub]. rewrite Forall_forall in Hdom.
    assert (Hpf : p ∉ fp') by (intros Hin; destruct (Hdom p Hin); congruence).
    rewrite (cmd_bind_eq _ _ _ _ _ Halloc). erewrite cmd_bind_eq; [|by apply lift_eq].
    erewrite cmd_bind_eq; [|by apply lift_eq].
    erewrite cmd_bind_eq; [|by apply bp_update; rewrite lookup_insert_eq]. rewrite insert_insert_eq.
    exists (Some p). eexists _, (S h), lv'. split; [done|]. split; [|done]. exists p, (p :: fp'). split_and!; [done| | | |done].
    + eexists _, [up], [l; q], fp'. rewrite lookup_insert_eq.
      split_and!; [done|done|by exists [None; None]|done|done|by exists [None; None]| |done].
      eapply kids_frame; [done|]. intros x Hx. rewrite lookup_insert_ne; [done|]. congruence.
    + by constructor.
    + eapply chained_frame; [done|]. intros x Hx. rewrite lookup_insert_ne; [done|]. set_solver.
  - exists (Some l), m1, h, lv'. split; [done|]. split; [|split; [lia|done]]. exists l, fp'. split_and!; try done.
    unfold inserted in Hr. by inversion Hr; subst.
Qed.

Lemma insert_all_ok fuel ks : forall m root h lv ks0, well_formed m root h lv ks0 -> filled lv ks0 ->
  (h + length ks < fuel)%nat ->
  exists root' m' h' lv', insert_all fuel root ks m = Done (root', m') /\
    well_formed m' root' h' lv' (ks ++ ks0) /\ filled lv' (ks ++ ks0) /\ (h' <= h + length ks)%nat /\
    (length lv' <= length lv + length ks)%nat.
Proof.
  induction ks as [|k ks IH]; intros m root h lv ks0 Hwf Hfl Hf; simpl.
  { exists root, m, h, lv. split_and!; [done..|lia|lia]. }
  simpl in Hf. destruct (insert_root_ok fuel m root h lv ks0 k Hwf) as (root1 & m1 & h1 & lv1 & Heq & Hwf1 & Hh1 & Hlv); [lia|].
  rewrite (cmd_bind_eq _ _ _ _ _ Heq). assert (Hlen := leaf_insert_length _ _ _ Hlv).
  destruct (IH m1 root1 h1 lv1 (k :: ks0) Hwf1) as (root2 & m2 & h2 & lv2 & Heq2 & Hwf2 & Hfl2 & Hh2 & Hl2); [|lia|].
  - by eapply leaf_insert_filled.
  - exists root2, m2, h2, lv2. split_and!; [done| | |lia|lia].
    + destruct Hwf2 as (l & fp & ? & ? & ? & ? & Hp). exists l, fp. split_and!; try done. by rewrite Hp, <- Permutation_middle.
    + destruct Hfl2 as [[Hnil _]|]; [by destruct ks|by right].
Qed.

(** ** [printRange] *)

Abbreviation in_range a b := (fun k : Z => a <= k <= b).

Lemma print_leaf_ok l a b : StronglySorted Z.le l -> exists stop, print_leaf l a b = (filter (in_range a b) l, stop) /\
  if stop then exists k, k ∈ l /\ b < k else True.
Proof.
  induction 1 as [|k l Hl (stop & IH & Hstop) Hk]; [by exists false|]. simpl.
  rewrite Z.geb_leb, Z.gtb_ltb. destruct (Z.ltb_spec b k).
  - exists true. split; [|exists k; split; [left|done]].
    rewrite filter_cons_False, filter_none; [|eapply Forall_impl; [done|]; simpl; lia|lia].
    destruct (Z.leb_spec k b); [lia|]. by rewrite andb_false_r.
  - exists stop. rewrite IH. split.
    + rewrite filter_cons. destruct (Z.leb_spec a k), (Z.leb_spec k b), (decide (a <= k <= b)); simpl; (done || lia).
    + destruct stop; [|done]. destruct Hstop as (x & ? & ?). exists x. split; [by right|done].
Qed.

Lemma print_leaves_ok (m : memory) a b lv fuel : (length lv < fuel)%nat -> Forall (leaf_at m) lv ->
  chained m lv.*1 None -> StronglySorted Z.le (keys_of lv) ->
  print_leaves fuel (head lv.*1) a b m = Done (filter (in_range a b) (keys_of lv), m).
Proof.
  revert fuel. induction lv as [|[l ks] lv IH]; intros [|fuel] Hf Hl Hch Hs; simpl in Hf; try lia; [done|].
  apply Forall_cons in Hl as [(n & Hn & Hlf & (g & Hk & _) & Hc) Hl]. destruct Hch as [(n' & Hn' & Hx) Hch].
  simpl in *. simplify_eq. unfold keys_of in Hs. simpl in Hs. apply StronglySorted_app in Hs as (Hle & Hs1 & Hs2).
  rewrite (cmd_bind_eq _ _ _ _ _ (bp_load m l n Hn)).
  erewrite cmd_bind_eq; [|by apply lift_eq; rewrite Hk, Hc, Nat2Z.id; apply (read_keys_ok ks [])].
  destruct (print_leaf_ok ks a b Hs1) as (stop & -> & Hstop). unfold keys_of. simpl. rewrite filter_app. destruct stop.
  - destruct Hstop as (k & Hkin & Hkb). rewrite (filter_none _ (concat _)); [by rewrite app_nil_r|].
    apply Forall_forall. intros x Hx'. specialize (Hle k x Hkin Hx'). lia.
  - assert (Hnext : next n = head lv.*1) by (rewrite Hx; by destruct lv).
    rewrite Hnext. erewrite cmd_bind_eq; [|apply IH; [lia|done..]]. done.
Qed.

Lemma descend_ok h (m : memory) lo hi l fp lv start fuel : (h < fuel)%nat -> tree h m lo hi l fp lv -> within lo hi start ->
  exists A l' ks B, descend fuel (Some l) start m = Done (Some l', m) /\ lv = A ++ (l', ks) :: B /\
    Forall (fun x => x < start) (keys_of A).
Proof.
  revert lo hi l fp lv fuel. induction h as [|h IH]; intros lo hi l fp lv [|fuel] Hf Ht Hw; try lia.
  - destruct Ht as (ks & (n & Hn & Hlf & _) & _ & _ & _ & ->). exists [], l, ks, [].
    cbn [descend]. rewrite (cmd_bind_eq _ _ _ _ _ (bp_load m l n Hn)), Hlf. split_and!; [done..|constructor].
  - destruct Ht as (n & ks & cs & fps & Hn & Hlf & (g & Hk & _) & Hcnt & _ & (g2 & Hc & _) & Hkids & ->).
    destruct (kids_focus _ start _ _ _ _ _ _ (tree_within h m) (tree_leaves h m) Hw Hkids)
      as (ks1 & ks2 & cs1 & c & cs2 & fp1 & fpc & fp2 & lv1 & lvc & lv2 & lo' & hi' & -> & Hi & -> & Hl & -> & -> & Hct & Hw' & Hlt & _).
    destruct (IH lo' hi' c fpc lvc fuel) as (A & l' & ks & B & Heq & -> & HA); [lia|done..|].
    exists (lv1 ++ A), l', ks, (B ++ lv2). split_and!.
    + cbn [descend]. rewrite (cmd_bind_eq _ _ _ _ _ (bp_load m l n Hn)), Hlf, Hk, Hcnt, Nat2Z.id.
      erewrite cmd_bind_eq; [|by apply lift_eq, (find_child_ok _ _ [])].
      erewrite cmd_bind_eq; [|by apply lift_eq; rewrite Hc, fmap_app, <- app_assoc; apply arr_get_mid; rewrite length_fmap, Hl, Hi].
      exact Heq.
    + by rewrite <- !app_assoc.
    + rewrite keys_of_app. by apply Forall_app.
Qed.

(** a range query prints the keys of the range in order *)
Lemma printRange_ok fuel m root h lv ks a b : well_formed m root h lv ks -> (h < fuel)%nat -> (length lv < fuel)%nat ->
  printRange fuel root a b m = Done (filter (in_range a b) (keys_of lv), m).
Proof.
  intros (l & fp & -> & Ht & _ & Hch & _) Hf1 Hf2.
  assert (Hs := tree_sorted _ _ _ _ _ _ _ Ht). destruct (tree_dom _ _ _ _ _ _ _ Ht) as (_ & _ & Hl).
  destruct (descend_ok h m None None l fp lv a fuel Hf1 Ht) as (A & l' & ks' & B & Heq & -> & HA); [done|].
  unfold printRange. rewrite (cmd_bind_eq _ _ _ _ _ Heq).
  rewrite fmap_app, chained_app in Hch. rewrite keys_of_app in *. rewrite length_app in Hf2. simpl in *.
  rewrite filter_app, (filter_none _ (keys_of A)); [|eapply Forall_impl; [done|]; simpl; lia].
  apply (print_leaves_ok m a b ((l', ks') :: B)); [simpl; lia| |apply Hch|by apply StronglySorted_app in Hs as (_ & _ & Hs)].
  by apply Forall_app in Hl as [_ Hl].
Qed.

(** ** Properties *)

Lemma empty_well_formed : exists root m lv, createNode true (∅ : memory) = Done (root, m) /\
  well_formed m root 0 lv [] /\ filled lv [] /\ length lv = 1%nat.
Proof.
  destruct (bp_alloc ∅ (mkNode blank_keys 0 blank_children None true)) as (p & _ & Heq).
  exists (Some p). eexists _, [(p, [])]. split; [exact Heq|]. split; [|split; [by left|done]].
  exists p, [p]. split_and!; [done| |apply NoDup_singleton| |done].
  - exists []. split_and!; [|by constructor|done|done|done]. eexists. rewrite lookup_insert_eq.
    split_and!; [done|done|by exists blank_keys|done].
  - split; [|done]. eexists. rewrite lookup_insert_eq. done.
Qed.

(** C4: the program sorts and searches: for every list of keys (duplicates included),
    and every range, [main] inserts all the keys, never reads a missing node, an
    uninitialised key or past an array, ends, and prints exactly the keys of the range,
    in increasing order and with their multiplicity. *)
Theorem main_correct fuel ks a b : (S (length ks) < fuel)%nat ->
  exists m, main fuel ks a b ∅ = Done (filter (in_range a b) (merge_sort Z.le ks), m).
Proof.
  intros Hf. destruct empty_well_formed as (root & m0 & lv0 & Heq0 & Hwf0 & Hfl0 & Hl0).
  destruct (insert_all_ok fuel ks m0 root 0 lv0 [] Hwf0 Hfl0)
    as (root' & m & h & lv & Heq & Hwf & _ & Hh & Hl); [lia|].
  rewrite app_nil_r in Hwf. exists m. unfold main. rewrite (cmd_bind_eq _ _ _ _ _ Heq0), (cmd_bind_eq _ _ _ _ _ Heq).
  rewrite (printRange_ok fuel m root' h lv ks a b Hwf) by lia. do 3 f_equal.
  destruct Hwf as (l & fp & -> & Ht & _ & _ & Hp). apply (StronglySorted_unique Z.le).
  - by eapply tree_sorted.
  - apply (StronglySorted_merge_sort Z.le).
  - by rewrite Hp, merge_sort_Permutation.
Qed.

Lemma main_correct_witness :
  exists m, main 16 [5; 3; 9; 1; 7; 8; 2; 6; 4; 10; 5; 5; 12; 11] 4 9 ∅ = Done ([4; 5; 5; 5; 6; 7; 8; 9], m).
Proof.
  destruct (main_correct 16 [5; 3; 9; 1; 7; 8; 2; 6; 4; 10; 5; 5; 12; 11] 4 9) as [m Hm]; [simpl; lia|].
  exists m. exact Hm.
Defined.

Lemma filled_size lv : Forall (fun x : loc * list Z => x.2 <> []) lv -> (length lv <= length (keys_of lv))%nat.
Proof.
  induction 1 as [|[l ks] lv Hne _ IH]; [done|].
  change (keys_of ((l, ks) :: lv)) with (ks ++ keys_of lv). rewrite length_app. destruct ks; [done|]. simpl. lia.
Qed.

(** The tree stays balanced: after any insertions it is well formed (ordered by its
    separators, every leaf at the same depth [h], the leaves chained from left to
    right), holds exactly the inserted keys, and [2 ^ h] is at most the number of keys. *)
Theorem insert_all_balanced fuel ks : (length ks < fuel)%nat ->
  exists root0 m0 root m h lv, createNode true (∅ : memory) = Done (root0, m0) /\
    insert_all fuel root0 ks m0 = Done (root, m) /\ well_formed m root h lv ks /\
    (ks <> [] -> 2 ^ h <= length ks)%nat.
Proof.
  intros Hf. destruct empty_well_formed as (root & m0 & lv0 & Heq0 & Hwf0 & Hfl0 & Hl0).
  destruct (insert_all_ok fuel ks m0 root 0 lv0 [] Hwf0 Hfl0)
    as (root' & m & h & lv & Heq & Hwf & Hfl & _); [lia|]. rewrite app_nil_r in *.
  exists root, m0, root', m, h, lv. split_and!; [done..|]. intros Hne.
  destruct Hfl as [[? _]|Hfl%filled_size]; [done|].
  destruct Hwf as (l & fp & _ & Ht%tree_size & _ & _ & Hp). rewrite Hp in Hfl. lia.
Qed.

Lemma insert_all_balanced_witness :
  exists root0 m0 root m h lv, createNode true (∅ : memory) = Done (root0, m0) /\
    insert_all 9 root0 [5; 3; 9; 1; 7; 8; 2; 6] m0 = Done (root, m) /\
    well_formed m root h lv [5; 3; 9; 1; 7; 8; 2; 6] /\ (2 ^ h <= 8)%nat.
Proof.
  destruct (insert_all_balanced 9 [5; 3; 9; 1; 7; 8; 2; 6]) as (r0 & m0 & r & m & h & lv & H1 & H2 & H3 & H4); [simpl; lia|].
  exists r0, m0, r, m, h, lv. split_and!; [done..|]. by apply H4.
Defined.
