(* ===== verification/SkipList.v ===== *)
(** * The skip list of SKIPLIST/skiplist.c

    The nodes live in an explicit heap, each with its array [forward] of successors.
    The results of [rand] are a parameter: [coin k] says whether its [k]-th result,
    divided by [RAND_MAX], is less than [P].  A walk along a level takes at most one
    step per allocated node, so the size of the heap is its fuel. *)
From S2P Require Import Prelude LinkedHeap SortedSpec.

(** ** The program *)

Definition MAX_LEVEL : nat := 6.

Record skiplevelNode := mkNode { data : Z; forward : list ptr }.

(** [rand_calls] counts the calls of [rand] *)
Record skiplevel := mkList { heap : gmap loc skiplevelNode; level : nat; header : ptr; rand_calls : nat }.

#[export] Instance skiplevel_heap : HeapState skiplevel skiplevelNode := {
  heap_of := heap; with_heap h s := mkList h (level s) (header s) (rand_calls s);
  heap_of_with _ _ := eq_refl; with_with _ _ _ := eq_refl }.

Definition set_forward (i : nat) (p : ptr) (n : skiplevelNode) : skiplevelNode :=
  mkNode (data n) (<[i := p]> (forward n)).
Definition set_level (l : nat) (s : skiplevel) : skiplevel := mkList (heap s) l (header s) (rand_calls s).

Section skiplist.
Variable coin : nat -> bool.

(** [p->forward[i]] *)
Definition get_forward (p : ptr) (i : nat) : cmd skiplevel ptr :=
  n ← load p; lift (arr_get (forward n) (Z.of_nat i)).
Definition put_forward (p : ptr) (i : nat) (q : ptr) : cmd skiplevel unit :=
  n ← load p; a ← lift (arr_set (forward n) (Z.of_nat i) q); store p (mkNode (data n) a).

Definition createNode (level : nat) (x : Z) : cmd skiplevel ptr := alloc (mkNode x (replicate (level + 1) None)).

Definition createSkipList : cmd skiplevel unit :=
  modify (set_level 0);;
  h ← createNode MAX_LEVEL (-1);
  modify (fun s => mkList (heap s) (level s) h (rand_calls s)).

Definition flip : cmd skiplevel bool := fun s =>
  Done (coin (rand_calls s), mkList (heap s) (level s) (header s) (S (rand_calls s))).

(** the loop of [randomLevel] with [n = MAX_LEVEL - level] *)
Fixpoint flips (n level : nat) : cmd skiplevel nat :=
  c ← flip;
  match n with
  | O => mret level
  | S n' => if c : bool then flips n' (S level) else mret level
  end.
Definition randomLevel : cmd skiplevel nat := flips MAX_LEVEL 0.

(** [while (current->forward[i] != NULL && current->forward[i]->data < x)] *)
Fixpoint walk (fuel : nat) (current : ptr) (i : nat) (x : Z) : cmd skiplevel ptr :=
  match fuel with
  | O => fun _ => OutOfFuel
  | S fuel' =>
      next ← get_forward current i;
      match next with
      | None => mret current
      | Some _ => n ← load next; if data n <? x then walk fuel' next i x else mret current
      end
  end.
Definition walk_level (current : ptr) (i : nat) (x : Z) : cmd skiplevel ptr :=
  h ← gets heap; walk (S (size h)) current i x.

(** the loop over the levels from [i] down to 0, with the array [update] *)
Fixpoint find_update (i : nat) (current : ptr) (x : Z) (update : list ptr) : cmd skiplevel (ptr * list ptr) :=
  current ← walk_level current i x;
  update ← lift (arr_set update (Z.of_nat i) current);
  match i with O => mret (current, update) | S i' => find_update i' current x update end.

(** [update] before it is filled *)
Definition update0 : list ptr := replicate (MAX_LEVEL + 1) None.

(** [p && p->data == x] *)
Definition is_data (p : ptr) (x : Z) : cmd skiplevel bool :=
  match p with None => mret false | Some _ => n ← load p; mret (data n =? x) end.

(** [update[i] = list->header] for [n] levels from [i] *)
Fixpoint fill_header (n i : nat) (h : ptr) (update : list ptr) : outcome (list ptr) :=
  match n with
  | O => Done update
  | S n' => update ← arr_set update (Z.of_nat i) h; fill_header n' (S i) h update
  end.

(** the array [update] up to the level of the new node *)
Definition raise_level (s : skiplevel) (newLevel : nat) (update : list ptr) : cmd skiplevel (list ptr) :=
  if (level s <? newLevel)%nat then
    update ← lift (fill_header (newLevel - level s) (level s + 1) (header s) update);
    modify (set_level newLevel);; mret update
  else mret update.

(** the linking loop of [insertElement], [n] levels from [i] *)
Fixpoint link_levels (n i : nat) (newNode : ptr) (update : list ptr) : cmd skiplevel unit :=
  match n with
  | O => mret tt
  | S n' =>
      u ← lift (arr_get update (Z.of_nat i));
      next ← get_forward u i;
      put_forward newNode i next;;
      put_forward u i newNode;;
      link_levels n' (S i) newNode update
  end.

Definition insertElement (x : Z) : cmd skiplevel unit :=
  s ← get;
  '(current, update) ← find_update (level s) (header s) x update0;
  current ← get_forward current 0;
  found ← is_data current x;
  if found : bool then mret tt else
  newLevel ← randomLevel;
  update ← raise_level s newLevel update;
  newNode ← createNode newLevel x;
  link_levels (newLevel + 1) 0 newNode update.

Fixpoint descend (i : nat) (current : ptr) (x : Z) : cmd skiplevel ptr :=
  current ← walk_level current i x;
  match i with O => mret current | S i' => descend i' current x end.

Definition searchElement (x : Z) : cmd skiplevel bool :=
  s ← get;
  current ← descend (level s) (header s) x;
  current ← get_forward current 0;
  is_data current x.

(** the unlinking loop of [deleteElement], [n] levels from [i] *)
Fixpoint unlink_levels (n i : nat) (current : ptr) (update : list ptr) : cmd skiplevel unit :=
  match n with
  | O => mret tt
  | S n' =>
      u ← lift (arr_get update (Z.of_nat i));
      next ← get_forward u i;
      if bool_decide (next = current) then
        after ← get_forward current i;
        put_forward u i after;;
        unlink_levels n' (S i) current update
      else mret tt
  end.

(** [while (list->level > 0 && list->header->forward[list->level] == NULL)] *)
Fixpoint drop_levels (n : nat) : cmd skiplevel unit :=
  modify (set_level n);;
  match n with
  | O => mret tt
  | S n' =>
      h ← gets header; p ← get_forward h n;
      match p with None => drop_levels n' | Some _ => mret tt end
  end.

Definition deleteElement (x : Z) : cmd skiplevel unit :=
  s ← get;
  '(current, update) ← find_update (level s) (header s) x update0;
  current ← get_forward current 0;
  found ← is_data current x;
  if found : bool then
    unlink_levels (level s + 1) 0 current update;;
    free current;;
    drop_levels (level s)
  else mret tt.

(** one line of [displaySkipList]: the data of a level *)
Fixpoint display_level (fuel : nat) (p : ptr) (i : nat) : cmd skiplevel (list Z) :=
  match fuel with
  | O => fun _ => OutOfFuel
  | S fuel' =>
      match p with
      | None => mret []
      | Some _ =>
          n ← load p; next ← get_forward p i; l ← display_level fuel' next i; mret (data n :: l)
      end
  end.
Fixpoint display_levels (i : nat) : cmd skiplevel (list (nat * list Z)) :=
  s ← get;
  p ← get_forward (header s) i;
  l ← display_level (S (size (heap s))) p i;
  match i with O => mret [(O, l)] | S i' => r ← display_levels i'; mret ((i, l) :: r) end.
Definition displaySkipList : cmd skiplevel (list (nat * list Z)) := s ← get; display_levels (level s).

Inductive op := Insert (x : Z) | Search (x : Z) | Delete (x : Z).

Definition run_op (o : op) : cmd skiplevel (option bool) :=
  match o with
  | Insert x => insertElement x;; mret None
  | Search x => b ← searchElement x; mret (Some b)
  | Delete x => deleteElement x;; mret None
  end.
Fixpoint run_ops (l : list op) : cmd skiplevel (list (option bool)) :=
  match l with
  | [] => mret []
  | o :: l' => r ← run_op o; rs ← run_ops l'; mret (r :: rs)
  end.

(** [main]: what the two searches answer and the two displays print *)
Definition main : cmd skiplevel (list (nat * list Z) * bool * bool * list (nat * list Z)) :=
  createSkipList;;
  run_ops (Insert <$> [3; 6; 7; 12; 19; 18; 21; 25]);;
  d1 ← displaySkipList; b1 ← searchElement 18; deleteElement 18;; b2 ← searchElement 18;
  d2 ← displaySkipList; mret (d1, b1, b2, d2).
End skiplist.

Definition no_list : skiplevel := mkList ∅ 0 None 0.

(** ** The levels of the list *)

(** a node, and the levels [lo <= i < hi] on which it is linked: all of its levels
    except while it is being linked or unlinked *)
Record entry := mkEntry { el : loc; ed : Z; lo : nat; hi : nat }.

Definition vis (i : nat) (e : entry) : bool := (lo e <=? i)%nat && (i <? hi e)%nat.

Lemma vis_true i e : vis i e = true <-> (lo e <= i < hi e)%nat.
Proof. unfold vis. rewrite andb_true_iff, Nat.leb_le, Nat.ltb_lt. done. Qed.
Lemma vis_false i e : vis i e = false <-> ~ (lo e <= i < hi e)%nat.
Proof. rewrite <- vis_true. by destruct (vis i e). Qed.

(** the first entry on level [i], and the last, [d] if there is none *)
Fixpoint first (i : nat) (es : list entry) : ptr :=
  match es with [] => None | e :: es' => if vis i e then Some (el e) else first i es' end.
Fixpoint pred (i : nat) (d : loc) (es : list entry) : loc :=
  match es with [] => d | e :: es' => pred i (if vis i e then el e else d) es' end.

Definition node_at (h : gmap loc skiplevelNode) (e : entry) (rest : list entry) : Prop :=
  exists n, h !! el e = Some n /\ data n = ed e /\ (hi e <= length (forward n))%nat /\
    forall i, vis i e = true -> forward n !! i = Some (first i rest).

Fixpoint linked (h : gmap loc skiplevelNode) (es : list entry) : Prop :=
  match es with [] => True | e :: es' => node_at h e es' /\ linked h es' end.

Definition hidden (i : nat) (es : list entry) : Prop := Forall (fun e => vis i e = false) es.

Lemma first_app i es es' : first i (es ++ es') = match first i es with Some p => Some p | None => first i es' end.
Proof. induction es as [|e es IH]; simpl; [done|]. by destruct (vis i e). Qed.

Lemma first_hidden i es es' : hidden i es -> first i (es ++ es') = first i es'.
Proof. induction 1 as [|e es He _ IH]; simpl; [done|]. by rewrite He. Qed.

Lemma pred_hidden i d es : hidden i es -> pred i d es = d.
Proof. induction 1 as [|e es He _ IH]; simpl; [done|]. by rewrite He. Qed.

Lemma pred_app i d es e es' : vis i e = true -> pred i d (es ++ e :: es') = pred i (el e) es'.
Proof. intros He. revert d. induction es as [|e' es IH]; intros d; simpl; [by rewrite He|]. apply IH. Qed.

Lemma pred_snoc i d es e : pred i d (es ++ [e]) = if vis i e then el e else pred i d es.
Proof. revert d. induction es as [|e' es IH]; intros d; simpl; [done|]. apply IH. Qed.

Lemma pred_in i l es : pred i l es = l \/
  exists A q A2, es = A ++ q :: A2 /\ vis i q = true /\ pred i l es = el q.
Proof.
  revert l. induction es as [|a es IH]; intros l; [by left|]. simpl. destruct (vis i a) eqn:Ha.
  - right. destruct (IH (el a)) as [->|(A & q & A2 & -> & Hq & Hp)]; [by exists [], a, es|by exists (a :: A), q, A2].
  - destruct (IH l) as [->|(A & q & A2 & -> & Hq & Hp)]; [by left|right; by exists (a :: A), q, A2].
Qed.

(** the last entry on a level, if the list starts with one that is on it *)
Lemma pred_spec i d es : vis i d = true -> exists A q A2, d :: es = A ++ q :: A2 /\ vis i q = true /\ hidden i A2 /\
  pred i (el d) es = el q.
Proof.
  intros Hd. induction es as [|e es IH] using rev_ind.
  { exists [], d, []. split_and!; [done|done|constructor|done]. }
  destruct (vis i e) eqn:He.
  - exists (d :: es), e, []. split_and!; [done|done|constructor|]. by rewrite pred_app.
  - destruct IH as (A & q & A2 & Heq & Hq & Hh & Hp). exists A, q, (A2 ++ [e]).
    split_and!; [by rewrite app_comm_cons, Heq, <- app_assoc|done|apply Forall_app; split; [done|by constructor]|].
    by rewrite pred_snoc, He.
Qed.

Lemma linked_app_r h A R : linked h (A ++ R) -> linked h R.
Proof. induction A as [|a A IH]; simpl; [done|]. intros [_ H]. by apply IH. Qed.

Lemma linked_node h A e B : linked h (A ++ e :: B) -> node_at h e B.
Proof. intros H%linked_app_r. apply H. Qed.

(** another end of the list, and another heap, under an unchanged beginning *)
Lemma linked_replace h h' A R R' : linked h (A ++ R) -> linked h' R' ->
  (forall a, a ∈ A -> h' !! el a = h !! el a) ->
  (forall a j, a ∈ A -> vis j a = true -> first j R' = first j R) -> linked h' (A ++ R').
Proof.
  intros Hl Hr. induction A as [|a A IH]; intros Hh Hf; [done|]. destruct Hl as [(n & Hn & Hd & Hhi & Hfw) Hl]. split.
  - exists n. rewrite Hh by left. split_and!; [done..|]. intros j Hj. rewrite Hfw by done.
    by rewrite !first_app, (Hf a) by (done || left).
  - apply IH; [done| |]; intros; [apply Hh; by right|eapply Hf; [by right|done]].
Qed.

Lemma linked_frame h h' es : linked h es -> (forall a, a ∈ es -> h' !! el a = h !! el a) -> linked h' es.
Proof.
  intros Hl Hh. rewrite <- (app_nil_r es). eapply linked_replace; [by rewrite app_nil_r|done|done|done].
Qed.

(** the links of one level that go past an entry which appears or disappears on it *)
Lemma relink h A q A2 e e' B i n : linked h (A ++ q :: A2 ++ e :: B) -> NoDup (el <$> A ++ q :: A2 ++ e :: B) ->
  vis i q = true -> hidden i A2 -> el e' = el e -> (forall j, j <> i -> vis j e' = vis j e) ->
  node_at h e' B -> h !! el q = Some n ->
  linked (<[el q := set_forward i (first i (e' :: B)) n]> h) (A ++ q :: A2 ++ e' :: B).
Proof.
  intros Hl Hnd Hq Hh He Hv He' Hn. set (h' := <[_ := _]> h).
  rewrite fmap_app, fmap_cons, fmap_app, fmap_cons in Hnd.
  apply NoDup_app in Hnd as (_ & HA & [Hq2 _]%NoDup_cons).
  assert (Hne : forall a, el a <> el q -> h' !! el a = h !! el a).
  { intros a Ha. apply lookup_insert_ne. congruence. }
  assert (Hfirst : forall j, j <> i -> first j (e' :: B) = first j (e :: B)).
  { intros j Hj. simpl. by rewrite (Hv j Hj), He. }
  assert (Hout : forall a, a ∈ A2 ++ e :: B -> el a <> el q).
  { intros a Ha Heq. apply Hq2. rewrite <- Heq, <- fmap_cons, <- fmap_app. by apply list_elem_of_fmap_2. }
  assert (Hl2 := linked_app_r _ _ _ Hl). destruct Hl2 as [Hnq Hl2].
  assert (Hend : linked h' (e' :: B)).
  { assert (Hl3 := linked_app_r _ _ _ Hl2). split.
    - destruct He' as (n' & Hn' & ?). exists n'. rewrite Hne; [done|]. rewrite He. apply Hout. set_solver.
    - eapply linked_frame; [apply Hl3|]. intros a Ha. apply Hne, Hout. set_solver. }
  assert (Hmid : linked h' (A2 ++ e' :: B)).
  { eapply linked_replace; [exact Hl2|exact Hend| |].
    - intros a Ha. apply Hne, Hout. set_solver.
    - intros a j Ha Hj. apply Hfirst. intros ->. unfold hidden in Hh. rewrite Forall_forall in Hh.
      rewrite (Hh a Ha) in Hj. done. }
  eapply linked_replace; [exact Hl| | |].
  - split; [|done]. destruct Hnq as (n' & Hn' & Hd & Hhi & Hfw). simplify_eq.
    eexists. unfold h' at 1. rewrite lookup_insert_eq. split_and!; [done|done|by simpl; rewrite length_insert|].
    intros j Hj. simpl. destruct (decide (j = i)) as [->|Hji].
    + rewrite list_lookup_insert_eq; [by rewrite (first_hidden i A2)|]. apply vis_true in Hq. lia.
    + rewrite list_lookup_insert_ne by done. rewrite Hfw by done. f_equal. rewrite !first_app. by rewrite Hfirst.
  - intros a Ha. apply Hne. intros Heq. apply (HA (el a)); [by apply list_elem_of_fmap_2|]. rewrite Heq. left.
  - intros a j _ _. destruct (decide (j = i)) as [->|Hji]; simpl; [by rewrite Hq|].
    destruct (vis j q); [done|]. by rewrite !first_app, Hfirst.
Qed.

(** ** Walking *)

Lemma sk_load (s : skiplevel) p n : heap s !! p = Some n -> load (Some p) s = Done (n, s).
Proof. exact (load_ok s p n). Qed.

Lemma get_forward_ok (s : skiplevel) p n i q : heap s !! p = Some n -> forward n !! i = Some q ->
  get_forward (Some p) i s = Done (q, s).
Proof.
  intros Hn Hq. unfold get_forward. rewrite (cmd_bind_eq _ _ _ _ _ (sk_load s p n Hn)). unfold lift.
  rewrite (proj2 (arr_get_Done _ _ q)); [done|]. split; [lia|]. by rewrite Nat2Z.id.
Qed.

Lemma put_forward_ok (s : skiplevel) p n i q : heap s !! p = Some n -> (i < length (forward n))%nat ->
  put_forward (Some p) i q s = Done (tt, with_heap (<[p := set_forward i q n]> (heap s)) s).
Proof.
  intros Hn Hi. unfold put_forward. rewrite (cmd_bind_eq _ _ _ _ _ (sk_load s p n Hn)).
  erewrite cmd_bind_eq; [|unfold lift; rewrite arr_set_in by lia; reflexivity]. rewrite Nat2Z.id.
  exact (store_ok s p n _ Hn).
Qed.

Lemma get_first (s : skiplevel) A e rest i : linked (heap s) (A ++ e :: rest) -> vis i e = true ->
  get_forward (Some (el e)) i s = Done (first i rest, s).
Proof. intros (n & Hn & _ & _ & Hf)%linked_node Hi. eapply get_forward_ok; [done|by apply Hf]. Qed.

Lemma hidden_or_first i es : hidden i es \/ exists m1 q m2, es = m1 ++ q :: m2 /\ hidden i m1 /\ vis i q = true.
Proof.
  induction es as [|e es IH]; [left; constructor|]. destruct (vis i e) eqn:He; [by right; exists [], e, es; split_and!; [|constructor|]|].
  destruct IH as [IH|(m1 & q & m2 & -> & Hm & Hq)]; [left; by constructor|]. right.
  exists (e :: m1), q, m2. split_and!; [done|by constructor|done].
Qed.

Lemma walk_ok fuel (s : skiplevel) A p mid B i x : linked (heap s) (A ++ p :: mid ++ B) -> vis i p = true ->
  Forall (fun e => ed e < x) mid -> Forall (fun e => x <= ed e) B -> (length mid < fuel)%nat ->
  walk fuel (Some (el p)) i x s = Done (Some (pred i (el p) mid), s).
Proof.
  revert A p mid. induction fuel as [|fuel IH]; intros A p mid Hl Hp Hmid HB Hf; [lia|]. cbn [walk].
  rewrite (cmd_bind_eq _ _ _ _ _ (get_first s A p (mid ++ B) i Hl Hp)).
  destruct (hidden_or_first i mid) as [Hh|(m1 & q & m2 & -> & Hh & Hq)].
  - rewrite first_hidden, pred_hidden by done. destruct (hidden_or_first i B) as [HhB|(b1 & q & b2 & -> & HhB & Hq)].
    + rewrite <- (app_nil_r B), first_hidden by done. done.
    + rewrite first_hidden by done. simpl. rewrite Hq.
      assert (Hnq : node_at (heap s) q b2).
      { apply (linked_node _ (A ++ p :: mid ++ b1)). rewrite <- app_assoc. simpl. by rewrite <- app_assoc. }
      destruct Hnq as (n & Hn & Hd & _). rewrite (cmd_bind_eq _ _ _ _ _ (sk_load s _ n Hn)), Hd.
      apply Forall_app in HB as [_ [HB _]%Forall_cons]. by destruct (Z.ltb_spec (ed q) x); [lia|].
  - rewrite <- !app_assoc, first_hidden by done. cbn [app first]. rewrite Hq, pred_app by done.
    assert (Hl' : linked (heap s) ((A ++ p :: m1) ++ q :: m2 ++ B)).
    { rewrite <- !app_assoc in *. exact Hl. }
    destruct (linked_node _ _ _ _ Hl') as (n & Hn & Hd & _). rewrite (cmd_bind_eq _ _ _ _ _ (sk_load s _ n Hn)), Hd.
    apply Forall_app in Hmid as [_ [Hqx Hmid]%Forall_cons]. destruct (Z.ltb_spec (ed q) x); [|lia].
    apply (IH _ _ _ Hl' Hq Hmid HB). rewrite length_app in Hf. simpl in Hf. lia.
Qed.

(** distinct nodes of the heap are at most its size *)
Lemma linked_size h es : linked h es -> NoDup (el <$> es) -> (length es <= size h)%nat.
Proof.
  intros Hl Hnd. rewrite <- (length_fmap el), <- size_dom. rewrite <- (size_list_to_set (C := gset loc) _ Hnd).
  apply subseteq_size. intros p. rewrite elem_of_list_to_set, elem_of_dom.
  intros (e & -> & (A & B & ->)%list_elem_of_split)%list_elem_of_fmap.
  destruct (linked_node _ _ _ _ Hl) as (n & Hn & _). by exists n.
Qed.

(** ** The search for [x] *)

Section search.
Context (s : skiplevel) (d : entry) (A B : list entry) (x : Z).
Hypothesis (Hlinked : linked (heap s) (d :: A ++ B)) (Hdistinct : NoDup (el <$> d :: A ++ B)).
Hypothesis (Hlow : Forall (fun e => lo e = 0%nat) (d :: A)).
Hypothesis (HA : Forall (fun e => ed e < x) A) (HB : Forall (fun e => x <= ed e) B).

Lemma walk_level_ok i : (i < hi d)%nat ->
  walk_level (Some (pred (S i) (el d) A)) i x s = Done (Some (pred i (el d) A), s).
Proof.
  intros Hi. unfold walk_level. rewrite (cmd_bind_eq _ _ _ (heap s) s eq_refl).
  assert (Hsize := linked_size _ _ Hlinked Hdistinct).
  assert (Hd : vis i d = true) by (apply vis_true; apply Forall_cons in Hlow as [-> _]; lia).
  destruct (pred_in (S i) (el d) A) as [->|(A1 & q & A2 & -> & Hq & ->)].
  - apply (walk_ok _ s [] d A B); [done..|]. rewrite app_comm_cons, length_app in Hsize. simpl in *. lia.
  - assert (Hqi : vis i q = true).
    { apply vis_true. apply vis_true in Hq. apply Forall_cons in Hlow as [_ [_ [-> _]%Forall_cons]%Forall_app]. lia. }
    rewrite pred_app by done. apply (walk_ok _ s (d :: A1) q A2 B); [|done| |done|].
    + rewrite <- app_assoc in Hlinked. done.
    + by apply Forall_app in HA as [_ [_ ?]%Forall_cons].
    + simpl in Hsize. rewrite !length_app in Hsize. simpl in Hsize. lia.
Qed.

(** the predecessor on a level is followed by the first of [B] on that level *)
Lemma get_pred i : (i < hi d)%nat -> get_forward (Some (pred i (el d) A)) i s = Done (first i B, s).
Proof.
  intros Hi. assert (Hd : vis i d = true) by (apply vis_true; apply Forall_cons in Hlow as [-> _]; lia).
  destruct (pred_spec i d A Hd) as (A1 & q & A2 & Heq & Hq & Hh & ->).
  rewrite <- (first_hidden i A2 B Hh). apply (get_first s A1 q (A2 ++ B)); [|done].
  rewrite app_comm_cons, Heq, <- app_assoc in Hlinked. done.
Qed.

Lemma sk_descend_ok i : (i < hi d)%nat ->
  descend i (Some (pred (S i) (el d) A)) x s = Done (Some (pred 0 (el d) A), s).
Proof.
  induction i as [|i IH]; intros Hi; cbn [descend]; rewrite (cmd_bind_eq _ _ _ _ _ (walk_level_ok _ Hi)); [done|].
  apply IH. lia.
Qed.

Lemma find_update_ok i upd : (i < hi d)%nat -> (i < length upd)%nat ->
  exists upd', find_update i (Some (pred (S i) (el d) A)) x upd s = Done ((Some (pred 0 (el d) A), upd'), s) /\
    length upd' = length upd /\ (forall j, (j <= i)%nat -> upd' !! j = Some (Some (pred j (el d) A))) /\
    forall j, (i < j)%nat -> upd' !! j = upd !! j.
Proof.
  revert upd. induction i as [|i IH]; intros upd Hi Hu; cbn [find_update];
    rewrite (cmd_bind_eq _ _ _ _ _ (walk_level_ok _ Hi)); (erewrite cmd_bind_eq; [|unfold lift; rewrite arr_set_in by lia; reflexivity]);
    rewrite Nat2Z.id.
  - eexists. split; [done|]. rewrite length_insert. split_and!; [done| |].
    + intros j Hj. assert (j = 0%nat) as -> by lia. by rewrite list_lookup_insert_eq.
    + intros j Hj. by rewrite list_lookup_insert_ne by lia.
  - destruct (IH (<[S i := Some (pred (S i) (el d) A)]> upd)) as (upd' & -> & Hlen & Hupd & Hrest);
      [lia|rewrite length_insert; lia|].
    exists upd'. rewrite length_insert in Hlen. split_and!; [done..| |].
    + intros j Hj. destruct (decide (j = S i)) as [->|]; [|apply Hupd; lia].
      rewrite Hrest by lia. by rewrite list_lookup_insert_eq.
    + intros j Hj. rewrite Hrest by lia. by rewrite list_lookup_insert_ne by lia.
Qed.
End search.

(** ** Linking and unlinking a node *)

Lemma locs_mid L e B : NoDup (el <$> L ++ e :: B) -> forall a, a ∈ L ++ B -> el a <> el e.
Proof.
  rewrite fmap_app, fmap_cons. intros (_ & Hd1 & [Hd2 _]%NoDup_cons)%NoDup_app a Ha Heq.
  apply elem_of_app in Ha as [Ha|Ha].
  - apply (Hd1 (el a)); [by apply list_elem_of_fmap_2|]. rewrite Heq. left.
  - apply Hd2. rewrite <- Heq. by apply list_elem_of_fmap_2.
Qed.

Lemma get_update {S} (s : S) (upd : list ptr) i p : upd !! i = Some p -> lift (arr_get upd (Z.of_nat i)) s = Done (p, s).
Proof. intros H. unfold lift. rewrite (proj2 (arr_get_Done upd (Z.of_nat i) p)); [done|]. split; [lia|by rewrite Nat2Z.id]. Qed.

Section link.
Context (d : entry) (A B : list entry) (l : loc) (x : Z).
Hypothesis (Hlow : Forall (fun e => lo e = 0%nat) (d :: A)) (Hd : hi d = S MAX_LEVEL).

Lemma put_pred s e e' i : linked (heap s) (d :: A ++ e :: B) -> NoDup (el <$> d :: A ++ e :: B) -> (i <= MAX_LEVEL)%nat ->
  el e' = el e -> (forall j, j <> i -> vis j e' = vis j e) -> node_at (heap s) e' B ->
  exists h', put_forward (Some (pred i (el d) A)) i (first i (e' :: B)) s = Done (tt, with_heap h' s) /\
    linked h' (d :: A ++ e' :: B) /\ h' !! el e = heap s !! el e.
Proof.
  intros Hl Hnd Hi He Hv Hn. assert (Hdi : vis i d = true) by (apply vis_true; apply Forall_cons in Hlow as [-> _]; lia).
  destruct (pred_spec i d A Hdi) as (A1 & q & A2 & Heq & Hq & Hh & ->).
  rewrite app_comm_cons, Heq, <- app_assoc in Hl, Hnd. rewrite app_comm_cons, Heq, <- app_assoc. cbn [app] in *.
  destruct (linked_node _ _ _ _ Hl) as (n & Hnq & _ & Hlen & _).
  eexists. split; [apply put_forward_ok; [done|]; apply vis_true in Hq; lia|]. split.
  - by eapply relink.
  - apply lookup_insert_ne. rewrite fmap_app, fmap_cons, fmap_app in Hnd.
    apply NoDup_app in Hnd as (_ & _ & [Hni _]%NoDup_cons). intros Heq'. apply Hni. rewrite Heq'. set_solver.
Qed.

Lemma link_levels_ok n i s upd nd : linked (heap s) (d :: A ++ mkEntry l x 0 i :: B) ->
  NoDup (el <$> d :: A ++ mkEntry l x 0 i :: B) -> (i + n <= S MAX_LEVEL)%nat ->
  (forall j, (j < i + n)%nat -> upd !! j = Some (Some (pred j (el d) A))) ->
  heap s !! l = Some nd -> (i + n <= length (forward nd))%nat ->
  exists h', link_levels n i (Some l) upd s = Done (tt, with_heap h' s) /\ linked h' (d :: A ++ mkEntry l x 0 (i + n) :: B).
Proof.
  revert i s nd. induction n as [|n IH]; intros i s nd Hl Hnd Hi Hu Hn Hlen; cbn [link_levels].
  { exists (heap s). rewrite Nat.add_0_r. split; [by destruct s|done]. }
  rewrite (cmd_bind_eq _ _ _ _ _ (get_update s upd i _ (Hu i ltac:(lia)))).
  rewrite (cmd_bind_eq _ _ _ _ _ (get_pred s d A _ Hl Hlow i ltac:(rewrite Hd; lia))).
  erewrite cmd_bind_eq; [|by apply put_forward_ok; [done|lia]].
  set (e := mkEntry l x 0 i) in *. set (e' := mkEntry l x 0 (S i)).
  assert (Hei : vis i e = false) by (apply vis_false; simpl; lia).
  set (s1 := with_heap (<[l := set_forward i (first i (e :: B)) nd]> (heap s)) s).
  assert (Hne : forall a, a ∈ (d :: A) ++ B -> heap s1 !! el a = heap s !! el a).
  { intros a Ha. apply lookup_insert_ne. intros Heq. by apply (locs_mid (d :: A) e B Hnd a Ha). }
  assert (Hsub := Hl). rewrite app_comm_cons in Hsub. apply linked_app_r in Hsub as [(n0 & Hn0 & Hdata & _ & Hfw) HlB].
  simpl in Hn0. simplify_eq.
  assert (Hnew : forall k, (k <= S i)%nat -> node_at (heap s1) (mkEntry l x 0 k) B).
  { intros k Hk. eexists. simpl. rewrite lookup_insert_eq. split_and!; [done|done|simpl; rewrite length_insert; lia|].
    intros j Hj. apply vis_true in Hj. simpl in Hj. simpl. destruct (decide (j = i)) as [->|Hji].
    - rewrite list_lookup_insert_eq by lia. simpl. by rewrite Hei.
    - rewrite list_lookup_insert_ne by done. apply Hfw. apply vis_true. simpl. lia. }
  assert (Hl1 : linked (heap s1) (d :: A ++ e :: B)).
  { rewrite app_comm_cons. eapply (linked_replace (heap s)); [exact Hl| |intros; apply Hne; set_solver|done].
    split; [apply Hnew; lia|]. eapply linked_frame; [done|]. intros. apply Hne. set_solver. }
  destruct (put_pred s1 e e' i Hl1 Hnd) as (h2 & Hput & Hl2 & Hsame); [lia|done| |by apply Hnew|].
  { intros j Hj. apply eq_true_iff_eq. rewrite !vis_true. simpl. lia. }
  assert (Hei' : first i (e' :: B) = Some l) by (simpl; by rewrite (proj2 (vis_true i e')) by (simpl; lia)).
  rewrite Hei' in Hput. rewrite (cmd_bind_eq _ _ _ _ _ Hput).
  destruct (IH (S i) (with_heap h2 s1) (set_forward i (first i (e :: B)) nd)) as (h3 & Heq & Hl3).
  - done.
  - rewrite app_comm_cons, fmap_app, fmap_cons in *. exact Hnd.
  - lia.
  - intros j Hj. apply Hu. lia.
  - transitivity (heap s1 !! l); [exact Hsame|]. apply lookup_insert_eq.
  - simpl. rewrite length_insert. lia.
  - exists h3. rewrite Heq, <- Nat.add_succ_comm. done.
Qed.

Lemma unlink_levels_ok n i s upd hi0 : linked (heap s) (d :: A ++ mkEntry l x i hi0 :: B) ->
  NoDup (el <$> d :: A ++ mkEntry l x i hi0 :: B) -> (i + n <= S MAX_LEVEL)%nat -> (hi0 <= i + n)%nat ->
  (forall j, (j < i + n)%nat -> upd !! j = Some (Some (pred j (el d) A))) ->
  exists h' lo', unlink_levels n i (Some l) upd s = Done (tt, with_heap h' s) /\ (hi0 <= lo')%nat /\
    linked h' (d :: A ++ mkEntry l x lo' hi0 :: B).
Proof.
  revert i s. induction n as [|n IH]; intros i s Hl Hnd Hi Hhi Hu; cbn [unlink_levels].
  { exists (heap s), i. split; [by destruct s|split; [lia|done]]. }
  rewrite (cmd_bind_eq _ _ _ _ _ (get_update s upd i _ (Hu i ltac:(lia)))).
  rewrite (cmd_bind_eq _ _ _ _ _ (get_pred s d A _ Hl Hlow i ltac:(rewrite Hd; lia))).
  set (e := mkEntry l x i hi0) in *. destruct (decide (i < hi0)%nat) as [Hlt|Hge].
  - set (e' := mkEntry l x (S i) hi0).
    assert (Hei : vis i e = true) by (apply vis_true; simpl; lia).
    assert (Hei' : vis i e' = false) by (apply vis_false; simpl; lia).
    simpl. rewrite Hei, bool_decide_true by done.
    rewrite app_comm_cons in Hl. rewrite (cmd_bind_eq _ _ _ _ _ (get_first s _ e B i Hl Hei)).
    assert (Hv : forall j, j <> i -> vis j e' = vis j e).
    { intros j Hj. apply eq_true_iff_eq. rewrite !vis_true. simpl. lia. }
    destruct (linked_node _ _ _ _ Hl) as (nd & Hn & Hdata & Hlen & Hfw).
    destruct (put_pred s e e' i Hl Hnd) as (h2 & Hput & Hl2 & _); [lia|done|done| |].
    { exists nd. split_and!; [done..|]. intros j Hj. apply Hfw. rewrite <- Hv; [done|]. intros ->. congruence. }
    simpl in Hput. rewrite Hei' in Hput. rewrite (cmd_bind_eq _ _ _ _ _ Hput).
    destruct (IH (S i) (mkList h2 (level s) (header s) (rand_calls s)) Hl2) as (h3 & lo' & Hrest & ? & ?).
    + rewrite app_comm_cons, fmap_app, fmap_cons in *. exact Hnd.
    + lia.
    + lia.
    + intros j Hj. apply Hu. lia.
    + exists h3, lo'. split; [exact Hrest|done].
  - simpl. rewrite (proj2 (vis_false i e)) by (simpl; lia). rewrite bool_decide_false.
    { exists (heap s), i. split; [by destruct s|split; [lia|done]]. }
    intros Heq. destruct (hidden_or_first i B) as [Hh|(b1 & q & b2 & -> & Hh & Hq)].
    + rewrite <- (app_nil_r B), first_hidden in Heq by done. done.
    + rewrite first_hidden in Heq by done. simpl in Heq. rewrite Hq in Heq. injection Heq as Heq.
      apply (locs_mid (d :: A) e _ Hnd q); [set_solver|done].
Qed.
End link.

(** ** The operations *)

(** the skip list [s] has the header [d] and the nodes [es] *)
Record shaped (s : skiplevel) (d : entry) (es : list entry) : Prop := {
  sh_header : header s = Some (el d);
  sh_d : lo d = 0%nat /\ hi d = S MAX_LEVEL;
  sh_linked : linked (heap s) (d :: es);
  sh_distinct : NoDup (el <$> d :: es);
  sh_heights : Forall (fun e => lo e = 0 /\ 0 < hi e <= S (level s))%nat es;
  sh_level : (level s <= MAX_LEVEL)%nat;
  sh_sorted : ssorted (ed <$> es);
}.

(** the skip list holds the keys *)
Definition holds (s : skiplevel) (keys : list Z) : Prop := exists d es, shaped s d es /\ ed <$> es = keys.

Lemma sorted_split x es : ssorted (ed <$> es) ->
  exists A B, es = A ++ B /\ Forall (fun e => ed e < x) A /\ Forall (fun e => x <= ed e) B.
Proof.
  induction es as [|e es IH]; [by exists [], []|]. simpl. intros Hs. inversion Hs as [|? ? Hs' Hlt]; subst.
  destruct (Z.ltb_spec (ed e) x) as [Hx|Hx].
  - destruct (IH Hs') as (A & B & -> & HA & HB). exists (e :: A), B. split_and!; [done|by constructor|done].
  - exists [], (e :: es). split_and!; [done|constructor|]. constructor; [lia|].
    rewrite Forall_fmap in Hlt. eapply Forall_impl; [exact Hlt|]. simpl. lia.
Qed.

Lemma first_heights i lv es : Forall (fun e => lo e = 0 /\ 0 < hi e <= lv)%nat es -> (lv <= i)%nat -> hidden i es.
Proof. intros H Hi. eapply Forall_impl; [exact H|]. intros e [? ?]. apply vis_false. lia. Qed.

Lemma first_zero lv es : Forall (fun e => lo e = 0 /\ 0 < hi e <= lv)%nat es -> first 0 es = el <$> head es.
Proof. intros [|e es' [? ?] _]; [done|]. simpl. by rewrite (proj2 (vis_true 0 e)) by lia. Qed.

(** what the searches of the three operations find *)
Lemma search_ok s d es x : shaped s d es -> exists A B upd,
  es = A ++ B /\ Forall (fun e => ed e < x) A /\ Forall (fun e => x <= ed e) B /\
  Forall (fun e => lo e = 0%nat) (d :: A) /\
  descend (level s) (header s) x s = Done (Some (pred 0 (el d) A), s) /\
  find_update (level s) (header s) x update0 s = Done ((Some (pred 0 (el d) A), upd), s) /\
  length upd = S MAX_LEVEL /\ (forall j, (j <= level s)%nat -> upd !! j = Some (Some (pred j (el d) A))) /\
  get_forward (Some (pred 0 (el d) A)) 0 s = Done (el <$> head B, s) /\
  is_data (el <$> head B) x s = Done (bool_decide (x ∈ ed <$> es), s).
Proof.
  intros [Hh [Hlo Hhi] Hl Hnd Hht Hlv Hs]. destruct (sorted_split x es Hs) as (A & B & -> & HA & HB).
  assert (Hlow : Forall (fun e => lo e = 0%nat) (d :: A)).
  { constructor; [done|]. apply Forall_app in Hht as [Hht _]. eapply Forall_impl; [exact Hht|]. by intros ? []. }
  assert (HhtB := Hht). apply Forall_app in HhtB as [HhtA HhtB].
  assert (Htop : header s = Some (pred (S (level s)) (el d) A)) by (by rewrite pred_hidden by (eapply first_heights; done)).
  destruct (find_update_ok s d A B x Hl Hnd Hlow HA HB (level s) update0) as (upd & Hupd & Hlen & Hu & _);
    [lia|simpl; unfold MAX_LEVEL in *; lia|].
  exists A, B, upd. rewrite Htop. split_and!; [done..| | | | | |].
  - apply (sk_descend_ok s d A B x Hl Hnd Hlow HA HB). lia.
  - exact Hupd.
  - done.
  - done.
  - rewrite (get_pred s d A B Hl Hlow) by lia. by rewrite (first_zero _ _ HhtB).
  - destruct B as [|b B]; simpl.
    + rewrite bool_decide_false; [done|]. rewrite app_nil_r. intros (e & -> & He)%list_elem_of_fmap.
      rewrite Forall_forall in HA. specialize (HA e He). lia.
    + destruct (linked_node _ (d :: A) b B Hl) as (n & Hn & Hd & _).
      rewrite (cmd_bind_eq _ _ _ _ _ (sk_load s _ n Hn)), Hd. unfold mret, cmd_ret. do 2 f_equal.
      apply Forall_cons in HB as [Hb HB]. destruct (Z.eqb_spec (ed b) x) as [<-|Hne]; symmetry.
      * apply bool_decide_true. rewrite fmap_app, fmap_cons. set_solver.
      * apply bool_decide_false. intros (e & -> & He)%list_elem_of_fmap.
        rewrite fmap_app, fmap_cons in Hs. apply ssorted_mid in Hs as (_ & _ & _ & Hgt).
        rewrite Forall_fmap, Forall_forall in Hgt. rewrite Forall_forall in HA.
        apply elem_of_app in He as [He|[->|He]%elem_of_cons]; [specialize (HA e He)|done|specialize (Hgt e He); simpl in Hgt]; lia.
Qed.

Lemma searchElement_ok s keys x : holds s keys -> searchElement x s = Done (bool_decide (x ∈ keys), s).
Proof.
  intros (d & es & Hsh & <-). destruct (search_ok s d es x Hsh) as (A & B & upd & -> & _ & _ & _ & Hdes & _ & _ & _ & Hget & His).
  unfold searchElement. rewrite (cmd_bind_eq _ _ _ s s eq_refl), (cmd_bind_eq _ _ _ _ _ Hdes), (cmd_bind_eq _ _ _ _ _ Hget).
  exact His.
Qed.

Lemma linsert_between x l r : Forall (fun y => y < x) l -> Forall (fun y => x < y) r ->
  linsert x (l ++ r) = l ++ x :: r.
Proof.
  intros Hl Hr. induction Hl as [|y l Hy _ IH]; simpl.
  - destruct Hr as [|y r Hy _]; simpl; [done|]. by destruct (Z.ltb_spec x y); [|lia].
  - destruct (Z.ltb_spec x y), (Z.ltb_spec y x); try lia. by rewrite IH.
Qed.

Lemma flips_ok coin n i s : exists j c, flips coin n i s = Done (j, mkList (heap s) (level s) (header s) c) /\ (j <= i + n)%nat.
Proof.
  revert i s. induction n as [|n IH]; intros i s.
  - exists i, (S (rand_calls s)). split; [done|lia].
  - cbn [flips]. erewrite cmd_bind_eq; [|reflexivity]. destruct (coin (rand_calls s)).
    + destruct (IH (S i) (mkList (heap s) (level s) (header s) (S (rand_calls s)))) as (j & c & -> & Hj).
      exists j, c. split; [done|lia].
    + exists i, (S (rand_calls s)). split; [done|lia].
Qed.

Lemma fill_header_ok n i h upd : (i + n <= length upd)%nat -> exists upd', fill_header n i h upd = Done upd' /\
  forall j, upd' !! j = if decide (i <= j < i + n)%nat then Some h else upd !! j.
Proof.
  revert i upd. induction n as [|n IH]; intros i upd Hi; cbn [fill_header].
  - exists upd. split; [done|]. intros j. by rewrite decide_False by lia.
  - rewrite arr_set_in by lia. simpl. rewrite Nat2Z.id.
    destruct (IH (S i) (<[i := h]> upd)) as (upd' & -> & Hu); [rewrite length_insert; lia|].
    exists upd'. split; [done|]. intros j. rewrite Hu. destruct (decide (j = i)) as [->|Hne].
    + rewrite decide_False, decide_True by lia. by rewrite list_lookup_insert_eq by lia.
    + rewrite list_lookup_insert_ne by done. by destruct (decide (S i <= j < S i + n)%nat), (decide (i <= j < i + S n)%nat); try lia.
Qed.

Lemma raise_level_ok s d A newLevel upd s1 : header s = Some (el d) ->
  Forall (fun e => lo e = 0 /\ 0 < hi e <= S (level s))%nat A -> (newLevel <= MAX_LEVEL)%nat -> length upd = S MAX_LEVEL ->
  (forall j, (j <= level s)%nat -> upd !! j = Some (Some (pred j (el d) A))) -> level s1 = level s ->
  exists upd', raise_level s newLevel upd s1 = Done (upd', set_level (Nat.max (level s) newLevel) s1) /\
    forall j, (j < newLevel + 1)%nat -> upd' !! j = Some (Some (pred j (el d) A)).
Proof.
  intros Hh Hht Hn Hlen Hu Hs1. unfold raise_level. destruct (Nat.ltb_spec (level s) newLevel) as [Hlt|Hge].
  - destruct (fill_header_ok (newLevel - level s) (level s + 1) (header s) upd) as (upd' & Heq & Hu'); [lia|].
    exists upd'. erewrite cmd_bind_eq; [|unfold lift; rewrite Heq; reflexivity]. rewrite Nat.max_r by lia. split; [done|].
    intros j Hj. rewrite Hu'. destruct (decide (level s + 1 <= j < level s + 1 + (newLevel - level s))%nat); [|apply Hu; lia].
    rewrite Hh, pred_hidden; [done|]. eapply first_heights; [exact Hht|lia].
  - exists upd. rewrite Nat.max_l by lia. split; [by rewrite <- Hs1; destruct s1|]. intros j Hj. apply Hu. lia.
Qed.

Lemma new_node_linked h d A B p x n : linked h (d :: A ++ B) -> h !! p = None -> data n = x ->
  linked (<[p := n]> h) (d :: A ++ mkEntry p x 0 0 :: B) /\ (NoDup (el <$> d :: A ++ B) ->
  forall k, NoDup (el <$> d :: A ++ mkEntry p x 0 k :: B)).
Proof.
  intros Hl Hp Hn. assert (Hne : forall a, a ∈ (d :: A) ++ B -> el a <> p).
  { intros a (L & R & Heq)%list_elem_of_split <-. change (linked h ((d :: A) ++ B)) in Hl. rewrite Heq in Hl.
    apply linked_node in Hl as (n' & Hn' & _). congruence. }
  split.
  - change (linked (<[p := n]> h) ((d :: A) ++ mkEntry p x 0 0 :: B)).
    apply (linked_replace h _ _ B); [done| | |done].
    + split.
      * exists n. simpl. rewrite lookup_insert_eq. split_and!; [done..|lia|]. intros i Hi%vis_true. simpl in Hi. lia.
      * apply (linked_frame h); [by apply (linked_app_r h (d :: A))|].
        intros a Ha. apply lookup_insert_ne, not_eq_sym, Hne. set_solver.
    + intros a Ha. apply lookup_insert_ne, not_eq_sym, Hne. set_solver.
  - intros Hnd k. change (d :: A ++ B) with ((d :: A) ++ B) in Hnd.
    change (d :: A ++ mkEntry p x 0 k :: B) with ((d :: A) ++ mkEntry p x 0 k :: B).
    rewrite (fmap_app _ (d :: A) B) in Hnd. rewrite (fmap_app _ (d :: A)), (fmap_cons el (mkEntry p x 0 k)).
    rewrite <- Permutation_middle. constructor; [cbn [el]|done]. rewrite <- fmap_app. intros (a & -> & Ha)%list_elem_of_fmap. by apply (Hne a Ha).
Qed.

Lemma sk_alloc (s : skiplevel) n : exists p, heap s !! p = None /\ alloc n s = Done (Some p, with_heap (<[p := n]> (heap s)) s).
Proof. exact (alloc_ok s n). Qed.

(** the list after a node of [newLevel] has been linked between [A] and [B] *)
Lemma shaped_insert s d A B p x newLevel h' c : shaped s d (A ++ B) -> (newLevel <= MAX_LEVEL)%nat ->
  linked h' (d :: A ++ mkEntry p x 0 (newLevel + 1) :: B) ->
  NoDup (el <$> d :: A ++ mkEntry p x 0 (newLevel + 1) :: B) ->
  Forall (fun e => ed e < x) A -> Forall (fun e => x < ed e) B ->
  holds (mkList h' (Nat.max (level s) newLevel) (header s) c) (linsert x (ed <$> A ++ B)).
Proof.
  intros [Hh Hd Hl Hnd Hht Hlv Hs] Hn Hl' Hnd' HA HB. exists d, (A ++ mkEntry p x 0 (newLevel + 1) :: B).
  assert (Hkeys : ed <$> A ++ mkEntry p x 0 (newLevel + 1) :: B = linsert x (ed <$> A ++ B)).
  { rewrite !fmap_app, fmap_cons. symmetry. apply linsert_between; by rewrite Forall_fmap. }
  split; [|done]. constructor; simpl; [done|done|done|done| |lia|].
  - apply Forall_app in Hht as [HhtA HhtB]. apply Forall_app. split; [|constructor; [simpl; lia|]].
    + eapply Forall_impl; [exact HhtA|]. simpl. lia.
    + eapply Forall_impl; [exact HhtB|]. simpl. lia.
  - rewrite Hkeys. by apply linsert_sorted.
Qed.

Lemma insertElement_ok coin s keys x : holds s keys ->
  exists s', insertElement coin x s = Done (tt, s') /\ holds s' (linsert x keys).
Proof.
  intros (d & es & Hsh & <-).
  destruct (search_ok s d es x Hsh) as (A & B & upd & -> & HA & HB & Hlow & _ & Hfind & Hlen & Hu & Hget & His).
  unfold insertElement. rewrite (cmd_bind_eq _ _ _ s s eq_refl), (cmd_bind_eq _ _ _ _ _ Hfind).
  rewrite (cmd_bind_eq _ _ _ _ _ Hget), (cmd_bind_eq _ _ _ _ _ His). case_bool_decide as Hin.
  { exists s. split; [done|]. apply list_elem_of_split in Hin as (l1 & l2 & Heq). rewrite Heq, linsert_eq.
    - exists d, (A ++ B). split; done.
    - rewrite <- Heq. apply Hsh. }
  assert (HB' : Forall (fun e => x < ed e) B).
  { apply Forall_forall. intros e He. rewrite Forall_forall in HB. specialize (HB e He).
    assert (ed e <> x); [|lia]. intros <-. apply Hin. apply list_elem_of_fmap_2. set_solver. }
  destruct (flips_ok coin MAX_LEVEL 0 s) as (newLevel & c & Hflip & Hnl). unfold randomLevel.
  rewrite (cmd_bind_eq _ _ _ _ _ Hflip). set (s1 := mkList (heap s) (level s) (header s) c).
  destruct Hsh as [Hh Hd Hl Hnd Hht Hlv Hs] eqn:Hsheq. assert (HhtA := Hht). apply Forall_app in HhtA as [HhtA _].
  destruct (raise_level_ok s d A newLevel upd s1 Hh HhtA Hnl Hlen Hu eq_refl) as (upd' & Hraise & Hu').
  rewrite (cmd_bind_eq _ _ _ _ _ Hraise). set (s2 := set_level _ s1).
  destruct (sk_alloc s2 (mkNode x (replicate (newLevel + 1) None))) as (p & Hp & Halloc).
  unfold createNode. rewrite (cmd_bind_eq _ _ _ _ _ Halloc).
  set (n := mkNode x (replicate (newLevel + 1) None)) in *. set (s3 := with_heap (<[p := n]> (heap s2)) s2).
  destruct (new_node_linked (heap s) d A B p x n Hl Hp eq_refl) as [Hl3 Hnd3]. specialize (Hnd3 Hnd).
  destruct (link_levels_ok d A B p x Hlow (proj2 Hd) (newLevel + 1) 0 s3 upd' n Hl3 (Hnd3 0%nat)) as (h' & Hlink & Hl4).
  - lia.
  - exact Hu'.
  - simpl. by rewrite lookup_insert_eq.
  - simpl. rewrite length_replicate. lia.
  - rewrite Hlink. eexists. split; [done|]. clear Hsheq.
    by apply (shaped_insert s d A B p x newLevel).
Qed.

(** ** Deletion *)

Lemma drop_levels_ok n s d es : header s = Some (el d) -> lo d = 0%nat -> (n < hi d)%nat -> linked (heap s) (d :: es) ->
  Forall (fun e => lo e = 0 /\ 0 < hi e <= S n)%nat es ->
  exists n', drop_levels n s = Done (tt, set_level n' s) /\ (n' <= n)%nat /\
    Forall (fun e => lo e = 0 /\ 0 < hi e <= S n')%nat es.
Proof.
  intros Hh Hlo Hhi Hl. revert s Hh Hl Hhi. induction n as [|n IH]; intros s Hh Hl Hhi Hht; cbn [drop_levels];
    (erewrite cmd_bind_eq; [|reflexivity]).
  { exists 0%nat. split; [done|]. split; [lia|done]. }
  erewrite cmd_bind_eq; [|reflexivity]. cbn [set_level header]. rewrite Hh.
  rewrite (cmd_bind_eq _ _ _ _ _ (get_first (set_level (S n) s) [] d es (S n) Hl ltac:(apply vis_true; lia))).
  destruct (hidden_or_first (S n) es) as [Hhid|(m1 & q & m2 & -> & Hm & Hq)].
  - rewrite <- (app_nil_r es), first_hidden, app_nil_r by done. simpl.
    destruct (IH (set_level (S n) s)) as (n' & Heq & Hn' & Hht'); [done|done|lia| |].
    + unfold hidden in Hhid. rewrite Forall_forall in *. intros e He. specialize (Hht e He). specialize (Hhid e He).
      apply vis_false in Hhid. lia.
    + exists n'. split; [exact Heq|]. split; [lia|done].
  - rewrite first_hidden by done. simpl. rewrite Hq. exists (S n). split; [done|]. split; [lia|done].
Qed.

Lemma linked_remove h d A B e : linked h (d :: A ++ e :: B) -> NoDup (el <$> d :: A ++ e :: B) -> (hi e <= lo e)%nat ->
  linked (delete (el e) h) (d :: A ++ B).
Proof.
  intros Hl Hnd He. change (linked (delete (el e) h) ((d :: A) ++ B)).
  assert (Hne : forall a, a ∈ (d :: A) ++ B -> delete (el e) h !! el a = h !! el a).
  { intros a Ha. apply lookup_delete_ne, not_eq_sym. by apply (locs_mid (d :: A) e B Hnd). }
  apply (linked_replace h _ (d :: A) (e :: B)); [done| | |].
  - apply (linked_frame h); [|intros a Ha; apply Hne; set_solver]. apply (linked_app_r h (d :: A)) in Hl. apply Hl.
  - intros a Ha. apply Hne. set_solver.
  - intros a j _ _. simpl. by rewrite (proj2 (vis_false j e)) by lia.
Qed.

Lemma found_head x A B : ssorted (ed <$> A ++ B) -> Forall (fun e => ed e < x) A -> Forall (fun e => x <= ed e) B ->
  x ∈ ed <$> A ++ B -> exists b B', B = b :: B' /\ ed b = x.
Proof.
  rewrite fmap_app. intros Hs HA HB [(e & -> & He)%list_elem_of_fmap|Hin]%elem_of_app.
  { rewrite Forall_forall in HA. specialize (HA e He). lia. }
  destruct B as [|b B']; [by apply not_elem_of_nil in Hin|]. exists b, B'. split; [done|].
  apply elem_of_cons in Hin as [->|Hin]; [done|]. apply ssorted_mid in Hs as (_ & _ & _ & Hgt).
  rewrite Forall_forall in Hgt. specialize (Hgt x Hin). apply Forall_cons in HB as [Hb _]. lia.
Qed.

(** the list after a node has been unlinked and freed, and the levels dropped to [n'] *)
Lemma shaped_remove s d A e B n' h' c : shaped s d (A ++ e :: B) -> (n' <= level s)%nat ->
  Forall (fun e => lo e = 0 /\ 0 < hi e <= S n')%nat (A ++ B) -> linked h' (d :: A ++ B) ->
  holds (mkList h' n' (header s) c) (lremove (ed e) (ed <$> A ++ e :: B)).
Proof.
  intros [Hh Hd Hl Hnd Hht Hlv Hs] Hn Hht' Hl'. exists d, (A ++ B).
  assert (Hkeys : ed <$> A ++ B = lremove (ed e) (ed <$> A ++ e :: B)).
  { rewrite !fmap_app, fmap_cons in *. by rewrite lremove_eq. }
  split; [|done]. constructor; [done|done|done| |done|simpl; lia|rewrite Hkeys; by apply lremove_sorted].
  rewrite fmap_cons, fmap_app, fmap_cons in Hnd. rewrite fmap_cons, fmap_app.
  apply NoDup_cons in Hnd as [Hd' Hnd]. rewrite <- Permutation_middle in Hnd, Hd'. apply NoDup_cons in Hnd as [_ Hnd].
  constructor; [set_solver|done].
Qed.

Lemma deleteElement_ok s keys x : holds s keys ->
  exists s', deleteElement x s = Done (tt, s') /\ holds s' (lremove x keys).
Proof.
  intros (d & es & Hsh & <-).
  destruct (search_ok s d es x Hsh) as (A & B & upd & -> & HA & HB & Hlow & _ & Hfind & Hlen & Hu & Hget & His).
  unfold deleteElement. rewrite (cmd_bind_eq _ _ _ s s eq_refl), (cmd_bind_eq _ _ _ _ _ Hfind).
  rewrite (cmd_bind_eq _ _ _ _ _ Hget), (cmd_bind_eq _ _ _ _ _ His). case_bool_decide as Hin.
  2: { exists s. split; [done|]. rewrite lremove_id by done. exists d, (A ++ B). split; done. }
  destruct (found_head x A B (sh_sorted _ _ _ Hsh) HA HB Hin) as ([l y lo0 hi0] & B' & -> & Hy). simpl in Hy. subst y.
  assert (Hsh' := Hsh). destruct Hsh' as [Hh [Hlo Hhi] Hl Hnd Hht Hlv _].
  apply Forall_app in Hht as [HhtA [[Hlo0 Hhi0] HhtB]%Forall_cons]. simpl in Hlo0, Hhi0. subst lo0.
  change (el <$> head (_ :: B')) with (Some l).
  destruct (unlink_levels_ok d A B' l x Hlow Hhi (level s + 1) 0 s upd hi0 Hl Hnd) as (h' & lo' & Hun & Hlo' & Hl'); [lia|lia| |].
  { intros j Hj. apply Hu. lia. }
  rewrite (cmd_bind_eq _ _ _ _ _ Hun).
  assert (Hnd' : NoDup (el <$> d :: A ++ mkEntry l x lo' hi0 :: B')).
  { rewrite fmap_cons, fmap_app, fmap_cons in *. exact Hnd. }
  destruct (linked_node h' (d :: A) _ B' Hl') as (n & Hn & _). simpl in Hn.
  set (s2 := mkList (delete l h') (level s) (header s) (rand_calls s)).
  erewrite (cmd_bind_eq _ _ _ tt s2); [|exact (free_ok (mkList h' (level s) (header s) (rand_calls s)) l n Hn)].
  assert (Hl2 := linked_remove h' d A B' (mkEntry l x lo' hi0) Hl' Hnd' Hlo').
  destruct (drop_levels_ok (level s) s2 d (A ++ B') Hh Hlo) as (n' & Heq & Hn' & Hht2); [lia|done|by apply Forall_app|].
  eexists. split; [exact Heq|]. by apply (shaped_remove s d A (mkEntry l x 0 hi0) B').
Qed.

(** ** Display *)

(** the data of a level *)
Definition level_data (i : nat) (es : list entry) : list Z := ed <$> filter (fun e => vis i e = true) es.

Lemma level_data_hidden i es es' : hidden i es -> level_data i (es ++ es') = level_data i es'.
Proof.
  unfold level_data. induction 1 as [|a es Ha _ IH]; [done|]. simpl. rewrite filter_cons_False by congruence. done.
Qed.

Lemma display_level_ok fuel s A es i : linked (heap s) (A ++ es) -> (length es < fuel)%nat ->
  display_level fuel (first i es) i s = Done (level_data i es, s).
Proof.
  revert A es. induction fuel as [|fuel IH]; intros A es Hl Hf; [lia|].
  destruct (hidden_or_first i es) as [Hh|(m1 & q & m2 & -> & Hh & Hq)].
  - rewrite <- (app_nil_r es), first_hidden, level_data_hidden by done. done.
  - rewrite first_hidden, level_data_hidden by done. cbn [display_level first]. rewrite Hq, app_assoc in *.
    destruct (linked_node _ _ _ _ Hl) as (n & Hn & Hd & _). rewrite (cmd_bind_eq _ _ _ _ _ (sk_load s _ n Hn)).
    rewrite (cmd_bind_eq _ _ _ _ _ (get_first s _ q m2 i Hl Hq)).
    rewrite (cons_middle q), app_assoc in Hl. erewrite cmd_bind_eq.
    2: { apply (IH _ m2 Hl). rewrite length_app in Hf. simpl in Hf. lia. }
    unfold level_data. by rewrite filter_cons_True, fmap_cons, Hd.
Qed.

Lemma display_levels_ok i s d es : shaped s d es -> (i < hi d)%nat ->
  display_levels i s = Done ((fun j => (j, level_data j es)) <$> rev (seq 0 (S i)), s).
Proof.
  intros [Hh [Hlo Hhi] Hl Hnd _ _ _] Hi. assert (Hsize := linked_size _ _ Hl Hnd). simpl in Hsize.
  assert (Hone : forall j, (j <= i)%nat -> get_forward (header s) j s = Done (first j es, s) /\
    display_level (S (size (heap s))) (first j es) j s = Done (level_data j es, s)).
  { intros j Hj. rewrite Hh. split; [apply (get_first s []); [done|apply vis_true; lia]|].
    apply (display_level_ok _ s [d]); [done|lia]. }
  clear Hi. induction i as [|i IH]; rewrite seq_S, rev_unit, fmap_cons; cbn [display_levels];
    rewrite (cmd_bind_eq _ _ _ s s eq_refl);
    (rewrite (cmd_bind_eq _ _ _ _ _ (proj1 (Hone _ (le_n _)))), (cmd_bind_eq _ _ _ _ _ (proj2 (Hone _ (le_n _))))); [done|].
  erewrite cmd_bind_eq; [|apply IH; intros j Hj; apply Hone; lia]. done.
Qed.

(** every line of the display is part of the keys in their order, and the last is all of them *)
Definition displays (lines : list (nat * list Z)) (keys : list Z) : Prop :=
  Forall (fun ln => ln.2 `sublist_of` keys) lines /\ last lines = Some (0%nat, keys).

Lemma displaySkipList_ok s keys : holds s keys -> exists lines, displaySkipList s = Done (lines, s) /\ displays lines keys.
Proof.
  intros (d & es & Hsh & <-). eexists. unfold displaySkipList. erewrite cmd_bind_eq; [|reflexivity].
  split; [apply (display_levels_ok _ s d es Hsh); destruct Hsh as [? [? ->] ? ? ? ? ?]; lia|]. split.
  - apply Forall_fmap, Forall_forall. intros j _. simpl. unfold level_data. apply fmap_sublist, sublist_filter.
  - cbn [seq rev]. rewrite fmap_app. simpl. rewrite last_snoc. unfold level_data. rewrite filter_all; [done|].
    eapply Forall_impl; [apply (sh_heights _ _ _ Hsh)|]. intros e [? ?]. simpl. apply vis_true. lia.
Qed.

(** ** Properties *)

(** a sorted set, and what the operations do to it *)
Definition spec_op (o : op) (keys : list Z) : option bool * list Z :=
  match o with
  | Insert x => (None, linsert x keys)
  | Search x => (Some (bool_decide (x ∈ keys)), keys)
  | Delete x => (None, lremove x keys)
  end.
Fixpoint spec_ops (l : list op) (keys : list Z) : list (option bool) * list Z :=
  match l with
  | [] => ([], keys)
  | o :: l' => let '(r, keys) := spec_op o keys in let '(rs, keys) := spec_ops l' keys in (r :: rs, keys)
  end.

Lemma run_op_ok coin o s keys : holds s keys ->
  exists s', run_op coin o s = Done (fst (spec_op o keys), s') /\ holds s' (snd (spec_op o keys)).
Proof.
  intros Hs. destruct o as [x|x|x]; simpl.
  - destruct (insertElement_ok coin s keys x Hs) as (s' & Heq & Hs'). exists s'. by rewrite (cmd_bind_eq _ _ _ _ _ Heq).
  - exists s. by rewrite (cmd_bind_eq _ _ _ _ _ (searchElement_ok s keys x Hs)).
  - destruct (deleteElement_ok s keys x Hs) as (s' & Heq & Hs'). exists s'. by rewrite (cmd_bind_eq _ _ _ _ _ Heq).
Qed.

Lemma run_ops_ok coin l s keys : holds s keys ->
  exists s', run_ops coin l s = Done (fst (spec_ops l keys), s') /\ holds s' (snd (spec_ops l keys)).
Proof.
  revert s keys. induction l as [|o l IH]; intros s keys Hs; cbn [run_ops spec_ops]; [by exists s|].
  destruct (run_op_ok coin o s keys Hs) as (s1 & Heq1 & Hs1). rewrite (cmd_bind_eq _ _ _ _ _ Heq1).
  destruct (spec_op o keys) as [r keys1]. destruct (IH s1 keys1 Hs1) as (s2 & Heq2 & Hs2).
  rewrite (cmd_bind_eq _ _ _ _ _ Heq2). destruct (spec_ops l keys1) as [rs keys2]. by exists s2.
Qed.

Lemma createSkipList_ok : exists s, createSkipList no_list = Done (tt, s) /\ holds s [].
Proof.
  destruct (sk_alloc no_list (mkNode (-1) (replicate (MAX_LEVEL + 1) None))) as (p & _ & Halloc).
  unfold createSkipList. eexists. erewrite cmd_bind_eq; [|reflexivity]. unfold createNode.
  erewrite cmd_bind_eq; [|exact Halloc]. split; [reflexivity|].
  exists (mkEntry p (-1) 0 (S MAX_LEVEL)), []. split; [|done].
  constructor; simpl; [done|done| |apply NoDup_singleton|done|lia|constructor].
  split; [|done]. eexists. simpl. rewrite lookup_insert_eq. split_and!; [done|done|simpl; unfold MAX_LEVEL; lia|].
  intros i Hi%vis_true. simpl in Hi. simpl. apply (lookup_replicate_2 (MAX_LEVEL + 1)). unfold MAX_LEVEL in *. lia.
Qed.

(** C10: the skip list is a sorted set: whatever levels the random generator chooses,
    every sequence of insertions, searches and deletions on a new list runs without
    undefined behaviour and ends, the searches answer as the sorted set does, and the
    display then prints on its last line all the keys in order, and on the lines of
    the higher levels subsequences of them. *)
Theorem skiplist_is_set coin l :
  exists s lines, (createSkipList;; rs ← run_ops coin l; ls ← displaySkipList; mret (rs, ls)) no_list =
      Done ((fst (spec_ops l []), lines), s) /\ displays lines (snd (spec_ops l [])).
Proof.
  destruct createSkipList_ok as (s0 & Heq0 & Hs0). destruct (run_ops_ok coin l s0 [] Hs0) as (s & Heq & Hs).
  destruct (displaySkipList_ok s _ Hs) as (lines & Hd & Hlines). exists s, lines.
  rewrite (cmd_bind_eq _ _ _ _ _ Heq0), (cmd_bind_eq _ _ _ _ _ Heq), (cmd_bind_eq _ _ _ _ _ Hd). done.
Qed.
