(* ===== verification/LRUCache.v ===== *)
(** * The LRU cache of LEETCODE PROBLEMS/lrucache.c

    Nodes live in an explicit heap: each one is reached both from the doubly
    linked recency list and from an [Entry] of the hash table.  The entries
    themselves are owned by their chain, so a chain is a list and an [Entry*] is
    a bucket with a position.  The cache is shown to refine a list of (key, value)
    pairs, most recently used first. *)
From S2P Require Import Prelude LinkedHeap.

(** ** The program *)

Definition HASH_SIZE : Z := 10007.

Record Node := mkNode { key : Z; value : Z; prev : ptr; next : ptr }.

Record Entry := mkEntry { ekey : Z; enode : ptr }.

Record LRUCache := mkLRUCache {
  capacity : Z;
  size : Z;
  hashTable : list (list Entry);
  head : ptr;
  tail : ptr;
  heap : gmap loc Node  (* the allocated nodes *)
}.

Definition set_value (v : Z) (n : Node) : Node := mkNode (key n) v (prev n) (next n).
Definition set_prev (p : ptr) (n : Node) : Node := mkNode (key n) (value n) p (next n).
Definition set_next (p : ptr) (n : Node) : Node := mkNode (key n) (value n) (prev n) p.

Definition set_size (x : Z) (c : LRUCache) : LRUCache :=
  mkLRUCache (capacity c) x (hashTable c) (head c) (tail c) (heap c).
Definition set_table (t : list (list Entry)) (c : LRUCache) : LRUCache :=
  mkLRUCache (capacity c) (size c) t (head c) (tail c) (heap c).
Definition set_head (p : ptr) (c : LRUCache) : LRUCache :=
  mkLRUCache (capacity c) (size c) (hashTable c) p (tail c) (heap c).
Definition set_tail (p : ptr) (c : LRUCache) : LRUCache :=
  mkLRUCache (capacity c) (size c) (hashTable c) (head c) p (heap c).
Definition set_heap (h : gmap loc Node) (c : LRUCache) : LRUCache :=
  mkLRUCache (capacity c) (size c) (hashTable c) (head c) (tail c) h.

#[export] Program Instance LRUCache_heap : HeapState LRUCache Node :=
  {| heap_of := heap; with_heap := set_heap |}.
Solve All Obligations with done.

#[export] Program Instance Node_dl : DLNode Node (Z * Z) :=
  {| prv := prev; nxt := next; pay n := (key n, value n);
     set_prv := set_prev; set_nxt := set_next |}.
Solve All Obligations with done.

(** [key % HASH_SIZE] is computed in [int] and converted to [unsigned int] *)
Definition hash (key : Z) : Z := u32 (Z.rem key HASH_SIZE).

Definition createNode (key value : Z) : cmd LRUCache ptr :=
  alloc (mkNode key value None None).

Definition addToHead (node : ptr) : cmd LRUCache unit :=
  hd ← gets head;
  update node (set_next hd);;
  update node (set_prev None);;
  (match hd with Some _ => update hd (set_prev node) | None => mret tt end);;
  modify (set_head node);;
  tl ← gets tail;
  match tl with None => modify (set_tail node) | Some _ => mret tt end.

Definition removeNode (node : ptr) : cmd LRUCache unit :=
  n ← load node;
  (match prev n with
   | Some _ => update (prev n) (set_next (next n))
   | None => modify (set_head (next n))
   end);;
  n ← load node;
  match next n with
  | Some _ => update (next n) (set_prev (prev n))
  | None => modify (set_tail (prev n))
  end.

Definition removeTail : cmd LRUCache ptr :=
  tl ← gets tail; removeNode tl;; mret tl.

Definition moveToHead (node : ptr) : cmd LRUCache unit :=
  removeNode node;; addToHead node.

(** [object->hashTable[b]], read and written *)
Definition bucket (b : Z) : cmd LRUCache (list Entry) :=
  t ← gets hashTable; lift (arr_get t b).
Definition set_bucket (b : Z) (chain : list Entry) : cmd LRUCache unit :=
  t ← gets hashTable; t' ← lift (arr_set t b chain); modify (set_table t').

(** the position of the first entry with that key *)
Fixpoint chain_find (k : Z) (chain : list Entry) : option nat :=
  match chain with
  | [] => None
  | e :: chain' => if ekey e =? k then Some O else S <$> chain_find k chain'
  end.

Definition hashGetEntry (k : Z) : cmd LRUCache (option (Z * nat)) :=
  chain ← bucket (hash k); mret (pair (hash k) <$> chain_find k chain).

Definition hashGet (k : Z) : cmd LRUCache ptr :=
  entry ← hashGetEntry k;
  match entry with
  | None => mret None
  | Some (b, i) =>
      chain ← bucket b;
      e ← lift (of_option (chain !! i)); mret (enode e)
  end.

Definition hashPut (k : Z) (node : ptr) : cmd LRUCache unit :=
  entry ← hashGetEntry k;
  match entry with
  | Some (b, i) =>
      chain ← bucket b;
      set_bucket b (alter (fun e => mkEntry (ekey e) node) i chain)
  | None =>
      chain ← bucket (hash k);
      set_bucket (hash k) (mkEntry k node :: chain)
  end.

(** the chain without the first entry of that key *)
Fixpoint chain_remove (k : Z) (chain : list Entry) : list Entry :=
  match chain with
  | [] => []
  | e :: chain' => if ekey e =? k then chain' else e :: chain_remove k chain'
  end.

Definition hashRemove (k : Z) : cmd LRUCache unit :=
  chain ← bucket (hash k); set_bucket (hash k) (chain_remove k chain).

Definition lRUCacheCreate (capacity : Z) : LRUCache :=
  mkLRUCache capacity 0 (replicate (Z.to_nat HASH_SIZE) []) None None ∅.

Definition lRUCacheGet (k : Z) : cmd LRUCache Z :=
  node ← hashGet k;
  match node with
  | None => mret (-1)
  | Some _ => moveToHead node;; n ← load node; mret (value n)
  end.

(** lines 211-214 of [lRUCachePut] *)
Definition evictTail : cmd LRUCache unit :=
  tl ← removeTail;
  n ← load tl;
  hashRemove (key n);;
  free tl;;
  modify (fun c => set_size (size c - 1) c).

Definition lRUCachePut (k v : Z) : cmd LRUCache unit :=
  node ← hashGet k;
  match node with
  | Some _ => update node (set_value v);; moveToHead node
  | None =>
      newNode ← createNode k v;
      addToHead newNode;;
      hashPut k newNode;;
      modify (fun c => set_size (size c + 1) c);;
      c ← get;
      if size c >? capacity c then evictTail else mret tt
  end.

(** the list loop of [lRUCacheFree]; one node per unit of fuel *)
Fixpoint free_nodes (fuel : nat) (current : ptr) : cmd LRUCache unit :=
  match current with
  | None => mret tt
  | Some _ =>
      match fuel with
      | O => fun _ => OutOfFuel
      | S fuel => n ← load current; free current;; free_nodes fuel (next n)
      end
  end.

Definition lRUCacheFree (fuel : nat) : cmd LRUCache unit :=
  current ← gets head;
  free_nodes fuel current;;
  modify (set_table (replicate (Z.to_nat HASH_SIZE) [])).

(** ** Specification: a list of pairs, most recently used first *)

Definition spec_get (k : Z) (l : list (Z * Z)) : Z * list (Z * Z) :=
  match assoc k l with
  | None => (-1, l)
  | Some v => (v, (k, v) :: assoc_remove k l)
  end.

Definition spec_put (cap k v : Z) (l : list (Z * Z)) : list (Z * Z) :=
  match assoc k l with
  | Some _ => (k, v) :: assoc_remove k l
  | None =>
      let l' := (k, v) :: l in
      if Z.of_nat (length l') >? cap then List.removelast l' else l'
  end.

(** the key's bucket is an index of the table *)
Definition key_ok (k : Z) : Prop := 0 <= Z.rem k HASH_SIZE.

(** the recency list of [c] is [ps] *)
Definition listed (c : LRUCache) (ps : list (loc * (Z * Z))) : Prop :=
  head c = firstp ps None /\ tail c = lastp ps None /\
  dll (heap c) None ps None /\ NoDup ps.*1.

(** every chain holds, once each, the listed keys that hash to it *)
Definition hashed (t : list (list Entry)) (ps : list (loc * (Z * Z))) : Prop :=
  length t = Z.to_nat HASH_SIZE /\
  forall b chain, t !! b = Some chain ->
    NoDup (ekey <$> chain) /\
    forall k q, mkEntry k q ∈ chain <->
      hash k = Z.of_nat b /\ exists p v, q = Some p /\ (p, (k, v)) ∈ ps.

Record repr (c : LRUCache) (l : list (Z * Z)) : Prop := {
  repr_ps : exists ps, listed c ps /\ hashed (hashTable c) ps /\ ps.*2 = l /\
                       dom (heap c) = list_to_set ps.*1;
  repr_keys : NoDup l.*1;
  repr_key_ok : Forall key_ok l.*1;
  repr_size : size c = Z.of_nat (length l);
}.

(** ** Lemmas: the recency list *)

(** what the list operations leave alone *)
Definition same_rest (c c' : LRUCache) : Prop :=
  capacity c' = capacity c /\ size c' = size c /\ hashTable c' = hashTable c /\
  dom (heap c') = dom (heap c).

Ltac step := erewrite cmd_bind_eq;
  [|first [apply load_ok; simpl; eassumption | eapply update_ok; simpl; eassumption | reflexivity]];
  cbv beta.

Lemma removeNode_eq c x n :
  heap c !! x = Some n ->
  (forall q, prev n = Some q -> q <> x /\ is_Some (heap c !! q)) ->
  (forall q, next n = Some q -> is_Some (heap c !! q)) ->
  removeNode (Some x) c = Done (tt, mkLRUCache (capacity c) (size c) (hashTable c)
    (match prev n with Some _ => head c | None => next n end)
    (match next n with Some _ => tail c | None => prev n end)
    (unlink (prev n) (next n) (heap c))).
Proof.
  intros Hn Hp Hx. unfold removeNode, unlink. step.
  destruct (prev n) as [q|] eqn:Ep; simpl.
  - destruct (Hp q eq_refl) as [Hne [nq Hq]]. step.
    assert (alter (set_next (next n)) q (heap c) !! x = Some n) as Hn'
      by (by rewrite lookup_alter_ne).
    step. rewrite Ep. destruct (next n) as [r|]; [|done].
    destruct (Hx r eq_refl) as [nr Hr].
    assert (is_Some (alter (set_next (Some r)) q (heap c) !! r)) as [nr' Hr']
      by (by apply lookup_alter_is_Some).
    by erewrite update_ok.
  - step. step. rewrite Ep. destruct (next n) as [r|]; [|done].
    destruct (Hx r eq_refl) as [nr Hr]. by erewrite update_ok.
Qed.

Lemma removeNode_ok c ps1 x ps2 : listed c (ps1 ++ x :: ps2) ->
  exists c', removeNode (Some x.1) c = Done (tt, c') /\ listed c' (ps1 ++ ps2) /\
    heap c' !! x.1 = heap c !! x.1 /\ same_rest c c'.
Proof.
  intros (Hhd & Htl & Hdll & Hnd).
  pose proof (dll_unlink _ _ _ _ Hdll Hnd) as [Hun Hx].
  destruct (dll_lookup _ _ _ _ _ _ Hdll) as (n & Hn & _ & Hp & Hnx). simpl in Hp, Hnx.
  rewrite fmap_app, fmap_cons in Hnd. pose proof Hnd as (Hn1 & Hd & [Hx2 Hn2]%NoDup_cons)%NoDup_app.
  eexists. split; [apply removeNode_eq; [exact Hn|..]|].
  - intros q Hq. rewrite Hp in Hq. apply lastp_elem in Hq as Hq'. split; [set_solver|].
    apply list_elem_of_fmap in Hq' as (y & -> & Hy).
    destruct (dll_elem _ _ _ _ y Hdll) as (v & Hv & _); [set_solver|eauto].
  - intros q Hq. rewrite Hnx in Hq. apply firstp_elem in Hq as Hq'.
    apply list_elem_of_fmap in Hq' as (y & -> & Hy).
    destruct (dll_elem _ _ _ _ y Hdll) as (v & Hv & _); [set_solver|eauto].
  - rewrite Hp, Hnx. split; [|split; [done|by unfold same_rest; simpl; rewrite dom_unlink]].
    split_and!; simpl; [| |done|].
    + destruct ps1 as [|y ps1]; [done|]. rewrite lastp_cons, Hhd. simpl.
      destruct ps1 as [|z ps1 _] using rev_ind; [done|]. by rewrite lastp_snoc.
    + rewrite Htl, !lastp_app, lastp_cons. destruct ps2; [done|]. by rewrite !lastp_cons.
    + rewrite fmap_app. apply NoDup_app. split_and!; [done| |done].
      intros y Hy%Hd. set_solver.
Qed.

Lemma addToHead_ok c ps x n :
  listed c ps -> heap c !! x.1 = Some n -> (key n, value n) = x.2 -> x.1 ∉ ps.*1 ->
  exists c', addToHead (Some x.1) c = Done (tt, c') /\ listed c' (x :: ps) /\ same_rest c c'.
Proof.
  intros (Hhd & Htl & Hdll & Hnd) Hn Hpay Hni.
  assert (NoDup (x :: ps).*1) as Hnd' by (rewrite fmap_cons; by constructor).
  exists (mkLRUCache (capacity c) (size c) (hashTable c) (Some x.1) (lastp (x :: ps) None)
    (push_front x.1 (firstp ps None) (heap c))).
  split; [|split; [split_and!; [done|done| |done]; by apply dll_push_front with n|
                   by unfold same_rest; simpl; rewrite dom_push_front]].
  assert (forall f : Node -> Node, is_Some (alter f x.1 (heap c) !! x.1)) as Hf.
  { intros f. rewrite lookup_alter_eq, Hn. eauto. }
  unfold addToHead, push_front. step. rewrite Hhd. step.
  destruct (Hf (set_next (firstp ps None))) as [n1 Hn1]. step.
  destruct ps as [|y ps]; simpl.
  - unfold lastp in Htl. simpl in Htl. step. step. unfold gets, mbind, cmd_bind. simpl. by rewrite Htl.
  - assert (is_Some (alter (set_prev None) x.1 (alter (set_next (Some y.1)) x.1 (heap c)) !! y.1)) as [ny Hy].
    { rewrite !lookup_alter_is_Some. destruct (dll_elem _ _ _ _ y Hdll) as (v & -> & _); [set_solver|eauto]. }
    step. step. unfold gets, mbind, cmd_bind. simpl.
    assert (exists z, lastp ps (Some y.1) = Some z) as [z Hz].
    { destruct ps as [|z ps _] using rev_ind; [by eauto|]. rewrite lastp_snoc. eauto. }
    unfold set_head, set_heap. simpl. by rewrite Htl, !lastp_cons, Hz.
Qed.

Lemma moveToHead_ok c ps1 x ps2 : listed c (ps1 ++ x :: ps2) ->
  exists c', moveToHead (Some x.1) c = Done (tt, c') /\ listed c' (x :: ps1 ++ ps2) /\ same_rest c c'.
Proof.
  intros Hl. pose proof Hl as (_ & _ & Hdll & Hnd).
  destruct (dll_lookup _ _ _ _ _ _ Hdll) as (n & Hn & Hpay & _).
  destruct (removeNode_ok c ps1 x ps2 Hl) as (c1 & Hc1 & Hl1 & Hx & Hs1).
  rewrite Hn in Hx. rewrite fmap_app, fmap_cons in Hnd. apply NoDup_app in Hnd as (? & Hd & [? ?]%NoDup_cons).
  destruct (addToHead_ok c1 (ps1 ++ ps2) x n Hl1 Hx Hpay) as (c2 & Hc2 & Hl2 & Hs2).
  { rewrite fmap_app. set_solver. }
  exists c2. unfold moveToHead. rewrite (cmd_bind_eq _ _ _ _ _ Hc1). split_and!; [done|done|].
  unfold same_rest in *. naive_solver congruence.
Qed.

(** ** Lemmas: the hash table *)

Lemma hash_range k : key_ok k -> 0 <= hash k < HASH_SIZE.
Proof.
  unfold key_ok, hash. intros Hk. pose proof (Z.rem_bound_abs k HASH_SIZE).
  unfold HASH_SIZE in *. rewrite u32_small; lia.
Qed.

Lemma chain_find_Some k chain i : chain_find k chain = Some i ->
  exists q, chain !! i = Some (mkEntry k q).
Proof.
  revert i. induction chain as [|[k' q] chain IH]; intros i; simpl; [done|]. zcases.
  - intros [= <-]. subst. eauto.
  - destruct (chain_find k chain) as [j|]; [|done]. intros [= <-]. simpl. auto.
Qed.

Lemma chain_find_None k chain q : chain_find k chain = None -> mkEntry k q ∉ chain.
Proof.
  induction chain as [|[k' q'] chain IH]; simpl; [set_solver|]. zcases; [done|].
  destruct (chain_find k chain); [done|]. intros _ [[= -> ->]|Hin]%elem_of_cons; [done|].
  by apply IH.
Qed.

Lemma elem_of_chain_remove k chain e : NoDup (ekey <$> chain) ->
  e ∈ chain_remove k chain <-> e ∈ chain /\ ekey e <> k.
Proof.
  induction chain as [|e' chain IH]; simpl; [set_solver|].
  intros [Hni Hn]%NoDup_cons. destruct (Z.eqb_spec (ekey e') k) as [He'|Hne].
  - split; [|set_solver]. intros He. split; [by right|]. intros Hk. apply Hni.
    rewrite He', <- Hk. by apply list_elem_of_fmap_2.
  - rewrite !elem_of_cons, IH by done. naive_solver.
Qed.

Lemma NoDup_chain_remove k chain : NoDup (ekey <$> chain) -> NoDup (ekey <$> chain_remove k chain).
Proof.
  induction chain as [|e chain IH]; simpl; [done|]. intros [Hni Hn]%NoDup_cons. zcases; [done|].
  simpl. apply NoDup_cons. split; [|auto]. intros (e' & Heq & He')%list_elem_of_fmap.
  apply elem_of_chain_remove in He' as [He' _]; [|done]. apply Hni. rewrite Heq.
  by apply list_elem_of_fmap_2.
Qed.

Lemma bucket_ok c ps k : hashed (hashTable c) ps -> key_ok k ->
  exists chain, hashTable c !! Z.to_nat (hash k) = Some chain /\
    bucket (hash k) c = Done (chain, c).
Proof.
  intros [Hlen _] Hk%hash_range.
  destruct (lookup_lt_is_Some_2 (hashTable c) (Z.to_nat (hash k))) as [chain Hc]; [lia|].
  exists chain. split; [done|]. unfold bucket. step.
  assert (arr_get (hashTable c) (hash k) = Done chain) as Ha by (apply arr_get_Done; split; [lia|done]).
  unfold lift. by rewrite Ha.
Qed.

Lemma set_bucket_ok c ps k chain : hashed (hashTable c) ps -> key_ok k ->
  set_bucket (hash k) chain c =
    Done (tt, set_table (<[Z.to_nat (hash k) := chain]> (hashTable c)) c).
Proof.
  intros [Hlen _] Hk%hash_range. unfold set_bucket. step.
  unfold mbind, cmd_bind, lift. by rewrite arr_set_in by lia.
Qed.

Lemma hashGetEntry_ok c ps k : hashed (hashTable c) ps -> key_ok k ->
  exists chain, hashTable c !! Z.to_nat (hash k) = Some chain /\
    hashGetEntry k c = Done (pair (hash k) <$> chain_find k chain, c).
Proof.
  intros Ht Hk. destruct (bucket_ok c ps k Ht Hk) as (chain & Hc & Hb).
  exists chain. split; [done|]. unfold hashGetEntry. by rewrite (cmd_bind_eq _ _ _ _ _ Hb).
Qed.

(** [hashGet] finds the node of a listed key, and NULL for the others. *)
Lemma hashGet_ok c ps k : hashed (hashTable c) ps -> NoDup ps.*2.*1 -> key_ok k ->
  (assoc k ps.*2 = None /\ hashGet k c = Done (None, c)) \/
  (exists p v ps1 ps2, ps = ps1 ++ (p, (k, v)) :: ps2 /\ assoc k ps.*2 = Some v /\
     hashGet k c = Done (Some p, c)).
Proof.
  intros Ht Hnd Hk. destruct (hashGetEntry_ok c ps k Ht Hk) as (chain & Hc & He).
  destruct (bucket_ok c ps k Ht Hk) as (chain' & Hc' & Hb). simplify_eq.
  destruct (proj2 Ht _ _ Hc) as [_ Hin]. pose proof (hash_range k Hk).
  unfold hashGet. rewrite (cmd_bind_eq _ _ _ _ _ He).
  destruct (chain_find k chain) as [i|] eqn:Hf; simpl.
  - right. destruct (chain_find_Some _ _ _ Hf) as [q Hq].
    destruct (proj1 (Hin k q)) as (_ & p & v & -> & Hps); [by eapply list_elem_of_lookup_2|].
    apply list_elem_of_split in Hps as Hsp. destruct Hsp as (ps1 & ps2 & ->).
    exists p, v, ps1, ps2. split_and!; [done| |].
    + apply assoc_NoDup; [done|]. apply list_elem_of_fmap. by exists (p, (k, v)).
    + rewrite (cmd_bind_eq _ _ _ _ _ Hb). unfold mbind, cmd_bind, lift. by rewrite Hq.
  - left. split; [|done]. apply assoc_None. intros ([k' v] & Hkv & Hps)%list_elem_of_fmap.
    simpl in Hkv. subst k'. apply list_elem_of_fmap in Hps as ([p kv] & Hkv & Hps). simpl in Hkv. subst kv.
    eapply chain_find_None; [done|]. apply (Hin k (Some p)).
    split; [rewrite Z2Nat.id by lia; done|eauto].
Qed.

(** [hashPut] of a key that is not listed. *)
Lemma hashPut_ok c ps p k v : hashed (hashTable c) ps -> key_ok k -> k ∉ ps.*2.*1 ->
  exists t, hashPut k (Some p) c = Done (tt, set_table t c) /\ hashed t ((p, (k, v)) :: ps).
Proof.
  intros Ht Hk Hni. destruct (hashGetEntry_ok c ps k Ht Hk) as (chain & Hc & He).
  destruct (bucket_ok c ps k Ht Hk) as (chain' & Hc' & Hb). simplify_eq.
  pose proof (hash_range k Hk). destruct (proj2 Ht _ _ Hc) as [Hnd Hin].
  assert (forall q, mkEntry k q ∉ chain) as Hk'.
  { intros q (_ & p' & v' & _ & Hps)%Hin. apply Hni. apply list_elem_of_fmap. exists (k, v'). split; [done|].
    apply list_elem_of_fmap. by exists (p', (k, v')). }
  eexists. unfold hashPut. rewrite (cmd_bind_eq _ _ _ _ _ He).
  destruct (chain_find k chain) as [i|] eqn:Hf.
  { destruct (chain_find_Some _ _ _ Hf) as [q Hq%list_elem_of_lookup_2]. by apply Hk' in Hq. }
  simpl. rewrite (cmd_bind_eq _ _ _ _ _ Hb). split; [by eapply set_bucket_ok|].
  destruct Ht as [Hlen Ht]. split; [by rewrite length_insert|]. intros b ch Hch.
  rewrite list_lookup_insert in Hch by lia. case_decide as Hbk; [|].
  - destruct Hbk as [<- _]. simplify_eq. split.
    + rewrite fmap_cons. constructor; [|done]. simpl. intros ([k' q] & Hkq & Hq)%list_elem_of_fmap.
      simpl in Hkq. subst. by apply Hk' in Hq.
    + intros k' q. rewrite elem_of_cons, Hin. setoid_rewrite elem_of_cons.
      rewrite !Z2Nat.id by lia. naive_solver.
  - destruct (Ht _ _ Hch) as [? Hin']. split; [done|]. intros k' q. rewrite Hin'.
    setoid_rewrite elem_of_cons. split; [naive_solver|].
    intros (Hh & p' & v' & -> & [[= -> -> ->]|Hps]); [|naive_solver].
    exfalso. apply Hbk. split; [|apply lookup_lt_Some in Hch; lia]. lia.
Qed.

Lemma hashRemove_ok c ps p k v : hashed (hashTable c) (ps ++ [(p, (k, v))]) ->
  NoDup (ps ++ [(p, (k, v))]).*2.*1 -> key_ok k ->
  exists t, hashRemove k c = Done (tt, set_table t c) /\ hashed t ps.
Proof.
  intros Ht Hn Hk. destruct (bucket_ok c _ k Ht Hk) as (chain & Hc & Hb).
  pose proof (hash_range k Hk). destruct (proj2 Ht _ _ Hc) as [Hnd Hin].
  eexists. unfold hashRemove. rewrite (cmd_bind_eq _ _ _ _ _ Hb).
  split; [by eapply set_bucket_ok|].
  assert (forall p' v', (p', (k, v')) ∉ ps) as Hps.
  { intros p' v' Hp'. rewrite !fmap_app in Hn. apply NoDup_app in Hn as (_ & Hd & _).
    apply (Hd k); [|set_solver]. apply list_elem_of_fmap. exists (k, v'). split; [done|].
    apply list_elem_of_fmap. by exists (p', (k, v')). }
  destruct Ht as [Hlen Ht]. split; [by rewrite length_insert|]. intros b ch Hch.
  rewrite list_lookup_insert in Hch by lia. case_decide as Hbk; [|].
  - destruct Hbk as [<- _]. simplify_eq. split; [by apply NoDup_chain_remove|].
    intros k' q. rewrite elem_of_chain_remove, Hin by done. simpl.
    setoid_rewrite elem_of_app. setoid_rewrite list_elem_of_singleton.
    rewrite !Z2Nat.id by lia. naive_solver.
  - destruct (Ht _ _ Hch) as [? Hin']. split; [done|]. intros k' q. rewrite Hin'.
    setoid_rewrite elem_of_app. setoid_rewrite list_elem_of_singleton.
    split; [|naive_solver]. intros (Hh & p' & v' & -> & [Hps'|[= -> -> ->]]); [naive_solver|].
    exfalso. apply Hbk. split; [|apply lookup_lt_Some in Hch; lia]. lia.
Qed.

(** ** Lemmas: the whole cache *)

Lemma hashed_elems t ps ps' : (forall x, x ∈ ps' <-> x ∈ ps) -> hashed t ps -> hashed t ps'.
Proof.
  intros Heq [Hlen Ht]. split; [done|]. intros b chain Hc. destruct (Ht b chain Hc) as [Hn Hin].
  split; [done|]. intros k q. rewrite Hin. by setoid_rewrite Heq.
Qed.

Lemma assoc_mid_payload (k v : Z) (ps1 ps2 : list (loc * (Z * Z))) p : NoDup (ps1 ++ (p, (k, v)) :: ps2).*2.*1 ->
  assoc k (ps1 ++ (p, (k, v)) :: ps2).*2 = Some v /\
  assoc_remove k (ps1 ++ (p, (k, v)) :: ps2).*2 = (ps1 ++ ps2).*2.
Proof.
  rewrite !fmap_app, !fmap_cons. simpl. intros Hn. split.
  - apply assoc_NoDup; [by rewrite fmap_app, fmap_cons|set_solver].
  - apply assoc_remove_mid. by rewrite fmap_app, fmap_cons.
Qed.

Lemma elem_of_payload k v p (ps : list (loc * (Z * Z))) : (p, (k, v)) ∈ ps -> k ∈ ps.*2.*1.
Proof.
  intros H. apply list_elem_of_fmap. exists (k, v). split; [done|].
  apply list_elem_of_fmap. by exists (p, (k, v)).
Qed.

(** Moving a listed node to the front, possibly with a new value. *)
Lemma move_repr c c' ps1 p k v v' ps2 :
  repr c (ps1 ++ (p, (k, v)) :: ps2).*2 ->
  hashed (hashTable c) (ps1 ++ (p, (k, v)) :: ps2) ->
  dom (heap c) = list_to_set (ps1 ++ (p, (k, v)) :: ps2).*1 ->
  listed c' ((p, (k, v')) :: ps1 ++ ps2) -> same_rest c c' ->
  repr c' ((k, v') :: (ps1 ++ ps2).*2).
Proof.
  intros [_ Hk Hok Hsz] Ht Hdom Hl (Hcap & Hs & Ht' & Hd).
  rewrite !fmap_app, !fmap_cons in *. simpl in *.
  pose proof (Permutation_middle ps1.*2.*1 ps2.*2.*1 k) as Hperm.
  split.
  - exists ((p, (k, v')) :: ps1 ++ ps2). split_and!; [done| | |].
    + rewrite Ht'. destruct Ht as [Hlen Ht]. split; [done|]. intros b chain Hc.
      destruct (Ht b chain Hc) as [Hnd Hin]. split; [done|]. intros k' q. rewrite Hin.
      setoid_rewrite elem_of_app. setoid_rewrite elem_of_cons. setoid_rewrite elem_of_app.
      split; intros (Hh & p' & v2 & -> & Hps); (split; [done|]); naive_solver.
    + by rewrite fmap_cons, fmap_app.
    + rewrite Hd, Hdom, !fmap_cons, fmap_app. simpl. rewrite !list_to_set_app_L. simpl. set_solver.
  - rewrite fmap_cons, fmap_app. simpl. by rewrite Hperm.
  - rewrite fmap_cons, fmap_app. simpl. by rewrite Hperm.
  - rewrite Hs, Hsz. simpl. rewrite !length_app. simpl. lia.
Qed.

Lemma lRUCacheGet_ok c l k : repr c l -> key_ok k ->
  exists c', lRUCacheGet k c = Done ((spec_get k l).1, c') /\ repr c' (spec_get k l).2 /\
    capacity c' = capacity c.
Proof.
  intros Hr Hk. pose proof Hr as [(ps & Hl & Ht & <- & Hdom) Hnk _ _]. unfold lRUCacheGet, spec_get.
  destruct (hashGet_ok c ps k Ht Hnk Hk) as [[Ha Hg]|(p & v & ps1 & ps2 & -> & Ha & Hg)];
    rewrite Ha, (cmd_bind_eq _ _ _ _ _ Hg); [by exists c|].
  destruct (moveToHead_ok c ps1 _ ps2 Hl) as (c' & Hm & Hl' & Hs). simpl in Hm, Hl'.
  rewrite (cmd_bind_eq _ _ _ _ _ Hm).
  pose proof Hl' as (_ & _ & [(n & Hn & Hpay & _) _] & _). simpl in Hn, Hpay.
  exists c'. step. injection Hpay as Hkey Hval. rewrite Hval.
  destruct (assoc_mid_payload _ _ _ _ _ Hnk) as [_ Hrm]. simpl. rewrite Hrm.
  split_and!; [done|eapply move_repr; [exact Hr|exact Ht|exact Hdom|exact Hl'|exact Hs]|apply Hs].
Qed.

Lemma listed_set_value c ps1 p k v ps2 v' :
  listed c (ps1 ++ (p, (k, v)) :: ps2) ->
  listed (set_heap (alter (set_value v') p (heap c)) c) (ps1 ++ (p, (k, v')) :: ps2).
Proof.
  intros (Hh & Ht & Hd & Hn). rewrite !fmap_app, !fmap_cons in Hn. simpl in Hn.
  pose proof Hn as (_ & Hni & [Hp2 _]%NoDup_cons)%NoDup_app.
  assert (p ∉ ps1.*1) as Hp1 by (intros ?%Hni; set_solver).
  split_and!; simpl.
  - rewrite Hh, !firstp_app. done.
  - rewrite Ht, !lastp_app, !lastp_cons. done.
  - apply dll_app in Hd as [Hd1 [(n & Hl & Hpay & Hpv & Hnx) Hd2]]. simpl in *.
    apply dll_app. split; [by apply dll_frame_alter|]. split; [|by apply dll_frame_alter].
    exists (set_value v' n). simpl. rewrite lookup_alter_eq, Hl. split_and!; [done| |done|done].
    injection Hpay as -> _. done.
  - by rewrite fmap_app, fmap_cons.
Qed.

Lemma evictTail_ok c l : repr c l -> l <> [] ->
  exists c', evictTail c = Done (tt, c') /\ repr c' (List.removelast l) /\ capacity c' = capacity c.
Proof.
  intros [(ps & Hl & Ht & <- & Hdom) Hnk Hok Hsz] Hne.
  destruct ps as [|[q [k v]] ps _] using rev_ind; [done|].
  pose proof Hl as (_ & Htl & Hdll & Hnd). rewrite lastp_snoc in Htl. simpl in Htl.
  destruct (dll_lookup _ _ _ _ _ _ Hdll) as (n & Hn & Hpay & _). simpl in Hn, Hpay.
  destruct (removeNode_ok c ps (q, (k, v)) [] Hl) as (c1 & Hc1 & Hl1 & Hq & Hcap & Hs & Ht1 & Hd1).
  simpl in Hc1, Hq. rewrite app_nil_r in Hl1. rewrite Hn in Hq.
  injection Hpay as <- <-.
  assert (key_ok (key n)) as Hk.
  { rewrite !fmap_app, Forall_app in Hok. by destruct Hok as [_ [? _]%Forall_cons]. }
  destruct (hashRemove_ok c1 ps q (key n) (value n)) as (t & Hc2 & Ht2); [by rewrite Ht1|done|done|].
  unfold evictTail, removeTail.
  erewrite cmd_bind_eq; [|step; rewrite Htl; rewrite (cmd_bind_eq _ _ _ _ _ Hc1); reflexivity].
  step. rewrite (cmd_bind_eq _ _ _ _ _ Hc2).
  assert (q ∉ ps.*1) as Hqps.
  { rewrite fmap_app in Hnd. apply NoDup_app in Hnd as (_ & Hnd & _). intros ?%Hnd. set_solver. }
  erewrite cmd_bind_eq; [|by apply free_ok with n]. eexists. split; [reflexivity|].
  rewrite fmap_app. simpl. rewrite List.removelast_last.
  split; [|done]. destruct Hl1 as (Hh1 & Htl1 & Hdll1 & Hnd1). split; simpl.
  - exists ps. split_and!; simpl; [|done|done|].
    + split_and!; simpl; [done|done|by apply dll_frame_delete|done].
    + rewrite dom_delete_L, Hd1, Hdom, fmap_app, list_to_set_app_L. simpl. set_solver.
  - rewrite !fmap_app in Hnk. by apply NoDup_app in Hnk as [? _].
  - rewrite !fmap_app, Forall_app in Hok. by destruct Hok.
  - rewrite Hs, Hsz, !length_fmap, length_app. simpl. lia.
Qed.

Lemma put_new_ok c l k v : repr c l -> key_ok k -> k ∉ l.*1 ->
  exists p c1 c2 t, createNode k v c = Done (p, c1) /\ addToHead p c1 = Done (tt, c2) /\
    hashPut k p c2 = Done (tt, set_table t c2) /\
    repr (set_size (size c2 + 1) (set_table t c2)) ((k, v) :: l) /\ capacity c2 = capacity c.
Proof.
  intros [(ps & (Hh & Htl & Hdll & Hnd) & Ht & <- & Hdom) Hnk Hok Hsz] Hk Hni.
  set (n := mkNode k v None None).
  destruct (alloc_ok c n) as (p & Hp & Hc1). simpl in Hp, Hc1. set (c1 := set_heap _ c) in Hc1.
  assert (p ∉ ps.*1) as Hpps.
  { intros Hin. apply not_elem_of_dom in Hp. rewrite Hdom in Hp. set_solver. }
  destruct (addToHead_ok c1 ps (p, (k, v)) n) as (c2 & Hc2 & Hl2 & Hcap & Hs & Ht2 & Hd2).
  { split_and!; simpl; [done|done|by apply dll_frame|done]. }
  { simpl. apply lookup_insert_eq. } { done. } { done. }
  destruct (hashPut_ok c2 ps p k v) as (t & Hc3 & Ht3); [by rewrite Ht2|done|done|].
  exists (Some p), c1, c2, t. split_and!; [done|done|done| |done]. split; simpl.
  - exists ((p, (k, v)) :: ps). split_and!; [exact Hl2|done|done|].
    simpl. rewrite Hd2. simpl. rewrite dom_insert_L, Hdom. set_solver.
  - by constructor.
  - by constructor.
  - rewrite Hs. simpl. rewrite Hsz. lia.
Qed.

Lemma lRUCachePut_ok c l k v : repr c l -> key_ok k ->
  exists c', lRUCachePut k v c = Done (tt, c') /\ repr c' (spec_put (capacity c) k v l) /\
    capacity c' = capacity c.
Proof.
  intros Hr Hk. pose proof Hr as [(ps & Hl & Ht & <- & Hdom) Hnk Hok Hsz]. unfold lRUCachePut, spec_put.
  destruct (hashGet_ok c ps k Ht Hnk Hk) as [[Ha Hg]|(p & w & ps1 & ps2 & -> & Ha & Hg)];
    rewrite Ha, (cmd_bind_eq _ _ _ _ _ Hg).
  - apply assoc_None in Ha.
    destruct (put_new_ok c _ k v Hr Hk Ha) as (p & c1 & c2 & t & H1 & H2 & H3 & Hr3 & Hcap).
    rewrite (cmd_bind_eq _ _ _ _ _ H1), (cmd_bind_eq _ _ _ _ _ H2), (cmd_bind_eq _ _ _ _ _ H3).
    step. step. pose proof (repr_size _ _ Hr3) as Hsz3. rewrite <- Hsz3. cbn [capacity set_size set_table].
    rewrite Hcap. destruct (size _ >? capacity c).
    + destruct (evictTail_ok _ _ Hr3) as (c' & Hc' & Hr' & Hcap'); [done|].
      exists c'. split_and!; [exact Hc'|done|by rewrite Hcap'].
    + eexists. split_and!; [reflexivity|done|done].
  - destruct (dll_lookup _ _ _ _ _ _ (proj1 (proj2 (proj2 Hl)))) as (n & Hn & _). simpl in Hn.
    erewrite cmd_bind_eq; [|by apply update_ok with n]. simpl.
    apply (listed_set_value _ _ _ _ _ _ v) in Hl.
    destruct (moveToHead_ok _ _ _ _ Hl) as (c' & Hc' & Hl' & Hcap & Hs & Ht' & Hd').
    simpl in *. exists c'. split; [done|]. split; [|done].
    destruct (assoc_mid_payload _ _ _ _ _ Hnk) as [_ ->].
    eapply move_repr; [exact Hr|exact Ht|exact Hdom|exact Hl'|].
    split_and!; simpl; try done. by rewrite Hd', dom_alter_L.
Qed.

Lemma lRUCacheCreate_ok cap : repr (lRUCacheCreate cap) [].
Proof.
  split; [|constructor..|done]. exists []. split_and!; [by split_and!; try done; constructor| |done|done].
  unfold lRUCacheCreate, hashTable. split; [apply length_replicate|].
  intros b chain [-> _]%lookup_replicate.
  split; [constructor|]. intros k q. split; [set_solver|]. intros (_ & p & v & _ & ?). set_solver.
Qed.

Lemma free_nodes_ok ps pv c fuel :
  dll (heap c) pv ps None -> NoDup ps.*1 -> dom (heap c) = list_to_set ps.*1 ->
  (length ps <= fuel)%nat -> free_nodes fuel (firstp ps None) c = Done (tt, set_heap ∅ c).
Proof.
  revert pv c fuel. induction ps as [|x ps IH]; intros pv c fuel Hdll Hnd Hdom Hf.
  - destruct c. simpl in *. apply dom_empty_inv_L in Hdom. subst. by destruct fuel.
  - destruct fuel as [|fuel]; [simpl in Hf; lia|]. destruct Hdll as [(n & Hn & _ & _ & Hnx) Hdll].
    rewrite fmap_cons in Hnd. apply NoDup_cons in Hnd as [Hni Hnd]. simpl. step.
    erewrite cmd_bind_eq; [|by apply free_ok with n]. simpl in Hnx. rewrite Hnx.
    erewrite IH; [done|by apply dll_frame_delete|done| |simpl in Hf; lia].
    simpl. rewrite dom_delete_L, Hdom. simpl. set_solver.
Qed.

(** ** Properties *)

(** a key with a negative remainder has no bucket: the table is read out of bounds *)
Lemma negative_hash_undef c k : length (hashTable c) = Z.to_nat HASH_SIZE -> ~ key_ok k -> hashGet k c = Undef.
Proof.
  intros Hlen Hk. unfold key_ok in Hk. pose proof (Z.rem_bound_abs k HASH_SIZE).
  assert (hash k = Z.rem k HASH_SIZE + 2 ^ 32) as Hh.
  { unfold hash, u32. symmetry. apply Z.mod_unique with (-1); unfold HASH_SIZE in *; lia. }
  assert (arr_get (hashTable c) (hash k) = Undef) as Ha.
  { unfold arr_get. rewrite Hh. zcases; [done|]. rewrite lookup_ge_None_2; [done|].
    rewrite Hlen. unfold HASH_SIZE in *. lia. }
  unfold hashGet, hashGetEntry, bucket, mbind, cmd_bind, gets, lift. simpl. by rewrite Ha.
Qed.

Lemma negative_key_undef c k v : length (hashTable c) = Z.to_nat HASH_SIZE -> ~ key_ok k ->
  lRUCacheGet k c = Undef /\ lRUCachePut k v c = Undef.
Proof.
  intros Hlen Hk. unfold lRUCacheGet, lRUCachePut, mbind, cmd_bind. by rewrite (negative_hash_undef c k Hlen Hk).
Qed.

(** For a key whose bucket exists, [lRUCacheGet] runs without undefined
    behaviour, returns the cached value or -1, and makes the key the most
    recently used one, exactly as the list specification does. *)
Theorem lRUCacheGet_correct c l k : repr c l -> key_ok k ->
  exists c', lRUCacheGet k c = Done ((spec_get k l).1, c') /\ repr c' (spec_get k l).2 /\
    capacity c' = capacity c.
Proof. apply lRUCacheGet_ok. Qed.

(** C9: [lRUCachePut] refines the list specification.  For a key whose remainder modulo the
    10007 buckets is not negative it updates or inserts the pair in front and drops the least
    recently used pair when the capacity is exceeded, keeping list, hash table and heap
    consistent (no leak, no dangling entry).  For any other key, which has to be negative, it
    reads outside the hash table. *)
Theorem lRUCachePut_correct c l k v : repr c l ->
  (key_ok k -> exists c', lRUCachePut k v c = Done (tt, c') /\ repr c' (spec_put (capacity c) k v l) /\
     capacity c' = capacity c) /\
  (~ key_ok k -> k < 0 /\ lRUCachePut k v c = Undef).
Proof.
  intros Hr. split; [by apply lRUCachePut_ok|]. intros Hk. split; [|destruct (repr_ps _ _ Hr) as (ps & _ & [Hlen _] & _); by apply negative_key_undef].
  unfold key_ok in Hk. pose proof (Z.rem_nonneg k HASH_SIZE). unfold HASH_SIZE in *. lia.
Qed.

(** [lRUCacheFree] terminates within as many turns as there are nodes and
    frees every node exactly once: no double free, nothing left allocated. *)
Theorem lRUCacheFree_frees_all c l fuel : repr c l -> (length l <= fuel)%nat ->
  lRUCacheFree fuel c =
    Done (tt, set_table (replicate (Z.to_nat HASH_SIZE) []) (set_heap ∅ c)).
Proof.
  intros [(ps & (Hh & _ & Hdll & Hnd) & _ & <- & Hdom) _ _ _] Hf. rewrite length_fmap in Hf.
  unfold lRUCacheFree. step. rewrite Hh.
  by rewrite (cmd_bind_eq _ _ _ _ _ (free_nodes_ok ps None c fuel Hdll Hnd Hdom Hf)).
Qed.

(** ** Witnesses *)

Definition run_puts : outcome (unit * LRUCache) :=
  (lRUCachePut 1 10;; lRUCachePut 2 20;; lRUCachePut 3 30) (lRUCacheCreate 2).

Example run_puts_then_gets :
  (v ← (run_puts ≫= fun r => (a ← lRUCacheGet 1; b ← lRUCacheGet 2; d ← lRUCacheGet 3;
                              mret (a, b, d)) r.2); mret v.1) = Done (-1, 20, 30).
Proof. vm_compute. reflexivity. Qed.

Lemma lRUCachePut_correct_witness :
  (exists c', lRUCachePut 1 10 (lRUCacheCreate 2) = Done (tt, c') /\ repr c' [(1, 10)] /\ capacity c' = 2) /\
  lRUCachePut (-1) 10 (lRUCacheCreate 2) = Undef.
Proof.
  split; [apply (lRUCachePut_correct (lRUCacheCreate 2) [] 1 10); [apply lRUCacheCreate_ok|done]|].
  apply (lRUCachePut_correct (lRUCacheCreate 2) [] (-1) 10); [apply lRUCacheCreate_ok|vm_compute; congruence].
Defined.

Lemma lRUCacheGet_correct_witness :
  exists c, repr c [(1, 10)] /\ exists c', lRUCacheGet 1 c = Done (10, c') /\ repr c' [(1, 10)] /\
    capacity c' = capacity c.
Proof.
  destruct (lRUCachePut_ok (lRUCacheCreate 2) [] 1 10) as (c & _ & Hr & _);
    [apply lRUCacheCreate_ok|done|].
  exists c. split; [exact Hr|]. apply (lRUCacheGet_correct c [(1, 10)] 1); [exact Hr|done].
Defined.

Lemma lRUCacheFree_frees_all_witness : exists c, repr c [(1, 10)] /\
  lRUCacheFree 1 c = Done (tt, set_table (replicate (Z.to_nat HASH_SIZE) []) (set_heap ∅ c)).
Proof.
  destruct (lRUCachePut_ok (lRUCacheCreate 2) [] 1 10) as (c & _ & Hr & _);
    [apply lRUCacheCreate_ok|done|].
  exists c. split; [exact Hr|]. apply (lRUCacheFree_frees_all c [(1, 10)] 1); [exact Hr|done].
Defined.
