(* ===== verification/Float32.v ===== *)
(** * Floating point

    C's [float] and [double] as the Standard Library's specification of IEEE 754 arithmetic
    gives them, with mantissas of 24 and 53 bits and rounding to the nearest, and what the
    programs rely on: sums, differences, products and quotients of integers are exact as long
    as the operands and the result fit the mantissa.  The lemmas are proved once, for any
    precision. *)
From Stdlib Require Export Floats.SpecFloat.
From S2P Require Import Prelude.

Abbreviation float := spec_float.

(** the conversion of an [int], and the operators *)
Definition f_of_int (z : Z) : float := binary_normalize 24 128 z 0 false.
Definition fadd : float -> float -> float := SFadd 24 128.
Definition fmul : float -> float -> float := SFmul 24 128.
Definition fdiv : float -> float -> float := SFdiv 24 128.

Definition d_of_int (z : Z) : float := binary_normalize 53 1024 z 0 false.
Definition dadd : float -> float -> float := SFadd 53 1024.
Definition dsub : float -> float -> float := SFsub 53 1024.
Definition dmul : float -> float -> float := SFmul 53 1024.
Definition ddiv : float -> float -> float := SFdiv 53 1024.

(** ** Integers that fit the mantissa *)

(** a number with zeros behind it *)
Definition dbl (k : nat) (p : positive) : positive := Nat.iter k xO p.

Lemma dbl_add j k p : dbl j (dbl k p) = dbl (j + k) p.
Proof. unfold dbl. by rewrite Nat.iter_add. Qed.

Lemma pos_iter_dbl d p : Pos.iter xO p d = dbl (Pos.to_nat d) p.
Proof. apply Pos2Nat.inj_iter. Qed.

Lemma dbl_value k p : Z.pos (dbl k p) = Z.pos p * 2 ^ Z.of_nat k.
Proof.
  induction k as [|k IH]; [by rewrite Z.mul_1_r|]. cbn [dbl Nat.iter nat_rect]. fold (Nat.iter k xO p). fold (dbl k p).
  rewrite Pos2Z.inj_xO, IH, Nat2Z.inj_succ, Z.pow_succ_r by lia. lia.
Qed.

Definition digits (p : positive) : nat := Pos.to_nat (digits2_pos p).

Lemma digits_pos p : (0 < digits p)%nat.
Proof. unfold digits. lia. Qed.

Lemma digits_dbl k p : digits (dbl k p) = (k + digits p)%nat.
Proof.
  induction k as [|k IH]; [done|]. unfold digits in *. cbn [dbl Nat.iter nat_rect digits2_pos]. fold (Nat.iter k xO p). fold (dbl k p). lia.
Qed.

Lemma digits_lower p : 2 ^ (Z.of_nat (digits p) - 1) <= Z.pos p.
Proof.
  assert (forall q, Z.of_nat (digits q) - 1 = Z.pred (Z.of_nat (digits q))) as Hp by lia.
  induction p as [p IH|p IH|]; [| |done]; unfold digits in *; cbn [digits2_pos]; rewrite Pos2Nat.inj_succ, Nat2Z.inj_succ;
    (replace (Z.succ (Z.of_nat (Pos.to_nat (digits2_pos p))) - 1) with (Z.succ (Z.of_nat (Pos.to_nat (digits2_pos p)) - 1)) by lia);
    rewrite Z.pow_succ_r by lia; lia.
Qed.

Lemma digits_upper p : Z.pos p < 2 ^ Z.of_nat (digits p).
Proof.
  induction p as [p IH|p IH|]; [| |done]; unfold digits in *; cbn [digits2_pos]; rewrite Pos2Nat.inj_succ, Nat2Z.inj_succ, Z.pow_succ_r by lia; lia.
Qed.

Lemma digits_mul p q : (digits p + digits q <= S (digits (p * q)) /\ digits (p * q) <= digits p + digits q)%nat.
Proof.
  pose proof (digits_lower p) as Hp. pose proof (digits_lower q) as Hq. pose proof (digits_lower (p * q)) as Hpq.
  pose proof (digits_upper p) as Up. pose proof (digits_upper q) as Uq. pose proof (digits_upper (p * q)) as Upq.
  pose proof (digits_pos p). pose proof (digits_pos q). pose proof (digits_pos (p * q)). split.
  - assert (Z.of_nat (digits p) - 1 + (Z.of_nat (digits q) - 1) < Z.of_nat (digits (p * q))) as Hlt; [|lia].
    apply (Z.pow_lt_mono_r_iff 2); [lia..|]. rewrite Z.pow_add_r by lia. nia.
  - assert (Z.of_nat (digits (p * q)) - 1 < Z.of_nat (digits p) + Z.of_nat (digits q)) as Hlt; [|lia].
    apply (Z.pow_lt_mono_r_iff 2); [lia..|]. rewrite Z.pow_add_r by lia. nia.
Qed.

Lemma dbl_mul j k p q : (dbl j p * dbl k q)%positive = dbl (j + k) (p * q).
Proof.
  apply Pos2Z.inj. rewrite Pos2Z.inj_mul, !dbl_value, Pos2Z.inj_mul, Nat2Z.inj_add, Z.pow_add_r by lia. lia.
Qed.

Lemma digits_small P p : Z.pos p < 2 ^ Z.of_nat P -> (digits p <= P)%nat.
Proof.
  intros Hp. destruct (le_lt_dec (digits p) P) as [|Hlt]; [done|]. pose proof (digits_lower p) as Hl.
  assert (2 ^ Z.of_nat P <= 2 ^ (Z.of_nat (digits p) - 1)); [apply Z.pow_le_mono_r; lia|lia].
Qed.

Section precision.
Context (P : nat) (emax : Z) (HP : (0 < P)%nat) (Hmax : Z.of_nat P + 2 <= emax).
Local Abbreviation prec := (Z.of_nat P).

(** the float of a number of at most [P] digits *)
Definition canon (s : bool) (p : positive) : float := S754_finite s (dbl (P - digits p) p) (Z.of_nat (digits p) - prec).

Lemma fexp_small d : (0 < d <= P)%nat -> fexp prec emax (Z.of_nat d) = Z.of_nat d - prec.
Proof. intros Hd. unfold fexp, emin. lia. Qed.

Lemma zdigits_dbl k p : Zdigits2 (Z.pos (dbl k p)) = Z.of_nat (k + digits p).
Proof. cbn [Zdigits2]. rewrite <- digits_dbl. unfold digits. by rewrite positive_nat_Z. Qed.

Lemma iter_pos_nat {A} (f : A -> A) n x : SpecFloat.iter_pos f n x = Nat.iter (Pos.to_nat n) f x.
Proof.
  revert x. induction n as [n IH|n IH|]; intros x; cbn [SpecFloat.iter_pos]; [| |done]; rewrite !IH.
  - rewrite Pos2Nat.inj_xI, Nat.iter_succ_r. replace (2 * Pos.to_nat n)%nat with (Pos.to_nat n + Pos.to_nat n)%nat by lia. by rewrite Nat.iter_add.
  - rewrite Pos2Nat.inj_xO. replace (2 * Pos.to_nat n)%nat with (Pos.to_nat n + Pos.to_nat n)%nat by lia. by rewrite Nat.iter_add.
Qed.

(** zeros are shifted out without a remainder *)
Lemma shr_zeros n j p : Nat.iter n shr_1 {| shr_m := Z.pos (dbl (n + j) p); shr_r := false; shr_s := false |} =
  {| shr_m := Z.pos (dbl j p); shr_r := false; shr_s := false |}.
Proof.
  induction n as [|n IH]; [done|]. rewrite Nat.iter_succ_r. cbn [Nat.add dbl Nat.iter nat_rect]. exact IH.
Qed.

(** nothing is rounded once the mantissa has its [P] digits *)
Lemma round_done s p : (digits p <= P)%nat ->
  binary_round_aux prec emax s (Z.pos (dbl (P - digits p) p)) (Z.of_nat (digits p) - prec) loc_Exact = canon s p.
Proof.
  intros Hd. pose proof (digits_pos p). unfold binary_round_aux, shr_fexp. rewrite zdigits_dbl.
  replace (Z.of_nat (P - digits p + digits p) + (Z.of_nat (digits p) - prec)) with (Z.of_nat (digits p)) by lia.
  rewrite fexp_small, Z.sub_diag by lia. cbn [shr shr_record_of_loc shr_m loc_of_shr_record round_nearest_even]. rewrite zdigits_dbl.
  replace (Z.of_nat (P - digits p + digits p) + (Z.of_nat (digits p) - prec)) with (Z.of_nat (digits p)) by lia.
  rewrite fexp_small, Z.sub_diag by lia. cbn [shr shr_record_of_loc shr_m]. rewrite (proj2 (Z.leb_le _ _)) by lia. done.
Qed.

Lemma round_aux_zeros s k p : (digits p <= P <= k + digits p)%nat ->
  binary_round_aux prec emax s (Z.pos (dbl k p)) (- Z.of_nat k) loc_Exact = canon s p.
Proof.
  intros Hd. pose proof (digits_pos p). destruct (Z.of_nat (digits p) - prec - - Z.of_nat k) as [|n|n] eqn:Hn; [| |lia].
  - rewrite <- (round_done s p) by lia. f_equal; [do 2 f_equal; lia|lia].
  - unfold binary_round_aux, shr_fexp. rewrite zdigits_dbl.
    replace (Z.of_nat (k + digits p) + - Z.of_nat k) with (Z.of_nat (digits p)) by lia. rewrite fexp_small, Hn by lia.
    pose proof (shr_zeros (Pos.to_nat n) (P - digits p) p) as Hz. replace (Pos.to_nat n + (P - digits p))%nat with k in Hz by lia.
    cbn [shr shr_record_of_loc]. rewrite iter_pos_nat, !Hz. cbn [shr_m loc_of_shr_record round_nearest_even].
    replace (- Z.of_nat k + Z.pos n) with (Z.of_nat (digits p) - prec) by lia. rewrite zdigits_dbl.
    replace (Z.of_nat (P - digits p + digits p) + (Z.of_nat (digits p) - prec)) with (Z.of_nat (digits p)) by lia.
    rewrite fexp_small, Z.sub_diag by lia. cbn [shr shr_record_of_loc shr_m]. by rewrite (proj2 (Z.leb_le _ _)) by lia.
Qed.

Lemma round_zeros s k p : (digits p <= P)%nat -> binary_round prec emax s (dbl k p) (- Z.of_nat k) = canon s p.
Proof.
  intros Hd. pose proof (digits_pos p). unfold binary_round. assert (Z.pos (digits2_pos (dbl k p)) = Z.of_nat (k + digits p)) as ->.
  { rewrite <- zdigits_dbl. done. }
  replace (Z.of_nat (k + digits p) + - Z.of_nat k) with (Z.of_nat (digits p)) by lia. rewrite fexp_small by lia. unfold shl_align.
  destruct (Z.of_nat (digits p) - prec - - Z.of_nat k) as [|n|n] eqn:Hn; [apply round_aux_zeros; lia..|].
  rewrite pos_iter_dbl, dbl_add, <- (round_done s p Hd). do 3 f_equal. lia.
Qed.

(** the float of an integer *)
Definition canon_z (z : Z) : float := match z with 0 => S754_zero false | Z.pos p => canon false p | Z.neg p => canon true p end.

Lemma normalize_zeros k z : - 2 ^ prec < z < 2 ^ prec -> binary_normalize prec emax (z * 2 ^ Z.of_nat k) (- Z.of_nat k) false = canon_z z.
Proof.
  intros Hz. destruct z as [|p|p]; [done| |].
  - rewrite <- dbl_value. cbn [binary_normalize canon_z]. apply round_zeros, digits_small. lia.
  - replace (Z.neg p * 2 ^ Z.of_nat k) with (- (Z.pos p * 2 ^ Z.of_nat k)) by lia. rewrite <- dbl_value.
    cbn [binary_normalize canon_z Z.opp]. apply round_zeros, digits_small. lia.
Qed.

Lemma of_int_canon z : - 2 ^ prec < z < 2 ^ prec -> binary_normalize prec emax z 0 false = canon_z z.
Proof. intros Hz. rewrite <- (normalize_zeros 0 z Hz). by rewrite Z.mul_1_r. Qed.

(** two mantissas at the lower of their exponents *)
Lemma align_dbl p m : (m <= digits p <= P)%nat ->
  fst (shl_align (dbl (P - digits p) p) (Z.of_nat (digits p) - prec) (Z.of_nat m - prec)) = dbl (P - m) p.
Proof.
  intros Hm. unfold shl_align. destruct (Z.of_nat m - prec - (Z.of_nat (digits p) - prec)) as [|n|n] eqn:Hn; cbn [fst].
  - f_equal. lia.
  - lia.
  - rewrite pos_iter_dbl, dbl_add. f_equal. lia.
Qed.

Lemma add_canon sa sb p q z : (digits p <= P)%nat -> (digits q <= P)%nat -> - 2 ^ prec < z < 2 ^ prec ->
  cond_Zopp sa (Z.pos p) + cond_Zopp sb (Z.pos q) = z -> SFadd prec emax (canon sa p) (canon sb q) = canon_z z.
Proof.
  intros Hp Hq Hz Hs. unfold canon. cbn [SFadd].
  set (m := Nat.min (digits p) (digits q)).
  replace (Z.min (Z.of_nat (digits p) - prec) (Z.of_nat (digits q) - prec)) with (Z.of_nat m - prec) by lia.
  rewrite !align_dbl by lia. rewrite <- (normalize_zeros (P - m) z Hz). f_equal; [|lia].
  rewrite !dbl_value, <- Hs. destruct sa, sb; cbn [cond_Zopp]; lia.
Qed.

(** ** Exact operations *)

Abbreviation of_int z := (binary_normalize prec emax z 0 false).
Abbreviation fits z := (- 2 ^ prec < z < 2 ^ prec).

Lemma sf_add_int a b : fits a -> fits b -> fits (a + b) -> SFadd prec emax (of_int a) (of_int b) = of_int (a + b).
Proof.
  intros Ha Hb Hab. rewrite !of_int_canon by done. destruct a as [|p|p], b as [|q|q]; try done;
    cbn [canon_z]; apply add_canon; done || apply digits_small; lia.
Qed.

Lemma sf_sub_add x y : SFsub prec emax x y = SFadd prec emax x (SFopp y).
Proof.
  destruct x as [sx|sx| |sx mx ex], y as [sy|sy| |sy my ey]; try done; try (by destruct sx, sy).
Qed.

Lemma sf_opp_int b : fits b -> b <> 0 -> SFopp (of_int b) = of_int (- b).
Proof. intros Hb Hne. rewrite !of_int_canon by lia. by destruct b. Qed.

Lemma sf_sub_int a b : fits a -> fits b -> fits (a - b) -> SFsub prec emax (of_int a) (of_int b) = of_int (a - b).
Proof.
  intros Ha Hb Hab. rewrite sf_sub_add. destruct (decide (b = 0)) as [->|Hne].
  - rewrite Z.sub_0_r, (of_int_canon a) by done. by destruct a.
  - rewrite sf_opp_int, sf_add_int by (done || lia). f_equal.
Qed.

Lemma mul_canon sa sb p q : (digits p <= P)%nat -> (digits q <= P)%nat -> (digits (p * q) <= P)%nat ->
  SFmul prec emax (canon sa p) (canon sb q) = canon (xorb sa sb) (p * q).
Proof.
  intros Hp Hq Hpq. destruct (digits_mul p q) as [Hl _]. pose proof (digits_pos p). unfold canon at 1 2. cbn [SFmul].
  rewrite dbl_mul, <- (round_aux_zeros _ (P - digits p + (P - digits q))) by lia. f_equal. lia.
Qed.

(** the sign of a zero result is that of the operands *)
Lemma sf_mul_int a b : fits a -> fits b -> fits (a * b) ->
  SFmul prec emax (of_int a) (of_int b) = if a * b =? 0 then S754_zero (xorb (a <? 0) (b <? 0)) else of_int (a * b).
Proof.
  intros Ha Hb Hab. rewrite !of_int_canon by done. destruct a as [|p|p], b as [|q|q]; try done;
    cbn [canon_z]; rewrite mul_canon by (apply digits_small; lia); done.
Qed.

Lemma div_canon sa sb p q : (digits p <= P)%nat -> (digits q <= P)%nat -> (digits (p * q) <= P)%nat ->
  SFdiv prec emax (canon sa (p * q)) (canon sb q) = canon (xorb sa sb) p.
Proof.
  intros Hp Hq Hpq. destruct (digits_mul p q) as [Hl Hu]. pose proof (digits_pos p). pose proof (digits_pos q). pose proof (digits_pos (p * q)).
  unfold canon at 1 2. cbn [SFdiv]. unfold SFdiv_core_binary. rewrite !zdigits_dbl.
  set (dn := digits (p * q)) in *. set (dq := digits q) in *.
  assert (fexp prec emax (Z.of_nat (P - dn + dn) + (Z.of_nat dn - prec) - (Z.of_nat (P - dq + dq) + (Z.of_nat dq - prec)))
    = - Z.of_nat (P + dq - dn)) as -> by (unfold fexp, emin; lia).
  replace (Z.min (- Z.of_nat (P + dq - dn)) (Z.of_nat dn - prec - (Z.of_nat dq - prec))) with (- Z.of_nat (P + dq - dn)) by lia.
  replace (Z.of_nat dn - prec - (Z.of_nat dq - prec) - - Z.of_nat (P + dq - dn)) with prec by lia.
  assert (exists pr, prec = Z.pos pr) as [pr Hpr] by (exists (Pos.of_nat P); lia). rewrite Hpr. cbv match. rewrite <- !Hpr.
  assert (Z.shiftl (Z.pos (dbl (P - dn) (p * q))) prec = Z.pos (dbl (P + dq - dn) p) * Z.pos (dbl (P - dq) q)) as ->.
  { rewrite Z.shiftl_mul_pow2 by lia. rewrite <- Pos2Z.inj_mul, dbl_mul, !dbl_value, <- Z.mul_assoc, <- Z.pow_add_r by lia. do 2 f_equal. lia. }
  pose proof (Z_div_mod (Z.pos (dbl (P + dq - dn) p) * Z.pos (dbl (P - dq) q)) (Z.pos (dbl (P - dq) q)) ltac:(lia)) as Hdm.
  destruct (Z.div_eucl _ _) as [z r]. destruct Hdm as [He Hr].
  assert (z = Z.pos (dbl (P + dq - dn) p) /\ r = 0) as [-> ->].
  { apply (Z.div_mod_unique (Z.pos (dbl (P - dq) q))); lia. }
  assert (new_location (Z.pos (dbl (P - dq) q)) 0 = loc_Exact) as -> by (unfold new_location; by case_match).
  apply round_aux_zeros. lia.
Qed.

Lemma sf_div_int a b : fits a -> fits b -> fits (a * b) -> b <> 0 ->
  SFdiv prec emax (of_int (a * b)) (of_int b) = if a =? 0 then S754_zero (b <? 0) else of_int a.
Proof.
  intros Ha Hb Hab Hne. rewrite !of_int_canon by done. destruct a as [|p|p], b as [|q|q]; try done;
    cbv [canon_z Z.mul]; rewrite div_canon by (apply digits_small; lia); done.
Qed.
End precision.

(** ** Single and double precision *)

(** a sum below 2^24 is exact *)
Lemma fadd_int a b : - 2 ^ 24 < a < 2 ^ 24 -> - 2 ^ 24 < b < 2 ^ 24 -> - 2 ^ 24 < a + b < 2 ^ 24 ->
  fadd (f_of_int a) (f_of_int b) = f_of_int (a + b).
Proof. apply (sf_add_int 24 128); lia. Qed.

Lemma dadd_int a b : - 2 ^ 53 < a < 2 ^ 53 -> - 2 ^ 53 < b < 2 ^ 53 -> - 2 ^ 53 < a + b < 2 ^ 53 ->
  dadd (d_of_int a) (d_of_int b) = d_of_int (a + b).
Proof. apply (sf_add_int 53 1024); lia. Qed.

Lemma dsub_int a b : - 2 ^ 53 < a < 2 ^ 53 -> - 2 ^ 53 < b < 2 ^ 53 -> - 2 ^ 53 < a - b < 2 ^ 53 ->
  dsub (d_of_int a) (d_of_int b) = d_of_int (a - b).
Proof. apply (sf_sub_int 53 1024); lia. Qed.

Lemma dmul_int a b : - 2 ^ 53 < a < 2 ^ 53 -> - 2 ^ 53 < b < 2 ^ 53 -> - 2 ^ 53 < a * b < 2 ^ 53 ->
  dmul (d_of_int a) (d_of_int b) = if a * b =? 0 then S754_zero (xorb (a <? 0) (b <? 0)) else d_of_int (a * b).
Proof. apply (sf_mul_int 53 1024); lia. Qed.

Lemma ddiv_int a b : - 2 ^ 53 < a < 2 ^ 53 -> - 2 ^ 53 < b < 2 ^ 53 -> - 2 ^ 53 < a * b < 2 ^ 53 -> b <> 0 ->
  ddiv (d_of_int (a * b)) (d_of_int b) = if a =? 0 then S754_zero (b <? 0) else d_of_int a.
Proof. apply (sf_div_int 53 1024); lia. Qed.
