(* ===== verification/Numbers.v ===== *)
(** * Numbers as text

    The conversions of stdio.h and stdlib.h the programs use: [atoi], [%lf] of [scanf] with
    correct rounding, and [%.2f] of [printf], which prints the nearest hundredth, ties to even.
    Then that the text of an integer is read back as that integer. *)
From S2P Require Import Prelude CString Float32.

(** ** Integers *)

Definition digit_value (a : ascii) : Z := Z.of_nat (Ascii.nat_of_ascii a) - 48.
Definition is_digit (a : ascii) : bool := (0 <=? digit_value a) && (digit_value a <=? 9).

Fixpoint dec_digits (acc : Z) (s : string) : Z :=
  match s with
  | EmptyString => acc
  | String a s' => if is_digit a then dec_digits (10 * acc + digit_value a) s' else acc
  end.

(** [atoi]: white space, a sign, digits; a number that is not an [int] is undefined *)
Definition atoi (s : string) : outcome Z :=
  match skip_ws s with
  | String a s' =>
      if is_char 45 a then int_chk (- dec_digits 0 s')
      else int_chk (dec_digits 0 (if is_char 43 a then s' else String a s'))
  | EmptyString => Done 0
  end.

(** ** Floating point numbers from text *)

(** an optional sign *)
Definition scan_sign (s : string) : bool * string :=
  match s with
  | String a s' => if is_char 45 a then (true, s') else if is_char 43 a then (false, s') else (false, s)
  | EmptyString => (false, s)
  end.

Definition lower (a : ascii) : ascii :=
  let n := Ascii.nat_of_ascii a in if (65 <=? n)%nat && (n <=? 90)%nat then Ascii.ascii_of_nat (n + 32) else a.

(** a prefix, in capitals or not *)
Fixpoint strip_word (pre s : string) : option string :=
  match pre, s with
  | EmptyString, _ => Some s
  | String a pre', String b s' => if Ascii.eqb a (lower b) then strip_word pre' s' else None
  | _, EmptyString => None
  end.

Definition hex_value (a : ascii) : Z :=
  if is_digit a then digit_value a else Z.of_nat (Ascii.nat_of_ascii (lower a)) - 87.
Definition is_hex (a : ascii) : bool := is_digit a || ((10 <=? hex_value a) && (hex_value a <=? 15)).

Fixpoint hex_digits (acc : Z) (s : string) : Z :=
  match s with EmptyString => acc | String a s' => hex_digits (16 * acc + hex_value a) s' end.

(** digits with at most one point among them: those before it, those behind it, the rest *)
Definition scan_point (p : ascii -> bool) (s : string) : string * string * string :=
  let i := span (strlen s) p s in
  match i.2 with
  | String a r => if is_char 46 a then let f := span (strlen r) p r in (i.1, f.1, f.2) else (i.1, "", i.2)
  | EmptyString => (i.1, "", "")
  end.

(** an exponent behind the letter [e], if there is one; a letter without digits does not match *)
Definition scan_exponent (e : string) (s : string) : option (Z * string) :=
  match strip_word e s with
  | None => Some (0, s)
  | Some r =>
      let '(neg, r) := scan_sign r in
      let d := span (strlen r) is_digit r in
      match d.1 with EmptyString => None | _ => Some (cond_Zopp neg (dec_digits 0 d.1), d.2) end
  end.

(** the double next to [m * 10 ^ e] *)
Definition decimal (neg : bool) (m e : Z) : float :=
  if 0 <=? e then binary_normalize 53 1024 (cond_Zopp neg (m * 10 ^ e)) 0 neg
  else match m with
  | Z.pos _ =>
      let '(mz, ez, lz) := SFdiv_core_binary 53 1024 m 0 (10 ^ (- e)) 0 in binary_round_aux 53 1024 neg mz ez lz
  | _ => S754_zero neg
  end.

(** the names of the numbers that are not finite *)
Definition scan_name (neg : bool) (s : string) : option (float * string) :=
  match strip_word "inf" s with
  | Some r =>
      match strip_word "inity" r with
      | Some r' => Some (S754_infinity neg, r')
      | None => if head_is (fun a => Ascii.eqb (lower a) "i") r then None else Some (S754_infinity neg, r)
      end
  | None =>
      r ← strip_word "nan" s;
      match strip_prefix "(" r with
      | None => Some (S754_nan, r)
      | Some r =>
          let w := span (strlen r) (fun a => is_digit a || is_char 95 a || ((97 <=? schar (lower a)) && (schar (lower a) <=? 122))) r in
          r' ← strip_prefix ")" w.2; Some (S754_nan, r')
      end
  end.

(** [%lf]: the number and the rest of the text, if there is one *)
Definition scan_lf (s : string) : option (float * string) :=
  let '(neg, s) := scan_sign (skip_ws s) in
  match strip_word "0x" s with
  | Some r =>
      let '(i, f, r) := scan_point is_hex r in
      match i +:+ f with
      | EmptyString => None
      | m => '(e, r) ← scan_exponent "p" r;
          Some (binary_normalize 53 1024 (cond_Zopp neg (hex_digits 0 m)) (e - 4 * Z.of_nat (strlen f)) neg, r)
      end
  | None =>
      let '(i, f, r) := scan_point is_digit s in
      match i +:+ f with
      | EmptyString => scan_name neg s
      | m => '(e, r) ← scan_exponent "e" r; Some (decimal neg (dec_digits 0 m) (e - Z.of_nat (strlen f)), r)
      end
  end.

(** [atof]: 0 if there is no number *)
Definition atof (s : string) : float := match scan_lf s with Some (x, _) => x | None => S754_zero false end.

(** the conversion of a [double] to a [float] *)
Definition d_to_f (x : float) : float :=
  match x with S754_finite neg m e => binary_normalize 24 128 (cond_Zopp neg (Z.pos m)) e neg | _ => x end.

(** [%d] of [scanf]: the number, if there is one, and the rest *)
Definition scan_int (s : string) : outcome (option Z * string) :=
  let '(neg, r) := scan_sign (skip_ws s) in
  let d := span (strlen r) is_digit r in
  match d.1 with
  | EmptyString => Done (None, r)
  | t => z ← int_chk (cond_Zopp neg (dec_digits 0 t)); Done (Some z, d.2)
  end.

(** ** Floating point numbers to text *)

Definition round_half_even (a b : Z) : Z :=
  let q := a / b in
  match 2 * (a mod b) ?= b with Lt => q | Gt => q + 1 | Eq => if Z.even q then q else q + 1 end.

(** the hundredths of [m * 2 ^ e] *)
Definition hundredths (m : positive) (e : Z) : Z :=
  if 0 <=? e then Z.pos m * 100 * 2 ^ e else round_half_even (Z.pos m * 100) (2 ^ (- e)).

Definition minus (neg : bool) : string := if neg then "-" else "".

Definition pad2 (n : Z) : string := (if n <? 10 then "0" else "") +:+ pretty n.

Definition show_hundredths (neg : bool) (n : Z) : string :=
  minus neg +:+ pretty (n / 100) +:+ "." +:+ pad2 (n mod 100).

(** [%.2f]; C leaves open whether a NaN is printed with a sign *)
Definition show_f (nan_text : string) (x : float) : string :=
  match x with
  | S754_zero neg => show_hundredths neg 0
  | S754_infinity neg => minus neg +:+ "inf"
  | S754_nan => nan_text
  | S754_finite neg m e => show_hundredths neg (hundredths m e)
  end.

(** ** Lemmas *)

Lemma digit_char (d : N) : (d < 10)%N -> digit_value (pretty_N_char d) = Z.of_N d.
Proof.
  intros Hd. assert (d = 0 \/ d = 1 \/ d = 2 \/ d = 3 \/ d = 4 \/ d = 5 \/ d = 6 \/ d = 7 \/ d = 8 \/ d = 9)%N as Hcases by lia.
  repeat (destruct Hcases as [->|Hcases]; [done|]). by subst.
Qed.

Lemma digit_char_ok (d : N) : (d < 10)%N -> is_digit (pretty_N_char d) = true.
Proof. intros Hd. unfold is_digit. rewrite digit_char by done. zcases; lia || done. Qed.

Lemma pretty_go_digits (n : N) s : str_all is_digit s = true -> str_all is_digit (pretty_N_go n s) = true.
Proof.
  revert s. induction (N.lt_wf_0 n) as [n _ IH]; intros s Hs. destruct (decide (n = 0)%N) as [->|Hn]; [done|].
  rewrite pretty_N_go_step by lia. apply IH; [apply N.div_lt; lia|]. simpl. rewrite Hs, andb_true_r.
  apply digit_char_ok, N.mod_lt. done.
Qed.

Lemma pretty_go_value (n : N) s : dec_digits 0 (pretty_N_go n s) = dec_digits (Z.of_N n) s.
Proof.
  revert s. induction (N.lt_wf_0 n) as [n _ IH]; intros s. destruct (decide (n = 0)%N) as [->|Hn]; [done|].
  rewrite pretty_N_go_step, IH by (apply N.div_lt; lia) || lia. pose proof (N.mod_lt n 10 ltac:(done)) as Hm. cbn [dec_digits].
  rewrite digit_char_ok, digit_char by done. f_equal. pose proof (N.div_mod n 10 ltac:(done)). lia.
Qed.

Lemma digits_app acc t s : str_all is_digit t = true -> head_is is_digit s = false -> dec_digits acc (t +:+ s) = dec_digits acc t.
Proof.
  intros Ht Hs. revert acc. induction t as [|a t IH]; intros acc; simpl in *.
  - destruct s as [|b s]; [done|]. simpl in *. by rewrite Hs.
  - apply andb_true_iff in Ht as [-> Ht]. by apply IH.
Qed.

(** the text of a natural number *)
Lemma pretty_pos p : str_all is_digit (pretty (Z.pos p)) = true /\ dec_digits 0 (pretty (Z.pos p)) = Z.pos p /\ pretty (Z.pos p) <> "".
Proof.
  change (pretty (Z.pos p)) with (pretty_N_go (N.pos p) ""). rewrite pretty_go_value. split_and!; [by apply pretty_go_digits|done|].
  intros He. pose proof (pretty_go_value (N.pos p) "") as Hv. by rewrite He in Hv.
Qed.

Lemma pretty_nonneg z : 0 <= z -> str_all is_digit (pretty z) = true /\ dec_digits 0 (pretty z) = z /\ pretty z <> "".
Proof. intros Hz. destruct z as [|p|p]; [done|apply pretty_pos|lia]. Qed.

Lemma pretty_neg p : pretty (Z.neg p) = "-" +:+ pretty (Z.pos p).
Proof. done. Qed.

(** a text that begins with a digit *)
Lemma digit_head t : str_all is_digit t = true -> t <> "" -> exists a t', t = String a t' /\ is_digit a = true.
Proof. destruct t as [|a t]; [done|]. intros [Ha _]%andb_true_iff _. eauto. Qed.

Lemma digit_bounds a : is_digit a = true -> (48 <= Ascii.nat_of_ascii a <= 57)%nat.
Proof. unfold is_digit, digit_value. rewrite andb_true_iff, !Z.leb_le. lia. Qed.

Lemma digit_not c a : is_digit a = true -> (c < 48 \/ 57 < c)%nat -> is_char c a = false.
Proof. intros Ha%digit_bounds Hc. apply Nat.eqb_neq. lia. Qed.

Lemma digit_no_space a : is_digit a = true -> is_space a = false.
Proof.
  intros Ha%digit_bounds. unfold is_space. apply orb_false_iff. split; [apply andb_false_iff; right; apply Nat.leb_gt; lia|apply Nat.eqb_neq; lia].
Qed.

Lemma atoi_pretty z s : in_int z -> head_is is_digit s = false -> atoi (pretty z +:+ s) = Done z.
Proof.
  intros Hz Hs. unfold atoi. destruct (decide (0 <= z)) as [Hp|Hn].
  - destruct (pretty_nonneg z Hp) as (Hd & Hv & Hne). destruct (digit_head _ Hd Hne) as (a & t & He & Ha). rewrite skip_ws_id by (rewrite He; by apply digit_no_space).
    destruct (pretty z +:+ s) as [|b r] eqn:Hr; [by rewrite He in Hr|].
    assert (b = a) as -> by (rewrite He in Hr; by injection Hr). rewrite (digit_not 45), (digit_not 43), <- Hr, digits_app, Hv by (done || lia). by apply int_chk_ok.
  - destruct z as [|p|p]; [lia..|]. rewrite pretty_neg. destruct (pretty_pos p) as (Hd & Hv & _).
    cbn [String.append skip_ws is_space]. change (is_space "-") with false. cbv match. change (is_char 45 "-") with true. cbv match.
    rewrite digits_app, Hv by done. by apply int_chk_ok.
Qed.

(** the text of an integer is read by [%d], up to what is not a digit *)
Lemma scan_int_digits (neg : bool) t r : str_all is_digit t = true -> t <> "" -> head_is is_digit r = false ->
  in_int (cond_Zopp neg (dec_digits 0 t)) ->
  (let d := span (strlen (t +:+ r)) is_digit (t +:+ r) in
   match d.1 with
   | EmptyString => Done (None, t +:+ r)
   | t => z ← int_chk (cond_Zopp neg (dec_digits 0 t)); Done (Some z, d.2)
   end) = Done (Some (cond_Zopp neg (dec_digits 0 t)), r).
Proof.
  intros Ht Hne Hr Hz. cbv zeta. rewrite span_app by (done || (rewrite strlen_app; lia) || by left). cbn [fst snd].
  destruct t as [|a t]; [done|]. by rewrite int_chk_ok.
Qed.

Lemma scan_int_pretty z r : in_int z -> head_is is_digit r = false -> scan_int (pretty z +:+ r) = Done (Some z, r).
Proof.
  intros Hz Hr. unfold scan_int. destruct (decide (0 <= z)) as [Hp|Hn].
  - destruct (pretty_nonneg z Hp) as (Hd & Hv & Hne). destruct (digit_head _ Hd Hne) as (a & t & He & Ha).
    rewrite skip_ws_id by (rewrite He; by apply digit_no_space).
    assert (scan_sign (pretty z +:+ r) = (false, pretty z +:+ r)) as ->.
    { rewrite He. cbn [String.append scan_sign]. by rewrite (digit_not 45), (digit_not 43) by (done || lia). }
    rewrite scan_int_digits; rewrite ?Hv; done.
  - destruct z as [|p|p]; [lia..|]. rewrite pretty_neg. destruct (pretty_pos p) as (Hd & Hv & Hne).
    change (scan_sign (skip_ws (("-" +:+ pretty (Z.pos p)) +:+ r))) with (true, pretty (Z.pos p) +:+ r).
    etransitivity; [apply (scan_int_digits true (pretty (Z.pos p)) r); rewrite ?Hv; done|]. by rewrite Hv.
Qed.

(** what may stand behind a number *)
Definition number_ends (s : string) : Prop := s = "" \/ head_is is_space s = true.

Lemma strip_0x t s : str_all is_digit t = true -> t <> "" -> number_ends s -> strip_word "0x" (t +:+ s) = None.
Proof.
  assert (forall b r, Ascii.nat_of_ascii b <> 120%nat -> Ascii.nat_of_ascii b <> 88%nat -> strip_word "x" (String b r) = None) as Hx.
  { intros b r H1 H2. cbn [strip_word]. destruct (Ascii.eqb_spec "x" (lower b)) as [He|]; [|done]. revert He. unfold lower.
    destruct (_ && _) eqn:Hb; [|by intros <-]. intros He%(f_equal Ascii.nat_of_ascii). apply andb_true_iff in Hb as [_ Hb%Nat.leb_le].
    rewrite Ascii.nat_ascii_embedding in He by lia.
    change (Ascii.nat_of_ascii "x") with 120%nat in He. lia. }
  intros Ht Hne Hs. destruct t as [|a t]; [done|]. simpl in Ht. apply andb_true_iff in Ht as [Ha Ht]. cbn [String.append].
  change (strip_word "0x" (String a (t +:+ s))) with (if Ascii.eqb "0" (lower a) then strip_word "x" (t +:+ s) else None).
  destruct (Ascii.eqb "0" (lower a)); [|done]. destruct t as [|b t].
  - destruct Hs as [->|Hs]; [done|]. destruct s as [|b s]; [done|]. cbn in Hs. apply Hx; intros He; unfold is_space in Hs; rewrite He in Hs; done.
  - simpl in Ht. apply andb_true_iff in Ht as [Hb%digit_bounds _]. apply Hx; lia.
Qed.

Lemma scan_exponent_none s : number_ends s -> scan_exponent "e" s = Some (0, s).
Proof.
  intros [->|Hs]; [done|]. destruct s as [|b s]; [done|]. cbn in Hs. unfold scan_exponent. cbn [strip_word].
  destruct (Ascii.eqb_spec "e" (lower b)) as [He|]; [|done]. exfalso. revert He. unfold lower.
  destruct (_ && _) eqn:Hb; [|by intros <-]. intros _. apply andb_true_iff in Hb as [Hb%Nat.leb_le _].
  unfold is_space in Hs. apply orb_true_iff in Hs as [[_ Hs%Nat.leb_le]%andb_true_iff|Hs%Nat.eqb_eq]; lia.
Qed.

Lemma scan_digits t s : str_all is_digit t = true -> number_ends s -> scan_point is_digit (t +:+ s) = (t, "", s).
Proof.
  intros Ht Hs. unfold scan_point. assert (head_is is_digit s = false) as Hh.
  { destruct Hs as [->|Hs]; [done|]. destruct s as [|b s]; [done|]. cbn in *. destruct (is_digit b) eqn:Hb; [|done]. apply digit_no_space in Hb. congruence. }
  rewrite span_app by (done || (by left) || (rewrite strlen_app; lia)). cbn [fst snd]. destruct s as [|b s]; [done|].
  destruct Hs as [?|Hs]; [done|]. cbn in Hs. assert (is_char 46 b = false) as ->; [|done].
  unfold is_char. apply Nat.eqb_neq. intros He. unfold is_space in Hs. by rewrite He in Hs.
Qed.

(** a number after white space is read as the double next to it *)
Lemma scan_lf_skip a s : is_space a = true -> scan_lf (String a s) = scan_lf s.
Proof. intros Ha. unfold scan_lf. cbn [skip_ws]. by rewrite Ha. Qed.

Lemma scan_lf_digits t s : str_all is_digit t = true -> t <> "" -> number_ends s ->
  forall neg, (match strip_word "0x" (t +:+ s) with
   | Some _ => None
   | None => let '(i, f, r) := scan_point is_digit (t +:+ s) in
      match i +:+ f with EmptyString => scan_name neg (t +:+ s)
      | m => '(e, r) ← scan_exponent "e" r; Some (decimal neg (dec_digits 0 m) (e - Z.of_nat (strlen f)), r) end
   end) = Some (decimal neg (dec_digits 0 t) 0, s).
Proof.
  intros Ht Hne Hs neg. rewrite strip_0x, scan_digits, str_app_nil_r by done. cbn iota zeta. destruct t as [|a t]; [done|].
  by rewrite scan_exponent_none.
Qed.

Lemma scan_lf_pretty z s : number_ends s -> scan_lf (pretty z +:+ s) = Some (d_of_int z, s).
Proof.
  intros Hs. unfold scan_lf. destruct (decide (0 <= z)) as [Hp|Hn].
  - destruct (pretty_nonneg z Hp) as (Hd & Hv & Hne). destruct (digit_head _ Hd Hne) as (a & t & He & Ha).
    rewrite skip_ws_id by (rewrite He; by apply digit_no_space).
    assert (scan_sign (pretty z +:+ s) = (false, pretty z +:+ s)) as ->.
    { rewrite He. cbn [String.append scan_sign]. by rewrite (digit_not 45), (digit_not 43) by (done || lia). }
    pose proof (scan_lf_digits _ s Hd Hne Hs false) as Hl. rewrite strip_0x in Hl |- * by done. rewrite Hl, Hv. do 2 f_equal.
    unfold decimal. cbn [Z.leb Z.compare cond_Zopp]. by rewrite Z.mul_1_r.
  - destruct z as [|p|p]; [lia..|]. destruct (pretty_pos p) as (Hd & Hv & Hne). rewrite pretty_neg.
    assert (scan_sign (skip_ws (("-" +:+ pretty (Z.pos p)) +:+ s)) = (true, pretty (Z.pos p) +:+ s)) as -> by done.
    pose proof (scan_lf_digits _ s Hd Hne Hs true) as Hl. rewrite strip_0x in Hl |- * by done. rewrite Hl, Hv. do 2 f_equal.
    unfold decimal. cbn [Z.leb Z.compare cond_Zopp]. by rewrite Z.mul_1_r.
Qed.

Lemma hundredths_dbl k p : hundredths (dbl k p) (- Z.of_nat k) = Z.pos p * 100.
Proof.
  unfold hundredths. rewrite dbl_value. destruct (Z.leb_spec 0 (- Z.of_nat k)) as [Hk|Hk].
  - replace k with 0%nat by lia. cbn. lia.
  - unfold round_half_even. rewrite Z.opp_involutive, <- Z.mul_assoc, (Z.mul_comm (2 ^ _)), Z.mul_assoc.
    pose proof (Z.pow_pos_nonneg 2 (Z.of_nat k) ltac:(lia) ltac:(lia)). rewrite Z.div_mul, Z.mod_mul by lia. rewrite Z.mul_0_r.
    destruct (Z.compare_spec 0 (2 ^ Z.of_nat k)); lia || done.
Qed.

(** an integer that fits the mantissa is printed with two zeros *)
Lemma show_canon nan_text P neg p : (digits p <= P)%nat ->
  show_f nan_text (canon P neg p) = minus neg +:+ pretty (Z.pos p) +:+ ".00".
Proof.
  intros Hp. unfold canon. cbn [show_f]. replace (Z.of_nat (digits p) - Z.of_nat P) with (- Z.of_nat (P - digits p)) by lia.
  rewrite hundredths_dbl. unfold show_hundredths. by rewrite Z.div_mul, Z.mod_mul by done.
Qed.

Lemma show_int nan_text P emax z : (0 < P)%nat -> Z.of_nat P + 2 <= emax -> - 2 ^ Z.of_nat P < z < 2 ^ Z.of_nat P ->
  show_f nan_text (binary_normalize (Z.of_nat P) emax z 0 false) = pretty z +:+ ".00".
Proof.
  intros HP He Hz. rewrite of_int_canon by done. destruct z as [|p|p]; [done| |]; cbn [canon_z].
  - apply show_canon, digits_small. lia.
  - rewrite pretty_neg, str_app_assoc. apply show_canon, digits_small. lia.
Qed.

Lemma show_d_int nan_text z : - 2 ^ 53 < z < 2 ^ 53 -> show_f nan_text (d_of_int z) = pretty z +:+ ".00".
Proof. apply (show_int nan_text 53 1024); lia. Qed.

Lemma show_f_int nan_text z : - 2 ^ 24 < z < 2 ^ 24 -> show_f nan_text (f_of_int z) = pretty z +:+ ".00".
Proof. apply (show_int nan_text 24 128); lia. Qed.

(** an integer of [k] digits has a text of [k] characters, and its sign *)
Lemma strlen_pretty_go k (n : N) s : (n < 10 ^ N.of_nat k)%N -> (strlen (pretty_N_go n s) <= k + strlen s)%nat.
Proof.
  revert n s. induction k as [|k IH]; intros n s Hn.
  - assert (n = 0)%N as -> by (simpl in Hn; lia). by rewrite pretty_N_go_0.
  - destruct (decide (n = 0)%N) as [->|Hne]; [rewrite pretty_N_go_0; lia|]. rewrite pretty_N_go_step by lia.
    etransitivity; [apply IH|cbn [strlen]; lia]. rewrite Nat2N.inj_succ, N.pow_succ_r' in Hn. apply N.Div0.div_lt_upper_bound. lia.
Qed.

Lemma strlen_pretty k z : (0 < k)%nat -> - 10 ^ Z.of_nat k < z < 10 ^ Z.of_nat k -> (strlen (pretty z) <= S k)%nat.
Proof.
  intros Hk Hz. assert (forall p, Z.pos p < 10 ^ Z.of_nat k -> (strlen (pretty (Z.pos p)) <= k)%nat) as Hp.
  { intros p Hp. change (pretty (Z.pos p)) with (pretty_N_go (N.pos p) ""). etransitivity; [apply (strlen_pretty_go k)|simpl; lia].
    apply N2Z.inj_lt. by rewrite N2Z.inj_pow, nat_N_Z. }
  destruct z as [|p|p]; [simpl; lia|specialize (Hp p); lia|]. rewrite pretty_neg. cbn [String.append strlen]. specialize (Hp p). lia.
Qed.

(** the characters of the text of an integer *)
Lemma str_all_pretty (p : ascii -> bool) (z : Z) : (forall a, is_digit a = true -> p a = true) -> p "-"%char = true -> str_all p (pretty z) = true.
Proof.
  intros Hd Hm. assert (forall q, str_all p (pretty (Z.pos q)) = true) as Hp.
  { intros q. destruct (pretty_pos q) as (Hq & _ & _). revert Hq. by apply str_all_impl. }
  destruct z as [|q|q]; [|apply Hp|]; [simpl; by rewrite (Hd "0"%char)|]. rewrite pretty_neg. simpl. by rewrite Hm, Hp.
Qed.
