(* ===== verification/Strtok.v ===== *)
(** * Cutting strings with strtok

    [strtok] of string.h for a set of delimiters, and what its calls give one after the other: the
    pieces between the delimiters but the empty ones. *)
From S2P Require Import Prelude CString.

Section strtok.
Context (is_delimiter : ascii -> bool).

(** [strtok]: the characters before the token are skipped, the one behind it is taken as well *)
Fixpoint skip_delimiters (s : string) : string :=
  match s with String c s' => if is_delimiter c then skip_delimiters s' else s | EmptyString => s end.

Definition strtok (s : string) : option (string * string) :=
  match skip_delimiters s with
  | EmptyString => None
  | s =>
      let p := span (strlen s) (fun c => negb (is_delimiter c)) s in
      Some (p.1, match p.2 with String _ r => r | EmptyString => EmptyString end)
  end.

(** ** Specification *)

(** the pieces between the delimiters, empty ones too *)
Fixpoint split (s : string) : list string :=
  match s with
  | EmptyString => [EmptyString]
  | String c s =>
      if is_delimiter c then EmptyString :: split s
      else match split s with w :: ws => String c w :: ws | [] => [String c EmptyString] end
  end.

Definition words (s : string) : list string := filter (fun w => w <> EmptyString) (split s).

(** ** Lemmas *)

(** the first piece is what [span] reads *)
Lemma split_span s n : (strlen s <= n)%nat ->
  let p := span n (fun c => negb (is_delimiter c)) s in
  split s = p.1 :: match p.2 with String _ r => split r | EmptyString => [] end /\
  (strlen (match p.2 with String _ r => r | EmptyString => EmptyString end) <= strlen s)%nat.
Proof.
  revert n. induction s as [|c s IH]; intros n Hn; [by destruct n|]. destruct n as [|n]; [simpl in Hn; lia|]. cbn [span split].
  destruct (is_delimiter c) eqn:Hc; cbn [negb]; [split; [done|simpl; lia]|].
  destruct (IH n) as [He Hl]; [simpl in Hn; lia|]. destruct (span n _ s) as [t r]. cbn [fst snd] in *. rewrite He. split; [done|].
  destruct r; simpl in *; lia.
Qed.

Lemma words_skip s : words s = words (skip_delimiters s) /\ (strlen (skip_delimiters s) <= strlen s)%nat.
Proof.
  induction s as [|c s [IH Hl]]; [done|]. cbn [skip_delimiters]. destruct (is_delimiter c) eqn:Hc; [|done].
  split; [|simpl; lia]. rewrite <- IH. unfold words. cbn [split]. by rewrite Hc, filter_cons_False by (intros []; done).
Qed.

Lemma skip_head s c s' : skip_delimiters s = String c s' -> is_delimiter c = false.
Proof. induction s as [|d s IH]; [done|]. cbn. destruct (is_delimiter d) eqn:Hd; [done|]. by intros [= -> ->]. Qed.

Lemma strtok_words s :
  match strtok s with
  | None => words s = []
  | Some (t, r) => words s = t :: words r /\ (strlen r < strlen s)%nat
  end.
Proof.
  destruct (words_skip s) as [He Hle]. unfold strtok. destruct (skip_delimiters s) as [|c s'] eqn:Hs; [done|]. rewrite He.
  pose proof (skip_head _ _ _ Hs) as Hc. unfold words at 1. cbn [strlen span split]. rewrite Hc. cbn [negb].
  destruct (split_span s' (strlen s') (le_n _)) as [Hsp Hl]. destruct (span (strlen s') _ s') as [t r]. cbn [fst snd] in *.
  rewrite Hsp, filter_cons_True by done. split; [|simpl in *; lia]. f_equal. unfold words. by destruct r.
Qed.


(** a token in front of a delimiter, or at the end *)
Definition plain_token (t : string) : Prop := t <> EmptyString /\ str_all (fun c => negb (is_delimiter c)) t = true.

Lemma skip_token t s : plain_token t -> skip_delimiters (t +:+ s) = t +:+ s.
Proof. intros [Hne Ht]. destruct t as [|c t]; [done|]. cbn in *. apply andb_true_iff in Ht as [Hc%negb_true_iff _]. by rewrite Hc. Qed.

Lemma strtok_token t d r : plain_token t -> is_delimiter d = true -> strtok (t +:+ String d r) = Some (t, r).
Proof.
  intros Ht Hd. unfold strtok. rewrite skip_token by done. destruct Ht as [Hne Ht]. destruct (t +:+ String d r) as [|c s] eqn:He; [by destruct t|].
  rewrite <- He. rewrite span_app by (done || (rewrite strlen_app; lia) || (left; cbn; by rewrite Hd)). done.
Qed.

Lemma strtok_last t : plain_token t -> strtok t = Some (t, EmptyString).
Proof.
  intros Ht. pose proof (skip_token t EmptyString Ht) as Hs. rewrite str_app_nil_r in Hs. unfold strtok. rewrite Hs.
  destruct Ht as [Hne Ht]. destruct t as [|c t]; [done|]. by rewrite span_whole.
Qed.
End strtok.
