(* ===== verification/ByteFile.v ===== *)
(** * Bytes and files

    What the programs that read and write files by bytes share: a file is the list of its
    bytes, [write_at] the effect of a write at an offset, and [le] the little-endian
    representation of unsigned integers in memory. *)
From Stdlib Require Export Init.Byte.
From S2P Require Import Prelude.

(** a block of memory, or a file *)
Abbreviation bytes := (list byte).

#[export] Instance byte_eq_decision : EqDecision byte := Byte.byte_eq_dec.

(** a file with bytes written at an offset; a gap is filled with zeros *)
Definition write_at (off : nat) (src file : bytes) : bytes :=
  take off (file ++ replicate (off - length file) x00) ++ src ++ drop (off + length src) file.

(** the string in memory that [printf] prints: the bytes before the first NUL *)
Fixpoint c_text (s : bytes) : bytes := match s with [] => [] | b :: s => if decide (b = x00) then [] else b :: c_text s end.

Lemma c_text_app a b : x00 ∉ a -> c_text (a ++ b) = a ++ c_text b.
Proof.
  induction a as [|x a IH]; [done|]. intros [Hx Ha]%not_elem_of_cons. cbn [app c_text]. rewrite decide_False by done. by rewrite IH.
Qed.

Lemma length_write_at off src f : length (write_at off src f) = (length f `max` (off + length src))%nat.
Proof. unfold write_at. rewrite !length_app, length_take, length_app, length_replicate, length_drop. lia. Qed.

(** a write at a place that the file reaches *)
Lemma write_at_prefix l1 l2 src : write_at (length l1) src (l1 ++ l2) = l1 ++ src ++ drop (length src) l2.
Proof.
  unfold write_at. rewrite <- app_assoc, take_app_length. f_equal. f_equal.
  rewrite drop_app_ge by lia. f_equal. lia.
Qed.

Lemma write_at_app l1 l2 l3 src : length src = length l2 ->
  write_at (length l1) src (l1 ++ l2 ++ l3) = l1 ++ src ++ l3.
Proof. intros Hl. by rewrite write_at_prefix, Hl, drop_app_length. Qed.

Lemma write_at_end file src : write_at (length file) src file = file ++ src.
Proof. rewrite <- (app_nil_r file) at 2. by rewrite write_at_prefix, drop_nil, app_nil_r. Qed.

(** two writes one behind the other *)
Lemma write_at_write_at off a b file : (off <= length file)%nat ->
  write_at (off + length a) b (write_at off a file) = write_at off (a ++ b) file.
Proof.
  intros Ho. rewrite <- (take_drop off file) at 1 2. assert (length (take off file) = off) as Hl by (rewrite length_take; lia).
  pose proof (write_at_prefix (take off file) (drop off file)) as H. rewrite Hl in H. rewrite H, H.
  pose proof (write_at_prefix (take off file ++ a) (drop (length a) (drop off file)) b) as H2.
  rewrite length_app, Hl, <- app_assoc in H2. by rewrite H2, length_app, drop_drop, <- !app_assoc.
Qed.

(** ** Unsigned integers in memory *)

Definition byte_of (z : Z) : byte := default x00 (Byte.of_N (Z.to_N (z mod 256))).
Definition byte_val (b : byte) : Z := Z.of_N (Byte.to_N b).

Fixpoint le (n : nat) (z : Z) : bytes :=
  match n with
  | O => []
  | S n => byte_of z :: le n (z / 256)
  end.

Fixpoint le_val (l : bytes) : Z :=
  match l with
  | [] => 0
  | b :: l' => byte_val b + 256 * le_val l'
  end.

Lemma byte_val_of z : byte_val (byte_of z) = z mod 256.
Proof.
  pose proof (Z.mod_pos_bound z 256). unfold byte_of, byte_val.
  destruct (Byte.of_N (Z.to_N (z mod 256))) as [b|] eqn:Hb; simpl.
  - apply Byte.to_of_N in Hb. rewrite Hb. lia.
  - apply Byte.of_N_None_iff in Hb. lia.
Qed.

Lemma length_le n z : length (le n z) = n.
Proof. revert z. induction n as [|n IH]; intros z; simpl; [done|]. by rewrite IH. Qed.

Lemma le_val_le n z : le_val (le n z) = z mod 256 ^ Z.of_nat n.
Proof.
  revert z. induction n as [|n IH]; intros z; [by rewrite Z.mod_1_r|].
  cbn [le le_val]. rewrite IH, byte_val_of, Nat2Z.inj_succ, Z.pow_succ_r by lia.
  rewrite Z.rem_mul_r by lia. done.
Qed.
