(* ===== verification/Kernel.v ===== *)
(** * System calls on files

    What the programs of FILEIO/ ask the kernel for: named files, descriptors with an offset
    of their own, and a clock.  A descriptor is the lowest number that is free; 0, 1 and 2
    are the terminal.  What POSIX leaves to the kernel is an argument, the list of its
    answers: a call may fail and a transfer may be partial; when the list is used up, each
    call does all that is asked.  The readings of the clock are arbitrary too. *)
From S2P Require Import Prelude ByteFile.

(** ** The state of the kernel *)

(** an answer: an error, at most that many bytes and one more, all that is asked *)
Inductive answer := Fail | Part (m : nat) | Whole.

Record timespec := mkTime { tv_sec : Z; tv_nsec : Z }.

(** an open file description *)
Record desc := mkDesc { d_file : string; d_pos : nat; d_read : bool; d_write : bool }.

Record world := mkWorld {
  files : gmap string bytes;
  table : list (option desc);   (* of the descriptors 3, 4, ... *)
  answers : list answer;
  clock : nat -> option timespec }.   (* the reading that comes after so many others *)

(** the flags of [open]: O_CREAT, O_TRUNC, and what the descriptor is for *)
Record flags := mkFlags { o_creat : bool; o_trunc : bool; o_read : bool; o_write : bool }.

Definition O_RDONLY : flags := mkFlags false false true false.
Definition O_WRONLY_CREAT_TRUNC : flags := mkFlags true true false true.
Definition O_RDWR_CREAT : flags := mkFlags true false true true.

(** ** The calls *)

Definition next_answer : cmd world answer := fun w =>
  Done (default Whole (head (answers w)), mkWorld (files w) (table w) (tail (answers w)) (clock w)).

Definition desc_of (w : world) (fd : Z) : option desc :=
  if fd <? 3 then None else mjoin (table w !! Z.to_nat (fd - 3)).

Definition set_desc (fd : Z) (d : option desc) (t : list (option desc)) : list (option desc) :=
  if fd <? 3 then t else <[Z.to_nat (fd - 3) := d]> t.

(** the table with a descriptor in its first free place, and that place *)
Definition install (d : desc) (t : list (option desc)) : Z * list (option desc) :=
  match list_find (fun o => o = None) t with
  | Some (i, _) => (3 + Z.of_nat i, <[i := Some d]> t)
  | None => (3 + Z.of_nat (length t), t ++ [Some d])
  end.

(** the files after an [open] that succeeds *)
Definition open_files (nm : string) (fl : flags) (m : gmap string bytes) : gmap string bytes :=
  match m !! nm with
  | None => if o_creat fl then <[nm := []]> m else m
  | Some _ => if o_trunc fl then <[nm := []]> m else m
  end.

(** the descriptor, or -1 *)
Definition sys_open (nm : string) (fl : flags) : cmd world Z :=
  a ← next_answer;
  w ← get;
  match a with
  | Fail => mret (-1)
  | _ =>
      let m := open_files nm fl (files w) in
      match m !! nm with
      | None => mret (-1)
      | Some _ =>
          let p := install (mkDesc nm 0 (o_read fl) (o_write fl)) (table w) in
          modify (fun w => mkWorld m p.2 (answers w) (clock w));; mret p.1
      end
  end.

Definition sys_close (fd : Z) : cmd world unit :=
  modify (fun w => mkWorld (files w) (set_desc fd None (table w)) (answers w) (clock w)).

(** the bytes transferred, [None] for -1 *)
Definition amount (a : answer) (n : nat) : nat := match a with Part m => Nat.min (S m) n | _ => n end.

Definition sys_read (fd : Z) (n : nat) : cmd world (option bytes) :=
  a ← next_answer;
  w ← get;
  match a, desc_of w fd with
  | Fail, _ | _, None => mret None
  | _, Some d =>
      if negb (d_read d) then mret None else
      let src := take (amount a n) (drop (d_pos d) (default [] (files w !! d_file d))) in
      modify (fun w => mkWorld (files w)
        (set_desc fd (Some (mkDesc (d_file d) (d_pos d + length src) (d_read d) (d_write d))) (table w)) (answers w) (clock w));;
      mret (Some src)
  end.

(** the number of bytes transferred, [None] for -1 *)
Definition sys_write (fd : Z) (src : bytes) : cmd world (option nat) :=
  a ← next_answer;
  w ← get;
  match a, desc_of w fd with
  | Fail, _ | _, None => mret None
  | _, Some d =>
      if negb (d_write d) then mret None else
      let src := take (amount a (length src)) src in
      modify (fun w => mkWorld (<[d_file d := write_at (d_pos d) src (default [] (files w !! d_file d))]> (files w))
        (set_desc fd (Some (mkDesc (d_file d) (d_pos d + length src) (d_read d) (d_write d))) (table w)) (answers w) (clock w));;
      mret (Some (length src))
  end.

(** whether the call succeeds *)
Definition sys_fsync (fd : Z) : cmd world bool :=
  a ← next_answer; w ← get;
  mret match a, desc_of w fd with Fail, _ | _, None => false | _, Some _ => true end.

(** [lseek(fd, 0, SEEK_SET)] *)
Definition sys_rewind (fd : Z) : cmd world bool :=
  w ← get;
  match desc_of w fd with
  | None => mret false
  | Some d =>
      modify (fun w => mkWorld (files w) (set_desc fd (Some (mkDesc (d_file d) 0 (d_read d) (d_write d))) (table w)) (answers w) (clock w));;
      mret true
  end.

(** [st_size] *)
Definition sys_fstat (fd : Z) : cmd world (option nat) :=
  a ← next_answer; w ← get;
  mret match a, desc_of w fd with
       | Fail, _ | _, None => None
       | _, Some d => Some (length (default [] (files w !! d_file d)))
       end.

Definition clock_gettime : cmd world (option timespec) := fun w =>
  Done (clock w 0%nat, mkWorld (files w) (table w) (answers w) (fun n => clock w (S n))).

Definition no_fuel {A} : cmd world A := fun _ => OutOfFuel.

(** ** Lemmas: the table *)

(** the kernel does all that is asked *)
Definition willing (w : world) : Prop := answers w = [].

Lemma install_spec d t fd t' : install d t = (fd, t') ->
  3 <= fd /\ mjoin (t !! Z.to_nat (fd - 3)) = None /\ t' !! Z.to_nat (fd - 3) = Some (Some d) /\
  (forall i, i <> Z.to_nat (fd - 3) -> mjoin (t' !! i) = mjoin (t !! i)) /\
  (forall i, (i < Z.to_nat (fd - 3))%nat -> mjoin (t !! i) <> None).
Proof.
  unfold install. destruct (list_find _ t) as [[i o]|] eqn:Hf; intros [= <- <-]; rewrite Z.add_simpl_l, Nat2Z.id; (split; [lia|]).
  - apply list_find_Some in Hf as (Hi & -> & Hmin). rewrite Hi. split; [done|]. split_and!.
    + apply list_lookup_insert_eq. by eapply lookup_lt_Some.
    + intros j Hj. by rewrite list_lookup_insert_ne.
    + intros j Hj. destruct (lookup_lt_is_Some_2 t j) as [[x|] Hx]; [apply lookup_lt_Some in Hi; lia|by rewrite Hx|].
      by destruct (Hmin j None Hx Hj).
  - rewrite lookup_ge_None_2, list_lookup_middle by done. split_and!; [done..| |].
    + intros i Hi. destruct (decide (i < length t)%nat) as [Hlt|Hge]; [by rewrite lookup_app_l|].
      rewrite !lookup_ge_None_2; [done|lia|rewrite length_app; simpl; lia].
    + intros i Hi. apply list_find_None in Hf. destruct (lookup_lt_is_Some_2 t i Hi) as [[x|] Hx]; [by rewrite Hx|].
      rewrite Forall_lookup in Hf. by destruct (Hf i None Hx).
Qed.

Lemma desc_of_ge w fd d : desc_of w fd = Some d -> 3 <= fd.
Proof. unfold desc_of. destruct (Z.ltb_spec fd 3); [done|lia]. Qed.

(** the table after a change of one descriptor *)
Lemma desc_of_set m t a c fd d w : table w = t -> desc_of w fd = Some d ->
  forall o, desc_of (mkWorld m (set_desc fd o t) a c) fd = o.
Proof.
  intros <- Hd o. pose proof (desc_of_ge _ _ _ Hd) as Hge. revert Hd. unfold desc_of, set_desc. cbn [table].
  destruct (Z.ltb_spec fd 3); [lia|]. intros Hd. rewrite list_lookup_insert_eq; [done|].
  destruct (table w !! Z.to_nat (fd - 3)) eqn:Hl; [by eapply lookup_lt_Some|done].
Qed.

Lemma desc_of_set_ne m t a c fd fd' o w : table w = t -> fd <> fd' ->
  desc_of (mkWorld m (set_desc fd o t) a c) fd' = desc_of w fd'.
Proof.
  intros <- Hne. unfold desc_of, set_desc. cbn [table]. destruct (Z.ltb_spec fd 3), (Z.ltb_spec fd' 3); try done.
  rewrite list_lookup_insert_ne; [done|lia].
Qed.

(** ** Lemmas: the calls *)

(** the descriptor that the next [open] gives *)
Definition first_free (w : world) (fd : Z) : Prop :=
  3 <= fd /\ desc_of w fd = None /\ forall fd', 3 <= fd' < fd -> desc_of w fd' <> None.

Lemma first_free_unique w w' a b : (forall fd, desc_of w fd = desc_of w' fd) -> first_free w a -> first_free w' b -> a = b.
Proof.
  intros He (Ha & Hna & Hma) (Hb & Hnb & Hmb). destruct (Z.lt_trichotomy a b) as [Hl|[->|Hl]]; [|done|].
  - destruct (Hmb a); [lia|by rewrite <- He].
  - destruct (Hma b); [lia|by rewrite He].
Qed.

Lemma first_free_install d t fd t' m a c : install d t = (fd, t') -> first_free (mkWorld m t a c) fd.
Proof.
  intros (Hge & Hn & _ & _ & Hmin)%install_spec. unfold first_free, desc_of. cbn [table].
  destruct (Z.ltb_spec fd 3); [lia|]. split_and!; [done|done|]. intros fd' Hf.
  destruct (Z.ltb_spec fd' 3); [lia|]. apply Hmin. lia.
Qed.

Lemma first_free_exists w : exists fd, first_free w fd.
Proof.
  destruct (install (mkDesc EmptyString 0 false false) (table w)) as [fd t'] eqn:Hi. destruct w. exists fd. by eapply first_free_install.
Qed.

(** an [open] that succeeds, and one that does not *)
Inductive open_result (nm : string) (fl : flags) (w : world) : Z -> world -> Prop :=
| open_failed w' : files w' = files w -> (forall fd, desc_of w' fd = desc_of w fd) -> answers w' = tail (answers w) ->
    clock w' = clock w -> (willing w -> open_files nm fl (files w) !! nm = None) -> open_result nm fl w (-1) w'
| opened fd w' : first_free w fd ->
    desc_of w' fd = Some (mkDesc nm 0 (o_read fl) (o_write fl)) ->
    (forall fd', fd' <> fd -> desc_of w' fd' = desc_of w fd') ->
    files w' = open_files nm fl (files w) -> is_Some (files w' !! nm) -> answers w' = tail (answers w) ->
    clock w' = clock w -> open_result nm fl w fd w'.

Lemma sys_open_cases nm fl w : exists fd w', sys_open nm fl w = Done (fd, w') /\ open_result nm fl w fd w'.
Proof.
  unfold sys_open, next_answer, get, modify, mbind, cmd_bind, mret, cmd_ret. cbn [files table answers clock].
  destruct (open_files nm fl (files w) !! nm) as [d|] eqn:Hm.
  2:{ destruct (default Whole (head (answers w))) eqn:Ha; eexists _, _; (split; [reflexivity|]);
      by apply open_failed. }
  destruct (install (mkDesc nm 0 (o_read fl) (o_write fl)) (table w)) as [fd t'] eqn:Hi.
  assert (first_free w fd) as Hfirst by (destruct w; by eapply first_free_install).
  apply install_spec in Hi as (Hge & Hfree & Hin & Hrest & _).
  assert (open_result nm fl w fd (mkWorld (open_files nm fl (files w)) t' (tail (answers w)) (clock w))) as Hok.
  { apply opened; cbn [files answers clock]; try done.
    - unfold desc_of. cbn [table]. destruct (Z.ltb_spec fd 3); [lia|]. by rewrite Hin.
    - intros fd' Hne. unfold desc_of. cbn [table]. destruct (Z.ltb_spec fd 3), (Z.ltb_spec fd' 3); [done|lia|done|apply Hrest; lia]. }
  destruct (default Whole (head (answers w))) eqn:Ha; eexists _, _; (split; [reflexivity|]); [|exact Hok..].
  eapply open_failed; try done. intros Hq. unfold willing in Hq. by rewrite Hq in Ha.
Qed.

(** what a transfer leaves alone: the other descriptors and the clock *)
Definition others_same (fd : Z) (w w' : world) : Prop :=
  (forall fd', fd' <> fd -> desc_of w' fd' = desc_of w fd') /\ answers w' = tail (answers w) /\ clock w' = clock w.

Lemma sys_read_ok fd n w nm pos wr : desc_of w fd = Some (mkDesc nm pos true wr) -> exists r w', sys_read fd n w = Done (r, w') /\ others_same fd w w' /\ files w' = files w /\ ((r = None /\ desc_of w' fd = desc_of w fd /\ ~ willing w) \/
   exists k, (k <= n)%nat /\ (0 < n -> 0 < k)%nat /\ (willing w -> k = n) /\ let src := take k (drop pos (default [] (files w !! nm))) in
     r = Some src /\ desc_of w' fd = Some (mkDesc nm (pos + length src) true wr)).
Proof.
  intros Hd. unfold sys_read, next_answer, get, modify, mbind, cmd_bind, mret, cmd_ret, others_same, willing.
  assert (forall a c, desc_of (mkWorld (files w) (table w) a c) fd = Some (mkDesc nm pos true wr)) as Hd' by done.
  rewrite Hd'. cbn [files table answers clock d_read d_file d_pos d_write negb].
  destruct (default Whole (head (answers w))) as [|m|] eqn:Ha; eexists _, _; (split; [reflexivity|]); cbn [files answers clock].
  - split_and!; try done. left. split_and!; try done. intros Hq. by rewrite Hq in Ha.
  - split_and!; try done. { intros fd' Hne. by apply desc_of_set_ne. }
    right. exists (amount (Part m) n). unfold amount. split_and!; [lia|lia| |done|by eapply desc_of_set].
    intros Hq. by rewrite Hq in Ha.
  - split_and!; try done. { intros fd' Hne. by apply desc_of_set_ne. }
    right. exists n. split_and!; [lia|lia|done|done|by eapply desc_of_set].
Qed.

Lemma sys_write_ok fd src w nm pos rd : desc_of w fd = Some (mkDesc nm pos rd true) -> exists r w', sys_write fd src w = Done (r, w') /\ others_same fd w w' /\ ((r = None /\ desc_of w' fd = desc_of w fd /\ files w' = files w /\ ~ willing w) \/
   exists k, (k <= length src)%nat /\ (willing w -> k = length src) /\ r = Some k /\    desc_of w' fd = Some (mkDesc nm (pos + k) rd true) /\ files w' = <[nm := write_at pos (take k src) (default [] (files w !! nm))]> (files w)).
Proof.
  intros Hd. unfold sys_write, next_answer, get, modify, mbind, cmd_bind, mret, cmd_ret, others_same, willing.
  assert (forall a c, desc_of (mkWorld (files w) (table w) a c) fd = Some (mkDesc nm pos rd true)) as Hd' by done.
  rewrite Hd'. cbn [files table answers clock d_read d_file d_pos d_write negb].
  assert (forall a, (amount a (length src) <= length src)%nat) as Ham by (intros [|m|]; unfold amount; lia).
  destruct (default Whole (head (answers w))) as [|m|] eqn:Ha; eexists _, _; (split; [reflexivity|]); cbn [files answers clock].
  - split_and!; try done. left. split_and!; try done. intros Hq. by rewrite Hq in Ha.
  - split_and!; try done. { intros fd' Hne. by apply desc_of_set_ne. }
    right. exists (amount (Part m) (length src)). pose proof (Ham (Part m)).
    split_and!; [done| |by rewrite length_take_le| |done].
    + intros Hq. by rewrite Hq in Ha.
    + erewrite desc_of_set by done. by rewrite length_take_le.
  - split_and!; try done. { intros fd' Hne. by apply desc_of_set_ne. }
    right. exists (length src). simpl amount. rewrite firstn_all. split_and!; try done. by eapply desc_of_set.
Qed.

Lemma sys_close_ok fd w : exists w', sys_close fd w = Done (tt, w') /\ files w' = files w /\ answers w' = answers w /\ clock w' = clock w /\ desc_of w' fd = None /\ forall fd', fd' <> fd -> desc_of w' fd' = desc_of w fd'.
Proof.
  eexists. split; [reflexivity|]. split_and!; try done.
  - destruct (desc_of w fd) eqn:Hd; [by eapply desc_of_set|]. revert Hd. unfold desc_of, set_desc. cbn [table].
    destruct (Z.ltb_spec fd 3); [done|]. intros Hd. destruct (decide (Z.to_nat (fd - 3) < length (table w))%nat).
    + by rewrite list_lookup_insert_eq.
    + rewrite list_insert_ge by lia. done.
  - intros fd' Hne. by apply desc_of_set_ne.
Qed.

(** calls of a willing kernel that change nothing *)
Lemma next_answer_willing w : willing w -> next_answer w = Done (Whole, w).
Proof. destruct w as [f t a c]. unfold willing. cbn. by intros ->. Qed.

Lemma sys_fstat_willing fd d w : willing w -> desc_of w fd = Some d ->
  sys_fstat fd w = Done (Some (length (default [] (files w !! d_file d))), w).
Proof.
  intros Hq Hd. unfold sys_fstat. rewrite (cmd_bind_eq _ _ _ _ _ (next_answer_willing _ Hq)).
  unfold get, mbind, cmd_bind, mret, cmd_ret. by rewrite Hd.
Qed.
