(* ===== verification/Actors.v ===== *)
(** * Systems of several actors

    The step relation of actors that are given as partial functions on a shared state, runs of a
    fixed order of preference to execute it, and the rule for invariants together with a measure
    that bounds the length of runs.  Used by the clients and servers with many connections. *)
From S2P Require Import Prelude.

Section actors.
Context {A S : Type} (act : A -> S -> option S).

Definition act_step (s s' : S) : Prop := exists a, act a s = Some s'.

(** the first actor that can move, for [fuel] steps: their number and the last state *)
Fixpoint run_first (actors : list A) (fuel : nat) (s : S) : nat * S :=
  match fuel with
  | O => (0%nat, s)
  | Datatypes.S fuel =>
      match omap (fun a => act a s) actors with
      | [] => (0%nat, s)
      | s' :: _ => let p := run_first actors fuel s' in (Datatypes.S p.1, p.2)
      end
  end.

Lemma run_first_steps actors fuel s : nsteps act_step (run_first actors fuel s).1 s (run_first actors fuel s).2.
Proof.
  revert s. induction fuel as [|fuel IH]; intros s; simpl; [constructor|].
  destruct (omap (fun a => act a s) actors) as [|s' ss] eqn:Ho; [constructor|]. econstructor; [|apply IH].
  assert (s' ∈ omap (fun a => act a s) actors) as (a & _ & Ha)%list_elem_of_omap by (rewrite Ho; by left). by exists a.
Qed.

(** what every step preserves while the measure falls *)
Lemma nsteps_bounded (I : S -> Prop) (measure : S -> nat) : (forall s s', I s -> act_step s s' -> I s' /\ (measure s' < measure s)%nat) ->
  forall k s s', nsteps act_step k s s' -> I s -> I s' /\ (k + measure s' <= measure s)%nat.
Proof.
  intros Hs k s s' Hk. induction Hk as [s|k s s1 s' H1 _ IH]; intros Hi; [by split; [|lia]|].
  destruct (Hs s s1 Hi H1) as [Hi1 Hl]. destruct (IH Hi1) as [Hi' Hle]. split; [done|lia].
Qed.
End actors.
