(* ===== verification/BlockCache.v ===== *)
(** * The cache of MemoryAllocation/cache.c

    A cache of byte strings with a limit on their total size.  An entry is on two lists
    at once, the recency list and the chain of its bucket, so the entries live on a heap.
    The same key can be put more than once; the older entries stay behind the newer one.
    A mutex is whether it is held: to lock one that is held never returns, to unlock one
    that is not is undefined.  The clock is an argument. *)
From S2P Require Import Prelude LinkedHeap ByteFile.

(** ** The program *)

Record cache_entry_t := mkEntry {
  key : string; data : bytes; esize : Z; last_accessed : Z; next : ptr; lru_prev : ptr; lru_next : ptr }.
Record cache_t := mkCache {
  entries : gmap loc cache_entry_t;  (* the allocated entries *)
  hash_table : list ptr; lru_head : ptr; lru_tail : ptr;
  bucket_count : Z; current_size : Z; max_size : Z; cache_mutex : bool }.

Definition pthread_mutex_lock (held : bool) : outcome bool := if held then OutOfFuel else Done true.
Definition pthread_mutex_unlock (held : bool) : outcome bool := if held then Done false else Undef.

Definition set_entries (h : gmap loc cache_entry_t) (c : cache_t) : cache_t :=
  mkCache h (hash_table c) (lru_head c) (lru_tail c) (bucket_count c) (current_size c) (max_size c) (cache_mutex c).
Definition set_table (t : list ptr) (c : cache_t) : cache_t :=
  mkCache (entries c) t (lru_head c) (lru_tail c) (bucket_count c) (current_size c) (max_size c) (cache_mutex c).
Definition set_head (p : ptr) (c : cache_t) : cache_t :=
  mkCache (entries c) (hash_table c) p (lru_tail c) (bucket_count c) (current_size c) (max_size c) (cache_mutex c).
Definition set_tail (p : ptr) (c : cache_t) : cache_t :=
  mkCache (entries c) (hash_table c) (lru_head c) p (bucket_count c) (current_size c) (max_size c) (cache_mutex c).
Definition set_current (n : Z) (c : cache_t) : cache_t :=
  mkCache (entries c) (hash_table c) (lru_head c) (lru_tail c) (bucket_count c) n (max_size c) (cache_mutex c).
Definition set_held (m : bool) (c : cache_t) : cache_t :=
  mkCache (entries c) (hash_table c) (lru_head c) (lru_tail c) (bucket_count c) (current_size c) (max_size c) m.

Definition set_next (p : ptr) (e : cache_entry_t) : cache_entry_t :=
  mkEntry (key e) (data e) (esize e) (last_accessed e) p (lru_prev e) (lru_next e).
Definition set_lru_prev (p : ptr) (e : cache_entry_t) : cache_entry_t :=
  mkEntry (key e) (data e) (esize e) (last_accessed e) (next e) p (lru_next e).
Definition set_lru_next (p : ptr) (e : cache_entry_t) : cache_entry_t :=
  mkEntry (key e) (data e) (esize e) (last_accessed e) (next e) (lru_prev e) p.
Definition touch (now : Z) (e : cache_entry_t) : cache_entry_t :=
  mkEntry (key e) (data e) (esize e) now (next e) (lru_prev e) (lru_next e).

#[export] Program Instance cache_heap : HeapState cache_t cache_entry_t :=
  {| heap_of := entries; with_heap := set_entries |}.
Solve All Obligations with done.

#[export] Program Instance entry_dl : DLNode cache_entry_t (string * bytes) :=
  {| prv := lru_prev; nxt := lru_next; pay e := (key e, data e);
     set_prv := set_lru_prev; set_nxt := set_lru_next |}.
Solve All Obligations with done.

#[export] Program Instance entry_sl : SLNode cache_entry_t (string * bytes) :=
  {| snx := next; spay e := (key e, data e); set_snx := set_next |}.
Solve All Obligations with done.

Definition no_fuel {S A} : cmd S A := fun _ => OutOfFuel.

Definition lock_cache : cmd cache_t unit :=
  c ← get; m ← lift (pthread_mutex_lock (cache_mutex c)); modify (set_held m).
Definition unlock_cache : cmd cache_t unit :=
  c ← get; m ← lift (pthread_mutex_unlock (cache_mutex c)); modify (set_held m).

Fixpoint hash_loop (hash : Z) (k : string) : Z :=
  match k with
  | EmptyString => hash
  | String a k' => hash_loop (u32 (u32 (Z.shiftl hash 5 + hash) + schar a)) k'
  end.
Definition hash_key (k : string) (bucket_count : Z) : Z := hash_loop 5381 k mod bucket_count.

Definition create_cache (max_size bucket_count : Z) : cache_t :=
  mkCache ∅ (replicate (Z.to_nat bucket_count) None) None None bucket_count 0 max_size false.

(** [if (p) p->field = e;] *)
Definition when_some (p : ptr) (f : cache_entry_t -> cache_entry_t) : cmd cache_t unit :=
  match p with Some _ => update p f | None => mret tt end.

(** linking an entry in front of the recency list, the same lines in [move_to_front]
    and [cache_put] *)
Definition link_front (entry : ptr) : cmd cache_t unit :=
  update entry (set_lru_prev None);;
  c ← get; update entry (set_lru_next (lru_head c));;
  when_some (lru_head c) (set_lru_prev entry);;
  modify (set_head entry);;
  c ← get; match lru_tail c with None => modify (set_tail entry) | Some _ => mret tt end.

(** the lines of [move_to_front] that take the entry out of the list *)
Definition unlink_entry (entry : ptr) : cmd cache_t unit :=
  e ← load entry; when_some (lru_prev e) (set_lru_next (lru_next e));;
  e ← load entry; when_some (lru_next e) (set_lru_prev (lru_prev e));;
  e ← load entry;
  c ← get; if decide (entry = lru_tail c) then modify (set_tail (lru_prev e)) else mret tt.

Definition move_to_front (entry : ptr) : cmd cache_t unit :=
  c ← get;
  if decide (entry = lru_head c) then mret tt else
  unlink_entry entry;; link_front entry.

(** what a [cache_entry_t **] points to: a bucket of the table or an entry's [next] *)
Inductive slot := Bucket (b : Z) | NextOf (p : ptr).

Definition read_slot (s : slot) : cmd cache_t ptr :=
  match s with
  | Bucket b => c ← get; lift (arr_get (hash_table c) b)
  | NextOf p => e ← load p; mret (next e)
  end.
Definition write_slot (s : slot) (v : ptr) : cmd cache_t unit :=
  match s with
  | Bucket b => c ← get; t ← lift (arr_set (hash_table c) b v); modify (set_table t)
  | NextOf p => update p (set_next v)
  end.

Fixpoint find_slot (fuel : nat) (current : slot) (victim : ptr) : cmd cache_t slot :=
  p ← read_slot current;
  if decide (p = None \/ p = victim) then mret current else
  match fuel with
  | O => no_fuel
  | S fuel => find_slot fuel (NextOf p) victim
  end.

(** the first lines of [evict_lru]: the victim leaves the recency list *)
Definition drop_tail (victim : cache_entry_t) : cmd cache_t unit :=
  modify (set_tail (lru_prev victim));;
  match lru_prev victim with
  | Some _ => update (lru_prev victim) (set_lru_next None)
  | None => modify (set_head None)
  end.

(** the next ones: it leaves the chain of its key *)
Definition unchain (k : string) (victim : ptr) : cmd cache_t unit :=
  c ← get;
  current ← find_slot (size (entries c)) (Bucket (hash_key k (bucket_count c))) victim;
  p ← read_slot current;
  match p with
  | Some _ => v ← load victim; write_slot current (next v)
  | None => mret tt
  end.

Definition evict_lru : cmd cache_t unit :=
  c ← get;
  match lru_tail c with
  | None => mret tt
  | Some _ =>
      let victim := lru_tail c in
      v ← load victim;
      drop_tail v;;
      unchain (key v) victim;;
      modify (fun c => set_current (u64 (current_size c - esize v)) c);;
      free victim
  end.

(** the search of [cache_get] along a chain *)
Fixpoint find_entry (fuel : nat) (k : string) (entry : ptr) : cmd cache_t ptr :=
  match entry with
  | None => mret None
  | Some _ =>
      e ← load entry;
      if streq (key e) k then mret entry else
      match fuel with
      | O => no_fuel
      | S fuel => find_entry fuel k (next e)
      end
  end.

(** the bytes that the returned pointer leads to, [None] for NULL *)
Definition cache_get (now : Z) (k : string) : cmd cache_t (option bytes) :=
  lock_cache;;
  c ← get;
  head ← lift (arr_get (hash_table c) (hash_key k (bucket_count c)));
  entry ← find_entry (size (entries c)) k head;
  match entry with
  | Some _ =>
      update entry (touch now);;
      move_to_front entry;;
      e ← load entry;
      unlock_cache;; mret (Some (data e))
  | None => unlock_cache;; mret None
  end.

(** the loop of [cache_put]: [size_t] arithmetic *)
Fixpoint make_room (fuel : nat) (size : Z) : cmd cache_t unit :=
  c ← get;
  if u64 (current_size c + size) >? max_size c then
    match fuel with
    | O => no_fuel
    | S fuel => evict_lru;; make_room fuel size
    end
  else mret tt.

(** [memcpy(..., src, n)] into a fresh block of [n] bytes *)
Definition copy_bytes (n : Z) (src : bytes) : outcome bytes :=
  if n <=? Z.of_nat (length src) then Done (take (Z.to_nat n) src) else Undef.

(** the lines of [cache_put] after the copy: the entry goes on both lists *)
Definition add_entry (now : Z) (k : string) (d : bytes) (size : Z) : cmd cache_t unit :=
  c ← get;
  let bucket := hash_key k (bucket_count c) in
  head ← lift (arr_get (hash_table c) bucket);
  entry ← alloc (mkEntry k d size now head None None);
  write_slot (Bucket bucket) entry;;
  link_front entry;;
  modify (fun c => set_current (u64 (current_size c + size)) c).

Definition cache_put (now : Z) (k : string) (src : bytes) (size : Z) : cmd cache_t unit :=
  lock_cache;;
  c ← get; make_room (base.size (entries c)) size;;
  d ← lift (copy_bytes size src);
  add_entry now k d size;;
  unlock_cache.

(** uses of the cache alone *)
Inductive call := Get (now : Z) (k : string) | Put (now : Z) (k : string) (d : bytes).

Fixpoint run_calls (l : list call) : cmd cache_t (list (option bytes)) :=
  match l with
  | [] => mret []
  | Get now k :: l' => r ← cache_get now k; rs ← run_calls l'; mret (r :: rs)
  | Put now k d :: l' => cache_put now k d (Z.of_nat (length d));; run_calls l'
  end.

(** ** Specification: a list of keys and byte strings, most recently used first *)

Abbreviation item := (string * bytes)%type.

Definition total (l : list item) : Z := Z.of_nat (length (concat l.*2)).

(** the longest prefix that fits *)
Fixpoint keep (room : Z) (l : list item) : list item :=
  match l with
  | [] => []
  | x :: l' => let n := Z.of_nat (length x.2) in if n <=? room then x :: keep (room - n) l' else []
  end.

(** without the first pair of that key *)
Fixpoint remove_first (k : string) (l : list item) : list item :=
  match l with
  | [] => []
  | x :: l' => if streq x.1 k then l' else x :: remove_first k l'
  end.

Definition spec_get (k : string) (l : list item) : option bytes * list item :=
  match assoc k l with
  | None => (None, l)
  | Some d => (Some d, (k, d) :: remove_first k l)
  end.

Definition spec_put (max : Z) (k : string) (d : bytes) (l : list item) : list item :=
  (k, d) :: keep (max - Z.of_nat (length d)) l.

(** the recency list of the cache is [ps] *)
Definition linked (c : cache_t) (ps : list (loc * item)) : Prop :=
  lru_head c = firstp ps None /\ lru_tail c = lastp ps None /\ dll (entries c) None ps None /\ NoDup ps.*1.

Definition with_key (k : string) (ps : list (loc * item)) : list (loc * item) := filter (fun x => x.2.1 = k) ps.

(** a chain holds the entries of the keys that hash to it; those with the same key stand
    there in the order of the recency list *)
Definition chain_ok (c : cache_t) (ps : list (loc * item)) (i : nat) (b : list (loc * item)) : Prop :=
  sll (entries c) b None /\ NoDup b.*1 /\
  (forall x, x ∈ b -> hash_key x.2.1 (bucket_count c) = Z.of_nat i) /\
  (forall k, hash_key k (bucket_count c) = Z.of_nat i -> with_key k b = with_key k ps).

Definition chained (c : cache_t) (ps : list (loc * item)) : Prop :=
  exists bs, hash_table c = (fun b => firstp b None) <$> bs /\ Z.of_nat (length bs) = bucket_count c /\
    forall i b, bs !! i = Some b -> chain_ok c ps i b.

Definition sized (c : cache_t) : Prop :=
  forall p e, entries c !! p = Some e -> esize e = Z.of_nat (length (data e)).

Record repr (c : cache_t) (l : list item) : Prop := {
  r_ps : exists ps, linked c ps /\ chained c ps /\ ps.*2 = l /\ dom (entries c) = list_to_set ps.*1;
  r_sized : sized c;
  r_current : current_size c = total l;
  r_fits : total l <= max_size c;
  r_max : max_size c < 2 ^ 63;
  r_buckets : 0 < bucket_count c;
}.

(** ** Lemmas: lists *)

Lemma total_cons x l : total (x :: l) = Z.of_nat (length x.2) + total l.
Proof. unfold total. rewrite fmap_cons. simpl. rewrite length_app. lia. Qed.

Lemma total_app l1 l2 : total (l1 ++ l2) = total l1 + total l2.
Proof. induction l1 as [|x l1 IH]; [done|]. rewrite <- app_comm_cons, !total_cons, IH. lia. Qed.

Lemma total_nonneg l : 0 <= total l.
Proof. unfold total. lia. Qed.

Lemma keep_all room l : total l <= room -> keep room l = l.
Proof.
  revert room. induction l as [|x l IH]; intros room; simpl; [done|]. rewrite total_cons.
  pose proof (total_nonneg l). zcases; [|lia]. intros ?. by rewrite IH by lia.
Qed.

Lemma keep_snoc room l x : room < total (l ++ [x]) -> keep room (l ++ [x]) = keep room l.
Proof.
  revert room. induction l as [|y l IH]; intros room; simpl; rewrite total_cons.
  - unfold total. simpl. zcases; [lia|done].
  - zcases; [|done]. intros ?. by rewrite IH by lia.
Qed.

Lemma keep_total room l : 0 <= room -> total (keep room l) <= room.
Proof.
  revert room. induction l as [|x l IH]; intros room Hr; simpl; [done|]. zcases; [|done].
  rewrite total_cons. specialize (IH (room - Z.of_nat (length x.2))). lia.
Qed.

Lemma keep_prefix room l : exists l2, l = keep room l ++ l2.
Proof.
  revert room. induction l as [|x l IH]; intros room; simpl; [by exists []|]. zcases; [|by exists (x :: l)].
  destruct (IH (room - Z.of_nat (length x.2))) as [l2 Hl]. exists l2. simpl. by rewrite <- Hl.
Qed.

Lemma with_key_nil k ps : with_key k ps = [] <-> k ∉ ps.*2.*1.
Proof.
  unfold with_key. induction ps as [|x ps IH]; simpl; [set_solver|]. rewrite not_elem_of_cons, <- IH.
  destruct (decide (x.2.1 = k)) as [Hk|Hk]; [rewrite filter_cons_True by done|rewrite filter_cons_False by done]; naive_solver.
Qed.

Lemma with_key_head k ps x : head (with_key k ps) = Some x ->
  exists ps1 ps2, ps = ps1 ++ x :: ps2 /\ with_key k ps1 = [] /\ x.2.1 = k.
Proof.
  unfold with_key. induction ps as [|y ps IH]; [done|].
  destruct (decide (y.2.1 = k)) as [Hk|Hk]; [rewrite filter_cons_True by done|rewrite filter_cons_False by done].
  - intros [= ->]. by exists [], ps.
  - intros (ps1 & ps2 & -> & Hn & Hx)%IH. exists (y :: ps1), ps2. rewrite filter_cons_False by done. done.
Qed.

Lemma with_key_app k ps1 ps2 : with_key k (ps1 ++ ps2) = with_key k ps1 ++ with_key k ps2.
Proof. apply filter_app. Qed.

Lemma with_key_cons k x ps : with_key k (x :: ps) = (if decide (x.2.1 = k) then [x] else []) ++ with_key k ps.
Proof.
  unfold with_key. case_decide; [by rewrite filter_cons_True|by rewrite filter_cons_False].
Qed.

Lemma with_key_remove k x ps : with_key k (filter (fun y => y <> x) ps) = filter (fun y => y <> x) (with_key k ps).
Proof. unfold with_key. rewrite !list_filter_filter. apply list_filter_iff. tauto. Qed.

(** moving the first entry of its key to the front keeps the order of every key *)
Lemma with_key_move k x ps1 ps2 : with_key x.2.1 ps1 = [] -> with_key k (x :: ps1 ++ ps2) = with_key k (ps1 ++ x :: ps2).
Proof.
  intros Hx. rewrite !with_key_cons, !with_key_app, with_key_cons. case_decide as Hk; [|done].
  subst k. by rewrite Hx.
Qed.

Lemma remove_first_mid k d (l1 l2 : list item) : k ∉ l1.*1 -> remove_first k (l1 ++ (k, d) :: l2) = l1 ++ l2.
Proof.
  induction l1 as [|x l1 IH]; simpl; [by rewrite streq_refl|]. rewrite not_elem_of_cons. intros [Hne Hni].
  rewrite IH by done. by rewrite (proj2 (streq_false _ _)) by done.
Qed.

(** ** Lemmas: the recency list *)

(** what the chains see of an entry *)
Definition chain_view (e : cache_entry_t) : string * bytes * Z * ptr := (key e, data e, esize e, next e).

(** what the operations on the recency list leave alone *)
Record same_chains (c c' : cache_t) : Prop := {
  sc_table : hash_table c' = hash_table c;
  sc_buckets : bucket_count c' = bucket_count c;
  sc_current : current_size c' = current_size c;
  sc_max : max_size c' = max_size c;
  sc_mutex : cache_mutex c' = cache_mutex c;
  sc_view : forall p, chain_view <$> entries c' !! p = chain_view <$> entries c !! p;
}.

Lemma same_chains_refl c : same_chains c c.
Proof. by constructor. Qed.

Lemma same_chains_trans c1 c2 c3 : same_chains c1 c2 -> same_chains c2 c3 -> same_chains c1 c3.
Proof. intros [] []. constructor; intros; congruence. Qed.

Lemma same_chains_dom c c' : same_chains c c' -> dom (entries c') = dom (entries c).
Proof.
  intros H. apply set_eq. intros p. rewrite !elem_of_dom, <- !(fmap_is_Some chain_view). by rewrite (sc_view _ _ H).
Qed.

Lemma same_chains_sized c c' : same_chains c c' -> sized c -> sized c'.
Proof.
  intros H Hs p e He. pose proof (sc_view _ _ H p) as Hv. rewrite He in Hv.
  destruct (entries c !! p) as [e0|] eqn:He0; [|done]. injection Hv as _ Hd Hz _. rewrite Hz, Hd. by apply (Hs p).
Qed.

Lemma view_alter_ptr f p (h : gmap loc cache_entry_t) q : (forall e, chain_view (f e) = chain_view e) ->
  chain_view <$> alter_ptr f p h !! q = chain_view <$> h !! q.
Proof.
  intros Hf. destruct p as [p|]; [|done]. simpl. rewrite lookup_alter. case_decide; [|done]. subst.
  destruct (h !! q); simpl; [by rewrite Hf|done].
Qed.

Lemma view_insert (h : gmap loc cache_entry_t) p e e' q : h !! p = Some e -> chain_view e' = chain_view e ->
  chain_view <$> <[p := e']> h !! q = chain_view <$> h !! q.
Proof. intros He Hv. rewrite lookup_insert. case_decide; [|done]. subst. rewrite He. simpl. by rewrite Hv. Qed.

Lemma view_unlink pv nx (h : gmap loc cache_entry_t) q : chain_view <$> unlink pv nx h !! q = chain_view <$> h !! q.
Proof. unfold unlink. by rewrite !view_alter_ptr. Qed.

Lemma view_push_front p nx (h : gmap loc cache_entry_t) q :
  chain_view <$> push_front p nx h !! q = chain_view <$> h !! q.
Proof.
  unfold push_front. rewrite view_alter_ptr by done.
  etransitivity; [by apply (view_alter_ptr _ (Some p))|by apply (view_alter_ptr _ (Some p))].
Qed.

Lemma when_some_eq p f c : (forall q, p = Some q -> is_Some (entries c !! q)) ->
  when_some p f c = Done (tt, set_entries (alter_ptr f p (entries c)) c).
Proof.
  intros H. destruct p as [q|]; [|by destruct c]. destruct (H q eq_refl) as [e He].
  unfold when_some, update. simpl. by rewrite He.
Qed.

(** one step of a command *)
Ltac step := erewrite cmd_bind_eq;
  [|first [apply load_ok; simpl; eassumption | eapply update_ok; simpl; eassumption | reflexivity]];
  cbv beta.

Lemma linked_some c ps q : linked c ps -> q ∈ ps.*1 -> is_Some (entries c !! q).
Proof.
  intros (_ & _ & Hd & _) (x & -> & Hx)%list_elem_of_fmap.
  destruct (dll_elem _ _ _ _ _ Hd Hx) as (e & He & _). eauto.
Qed.

Lemma link_front_ok c ps x e : linked c ps -> entries c !! x.1 = Some e -> pay e = x.2 -> x.1 ∉ ps.*1 ->
  exists c', link_front (Some x.1) c = Done (tt, c') /\ linked c' (x :: ps) /\ same_chains c c'.
Proof.
  intros Hl He Hp Hni. pose proof Hl as (Hh & Ht & Hd & Hn).
  assert (NoDup (x :: ps).*1) as Hn' by (rewrite fmap_cons; by constructor).
  assert (forall f : cache_entry_t -> cache_entry_t, is_Some (alter f x.1 (entries c) !! x.1)) as Hf
    by (intros f; rewrite lookup_alter_eq, He; eauto).
  destruct c as [h t hd tl bc cs ms m]. simpl in *. subst hd tl.
  exists (mkCache (push_front x.1 (firstp ps None) h) t (Some x.1) (lastp (x :: ps) None) bc cs ms m).
  split; [|split; [split_and!; [done|done|by apply dll_push_front with e|done]|
                   by constructor; try done; intros; apply view_push_front]].
  unfold link_front. step. step. destruct (Hf (set_lru_prev None)) as [e1 He1]. step.
  set (h2 := alter (set_lru_next (firstp ps None)) x.1 (alter (set_lru_prev None) x.1 h)).
  assert (push_front x.1 (firstp ps None) h = alter_ptr (set_lru_prev (Some x.1)) (firstp ps None) h2) as ->.
  { unfold push_front, h2. f_equal. simpl. by rewrite !alter_alter_eq. }
  erewrite cmd_bind_eq; [|apply when_some_eq; intros q Hq; simpl in *; unfold h2; rewrite !lookup_alter_is_Some;
    apply firstp_elem in Hq; exact (linked_some _ _ _ Hl Hq)].
  step. step. simpl. rewrite lastp_cons. destruct ps as [|y ps]; [done|]. rewrite !lastp_cons.
  destruct ps as [|z ps _] using rev_ind; [done|]. by rewrite lastp_snoc.
Qed.

(** taking out an entry that is not the first one *)
Lemma unlink_entry_ok c y ps1 x ps2 : linked c (y :: ps1 ++ x :: ps2) ->
  exists c', unlink_entry (Some x.1) c = Done (tt, c') /\ linked c' (y :: ps1 ++ ps2) /\ same_chains c c' /\
    entries c' !! x.1 = entries c !! x.1.
Proof.
  rewrite !app_comm_cons. set (ps := y :: ps1). intros Hl. pose proof Hl as (Hh & Ht & Hd & Hn).
  pose proof Hn as Hn0. rewrite fmap_app, fmap_cons in Hn0. pose proof Hn0 as (Hn1 & Hni & [Hx2 Hn2]%NoDup_cons)%NoDup_app.
  destruct (dll_lookup _ _ _ _ _ _ Hd) as (e & He & _ & Hpv & Hnx). simpl in Hpv, Hnx.
  destruct (dll_unlink _ _ _ _ Hd Hn) as [Hun Hux].
  assert (forall q, lru_prev e = Some q -> is_Some (entries c !! q)) as Hq1.
  { intros q Hq. rewrite Hpv in Hq. apply lastp_elem in Hq. apply (linked_some _ _ _ Hl). rewrite fmap_app. set_solver. }
  assert (forall q, lru_next e = Some q -> is_Some (entries c !! q)) as Hq2.
  { intros q Hq. rewrite Hnx in Hq. apply firstp_elem in Hq. apply (linked_some _ _ _ Hl). rewrite fmap_app, fmap_cons. set_solver. }
  assert (alter_ptr (set_lru_next (lru_next e)) (lru_prev e) (entries c) !! x.1 = Some e) as He1.
  { rewrite lookup_alter_ptr_ne; [done|]. rewrite Hpv. intros Hq%lastp_elem. apply (Hni _ Hq). by left. }
  exists (mkCache (unlink (lastp ps None) (firstp ps2 None) (entries c)) (hash_table c) (lru_head c)
    (lastp (ps ++ ps2) None) (bucket_count c) (current_size c) (max_size c) (cache_mutex c)).
  split_and!; [|split_and!; [done|done|done|]|constructor; try done; intros; apply view_unlink|done].
  - unfold unlink_entry. step. rewrite (cmd_bind_eq _ _ _ _ _ (when_some_eq _ _ c Hq1)). step.
    erewrite cmd_bind_eq; [|apply when_some_eq; intros q Hq; simpl; destruct (lru_prev e) as [r|]; simpl;
      [rewrite lookup_alter_is_Some|]; by apply Hq2].
    simpl set_entries. change (alter_ptr _ _ (alter_ptr _ _ (entries c))) with (unlink (lru_prev e) (lru_next e) (entries c)).
    rewrite Hpv, Hnx. rewrite He in Hux. step. step. cbn [lru_tail set_entries].
    rewrite Ht, !lastp_app, lastp_cons. destruct ps2 as [|z ps2].
    + rewrite decide_True by done. by rewrite Hpv.
    + rewrite lastp_cons, <- (lastp_cons ps2 z None). rewrite decide_False.
      * rewrite !lastp_cons, <- (lastp_cons ps2 z (Some x.1)), <- (lastp_cons _ x (lastp ps None)), <- lastp_app, <- Ht.
        by destruct c.
      * intros Hq. symmetry in Hq. by apply lastp_elem in Hq.
  - rewrite fmap_app. apply NoDup_app. split_and!; [done| |done]. intros z Hz%Hni. set_solver.
Qed.

Lemma move_to_front_ok c ps1 x ps2 : linked c (ps1 ++ x :: ps2) ->
  exists c', move_to_front (Some x.1) c = Done (tt, c') /\ linked c' (x :: ps1 ++ ps2) /\ same_chains c c'.
Proof.
  intros Hl. pose proof Hl as (Hh & _ & Hd & Hn). unfold move_to_front. step.
  destruct ps1 as [|y ps1]; [rewrite decide_True by done; by exists c|].
  rewrite fmap_app, !fmap_cons in Hn. apply NoDup_app in Hn as (_ & Hni & [Hx2 _]%NoDup_cons).
  rewrite decide_False by (rewrite Hh; simpl; intros [= Heq]; apply (Hni y.1); [by left|]; rewrite <- Heq; by left).
  destruct (dll_lookup _ _ _ _ _ _ Hd) as (e & He & Hp & _).
  destruct (unlink_entry_ok c y ps1 x ps2 Hl) as (c1 & H1 & Hl1 & Hs1 & Hx).
  rewrite (cmd_bind_eq _ _ _ _ _ H1). rewrite He in Hx.
  destruct (link_front_ok c1 (y :: ps1 ++ ps2) x e Hl1 Hx Hp) as (c2 & H2 & Hl2 & Hs2).
  - rewrite app_comm_cons, fmap_app, not_elem_of_app. split; [|done]. intros Hq. apply (Hni _ Hq). by left.
  - exists c2. split_and!; [done|done|by apply same_chains_trans with c1].
Qed.

(** ** Lemmas: the chains *)

Lemma sll_view (h h' : gmap loc cache_entry_t) (l : list (loc * item)) e :
  (forall p, p ∈ l.*1 -> chain_view <$> h' !! p = chain_view <$> h !! p) -> sll h l e -> sll h' l e.
Proof.
  intros Hv. apply sll_same. intros p v Hp Hl. specialize (Hv p Hp). rewrite Hl in Hv.
  destruct (h' !! p) as [v'|]; [|done]. injection Hv as H1 H2 _ H4. exists v'. simpl. by rewrite H1, H2, H4.
Qed.

Lemma chained_same c c' ps : same_chains c c' -> chained c ps -> chained c' ps.
Proof.
  intros H (bs & Ht & Hl & Hb). exists bs. rewrite (sc_table _ _ H), (sc_buckets _ _ H).
  split_and!; [done..|]. intros i b Hi. destruct (Hb i b Hi) as (Hs & Hr). unfold chain_ok.
  rewrite (sc_buckets _ _ H). split; [|done]. revert Hs. apply sll_view. intros p _. apply (sc_view _ _ H).
Qed.

Lemma chained_order c ps ps' : (forall k, with_key k ps' = with_key k ps) -> chained c ps -> chained c ps'.
Proof.
  intros H (bs & Ht & Hl & Hb). exists bs. split_and!; [done..|]. intros i b Hi.
  destruct (Hb i b Hi) as (? & ? & ? & Hk). split_and!; [done..|]. intros k Hh. rewrite H. by apply Hk.
Qed.

(** the bucket of a key *)
Lemma chained_bucket c ps k : chained c ps -> 0 < bucket_count c -> exists i b,
  hash_key k (bucket_count c) = Z.of_nat i /\ chain_ok c ps i b /\
  arr_get (hash_table c) (hash_key k (bucket_count c)) = Done (firstp b None) /\ with_key k b = with_key k ps.
Proof.
  intros (bs & Ht & Hl & Hb) Hc. pose proof (Z.mod_pos_bound (hash_loop 5381 k) (bucket_count c) Hc) as Hh.
  unfold hash_key. set (i := Z.to_nat (hash_loop 5381 k `mod` bucket_count c)).
  assert (hash_loop 5381 k `mod` bucket_count c = Z.of_nat i) as Hi by lia. rewrite Hi.
  destruct (lookup_lt_is_Some_2 bs i) as [b Hbi]; [lia|]. exists i, b.
  destruct (Hb i b Hbi) as (H1 & H2 & H3 & H4). split_and!; [done..| |by apply H4].
  apply arr_get_Done. split; [lia|]. rewrite Nat2Z.id, Ht, list_lookup_fmap. by rewrite Hbi.
Qed.

Lemma elem_of_with_key x ps : x ∈ ps <-> x ∈ with_key x.2.1 ps.
Proof. unfold with_key. rewrite list_elem_of_filter. tauto. Qed.

Lemma chain_sub c ps i b x : chain_ok c ps i b -> x ∈ b -> x ∈ ps.
Proof.
  intros (_ & _ & Hh & Hk) Hx. apply (proj2 (elem_of_with_key x ps)). rewrite <- (Hk _ (Hh x Hx)).
  by apply (proj1 (elem_of_with_key x b)).
Qed.

(** an entry is in one chain only *)
Lemma chain_disjoint c ps i j b b' p : NoDup ps.*1 -> chain_ok c ps i b -> chain_ok c ps j b' ->
  p ∈ b.*1 -> p ∈ b'.*1 -> i = j.
Proof.
  intros Hn Hb Hb' (x & -> & Hx)%list_elem_of_fmap (y & Hxy & Hy)%list_elem_of_fmap.
  assert (x = y) as <-.
  { pose proof (chain_sub _ _ _ _ _ Hb Hx) as (n & Hn1)%list_elem_of_lookup.
    pose proof (chain_sub _ _ _ _ _ Hb' Hy) as (m & Hm1)%list_elem_of_lookup.
    assert (n = m) as ->; [|congruence]. eapply (NoDup_lookup ps.*1); [done|..]; rewrite list_lookup_fmap.
    - by rewrite Hn1. - by rewrite Hm1, Hxy. }
  destruct Hb as (_ & _ & H1 & _), Hb' as (_ & _ & H2 & _). specialize (H1 _ Hx). specialize (H2 _ Hy). lia.
Qed.

Lemma find_entry_ok fuel k b c : sll (entries c) b None -> (length b <= fuel)%nat ->
  find_entry fuel k (firstp b None) c = Done (fst <$> head (with_key k b), c).
Proof.
  revert fuel. induction b as [|x b IH]; intros fuel; [by destruct fuel|].
  intros [(e & He & Hp & Hn) Hb] Hf. destruct fuel as [|fuel]; [simpl in Hf; lia|].
  cbn [firstp find_entry]. step. assert (key e = x.2.1) as -> by (by rewrite <- Hp).
  unfold with_key. destruct (streq x.2.1 k) eqn:Hk.
  - apply streq_spec in Hk. by rewrite filter_cons_True.
  - apply streq_false in Hk. rewrite filter_cons_False by done. simpl in Hn. rewrite Hn. apply IH; [done|simpl in Hf; lia].
Qed.

Definition slot_at (s : slot) (b : list (loc * item)) : slot :=
  match lastp b None with None => s | p => NextOf p end.

Lemma slot_at_cons s x b : slot_at s (x :: b) = slot_at (NextOf (Some x.1)) b.
Proof. unfold slot_at. rewrite lastp_cons. destruct b as [|y b _] using rev_ind; [done|]. by rewrite !lastp_snoc. Qed.

Lemma find_slot_ok fuel s c b1 x b2 : read_slot s c = Done (firstp (b1 ++ x :: b2) None, c) ->
  sll (entries c) (b1 ++ x :: b2) None -> x.1 ∉ b1.*1 -> (length b1 <= fuel)%nat ->
  find_slot fuel s (Some x.1) c = Done (slot_at s b1, c) /\ read_slot (slot_at s b1) c = Done (Some x.1, c).
Proof.
  revert fuel s. induction b1 as [|y b1 IH]; intros fuel s Hr Hs Hni Hf.
  - split; [|done]. destruct fuel; cbn [find_slot]; rewrite (cmd_bind_eq _ _ _ _ _ Hr), decide_True by (by right); done.
  - rewrite fmap_cons, not_elem_of_cons in Hni. destruct Hni as [Hne Hni]. destruct fuel as [|fuel]; [simpl in Hf; lia|].
    cbn [find_slot]. rewrite (cmd_bind_eq _ _ _ _ _ Hr), slot_at_cons. simpl firstp.
    rewrite decide_False by naive_solver. destruct Hs as [(e & He & _ & Hn) Hs].
    apply IH; [|done|done|simpl in Hf; lia]. cbn [read_slot]. step. simpl in Hn. by rewrite Hn.
Qed.

(** what the recency list sees of an entry *)
Definition list_view (e : cache_entry_t) : string * bytes * Z * ptr * ptr :=
  (key e, data e, esize e, lru_prev e, lru_next e).

(** [*current = victim->next]: the chain without the victim *)
Lemma write_slot_ok c i b1 x b2 : sll (entries c) (b1 ++ x :: b2) None -> NoDup (b1 ++ x :: b2).*1 ->
  Z.of_nat i < Z.of_nat (length (hash_table c)) -> hash_table c !! i = Some (firstp (b1 ++ x :: b2) None) ->
  exists h, write_slot (slot_at (Bucket (Z.of_nat i)) b1) (firstp b2 None) c =
    Done (tt, set_entries h (set_table (<[i := firstp (b1 ++ b2) None]> (hash_table c)) c)) /\
    sll h (b1 ++ b2) None /\ (forall p, p ∉ b1.*1 -> h !! p = entries c !! p) /\
    (forall p, list_view <$> h !! p =
               list_view <$> entries c !! p).
Proof.
  intros Hs Hn Hi Ht. destruct b1 as [|y b1 _] using rev_ind.
  - exists (entries c). split_and!; try done; [|apply sll_app in Hs; by destruct Hs as [_ [_ ?]]].
    unfold slot_at. cbn [write_slot lastp last]. unfold mbind, cmd_bind, lift, get. rewrite arr_set_in by lia.
    rewrite Nat2Z.id. by destruct c.
  - unfold slot_at. rewrite lastp_snoc. cbn [write_slot].
    rewrite <- app_assoc, fmap_app in Hn. simpl in Hn. apply NoDup_app in Hn as (_ & Hd & [Hy _]%NoDup_cons).
    rewrite <- app_assoc in Hs. apply sll_app in Hs as [H1 [(e & He & Hp & Hx) [_ H2]]].
    exists (<[y.1 := set_next (firstp b2 None) e]> (entries c)). split_and!.
    + unfold update. cbn [heap_of with_heap cache_heap]. rewrite He. f_equal. f_equal. unfold set_entries, set_table. simpl.
      f_equal; [|by rewrite list_insert_id; [|rewrite Ht; by destruct b1]].
      apply map_eq. intros q. rewrite lookup_alter, lookup_insert. case_decide; [|done]. subst. by rewrite He.
    + rewrite <- app_assoc. apply sll_app. split; [|split; [exists (set_next (firstp b2 None) e); by rewrite lookup_insert_eq|]].
      * revert H1. apply sll_frame. intros q Hq. rewrite lookup_insert_ne; [done|]. intros <-. apply (Hd _ Hq). by left.
      * revert H2. apply sll_frame. intros q Hq. rewrite lookup_insert_ne; [done|]. intros <-. apply Hy. by right.
    + intros q Hq. rewrite lookup_insert_ne; [done|]. intros <-. apply Hq. rewrite fmap_app. set_solver.
    + intros q. rewrite lookup_insert. case_decide; [|done]. subst. by rewrite He.
Qed.

Lemma dll_view (h h' : gmap loc cache_entry_t) pv (l : list (loc * item)) nx :
  (forall p, list_view <$> h' !! p = list_view <$> h !! p) -> dll h pv l nx -> dll h' pv l nx.
Proof.
  intros Hv. apply dll_same. intros p v Hp Hl. specialize (Hv p). rewrite Hl in Hv.
  destruct (h' !! p) as [v'|]; [|done]. injection Hv as H1 H2 _ H4 H5. exists v'. simpl. by rewrite H1, H2, H4, H5.
Qed.

(** the chains after an entry has left one of them and was freed *)
Lemma chained_remove c bs ps x i b1 b2 h :
  NoDup (ps ++ [x]).*1 -> Z.of_nat (length bs) = bucket_count c ->
  (forall j b, bs !! j = Some b -> chain_ok c (ps ++ [x]) j b) -> bs !! i = Some (b1 ++ x :: b2) ->
  sll h (b1 ++ b2) None -> (forall p, p ∉ b1.*1 -> h !! p = entries c !! p) ->
  chained (set_entries (delete x.1 h) (set_table ((fun b => firstp b None) <$> <[i := b1 ++ b2]> bs) c)) ps.
Proof.
  intros Hn Hl Hb Hi Hs Hf. pose proof (Hb _ _ Hi) as (_ & Hnd & Hh & Hk).
  exists (<[i := b1 ++ b2]> bs). split_and!; [done|by rewrite length_insert|].
  pose proof Hnd as Hnd0. rewrite fmap_app, fmap_cons in Hnd0. apply NoDup_app in Hnd0 as (Hn1 & Hd & [Hx2 Hn2]%NoDup_cons).
  assert (x.1 ∉ (b1 ++ b2).*1) as Hx.
  { rewrite fmap_app, not_elem_of_app. split; [|done]. intros Hq. apply (Hd _ Hq). by left. }
  intros j b Hj. rewrite list_lookup_insert in Hj. case_decide as Hij.
  - destruct Hij as [<- _]. injection Hj as <-. split_and!; simpl.
    + revert Hs. apply sll_frame. intros p Hp. rewrite lookup_delete_ne; [done|congruence].
    + rewrite fmap_app. apply NoDup_app. split_and!; [done| |done]. intros q Hq%Hd. set_solver.
    + intros y Hy. apply Hh. set_solver.
    + intros k Hki. specialize (Hk k Hki). apply NoDup_fmap_1 in Hn, Hnd.
      rewrite <- (filter_ne_mid x b1 b2) by done. rewrite <- (app_nil_r ps), <- (filter_ne_mid x ps []) by done.
      by rewrite !with_key_remove, Hk.
  - pose proof (Hb _ _ Hj) as Hbj. destruct Hbj as (Hs' & Hnd' & Hh' & Hk').
    assert (forall p, p ∈ b.*1 -> p ∉ (b1 ++ x :: b2).*1) as Hdis.
    { intros p Hp Hp'. assert (i = j); [|apply lookup_lt_Some in Hi; naive_solver].
      by apply (chain_disjoint c (ps ++ [x]) i j _ b p Hn (Hb _ _ Hi) (Hb _ _ Hj)). }
    split_and!; simpl; [|done|done|].
    + revert Hs'. apply sll_frame. intros p Hp%Hdis. rewrite fmap_app, fmap_cons in Hp. rewrite lookup_delete_ne by set_solver.
      apply Hf. set_solver.
    + intros k Hki. rewrite (Hk' k Hki), with_key_app, with_key_cons. case_decide as Hkx; [|by rewrite app_nil_r].
      exfalso. assert (i = j); [|apply lookup_lt_Some in Hi; naive_solver].
      specialize (Hh x ltac:(set_solver)). rewrite Hkx in Hh. lia.
Qed.

Lemma unchain_ok c ps x e : chained c (ps ++ [x]) -> NoDup (ps ++ [x]).*1 -> 0 < bucket_count c ->
  entries c !! x.1 = Some e -> pay e = x.2 ->
  exists h t, unchain (key e) (Some x.1) c = Done (tt, set_entries h (set_table t c)) /\
    h !! x.1 = Some e /\ (forall p, list_view <$> h !! p = list_view <$> entries c !! p) /\
    chained (set_entries (delete x.1 h) (set_table t c)) ps.
Proof.
  intros (bs & Ht & Hl & Hb) Hn Hbc He Hp. assert (key e = x.2.1) as Hke by (by rewrite <- Hp).
  pose proof (Z.mod_pos_bound (hash_loop 5381 x.2.1) (bucket_count c) Hbc) as Hh.
  assert (exists i, hash_key x.2.1 (bucket_count c) = Z.of_nat i) as [i Hi].
  { exists (Z.to_nat (hash_key x.2.1 (bucket_count c))). unfold hash_key. lia. }
  destruct (lookup_lt_is_Some_2 bs i) as [b Hbi]; [unfold hash_key in Hi; lia|].
  pose proof (Hb _ _ Hbi) as (Hs & Hnd & Hhb & Hk).
  assert (x ∈ b) as Hx.
  { apply (proj2 (elem_of_with_key x b)). rewrite Hk by done. apply (proj1 (elem_of_with_key x _)). set_solver. }
  apply list_elem_of_split in Hx as (b1 & b2 & ->).
  assert (hash_table c !! i = Some (firstp (b1 ++ x :: b2) None)) as Hti by (by rewrite Ht, list_lookup_fmap, Hbi).
  destruct (write_slot_ok c i b1 x b2 Hs Hnd) as (h & Hw & Hsl & Hf & Hv);
    [apply lookup_lt_Some in Hti; lia|done|].
  pose proof Hnd as Hnd0. rewrite fmap_app, fmap_cons in Hnd0. apply NoDup_app in Hnd0 as (_ & Hd & _).
  assert (x.1 ∉ b1.*1) as Hx1 by (intros Hq; apply (Hd _ Hq); by left).
  destruct (find_slot_ok (size (entries c)) (Bucket (Z.of_nat i)) c b1 x b2) as [Hfs Hrs]; [|done|done| |].
  { cbn [read_slot]. step. unfold lift. by rewrite (proj2 (arr_get_Done _ _ _)) by (rewrite Nat2Z.id; split; [lia|done]). }
  { pose proof (sll_fuel _ _ _ Hs Hnd) as Hfu. rewrite length_app in Hfu. simpl in *. lia. }
  exists h, (<[i := firstp (b1 ++ b2) None]> (hash_table c)). split_and!; [| |done|].
  - unfold unchain. step. rewrite Hke, Hi, (cmd_bind_eq _ _ _ _ _ Hfs), (cmd_bind_eq _ _ _ _ _ Hrs). step.
    apply sll_app in Hs as [_ [(e' & He' & _ & Hnx) _]]. simpl in Hnx. assert (e' = e) as -> by congruence. by rewrite Hnx.
  - by rewrite Hf.
  - pose proof (list_fmap_insert (fun b : list (loc * item) => firstp b None) bs i (b1 ++ b2)) as Hfi. cbv beta in Hfi.
    rewrite Ht, <- Hfi. by apply chained_remove with (i := i) (b1 := b1) (b2 := b2).
Qed.

(** ** Lemmas: the cache *)

(** the fields that no operation changes *)
Definition same_params (c c' : cache_t) : Prop :=
  bucket_count c' = bucket_count c /\ max_size c' = max_size c /\ cache_mutex c' = cache_mutex c.

Lemma drop_tail_ok c ps x e : linked c (ps ++ [x]) -> entries c !! x.1 = Some e ->
  exists c', drop_tail e c = Done (tt, c') /\ linked c' ps /\ same_chains c c' /\ entries c' !! x.1 = Some e.
Proof.
  intros Hl He. pose proof Hl as (Hh & Ht & Hd & Hn).
  destruct (dll_lookup _ _ _ _ _ _ Hd) as (e' & He' & _ & Hpv & _). simpl in Hpv. rewrite He in He'. injection He' as <-.
  apply dll_app in Hd as [Hd _]. rewrite fmap_app in Hn. apply NoDup_app in Hn as (Hn & Hni & _).
  exists (mkCache (alter_ptr (set_lru_next None) (lastp ps None) (entries c)) (hash_table c) (firstp ps None) (lastp ps None)
    (bucket_count c) (current_size c) (max_size c) (cache_mutex c)).
  split_and!; [|split_and!; [done|done|exact (dll_alter_last _ _ _ _ None Hd Hn)|done]| |].
  - unfold drop_tail. step. rewrite Hpv. destruct ps as [|y ps _] using rev_ind.
    + simpl. unfold modify. by destruct c.
    + rewrite lastp_snoc. unfold update. cbn [heap_of cache_heap set_tail entries].
      destruct (linked_some _ _ y.1 Hl) as [ey Hy]; [rewrite !fmap_app; set_solver|]. rewrite Hy.
      unfold set_entries, set_tail. simpl. rewrite Hh. by destruct ps.
  - constructor; try done. intros p. by apply view_alter_ptr.
  - simpl. rewrite lookup_alter_ptr_ne; [done|]. intros Hq%lastp_elem. apply (Hni _ Hq). by left.
Qed.

Lemma u64_total c l : repr c l -> u64 (current_size c) = total l.
Proof.
  intros [_ _ Hc Hf Hm _]. pose proof (total_nonneg l). rewrite Hc, u64_small; [done|]. lia.
Qed.

Lemma evict_lru_ok c l it : repr c (l ++ [it]) ->
  exists c', evict_lru c = Done (tt, c') /\ repr c' l /\ same_params c c'.
Proof.
  intros [(ps0 & Hl & Hch & Hps & Hdom) Hsz Hcur Hfit Hmax Hbc].
  apply fmap_app_inv in Hps as (ps & ps1 & -> & Hps1 & ->). destruct ps1 as [|x [|]]; try done. injection Hps1 as ->.
  pose proof Hl as (Hh & Ht & Hd & Hn). rewrite lastp_snoc in Ht.
  destruct (dll_lookup _ _ _ _ _ _ Hd) as (e & He & Hp & _).
  destruct (drop_tail_ok _ _ _ _ Hl He) as (c1 & H1 & Hl1 & Hs1 & He1).
  apply (chained_same _ _ _ Hs1) in Hch. pose proof (same_chains_dom _ _ Hs1) as Hdom1.
  pose proof (same_chains_sized _ _ Hs1 Hsz) as Hsz1. destruct Hs1 as [_ Hb1 Hc1 Hm1 Hx1 _].
  destruct (unchain_ok c1 ps x e Hch Hn) as (h & t & H2 & Hhx & Hv & Hch2); [by rewrite Hb1|done|done|].
  assert (dom h = dom (entries c1)) as Hdomh.
  { apply set_eq. intros p. by rewrite !elem_of_dom, <- !(fmap_is_Some list_view), Hv. }
  set (c2 := set_entries (delete x.1 h) (set_current (u64 (current_size c1 - esize e)) (set_table t c1))).
  exists c2. split; [|split; [|by split_and!]].
  - unfold evict_lru. step. rewrite Ht. step. rewrite (cmd_bind_eq _ _ _ _ _ H1), (cmd_bind_eq _ _ _ _ _ H2). step.
    rewrite (free_ok _ x.1 e) by done. done.
  - rewrite total_app, total_cons in Hcur, Hfit. change (total []) with 0 in *. pose proof (total_nonneg ps.*2).
    assert (x.1 ∉ ps.*1) as Hxps.
    { rewrite fmap_app in Hn. apply NoDup_app in Hn as (_ & Hn & _). intros Hq. apply (Hn _ Hq). by left. }
    split; simpl; [|..].
    + exists ps. split_and!; [|exact Hch2|done|].
      * destruct Hl1 as (? & ? & Hd1 & ?). split_and!; [done|done| |done]. simpl. apply dll_frame_delete; [done|].
        by apply (dll_view (entries c1)).
      * rewrite dom_delete_L, Hdomh, Hdom1, Hdom, fmap_app, list_to_set_app_L. set_solver.
    + intros p ep Hep. simpl in Hep. apply lookup_delete_Some in Hep as [_ Hep]. specialize (Hv p). rewrite Hep in Hv.
      destruct (entries c1 !! p) as [e1|] eqn:Hp1; [|done]. injection Hv as _ Hda Hes _ _. rewrite Hes, Hda. by apply (Hsz1 p).
    + assert (data e = x.2.2) as Hde by (by rewrite <- Hp). rewrite (Hsz1 _ _ He1), Hc1, Hcur, Hde, u64_small; lia.
    + rewrite Hm1. lia. + by rewrite Hm1. + by rewrite Hb1.
Qed.

Lemma make_room_ok fuel size c l : repr c l -> 0 <= size <= max_size c -> (length l <= fuel)%nat ->
  exists c', make_room fuel size c = Done (tt, c') /\ repr c' (keep (max_size c - size) l) /\ same_params c c'.
Proof.
  revert fuel c. induction l as [|it l IH] using rev_ind; intros fuel c Hr Hs Hf;
    pose proof (r_current _ _ Hr) as Hc; pose proof (r_fits _ _ Hr) as Hfit; pose proof (r_max _ _ Hr) as Hmax.
  - exists c. split_and!; [|done|done]. destruct fuel; cbn [make_room]; step; rewrite Hc; change (total []) with 0;
      rewrite u64_small by lia; zcases; (lia || done).
  - pose proof (total_nonneg (l ++ [it])). rewrite length_app in Hf. simpl in Hf. destruct fuel as [|fuel]; [lia|].
    cbn [make_room]. step. rewrite Hc, u64_small by lia. zcases.
    + destruct (evict_lru_ok _ _ _ Hr) as (c1 & H1 & Hr1 & Hb1 & Hm1 & Hx1). rewrite (cmd_bind_eq _ _ _ _ _ H1).
      rewrite keep_snoc by lia. rewrite <- Hm1. destruct (IH fuel c1) as (c2 & H2 & Hr2 & Hp2); [done|by rewrite Hm1|lia|].
      exists c2. split_and!; [done|done|]. unfold same_params in *. naive_solver congruence.
    + rewrite keep_all by lia. by exists c.
Qed.

Lemma lock_cache_ok c : cache_mutex c = false -> lock_cache c = Done (tt, set_held true c).
Proof. intros H. unfold lock_cache, mbind, cmd_bind, get, lift. simpl. by rewrite H. Qed.

Lemma unlock_cache_ok c : cache_mutex c = true -> unlock_cache c = Done (tt, set_held false c).
Proof. intros H. unfold unlock_cache, mbind, cmd_bind, get, lift. simpl. by rewrite H. Qed.

Lemma repr_set_held m c l : repr c l -> repr (set_held m c) l.
Proof. intros [? ? ? ? ? ?]. by split. Qed.

Lemma repr_fuel c l : repr c l -> size (entries c) = length l.
Proof.
  intros [(ps & (_ & _ & _ & Hn) & _ & <- & Hd) _ _ _ _ _].
  by rewrite <- size_dom, Hd, size_list_to_set, !length_fmap.
Qed.

Lemma touch_entry_ok now c ps p : linked c ps -> p ∈ ps.*1 ->
  exists c', update (Some p) (touch now) c = Done (tt, c') /\ linked c' ps /\ same_chains c c'.
Proof.
  intros Hl Hp. destruct (linked_some _ _ _ Hl Hp) as [e He]. destruct Hl as (? & ? & Hd & ?).
  exists (set_entries (alter (touch now) p (entries c)) c). split_and!; [unfold update; simpl; by rewrite He|split_and!; try done|].
  - revert Hd. apply dll_view. intros q. simpl. rewrite lookup_alter. case_decide; [|done]. subst. by rewrite He.
  - constructor; try done. intros q. by apply (view_alter_ptr _ (Some p)).
Qed.

(** the recency list of a cache in another order, each key in its own *)
Lemma repr_move c c' ps ps' : linked c' ps' -> same_chains c c' -> chained c ps -> sized c ->
  dom (entries c) = list_to_set ps.*1 -> current_size c = total ps.*2 -> total ps.*2 <= max_size c -> max_size c < 2 ^ 63 ->
  0 < bucket_count c -> ps' ≡ₚ ps -> (forall k, with_key k ps' = with_key k ps) -> repr c' ps'.*2.
Proof.
  intros Hl Hs Hch Hsz Hdom Hcur Hfit Hmax Hbc Hp Hk.
  assert (total ps'.*2 = total ps.*2) as Htot by (unfold total; by rewrite Hp).
  split; rewrite ?(sc_current _ _ Hs), ?(sc_max _ _ Hs), ?(sc_buckets _ _ Hs); [| |lia|lia|done|done].
  - exists ps'. split_and!; [done| |done|].
    + apply (chained_same _ _ _ Hs). by apply chained_order with ps.
    + rewrite (same_chains_dom _ _ Hs), Hdom. apply set_eq. intros p. by rewrite !elem_of_list_to_set, Hp.
  - by apply (same_chains_sized c).
Qed.

Lemma cache_get_ok now k c l : repr c l -> cache_mutex c = false ->
  exists c', cache_get now k c = Done ((spec_get k l).1, c') /\ repr c' (spec_get k l).2 /\ same_params c c'.
Proof.
  intros Hr Hm. pose proof (repr_fuel _ _ Hr) as Hfu. apply (repr_set_held true) in Hr. unfold cache_get, spec_get.
  rewrite (cmd_bind_eq _ _ _ _ _ (lock_cache_ok c Hm)). set (c1 := set_held true c) in *. step.
  pose proof Hr as [(ps & Hl & Hch & <- & Hdom) Hsz Hcur Hfit Hmax Hbc].
  destruct (chained_bucket _ _ k Hch Hbc) as (i & b & _ & Hb & Hg & Hk). change (cache_mutex c1) with true in *.
  erewrite cmd_bind_eq; [|unfold lift; by rewrite Hg]. destruct Hb as (Hsl & Hnb & _).
  assert (length b <= size (entries c1))%nat as Hlb by (by apply (sll_fuel _ _ _ Hsl)).
  rewrite (cmd_bind_eq _ _ _ _ _ (find_entry_ok _ k b c1 Hsl Hlb)), Hk.
  destruct (head (with_key k ps)) as [x|] eqn:Hhd; simpl.
  - apply with_key_head in Hhd as (ps1 & ps2 & -> & Hno & <-).
    destruct (touch_entry_ok now c1 _ x.1 Hl) as (c2 & H2 & Hl2 & Hs2); [rewrite fmap_app, fmap_cons; set_solver|].
    rewrite (cmd_bind_eq _ _ _ _ _ H2). destruct (move_to_front_ok _ _ _ _ Hl2) as (c3 & H3 & Hl3 & Hs3).
    pose proof (same_chains_trans _ _ _ Hs2 Hs3) as Hs. rewrite (cmd_bind_eq _ _ _ _ _ H3).
    pose proof Hl3 as (_ & _ & [(e & He & Hp & _) _] & _). step.
    rewrite (cmd_bind_eq _ _ _ _ _ (unlock_cache_ok c3 (sc_mutex _ _ Hs))).
    apply with_key_nil in Hno as Hni. destruct x as [p [k d]]. simpl in *. injection Hp as _ ->.
    rewrite fmap_app, fmap_cons. simpl. rewrite assoc_mid by done. simpl. eexists. split_and!; [done| |].
    + rewrite remove_first_mid, <- fmap_app by done. apply repr_set_held.
      change ((k, d) :: (ps1 ++ ps2).*2) with (((p, (k, d)) :: ps1 ++ ps2).*2).
      eapply repr_move; [exact Hl3|exact Hs|done..| |]; [by rewrite Permutation_middle|].
      intros k'. by apply (with_key_move k' (p, (k, d))).
    + unfold same_params. simpl. rewrite Hm. split; [apply (sc_buckets _ _ Hs)|split; [apply (sc_max _ _ Hs)|done]].
  - assert (k ∉ ps.*2.*1) as Hni by (apply with_key_nil; by destruct (with_key k ps)).
    apply assoc_None in Hni. rewrite Hni. rewrite (cmd_bind_eq _ _ _ _ _ (unlock_cache_ok c1 eq_refl)).
    eexists. split; [done|split; [by apply repr_set_held|by split_and!]].
Qed.

(** a fresh entry in front of its chain *)
Lemma chained_add c ps x i b e bs : linked c ps -> x.1 ∉ ps.*1 -> Z.of_nat (length bs) = bucket_count c ->
  (forall j b, bs !! j = Some b -> chain_ok c ps j b) -> bs !! i = Some b ->
  hash_key x.2.1 (bucket_count c) = Z.of_nat i -> pay e = x.2 -> next e = firstp b None ->
  chained (set_table ((fun b => firstp b None) <$> <[i := x :: b]> bs) (set_entries (<[x.1 := e]> (entries c)) c)) (x :: ps).
Proof.
  intros (_ & _ & _ & Hn) Hni Hl Hb Hi Hh Hp Hx. exists (<[i := x :: b]> bs). split_and!; [done|by rewrite length_insert|].
  assert (forall j b', bs !! j = Some b' -> x.1 ∉ b'.*1) as Hfresh.
  { intros j b' Hj (y & Hxy & Hy)%list_elem_of_fmap. apply Hni. rewrite Hxy. apply list_elem_of_fmap_2.
    by apply (chain_sub _ _ _ _ _ (Hb _ _ Hj)). }
  intros j b' Hj. rewrite list_lookup_insert in Hj. case_decide as Hij.
  - destruct Hij as [<- _]. injection Hj as <-. pose proof (Hfresh _ _ Hi) as Hxb. destruct (Hb _ _ Hi) as (Hs & Hnd & Hhb & Hk).
    split_and!; simpl.
    + exact (sll_cons _ _ _ x e Hs Hxb Hp Hx).
    + by constructor.
    + intros y [->|Hy]%elem_of_cons; [done|by apply Hhb].
    + intros k Hki. by rewrite !with_key_cons, Hk.
  - destruct (Hb _ _ Hj) as (Hs & Hnd & Hhb & Hk). split_and!; simpl; [|done|done|].
    + revert Hs. apply sll_frame. intros p Hp'. rewrite lookup_insert_ne; [done|]. intros <-. by apply (Hfresh _ _ Hj).
    + intros k Hki. rewrite with_key_cons, Hk by done. case_decide as Hkx; [|done].
      exfalso. apply lookup_lt_Some in Hi. rewrite Hkx in Hh. naive_solver lia.
Qed.

Lemma write_table_ok c i p : (i < length (hash_table c))%nat ->
  write_slot (Bucket (Z.of_nat i)) p c = Done (tt, set_table (<[i := p]> (hash_table c)) c).
Proof.
  intros Hi. cbn [write_slot]. unfold mbind, cmd_bind, lift, get. rewrite arr_set_in by lia. by rewrite Nat2Z.id.
Qed.

Lemma add_entry_ok now k d c l : repr c l -> total l + Z.of_nat (length d) <= max_size c ->
  exists c', add_entry now k d (Z.of_nat (length d)) c = Done (tt, c') /\ repr c' ((k, d) :: l) /\ same_params c c'.
Proof.
  intros [(ps & Hl & Hch & <- & Hdom) Hsz Hcur Hfit Hmax Hbc] Hd. pose proof Hch as (bs & Ht & Hlen & Hb).
  pose proof (Z.mod_pos_bound (hash_loop 5381 k) (bucket_count c) Hbc) as Hh.
  assert (exists i, hash_key k (bucket_count c) = Z.of_nat i) as [i Hi].
  { exists (Z.to_nat (hash_key k (bucket_count c))). unfold hash_key. lia. }
  destruct (lookup_lt_is_Some_2 bs i) as [b Hbi]; [unfold hash_key in Hi; lia|].
  assert (hash_table c !! i = Some (firstp b None)) as Hti by (by rewrite Ht, list_lookup_fmap, Hbi).
  set (e := mkEntry k d (Z.of_nat (length d)) now (firstp b None) None None).
  destruct (alloc_ok c e) as (p & Hp & Ha). simpl in Hp, Ha.
  assert (p ∉ ps.*1) as Hpps by (intros Hin; apply not_elem_of_dom in Hp; rewrite Hdom in Hp; set_solver).
  set (x := (p, (k, d)) : loc * item). set (c2 := set_entries (<[p := e]> (entries c)) c).
  pose proof (chained_add c ps x i b e bs Hl Hpps Hlen Hb Hbi Hi eq_refl eq_refl) as Hch3.
  set (c3 := set_table ((fun b => firstp b None) <$> <[i := x :: b]> bs) c2).
  change (chained c3 (x :: ps)) in Hch3.
  destruct (link_front_ok c3 ps x e) as (c4 & H4 & Hl4 & Hs4); [|by apply lookup_insert_eq|done|done|].
  { destruct Hl as (? & ? & Hdl & ?). split_and!; [done|done|by apply dll_frame|done]. }
  exists (set_current (u64 (current_size c4 + Z.of_nat (length d))) c4). split_and!.
  - unfold add_entry. step. rewrite Hi. erewrite cmd_bind_eq;
      [|unfold lift; rewrite (proj2 (arr_get_Done _ _ _)) by (rewrite Nat2Z.id; split; [lia|exact Hti]); done].
    rewrite (cmd_bind_eq _ _ _ _ _ Ha). fold c2. rewrite (cmd_bind_eq _ _ _ tt c3).
    + by rewrite (cmd_bind_eq _ _ _ _ _ H4).
    + rewrite write_table_ok by (simpl; by apply lookup_lt_Some in Hti).
      unfold c3. pose proof (list_fmap_insert (fun b : list (loc * item) => firstp b None) bs i (x :: b)) as Hfi.
      cbv beta in Hfi. rewrite Hfi, <- Ht. done.
  - apply (chained_same _ _ _ Hs4) in Hch3. apply (same_chains_dom _ _) in Hs4 as Hd4. destruct Hl4 as (? & ? & ? & ?).
    pose proof (total_nonneg ps.*2). split; simpl; rewrite ?(sc_current _ _ Hs4), ?(sc_max _ _ Hs4), ?(sc_buckets _ _ Hs4);
      simpl; rewrite ?total_cons; simpl; try done; [| |rewrite Hcur, u64_small; lia|lia].
    + exists (x :: ps). split_and!; [done|done|done|]. rewrite Hd4. simpl. rewrite dom_insert_L, Hdom. done.
    + intros q eq Hq. apply (same_chains_sized _ _ Hs4) with q; [|done]. intros r er. simpl.
      intros [[<- <-]|[_ Hr]]%lookup_insert_Some; [done|by apply (Hsz r)].
  - split_and!; [apply (sc_buckets _ _ Hs4)|apply (sc_max _ _ Hs4)|apply (sc_mutex _ _ Hs4)].
Qed.

Lemma cache_put_ok now k src size c l : repr c l -> cache_mutex c = false -> 0 <= size <= max_size c ->
  size <= Z.of_nat (length src) ->
  exists c', cache_put now k src size c = Done (tt, c') /\
    repr c' (spec_put (max_size c) k (take (Z.to_nat size) src) l) /\ same_params c c'.
Proof.
  intros Hr Hm Hs Hsrc. pose proof (repr_fuel _ _ Hr) as Hfu. apply (repr_set_held true) in Hr. unfold cache_put, spec_put.
  rewrite (cmd_bind_eq _ _ _ _ _ (lock_cache_ok c Hm)). set (c0 := set_held true c) in *. step.
  destruct (make_room_ok (base.size (entries c0)) size c0 l Hr Hs) as (c1 & H1 & Hr1 & Hbc1 & Hmax1 & Hm1); [simpl; lia|].
  rewrite (cmd_bind_eq _ _ _ _ _ H1). simpl in Hbc1, Hmax1, Hm1. cbn [max_size c0 set_held] in Hr1.
  set (d := take (Z.to_nat size) src). assert (Z.of_nat (length d) = size) as Hd by (unfold d; rewrite length_take; lia).
  erewrite (cmd_bind_eq _ _ _ d c1); [|unfold lift, copy_bytes, d; zcases; [done|lia]]. rewrite <- Hd.
  destruct (add_entry_ok now k d c1 _ Hr1) as (c2 & H2 & Hr2 & Hbc2 & Hmax2 & Hm2).
  { rewrite Hmax1. pose proof (keep_total (max_size c - size) l). lia. }
  rewrite (cmd_bind_eq _ _ _ _ _ H2), unlock_cache_ok by congruence. eexists. split; [done|]. split.
  - rewrite Hd. by apply repr_set_held.
  - unfold same_params. simpl. rewrite Hm. split_and!; congruence.
Qed.

(** the specification of a sequence of calls: the results of the gets, and the contents *)
Fixpoint spec_calls (max : Z) (calls : list call) (l : list item) : list (option bytes) * list item :=
  match calls with
  | [] => ([], l)
  | Get _ k :: calls' => let '(rs, l') := spec_calls max calls' (spec_get k l).2 in ((spec_get k l).1 :: rs, l')
  | Put _ k d :: calls' => spec_calls max calls' (spec_put max k d l)
  end.

Definition fits (max : Z) (o : call) : Prop :=
  match o with Get _ _ => True | Put _ _ d => Z.of_nat (length d) <= max end.

Lemma run_calls_ok calls c l : repr c l -> cache_mutex c = false -> Forall (fits (max_size c)) calls ->
  exists c', run_calls calls c = Done ((spec_calls (max_size c) calls l).1, c') /\
    repr c' (spec_calls (max_size c) calls l).2 /\ same_params c c'.
Proof.
  revert c l. induction calls as [|[now k|now k d] calls IH]; intros c l Hr Hm Hf; simpl.
  - by exists c.
  - apply Forall_cons in Hf as [_ Hf].
    destruct (cache_get_ok now k c l Hr Hm) as (c1 & H1 & Hr1 & Hb & Hx & Hm1). rewrite (cmd_bind_eq _ _ _ _ _ H1), <- Hx in *.
    destruct (IH c1 _ Hr1) as (c2 & H2 & Hr2 & Hb2 & Hx2 & Hm2); [congruence|done|].
    destruct (spec_calls _ calls _) as [rs l2]. rewrite (cmd_bind_eq _ _ _ _ _ H2). exists c2.
    split_and!; [done|done|split_and!; congruence].
  - apply Forall_cons in Hf as [Hd Hf]. simpl in Hd.
    destruct (cache_put_ok now k d (Z.of_nat (length d)) c l Hr Hm) as (c1 & H1 & Hr1 & Hb & Hx & Hm1); [lia|lia|].
    rewrite Nat2Z.id, firstn_all in Hr1. rewrite (cmd_bind_eq _ _ _ _ _ H1), <- Hx in *.
    destruct (IH c1 _ Hr1) as (c2 & H2 & Hr2 & Hb2 & Hx2 & Hm2); [congruence|done|].
    exists c2. split_and!; [done|done|split_and!; congruence].
Qed.

Lemma create_cache_ok max buckets : 0 < buckets -> 0 <= max < 2 ^ 63 -> repr (create_cache max buckets) [].
Proof.
  intros Hb Hm. split; simpl; [|by intros p e ?|done|change (total []) with 0; lia|lia|done].
  exists []. split_and!; [split_and!; [done|done|done|constructor]| |done|done].
  exists (replicate (Z.to_nat buckets) []). split_and!; [by rewrite fmap_replicate|rewrite length_replicate; simpl; lia|].
  intros i b [-> _]%lookup_replicate. split_and!; [done|constructor|set_solver|done].
Qed.

(** a string larger than the cache: the eviction loop never ends, however many turns it is given *)
Lemma oversized_put_loops fuel size c l : repr c l -> max_size c < size -> total l + size < 2 ^ 64 ->
  make_room fuel size c = OutOfFuel.
Proof.
  revert c l. induction fuel as [|fuel IH]; intros c l Hr Hs Hl; pose proof (total_nonneg l);
    pose proof (r_current _ _ Hr) as Hc; pose proof (r_fits _ _ Hr) as Hfit;
    (cbn [make_room]; step; rewrite Hc, u64_small by lia; zcases; [|lia]); [done|].
  destruct l as [|it l _] using rev_ind.
  - assert (evict_lru c = Done (tt, c)) as He; [|rewrite (cmd_bind_eq _ _ _ _ _ He); by apply IH with []].
    destruct (r_ps _ _ Hr) as (ps & (_ & Ht & _) & _ & Hps & _). apply fmap_nil_inv in Hps as ->.
    unfold evict_lru. step. by rewrite Ht.
  - destruct (evict_lru_ok _ _ _ Hr) as (c1 & H1 & Hr1 & _ & Hx & _). rewrite (cmd_bind_eq _ _ _ _ _ H1).
    rewrite total_app in Hl. pose proof (total_nonneg [it]). apply IH with l; [done|lia|lia].
Qed.

(** ** Properties *)

(** C8: a cache with a limit below 2^63 bytes and at least one bucket behaves as a list of keys
    and byte strings in the order of their last use.  After any calls whose byte strings each
    fit the cache, every call has returned and left the mutex free; [cache_get] finds the bytes of the last [cache_put] of the key unless
    they were evicted, and [cache_put] drops just enough of the least recently used entries;
    the two lists the entries are on, the sizes and the heap stay consistent.  A [cache_put]
    of more bytes than the cache may hold (and fewer than 2^63) never returns from then on: its
    eviction loop does not end within any number of turns. *)
Theorem cache_is_lru max buckets calls : 0 < buckets -> 0 <= max < 2 ^ 63 -> Forall (fits max) calls ->
  exists c, run_calls calls (create_cache max buckets) = Done ((spec_calls max calls []).1, c) /\
    repr c (spec_calls max calls []).2 /\ cache_mutex c = false /\
    forall now k d, max < Z.of_nat (length d) < 2 ^ 63 ->
      cache_put now k d (Z.of_nat (length d)) c = OutOfFuel /\
      forall fuel, make_room fuel (Z.of_nat (length d)) (set_held true c) = OutOfFuel.
Proof.
  intros Hb Hm Hf. destruct (run_calls_ok calls (create_cache max buckets) []) as (c & H1 & Hr & _ & Hmax & Hx);
    [by apply create_cache_ok|done|done|]. exists c. split_and!; [done..|]. intros now k d Hd.
  assert (max_size c = max) as Hmc by done.
  assert (forall fuel, make_room fuel (Z.of_nat (length d)) (set_held true c) = OutOfFuel) as Hl.
  { intros fuel. pose proof (r_fits _ _ Hr). apply (oversized_put_loops _ _ _ (spec_calls max calls []).2);
      [by apply repr_set_held|cbn [max_size set_held create_cache] in *; lia|cbn [max_size create_cache] in *; lia]. }
  split; [|exact Hl]. unfold cache_put. rewrite (cmd_bind_eq _ _ _ _ _ (lock_cache_ok c Hx)). step.
  unfold mbind at 1, cmd_bind. by rewrite Hl.
Qed.

Lemma cache_is_lru_witness :
  exists c, run_calls [Put 1 "a" [x00; x01]; Put 2 "b" [x02]; Get 3 "a"; Put 4 "c" [x03]; Get 5 "b"; Get 6 "a"]
      (create_cache 3 4) = Done ([Some [x00; x01]; None; Some [x00; x01]], c) /\
    repr c [("a", [x00; x01]); ("c", [x03])] /\ cache_mutex c = false.
Proof.
  destruct (cache_is_lru 3 4 [Put 1 "a" [x00; x01]; Put 2 "b" [x02]; Get 3 "a"; Put 4 "c" [x03]; Get 5 "b"; Get 6 "a"]) as (c & H1 & H2 & H3 & _);
    [done|done|repeat constructor; simpl; lia|]. exists c. split; [exact H1|]. split; [exact H2|exact H3].
Defined.
