(* ===== verification/BlockDevice.v ===== *)
(** * The block device of MemoryAllocation/cache.c

    The file system of the program: a disk file behind a pool of block buffers and the
    cache of BlockCache.v.  The file is its bytes and an offset; what the blocks hold when
    they are allocated, the clock, and how many bytes the kernel transfers in a call are
    arguments.  The progress messages are left out, so that the buffer's [dirty] mark,
    which only selects a message, has no effect. *)
From S2P Require Import Prelude ByteFile BlockCache.

(** ** The program *)

Definition BLOCK_SIZE : Z := 4096.
Definition BUFFER_POOL_SIZE : Z := 64.
Definition CACHE_BUCKETS : Z := 128.
Definition MAX_CACHE_SIZE : Z := 1024 * 1024.

Record buffer_t := mkBuffer { bdata : bytes; block_id : Z; dirty : bool; ref_count : Z; mutex : bool }.
Record buffer_pool_t := mkPool {
  buffers : list buffer_t; free_list : list Z; free_count : Z; pool_size : Z; pool_mutex : bool }.

(** the file behind [disk_fd] and its offset *)
Record filesystem_t := mkFs { disk : bytes; offset : Z; buffer_pool : buffer_pool_t; cache : cache_t }.

(** *** The buffer pool *)

(** [junk] is what the blocks hold when they are allocated *)
Definition create_buffer_pool (size : Z) (junk : bytes) : buffer_pool_t :=
  mkPool (replicate (Z.to_nat size) (mkBuffer junk (-1) false 0 false)) (seqZ 0 size) size size false.

Definition lock_pool : cmd buffer_pool_t unit := fun p =>
  m ← pthread_mutex_lock (pool_mutex p);
  Done (tt, mkPool (buffers p) (free_list p) (free_count p) (pool_size p) m).
Definition unlock_pool : cmd buffer_pool_t unit := fun p =>
  m ← pthread_mutex_unlock (pool_mutex p);
  Done (tt, mkPool (buffers p) (free_list p) (free_count p) (pool_size p) m).

(** [pool->buffers[i]], read and changed *)
Definition buffer_at (i : Z) : cmd buffer_pool_t buffer_t := fun p =>
  b ← arr_get (buffers p) i; Done (b, p).
Definition on_buffer (i : Z) (f : buffer_t -> outcome buffer_t) : cmd buffer_pool_t unit := fun p =>
  b ← arr_get (buffers p) i;
  b ← f b;
  bs ← arr_set (buffers p) i b;
  Done (tt, mkPool bs (free_list p) (free_count p) (pool_size p) (pool_mutex p)).

Definition lock_buffer (i : Z) : cmd buffer_pool_t unit := on_buffer i (fun b =>
  m ← pthread_mutex_lock (mutex b); Done (mkBuffer (bdata b) (block_id b) (dirty b) (ref_count b) m)).
Definition unlock_buffer (i : Z) : cmd buffer_pool_t unit := on_buffer i (fun b =>
  m ← pthread_mutex_unlock (mutex b); Done (mkBuffer (bdata b) (block_id b) (dirty b) (ref_count b) m)).
Definition set_ref_count (r : Z) (b : buffer_t) : outcome buffer_t :=
  r ← int_chk r; Done (mkBuffer (bdata b) (block_id b) (dirty b) r (mutex b)).

(** the index of the buffer, [None] for NULL *)
Definition get_buffer : cmd buffer_pool_t (option Z) :=
  lock_pool;;
  p ← get;
  if free_count p =? 0 then unlock_pool;; mret None else
  let n := free_count p - 1 in
  modify (fun p => mkPool (buffers p) (free_list p) n (pool_size p) (pool_mutex p));;
  buffer_idx ← lift (arr_get (free_list p) n);
  on_buffer buffer_idx (set_ref_count 1);;
  unlock_pool;; mret (Some buffer_idx).

Definition release_buffer (i : Z) : cmd buffer_pool_t unit :=
  lock_pool;;
  lock_buffer i;;
  on_buffer i (fun b => set_ref_count (ref_count b - 1) b);;
  b ← buffer_at i;
  (if ref_count b =? 0 then
     on_buffer i (fun b => Done (mkBuffer (bdata b) (-1) false (ref_count b) (mutex b)));;
     p ← get;
     fl ← lift (arr_set (free_list p) (free_count p) i);
     modify (fun p => mkPool (buffers p) fl (free_count p + 1) (pool_size p) (pool_mutex p))
   else mret tt);;
  unlock_buffer i;;
  unlock_pool.

(** *** Blocks on the disk *)

Definition on_cache {A} (m : cmd cache_t A) : cmd filesystem_t A := fun fs =>
  '(a, c) ← m (cache fs); Done (a, mkFs (disk fs) (offset fs) (buffer_pool fs) c).
Definition on_pool {A} (m : cmd buffer_pool_t A) : cmd filesystem_t A := fun fs =>
  '(a, p) ← m (buffer_pool fs); Done (a, mkFs (disk fs) (offset fs) p (cache fs)).

(** [open] succeeded; [file] is what the file holds *)
Definition create_filesystem (file junk : bytes) : filesystem_t :=
  mkFs file 0 (create_buffer_pool BUFFER_POOL_SIZE junk) (create_cache MAX_CACHE_SIZE CACHE_BUCKETS).

Definition block_key (id : Z) : string := "block_" +:+ pretty id.

(** [lseek] to a negative offset fails and leaves the offset alone; its result is ignored *)
Definition lseek (off : Z) : cmd filesystem_t unit :=
  modify (fun fs => mkFs (disk fs) (if off <? 0 then offset fs else off) (buffer_pool fs) (cache fs)).

(** how much the kernel is ready to transfer in one call, [None] when the call fails *)
Abbreviation kernel := (option nat).

(** [read(fd, buf, n)]: the bytes read, [None] for -1 *)
Definition sys_read (k : kernel) (n : Z) : cmd filesystem_t (option bytes) := fun fs =>
  match k with
  | None => Done (None, fs)
  | Some m =>
      let got := take (Nat.min m (Z.to_nat n)) (drop (Z.to_nat (offset fs)) (disk fs)) in
      Done (Some got, mkFs (disk fs) (offset fs + Z.of_nat (length got)) (buffer_pool fs) (cache fs))
  end.

(** [write(fd, src, n)], whose result is ignored *)
Definition sys_write (k : kernel) (src : bytes) : cmd filesystem_t unit := fun fs =>
  match k with
  | None => Done (tt, fs)
  | Some m =>
      let sent := take m src in
      Done (tt, mkFs (write_at (Z.to_nat (offset fs)) sent (disk fs)) (offset fs + Z.of_nat (length sent))
                  (buffer_pool fs) (cache fs))
  end.

Definition set_bdata (f : bytes -> bytes) (b : buffer_t) : outcome buffer_t :=
  Done (mkBuffer (f (bdata b)) (block_id b) (dirty b) (ref_count b) (mutex b)).
Definition set_block_id (id : Z) (b : buffer_t) : outcome buffer_t :=
  Done (mkBuffer (bdata b) id (dirty b) (ref_count b) (mutex b)).

(** the lines of [read_block] after a miss that got a buffer *)
Definition load_block (now : Z) (k : kernel) (id i : Z) : cmd filesystem_t (option bytes) :=
  on_pool (lock_buffer i);;
  off ← lift (int_chk (id * BLOCK_SIZE)); lseek off;;
  bytes_read ← sys_read k BLOCK_SIZE;
  match bytes_read with
  | Some g =>
      on_pool (on_buffer i (set_bdata (fun d => g ++ drop (length g) d)));;
      if Z.of_nat (length g) =? BLOCK_SIZE then
        on_pool (on_buffer i (set_block_id id));;
        b ← on_pool (buffer_at i);
        d ← lift (copy_bytes BLOCK_SIZE (bdata b));
        on_pool (unlock_buffer i);;
        on_cache (cache_put now (block_key id) (bdata b) BLOCK_SIZE);;
        on_pool (release_buffer i);;
        mret (Some d)
      else on_pool (unlock_buffer i);; on_pool (release_buffer i);; mret None
  | None => on_pool (unlock_buffer i);; on_pool (release_buffer i);; mret None
  end.

(** the block copied to the caller's buffer when the result is 0, [None] for -1 *)
Definition read_block (now : Z) (k : kernel) (id : Z) : cmd filesystem_t (option bytes) :=
  cached_data ← on_cache (cache_get now (block_key id));
  match cached_data with
  | Some d => d ← lift (copy_bytes BLOCK_SIZE d); mret (Some d)
  | None =>
      buf ← on_pool get_buffer;
      match buf with
      | None => mret None
      | Some i => load_block now k id i
      end
  end.

(** whether the result is 0 *)
Definition write_block (now : Z) (k : kernel) (id : Z) (buffer : bytes) : cmd filesystem_t bool :=
  buf ← on_pool get_buffer;
  match buf with
  | None => mret false
  | Some i =>
      on_pool (lock_buffer i);;
      d ← lift (copy_bytes BLOCK_SIZE buffer);
      on_pool (on_buffer i (set_bdata (fun _ => d)));;
      on_pool (on_buffer i (set_block_id id));;
      on_pool (on_buffer i (fun b => Done (mkBuffer (bdata b) (block_id b) true (ref_count b) (mutex b))));;
      on_pool (unlock_buffer i);;
      on_cache (cache_put now (block_key id) buffer BLOCK_SIZE);;
      off ← lift (int_chk (id * BLOCK_SIZE)); lseek off;;
      sys_write k d;;
      on_pool (release_buffer i);;
      mret true
  end.

(** uses of the two calls, with the clock and the kernel's answers *)
Inductive block_op := ReadBlock (now : Z) (k : kernel) (id : Z) | WriteBlock (now : Z) (k : kernel) (id : Z) (d : bytes).

(** a read's block and a write's success *)
Inductive block_result := GotBlock (d : option bytes) | Written (ok : bool).

Definition run_block (o : block_op) : cmd filesystem_t block_result :=
  match o with
  | ReadBlock now k id => d ← read_block now k id; mret (GotBlock d)
  | WriteBlock now k id d => ok ← write_block now k id d; mret (Written ok)
  end.

Fixpoint run_blocks (l : list block_op) : cmd filesystem_t (list block_result) :=
  match l with
  | [] => mret []
  | o :: l' => r ← run_block o; rs ← run_blocks l'; mret (r :: rs)
  end.

(** the block that [main] writes, and its calls when the kernel always answers in full *)
Definition write_data : bytes :=
  byte_of <$> seqZ 0 BLOCK_SIZE.
Definition full : kernel := Some (Z.to_nat BLOCK_SIZE).
Definition main (now : Z) : list block_op :=
  [WriteBlock now full 0 write_data; WriteBlock now full 1 write_data; WriteBlock now full 2 write_data;
   ReadBlock now full 0; ReadBlock now full 1; ReadBlock now full 2; ReadBlock now full 5; ReadBlock now full 5].

(** one step of a command that only reads the state *)
Ltac step := erewrite cmd_bind_eq; [|reflexivity]; cbv beta.

(** ** Lemmas: the buffer pool *)

Definition idle (b : buffer_t) : Prop :=
  dirty b = false /\ ref_count b = 0 /\ mutex b = false /\ length (bdata b) = Z.to_nat BLOCK_SIZE.

(** no buffer is in use *)
Record pool_ready (p : buffer_pool_t) : Prop := {
  pr_len : length (buffers p) = Z.to_nat BUFFER_POOL_SIZE;
  pr_idle : Forall idle (buffers p);
  pr_free : free_list p = seqZ 0 BUFFER_POOL_SIZE;
  pr_count : free_count p = BUFFER_POOL_SIZE;
  pr_mutex : pool_mutex p = false;
}.

(** the buffer that is handed out of a pool where none is in use *)
Definition top : Z := BUFFER_POOL_SIZE - 1.

Definition with_top (m : bool) (n : Z) (p : buffer_pool_t) (b : buffer_t) : buffer_pool_t :=
  mkPool (<[Z.to_nat top := b]> (buffers p)) (free_list p) n (pool_size p) m.
Abbreviation in_use := (with_top false top).

Lemma top_lt p : pool_ready p -> (Z.to_nat top < length (buffers p))%nat.
Proof. intros []. unfold top, BUFFER_POOL_SIZE in *. lia. Qed.

Lemma arr_get_top m n p b : pool_ready p -> arr_get (buffers (with_top m n p b)) top = Done b.
Proof. intros H%top_lt. apply arr_get_Done. split; [done|]. by apply list_lookup_insert_eq. Qed.

Lemma on_buffer_top m n p b b' f : pool_ready p -> f b = Done b' -> on_buffer top f (with_top m n p b) = Done (tt, with_top m n p b').
Proof.
  intros Hp Hf. unfold on_buffer. rewrite arr_get_top by done. simpl. rewrite Hf. simpl. apply top_lt in Hp.
  rewrite arr_set_in by (rewrite length_insert; unfold top, BUFFER_POOL_SIZE in *; lia).
  simpl. unfold with_top. by rewrite list_insert_insert_eq.
Qed.

Lemma buffer_at_top m n p b : pool_ready p -> buffer_at top (with_top m n p b) = Done (b, with_top m n p b).
Proof. intros Hp. unfold buffer_at. by rewrite arr_get_top. Qed.

Definition got (b : buffer_t) : buffer_t := mkBuffer (bdata b) (block_id b) (dirty b) 1 (mutex b).

Lemma get_buffer_ok p : pool_ready p -> exists b, idle b /\ get_buffer p = Done (Some top, in_use p (got b)).
Proof.
  intros Hp. pose proof (top_lt p Hp) as Htop. destruct (lookup_lt_is_Some_2 _ _ Htop) as [b Hb]. pose proof Hp as [Hl Hi Hf Hc Hm].
  exists b. split; [by eapply Forall_lookup_1 in Hi|]. unfold get_buffer, lock_pool, unlock_pool, mbind, cmd_bind, get, lift, modify.
  rewrite Hm. simpl. rewrite Hc. simpl. rewrite Hf.
  rewrite (proj2 (arr_get_Done (seqZ 0 BUFFER_POOL_SIZE) (BUFFER_POOL_SIZE - 1) top))
    by (split; [done|by apply lookup_seqZ]).
  unfold on_buffer. cbn [buffers]. rewrite (proj2 (arr_get_Done _ _ b)) by done. simpl.
  rewrite arr_set_in by (unfold top, BUFFER_POOL_SIZE in *; lia). unfold with_top, got. by rewrite Hf.
Qed.

Lemma release_top_ok p b : pool_ready p -> mutex b = false -> ref_count b = 1 -> length (bdata b) = Z.to_nat BLOCK_SIZE ->
  exists p', release_buffer top (in_use p b) = Done (tt, p') /\ pool_ready p'.
Proof.
  intros Hp Hm Hr Hd. set (b' := mkBuffer (bdata b) (-1) false 0 false).
  pose proof (top_lt p Hp) as Htop. pose proof Hp as [Hl Hi Hf Hc Hpm].
  exists (with_top false (top + 1) p b'). split.
  - unfold release_buffer. rewrite (cmd_bind_eq lock_pool _ _ tt (with_top true top p b)) by done.
    erewrite cmd_bind_eq; [|apply on_buffer_top; [done|by rewrite Hm]].
    erewrite cmd_bind_eq; [|apply on_buffer_top; [done|simpl; by rewrite Hr]].
    rewrite (cmd_bind_eq _ _ _ _ _ (buffer_at_top _ _ _ _ Hp)). cbn [ref_count]. change (1 - 1 =? 0) with true. cbv iota.
    assert (arr_set (free_list p) top top = Done (free_list p)) as Hset.
    { rewrite arr_set_in by (rewrite Hf, length_seqZ; done). by rewrite Hf, list_insert_id by (by apply lookup_seqZ). }
    erewrite (cmd_bind_eq _ _ _ tt (with_top true (top + 1) p _)).
    2: { erewrite cmd_bind_eq; [|by apply on_buffer_top]. step. unfold lift, mbind, cmd_bind. cbn [free_list free_count with_top].
         rewrite Hset. reflexivity. }
    by erewrite cmd_bind_eq; [|by apply on_buffer_top].
  - split; simpl; [by rewrite length_insert| |done|done|done]. by apply Forall_insert.
Qed.

(** ** Specification: a file of blocks *)

(** block [id] of a file, if the file reaches that far *)
Definition file_block (id : Z) (f : bytes) : option bytes :=
  let d := take (Z.to_nat BLOCK_SIZE) (drop (Z.to_nat (id * BLOCK_SIZE)) f) in
  if decide (length d = Z.to_nat BLOCK_SIZE) then Some d else None.

(** the offset of the block is an [int] that is not negative *)
Definition valid_id (id : Z) : Prop := 0 <= id /\ id * BLOCK_SIZE <= int_max.

(** the kernel transfers less than a block *)
Definition short (k : kernel) : Prop := match k with Some m => Z.of_nat m < BLOCK_SIZE | None => True end.

(** a read gives the block, and may only fail if the file ends before or the kernel
    does not transfer all of it; a write changes the block and nothing else *)
Inductive spec_step (f : bytes) : block_op -> block_result -> bytes -> Prop :=
| spec_read now k id : spec_step f (ReadBlock now k id) (GotBlock (file_block id f)) f
| spec_read_error now k id : short k -> spec_step f (ReadBlock now k id) (GotBlock None) f
| spec_write now k id d :
    spec_step f (WriteBlock now k id d) (Written true) (write_at (Z.to_nat (id * BLOCK_SIZE)) d f).

Inductive spec_run : bytes -> list block_op -> list block_result -> bytes -> Prop :=
| spec_nil f : spec_run f [] [] f
| spec_cons f o r f1 ops rs f2 : spec_step f o r f1 -> spec_run f1 ops rs f2 -> spec_run f (o :: ops) (r :: rs) f2.

(** blocks of the right size at valid places; a write that the kernel completes *)
Definition valid_op (o : block_op) : Prop :=
  match o with
  | ReadBlock _ _ id => valid_id id
  | WriteBlock _ k id d => valid_id id /\ ~ short k /\ Z.of_nat (length d) = BLOCK_SIZE
  end.

(** what is cached under the key of a block is that block *)
Definition coherent (l : list item) (f : bytes) : Prop :=
  forall id d, valid_id id -> assoc (block_key id) l = Some d -> file_block id f = Some d.

Record holds (fs : filesystem_t) : Prop := {
  h_pool : pool_ready (buffer_pool fs);
  h_cache : exists l, repr (cache fs) l /\ coherent l (disk fs);
  h_mutex : cache_mutex (cache fs) = false;
  h_max : max_size (cache fs) = MAX_CACHE_SIZE;
}.

(** ** Lemmas: blocks of a file *)

Lemma file_block_Some id f d : file_block id f = Some d <->
  length d = Z.to_nat BLOCK_SIZE /\ exists l1 l2, f = l1 ++ d ++ l2 /\ length l1 = Z.to_nat (id * BLOCK_SIZE).
Proof.
  unfold file_block. case_decide as Hl; split.
  - intros [= <-]. split; [done|]. exists (take (Z.to_nat (id * BLOCK_SIZE)) f), (drop (Z.to_nat BLOCK_SIZE) (drop (Z.to_nat (id * BLOCK_SIZE)) f)).
    rewrite !take_drop. split; [done|]. rewrite length_take, length_drop in *. unfold BLOCK_SIZE in *. lia.
  - intros (Hd & l1 & l2 & -> & <-). by rewrite drop_app_length, <- Hd, take_app_length.
  - done.
  - intros (Hd & l1 & l2 & -> & Hl1). destruct Hl. by rewrite <- Hl1, drop_app_length, <- Hd, take_app_length.
Qed.

Lemma file_block_same id f d : length d = Z.to_nat BLOCK_SIZE ->
  file_block id (write_at (Z.to_nat (id * BLOCK_SIZE)) d f) = Some d.
Proof.
  intros Hd. apply file_block_Some. split; [done|]. unfold write_at. eexists _, _. split; [done|].
  rewrite length_take, length_app, length_replicate. lia.
Qed.

Lemma file_block_other id id' f d e : valid_id id -> valid_id id' -> id <> id' -> length d = Z.to_nat BLOCK_SIZE ->
  file_block id' f = Some e -> file_block id' (write_at (Z.to_nat (id * BLOCK_SIZE)) d f) = Some e.
Proof.
  intros [Hi _] [Hi' _] Hne Hd (He & l1 & l2 & -> & Hl1)%file_block_Some. apply file_block_Some. split; [done|].
  unfold write_at. rewrite <- !app_assoc. set (off := Z.to_nat (id * BLOCK_SIZE)) in *. set (z := replicate _ _).
  destruct (Z.lt_ge_cases id' id).
  - assert (length l1 + length e <= off)%nat by (unfold off, BLOCK_SIZE in *; nia).
    rewrite take_app_ge, take_app_ge by lia. exists l1. eexists. split; [by rewrite <- !app_assoc|done].
  - assert (off + length d <= length l1)%nat by (unfold off, BLOCK_SIZE in *; nia).
    rewrite drop_app_le by lia. rewrite take_app_le by lia.
    exists (take off l1 ++ d ++ drop (off + length d) l1), l2. split; [by rewrite <- !app_assoc|].
    rewrite !length_app, length_take, length_drop. lia.
Qed.

Lemma block_key_inj id id' : block_key id = block_key id' -> id = id'.
Proof. intros H. by simplify_eq/=. Qed.

Lemma assoc_remove_first k k' (l : list item) : k <> k' -> assoc k (remove_first k' l) = assoc k l.
Proof.
  intros Hne. induction l as [|[k2 d] l IH]; simpl; [done|]. destruct (streq k2 k') eqn:Hs.
  - apply streq_spec in Hs as ->. by rewrite decide_False.
  - simpl. by rewrite IH.
Qed.

Lemma coherent_get k l f : coherent l f -> coherent (spec_get k l).2 f.
Proof.
  intros Hc id d Hid. unfold spec_get. destruct (assoc k l) as [e|] eqn:Hk; simpl; [|by apply Hc].
  case_decide as He; [intros [= ->]; subst; by apply Hc|]. rewrite assoc_remove_first by done. by apply Hc.
Qed.

Lemma assoc_keep room k l d : assoc k (keep room l) = Some d -> assoc k l = Some d.
Proof. destruct (keep_prefix room l) as [l2 Hl]. intros Ha. rewrite Hl, assoc_app. by rewrite Ha. Qed.

(** caching a block that the file holds *)
Lemma coherent_put max id d l f : coherent l f -> file_block id f = Some d -> coherent (spec_put max (block_key id) d l) f.
Proof.
  intros Hc Hf id' d' Hid'. unfold spec_put. cbn [assoc]. case_decide as Hk.
  - intros [= <-]. by apply block_key_inj in Hk as <-.
  - intros ?%assoc_keep. by apply Hc.
Qed.

Lemma coherent_write max id d l f : valid_id id -> length d = Z.to_nat BLOCK_SIZE -> coherent l f ->
  coherent (spec_put max (block_key id) d l) (write_at (Z.to_nat (id * BLOCK_SIZE)) d f).
Proof.
  intros Hid Hd Hc id' d' Hid'. unfold spec_put. cbn [assoc]. case_decide as Hk.
  - intros [= <-]. apply block_key_inj in Hk as <-. by apply file_block_same.
  - intros ?%assoc_keep. apply file_block_other; try done; [congruence|]. by apply Hc.
Qed.

(** ** Lemmas: reading and writing blocks *)

Lemma on_pool_eq {A} (m : cmd buffer_pool_t A) f o p c a p' : m p = Done (a, p') ->
  on_pool m (mkFs f o p c) = Done (a, mkFs f o p' c).
Proof. intros H. unfold on_pool. simpl. by rewrite H. Qed.

Lemma on_cache_eq {A} (m : cmd cache_t A) f o p c a c' : m c = Done (a, c') ->
  on_cache m (mkFs f o p c) = Done (a, mkFs f o p c').
Proof. intros H. unfold on_cache. simpl. by rewrite H. Qed.

Lemma copy_all d : length d = Z.to_nat BLOCK_SIZE -> copy_bytes BLOCK_SIZE d = Done d.
Proof.
  intros H. unfold copy_bytes. unfold BLOCK_SIZE in *. zcases; [|lia]. by rewrite take_ge by lia.
Qed.

(** steps of a command on the file system *)
Ltac on_top := erewrite cmd_bind_eq; [|apply on_pool_eq; by apply on_buffer_top].

Lemma offset_ok id (fs : filesystem_t) : valid_id id -> lift (int_chk (id * BLOCK_SIZE)) fs = Done (id * BLOCK_SIZE, fs).
Proof.
  intros [H1 H2]. assert (in_int (id * BLOCK_SIZE)) as Hi by (unfold in_int, int_min, BLOCK_SIZE in *; lia).
  unfold lift, int_chk. by rewrite bool_decide_true.
Qed.

Lemma lseek_ok id f o p c : valid_id id ->
  lseek (id * BLOCK_SIZE) (mkFs f o p c) = Done (tt, mkFs f (id * BLOCK_SIZE) p c).
Proof. intros [H1 _]. unfold lseek, modify, BLOCK_SIZE in *. simpl. zcases; [lia|done]. Qed.

(** putting a block of the file into the cache, and giving the buffer back *)
Lemma put_and_release now id (src : bytes) b f o p c l : pool_ready p -> mutex b = false -> ref_count b = 1 ->
  length (bdata b) = Z.to_nat BLOCK_SIZE -> length src = Z.to_nat BLOCK_SIZE ->
  repr c l -> cache_mutex c = false -> max_size c = MAX_CACHE_SIZE ->
  exists c' p', on_cache (cache_put now (block_key id) src BLOCK_SIZE) (mkFs f o (in_use p b) c) =
      Done (tt, mkFs f o (in_use p b) c') /\
    release_buffer top (in_use p b) = Done (tt, p') /\ pool_ready p' /\
    repr c' (spec_put MAX_CACHE_SIZE (block_key id) src l) /\ cache_mutex c' = false /\ max_size c' = MAX_CACHE_SIZE.
Proof.
  intros Hp Hm Hr Hd Hs Hc Hcm Hmax. destruct (release_top_ok p b Hp Hm Hr Hd) as (p' & Hrel & Hp').
  destruct (cache_put_ok now (block_key id) src BLOCK_SIZE c l Hc Hcm) as (c' & H1 & Hc' & _ & Hm2 & Hm3);
    [rewrite Hmax; unfold MAX_CACHE_SIZE, BLOCK_SIZE; lia|rewrite Hs; unfold BLOCK_SIZE; lia|].
  exists c', p'. rewrite Hmax in *. rewrite Hcm in Hm3. rewrite <- Hs, firstn_all in Hc'.
  split_and!; [by apply on_cache_eq|done..].
Qed.

(** what the kernel reads of a block *)
Definition block_bytes (m : nat) (id : Z) (f : bytes) : bytes :=
  take (Nat.min m (Z.to_nat BLOCK_SIZE)) (drop (Z.to_nat (id * BLOCK_SIZE)) f).

Lemma block_bytes_spec m id f : valid_id id ->
  if Z.of_nat (length (block_bytes m id f)) =? BLOCK_SIZE
  then file_block id f = Some (block_bytes m id f) /\ length (block_bytes m id f) = Z.to_nat BLOCK_SIZE
  else file_block id f = None \/ short (Some m).
Proof.
  intros _. unfold block_bytes. zcases.
  - rewrite length_take, length_drop in *. unfold BLOCK_SIZE in *.
    rewrite Nat.min_r by lia. unfold file_block, BLOCK_SIZE. cbv zeta.
    case_decide as Hl; [split; [done|lia]|]. destruct Hl. rewrite length_take, length_drop. lia.
  - destruct (Z.lt_ge_cases (Z.of_nat m) BLOCK_SIZE); [by right|left]. unfold BLOCK_SIZE in *. rewrite Nat.min_r in * by lia.
    unfold file_block, BLOCK_SIZE. case_decide; [lia|done].
Qed.

(** giving a buffer back after a read that failed *)
Lemma fail_and_release f o p b c : pool_ready p -> mutex b = true -> ref_count b = 1 -> length (bdata b) = Z.to_nat BLOCK_SIZE ->
  exists p', pool_ready p' /\
    (on_pool (unlock_buffer top);; on_pool (release_buffer top);; mret None) (mkFs f o (in_use p b) c) =
      Done (None : option bytes, mkFs f o p' c).
Proof.
  intros Hp Hm Hr Hd. destruct (release_top_ok p (mkBuffer (bdata b) (block_id b) (dirty b) (ref_count b) false)) as (p' & Hrel & Hp');
    [done..|]. exists p'. split; [done|].
  erewrite cmd_bind_eq; [|apply on_pool_eq, on_buffer_top; [done|by rewrite Hm]].
  by erewrite cmd_bind_eq; [|apply on_pool_eq, Hrel].
Qed.

Lemma load_block_ok now k id f o p b c l : pool_ready p -> idle b -> repr c l -> coherent l f ->
  cache_mutex c = false -> max_size c = MAX_CACHE_SIZE -> valid_id id ->
  exists r fs', load_block now k id top (mkFs f o (in_use p (got b)) c) = Done (r, fs') /\ holds fs' /\ disk fs' = f /\
    (r = file_block id f \/ r = None /\ short k).
Proof.
  intros Hp (Hd & Hr & Hm & Hlen) Hc Hco Hcm Hmax Hid. unfold load_block.
  erewrite cmd_bind_eq; [|apply on_pool_eq, on_buffer_top; [done|unfold got; cbn [mutex]; by rewrite Hm]].
  rewrite (cmd_bind_eq _ _ _ _ _ (offset_ok id _ Hid)), (cmd_bind_eq _ _ _ _ _ (lseek_ok _ _ _ _ _ Hid)).
  cbn [bdata got block_id dirty ref_count].
  destruct k as [m|]; cycle 1.
  { rewrite (cmd_bind_eq _ _ _ None _ eq_refl). cbv iota beta. set (b1 := mkBuffer _ _ _ _ _).
    destruct (fail_and_release f (id * BLOCK_SIZE) p b1 c) as (p' & Hp' & ->); [done..|].
    eexists _, _. split_and!; [done|split; [done|by exists l|done..]|done|by right]. }
  erewrite cmd_bind_eq by reflexivity. cbn [disk offset buffer_pool cache]. change (take _ (drop _ f)) with (block_bytes m id f).
  pose proof (block_bytes_spec m id f Hid) as Hb. on_top. cbn [bdata].
  set (o' := id * BLOCK_SIZE + Z.of_nat (length (block_bytes m id f))).
  destruct (Z.of_nat (length (block_bytes m id f)) =? BLOCK_SIZE).
  - destruct Hb as [Hb Hl]. rewrite drop_ge, app_nil_r by lia. on_top. cbn [bdata].
    erewrite cmd_bind_eq; [|apply on_pool_eq; by apply buffer_at_top]. cbn [bdata].
    erewrite (cmd_bind_eq _ _ _ (block_bytes m id f)); [|unfold lift; by rewrite copy_all].
    erewrite cmd_bind_eq; [|by apply on_pool_eq, on_buffer_top]. cbn [bdata block_id dirty ref_count].
    set (b1 := mkBuffer (block_bytes m id f) _ _ _ _).
    destruct (put_and_release now id (block_bytes m id f) b1 f o' p c l) as (c' & p' & H1 & H2 & Hp' & Hc' & Hm' & Hx'); [done..|].
    rewrite (cmd_bind_eq _ _ _ _ _ H1). erewrite cmd_bind_eq; [|apply on_pool_eq, H2].
    eexists _, _. split_and!; [done| |done|by left]. split; [done| |done|done]. eexists. split; [exact Hc'|by apply coherent_put].
  - set (b1 := mkBuffer _ _ _ _ _).
    destruct (fail_and_release f o' p b1 c) as (p' & Hp' & ->); [done|done|done| |].
    { simpl. rewrite length_app, length_drop. unfold block_bytes in *. rewrite length_take, length_drop. lia. }
    eexists _, _. split_and!; [done|split; [done|by exists l|done..]|done|].
    destruct Hb as [->|Hb]; [by left|by right].
Qed.

Lemma read_block_ok now k id fs : holds fs -> valid_id id ->
  exists r fs', read_block now k id fs = Done (r, fs') /\ holds fs' /\ disk fs' = disk fs /\
    (r = file_block id (disk fs) \/ r = None /\ short k).
Proof.
  destruct fs as [f o p c]. intros [Hp (l & Hc & Hco) Hcm Hmax] Hid. simpl in *. unfold read_block.
  destruct (cache_get_ok now (block_key id) c l Hc Hcm) as (c1 & H1 & Hc1 & _ & Hmax1 & Hcm1).
  pose proof (coherent_get (block_key id) _ _ Hco) as Hco1.
  erewrite cmd_bind_eq; [|apply on_cache_eq, H1]. revert Hc1 Hco1. unfold spec_get.
  destruct (assoc (block_key id) l) as [d|] eqn:Ha; simpl; intros Hc1 Hco1.
  - pose proof (Hco _ _ Hid Ha) as Hf. pose proof Hf as [Hd _]%file_block_Some.
    erewrite (cmd_bind_eq _ _ _ d); [|unfold lift; by rewrite copy_all].
    eexists _, _. split_and!; [done| |done|by left]. split; simpl; [done| |congruence|congruence]. by eexists.
  - destruct (get_buffer_ok p Hp) as (b & Hb & Hg). erewrite cmd_bind_eq; [|apply on_pool_eq, Hg].
    apply load_block_ok with l; try done; congruence.
Qed.

Lemma write_block_ok now k id d fs : holds fs -> valid_id id -> ~ short k -> Z.of_nat (length d) = BLOCK_SIZE ->
  exists fs', write_block now k id d fs = Done (true, fs') /\ holds fs' /\
    disk fs' = write_at (Z.to_nat (id * BLOCK_SIZE)) d (disk fs).
Proof.
  destruct fs as [f o p c]. intros [Hp (l & Hc & Hco) Hcm Hmax] Hid Hk Hd. simpl in *. unfold write_block.
  assert (length d = Z.to_nat BLOCK_SIZE) as Hd' by lia.
  destruct (get_buffer_ok p Hp) as (b & (Hbd & Hbr & Hbm & Hbl) & Hg). erewrite cmd_bind_eq; [|apply on_pool_eq, Hg]. cbv iota beta.
  erewrite cmd_bind_eq; [|apply on_pool_eq, on_buffer_top; [done|unfold got; cbn [mutex]; by rewrite Hbm]].
  erewrite (cmd_bind_eq _ _ _ d); [|unfold lift; by rewrite copy_all]. cbn [bdata got block_id dirty ref_count].
  on_top. on_top. on_top. erewrite cmd_bind_eq; [|by apply on_pool_eq, on_buffer_top].
  cbn [bdata got block_id dirty ref_count]. set (b1 := mkBuffer _ _ _ _ _).
  destruct (put_and_release now id d b1 f o p c l) as (c' & p' & H1 & H2 & Hp' & Hc' & Hm' & Hx'); [done..|].
  rewrite (cmd_bind_eq _ _ _ _ _ H1), (cmd_bind_eq _ _ _ _ _ (offset_ok id _ Hid)), (cmd_bind_eq _ _ _ _ _ (lseek_ok _ _ _ _ _ Hid)).
  destruct k as [m|]; [|by destruct Hk]. simpl in Hk.
  erewrite cmd_bind_eq by reflexivity. cbn [disk offset buffer_pool cache]. rewrite take_ge by lia.
  erewrite cmd_bind_eq; [|apply on_pool_eq, H2]. eexists. split_and!; [done| |done]. split; [done| |done|done].
  eexists. split; [exact Hc'|by apply coherent_write].
Qed.

Lemma create_filesystem_ok file junk : length junk = Z.to_nat BLOCK_SIZE -> holds (create_filesystem file junk).
Proof.
  intros Hj. split; [|exists []|done|done].
  - split; try done. by apply Forall_replicate.
  - split; [|intros id d _; done]. split; [|intros p e He; done|done|done|done|done].
    exists []. split_and!; [split_and!; [done|done|done|constructor]| |done|done].
    exists (replicate (Z.to_nat CACHE_BUCKETS) []). split_and!; [by rewrite fmap_replicate|done|].
    intros i b [-> _]%lookup_replicate. split_and!; [done|constructor|set_solver|done].
Qed.

Lemma run_blocks_ok ops fs : holds fs -> Forall valid_op ops ->
  exists rs fs', run_blocks ops fs = Done (rs, fs') /\ holds fs' /\ spec_run (disk fs) ops rs (disk fs').
Proof.
  intros H Hv. revert fs H. induction Hv as [|o ops Ho _ IH]; intros fs H; simpl.
  { exists [], fs. split_and!; [done|done|constructor]. }
  assert (exists r fs1, run_block o fs = Done (r, fs1) /\ holds fs1 /\ spec_step (disk fs) o r (disk fs1)) as (r & fs1 & H1 & Hh1 & Hs).
  { destruct o as [now k id|now k id d]; simpl.
    - destruct (read_block_ok now k id fs H Ho) as (r & fs1 & H1 & Hh1 & Hd & Hr). rewrite (cmd_bind_eq _ _ _ _ _ H1).
      eexists _, _. split_and!; [done|done|]. rewrite Hd. destruct Hr as [->|[-> Hk]]; by constructor.
    - destruct Ho as (Hid & Hk & Hd). destruct (write_block_ok now k id d fs H Hid Hk Hd) as (fs1 & H1 & Hh1 & Hdk).
      rewrite (cmd_bind_eq _ _ _ _ _ H1). eexists _, _. split_and!; [done|done|]. rewrite Hdk. constructor. }
  rewrite (cmd_bind_eq _ _ _ _ _ H1). destruct (IH fs1 Hh1) as (rs & fs2 & H2 & Hh2 & Hs2).
  rewrite (cmd_bind_eq _ _ _ _ _ H2). eexists _, _. split_and!; [done|done|by econstructor].
Qed.

(** ** Properties *)

(** C7: the cached disk behaves as the file alone.  For block numbers whose byte offset is an
    [int] that is not negative (0 <= id and id * 4096 <= INT_MAX, which the code does not
    test: see [negative_block_clobbers] for the rest), from any file, any sequence of reads,
    and of writes of whole blocks that the kernel completes, runs without undefined behaviour
    and ends; a read gives the block as it was last written, and fails only if the file ends
    before or the kernel reads less than the block; a write changes its block and nothing
    else; afterwards all buffers are back in the pool and all mutexes are free. *)
Theorem blocks_coherent file junk ops : length junk = Z.to_nat BLOCK_SIZE -> Forall valid_op ops ->
  exists rs fs, run_blocks ops (create_filesystem file junk) = Done (rs, fs) /\
    spec_run file ops rs (disk fs) /\ holds fs.
Proof.
  intros Hj Hv. destruct (run_blocks_ok ops (create_filesystem file junk)) as (rs & fs & H & Hh & Hs);
    [by apply create_filesystem_ok|done|]. by exists rs, fs.
Qed.

Lemma write_data_length : Z.of_nat (length write_data) = BLOCK_SIZE.
Proof. unfold write_data. by rewrite length_fmap, length_seqZ. Qed.

Lemma blocks_coherent_witness :
  exists rs fs, run_blocks (main 0) (create_filesystem [] (replicate (Z.to_nat BLOCK_SIZE) x00)) = Done (rs, fs) /\
    spec_run [] (main 0) rs (disk fs) /\ holds fs.
Proof.
  apply (blocks_coherent [] _ (main 0)); [apply length_replicate|].
  repeat constructor; try done; apply write_data_length.
Defined.

(** ** What the code does not check *)

Definition blank : bytes := replicate (Z.to_nat BLOCK_SIZE) x00.

(** what a run prints of its results, and the length of the file *)
Definition summary (r : outcome (list block_result * filesystem_t)) : option (list bool * Z) :=
  match r with
  | Done (rs, fs) => Some ((fun x => match x with GotBlock d => bool_decide (is_Some d) | Written ok => ok end) <$> rs, Z.of_nat (length (disk fs)))
  | _ => None
  end.

(** on a new disk, [main]'s second read of block 5 fails like the first one *)
Example main_block5_missing : summary (run_blocks (main 0) (create_filesystem [] blank)) =
  Some ([true; true; true; true; true; true; false; false], 12288).
Proof. vm_compute. reflexivity. Qed.

(** a write that the kernel refuses is reported as done, and read back from the cache *)
Example failed_write_reported : summary (run_blocks [WriteBlock 0 None 0 blank; ReadBlock 0 full 0] (create_filesystem [] blank)) =
  Some ([true; true], 0).
Proof. vm_compute. reflexivity. Qed.

(** block -1 is written where the last access ended *)
Example negative_block_clobbers : summary (run_blocks [WriteBlock 0 full 0 blank; WriteBlock 0 full (-1) blank] (create_filesystem [] blank)) =
  Some ([true; true], 8192).
Proof. vm_compute. reflexivity. Qed.
