(* ===== verification/KVStore.v ===== *)
(** * The key/value stores and their socket protocol

    [DynamicLib] is week 8/staticAndDynamicLIB/dynamicLIB/lib.c, [StaticLib] the
    locked variant of staticLIB/lib.c, [Server] the store built into
    IPCs/SharedMemory/KeyValueStored/server.c.  The three servers run the same
    [client_handler] over the calls [set_value] and [get_value]; it is modelled
    once, over the interface [KVStore], and instantiated for each store.

    The [store] array with its [count] is the list of its first [count] cells.
    What [read] returns on the socket is a list of chunks; the replies are the
    list of the strings written to it. *)
From S2P Require Import Prelude CString.

(** ** The interface the protocol is written against *)

Class KVStore (St : Type) := {
  kv_set : string -> string -> St -> St;
  kv_get : string -> St -> option string;
}.

(** what the protocol needs: a set for which there is room can be read back and leaves the
    other keys alone; in a full store a set of a new key does nothing *)
Class KVStoreLaws (St : Type) `{KVStore St} := {
  kv_room : string -> St -> Prop;
  kv_full : string -> St -> Prop;
  kv_get_set : forall st k v, (strlen k < 64)%nat -> (strlen v < 256)%nat -> kv_room k st ->
    kv_get k (kv_set k v st) = Some v;
  kv_get_set_ne : forall st k k' v, (strlen k < 64)%nat -> k <> k' ->
    kv_get k' (kv_set k v st) = kv_get k' st;
  kv_set_full : forall st k v, kv_full k st -> kv_set k v st = st /\ kv_get k st = None;
}.

(** ** The stores *)

Abbreviation kv_pair := (string * string)%type.

Definition KEY_LEN : nat := 64.
Definition VALUE_LEN : nat := 256.

(** the loop [for (i = 0; i < count; i++) if (strcmp(store[i].key, key) == 0)] *)
Fixpoint find_key (key : string) (store : list kv_pair) : option nat :=
  match store with
  | [] => None
  | p :: store' => if streq p.1 key then Some O else S <$> find_key key store'
  end.

(** [strncpy] of the value into the cell found *)
Definition put_value (value : string) (p : kv_pair) : kv_pair :=
  (p.1, strtrunc (VALUE_LEN - 1) value).

Definition new_cell (key value : string) : kv_pair :=
  (strtrunc (KEY_LEN - 1) key, strtrunc (VALUE_LEN - 1) value).

Module DynamicLib.

Definition MAX_PAIRS : nat := 100.

Definition set_value (key value : string) (store : list kv_pair) : list kv_pair :=
  match find_key key store with
  | Some i => alter (put_value value) i store
  | None => if (length store <? MAX_PAIRS)%nat then store ++ [new_cell key value] else store
  end.

Definition get_value (key : string) (store : list kv_pair) : option string :=
  i ← find_key key store; p ← store !! i; Some p.2.

End DynamicLib.

(** [pthread_mutex_lock] of a mutex the same thread holds never returns. *)
Record locked_store := mkStore { items : list kv_pair; held : bool }.

Definition mutex_lock : cmd locked_store unit := fun s =>
  if held s then OutOfFuel else Done (tt, mkStore (items s) true).
Definition mutex_unlock : cmd locked_store unit := fun s =>
  Done (tt, mkStore (items s) false).

Module StaticLib.

Definition MAX_ITEMS : nat := 128.

Definition set_value (key val : string) : cmd locked_store unit :=
  mutex_lock;;
  store ← gets items;
  match find_key key store with
  | Some i =>
      modify (fun s => mkStore (alter (put_value val) i store) (held s));;
      mutex_unlock
  | None =>
      (if (length store <? MAX_ITEMS)%nat
       then modify (fun s => mkStore (store ++ [new_cell key val]) (held s)) else mret tt);;
      mutex_unlock
  end.

Definition get_value (key : string) : cmd locked_store (option string) :=
  mutex_lock;;
  store ← gets items;
  match find_key key store with
  | Some i => mutex_unlock;; mret (snd <$> store !! i)
  | None => mutex_unlock;; mret None
  end.

End StaticLib.

Module Server.

Definition MAX_ITEMS : nat := 128.

Definition set_value (k v : string) : cmd locked_store unit :=
  mutex_lock;;
  store ← gets items;
  match find_key k store with
  | Some i =>
      modify (fun s => mkStore (alter (put_value v) i store) (held s));;
      mutex_unlock
  | None =>
      (if (length store <? MAX_ITEMS)%nat
       then modify (fun s => mkStore (store ++ [new_cell k v]) (held s)) else mret tt);;
      mutex_unlock
  end.

(** no lock here *)
Definition get_value (k : string) : cmd locked_store (option string) :=
  store ← gets items;
  match find_key k store with
  | Some i => mret (snd <$> store !! i)
  | None => mret None
  end.

End Server.

(** ** The protocol *)

Section protocol.
Context {St : Type} `{!KVStore St}.

Definition BUF_SIZE : nat := 512.

(** one turn of the loop on the bytes of one [read]; the flag tells whether the
    loop goes on *)
Definition handle_chunk (chunk : string) (st : St) : St * list string * bool :=
  let buf := cut is_crlf chunk in
  match strip_prefix "SET " buf with
  | Some args =>
      match '(key, rest) ← scan_s 63 args; '(val, _) ← scan_line 255 (skip_ws rest); Some (key, val) with
      | Some (key, val) => (kv_set key val st, ["OK" +:+ nl], true)
      | None => (st, ["ERR usage: SET <key> <value>" +:+ nl], true)
      end
  | None =>
  match strip_prefix "GET " buf with
  | Some args =>
      match scan_s 63 args with
      | Some (key, _) =>
          match kv_get key st with
          | Some v => (st, ["VALUE " +:+ v +:+ nl], true)
          | None => (st, ["NOTFOUND" +:+ nl], true)
          end
      | None => (st, ["ERR usage: GET <key>" +:+ nl], true)
      end
  | None =>
      if streq buf "EXIT" then (st, ["BYE" +:+ nl], false)
      else (st, ["ERR unknown command" +:+ nl], true)
  end end.

(** the [while (1)] over the successive reads; [read] returning 0 ends the list *)
Fixpoint serve (chunks : list string) (st : St) : St * list string :=
  match chunks with
  | [] => (st, [])
  | chunk :: chunks' =>
      let '(st, out, go_on) := handle_chunk chunk st in
      if go_on : bool then let '(st, out') := serve chunks' st in (st, out ++ out')
      else (st, out)
  end.

Definition client_handler (chunks : list string) (st : St) : St * list string :=
  let '(st, out) := serve chunks st in (st, ["Mini KV Store ready" +:+ nl] ++ out).
End protocol.

#[export] Instance DynamicLib_kv : KVStore (list kv_pair) :=
  {| kv_set := DynamicLib.set_value; kv_get := DynamicLib.get_value |}.

(** a call on an unlocked store; the results are those of the command *)
Definition run_set (f : cmd locked_store unit) (s : locked_store) : locked_store :=
  match f s with Done (_, s') => s' | _ => s end.
Definition run_get (f : cmd locked_store (option string)) (s : locked_store) : option string :=
  match f s with Done (r, _) => r | _ => None end.

Definition static_kv : KVStore locked_store :=
  {| kv_set k v := run_set (StaticLib.set_value k v); kv_get k := run_get (StaticLib.get_value k) |}.
Definition server_kv : KVStore locked_store :=
  {| kv_set k v := run_set (Server.set_value k v); kv_get k := run_get (Server.get_value k) |}.

(** the handlers of the three servers *)
Definition dynamic_handler := client_handler (St := list kv_pair).
Definition static_handler := client_handler (St := locked_store) (KVStore0 := static_kv).
Definition server_handler := client_handler (St := locked_store) (KVStore0 := server_kv).

(** ** Specification of the array stores *)

Definition array_set (MAX : nat) (key value : string) (store : list kv_pair) : list kv_pair :=
  match find_key key store with
  | Some i => alter (put_value value) i store
  | None => if (length store <? MAX)%nat then store ++ [new_cell key value] else store
  end.

Definition array_room (MAX : nat) (key : string) (store : list kv_pair) : Prop :=
  key ∈ store.*1 \/ (length store < MAX)%nat.

Definition array_full (MAX : nat) (key : string) (store : list kv_pair) : Prop :=
  key ∉ store.*1 /\ (MAX <= length store)%nat.

Definition token (k : string) : Prop :=
  k <> "" /\ str_all (fun a => negb (is_space a)) k = true /\ (strlen k < 64)%nat.

Definition line_value (v : string) : Prop :=
  v <> "" /\ str_all (fun a => negb (is_crlf a)) v = true /\ head_is is_space v = false /\
  (strlen v < 256)%nat.

(** ** Lemmas *)

Lemma find_key_None key store : find_key key store = None <-> key ∉ store.*1.
Proof.
  induction store as [|[k v] store IH]; simpl; [set_solver|].
  destruct (streq k key) eqn:Hk.
  - apply streq_spec in Hk as ->. set_solver.
  - apply streq_false in Hk. rewrite not_elem_of_cons, <- IH.
    destruct (find_key key store); naive_solver.
Qed.

Lemma find_key_Some key store i : find_key key store = Some i ->
  exists s1 v s2, store = s1 ++ (key, v) :: s2 /\ length s1 = i /\ key ∉ s1.*1.
Proof.
  revert i. induction store as [|[k v] store IH]; intros i; simpl; [done|].
  destruct (streq k key) eqn:Hk.
  - apply streq_spec in Hk as ->. intros [= <-]. exists [], v, store. set_solver.
  - apply streq_false in Hk. destruct (find_key key store) as [j|]; [|done]. intros [= <-].
    destruct (IH j eq_refl) as (s1 & w & s2 & -> & <- & Hni).
    exists ((k, v) :: s1), w, s2. split_and!; [done|done|]. simpl. set_solver.
Qed.

Lemma array_get_assoc key store : DynamicLib.get_value key store = assoc key store.
Proof.
  unfold DynamicLib.get_value. destruct (find_key key store) as [i|] eqn:Hf.
  - destruct (find_key_Some _ _ _ Hf) as (s1 & v & s2 & -> & <- & Hni). simpl.
    rewrite list_lookup_middle by done. by rewrite assoc_mid.
  - symmetry. by apply assoc_None, find_key_None.
Qed.

Lemma array_get_set MAX key v store : (strlen key < 64)%nat -> (strlen v < 256)%nat ->
  array_room MAX key store -> assoc key (array_set MAX key v store) = Some v.
Proof.
  intros Hk Hv Hroom. unfold array_set. destruct (find_key key store) as [i|] eqn:Hf.
  - destruct (find_key_Some _ _ _ Hf) as (s1 & w & s2 & -> & <- & Hni).
    rewrite list_alter_mid. unfold put_value, VALUE_LEN. simpl fst. rewrite assoc_mid by done. by rewrite strtrunc_id by lia.
  - apply find_key_None in Hf. destruct Hroom as [?|Hlt]; [done|].
    destruct (Nat.ltb_spec (length store) MAX); [|lia]. unfold new_cell, KEY_LEN, VALUE_LEN.
    rewrite !strtrunc_id by lia. by rewrite assoc_mid.
Qed.

Lemma array_get_set_ne MAX key key' v store : (strlen key < 64)%nat -> key <> key' ->
  assoc key' (array_set MAX key v store) = assoc key' store.
Proof.
  intros Hk Hne. unfold array_set. destruct (find_key key store) as [i|] eqn:Hf.
  - destruct (find_key_Some _ _ _ Hf) as (s1 & w & s2 & -> & <- & Hni).
    rewrite list_alter_mid, !assoc_app. simpl. by rewrite !decide_False by done.
  - destruct (Nat.ltb_spec (length store) MAX); [|done]. unfold new_cell, KEY_LEN.
    rewrite strtrunc_id by lia. rewrite assoc_app. simpl. rewrite decide_False by done.
    by destruct (assoc key' store).
Qed.

Lemma array_set_full MAX key v store : array_full MAX key store ->
  array_set MAX key v store = store /\ assoc key store = None.
Proof.
  intros [Hni Hl]. pose proof Hni as Hf%find_key_None. unfold array_set. rewrite Hf.
  split; [by rewrite (proj2 (Nat.ltb_ge _ _) Hl)|by apply assoc_None].
Qed.

#[export] Program Instance DynamicLib_laws : KVStoreLaws (list kv_pair) :=
  {| kv_room := array_room DynamicLib.MAX_PAIRS; kv_full := array_full DynamicLib.MAX_PAIRS |}.
Next Obligation. intros. simpl. rewrite array_get_assoc. by apply array_get_set. Qed.
Next Obligation. intros. simpl. rewrite !array_get_assoc. by apply array_get_set_ne. Qed.
Next Obligation. intros. simpl. rewrite array_get_assoc. by apply array_set_full. Qed.

Lemma static_set_ok key v s : held s = false ->
  StaticLib.set_value key v s =
    Done (tt, mkStore (array_set StaticLib.MAX_ITEMS key v (items s)) false).
Proof.
  intros Hh. unfold StaticLib.set_value, mutex_lock, array_set, mbind, cmd_bind, gets.
  rewrite Hh. simpl. destruct (find_key key (items s)); [done|].
  by destruct (length (items s) <? StaticLib.MAX_ITEMS)%nat.
Qed.

Lemma static_get_ok key s : held s = false ->
  StaticLib.get_value key s = Done (assoc key (items s), s).
Proof.
  intros Hh. rewrite <- array_get_assoc. unfold StaticLib.get_value, DynamicLib.get_value.
  unfold mutex_lock, mbind, cmd_bind, gets. rewrite Hh. destruct s as [it h]. simpl in *. subst.
  destruct (find_key key it) as [i|]; [|done]. unfold mutex_unlock. simpl.
  by destruct (it !! i).
Qed.

Lemma server_set_ok key v s : held s = false ->
  Server.set_value key v s = Done (tt, mkStore (array_set Server.MAX_ITEMS key v (items s)) false).
Proof.
  intros Hh. unfold Server.set_value, mutex_lock, array_set, mbind, cmd_bind, gets.
  rewrite Hh. simpl. destruct (find_key key (items s)); [done|].
  by destruct (length (items s) <? Server.MAX_ITEMS)%nat.
Qed.

Lemma server_get_ok key s : Server.get_value key s = Done (assoc key (items s), s).
Proof.
  rewrite <- array_get_assoc. unfold Server.get_value, DynamicLib.get_value, mbind, cmd_bind, gets.
  destruct (find_key key (items s)) as [i|]; [|done]. simpl. by destruct (items s !! i).
Qed.

(** the laws for the stores with a mutex, in the states in which nobody holds it *)
Definition unlocked_room (MAX : nat) (key : string) (s : locked_store) : Prop := held s = false /\ array_room MAX key (items s).

Definition unlocked_full (MAX : nat) (key : string) (s : locked_store) : Prop := held s = false /\ array_full MAX key (items s).

Lemma unlocked_set_full MAX key v s : unlocked_full MAX key s ->
  mkStore (array_set MAX key v (items s)) false = s /\ assoc key (items s) = None.
Proof.
  intros [Hh Hf]. destruct (array_set_full MAX key v (items s) Hf) as [-> ?]. split; [|done].
  destruct s. simpl in Hh. by subst.
Qed.

Lemma held_cases s : held s = true \/ held s = false.
Proof. destruct (held s); auto. Qed.

#[export] Program Instance static_laws : KVStoreLaws locked_store (H := static_kv) :=
  {| kv_room := unlocked_room StaticLib.MAX_ITEMS; kv_full := unlocked_full StaticLib.MAX_ITEMS |}.
Next Obligation.
  intros s k v Hk Hv [Hh Hr]. cbn. unfold run_set, run_get. rewrite static_set_ok, static_get_ok by done. by apply array_get_set.
Qed.
Next Obligation.
  intros s k k' v Hk Hne. cbn. unfold run_set, run_get. destruct (held_cases s) as [Hh|Hh].
  - unfold StaticLib.set_value, mutex_lock, mbind, cmd_bind. by rewrite Hh.
  - rewrite static_set_ok, !static_get_ok by done. by eapply array_get_set_ne.
Qed.
Next Obligation.
  intros s k v Hf. cbn. unfold run_set, run_get. pose proof Hf as [Hh _]. rewrite static_set_ok, static_get_ok by done.
  by apply unlocked_set_full.
Qed.

#[export] Program Instance server_laws : KVStoreLaws locked_store (H := server_kv) :=
  {| kv_room := unlocked_room Server.MAX_ITEMS; kv_full := unlocked_full Server.MAX_ITEMS |}.
Next Obligation.
  intros s k v Hk Hv [Hh Hr]. cbn. unfold run_set, run_get. rewrite server_set_ok, server_get_ok by done. by apply array_get_set.
Qed.
Next Obligation.
  intros s k k' v Hk Hne. cbn. unfold run_set, run_get. destruct (held_cases s) as [Hh|Hh].
  - unfold Server.set_value, mutex_lock, mbind, cmd_bind. by rewrite Hh.
  - rewrite server_set_ok, !server_get_ok by done. by eapply array_get_set_ne.
Qed.
Next Obligation.
  intros s k v Hf. cbn. unfold run_set, run_get. pose proof Hf as [Hh _]. rewrite server_set_ok, server_get_ok by done.
  by apply unlocked_set_full.
Qed.

(** *** The requests *)

Lemma cut_request s : str_all (fun a => negb (is_crlf a)) s = true -> cut is_crlf (s +:+ nl) = s.
Proof. intros Hs. by apply cut_app. Qed.

Lemma handle_set {St} `{KVStore St} st k v : token k -> line_value v ->
  handle_chunk ("SET " +:+ k +:+ " " +:+ v +:+ nl) st = (kv_set k v st, ["OK" +:+ nl], true).
Proof.
  intros (Hk & Hks & Hkl) (Hv & Hvs & Hvh & Hvl). unfold handle_chunk.
  assert (str_all (fun a => negb (is_crlf a)) k = true) as Hkc by auto with iitm.
  assert (str_all (fun a => negb (is_newline a)) v = true) as Hvn.
  { revert Hvs. apply str_all_impl. intros a. unfold is_crlf. rewrite !negb_true_iff.
    by intros [_ ?]%orb_false_iff. }
  rewrite <- !(str_app_assoc _ _ nl), cut_request by (rewrite !str_all_app, Hkc, Hvs; done).
  rewrite strip_prefix_app. rewrite scan_s_app; [|done|done|lia|by left]. simpl.
  rewrite skip_ws_id by done. by rewrite scan_line_whole by (done || lia).
Qed.

Lemma handle_get {St} `{KVStore St} st k : token k ->
  handle_chunk ("GET " +:+ k +:+ nl) st =
    (st, [match kv_get k st with Some v => "VALUE " +:+ v +:+ nl | None => "NOTFOUND" +:+ nl end], true).
Proof.
  intros (Hk & Hks & Hkl). unfold handle_chunk.
  assert (str_all (fun a => negb (is_crlf a)) k = true) as Hkc by auto with iitm.
  rewrite <- !(str_app_assoc _ _ nl), cut_request by (rewrite !str_all_app, Hkc; done).
  assert (strip_prefix "SET " ("GET " +:+ k) = None) as -> by done.
  rewrite strip_prefix_app, scan_s_whole by (done || lia). by destruct (kv_get k st).
Qed.

(** ** Properties *)

(** C22: over any store that honours the interface, a client that is alone with the server and
    sends "SET k v" and then "GET k", where the key is not empty, has no white space and at
    most 63 characters, and the value is not empty, does not begin with white space, has no
    line end and at most 255 characters, reads OK for the first request; for the second it
    reads exactly its value when the store has room (the key is in it already, or it has fewer
    pairs than its array has cells), and NOTFOUND, the store being as before, when the array is
    full and the key is not in it. *)
Theorem set_then_get {St} `{KVStoreLaws St} st k v : token k -> line_value v ->
  (kv_room k st ->
    client_handler ["SET " +:+ k +:+ " " +:+ v +:+ nl; "GET " +:+ k +:+ nl] st =
      (kv_set k v st, ["Mini KV Store ready" +:+ nl; "OK" +:+ nl; "VALUE " +:+ v +:+ nl])) /\
  (kv_full k st ->
    client_handler ["SET " +:+ k +:+ " " +:+ v +:+ nl; "GET " +:+ k +:+ nl] st =
      (st, ["Mini KV Store ready" +:+ nl; "OK" +:+ nl; "NOTFOUND" +:+ nl])).
Proof.
  intros Hk Hv. unfold client_handler, serve. rewrite handle_set by done. cbn iota. rewrite handle_get by done.
  destruct Hk as (_ & _ & Hkl), Hv as (_ & _ & _ & Hvl). split; intros Hr; [by rewrite kv_get_set|].
  destruct (kv_set_full st k v Hr) as [-> ->]. done.
Qed.

(** The locked library implements the array store: from an unlocked state
    both calls return, leave the mutex unlocked on every path, and compute the
    array update and the lookup of the first matching key. *)
Theorem StaticLib_refines key v s : held s = false ->
  StaticLib.set_value key v s =
    Done (tt, mkStore (array_set StaticLib.MAX_ITEMS key v (items s)) false) /\
  StaticLib.get_value key s = Done (assoc key (items s), s).
Proof. intros Hh. split; [by apply static_set_ok|by apply static_get_ok]. Qed.

(** A key of 64 characters or more is stored cut to 63: it is never found again
    and every further set takes one more cell. *)
Definition long_key : string := String.concat "" (replicate 64 "k").

Lemma long_key_lost :
  DynamicLib.get_value long_key (DynamicLib.set_value long_key "v" []) = None /\
  length (DynamicLib.set_value long_key "w" (DynamicLib.set_value long_key "v" [])) = 2%nat.
Proof. by vm_compute. Qed.

(** Only the first line of a read is executed. *)
Lemma second_line_ignored :
  client_handler ["SET a 1" +:+ nl +:+ "SET b 2" +:+ nl; "GET b" +:+ nl] ([] : list kv_pair) =
    ([("a", "1")], ["Mini KV Store ready" +:+ nl; "OK" +:+ nl; "NOTFOUND" +:+ nl]).
Proof. by vm_compute. Qed.

(** ** Witnesses *)

(** an array of a hundred cells, all taken *)
Definition full_array : list kv_pair := map (fun i => (pretty i, "x")) (seq 0 100).

Lemma set_then_get_witness :
  dynamic_handler ["SET " +:+ "user" +:+ " " +:+ "Ada Lovelace" +:+ nl; "GET " +:+ "user" +:+ nl] [] =
    ([("user", "Ada Lovelace")],
     ["Mini KV Store ready" +:+ nl; "OK" +:+ nl; "VALUE Ada Lovelace" +:+ nl]) /\
  dynamic_handler ["SET " +:+ "user" +:+ " " +:+ "Ada Lovelace" +:+ nl; "GET " +:+ "user" +:+ nl] full_array =
    (full_array, ["Mini KV Store ready" +:+ nl; "OK" +:+ nl; "NOTFOUND" +:+ nl]).
Proof.
  assert (token "user") as Hk by (split_and!; [done|done|simpl; lia]).
  assert (line_value "Ada Lovelace") as Hv by (split_and!; [done|done|done|simpl; lia]).
  split.
  - etransitivity; [apply (proj1 (set_then_get (St := list kv_pair) [] "user" "Ada Lovelace" Hk Hv))|vm_compute; reflexivity].
    right. simpl; unfold DynamicLib.MAX_PAIRS; simpl; lia.
  - apply (proj2 (set_then_get (St := list kv_pair) full_array "user" "Ada Lovelace" Hk Hv)). split.
    + apply find_key_None. by vm_compute.
    + by vm_compute.
Defined.

Lemma StaticLib_refines_witness :
  StaticLib.set_value "a" "1" (mkStore [] false) = Done (tt, mkStore [("a", "1")] false) /\
  StaticLib.get_value "a" (mkStore [] false) = Done (None, mkStore [] false).
Proof. apply (StaticLib_refines "a" "1" (mkStore [] false)). reflexivity. Defined.
