(* ===== verification/KVSession.v ===== *)
(** * The clients of the locked key/value server

    Any number of copies of client.c of week 8/staticAndDynamicLIB/staticLIB talk to its
    server: [main] of the server accepts the connections and starts a thread for each, which
    runs [client_handler] over the store they share, through the calls of lib.c that lock it.

    A step is one system call of one client, of one thread or of [main] with the code up to the
    next one, or one step of a call on the store: the lock, the loop that looks for the key,
    the change of the cell with the unlock.  [get_value] returns a pointer into the array and
    [dprintf] reads the cell after the unlock, in a step of its own.  The model starts when the
    server listens, and the calls [socket], [connect], [accept] and [pthread_create] succeed.

    The other two servers of KVStore.v read their array without a lock while other threads
    write it, which is a data race; for them only the conversation of one client alone with the
    server is evaluated here. *)
From S2P Require Import Prelude CString Actors KVStore.

(** ** The clients *)

(** the requests of a client, in its order *)
Inductive request := RSet (i : nat) | RGet (i : nat) | RExit.

(** its system calls; a [read] is followed by the [printf] of what it got *)
Inductive c_stmt := CConnect | CRead | CWrite (buf : string) | CClose.

Definition is_exit (r : request) : bool := match r with RExit => true | _ => false end.

Definition key (i : nat) : string := "key" +:+ pretty i.

Definition BACKLOG : nat := 5.

Section clients.
(** [NUM_COMMANDS], and the value the client gives key [i] *)
Context (NUM_COMMANDS : nat) (value_of : nat -> string).

(** what [snprintf] leaves in [buf] *)
Definition text (r : request) : string :=
  match r with
  | RSet i => strtrunc (BUF_SIZE - 1) ("SET " +:+ key i +:+ " " +:+ value_of i +:+ nl)
  | RGet i => strtrunc (BUF_SIZE - 1) ("GET " +:+ key i +:+ nl)
  | RExit => "EXIT" +:+ nl
  end.

Definition program : list request :=
  flat_map (fun i => [RSet i; RGet i]) (seq 0 NUM_COMMANDS) ++ [RExit].

Definition stmts_of (rs : list request) : list c_stmt :=
  flat_map (fun r => [CWrite (text r); CRead]) rs ++ [CClose].

Definition client_main : list c_stmt := CConnect :: CRead :: stmts_of program.
End clients.

Definition dynamic_value (i : nat) : string := pretty i.
Definition static_value (i : nat) : string := "value" +:+ pretty i.

(** the three clients *)
Definition kv_client : list c_stmt := client_main 100 static_value.
Definition static_client : list c_stmt := client_main 10 static_value.
Definition dynamic_client : list c_stmt := client_main 10 dynamic_value.

(** ** The server *)

(** the call on the store a request is for *)
Inductive call := CSet (k v : string) | CGet (k : string).

(** what the handler makes of the bytes of one [read]: a call on the store, or its reply and
    whether the loop goes on *)
Definition parse_chunk (chunk : string) : call + string * bool :=
  let buf := cut is_crlf chunk in
  match strip_prefix "SET " buf with
  | Some args =>
      match '(key, rest) ← scan_s 63 args; '(val, _) ← scan_line 255 (skip_ws rest); Some (key, val) with
      | Some (key, val) => inl (CSet key val)
      | None => inr ("ERR usage: SET <key> <value>" +:+ nl, true)
      end
  | None =>
  match strip_prefix "GET " buf with
  | Some args =>
      match scan_s 63 args with
      | Some (key, _) => inl (CGet key)
      | None => inr ("ERR usage: GET <key>" +:+ nl, true)
      end
  | None => if streq buf "EXIT" then inr ("BYE" +:+ nl, false) else inr ("ERR unknown command" +:+ nl, true)
  end end.

Definition call_key (c : call) : string := match c with CSet k _ | CGet k => k end.

(** where the thread of a connection is: before [accept], before the greeting, in [read],
    before the lock (or the write of a reply that needs no store), after the lock, after the
    loop over the cells, before [dprintf] of a cell, before the write of a reply, before
    [close], and after it *)
Inductive h_control :=
| HNone | HGreet | HRead | HExec (chunk : string) | HIn (c : call) | HFound (c : call) (i : option nat)
| HPrint (i : nat) | HWrite (out : string) | HClose | HClosed.

(** a connection: the calls its client still makes, whether SIGPIPE killed it, the thread,
    what is on its way, and what the client's reads returned *)
Record session := mkSession {
  todo : list c_stmt; c_killed : bool; h_at : h_control;
  to_server : string; to_client : string; got : list string }.

(** the store with its mutex, the connections not yet accepted, and whether SIGPIPE killed the
    server *)
Record world := mkWorld {
  store : locked_store; pending : list nat; sessions : list session; server_killed : bool }.

Inductive actor := Client (j : nat) | Thread (j : nat) | Main.

(** [read(fd, buf, sizeof(buf) - 1)]: what it returns and what stays *)
Definition read_some (s : string) : string * string := span (BUF_SIZE - 1) (fun _ => true) s.

Definition put (j : nat) (s : session) (w : world) : world :=
  mkWorld (store w) (pending w) (<[j := s]> (sessions w)) (server_killed w).

(** the same, with a new store *)
Definition put_store (j : nat) (s : session) (st : locked_store) (w : world) : world :=
  mkWorld st (pending w) (<[j := s]> (sessions w)) (server_killed w).

(** the thread has closed its end, or the whole server is gone *)
Definition hung_up (w : world) (s : session) : bool :=
  server_killed w || match h_at s with HClosed => true | _ => false end.

(** one call of client [j], if it is not blocked or at its end *)
Definition client_act (j : nat) (w : world) : option world :=
  s ← sessions w !! j;
  match todo s with
  | [] => None
  | CConnect :: t =>
      if server_killed w then Some (put j (mkSession [] (c_killed s) (h_at s) (to_server s) (to_client s) (got s)) w)
      else if (length (pending w) <=? BACKLOG)%nat
      then Some (mkWorld (store w) (pending w ++ [j])
        (<[j := mkSession t (c_killed s) (h_at s) (to_server s) (to_client s) (got s)]> (sessions w)) false)
      else None
  | CRead :: t =>
      match to_client s with
      | EmptyString =>
          if hung_up w s then Some (put j (mkSession t (c_killed s) (h_at s) (to_server s) "" (got s)) w) else None
      | _ =>
          let p := read_some (to_client s) in
          Some (put j (mkSession t (c_killed s) (h_at s) (to_server s) p.2 (got s ++ [p.1])) w)
      end
  | CWrite buf :: t =>
      if hung_up w s then Some (put j (mkSession [] true (h_at s) (to_server s) (to_client s) (got s)) w)
      else Some (put j (mkSession t (c_killed s) (h_at s) (to_server s +:+ buf) (to_client s) (got s)) w)
  | CClose :: _ => Some (put j (mkSession [] (c_killed s) (h_at s) (to_server s) (to_client s) (got s)) w)
  end.

(** [write] of the thread: to a client that has closed its end it raises SIGPIPE *)
Definition thread_write (j : nat) (s : session) (m : string) (h : h_control) (w : world) : world :=
  match todo s with
  | [] => mkWorld (store w) (pending w) (sessions w) true
  | _ => put j (mkSession (todo s) (c_killed s) h (to_server s) (to_client s +:+ m) (got s)) w
  end.

(** after the write of a reply: the next turn of the loop, or [break] *)
Definition next_turn (go_on : bool) : h_control := if go_on then HRead else HClose.

(** [set_value] and [get_value] of lib.c after their loop found the cell [r]: what is done to
    the cells before the unlock, and where the thread goes on *)
Definition finish_call (c : call) (r : option nat) (store : list kv_pair) : list kv_pair * h_control :=
  match c, r with
  | CSet _ val, Some i => (alter (put_value val) i store, HWrite ("OK" +:+ nl))
  | CSet key val, None =>
      (if (length store <? StaticLib.MAX_ITEMS)%nat then store ++ [new_cell key val] else store, HWrite ("OK" +:+ nl))
  | CGet _, Some i => (store, HPrint i)
  | CGet _, None => (store, HWrite ("NOTFOUND" +:+ nl))
  end.

(** one step of the thread of connection [j] *)
Definition thread_act (j : nat) (w : world) : option world :=
  s ← sessions w !! j;
  let goto h := mkSession (todo s) (c_killed s) h (to_server s) (to_client s) (got s) in
  if server_killed w then None else
  match h_at s with
  | HNone | HClosed => None
  | HGreet => Some (thread_write j s ("Mini KV Store ready" +:+ nl) HRead w)
  | HRead =>
      match to_server s with
      | EmptyString => match todo s with [] => Some (put j (goto HClose) w) | _ => None end
      | _ =>
          let p := read_some (to_server s) in
          Some (put j (mkSession (todo s) (c_killed s) (HExec p.1) p.2 (to_client s) (got s)) w)
      end
  | HExec chunk =>
      match parse_chunk chunk with
      | inl c =>
          if held (store w) then None
          else Some (put_store j (goto (HIn c)) (mkStore (items (store w)) true) w)
      | inr (m, go_on) => Some (thread_write j s m (next_turn go_on) w)
      end
  | HIn c => Some (put j (goto (HFound c (find_key (call_key c) (items (store w))))) w)
  | HFound c r =>
      let '(store', h) := finish_call c r (items (store w)) in
      Some (put_store j (goto h) (mkStore store' false) w)
  | HPrint i =>
      p ← items (store w) !! i;
      Some (thread_write j s ("VALUE " +:+ p.2 +:+ nl) HRead w)
  | HWrite o => Some (thread_write j s o HRead w)
  | HClose => Some (put j (goto HClosed) w)
  end.

(** one turn of the loop in the server's [main]: [accept], [pthread_create] *)
Definition main_act (w : world) : option world :=
  if server_killed w then None else
  match pending w with
  | [] => None
  | j :: pending' =>
      s ← sessions w !! j;
      Some (mkWorld (store w) pending'
        (<[j := mkSession (todo s) (c_killed s) HGreet (to_server s) (to_client s) (got s)]> (sessions w)) false)
  end.

Definition act (a : actor) (w : world) : option world :=
  match a with Client j => client_act j w | Thread j => thread_act j w | Main => main_act w end.

Definition step : world -> world -> Prop := act_step act.

(** [N] clients before their [connect], and the empty store *)
Definition start (client : list c_stmt) (N : nat) : world :=
  mkWorld (mkStore [] false) [] (replicate N (mkSession client false HNone "" "" [])) false.

(** ** The specification *)

Section spec.
Context (value_of : nat -> string).

(** what the client is to read for each request *)
Definition reply (r : request) : string :=
  match r with
  | RSet _ => "OK" +:+ nl
  | RGet i => "VALUE " +:+ value_of i +:+ nl
  | RExit => "BYE" +:+ nl
  end.

Definition transcript (rs : list request) : list string := ("Mini KV Store ready" +:+ nl) :: map reply rs.

(** the cell of key [i] *)
Definition cell_of (i : nat) : kv_pair := (key i, value_of i).
End spec.

(** what a client writes, in its order *)
Definition writes (l : list c_stmt) : list string :=
  omap (fun c => match c with CWrite b => Some b | _ => None end) l.

(** the calls a connection can still make, weighted *)
Definition h_weight (h : h_control) : nat :=
  match h with
  | HNone => 4 | HGreet => 3 | HRead => 2 | HExec _ => 6 | HIn _ => 5 | HFound _ _ => 4
  | HPrint _ | HWrite _ => 3 | HClose => 1 | HClosed => 0
  end.

Definition weight (s : session) : nat :=
  (6 * length (todo s) + h_weight (h_at s) + match to_server s with EmptyString => 0 | _ => 5 end)%nat.

Definition total (w : world) : nat := sum_list_with weight (sessions w).

(** threads between the lock and the unlock *)
Definition inside (s : session) : nat := match h_at s with HIn _ | HFound _ _ => 1 | _ => 0 end.

(** ** The invariant *)

Section proofs.
Context (n : nat) (value_of : nat -> string).
Implicit Types (its : list kv_pair) (w : world) (s : session).

Local Abbreviation text := (text value_of).
Local Abbreviation program := (program n).
Local Abbreviation reply := (reply value_of).
Local Abbreviation transcript := (transcript value_of).
Local Abbreviation stmts_of := (stmts_of value_of).
Local Abbreviation client_main := (client_main n value_of).
Local Abbreviation cell_of := (cell_of value_of).

(** what the SETs of [ex] have put into the cells *)
Definition has its (ex : list request) : Prop := forall i, RSet i ∈ ex -> cell_of i ∈ its.

(** where a thread is that has answered everything, when the requests [rs] are still to come *)
Definition idle (rs : list request) (h : h_control) : Prop :=
  match rs with [] => h = HClose \/ h = HClosed | _ => h = HRead end.

(** the call on the store for a request *)
Definition call_of (r : request) : option call :=
  match r with RSet i => Some (CSet (key i) (value_of i)) | RGet i => Some (CGet (key i)) | RExit => None end.

(** where a thread is that serves the request [r], after [ex] *)
Definition serving its (ex : list request) (r : request) (h : h_control) : Prop :=
  match h with
  | HExec chunk => chunk = text r
  | HIn c => call_of r = Some c
  | HFound c o => call_of r = Some c /\ o = find_key (call_key c) its
  | HPrint p => exists i, r = RGet i /\ its !! p = Some (cell_of i)
  | HWrite o => exists i, r = RSet i /\ o = reply r /\ has its (ex ++ [r])
  | _ => False
  end.

(** the states of a conversation; [ex] are the requests it has been through *)
Inductive talk its : bool -> session -> Prop :=
| talk_new : talk its false (mkSession client_main false HNone "" "" [])
| talk_waiting : talk its true (mkSession (CRead :: stmts_of program) false HNone "" "" [])
| talk_greet : talk its false (mkSession (CRead :: stmts_of program) false HGreet "" "" [])
| talk_answered ex rs h g m : program = ex ++ rs -> has its ex -> idle rs h -> transcript ex = g ++ [m] ->
    talk its false (mkSession (CRead :: stmts_of rs) false h "" m g)
| talk_ready ex rs h : program = ex ++ rs -> has its ex -> idle rs h ->
    talk its false (mkSession (stmts_of rs) false h "" "" (transcript ex))
| talk_sent ex r rs : program = ex ++ r :: rs -> has its ex ->
    talk its false (mkSession (CRead :: stmts_of rs) false HRead (text r) "" (transcript ex))
| talk_serving ex r rs h : program = ex ++ r :: rs -> has its ex -> serving its ex r h ->
    talk its false (mkSession (CRead :: stmts_of rs) false h "" "" (transcript ex))
| talk_end h : has its program -> idle [] h -> talk its false (mkSession [] false h "" "" (transcript program)).

(** the cells are those of the clients' keys, each once *)
Definition store_ok its : Prop := NoDup its.*1 /\ Forall (fun p => exists i, (i < n)%nat /\ p = cell_of i) its.

(** the lock is held exactly when a thread is inside, and then one is *)
Definition inv w : Prop :=
  store_ok (items (store w)) /\ server_killed w = false /\ NoDup (pending w) /\
  Forall (fun j => (j < length (sessions w))%nat) (pending w) /\
  (forall j s, sessions w !! j = Some s -> talk (items (store w)) (bool_decide (j ∈ pending w)) s) /\
  sum_list_with inside (sessions w) = Nat.b2n (held (store w)).

(** a step keeps the invariant, changes no cell that is in the array, and counts *)
Definition good_step w w' : Prop :=
  inv w' /\ items (store w) `prefix_of` items (store w') /\ (total w' < total w)%nat.

(** ** Lemmas *)

(** *** The program *)

Lemma program_in r i : r ∈ program -> r = RSet i \/ r = RGet i -> (i < n)%nat.
Proof.
  unfold KVSession.program. intros [(j & Hr & Hj)%list_elem_of_In%in_flat_map|Hr]%elem_of_app Hi.
  - apply in_seq in Hr. destruct Hj as [<-|[<-|[]]]; destruct Hi as [[= <-]|[= <-]]; lia.
  - apply list_elem_of_singleton in Hr as ->. by destruct Hi.
Qed.

Lemma get_after_set a k ex i rs :
  flat_map (fun i => [RSet i; RGet i]) (seq a k) ++ [RExit] = ex ++ RGet i :: rs -> RSet i ∈ ex.
Proof.
  revert a ex. induction k as [|k IH]; intros a ex; simpl.
  - destruct ex as [|x [|y ex]]; simpl; intros E; discriminate.
  - destruct ex as [|x [|y ex]]; simpl; intros [=]; [subst; by left|]. subst. do 2 right. by eapply IH.
Qed.

Lemma exit_last ex r rs : program = ex ++ r :: rs -> is_exit r = match rs with [] => true | _ => false end.
Proof.
  unfold KVSession.program. destruct rs as [|x rs] using rev_ind.
  - intros [_ <-]%app_inj_tail. done.
  - rewrite app_comm_cons, app_assoc. intros [E _]%app_inj_tail.
    assert (r ∈ flat_map (fun i => [RSet i; RGet i]) (seq 0 n)) as Hr by (rewrite E; set_solver).
    apply list_elem_of_In, in_flat_map in Hr as (i & _ & [<-|[<-|[]]]); by destruct rs.
Qed.

Lemma idle_next ex r rs : program = ex ++ r :: rs -> idle rs (next_turn (negb (is_exit r))).
Proof. intros E%exit_last. rewrite E. destruct rs; simpl; auto. Qed.

Lemma has_snoc its ex r : has its ex -> (forall i, r = RSet i -> cell_of i ∈ its) -> has its (ex ++ [r]).
Proof. intros E Hr i [?|Hi%list_elem_of_singleton]%elem_of_app; auto. Qed.

Lemma has_mono its its' ex : its `prefix_of` its' -> has its ex -> has its' ex.
Proof. intros [more ->] Hh i Hi. apply elem_of_app. left. by apply Hh. Qed.

(** the other conversations stay as they are when cells are added, since none is inside *)
Lemma serving_mono its its' ex r h : its `prefix_of` its' -> its' = its \/ (forall c o, h <> HFound c o) ->
  serving its ex r h -> serving its' ex r h.
Proof.
  intros Hp Hs. destruct h; simpl; try done.
  - destruct Hs as [->|Hs]; [done|]. by destruct (Hs c i).
  - intros (i0 & -> & Hi). exists i0. split; [done|]. by eapply prefix_lookup_Some.
  - intros (i0 & -> & -> & Hh). exists i0. split_and!; [done|done|]. by eapply has_mono.
Qed.

Lemma talk_mono its its' b s : its `prefix_of` its' -> talk its b s -> its' = its \/ inside s = 0%nat -> talk its' b s.
Proof.
  intros Hp [| | |ex rs h g m Hx|ex rs h Hx|ex r rs Hx|ex r rs h Hx Hh Hs|h Hh] Hin; try (by constructor);
    try (econstructor; [exact Hx|by eapply has_mono|done..]).
  - apply (talk_serving _ ex r); [done|by eapply has_mono|]. apply (serving_mono its its'); [done| |done].
    destruct Hin as [?|Hin]; [by left|right]. by intros c o ->.
  - constructor; [|done]. by eapply has_mono.
Qed.

Lemma transcript_snoc ex r : transcript (ex ++ [r]) = transcript ex ++ [reply r].
Proof. unfold KVSession.transcript. by rewrite map_app. Qed.

(** *** One request *)

Context (Hkeys : forall i, (i < n)%nat -> token (key i)) (Hvals : forall i, (i < n)%nat -> line_value (value_of i)).

Lemma text_set i : (i < n)%nat -> text (RSet i) = "SET " +:+ key i +:+ " " +:+ value_of i +:+ nl.
Proof using Hkeys Hvals.
  intros Hi. apply strtrunc_id. destruct (Hkeys i Hi) as (_ & _ & Hk), (Hvals i Hi) as (_ & _ & _ & Hv).
  rewrite !strlen_app. unfold BUF_SIZE, nl. cbn [strlen]. lia.
Qed.

Lemma text_get i : (i < n)%nat -> text (RGet i) = "GET " +:+ key i +:+ nl.
Proof using Hkeys.
  intros Hi. apply strtrunc_id. destruct (Hkeys i Hi) as (_ & _ & Hk).
  rewrite !strlen_app. unfold BUF_SIZE, nl. cbn [strlen]. lia.
Qed.

(** a string that one [read] takes as a whole *)
Definition one_read (m : string) : Prop := m <> "" /\ read_some m = (m, "").

Lemma one_read_short m : m <> "" -> (strlen m < 512)%nat -> one_read m.
Proof using Type.
  intros Hne Hl. split; [done|]. apply span_whole; [|unfold BUF_SIZE; lia]. clear Hne Hl. by induction m.
Qed.

Lemma text_one_read r : r ∈ program -> one_read (text r).
Proof using Hkeys Hvals.
  intros Hr. destruct r as [i|i|]; [| |by apply one_read_short; [|cbn; lia]];
    assert (i < n)%nat as Hi by (eapply program_in; eauto); destruct (Hkeys i Hi) as (_ & _ & Hk), (Hvals i Hi) as (_ & _ & _ & Hv).
  - rewrite text_set by done. apply one_read_short; [done|]. rewrite !strlen_app. unfold nl. cbn [strlen]. lia.
  - rewrite text_get by done. apply one_read_short; [done|]. rewrite !strlen_app. unfold nl. cbn [strlen]. lia.
Qed.

Lemma transcript_one_read ex rs : program = ex ++ rs -> Forall one_read (transcript ex).
Proof using Hkeys Hvals.
  intros Hp. apply List.Forall_cons; [by apply one_read_short; [|cbn; lia]|]. apply Forall_forall.
  intros m (r & -> & Hr)%list_elem_of_fmap. destruct r as [i|i|]; try by apply one_read_short; [|cbn; lia].
  assert (i < n)%nat as Hi by (apply (program_in (RGet i)); [rewrite Hp; set_solver|by right]).
  destruct (Hvals i Hi) as (_ & _ & _ & Hv). apply one_read_short; [done|]. cbn [KVSession.reply]. rewrite !strlen_app. unfold nl. cbn [strlen]. lia.
Qed.

Lemma key_inj i j : key i = key j -> i = j.
Proof using Type. unfold key. intros E. apply (inj (String.append "key")) in E. by apply (inj pretty) in E. Qed.

(** *** The calls on the store *)

Lemma parse_text r : r ∈ program ->
  parse_chunk (text r) = match call_of r with Some c => inl c | None => inr (reply r, false) end.
Proof using Hkeys Hvals.
  intros Hr. destruct r as [i|i|]; [| |done]; assert (i < n)%nat as Hi by (eapply program_in; eauto); unfold parse_chunk;
    destruct (Hkeys i Hi) as (Hk & Hks & Hkl); assert (str_all (fun a => negb (is_crlf a)) (key i) = true) as Hkc by auto with iitm.
  - destruct (Hvals i Hi) as (Hv & Hvs & Hvh & Hvl).
    assert (str_all (fun a => negb (is_newline a)) (value_of i) = true) as Hvn.
    { revert Hvs. apply str_all_impl. intros a. unfold is_crlf. rewrite !negb_true_iff. by intros [_ ?]%orb_false_iff. }
    rewrite text_set, <- !(str_app_assoc _ _ nl), cut_request by (try rewrite !str_all_app, Hkc, Hvs; done).
    rewrite strip_prefix_app. rewrite scan_s_app; [|done|done|lia|by left]. simpl.
    rewrite skip_ws_id by done. by rewrite scan_line_whole by (done || lia).
  - rewrite text_get, <- !(str_app_assoc _ _ nl), cut_request by (try rewrite !str_all_app, Hkc; done).
    assert (strip_prefix "SET " ("GET " +:+ key i) = None) as -> by done.
    by rewrite strip_prefix_app, scan_s_whole by (done || lia).
Qed.

Context (Hcap : (n <= StaticLib.MAX_ITEMS)%nat).

(** there is a cell for a key that is not in the array: the array holds nothing else *)
Lemma cell_free its i : store_ok its -> (i < n)%nat -> key i ∉ its.*1 -> (length its < StaticLib.MAX_ITEMS)%nat.
Proof using Hcap.
  intros [Hnd Hin] Hi Hni. eapply Nat.lt_le_trans; [|exact Hcap].
  assert (key i :: its.*1 ⊆+ map key (seq 0 n)) as Hsub.
  { apply NoDup_submseteq; [by constructor|]. intros k [->|(p & -> & Hp)%list_elem_of_fmap]%elem_of_cons; apply list_elem_of_fmap.
    - exists i. split; [done|]. apply elem_of_seq. lia.
    - rewrite Forall_forall in Hin. destruct (Hin p Hp) as (j & Hj & ->). exists j. split; [done|]. apply elem_of_seq. lia. }
  apply submseteq_length in Hsub. rewrite length_map, length_seq in Hsub. simpl in Hsub. rewrite length_fmap in Hsub. lia.
Qed.

Lemma found_cell its i p : store_ok its -> find_key (key i) its = Some p ->
  exists s1 s2 : list kv_pair, its = s1 ++ cell_of i :: s2 /\ length s1 = p.
Proof using Type.
  intros [_ Hin] (s1 & v & s2 & -> & <- & _)%find_key_Some. exists s1, s2. split; [|done].
  apply Forall_app in Hin as [_ [(j & Hj & E) _]%Forall_cons_1]. assert (key i = key j) as ->%key_inj by exact (f_equal fst E). by rewrite E.
Qed.

(** what a call does between the loop and the unlock *)
Lemma finish_ok its ex r rs c : store_ok its -> has its ex -> program = ex ++ r :: rs -> call_of r = Some c ->
  exists its' h, finish_call c (find_key (call_key c) its) its = (its', h) /\ store_ok its' /\ its `prefix_of` its' /\
    serving its' ex r h /\ ((exists p, h = HPrint p) \/ exists o, h = HWrite o).
Proof using Hcap Hkeys Hvals.
  intros Hok Hh Hp Hc. assert (forall i, r = RSet i \/ r = RGet i -> (i < n)%nat) as Hin.
  { intros i. apply program_in. rewrite Hp. set_solver. }
  destruct r as [i|i|]; [| |done]; injection Hc as <-; cbn [call_key]; destruct (find_key (key i) its) as [p|] eqn:Hf; cbn [finish_call].
  - destruct (found_cell its i p Hok Hf) as (s1 & s2 & -> & <-). rewrite list_alter_mid.
    assert (put_value (value_of i) (cell_of i) = cell_of i) as ->.
    { unfold put_value. destruct (Hvals i) as (_ & _ & _ & Hv); [auto|]. by rewrite strtrunc_id by (unfold VALUE_LEN; lia). }
    do 2 eexists. split_and!; [done|done|done| |by right; eexists]. exists i. split_and!; [done|done|]. apply has_snoc; [done|].
    intros j [= <-]. apply elem_of_app. right. by left.
  - apply find_key_None in Hf. specialize (Hin i (or_introl eq_refl)).
    rewrite (proj2 (Nat.ltb_lt _ _)) by by eapply cell_free.
    assert (new_cell (key i) (value_of i) = cell_of i) as ->.
    { destruct (Hvals i Hin) as (_ & _ & _ & Hv), (Hkeys i Hin) as (_ & _ & Hk). unfold new_cell.
      by rewrite !strtrunc_id by (unfold KEY_LEN, VALUE_LEN; lia). }
    destruct Hok as [Hnd Hall]. do 2 eexists. split_and!; [done| |by eexists| |by right; eexists].
    + split; [|by apply Forall_app; split; [|constructor; [eauto|constructor]]]. rewrite fmap_app. apply NoDup_app.
      split_and!; [done| |apply NoDup_singleton]. intros k Hk ->%list_elem_of_singleton. done.
    + exists i. split_and!; [done|done|]. apply has_snoc; [by eapply has_mono; [by eexists|]|].
      intros j [= <-]. apply elem_of_app. right. by left.
  - destruct (found_cell its i p Hok Hf) as (s1 & s2 & -> & <-). do 2 eexists. split_and!; [done|done|done| |by left; eexists].
    exists i. split; [done|]. by apply list_lookup_middle.
  - apply find_key_None in Hf. destruct Hf. apply list_elem_of_fmap. exists (cell_of i). split; [done|]. apply Hh.
    by eapply get_after_set.
Qed.


(** *** The steps keep the invariant *)

Local Ltac falls := unfold weight; cbn [todo h_at to_server h_weight length fst snd KVSession.client_main KVSession.stmts_of flat_map app]; repeat case_match; lia.

Lemma inv_update w j s s' st' pend' : inv w -> sessions w !! j = Some s -> (weight s' < weight s)%nat -> store_ok (items st') ->
  items (store w) `prefix_of` items st' -> items st' = items (store w) \/ inside s = 1%nat ->
  (inside s' + Nat.b2n (held (store w)) = inside s + Nat.b2n (held st'))%nat ->
  NoDup pend' -> (forall k, k <> j -> k ∈ pend' <-> k ∈ pending w) -> talk (items st') (bool_decide (j ∈ pend')) s' ->
  good_step w (mkWorld st' pend' (<[j := s']> (sessions w)) false).
Proof.
  intros (_ & _ & _ & Hall & Htalk & Hlock) Hj Hw Hok Hpre Hsame Hin Hnd Hpend Ht. rewrite Forall_forall in Hall.
  split; [|by split; [|eapply sum_list_with_decr]]. unfold inv. cbn [store pending sessions server_killed]. split_and!; try done.
  - apply Forall_forall. intros k Hk. rewrite length_insert. destruct (decide (k = j)) as [->|?]; [by eapply lookup_lt_Some|].
    apply Hall. by apply Hpend.
  - intros k t Hk. destruct (decide (k = j)) as [->|Hne].
    + rewrite list_lookup_insert_eq in Hk by by eapply lookup_lt_Some. by injection Hk as <-.
    + rewrite list_lookup_insert_ne in Hk by done. rewrite (bool_decide_ext _ _ (Hpend k Hne)).
      eapply talk_mono; [done|by apply Htalk|]. destruct Hsame as [?|Hs]; [by left|right].
      pose proof (sum_list_with_two inside _ j k s t (not_eq_sym Hne) Hj Hk). destruct (held (store w)); simpl in Hlock; lia.
  - pose proof (sum_list_with_insert inside _ _ _ s' Hj). lia.
Qed.

(** who is inside has the lock *)
Lemma inside_held w j s : inv w -> sessions w !! j = Some s -> inside s = 1%nat -> held (store w) = true.
Proof.
  intros (_ & _ & _ & _ & _ & Hlock) Hs Hin. pose proof (sum_list_with_in s inside _ (list_elem_of_lookup_2 _ _ _ Hs)).
  destruct (held (store w)); [done|]. simpl in Hlock. lia.
Qed.

(** a step of one connection that leaves the store alone *)
Lemma inv_put w j s s' : inv w -> sessions w !! j = Some s -> (weight s' < weight s)%nat -> inside s' = inside s ->
  talk (items (store w)) (bool_decide (j ∈ pending w)) s' -> good_step w (put j s' w).
Proof.
  intros Hi Hs Hw Hin Ht. pose proof Hi as (Hok & Hkill & Hnd & _). unfold put. rewrite Hkill.
  eapply inv_update; try done; [by left|lia].
Qed.

Lemma program_cons : exists r rs, program = r :: rs.
Proof. unfold KVSession.program. destruct (flat_map _ _) as [|r rs]; simpl; eauto. Qed.

Lemma idle_program : idle program HRead.
Proof. by destruct program_cons as (r & rs & ->). Qed.

Lemma idle_outside rs t k h ts tc g : idle rs h -> inside (mkSession t k h ts tc g) = 0%nat.
Proof. destruct rs; simpl; [intros [-> | ->]|intros ->]; done. Qed.

(** a read finds the whole of the last reply *)
Lemma answer_read ex rs g m : program = ex ++ rs -> transcript ex = g ++ [m] -> one_read m.
Proof.
  intros Hp Ht. pose proof (transcript_one_read ex rs Hp) as Hall. rewrite Ht in Hall. apply Forall_app in Hall as [_ Hm].
  by inversion Hm.
Qed.

Lemma session_client_inv j w w' : inv w -> client_act j w = Some w' -> good_step w w'.
Proof.
  intros Hi. pose proof Hi as (Hok & Hkill & Hnd & _ & Htalk & _). unfold client_act.
  destruct (sessions w !! j) as [s|] eqn:Hs; [|done]. simpl. specialize (Htalk j s Hs).
  pose proof (fun s' => inv_put w j s s' Hi Hs) as Hput.
  unfold hung_up. rewrite Hkill. remember (bool_decide (j ∈ pending w)) as b eqn:Hb.
  destruct Htalk as [| | |ex rs h g m Hp Hh Hid Ht|ex rs h Hp Hh Hid| |ex r rs h Hp Hh Hsv|]; cbn [todo h_at to_server to_client got c_killed orb KVSession.client_main]; try done.
  - case_match; [|done]. intros [= <-]. symmetry in Hb. apply bool_decide_eq_false in Hb.
    eapply inv_update; [done|exact Hs|falls|done|done|by left|done| | |].
    + apply NoDup_app. split_and!; [done|set_solver|apply NoDup_singleton].
    + set_solver.
    + rewrite bool_decide_true by set_solver. constructor.
  - destruct (answer_read ex rs g m Hp Ht) as [Hne Hr]. destruct m as [|a m]; [done|]. rewrite Hr. intros [= <-].
    apply Hput; [falls|by rewrite !(idle_outside rs _ _ h)|]. rewrite <- Ht. by constructor.
  - destruct rs as [|r rs]; cbn.
    + intros [= <-]. rewrite app_nil_r in Hp. subst ex. apply Hput; [falls|by rewrite !(idle_outside [] _ _ h)|]. by constructor.
    + cbn in Hid. subst h. intros [= <-]. apply Hput; [falls|done|]. by constructor.
  - by destruct h.
Qed.

(** the thread writes to a client that is still there *)
Lemma thread_write_put j c t k h0 ts tc g m h w : thread_write j (mkSession (c :: t) k h0 ts tc g) m h w =
  put j (mkSession (c :: t) k h ts (tc +:+ m) g) w.
Proof. done. Qed.

(** the reply to [r] is on its way *)
Lemma answered its ex r rs h : program = ex ++ r :: rs -> has its (ex ++ [r]) -> idle rs h ->
  talk its false (mkSession (CRead :: stmts_of rs) false h "" (reply r) (transcript ex)).
Proof. intros Hp Hh Hid. apply (talk_answered _ (ex ++ [r])); [by rewrite <- app_assoc|done..|apply transcript_snoc]. Qed.

(** a thread that serves a request *)
Lemma serving_step w j ex r rs h w' :
  inv w -> sessions w !! j = Some (mkSession (CRead :: stmts_of rs) false h "" "" (transcript ex)) ->
  bool_decide (j ∈ pending w) = false -> program = ex ++ r :: rs -> has (items (store w)) ex -> serving (items (store w)) ex r h ->
  thread_act j w = Some w' -> good_step w w'.
Proof.
  intros Hi Hs Hb Hp Hh Hsv. pose proof Hi as (Hok & Hkill & Hnd & _ & _ & _). unfold thread_act. rewrite Hs. simpl. rewrite Hkill.
  pose proof (fun s' => inv_put w j _ s' Hi Hs) as Hput. rewrite Hb in Hput. pose proof (idle_next ex r rs Hp) as Hid.
  destruct h as [| | |chunk|c|c o|p|o| |]; try done; cbn [serving] in Hsv.
  - subst chunk. rewrite parse_text by (rewrite Hp; set_solver). destruct (call_of r) as [c|] eqn:Hc.
    + destruct (held (store w)) eqn:Hheld; [done|]. intros [= <-]. unfold put_store. rewrite Hkill.
      eapply inv_update; try done; [falls|by left|by rewrite Hheld|]. rewrite Hb. by apply (talk_serving _ ex r).
    + destruct r; try done. intros [= <-]. rewrite thread_write_put. apply Hput; [falls|done|].
      apply (answered _ ex RExit rs (next_turn false)); [done|by apply has_snoc|done].
  - intros [= <-]. apply Hput; [falls|done|]. by apply (talk_serving _ ex r).
  - destruct Hsv as [Hc ->]. destruct (finish_ok _ ex r rs c Hok Hh Hp Hc) as (its' & h & -> & Hok' & Hpre & Hsv' & Hout).
    intros [= <-]. unfold put_store. rewrite Hkill.
    eapply inv_update; try done; [destruct Hout as [[? ->]|[? ->]]; falls|by right| |rewrite Hb; apply (talk_serving _ ex r); [done|by eapply has_mono|done]].
    rewrite (inside_held w j _ Hi Hs) by done. by destruct Hout as [[? ->]|[? ->]].
  - destruct Hsv as (i & -> & Hc). rewrite Hc. intros [= <-]. rewrite thread_write_put. apply Hput; [falls|done|].
    apply (answered _ ex (RGet i) rs); [done|by apply has_snoc|done].
  - destruct Hsv as (i & -> & -> & Hh'). intros [= <-]. rewrite thread_write_put. apply Hput; [falls|done|].
    by apply (answered _ ex (RSet i) rs).
Qed.

Lemma session_thread_inv j w w' : inv w -> thread_act j w = Some w' -> good_step w w'.
Proof.
  intros Hi. pose proof Hi as (Hok & Hkill & Hnd & _ & Htalk & _). intros Ha. pose proof Ha as Ha'. revert Ha. unfold thread_act.
  destruct (sessions w !! j) as [s|] eqn:Hs; [|done]. simpl. specialize (Htalk j s Hs).
  pose proof (fun s' => inv_put w j s s' Hi Hs) as Hput. rewrite Hkill. remember (bool_decide (j ∈ pending w)) as b eqn:Hb.
  destruct Htalk as [| | |ex rs h g m Hp Hh Hid Ht|ex rs h Hp Hh Hid|ex r rs Hp Hh|ex r rs h Hp Hh Hsv|h Hh Hid].
  7: { intros _. eapply serving_step; [exact Hi|exact Hs|by symmetry|done..]. }
  all: cbn [todo h_at to_server to_client got c_killed]; try done.
  - rewrite thread_write_put. intros [= <-]. apply Hput; [falls|done|].
    by apply (talk_answered _ [] program HRead []); [|intros i ?%not_elem_of_nil|apply idle_program|].
  - destruct rs; cbn in Hid; [destruct Hid as [-> | ->]|subst h]; try done. intros [= <-]. apply Hput; [falls|done|]. econstructor; try done. by right.
  - destruct rs; cbn in Hid; [destruct Hid as [-> | ->]|subst h]; try done. intros [= <-]. apply Hput; [falls|done|]. econstructor; try done. by right.
  - destruct (text_one_read r) as [Hne Hr]; [rewrite Hp; set_solver|]. destruct (text r) as [|a m] eqn:Hm; [done|]. rewrite Hr. intros [= <-].
    apply Hput; [falls|done|]. rewrite <- Hm. by apply (talk_serving _ ex r).
  - destruct Hid as [-> | ->]; [|done]. intros [= <-]. apply Hput; [falls|done|]. constructor; [done|by right].
Qed.

Lemma session_main_inv w w' : inv w -> main_act w = Some w' -> good_step w w'.
Proof.
  intros Hi. pose proof Hi as (Hok & Hkill & Hnd & _ & Htalk & _). unfold main_act. rewrite Hkill.
  destruct (pending w) as [|j p] eqn:Hp; [done|]. destruct (sessions w !! j) as [s|] eqn:Hs; [|done]. simpl. intros [= <-].
  specialize (Htalk j s Hs). apply NoDup_cons in Hnd as [Hj Hnd]. rewrite bool_decide_true in Htalk by by left.
  inversion Htalk; subst. eapply inv_update; [done|exact Hs|falls|done|done|by left|done|done| |].
  - intros k Hne. rewrite Hp. set_solver.
  - cbn. rewrite bool_decide_false by done. constructor.
Qed.

Lemma session_step_inv w w' : inv w -> step w w' -> good_step w w'.
Proof. intros Hi ([j|j|] & Ha); [by eapply session_client_inv|by eapply session_thread_inv|by apply session_main_inv]. Qed.

Lemma session_steps k w w' : nsteps step k w w' -> inv w -> inv w' /\ (k + total w' <= total w)%nat.
Proof. apply nsteps_bounded. intros w1 w2 Hi Hs. by destruct (session_step_inv w1 w2 Hi Hs) as (? & _ & ?). Qed.

(** *** Progress *)

(** a conversation is over: the client has ended by itself and the thread has closed *)
Definition over s : Prop := todo s = [] /\ h_at s = HClosed /\ c_killed s = false /\ got s = transcript program.

Lemma thread_goes w j s : server_killed w = false -> sessions w !! j = Some s -> (0 < inside s)%nat -> exists w', step w w'.
Proof.
  intros Hkill Hs Hin. unfold inside in Hin. destruct (h_at s) as [| | | |c|c o| | | |] eqn:Hh; try lia; unfold step, act_step.
  - eexists (put j _ w), (Thread j). cbn. unfold thread_act. by rewrite Hs, Hkill; simpl; rewrite Hh.
  - destruct (finish_call c o (items (store w))) as [its' h] eqn:Hf. eexists (put_store j _ _ w), (Thread j). cbn. unfold thread_act.
    by rewrite Hs, Hkill; simpl; rewrite Hh, Hf.
Qed.

(** who waits for the lock waits for a thread that can go on *)
Lemma held_goes w : inv w -> held (store w) = true -> exists w', step w w'.
Proof.
  intros (_ & Hkill & _ & _ & _ & Hlock) Hheld. rewrite Hheld in Hlock.
  destruct (sum_list_with_pos inside (sessions w)) as (j & s & Hs & Hin); [simpl in Hlock; lia|]. by eapply thread_goes.
Qed.

(** a conversation that is not over can go on, or [main] or the owner of the lock can *)
Lemma session_progress w j s : inv w -> sessions w !! j = Some s -> over s \/ exists w', step w w'.
Proof.
  intros Hi Hs. pose proof Hi as (Hok & Hkill & _ & Hall & Htalk & _). specialize (Htalk j s Hs).
  assert (pending w <> [] -> exists w', step w w') as Hmain.
  { destruct (pending w) as [|j0 p] eqn:Hp; [done|intros _]. apply Forall_cons in Hall as [[s0 Hs0]%lookup_lt_is_Some _].
    eexists. exists Main. cbn. unfold main_act. by rewrite Hkill, Hp, Hs0. }
  assert (forall a, is_Some (act a w) -> over s \/ exists w', step w w') as Hgo by (intros a [w' Ha]; right; by exists w', a).
  remember (bool_decide (j ∈ pending w)) as b eqn:Hb.
  destruct Htalk as [| | |ex rs h g m Hp Hh Hid Ht|ex rs h Hp Hh Hid|ex r rs Hp Hh|ex r rs h Hp Hh Hsv|h Hh Hid].
  - destruct (decide (pending w = [])) as [Hp|Hp]; [|by right; apply Hmain]. apply (Hgo (Client j)). cbn. unfold client_act. rewrite Hs, Hkill, Hp. simpl. eauto.
  - right. apply Hmain. intros Hp. rewrite Hp in Hb. symmetry in Hb. apply bool_decide_eq_true in Hb. by apply not_elem_of_nil in Hb.
  - apply (Hgo (Thread j)). cbn. unfold thread_act. rewrite Hs, Hkill. simpl. eauto.
  - apply (Hgo (Client j)). cbn. unfold client_act. rewrite Hs. destruct (answer_read ex rs g m Hp Ht) as [Hne _]. destruct m; [done|]. simpl. eauto.
  - apply (Hgo (Client j)). cbn. unfold client_act. rewrite Hs. destruct rs as [|r rs]; simpl; [eauto|]. cbn in Hid. subst h. unfold hung_up. rewrite Hkill. simpl. eauto.
  - apply (Hgo (Thread j)). cbn. unfold thread_act. rewrite Hs, Hkill. destruct (text_one_read r) as [Hne _]; [rewrite Hp; set_solver|].
    cbn [mbind option_bind h_at to_server]. destruct (text r); [done|]. eauto.
  - destruct (held (store w)) eqn:Hheld; [by right; apply held_goes|]. apply (Hgo (Thread j)). cbn. unfold thread_act. rewrite Hs, Hkill.
    cbn [mbind option_bind h_at]. destruct h as [| | |chunk|c|c o|p|o| |]; try done; cbn [serving] in Hsv.
    + rewrite Hheld. destruct (parse_chunk chunk) as [?|[? ?]]; by eexists.
    + destruct (finish_call _ _ _). by eexists.
    + destruct Hsv as (i & _ & ->). by eexists.
  - destruct Hid as [-> | ->]; [|by left]. apply (Hgo (Thread j)). cbn. unfold thread_act. rewrite Hs, Hkill. simpl. eauto.
Qed.

Lemma sessions_progress w : inv w -> (exists w', step w w') \/ forall j s, sessions w !! j = Some s -> over s.
Proof.
  intros Hi. assert (forall l : list session, (forall s, s ∈ l -> over s \/ exists w', step w w') -> (exists w', step w w') \/ forall s, s ∈ l -> over s) as Hl.
  { induction l as [|s l IH]; intros Hp; [right; set_solver|]. destruct (Hp s) as [Ho|?]; [by left| |by left].
    destruct IH as [?|Hr]; [set_solver|by left|right]. intros s' [->|?]%elem_of_cons; auto. }
  destruct (Hl (sessions w)) as [?|Ho]; [|by left|].
  - intros s [j Hs]%list_elem_of_lookup. by eapply session_progress.
  - right. intros j s Hs. apply Ho. by eapply list_elem_of_lookup_2.
Qed.

Lemma session_start_inv N : inv (start client_main N).
Proof.
  unfold inv, start, store_ok. cbn [store items held pending sessions server_killed].
  split_and!; [constructor|constructor|done|constructor|constructor| |by induction N].
  intros j s [-> _]%lookup_replicate. rewrite bool_decide_false by apply not_elem_of_nil. constructor.
Qed.

(** what a client has read when it is where it is *)
Lemma talk_prefix its b s : talk its b s -> got s `prefix_of` transcript program /\ c_killed s = false.
Proof.
  intros [| | |ex rs h g m Hp Hh Hid Ht|ex rs h Hp|ex r rs Hp|ex r rs h Hp|h]; cbn; split; try (done || apply prefix_nil);
    try (rewrite Hp; unfold KVSession.transcript; rewrite map_app; apply prefix_cons; by eexists).
  etransitivity; [exists [m]; exact Ht|]. rewrite Hp. unfold KVSession.transcript. rewrite map_app. apply prefix_cons. by eexists.
Qed.

(** when a client is through, the store holds the cells of all *)
Lemma final_store w j s : inv w -> sessions w !! j = Some s -> over s -> items (store w) ≡ₚ map cell_of (seq 0 n).
Proof.
  intros ((Hnd & Hin) & _ & _ & _ & Htalk & _) Hs (Htd & Hh & _ & Hg). specialize (Htalk j s Hs).
  assert (has (items (store w)) program) as Hall by (inversion Htalk; subst; cbn in *; try done; destruct rs; done).
  apply NoDup_Permutation; [by apply NoDup_fmap_1 in Hnd|apply NoDup_fmap_2_strong; [intros i i' _ _ E; apply key_inj, (f_equal fst E)|apply NoDup_seq]|].
  intros p. rewrite list_elem_of_fmap. rewrite Forall_forall in Hin. split.
  - intros (i & Hi & ->)%Hin. exists i. split; [done|]. apply elem_of_seq. lia.
  - intros (i & -> & Hi%elem_of_seq). apply Hall. apply elem_of_app. left. apply list_elem_of_In, in_flat_map.
    exists i. split; [apply in_seq; lia|by left].
Qed.
End proofs.

(** *** The keys and values of the clients *)

Definition token_b (k : string) : bool :=
  negb (streq k "") && str_all (fun a => negb (is_space a)) k && (strlen k <? 64)%nat.

Definition line_value_b (v : string) : bool :=
  negb (streq v "") && str_all (fun a => negb (is_crlf a)) v && negb (head_is is_space v) && (strlen v <? 256)%nat.

Lemma token_spec k : token_b k = true -> token k.
Proof.
  unfold token_b. rewrite !andb_true_iff, negb_true_iff, Nat.ltb_lt. intros ((Hne%streq_false & Hs) & Hl). by split_and!.
Qed.

Lemma line_value_spec v : line_value_b v = true -> line_value v.
Proof.
  unfold line_value_b. rewrite !andb_true_iff, !negb_true_iff, Nat.ltb_lt. intros (((Hne%streq_false & Hs) & Hh) & Hl). by split_and!.
Qed.

Lemma below (P : nat -> bool) n : forallb P (seq 0 n) = true -> forall i, (i < n)%nat -> P i = true.
Proof. rewrite forallb_forall. intros Hf i Hi. apply Hf, in_seq. lia. Qed.

Lemma keys_token i : (i < 100)%nat -> token (key i).
Proof. intros Hi. apply token_spec. by apply (below (fun i => token_b (key i)) 100); [vm_compute|]. Qed.

Lemma dynamic_values i : (i < 10)%nat -> line_value (dynamic_value i).
Proof. intros Hi. apply line_value_spec. by apply (below (fun i => line_value_b (dynamic_value i)) 10); [vm_compute|]. Qed.

Lemma static_values i : (i < 100)%nat -> line_value (static_value i).
Proof. intros Hi. apply line_value_spec. by apply (below (fun i => line_value_b (static_value i)) 100); [vm_compute|]. Qed.

Lemma start_total N : total (start static_client N) = (N * 274)%nat.
Proof.
  assert (weight (mkSession static_client false HNone "" "" []) = 274%nat) as Hw by by vm_compute.
  unfold total, start. cbn [sessions]. induction N as [|N IH]; [done|]. cbn [replicate sum_list_with]. rewrite IH, Hw. lia.
Qed.

(** taking a chunk apart and then calling the locked store is [handle_chunk] of KVStore.v *)
Lemma parse_chunk_handle chunk st : handle_chunk (KVStore0 := static_kv) chunk st =
  match parse_chunk chunk with
  | inl (CSet k v) => (kv_set (KVStore := static_kv) k v st, ["OK" +:+ nl], true)
  | inl (CGet k) => (st, [match kv_get (KVStore := static_kv) k st with Some v => "VALUE " +:+ v +:+ nl | None => "NOTFOUND" +:+ nl end], true)
  | inr (m, go_on) => (st, [m], go_on)
  end.
Proof.
  unfold handle_chunk, parse_chunk. destruct (strip_prefix "SET " _) as [args|]; [by repeat case_match; simplify_eq|].
  destruct (strip_prefix "GET " _) as [args|]; [|by case_match]. destruct (scan_s 63 args) as [[k ?]|]; [|done]. by case_match.
Qed.

(** ... and the steps between the lock and the unlock are the calls of lib.c *)
Lemma finish_call_set k v s : held s = false ->
  StaticLib.set_value k v s = Done (tt, mkStore (finish_call (CSet k v) (find_key k (items s)) (items s)).1 false).
Proof. intros Hh. rewrite static_set_ok by done. unfold array_set, finish_call. by destruct (find_key k (items s)). Qed.

Lemma finish_call_get k s : held s = false ->
  StaticLib.get_value k s = Done (match (finish_call (CGet k) (find_key k (items s)) (items s)).2 with
    | HPrint i => snd <$> items s !! i | _ => None end, s).
Proof.
  intros Hh. rewrite static_get_ok by done. rewrite <- array_get_assoc. unfold DynamicLib.get_value, finish_call.
  destruct (find_key k (items s)) as [i|]; [|done]. simpl. by destruct (items s !! i).
Qed.

(** ** Properties *)

(** C19: any number of copies of the ten-command client.c of staticLIB against its server, whose
    [set_value] and [get_value] run under the lock, in every interleaving of the calls of the
    clients, the threads (with the lock, the loop over the cells and the change of a cell as
    steps of their own, and [dprintf] reading the cell after the unlock) and the server's
    [main]: no run is longer than 274 steps for each client; SIGPIPE kills nobody; what a client
    has read at any time is a prefix of the greeting and the right replies in the order of its
    requests, each value being its own; no step changes a cell that is in the array, so that the
    unlocked read of [dprintf] finds the value the loop found; and a run can only stop when
    every client has read all of it and ended, every thread has closed its connection, and the
    store holds exactly the ten keys, each once, with their values. *)
Theorem clients_served N k w : nsteps step k (start static_client N) w ->
  (k <= N * 274)%nat /\ server_killed w = false /\
  (forall j s, sessions w !! j = Some s ->
    c_killed s = false /\ got s `prefix_of` transcript static_value (program 10)) /\
  (forall w', step w w' -> items (store w) `prefix_of` items (store w')) /\
  ((exists w', step w w') \/
   (forall j s, sessions w !! j = Some s ->
     todo s = [] /\ h_at s = HClosed /\ got s = transcript static_value (program 10) /\
     items (store w) ≡ₚ map (cell_of static_value) (seq 0 10))).
Proof.
  intros Hrun. assert (forall i, (i < 10)%nat -> token (key i)) as Hk by (intros i Hi; apply keys_token; lia).
  assert (forall i, (i < 10)%nat -> line_value (static_value i)) as Hv by (intros i Hi; apply static_values; lia).
  assert (10 <= StaticLib.MAX_ITEMS)%nat as Hcap by (unfold StaticLib.MAX_ITEMS; lia).
  destruct (session_steps 10 static_value Hk Hv Hcap k _ _ Hrun) as [Hi Hle]; [apply session_start_inv|]. rewrite start_total in Hle.
  split_and!; [lia|by destruct Hi as (_ & ? & _)| | |].
  - intros j s Hs. destruct Hi as (_ & _ & _ & _ & Ht & _). by destruct (talk_prefix 10 static_value _ _ _ (Ht j s Hs)).
  - intros w' Hs. by destruct (session_step_inv 10 static_value Hk Hv Hcap w w' Hi Hs) as (_ & ? & _).
  - destruct (sessions_progress 10 static_value Hk Hv Hcap w Hi) as [?|Ho]; [by left|right]. intros j s Hs.
    pose proof (Ho j s Hs) as Hover. pose proof Hover as (Htd & Hh & _ & Hg). split_and!; try done. by eapply final_store.
Qed.

(** A client that is alone with one of the other servers reads the right replies too. *)
Lemma dynamic_client_alone :
  dynamic_handler (writes dynamic_client) [] =
    (map (cell_of dynamic_value) (seq 0 10), transcript dynamic_value (program 10)).
Proof. by vm_compute. Qed.

Lemma kv_client_alone :
  server_handler (writes kv_client) (mkStore [] false) =
    (mkStore (map (cell_of static_value) (seq 0 100)) false, transcript static_value (program 100)).
Proof. by vm_compute. Qed.

(** ** Witnesses *)

(** a run of three clients to the end *)
Definition order : list actor := [Client 0; Client 1; Client 2; Thread 2; Thread 1; Thread 0; Main].
Local Abbreviation three_clients := (run_first act order 1000 (start static_client 3)).

Lemma clients_served_witness :
  nsteps step three_clients.1 (start static_client 3) three_clients.2 /\
  ((three_clients.1 <= 3 * 274)%nat /\ server_killed three_clients.2 = false /\
   (forall j s, sessions three_clients.2 !! j = Some s ->
     c_killed s = false /\ got s `prefix_of` transcript static_value (program 10))) /\
  got <$> sessions three_clients.2 = replicate 3 (transcript static_value (program 10)) /\
  items (store three_clients.2) = map (cell_of static_value) (seq 0 10).
Proof.
  pose proof (run_first_steps act order 1000 (start static_client 3)) as Hrun.
  destruct (clients_served 3 _ _ Hrun) as (Hk & Hkill & Hs & _).
  split; [exact Hrun|]. split; [exact (conj Hk (conj Hkill Hs))|]. split; vm_compute; reflexivity.
Defined.
