(* ===== verification/CrashRecovery.v ===== *)
(** * The write-ahead-logged database of FILEIO/CrashRecovery/crashRecovery.c

    The database file is its array of [MAX_RECORDS] slots (the [mmap] is shared, so
    what the process wrote survives its exit), the log file its list of complete
    entries: a [write] of one entry is all or nothing.  A run of the program takes
    the two files and returns them with the exit status; the progress messages are
    left out.  The environment answers are explicit: the time stamps and whether
    [write], [fsync], [msync] and [ftruncate] succeed. *)
From S2P Require Import Prelude CString.

(** ** The program *)

Definition MAX_RECORDS : nat := 100.

Record record_t := mkRecord { id : Z; name : string; active : Z }.

Record wal_entry_t := mkEntry {
  record_id : Z;
  data : record_t;
  timestamp : Z;
  checksum : string
}.

(** the answers of the operating system *)
Record sys := mkSys { now : Z; write_ok : bool; fsync_ok : bool; msync_ok : bool; ftruncate_ok : bool }.

Record db_context_t := mkCtx { db_mmap : list record_t; wal : list wal_entry_t; next_id : Z }.

Definition set_db (db : list record_t) (c : db_context_t) : db_context_t :=
  mkCtx db (wal c) (next_id c).
Definition set_wal (w : list wal_entry_t) (c : db_context_t) : db_context_t :=
  mkCtx (db_mmap c) w (next_id c).
Definition set_next_id (n : Z) (c : db_context_t) : db_context_t :=
  mkCtx (db_mmap c) (wal c) n.

(** the four bytes of an int, least significant first, as signed chars *)
Definition int_bytes (z : Z) : list Z :=
  (fun k => let b := (u32 z / 2 ^ (8 * k)) mod 256 in if b <? 128 then b else b - 256) <$> [0; 1; 2; 3].

Fixpoint str_bytes (s : string) : list Z :=
  match s with EmptyString => [] | String a s' => schar a :: str_bytes s' end.

(** the 40 bytes of a record; [strncpy] pads the name with NULs *)
Definition record_bytes (r : record_t) : list Z :=
  int_bytes (id r) ++ take 32 (str_bytes (name r) ++ replicate 32 0) ++ int_bytes (active r).

Definition hex_digit (d : Z) : ascii :=
  Ascii.ascii_of_N (Z.to_N (if d <? 10 then 48 + d else 55 + d)).

(** [%08X] *)
Fixpoint hex (digits : nat) (n : Z) (acc : string) : string :=
  match digits with
  | O => acc
  | S k => hex k (n / 16) (String (hex_digit (n mod 16)) acc)
  end.

Definition calculate_checksum (record : record_t) : string :=
  let hash := fold_left (fun hash b => u32 (hash * 31 + b)) (record_bytes record) 0 in
  hex 8 hash "".

#[global] Arguments calculate_checksum : simpl never.

Definition is_active (r : record_t) : bool := negb (active r =? 0).

(** lines 95-101: the next free identifier *)
Definition find_next_id (db : list record_t) : Z :=
  fold_left (fun next r => if is_active r && (id r >=? next) then id r + 1 else next)
    (take MAX_RECORDS db) 1.

(** the files before the first run: an empty database file is extended with zeros *)
Definition zero_record : record_t := mkRecord 0 "" 0.

Definition init_database (db : list record_t) (log : list wal_entry_t) : db_context_t :=
  let db := match db with [] => replicate MAX_RECORDS zero_record | _ => db end in
  mkCtx db log (find_next_id db).

Definition write_wal_entry (os : sys) (record : record_t) (ctx : db_context_t) : bool * db_context_t :=
  let entry := mkEntry (id record) record (now os) (calculate_checksum record) in
  if write_ok os then (fsync_ok os, set_wal (wal ctx ++ [entry]) ctx) else (false, ctx).

(** the first slot that satisfies the test *)
Fixpoint find_slot (p : record_t -> bool) (db : list record_t) : option nat :=
  match db with
  | [] => None
  | r :: db' => if p r then Some O else S <$> find_slot p db'
  end.

Definition choose_slot (record : record_t) (db : list record_t) : option nat :=
  match find_slot (fun r => is_active r && (id r =? id record)) db with
  | Some slot => Some slot
  | None => find_slot (fun r => negb (is_active r)) db
  end.

Definition apply_to_database (os : sys) (record : record_t) (ctx : db_context_t) : bool * db_context_t :=
  match choose_slot record (db_mmap ctx) with
  | None => (false, ctx)
  | Some slot => (msync_ok os, set_db (<[slot := record]> (db_mmap ctx)) ctx)
  end.

Definition new_record (nm : string) (ctx : db_context_t) : record_t :=
  mkRecord (next_id ctx) (strtrunc 31 nm) 1.

(** the result is the new identifier, or -1 *)
Definition insert_record (os : sys) (nm : string) (ctx : db_context_t) : Z * db_context_t :=
  let record := new_record nm ctx in
  let ctx := set_next_id (next_id ctx + 1) ctx in
  let '(ok, ctx) := write_wal_entry os record ctx in
  if negb ok then (-1, ctx) else
  let '(ok, ctx) := apply_to_database os record ctx in
  if negb ok then (-1, ctx) else (id record, ctx).

Definition already_applied (e : wal_entry_t) (db : list record_t) : bool :=
  bool_decide (is_Some (find_slot
    (fun r => is_active r && (id r =? id (data e)) && streq (name r) (name (data e))) db)).

(** one turn of the [while (read(...) == sizeof(entry))] loop *)
Definition recover_entry (os : sys) (acc : Z * db_context_t) (e : wal_entry_t) : Z * db_context_t :=
  let '(recovered, ctx) := acc in
  if negb (streq (checksum e) (calculate_checksum (data e))) then (recovered, ctx)
  else if already_applied e (db_mmap ctx) then (recovered, ctx)
  else
    let '(ok, ctx) := apply_to_database os (data e) ctx in
    if negb ok then (recovered, ctx) else (recovered + 1, ctx).

Definition recover_from_wal (os : sys) (ctx : db_context_t) : Z * db_context_t :=
  match wal ctx with
  | [] => (0, ctx)
  | _ =>
      let '(recovered, ctx) := fold_left (recover_entry os) (wal ctx) (0, ctx) in
      if (recovered >? 0) && ftruncate_ok os then (recovered, set_wal [] ctx)
      else (recovered, ctx)
  end.

(** the rows printed and the total *)
Definition display_database (ctx : db_context_t) : list (Z * string) * Z :=
  let rows := omap (fun r => if is_active r then Some (id r, name r) else None)
                (take MAX_RECORDS (db_mmap ctx)) in
  (rows, Z.of_nat (length rows)).

(** [main]: the files before and after, and the exit status *)
Definition main (os : sys) (argv : list string) (files : list record_t * list wal_entry_t) :
    Z * (list record_t * list wal_entry_t) :=
  let ctx := init_database files.1 files.2 in
  let ctx := (recover_from_wal os ctx).2 in
  let close (c : db_context_t) := (db_mmap c, wal c) in
  match argv with
  | [] =>
      let ctx := (insert_record os "Alice" ctx).2 in
      let ctx := (insert_record os "Bob" ctx).2 in
      (0, close ctx)
  | [cmd] => (0, close ctx)
  | cmd :: arg :: _ =>
      if streq cmd "insert" then (0, close (insert_record os arg ctx).2)
      else if streq cmd "crash-after-wal" then
        let record := new_record arg ctx in
        let ctx := set_next_id (next_id ctx + 1) ctx in
        (42, close (write_wal_entry os record ctx).2)
      else (0, close ctx)
  end.

(** ** Specification: the database as a map from identifiers to names *)

Definition row (r : record_t) : option (Z * string) :=
  if is_active r then Some (id r, name r) else None.

Definition rows (db : list record_t) : list (Z * string) := omap row db.

Definition valid (e : wal_entry_t) : bool := streq (checksum e) (calculate_checksum (data e)).

(** the effect of the log on a map: the last valid entry of each identifier wins *)
Definition replay (log : list wal_entry_t) (m : gmap Z string) : gmap Z string :=
  fold_left (fun m e => if valid e then <[id (data e) := name (data e)]> m else m) log m.

Definition db_map (db : list record_t) : gmap Z string := list_to_map (rows db).

Definition log_ids (log : list wal_entry_t) : gset Z := list_to_set ((fun e => id (data e)) <$> log).

Record db_ok (db : list record_t) : Prop := {
  db_len : length db = MAX_RECORDS;
  db_uniq : NoDup (rows db).*1;
}.

(** every logged record is a live one and there are slots for all of them *)
Definition log_fits (log : list wal_entry_t) (db : list record_t) : Prop :=
  Forall (fun e => is_active (data e) = true) log /\
  (size (dom (db_map db) ∪ log_ids log) <= MAX_RECORDS)%nat.

(** ** Lemmas *)

Lemma find_slot_Some p db i : find_slot p db = Some i ->
  exists l1 r l2, db = l1 ++ r :: l2 /\ length l1 = i /\ p r = true.
Proof.
  revert i. induction db as [|r db IH]; intros i; simpl; [done|]. destruct (p r) eqn:Hp.
  - intros [= <-]. by exists [], r, db.
  - destruct (find_slot p db) as [j|]; [|done]. intros [= <-].
    destruct (IH j eq_refl) as (l1 & r' & l2 & -> & <- & Hr). by exists (r :: l1), r', l2.
Qed.

Lemma find_slot_None p db : find_slot p db = None <-> Forall (fun r => p r = false) db.
Proof.
  induction db as [|r db IH]; simpl; [done|]. rewrite Forall_cons. destruct (p r) eqn:Hp.
  - naive_solver.
  - rewrite <- IH. destruct (find_slot p db); naive_solver.
Qed.

Lemma rows_app l1 l2 : rows (l1 ++ l2) = rows l1 ++ rows l2.
Proof. apply omap_app. Qed.

Lemma rows_active r db : is_active r = true -> rows (r :: db) = (id r, name r) :: rows db.
Proof. intros H. unfold rows. simpl. unfold row at 1. by rewrite H. Qed.

Lemma rows_inactive r db : is_active r = false -> rows (r :: db) = rows db.
Proof. intros H. unfold rows. simpl. unfold row at 1. by rewrite H. Qed.

Lemma db_map_mid l1 r l2 : is_active r = true -> NoDup (rows (l1 ++ r :: l2)).*1 ->
  db_map (l1 ++ r :: l2) = <[id r := name r]> (db_map (l1 ++ l2)).
Proof.
  intros Ha Hn. unfold db_map. rewrite rows_app, rows_active in * by done.
  rewrite <- (list_to_map_proper ((id r, name r) :: rows l1 ++ rows l2)).
  - simpl. by rewrite rows_app.
  - simpl. rewrite fmap_app in *. simpl in Hn. by rewrite Permutation_middle.
  - by rewrite Permutation_middle.
Qed.

Lemma db_map_None i db : db_map db !! i = None <-> i ∉ (rows db).*1.
Proof. unfold db_map. symmetry. apply not_elem_of_list_to_map. Qed.

Lemma dom_db_map db : dom (db_map db) = list_to_set (rows db).*1.
Proof. unfold db_map. apply dom_list_to_map_L. Qed.

Lemma size_db_map db : db_ok db -> size (dom (db_map db)) = length (rows db).
Proof.
  intros [_ Hn]. rewrite dom_db_map, size_list_to_set by done. apply length_fmap.
Qed.

Lemma rows_full db : Forall (fun r => is_active r = true) db -> length (rows db) = length db.
Proof.
  induction 1 as [|r db Hr Hdb IH]; [done|]. rewrite rows_active by done. simpl. by rewrite IH.
Qed.

Lemma replace_ok r old l1 l2 : is_active r = true ->
  NoDup (rows (l1 ++ old :: l2)).*1 ->
  (is_active old = true /\ id old = id r) \/
  (is_active old = false /\ db_map (l1 ++ old :: l2) !! id r = None) ->
  NoDup (rows (l1 ++ r :: l2)).*1 /\
  db_map (l1 ++ r :: l2) = <[id r := name r]> (db_map (l1 ++ old :: l2)).
Proof.
  intros Ha Hn [[Ho Hid]|[Ho Hnone]].
  - assert (NoDup (rows (l1 ++ r :: l2)).*1) as Hn'.
    { rewrite rows_app, fmap_app, rows_active in * by done. simpl in *. by rewrite <- Hid. }
    split; [done|]. rewrite !db_map_mid by done. rewrite Hid. by rewrite insert_insert_eq.
  - apply db_map_None in Hnone. unfold db_map.
    rewrite (rows_app l1 (old :: l2)), (rows_inactive old l2 Ho) in Hn, Hnone |- *.
    assert (NoDup (rows (l1 ++ r :: l2)).*1) as Hn'.
    { rewrite rows_app, rows_active, fmap_app by done. rewrite fmap_app in *. simpl.
      rewrite <- Permutation_middle. constructor; [set_solver|done]. }
    split; [done|]. pose proof (db_map_mid l1 r l2 Ha Hn') as Hm. unfold db_map in Hm.
    by rewrite Hm, (rows_app l1 l2).
Qed.

Lemma choose_slot_ok r db : db_ok db -> is_active r = true ->
  (size (dom (db_map db) ∪ {[id r]}) <= MAX_RECORDS)%nat ->
  exists slot, choose_slot r db = Some slot /\ db_ok (<[slot := r]> db) /\
    db_map (<[slot := r]> db) = <[id r := name r]> (db_map db).
Proof.
  intros Hdb Ha Hroom. pose proof Hdb as [Hlen Hn]. unfold choose_slot.
  assert (forall l1 old l2, db = l1 ++ old :: l2 ->
    (is_active old = true /\ id old = id r) \/ (is_active old = false /\ db_map db !! id r = None) ->
    db_ok (<[length l1 := r]> db) /\ db_map (<[length l1 := r]> db) = <[id r := name r]> (db_map db)) as Hrep.
  { intros l1 old l2 -> Hcase. rewrite list_insert_mid.
    destruct (replace_ok r old l1 l2 Ha Hn Hcase) as [Hn' Hm]. split; [|done].
    split; [|done]. rewrite length_app in *. simpl in *. done. }
  destruct (find_slot _ db) as [i|] eqn:Hf.
  - destruct (find_slot_Some _ _ _ Hf) as (l1 & old & l2 & Hsp & <- & Hp).
    apply andb_true_iff in Hp as [Ho Hid%Z.eqb_eq]. exists (length l1). split; [done|].
    by apply (Hrep l1 old l2); [|left].
  - apply find_slot_None in Hf.
    assert (db_map db !! id r = None) as Hnone.
    { apply db_map_None. intros ([i n] & Hi & Hin)%list_elem_of_fmap. simpl in Hi. subst i.
      apply list_elem_of_omap in Hin as (r' & Hr' & Hrow). unfold row in Hrow.
      destruct (is_active r') eqn:Hact; [|done]. injection Hrow as Hid Hnm.
      rewrite Forall_forall in Hf. specialize (Hf r' Hr'). rewrite Hact in Hf. simpl in Hf.
      apply Z.eqb_neq in Hf. done. }
    destruct (find_slot (fun r => negb (is_active r)) db) as [i|] eqn:Hf2.
    + destruct (find_slot_Some _ _ _ Hf2) as (l1 & old & l2 & Hsp & <- & Ho%negb_true_iff).
      exists (length l1). split; [done|]. by apply (Hrep l1 old l2); [|right].
    + exfalso. apply find_slot_None in Hf2.
      assert (length (rows db) = length db) as Hfull.
      { apply rows_full. eapply Forall_impl; [exact Hf2|]. intros ?. apply negb_false_iff. }
      rewrite size_union, size_singleton, size_db_map, Hfull, Hlen in Hroom; [unfold MAX_RECORDS in *; lia|done|].
      apply not_elem_of_dom in Hnone. set_solver.
Qed.

Lemma replay_cons e log m :
  replay (e :: log) m = replay log (if valid e then <[id (data e) := name (data e)]> m else m).
Proof. done. Qed.

Lemma log_ids_cons e log : log_ids (e :: log) = {[id (data e)]} ∪ log_ids log.
Proof. done. Qed.

Lemma already_applied_map e db : already_applied e db = true -> NoDup (rows db).*1 ->
  db_map db !! id (data e) = Some (name (data e)).
Proof.
  unfold already_applied. intros [slot Hs]%bool_decide_eq_true Hn.
  destruct (find_slot_Some _ _ _ Hs) as (l1 & r & l2 & -> & _ & Hp).
  apply andb_true_iff in Hp as [[Ha Hid%Z.eqb_eq]%andb_true_iff Hnm%streq_spec].
  rewrite db_map_mid by done. rewrite Hid, Hnm. apply lookup_insert_eq.
Qed.

Lemma recover_entry_ok os n ctx e :
  db_ok (db_mmap ctx) -> is_active (data e) = true ->
  (size (dom (db_map (db_mmap ctx)) ∪ {[id (data e)]}) <= MAX_RECORDS)%nat ->
  exists n' db, recover_entry os (n, ctx) e = (n', set_db db ctx) /\ db_ok db /\
    db_map db = if valid e then <[id (data e) := name (data e)]> (db_map (db_mmap ctx))
                else db_map (db_mmap ctx).
Proof.
  intros Hok Ha Hroom. pose proof Hok as [_ Hn]. assert (set_db (db_mmap ctx) ctx = ctx) as Hid by by destruct ctx.
  unfold recover_entry, valid. destruct (streq (checksum e) _); simpl; [|exists n, (db_mmap ctx); by rewrite Hid].
  destruct (already_applied e (db_mmap ctx)) eqn:Happ.
  - exists n, (db_mmap ctx). rewrite Hid. split_and!; [done|done|]. symmetry. apply insert_id.
    by apply already_applied_map.
  - destruct (choose_slot_ok _ _ Hok Ha Hroom) as (slot & Hslot & Hok' & Hm).
    unfold apply_to_database. rewrite Hslot. destruct (msync_ok os); simpl; eauto.
Qed.

Lemma recover_log_ok os log n ctx :
  db_ok (db_mmap ctx) -> log_fits log (db_mmap ctx) ->
  exists n' db, fold_left (recover_entry os) log (n, ctx) = (n', set_db db ctx) /\ db_ok db /\
    db_map db = replay log (db_map (db_mmap ctx)).
Proof.
  revert n ctx. induction log as [|e log IH]; intros n ctx Hok [Hact Hsz].
  { exists n, (db_mmap ctx). split_and!; [by destruct ctx|done|done]. }
  apply Forall_cons in Hact as [Ha Hact]. rewrite log_ids_cons in Hsz.
  destruct (recover_entry_ok os n ctx e Hok Ha) as (n1 & db1 & Heq & Hok1 & Hm1).
  { etransitivity; [|exact Hsz]. apply subseteq_size. set_solver. }
  destruct (IH n1 (set_db db1 ctx)) as (n2 & db2 & Heq2 & Hok2 & Hm2); [done| |].
  { split; [done|]. simpl. rewrite Hm1. etransitivity; [|exact Hsz]. apply subseteq_size.
    destruct (valid e); [rewrite dom_insert_L|]; set_solver. }
  exists n2, db2. cbn [fold_left]. rewrite Heq. cbn [db_mmap set_db] in *. split_and!; [exact Heq2|done|].
  by rewrite Hm2, Hm1.
Qed.

Lemma recover_from_wal_ok os ctx :
  db_ok (db_mmap ctx) -> log_fits (wal ctx) (db_mmap ctx) ->
  exists n ctx', recover_from_wal os ctx = (n, ctx') /\ db_ok (db_mmap ctx') /\
    db_map (db_mmap ctx') = replay (wal ctx) (db_map (db_mmap ctx)) /\
    (wal ctx' = [] \/ wal ctx' = wal ctx) /\ next_id ctx' = next_id ctx.
Proof.
  intros Hok Hfit. unfold recover_from_wal. destruct (wal ctx) as [|e log] eqn:Hw.
  { exists 0, ctx. rewrite Hw. split_and!; try done. by left. }
  destruct (recover_log_ok os (e :: log) 0 ctx) as (n & db & -> & Hok' & Hm); [done|done|].
  destruct ((n >? 0) && ftruncate_ok os).
  - exists n, (set_wal [] (set_db db ctx)). split_and!; try done. by left.
  - exists n, (set_db db ctx). split_and!; try done. right. done.
Qed.

(** the name the log gives to an identifier *)
Fixpoint logged (i : Z) (log : list wal_entry_t) : option string :=
  match log with
  | [] => None
  | e :: log' =>
      match logged i log' with
      | Some n => Some n
      | None => if valid e && (id (data e) =? i) then Some (name (data e)) else None
      end
  end.

Lemma lookup_replay i log m :
  replay log m !! i = match logged i log with Some n => Some n | None => m !! i end.
Proof.
  revert m. induction log as [|e log IH]; intros m; [done|]. rewrite replay_cons, IH. simpl.
  destruct (logged i log); [done|]. destruct (valid e); simpl; [|done]. zcases.
  - subst. by rewrite lookup_insert_eq.
  - by rewrite lookup_insert_ne.
Qed.

Lemma logged_app i l1 l2 :
  logged i (l1 ++ l2) = match logged i l2 with Some n => Some n | None => logged i l1 end.
Proof.
  induction l1 as [|e l1 IH]; simpl; [by destruct (logged i l2)|]. rewrite IH.
  by destruct (logged i l2).
Qed.

Lemma replay_prefix pre rest m : replay (pre ++ rest) (replay pre m) = replay (pre ++ rest) m.
Proof.
  apply map_eq. intros i. rewrite !lookup_replay, logged_app.
  by destruct (logged i rest), (logged i pre).
Qed.

Lemma dom_replay log m : dom (replay log m) ⊆ dom m ∪ log_ids log.
Proof.
  revert m. induction log as [|e log IH]; intros m; [set_solver|].
  rewrite replay_cons, log_ids_cons. etransitivity; [apply IH|].
  destruct (valid e); [rewrite dom_insert_L|]; set_solver.
Qed.

Lemma log_fits_prefix pre rest db db' :
  log_fits (pre ++ rest) db -> db_map db' = replay pre (db_map db) -> log_fits (pre ++ rest) db'.
Proof.
  intros [Ha Hsz] Hm. split; [done|]. rewrite Hm. etransitivity; [|exact Hsz].
  apply subseteq_size. pose proof (dom_replay pre (db_map db)).
  assert (log_ids pre ⊆ log_ids (pre ++ rest)) by (unfold log_ids; rewrite fmap_app, list_to_set_app_L; set_solver).
  set_solver.
Qed.

Lemma init_db_ok db log : db_ok db -> init_database db log = mkCtx db log (find_next_id db).
Proof. intros [Hlen _]. by destruct db. Qed.

Lemma log_fits_app l1 l2 db : log_fits (l1 ++ l2) db -> log_fits l1 db.
Proof.
  intros [Ha Hs]. split; [by apply Forall_app in Ha as [? _]|]. etransitivity; [|exact Hs].
  apply subseteq_size. unfold log_ids. rewrite fmap_app, list_to_set_app_L. set_solver.
Qed.

(** ** Properties *)

(** C5: recovery implements log replay: on a well-formed database with room for the
    logged identifiers, [recover_from_wal] leaves a well-formed database that maps
    every identifier to the name of its last intact log entry, and every other
    record is unchanged. *)
Theorem recover_refines_replay os ctx :
  db_ok (db_mmap ctx) -> log_fits (wal ctx) (db_mmap ctx) ->
  db_ok (db_mmap (recover_from_wal os ctx).2) /\
  db_map (db_mmap (recover_from_wal os ctx).2) = replay (wal ctx) (db_map (db_mmap ctx)).
Proof.
  intros Hok Hfit. destruct (recover_from_wal_ok os ctx Hok Hfit) as (n & c & -> & ? & ? & _). done.
Qed.

(** C6: recovery may be interrupted: if a crash stops it after any prefix of the log,
    running it again from the start reaches the same database map as an
    uninterrupted recovery. *)
Theorem recover_restartable os os' pre rest db nid :
  db_ok db -> log_fits (pre ++ rest) db ->
  let crashed := (fold_left (recover_entry os) pre (0, mkCtx db (pre ++ rest) nid)).2 in
  db_map (db_mmap (recover_from_wal os' crashed).2) = replay (pre ++ rest) (db_map db).
Proof.
  intros Hok Hfit crashed.
  destruct (recover_log_ok os pre 0 (mkCtx db (pre ++ rest) nid)) as (n & db1 & Heq & Hok1 & Hm);
    [done|by apply log_fits_app in Hfit|].
  assert (crashed = mkCtx db1 (pre ++ rest) nid) as -> by (unfold crashed; by rewrite Heq).
  destruct (recover_from_wal_ok os' (mkCtx db1 (pre ++ rest) nid)) as (n2 & c2 & -> & _ & Hm2 & _);
    [done|by eapply log_fits_prefix|].
  simpl in *. rewrite Hm2, Hm. apply replay_prefix.
Qed.

(** A record whose log entry was written survives the crash before the database
    update: after "crash-after-wal nm" (exit status 42) the recovery of the next run
    holds the record under its identifier. *)
Theorem crash_after_wal_recovered os os' nm db log :
  db_ok db -> write_ok os = true ->
  log_fits (log ++ [mkEntry 0 (mkRecord (find_next_id db) nm 1) 0 ""]) db ->
  let '(status, files) := main os ["crash-after-wal"; nm] (db, log) in
  status = 42 /\
  db_map (db_mmap (recover_from_wal os' (init_database files.1 files.2)).2) !! find_next_id db =
    Some (strtrunc 31 nm).
Proof.
  intros Hok Hw Hfit. pose proof (log_fits_app _ _ _ Hfit) as Hfit1. unfold main.
  cbn [fst snd]. rewrite (init_db_ok db log Hok).
  destruct (recover_from_wal_ok os (mkCtx db log (find_next_id db))) as (n & c & -> & Hok1 & Hm & Hwal & Hnid);
    [done|done|]. cbn [fst snd db_mmap wal next_id] in *. split; [done|].
  unfold write_wal_entry. rewrite Hw. cbn [fst snd db_mmap wal next_id set_wal set_next_id new_record id].
  rewrite (init_db_ok _ _ Hok1). rewrite Hnid.
  set (e := mkEntry _ _ _ _).
  assert (log_fits (wal c ++ [e]) (db_mmap c)) as Hfit2.
  { destruct Hfit as [Ha Hsz]. apply Forall_app in Ha as [Ha _]. split.
    - apply Forall_app. split; [by destruct Hwal as [->| ->]|by constructor].
    - rewrite Hm. etransitivity; [|exact Hsz]. apply subseteq_size.
      pose proof (dom_replay log (db_map db)) as Hd. unfold log_ids in *.
      rewrite !fmap_app, !list_to_set_app_L. simpl. destruct Hwal as [->| ->]; set_solver. }
  destruct (recover_from_wal_ok os' (mkCtx (db_mmap c) (wal c ++ [e]) (find_next_id (db_mmap c))))
    as (n2 & c2 & -> & _ & Hm2 & _); [done|done|].
  cbn [fst snd db_mmap wal] in *. rewrite Hm2, lookup_replay, logged_app. cbn [logged].
  assert (valid e = true) as -> by (unfold valid, e; cbn [checksum data]; apply streq_refl).
  unfold e, new_record. cbn [data id name andb]. by rewrite ?Hnid, Z.eqb_refl.
Qed.

Definition all_ok : sys := mkSys 0 true true true true.

(** the files after one run of the program *)
Definition run (argv : list string) (files : list record_t * list wal_entry_t) :
    list record_t * list wal_entry_t := (main all_ok argv files).2.

(** The demonstration the program suggests loses the recovered record: [main]
    computes the next identifier before it replays the log, so after
    "crash-after-wal Charlie" the next plain run recovers Charlie under identifier 3
    and then inserts Alice under the same identifier, over it. *)
Theorem recovered_record_overwritten :
  let crashed := run ["crash-after-wal"; "Charlie"] (run [] ([], [])) in
  rows (db_mmap (recover_from_wal all_ok (init_database crashed.1 crashed.2)).2) =
    [(1, "Alice"); (2, "Bob"); (3, "Charlie")] /\
  rows (run [] crashed).1 = [(1, "Alice"); (2, "Bob"); (3, "Alice"); (4, "Bob")].
Proof. by vm_compute. Qed.

(** ** Witnesses *)

Definition empty_db : list record_t := replicate MAX_RECORDS zero_record.
Definition ada : record_t := mkRecord 1 "Ada" 1.
Definition ada_entry : wal_entry_t := mkEntry 1 ada 0 (calculate_checksum ada).

Lemma empty_db_ok : db_ok empty_db.
Proof. split; [done|constructor]. Qed.

Lemma fits_empty log : Forall (fun e => is_active (data e) = true) log ->
  (length log <= MAX_RECORDS)%nat -> log_fits log empty_db.
Proof.
  intros Ha Hl. split; [done|]. etransitivity; [|exact Hl].
  assert (db_map empty_db = ∅) as -> by done. rewrite dom_empty_L, union_empty_l_L. unfold log_ids.
  etransitivity; [|apply Nat.eq_le_incl; apply (length_fmap (fun e => id (data e)))].
  generalize ((fun e => id (data e)) <$> log). intros ids. induction ids as [|i ids IH]; [done|].
  simpl. rewrite size_union_alt. pose proof (size_singleton (C := gset Z) i).
  assert (size (list_to_set ids ∖ {[i]} : gset Z) <= size (list_to_set ids : gset Z))%nat
    by (apply subseteq_size; set_solver). lia.
Qed.

Lemma recover_refines_replay_witness :
  db_ok (db_mmap (recover_from_wal all_ok (mkCtx empty_db [ada_entry] 1)).2) /\
  db_map (db_mmap (recover_from_wal all_ok (mkCtx empty_db [ada_entry] 1)).2) =
    replay [ada_entry] (db_map empty_db).
Proof.
  apply (recover_refines_replay all_ok (mkCtx empty_db [ada_entry] 1)); [apply empty_db_ok|].
  apply fits_empty; [by repeat constructor|simpl; unfold MAX_RECORDS; lia].
Defined.

Lemma recover_restartable_witness :
  let crashed := (fold_left (recover_entry all_ok) [ada_entry]
    (0, mkCtx empty_db ([ada_entry] ++ [ada_entry]) 1)).2 in
  db_map (db_mmap (recover_from_wal all_ok crashed).2) =
    replay ([ada_entry] ++ [ada_entry]) (db_map empty_db).
Proof.
  apply (recover_restartable all_ok all_ok [ada_entry] [ada_entry] empty_db 1); [apply empty_db_ok|].
  apply fits_empty; [by repeat constructor|simpl; unfold MAX_RECORDS; lia].
Defined.

Lemma crash_after_wal_recovered_witness :
  let '(status, files) := main all_ok ["crash-after-wal"; "Charlie"] (empty_db, []) in
  status = 42 /\
  db_map (db_mmap (recover_from_wal all_ok (init_database files.1 files.2)).2) !!
    find_next_id empty_db = Some (strtrunc 31 "Charlie").
Proof.
  apply (crash_after_wal_recovered all_ok all_ok "Charlie" empty_db []); [apply empty_db_ok|done|].
  apply fits_empty; [by repeat constructor|simpl; unfold MAX_RECORDS; lia].
Defined.
