(* ===== verification/WalDemo.v ===== *)
(** * The write-ahead log of FILEIO/wal_demo.c

    The two files are strings of bytes with the length of their durable part:
    [fsync] makes the whole file durable, a power failure keeps only that part.
    A command of the program takes the disk and returns it; the progress messages
    and the printing of [cmd_display] are the strings it returns. *)
From S2P Require Import Prelude CString.

(** ** The program *)

Record file := mkFile { content : string; synced : nat }.

Record disk := mkDisk { wal_file : file; db_file : file }.

Definition append (s : string) (f : file) : file := mkFile (content f +:+ s) (synced f).
Definition fsync (f : file) : file := mkFile (content f) (strlen (content f)).

(** what a power failure leaves *)
Definition power_fail (f : file) : file := mkFile (strtrunc (synced f) (content f)) (synced f).

(** [snprintf(buf, 256, ...)] *)
Definition snprintf_256 (s : string) : string := strtrunc 255 s.

Definition safe_write (msg : string) (do_sync : bool) (f : file) : file :=
  let f := append msg f in if do_sync then fsync f else f.

Definition begin_line (tid : Z) : string := "TRANSACTION " +:+ pretty tid +:+ " BEGIN" +:+ nl.
Definition set_line (key value : string) : string := "SET " +:+ key +:+ " " +:+ value +:+ nl.
Definition commit_line (tid : Z) : string := "TRANSACTION " +:+ pretty tid +:+ " COMMIT" +:+ nl.
Definition db_line (key value : string) : string := key +:+ "=" +:+ value +:+ nl.

Definition log_to_wal (tid : Z) (key value : string) (do_sync : bool) (wal : file) : file :=
  let wal := safe_write (snprintf_256 (begin_line tid)) do_sync wal in
  let wal := safe_write (snprintf_256 (set_line key value)) do_sync wal in
  safe_write (snprintf_256 (commit_line tid)) do_sync wal.

Definition apply_to_db (key value : string) (db : file) : file :=
  fsync (append (snprintf_256 (db_line key value)) db).

Definition cmd_write (tid : Z) (key value : string) (d : disk) : disk :=
  mkDisk (log_to_wal tid key value true (wal_file d)) (apply_to_db key value (db_file d)).

Definition cmd_write_nosync (tid : Z) (key value : string) (d : disk) : disk :=
  mkDisk (log_to_wal tid key value false (wal_file d)) (apply_to_db key value (db_file d)).

Definition cmd_crash_after_wal (tid : Z) (key value : string) (d : disk) : disk :=
  mkDisk (log_to_wal tid key value true (wal_file d)) (db_file d).

(** the locals of [cmd_recover]; an unset [key] or [val] is indeterminate *)
Record rec_state := mkRec {
  key : option string; val : option string; inside_tx : bool; committed : bool
}.

(** [sscanf(line, "SET %s %s", key, val)] into buffers of 128 bytes: [Undef] when a
    token does not fit, a conversion that fails leaves its buffer alone *)
Definition scan_set (line : string) (st : rec_state) : outcome rec_state :=
  match scan_s (strlen line) (default "" (strip_prefix "SET" line)) with
  | None => Done st
  | Some (k, rest) =>
      if (127 <? strlen k)%nat then Undef else
      match scan_s (strlen line) rest with
      | None => Done (mkRec (Some k) (val st) (inside_tx st) (committed st))
      | Some (v, _) =>
          if (127 <? strlen v)%nat then Undef
          else Done (mkRec (Some k) (Some v) (inside_tx st) (committed st))
      end
  end.

Definition recover_line (line : string) (st : rec_state) (db : file) : outcome (rec_state * file) :=
  if contains "BEGIN" line then Done (mkRec (key st) (val st) true false, db)
  else if starts_with "SET" line && inside_tx st then
    st ← scan_set line st; Done (st, db)
  else if contains "COMMIT" line && inside_tx st then
    match key st, val st with
    | Some k, Some v => Done (mkRec (key st) (val st) false true, apply_to_db k v db)
    | _, _ => Undef
    end
  else Done (st, db).

(** the [while (fgets(...))] loop; every line takes at least one character *)
Fixpoint recover_loop (fuel : nat) (s : string) (st : rec_state) (db : file) : outcome (rec_state * file) :=
  match s with
  | EmptyString => Done (st, db)
  | _ =>
      match fuel with
      | O => OutOfFuel
      | S fuel =>
          let '(line, rest) := fgets 255 s in
          '(st, db) ← recover_line line st db; recover_loop fuel rest st db
      end
  end.

(** the new disk, and whether an incomplete transaction was reported *)
Definition cmd_recover (d : disk) : outcome (disk * bool) :=
  let s := content (wal_file d) in
  '(st, db) ← recover_loop (strlen s) s (mkRec None None false false) (db_file d);
  Done (mkDisk (wal_file d) db, inside_tx st && negb (committed st)).

Definition cmd_display (d : disk) : string :=
  "===== WAL LOG =====" +:+ nl +:+ content (wal_file d) +:+
  nl +:+ "===== DB CONTENTS =====" +:+ nl +:+ content (db_file d).

(** the command line of [main] after the program name; [transaction_id] is 1 in
    every process.  [None] is the exit with status 1 of a wrong command. *)
Definition main (argv : list string) (d : disk) : outcome (option disk) :=
  match argv with
  | [] => Done None
  | cmd :: args =>
      match streq cmd "write", streq cmd "write-nosync", streq cmd "crash-after-wal", args with
      | true, _, _, [k; v] => Done (Some (cmd_write 1 k v d))
      | _, true, _, [k; v] => Done (Some (cmd_write_nosync 1 k v d))
      | _, _, true, [k; v] => Done (Some (cmd_crash_after_wal 1 k v d))
      | _, _, _, _ =>
          if streq cmd "recover" then r ← cmd_recover d; Done (Some r.1)
          else if streq cmd "display" then Done (Some d)
          else Done None
      end
  end.

(** ** Specification *)

Fixpoint str_concat (l : list string) : string :=
  match l with [] => "" | s :: l' => s +:+ str_concat l' end.

(** a pair the line format can carry: two tokens that fit their buffers and their
    line, and no "BEGIN" inside *)
Definition loggable (kv : string * string) : Prop :=
  kv.1 <> "" /\ str_all (fun a => negb (is_space a)) kv.1 = true /\ (strlen kv.1 <= 127)%nat /\
  kv.2 <> "" /\ str_all (fun a => negb (is_space a)) kv.2 = true /\ (strlen kv.2 <= 127)%nat /\
  (strlen kv.1 + strlen kv.2 <= 248)%nat /\ contains "BEGIN" (set_line kv.1 kv.2) = false.

(** the log of one committed transaction *)
Definition tx_log (kv : string * string) : string :=
  begin_line 1 +:+ set_line kv.1 kv.2 +:+ commit_line 1.

(** when [n] bytes of it have reached the log: it counts as committed but for its last byte, the
    newline, and as begun from the word BEGIN on, which ends at byte 19 *)
Definition committed_at (n : nat) (kv : string * string) : bool := (strlen (tx_log kv) <=? S n)%nat.
Definition open_at (n : nat) (kv : string * string) : bool := (19 <=? n)%nat && negb (committed_at n kv).

(** ** Lemmas *)

Lemma recover_loop_line fuel l rest st db :
  str_all (fun a => negb (is_newline a)) l = true -> (strlen l < 255)%nat ->
  recover_loop (S fuel) (l +:+ nl +:+ rest) st db =
    ('(st, db) ← recover_line (l +:+ nl) st db; recover_loop fuel rest st db).
Proof.
  intros Hl Hn. unfold recover_loop at 1. fold recover_loop. rewrite fgets_line by done.
  by destruct l.
Qed.

Lemma recover_loop_last fuel l st db : l <> "" -> str_all (fun a => negb (is_newline a)) l = true -> (strlen l <= 255)%nat ->
  recover_loop (S fuel) l st db = recover_line l st db.
Proof.
  intros Hne Hl Hn. unfold recover_loop at 1. fold recover_loop. rewrite fgets_last by done.
  assert (('(st, db) ← recover_line l st db; recover_loop fuel "" st db) = recover_line l st db) as He.
  { destruct (recover_line l st db) as [[st' db']| |]; [|done..]. by destruct fuel. }
  by destruct l.
Qed.

Lemma scan_set_line k v st : loggable (k, v) ->
  scan_set (set_line k v) st = Done (mkRec (Some k) (Some v) (inside_tx st) (committed st)).
Proof.
  intros (Hk & Hks & Hkl & Hv & Hvs & Hvl & Hlen & _). simpl in *. unfold scan_set.
  assert (strlen k <= strlen (set_line k v) /\ strlen v <= strlen (set_line k v))%nat as [Hk' Hv'].
  { unfold set_line. rewrite !strlen_app. lia. }
  change (strip_prefix "SET" (set_line k v)) with (Some (String " " (k +:+ String " " (v +:+ nl)))).
  simpl default. rewrite scan_s_space by done. rewrite scan_s_app; [|done|done|lia|by left].
  destruct (Nat.ltb_spec 127 (strlen k)); [lia|].
  rewrite scan_s_space by done. rewrite scan_s_app; [|done|done|lia|by left].
  destruct (Nat.ltb_spec 127 (strlen v)); [lia|done].
Qed.

Lemma set_line_split k v rest :
  set_line k v +:+ rest = ("SET " +:+ k +:+ " " +:+ v) +:+ nl +:+ rest.
Proof. unfold set_line. by rewrite !str_app_assoc. Qed.

Lemma loggable_line k v : loggable (k, v) ->
  str_all (fun a => negb (is_newline a)) ("SET " +:+ k +:+ " " +:+ v) = true /\
  (strlen ("SET " +:+ k +:+ " " +:+ v) < 255)%nat.
Proof.
  intros (_ & Hks & _ & _ & Hvs & _ & Hlen & _). simpl in *. split.
  - apply not_space_not_newline in Hks, Hvs. rewrite !str_all_app, Hks. simpl. by rewrite Hvs.
  - rewrite !strlen_app. simpl. lia.
Qed.

Lemma recover_set fuel k v rest st db : loggable (k, v) -> inside_tx st = true ->
  recover_loop (S fuel) (set_line k v +:+ rest) st db =
    recover_loop fuel rest (mkRec (Some k) (Some v) true (committed st)) db.
Proof.
  intros Hkv Hin. destruct (loggable_line k v Hkv) as [Hnl Hlen].
  rewrite set_line_split, recover_loop_line by done. unfold recover_line.
  assert (("SET " +:+ k +:+ " " +:+ v) +:+ nl = set_line k v) as ->
    by (unfold set_line; by rewrite !str_app_assoc).
  pose proof Hkv as (_ & _ & _ & _ & _ & _ & _ & Hb). cbn [fst snd] in Hb. rewrite Hb, Hin.
  assert (starts_with "SET" (set_line k v) = true) as ->.
  { apply (starts_with_app "SET" (" " +:+ k +:+ " " +:+ v +:+ nl)). }
  simpl. rewrite scan_set_line by done. simpl. by rewrite Hin.
Qed.

Lemma recover_begin fuel rest st db :
  recover_loop (S fuel) (begin_line 1 +:+ rest) st db =
    recover_loop fuel rest (mkRec (key st) (val st) true false) db.
Proof.
  change (begin_line 1 +:+ rest) with ("TRANSACTION 1 BEGIN" +:+ nl +:+ rest).
  by rewrite recover_loop_line by (first [done | simpl; lia]).
Qed.

Lemma recover_commit fuel rest st k v db : inside_tx st = true -> key st = Some k -> val st = Some v ->
  recover_loop (S fuel) (commit_line 1 +:+ rest) st db =
    recover_loop fuel rest (mkRec (Some k) (Some v) false true) (apply_to_db k v db).
Proof.
  intros Hin Hk Hv. change (commit_line 1 +:+ rest) with ("TRANSACTION 1 COMMIT" +:+ nl +:+ rest).
  rewrite recover_loop_line by (first [done | simpl; lia]). unfold recover_line.
  rewrite Hin, Hk, Hv. done.
Qed.

Lemma recover_tx fuel kv rest st db : loggable kv ->
  recover_loop (S (S (S fuel))) (tx_log kv +:+ rest) st db =
    recover_loop fuel rest (mkRec (Some kv.1) (Some kv.2) false true) (apply_to_db kv.1 kv.2 db).
Proof.
  intros Hkv. destruct kv as [k v]. unfold tx_log. rewrite !str_app_assoc, recover_begin.
  rewrite recover_set by done. by rewrite (recover_commit _ _ _ k v).
Qed.

(** [sscanf] on a SET line that was cut: nothing overflows, and only [key] and [val] change *)
Lemma scan_set_torn m k v st : loggable (k, v) -> (m < strlen (set_line k v))%nat ->
  exists st', scan_set (strtrunc m (set_line k v)) st = Done st' /\ inside_tx st' = inside_tx st /\ committed st' = committed st.
Proof.
  intros (Hk & Hks & Hkl & Hv & Hvs & Hvl & _ & _) Hm. cbn [fst snd] in *. unfold set_line in Hm. rewrite !strlen_app in Hm. cbn [strlen nl] in Hm.
  unfold scan_set. set (n := strlen (strtrunc m (set_line k v))).
  destruct m as [|[|[|[|j]]]]; [by eexists..|].
  assert (n = strlen ("SET " +:+ strtrunc j (k +:+ " " +:+ v +:+ nl))) as Hn by done.
  change (strip_prefix "SET" _) with (Some (String " " (strtrunc j (k +:+ " " +:+ v +:+ nl)))). cbn [default from_option id].
  rewrite scan_s_space by done. rewrite strtrunc_app in *. rewrite !strlen_app in Hn. cbn [strlen] in Hn.
  destruct (Nat.le_gt_cases j (strlen k)) as [Hj|Hj].
  - replace (j - strlen k)%nat with 0%nat by lia. change (strtrunc 0 (" " +:+ v +:+ nl)) with "". rewrite str_app_nil_r.
    pose proof (strlen_strtrunc j k). destruct (decide (strtrunc j k = "")) as [->|Hne]; [by eexists|].
    rewrite scan_s_whole; [|done|by apply str_all_strtrunc|lia]. destruct (Nat.ltb_spec 127 (strlen (strtrunc j k))); [lia|]. by eexists.
  - rewrite (strtrunc_id j k) in * by lia. destruct (j - strlen k)%nat as [|i] eqn:Hi; [lia|].
    change (strtrunc (S i) (" " +:+ v +:+ nl)) with (String " " (strtrunc i (v +:+ nl))) in *.
    rewrite scan_s_app; [|done|done|lia|by left]. destruct (Nat.ltb_spec 127 (strlen k)); [lia|]. rewrite scan_s_space by done.
    rewrite strtrunc_app in *. replace (i - strlen v)%nat with 0%nat in * by lia. change (strtrunc 0 nl) with "" in *. rewrite str_app_nil_r in *.
    pose proof (strlen_strtrunc i v). destruct (decide (strtrunc i v = "")) as [->|Hne]; [by eexists|].
    cbn [strlen] in Hn. rewrite scan_s_whole; [|done|by apply str_all_strtrunc|lia]. destruct (Nat.ltb_spec 127 (strlen (strtrunc i v))); [lia|]. by eexists.
Qed.

(** a SET line that was cut *)
Lemma recover_set_torn fuel m k v st db : loggable (k, v) -> (m < strlen (set_line k v))%nat -> inside_tx st = true -> (m <= fuel)%nat ->
  exists st', recover_loop fuel (strtrunc m (set_line k v)) st db = Done (st', db) /\ inside_tx st' = true /\ committed st' = committed st.
Proof.
  intros Hkv Hm Hin Hf. destruct m as [|m]; [exists st; by destruct fuel|]. destruct fuel as [|fuel]; [lia|].
  destruct (loggable_line k v Hkv) as [Hnl Hlen].
  assert (strtrunc (S m) (set_line k v) = strtrunc (S m) ("SET " +:+ k +:+ " " +:+ v)) as Hp.
  { rewrite <- (str_app_nil_r (set_line k v)), set_line_split, strtrunc_app.
    replace (S m - _)%nat with 0%nat; [change (strtrunc 0 _) with ""; apply str_app_nil_r|].
    unfold set_line in Hm. rewrite !strlen_app in *. cbn [strlen nl] in *. lia. }
  pose proof (strlen_strtrunc (S m) ("SET " +:+ k +:+ " " +:+ v)) as Hl. pose proof (strtrunc_le (S m) ("SET " +:+ k +:+ " " +:+ v)) as Hl2.
  rewrite recover_loop_last; [|by unfold set_line|rewrite Hp; by apply str_all_strtrunc|rewrite Hp; lia].
  unfold recover_line. pose proof Hkv as (_ & _ & _ & _ & _ & _ & _ & Hb). cbn [fst snd] in Hb. rewrite contains_strtrunc by done. rewrite Hin.
  destruct m as [|[|m]]; [by exists st..|]. change (starts_with "SET" _) with (starts_with "SET" ("SET" +:+ strtrunc m (" " +:+ k +:+ " " +:+ v +:+ nl))).
  rewrite starts_with_app. cbn [andb]. destruct (scan_set_torn (S (S (S m))) k v st Hkv Hm) as (st' & -> & Hi & Hc). exists st'. split; [done|]. split; congruence.
Qed.

(** the last line: the word COMMIT is enough *)
Lemma recover_commit_torn fuel m k v st db : (m < strlen (commit_line 1))%nat -> inside_tx st = true -> committed st = false ->
  key st = Some k -> val st = Some v -> (m <= fuel)%nat ->
  exists st', recover_loop fuel (strtrunc m (commit_line 1)) st db = Done (st', if (20 <=? m)%nat then apply_to_db k v db else db) /\
    inside_tx st' && negb (committed st') = negb (20 <=? m)%nat.
Proof.
  intros Hm Hin Hc Hk Hv Hf. destruct st as [k' v' i' c']. cbn in Hin, Hc, Hk, Hv. subst. destruct m as [|m]; [by destruct fuel; eexists|].
  destruct fuel as [|fuel]; [lia|]. change (strlen (commit_line 1)) with 21%nat in Hm.
  do 20 (destruct m as [|m]; [rewrite recover_loop_last by (done || (apply Nat.leb_le; reflexivity)); by eexists|]). lia.
Qed.

(** a transaction of which only [n] bytes reached the log *)
Lemma recover_torn fuel n kv st db : loggable kv -> (strlen (strtrunc n (tx_log kv)) <= fuel)%nat -> inside_tx st = false ->
  exists st', recover_loop fuel (strtrunc n (tx_log kv)) st db = Done (st', if committed_at n kv then apply_to_db kv.1 kv.2 db else db) /\
    inside_tx st' && negb (committed st') = open_at n kv.
Proof.
  intros Hkv Hf Hin. destruct kv as [k v]. cbn [fst snd].
  assert (strlen (tx_log (k, v)) = 41 + strlen (set_line k v))%nat as Hlen by (unfold tx_log; rewrite !strlen_app; change (strlen (begin_line 1)) with 20%nat; change (strlen (commit_line 1)) with 21%nat; cbn [fst snd]; lia).
  unfold open_at, committed_at. rewrite Hlen. destruct (Nat.lt_ge_cases n 20) as [Hn|Hn].
  { rewrite (proj2 (Nat.leb_gt _ _)) by lia. cbn [negb]. rewrite andb_true_r. unfold tx_log in *. rewrite strtrunc_app in *. cbn [fst snd] in *.
    replace (n - strlen (begin_line 1))%nat with 0%nat in * by (change (strlen (begin_line 1)) with 20%nat; lia). change (strtrunc 0 _) with "" in *. rewrite str_app_nil_r in *.
    destruct n as [|n]; [exists st; rewrite Hin; by destruct fuel|]. destruct fuel as [|fuel]; [cbn in Hf; lia|].
    do 19 (destruct n as [|n]; [rewrite recover_loop_last by (done || (apply Nat.leb_le; reflexivity)); eexists; (split; [reflexivity|]); cbn; by rewrite ?Hin|]). lia. }
  unfold tx_log in *. cbn [fst snd] in *. rewrite strtrunc_app, (strtrunc_id n (begin_line 1)) in * by (change (strlen (begin_line 1)) with 20%nat; lia).
  rewrite (strlen_app (begin_line 1)) in Hf. change (strlen (begin_line 1)) with 20%nat in *. destruct fuel as [|fuel]; [lia|]. rewrite recover_begin.
  rewrite strtrunc_app in *. rewrite (proj2 (Nat.leb_le 19 n)) by lia. cbn [andb].
  destruct (Nat.lt_ge_cases (n - 20) (strlen (set_line k v))) as [Hs|Hs].
  { replace (n - 20 - _)%nat with 0%nat in * by lia. change (strtrunc 0 _) with "" in *. rewrite str_app_nil_r, strlen_strtrunc_eq in * by lia.
    destruct (recover_set_torn fuel (n - 20) k v (mkRec (key st) (val st) true false) db Hkv Hs eq_refl) as (st' & -> & Hi & Hc); [lia|].
    exists st'. rewrite (proj2 (Nat.leb_gt _ _)) by lia. by rewrite Hi, Hc. }
  rewrite (strtrunc_id (n - 20) (set_line k v)) in * by lia. rewrite strlen_app in Hf. destruct fuel as [|fuel]; [lia|]. rewrite recover_set by done.
  set (m := (n - 20 - strlen (set_line k v))%nat) in *. cbn [committed].
  destruct (Nat.lt_ge_cases m (strlen (commit_line 1))) as [Hm|Hm].
  - rewrite strlen_strtrunc_eq in Hf by lia.
    destruct (recover_commit_torn fuel m k v (mkRec (Some k) (Some v) true false) db Hm eq_refl eq_refl eq_refl eq_refl) as (st' & -> & Ho); [lia|].
    exists st'. rewrite Ho. assert ((20 <=? m) = (41 + strlen (set_line k v) <=? S n))%nat as ->; [|done].
    subst m. destruct (Nat.leb_spec (41 + strlen (set_line k v)) (S n)); [apply Nat.leb_le; lia|apply Nat.leb_gt; lia].
  - change (strlen (commit_line 1)) with 21%nat in Hm. rewrite (strtrunc_id m) in * by (change (strlen (commit_line 1)) with 21%nat; lia). change (strlen (commit_line 1)) with 21%nat in Hf. destruct fuel as [|fuel]; [lia|].
    rewrite <- (str_app_nil_r (commit_line 1)), (recover_commit _ _ _ k v) by done. eexists. rewrite (proj2 (Nat.leb_le _ _)) by lia. by destruct fuel.
Qed.

Lemma recover_txs kvs fuel n kv st db :
  Forall loggable kvs -> loggable kv -> (3 * length kvs + strlen (strtrunc n (tx_log kv)) <= fuel)%nat -> inside_tx st = false ->
  exists st', recover_loop fuel (str_concat (tx_log <$> kvs) +:+ strtrunc n (tx_log kv)) st db =
    Done (st', fold_left (fun db kv => apply_to_db kv.1 kv.2 db) (kvs ++ if committed_at n kv then [kv] else []) db) /\
    inside_tx st' && negb (committed st') = open_at n kv.
Proof.
  intros Hkvs Hkv. revert fuel st db. induction Hkvs as [|kv' kvs Hkv' Hkvs IH]; intros fuel st db Hf Hin.
  - destruct (recover_torn fuel n kv st db Hkv) as (st' & Heq & Ho); [simpl in Hf; lia|done|].
    exists st'. split; [|done]. change (str_concat (tx_log <$> []) +:+ strtrunc n (tx_log kv)) with (strtrunc n (tx_log kv)). rewrite Heq. by destruct (committed_at n kv).
  - destruct fuel as [|[|[|fuel]]]; simpl in Hf; [lia..|]. rewrite fmap_cons.
    cbn [str_concat fold_left app]. rewrite str_app_assoc, recover_tx by done.
    apply IH; [lia|done].
Qed.

Lemma log_to_wal_ok kv sync f : loggable kv ->
  content (log_to_wal 1 kv.1 kv.2 sync f) = content f +:+ tx_log kv.
Proof.
  intros (_ & _ & _ & _ & _ & _ & Hlen & _). unfold log_to_wal, safe_write, snprintf_256, tx_log.
  rewrite (strtrunc_id _ (set_line kv.1 kv.2)) by (unfold set_line; rewrite !strlen_app; simpl; lia).
  change (strtrunc 255 (begin_line 1)) with (begin_line 1).
  change (strtrunc 255 (commit_line 1)) with (commit_line 1).
  destruct sync; unfold append, fsync; cbn [content synced]; by rewrite !str_app_assoc.
Qed.

Lemma strlen_tx_log kvs : (3 * length kvs <= strlen (str_concat (tx_log <$> kvs)))%nat.
Proof.
  induction kvs as [|kv kvs IH]; [simpl; lia|]. rewrite fmap_cons. cbn [str_concat length].
  rewrite strlen_app. unfold tx_log at 1. rewrite !strlen_app.
  change (strlen (begin_line 1)) with 20%nat. lia.
Qed.

Lemma content_apply_to_db kv f : loggable kv ->
  content (apply_to_db kv.1 kv.2 f) = content f +:+ db_line kv.1 kv.2.
Proof.
  intros (_ & _ & _ & _ & _ & _ & Hlen & _). simpl. unfold snprintf_256. rewrite strtrunc_id; [done|].
  unfold db_line. rewrite !strlen_app. simpl. lia.
Qed.

Lemma content_replay kvs f : Forall loggable kvs ->
  content (fold_left (fun db kv => apply_to_db kv.1 kv.2 db) kvs f) =
    content f +:+ str_concat ((fun kv => db_line kv.1 kv.2) <$> kvs).
Proof.
  intros Hkvs. revert f. induction Hkvs as [|kv kvs Hkv Hkvs IH]; intros f; simpl.
  - by rewrite str_app_nil_r.
  - rewrite IH, content_apply_to_db by done. by rewrite str_app_assoc.
Qed.

(** the whole disk after a power failure *)
Definition power_failure (d : disk) : disk := mkDisk (power_fail (wal_file d)) (power_fail (db_file d)).

Definition db_lines (kvs : list (string * string)) : string :=
  str_concat ((fun kv => db_line kv.1 kv.2) <$> kvs).

Lemma recover_log kvs n kv d :
  content (wal_file d) = str_concat (tx_log <$> kvs) +:+ strtrunc n (tx_log kv) -> Forall loggable (kvs ++ [kv]) ->
  exists d', cmd_recover d = Done (d', open_at n kv) /\ wal_file d' = wal_file d /\
    content (db_file d') = content (db_file d) +:+ db_lines (kvs ++ if committed_at n kv then [kv] else []).
Proof.
  intros Hw [Hkvs [Hkv _]%Forall_cons_1]%Forall_app. unfold cmd_recover. rewrite Hw.
  destruct (recover_txs kvs (strlen (str_concat (tx_log <$> kvs) +:+ strtrunc n (tx_log kv))) n kv
    (mkRec None None false false) (db_file d)) as (st' & Heq & Ho); [done..| |done|].
  { rewrite strlen_app. pose proof (strlen_tx_log kvs). lia. }
  rewrite Heq. simpl. rewrite Ho. eexists. split; [done|]. split; [done|]. simpl.
  apply content_replay, Forall_app. split; [done|]. destruct (committed_at n kv); [by constructor|constructor].
Qed.

Lemma power_fail_synced f : synced f = strlen (content f) -> power_fail f = f.
Proof. intros H. unfold power_fail. rewrite strtrunc_id by lia. by destruct f. Qed.

Lemma str_concat_snoc l s : str_concat (l ++ [s]) = str_concat l +:+ s.
Proof.
  induction l as [|a l IH]; simpl; [by rewrite str_app_nil_r|]. by rewrite IH, str_app_assoc.
Qed.

Lemma log_to_wal_synced tid k v f :
  synced (log_to_wal tid k v true f) = strlen (content (log_to_wal tid k v true f)).
Proof. done. Qed.

(** ** Properties *)

(** C18: recovery of a log that was cut at any byte.  The log holds transactions of which the last
    has only reached it with its first [n] bytes, for any [n]; the pairs are those that the line
    format can carry: key and value not empty, without white space, of at most 127 characters
    each and 248 together, and no BEGIN in the line (for that case see
    [begin_in_key_replays_previous]).  [cmd_recover] terminates within the fuel it is given (one
    unit per byte of the log) and appends to the database the lines of the complete transactions
    in order; the last one counts as complete when at most its final newline is missing, and
    leaves no trace in the database otherwise; an incomplete transaction is reported exactly when
    the last one is cut behind its word BEGIN; the log itself stays as it is. *)
Theorem cmd_recover_correct kvs n kv d :
  content (wal_file d) = str_concat (tx_log <$> kvs) +:+ strtrunc n (tx_log kv) -> Forall loggable (kvs ++ [kv]) ->
  exists d', cmd_recover d = Done (d', open_at n kv) /\ wal_file d' = wal_file d /\
    content (db_file d') = content (db_file d) +:+ db_lines (kvs ++ if committed_at n kv then [kv] else []).
Proof. apply recover_log. Qed.

(** the third transaction is cut in the middle of its SET line *)
Definition demo_wal : file :=
  mkFile (tx_log ("a", "1") +:+ tx_log ("b", "2") +:+ begin_line 1 +:+ "SET c") 0.

Lemma loggable_demo k v : loggable (String k "", String v "") <->
  is_space k = false /\ is_space v = false /\ contains "BEGIN" (set_line (String k "") (String v "")) = false.
Proof.
  unfold loggable. cbn [fst snd strlen str_all]. rewrite !andb_true_r, !negb_true_iff.
  split; [by intros (_ & ? & _ & _ & ? & _ & _ & ?)|].
  intros (? & ? & ?). repeat split; first [done|lia].
Qed.

Lemma cmd_recover_correct_witness :
  exists d', cmd_recover (mkDisk demo_wal (mkFile "" 0)) = Done (d', true) /\
    wal_file d' = demo_wal /\ content (db_file d') = "a=1" +:+ nl +:+ "b=2" +:+ nl.
Proof.
  apply (cmd_recover_correct [("a", "1"); ("b", "2")] 25 ("c", "3") (mkDisk demo_wal (mkFile "" 0))).
  - reflexivity.
  - repeat constructor; apply loggable_demo; by vm_compute.
Defined.

(** Write-ahead durability.  When the process dies right after the log was
    written (crash-after-wal) and the power fails too, the transaction is not lost:
    the next recovery replays every transaction logged before and then this one. *)
Theorem crash_after_wal_durable kvs kv d :
  content (wal_file d) = str_concat (tx_log <$> kvs) -> Forall loggable (kvs ++ [kv]) ->
  exists d', cmd_recover (power_failure (cmd_crash_after_wal 1 kv.1 kv.2 d)) = Done (d', false) /\
    content (db_file d') = content (power_fail (db_file d)) +:+ db_lines (kvs ++ [kv]).
Proof.
  intros Hw Hkvs. pose proof Hkvs as [_ [Hkv _]%Forall_cons_1]%Forall_app.
  destruct (recover_log kvs (strlen (tx_log kv)) kv (power_failure (cmd_crash_after_wal 1 kv.1 kv.2 d))) as (d' & Heq & _ & Hdb); [|done|].
  - unfold power_failure, cmd_crash_after_wal. cbn [wal_file].
    rewrite power_fail_synced by apply log_to_wal_synced. by rewrite log_to_wal_ok, Hw, strtrunc_id by done.
  - exists d'. assert (committed_at (strlen (tx_log kv)) kv = true) as Hc by (apply Nat.leb_le; lia).
    unfold open_at in Heq. by rewrite Hc, ?andb_false_r in Heq, Hdb.
Qed.

Lemma crash_after_wal_durable_witness :
  exists d', cmd_recover (power_failure (cmd_crash_after_wal 1 "b" "2"
      (mkDisk (mkFile (tx_log ("a", "1")) 0) (mkFile "x" 0)))) = Done (d', false) /\
    content (db_file d') = "a=1" +:+ nl +:+ "b=2" +:+ nl.
Proof.
  apply (crash_after_wal_durable [("a", "1")] ("b", "2")
    (mkDisk (mkFile (tx_log ("a", "1")) 0) (mkFile "x" 0))).
  - by rewrite <- (str_app_nil_r (tx_log ("a", "1"))).
  - repeat constructor; apply loggable_demo; by vm_compute.
Defined.

(** Without the syncs the same failure loses the whole transaction when the log was
    empty, although the program printed "Committed". *)
Lemma nosync_not_durable kv :
  content (wal_file (power_failure (cmd_write_nosync 1 kv.1 kv.2 (mkDisk (mkFile "" 0) (mkFile "" 0))))) = "".
Proof. done. Qed.

(** Recovery looks for "BEGIN" before it looks for "SET": the SET line of a key that
    contains the word starts a transaction over and the commit then applies what the
    previous transaction left in the buffers. *)
Lemma begin_in_key_replays_previous :
  (r ← cmd_recover (mkDisk (mkFile (tx_log ("a", "1") +:+ tx_log ("BEGINNER", "2")) 0) (mkFile "" 0));
   Done (content (db_file r.1))) = Done ("a=1" +:+ nl +:+ "a=1" +:+ nl).
Proof. by vm_compute. Qed.

Lemma begin_in_first_key_undef :
  cmd_recover (mkDisk (mkFile (tx_log ("BEGINNER", "2")) 0) (mkFile "" 0)) = Undef.
Proof. by vm_compute. Qed.

(** The log is never cut, so recovering after a write that went through appends its
    line a second time. *)
Lemma recover_after_write_duplicates :
  (r ← cmd_recover (cmd_write 1 "a" "1" (mkDisk (mkFile "" 0) (mkFile "" 0)));
   Done (content (db_file r.1))) = Done ("a=1" +:+ nl +:+ "a=1" +:+ nl).
Proof. by vm_compute. Qed.
