(* ===== verification/MemoryPool.v ===== *)
(** * The memory pool of MemoryPool/memoryPool.c

    The pool is addressed from its first byte.  [headers] are the [Block] structs
    that were written into it, by their offset; what the user keeps in the blocks is
    not modelled.  The invariant [tiles] says that the headers on the list cut the
    pool into adjacent blocks, so a write into one block never meets a header or
    another block. *)
From S2P Require Import Prelude.

(** ** The program *)

Record Block := mkBlock { size : Z; free : Z; next : option Z }.

(** [sizeof(Block)] on a 64-bit target: a [size_t], an [int] with padding, a pointer *)
Definition sizeof_Block : Z := 24.

Record pool := mkPool { headers : gmap Z Block; PoolSize : Z; FreeList : option Z }.

Definition load (a : Z) : cmd pool Block := fun p =>
  match headers p !! a with Some b => Done (b, p) | None => Undef end.
Definition store (a : Z) (b : Block) : cmd pool unit := fun p =>
  Done (tt, mkPool (<[a := b]> (headers p)) (PoolSize p) (FreeList p)).

(** [None] is the exit of a failed [malloc].  A pool smaller than a header is
    written out of bounds. *)
Definition PoolInit (malloc_ok : bool) (n : Z) : outcome (option pool) :=
  if negb malloc_ok then Done None
  else if n <? sizeof_Block then Undef
  else Done (Some (mkPool {[ 0 := mkBlock (u64 (n - sizeof_Block)) 1 None ]} n (Some 0))).

Definition SplitBlock (block n : Z) : cmd pool unit :=
  b ← load block;
  let NewBlock := block + sizeof_Block + n in
  _ ← store NewBlock (mkBlock (u64 (size b - n - sizeof_Block)) 1 (next b));
  store block (mkBlock n 0 (Some NewBlock)).

Fixpoint PoolAllocate_loop (fuel : nat) (n : Z) (curr : option Z) : cmd pool (option Z) :=
  match curr with
  | None => mret None
  | Some c =>
      match fuel with
      | O => fun _ => OutOfFuel
      | S fuel =>
          b ← load c;
          if negb (free b =? 0) && (size b >=? n) then
            _ ← (if size b >? u64 (n + sizeof_Block) then SplitBlock c n
                 else store c (mkBlock (size b) 0 (next b)));
            mret (Some (c + sizeof_Block))
          else PoolAllocate_loop fuel n (next b)
      end
  end.

(** every block takes at least a header *)
Definition pool_fuel (p : pool) : nat := Z.to_nat (PoolSize p / sizeof_Block).

Definition PoolAllocate (n : Z) : cmd pool (option Z) := fun p =>
  PoolAllocate_loop (pool_fuel p) n (FreeList p) p.

Fixpoint MergeBlock_loop (fuel : nat) (curr : option Z) : cmd pool unit :=
  match curr with
  | None => mret tt
  | Some c =>
      match fuel with
      | O => fun _ => OutOfFuel
      | S fuel =>
          b ← load c;
          match next b with
          | None => mret tt
          | Some n =>
              b' ← load n;
              if negb (free b =? 0) && negb (free b' =? 0) then
                _ ← store c (mkBlock (u64 (size b + (sizeof_Block + size b'))) (free b) (next b'));
                MergeBlock_loop fuel (Some c)
              else MergeBlock_loop fuel (Some n)
          end
      end
  end.

Definition MergeBlock : cmd pool unit := fun p => MergeBlock_loop (pool_fuel p) (FreeList p) p.

Definition PoolFree (ptr : option Z) : cmd pool unit :=
  match ptr with
  | None => mret tt
  | Some a =>
      b ← load (a - sizeof_Block);
      _ ← store (a - sizeof_Block) (mkBlock (size b) 1 (next b));
      MergeBlock
  end.

Definition PoolDestroy : cmd pool unit := modify (fun _ => mkPool ∅ 0 None).

(** [main]: whether the allocation of 100 bytes succeeded; [None] is the exit *)
Definition main (malloc_ok : bool) (user_size : Z) : outcome (option bool) :=
  p ← PoolInit malloc_ok user_size;
  match p with
  | None => Done None
  | Some p =>
      r ← (data ← PoolAllocate 100; _ ← PoolFree data; _ ← PoolDestroy; mret data) p;
      Done (Some (bool_decide (is_Some r.1)))
  end.

(** ** Specification: the pool as a sequence of adjacent blocks *)

Definition block : Type := Z * bool.

Definition flag (f : bool) : Z := if f then 1 else 0.

Fixpoint tiles (hs : gmap Z Block) (p : option Z) (a e : Z) (bs : list block) : Prop :=
  match bs with
  | [] => p = None /\ a = e
  | (s, f) :: bs' =>
      p = Some a /\ 0 <= s /\
      exists n, hs !! a = Some (mkBlock s (flag f) n) /\ tiles hs n (a + 24 + s) e bs'
  end.

Record pool_ok (p : pool) (bs : list block) : Prop := {
  pool_size : 0 <= PoolSize p < 2 ^ 64;
  pool_tiles : tiles (headers p) (FreeList p) 0 (PoolSize p) bs;
}.

(** the memory handed out: offsets and lengths *)
Fixpoint used (a : Z) (bs : list block) : list (Z * Z) :=
  match bs with
  | [] => []
  | (s, f) :: bs' => (if f then [] else [(a + 24, s)]) ++ used (a + 24 + s) bs'
  end.

(** first fit, with what is left of the block split off when it can hold a header *)
Fixpoint first_fit (n a : Z) (bs : list block) : option (Z * list block) :=
  match bs with
  | [] => None
  | (s, f) :: bs' =>
      if f && (n <=? s) then
        Some (a + 24, (if n + 24 <? s then (n, false) :: (s - n - 24, true) :: bs' else (s, false) :: bs'))
      else '(r, bs'') ← first_fit n (a + 24 + s) bs'; Some (r, (s, f) :: bs'')
  end.

Fixpoint merge (s : Z) (f : bool) (bs : list block) : list block :=
  match bs with
  | [] => [(s, f)]
  | (s', f') :: bs' => if f && f' then merge (s + 24 + s') f bs' else (s, f) :: merge s' f' bs'
  end.

Fixpoint coalesced (bs : list block) : Prop :=
  match bs with
  | (_, f) :: ((_, f') :: _) as bs' => f && f' = false /\ coalesced bs'
  | _ => True
  end.

(** ** Lemmas *)

Lemma flag_test f : negb (flag f =? 0) = f.
Proof. by destruct f. Qed.

Lemma load_header p a b : headers p !! a = Some b -> load a p = Done (b, p).
Proof. intros H. unfold load. by rewrite H. Qed.

Lemma tiles_frame hs hs' p a e bs :
  (forall x, a <= x -> hs' !! x = hs !! x) -> tiles hs p a e bs -> tiles hs' p a e bs.
Proof.
  revert p a. induction bs as [|[s f] bs IH]; intros p a Heq; [done|].
  intros (-> & Hs & n & Hn & Ht). split_and!; [done..|]. exists n. rewrite Heq by lia.
  split; [done|]. apply IH; [|done]. intros x Hx. apply Heq. lia.
Qed.

Lemma tiles_length hs p a e bs : tiles hs p a e bs -> a + 24 * Z.of_nat (length bs) <= e.
Proof.
  revert p a. induction bs as [|[s f] bs IH]; intros p a; cbn [length].
  - intros [_ ->]. lia.
  - intros (_ & Hs & n & _ & Ht%IH). lia.
Qed.

Lemma tiles_fuel p bs : pool_ok p bs -> (length bs <= pool_fuel p)%nat.
Proof.
  intros [Hp Ht]. apply tiles_length in Ht. unfold pool_fuel, sizeof_Block.
  assert (Z.of_nat (length bs) <= PoolSize p / 24); [|lia].
  apply Z.div_le_lower_bound; lia.
Qed.

(** what [p'] may differ in from [p]: the headers from [a] on *)
Definition same_below (a : Z) (p p' : pool) : Prop :=
  PoolSize p' = PoolSize p /\ FreeList p' = FreeList p /\
  forall x, x < a -> headers p' !! x = headers p !! x.

Lemma SplitBlock_ok p a e s f n bs nx :
  headers p !! a = Some (mkBlock s f nx) -> tiles (headers p) nx (a + 24 + s) e bs ->
  0 <= n -> n + 24 < s -> s < 2 ^ 64 ->
  exists p', SplitBlock a n p = Done (tt, p') /\ same_below a p p' /\
    tiles (headers p') (Some a) a e ((n, false) :: (s - n - 24, true) :: bs).
Proof.
  intros Ha Ht Hn Hs Hb. unfold SplitBlock. rewrite (cmd_bind_eq _ _ _ _ _ (load_header _ _ _ Ha)).
  eexists. split; [reflexivity|]. unfold sizeof_Block. cbn [size next]. split.
  { split_and!; [done..|]. intros x Hx. simpl. by rewrite !lookup_insert_ne by lia. }
  cbn [headers tiles]. split_and!; [done|done|]. exists (Some (a + 24 + n)).
  rewrite lookup_insert_eq. split_and!; [done..|lia|]. exists nx.
  rewrite lookup_insert_ne, lookup_insert_eq by lia. rewrite u64_small by lia. split; [done|].
  replace (a + 24 + n + 24 + (s - n - 24)) with (a + 24 + s) by lia.
  revert Ht. apply tiles_frame. intros x Hx. by rewrite !lookup_insert_ne by lia.
Qed.

Lemma alloc_loop_ok fuel n q a e bs p :
  (length bs <= fuel)%nat -> 0 <= n -> 0 <= a -> e < 2 ^ 64 -> tiles (headers p) q a e bs ->
  match first_fit n a bs with
  | None => PoolAllocate_loop fuel n q p = Done (None, p)
  | Some (r, bs') => exists p', PoolAllocate_loop fuel n q p = Done (Some r, p') /\
      same_below a p p' /\ tiles (headers p') q a e bs'
  end.
Proof.
  intros Hf Hn Ha He. revert fuel q a p Hf Ha.
  induction bs as [|[s f] bs IH]; intros fuel q a p Hf Ha Ht; cbn [first_fit].
  { destruct Ht as [-> ->]. by destruct fuel. }
  destruct fuel as [|fuel]; cbn [length] in Hf; [lia|].
  destruct Ht as (-> & Hs & nx & Hh & Ht). pose proof (tiles_length _ _ _ _ _ Ht) as Hlen.
  cbn [PoolAllocate_loop]. rewrite (cmd_bind_eq _ _ _ _ _ (load_header _ _ _ Hh)). cbn [free size next].
  rewrite flag_test, Z.geb_leb. destruct (f && (n <=? s)) eqn:Hfit.
  - apply andb_true_iff in Hfit as [-> Hns%Z.leb_le]. unfold sizeof_Block.
    rewrite Z.gtb_ltb, u64_small by lia. destruct (Z.ltb_spec (n + 24) s).
    + destruct (SplitBlock_ok p a e s 1 n bs nx) as (p' & Heq & Hp'); [done..|lia|].
      rewrite (cmd_bind_eq _ _ _ _ _ Heq). by exists p'.
    + eexists. split; [reflexivity|]. split.
      { split_and!; [done..|]. intros x Hx. simpl. by rewrite lookup_insert_ne by lia. }
      cbn [headers tiles]. split_and!; [done|done|]. exists nx. rewrite lookup_insert_eq. split; [done|].
      revert Ht. apply tiles_frame. intros x Hx. by rewrite lookup_insert_ne by lia.
  - specialize (IH fuel nx (a + 24 + s) p). destruct (first_fit n (a + 24 + s) bs) as [[r bs']|]; simpl.
    + destruct IH as (p' & Heq & (Hsz & Hfl & Hb) & Ht'); [lia|lia|done|].
      exists p'. split; [done|]. split; [split_and!; [done..|]; intros x Hx; apply Hb; lia|].
      split_and!; [done|done|]. exists nx. by rewrite Hb by lia.
    + apply IH; [lia|lia|done].
Qed.

Lemma PoolAllocate_ok n p bs : pool_ok p bs -> 0 <= n ->
  match first_fit n 0 bs with
  | None => PoolAllocate n p = Done (None, p)
  | Some (r, bs') => exists p', PoolAllocate n p = Done (Some r, p') /\
      PoolSize p' = PoolSize p /\ pool_ok p' bs'
  end.
Proof.
  intros Hok Hn. pose proof (tiles_fuel p bs Hok) as Hf. destruct Hok as [Hsz Ht].
  pose proof (alloc_loop_ok (pool_fuel p) n (FreeList p) 0 (PoolSize p) bs p Hf Hn) as H.
  unfold PoolAllocate. destruct (first_fit n 0 bs) as [[r bs']|]; [|apply H; [lia|lia|done]].
  destruct H as (p' & Heq & (Hs & Hfl & _) & Ht'); [lia|lia|done|].
  exists p'. split_and!; [done..|]. split; rewrite Hs, ?Hfl; done.
Qed.

Lemma merge_loop_ok fuel a e s f bs p :
  (S (length bs) <= fuel)%nat -> 0 <= a -> e < 2 ^ 64 ->
  tiles (headers p) (Some a) a e ((s, f) :: bs) ->
  exists p', MergeBlock_loop fuel (Some a) p = Done (tt, p') /\ same_below a p p' /\
    tiles (headers p') (Some a) a e (merge s f bs).
Proof.
  intros Hf Ha He. revert fuel a s f p Hf Ha.
  induction bs as [|[s' f'] bs IH]; intros fuel a s f p Hf Ha (_ & Hs & nx & Hh & Ht);
    (destruct fuel as [|fuel]; cbn [length] in Hf; [lia|]); cbn [MergeBlock_loop merge];
    rewrite (cmd_bind_eq _ _ _ _ _ (load_header _ _ _ Hh)); cbn [next size free].
  - destruct Ht as [-> <-]. exists p. split_and!; [done..|]. simpl. by eauto 10.
  - destruct Ht as (-> & Hs' & nx' & Hh' & Ht). pose proof (tiles_length _ _ _ _ _ Ht) as Hlen.
    rewrite (cmd_bind_eq _ _ _ _ _ (load_header _ _ _ Hh')). cbn [next size free].
    rewrite !flag_test. destruct (f && f') eqn:Hff.
    + unfold sizeof_Block. rewrite u64_small by lia.
      set (p1 := mkPool (<[a := mkBlock (s + (24 + s')) (flag f) nx']> (headers p)) (PoolSize p) (FreeList p)).
      destruct (IH fuel a (s + 24 + s') f p1) as (p' & Heq & (Hsz & Hfl & Hb) & Ht'); [lia..| |].
      { split_and!; [done|lia|]. exists nx'. simpl. rewrite lookup_insert_eq. split; [do 2 f_equal; lia|].
        replace (a + 24 + (s + 24 + s')) with (a + 24 + s + 24 + s') by lia.
        revert Ht. apply tiles_frame. intros x Hx. by rewrite lookup_insert_ne by lia. }
      exists p'. split; [exact Heq|]. split; [|done]. split_and!; [done..|].
      intros x Hx. rewrite Hb by lia. simpl. by rewrite lookup_insert_ne by lia.
    + destruct (IH fuel (a + 24 + s) s' f' p) as (p' & Heq & (Hsz & Hfl & Hb) & Ht'); [lia..| |].
      { split_and!; [done..|]. by exists nx'. }
      exists p'. split; [done|]. split; [split_and!; [done..|]; intros x Hx; apply Hb; lia|].
      split_and!; [done|done|]. exists (Some (a + 24 + s)). by rewrite Hb by lia.
Qed.

Lemma used_in hs q a e bs x : tiles hs q a e bs -> x ∈ used a bs -> a + 24 <= x.1 /\ 0 <= x.2 /\ x.1 + x.2 <= e.
Proof.
  revert q a. induction bs as [|[s f] bs IH]; intros q a; simpl; [set_solver|].
  intros (_ & Hs & n & _ & Ht). pose proof (tiles_length _ _ _ _ _ Ht) as Hlen.
  rewrite elem_of_app. intros [Hx|Hx%(IH _ _ Ht)]; [|lia].
  destruct f; [set_solver|]. apply list_elem_of_singleton in Hx as ->. simpl. lia.
Qed.

(** the region [x] with its header lies apart from the one at [r] *)
Definition apart (r s : Z) (x : Z * Z) : Prop := x.1 + x.2 <= r - 24 \/ r + s <= x.1 - 24.

Lemma first_fit_used hs q n a e bs r bs' : tiles hs q a e bs -> 0 <= n ->
  first_fit n a bs = Some (r, bs') ->
  exists s, n <= s /\ a + 24 <= r /\ r + s <= e /\
    used a bs' ≡ₚ (r, s) :: used a bs /\ Forall (apart r s) (used a bs).
Proof.
  revert q a bs'. induction bs as [|[s f] bs IH]; intros q a bs'; simpl; [done|].
  intros (_ & Hs & nx & _ & Ht) Hn. pose proof (tiles_length _ _ _ _ _ Ht) as Hlen.
  destruct (f && (n <=? s)) eqn:Hfit.
  - apply andb_true_iff in Hfit as [-> Hns%Z.leb_le]. intros [= <- <-].
    assert (forall m, m <= s -> Forall (apart (a + 24) m) (used (a + 24 + s) bs)) as Hap.
    { intros m Hm. apply Forall_forall. intros x Hx%(used_in _ _ _ _ _ _ Ht). right. lia. }
    destruct (Z.ltb_spec (n + 24) s); simpl.
    + exists n. replace (a + 24 + n + 24 + (s - n - 24)) with (a + 24 + s) by lia.
      split_and!; [lia..|done|apply Hap; lia].
    + exists s. split_and!; [lia..|done|by apply Hap].
  - destruct (first_fit n (a + 24 + s) bs) as [[r' bs'']|] eqn:Heq; [|done]. simpl. intros [= <- <-].
    destruct (IH _ _ _ Ht Hn Heq) as (s' & Hns & Hr & He & Hp & Hap). exists s'. split_and!; [lia..| |].
    + simpl. rewrite Hp. by rewrite Permutation_middle.
    + apply Forall_app. split; [|done]. destruct f; [done|]. apply Forall_singleton. left. simpl. lia.
Qed.

Lemma first_fit_None n a bs : first_fit n a bs = None -> Forall (fun b => b.2 = true -> b.1 < n) bs.
Proof.
  revert a. induction bs as [|[s f] bs IH]; intros a; simpl; [constructor|].
  destruct (f && (n <=? s)) eqn:Hfit; [done|]. destruct (first_fit _ _ bs) as [[]|] eqn:Heq; [done|].
  intros _. constructor; [|by eapply IH]. simpl. intros ->. simpl in Hfit. lia.
Qed.

Lemma merge_used a s f bs : used a (merge s f bs) = used a ((s, f) :: bs).
Proof.
  revert a s f. induction bs as [|[s' f'] bs IH]; intros a s f; simpl; [done|].
  destruct f; simpl.
  - destruct f'; simpl; rewrite IH; simpl; [|done]. f_equal. lia.
  - by rewrite IH.
Qed.

Lemma merge_head s f bs : exists s' bs', merge s f bs = (s', f) :: bs'.
Proof.
  revert s f. induction bs as [|[s' f'] bs IH]; intros s f; simpl; [by eauto|].
  destruct (f && f') eqn:Hff; [apply IH|by eauto].
Qed.

Lemma merge_coalesced s f bs : coalesced (merge s f bs).
Proof.
  revert s f. induction bs as [|[s' f'] bs IH]; intros s f; simpl; [done|].
  destruct (f && f') eqn:Hff; [apply IH|]. pose proof (IH s' f') as Hc.
  destruct (merge_head s' f' bs) as (s2 & bs2 & Heq). rewrite Heq in *. done.
Qed.

(** clearing one used block, before the merge *)
Lemma release_ok hs q a e bs r s : tiles hs q a e bs -> (r, s) ∈ used a bs ->
  exists n bs2, hs !! (r - 24) = Some (mkBlock s 0 n) /\
    tiles (<[r - 24 := mkBlock s 1 n]> hs) q a e bs2 /\
    used a bs ≡ₚ (r, s) :: used a bs2 /\ length bs2 = length bs.
Proof.
  revert q a. induction bs as [|[s' f'] bs IH]; intros q a; simpl; [set_solver|].
  intros (-> & Hs & nx & Hh & Ht). rewrite elem_of_app. intros [Hin|Hin].
  - destruct f'; [set_solver|]. apply list_elem_of_singleton in Hin as [= -> ->].
    replace (a + 24 - 24) with a by lia. exists nx, ((s', true) :: bs). split_and!; [done| |done..].
    split_and!; [done..|]. exists nx. rewrite lookup_insert_eq. split; [done|].
    revert Ht. apply tiles_frame. intros x Hx. by rewrite lookup_insert_ne by lia.
  - pose proof (used_in _ _ _ _ _ _ Ht Hin) as Hb. simpl in Hb.
    destruct (IH _ _ Ht Hin) as (n & bs2 & Hr & Ht2 & Hp & Hl).
    exists n, ((s', f') :: bs2). split_and!; [done| | |by simpl; f_equal].
    + split_and!; [done..|]. exists nx. by rewrite lookup_insert_ne by lia.
    + simpl. rewrite Hp. by rewrite Permutation_middle.
Qed.

Lemma PoolInit_ok n : 24 <= n < 2 ^ 64 ->
  exists p, PoolInit true n = Done (Some p) /\ pool_ok p [(n - 24, true)].
Proof.
  intros Hn. unfold PoolInit, sizeof_Block. simpl. destruct (Z.ltb_spec n 24); [lia|].
  eexists. split; [done|]. rewrite u64_small by lia. split; [simpl; lia|]. simpl.
  split_and!; [done|lia|]. exists None. split; [by rewrite lookup_singleton_eq|]. split; [done|lia].
Qed.

Lemma PoolFree_ok r s p bs : pool_ok p bs -> (r, s) ∈ used 0 bs ->
  exists p' bs', PoolFree (Some r) p = Done (tt, p') /\ PoolSize p' = PoolSize p /\ pool_ok p' bs' /\
    coalesced bs' /\ used 0 bs ≡ₚ (r, s) :: used 0 bs'.
Proof.
  intros Hok Hin. pose proof (tiles_fuel p bs Hok) as Hf. destruct Hok as [Hsz Ht].
  destruct (release_ok _ _ _ _ _ _ _ Ht Hin) as (n & bs2 & Hr & Ht2 & Hp & Hl).
  unfold PoolFree, sizeof_Block. rewrite (cmd_bind_eq _ _ _ _ _ (load_header _ _ _ Hr)). cbn [size next].
  set (p1 := mkPool (<[r - 24 := mkBlock s 1 n]> (headers p)) (PoolSize p) (FreeList p)).
  destruct bs2 as [|[s1 f1] bs2]; [destruct bs; [by apply elem_of_nil in Hin|done]|].
  destruct (merge_loop_ok (pool_fuel p1) 0 (PoolSize p) s1 f1 bs2 p1) as (p' & Heq & (Hs & Hfl & _) & Ht').
  - etransitivity; [|exact Hf]. by rewrite <- Hl.
  - lia.
  - lia.
  - destruct Ht2 as (Hq & ? & ?). by split_and!.
  - assert (FreeList p = Some 0) as Hq by apply Ht2.
    exists p', (merge s1 f1 bs2). split_and!; [|done| |apply merge_coalesced|by rewrite merge_used].
    + change (MergeBlock_loop (pool_fuel p1) (FreeList p) p1 = Done (tt, p')). by rewrite Hq.
    + split; rewrite Hs; [done|]. rewrite Hfl. simpl. by rewrite Hq.
Qed.

(** ** Properties *)

(** On a well-formed pool [PoolAllocate] never reads outside the headers and
    terminates.  It returns NULL exactly when no free block is large enough, and then
    nothing changes; otherwise it hands out a region of at least the requested size
    inside the pool, apart from every region already handed out and from all block
    headers, keeps those regions, and leaves a well-formed pool. *)
Theorem PoolAllocate_correct n p bs : pool_ok p bs -> 0 <= n ->
  exists r p', PoolAllocate n p = Done (r, p') /\ PoolSize p' = PoolSize p /\
    match r with
    | None => p' = p /\ Forall (fun b => b.2 = true -> b.1 < n) bs
    | Some ptr => exists s bs', pool_ok p' bs' /\ n <= s /\ 24 <= ptr /\ ptr + s <= PoolSize p /\
        used 0 bs' ≡ₚ (ptr, s) :: used 0 bs /\ Forall (apart ptr s) (used 0 bs)
    end.
Proof.
  intros Hok Hn. pose proof (PoolAllocate_ok n p bs Hok Hn) as H.
  destruct (first_fit n 0 bs) as [[r bs']|] eqn:Heq.
  - destruct H as (p' & Heq' & Hsz & Hok'). exists (Some r), p'. split; [done|]. split; [done|].
    destruct (first_fit_used _ _ _ _ _ _ _ _ (pool_tiles _ _ Hok) Hn Heq) as (s & Hs & Hr & He & Hp & Hap).
    exists s, bs'. split_and!; [done..|lia|lia|done|done].
  - exists None, p. split_and!; [done..|]. by apply first_fit_None in Heq.
Qed.

Definition pool_400 : pool := mkPool {[ 0 := mkBlock 376 1 None ]} 400 (Some 0).

Lemma pool_400_ok : pool_ok pool_400 [(376, true)].
Proof. split; [done|]. simpl. split_and!; [done|done|]. exists None. by split_and!. Qed.

Lemma PoolAllocate_correct_witness :
  exists r p', PoolAllocate 100 pool_400 = Done (r, p') /\ PoolSize p' = 400 /\ r = Some 24.
Proof.
  destruct (PoolAllocate_correct 100 pool_400 [(376, true)]) as (r & p' & Heq & Hsz & _);
    [apply pool_400_ok|lia|].
  exists r, p'. split; [done|]. split; [done|]. vm_compute in Heq. congruence.
Defined.

(** C11: freeing a region that was handed out terminates without an invalid access,
    gives back exactly that region and keeps all the others, and leaves a well-formed
    pool without two adjacent free blocks. *)
Theorem PoolFree_correct r s p bs : pool_ok p bs -> (r, s) ∈ used 0 bs ->
  exists p' bs', PoolFree (Some r) p = Done (tt, p') /\ PoolSize p' = PoolSize p /\ pool_ok p' bs' /\
    coalesced bs' /\ used 0 bs ≡ₚ (r, s) :: used 0 bs'.
Proof. apply PoolFree_ok. Qed.

Lemma PoolFree_correct_witness :
  exists p bs p' bs', pool_ok p bs /\ (24, 100) ∈ used 0 bs /\
    PoolFree (Some 24) p = Done (tt, p') /\ pool_ok p' bs' /\ used 0 bs' = [].
Proof.
  pose proof (PoolAllocate_ok 100 pool_400 [(376, true)] pool_400_ok) as (p & _ & _ & Hok); [lia|].
  destruct (PoolFree_correct 24 100 p _ Hok) as (p' & bs' & Heq & _ & Hok' & _ & Hp); [set_solver|].
  exists p, [(100, false); (252, true)], p', bs'. split_and!; [done|set_solver|done..|].
  by apply Permutation_length in Hp as Hl; destruct (used 0 bs').
Defined.

(** [main] never runs into undefined behaviour for a pool that can hold a header,
    whatever its size: the demonstration allocation succeeds exactly when 100 bytes
    fit behind the first header, and the freeing and the destruction go through. *)
Theorem pool_main_safe n : 24 <= n < 2 ^ 64 -> main true n = Done (Some (bool_decide (124 <= n))).
Proof.
  intros Hn. destruct (PoolInit_ok n Hn) as (p & Heqi & Hok). unfold main. rewrite Heqi. simpl.
  pose proof (PoolAllocate_ok 100 p _ Hok) as Ha. simpl in Ha.
  destruct (Z.leb_spec 100 (n - 24)).
  - destruct Ha as (p' & Heq & _ & Hok'); [lia|]. rewrite (cmd_bind_eq _ _ _ _ _ Heq).
    assert (exists s, (24, s) ∈ used 0 (if 124 <? n - 24 then
      [(100, false); (n - 24 - 100 - 24, true)] else [(n - 24, false)])) as [s Hin].
    { destruct (124 <? n - 24); simpl; eexists; by left. }
    destruct (PoolFree_ok 24 s p' _ Hok' Hin) as (p2 & bs2 & Heq2 & _).
    rewrite (cmd_bind_eq _ _ _ _ _ Heq2). simpl. rewrite (bool_decide_true (124 <= n)) by lia. done.
  - rewrite (cmd_bind_eq _ _ _ _ _ (Ha ltac:(lia))). simpl.
    rewrite (bool_decide_false (124 <= n)) by lia. done.
Qed.

Lemma pool_main_safe_witness : main true 1000 = Done (Some true).
Proof. apply (pool_main_safe 1000). lia. Defined.

(** A pool smaller than the header is written out of its bounds. *)
Lemma tiny_pool_undef : main true 16 = Undef.
Proof. done. Qed.
