(* ===== verification/MemoryTracker.v ===== *)
(** * The allocation tracker of MemoryAllocation/memoryAllocation.c

    The C library's allocator is a parameter: the set of live blocks and, for the
    n-th call, the address it answers, which is not the address of a live block.
    Freeing or reallocating a block that is not live is undefined.  The nodes of the
    tracker are blocks of the same heap.  The list of nodes is only ever extended at
    its head and read, and the flag of a node set in place, so it is a list. *)
From S2P Require Import Prelude.

(** ** The program *)

(** [self] is the address of the node itself *)
Record MemoryNode := mkNode { self : Z; address : Z; size : Z; is_freed : Z }.

(** the lines of memoryLog.txt *)
Inductive entry :=
| Header
| Event (action : string) (a : Z) (n : Z)
| Title (t : string)
| BlockLine (a n : Z)
| Total (n : Z).

Record tracker := mkTracker {
  head : list MemoryNode; logFile : bool; log : list entry; live : gset Z; calls : nat
}.

Section tracker.
(** the answers of [fopen], [malloc]/[calloc] and [realloc]; 0 is NULL *)
Context (fopen_ok : bool) (malloc_at : nat -> gset Z -> Z) (realloc_at : nat -> gset Z -> Z -> Z).

Definition set_head (l : list MemoryNode) (s : tracker) : tracker :=
  mkTracker l (logFile s) (log s) (live s) (calls s).
Definition print (es : list entry) (s : tracker) : tracker :=
  mkTracker (head s) (logFile s) (log s ++ es) (live s) (calls s).

Definition malloc : cmd tracker Z := fun s =>
  let a := malloc_at (calls s) (live s) in
  Done (a, mkTracker (head s) (logFile s) (log s)
             (if a =? 0 then live s else {[ a ]} ∪ live s) (S (calls s))).

Definition realloc (p : Z) : cmd tracker Z := fun s =>
  if negb (p =? 0) && negb (bool_decide (p ∈ live s)) then Undef else
  let a := realloc_at (calls s) (live s) p in
  Done (a, mkTracker (head s) (logFile s) (log s)
             (if a =? 0 then live s else {[ a ]} ∪ (live s ∖ {[ p ]})) (S (calls s))).

Definition free (p : Z) : cmd tracker unit := fun s =>
  if bool_decide (p ∈ live s)
  then Done (tt, mkTracker (head s) (logFile s) (log s) (live s ∖ {[ p ]}) (calls s))
  else Undef.

Definition LogEvent (action : string) (a n : Z) : cmd tracker Z :=
  s ← get;
  if logFile s then _ ← modify (print [Event action a n]); mret 0
  else if fopen_ok then
    _ ← modify (fun s => mkTracker (head s) true (log s ++ [Header; Event action a n]) (live s) (calls s));
    mret 0
  else mret 1.

(** [sizeof(MemoryNode)] *)
Definition node_size : Z := 32.

Definition AddAllocation (a n : Z) : cmd tracker Z :=
  newNode ← malloc;
  if newNode =? 0 then _ ← LogEvent "TRACKER ALLOC FAILED" 0 node_size; mret 1
  else _ ← modify (fun s => set_head (mkNode newNode a n 0 :: head s) s); mret 0.

Fixpoint FindeValue (a : Z) (l : list MemoryNode) : option MemoryNode :=
  match l with
  | [] => None
  | n :: l' => if address n =? a then Some n else FindeValue a l'
  end.

(** [node->is_freed = 1] for the node that [FindeValue] returned *)
Fixpoint mark_freed (a : Z) (l : list MemoryNode) : list MemoryNode :=
  match l with
  | [] => []
  | n :: l' => if address n =? a then mkNode (self n) (address n) (size n) 1 :: l'
               else n :: mark_freed a l'
  end.

Definition TrackMalloc (n : Z) : cmd tracker Z :=
  if n =? 0 then _ ← LogEvent "MALLOCZERO" 0 0; mret 0 else
  ptr ← malloc;
  _ ← (if negb (ptr =? 0) then _ ← AddAllocation ptr n; LogEvent "MALLOC" ptr n
       else LogEvent "MALLOC FAILED" 0 n);
  mret ptr.

Definition TrackCalloc (num n : Z) : cmd tracker Z :=
  if (num =? 0) || (n =? 0) then _ ← LogEvent "CALLOC ZERO" 0 0; mret 0 else
  ptr ← malloc;
  _ ← (if negb (ptr =? 0) then
         _ ← AddAllocation ptr (u64 (num * n)); LogEvent "CALLOC" ptr (u64 (num * n))
       else LogEvent "CALLOC FAILED" 0 (u64 (num * n)));
  mret ptr.

Definition TrackRealloc (ptr n : Z) : cmd tracker Z :=
  if n =? 0 then _ ← LogEvent "REALLOC ZERO" ptr 0; mret 0 else
  new_ptr ← realloc ptr;
  _ ← (if negb (new_ptr =? 0) then
         l ← gets head;
         match FindeValue ptr l with
         | Some _ =>
             _ ← modify (set_head (mark_freed ptr l));
             _ ← AddAllocation new_ptr n; LogEvent "REALLOC" new_ptr n
         | None => LogEvent "REALLOC UNTRACKED" new_ptr n
         end
       else LogEvent "REALLOC FAILED" ptr n);
  mret new_ptr.

Definition TrackFree (ptr : Z) : cmd tracker Z :=
  if ptr =? 0 then _ ← LogEvent "FREE NULL" 0 0; mret 1 else
  l ← gets head;
  match FindeValue ptr l with
  | Some node =>
      if is_freed node =? 0 then
        _ ← modify (set_head (mark_freed ptr l));
        _ ← LogEvent "FREE" ptr (size node); _ ← free ptr; mret 0
      else _ ← LogEvent "FREE UNTRACKED" ptr 0; mret 1
  | None => _ ← LogEvent "FREE UNTRACKED" ptr 0; mret 1
  end.

Definition freed (n : MemoryNode) : bool := negb (is_freed n =? 0).

Definition lines (p : MemoryNode -> bool) (l : list MemoryNode) : list entry :=
  omap (fun n => if p n then Some (BlockLine (address n) (size n)) else None) l.

Definition if_open (m : cmd tracker unit) : cmd tracker Z :=
  s ← get; if logFile s then _ ← m; mret 0 else mret 1.

Definition FreedMemory : cmd tracker Z := if_open (modify (fun s =>
  print (Title "--- Freed Memory Blocks ---" :: lines freed (head s)) s)).

Definition total_leaked (l : list MemoryNode) : Z :=
  fold_left (fun t n => if freed n then t else u64 (t + size n)) l 0.

Definition MemoryLeaks : cmd tracker Z := if_open (modify (fun s =>
  print (Title "-----Memory leak------" :: lines (fun n => negb (freed n)) (head s)
         ++ [Total (total_leaked (head s))]) s)).

Definition TableView : cmd tracker Z := if_open (modify (fun s =>
  print (Title "--- Active Allocations (Table) ---" :: lines (fun n => negb (freed n)) (head s)) s)).

Definition LinkedListView : cmd tracker Z := if_open (modify (fun s =>
  print (Title "--- Active Allocations (Linked List) ---" ::
         lines (fun n => negb (freed n)) (head s) ++ [Title "NULL"]) s)).

(** the loop that frees the nodes *)
Fixpoint free_nodes (l : list MemoryNode) : cmd tracker unit :=
  match l with [] => mret tt | n :: l' => _ ← free (self n); free_nodes l' end.

Definition CleanupTracker : cmd tracker Z := if_open (
  _ ← FreedMemory; _ ← MemoryLeaks; _ ← TableView; _ ← LinkedListView;
  l ← gets head; _ ← free_nodes l;
  modify (fun s => mkTracker [] false (log s) (live s) (calls s))).

(** the menu of [main] with the numbers typed after a choice *)
Inductive menu :=
| Malloc (n : Z) | Calloc (num n : Z) | Realloc (i newSize : Z) | Free (i : Z)
| Table | Linked | Cleanup | Invalid.

Definition in_ptrs (i : Z) (ptrs : list Z) (index : Z) : bool :=
  (0 <=? i) && (i <? index) && negb (default 0 (ptrs !! Z.to_nat i) =? 0).

Definition push_ptr (ptrs : list Z) (index p : Z) : cmd tracker (list Z * Z) :=
  ptrs ← lift (arr_set ptrs index p); mret (ptrs, index + 1).

Definition main_step (c : menu) (ptrs : list Z) (index : Z) : cmd tracker (list Z * Z) :=
  match c with
  | Malloc n => p ← TrackMalloc n; push_ptr ptrs index p
  | Calloc num n => p ← TrackCalloc num n; push_ptr ptrs index p
  | Realloc i newSize =>
      if in_ptrs i ptrs index then
        q ← lift (arr_get ptrs i); p ← TrackRealloc q newSize;
        ptrs ← lift (arr_set ptrs i p); mret (ptrs, index)
      else mret (ptrs, index)
  | Free i =>
      if in_ptrs i ptrs index then
        q ← lift (arr_get ptrs i); _ ← TrackFree q;
        ptrs ← lift (arr_set ptrs i 0); mret (ptrs, index)
      else mret (ptrs, index)
  | Table => _ ← TableView; mret (ptrs, index)
  | Linked => _ ← LinkedListView; mret (ptrs, index)
  | Cleanup | Invalid => mret (ptrs, index)
  end.

(** [main] on a finite input, up to the point where it would read more *)
Fixpoint main_loop (input : list menu) (ptrs : list Z) (index : Z) : cmd tracker unit :=
  match input with
  | [] => mret tt
  | Cleanup :: _ => _ ← CleanupTracker; mret tt
  | c :: input' => '(ptrs, index) ← main_step c ptrs index; main_loop input' ptrs index
  end.

Definition main (input : list menu) : outcome (unit * tracker) :=
  main_loop input (replicate 100 0) 0 (mkTracker [] false [] ∅ 0).

(** ** Specification: the tracked blocks as a map from addresses to sizes *)

Fixpoint tracked (l : list MemoryNode) : gmap Z Z :=
  match l with
  | [] => ∅
  | n :: l' => if freed n then tracked l' else <[address n := size n]> (tracked l')
  end.

(** an older node of an address is always a freed one *)
Fixpoint clean (l : list MemoryNode) : Prop :=
  match l with
  | [] => True
  | n :: l' => tracked l' !! address n = None /\ clean l'
  end.

Definition nodes (l : list MemoryNode) : gset Z := list_to_set (self <$> l).

(** [us] are the pointers the user holds *)
Record tracker_ok (us : gset Z) (s : tracker) : Prop := {
  ok_clean : clean (head s);
  ok_nodup : NoDup (self <$> head s);
  ok_nodes : nodes (head s) ⊆ live s;
  ok_null : 0 ∉ live s;
  ok_tracked : dom (tracked (head s)) ⊆ live s ∖ nodes (head s);
  ok_users : us ⊆ live s ∖ nodes (head s);
}.

Fixpoint allocations (input : list menu) : nat :=
  match input with
  | [] => O
  | Malloc _ :: input' | Calloc _ _ :: input' => S (allocations input')
  | _ :: input' => allocations input'
  end.

(** what the C library promises *)
Record allocator_ok : Prop := {
  malloc_fresh : forall k l, malloc_at k l <> 0 -> malloc_at k l ∉ l;
  realloc_fresh : forall k l p, realloc_at k l p <> 0 ->
    realloc_at k l p = p \/ realloc_at k l p ∉ l;
}.

(** ** Lemmas *)

(** the parts of the state that are not output *)
Definition same_mem (s s' : tracker) : Prop := head s' = head s /\ live s' = live s.

Lemma LogEvent_ok act a n s : exists r s', LogEvent act a n s = Done (r, s') /\ same_mem s s'.
Proof.
  unfold LogEvent, mbind, cmd_bind, get. destruct (logFile s); [by repeat eexists|].
  destruct fopen_ok; by repeat eexists.
Qed.

Lemma tracked_find a l : clean l ->
  tracked l !! a = match FindeValue a l with
                   | Some n => if freed n then None else Some (size n)
                   | None => None
                   end.
Proof.
  induction l as [|n l IH]; simpl; [done|]. intros [Hn Hc]. specialize (IH Hc).
  destruct (Z.eqb_spec (address n) a) as [<-|Hne].
  - destruct (freed n); [done|]. by rewrite lookup_insert_eq.
  - destruct (freed n); [done|]. by rewrite lookup_insert_ne.
Qed.

Lemma mark_freed_tracked a l : clean l -> tracked (mark_freed a l) = delete a (tracked l).
Proof.
  induction l as [|n l IH]; simpl; [by rewrite delete_empty|]. intros [Hn Hc]. specialize (IH Hc).
  destruct (Z.eqb_spec (address n) a) as [<-|Hne]; simpl.
  - destruct (freed n); [by rewrite delete_id|]. by rewrite delete_insert_id.
  - destruct (freed n); [done|]. by rewrite IH, delete_insert_ne.
Qed.

Lemma mark_freed_clean a l : clean l -> clean (mark_freed a l).
Proof.
  induction l as [|n l IH]; simpl; [done|]. intros [Hn Hc].
  destruct (Z.eqb_spec (address n) a) as [<-|Hne]; simpl; [done|].
  rewrite mark_freed_tracked by done. split; [|auto]. by rewrite lookup_delete_ne.
Qed.

Lemma mark_freed_self a l : self <$> mark_freed a l = self <$> l.
Proof. induction l as [|n l IH]; simpl; [done|]. case_match; simpl; by f_equal. Qed.

Lemma ok_same us s s' : same_mem s s' -> tracker_ok us s -> tracker_ok us s'.
Proof. intros [Hh Hl] [????? ?]. split; by rewrite ?Hh, ?Hl. Qed.

Lemma ok_null_user us s : tracker_ok us s -> 0 ∉ us.
Proof. intros [???? ? ?]. set_solver. Qed.

Section laws.
Context (alloc : allocator_ok).

(** a block that is live and neither a node, tracked nor a user's *)
Lemma malloc_ok us s : tracker_ok us s ->
  exists a s', malloc s = Done (a, s') /\ head s' = head s /\ tracker_ok us s' /\
    (a = 0 \/ ((a ∉ live s) /\ live s' = {[ a ]} ∪ live s)) /\
    (a <> 0 -> tracker_ok ({[ a ]} ∪ us) s').
Proof.
  intros [Hc Hnd Hn H0 Ht Hu]. unfold malloc.
  pose proof (malloc_fresh alloc (calls s) (live s)) as Hfr.
  set (a := malloc_at (calls s) (live s)) in *. eexists a, _. split; [done|]. simpl. split; [done|].
  destruct (Z.eqb_spec a 0) as [Ha|Ha].
  - split_and!; [by split|by left|done].
  - specialize (Hfr Ha). split_and!; [split; simpl; set_solver|by right|].
    intros _. split; simpl; [done|done|set_solver..].
Qed.

Lemma AddAllocation_ok us a n s : tracker_ok ({[ a ]} ∪ us) s -> tracked (head s) !! a = None ->
  exists r s', AddAllocation a n s = Done (r, s') /\ tracker_ok ({[ a ]} ∪ us) s' /\
    (tracked (head s') = tracked (head s) \/ tracked (head s') = <[a := n]> (tracked (head s))).
Proof.
  intros Hok Ht. destruct (malloc_ok _ s Hok) as (d & s1 & Heq & Hh & Hok1 & Hd & _).
  unfold AddAllocation. rewrite (cmd_bind_eq _ _ _ _ _ Heq). destruct (Z.eqb_spec d 0) as [Hd0|Hd0].
  - destruct (LogEvent_ok "TRACKER ALLOC FAILED" 0 node_size s1) as (r & s2 & Heq2 & Hsame).
    rewrite (cmd_bind_eq _ _ _ _ _ Heq2). exists 1, s2. split; [done|].
    split; [by eapply ok_same|]. left. destruct Hsame as [-> _]. by rewrite Hh.
  - destruct Hd as [|[Hfr Hl]]; [done|]. eexists 0, _. split; [reflexivity|]. simpl. rewrite Hh.
    split; [|by right].
    destruct Hok1 as [Hc Hnd Hn H0 Htr Hu]. rewrite Hh in *. destruct Hok as [_ _ Hn' _ Htr' Hu'].
    split; simpl; rewrite ?Hl in *; [done| |set_solver|done| |].
    + constructor; [|done]. intros Hin. apply Hfr, Hn'. unfold nodes. set_solver.
    + unfold nodes. simpl. fold (nodes (head s)). rewrite dom_insert. set_solver.
    + unfold nodes. simpl. fold (nodes (head s)). set_solver.
Qed.

(** what [TrackMalloc] and [TrackCalloc] share; [m] writes the log *)
Lemma track_new_ok us n (act fail : string) s : tracker_ok us s ->
  exists p s', (ptr ← malloc;
     _ ← (if negb (ptr =? 0) then _ ← AddAllocation ptr n; LogEvent act ptr n
          else LogEvent fail 0 n);
     mret ptr) s = Done (p, s') /\ (p = 0 \/ (p ∉ us)) /\
    tracker_ok (if p =? 0 then us else {[ p ]} ∪ us) s'.
Proof.
  intros Hok. destruct (malloc_ok us s Hok) as (a & s1 & Heq & Hh & Hok1 & Ha & Hok1').
  rewrite (cmd_bind_eq _ _ _ _ _ Heq). destruct (Z.eqb_spec a 0) as [Ha0|Ha0]; simpl.
  - destruct (LogEvent_ok fail 0 n s1) as (r & s2 & Heq2 & Hsame).
    rewrite (cmd_bind_eq _ _ _ _ _ Heq2). exists a, s2. split; [done|]. split; [by left|].
    rewrite (proj2 (Z.eqb_eq a 0) Ha0). by eapply ok_same.
  - destruct Ha as [|[Hfr Hl]]; [done|]. destruct (AddAllocation_ok us a n s1) as (r & s2 & Heq2 & Hok2 & _).
    { by apply Hok1'. }
    { apply not_elem_of_dom. rewrite Hh. destruct Hok. set_solver. }
    destruct (LogEvent_ok act a n s2) as (r' & s3 & Heq3 & Hsame).
    erewrite cmd_bind_eq; [|rewrite (cmd_bind_eq _ _ _ _ _ Heq2); exact Heq3].
    exists a, s3. split; [done|]. rewrite (proj2 (Z.eqb_neq a 0) Ha0).
    split; [right; destruct Hok; set_solver|by eapply ok_same].
Qed.

Lemma log_ret us act a n s : tracker_ok us s ->
  forall r : Z, exists s', (_ ← LogEvent act a n; mret r) s = Done (r, s') /\ tracker_ok us s'.
Proof.
  intros Hok r. destruct (LogEvent_ok act a n s) as (r' & s' & Heq & Hsame).
  exists s'. rewrite (cmd_bind_eq _ _ _ _ _ Heq). split; [done|by eapply ok_same].
Qed.

Lemma TrackMalloc_ok us n s : tracker_ok us s ->
  exists p s', TrackMalloc n s = Done (p, s') /\ (p = 0 \/ (p ∉ us)) /\
    tracker_ok (if p =? 0 then us else {[ p ]} ∪ us) s'.
Proof.
  intros Hok. unfold TrackMalloc. destruct (n =? 0); [|by apply track_new_ok].
  destruct (log_ret us "MALLOCZERO" 0 0 s Hok 0) as (s' & Heq & Hok'). exists 0, s'. eauto.
Qed.

Lemma TrackCalloc_ok us num n s : tracker_ok us s ->
  exists p s', TrackCalloc num n s = Done (p, s') /\ (p = 0 \/ (p ∉ us)) /\
    tracker_ok (if p =? 0 then us else {[ p ]} ∪ us) s'.
Proof.
  intros Hok. unfold TrackCalloc. destruct (_ || _); [|by apply track_new_ok].
  destruct (log_ret us "CALLOC ZERO" 0 0 s Hok 0) as (s' & Heq & Hok'). exists 0, s'. eauto.
Qed.

Lemma realloc_ok us p s : tracker_ok us s -> p ∈ us ->
  exists a s', realloc p s = Done (a, s') /\ head s' = head s /\
    (a = 0 \/ (a ∉ us ∖ {[ p ]}) /\ (a = p \/ tracked (head s) !! a = None)) /\
    (a = 0 -> tracker_ok us s') /\
    (a <> 0 -> live s' = {[ a ]} ∪ (live s ∖ {[ p ]}) /\ (a ∉ nodes (head s))).
Proof.
  intros Hok Hp. pose proof (ok_null_user _ _ Hok) as Hz. destruct Hok as [Hc Hnd Hn H0 Ht Hu].
  unfold realloc. rewrite (bool_decide_true (p ∈ live s)) by set_solver. rewrite andb_false_r.
  pose proof (realloc_fresh alloc (calls s) (live s) p) as Hfr.
  set (a := realloc_at (calls s) (live s) p) in *. eexists a, _. split; [done|]. simpl. split; [done|].
  destruct (Z.eqb_spec a 0) as [Ha|Ha].
  - split; [by left|]. split; [by split|done].
  - split; [right|split; [done|intros _; split; [done|]]].
    + destruct (Hfr Ha) as [->|Hf]; [split; [set_solver|by left]|].
      split; [set_solver|right]. apply not_elem_of_dom. set_solver.
    + destruct (Hfr Ha) as [->|Hf]; set_solver.
Qed.

(** the state after a successful [realloc] and the marking of the old node *)
Lemma moved_ok us p a s s1 : tracker_ok us s -> p ∈ us -> head s1 = mark_freed p (head s) ->
  live s1 = {[ a ]} ∪ (live s ∖ {[ p ]}) -> a <> 0 -> a ∉ nodes (head s) ->
  tracker_ok ({[ a ]} ∪ us ∖ {[ p ]}) s1.
Proof.
  intros Hok Hp Hh Hl Ha Han. destruct Hok as [Hc Hnd Hn H0 Ht Hu].
  assert (nodes (head s1) = nodes (head s)) as Hns.
  { unfold nodes. by rewrite Hh, mark_freed_self. }
  split; rewrite ?Hns, ?Hl.
  - rewrite Hh. by apply mark_freed_clean.
  - by rewrite Hh, mark_freed_self.
  - set_solver.
  - set_solver.
  - rewrite Hh, mark_freed_tracked, dom_delete by done. set_solver.
  - set_solver.
Qed.

Lemma not_found_mark p l : FindeValue p l = None -> mark_freed p l = l.
Proof.
  induction l as [|n l IH]; simpl; [done|]. destruct (address n =? p); [done|]. intros H. by rewrite IH.
Qed.

Lemma TrackRealloc_ok us p n s : tracker_ok us s -> p ∈ us ->
  exists a s', TrackRealloc p n s = Done (a, s') /\ (a = 0 \/ (a ∉ us ∖ {[ p ]})) /\
    tracker_ok (if a =? 0 then us else {[ a ]} ∪ us ∖ {[ p ]}) s'.
Proof.
  intros Hok Hp. unfold TrackRealloc. destruct (n =? 0).
  { destruct (log_ret us "REALLOC ZERO" p 0 s Hok 0) as (s' & Heq & Hok'). exists 0, s'. eauto. }
  destruct (realloc_ok us p s Hok Hp) as (a & s1 & Heq & Hh & Ha & Hfail & Hgood).
  rewrite (cmd_bind_eq _ _ _ _ _ Heq). destruct (Z.eqb_spec a 0) as [Ha0|Ha0]; simpl.
  { destruct (log_ret us "REALLOC FAILED" p n s1 (Hfail Ha0) a) as (s' & Heq' & Hok').
    exists a, s'. rewrite (proj2 (Z.eqb_eq a 0) Ha0). eauto. }
  destruct Ha as [|[Hau Hat]]; [done|]. destruct (Hgood Ha0) as [Hl Han].
  enough (exists s2, (match FindeValue p (head s1) with
     | Some _ => _ ← modify (set_head (mark_freed p (head s1))); _ ← AddAllocation a n; LogEvent "REALLOC" a n
     | None => LogEvent "REALLOC UNTRACKED" a n end) s1 = s2 /\
     exists r s3, s2 = Done (r, s3) /\ tracker_ok ({[ a ]} ∪ us ∖ {[ p ]}) s3)
    as (s2 & Heq2 & r & s3 & -> & Hok3).
  { exists a, s3. split; [|rewrite (proj2 (Z.eqb_neq a 0) Ha0); eauto].
    by erewrite cmd_bind_eq; [|exact Heq2]. }
  eexists. split; [reflexivity|].
  destruct (FindeValue p (head s1)) as [nd|] eqn:Hfind.
  - set (s2 := set_head (mark_freed p (head s1)) s1).
    assert (tracker_ok ({[ a ]} ∪ us ∖ {[ p ]}) s2) as Hok2.
    { apply (moved_ok us p a s s2 Hok Hp); simpl; by rewrite ?Hh. }
    destruct (AddAllocation_ok (us ∖ {[ p ]}) a n s2 Hok2) as (r & s3 & Heq3 & Hok3 & _).
    { simpl. rewrite Hh, mark_freed_tracked by apply Hok.
      destruct Hat as [->|Hat]; [by rewrite lookup_delete_eq|by rewrite lookup_delete_None; right]. }
    destruct (LogEvent_ok "REALLOC" a n s3) as (r' & s4 & Heq4 & Hsame). exists r', s4.
    split; [|by eapply ok_same].
    change ((_ ← AddAllocation a n; LogEvent "REALLOC" a n) s2 = Done (r', s4)).
    by rewrite (cmd_bind_eq _ _ _ _ _ Heq3).
  - destruct (LogEvent_ok "REALLOC UNTRACKED" a n s1) as (r' & s4 & Heq4 & Hsame). exists r', s4.
    split; [done|]. eapply ok_same; [done|]. rewrite Hh in Hfind.
    apply (moved_ok us p a s s1 Hok Hp); [|done..]. by rewrite Hh, not_found_mark.
Qed.

Lemma free_tracked_ok us p s : tracker_ok us s -> p ∈ dom (tracked (head s)) ->
  forall s1, head s1 = mark_freed p (head s) -> live s1 = live s ->
  exists s', free p s1 = Done (tt, s') /\ tracker_ok (us ∖ {[ p ]}) s' /\
    head s' = head s1 /\ live s' = live s ∖ {[ p ]}.
Proof.
  intros [Hc Hnd Hn H0 Ht Hu] Hp s1 Hh Hl. unfold free. rewrite (bool_decide_true (p ∈ live s1)) by set_solver.
  eexists. split; [done|]. simpl. split; [|by rewrite Hl].
  assert (nodes (head s1) = nodes (head s)) as Hns by (unfold nodes; by rewrite Hh, mark_freed_self).
  split; simpl; rewrite ?Hns, ?Hl.
  - rewrite Hh. by apply mark_freed_clean.
  - by rewrite Hh, mark_freed_self.
  - set_solver.
  - set_solver.
  - rewrite Hh, mark_freed_tracked, dom_delete by done. set_solver.
  - set_solver.
Qed.

Lemma ok_weaken us us' s : us' ⊆ us -> tracker_ok us s -> tracker_ok us' s.
Proof. intros Hs [????? ?]. split; [done..|set_solver]. Qed.

(** freeing: a tracked block is released once, anything else is refused *)
Lemma TrackFree_ok us p s : tracker_ok us s ->
  exists r s', TrackFree p s = Done (r, s') /\ tracker_ok (us ∖ {[ p ]}) s' /\
    match tracked (head s) !! p with
    | Some _ => r = 0 /\ tracked (head s') = delete p (tracked (head s)) /\ live s' = live s ∖ {[ p ]}
    | None => r = 1 /\ head s' = head s /\ live s' = live s
    end.
Proof.
  intros Hok. assert (forall act, exists s', (_ ← LogEvent act p 0; mret 1) s = Done (1, s') /\
    tracker_ok (us ∖ {[ p ]}) s' /\ 1 = 1 /\ head s' = head s /\ live s' = live s) as Href.
  { intros act. destruct (LogEvent_ok act p 0 s) as (r & s' & Heq & Hsame). exists s'.
    rewrite (cmd_bind_eq _ _ _ _ _ Heq). split; [done|]. split; [|by destruct Hsame].
    eapply ok_same; [done|]. by eapply ok_weaken; [|exact Hok]; set_solver. }
  unfold TrackFree. destruct (Z.eqb_spec p 0) as [->|Hp].
  { assert (tracked (head s) !! 0 = None) as ->.
    { apply not_elem_of_dom. destruct Hok. set_solver. }
    destruct (Href "FREE NULL") as (s' & H'). by exists 1, s'. }
  rewrite (tracked_find p _ (ok_clean _ _ Hok)). unfold mbind at 1, cmd_bind at 1. simpl.
  destruct (FindeValue p (head s)) as [nd|] eqn:Hf.
  2: { destruct (Href "FREE UNTRACKED") as (s' & H'). by exists 1, s'. }
  unfold freed. destruct (is_freed nd =? 0) eqn:Hfr; simpl.
  2: { destruct (Href "FREE UNTRACKED") as (s' & H'). by exists 1, s'. }
  set (s1 := set_head (mark_freed p (head s)) s).
  destruct (LogEvent_ok "FREE" p (size nd) s1) as (r & s2 & Heq2 & Hh2 & Hl2).
  destruct (free_tracked_ok us p s Hok) with (s1 := s2) as (s3 & Heq3 & Hok3 & Hh3 & Hl3); [|done..|].
  { apply elem_of_dom. rewrite (tracked_find p _ (ok_clean _ _ Hok)), Hf. unfold freed. by rewrite Hfr. }
  exists 0, s3. split; [|split; [done|split; [done|split; [|done]]]].
  - change ((_ ← LogEvent "FREE" p (size nd); _ ← free p; mret 0) s1 = Done (0, s3)).
    rewrite (cmd_bind_eq _ _ _ _ _ Heq2). by rewrite (cmd_bind_eq _ _ _ _ _ Heq3).
  - rewrite Hh3, Hh2. by apply mark_freed_tracked, Hok.
Qed.

Lemma if_open_ok m s : (forall s, exists s', m s = Done (tt, s') /\ same_mem s s') ->
  exists r s', if_open m s = Done (r, s') /\ same_mem s s'.
Proof.
  intros Hm. unfold if_open, mbind, cmd_bind, get. destruct (logFile s); [|by exists 1, s].
  destruct (Hm s) as (s' & Heq & Hs). rewrite Heq. by exists 0, s'.
Qed.

Lemma print_ok (f : tracker -> list entry) s :
  exists s', modify (fun s => print (f s) s) s = Done (tt, s') /\ same_mem s s'.
Proof. by eexists. Qed.

Lemma views_ok s :
  (exists r s', FreedMemory s = Done (r, s') /\ same_mem s s') /\
  (exists r s', MemoryLeaks s = Done (r, s') /\ same_mem s s') /\
  (exists r s', TableView s = Done (r, s') /\ same_mem s s') /\
  (exists r s', LinkedListView s = Done (r, s') /\ same_mem s s').
Proof. split_and!; apply if_open_ok; intros s1; eapply (print_ok (fun s => _)). Qed.

Lemma free_tracker_nodes l s : NoDup (self <$> l) -> nodes l ⊆ live s ->
  exists s', free_nodes l s = Done (tt, s').
Proof.
  revert s. induction l as [|n l IH]; intros s Hnd Hl; simpl; [by eexists|].
  apply NoDup_cons in Hnd as [Hni Hnd]. unfold nodes in Hl. simpl in Hl.
  unfold mbind, cmd_bind, free. rewrite bool_decide_true by set_solver. apply IH; [done|]. simpl.
  unfold nodes. set_solver.
Qed.

Lemma CleanupTracker_ok us s : tracker_ok us s -> exists r s', CleanupTracker s = Done (r, s').
Proof.
  intros Hok. unfold CleanupTracker, if_open, mbind, cmd_bind, get.
  destruct (logFile s); [|by eexists 1, _].
  destruct (proj1 (views_ok s)) as (r1 & s1 & -> & H1).
  destruct (proj1 (proj2 (views_ok s1))) as (r2 & s2 & -> & H2).
  destruct (proj1 (proj2 (proj2 (views_ok s2)))) as (r3 & s3 & -> & H3).
  destruct (proj2 (proj2 (proj2 (views_ok s3)))) as (r4 & s4 & -> & H4).
  assert (tracker_ok us s4) as Hok4 by (do 4 (eapply ok_same; [done|]); done).
  unfold gets. destruct (free_tracker_nodes (head s4) s4) as (s5 & ->); [apply Hok4..|]. simpl. by eexists 0, _.
Qed.

(** *** The pointer table of [main] *)

Definition users (ptrs : list Z) : gset Z := list_to_set (filter (fun p => p <> 0) ptrs).

Definition distinct (ptrs : list Z) : Prop :=
  forall i j p, ptrs !! i = Some p -> ptrs !! j = Some p -> p <> 0 -> i = j.

Lemma elem_of_users p ptrs : p ∈ users ptrs <-> p <> 0 /\ exists i, ptrs !! i = Some p.
Proof. unfold users. rewrite elem_of_list_to_set, list_elem_of_filter, list_elem_of_lookup. done. Qed.

Lemma users_ne i q x ptrs : distinct ptrs -> ptrs !! i = Some q ->
  forall j, j <> i -> ptrs !! j = Some x -> x <> 0 -> x ∈ users ptrs ∖ {[ q ]}.
Proof.
  intros Hd Hi j Hj Hx Hx0. rewrite elem_of_difference, elem_of_users, elem_of_singleton.
  split; [by eauto|]. intros ->. by apply Hj, (Hd j i q).
Qed.

Lemma set_slot i q a ptrs : distinct ptrs -> ptrs !! i = Some q ->
  a = 0 \/ (a ∉ users ptrs ∖ {[ q ]}) ->
  distinct (<[i := a]> ptrs) /\
  users (<[i := a]> ptrs) ⊆ (if a =? 0 then users ptrs ∖ {[ q ]} else {[ a ]} ∪ users ptrs ∖ {[ q ]}).
Proof.
  intros Hd Hi Ha. pose proof (lookup_lt_Some _ _ _ Hi) as Hlt. split.
  - assert (forall j, j <> i -> ptrs !! j = Some a -> a <> 0 -> False) as Hno.
    { intros j Hj Hja Ha0. destruct Ha as [|Ha]; [done|]. by apply Ha, (users_ne i q a ptrs Hd Hi j). }
    intros j k p. destruct (decide (j = i)) as [->|Hj]; rewrite ?list_lookup_insert_eq by done;
      (destruct (decide (k = i)) as [->|Hk]; rewrite ?list_lookup_insert_eq by done;
       rewrite ?list_lookup_insert_ne by done); [done|..|by apply Hd].
    + intros [= <-] Hpk Hp. by destruct (Hno k).
    + intros Hpj [= <-] Hp. by destruct (Hno j).
  - intros p [Hp [j Hj]]%elem_of_users. destruct (decide (j = i)) as [->|Hne].
    + rewrite list_lookup_insert_eq in Hj by done. injection Hj as ->.
      rewrite (proj2 (Z.eqb_neq p 0) Hp). set_solver.
    + rewrite list_lookup_insert_ne in Hj by done.
      pose proof (users_ne i q p ptrs Hd Hi j Hne Hj Hp). destruct (a =? 0); set_solver.
Qed.

Record main_inv (ptrs : list Z) (index : Z) (s : tracker) : Prop := {
  inv_len : length ptrs = 100%nat;
  inv_index : 0 <= index;
  inv_distinct : distinct ptrs;
  inv_ok : tracker_ok (users ptrs) s;
}.

Lemma push_ptr_inv m ptrs index s : main_inv ptrs index s -> index < 100 ->
  (exists p s', m s = Done (p, s') /\ (p = 0 \/ (p ∉ users ptrs)) /\
     tracker_ok (if p =? 0 then users ptrs else {[ p ]} ∪ users ptrs) s') ->
  exists ptrs' s', (p ← m; push_ptr ptrs index p) s = Done ((ptrs', index + 1), s') /\
    main_inv ptrs' (index + 1) s'.
Proof.
  intros [Hl Hi Hd Hok] Hlt (p & s' & Heq & Hp & Hok'). rewrite (cmd_bind_eq _ _ _ _ _ Heq).
  unfold push_ptr, mbind, cmd_bind, lift. rewrite arr_set_in by (rewrite Hl; lia).
  destruct (lookup_lt_is_Some_2 ptrs (Z.to_nat index)) as [q Hq]; [lia|].
  destruct (set_slot (Z.to_nat index) q p ptrs Hd Hq) as [Hd' Hu]; [set_solver|].
  eexists _, s'. split; [done|]. split; [by rewrite length_insert|lia|done|].
  eapply ok_weaken; [|exact Hok']. destruct (p =? 0); set_solver.
Qed.

Lemma in_ptrs_slot i ptrs index : length ptrs = 100%nat -> in_ptrs i ptrs index = true ->
  exists q, arr_get ptrs i = Done q /\ ptrs !! Z.to_nat i = Some q /\ q ∈ users ptrs /\
    forall a, arr_set ptrs i a = Done (<[Z.to_nat i := a]> ptrs).
Proof.
  unfold in_ptrs. intros Hl [[Hi0 _]%andb_true_iff Hq]%andb_true_iff.
  destruct (ptrs !! Z.to_nat i) as [q|] eqn:Hlk; [|done]. simpl in Hq. exists q.
  pose proof (lookup_lt_Some _ _ _ Hlk). split_and!; [apply arr_get_Done; split; [lia|done]|done| |].
  - apply elem_of_users. split; [|by eauto]. by apply negb_true_iff, Z.eqb_neq in Hq.
  - intros a. apply arr_set_in. lia.
Qed.

Definition alloc_cost (c : menu) : Z := match c with Malloc _ | Calloc _ _ => 1 | _ => 0 end.

Lemma main_step_ok c ptrs index s : main_inv ptrs index s -> index + alloc_cost c <= 100 ->
  exists ptrs' s', main_step c ptrs index s = Done ((ptrs', index + alloc_cost c), s') /\
    main_inv ptrs' (index + alloc_cost c) s'.
Proof.
  intros Hinv Hc. pose proof Hinv as [Hl Hi Hd Hok]. destruct (views_ok s) as (_ & _ & Htv & Hlv).
  assert (forall s', same_mem s s' -> main_inv ptrs (index + 0) s') as Hsame.
  { intros s' Hs. rewrite Z.add_0_r. split; [done..|by eapply ok_same]. }
  destruct c as [n|num n|i n|i| | | |]; simpl in Hc |- *.
  - apply (push_ptr_inv _ _ _ _ Hinv); [lia|by apply TrackMalloc_ok].
  - apply (push_ptr_inv _ _ _ _ Hinv); [lia|by apply TrackCalloc_ok].
  - destruct (in_ptrs i ptrs index) eqn:Hin; [|exists ptrs, s; rewrite Z.add_0_r; by split].
    destruct (in_ptrs_slot i ptrs index Hl Hin) as (q & Hg & Hq & Hqu & Hs).
    destruct (TrackRealloc_ok _ q n s Hok Hqu) as (a & s' & Heq & Ha & Hok').
    destruct (set_slot (Z.to_nat i) q a ptrs Hd Hq Ha) as [Hd' Hu].
    exists (<[Z.to_nat i := a]> ptrs), s'. rewrite Z.add_0_r. split.
    + unfold mbind, cmd_bind, lift. by rewrite Hg, Heq, Hs.
    + split; [by rewrite length_insert|done..|]. eapply ok_weaken; [|exact Hok'].
      destruct (a =? 0); set_solver.
  - destruct (in_ptrs i ptrs index) eqn:Hin; [|exists ptrs, s; rewrite Z.add_0_r; by split].
    destruct (in_ptrs_slot i ptrs index Hl Hin) as (q & Hg & Hq & Hqu & Hs).
    destruct (TrackFree_ok (users ptrs) q s Hok) as (r & s' & Heq & Hok' & _).
    destruct (set_slot (Z.to_nat i) q 0 ptrs Hd Hq) as [Hd' Hu]; [by left|].
    exists (<[Z.to_nat i := 0]> ptrs), s'. rewrite Z.add_0_r. split.
    + unfold mbind, cmd_bind, lift. by rewrite Hg, Heq, Hs.
    + split; [by rewrite length_insert|done..|]. by eapply ok_weaken; [|exact Hok'].
  - destruct Htv as (r & s' & Heq & Hs). rewrite (cmd_bind_eq _ _ _ _ _ Heq). rewrite Z.add_0_r.
    exists ptrs, s'. split; [done|]. specialize (Hsame s' Hs). by rewrite Z.add_0_r in Hsame.
  - destruct Hlv as (r & s' & Heq & Hs). rewrite (cmd_bind_eq _ _ _ _ _ Heq). rewrite Z.add_0_r.
    exists ptrs, s'. split; [done|]. specialize (Hsame s' Hs). by rewrite Z.add_0_r in Hsame.
  - exists ptrs, s. rewrite Z.add_0_r. by split.
  - exists ptrs, s. rewrite Z.add_0_r. by split.
Qed.

Lemma menu_loop_ok input ptrs index s : main_inv ptrs index s ->
  index + Z.of_nat (allocations input) <= 100 -> exists s', main_loop input ptrs index s = Done (tt, s').
Proof.
  revert ptrs index s. induction input as [|c input IH]; intros ptrs index s Hinv Hc; [by eexists|].
  assert (forall (ptrs' : list Z) s', main_inv ptrs' (index + alloc_cost c) s' ->
    exists s2, main_loop input ptrs' (index + alloc_cost c) s' = Done (tt, s2)) as Hrest.
  { intros ptrs' s' Hinv'. apply IH; [done|]. destruct c; simpl in *; lia. }
  destruct (main_step_ok c ptrs index s Hinv) as (ptrs' & s' & Heq & Hinv').
  { destruct c; simpl in *; lia. }
  destruct (Hrest ptrs' s' Hinv') as (s2 & Heq2).
  destruct c; cbn [main_loop]; try (exists s2; rewrite (cmd_bind_eq _ _ _ _ _ Heq); exact Heq2).
  destruct (CleanupTracker_ok _ s (inv_ok _ _ _ Hinv)) as (r & s3 & Heq3).
  exists s3. by rewrite (cmd_bind_eq _ _ _ _ _ Heq3).
Qed.

Lemma total_leaked_step l t : fold_left (fun t n => if freed n then t else u64 (t + size n)) l (u64 t) =
  u64 (t + map_fold (fun _ n t => n + t) 0 (tracked l)) \/ ~ clean l.
Proof.
  revert t. induction l as [|n l IH]; intros t; simpl.
  { left. by rewrite map_fold_empty, Z.add_0_r. }
  destruct (freed n).
  - destruct (IH t) as [H|H]; [by left|]. right. by intros [_ ?].
  - destruct (tracked l !! address n) as [m|] eqn:Hn; [right; intros [Hc _]; congruence|].
    replace (u64 (u64 t + size n)) with (u64 (t + size n)) by (symmetry; apply Zplus_mod_idemp_l).
    destruct (IH (t + size n)) as [H|H]; [left|right; by intros [_ ?]].
    rewrite H, map_fold_insert_L by (done || (intros; lia)). f_equal. lia.
Qed.

End laws.
End tracker.

(** ** A concrete allocator *)

Definition demo_malloc (k : nat) (l : gset Z) : Z :=
  let a := 16 * (Z.of_nat k + 1) in if bool_decide (a ∈ l) then 0 else a.
Definition demo_realloc (k : nat) (l : gset Z) (p : Z) : Z := demo_malloc k l.

Lemma demo_allocator_ok : allocator_ok demo_malloc demo_realloc.
Proof.
  assert (forall k l, demo_malloc k l <> 0 -> demo_malloc k l ∉ l) as H.
  { intros k l. unfold demo_malloc. by case_bool_decide. }
  split; [done|]. intros k l p Hp. right. by apply H.
Qed.

(** ** Properties *)

(** For every C library that keeps its promises, and whatever it answers (NULL
    included, for the user's blocks, for the tracker's own nodes and for the log
    file), no sequence of at most 100 allocations with any number of reallocations,
    frees and reports in between makes [main] release or resize a block that is not
    live, write outside the pointer table, or free a node twice at cleanup. *)
Theorem main_memory_safe fopen_ok malloc_at realloc_at input :
  allocator_ok malloc_at realloc_at -> (allocations input <= 100)%nat ->
  exists s, main fopen_ok malloc_at realloc_at input = Done (tt, s).
Proof.
  intros Ha Hn. apply (menu_loop_ok _ _ _ Ha); [|lia].
  assert (users (replicate 100 0) = ∅) as Hu by (by vm_compute).
  split; [done|done| |].
  - intros i j p [-> _]%lookup_replicate _ Hp. done.
  - rewrite Hu. split; [done|constructor|set_solver..].
Qed.

Definition demo_input : list menu :=
  [Malloc 10; Malloc 20; Realloc 0 30; Free 0; Free 0; Table; Calloc 2 8; Free 7; Cleanup].

Lemma main_memory_safe_witness : exists s, main true demo_malloc demo_realloc demo_input = Done (tt, s).
Proof. apply (main_memory_safe true demo_malloc demo_realloc demo_input demo_allocator_ok). simpl. lia. Defined.

(** [TrackFree] of a pointer releases the block and forgets it when it is a
    tracked live block; for NULL, a pointer that was already freed or an address that
    is not tracked it returns 1 and changes neither the heap nor the list. *)
Theorem TrackFree_correct fopen_ok us p s : tracker_ok us s ->
  exists r s', TrackFree fopen_ok p s = Done (r, s') /\ tracker_ok (us ∖ {[ p ]}) s' /\
    match tracked (head s) !! p with
    | Some _ => r = 0 /\ tracked (head s') = delete p (tracked (head s)) /\ live s' = live s ∖ {[ p ]}
    | None => r = 1 /\ head s' = head s /\ live s' = live s
    end.
Proof. apply (TrackFree_ok fopen_ok demo_malloc demo_realloc demo_allocator_ok). Qed.

Definition one_block : tracker := mkTracker [mkNode 16 32 8 0] true [] {[ 16; 32 ]} 2.

Lemma one_block_ok : tracker_ok {[ 32 ]} one_block.
Proof. by split; simpl; [|apply NoDup_singleton|set_solver..]. Qed.

Lemma TrackFree_correct_witness : exists s', TrackFree true 32 one_block = Done (0, s') /\
  exists s'', TrackFree true 32 s' = Done (1, s'').
Proof.
  destruct (TrackFree_correct true {[ 32 ]} 32 one_block one_block_ok) as (r & s' & Heq & Hok & -> & Ht & _).
  exists s'. split; [done|].
  destruct (TrackFree_correct true _ 32 s' Hok) as (r & s'' & Heq' & _ & H). rewrite Ht in H.
  simpl in H. exists s''. destruct H as [-> _]. done.
Defined.

(** The leak report is exact: with the log open, [MemoryLeaks] ends with the sum
    of the sizes of the tracked live blocks, modulo 2^64. *)
Theorem MemoryLeaks_exact us s : tracker_ok us s -> logFile s = true ->
  exists s' es, MemoryLeaks s = Done (0, s') /\
    log s' = log s ++ es ++ [Total (u64 (map_fold (fun _ n t => n + t) 0 (tracked (head s))))].
Proof.
  intros Hok Ho. unfold MemoryLeaks, if_open, mbind, cmd_bind, get. rewrite Ho. simpl.
  eexists _, (_ :: _). split; [reflexivity|]. simpl. do 4 f_equal. unfold total_leaked.
  destruct (total_leaked_step (head s) 0) as [H|H]; [exact (f_equal Total H)|]. by destruct H; apply Hok.
Qed.

Lemma MemoryLeaks_exact_witness : exists s' es, MemoryLeaks one_block = Done (0, s') /\
  log s' = es ++ [Total 8].
Proof.
  destruct (MemoryLeaks_exact {[ 32 ]} one_block one_block_ok eq_refl) as (s' & es & Heq & Hlog).
  exists s', es. split; [done|]. rewrite Hlog. by vm_compute.
Defined.

(** [TrackRealloc] to size 0 answers NULL without freeing, and [main] puts that NULL
    over its only pointer to the block, which stays live. *)
Lemma realloc_zero_leaks :
  (r ← main true demo_malloc demo_realloc [Malloc 10; Realloc 0 0; Free 0; Cleanup];
   Done (elements (live r.2))) = Done [16].
Proof. by vm_compute. Qed.

(** The 101st allocation is stored behind the pointer table. *)
Lemma main_table_overflow :
  main true demo_malloc demo_realloc (replicate 101 (Malloc 0)) = Undef.
Proof. by vm_compute. Qed.
