(* ===== verification/SlabCache.v ===== *)
(** * Slab caches over a tracked heap

    Memory_Allocation/mainFIle: heap.c keeps a table of what it has allocated, slab.c caches
    pages and locks and gives them back through [HeapFree].  slab.c calls [heap_alloc], which
    nothing defines: it is a parameter, and heap.c's own [HeapAllocate] is one argument for it.
    The C library's allocator is a parameter as in MemoryTracker.v. *)
From S2P Require Import Prelude.

(** ** heap.c *)

Definition MAX_ALLOCATIONS : Z := 1000.

Record Allocation := mkAllocation { ptr : Z; size : Z; tag : string }.

(** [allocations] is the part of the array below [AllocationCount] *)
Record heap := mkHeap { allocations : list Allocation; live : gset Z; calls : nat }.

Section heap.
Context (malloc_at : nat -> gset Z -> Z).

Definition malloc : cmd heap Z := fun s =>
  let a := malloc_at (calls s) (live s) in
  Done (a, mkHeap (allocations s) (if a =? 0 then live s else {[ a ]} ∪ live s) (S (calls s))).

(** [free(NULL)] does nothing *)
Definition free (p : Z) : cmd heap unit := fun s =>
  if p =? 0 then Done (tt, s)
  else if bool_decide (p ∈ live s) then Done (tt, mkHeap (allocations s) (live s ∖ {[ p ]}) (calls s)) else Undef.

(** C's [!p] *)
Definition c_not (p : Z) : Z := if p =? 0 then 1 else 0.

Definition AllocationCount (s : heap) : Z := Z.of_nat (length (allocations s)).

(** the test is [!ptr == NULL] *)
Definition HeapAllocate (n : Z) (t : string) : cmd heap Z :=
  p ← malloc;
  if c_not p =? 0 then mret 0 else
  s ← get;
  (if AllocationCount s <? MAX_ALLOCATIONS
   then modify (fun s => mkHeap (allocations s ++ [mkAllocation p n (strtrunc 31 t)]) (live s) (calls s))
   else mret tt);;
  mret p.

(** the index of the first entry *)
Fixpoint find_entry (p : Z) (l : list Allocation) : option nat :=
  match l with [] => None | a :: l => if ptr a =? p then Some 0%nat else S <$> find_entry p l end.

(** [allocations[i] = allocations[--AllocationCount]] *)
Definition take_last (i : nat) (l : list Allocation) : list Allocation :=
  match last l with Some a => take (length l - 1) (<[i := a]> l) | None => l end.

Definition HeapFree (p : Z) : cmd heap unit :=
  s ← get;
  match find_entry p (allocations s) with
  | None => mret tt
  | Some i => free p;; modify (fun s => mkHeap (take_last i (allocations s)) (live s) (calls s))
  end.
End heap.

(** ** slab.c *)

Definition MAX_OBJECTS : Z := 100.

Record PageHeader := mkPage { page_id : Z; status : ascii }.
Record Lock := mkLock { lock_id : Z; is_acquired : Z }.

(** the objects with their addresses, up to the counts; nothing enters the third cache *)
Record caches := mkCaches { PageCache : list (Z * PageHeader); LockCache : list (Z * Lock); TxCache : list Z; the_heap : heap }.

Section slab.
Context (heap_alloc : Z -> string -> cmd heap Z).

Definition on_heap {A} (m : cmd heap A) : cmd caches A := fun c =>
  match m (the_heap c) with
  | Done (a, h) => Done (a, mkCaches (PageCache c) (LockCache c) (TxCache c) h)
  | Undef => Undef
  | OutOfFuel => OutOfFuel
  end.

Definition initSlabCaches : cmd caches unit := modify (fun c => mkCaches [] [] [] (the_heap c)).

Fixpoint free_all (l : list Z) : cmd caches unit :=
  match l with [] => mret tt | p :: l => on_heap (HeapFree p);; free_all l end.

(** the counts stay as they are *)
Definition cleanupSlabCaches : cmd caches unit :=
  c ← get; free_all (fst <$> PageCache c);; free_all (fst <$> LockCache c);; free_all (TxCache c).

(** what is typed for the object is an argument *)
Definition createDataPage (page : PageHeader) : cmd caches unit :=
  c ← get;
  if Z.of_nat (length (PageCache c)) >=? MAX_OBJECTS then mret tt else
  p ← on_heap (heap_alloc 8 "PageHeader");
  if p =? 0 then mret tt else
  modify (fun c => mkCaches (PageCache c ++ [(p, page)]) (LockCache c) (TxCache c) (the_heap c)).

Definition manageLock (lock : Lock) : cmd caches unit :=
  c ← get;
  if Z.of_nat (length (LockCache c)) >=? MAX_OBJECTS then mret tt else
  p ← on_heap (heap_alloc 8 "Lock");
  if p =? 0 then mret tt else
  modify (fun c => mkCaches (PageCache c) (LockCache c ++ [(p, lock)]) (TxCache c) (the_heap c)).

(** its only statement that does something is the return *)
Definition logTransaction : cmd caches unit := mret tt.

Inductive operation := CreatePage (page : PageHeader) | ManageLock (lock : Lock) | LogTransaction.

Definition perform (o : operation) : cmd caches unit :=
  match o with CreatePage page => createDataPage page | ManageLock lock => manageLock lock | LogTransaction => logTransaction end.

Fixpoint perform_all (ops : list operation) : cmd caches unit :=
  match ops with [] => mret tt | o :: ops => perform o;; perform_all ops end.
End slab.

(** ** Lemmas: the table *)

Definition pointers (s : heap) : list Z := ptr <$> allocations s.

Lemma find_entry_Some p l i : find_entry p l = Some i -> exists a, l !! i = Some a /\ ptr a = p.
Proof.
  revert i. induction l as [|a l IH]; intros i; cbn [find_entry]; [done|]. destruct (Z.eqb_spec (ptr a) p) as [He|].
  - intros [= <-]. by exists a.
  - destruct (find_entry p l) as [j|]; [|done]. intros [= <-]. by apply IH.
Qed.

Lemma find_entry_None p l : find_entry p l = None -> p ∉ (ptr <$> l).
Proof.
  induction l as [|a l IH]; cbn [find_entry fmap list_fmap]; [intros _; apply not_elem_of_nil|].
  destruct (Z.eqb_spec (ptr a) p) as [|Hne]; [done|]. destruct (find_entry p l); [done|]. intros _.
  apply not_elem_of_cons. split; [congruence|by apply IH].
Qed.

(** the entry is replaced by the last, so that the others are left in another order *)
Lemma take_last_perm i l a : l !! i = Some a -> l ≡ₚ a :: take_last i l.
Proof.
  intros Hi. unfold take_last. destruct (last l) as [z|] eqn:Hz; [|apply last_None in Hz; by subst].
  apply last_Some in Hz as (l' & ->). rewrite length_app, Nat.add_sub. apply lookup_app_Some in Hi as [Hi|[Hge Hi]].
  - rewrite insert_app_l by (by eapply lookup_lt_Some). rewrite take_app_length' by (by rewrite length_insert).
    rewrite (insert_take_drop l' i z (lookup_lt_Some _ _ _ Hi)). rewrite <- (take_drop_middle l' i a Hi) at 1.
    rewrite <- app_assoc. cbn [app]. rewrite <- Permutation_middle. apply perm_skip, Permutation_app_head.
    by rewrite Permutation_app_comm.
  - assert (i = length l') as -> by (apply lookup_lt_Some in Hi; simpl in Hi; lia).
    rewrite Nat.sub_diag in Hi. injection Hi as <-. rewrite list_insert_id by (by apply list_lookup_middle).
    rewrite take_app_length. by rewrite Permutation_app_comm.
Qed.

(** what [HeapFree] does to the table and to the heap *)
Lemma HeapFree_spec p s : NoDup (pointers s) -> p <> 0 -> (p ∈ pointers s -> p ∈ live s) ->
  exists s', HeapFree p s = Done (tt, s') /\ calls s' = calls s /\
    (((p ∈ pointers s) /\ live s' = live s ∖ {[ p ]} /\ exists a, ptr a = p /\ allocations s ≡ₚ a :: allocations s') \/
     ((p ∉ pointers s) /\ s' = s)).
Proof.
  intros Hnd Hp Hl. unfold HeapFree, get, modify, mbind, cmd_bind, mret, cmd_ret. destruct (find_entry p (allocations s)) as [i|] eqn:Hf.
  - destruct (find_entry_Some _ _ _ Hf) as (a & Hi & Ha). assert (p ∈ pointers s) as Hin.
    { unfold pointers. rewrite <- Ha. apply list_elem_of_fmap. exists a. split; [done|by eapply list_elem_of_lookup_2]. }
    unfold free. rewrite (proj2 (Z.eqb_neq p 0)), bool_decide_true by auto. eexists. split; [reflexivity|]. split; [done|].
    left. split_and!; [done|done|]. exists a. split; [done|by apply take_last_perm].
  - exists s. split; [done|]. split; [done|]. right. split; [by apply find_entry_None|done].
Qed.

(** ** Lemmas: the caches *)

Definition objects (c : caches) : list Z := (fst <$> PageCache c) ++ (fst <$> LockCache c) ++ TxCache c.

Lemma free_all_app l1 l2 c : free_all (l1 ++ l2) c = (free_all l1;; free_all l2) c.
Proof.
  revert c. induction l1 as [|p l1 IH]; intros c; [done|]. cbn [app free_all]. unfold mbind, cmd_bind in *.
  destruct (on_heap (HeapFree p) c) as [[[] c']| |]; [apply IH|done|done].
Qed.

Definition with_heap (h : heap) (c : caches) : caches := mkCaches (PageCache c) (LockCache c) (TxCache c) h.

Lemma cleanup_free_all c : cleanupSlabCaches c = free_all (objects c) c.
Proof.
  unfold cleanupSlabCaches, objects, get. rewrite free_all_app. unfold mbind, cmd_bind.
  destruct (free_all _ c) as [[[] c']| |]; [|done|done]. by rewrite free_all_app.
Qed.

(** blocks of the table are freed, and leave the table *)
Lemma free_all_tracked l rest c : NoDup (l ++ rest) -> 0 ∉ l -> pointers (the_heap c) ≡ₚ l ++ rest -> (forall p, p ∈ l -> p ∈ live (the_heap c)) ->
  exists h, free_all l c = Done (tt, with_heap h c) /\ pointers h ≡ₚ rest /\ live h = live (the_heap c) ∖ list_to_set l.
Proof.
  revert c. induction l as [|p l IH]; intros c Hnd H0 Hp Hl; cbn [free_all].
  { exists (the_heap c). split; [by destruct c|]. split; [done|]. set_solver. }
  apply not_elem_of_cons in H0 as [Hp0 H0]. pose proof Hnd as [Hpn Hnd']%NoDup_cons.
  destruct (HeapFree_spec p (the_heap c)) as (h & H1 & _ & Hh).
  { by rewrite Hp. } { done. } { intros _. apply Hl. by left. }
  erewrite cmd_bind_eq by (unfold on_heap; rewrite H1; reflexivity). destruct Hh as [(_ & Hlive & a & Ha & Hperm)|[Hno _]].
  2:{ exfalso. apply Hno. rewrite Hp. by left. }
  assert (pointers h ≡ₚ l ++ rest) as Hp'.
  { apply (Permutation_cons_inv (a := p)). rewrite <- Hp at 1. unfold pointers. by rewrite Hperm, <- Ha. }
  destruct (IH (with_heap h c) Hnd' H0 Hp') as (h' & H2 & Hp2 & Hl2).
  { intros q Hq. cbn. rewrite Hlive. apply elem_of_difference. split; [apply Hl; by right|]. apply not_elem_of_singleton.
    intros ->. apply Hpn, elem_of_app. by left. }
  exists h'. split; [exact H2|]. split; [done|]. rewrite Hl2. cbn. rewrite Hlive. set_solver.
Qed.

(** pointers that are not in the table are left alone *)
Lemma free_all_untracked l c : pointers (the_heap c) = [] -> free_all l c = Done (tt, c).
Proof.
  intros Hp. induction l as [|p l IH]; cbn [free_all]; [done|].
  erewrite cmd_bind_eq; [exact IH|]. unfold on_heap, HeapFree, get, mbind, cmd_bind. unfold pointers in Hp. apply fmap_nil_inv in Hp.
  rewrite Hp. cbn. unfold mret, cmd_ret. by destruct c as [? ? ? []].
Qed.

(** what an allocator that keeps the table does, while there is room *)
Definition keeps_table (heap_alloc : Z -> string -> cmd heap Z) : Prop :=
  forall n t s, AllocationCount s < MAX_ALLOCATIONS -> exists p s', heap_alloc n t s = Done (p, s') /\
    ((p = 0 /\ allocations s' = allocations s /\ live s' = live s) \/
     (p <> 0 /\ (p ∉ live s) /\ live s' = {[ p ]} ∪ live s /\ allocations s' = allocations s ++ [mkAllocation p n (strtrunc 31 t)])).

Section meant.
Context (live0 : gset Z).

(** the objects are what is in the table, live and apart from what others hold *)
Definition consistent (c : caches) : Prop :=
  pointers (the_heap c) ≡ₚ objects c /\ NoDup (objects c) /\ (0 ∉ objects c) /\ live (the_heap c) = live0 ∪ list_to_set (objects c) /\
  (forall p, p ∈ objects c -> p ∉ live0) /\ TxCache c = [] /\ (length (PageCache c) <= 100)%nat /\ (length (LockCache c) <= 100)%nat.

Lemma room c : consistent c -> AllocationCount (the_heap c) < MAX_ALLOCATIONS.
Proof using Type.
  intros (Hp & _ & _ & _ & _ & Ht & H1 & H2). unfold AllocationCount, MAX_ALLOCATIONS. apply Permutation_length in Hp.
  unfold pointers, objects in Hp. rewrite Ht, !length_app, !length_fmap in Hp. simpl in Hp. lia.
Qed.

(** a new object, wherever it is put *)
Lemma consistent_add c c' p n t h : consistent c -> p <> 0 -> p ∉ live (the_heap c) -> live h = {[ p ]} ∪ live (the_heap c) ->
  allocations h = allocations (the_heap c) ++ [mkAllocation p n t] -> objects c' ≡ₚ p :: objects c -> the_heap c' = h -> TxCache c' = [] ->
  (length (PageCache c') <= 100)%nat -> (length (LockCache c') <= 100)%nat -> consistent c'.
Proof using Type.
  intros (Hp & Hnd & H0 & Hl & Hd & _) Hp0 Hpn Hlh Hah Ho Hh Ht H1 H2. unfold consistent. rewrite Ho, Hh, Hlh, Hl.
  rewrite Hl in Hpn. apply not_elem_of_union in Hpn as [Hpl Hpo]. rewrite elem_of_list_to_set in Hpo. split_and!; try done.
  - unfold pointers. rewrite Hah, fmap_app. cbn [fmap list_fmap ptr]. rewrite Permutation_app_comm. cbn [app]. by apply perm_skip.
  - by apply NoDup_cons.
  - by apply not_elem_of_cons.
  - set_solver.
  - intros q Hq. rewrite Ho in Hq. apply elem_of_cons in Hq as [->|Hq]; [done|by apply Hd].
Qed.

Context (heap_alloc : Z -> string -> cmd heap Z) (Halloc : keeps_table heap_alloc).

Lemma consistent_perform o c : consistent c -> exists c', perform heap_alloc o c = Done (tt, c') /\ consistent c'.
Proof using Halloc.
  intros Hc. pose proof Hc as (_ & _ & _ & _ & _ & Ht & H1 & H2).
  destruct o as [page|lock|]; cbn [perform]; [| |by exists c]; unfold createDataPage, manageLock, get, mbind, cmd_bind, MAX_OBJECTS.
  - rewrite Z.geb_leb. destruct (Z.leb_spec 100 (Z.of_nat (length (PageCache c)))); [by exists c|].
    destruct (Halloc 8 "PageHeader" (the_heap c) (room c Hc)) as (p & h & Hr & Hcase). unfold on_heap. rewrite Hr.
    destruct Hcase as [(-> & Ha & Hl)|(Hp & Hpn & Hl & Ha)].
    + eexists. split; [reflexivity|]. unfold consistent, objects, pointers in *. cbn. by rewrite Ha, Hl.
    + rewrite (proj2 (Z.eqb_neq p 0)) by done. eexists. split; [reflexivity|]. eapply (consistent_add c); try done.
      * unfold objects. cbn. rewrite fmap_app, <- app_assoc. cbn. by rewrite <- Permutation_middle.
      * cbn. rewrite length_app. simpl. lia.
  - rewrite Z.geb_leb. destruct (Z.leb_spec 100 (Z.of_nat (length (LockCache c)))); [by exists c|].
    destruct (Halloc 8 "Lock" (the_heap c) (room c Hc)) as (p & h & Hr & Hcase). unfold on_heap. rewrite Hr.
    destruct Hcase as [(-> & Ha & Hl)|(Hp & Hpn & Hl & Ha)].
    + eexists. split; [reflexivity|]. unfold consistent, objects, pointers in *. cbn. by rewrite Ha, Hl.
    + rewrite (proj2 (Z.eqb_neq p 0)) by done. eexists. split; [reflexivity|]. eapply (consistent_add c); try done.
      * unfold objects. cbn. rewrite fmap_app, <- !app_assoc. cbn. rewrite !app_assoc. by rewrite <- Permutation_middle.
      * cbn. rewrite length_app. simpl. lia.
Qed.

Lemma consistent_perform_all ops c : consistent c -> exists c', perform_all heap_alloc ops c = Done (tt, c') /\ consistent c'.
Proof using Halloc.
  revert c. induction ops as [|o ops IH]; intros c Hc; cbn [perform_all]; [by exists c|].
  destruct (consistent_perform o c Hc) as (c1 & H1 & Hc1). rewrite (cmd_bind_eq _ _ _ _ _ H1). by apply IH.
Qed.
End meant.

Definition empty (h : heap) : caches := mkCaches [] [] [] h.

Lemma consistent_empty h : allocations h = [] -> consistent (live h) (empty h).
Proof.
  intros Ha. unfold consistent, objects, pointers, empty. cbn. rewrite Ha. cbn.
  split_and!; first [done|lia|constructor|set_solver].
Qed.

(** how many operations ask for memory *)
Definition asks (o : operation) : bool := match o with LogTransaction => false | _ => true end.
Definition requests (ops : list operation) : nat := length (filter (fun o => asks o = true) ops).

(** [HeapAllocate] when [malloc] succeeds *)
Lemma HeapAllocate_ok malloc_at n t s : malloc_at (calls s) (live s) <> 0 ->
  HeapAllocate malloc_at n t s = Done (0, mkHeap (allocations s) ({[ malloc_at (calls s) (live s) ]} ∪ live s) (S (calls s))).
Proof.
  intros Hp. unfold HeapAllocate, malloc, mbind, cmd_bind, c_not. cbv zeta. by rewrite (proj2 (Z.eqb_neq _ 0) Hp).
Qed.

(** ** Properties *)

(** Behind an allocator that keeps the table of heap.c, the caches do what they are meant to: whatever
    pages and locks are made, and whichever allocations fail, [cleanupSlabCaches] frees each block once, so
    that the heap is as it was and the table empty; doing it again frees nothing a second time. *)
Theorem caches_give_back heap_alloc ops h : keeps_table heap_alloc -> allocations h = [] ->
  exists c, (perform_all heap_alloc ops;; cleanupSlabCaches;; cleanupSlabCaches) (empty h) = Done (tt, c) /\
    live (the_heap c) = live h /\ allocations (the_heap c) = [].
Proof.
  intros Halloc Ha. destruct (consistent_perform_all (live h) heap_alloc Halloc ops (empty h) (consistent_empty h Ha)) as (c & H1 & Hc).
  destruct Hc as (Hp & Hnd & H0 & Hl & Hd & _). rewrite (cmd_bind_eq _ _ _ _ _ H1).
  destruct (free_all_tracked (objects c) [] c) as (h' & H2 & Hp' & Hl'); [by rewrite app_nil_r|done|by rewrite app_nil_r| |].
  { intros p Hin. rewrite Hl. set_solver. }
  rewrite <- cleanup_free_all in H2. rewrite (cmd_bind_eq _ _ _ _ _ H2). apply Permutation_nil_r in Hp'.
  exists (with_heap h' c). rewrite cleanup_free_all, free_all_untracked by done. split_and!; [done| |by apply fmap_nil_inv in Hp'].
  cbn. rewrite Hl', Hl. set_solver.
Qed.

(** With heap.c's own [HeapAllocate], whose test takes every block for a failure, nothing is ever cached or
    entered in the table: each operation that asks for memory, when [malloc] gives a new block, loses it. *)
Theorem every_block_is_lost malloc_at ops h : (forall k l, malloc_at k l <> 0 /\ (malloc_at k l ∉ l)) ->
  exists h', perform_all (HeapAllocate malloc_at) ops (empty h) = Done (tt, empty h') /\ allocations h' = allocations h /\
    base.size (live h') = (base.size (live h) + requests ops)%nat /\ live h ⊆ live h'.
Proof.
  intros Hm. revert h. induction ops as [|o ops IH]; intros h; cbn [perform_all]; [by exists h; rewrite Nat.add_0_r|].
  assert (o = LogTransaction \/ asks o = true /\ perform (HeapAllocate malloc_at) o (empty h) =
    Done (tt, empty (mkHeap (allocations h) ({[ malloc_at (calls h) (live h) ]} ∪ live h) (S (calls h))))) as [->|[Hne Ho]].
  { destruct (Hm (calls h) (live h)) as [Hp _]. destruct o; [right|right|by left]; (split; [done|]); cbn [perform];
      unfold createDataPage, manageLock; erewrite cmd_bind_eq by reflexivity; change (Z.of_nat (length _) >=? MAX_OBJECTS) with false; cbv beta iota;
      erewrite cmd_bind_eq by (unfold on_heap; cbn [the_heap empty]; rewrite HeapAllocate_ok by done; reflexivity); reflexivity. }
  - destruct (IH h) as (h' & H1 & Hh). exists h'. split; [exact H1|]. unfold requests. by rewrite filter_cons_False by done.
  - rewrite (cmd_bind_eq _ _ _ _ _ Ho). destruct (IH (mkHeap (allocations h) ({[ malloc_at (calls h) (live h) ]} ∪ live h) (S (calls h))))
      as (h' & H1 & Ha & Hs & Hsub). exists h'. split; [exact H1|]. split; [done|]. cbn [live] in *.
    rewrite size_union, size_singleton in Hs by (destruct (Hm (calls h) (live h)); set_solver).
    split; [|set_solver]. rewrite Hs. unfold requests. rewrite filter_cons_True by done. simpl. lia.
Qed.

(** ** Witnesses *)

(** an allocator that keeps the table: the next address above all live blocks *)
Definition above (l : gset Z) : Z := set_fold Z.max 0 l + 1.

Lemma above_fresh (l : gset Z) : 0 < above l /\ (above l ∉ l).
Proof.
  assert (0 <= set_fold Z.max 0 l /\ forall p, p ∈ l -> p <= set_fold Z.max 0 l) as [H1 H2].
  { apply (set_fold_ind_L (fun m X => 0 <= m /\ forall p, p ∈ X -> p <= m)); [split; [done|set_solver]|].
    intros x X m _ [Hm HX]. split; [lia|]. intros p [->%elem_of_singleton|Hp]%elem_of_union; [lia|]. specialize (HX p Hp). lia. }
  unfold above. split; [lia|]. intros Hin. specialize (H2 _ Hin). lia.
Qed.

Definition table_alloc (n : Z) (t : string) : cmd heap Z := fun s =>
  let p := above (live s) in Done (p, mkHeap (allocations s ++ [mkAllocation p n (strtrunc 31 t)]) ({[ p ]} ∪ live s) (S (calls s))).

Lemma table_alloc_keeps : keeps_table table_alloc.
Proof.
  intros n t s _. eexists _, _. split; [reflexivity|]. right. destruct (above_fresh (live s)). split_and!; [lia|done|done|done].
Qed.

Definition two_objects : list operation := [CreatePage (mkPage 1 "A"%char); LogTransaction; ManageLock (mkLock 2 1)].

Lemma caches_give_back_witness : exists c,
  (perform_all table_alloc two_objects;; cleanupSlabCaches;; cleanupSlabCaches) (empty (mkHeap [] ∅ 0)) = Done (tt, c) /\
  live (the_heap c) = ∅ /\ allocations (the_heap c) = [].
Proof. apply (caches_give_back table_alloc two_objects (mkHeap [] ∅ 0)); [exact table_alloc_keeps|done]. Defined.

Lemma every_block_is_lost_witness : exists h', perform_all (HeapAllocate (fun _ l => above l)) two_objects (empty (mkHeap [] ∅ 0)) = Done (tt, empty h') /\
  base.size (live h') = 2%nat.
Proof.
  destruct (every_block_is_lost (fun _ l => above l) two_objects (mkHeap [] ∅ 0)) as (h' & H1 & _ & H2 & _).
  - intros _ l. destruct (above_fresh l). split; [lia|done].
  - exists h'. by split.
Defined.
