(* ===== verification/PageReplacement.v ===== *)
(** * The page replacement simulations of week 8

    "week 8/Page cache/pageCahe.c" (LRU, clock and ARC) and
    "week 8/pageReplacementPolicy/clock.c".  The request sequence is an argument, so
    the theorems are about every sequence and not only the one in [pages].  What a
    request prints is its [event]; the linked lists of ARC are never shared, so each
    is the list of its pages. *)
From S2P Require Import Prelude.

Definition MAX_FRAMES : nat := 3.
Definition pages : list Z := [1; 2; 3; 1; 2; 3; 1; 4; 2; 5; 1; 2].

Inductive event := Hit | Insert | Evict (page : Z).

(** the index of the first slot that holds [page]; [None] is -1 *)
Fixpoint findPage (buffer : list Z) (page : Z) : option nat :=
  match buffer with
  | [] => None
  | b :: buffer' => if b =? page then Some O else S <$> findPage buffer' page
  end.

(** ** LRU *)
Module LRU.

Record sim := mkSim {
  buffer : list Z; time : list Z; counter : Z; hits : Z; misses : Z; out : list event
}.

Definition init : sim :=
  mkSim (replicate MAX_FRAMES (-1)) (replicate MAX_FRAMES (-1)) 0 0 0 [].

(** lines 76-79: the slot with the smallest time *)
Definition find_lru (time : list Z) : nat :=
  fold_left (fun lru j => if default 0 (time !! j) <? default 0 (time !! lru) then j else lru)
    (seq 1 (length time - 1)) O.

Definition step (s : sim) (page : Z) : sim :=
  let c := counter s + 1 in
  match findPage (buffer s) page with
  | Some pos => mkSim (buffer s) (<[pos := c]> (time s)) c (hits s + 1) (misses s) (out s ++ [Hit])
  | None =>
      match findPage (buffer s) (-1) with
      | None =>
          let lru := find_lru (time s) in
          mkSim (<[lru := page]> (buffer s)) (<[lru := c]> (time s)) c (hits s) (misses s + 1)
                (out s ++ [Evict (default 0 (buffer s !! lru))])
      | Some empty =>
          mkSim (<[empty := page]> (buffer s)) (<[empty := c]> (time s)) c (hits s) (misses s + 1)
                (out s ++ [Insert])
      end
  end.

Definition simulateLRU (pages : list Z) : sim := fold_left step pages init.

(** *** Specification: the resident pages from the most to the least recent *)

Definition spec_step (st : list Z * list event) (page : Z) : list Z * list event :=
  let '(l, evs) := st in
  if decide (page ∈ l) then (page :: filter (fun x => x <> page) l, evs ++ [Hit])
  else if decide (length l < MAX_FRAMES)%nat then (page :: l, evs ++ [Insert])
  else (page :: removelast l, evs ++ [Evict (List.last l 0)]).

Definition spec (pages : list Z) : list Z * list event := fold_left spec_step pages ([], []).

(** the occupied slots with their times, most recent first *)
Record refines (s : sim) (st : list Z * list event) : Prop := {
  ref_len : length (buffer s) = MAX_FRAMES;
  ref_time : length (time s) = MAX_FRAMES;
  ref_out : out s = st.2;
  ref_count : hits s + misses s = Z.of_nat (length (out s));
  ref_slots : exists tl, tl.*1 = st.1 /\ StronglySorted (fun x y => x.2 > y.2) tl /\
    Forall (fun x => x.2 <= counter s) tl /\ NoDup st.1 /\
    filter (fun x => x.1 <> -1) (zip (buffer s) (time s)) ≡ₚ tl;
}.

(** *** Lemmas *)

Lemma findPage_Some b page i : findPage b page = Some i <->
  exists b1 b2, b = b1 ++ page :: b2 /\ length b1 = i /\ page ∉ b1.
Proof.
  revert i. induction b as [|x b IH]; intros i; simpl.
  - split; [done|]. intros ([|] & ? & ? & _); done.
  - destruct (Z.eqb_spec x page) as [->|Hne].
    + split; [intros [= <-]; exists [], b; by split_and!; [..|set_solver]|].
      intros ([|y b1] & b2 & Heq & <- & Hni); [done|].
      injection Heq as -> ->. by destruct Hni; left.
    + split.
      * intros (j & Hj & ->)%fmap_Some. apply IH in Hj as (b1 & b2 & -> & <- & Hni).
        exists (x :: b1), b2. split_and!; [done..|]. by rewrite not_elem_of_cons.
      * intros ([|y b1] & b2 & Heq & <- & Hni); [by injection Heq|]. injection Heq as -> ->.
        apply not_elem_of_cons in Hni as [_ Hni]. apply fmap_Some. exists (length b1).
        split; [|done]. apply IH. by exists b1, b2.
Qed.

Lemma findPage_None b page : findPage b page = None <-> page ∉ b.
Proof.
  induction b as [|x b IH]; simpl; [set_solver|]. rewrite not_elem_of_cons.
  destruct (Z.eqb_spec x page) as [->|Hne]; [naive_solver|]. rewrite fmap_None, IH. naive_solver.
Qed.

Lemma split_at {A} (l : list A) i : (i < length l)%nat ->
  exists l1 x l2, l = l1 ++ x :: l2 /\ length l1 = i.
Proof.
  intros Hi. destruct (lookup_lt_is_Some_2 l i Hi) as [x Hx].
  exists (take i l), x, (drop (S i) l). split; [by rewrite take_drop_middle|].
  rewrite length_take. lia.
Qed.

(** replacing one slot of both arrays *)
Lemma zip_slot (b t : list Z) (i : nat) (p c : Z) : length b = length t -> (i < length b)%nat ->
  exists z1 q d z2, zip b t = z1 ++ (q, d) :: z2 /\ length z1 = i /\ b !! i = Some q /\ t !! i = Some d /\
    zip (<[i := p]> b) (<[i := c]> t) = z1 ++ (p, c) :: z2.
Proof.
  intros Hl Hi. destruct (split_at b i Hi) as (b1 & q & b2 & -> & <-).
  destruct (split_at t (length b1)) as (t1 & d & t2 & -> & Ht); [lia|].
  exists (zip b1 t1), q, d, (zip b2 t2). rewrite list_insert_mid.
  assert (<[length b1 := c]> (t1 ++ d :: t2) = t1 ++ c :: t2) as -> by (rewrite <- Ht; apply list_insert_mid).
  rewrite !zip_with_app by done. split_and!; [done|rewrite length_zip_with; lia| | |done].
  - by apply list_lookup_middle.
  - by apply list_lookup_middle.
Qed.

Lemma find_lru_min t : t <> [] ->
  (find_lru t < length t)%nat /\ forall j x y, t !! j = Some x -> t !! find_lru t = Some y -> y <= x.
Proof.
  intros Hne. unfold find_lru.
  enough (forall n, (S n <= length t)%nat ->
    let k := fold_left (fun lru j => if default 0 (t !! j) <? default 0 (t !! lru) then j else lru) (seq 1 n) O in
    (k <= n)%nat /\ forall j, (j <= n)%nat -> default 0 (t !! k) <= default 0 (t !! j)) as H.
  { assert (0 < length t)%nat by (destruct t; simpl; [done|lia]).
    destruct (H (length t - 1)%nat) as [Hk Hmin]; [lia|]. split; [lia|]. intros j x y Hj Hy.
    pose proof (lookup_lt_Some _ _ _ Hj). specialize (Hmin j ltac:(lia)). by rewrite Hj, Hy in Hmin. }
  induction n as [|n IH]; intros Hn.
  - simpl. split; [done|]. intros j Hj. assert (j = 0)%nat as -> by lia. lia.
  - rewrite seq_S, fold_left_app. simpl. destruct IH as [Hk Hmin]; [lia|].
    destruct (Z.ltb_spec (default 0 (t !! S n))
      (default 0 (t !! fold_left (fun lru j => if default 0 (t !! j) <? default 0 (t !! lru) then j else lru) (seq 1 n) O))).
    + split; [lia|]. intros j Hj. destruct (decide (j = S n)) as [->|]; [lia|].
      specialize (Hmin j ltac:(lia)). lia.
    + split; [lia|]. intros j Hj. destruct (decide (j = S n)) as [->|]; [lia|]. apply Hmin. lia.
Qed.


Definition occupied (z : list (Z * Z)) : list (Z * Z) := filter (fun x => x.1 <> -1) z.

Lemma occupied_app z1 z2 : occupied (z1 ++ z2) = occupied z1 ++ occupied z2.
Proof. apply filter_app. Qed.

Lemma occupied_cons q d z : q <> -1 -> occupied ((q, d) :: z) = (q, d) :: occupied z.
Proof. intros H. unfold occupied. by rewrite filter_cons_True. Qed.

Lemma occupied_free d z : occupied ((-1, d) :: z) = occupied z.
Proof. unfold occupied. rewrite filter_cons_False; [done|]. simpl. tauto. Qed.

Lemma elem_of_occupied p s : length (buffer s) = length (time s) -> p <> -1 ->
  p ∈ (occupied (zip (buffer s) (time s))).*1 <-> p ∈ buffer s.
Proof.
  intros Hl Hp. generalize dependent (time s). intros t. revert t.
  induction (buffer s) as [|q b IH]; intros [|d t]; simpl; try done. intros [= Hl].
  destruct (decide (q = -1)) as [->|Hq].
  - rewrite occupied_free, (IH t Hl), elem_of_cons. naive_solver.
  - rewrite occupied_cons by done. simpl. rewrite !elem_of_cons, (IH t Hl). done.
Qed.

Lemma slots_full s : length (buffer s) = length (time s) -> (-1 ∉ buffer s) ->
  occupied (zip (buffer s) (time s)) = zip (buffer s) (time s).
Proof.
  generalize (time s). induction (buffer s) as [|q b IH]; intros [|d t]; simpl; try done.
  intros [= Hl] [Hq Hb]%not_elem_of_cons. rewrite occupied_cons by done. by rewrite IH.
Qed.

(** a slot that was just used comes first *)
Lemma sorted_push (p c : Z) (tl : list (Z * Z)) :
  StronglySorted (fun x y => x.2 > y.2) tl -> Forall (fun x => x.2 <= c) tl ->
  StronglySorted (fun x y => x.2 > y.2) ((p, c + 1) :: tl) /\
  Forall (fun x => x.2 <= c + 1) ((p, c + 1) :: tl).
Proof.
  intros Hs Hf. split.
  - constructor; [done|]. eapply Forall_impl; [exact Hf|]. simpl. lia.
  - constructor; [simpl; lia|]. eapply Forall_impl; [exact Hf|]. simpl. lia.
Qed.

Lemma sorted_mid {A} (R : A -> A -> Prop) l1 x l2 :
  StronglySorted R (l1 ++ x :: l2) -> StronglySorted R (l1 ++ l2).
Proof.
  induction l1 as [|y l1 IH]; simpl; inversion_clear 1 as [|?? Hs Hf]; [done|].
  constructor; [by apply IH|]. rewrite Forall_app, Forall_cons in *. tauto.
Qed.

Lemma refines_init : refines init ([], []).
Proof. split; [done..|]. exists []. split_and!; constructor. Qed.

(** the common part of the three cases: slot [i] gets [p] at time [c], the pages in
    front of and behind the one that was there are kept *)
Lemma slot_used s st p i tl1 tl2 ev h m l' :
  refines s st -> (i < MAX_FRAMES)%nat -> p <> -1 ->
  StronglySorted (fun x y => x.2 > y.2) (tl1 ++ tl2) ->
  Forall (fun x => x.2 <= counter s) (tl1 ++ tl2) ->
  (forall z1 q d z2, zip (buffer s) (time s) = z1 ++ (q, d) :: z2 -> length z1 = i ->
     occupied (z1 ++ z2) ≡ₚ tl1 ++ tl2) ->
  h + m = hits s + misses s + 1 -> l' = p :: (tl1 ++ tl2).*1 -> NoDup l' ->
  refines (mkSim (<[i := p]> (buffer s)) (<[i := counter s + 1]> (time s)) (counter s + 1) h m (out s ++ [ev]))
    (l', st.2 ++ [ev]).
Proof.
  intros [Hb Ht Ho Hc _] Hi Hp Hs Hf Hz Hhm -> Hnd.
  destruct (sorted_push p (counter s) _ Hs Hf) as [Hs' Hf'].
  split; simpl; rewrite ?length_insert; [done|done|by rewrite Ho| |].
  { rewrite length_app. simpl. lia. }
  exists ((p, counter s + 1) :: tl1 ++ tl2). split_and!; [done..|].
  destruct (zip_slot (buffer s) (time s) i p (counter s + 1)) as (z1 & q & d & z2 & Hzip & Hl & _ & _ & ->); [lia|lia|].
  fold (occupied (z1 ++ (p, counter s + 1) :: z2)). rewrite occupied_app, occupied_cons by done.
  by rewrite <- Permutation_middle, <- occupied_app, (Hz z1 q d z2 Hzip).
Qed.

Lemma elem_of_refined s st p : refines s st -> p <> -1 -> p ∈ st.1 <-> p ∈ buffer s.
Proof.
  intros [Hb Ht _ _ (tl & <- & _ & _ & _ & Hp)] Hne.
  rewrite <- (elem_of_occupied p s), <- (Permutation_map fst Hp : _.*1 ≡ₚ _.*1); [done|lia|done].
Qed.

(** the slot at index [i] among the occupied ones *)
Lemma remove_slot z1 q d z2 tl : q <> -1 -> occupied (z1 ++ (q, d) :: z2) ≡ₚ tl ->
  exists tl1 tl2, tl = tl1 ++ (q, d) :: tl2 /\ occupied (z1 ++ z2) ≡ₚ tl1 ++ tl2.
Proof.
  intros Hq Hp. rewrite !occupied_app, occupied_cons in Hp by done.
  assert ((q, d) ∈ tl) as (tl1 & tl2 & ->)%list_elem_of_split by (rewrite <- Hp; set_solver).
  exists tl1, tl2. split; [done|]. rewrite <- !Permutation_middle in Hp.
  apply Permutation_cons_inv in Hp. by rewrite occupied_app.
Qed.

Lemma step_hit s st p pos : refines s st -> p <> -1 -> findPage (buffer s) p = Some pos ->
  refines (step s p) (spec_step st p).
Proof.
  intros Href Hp Hf. pose proof (proj1 (findPage_Some _ _ _) Hf) as (b1 & b2 & Hb & Hpos & _).
  assert (pos < MAX_FRAMES)%nat as Hlt.
  { rewrite <- (ref_len _ _ Href), Hb, length_app. simpl. lia. }
  assert (p ∈ st.1) as Hin.
  { apply (elem_of_refined _ _ _ Href Hp). rewrite Hb. set_solver. }
  pose proof Href as [_ Ht _ _ (tl & Htl & Hs & Hle & Hnd & Hperm)].
  unfold step. rewrite Hf. destruct st as [l evs]. unfold spec_step. simpl in *.
  rewrite decide_True by done.
  destruct (zip_slot (buffer s) (time s) pos p 0) as (z1 & q & d & z2 & Hzip & Hz1 & Hq & _ & _);
    [rewrite (ref_len _ _ Href); lia..|].
  assert (q = p) as ->.
  { rewrite Hb, <- Hpos, list_lookup_middle in Hq by done. congruence. }
  pose proof Hperm as Hperm'. fold (occupied (zip (buffer s) (time s))) in Hperm'. rewrite Hzip in Hperm'.
  destruct (remove_slot z1 p d z2 tl Hp Hperm') as (tl1 & tl2 & -> & Hrest).
  assert (filter (fun x => x <> p) l = (tl1 ++ tl2).*1) as Hfl.
  { rewrite <- Htl in Hnd |- *. rewrite !fmap_app, fmap_cons in *. by apply filter_ne_mid. }
  assert (<[pos := p]> (buffer s) = buffer s) as Hins.
  { apply list_insert_id. rewrite Hb, <- Hpos. by apply list_lookup_middle. }
  rewrite <- Hins. apply (slot_used s (l, evs) p pos tl1 tl2); [done..| | | |lia|by f_equal|].
  - by eapply sorted_mid.
  - rewrite Forall_app, Forall_cons in *. tauto.
  - intros y1 q' d' y2 Hy Hly. rewrite Hzip in Hy.
    apply app_inj_1 in Hy as [<- [= <- <- <-]]; [done|congruence].
  - rewrite NoDup_cons. split; [intros [Hx _]%list_elem_of_filter; done|by apply NoDup_filter].
Qed.

Lemma step_insert s st p i : refines s st -> p <> -1 -> findPage (buffer s) p = None ->
  findPage (buffer s) (-1) = Some i -> refines (step s p) (spec_step st p).
Proof.
  intros Href Hp Hf Hi. pose proof (proj1 (findPage_Some _ _ _) Hi) as (b1 & b2 & Hb & Hpos & _).
  assert (i < MAX_FRAMES)%nat as Hlt.
  { rewrite <- (ref_len _ _ Href), Hb, length_app. simpl. lia. }
  assert (p ∉ st.1) as Hin.
  { rewrite (elem_of_refined _ _ _ Href Hp). by apply findPage_None. }
  pose proof Href as [_ Ht _ _ (tl & Htl & Hs & Hle & Hnd & Hperm)].
  unfold step. rewrite Hf, Hi. destruct st as [l evs]. unfold spec_step. simpl in *.
  rewrite decide_False by done.
  destruct (zip_slot (buffer s) (time s) i p 0) as (z1 & q & d & z2 & Hzip & Hz1 & Hq & _ & _);
    [rewrite (ref_len _ _ Href); lia..|].
  assert (q = -1) as ->.
  { rewrite Hb, <- Hpos, list_lookup_middle in Hq by done. congruence. }
  fold (occupied (zip (buffer s) (time s))) in Hperm. rewrite Hzip, occupied_app, occupied_free in Hperm.
  assert (length l < MAX_FRAMES)%nat as Hll.
  { rewrite <- Htl, length_fmap, <- Hperm, length_app. unfold occupied.
    pose proof (length_filter (fun x => x.1 <> -1) z1). pose proof (length_filter (fun x => x.1 <> -1) z2).
    apply (f_equal length) in Hzip. rewrite length_zip_with, length_app in Hzip. simpl in Hzip.
    rewrite (ref_len _ _ Href), Ht in Hzip. lia. }
  rewrite decide_True by done.
  apply (slot_used s (l, evs) p i [] tl); [done..| |lia|by rewrite <- Htl|by constructor].
  intros y1 q' d' y2 Hy Hly. rewrite Hzip in Hy.
  apply app_inj_1 in Hy as [<- [= <- <- <-]]; [by rewrite occupied_app|congruence].
Qed.

Lemma sorted_last {A} (R : A -> A -> Prop) l1 x l2 y :
  StronglySorted R (l1 ++ x :: l2) -> y ∈ l2 -> R x y.
Proof.
  induction l1 as [|z l1 IH]; simpl; inversion_clear 1 as [|?? Hs Hf]; [|by apply IH].
  rewrite Forall_forall in Hf. apply Hf.
Qed.

Lemma zip_times b t (x : Z * Z) : x ∈ zip b t -> exists j, t !! j = Some x.2.
Proof.
  intros [j Hj]%list_elem_of_lookup. rewrite lookup_zip_with in Hj. exists j.
  destruct (b !! j), (t !! j); simpl in Hj; try done. by injection Hj as <-.
Qed.

Lemma step_evict s st p : refines s st -> p <> -1 -> findPage (buffer s) p = None ->
  findPage (buffer s) (-1) = None -> refines (step s p) (spec_step st p).
Proof.
  intros Href Hp Hf He. assert (p ∉ st.1) as Hin.
  { rewrite (elem_of_refined _ _ _ Href Hp). by apply findPage_None. }
  pose proof Href as [Hb Ht _ _ (tl & Htl & Hs & Hle & Hnd & Hperm)].
  destruct (find_lru_min (time s)) as [Hlt Hmin]; [intros Heq; by rewrite Heq in Ht|].
  unfold step. rewrite Hf, He. destruct st as [l evs]. unfold spec_step. simpl in *.
  rewrite decide_False by done. set (i := find_lru (time s)) in *.
  destruct (zip_slot (buffer s) (time s) i p 0) as (z1 & q & d & z2 & Hzip & Hz1 & Hq & Hd & _); [lia..|].
  assert (q <> -1) as Hqn.
  { intros ->. apply findPage_None in He. apply He. by eapply list_elem_of_lookup_2. }
  fold (occupied (zip (buffer s) (time s))) in Hperm.
  rewrite slots_full in Hperm by (first [lia|by apply findPage_None]).
  assert (length l = MAX_FRAMES) as Hll.
  { rewrite <- Htl, length_fmap, <- Hperm, length_zip_with. lia. }
  rewrite decide_False by lia.
  assert (forall x, x ∈ tl -> d <= x.2) as Hleast.
  { intros x Hx. rewrite <- Hperm in Hx. destruct (zip_times _ _ _ Hx) as [j Hj]. by eapply Hmin. }
  rewrite <- slots_full, Hzip in Hperm by (first [lia|by apply findPage_None]).
  destruct (remove_slot z1 q d z2 tl Hqn Hperm) as (tl1 & tl2 & -> & Hrest).
  destruct tl2 as [|x tl2].
  2: { pose proof (sorted_last _ _ _ _ x Hs ltac:(by left)). simpl in *.
       specialize (Hleast x ltac:(set_solver)). lia. }
  assert (l = tl1.*1 ++ [q]) as -> by (by rewrite <- Htl, fmap_app).
  rewrite removelast_last, last_last, Hq. simpl.
  apply (slot_used s (tl1.*1 ++ [q], evs) p i tl1 []); try done; rewrite ?app_nil_r.
  - lia.
  - pose proof (sorted_mid _ _ _ _ Hs) as Hs'. by rewrite app_nil_r in Hs'.
  - rewrite Forall_app in Hle. tauto.
  - intros y1 q' d' y2 Hy Hly. rewrite app_nil_r in Hrest. rewrite Hzip in Hy.
    apply app_inj_1 in Hy as [<- [= <- <- <-]]; [done|congruence].
  - lia.
  - done.
  - apply NoDup_cons. split; [set_solver|]. apply NoDup_app in Hnd. tauto.
Qed.

Lemma step_refines s st p : refines s st -> p <> -1 -> refines (step s p) (spec_step st p).
Proof.
  intros Href Hp. destruct (findPage (buffer s) p) as [i|] eqn:Hf; [by eapply step_hit|].
  destruct (findPage (buffer s) (-1)) as [i|] eqn:He; [by eapply step_insert|by apply step_evict].
Qed.

Lemma simulate_refines ps s st : refines s st -> Forall (fun p => p <> -1) ps ->
  refines (fold_left step ps s) (fold_left spec_step ps st).
Proof.
  intros Href Hps. revert s st Href. induction Hps as [|p ps Hp Hps IH]; intros s st Href; [done|].
  simpl. by apply IH, step_refines.
Qed.
End LRU.

(** ** Clock *)
Module Clock.

Record sim := mkSim {
  buffer : list Z; refBit : list Z; pointer : nat; hits : Z; misses : Z
}.

Definition init : sim := mkSim (replicate MAX_FRAMES (-1)) (replicate MAX_FRAMES 0) 0 0 0.

(** lines 135-149; every turn but the last clears a bit *)
Fixpoint replace (fuel : nat) (page : Z) (s : sim) : outcome sim :=
  match fuel with
  | O => OutOfFuel
  | S fuel =>
      b ← of_option (refBit s !! pointer s);
      let next := ((pointer s + 1) mod MAX_FRAMES)%nat in
      if b =? 0 then
        Done (mkSim (<[pointer s := page]> (buffer s)) (<[pointer s := 1]> (refBit s)) next
                (hits s) (misses s))
      else replace fuel page (mkSim (buffer s) (<[pointer s := 0]> (refBit s)) next (hits s) (misses s))
  end.

Definition step (s : sim) (page : Z) : outcome sim :=
  match findPage (take MAX_FRAMES (buffer s)) page with
  | Some j => Done (mkSim (buffer s) (<[j := 1]> (refBit s)) (pointer s) (hits s + 1) (misses s))
  | None =>
      replace (S MAX_FRAMES) page
        (mkSim (buffer s) (refBit s) (pointer s) (hits s) (misses s + 1))
  end.

Definition simulateClock (pages : list Z) : outcome sim :=
  fold_left (fun s page => s ← s; step s page) pages (Done init).

(** the search of week 8/pageReplacementPolicy/clock.c runs to [MAX_PAGES] over an
    array of [MAX_FRAMES] *)
Definition MAX_PAGES : nat := 12.

Fixpoint search (n : nat) (j : Z) (buffer : list Z) (page : Z) : outcome (option Z) :=
  match n with
  | O => Done None
  | S n => b ← arr_get buffer j; if b =? page then Done (Some j) else search n (j + 1) buffer page
  end.

Definition step_overrun (s : sim) (page : Z) : outcome sim :=
  found ← search MAX_PAGES 0 (buffer s) page;
  match found with
  | Some j =>
      bits ← arr_set (refBit s) j 1;
      Done (mkSim (buffer s) bits (pointer s) (hits s + 1) (misses s))
  | None =>
      replace (S MAX_FRAMES) page
        (mkSim (buffer s) (refBit s) (pointer s) (hits s) (misses s + 1))
  end.

Definition simulateClock_overrun (pages : list Z) : outcome sim :=
  fold_left (fun s page => s ← s; step_overrun s page) pages (Done init).

(** *** Specification *)

(** the pages in memory are distinct, and an empty frame has its bit clear *)
Record sim_ok (s : sim) : Prop := {
  ok_buffer : length (buffer s) = MAX_FRAMES;
  ok_bits : length (refBit s) = MAX_FRAMES;
  ok_pointer : (pointer s < MAX_FRAMES)%nat;
  ok_nodup : NoDup (filter (fun p => p <> -1) (buffer s));
}.

(** what a miss does: [i] is the frame that is replaced *)
Definition second_chance (s s' : sim) (page : Z) : Prop :=
  exists i, (i < MAX_FRAMES)%nat /\ buffer s' = <[i := page]> (buffer s) /\ refBit s' !! i = Some 1 /\
    (forall b, refBit s !! i = Some b -> b <> 0 -> Forall (fun b => b <> 0) (refBit s)).

Lemma three {A} (l : list A) : length l = MAX_FRAMES -> exists x y z, l = [x; y; z].
Proof. destruct l as [|x [|y [|z [|]]]]; try done. eauto. Qed.

Lemma clock_replace_ok s page : sim_ok s -> exists s', replace (S MAX_FRAMES) page s = Done s' /\
  length (refBit s') = MAX_FRAMES /\ (pointer s' < MAX_FRAMES)%nat /\
  hits s' = hits s /\ misses s' = misses s /\ second_chance s s' page.
Proof.
  intros [Hb Hr Hp _]. destruct (three _ Hb) as (p0 & p1 & p2 & Hb').
  destruct (three _ Hr) as (r0 & r1 & r2 & Hr'). destruct s as [b r k h m]. simpl in *. subst b r.
  unfold second_chance. simpl.
  assert (forall r : Z, {r = 0} + {r <> 0}) as Hdec by (intros; apply Z.eq_dec).
  assert (k = 0 \/ k = 1 \/ k = 2)%nat as [-> | [-> | ->]] by (unfold MAX_FRAMES in Hp; lia);
    destruct (Hdec r0) as [->|H0], (Hdec r1) as [->|H1], (Hdec r2) as [->|H2]; simpl;
    repeat (rewrite (proj2 (Z.eqb_neq _ _)) by eassumption; simpl);
    eexists; (split; [reflexivity|]); simpl; split_and!; try done; try (unfold MAX_FRAMES; lia).
  all: first [exists 0%nat; split_and!; [unfold MAX_FRAMES; lia|reflexivity|reflexivity|
               intros b [= <-] Hn; by repeat constructor]
             |exists 1%nat; split_and!; [unfold MAX_FRAMES; lia|reflexivity|reflexivity|
               intros b [= <-] Hn; by repeat constructor]
             |exists 2%nat; split_and!; [unfold MAX_FRAMES; lia|reflexivity|reflexivity|
               intros b [= <-] Hn; by repeat constructor]].
Qed.

Lemma nodup_insert (l : list Z) i p : NoDup (filter (fun p => p <> -1) l) -> p ∉ l ->
  (i < length l)%nat -> NoDup (filter (fun p => p <> -1) (<[i := p]> l)).
Proof.
  intros Hn Hp Hi. destruct (LRU.split_at l i Hi) as (l1 & x & l2 & -> & <-). rewrite list_insert_mid.
  rewrite filter_app, !filter_cons in *. apply not_elem_of_app in Hp as [Hp1 Hp2].
  apply not_elem_of_cons in Hp2 as [_ Hp2].
  assert (NoDup (filter (fun p => p <> -1) l1 ++ filter (fun p => p <> -1) l2)) as Hn'.
  { destruct (decide (x <> -1)); [|done]. rewrite <- Permutation_middle in Hn. by apply NoDup_cons in Hn as [_ Hn]. }
  destruct (decide (p <> -1)); [|done]. rewrite <- Permutation_middle. apply NoDup_cons. split; [|done].
  rewrite elem_of_app, !list_elem_of_filter. tauto.
Qed.

Lemma clock_step_ok s page : sim_ok s -> exists s', step s page = Done s' /\ sim_ok s' /\ page ∈ buffer s' /\
  hits s' + misses s' = hits s + misses s + 1 /\
  match findPage (buffer s) page with
  | Some j => buffer s' = buffer s /\ refBit s' = <[j := 1]> (refBit s)
  | None => second_chance s s' page
  end.
Proof.
  intros Hok. pose proof Hok as [Hb Hr Hp Hn]. unfold step.
  rewrite (firstn_all2 (n := MAX_FRAMES) (buffer s)) by lia.
  destruct (findPage (buffer s) page) as [j|] eqn:Hf.
  - eexists. split; [done|]. split; [split; simpl; rewrite ?length_insert; done|]. simpl.
    split_and!; [|lia|done..]. apply LRU.findPage_Some in Hf as (b1 & b2 & -> & _). set_solver.
  - apply LRU.findPage_None in Hf.
    destruct (clock_replace_ok (mkSim (buffer s) (refBit s) (pointer s) (hits s) (misses s + 1)) page)
      as (s' & Heq & Hr' & Hp' & Hh & Hm & i & Hi & Hbi & Hbit & Hsc); [by split|].
    simpl in *. exists s'. split; [done|]. split_and!.
    + split; [by rewrite Hbi, length_insert|done..|]. rewrite Hbi. apply nodup_insert; [done..|lia].
    + rewrite Hbi. apply list_elem_of_lookup. exists i. apply list_lookup_insert_eq. lia.
    + lia.
    + by exists i.
Qed.

Lemma fold_step_ok ps s : sim_ok s ->
  exists s', fold_left (fun s page => s ← s; step s page) ps (Done s) = Done s' /\ sim_ok s' /\
    hits s' + misses s' = hits s + misses s + Z.of_nat (length ps).
Proof.
  revert s. induction ps as [|p ps IH]; intros s Hok; [exists s; split_and!; [done..|simpl; lia]|].
  destruct (clock_step_ok s p Hok) as (s1 & Heq & Hok1 & _ & Hc & _).
  destruct (IH s1 Hok1) as (s2 & Heq2 & Hok2 & Hc2). exists s2. cbn [fold_left].
  change (Done s ≫= (fun s => step s p)) with (step s p). rewrite Heq.
  split_and!; [done..|]. cbn [length]. lia.
Qed.

Lemma clock_init_ok : sim_ok init.
Proof. split; [done|done|simpl; unfold MAX_FRAMES; lia|constructor]. Qed.

Lemma search_step n j l page b : arr_get l j = Done b -> (b =? page) = false ->
  search (S n) j l page = search n (j + 1) l page.
Proof. intros Hg Hb. cbn [search]. rewrite Hg. simpl. by rewrite Hb. Qed.

(** the overrunning search never gets through the first request *)
Lemma simulateClock_overrun_undef p ps : p <> -1 -> simulateClock_overrun (p :: ps) = Undef.
Proof.
  intros Hp. unfold simulateClock_overrun. cbn [fold_left].
  assert (step_overrun init p = Undef) as Hs.
  { assert ((-1 =? p) = false) as Hq by (apply Z.eqb_neq; lia).
    unfold step_overrun. change (buffer init) with [-1; -1; -1]. unfold MAX_PAGES.
    do 3 (rewrite (search_step _ _ _ _ (-1)) by done). done. }
  change (Done init ≫= (fun s => step_overrun s p)) with (step_overrun init p). rewrite Hs.
  by induction ps as [|q ps IH].
Qed.
End Clock.

(** ** ARC *)
Module ARC.

(** the page lists, most recently used first *)
Record sim := mkSim {
  T1 : list Z; T2 : list Z; B1 : list Z; B2 : list Z; p : Z; hits : Z; misses : Z
}.

Definition init : sim := mkSim [] [] [] [] 0 0 0.

Fixpoint contains (l : list Z) (page : Z) : bool :=
  match l with [] => false | x :: l' => (x =? page) || contains l' page end.

Fixpoint removeNode (l : list Z) (page : Z) : list Z :=
  match l with [] => [] | x :: l' => if x =? page then l' else x :: removeNode l' page end.

Definition addToFront (l : list Z) (page : Z) : list Z := page :: l.

Definition len (l : list Z) : Z := Z.of_nat (length l).

(** the last page, or -1, and the list without it *)
Fixpoint removeLRU (l : list Z) : Z * list Z :=
  match l with
  | [] => (-1, [])
  | [x] => (x, [])
  | x :: l' => let '(page, l'') := removeLRU l' in (page, x :: l'')
  end.

Definition replaceARC (s : sim) : sim :=
  if (len (T1 s) >=? 1) &&
     ((len (T1 s) >? p s) || (contains (B2 s) 0 && (len (T1 s) =? p s)))
  then let '(old, t) := removeLRU (T1 s) in
       mkSim t (T2 s) (addToFront (B1 s) old) (B2 s) (p s) (hits s) (misses s)
  else let '(old, t) := removeLRU (T2 s) in
       mkSim (T1 s) t (B1 s) (addToFront (B2 s) old) (p s) (hits s) (misses s).

Definition set_p (n : Z) (s : sim) : sim := mkSim (T1 s) (T2 s) (B1 s) (B2 s) n (hits s) (misses s).

Definition frames : Z := Z.of_nat MAX_FRAMES.

Definition step (s : sim) (page : Z) : sim :=
  if contains (T1 s) page || contains (T2 s) page then
    if contains (T1 s) page then
      mkSim (removeNode (T1 s) page) (addToFront (T2 s) page) (B1 s) (B2 s) (p s) (hits s + 1) (misses s)
    else
      mkSim (T1 s) (addToFront (removeNode (T2 s) page) page) (B1 s) (B2 s) (p s) (hits s + 1) (misses s)
  else
  let s := mkSim (T1 s) (T2 s) (B1 s) (B2 s) (p s) (hits s) (misses s + 1) in
  if contains (B1 s) page then
    let s := set_p (if p s + (if len (B2 s) >? 0 then 1 else 0) <? frames then p s + 1 else frames) s in
    let s := replaceARC s in
    mkSim (T1 s) (addToFront (T2 s) page) (removeNode (B1 s) page) (B2 s) (p s) (hits s) (misses s)
  else if contains (B2 s) page then
    let s := set_p (if p s - (if len (B1 s) >? 0 then 1 else 0) >? 0 then p s - 1 else 0) s in
    let s := replaceARC s in
    mkSim (T1 s) (addToFront (T2 s) page) (B1 s) (removeNode (B2 s) page) (p s) (hits s) (misses s)
  else
    let s := if len (T1 s) + len (T2 s) >=? frames then replaceARC s else s in
    mkSim (addToFront (T1 s) page) (T2 s) (B1 s) (B2 s) (p s) (hits s) (misses s).

Definition simulateARC (pages : list Z) : sim := fold_left step pages init.

(** *** Specification *)

(** every page some list knows; -1 is what an empty [T2] gives up *)
Definition known (s : sim) : list Z := filter (fun x => x <> -1) (T1 s ++ T2 s ++ B1 s ++ B2 s).

Record sim_ok (seen : list Z) (s : sim) : Prop := {
  ok_p : 0 <= p s <= frames;
  ok_nodup : NoDup (known s);
  ok_known : forall x, x ∈ known s <-> x ∈ seen;
  ok_count : hits s + misses s = Z.of_nat (length seen);
}.

(** *** Lemmas *)

Lemma contains_spec l x : contains l x = true <-> x ∈ l.
Proof.
  induction l as [|y l IH]; simpl; [set_solver|]. rewrite orb_true_iff, IH, Z.eqb_eq, elem_of_cons. naive_solver.
Qed.

Lemma contains_false l x : contains l x = false <-> x ∉ l.
Proof. rewrite <- contains_spec. by destruct (contains l x). Qed.

Lemma removeNode_perm l x : x ∈ l -> l ≡ₚ x :: removeNode l x.
Proof.
  induction l as [|y l IH]; simpl; [by intros ?%elem_of_nil|].
  destruct (Z.eqb_spec y x) as [->|Hne]; [done|]. intros [->|Hx]%elem_of_cons; [done|].
  rewrite (IH Hx) at 1. by constructor.
Qed.

Lemma removeLRU_perm l : l <> [] -> l ≡ₚ (removeLRU l).1 :: (removeLRU l).2.
Proof.
  induction l as [|x [|y l] IH]; [done|done|]. intros _. specialize (IH ltac:(done)).
  change (removeLRU (x :: y :: l)) with (let '(page, l'') := removeLRU (y :: l) in (page, x :: l'')).
  destruct (removeLRU (y :: l)) as [page l'']. simpl in *. rewrite IH. constructor.
Qed.

Lemma replaceARC_ok s : known (replaceARC s) ≡ₚ known s /\ p (replaceARC s) = p s /\
  hits (replaceARC s) = hits s /\ misses (replaceARC s) = misses s /\
  (forall x, x ∈ B1 s -> x ∈ B1 (replaceARC s)) /\ (forall x, x ∈ B2 s -> x ∈ B2 (replaceARC s)).
Proof.
  unfold replaceARC, known. destruct (_ && _) eqn:Hc.
  - assert (T1 s <> []) as Hne by (intros H; by rewrite H in Hc).
    pose proof (removeLRU_perm _ Hne) as Hp. destruct (removeLRU (T1 s)) as [old t]. simpl in *.
    split_and!; [|done..|set_solver|done]. rewrite Hp. apply filter_Permutation.
    unfold addToFront. solve_Permutation.
  - destruct (decide (T2 s = [])) as [->|Hne].
    + simpl. split_and!; [|done..|set_solver]. unfold addToFront. rewrite !filter_app.
      by rewrite (filter_cons_False _ (-1)) by tauto.
    + pose proof (removeLRU_perm _ Hne) as Hp. destruct (removeLRU (T2 s)) as [old t]. simpl in *.
      split_and!; [|done..|set_solver]. rewrite Hp. apply filter_Permutation.
      unfold addToFront. solve_Permutation.
Qed.

Lemma known_perm (l l' : list Z) : l ≡ₚ l' -> filter (fun y => y <> -1) l ≡ₚ filter (fun y => y <> -1) l'.
Proof. apply filter_Permutation. Qed.

(** a request for a page that is known only permutes the lists *)
Lemma step_known s page : page ∈ known s -> known (step s page) ≡ₚ known s.
Proof.
  intros Hin. unfold step. destruct (contains (T1 s) page) eqn:H1; simpl.
  { apply contains_spec, removeNode_perm in H1. apply known_perm. simpl. rewrite H1 at 2.
    unfold addToFront. solve_Permutation. }
  destruct (contains (T2 s) page) eqn:H2.
  { apply contains_spec, removeNode_perm in H2. apply known_perm. simpl. rewrite H2 at 2.
    unfold addToFront. solve_Permutation. }
  set (s0 := mkSim (T1 s) (T2 s) (B1 s) (B2 s) (p s) (hits s) (misses s + 1)).
  destruct (contains (B1 s) page) eqn:H3.
  { set (s1 := set_p _ s0). destruct (replaceARC_ok s1) as (Hk & _ & _ & _ & Hb & _).
    change (known s) with (known s1). rewrite <- Hk.
    apply contains_spec in H3. specialize (Hb page H3). apply removeNode_perm in Hb.
    apply known_perm. simpl. rewrite Hb at 2. unfold addToFront. solve_Permutation. }
  destruct (contains (B2 s) page) eqn:H4.
  { set (s1 := set_p _ s0). destruct (replaceARC_ok s1) as (Hk & _ & _ & _ & _ & Hb).
    change (known s) with (known s1). rewrite <- Hk.
    apply contains_spec in H4. specialize (Hb page H4). apply removeNode_perm in Hb.
    apply known_perm. simpl. rewrite Hb at 2. unfold addToFront. solve_Permutation. }
  apply contains_false in H1, H2, H3, H4. apply list_elem_of_filter in Hin as [_ Hin]. set_solver.
Qed.

Lemma step_new s page : page ∉ known s -> page <> -1 -> known (step s page) ≡ₚ page :: known s.
Proof.
  intros Hin Hp. unfold known in Hin. rewrite list_elem_of_filter in Hin.
  unfold step. rewrite !(proj2 (contains_false _ page)) by set_solver. simpl.
  set (s0 := mkSim (T1 s) (T2 s) (B1 s) (B2 s) (p s) (hits s) (misses s + 1)).
  assert (known (if len (T1 s) + len (T2 s) >=? frames then replaceARC s0 else s0) ≡ₚ known s) as Hk.
  { destruct (_ >=? _); [|done]. apply (replaceARC_ok s0). }
  rewrite <- Hk. unfold known at 1. simpl. by rewrite filter_cons_True.
Qed.

Lemma step_fields s page : 0 <= p s <= frames -> 0 <= p (step s page) <= frames /\
  hits (step s page) + misses (step s page) = hits s + misses s + 1.
Proof.
  intros Hp. unfold step. assert (0 <= frames) by done.
  destruct (_ || _); [destruct (contains (T1 s) page); simpl; lia|].
  set (s0 := mkSim (T1 s) (T2 s) (B1 s) (B2 s) (p s) (hits s) (misses s + 1)).
  destruct (contains (B1 s0) page).
  { match goal with |- context [replaceARC ?x] => destruct (replaceARC_ok x) as (_ & Hp1 & Hh & Hm & _) end.
    simpl in *. rewrite Hp1, Hh, Hm. split; [|lia].
    destruct (Z.gtb_spec (len (B2 s)) 0); zcases; lia. }
  destruct (contains (B2 s0) page).
  { match goal with |- context [replaceARC ?x] => destruct (replaceARC_ok x) as (_ & Hp1 & Hh & Hm & _) end.
    simpl in *. rewrite Hp1, Hh, Hm. split; [|lia].
    destruct (Z.gtb_spec (len (B1 s)) 0); zcases; lia. }
  destruct (replaceARC_ok s0) as (_ & Hp1 & Hh & Hm & _). simpl.
  destruct (_ >=? _); rewrite ?Hp1, ?Hh, ?Hm; simpl; lia.
Qed.

Lemma arc_step_ok seen s page : sim_ok seen s -> page <> -1 ->
  sim_ok (seen ++ [page]) (step s page) /\ page ∈ T1 (step s page) ++ T2 (step s page).
Proof.
  intros [Hp Hn Hk Hc] Hne. destruct (step_fields s page Hp) as [Hp' Hc']. split.
  - split; [done| | |].
    + destruct (decide (page ∈ known s)) as [Hin|Hin]; [by rewrite step_known|].
      rewrite step_new by done. by constructor.
    + intros x. rewrite elem_of_app, list_elem_of_singleton, <- Hk.
      destruct (decide (page ∈ known s)) as [Hin|Hin].
      * rewrite step_known by done. naive_solver.
      * rewrite step_new, elem_of_cons by done. naive_solver.
    + rewrite Hc', Hc, length_app. simpl. lia.
  - unfold step. destruct (contains (T1 s) page); simpl; [set_solver|].
    destruct (contains (T2 s) page); simpl; [set_solver|].
    destruct (contains (B1 s) page); simpl; [set_solver|].
    destruct (contains (B2 s) page); simpl; set_solver.
Qed.

Lemma simulate_ok ps seen s : sim_ok seen s -> Forall (fun x => x <> -1) ps ->
  sim_ok (seen ++ ps) (fold_left step ps s).
Proof.
  intros Hok Hps. revert seen s Hok. induction Hps as [|x ps Hx Hps IH]; intros seen s Hok; simpl.
  - by rewrite app_nil_r.
  - replace (seen ++ x :: ps) with ((seen ++ [x]) ++ ps) by by rewrite <- app_assoc.
    apply IH. by apply arc_step_ok.
Qed.

Lemma arc_init_ok : sim_ok [] init.
Proof. split; [by vm_compute|constructor|done|done]. Qed.
End ARC.

(** ** [main] *)

Inductive report := ReportLRU (s : LRU.sim) | ReportClock (s : Clock.sim) | ReportARC (s : ARC.sim) | InvalidChoice.

Definition main (choice : Z) : outcome report :=
  if choice =? 1 then Done (ReportLRU (LRU.simulateLRU pages))
  else if choice =? 2 then s ← Clock.simulateClock pages; Done (ReportClock s)
  else if choice =? 3 then Done (ReportARC (ARC.simulateARC pages))
  else Done InvalidChoice.

(** ** Properties *)

(** On every request sequence (without -1, which marks an empty frame) the LRU
    simulation with its time stamps behaves as the list of the resident pages in the
    order of their last use: the same hits, insertions and evicted pages, the hits
    and misses add up to the requests, and the occupied frames ordered by decreasing
    time stamp are that list. *)
Theorem simulateLRU_refines ps : Forall (fun p => p <> -1) ps ->
  LRU.refines (LRU.simulateLRU ps) (LRU.spec ps).
Proof. intros Hps. apply LRU.simulate_refines; [apply LRU.refines_init|done]. Qed.

Lemma simulateLRU_refines_witness :
  LRU.refines (LRU.simulateLRU pages) (LRU.spec pages) /\
  (LRU.spec pages).1 = [2; 1; 5] /\ LRU.hits (LRU.simulateLRU pages) = 5.
Proof.
  split; [|by vm_compute]. apply (simulateLRU_refines pages). repeat constructor; lia.
Defined.

(** A request of the clock simulation terminates within one sweep and one more
    step, without an access outside the arrays.  A hit only sets the page's reference
    bit; a miss replaces one frame, and a frame whose bit was set is replaced only
    when all bits were set; the resident pages stay distinct and the requested page
    is resident afterwards. *)
Theorem clock_step_correct s page : Clock.sim_ok s ->
  exists s', Clock.step s page = Done s' /\ Clock.sim_ok s' /\ page ∈ Clock.buffer s' /\
    Clock.hits s' + Clock.misses s' = Clock.hits s + Clock.misses s + 1 /\
    match findPage (Clock.buffer s) page with
    | Some j => Clock.buffer s' = Clock.buffer s /\ Clock.refBit s' = <[j := 1]> (Clock.refBit s)
    | None => Clock.second_chance s s' page
    end.
Proof. apply Clock.clock_step_ok. Qed.

Lemma clock_step_correct_witness : exists s', Clock.step Clock.init 7 = Done s' /\ 7 ∈ Clock.buffer s'.
Proof.
  destruct (clock_step_correct Clock.init 7 Clock.clock_init_ok) as (s' & Heq & _ & Hin & _). by exists s'.
Defined.

(** After any request sequence the ARC simulation knows exactly the pages
    requested so far, each once over its four lists; the target size stays between 0
    and the number of frames and every request was counted as a hit or a miss. *)
Theorem simulateARC_known ps : Forall (fun p => p <> -1) ps ->
  ARC.sim_ok ps (ARC.simulateARC ps).
Proof. intros Hps. by apply (ARC.simulate_ok ps [] ARC.init ARC.arc_init_ok). Qed.

Lemma simulateARC_known_witness : ARC.sim_ok pages (ARC.simulateARC pages).
Proof. apply (simulateARC_known pages). repeat constructor; lia. Defined.

(** When the target reaches the number of frames and [T2] is empty, [replaceARC]
    takes its victim from the empty [T2]: nothing is evicted, -1 becomes a ghost page
    and the cache holds four pages in three frames. *)
Lemma arc_overflow : let s := ARC.simulateARC [1; 2; 3; 4; 1; 2; 5; 6; 3] in
  ARC.len (ARC.T1 s) + ARC.len (ARC.T2 s) = 4 /\ -1 ∈ ARC.B2 s.
Proof. split; [by vm_compute|]. apply (ARC.contains_spec _ (-1)). by vm_compute. Qed.

Lemma main_runs : exists s, main 2 = Done (ReportClock s) /\ Clock.hits s = 5 /\ Clock.misses s = 7.
Proof. eexists. split; [by vm_compute|by vm_compute]. Qed.
