(* ===== verification/QueryEngine.v ===== *)
(** * The query pieces of week 8

    The predicate trees of "Expression Tree/experssiontree.c", the pull-based query of
    "queryEngine/queryEngine.c" and the two predicates of "queryEngine/jit.c". *)
From S2P Require Import Prelude CString.

(** ** Expression trees *)
Module Expression.

Inductive Node := NULL | mkNode (data : string) (left right : Node).

(** [strcpy] into ten bytes *)
Definition createNode (data : string) : outcome Node :=
  if (9 <? strlen data)%nat then Undef else Done (mkNode data NULL NULL).

(** the pieces printed by [inorder]: "(", " %s " and ")" *)
Inductive token := LP | Data (s : string) | RP.

Definition is_null (n : Node) : bool := match n with NULL => true | _ => false end.

Fixpoint inorder (root : Node) : list token :=
  match root with
  | NULL => []
  | mkNode data l r =>
      (if is_null l then [] else [LP]) ++ inorder l ++ [Data data] ++ inorder r ++
      (if is_null r then [] else [RP])
  end.

Definition isdigit (a : ascii) : bool := (48 <=? schar a) && (schar a <=? 57).

Fixpoint digits (acc : Z) (s : string) : Z :=
  match s with
  | String a s' => if isdigit a then digits (acc * 10 + (schar a - 48)) s' else acc
  | EmptyString => acc
  end.

(** [atoi] of a string that starts with a digit *)
Definition atoi (s : string) : Z := digits 0 s.

Definition b2z (b : bool) : Z := if b then 1 else 0.

(** the operators of lines 41-60; an unknown one gives 0 *)
Definition apply_op (op : string) (left right : Z) : outcome Z :=
  if streq op "+" then int_chk (left + right)
  else if streq op "-" then int_chk (left - right)
  else if streq op "*" then int_chk (left * right)
  else if streq op "/" then (if right =? 0 then Undef else int_chk (Z.quot left right))
  else if streq op ">" then Done (b2z (left >? right))
  else if streq op "<" then Done (b2z (left <? right))
  else if streq op "=" then Done (b2z (left =? right))
  else if streq op "&" then Done (b2z (negb (left =? 0) && negb (right =? 0)))
  else if streq op "|" then Done (b2z (negb (left =? 0) || negb (right =? 0)))
  else Done 0.

Definition starts_with_digit (s : string) : bool :=
  match s with String a _ => isdigit a | EmptyString => false end.

Fixpoint evaluate (root : Node) : outcome Z :=
  match root with
  | NULL => Done 0
  | mkNode data l r =>
      if starts_with_digit data then Done (atoi data)
      else left ← evaluate l; right ← evaluate r; apply_op data left right
  end.

Definition node2 (data : string) (l r : Node) : outcome Node :=
  n ← createNode data;
  match n with NULL => Undef | mkNode d _ _ => Done (mkNode d l r) end.

(** the printed tokens and whether TRUE is printed *)
Definition main : outcome (list token * bool) :=
  n10 ← createNode "10"; n5 ← createNode "5"; plus ← node2 "+" n10 n5;
  n12 ← createNode "12"; gt ← node2 ">" plus n12;
  n8 ← createNode "8"; n15 ← createNode "15"; lt ← node2 "<" n8 n15;
  root ← node2 "&" gt lt;
  result ← evaluate root;
  Done (inorder root, negb (result =? 0)).

(** *** Specification: the grammar and its meaning *)

Inductive binop := Add | Sub | Mul | Div | Gt | Lt | Eq | And | Or.

Inductive expr := Num (s : string) | Bin (op : binop) (e1 e2 : expr).

Definition op_name (op : binop) : string :=
  match op with
  | Add => "+" | Sub => "-" | Mul => "*" | Div => "/" | Gt => ">" | Lt => "<"
  | Eq => "=" | And => "&" | Or => "|"
  end.

Fixpoint tree (e : expr) : Node :=
  match e with
  | Num s => mkNode s NULL NULL
  | Bin op e1 e2 => mkNode (op_name op) (tree e1) (tree e2)
  end.

(** a number: one to nine digits *)
Fixpoint numerals (e : expr) : Prop :=
  match e with
  | Num s => s <> "" /\ str_all isdigit s = true /\ (strlen s <= 9)%nat
  | Bin _ e1 e2 => numerals e1 /\ numerals e2
  end.

Fixpoint pow10 (n : nat) : Z := match n with O => 1 | S n => 10 * pow10 n end.

(** the value of a numeral, most significant digit first *)
Fixpoint value (s : string) : Z :=
  match s with
  | EmptyString => 0
  | String a s' => (schar a - 48) * pow10 (strlen s') + value s'
  end.

(** the value of an operation over the integers; [None] when C does not define it *)
Definition op_sem (op : binop) (a b : Z) : option Z :=
  let fits z := if decide (in_int z) then Some z else None in
  match op with
  | Add => fits (a + b)
  | Sub => fits (a - b)
  | Mul => fits (a * b)
  | Div => if decide (b = 0) then None else fits (Z.quot a b)
  | Gt => Some (if decide (b < a) then 1 else 0)
  | Lt => Some (if decide (a < b) then 1 else 0)
  | Eq => Some (if decide (a = b) then 1 else 0)
  | And => Some (if decide (a <> 0 /\ b <> 0) then 1 else 0)
  | Or => Some (if decide (a <> 0 \/ b <> 0) then 1 else 0)
  end.

Fixpoint sem (e : expr) : option Z :=
  match e with
  | Num s => Some (value s)
  | Bin op e1 e2 => a ← sem e1; b ← sem e2; op_sem op a b
  end.

(** every inner node has two children *)
Fixpoint full (n : Node) : bool :=
  match n with
  | NULL => false
  | mkNode _ l r => (is_null l && is_null r) || (full l && full r)
  end.

(** a reader of what [inorder] prints *)
Fixpoint parse (fuel : nat) (ts : list token) : option (Node * list token) :=
  match fuel with
  | O => None
  | S fuel =>
      match ts with
      | Data s :: ts => Some (mkNode s NULL NULL, ts)
      | LP :: ts =>
          '(l, ts) ← parse fuel ts;
          match ts with
          | Data s :: ts =>
              '(r, ts) ← parse fuel ts;
              match ts with RP :: ts => Some (mkNode s l r, ts) | _ => None end
          | _ => None
          end
      | _ => None
      end
  end.

Fixpoint height (n : Node) : nat :=
  match n with NULL => 0 | mkNode _ l r => S (max (height l) (height r)) end.

(** *** Lemmas *)

Lemma digits_value s acc : str_all isdigit s = true -> digits acc s = acc * pow10 (strlen s) + value s.
Proof.
  revert acc. induction s as [|a s IH]; intros acc; simpl; [lia|].
  intros [-> Hs]%andb_true_iff. rewrite IH by done. lia.
Qed.

Lemma apply_op_sem op a b : apply_op (op_name op) a b = of_option (op_sem op a b).
Proof.
  unfold op_sem. destruct op; unfold apply_op, int_chk; simpl; zcases; repeat case_decide;
    repeat (rewrite bool_decide_true by done); repeat (rewrite bool_decide_false by done);
    simpl; first [done | lia].
Qed.

Lemma op_name_not_digit op : starts_with_digit (op_name op) = false.
Proof. by destruct op. Qed.

Lemma evaluate_sem e : numerals e -> evaluate (tree e) = of_option (sem e).
Proof.
  induction e as [s|op e1 IH1 e2 IH2]; simpl.
  - intros (Hne & Hd & _). destruct s as [|a s]; [done|]. simpl in Hd.
    pose proof Hd as [Ha _]%andb_true_iff. simpl. rewrite Ha. unfold atoi.
    by rewrite digits_value.
  - intros [H1 H2]. rewrite op_name_not_digit, IH1, IH2 by done.
    destruct (sem e1) as [a|]; [|done]. simpl. destruct (sem e2) as [b|]; [|done]. simpl.
    apply apply_op_sem.
Qed.

Lemma full_not_null n : full n = true -> is_null n = false.
Proof. by destruct n. Qed.

Lemma parse_inorder n fuel ts : full n = true -> (height n <= fuel)%nat ->
  parse fuel (inorder n ++ ts) = Some (n, ts).
Proof.
  revert fuel ts. induction n as [|data l IHl r IHr]; intros fuel ts; simpl; [done|].
  intros [[Hl Hr]%andb_true_iff|[Hl Hr]%andb_true_iff]%orb_true_iff Hf; (destruct fuel as [|fuel]; [lia|]).
  - by destruct l, r.
  - rewrite !full_not_null by done. simpl. rewrite <- !app_assoc, IHl by (done || lia). simpl.
    rewrite <- app_assoc, IHr by (done || lia). done.
Qed.
End Expression.

(** ** The query *)
Module Query.

Record Student_t := mkStudent { name : string; age : Z; city : string }.

(** [city] has ten bytes, so "Coimbatore" has no terminator; the comparison with
    "chennai" ends at its first byte *)
Definition students : list Student_t :=
  [mkStudent "Rohith" 23 "chennai"; mkStudent "Naveen" 10 "bangalore"; mkStudent "Dinesh" 18 "Coimbatore";
   mkStudent "Vignesh" 24 "chennai"; mkStudent "Praveen" 26 "Mumbai"].

Record globals := mkGlobals { currentIndex : Z; currentLimit : Z; current : option Student_t }.

Section query.
(** the table, whose length is [TABLESIZE], and [LIMIT] *)
Context (table : list Student_t) (LIMIT : Z).

Definition TABLESIZE : Z := Z.of_nat (length table).

Definition table_scan_open : cmd globals unit :=
  modify (fun g => mkGlobals 0 (currentLimit g) (current g)).

Definition table_scan_next : cmd globals (option Student_t) :=
  g ← get;
  if currentIndex g >=? TABLESIZE then mret None else
  r ← lift (arr_get table (currentIndex g));
  _ ← modify (fun g => mkGlobals (currentIndex g + 1) (currentLimit g) (current g));
  mret (Some r).

Definition set_current (r : option Student_t) : cmd globals unit :=
  modify (fun g => mkGlobals (currentIndex g) (currentLimit g) r).

Definition filter_open : cmd globals unit := table_scan_open.

Fixpoint filter_loop (fuel : nat) : cmd globals (option Student_t) :=
  match fuel with
  | O => fun _ => OutOfFuel
  | S fuel =>
      r ← table_scan_next; _ ← set_current r;
      match r with
      | None => mret None
      | Some s => if streq (city s) "chennai" then mret (Some s) else filter_loop fuel
      end
  end.

(** every turn but the last advances the scan *)
Definition filter_next : cmd globals (option Student_t) := filter_loop (S (length table)).

Definition limit_open : cmd globals unit := filter_open.

Definition limit_next : cmd globals (option Student_t) :=
  g ← get;
  if currentLimit g >=? LIMIT then mret None else
  r ← filter_next; _ ← set_current r;
  match r with
  | Some s =>
      _ ← modify (fun g => mkGlobals (currentIndex g) (currentLimit g + 1) (current g)); mret (Some s)
  | None => mret None
  end.

Definition projection_open : cmd globals unit := limit_open.

(** the printed rows *)
Fixpoint projection_loop (fuel : nat) : cmd globals (list (string * Z)) :=
  match fuel with
  | O => fun _ => OutOfFuel
  | S fuel =>
      r ← limit_next; _ ← set_current r;
      match r with
      | None => mret []
      | Some s => rows ← projection_loop fuel; mret ((name s, age s) :: rows)
      end
  end.

Definition projection_next : cmd globals (list (string * Z)) := projection_loop (S (length table)).

Definition query : cmd globals (list (string * Z)) := _ ← projection_open; projection_next.

(** *** Lemmas *)

Definition chennai (s : Student_t) : Prop := city s = "chennai".

Lemma scan_next g s rest : drop (Z.to_nat (currentIndex g)) table = s :: rest -> 0 <= currentIndex g ->
  table_scan_next g = Done (Some s, mkGlobals (currentIndex g + 1) (currentLimit g) (current g)) /\
  drop (Z.to_nat (currentIndex g + 1)) table = rest.
Proof.
  intros Hd Hi. assert (table !! Z.to_nat (currentIndex g) = Some s) as Hs.
  { rewrite <- (Nat.add_0_r (Z.to_nat _)), <- lookup_drop. by rewrite Hd. }
  pose proof (lookup_lt_Some _ _ _ Hs). split.
  - unfold table_scan_next, mbind, cmd_bind, get, TABLESIZE, lift.
    rewrite Z.geb_leb. destruct (Z.leb_spec (Z.of_nat (length table)) (currentIndex g)); [lia|].
    by rewrite (proj2 (arr_get_Done _ _ s)).
  - replace (Z.to_nat (currentIndex g + 1)) with (Z.to_nat (currentIndex g) + 1)%nat by lia.
    by rewrite <- drop_drop, Hd.
Qed.

Lemma scan_end g : drop (Z.to_nat (currentIndex g)) table = [] -> 0 <= currentIndex g ->
  table_scan_next g = Done (None, g).
Proof.
  intros Hd Hi. unfold table_scan_next, mbind, cmd_bind, get, TABLESIZE.
  apply (f_equal length) in Hd. rewrite length_drop in Hd. simpl in Hd. rewrite Z.geb_leb.
  destruct (Z.leb_spec (Z.of_nat (length table)) (currentIndex g)); [done|lia].
Qed.

(** the rest of the scan after a call, and what the call returns *)
Lemma filter_loop_ok fuel g rest : drop (Z.to_nat (currentIndex g)) table = rest ->
  0 <= currentIndex g -> (length rest < fuel)%nat ->
  exists g', filter_loop fuel g = Done (head (filter chennai rest), g') /\
    filter chennai (drop (Z.to_nat (currentIndex g')) table) = tail (filter chennai rest) /\
    0 <= currentIndex g' /\ currentLimit g' = currentLimit g.
Proof.
  revert fuel g. induction rest as [|s rest IH]; intros fuel g Hd Hi Hf;
    (destruct fuel as [|fuel]; [simpl in Hf; lia|]); cbn [filter_loop].
  - rewrite (cmd_bind_eq _ _ _ _ _ (scan_end g Hd Hi)). eexists. split; [reflexivity|]. simpl. by rewrite Hd.
  - destruct (scan_next g s rest Hd Hi) as [Heq Hd']. rewrite (cmd_bind_eq _ _ _ _ _ Heq).
    rewrite (cmd_bind_eq _ _ _ _ _ eq_refl). simpl. destruct (streq (city s) "chennai") eqn:Hc.
    + apply streq_spec in Hc. rewrite filter_cons_True by done. eexists. split; [reflexivity|]. simpl.
      rewrite Hd'. split_and!; [done|lia|done].
    + apply streq_false in Hc. rewrite filter_cons_False by done. simpl in Hf.
      edestruct (IH fuel) as (g' & Heq' & Hr); [|..|exists g'; split; [exact Heq'|exact Hr]]; simpl; [done|lia|lia].
Qed.

Lemma limit_next_ok g rest : filter chennai (drop (Z.to_nat (currentIndex g)) table) = rest ->
  0 <= currentIndex g -> currentLimit g < LIMIT ->
  exists g', limit_next g = Done (head rest, g') /\
    filter chennai (drop (Z.to_nat (currentIndex g')) table) = tail rest /\
    0 <= currentIndex g' /\ (rest <> [] -> currentLimit g' = currentLimit g + 1).
Proof.
  intros Hd Hi Hl. destruct (filter_loop_ok (S (length table)) g _ eq_refl Hi) as (g1 & Heq & Hd1 & Hi1 & Hl1).
  { rewrite length_drop. lia. }
  unfold limit_next. rewrite (cmd_bind_eq _ _ _ _ _ eq_refl), Z.geb_leb.
  destruct (Z.leb_spec LIMIT (currentLimit g)); [lia|].
  rewrite Hd in Heq, Hd1. rewrite (cmd_bind_eq _ _ _ _ _ Heq), (cmd_bind_eq _ _ _ _ _ eq_refl).
  destruct rest as [|s rest]; simpl; eexists; (split; [reflexivity|]); simpl; [done|].
  split_and!; [done|done|lia].
Qed.

Lemma limit_next_stop g : LIMIT <= currentLimit g -> limit_next g = Done (None, g).
Proof.
  intros Hl. unfold limit_next. rewrite (cmd_bind_eq _ _ _ _ _ eq_refl), Z.geb_leb.
  by destruct (Z.leb_spec LIMIT (currentLimit g)); [|lia].
Qed.

Lemma projection_loop_ok fuel g rest :
  filter chennai (drop (Z.to_nat (currentIndex g)) table) = rest ->
  0 <= currentIndex g -> (length rest < fuel)%nat ->
  exists g', projection_loop fuel g =
    Done ((fun s => (name s, age s)) <$> take (Z.to_nat (LIMIT - currentLimit g)) rest, g').
Proof.
  revert g rest. induction fuel as [|fuel IH]; intros g rest Hd Hi Hf; [lia|].
  cbn [projection_loop]. destruct (Z.le_gt_cases LIMIT (currentLimit g)) as [Hl|Hl].
  { rewrite (cmd_bind_eq _ _ _ _ _ (limit_next_stop g Hl)), (cmd_bind_eq _ _ _ _ _ eq_refl).
    eexists. replace (Z.to_nat (LIMIT - currentLimit g)) with O by lia. reflexivity. }
  destruct (limit_next_ok g rest Hd Hi Hl) as (g1 & Heq & Hd1 & Hi1 & Hl1).
  rewrite (cmd_bind_eq _ _ _ _ _ Heq), (cmd_bind_eq _ _ _ _ _ eq_refl).
  replace (Z.to_nat (LIMIT - currentLimit g)) with (S (Z.to_nat (LIMIT - (currentLimit g + 1)))) by lia.
  destruct rest as [|s rest]; simpl; [by eexists|]. simpl in Hd1, Hf.
  destruct (IH (mkGlobals (currentIndex g1) (currentLimit g1) (Some s)) rest Hd1 Hi1) as (g2 & Heq2); [lia|].
  exists g2. rewrite (cmd_bind_eq _ _ _ _ _ Heq2). simpl. by rewrite Hl1.
Qed.
End query.

Definition main : outcome (list (string * Z)) :=
  r ← query students 1 (mkGlobals 0 0 None); Done r.1.
End Query.

(** ** The compiled predicate *)
Module Jit.

Definition interpreted_eval (marks : Z) (city : string) : Z :=
  if (marks >? 80) && streq city "Pune" then 1 else 0.

Definition compiled_eval (marks : Z) (city : string) : Z :=
  if (marks >? 80) && match city with String a _ => schar a =? 80 | EmptyString => false end then 1 else 0.
End Jit.

(** ** Properties *)

(** C40: [evaluate] computes the value of every expression built from the nine
    operators and numbers of up to nine digits: the integer value when every
    intermediate result fits an int and no divisor is zero, and undefined behaviour
    exactly otherwise. *)
Theorem evaluate_correct e : Expression.numerals e ->
  Expression.evaluate (Expression.tree e) = of_option (Expression.sem e).
Proof. apply Expression.evaluate_sem. Qed.

Lemma evaluate_correct_witness :
  let e := Expression.Bin Expression.Gt
    (Expression.Bin Expression.Add (Expression.Num "10") (Expression.Num "5")) (Expression.Num "12") in
  Expression.evaluate (Expression.tree e) = Done 1.
Proof.
  intros e. rewrite (evaluate_correct e); [by vm_compute|]. simpl. split_and!; first [done|lia].
Defined.

(** What [inorder] prints determines the tree: reading the printed tokens back
    gives the same tree for every tree whose inner nodes have two children. *)
Theorem inorder_roundtrip n : Expression.full n = true ->
  Expression.parse (Expression.height n) (Expression.inorder n) = Some (n, []).
Proof.
  intros Hf. rewrite <- (app_nil_r (Expression.inorder n)). by apply Expression.parse_inorder.
Qed.

Lemma inorder_roundtrip_witness :
  let n := Expression.mkNode "-" (Expression.mkNode "1" Expression.NULL Expression.NULL)
             (Expression.mkNode "2" Expression.NULL Expression.NULL) in
  Expression.parse 2 (Expression.inorder n) = Some (n, []).
Proof. intros n. by apply (inorder_roundtrip n). Defined.

(** The query over any table and any limit reads only rows of the table,
    terminates, and prints name and age of the first LIMIT rows from chennai, in
    table order. *)
Theorem query_correct table LIMIT :
  exists g, Query.query table LIMIT (Query.mkGlobals 0 0 None) =
    Done ((fun s => (Query.name s, Query.age s)) <$>
            take (Z.to_nat LIMIT) (filter Query.chennai table), g).
Proof.
  unfold Query.query. rewrite (cmd_bind_eq _ _ _ _ _ eq_refl).
  destruct (Query.projection_loop_ok table LIMIT (S (length table)) (Query.mkGlobals 0 0 None)
    (filter Query.chennai table)) as (g & Heq); simpl; [done|done| |].
  - pose proof (length_filter Query.chennai table). lia.
  - rewrite Z.sub_0_r in Heq. by exists g.
Qed.

Lemma main_prints : Query.main = Done [("Rohith", 23)].
Proof. by vm_compute. Qed.

(** [limit_open] does not reset the count, so opening the query again in the same
    process prints nothing. *)
Lemma query_not_reopenable :
  (r ← (_ ← Query.query Query.students 1; Query.query Query.students 1) (Query.mkGlobals 0 0 None);
   Done r.1) = Done [].
Proof. by vm_compute. Qed.

(** The compiled predicate accepts everything the interpreted one accepts, and more. *)
Lemma compiled_eval_weaker m c : Jit.interpreted_eval m c = 1 -> Jit.compiled_eval m c = 1.
Proof.
  unfold Jit.interpreted_eval, Jit.compiled_eval. destruct (m >? 80); [|done]. simpl.
  destruct (streq c "Pune") eqn:Hc; [|done]. by apply streq_spec in Hc as ->.
Qed.

Lemma compiled_eval_differs : Jit.interpreted_eval 85 "Paris" = 0 /\ Jit.compiled_eval 85 "Paris" = 1.
Proof. done. Qed.
