(* ===== verification/PageManager.v ===== *)
(** * The page manager of TASK/24-10-2025/pages_memory_manager.c

    The page table is the array of its flags; the commands are the choices of the
    menu with the numbers typed after them.  Only the printed usage is kept of the
    output of [print_page_table]. *)
From S2P Require Import Prelude.

(** ** The program *)

Definition TOTAL_PAGES : Z := 16.
Definition FREE : Z := 0.
Definition USED : Z := 1.

Definition init_pages : list Z := replicate (Z.to_nat TOTAL_PAGES) FREE.

(** the pages used, as printed *)
Definition print_page_table (page_table : list Z) : Z :=
  fold_left (fun used p => if p =? USED then used + 1 else used) page_table 0.

(** the loop of [find_free_block] at page [i] with [count] free pages behind it *)
Fixpoint find_loop (pages : list Z) (i count n : Z) : Z :=
  match pages with
  | [] => -1
  | p :: pages' =>
      if p =? FREE then
        if count + 1 =? n then i - n + 1 else find_loop pages' (i + 1) (count + 1) n
      else find_loop pages' (i + 1) 0 n
  end.

Definition find_free_block (page_table : list Z) (n : Z) : Z := find_loop page_table 0 0 n.

(** the loops that write [v] into [k] pages from [i] *)
Fixpoint set_pages (k : nat) (i v : Z) (page_table : list Z) : outcome (list Z) :=
  match k with
  | O => Done page_table
  | S k => page_table ← arr_set page_table i v; set_pages k (i + 1) v page_table
  end.

(** the messages *)
Inductive reply :=
| InvalidNumber | NotEnough | Allocated (n start : Z)
| InvalidRange | Freed (n start : Z) (warnings : list Z) | Usage (used : Z) | InvalidChoice.

Definition allocate_pages (n : Z) (page_table : list Z) : outcome (reply * list Z) :=
  if (n <=? 0) || (n >? TOTAL_PAGES) then Done (InvalidNumber, page_table) else
  let start := find_free_block page_table n in
  if start =? -1 then Done (NotEnough, page_table) else
  page_table ← set_pages (Z.to_nat n) start USED page_table;
  Done (Allocated n start, page_table).

(** the pages of the range that are free already *)
Definition free_warnings (start n : Z) (page_table : list Z) : list Z :=
  filter (fun i => page_table !! Z.to_nat i = Some FREE) (seqZ start n).

Definition free_pages (start n : Z) (page_table : list Z) : outcome (reply * list Z) :=
  invalid ← (if (start <? 0) || (start >=? TOTAL_PAGES) || (n <=? 0) then Done true
             else stop ← int_chk (start + n); Done (stop >? TOTAL_PAGES));
  if (invalid : bool) then Done (InvalidRange, page_table) else
  let warnings := free_warnings start n page_table in
  page_table ← set_pages (Z.to_nat n) start FREE page_table;
  Done (Freed n start warnings, page_table).

Inductive command := Allocate (n : Z) | Free (start n : Z) | Show | Exit | Other.

Fixpoint main_loop (input : list command) (page_table : list Z) : outcome (list reply * list Z) :=
  match input with
  | [] | Exit :: _ => Done ([], page_table)
  | c :: input' =>
      '(r, page_table) ←
        match c with
        | Allocate n => allocate_pages n page_table
        | Free start n => free_pages start n page_table
        | Show => Done (Usage (print_page_table page_table), page_table)
        | _ => Done (InvalidChoice, page_table)
        end;
      '(rs, page_table) ← main_loop input' page_table; Done (r :: rs, page_table)
  end.

Definition main (input : list command) : outcome (list reply * list Z) := main_loop input init_pages.

(** ** Specification *)

Definition table_ok (t : list Z) : Prop :=
  length t = Z.to_nat TOTAL_PAGES /\ Forall (fun p => p = FREE \/ p = USED) t.

(** pages [start] to [start + n - 1] exist and are free *)
Definition free_run (t : list Z) (start n : Z) : Prop :=
  0 <= start /\ start + n <= Z.of_nat (length t) /\
  forall i, start <= i < start + n -> t !! Z.to_nat i = Some FREE.

(** [t'] is [t] with [v] in the pages of the range *)
Definition filled (t t' : list Z) (start n v : Z) : Prop :=
  length t' = length t /\
  forall i, 0 <= i < Z.of_nat (length t) ->
    t' !! Z.to_nat i = if decide (start <= i < start + n) then Some v else t !! Z.to_nat i.

(** the commands whose range check does not overflow an int *)
Definition no_overflow (c : command) : Prop :=
  match c with Free start n => 0 <= start < TOTAL_PAGES -> n <= int_max - start | _ => True end.

(** ** Lemmas *)

(** the loop at page [length t1]: the last [count] pages of [t1] are free, and no run
    of [n] free pages ends inside [t1] *)
Lemma find_loop_ok t1 t2 count n :
  1 <= n -> 0 <= count < n -> count <= Z.of_nat (length t1) ->
  (forall i, Z.of_nat (length t1) - count <= i < Z.of_nat (length t1) -> t1 !! Z.to_nat i = Some FREE) ->
  (0 < Z.of_nat (length t1) - count -> t1 !! Z.to_nat (Z.of_nat (length t1) - count - 1) <> Some FREE) ->
  (forall s, free_run (t1 ++ t2) s n -> Z.of_nat (length t1) - count <= s) ->
  let r := find_loop t2 (Z.of_nat (length t1)) count n in
  (r = -1 /\ (forall s, ~ free_run (t1 ++ t2) s n)) \/
  (free_run (t1 ++ t2) r n /\ forall s, free_run (t1 ++ t2) s n -> r <= s).
Proof.
  intros Hn. revert t1 count. induction t2 as [|p t2 IH]; intros t1 count Hc Hlen Hfree Hstop Hno; simpl.
  - left. split; [done|]. intros s Hs. pose proof (Hno s Hs). destruct Hs as (? & Hs & _).
    rewrite length_app in Hs. simpl in Hs. lia.
  - assert (t1 ++ p :: t2 = (t1 ++ [p]) ++ t2) as Heq by by rewrite <- app_assoc.
    assert (Z.of_nat (length (t1 ++ [p])) = Z.of_nat (length t1) + 1) as Hl1 by (rewrite length_app; simpl; lia).
    assert (forall i, Z.of_nat (length t1) - count <= i < Z.of_nat (length t1) ->
      (t1 ++ [p]) !! Z.to_nat i = Some FREE) as Hfree'.
    { intros i Hi. rewrite lookup_app_l by lia. by apply Hfree. }
    assert ((t1 ++ [p]) !! length t1 = Some p) as Hp by by apply list_lookup_middle.
    destruct (Z.eqb_spec p FREE) as [->|Hpf].
    + assert (forall i, Z.of_nat (length t1) - count <= i < Z.of_nat (length t1) + 1 ->
        (t1 ++ [FREE]) !! Z.to_nat i = Some FREE) as Hrun.
      { intros i Hi. destruct (decide (i = Z.of_nat (length t1))) as [->|]; [by rewrite Nat2Z.id|apply Hfree'; lia]. }
      destruct (Z.eqb_spec (count + 1) n) as [Hcn|Hcn].
      * right. split.
        -- split_and!; [lia|rewrite length_app; simpl; lia|]. intros i Hi. rewrite Heq, lookup_app_l by lia.
           apply Hrun. lia.
        -- intros s Hs%Hno. lia.
      * rewrite <- Hl1, Heq. apply IH; [lia|lia| | |].
        -- intros i Hi. apply Hrun. lia.
        -- intros Hpos. rewrite Hl1 in *. rewrite lookup_app_l by lia.
           replace (Z.of_nat (length t1) + 1 - (count + 1) - 1) with (Z.of_nat (length t1) - count - 1) by lia.
           apply Hstop. lia.
        -- intros s Hs. rewrite <- Heq in Hs. specialize (Hno s Hs). lia.
    + rewrite <- Hl1, Heq. apply IH; [lia|lia|lia| |].
      * intros _. rewrite Hl1. replace (Z.to_nat (Z.of_nat (length t1) + 1 - 0 - 1)) with (length t1) by lia.
        rewrite Hp. congruence.
      * intros s Hs. rewrite <- Heq in Hs. pose proof (Hno s Hs) as Hs1. destruct Hs as (Hs0 & Hs2 & Hs).
        destruct (Z.le_gt_cases (Z.of_nat (length t1) + 1) s); [lia|]. exfalso.
        specialize (Hs (Z.of_nat (length t1)) ltac:(lia)). rewrite Nat2Z.id, Heq, lookup_app_l in Hs by lia.
        congruence.
Qed.

Lemma find_free_block_ok t n : 1 <= n ->
  let r := find_free_block t n in
  (r = -1 /\ (forall s, ~ free_run t s n)) \/ (free_run t r n /\ forall s, free_run t s n -> r <= s).
Proof.
  intros Hn. apply (find_loop_ok [] t 0 n); simpl; [lia|lia|lia|lia|lia|]. intros s (? & _). lia.
Qed.

Lemma set_pages_ok k i v t : 0 <= i -> i + Z.of_nat k <= Z.of_nat (length t) ->
  exists t', set_pages k i v t = Done t' /\ filled t t' i (Z.of_nat k) v.
Proof.
  revert i t. induction k as [|k IH]; intros i t Hi Hk; cbn [set_pages].
  - exists t. split; [done|]. split; [done|]. intros j Hj. by rewrite decide_False by lia.
  - rewrite arr_set_in by lia. simpl. destruct (IH (i + 1) (<[Z.to_nat i := v]> t)) as (t' & Heq & Hl & Ht').
    { lia. }
    { rewrite length_insert. lia. }
    rewrite length_insert in *. exists t'. split; [done|]. split; [done|]. intros j Hj. rewrite Ht' by lia.
    destruct (decide (i + 1 <= j < i + 1 + Z.of_nat k)).
    + by rewrite decide_True by lia.
    + destruct (decide (i <= j < i + Z.of_nat (S k))).
      * assert (j = i) as -> by lia. apply list_lookup_insert_eq. lia.
      * apply list_lookup_insert_ne. lia.
Qed.

Lemma filled_table_ok t t' s n v : table_ok t -> filled t t' s n v -> v = FREE \/ v = USED -> table_ok t'.
Proof.
  intros [Hl Hf] [Hl' Ht'] Hv. split; [by rewrite Hl'|]. apply Forall_lookup. intros i p Hp.
  pose proof (lookup_lt_Some _ _ _ Hp). specialize (Ht' (Z.of_nat i) ltac:(lia)). rewrite Nat2Z.id, Hp in Ht'.
  destruct (decide _); [congruence|]. exact (Forall_lookup_1 _ _ _ _ Hf (eq_sym Ht')).
Qed.

Lemma free_run_length t n s : table_ok t -> free_run t s n -> 0 <= s /\ s + n <= TOTAL_PAGES.
Proof. unfold TOTAL_PAGES. intros [Hl _] (H0 & Hn & _). unfold TOTAL_PAGES in Hl. lia. Qed.

Lemma allocate_pages_ok n t : table_ok t -> exists r t', allocate_pages n t = Done (r, t') /\ table_ok t' /\
  match r with
  | Allocated n' start => n' = n /\ 1 <= n /\ free_run t start n /\
      (forall s, free_run t s n -> start <= s) /\ filled t t' start n USED
  | _ => t' = t /\ (1 <= n -> forall s, ~ free_run t s n)
  end.
Proof.
  intros Hok. unfold allocate_pages. destruct (_ || _) eqn:Hr.
  { exists InvalidNumber, t. split; [done|]. split; [done|]. split; [done|]. intros Hn s Hs.
    apply (free_run_length _ _ _ Hok) in Hs. unfold TOTAL_PAGES in *. zcases_in Hr; simpl in Hr; lia || done. }
  assert (1 <= n) as Hn by (zcases_in Hr; simpl in Hr; lia || done).
  destruct (find_free_block_ok t n Hn) as [[-> Hnone]|[Hrun Hmin]].
  { exists NotEnough, t. split; [done|]. by split_and!. }
  set (start := find_free_block t n) in *. destruct (Z.eqb_spec start (-1)) as [Hs|Hs].
  { destruct Hrun as (? & _). lia. }
  destruct (set_pages_ok (Z.to_nat n) start USED t) as (t' & Heq & Hf).
  { by destruct Hrun. }
  { destruct Hrun as (_ & ? & _). lia. }
  rewrite Z2Nat.id in Hf by lia. rewrite Heq. exists (Allocated n start), t'. split; [done|].
  split; [eapply filled_table_ok; eauto|]. by split_and!.
Qed.

Lemma free_pages_ok start n t : table_ok t -> no_overflow (Free start n) ->
  exists r t', free_pages start n t = Done (r, t') /\ table_ok t' /\
  match r with
  | Freed n' start' w => n' = n /\ start' = start /\ 0 <= start /\ 1 <= n /\ start + n <= TOTAL_PAGES /\
      filled t t' start n FREE /\ w = free_warnings start n t
  | _ => t' = t /\ ~ (0 <= start /\ 1 <= n /\ start + n <= TOTAL_PAGES)
  end.
Proof.
  intros Hok Hov. unfold free_pages. simpl in Hov. destruct (_ || _) eqn:Hr.
  { exists InvalidRange, t. split; [done|]. split; [done|]. split; [done|].
    unfold TOTAL_PAGES in *. zcases_in Hr; simpl in Hr; lia || done. }
  assert (0 <= start < TOTAL_PAGES /\ 1 <= n) as [Hs Hn]
    by (unfold TOTAL_PAGES in *; zcases_in Hr; simpl in Hr; lia || done).
  unfold int_chk. rewrite bool_decide_true.
  2: { specialize (Hov Hs). unfold in_int, int_min, int_max, TOTAL_PAGES in *. lia. }
  simpl. rewrite Z.gtb_ltb. destruct (Z.ltb_spec TOTAL_PAGES (start + n)).
  { exists InvalidRange, t. split; [done|]. split; [done|]. split; [done|]. lia. }
  destruct (set_pages_ok (Z.to_nat n) start FREE t) as (t' & Heq & Hf).
  { lia. }
  { destruct Hok as [-> _]. unfold TOTAL_PAGES in *. lia. }
  rewrite Z2Nat.id in Hf by lia. rewrite Heq. eexists (Freed n start _), t'. split; [done|].
  split; [eapply filled_table_ok; eauto|]. split_and!; by first [done|lia].
Qed.

Lemma pages_loop_ok input t : table_ok t -> Forall no_overflow input ->
  exists rs t', main_loop input t = Done (rs, t') /\ table_ok t'.
Proof.
  intros Hok Hin. revert t Hok. induction Hin as [|c input Hc Hin IH]; intros t Hok; [by exists [], t|].
  destruct c as [n|start n| | |]; cbn [main_loop].
  - destruct (allocate_pages_ok n t Hok) as (r & t1 & -> & Hok1 & _). simpl.
    destruct (IH t1 Hok1) as (rs & t2 & -> & Hok2). by eexists _, t2.
  - destruct (free_pages_ok start n t Hok Hc) as (r & t1 & -> & Hok1 & _). simpl.
    destruct (IH t1 Hok1) as (rs & t2 & -> & Hok2). by eexists _, t2.
  - simpl. destruct (IH t Hok) as (rs & t2 & -> & Hok2). by eexists _, t2.
  - by exists [], t.
  - simpl. destruct (IH t Hok) as (rs & t2 & -> & Hok2). by eexists _, t2.
Qed.

Lemma init_pages_ok : table_ok init_pages.
Proof. split; [done|]. apply Forall_replicate. by left. Qed.

(** ** Properties *)

(** [allocate_pages] finds room whenever there is some: for a count of 1 or more
    it fails only if no run of that many free pages exists; otherwise it takes the
    lowest such run, marks exactly its pages as used and never a page that was in use. *)
Theorem allocate_pages_correct n t : table_ok t ->
  exists r t', allocate_pages n t = Done (r, t') /\ table_ok t' /\
  match r with
  | Allocated n' start => n' = n /\ 1 <= n /\ free_run t start n /\
      (forall s, free_run t s n -> start <= s) /\ filled t t' start n USED
  | _ => t' = t /\ (1 <= n -> forall s, ~ free_run t s n)
  end.
Proof. apply allocate_pages_ok. Qed.

Lemma allocate_pages_correct_witness :
  exists t', allocate_pages 3 (USED :: FREE :: USED :: replicate 13 FREE) = Done (Allocated 3 3, t') /\ table_ok t'.
Proof.
  destruct (allocate_pages_correct 3 (USED :: FREE :: USED :: replicate 13 FREE)) as (r & t' & Heq & Hok & _).
  - split; [done|]. repeat (constructor; [by first [by left|by right]|]). constructor.
  - exists t'. split; [|done]. rewrite Heq. vm_compute in Heq. by injection Heq as <- <-.
Defined.

(** Every session of the menu that does not overflow the range check of
    [free_pages] runs without an access outside the table, which keeps its length and
    holds only FREE and USED. *)
Theorem pages_main_safe input : Forall no_overflow input ->
  exists rs t, main input = Done (rs, t) /\ table_ok t.
Proof. intros Hin. apply pages_loop_ok; [apply init_pages_ok|done]. Qed.

Lemma pages_main_safe_witness : exists rs t,
  main [Allocate 4; Allocate 20; Free 2 1; Free 15 3; Allocate 2; Show; Exit] = Done (rs, t) /\ table_ok t.
Proof.
  apply (pages_main_safe [Allocate 4; Allocate 20; Free 2 1; Free 15 3; Allocate 2; Show; Exit]).
  repeat constructor; simpl; unfold int_max; lia.
Defined.

(** The range check adds two numbers typed by the user. *)
Lemma free_pages_overflow : free_pages 15 int_max init_pages = Undef.
Proof. by vm_compute. Qed.
