(* ===== verification/BloomFilter.v ===== *)
(** * The Bloom filter of BloomFilter/BloomFilter.c

    The array is declared [bloom_fliter] and used as [bloom_filter], so the file does
    not compile as it stands; the model is the program with one name for it.  [char]
    is signed, and [%] keeps the sign of the dividend. *)
From S2P Require Import Prelude.

(** ** The program *)

Definition BLOOM_SIZE : Z := 20.

Abbreviation bloom := (list Z).

Fixpoint sum_one (word : string) (sum : Z) : outcome Z :=
  match word with
  | EmptyString => Done sum
  | String c word' => sum ← int_chk (sum + schar c); sum_one word' sum
  end.

Definition hashFunctionOne (word : string) : outcome Z :=
  sum ← sum_one word 0; Done (Z.rem sum BLOOM_SIZE).

Fixpoint sum_two (word : string) (i sum : Z) : outcome Z :=
  match word with
  | EmptyString => Done sum
  | String c word' =>
      t ← int_chk ((i + 1) * schar c); sum ← int_chk (sum + t); sum_two word' (i + 1) sum
  end.

Definition hashFunctionTwo (word : string) : outcome Z :=
  sum ← sum_two word 0 0; Done (Z.rem sum BLOOM_SIZE).

Definition insert (word : string) (b : bloom) : outcome bloom :=
  firstIndex ← hashFunctionOne word; secondIndex ← hashFunctionTwo word;
  b ← arr_set b firstIndex 1; arr_set b secondIndex 1.

Definition search (word : string) (b : bloom) : outcome Z :=
  firstIndex ← hashFunctionOne word; secondIndex ← hashFunctionTwo word;
  found ← (x ← arr_get b firstIndex;
           if x =? 1 then y ← arr_get b secondIndex; Done (y =? 1) else Done false);
  Done (if found : bool then 1 else 0).

Definition empty_bloom : bloom := replicate (Z.to_nat BLOOM_SIZE) 0.

Definition insert_all (words : list string) (b : bloom) : outcome bloom :=
  fold_left (fun b w => b ← b; insert w b) words (Done b).

(** the answers to the two searches *)
Definition main : outcome (Z * Z) :=
  b ← insert_all ["cat"; "dog"; "rat"; "bat"] empty_bloom;
  r1 ← search "cat" b;
  b ← arr_set b 9 1; b ← arr_set b 18 1;
  r2 ← search "cow" b;
  Done (r1, r2).

(** ** Specification *)

(** words of 7-bit characters that are short enough for the weighted sum *)
Fixpoint plain (word : string) : bool :=
  match word with EmptyString => true | String c w => (0 <=? schar c) && plain w end.

Definition hashable (word : string) : Prop := plain word = true /\ (strlen word <= 4000)%nat.

(** ** Lemmas *)

Lemma schar_max c : schar c <= 127.
Proof. unfold schar. pose proof (Ascii.N_ascii_bounded c). zcases; lia. Qed.

Lemma sum_one_ok word sum : plain word = true -> 0 <= sum ->
  sum + 127 * Z.of_nat (strlen word) <= int_max ->
  exists r, sum_one word sum = Done r /\ 0 <= r.
Proof.
  revert sum. induction word as [|c word IH]; intros sum; cbn [plain sum_one strlen]; [by exists sum|].
  intros [Hc Hp]%andb_true_iff Hs Hb. apply Z.leb_le in Hc. pose proof (schar_max c).
  rewrite int_chk_ok by (unfold int_min in *; lia). simpl. apply IH; [done|lia|lia].
Qed.

Lemma sum_two_ok word i sum n : plain word = true -> 0 <= i -> 0 <= sum ->
  i + Z.of_nat (strlen word) <= n -> sum + n * 127 * Z.of_nat (strlen word) <= int_max ->
  exists r, sum_two word i sum = Done r /\ 0 <= r.
Proof.
  revert i sum. induction word as [|c word IH]; intros i sum; cbn [plain sum_two strlen]; [by exists sum|].
  intros [Hc Hp]%andb_true_iff Hi Hs Hn Hb. apply Z.leb_le in Hc. pose proof (schar_max c).
  rewrite Nat2Z.inj_succ in *. rewrite Z.mul_succ_r in Hb.
  assert (0 <= (i + 1) * schar c <= n * 127) by nia.
  assert (0 <= n * 127 * Z.of_nat (strlen word)) by nia.
  rewrite int_chk_ok by (unfold int_min in *; lia). simpl. rewrite int_chk_ok by (unfold int_min in *; lia). simpl. apply IH; [done|lia..].
Qed.

Lemma rem_index z : 0 <= z -> 0 <= Z.rem z BLOOM_SIZE < BLOOM_SIZE.
Proof. intros Hz. unfold BLOOM_SIZE. apply Z.rem_bound_pos; lia. Qed.

Lemma hashes_ok word : hashable word ->
  exists i j, hashFunctionOne word = Done i /\ hashFunctionTwo word = Done j /\
    0 <= i < BLOOM_SIZE /\ 0 <= j < BLOOM_SIZE.
Proof.
  intros [Hp Hl]. unfold hashFunctionOne, hashFunctionTwo.
  destruct (sum_one_ok word 0 Hp) as (a & -> & Ha); [done|unfold int_max; lia|].
  destruct (sum_two_ok word 0 0 4000 Hp) as (b & -> & Hb); [done|done|lia|unfold int_max; lia|].
  exists (Z.rem a BLOOM_SIZE), (Z.rem b BLOOM_SIZE). split_and!; by first [done|apply rem_index].
Qed.

(** bits are only ever set *)
Definition grows (b b' : bloom) : Prop :=
  length b' = length b /\ forall i, b !! i = Some 1 -> b' !! i = Some 1.

Lemma set_grows b i : 0 <= i < Z.of_nat (length b) ->
  exists b', arr_set b i 1 = Done b' /\ grows b b' /\ b' !! Z.to_nat i = Some 1.
Proof.
  intros Hi. rewrite arr_set_in by done. eexists. split; [done|]. split.
  - split; [by rewrite length_insert|]. intros k Hk. destruct (decide (k = Z.to_nat i)) as [->|Hne].
    + apply list_lookup_insert_eq. lia.
    + by rewrite list_lookup_insert_ne.
  - apply list_lookup_insert_eq. lia.
Qed.

Lemma bloom_insert_ok word b : hashable word -> length b = Z.to_nat BLOOM_SIZE ->
  exists i j b', hashFunctionOne word = Done i /\ hashFunctionTwo word = Done j /\
    0 <= i /\ 0 <= j /\ insert word b = Done b' /\ grows b b' /\
    b' !! Z.to_nat i = Some 1 /\ b' !! Z.to_nat j = Some 1.
Proof.
  intros Hw Hl. destruct (hashes_ok word Hw) as (i & j & Hi & Hj & Hib & Hjb).
  destruct (set_grows b i) as (b1 & Hb1 & [Hl1 Hg1] & Hi1); [unfold BLOOM_SIZE in *; lia|].
  destruct (set_grows b1 j) as (b2 & Hb2 & [Hl2 Hg2] & Hj2); [unfold BLOOM_SIZE in *; lia|].
  exists i, j, b2. split_and!; [done|done|lia|lia| | |by apply Hg2|done].
  - unfold insert. rewrite Hi, Hj. simpl. by rewrite Hb1.
  - split; [by rewrite Hl2|auto].
Qed.

Lemma bloom_insert_all_ok words b : Forall hashable words -> length b = Z.to_nat BLOOM_SIZE ->
  exists b', insert_all words b = Done b' /\ grows b b'.
Proof.
  intros Hw. revert b. induction Hw as [|w words Hw _ IH]; intros b Hl; [exists b; by split|].
  destruct (bloom_insert_ok w b Hw Hl) as (_ & _ & b1 & _ & _ & _ & _ & Heq & [Hl1 Hg1] & _).
  destruct (IH b1) as (b2 & Heq2 & Hl2 & Hg2); [by rewrite Hl1|].
  exists b2. split; [|split; [by rewrite Hl2|auto]].
  unfold insert_all in *. cbn [fold_left]. change (Done b ≫= (fun b => insert w b)) with (insert w b).
  by rewrite Heq.
Qed.

(** ** Properties *)

(** The filter has no false negatives: a word of up to 4000 7-bit characters that
    was inserted is found whatever was inserted before and after it; no insertion or
    search of such words overflows or leaves the array. *)
Theorem no_false_negatives before w after :
  Forall hashable (before ++ w :: after) ->
  exists b, insert_all (before ++ w :: after) empty_bloom = Done b /\ search w b = Done 1.
Proof.
  intros [Hb [Hw Ha]%Forall_cons]%Forall_app.
  destruct (bloom_insert_all_ok before empty_bloom Hb) as (b1 & H1 & Hl1 & _); [done|].
  destruct (bloom_insert_ok w b1 Hw) as (i & j & b2 & Hi & Hj & Hi0 & Hj0 & H2 & [Hl2 _] & Hbi & Hbj); [by rewrite Hl1|].
  destruct (bloom_insert_all_ok after b2 Ha) as (b3 & H3 & _ & Hg3); [by rewrite Hl2, Hl1|].
  exists b3. split.
  - unfold insert_all in *. rewrite fold_left_app, H1. cbn [fold_left].
    change (Done b1 ≫= (fun b => insert w b)) with (insert w b1). by rewrite H2.
  - unfold search. rewrite Hi, Hj. simpl.
    rewrite (proj2 (arr_get_Done b3 i 1)) by (split; [lia|by apply Hg3]). simpl.
    by rewrite (proj2 (arr_get_Done b3 j 1)) by (split; [lia|by apply Hg3]).
Qed.

Lemma no_false_negatives_witness :
  exists b, insert_all ["cat"; "dog"; "rat"; "bat"] empty_bloom = Done b /\ search "dog" b = Done 1.
Proof.
  apply (no_false_negatives ["cat"] "dog" ["rat"; "bat"]).
  repeat (constructor; [split; [by vm_compute|simpl; lia]|]). constructor.
Defined.

Lemma main_answers : exists r, main = Done (1, r).
Proof. eexists. by vm_compute. Qed.

(** A byte of 128 or more is a negative [char] and makes a negative index. *)
Lemma negative_char_undef : insert (String "195" (String "169" "")) empty_bloom = Undef.
Proof. by vm_compute. Qed.
