(* ===== verification/HashTable.v ===== *)
(** * The chained hash table of HashTable/hashTable.c

    The nodes live on a heap, so that the walk of [insert] that goes on after it has
    freed its new node is modelled as it is. *)
From S2P Require Import Prelude LinkedHeap.

(** ** The program *)

Definition TABLE_SIZE : Z := 10.

Record Node := mkNode { key : string; value : Z; next : ptr }.

Record table := mkTable { nodes : gmap loc Node; hashTable : list ptr }.

#[export] Instance table_heap : HeapState table Node.
Proof.
  refine {| heap_of := nodes; with_heap h t := mkTable h (hashTable t) |}; done.
Defined.

#[export] Instance Node_list : SLNode Node (string * Z).
Proof.
  refine {| snx := next; spay n := (key n, value n); set_snx p n := mkNode (key n) (value n) p |}; done.
Defined.

Fixpoint hash_loop (s : string) (hashValue : Z) : Z :=
  match s with
  | EmptyString => hashValue
  | String c s' => hash_loop s' (u32 (u32 (hashValue * 31) + schar c))
  end.

Definition hash (k : string) : Z := hash_loop k 0 mod TABLE_SIZE.

Definition get_bucket (i : Z) : cmd table ptr := t ← get; lift (arr_get (hashTable t) i).
Definition set_bucket (i : Z) (p : ptr) : cmd table unit :=
  t ← get; l ← lift (arr_set (hashTable t) i p); modify (fun t => mkTable (nodes t) l).

Definition set_value (v : Z) (n : Node) : Node := mkNode (key n) v (next n).

(** [while (temp->next != NULL)] and what follows it *)
Fixpoint insert_walk (fuel : nat) (k : string) (v : Z) (newNode temp : ptr) : cmd table unit :=
  match fuel with
  | O => fun _ => OutOfFuel
  | S fuel =>
      t ← load temp;
      match next t with
      | Some _ =>
          _ ← (if streq (key t) k then _ ← update temp (set_value v); free newNode else mret tt);
          insert_walk fuel k v newNode (next t)
      | None =>
          if streq (key t) k then _ ← update temp (set_value v); free newNode
          else update temp (set_snx newNode)
      end
  end.

(** [strcpy] into a key of 50 bytes *)
Definition insert (k : string) (v : Z) : cmd table unit := fun s =>
  (index ← mret (hash k);
   if (49 <? strlen k)%nat then undef else
   newNode ← alloc (mkNode k v None);
   b ← get_bucket index;
   match b with
   | None => set_bucket index newNode
   | Some _ => insert_walk (S (size (nodes s))) k v newNode b
   end) s.

Fixpoint search_walk (fuel : nat) (k : string) (temp : ptr) : cmd table Z :=
  match temp with
  | None => mret (-1)
  | Some _ =>
      match fuel with
      | O => fun _ => OutOfFuel
      | S fuel => t ← load temp; if streq (key t) k then mret (value t) else search_walk fuel k (next t)
      end
  end.

Definition search (k : string) : cmd table Z := fun s =>
  (temp ← get_bucket (hash k); search_walk (S (size (nodes s))) k temp) s.

(** whether the key was there *)
Fixpoint delete_walk (fuel : nat) (k : string) (index : Z) (prev temp : ptr) : cmd table bool :=
  match temp with
  | None => mret false
  | Some _ =>
      match fuel with
      | O => fun _ => OutOfFuel
      | S fuel =>
          t ← load temp;
          if streq (key t) k then
            _ ← (match prev with
                 | None => set_bucket index (next t)
                 | Some _ => update prev (set_snx (next t))
                 end);
            _ ← free temp; mret true
          else delete_walk fuel k index temp (next t)
      end
  end.

Definition delete (k : string) : cmd table bool := fun s =>
  (temp ← get_bucket (hash k); delete_walk (S (size (nodes s))) k (hash k) None temp) s.

Definition init : table := mkTable ∅ (replicate (Z.to_nat TABLE_SIZE) None).

(** the answers of the searches and deletions of [main] *)
Definition main : outcome (Z * Z * bool * bool) :=
  r ← (_ ← insert "orange" 200; _ ← insert "banana" 500; _ ← insert "orange" 300;
       _ ← insert "grape" 400; _ ← insert "apple" 150;
       a ← search "banana"; b ← search "mango"; c ← delete "orange"; d ← delete "mango";
       mret (a, b, c, d)) init;
  Done r.1.

(** ** Specification: a map from keys to values, in chains per hash *)

Abbreviation chain := (list (loc * (string * Z))).

Record table_ok (bs : list chain) (s : table) : Prop := {
  ok_len : length (hashTable s) = Z.to_nat TABLE_SIZE;
  ok_chains : length bs = Z.to_nat TABLE_SIZE;
  ok_heads : forall i b, bs !! i = Some b -> hashTable s !! i = Some (firstp b None);
  ok_lists : forall i b, bs !! i = Some b -> sll (nodes s) b None;
  ok_hash : forall i b x, bs !! i = Some b -> x ∈ b -> hash x.2.1 = Z.of_nat i;
  ok_keys : forall i b, bs !! i = Some b -> NoDup b.*2.*1;
  ok_locs : forall i b, bs !! i = Some b -> NoDup b.*1;
  ok_apart : forall i j b c p, bs !! i = Some b -> bs !! j = Some c -> p ∈ b.*1 -> p ∈ c.*1 -> i = j;
}.

Definition bucket (k : string) (bs : list chain) : chain := default [] (bs !! Z.to_nat (hash k)).

(** the value of a key *)
Definition lookup_key (k : string) (bs : list chain) : option Z := assoc k (bucket k bs).*2.

(** ** Lemmas *)

Lemma table_hash_range k : 0 <= hash k < TABLE_SIZE.
Proof. apply Z.mod_pos_bound. done. Qed.

Lemma load_node (s : table) p n : nodes s !! p = Some n -> load (Some p) s = Done (n, s).
Proof. intros H. unfold load. simpl. by rewrite H. Qed.

Lemma update_node (s : table) p f n : nodes s !! p = Some n ->
  update (Some p) f s = Done (tt, mkTable (alter f p (nodes s)) (hashTable s)).
Proof. intros H. unfold update. simpl. by rewrite H. Qed.

Lemma free_node (s : table) p n : nodes s !! p = Some n ->
  free (Some p) s = Done (tt, mkTable (base.delete p (nodes s)) (hashTable s)).
Proof. intros H. unfold free. simpl. by rewrite H. Qed.

Section table.
Context (bs : list chain) (s : table) (Hok : table_ok bs s).

Lemma bucket_lookup k : bs !! Z.to_nat (hash k) = Some (bucket k bs).
Proof.
  unfold bucket. destruct (lookup_lt_is_Some_2 bs (Z.to_nat (hash k))) as [b Hb]; [|by rewrite Hb].
  rewrite (ok_chains _ _ Hok). pose proof (table_hash_range k). lia.
Qed.

Lemma get_bucket_ok k : get_bucket (hash k) s = Done (firstp (bucket k bs) None, s).
Proof.
  unfold get_bucket, mbind, cmd_bind, get, lift. pose proof (table_hash_range k).
  rewrite (proj2 (arr_get_Done _ _ (firstp (bucket k bs) None))); [done|]. split; [lia|]. apply (ok_heads _ _ Hok), bucket_lookup.
Qed.

Lemma bucket_list k : sll (nodes s) (bucket k bs) None.
Proof. apply (ok_lists _ _ Hok _ _ (bucket_lookup k)). Qed.

Lemma bucket_locs k : NoDup (bucket k bs).*1.
Proof. apply (ok_locs _ _ Hok _ _ (bucket_lookup k)). Qed.

Lemma bucket_fuel k : (length (bucket k bs) <= size (nodes s))%nat.
Proof. eapply sll_fuel; [apply bucket_list|apply bucket_locs]. Qed.

(** replacing the chain of one bucket by [b']; [s'] agrees with [s] on the others *)
Lemma table_update k b' s' :
  hashTable s' = <[Z.to_nat (hash k) := firstp b' None]> (hashTable s) ->
  sll (nodes s') b' None -> NoDup b'.*1 -> NoDup b'.*2.*1 ->
  (forall x, x ∈ b' -> hash x.2.1 = hash k) ->
  (forall p, p ∈ b'.*1 -> p ∈ (bucket k bs).*1 \/ nodes s !! p = None) ->
  (forall p, p ∉ (bucket k bs).*1 -> is_Some (nodes s !! p) -> nodes s' !! p = nodes s !! p) ->
  table_ok (<[Z.to_nat (hash k) := b']> bs) s'.
Proof.
  intros Hh Hl Hn Hk Hhash Hold Hframe. pose proof (bucket_lookup k) as Hb.
  set (i := Z.to_nat (hash k)) in *. set (b := bucket k bs) in *.
  assert (i < length bs)%nat as Hi by (by eapply lookup_lt_Some).
  assert (forall j c, bs !! j = Some c -> j <> i -> forall p, p ∈ c.*1 -> is_Some (nodes s !! p) /\ p ∉ b.*1) as Hother.
  { intros j c Hc Hj p Hp. split.
    - apply list_elem_of_fmap in Hp as (x & -> & Hx).
      destruct (sll_elem _ _ _ _ (ok_lists _ _ Hok _ _ Hc) Hx) as (v & Hv & _). by eexists.
    - intros Hpb. by apply Hj, (ok_apart _ _ Hok j i c b p). }
  split; rewrite ?length_insert; [by rewrite Hh, length_insert; apply Hok|apply Hok|..].
  - intros j c Hc. rewrite Hh. destruct (decide (j = i)) as [->|Hj].
    + rewrite list_lookup_insert_eq in Hc by done. injection Hc as <-.
      apply list_lookup_insert_eq. rewrite (ok_len _ _ Hok), <- (ok_chains _ _ Hok). done.
    + rewrite list_lookup_insert_ne in Hc by done. rewrite list_lookup_insert_ne by done. by apply Hok.
  - intros j c Hc. destruct (decide (j = i)) as [->|Hj].
    + rewrite list_lookup_insert_eq in Hc by done. by injection Hc as <-.
    + rewrite list_lookup_insert_ne in Hc by done. apply (sll_frame (nodes s)); [|by apply (ok_lists _ _ Hok j)].
      intros p Hp. destruct (Hother j c Hc Hj p Hp). by apply Hframe.
  - intros j c x Hc. destruct (decide (j = i)) as [->|Hj].
    + rewrite list_lookup_insert_eq in Hc by done. injection Hc as <-. intros Hx. rewrite Hhash by done.
      unfold i. pose proof (table_hash_range k). lia.
    + rewrite list_lookup_insert_ne in Hc by done. by apply Hok.
  - intros j c Hc. destruct (decide (j = i)) as [->|Hj].
    + rewrite list_lookup_insert_eq in Hc by done. by injection Hc as <-.
    + rewrite list_lookup_insert_ne in Hc by done. by apply (ok_keys _ _ Hok j).
  - intros j c Hc. destruct (decide (j = i)) as [->|Hj].
    + rewrite list_lookup_insert_eq in Hc by done. by injection Hc as <-.
    + rewrite list_lookup_insert_ne in Hc by done. by apply (ok_locs _ _ Hok j).
  - assert (forall j c p, bs !! j = Some c -> j <> i -> p ∈ c.*1 -> p ∈ b'.*1 -> False) as Hno.
    { intros j c p Hc Hj Hp Hp'. destruct (Hother j c Hc Hj p Hp) as [[v Hv] Hnb].
      destruct (Hold p Hp') as [|Hnone]; [done|congruence]. }
    intros j1 j2 c1 c2 p Hc1 Hc2 Hp1 Hp2.
    destruct (decide (j1 = i)) as [->|Hj1], (decide (j2 = i)) as [->|Hj2]; [done|..];
      rewrite ?list_lookup_insert_eq in Hc1 by done; rewrite ?list_lookup_insert_ne in Hc1 by done;
      rewrite ?list_lookup_insert_eq in Hc2 by done; rewrite ?list_lookup_insert_ne in Hc2 by done.
    + injection Hc1 as <-. by destruct (Hno j2 c2 p).
    + injection Hc2 as <-. by destruct (Hno j1 c1 p).
    + by apply (ok_apart _ _ Hok j1 j2 c1 c2 p).
Qed.

Lemma bucket_update k b' k' : bucket k' (<[Z.to_nat (hash k) := b']> bs) =
  if decide (hash k' = hash k) then b' else bucket k' bs.
Proof.
  unfold bucket. pose proof (table_hash_range k). pose proof (table_hash_range k').
  destruct (decide (hash k' = hash k)) as [->|Hne].
  - rewrite list_lookup_insert_eq; [done|]. eapply lookup_lt_Some, bucket_lookup.
  - rewrite list_lookup_insert_ne; [done|]. lia.
Qed.
End table.

Lemma search_walk_ok fuel k b s : sll (nodes s) b None -> (length b <= fuel)%nat ->
  search_walk fuel k (firstp b None) s = Done (default (-1) (assoc k b.*2), s).
Proof.
  revert fuel. induction b as [|[p [k' v]] b IH]; intros fuel; simpl; [by destruct fuel|].
  intros [(n & Hn & Hp & Hx) Hb] Hf. destruct fuel as [|fuel]; [lia|]. cbn [search_walk].
  rewrite (cmd_bind_eq _ _ _ _ _ (load_node s p n Hn)). injection Hp as Hk Hv. rewrite Hk.
  destruct (streq k' k) eqn:Heq.
  - apply streq_spec in Heq. rewrite decide_True by done. by rewrite <- Hv.
  - apply streq_false in Heq. rewrite decide_False by done. simpl in Hx. rewrite Hx. apply IH; [done|lia].
Qed.

Lemma chain_last (b : chain) : b <> [] -> exists l z, b = l ++ [z].
Proof. destruct b as [|z l _] using rev_ind; [done|]. by exists l, z. Qed.

(** the walk to the last node, when no earlier node has the key *)
Lemma insert_walk_ok fuel k v n l1 l2 z s nd :
  sll (nodes s) (l1 ++ l2 ++ [z]) None -> k ∉ l2.*2.*1 -> (length l2 < fuel)%nat ->
  nodes s !! n = Some nd -> n <> z.1 ->
  exists vz, nodes s !! z.1 = Some vz /\ spay vz = z.2 /\
  insert_walk fuel k v (Some n) (firstp (l2 ++ [z]) None) s =
    Done (tt, mkTable (if streq z.2.1 k then base.delete n (alter (set_value v) z.1 (nodes s))
                       else alter (set_snx (Some n)) z.1 (nodes s)) (hashTable s)).
Proof.
  intros Hl Hk Hf Hn Hnz. revert fuel l1 Hl Hk Hf.
  induction l2 as [|x l2 IH]; intros fuel l1 Hl Hk Hf; (destruct fuel as [|fuel]; [simpl in Hf; lia|]).
  - apply sll_app in Hl as [_ [(vz & Hvz & Hp & Hx) _]]. exists vz. split; [done|]. split; [done|].
    cbn [insert_walk app firstp]. rewrite (cmd_bind_eq _ _ _ _ _ (load_node s _ _ Hvz)).
    simpl in Hx. rewrite Hx. assert (key vz = z.2.1) as -> by (by rewrite <- Hp).
    destruct (streq z.2.1 k); [|by rewrite (update_node s z.1 _ _ Hvz)].
    rewrite (cmd_bind_eq _ _ _ _ _ (update_node s z.1 _ _ Hvz)).
    rewrite (free_node _ n nd); [done|]. simpl. rewrite lookup_alter_ne; [done|]. congruence.
  - pose proof Hl as [_ [(vx & Hvx & Hp & Hx) _]]%sll_app.
    destruct (IH fuel (l1 ++ [x])) as (vz & Hvz & Hpz & Heq).
    { by rewrite <- app_assoc. }
    { rewrite fmap_cons, fmap_cons, not_elem_of_cons in Hk. tauto. }
    { simpl in Hf. lia. }
    exists vz. split_and!; [done..|]. rewrite <- Heq. cbn [insert_walk app firstp].
    rewrite (cmd_bind_eq _ _ _ _ _ (load_node s _ _ Hvx)). simpl in Hx.
    assert (key vx = x.2.1) as -> by (by rewrite <- Hp).
    assert (streq x.2.1 k = false) as ->.
    { apply streq_false. rewrite fmap_cons, fmap_cons, not_elem_of_cons in Hk. naive_solver. }
    assert (exists q, firstp (l2 ++ [z]) None = Some q) as [q Hq] by (destruct l2; by eexists).
    rewrite Hx. change ((l2 ++ [z] : chain)) with (l2 ++ [z]). by rewrite Hq.
Qed.

Lemma put_bucket_ok (s : table) i p : 0 <= i < Z.of_nat (length (hashTable s)) ->
  set_bucket i p s = Done (tt, mkTable (nodes s) (<[Z.to_nat i := p]> (hashTable s))).
Proof.
  intros Hi. unfold set_bucket, mbind, cmd_bind, get, lift, modify. by rewrite arr_set_in.
Qed.

(** [insert] only recognises its key in the last node of the chain *)
Definition last_or_absent (k : string) (b : chain) : Prop := k ∉ (removelast b).*2.*1.

Lemma assoc_set_last {A} (k k' : string) (v : A) l z :
  k ∉ l.*1 -> z.1 = k -> assoc k' (l ++ [(k, v)]) = if decide (k' = k) then Some v else assoc k' (l ++ [z]).
Proof.
  intros Hk Hz. rewrite !assoc_app. destruct z as [zk zv]. simpl in *. subst zk.
  destruct (decide (k' = k)) as [->|Hne].
  - apply assoc_None in Hk. rewrite Hk. by rewrite decide_True.
  - by rewrite !decide_False by congruence.
Qed.

Lemma assoc_append {A} (k k' : string) (v : A) l :
  k ∉ l.*1 -> assoc k' (l ++ [(k, v)]) = if decide (k' = k) then Some v else assoc k' l.
Proof.
  intros Hk. rewrite assoc_app. simpl. destruct (decide (k' = k)) as [->|Hne].
  - apply assoc_None in Hk. rewrite Hk. by rewrite decide_True.
  - rewrite decide_False by congruence. by destruct (assoc k' l).
Qed.

Lemma bucket_hash bs s k x : table_ok bs s -> x ∈ bucket k bs -> hash x.2.1 = hash k.
Proof.
  intros Hok Hx. rewrite (ok_hash _ _ Hok _ _ _ (bucket_lookup _ _ Hok k) Hx).
  pose proof (table_hash_range k). lia.
Qed.

Lemma bucket_alloc bs s k p : table_ok bs s -> nodes s !! p = None -> p ∉ (bucket k bs).*1.
Proof.
  intros Hok Hp (x & -> & Hx)%list_elem_of_fmap.
  destruct (sll_elem _ _ _ _ (bucket_list _ _ Hok k) Hx) as (v & Hv & _). congruence.
Qed.

(** the new state keeps a table of which only the bucket of [k] changed, to [b'] *)
Definition inserted (k : string) (v : Z) (bs : list chain) (s' : table) : Prop :=
  exists b', table_ok (<[Z.to_nat (hash k) := b']> bs) s' /\
    forall k', assoc k' b'.*2 = if decide (k' = k) then Some v else assoc k' (bucket k bs).*2.

Lemma insert_empty k v bs s n : table_ok bs s -> nodes s !! n = None -> bucket k bs = [] ->
  inserted k v bs (mkTable (<[n := mkNode k v None]> (nodes s)) (<[Z.to_nat (hash k) := Some n]> (hashTable s))).
Proof.
  intros Hok Hn Hb. exists [(n, (k, v))]. split.
  - apply (table_update _ s Hok).
    + done.
    + apply (sll_cons (nodes s) [] None (n, (k, v))); first [done|set_solver].
    + apply NoDup_singleton.
    + apply NoDup_singleton.
    + by intros x ->%list_elem_of_singleton.
    + intros p Hp. right. by apply list_elem_of_singleton in Hp as ->.
    + intros p _ [w Hw]. simpl. rewrite lookup_insert_ne; [done|]. intros ->. congruence.
  - intros k'. rewrite Hb. simpl. destruct (decide (k' = k)) as [->|]; [by rewrite decide_True|].
    by rewrite decide_False.
Qed.

Lemma insert_append k v bs s n vz l z : table_ok bs s -> nodes s !! n = None ->
  bucket k bs = l ++ [z] -> k ∉ (bucket k bs).*2.*1 -> nodes s !! z.1 = Some vz ->
  inserted k v bs (mkTable (alter (set_snx (Some n)) z.1 (<[n := mkNode k v None]> (nodes s))) (hashTable s)).
Proof.
  intros Hok Hn Hb Hk Hvz. pose proof (bucket_alloc bs s k n Hok Hn) as Hnb.
  pose proof (bucket_list _ _ Hok k) as Hl. pose proof (bucket_locs _ _ Hok k) as Hnd.
  assert (z.1 <> n) as Hzn by (intros Heq; rewrite Heq in Hvz; congruence).
  assert (alter (set_snx (Some n)) z.1 (<[n := mkNode k v None]> (nodes s)) =
    <[z.1 := set_snx (Some n) vz]> (<[n := mkNode k v None]> (nodes s))) as ->.
  { apply map_eq. intros i. destruct (decide (i = z.1)) as [->|Hi].
    - rewrite lookup_alter_eq, lookup_insert_eq, lookup_insert_ne by congruence. by rewrite Hvz.
    - by rewrite lookup_alter_ne, (lookup_insert_ne _ z.1) by done. }
  exists (bucket k bs ++ [(n, (k, v))]). split.
  - apply (table_update _ s Hok).
    + rewrite firstp_app. symmetry. apply list_insert_id. simpl. rewrite Hb. destruct l;
        rewrite (ok_heads _ _ Hok _ _ (bucket_lookup _ _ Hok k)), Hb; done.
    + cbn [nodes]. apply sll_app. split; cbn [firstp fst].
      * rewrite Hb in *. apply (sll_set_end _ _ _ None).
        -- revert Hl. apply sll_frame. intros p Hp. rewrite lookup_insert_ne; [done|]. by intros <-.
        -- rewrite fmap_app in Hnd. apply NoDup_app in Hnd as (_ & Hd & _). intros ?%Hd. set_solver.
        -- by rewrite lookup_insert_ne.
      * split; [|done]. eexists. rewrite lookup_insert_ne, lookup_insert_eq by done. done.
    + rewrite fmap_app. apply NoDup_app. split; [done|]. split; [|apply NoDup_singleton].
      intros p Hp ->%list_elem_of_singleton. done.
    + rewrite !fmap_app. apply NoDup_app. split; [apply (ok_keys _ _ Hok _ _ (bucket_lookup _ _ Hok k))|].
      split; [|apply NoDup_singleton]. intros p Hp ->%list_elem_of_singleton. done.
    + intros x [Hx| ->%list_elem_of_singleton]%elem_of_app; [by eapply bucket_hash|done].
    + intros p. rewrite fmap_app, elem_of_app. intros [Hp| ->%list_elem_of_singleton]; [by left|by right].
    + intros p Hp [w Hw]. simpl. rewrite !lookup_insert_ne; [done|congruence|].
      intros <-. apply Hp. rewrite Hb. set_solver.
  - intros k'. rewrite fmap_app. by apply assoc_append.
Qed.

Lemma insert_overwrite k v bs s n vz l z : table_ok bs s -> nodes s !! n = None ->
  bucket k bs = l ++ [z] -> z.2.1 = k -> nodes s !! z.1 = Some vz -> spay vz = z.2 ->
  inserted k v bs (mkTable (base.delete n (alter (set_value v) z.1 (<[n := mkNode k v None]> (nodes s)))) (hashTable s)).
Proof.
  intros Hok Hn Hb Hk Hvz Hpz. pose proof (bucket_alloc bs s k n Hok Hn) as Hnb.
  pose proof (bucket_list _ _ Hok k) as Hl. pose proof (bucket_locs _ _ Hok k) as Hnd.
  pose proof (ok_keys _ _ Hok _ _ (bucket_lookup _ _ Hok k)) as Hnk.
  assert (z.1 <> n) as Hzn by (intros Heq; rewrite Heq in Hvz; congruence).
  assert (base.delete n (alter (set_value v) z.1 (<[n := mkNode k v None]> (nodes s))) =
    <[z.1 := set_value v vz]> (nodes s)) as ->.
  { apply map_eq. intros i. destruct (decide (i = n)) as [->|Hi].
    - by rewrite lookup_delete_eq, lookup_insert_ne.
    - rewrite lookup_delete_ne by done. destruct (decide (i = z.1)) as [->|Hi'].
      + rewrite lookup_alter_eq, lookup_insert_eq, lookup_insert_ne by congruence. by rewrite Hvz.
      + by rewrite lookup_alter_ne, !lookup_insert_ne by done. }
  assert (k ∉ l.*2.*1) as Hkl.
  { rewrite Hb, !fmap_app in Hnk. apply NoDup_app in Hnk as (_ & Hd & _). intros ?%Hd. set_solver. }
  exists (l ++ [(z.1, (k, v))]). rewrite Hb in *. split.
  - apply (table_update _ s Hok); rewrite ?Hb.
    + symmetry. apply list_insert_id. simpl. rewrite (ok_heads _ _ Hok _ _ (bucket_lookup _ _ Hok k)), Hb.
      by destruct l.
    + apply (sll_set_pay _ _ z _ [] None vz); [done..| |done]. simpl. rewrite <- Hk. simpl in Hpz. by rewrite <- Hpz.
    + by rewrite fmap_app in *.
    + rewrite !fmap_app in *. simpl in *. by rewrite Hk in Hnk.
    + intros x [Hx| ->%list_elem_of_singleton]%elem_of_app; [|done]. eapply bucket_hash; [done|]. rewrite Hb. set_solver.
    + intros p Hp. left. by rewrite fmap_app in *.
    + intros p Hp _. simpl. rewrite lookup_insert_ne; [done|]. intros <-. apply Hp. set_solver.
  - intros k'. rewrite !fmap_app. simpl. by apply assoc_set_last.
Qed.

Lemma table_insert_ok k v bs s : table_ok bs s -> (strlen k <= 49)%nat -> last_or_absent k (bucket k bs) ->
  exists s', insert k v s = Done (tt, s') /\ inserted k v bs s'.
Proof.
  intros Hok Hlen Hlast. unfold insert. rewrite (cmd_bind_eq _ _ _ _ _ eq_refl).
  destruct (Nat.ltb_spec 49 (strlen k)); [lia|].
  destruct (alloc_ok s (mkNode k v None)) as (n & Hn & Heq). simpl in Hn, Heq.
  rewrite (cmd_bind_eq _ _ _ _ _ Heq). clear Heq. set (s1 := mkTable _ _).
  assert (get_bucket (hash k) s1 = Done (firstp (bucket k bs) None, s1)) as Hg.
  { pose proof (get_bucket_ok bs s Hok k) as Hg. unfold get_bucket, mbind, cmd_bind, get, lift in *. simpl.
    destruct (arr_get _ _); [|done..]. by injection Hg as ->. }
  rewrite (cmd_bind_eq _ _ _ _ _ Hg). destruct (decide (bucket k bs = [])) as [Hb|Hb].
  - rewrite Hb. simpl. rewrite put_bucket_ok.
    + eexists. split; [done|]. by apply (insert_empty k v bs s n).
    + simpl. rewrite (ok_len _ _ Hok). pose proof (table_hash_range k). unfold TABLE_SIZE in *. lia.
  - destruct (chain_last _ Hb) as (l & z & Hbz). unfold last_or_absent in Hlast.
    rewrite Hbz, removelast_last in Hlast. pose proof (bucket_list bs s Hok k) as Hl.
    pose proof (bucket_fuel bs s Hok k) as Hf. rewrite Hbz in Hl, Hf. rewrite length_app in Hf. simpl in Hf.
    assert (exists q, firstp (l ++ [z]) None = Some q) as [q Hq] by (destruct l; by eexists).
    rewrite Hbz, Hq. rewrite <- Hq.
    assert (sll (nodes s1) ([] ++ l ++ [z]) None) as Hl1.
    { simpl. revert Hl. apply sll_frame. intros p Hp. rewrite lookup_insert_ne; [done|]. intros <-.
      apply (bucket_alloc bs s k n Hok Hn). by rewrite Hbz. }
    assert (n <> z.1) as Hnz.
    { intros ->. apply (bucket_alloc bs s k z.1 Hok Hn). rewrite Hbz. set_solver. }
    destruct (insert_walk_ok (S (size (nodes s))) k v n [] l z s1 (mkNode k v None) Hl1)
      as (vz & Hvz & Hpz & Hw); [done|lia|by simpl; rewrite lookup_insert_eq|done|].
    simpl in Hvz. rewrite lookup_insert_ne in Hvz by done.
    eexists. split; [exact Hw|]. destruct (streq z.2.1 k) eqn:Hz.
    + apply streq_spec in Hz. by apply (insert_overwrite k v bs s n vz l z).
    + apply streq_false in Hz. apply (insert_append k v bs s n vz l z); [done..| |done].
      rewrite Hbz, !fmap_app. set_solver.
Qed.

Lemma delete_walk_ok fuel k i b l1 l2 s :
  b = l1 ++ l2 -> sll (nodes s) b None -> NoDup b.*1 ->
  0 <= i < Z.of_nat (length (hashTable s)) -> hashTable s !! Z.to_nat i = Some (firstp b None) ->
  k ∉ l1.*2.*1 -> (length l2 <= fuel)%nat ->
  match assoc k l2.*2 with
  | None => delete_walk fuel k i (lastp l1 None) (firstp l2 None) s = Done (false, s)
  | Some v => exists la x lb s', b = la ++ x :: lb /\ x.2 = (k, v) /\ (k ∉ la.*2.*1) /\
      delete_walk fuel k i (lastp l1 None) (firstp l2 None) s = Done (true, s') /\
      hashTable s' = <[Z.to_nat i := firstp (la ++ lb) None]> (hashTable s) /\
      sll (nodes s') (la ++ lb) None /\ (forall p, p ∉ b.*1 -> nodes s' !! p = nodes s !! p)
  end.
Proof.
  intros Hb Hl Hnd Hi Hh. revert fuel l1 Hb.
  induction l2 as [|[p [k' v]] l2 IH]; intros fuel l1 Hb Hk Hf; [by destruct fuel|].
  destruct fuel as [|fuel]; simpl in Hf; [lia|]. simpl.
  pose proof Hl as Hl'. rewrite Hb in Hl'. apply sll_app in Hl' as [Hl1 [(n & Hn & Hp & Hx) Hl2]]. simpl in Hn.
  rewrite (cmd_bind_eq _ _ _ _ _ (load_node s p n Hn)). injection Hp as Hkn Hvn. rewrite Hkn.
  destruct (decide (k' = k)) as [->|Hne].
  2: { rewrite (proj2 (streq_false k' k) Hne). simpl in Hx. rewrite Hx.
       specialize (IH fuel (l1 ++ [(p, (k', v))])). rewrite lastp_snoc in IH. apply IH; [|..|lia].
       - by rewrite <- app_assoc.
       - rewrite !fmap_app. set_solver. }
  rewrite streq_refl. exists l1, (p, (k, v)), l2. simpl in Hx. rewrite Hx.
  pose proof Hnd as Hnd'. rewrite Hb, fmap_app, fmap_cons in Hnd'.
  apply NoDup_app in Hnd' as (Hnd1 & Hd & [Hp2 Hnd2]%NoDup_cons).
  destruct (decide (l1 = [])) as [->|Hl1ne].
  - exists (mkTable (base.delete p (nodes s)) (<[Z.to_nat i := firstp l2 None]> (hashTable s))).
    split_and!; [done..| |done| |].
    + cbn [lastp last]. unfold lastp. simpl. rewrite (cmd_bind_eq _ _ _ _ _ (put_bucket_ok s i _ Hi)).
      by rewrite (cmd_bind_eq _ _ _ _ _ (free_node (mkTable (nodes s) (<[Z.to_nat i := firstp l2 None]> (hashTable s))) p n Hn)).
    + revert Hl2. apply sll_frame. intros q Hq. simpl. rewrite lookup_delete_ne; [done|]. by intros <-.
    + intros q Hq. simpl. rewrite lookup_delete_ne; [done|]. intros <-. apply Hq. rewrite Hb. set_solver.
  - destruct (chain_last _ Hl1ne) as (la & z & ->). rewrite lastp_snoc.
    pose proof Hl1 as [_ [(vz & Hvz & _) _]]%sll_app.
    assert (z.1 <> p) as Hzp.
    { intros Heq. apply (Hd z.1); [rewrite fmap_app; set_solver|]. rewrite Heq. by left. }
    assert (alter (set_snx (firstp l2 None)) z.1 (nodes s) = <[z.1 := set_snx (firstp l2 None) vz]> (nodes s)) as Ha.
    { apply map_eq. intros q. destruct (decide (q = z.1)) as [->|];
        [by rewrite lookup_alter_eq, lookup_insert_eq, Hvz|by rewrite lookup_alter_ne, lookup_insert_ne]. }
    exists (mkTable (base.delete p (<[z.1 := set_snx (firstp l2 None) vz]> (nodes s))) (hashTable s)).
    split_and!; [done..| | | |].
    + rewrite (cmd_bind_eq _ _ _ _ _ (update_node s z.1 _ vz Hvz)). erewrite cmd_bind_eq.
      2: { apply (free_node _ p n). simpl. by rewrite lookup_alter_ne. }
      unfold mret, cmd_ret. simpl in Ha |- *. by rewrite Ha.
    + symmetry. apply list_insert_id. cbn [hashTable]. rewrite Hh, Hb. by destruct la.
    + apply sll_app. split.
      * apply (sll_frame (<[z.1 := set_snx (firstp l2 None) vz]> (nodes s))).
        -- intros q Hq. simpl. rewrite lookup_delete_ne; [done|]. intros <-. apply (Hd p Hq). by left.
        -- apply (sll_set_end _ _ _ (firstp ((p, (k, v)) :: l2) None)); [done| |done].
           rewrite fmap_app in Hnd1. apply NoDup_app in Hnd1 as (_ & Hd' & _). intros ?%Hd'. set_solver.
      * revert Hl2. apply sll_frame. intros q Hq. simpl. rewrite lookup_delete_ne by (by intros <-).
        rewrite lookup_insert_ne; [done|]. intros <-. apply (Hd z.1); [rewrite fmap_app; set_solver|by right].
    + intros q Hq. simpl. rewrite Hb in Hq. rewrite !fmap_app, fmap_cons, !elem_of_app in Hq. simpl in Hq.
      rewrite lookup_delete_ne by (intros <-; apply Hq; right; by left).
      rewrite lookup_insert_ne; [done|]. intros <-. apply Hq. left. right. by left.
Qed.

Lemma table_delete_ok k bs s : table_ok bs s ->
  match lookup_key k bs with
  | None => delete k s = Done (false, s)
  | Some _ => exists s' b', delete k s = Done (true, s') /\
      table_ok (<[Z.to_nat (hash k) := b']> bs) s' /\
      forall k', assoc k' b'.*2 = if decide (k' = k) then None else assoc k' (bucket k bs).*2
  end.
Proof.
  intros Hok. unfold delete, lookup_key. rewrite (cmd_bind_eq _ _ _ _ _ (get_bucket_ok bs s Hok k)).
  pose proof (delete_walk_ok (S (size (nodes s))) k (hash k) (bucket k bs) [] (bucket k bs) s eq_refl) as H.
  pose proof (table_hash_range k). pose proof (bucket_lookup bs s Hok k) as Hbl.
  specialize (H (bucket_list _ _ Hok k) (bucket_locs _ _ Hok k)).
  specialize (H ltac:(rewrite (ok_len _ _ Hok); unfold TABLE_SIZE in *; lia) (ok_heads _ _ Hok _ _ Hbl)).
  specialize (H ltac:(set_solver) ltac:(pose proof (bucket_fuel _ _ Hok k); lia)).
  destruct (assoc k (bucket k bs).*2) as [v|]; [|done].
  destruct H as (la & x & lb & s' & Hb & Hx & Hka & Heq & Hh & Hl & Hfr).
  pose proof (ok_keys _ _ Hok _ _ Hbl) as Hnk. pose proof (bucket_locs _ _ Hok k) as Hnd.
  rewrite Hb, !fmap_app, !fmap_cons, Hx in Hnk. simpl in Hnk.
  exists s', (la ++ lb). split; [done|]. split.
  - apply (table_update bs s Hok); [done..| | | | |].
    + rewrite Hb, fmap_app, fmap_cons, <- Permutation_middle, <- fmap_app in Hnd. by apply NoDup_cons in Hnd as [_ ?].
    + rewrite !fmap_app. rewrite <- Permutation_middle in Hnk. by apply NoDup_cons in Hnk as [_ ?].
    + intros y Hy. eapply bucket_hash; [done|]. rewrite Hb. set_solver.
    + intros p Hp. left. rewrite Hb. rewrite fmap_app in *. set_solver.
    + intros p Hp _. by apply Hfr.
  - intros k'. rewrite Hb, !fmap_app, fmap_cons, Hx, !assoc_app. simpl.
    destruct (decide (k' = k)) as [->|Hne]; [|by rewrite decide_False by congruence].
    apply assoc_None in Hka. rewrite Hka. apply assoc_None.
    rewrite <- Permutation_middle in Hnk. apply NoDup_cons in Hnk as [Hnk _]. set_solver.
Qed.

Lemma lookup_updated bs s k b' : table_ok bs s -> (forall x, x ∈ b' -> hash x.2.1 = hash k) ->
  forall (f : option Z), (forall k', assoc k' b'.*2 = if decide (k' = k) then f else assoc k' (bucket k bs).*2) ->
  forall k', lookup_key k' (<[Z.to_nat (hash k) := b']> bs) = if decide (k' = k) then f else lookup_key k' bs.
Proof.
  intros Hok Hh f Hf k'. unfold lookup_key. rewrite (bucket_update bs s Hok).
  destruct (decide (hash k' = hash k)) as [Heq|Hne].
  - rewrite Hf. destruct (decide (k' = k)); [done|]. unfold bucket. by rewrite Heq.
  - by rewrite decide_False by congruence.
Qed.

(** ** Properties *)

(** The table behaves as a map.  [search] returns the value of a key or -1;
    [delete] removes exactly its key and says whether it was there; [insert] of a
    short key sets exactly its key, when no node but the last one of its chain holds
    it; no operation touches a freed node. *)
Theorem table_is_map bs s k : table_ok bs s ->
  search k s = Done (default (-1) (lookup_key k bs), s) /\
  (exists s' bs', delete k s = Done (bool_decide (is_Some (lookup_key k bs)), s') /\ table_ok bs' s' /\
     forall k', lookup_key k' bs' = if decide (k' = k) then None else lookup_key k' bs) /\
  (forall v, (strlen k <= 49)%nat -> last_or_absent k (bucket k bs) ->
     exists s' bs', insert k v s = Done (tt, s') /\ table_ok bs' s' /\
     forall k', lookup_key k' bs' = if decide (k' = k) then Some v else lookup_key k' bs).
Proof.
  intros Hok. split_and!.
  - unfold search. rewrite (cmd_bind_eq _ _ _ _ _ (get_bucket_ok bs s Hok k)).
    apply search_walk_ok; [by apply bucket_list|pose proof (bucket_fuel bs s Hok k); lia].
  - pose proof (table_delete_ok k bs s Hok) as H. destruct (lookup_key k bs) as [v|] eqn:Hk.
    + destruct H as (s' & b' & Heq & Hok' & Ha). exists s', (<[Z.to_nat (hash k) := b']> bs).
      split; [by rewrite Heq|]. split; [done|]. apply (lookup_updated bs s); [done| |done].
      intros x Hx. pose proof (table_hash_range k).
      rewrite (ok_hash _ _ Hok' (Z.to_nat (hash k)) b' x); [lia| |done].
      apply list_lookup_insert_eq. eapply lookup_lt_Some, (bucket_lookup bs s Hok).
    + exists s, bs. split; [done|]. split; [done|]. intros k'. by case_decide; subst.
  - intros v Hlen Hlast. destruct (table_insert_ok k v bs s Hok Hlen Hlast) as (s' & Heq & b' & Hok' & Ha).
    exists s', (<[Z.to_nat (hash k) := b']> bs). split; [done|]. split; [done|].
    apply (lookup_updated bs s); [done| |done]. intros x Hx. pose proof (table_hash_range k).
    rewrite (ok_hash _ _ Hok' (Z.to_nat (hash k)) b' x); [lia| |done].
    apply list_lookup_insert_eq. eapply lookup_lt_Some, (bucket_lookup bs s Hok).
Qed.

Lemma init_table_ok : table_ok (replicate 10 []) init.
Proof.
  assert (forall i (b : chain), replicate 10 [] !! i = Some b -> b = []) as H.
  { intros i b Hb. by apply lookup_replicate in Hb as [-> _]. }
  split; [done|done|..].
  - intros i b Hb. rewrite (H i b Hb). apply lookup_lt_Some in Hb. simpl.
    by apply (lookup_replicate_2 10 None).
  - intros i b Hb. by rewrite (H i b Hb).
  - intros i b x Hb. rewrite (H i b Hb). by intros ?%elem_of_nil.
  - intros i b Hb. rewrite (H i b Hb). constructor.
  - intros i b Hb. rewrite (H i b Hb). constructor.
  - intros i j b c p Hb _. rewrite (H i b Hb). by intros ?%elem_of_nil.
Qed.

Lemma table_is_map_witness :
  exists s bs, insert "orange" 200 init = Done (tt, s) /\ table_ok bs s /\ search "orange" s = Done (200, s) /\
    search "mango" s = Done (-1, s).
Proof.
  destruct (table_is_map _ _ "orange" init_table_ok) as (_ & _ & Hi).
  destruct (Hi 200) as (s & bs & Heq & Hok & Hl); [simpl; lia|by apply not_elem_of_nil|].
  exists s, bs. split; [done|]. split; [done|]. split.
  - destruct (table_is_map _ _ "orange" Hok) as (Hs & _). by rewrite Hl in Hs.
  - destruct (table_is_map _ _ "mango" Hok) as (Hs & _). by rewrite Hl in Hs.
Defined.

(** [insert] of a key that sits in front of another one of its chain updates the value,
    frees its new node and walks on; the last node is then made to point to the freed
    node, and a search that runs through the chain reads it. *)
Lemma insert_middle_dangling :
  (_ ← insert "a" 1; _ ← insert "k" 2; _ ← insert "a" 3; search "u") init = Undef.
Proof. by vm_compute. Qed.

Lemma main_answers_table : main = Done (500, -1, true, false).
Proof. by vm_compute. Qed.
