(* ===== verification/Monitor.v ===== *)
(** * Threads that share a monitor: one mutex and condition variables

    The step relation of any number of threads whose shared state is only changed by
    operations of the form

      lock; entry; while (guard) cond_wait(c); body; signals; unlock

    which is how the POSIX programs of the repository use [pthread_mutex_t] and
    [pthread_cond_t].  [Monitor] is the interface such a program fills in; the laws
    here are used by its invariants.  A wait may wake up spuriously, a signal wakes
    any one waiter if there is one, and the threads interleave freely. *)
From S2P Require Import Prelude.

Inductive sig (C : Type) := Signal (c : C) | Broadcast (c : C).
Arguments Signal {C} c.
Arguments Broadcast {C} c.

(** [Sh] the shared state, [L] the private state of a thread, [Op] the operations *)
Class Monitor (Sh L Op C : Type) := {
  entry : Op -> Sh -> Sh;
  guard : Op -> Sh -> option C;
  body : Op -> Sh -> L -> Sh * L;
  signals : Op -> Sh -> list (sig C);
  (** which operation a thread calls next, and its steps outside the monitor *)
  calls : L -> Op -> Prop;
  local : Sh -> L -> Sh -> L -> Prop;
}.

(** where a thread is: outside, at [pthread_mutex_lock], inside at the loop head,
    asleep in [pthread_cond_wait], or woken and waiting for the mutex again *)
Inductive status (Op C : Type) :=
| Idle | Want (o : Op) | In (o : Op) | Asleep (o : Op) (c : C) | Woken (o : Op).
Arguments Idle {Op C}.
Arguments Want {Op C} o.
Arguments In {Op C} o.
Arguments Asleep {Op C} o c.
Arguments Woken {Op C} o.

Section monitor.
Context {Sh L Op C : Type} `{!EqDecision C} `{!Monitor Sh L Op C}.

Abbreviation thread := (status Op C * L)%type.

Record config := mkConfig { shared : Sh; owner : option nat; threads : list thread }.

Definition sleeps_on (c : C) (x : thread) : bool :=
  match x.1 with Asleep _ c' => bool_decide (c' = c) | _ => false end.

Definition wake_up (x : thread) : thread :=
  match x.1 with Asleep o _ => (Woken o, x.2) | _ => x end.

Inductive wakes : list (sig C) -> list thread -> list thread -> Prop :=
| wakes_nil ths : wakes [] ths ths
| wakes_none c sigs ths ths' :
    Forall (fun x => sleeps_on c x = false) ths -> wakes sigs ths ths' ->
    wakes (Signal c :: sigs) ths ths'
| wakes_one c t x sigs ths ths' :
    ths !! t = Some x -> sleeps_on c x = true -> wakes sigs (<[t := wake_up x]> ths) ths' ->
    wakes (Signal c :: sigs) ths ths'
| wakes_all c sigs ths ths' :
    wakes sigs ((fun x => if sleeps_on c x then wake_up x else x) <$> ths) ths' ->
    wakes (Broadcast c :: sigs) ths ths'.

Inductive step : config -> config -> Prop :=
| step_local sh ow ths t l sh' l' :
    ths !! t = Some (Idle, l) -> local sh l sh' l' ->
    step (mkConfig sh ow ths) (mkConfig sh' ow (<[t := (Idle, l')]> ths))
| step_call sh ow ths t l o :
    ths !! t = Some (Idle, l) -> calls l o ->
    step (mkConfig sh ow ths) (mkConfig sh ow (<[t := (Want o, l)]> ths))
| step_lock sh ths t l o :
    ths !! t = Some (Want o, l) ->
    step (mkConfig sh None ths) (mkConfig (entry o sh) (Some t) (<[t := (In o, l)]> ths))
| step_relock sh ths t l o :
    ths !! t = Some (Woken o, l) ->
    step (mkConfig sh None ths) (mkConfig sh (Some t) (<[t := (In o, l)]> ths))
| step_sleep sh ths t l o c :
    ths !! t = Some (In o, l) -> guard o sh = Some c ->
    step (mkConfig sh (Some t) ths) (mkConfig sh None (<[t := (Asleep o c, l)]> ths))
| step_exit sh ths ths' t l o sh' l' :
    ths !! t = Some (In o, l) -> guard o sh = None -> body o sh l = (sh', l') ->
    wakes (signals o sh') (<[t := (Idle, l')]> ths) ths' ->
    step (mkConfig sh (Some t) ths) (mkConfig sh' None ths')
| step_spurious sh ow ths t l o c :
    ths !! t = Some (Asleep o c, l) ->
    step (mkConfig sh ow ths) (mkConfig sh ow (<[t := (Woken o, l)]> ths)).

Definition start (sh : Sh) (ls : list L) : config := mkConfig sh None ((fun l => (Idle, l)) <$> ls).

Definition reachable (sh : Sh) (ls : list L) : config -> Prop := rtc step (start sh ls).

(** ** Counting threads *)

Fixpoint count (p : thread -> bool) (ths : list thread) : Z :=
  match ths with [] => 0 | x :: ths' => (if p x then 1 else 0) + count p ths' end.

Lemma count_nonneg p ths : 0 <= count p ths.
Proof. induction ths as [|x ths IH]; simpl; [done|]. destruct (p x); lia. Qed.

Lemma count_insert p ths t x y : ths !! t = Some y ->
  count p (<[t := x]> ths) = count p ths - (if p y then 1 else 0) + (if p x then 1 else 0).
Proof.
  revert t. induction ths as [|z ths IH]; intros [|t]; simpl; try done.
  - intros [= ->]. lia.
  - intros Hy. rewrite (IH t Hy). lia.
Qed.

Lemma count_lookup p ths t x : ths !! t = Some x -> p x = true -> 1 <= count p ths.
Proof.
  revert t. induction ths as [|z ths IH]; intros [|t]; simpl; try done.
  - intros [= ->] ->. pose proof (count_nonneg p ths). lia.
  - intros Hx Hp. specialize (IH t Hx Hp). destruct (p z); lia.
Qed.

Lemma count_pos p ths : 1 <= count p ths -> exists t x, ths !! t = Some x /\ p x = true.
Proof.
  induction ths as [|z ths IH]; simpl; [lia|]. destruct (p z) eqn:Hz.
  - intros _. by exists O, z.
  - intros H. destruct IH as (t & x & Hx & Hp); [lia|]. by exists (S t), x.
Qed.

Lemma count_zero p ths : Forall (fun x => p x = false) ths -> count p ths = 0.
Proof. induction 1 as [|x ths Hx _ IH]; simpl; [done|]. rewrite Hx. lia. Qed.

Lemma count_fmap p f ths : count p (f <$> ths) = count (fun x => p (f x)) ths.
Proof. induction ths as [|x ths IH]; [done|]. rewrite fmap_cons. cbn [count]. by rewrite IH. Qed.

Lemma count_ext p q ths : (forall x, p x = q x) -> count p ths = count q ths.
Proof. intros H. induction ths as [|x ths IH]; simpl; [done|]. by rewrite H, IH. Qed.

Lemma count_le p q ths : (forall x, p x = true -> q x = true) -> count p ths <= count q ths.
Proof.
  intros H. induction ths as [|x ths IH]; simpl; [done|]. specialize (H x).
  destruct (p x); [rewrite H by done; lia|destruct (q x); lia].
Qed.

(** a predicate that does not see the difference between asleep and woken *)
Definition wake_blind (p : thread -> bool) : Prop := forall o c l, p (Asleep o c, l) = p (Woken o, l).

Lemma wake_up_blind p x : wake_blind p -> p (wake_up x) = p x.
Proof. intros H. destruct x as [[] l]; simpl; by rewrite ?H. Qed.

Lemma count_wakes p sigs ths ths' : wake_blind p -> wakes sigs ths ths' -> count p ths' = count p ths.
Proof.
  intros Hp. induction 1 as [|c sigs ths ths' Hno _ IH|c t x sigs ths ths' Hx Hc _ IH|c sigs ths ths' _ IH];
    [done|done|..].
  - rewrite IH, (count_insert _ _ _ _ _ Hx), wake_up_blind by done. lia.
  - rewrite IH, count_fmap. apply count_ext. intros x. destruct (sleeps_on c x); [by apply wake_up_blind|done].
Qed.

(** wakeups only turn sleepers into woken threads *)
Lemma count_wakes_anti p sigs ths ths' : (forall x, p (wake_up x) = true -> p x = true) ->
  wakes sigs ths ths' -> count p ths' <= count p ths.
Proof.
  intros Hp. induction 1 as [|c sigs ths ths' Hno _ IH|c t x sigs ths ths' Hx Hc _ IH|c sigs ths ths' _ IH]; [lia|done|..].
  - rewrite (count_insert _ _ _ _ _ Hx) in IH. specialize (Hp x).
    destruct (p (wake_up x)); [rewrite Hp in IH by done; lia|]. destruct (p x); lia.
  - etransitivity; [exact IH|]. rewrite count_fmap. apply count_le. intros x Hx.
    destruct (sleeps_on c x); auto.
Qed.

Lemma wake_up_sleeps c x : sleeps_on c (wake_up x) = false.
Proof. by destruct x as [[] l]. Qed.

Lemma count_wakes_sleep c sigs ths ths' : wakes sigs ths ths' ->
  count (sleeps_on c) ths' <= count (sleeps_on c) ths.
Proof. apply count_wakes_anti. intros x Hx. by rewrite wake_up_sleeps in Hx. Qed.

(** what is awake stays awake *)
Lemma count_wakes_mono p sigs ths ths' : (forall x, p x = true -> p (wake_up x) = true) ->
  wakes sigs ths ths' -> count p ths <= count p ths'.
Proof.
  intros Hp. induction 1 as [|c sigs ths ths' Hno _ IH|c t x sigs ths ths' Hx Hc _ IH|c sigs ths ths' _ IH]; [lia|done|..].
  - rewrite (count_insert _ _ _ _ _ Hx) in IH. specialize (Hp x). destruct (p x); [rewrite Hp in IH by done; lia|].
    destruct (p (wake_up x)); lia.
  - etransitivity; [|exact IH]. rewrite count_fmap. apply count_le. intros x Hx.
    destruct (sleeps_on c x); auto.
Qed.

Lemma signal_inv c ths ths' : wakes [Signal c] ths ths' ->
  (ths' = ths /\ count (sleeps_on c) ths = 0) \/
  exists t o l, ths !! t = Some (Asleep o c, l) /\ ths' = <[t := (Woken o, l)]> ths.
Proof.
  inversion 1 as [|? ? ? ? Hno Hw|? t x ? ? ? Hx Hc Hw|]; subst; inversion Hw; subst.
  - left. split; [done|]. by apply count_zero.
  - right. destruct x as [[] l]; try done. simpl in Hc. apply bool_decide_eq_true in Hc as ->. eauto.
Qed.

Lemma broadcast_inv c ths ths' : wakes [Broadcast c] ths ths' ->
  ths' = (fun x => if sleeps_on c x then wake_up x else x) <$> ths /\ count (sleeps_on c) ths' = 0.
Proof.
  inversion 1 as [| | |? ? ? ? Hw]; subst; inversion Hw; subst. split; [done|].
  rewrite count_fmap. apply count_zero, Forall_forall. intros x _.
  destruct (sleeps_on c x) eqn:Hx; [apply wake_up_sleeps|done].
Qed.

Lemma wakes_In sigs ths ths' t o l : wakes sigs ths ths' -> ths' !! t = Some (In o, l) -> ths !! t = Some (In o, l).
Proof.
  intros Hw. revert t o l.
  induction Hw as [|c sigs ths ths' Hno _ IH|c u x sigs ths ths' Hx Hc _ IH|c sigs ths ths' _ IH];
    intros t o l Ht; [done|by apply IH|..]; apply IH in Ht.
  - destruct (decide (u = t)) as [->|Hne]; [|by rewrite list_lookup_insert_ne in Ht].
    rewrite list_lookup_insert_eq in Ht by (by eapply lookup_lt_Some).
    by destruct x as [[] ?].
  - rewrite list_lookup_fmap in Ht. destruct (ths !! t) as [x|]; [|done]. simpl in Ht.
    destruct x as [[] lx]; simpl in Ht; try done. by destruct (sleeps_on c _).
Qed.

(** ** The mutex *)

(** exactly the owner of the mutex is inside *)
Definition owned (c : config) : Prop :=
  forall t, (exists o l, threads c !! t = Some (In o, l)) <-> owner c = Some t.

Lemma start_owned sh ls : owned (start sh ls).
Proof.
  intros t. split; [|done]. intros (o & l & H). simpl in H. rewrite list_lookup_fmap in H.
  by destruct (ls !! t).
Qed.

Lemma owned_other (ths : list thread) t x y ow :
  (forall u, (exists o l, ths !! u = Some (In o, l)) <-> ow = Some u) -> ths !! t = Some y ->
  (forall o l, x <> (In o, l)) -> (forall o l, y <> (In o, l)) ->
  forall u, (exists o l, <[t := x]> ths !! u = Some (In o, l)) <-> ow = Some u.
Proof.
  intros H Hy Hx Hny u. rewrite <- H. destruct (decide (t = u)) as [->|Hne].
  - rewrite list_lookup_insert_eq by (by eapply lookup_lt_Some). naive_solver.
  - by rewrite list_lookup_insert_ne.
Qed.

Lemma owned_enter (ths : list thread) t x o' l' :
  (forall u, (exists o l, ths !! u = Some (In o, l)) <-> (None : option nat) = Some u) -> ths !! t = Some x ->
  forall u, (exists o l, <[t := (In o', l')]> ths !! u = Some (In o, l)) <-> Some t = Some u.
Proof.
  intros H Hx u. destruct (decide (t = u)) as [->|Hne].
  - rewrite list_lookup_insert_eq by (by eapply lookup_lt_Some). split; [done|eauto].
  - rewrite list_lookup_insert_ne by done. rewrite H. split; [done|congruence].
Qed.

Lemma owned_leave (ths : list thread) t x y :
  (forall u, (exists o l, ths !! u = Some (In o, l)) <-> Some t = Some u) -> ths !! t = Some y ->
  (forall o l, x <> (In o, l)) ->
  forall u, ~ (exists o l, <[t := x]> ths !! u = Some (In o, l)).
Proof.
  intros H Hy Hx u (o & l & Hu). destruct (decide (t = u)) as [->|Hne].
  - rewrite list_lookup_insert_eq in Hu by (by eapply lookup_lt_Some). naive_solver.
  - rewrite list_lookup_insert_ne in Hu by done. assert (Some t = Some u) by (apply H; eauto). congruence.
Qed.

Lemma step_owned c c' : step c c' -> owned c -> owned c'.
Proof.
  intros Hs Ho. destruct Hs as [sh ow ths t l sh' l' Ht _|sh ow ths t l o Ht _|sh ths t l o Ht|sh ths t l o Ht
    |sh ths t l o c Ht _|sh ths ths' t l o sh' l' Ht _ _ Hw|sh ow ths t l o c Ht]; unfold owned in *; simpl in *.
  - by apply owned_other with (Idle, l).
  - by apply owned_other with (Idle, l).
  - by apply owned_enter with (Want o, l).
  - by apply owned_enter with (Woken o, l).
  - intros u. split; [|done]. intros Hu. by destruct (owned_leave ths t (Asleep o c, l) _ Ho Ht ltac:(done) u).
  - intros u. split; [|done]. intros (o' & lu & Hu). apply (wakes_In _ _ _ _ _ _ Hw) in Hu.
    destruct (owned_leave ths t (Idle, l') _ Ho Ht ltac:(done) u). eauto.
  - by apply owned_other with (Asleep o c, l).
Qed.

Lemma reachable_owned sh ls c : reachable sh ls c -> owned c.
Proof.
  intros Hr. unfold reachable in Hr. apply (rtc_ind_r (R := step) (fun c => owned c) (start sh ls)); [apply start_owned| |done].
  intros c1 c2 _ Hs. by apply step_owned.
Qed.

(** the induction principle of the components: an invariant that holds at the start
    and is kept by every step of a configuration whose mutex is consistent *)
Lemma reachable_inv (Inv : config -> Prop) sh ls :
  Inv (start sh ls) -> (forall c c', owned c -> Inv c -> step c c' -> Inv c') ->
  forall c, reachable sh ls c -> Inv c.
Proof.
  intros H0 Hstep c Hr. enough (owned c /\ Inv c) as [_ ?] by done.
  apply (rtc_ind_r (R := step) (fun c => owned c /\ Inv c) (start sh ls)); [split; [apply start_owned|done]| |done].
  intros c1 c2 _ Hs [Ho Hi]. split; [by eapply step_owned|by eapply Hstep].
Qed.

Lemma wakes_total sigs ths : exists ths', wakes sigs ths ths'.
Proof.
  revert ths. induction sigs as [|[c|c] sigs IH]; intros ths; [eexists; constructor|..].
  - destruct (decide (Forall (fun x => sleeps_on c x = false) ths)) as [Hn|Hn].
    + destruct (IH ths) as [ths' H]. eexists. by apply wakes_none.
    + apply not_Forall_Exists, Exists_exists in Hn as (x & [t Ht]%list_elem_of_lookup & Hx); [|apply _].
      destruct (IH (<[t := wake_up x]> ths)) as [ths' H]. eexists. eapply wakes_one; [exact Ht|by apply not_false_is_true|exact H].
  - destruct (IH ((fun x => if sleeps_on c x then wake_up x else x) <$> ths)) as [ths' H]. eexists. by apply wakes_all.
Qed.

(** ** Schedules: runs given by which thread takes the next step *)

Section schedule.
Context (next_call : L -> option Op) (next_local : Sh -> L -> option (Sh * L)).
Context (next_call_ok : forall l o, next_call l = Some o -> calls l o).
Context (next_local_ok : forall sh l sh' l', next_local sh l = Some (sh', l') -> local sh l sh' l').

(** signals are only broadcasts here *)
Fixpoint do_wakes (sigs : list (sig C)) (ths : list thread) : option (list thread) :=
  match sigs with
  | [] => Some ths
  | Broadcast c :: sigs' => do_wakes sigs' ((fun x => if sleeps_on c x then wake_up x else x) <$> ths)
  | Signal _ :: _ => None
  end.

Definition run_step (c : config) (t : nat) : option config :=
  let '(mkConfig sh ow ths) := c in
  match ths !! t, ow with
  | Some (Idle, l), _ =>
      match next_call l, next_local sh l with
      | Some o, _ => Some (mkConfig sh ow (<[t := (Want o, l)]> ths))
      | None, Some (sh', l') => Some (mkConfig sh' ow (<[t := (Idle, l')]> ths))
      | None, None => None
      end
  | Some (Want o, l), None => Some (mkConfig (entry o sh) (Some t) (<[t := (In o, l)]> ths))
  | Some (Woken o, l), None => Some (mkConfig sh (Some t) (<[t := (In o, l)]> ths))
  | Some (In o, l), Some u =>
      if negb (t =? u)%nat then None else
      match guard o sh with
      | Some c => Some (mkConfig sh None (<[t := (Asleep o c, l)]> ths))
      | None => let '(sh', l') := body o sh l in
                ths' ← do_wakes (signals o sh') (<[t := (Idle, l')]> ths); Some (mkConfig sh' None ths')
      end
  | _, _ => None
  end.

Lemma do_wakes_ok sigs ths ths' : do_wakes sigs ths = Some ths' -> wakes sigs ths ths'.
Proof.
  revert ths. induction sigs as [|[c|c] sigs IH]; intros ths; simpl; [intros [= ->]; constructor|done|].
  intros H. by apply wakes_all, IH.
Qed.

Lemma run_step_ok c t c' : run_step c t = Some c' -> step c c'.
Proof.
  destruct c as [sh ow ths]. simpl. destruct (ths !! t) as [[[|o|o| |o] l]|] eqn:Ht; [..|done].
  - destruct (next_call l) as [o|] eqn:Hc; [intros [= <-]; by eapply step_call; eauto|].
    destruct (next_local sh l) as [[sh' l']|] eqn:Hl; [|done]. intros [= <-]. by eapply step_local; eauto.
  - destruct ow; [done|]. intros [= <-]. by apply step_lock.
  - destruct ow as [u|]; [|done]. destruct (Nat.eqb_spec t u) as [<-|]; [|done]. simpl.
    destruct (guard o sh) as [c|] eqn:Hg; [intros [= <-]; by apply step_sleep|].
    destruct (body o sh l) as [sh' l'] eqn:Hb. intros (ths' & Hw & [= <-])%bind_Some.
    eapply step_exit; eauto. by apply do_wakes_ok.
  - done.
  - destruct ow; [done|]. intros [= <-]. by apply step_relock.
Qed.

Fixpoint run_schedule (c : config) (ts : list nat) : option config :=
  match ts with [] => Some c | t :: ts' => c ← run_step c t; run_schedule c ts' end.

Lemma run_schedule_ok ts c c' : run_schedule c ts = Some c' -> rtc step c c'.
Proof.
  revert c. induction ts as [|t ts IH]; intros c; simpl; [intros [= ->]; done|].
  intros (c1 & H1%run_step_ok & H2)%bind_Some. by eapply rtc_l; eauto.
Qed.
End schedule.
End monitor.

(** Use the effect of a step on the counters in the context. *)
Ltac count_step Ht :=
  repeat match goal with
  | |- context [count ?p (<[_ := ?x]> _)] => rewrite (count_insert p _ _ x _ Ht)
  end.
