(* ===== verification/BoundedBuffer.v ===== *)
(** * The bounded buffers of POSIX/futexTask.c and POSIX/posix.c

    Both programs guard a ring buffer with one mutex and two condition variables.  The
    ring, its two operations and the invariants are stated once, for any capacity and
    any client threads; the two programs are instances.  The shared state carries the
    history of what was pushed and popped, which the code does not store: the
    specification speaks about it and no operation reads it. *)
From S2P Require Import Prelude Monitor.

Inductive buf_op (A : Type) := Push (item : A) | Pop.
Arguments Push {A} item.
Arguments Pop {A}.

Inductive buf_cond := NotFull | NotEmpty.

#[export] Instance buf_cond_eq : EqDecision buf_cond.
Proof. solve_decision. Defined.

Record buf (A : Type) := mkBuf {
  buffer : list A; head : nat; tail : nat; item_count : nat;
  pushed : list A; popped : list A
}.
Arguments mkBuf {A}.
Arguments buffer {A}.
Arguments head {A}.
Arguments tail {A}.
Arguments item_count {A}.
Arguments pushed {A}.
Arguments popped {A}.

Section ring.
Context {A : Type} (CAP : nat) (d : A).

(** the statements of [push_to_buffer] and [enqueue] between the wait and the signal *)
Definition push_body (item : A) (b : buf A) : buf A :=
  mkBuf (<[tail b := item]> (buffer b)) (head b) ((tail b + 1) mod CAP) (item_count b + 1)
        (pushed b ++ [item]) (popped b).

(** those of [pop_from_buffer] and [dequeue], with the item they return *)
Definition pop_body (b : buf A) : buf A * A :=
  let item := default d (buffer b !! head b) in
  (mkBuf (buffer b) ((head b + 1) mod CAP) (tail b) (item_count b - 1) (pushed b) (popped b ++ [item]), item).

Definition buf_guard (o : buf_op A) (b : buf A) : option buf_cond :=
  match o with
  | Push _ => if (item_count b =? CAP)%nat then Some NotFull else None
  | Pop => if (item_count b =? 0)%nat then Some NotEmpty else None
  end.

Definition buf_signals (o : buf_op A) : list (sig buf_cond) :=
  match o with Push _ => [Signal NotEmpty] | Pop => [Signal NotFull] end.

(** the clients: what a thread calls, and its state after the operation, which for a
    [Pop] depends on the item *)
Context {L : Type} (calls0 : L -> buf_op A -> Prop) (next : L -> option A -> L).

#[export] Instance buffer_monitor : Monitor (buf A) L (buf_op A) buf_cond := {
  entry _ b := b;
  guard := buf_guard;
  body o b l :=
    match o with
    | Push item => (push_body item b, next l None)
    | Pop => let '(b', item) := pop_body b in (b', next l (Some item))
    end;
  signals o _ := buf_signals o;
  calls := calls0;
  local _ _ _ _ := False;
}.

Definition empty_buf : buf A := mkBuf (replicate CAP d) 0 0 0 [] [].

(** ** Specification *)

(** the ring holds, in order, what was pushed and not yet popped *)
Record fifo (b : buf A) : Prop := {
  ring_len : length (buffer b) = CAP;
  ring_head : (head b < CAP)%nat;
  ring_count : (item_count b <= CAP)%nat;
  ring_tail : tail b = ((head b + item_count b) mod CAP)%nat;
  ring_queue : exists q, pushed b = popped b ++ q /\ length q = item_count b /\
    forall i x, q !! i = Some x -> buffer b !! ((head b + i) mod CAP)%nat = Some x;
}.

(** ** Lemmas *)

Lemma wrap n : (n < 2 * CAP)%nat -> (n mod CAP)%nat = if decide (n < CAP)%nat then n else (n - CAP)%nat.
Proof.
  intros Hn. destruct (decide (n < CAP)%nat) as [Hlt|Hge]; [by apply Nat.mod_small|].
  replace n with (n - CAP + 1 * CAP)%nat at 1 by lia. rewrite Nat.Div0.mod_add. apply Nat.mod_small. lia.
Qed.

Lemma push_fifo item b : fifo b -> item_count b <> CAP -> fifo (push_body item b).
Proof.
  intros [Hl Hh Hc Ht (q & Hq & Hlen & Hbuf)] Hne. unfold push_body. split; simpl.
  - by rewrite length_insert.
  - done.
  - lia.
  - rewrite Ht, !wrap by (rewrite ?wrap by lia; repeat case_decide; lia). repeat case_decide; lia.
  - exists (q ++ [item]). rewrite Hq, app_assoc. split; [done|]. split; [rewrite length_app; simpl; lia|].
    intros i x Hx. assert (i < CAP)%nat as Hi.
    { apply lookup_lt_Some in Hx. rewrite length_app in Hx. simpl in Hx. lia. }
    destruct (decide (i = item_count b)) as [->|Hi'].
    + rewrite <- Hlen, list_lookup_middle in Hx by done. injection Hx as <-. rewrite Ht.
      apply list_lookup_insert_eq. rewrite Hl. apply Nat.mod_upper_bound. lia.
    + assert (i < length q)%nat as Hiq.
      { apply lookup_lt_Some in Hx. rewrite length_app in Hx. simpl in Hx. lia. }
      rewrite lookup_app_l in Hx by done. rewrite list_lookup_insert_ne; [by apply Hbuf|].
      rewrite Ht, !wrap by lia. repeat case_decide; lia.
Qed.

Lemma pop_fifo b : fifo b -> item_count b <> 0%nat -> fifo (pop_body b).1.
Proof.
  intros [Hl Hh Hc Ht (q & Hq & Hlen & Hbuf)] Hne. unfold pop_body. split; simpl.
  - done.
  - apply Nat.mod_upper_bound. lia.
  - lia.
  - rewrite Ht, !wrap by (rewrite ?wrap by lia; repeat case_decide; lia). repeat case_decide; lia.
  - destruct q as [|x q]; [simpl in Hlen; lia|]. exists q. simpl in Hlen.
    pose proof (Hbuf O x eq_refl) as H0. rewrite Nat.add_0_r, Nat.mod_small in H0 by done. rewrite H0. simpl.
    rewrite Hq, <- app_assoc. split; [done|]. split; [lia|]. intros i y Hy.
    pose proof (lookup_lt_Some _ _ _ Hy). specialize (Hbuf (S i) y Hy).
    rewrite <- Hbuf. f_equal. rewrite !wrap by (rewrite ?wrap by lia; repeat case_decide; lia).
    repeat case_decide; lia.
Qed.

Lemma empty_fifo : (0 < CAP)%nat -> fifo empty_buf.
Proof.
  intros HC. split; simpl; [apply length_replicate|done|lia|by rewrite Nat.mod_small|].
  by exists [].
Qed.

Lemma step_fifo c c' : fifo (shared c) -> step c c' -> fifo (shared c').
Proof.
  intros Hf Hs. destruct Hs as [| | | | |sh ths ths' t l o sh' l' Ht Hg Hb _|]; simpl in *; try done.
  destruct o as [item|]; simpl in *.
  - injection Hb as <- _. apply push_fifo; [done|]. by destruct (Nat.eqb_spec (item_count sh) CAP).
  - injection Hb as <- _. apply (pop_fifo sh Hf). by destruct (Nat.eqb_spec (item_count sh) 0).
Qed.

(** *** Wakeups *)

Definition awake_push (x : status (buf_op A) buf_cond * L) : bool :=
  match x.1 with In (Push _) | Woken (Push _) => true | _ => false end.
Definition awake_pop (x : status (buf_op A) buf_cond * L) : bool :=
  match x.1 with In Pop | Woken Pop => true | _ => false end.

(** asleep on the wrong condition *)
Definition confused (x : status (buf_op A) buf_cond * L) : bool :=
  match x.1 with Asleep (Push _) NotEmpty | Asleep Pop NotFull => true | _ => false end.

(** the free places, resp. the items, are covered by threads that are on their way *)
Definition covered (b : buf A) (ths : list (status (buf_op A) buf_cond * L)) : Prop :=
  count confused ths = 0 /\
  (1 <= count (sleeps_on NotFull) ths -> Z.of_nat CAP - Z.of_nat (item_count b) <= count awake_push ths) /\
  (1 <= count (sleeps_on NotEmpty) ths -> Z.of_nat (item_count b) <= count awake_pop ths).

Lemma not_confused ths u o c l : count confused ths = 0 -> ths !! u = Some (Asleep o c, l) ->
  match o with Push _ => c = NotFull | Pop => c = NotEmpty end.
Proof.
  intros Hc Hu. destruct (confused (Asleep o c, l)) eqn:Hx.
  - pose proof (count_lookup confused ths u _ Hu Hx). lia.
  - by destruct o, c.
Qed.

(** the counters after the thread at [t] moved; the tests of its status are decided *)
Ltac recount Ht :=
  rewrite !(count_insert _ _ _ _ _ Ht); unfold sleeps_on, confused, awake_push, awake_pop;
  cbn [fst snd]; fold confused awake_push awake_pop (sleeps_on (Op := buf_op A) (L := L) NotFull)
    (sleeps_on (Op := buf_op A) (L := L) NotEmpty);
  change (bool_decide (NotFull = NotEmpty)) with false; change (bool_decide (NotEmpty = NotFull)) with false;
  change (bool_decide (NotFull = NotFull)) with true; change (bool_decide (NotEmpty = NotEmpty)) with true;
  cbv iota.

Lemma exit_covered b ths ths' t l o l' b' : fifo b -> covered b ths -> ths !! t = Some (In o, l) ->
  buf_guard o b = None -> body (Monitor := buffer_monitor) o b l = (b', l') ->
  wakes (buf_signals o) (<[t := (Idle, l')]> ths) ths' -> covered b' ths'.
Proof.
  intros Hf (Hbad & H1 & H2) Ht Hg Hb Hw. pose proof (ring_count b Hf).
  assert (count confused (<[t := (Idle, l')]> ths) = 0) as Hbad'.
  { recount Ht. destruct o; lia. }
  destruct o as [item|]; simpl in Hg, Hb, Hw.
  - destruct (Nat.eqb_spec (item_count b) CAP); [done|]. injection Hb as <- _. unfold covered, push_body. simpl.
    apply signal_inv in Hw as [[-> Hno]|(u & o & lu & Hu & ->)].
    + split; [done|]. rewrite Hno. split; [|lia]. recount Ht. lia.
    + pose proof (not_confused _ _ _ _ _ Hbad' Hu) as Ho. destruct o; [done|].
      recount Hu. recount Ht. pose proof (count_lookup (sleeps_on NotEmpty) _ u _ Hu eq_refl) as Hs.
      revert Hs Hbad'. recount Ht. lia.
  - destruct (Nat.eqb_spec (item_count b) 0); [done|]. injection Hb as <- _. unfold covered, pop_body. simpl.
    apply signal_inv in Hw as [[-> Hno]|(u & o & lu & Hu & ->)].
    + split; [done|]. rewrite Hno. split; [lia|]. recount Ht. lia.
    + pose proof (not_confused _ _ _ _ _ Hbad' Hu) as Ho. destruct o; [|done].
      recount Hu. recount Ht. pose proof (count_lookup (sleeps_on NotFull) _ u _ Hu eq_refl) as Hs.
      revert Hs Hbad'. recount Ht. lia.
Qed.

Lemma step_covered c c' : fifo (shared c) -> covered (shared c) (threads c) -> step c c' ->
  covered (shared c') (threads c').
Proof.
  intros Hf Hcov Hs. pose proof (ring_count _ Hf) as Hn.
  destruct Hs as [? ? ? ? ? ? ? ? []|sh ow ths t l o Ht _|sh ths t l o Ht|sh ths t l o Ht
    |sh ths t l o c Ht Hg|sh ths ths' t l o sh' l' Ht Hg Hb Hw|sh ow ths t l o c Ht]; simpl in *.
  - destruct Hcov as (Hbad & H1 & H2). unfold covered. recount Ht. destruct o; lia.
  - destruct Hcov as (Hbad & H1 & H2). unfold covered. recount Ht. destruct o; lia.
  - destruct Hcov as (Hbad & H1 & H2). unfold covered. recount Ht. destruct o; lia.
  - destruct Hcov as (Hbad & H1 & H2). unfold covered.
    destruct o as [item|]; simpl in Hg.
    + destruct (Nat.eqb_spec (item_count sh) CAP); [|done]. injection Hg as <-.
      pose proof (count_lookup awake_push _ t _ Ht eq_refl). recount Ht. lia.
    + destruct (Nat.eqb_spec (item_count sh) 0); [|done]. injection Hg as <-.
      pose proof (count_lookup awake_pop _ t _ Ht eq_refl). recount Ht. lia.
  - by eapply exit_covered.
  - pose proof Hcov as (Hbad & H1 & H2). pose proof (not_confused _ _ _ _ _ Hbad Ht) as Ho.
    assert (1 <= count (sleeps_on c) ths) as Hs.
    { apply (count_lookup _ _ t _ Ht). by apply bool_decide_eq_true. }
    unfold covered. destruct o, c; try done; recount Ht; lia.
Qed.

Lemma count_init p (ls : list L) : (forall l, p (Idle, l) = false) ->
  count p ((fun l => (Idle : status (buf_op A) buf_cond, l)) <$> ls) = 0.
Proof. intros Hp. apply count_zero, Forall_fmap, Forall_forall. intros l _. apply Hp. Qed.

Lemma buffer_inv ls c : (0 < CAP)%nat -> reachable empty_buf ls c ->
  fifo (shared c) /\ covered (shared c) (threads c).
Proof.
  intros HC. apply (reachable_inv (fun c => fifo (shared c) /\ covered (shared c) (threads c))).
  - split; [by apply empty_fifo|]. unfold covered. simpl. by rewrite !count_init.
  - intros c1 c2 _ [Hf Hcov] Hs. split; [by eapply step_fifo|by eapply step_covered].
Qed.
End ring.

(** ** POSIX/futexTask.c *)
Module FutexTask.

Definition BUFFER_CAPACITY : nat := 10.
Definition ITEMS_PER_PRODUCER : Z := 10.
Definition TOTAL_PRODUCERS : Z := 5.
Definition TOTAL_CONSUMERS : Z := 5.

(** a producer with its loop counter, a consumer with the items it processed *)
Inductive client := Producer (producer_id i : Z) | Consumer (items : list Z).

Definition items_to_consume : Z := TOTAL_PRODUCERS * ITEMS_PER_PRODUCER / TOTAL_CONSUMERS.

Definition calls (l : client) (o : buf_op Z) : Prop :=
  match l with
  | Producer producer_id i => i < ITEMS_PER_PRODUCER /\ o = Push (producer_id * 100 + i)
  | Consumer items => Z.of_nat (length items) < items_to_consume /\ o = Pop
  end.

Definition next (l : client) (r : option Z) : client :=
  match l, r with
  | Producer producer_id i, _ => Producer producer_id (i + 1)
  | Consumer items, Some item => Consumer (items ++ [item])
  | Consumer items, None => Consumer items
  end.

(** the threads that [main] creates *)
Definition main : list client :=
  ((fun i => Producer i 0) <$> seqZ 1 TOTAL_PRODUCERS) ++
  ((fun _ => Consumer []) <$> seqZ 1 TOTAL_CONSUMERS).

#[global] Instance monitor : Monitor (buf Z) client (buf_op Z) buf_cond :=
  buffer_monitor BUFFER_CAPACITY 0 calls next.
End FutexTask.

(** ** POSIX/posix.c *)
Module RequestQueue.

Definition QUEUE_SIZE : nat := 8.
Definition WORKER_COUNT : Z := 4.
Definition MAX_CLIENTS : Z := 3.
Definition REQUESTS_PER_CLIENT : Z := 5.
Definition MAX_TEXT : nat := 64.

Record request_t := mkRequest { id : Z; text : string }.

(** a client with its loop counter, a worker with the requests it processed and
    whether it has seen the shutdown request, and [main] with the number of shutdown
    requests it has sent *)
Inductive client :=
| Client (client_id iterator : Z) | Worker (done : list request_t) (stopped : bool) | Main (sent : Z).

(** [snprintf] into [MAX_TEXT] bytes *)
Definition request_text (client_id iterator : Z) : string :=
  strtrunc (MAX_TEXT - 1) ("Client " +:+ pretty client_id +:+ " request #" +:+ pretty (iterator + 1)).

Definition shutdown : request_t := mkRequest (-1) "".

(** a client may get any positive number from [next_request_id]; [main] waits for the
    clients before it sends the shutdown requests, which is left open here *)
Definition calls (l : client) (o : buf_op request_t) : Prop :=
  match l with
  | Client client_id iterator =>
      iterator < REQUESTS_PER_CLIENT /\
      exists n, 1 <= n /\ o = Push (mkRequest n (request_text client_id iterator))
  | Worker _ stopped => stopped = false /\ o = Pop
  | Main sent => sent < WORKER_COUNT /\ o = Push shutdown
  end.

Definition next (l : client) (r : option request_t) : client :=
  match l, r with
  | Client client_id iterator, _ => Client client_id (iterator + 1)
  | Worker done stopped, Some req =>
      if id req =? -1 then Worker done true else Worker (done ++ [req]) stopped
  | Worker done stopped, None => Worker done stopped
  | Main sent, _ => Main (sent + 1)
  end.

Definition main : list client :=
  ((fun _ => Worker [] false) <$> seqZ 1 WORKER_COUNT) ++
  ((fun i => Client i 0) <$> seqZ 1 MAX_CLIENTS) ++ [Main 0].

#[global] Instance monitor : Monitor (buf request_t) client (buf_op request_t) buf_cond :=
  buffer_monitor QUEUE_SIZE shutdown calls next.
End RequestQueue.

(** ** Properties *)

(** C14: mutual exclusion and order.  With any number of threads, whatever they call
    and however they interleave, at most one thread is inside the monitor, the ring
    never holds more than its capacity, and what was pushed is exactly what was
    popped, in the same order, followed by what the ring holds. *)
Theorem buffer_fifo {A L} (CAP : nat) (d : A) (calls : L -> buf_op A -> Prop) (next : L -> option A -> L) ls c :
  (0 < CAP)%nat ->
  reachable (Monitor0 := buffer_monitor CAP d calls next) (empty_buf CAP d) ls c ->
  fifo CAP (shared c) /\
  forall t u o1 o2 l1 l2, threads c !! t = Some (In o1, l1) -> threads c !! u = Some (In o2, l2) -> t = u.
Proof.
  intros HC Hr. split; [by apply (buffer_inv CAP d calls next ls c HC Hr)|].
  intros t u o1 o2 l1 l2 Ht Hu. pose proof (reachable_owned _ _ _ Hr) as Ho.
  assert (owner c = Some t) as H1 by (apply Ho; eauto). assert (owner c = Some u) as H2 by (apply Ho; eauto).
  congruence.
Qed.

(** the first producer of futexTask.c has pushed its first item *)
Definition after_first_push : @config (buf Z) FutexTask.client (buf_op Z) buf_cond :=
  mkConfig (push_body FutexTask.BUFFER_CAPACITY 100 (empty_buf FutexTask.BUFFER_CAPACITY 0)) None
    (<[0%nat := (Idle, FutexTask.Producer 1 1)]> ((fun l => (Idle, l)) <$> FutexTask.main)).

Lemma reach_first_push :
  reachable (empty_buf FutexTask.BUFFER_CAPACITY 0) FutexTask.main after_first_push.
Proof.
  unfold reachable, start, after_first_push.
  eapply rtc_l; [eapply (step_call _ _ _ 0%nat _ (Push 100)); [reflexivity|by split]|].
  eapply rtc_l; [by eapply (step_lock _ _ 0%nat)|].
  eapply rtc_l; [|apply rtc_refl]. eapply (step_exit _ _ _ 0%nat); [reflexivity..|].
  apply wakes_none; [|constructor]. vm_compute. by repeat constructor.
Qed.

Lemma buffer_fifo_witness :
  fifo FutexTask.BUFFER_CAPACITY (shared after_first_push) /\ pushed (shared after_first_push) = [100].
Proof.
  split; [|reflexivity].
  apply (buffer_fifo FutexTask.BUFFER_CAPACITY 0 FutexTask.calls FutexTask.next FutexTask.main after_first_push);
    [unfold FutexTask.BUFFER_CAPACITY; lia|apply reach_first_push].
Defined.

(** No wakeup is lost.  Whenever a thread sleeps because the buffer was full, the
    buffer is still full or some pushing thread is awake inside the wait loop; and
    whenever a thread sleeps because it was empty, it is still empty or some popping
    thread is awake.  In particular threads of both kinds never sleep on each other. *)
Theorem no_lost_wakeup {A L} (CAP : nat) (d : A) (calls : L -> buf_op A -> Prop) (next : L -> option A -> L) ls c :
  (0 < CAP)%nat ->
  reachable (Monitor0 := buffer_monitor CAP d calls next) (empty_buf CAP d) ls c ->
  (forall t x, threads c !! t = Some x -> sleeps_on NotFull x = true ->
     item_count (shared c) = CAP \/ exists u y, threads c !! u = Some y /\ awake_push y = true) /\
  (forall t x, threads c !! t = Some x -> sleeps_on NotEmpty x = true ->
     item_count (shared c) = 0%nat \/ exists u y, threads c !! u = Some y /\ awake_pop y = true).
Proof.
  intros HC Hr. destruct (buffer_inv CAP d calls next ls c HC Hr) as [Hf (_ & H1 & H2)].
  pose proof (ring_count _ _ Hf). split; intros t x Hx Hs.
  - pose proof (count_lookup _ _ _ _ Hx Hs) as Hn. specialize (H1 Hn).
    destruct (decide (item_count (shared c) = CAP)); [by left|right]. apply count_pos. lia.
  - pose proof (count_lookup _ _ _ _ Hx Hs) as Hn. specialize (H2 Hn).
    destruct (decide (item_count (shared c) = 0%nat)); [by left|right]. apply count_pos. lia.
Qed.

(** a consumer of futexTask.c that started alone has gone to sleep *)
Definition consumer_asleep : @config (buf Z) FutexTask.client (buf_op Z) buf_cond :=
  mkConfig (empty_buf FutexTask.BUFFER_CAPACITY 0) None
    [(Asleep Pop NotEmpty, FutexTask.Consumer [])].

Lemma reach_consumer_asleep :
  reachable (empty_buf FutexTask.BUFFER_CAPACITY 0) [FutexTask.Consumer []] consumer_asleep.
Proof.
  unfold reachable, start, consumer_asleep.
  eapply rtc_l; [eapply (step_call _ _ _ 0%nat _ Pop); [reflexivity|by split]|].
  eapply rtc_l; [by eapply (step_lock _ _ 0%nat)|].
  apply (rtc_l _ _ (mkConfig (empty_buf FutexTask.BUFFER_CAPACITY 0) None
    (<[0%nat := (Asleep Pop NotEmpty, FutexTask.Consumer [])]> [(In Pop, FutexTask.Consumer [])])));
    [|apply rtc_refl].
  by apply (step_sleep _ _ 0%nat).
Qed.

Lemma no_lost_wakeup_witness :
  item_count (shared consumer_asleep) = 0%nat \/
  exists u y, threads consumer_asleep !! u = Some y /\ awake_pop y = true.
Proof.
  eapply (no_lost_wakeup FutexTask.BUFFER_CAPACITY 0 FutexTask.calls FutexTask.next
    [FutexTask.Consumer []] consumer_asleep);
    [unfold FutexTask.BUFFER_CAPACITY; lia|apply reach_consumer_asleep|by instantiate (2 := 0%nat)|reflexivity].
Defined.
