(* ===== verification/ReadWriteLock.v ===== *)
(** * The writer-preferring lock of POSIX/read-write.c

    The lock is a monitor; the threads run [reader] and [writer], whose access to
    [shared_data] between the lock and the unlock is their own, in two steps for the
    writer's increment.  [shared_data] is an [int]; once its increment has overflowed it has no
    value, and nobody reads it any more. *)
From S2P Require Import Prelude Monitor.

(** ** The program *)

Record rw := mkRw { readers : Z; writers : Z; waiting_writers : Z; shared_data : outcome Z }.

Inductive rw_op := RdLock | RdUnlock | WrLock | WrUnlock.
Inductive rw_cond := readers_ok | writers_ok.

#[export] Instance rw_cond_eq : EqDecision rw_cond.
Proof. solve_decision. Defined.

Definition rwlock_init : rw := mkRw 0 0 0 (Done 0).

(** the number of increments a writer has made is kept for the specification *)
Inductive client :=
| ROut | RIn | RDone (value : Z)
| WOut (n : Z) | WIn (n : Z) | WRead (n tmp : Z) | WDone (n : Z).

(** the statements before the wait loop *)
Definition rw_entry (o : rw_op) (s : rw) : rw :=
  match o with
  | RdUnlock => mkRw (readers s - 1) (writers s) (waiting_writers s) (shared_data s)
  | WrLock => mkRw (readers s) (writers s) (waiting_writers s + 1) (shared_data s)
  | WrUnlock => mkRw (readers s) 0 (waiting_writers s) (shared_data s)
  | RdLock => s
  end.

Definition rw_guard (o : rw_op) (s : rw) : option rw_cond :=
  match o with
  | RdLock => if (writers s >? 0) || (waiting_writers s >? 0) then Some readers_ok else None
  | WrLock => if (writers s >? 0) || (readers s >? 0) then Some writers_ok else None
  | _ => None
  end.

(** the statements after it, and where the thread goes on *)
Definition rw_body (o : rw_op) (s : rw) (l : client) : rw * client :=
  match o with
  | RdLock => (mkRw (readers s + 1) (writers s) (waiting_writers s) (shared_data s), RIn)
  | RdUnlock => (s, ROut)
  | WrLock => (mkRw (readers s) 1 (waiting_writers s - 1) (shared_data s),
               match l with WOut n => WIn n | _ => l end)
  | WrUnlock => (s, match l with WDone n => WOut n | _ => l end)
  end.

Definition rw_signals (o : rw_op) (s : rw) : list (sig rw_cond) :=
  match o with
  | RdUnlock => if readers s =? 0 then [Signal writers_ok] else []
  | WrUnlock => if waiting_writers s >? 0 then [Signal writers_ok] else [Broadcast readers_ok]
  | _ => []
  end.

Definition rw_calls (l : client) (o : rw_op) : Prop :=
  match l, o with
  | ROut, RdLock | RDone _, RdUnlock | WOut _, WrLock | WDone _, WrUnlock => True
  | _, _ => False
  end.

(** [printf(... shared_data)] of a reader; load and store of [shared_data++] *)
Definition rw_local (s : rw) (l : client) (s' : rw) (l' : client) : Prop :=
  match l with
  | RIn => exists d, shared_data s = Done d /\ s' = s /\ l' = RDone d
  | WIn n => exists d, shared_data s = Done d /\ s' = s /\ l' = WRead n d
  | WRead n tmp =>
      s' = mkRw (readers s) (writers s) (waiting_writers s) (int_chk (tmp + 1)) /\ l' = WDone (n + 1)
  | _ => False
  end.

#[export] Instance rw_monitor : Monitor rw client rw_op rw_cond := {
  entry := rw_entry; guard := rw_guard; body := rw_body; signals := rw_signals;
  calls := rw_calls; local := rw_local;
}.

(** the threads of [main] *)
Definition main : list client := [ROut; ROut; WOut 0].

Abbreviation rw_thread := (status rw_op rw_cond * client)%type.

(** ** Specification *)

(** holding the lock: from the end of the lock operation to the entry of the unlock *)
Definition unlocking (s : status rw_op rw_cond) : bool :=
  match s with In RdUnlock | In WrUnlock => true | _ => false end.

Definition reading (x : rw_thread) : bool :=
  match x.2 with RIn | RDone _ => negb (unlocking x.1) | _ => false end.
Definition writing (x : rw_thread) : bool :=
  match x.2 with WIn _ | WRead _ _ | WDone _ => negb (unlocking x.1) | _ => false end.

(** between the entry and the end of [rwlock_wrlock] *)
Definition wants_write (x : rw_thread) : bool :=
  match x.1 with In WrLock | Asleep WrLock _ | Woken WrLock => true | _ => false end.

(** inside an unlock operation *)
Definition ending (x : rw_thread) : bool := unlocking x.1.
Definition ending_write (x : rw_thread) : bool := match x.1 with In WrUnlock => true | _ => false end.

(** the same, but not asleep *)
Definition awake_writer (x : rw_thread) : bool :=
  match x.1 with In WrLock | Woken WrLock => true | _ => false end.

(** an operation that the thread's program does not call, or a sleep on the wrong condition *)
Definition ill (x : rw_thread) : bool :=
  match x.1, x.2 with
  | Idle, _ => false
  | Want RdLock, ROut | In RdLock, ROut | Woken RdLock, ROut | Asleep RdLock readers_ok, ROut => false
  | Want WrLock, WOut _ | In WrLock, WOut _ | Woken WrLock, WOut _ | Asleep WrLock writers_ok, WOut _ => false
  | Want RdUnlock, RDone _ | In RdUnlock, RDone _ => false
  | Want WrUnlock, WDone _ | In WrUnlock, WDone _ => false
  | _, _ => true
  end.

(** increments made by a thread *)
Definition increments (x : rw_thread) : Z :=
  match x.2 with WOut n | WIn n | WRead n _ | WDone n => n | _ => 0 end.

Fixpoint total (ths : list rw_thread) : Z :=
  match ths with [] => 0 | x :: ths' => increments x + total ths' end.

(** a loaded value that is no longer the current one *)
Definition stale (d : Z) (x : rw_thread) : bool :=
  match x.2 with WRead _ tmp => negb (tmp =? d) | _ => false end.

Record rw_base (s : rw) (ths : list rw_thread) : Prop := {
  ok_ill : count ill ths = 0;
  ok_readers : readers s = count reading ths;
  ok_writers : writers s = count writing ths;
  ok_waiting : waiting_writers s = count wants_write ths;
  ok_one : writers s <= 1;
  ok_excl : writers s = 1 -> readers s = 0;
  ok_data : shared_data s = int_chk (total ths);
  ok_fresh : count (stale (total ths)) ths = 0;
}.

(** whoever sleeps has a reason, or somebody on the way that will wake it up *)
Record rw_ok (s : rw) (ths : list rw_thread) : Prop := {
  ok_base : rw_base s ths;
  ok_readers_asleep : 1 <= count (sleeps_on readers_ok) ths ->
    writers s = 1 \/ 1 <= waiting_writers s \/ 1 <= count ending_write ths;
  ok_writers_asleep : 1 <= count (sleeps_on writers_ok) ths ->
    1 <= readers s \/ writers s = 1 \/ 1 <= count awake_writer ths \/ 1 <= count ending ths;
}.

(** ** Lemmas *)

Lemma total_insert ths t x y : ths !! t = Some y ->
  total (<[t := x]> ths) = total ths - increments y + increments x.
Proof.
  revert t. induction ths as [|z ths IH]; intros [|t]; simpl; try done.
  - intros [= ->]. lia.
  - intros Hy. rewrite (IH t Hy). lia.
Qed.

Lemma total_same ths t x y : ths !! t = Some y -> increments x = increments y -> total (<[t := x]> ths) = total ths.
Proof. intros Ht He. rewrite (total_insert _ _ _ _ Ht). lia. Qed.

Lemma increments_wake x : increments (wake_up x) = increments x.
Proof. by destruct x as [[] l]. Qed.

Lemma total_wakes sigs ths ths' : wakes sigs ths ths' -> total ths' = total ths.
Proof.
  induction 1 as [|c sigs ths ths' Hno _ IH|c t x sigs ths ths' Hx Hc _ IH|c sigs ths ths' _ IH]; [done|done|..].
  - rewrite IH, (total_insert _ _ _ _ Hx), increments_wake. lia.
  - rewrite IH. clear IH. induction ths as [|x ths IH]; [done|]. rewrite fmap_cons. cbn [total].
    rewrite IH. destruct (sleeps_on c x); [by rewrite increments_wake|done].
Qed.

(** what is known of a thread that is not ill *)
Lemma not_ill ths t x : count ill ths = 0 -> ths !! t = Some x -> ill x = false.
Proof.
  intros Hc Ht. destruct (ill x) eqn:Hx; [|done]. pose proof (count_lookup ill ths t x Ht Hx). lia.
Qed.

Lemma writer_asleep_waits ths : count ill ths = 0 -> 1 <= count (sleeps_on writers_ok) ths ->
  1 <= count wants_write ths.
Proof.
  intros Hc (t & x & Ht & Hx)%count_pos. pose proof (not_ill _ _ _ Hc Ht) as Hi.
  apply (count_lookup _ _ _ _ Ht). destruct x as [[| | |o c|] l]; try done.
  simpl in Hx. apply bool_decide_eq_true in Hx as ->. by destruct o, l.
Qed.

(** two threads that hold the lock for writing are the same *)
Lemma one_writer ths t u x y : count writing ths <= 1 -> ths !! t = Some x -> ths !! u = Some y ->
  writing x = true -> writing y = true -> t = u.
Proof.
  intros Hc Ht Hu Hx Hy. destruct (decide (t = u)) as [->|Hne]; [done|].
  assert (<[t := (Idle, ROut)]> ths !! u = Some y) as Hu' by by rewrite list_lookup_insert_ne.
  pose proof (count_lookup _ _ _ _ Hu' Hy) as H1. rewrite (count_insert _ _ _ _ _ Ht), Hx in H1. simpl in H1. lia.
Qed.

Ltac nonneg :=
  repeat match goal with
  | |- context [count ?p ?ths] =>
      lazymatch goal with
      | _ : 0 <= count p ths |- _ => fail
      | _ => pose proof (count_nonneg p ths)
      end
  end.

Ltac tally Ht :=
  rewrite ?(total_same _ _ _ _ Ht) by done; rewrite ?(count_insert _ _ _ _ _ Ht), ?(total_insert _ _ _ _ Ht);
  unfold increments; simpl; nonneg.

(** counting, and the data that is as before *)
Ltac settle := first [assumption | lia].

(** the store of the increment *)
Lemma data_stored s ths t n tmp : rw_ok s ths -> ths !! t = Some (Idle, WRead n tmp) ->
  rw_ok (mkRw (readers s) (writers s) (waiting_writers s) (int_chk (tmp + 1))) (<[t := (Idle, WDone (n + 1))]> ths).
Proof.
  intros Hok Ht. pose proof Hok as [[] ? ?]. pose proof (count_lookup writing _ t _ Ht eq_refl).
  assert (tmp = total ths) as ->.
  { destruct (stale (total ths) (Idle, WRead n tmp)) eqn:Hst.
    - pose proof (count_lookup _ _ _ _ Ht Hst). lia.
    - apply negb_false_iff, Z.eqb_eq in Hst. done. }
  assert (total (<[t := (Idle, WDone (n + 1))]> ths) = total ths + 1) as He by (tally Ht; settle).
  assert (count (stale (total ths + 1)) (<[t := (Idle, WDone (n + 1))]> ths) = 0) as Hfresh.
  { apply count_zero, Forall_lookup. intros u x Hu. destruct (decide (t = u)) as [->|Hne].
    - rewrite list_lookup_insert_eq in Hu by (by eapply lookup_lt_Some). by injection Hu as <-.
    - rewrite list_lookup_insert_ne in Hu by done. pose proof (not_ill _ _ _ ok_ill0 Hu) as Hi.
      destruct x as [st []]; try done. assert (st = Idle) as -> by by destruct st as [|[]|[]|[] []|[]].
      destruct Hne. eapply (one_writer ths); [lia|done..]. }
  split; [split; rewrite ?He; try done|..]; tally Ht; settle.
Qed.

Lemma step_local_ok s ths t l s' l' : rw_ok s ths -> ths !! t = Some (Idle, l) -> rw_local s l s' l' ->
  rw_ok s' (<[t := (Idle, l')]> ths).
Proof.
  intros Hok Ht Hl. pose proof Hok as [[] ? ?]. destruct l as [| | | |n|n tmp|]; simpl in Hl; try done.
  - destruct Hl as (d & Hd & -> & ->). (split; [split|..]); tally Ht; settle.
  - destruct Hl as (d & Hd & -> & ->). pose proof ok_data0 as Hdata.
    rewrite Hd in ok_data0. symmetry in ok_data0. apply int_chk_Done in ok_data0 as ->.
    assert (stale (total ths) (Idle, WRead n (total ths)) = false) as Hst by (by apply negb_false_iff, Z.eqb_eq).
    (split; [split|..]); tally Ht; rewrite ?Hst; settle.
  - destruct Hl as [-> ->]. by eapply data_stored.
Qed.

Lemma step_call_ok s ths t l o : rw_ok s ths -> ths !! t = Some (Idle, l) -> rw_calls l o ->
  rw_ok s (<[t := (Want o, l)]> ths).
Proof.
  intros [[] ? ?] Ht Hc. destruct l, o; simpl in Hc; try done; (split; [split|..]); tally Ht; settle.
Qed.

Lemma step_lock_ok s ths t l o : rw_ok s ths -> ths !! t = Some (Want o, l) ->
  rw_ok (rw_entry o s) (<[t := (In o, l)]> ths).
Proof.
  intros [[] ? ?] Ht. pose proof (not_ill _ _ _ ok_ill0 Ht) as Hi.
  pose proof (count_lookup writing _ t _ Ht) as Hw. pose proof (count_lookup reading _ t _ Ht) as Hr.
  destruct l, o; simpl in Hi; try done; try specialize (Hw eq_refl); try specialize (Hr eq_refl);
    (split; [split|..]); tally Ht; settle.
Qed.

Lemma step_relock_ok s ths t l o : rw_ok s ths -> ths !! t = Some (Woken o, l) ->
  rw_ok s (<[t := (In o, l)]> ths).
Proof.
  intros [[] ? ?] Ht. pose proof (not_ill _ _ _ ok_ill0 Ht) as Hi.
  destruct l, o; simpl in Hi; try done; (split; [split|..]); tally Ht; settle.
Qed.

Lemma step_spurious_ok s ths t l o c : rw_ok s ths -> ths !! t = Some (Asleep o c, l) ->
  rw_ok s (<[t := (Woken o, l)]> ths).
Proof.
  intros [[] ? ?] Ht. pose proof (not_ill _ _ _ ok_ill0 Ht) as Hi.
  destruct l, o, c; simpl in Hi; try done; (split; [split|..]); tally Ht; settle.
Qed.

Lemma step_sleep_ok s ths t l o c : rw_ok s ths -> ths !! t = Some (In o, l) -> rw_guard o s = Some c ->
  rw_ok s (<[t := (Asleep o c, l)]> ths).
Proof.
  intros [[] ? ?] Ht Hg. pose proof (not_ill _ _ _ ok_ill0 Ht) as Hi.
  assert (writers s > 0 \/ waiting_writers s > 0 \/ c <> readers_ok) as H1.
  { destruct o; simpl in Hg; zcases_in Hg; simpl in Hg; first [lia|injection Hg as <-; by right; right|done]. }
  destruct l, o; simpl in Hi, Hg; try done; zcases_in Hg; simpl in Hg; try done; injection Hg as <-;
    (split; [split|..]); tally Ht; settle.
Qed.

Lemma wakes_base s sigs ths ths' : rw_base s ths -> wakes sigs ths ths' -> rw_base s ths'.
Proof.
  intros [] Hw. split.
  - assert (count ill ths' <= count ill ths).
    { apply (count_wakes_anti _ sigs); [|done]. by intros [[| | |[] []|] []]. }
    pose proof (count_nonneg ill ths'). lia.
  - rewrite (count_wakes reading _ _ _ ltac:(done) Hw). done.
  - rewrite (count_wakes writing _ _ _ ltac:(done) Hw). done.
  - rewrite (count_wakes wants_write _ _ _ ltac:(done) Hw). done.
  - done.
  - done.
  - by rewrite (total_wakes _ _ _ Hw).
  - by rewrite (total_wakes _ _ _ Hw), (count_wakes (stale _) _ _ _ ltac:(done) Hw).
Qed.

Lemma exit_base s ths t l o s' l' : rw_ok s ths -> ths !! t = Some (In o, l) -> rw_guard o s = None ->
  rw_body o s l = (s', l') -> rw_base s' (<[t := (Idle, l')]> ths).
Proof.
  intros [[] ? ?] Ht Hg Hb. pose proof (not_ill _ _ _ ok_ill0 Ht) as Hi.
  pose proof (count_nonneg reading ths). pose proof (count_nonneg writing ths).
  destruct l, o; simpl in Hi, Hg, Hb; try done; injection Hb as <- <-; zcases_in Hg; simpl in Hg; try done;
    split; tally Ht; settle.
Qed.

Lemma signal_writers ths ths' : count ill ths = 0 -> wakes [Signal writers_ok] ths ths' ->
  1 <= count (sleeps_on writers_ok) ths' -> 1 <= count awake_writer ths'.
Proof.
  intros Hill Hw Hs. apply signal_inv in Hw as [[-> H0]|(u & o & l & Hu & ->)]; [lia|].
  assert (<[u := (Woken o, l)]> ths !! u = Some (Woken o, l)) as Hu'.
  { apply list_lookup_insert_eq. by eapply lookup_lt_Some. }
  apply (count_lookup _ _ _ _ Hu'). pose proof (not_ill _ _ _ Hill Hu) as Hi. by destruct o, l.
Qed.

Lemma exit_readers_asleep s ths ths' t l o s' l' : rw_ok s ths -> ths !! t = Some (In o, l) ->
  rw_guard o s = None -> rw_body o s l = (s', l') ->
  wakes (rw_signals o s') (<[t := (Idle, l')]> ths) ths' -> 1 <= count (sleeps_on readers_ok) ths' ->
  writers s' = 1 \/ 1 <= waiting_writers s' \/ 1 <= count ending_write ths'.
Proof.
  intros [[] Hra _] Ht Hg Hb Hw Hs. pose proof (not_ill _ _ _ ok_ill0 Ht) as Hi.
  pose proof (count_wakes_sleep readers_ok _ _ _ Hw) as Hsr.
  pose proof (count_wakes ending_write _ _ _ ltac:(done) Hw) as Hew.
  revert Hsr Hew. tally Ht. intros Hsr Hew.
  destruct l, o; simpl in Hi, Hg, Hb; try done; injection Hb as <- <-; simpl in *; try lia.
  destruct (Z.gtb_spec (waiting_writers s) 0); [lia|]. apply broadcast_inv in Hw as [_ Hz]. lia.
Qed.

Lemma exit_writers_asleep s ths ths' t l o s' l' : rw_ok s ths -> ths !! t = Some (In o, l) ->
  rw_guard o s = None -> rw_body o s l = (s', l') ->
  wakes (rw_signals o s') (<[t := (Idle, l')]> ths) ths' -> rw_base s' (<[t := (Idle, l')]> ths) ->
  rw_base s' ths' -> 1 <= count (sleeps_on writers_ok) ths' ->
  1 <= readers s' \/ writers s' = 1 \/ 1 <= count awake_writer ths' \/ 1 <= count ending ths'.
Proof.
  intros [[] _ Hwa] Ht Hg Hb Hw Hbase Hbase' Hs. pose proof (not_ill _ _ _ ok_ill0 Ht) as Hi.
  pose proof (ok_ill _ _ Hbase) as Hill. pose proof (count_nonneg reading ths).
  destruct l, o; simpl in Hi, Hg, Hb; try done; injection Hb as <- <-; simpl in Hw; [simpl; lia| |simpl; by right; left|].
  - destruct (Z.eqb_spec (readers s) 0).
    + right. right. left. by eapply signal_writers.
    + left. lia.
  - destruct (Z.gtb_spec (waiting_writers s) 0).
    + right. right. left. by eapply signal_writers.
    + pose proof (writer_asleep_waits ths' (ok_ill _ _ Hbase') Hs). pose proof (ok_waiting _ _ Hbase'). simpl in *. lia.
Qed.

Lemma rw_step_ok c c' : owned c -> rw_ok (shared c) (threads c) -> step c c' -> rw_ok (shared c') (threads c').
Proof.
  intros _ Hok Hs. destruct Hs; simpl in *.
  - by eapply step_local_ok.
  - by eapply step_call_ok.
  - by eapply step_lock_ok.
  - by eapply step_relock_ok.
  - by eapply step_sleep_ok.
  - assert (rw_base sh' (<[t := (Idle, l')]> ths)) by (by eapply exit_base).
    assert (rw_base sh' ths') by (by eapply wakes_base).
    split; [done| |]; intros Hs; [by eapply exit_readers_asleep|by eapply exit_writers_asleep].
  - by eapply step_spurious_ok.
Qed.

(** a thread that has not started *)
Definition fresh_client (l : client) : Prop := match l with ROut => True | WOut n => n = 0 | _ => False end.

Lemma start_ok ls : Forall fresh_client ls -> rw_ok rwlock_init (threads (start rwlock_init ls)).
Proof.
  intros Hls. assert (forall p, (forall l, fresh_client l -> p (Idle, l) = false) ->
    count p ((fun l => (Idle : status rw_op rw_cond, l)) <$> ls) = 0) as H0.
  { intros p Hp. apply count_zero, Forall_fmap. eapply Forall_impl; [exact Hls|]. simpl. auto. }
  assert (total ((fun l => (Idle : status rw_op rw_cond, l)) <$> ls) = 0) as Ht.
  { clear H0. induction Hls as [|l ls Hl _ IH]; [done|]. rewrite fmap_cons. cbn [total]. rewrite IH.
    by destruct l; simpl in *; subst. }
  split; [split|..]; simpl; rewrite ?H0, ?Ht by (by intros []); done.
Qed.

Lemma rw_inv ls c : Forall fresh_client ls -> reachable rwlock_init ls c -> rw_ok (shared c) (threads c).
Proof.
  intros Hls. apply (reachable_inv (fun c => rw_ok (shared c) (threads c))); [by apply start_ok|].
  intros c1 c2. apply rw_step_ok.
Qed.

(** ** Properties *)

(** C12: with any number of readers and writers and any interleaving, while a thread
    holds the lock for writing no other thread holds it for reading or writing, and
    the counters count the holders and the writers in the queue.  No increment of
    [shared_data] is lost, although a writer loads and stores it in two steps: its
    value is the number of increments made, checked against the range of [int], so
    that it is undefined exactly when there have been more than [INT_MAX] of them. *)
Theorem rwlock_exclusion ls c : Forall fresh_client ls -> reachable rwlock_init ls c ->
  readers (shared c) = count reading (threads c) /\
  writers (shared c) = count writing (threads c) /\
  waiting_writers (shared c) = count wants_write (threads c) /\
  shared_data (shared c) = int_chk (total (threads c)) /\
  forall t x, threads c !! t = Some x -> writing x = true ->
    count writing (threads c) = 1 /\ count reading (threads c) = 0.
Proof.
  intros Hls Hr. destruct (rw_inv ls c Hls Hr) as [[] _ _]. split_and!; [done..|].
  intros t x Ht Hx. pose proof (count_lookup _ _ _ _ Ht Hx). lia.
Qed.

(** C13: no wakeup is lost: a sleeping reader waits for a writer that holds the lock, is
    in the queue or is just releasing it; a sleeping writer waits for a holder, for
    an unlock that is under way or for another writer that is awake. *)
Theorem rwlock_no_lost_wakeup ls c : Forall fresh_client ls -> reachable rwlock_init ls c ->
  (1 <= count (sleeps_on readers_ok) (threads c) ->
     writers (shared c) = 1 \/ 1 <= waiting_writers (shared c) \/ 1 <= count ending_write (threads c)) /\
  (1 <= count (sleeps_on writers_ok) (threads c) ->
     1 <= readers (shared c) \/ writers (shared c) = 1 \/ 1 <= count awake_writer (threads c) \/
     1 <= count ending (threads c)).
Proof. intros Hls Hr. by destruct (rw_inv ls c Hls Hr). Qed.

(** the writer of [main] holds the lock and has loaded the data *)
Definition writer_inside : @config rw client rw_op rw_cond :=
  mkConfig (mkRw 0 1 0 (Done 0)) None [(Idle, ROut); (Idle, ROut); (Idle, WRead 0 0)].

Lemma main_fresh : Forall fresh_client main.
Proof. by repeat constructor. Qed.

Lemma reach_writer_inside : reachable rwlock_init main writer_inside.
Proof.
  apply (rtc_l _ _ (mkConfig rwlock_init None [(Idle, ROut); (Idle, ROut); (Want WrLock, WOut 0)])).
  { exact (step_call rwlock_init None [(Idle, ROut); (Idle, ROut); (Idle, WOut 0)] 2%nat _ WrLock eq_refl I). }
  apply (rtc_l _ _ (mkConfig (mkRw 0 0 1 (Done 0)) (Some 2%nat) [(Idle, ROut); (Idle, ROut); (In WrLock, WOut 0)])).
  { exact (step_lock rwlock_init [(Idle, ROut); (Idle, ROut); (Want WrLock, WOut 0)] 2%nat _ WrLock eq_refl). }
  apply (rtc_l _ _ (mkConfig (mkRw 0 1 0 (Done 0)) None [(Idle, ROut); (Idle, ROut); (Idle, WIn 0)])).
  { exact (step_exit (mkRw 0 0 1 (Done 0)) [(Idle, ROut); (Idle, ROut); (In WrLock, WOut 0)] _ 2%nat _ WrLock _ _
      eq_refl eq_refl eq_refl (wakes_nil _)). }
  apply rtc_once.
  refine (step_local (mkRw 0 1 0 (Done 0)) None [(Idle, ROut); (Idle, ROut); (Idle, WIn 0)] 2%nat (WIn 0)
    (mkRw 0 1 0 (Done 0)) (WRead 0 0) eq_refl _). by exists 0.
Qed.

Lemma rwlock_exclusion_witness : count writing (threads writer_inside) = 1 /\ count reading (threads writer_inside) = 0.
Proof.
  destruct (rwlock_exclusion main writer_inside main_fresh reach_writer_inside) as (_ & _ & _ & _ & H).
  by apply (H 2%nat (Idle, WRead 0 0)).
Defined.

(** then a reader comes and waits *)
Definition reader_asleep : @config rw client rw_op rw_cond :=
  mkConfig (mkRw 0 1 0 (Done 0)) None [(Asleep RdLock readers_ok, ROut); (Idle, ROut); (Idle, WRead 0 0)].

Lemma reach_reader_asleep : reachable rwlock_init main reader_asleep.
Proof.
  eapply rtc_r; [eapply rtc_r; [eapply rtc_r; [exact reach_writer_inside|]|]|].
  - exact (step_call (mkRw 0 1 0 (Done 0)) None [(Idle, ROut); (Idle, ROut); (Idle, WRead 0 0)] 0%nat _ RdLock eq_refl I).
  - exact (step_lock (mkRw 0 1 0 (Done 0)) [(Want RdLock, ROut); (Idle, ROut); (Idle, WRead 0 0)] 0%nat _ RdLock eq_refl).
  - exact (step_sleep (mkRw 0 1 0 (Done 0)) [(In RdLock, ROut); (Idle, ROut); (Idle, WRead 0 0)] 0%nat _ RdLock readers_ok
      eq_refl eq_refl).
Qed.

Lemma rwlock_no_lost_wakeup_witness :
  writers (shared reader_asleep) = 1 \/ 1 <= waiting_writers (shared reader_asleep) \/
  1 <= count ending_write (threads reader_asleep).
Proof.
  destruct (rwlock_no_lost_wakeup main reader_asleep main_fresh reach_reader_asleep) as [H _].
  apply H. by vm_compute.
Defined.
