(* ===== verification/TurnTaking.v ===== *)
(** * The alternating printers of TASK/ThreadsTask.c

    Two threads print the numbers in turn under one mutex and one condition variable.
    They are a monitor; the test of the loop head, [while (count <= MAX)], is made
    without the lock and is a step of its own.  The shared state carries what was
    printed; [moved] is whether the last body took the branch that prints and signals. *)
From S2P Require Import Prelude Monitor.

(** ** The program *)

Definition MAX : Z := 20.

Inductive printer := Odd | Even.

#[export] Instance printer_eq : EqDecision printer.
Proof. solve_decision. Defined.

(** where a thread is outside the lock: at the loop head, behind its test, returned *)
Inductive place := Head | Body | Returned.

Record turn := mkTurn { count : Z; printed : list (printer * Z); moved : bool }.

Definition start_turn : turn := mkTurn 1 [] false.

(** [while (count % 2 == 0) pthread_cond_wait(&cond, &lock)], and [!= 0] *)
Definition turn_guard (o : printer) (s : turn) : option unit :=
  match o with
  | Odd => if Z.rem (count s) 2 =? 0 then Some tt else None
  | Even => if negb (Z.rem (count s) 2 =? 0) then Some tt else None
  end.

Definition turn_body (o : printer) (s : turn) : turn :=
  if count s <=? MAX then mkTurn (count s + 1) (printed s ++ [(o, count s)]) true
  else mkTurn (count s) (printed s) false.

Definition turn_signals (s : turn) : list (sig unit) := if moved s then [Signal tt] else [].

(** a thread is its function and its place *)
Abbreviation client := (printer * place)%type.

Definition turn_calls (l : client) (o : printer) : Prop := l = (o, Body).

Definition turn_local (s : turn) (l : client) (s' : turn) (l' : client) : Prop :=
  s' = s /\ l.2 = Head /\ l' = (l.1, if count s <=? MAX then Body else Returned).

#[export] Instance turn_monitor : Monitor turn client printer unit := {|
  entry _ s := s;
  guard := turn_guard;
  body o s l := (turn_body o s, (l.1, Head));
  signals _ := turn_signals;
  calls := turn_calls;
  local := turn_local;
|}.

Definition main : list client := [(Odd, Head); (Even, Head)].

(** ** Specification *)

(** what has been printed when the counter is [n + 1] *)
Fixpoint numbers (n : nat) : list (printer * Z) :=
  match n with
  | O => []
  | S n => numbers n ++ [(if Z.even (Z.of_nat (S n)) then Even else Odd, Z.of_nat (S n))]
  end.

(** the two threads, the odd one first *)
Abbreviation conf := (@config turn client printer unit).

Definition finished (c : conf) : Prop :=
  threads c = [(Idle, (Odd, Returned)); (Idle, (Even, Returned))].

(** a spurious wakeup *)
Definition spurious (c c' : conf) : Prop :=
  exists t o l, threads c !! t = Some (Asleep o tt, l) /\ c' = mkConfig (shared c) (owner c) (<[t := (Woken o, l)]> (threads c)).

(** how far a thread is from returning *)
Definition rank (s : turn) (x : status printer unit * client) : Z :=
  match x with
  | (Idle, (_, Head)) => if count s <=? MAX then 6 else 2
  | (Idle, (_, Body)) => 5
  | (Idle, (_, Returned)) => 0
  | (Want _, _) | (Woken _, _) => 4
  | (In _, _) => 3
  | (Asleep _ _, _) => 1
  end.

Definition total_rank (c : conf) : Z :=
  16 * (MAX + 1 - count (shared c)) + foldr Z.add 0 (rank (shared c) <$> threads c).

(** what holds of a thread that runs function [o] *)
Definition thread_ok (o : printer) (s : turn) (x : status printer unit * client) : Prop :=
  x.2.1 = o /\
  match x.1 with
  | Idle => match x.2.2 with
            | Head => True
            | Body => o = Even -> count s <= MAX
            | Returned => count s = MAX + 1
            end
  | Want o' | In o' | Woken o' => o' = o /\ x.2.2 = Body /\ (o = Even -> count s <= MAX)
  | Asleep o' _ => o' = o /\ x.2.2 = Body /\ turn_guard o s = Some tt /\ (o = Even -> count s <= MAX)
  end.

(** which function the thread at a position runs *)
Definition role (t : nat) : printer := match t with O => Odd | _ => Even end.

Record turns_ok (c : conf) : Prop := {
  to_two : length (threads c) = 2%nat;
  to_threads : forall t x, threads c !! t = Some x -> thread_ok (role t) (shared c) x;
  to_count : 1 <= count (shared c) <= MAX + 1;
  to_printed : printed (shared c) = numbers (Z.to_nat (count (shared c) - 1));
}.

(** ** Lemmas *)

Lemma numbers_step n : 1 <= n ->
  numbers (Z.to_nat n) = numbers (Z.to_nat (n - 1)) ++ [(if Z.even n then Even else Odd, n)].
Proof.
  intros Hn. replace (Z.to_nat n) with (S (Z.to_nat (n - 1))) by lia. cbn [numbers].
  by replace (Z.of_nat (S (Z.to_nat (n - 1)))) with n by lia.
Qed.

Lemma rem_even n : (Z.rem n 2 =? 0) = Z.even n.
Proof.
  rewrite (Z.div_mod n 2) at 2 by lia. rewrite Z.even_add, Z.even_mul. simpl.
  assert (Z.rem n 2 = 0 <-> n mod 2 = 0) as Hz by (Z.to_euclidean_division_equations; lia).
  pose proof (Z.mod_pos_bound n 2). destruct (Z.eqb_spec (Z.rem n 2) 0) as [He|He].
  - by rewrite (proj1 Hz He).
  - assert (n mod 2 = 1) as -> by lia. done.
Qed.

Lemma even_succ n : Z.even (n + 1) = negb (Z.even n).
Proof. rewrite Z.even_add. simpl. by destruct (Z.even n). Qed.

(** the guard of a function is open when the parity is the function's *)
Definition mine (o : printer) (n : Z) : bool := match o with Odd => negb (Z.even n) | Even => Z.even n end.

Lemma turn_guard_spec o s : turn_guard o s = if mine o (count s) then None else Some tt.
Proof. unfold turn_guard, mine. rewrite !rem_even. destruct o; by destruct (Z.even (count s)). Qed.

Lemma mine_le o n : mine o n = true -> n <= MAX -> o = Odd -> n + 1 <= MAX.
Proof.
  intros Hm Hn ->. simpl in Hm. destruct (decide (n = MAX)) as [->|]; [done|lia].
Qed.

(** what a thread of the other function knows survives a body that prints, once it is awake *)
Lemma body_other o o' s y : o' <> o -> mine o (count s) = true -> 1 <= count s <= MAX -> thread_ok o' s y ->
  thread_ok o' (turn_body o s) (wake_up y).
Proof.
  intros Hne Hm Hn [Ho Hy]. unfold turn_body. rewrite (proj2 (Z.leb_le _ _)) by lia.
  assert (o' = Even -> count s + 1 <= MAX) as Hle.
  { intros ->. apply mine_le with o; [done|lia|by destruct o]. }
  destruct y as [[| | | |] [f pl]]; simpl in *; subst f; (split; [done|]); simpl; [|naive_solver..].
  destruct pl; [done|done|lia].
Qed.

(** the state after the body *)
Lemma body_state o s : mine o (count s) = true -> 1 <= count s <= MAX + 1 ->
  1 <= count (turn_body o s) <= MAX + 1 /\
  (printed s = numbers (Z.to_nat (count s - 1)) -> printed (turn_body o s) = numbers (Z.to_nat (count (turn_body o s) - 1))).
Proof.
  intros Hm Hn. unfold turn_body. zcases; simpl; [|split; [lia|done]]. split; [lia|].
  intros ->. replace (count s + 1 - 1) with (count s) by lia. rewrite (numbers_step (count s)) by lia.
  destruct o; simpl in Hm; [apply negb_true_iff in Hm|]; by rewrite Hm.
Qed.

Lemma role_ne t u : (t < 2)%nat -> (u < 2)%nat -> u <> t -> role u <> role t.
Proof. intros Ht Hu Hne. destruct t as [|[|]], u as [|[|]]; simpl; done || lia. Qed.

(** after a signal by thread [t] the other one is awake *)
Lemma wakes_two (ths ths' : list (status printer unit * client)) t x : length ths = 2%nat -> ths !! t = Some (Idle, x) ->
  wakes [Signal tt] ths ths' -> length ths' = 2%nat /\ ths' !! t = Some (Idle, x) /\
  forall u y, u <> t -> ths !! u = Some y -> ths' !! u = Some (wake_up y).
Proof.
  intros Hlen Ht [[-> Hno]|(v & o & l & Hv & ->)]%signal_inv.
  - split_and!; [done..|]. intros u y Hne Hu. destruct y as [[| | |o []|] l]; try done.
    pose proof (count_lookup (sleeps_on tt) ths u _ Hu eq_refl). lia.
  - assert (v <> t) as Hvt by (intros ->; congruence). rewrite length_insert. split_and!; [done|by rewrite list_lookup_insert_ne|].
    intros u y Hne Hu. assert (u = v) as ->; [|rewrite list_lookup_insert_eq by (by eapply lookup_lt_Some); by simplify_eq].
    apply lookup_lt_Some in Ht, Hv, Hu. lia.
Qed.

Lemma sum_insert (f : status printer unit * client -> Z) ths t x y : ths !! t = Some y ->
  foldr Z.add 0 (f <$> <[t := x]> ths) = foldr Z.add 0 (f <$> ths) - f y + f x.
Proof.
  revert t. induction ths as [|z ths IH]; intros [|t] Hy; simplify_eq/=; [lia|]. rewrite (IH t Hy). lia.
Qed.

Lemma rank_bound s x : 0 <= rank s x <= 6.
Proof. destruct x as [[] [f []]]; simpl; zcases; lia. Qed.

(** one thread changes, the shared state does not *)
Lemma turns_move sh ow ow' ths t x y : turns_ok (mkConfig sh ow ths) -> ths !! t = Some y -> thread_ok (role t) sh x ->
  turns_ok (mkConfig sh ow' (<[t := x]> ths)).
Proof.
  intros [H2 Ht Hc Hp] Hy Hx. split; simpl in *; [by rewrite length_insert| |done|done].
  intros u z [[<- [<- _]]|[Hne Hu]]%list_lookup_insert_Some; [done|by apply Ht].
Qed.

Lemma rank_move sh ow ow' ths t x y : ths !! t = Some y -> rank sh x < rank sh y ->
  total_rank (mkConfig sh ow' (<[t := x]> ths)) < total_rank (mkConfig sh ow ths).
Proof. intros Hy Hr. unfold total_rank. simpl. rewrite (sum_insert _ _ _ _ _ Hy). lia. Qed.

Lemma exit_ok sh ths ths' t l o sh' l' : turns_ok (mkConfig sh (Some t) ths) -> ths !! t = Some (In o, l) ->
  turn_guard o sh = None -> (turn_body o sh, (l.1, Head)) = (sh', l') ->
  wakes (turn_signals sh') (<[t := (Idle, l')]> ths) ths' ->
  turns_ok (mkConfig sh' None ths') /\ total_rank (mkConfig sh' None ths') < total_rank (mkConfig sh (Some t) ths).
Proof.
  intros [H2 Ht Hc Hp] Hy Hg [= <- <-] Hw. simpl in *. pose proof (Ht _ _ Hy) as [Hrole (-> & _ & _)]. simpl in Hrole.
  rewrite turn_guard_spec in Hg. destruct (mine (role t) (count sh)) eqn:Hm; [|done].
  destruct (body_state _ _ Hm Hc) as [Hc' Hp']. assert (t < 2)%nat as Ht2 by (apply lookup_lt_Some in Hy; lia).
  destruct (Z.le_gt_cases (count sh) MAX) as [Hle|Hgt].
  - assert (turn_signals (turn_body (role t) sh) = [Signal tt] /\ count (turn_body (role t) sh) = count sh + 1) as [Hsg Hct]
      by (unfold turn_body; by zcases; [|lia]). rewrite Hsg in Hw.
    destruct (wakes_two _ _ _ _ ltac:(by rewrite length_insert) (list_lookup_insert_eq ths t (Idle, (l.1, Head)) ltac:(lia)) Hw) as (Hl' & Htt & Hoth).
    split.
    + split; simpl; [done| |done|auto]. intros u z Hu. destruct (decide (u = t)) as [->|Hne].
      * rewrite Htt in Hu. injection Hu as <-. by split.
      * assert (u < 2)%nat as Hu2 by (apply lookup_lt_Some in Hu; lia).
        destruct (lookup_lt_is_Some_2 ths u) as [y Hyu]; [lia|].
        rewrite (Hoth u y Hne) in Hu by (by rewrite list_lookup_insert_ne). injection Hu as <-.
        apply body_other; [by apply role_ne|done|lia|by apply Ht].
    + unfold total_rank. cbn [shared threads]. rewrite Hct. destruct ths' as [|a [|b [|]]], ths as [|a' [|b' [|]]]; try done. cbn [fmap list_fmap foldr].
      pose proof (rank_bound (turn_body (role t) sh) a). pose proof (rank_bound (turn_body (role t) sh) b).
      pose proof (rank_bound sh a'). pose proof (rank_bound sh b'). lia.
  - assert (turn_body (role t) sh = mkTurn (count sh) (printed sh) false) as Hb by (unfold turn_body; by zcases; [lia|]).
    rewrite Hb in *. simpl in Hw. inversion Hw; subst. split.
    + split; simpl; [by rewrite length_insert| |done|done].
      intros u z [[<- [<- _]]|[Hne Hu]]%list_lookup_insert_Some; [by split|by apply (Ht u z)].
    + unfold total_rank. cbn [shared threads count].
      change (rank (mkTurn (count sh) (printed sh) false)) with (rank sh). rewrite (sum_insert _ _ _ _ _ Hy).
      cbn [rank]. zcases; lia.
Qed.

Lemma turn_step_ok c c' : step c c' -> turns_ok c -> turns_ok c' /\ (spurious c c' \/ total_rank c' < total_rank c).
Proof.
  intros Hs Hok. pose proof (to_threads _ Hok) as Hth. pose proof (to_count _ Hok) as Hc.
  destruct Hs as [sh ow ths t l sh' l' Ht (-> & Hl & ->)|sh ow ths t l o Ht ->|sh ths t l o Ht|sh ths t l o Ht
    |sh ths t l o [] Ht Hg|sh ths ths' t l o sh' l' Ht Hg Hb Hw|sh ow ths t l o [] Ht]; simpl in *;
    pose proof (Hth _ _ Ht) as Hx.
  - destruct l as [f pl]. simpl in *. subst pl. destruct Hx as [Hf _]. simpl in Hf. subst f. split.
    + eapply turns_move; [exact Hok|exact Ht|]. split; [done|]. simpl. zcases; [done|lia].
    + right. eapply rank_move; [exact Ht|]. simpl. zcases; lia.
  - destruct Hx as [Hf Hx]. simpl in *. subst o. split; [|right; eapply rank_move; [exact Ht|done]].
    eapply turns_move; [exact Hok|exact Ht|]. by split.
  - split; [|right; eapply rank_move; [exact Ht|done]]. by eapply turns_move.
  - split; [|right; eapply rank_move; [exact Ht|done]]. by eapply turns_move.
  - split; [|right; eapply rank_move; [exact Ht|done]]. eapply turns_move; [exact Hok|exact Ht|].
    destruct Hx as [? (? & ? & ?)]. by subst o.
  - destruct (exit_ok sh ths ths' t l o sh' l' Hok Ht Hg Hb Hw) as [? ?]. split; [done|by right].
  - split; [|left; by exists t, o, l]. eapply turns_move; [exact Hok|exact Ht|].
    destruct Hx as [? (? & ? & _ & ?)]. by split.
Qed.

Lemma turn_reachable_ok c : reachable start_turn main c -> turns_ok c.
Proof.
  apply (reachable_inv turns_ok); [|intros c1 c2 _ Hok Hs; by apply (turn_step_ok c1 c2)].
  split; simpl; [done| |done|done]. intros [|[|t]] x [= <-]; by split.
Qed.

(** who can take a step that is not a spurious wakeup *)
Definition awake (x : status printer unit * client) : bool :=
  match x with (Asleep _ _, _) | (Idle, (_, Returned)) => false | _ => true end.

Lemma not_spurious (c c' : conf) t x x' : threads c !! t = Some x -> threads c' !! t = Some x' -> x' <> x ->
  (forall o l, x <> (Asleep o tt, l)) -> ~ spurious c c'.
Proof.
  intros Hx Hx' Hne Ha (u & o & l & Hu & ->). simpl in Hx'. destruct (decide (u = t)) as [->|Hut].
  - rewrite Hx in Hu. injection Hu as ->. by apply (Ha o l).
  - rewrite list_lookup_insert_ne in Hx' by done. congruence.
Qed.

Lemma inside_steps sh ths t o l : ths !! t = Some (In o, l) ->
  exists c', step (mkConfig sh (Some t) ths) c' /\ ~ spurious (mkConfig sh (Some t) ths) c'.
Proof.
  intros Ht. assert (t < length ths)%nat by (by eapply lookup_lt_Some). destruct (turn_guard o sh) as [[]|] eqn:Hg.
  - eexists. split; [by apply (step_sleep _ _ t l o tt)|]. by eapply (not_spurious _ _ t); [exact Ht|by apply list_lookup_insert_eq|done|done].
  - destruct (wakes_total (turn_signals (turn_body o sh)) (<[t := (Idle, (l.1, Head))]> ths)) as [ths' Hw].
    exists (mkConfig (turn_body o sh) None ths'). split; [by apply (step_exit _ _ _ t l o _ (l.1, Head))|].
    intros (u & ? & ? & _ & [=]).
Qed.

Lemma awake_steps c t x : owned c -> threads c !! t = Some x -> awake x = true ->
  exists c', step c c' /\ ~ spurious c c'.
Proof.
  destruct c as [sh ow ths]. intros Ho Ht Ha. simpl in *. assert (t < length ths)%nat by (by eapply lookup_lt_Some).
  assert (forall x', x' <> x -> (forall o l, x <> (Asleep o tt, l)) ->
    forall sh' ow', ~ spurious (mkConfig sh ow ths) (mkConfig sh' ow' (<[t := x']> ths))) as Hns.
  { intros x' Hne Hna sh' ow'. by eapply (not_spurious _ _ t); [exact Ht|by apply list_lookup_insert_eq|done|done]. }
  assert (forall u, ow = Some u -> exists c', step (mkConfig sh ow ths) c' /\ ~ spurious (mkConfig sh ow ths) c') as Hin.
  { intros u ->. destruct (proj2 (Ho u) eq_refl) as (o & l & Hu). by apply (inside_steps sh ths u o l). }
  destruct x as [[|o|o|o []|o] [f pl]]; [|destruct ow as [u|]; [by apply (Hin u)|]|by apply (Hin t), Ho; eauto|done|
    destruct ow as [u|]; [by apply (Hin u)|]].
  - destruct pl; [|..|done].
    + eexists. split; [apply (step_local sh ow ths t (f, Head) sh (f, if count sh <=? MAX then Body else Returned) Ht); by split|].
      apply Hns; [by case_match|done].
    + eexists. split; [by apply (step_call sh ow ths t (f, Body) f Ht)|]. by apply Hns.
  - eexists. split; [by apply (step_lock sh ths t (f, pl) o)|]. by apply Hns.
  - eexists. split; [by apply (step_relock sh ths t (f, pl) o)|]. by apply Hns.
Qed.

Lemma asleep_or_returned o s x : thread_ok o s x -> awake x = false ->
  (x = (Idle, (o, Returned)) /\ count s = MAX + 1) \/ (mine o (count s) = false /\ (o = Even -> count s <= MAX)).
Proof.
  destruct x as [[| | |o' []|] [f pl]]; intros [Hf Hx] Ha; simpl in *; try done; subst f.
  - destruct pl; try done. by left.
  - destruct Hx as (-> & _ & Hg & Hle). right. rewrite turn_guard_spec in Hg. by destruct (mine o (count s)).
Qed.

(** if no thread is awake, both have returned *)
Lemma stuck_finished c : turns_ok c -> (forall t x, threads c !! t = Some x -> awake x = false) ->
  finished c /\ count (shared c) = MAX + 1.
Proof.
  intros [H2 Hth Hc _] Hn. unfold finished. destruct c as [sh ow ths]. simpl in *.
  destruct ths as [|x [|y [|]]]; try done.
  destruct (asleep_or_returned _ _ _ (Hth 0%nat x eq_refl) (Hn 0%nat x eq_refl)) as [[-> Hx]|[Hx _]];
    destruct (asleep_or_returned _ _ _ (Hth 1%nat y eq_refl) (Hn 1%nat y eq_refl)) as [[-> Hy]|[Hy Hle]]; simpl in *.
  - done.
  - specialize (Hle eq_refl). lia.
  - by rewrite Hy in Hx.
  - by rewrite Hy in Hx.
Qed.

(** ** Properties *)

(** The two threads print 1 to 20 in order, the odd numbers by the one and the even
    numbers by the other, and then return: in every reachable configuration the numbers
    printed are those below the counter; every step that is not a spurious wakeup brings
    the run nearer to its end; and as long as the threads have not both returned, after
    printing all the numbers, such a step is possible, so that no wakeup is lost. *)
Theorem turns_terminate c : reachable start_turn main c ->
  printed (shared c) = numbers (Z.to_nat (count (shared c) - 1)) /\ count (shared c) <= MAX + 1 /\
  0 <= total_rank c /\ (forall c', step c c' -> spurious c c' \/ total_rank c' < total_rank c) /\
  ((exists c', step c c' /\ ~ spurious c c') \/ finished c /\ printed (shared c) = numbers (Z.to_nat MAX)).
Proof.
  intros Hr. pose proof (turn_reachable_ok c Hr) as Hok. pose proof (reachable_owned _ _ _ Hr) as Ho.
  destruct Hok as [H2 Hth Hc Hp] eqn:E. clear E. split_and!; [done|lia| |intros c' Hs; by apply turn_step_ok|].
  - unfold total_rank. destruct (threads c) as [|x [|y [|]]]; try done. cbn [fmap list_fmap foldr].
    pose proof (rank_bound (shared c) x). pose proof (rank_bound (shared c) y). lia.
  - destruct (decide (Exists (fun x => awake x = true) (threads c))) as [Hex|Hex].
    + left. apply Exists_exists in Hex as (x & [t Ht]%list_elem_of_lookup & Hx). by apply (awake_steps c t x).
    + right. destruct (stuck_finished c Hok) as [Hf Hct].
      { intros t x Ht. apply not_true_is_false. intros Ha. apply Hex, Exists_exists. exists x. split; [by eapply list_elem_of_lookup_2|done]. }
      split; [done|]. rewrite Hp, Hct. by replace (MAX + 1 - 1) with MAX by lia.
Qed.

(** the odd thread has printed the first number *)
Definition after_one : conf := mkConfig (mkTurn 2 [(Odd, 1)] true) None [(Idle, (Odd, Head)); (Idle, (Even, Head))].

Lemma reach_after_one : reachable start_turn main after_one.
Proof.
  unfold reachable, start, after_one.
  eapply rtc_l; [apply (step_local _ _ _ 0%nat (Odd, Head) start_turn (Odd, Body)); [reflexivity|by split_and!]|].
  eapply rtc_l; [by apply (step_call _ _ _ 0%nat (Odd, Body) Odd)|].
  eapply rtc_l; [by apply (step_lock _ _ 0%nat (Odd, Body) Odd)|].
  eapply rtc_l; [|apply rtc_refl]. eapply (step_exit _ _ _ 0%nat); [reflexivity..|].
  apply wakes_none; [|constructor]. by repeat constructor.
Qed.

Lemma turns_terminate_witness : printed (shared after_one) = [(Odd, 1)] /\
  ((exists c', step after_one c' /\ ~ spurious after_one c') \/ finished after_one).
Proof.
  split; [reflexivity|]. destruct (turns_terminate after_one reach_after_one) as (_ & _ & _ & _ & [H|[H _]]); [by left|by right].
Defined.
