(* ===== verification/WorkQueue.v ===== *)
(** * The task queue of TASK/ThreadAssessment.c

    [main] fills the queue once and broadcasts; the workers take one task at a time under
    the lock, and after each they look at [queue.count] without it to decide whether to
    stop.  The shared state carries what was taken, in order.  The model shows that every
    task is taken once and in order, and a run in which workers wait for ever. *)
From S2P Require Import Prelude Monitor.

(** ** The program *)

Definition NUM_WORKERS : Z := 3.
Definition NUM_TASKS : nat := 10.

Record TaskQueue := mkQueue { tasks : list Z; front : nat; rear : nat; qcount : Z; taken : list Z }.

Inductive queue_op := Fill | Take.

#[export] Instance queue_op_eq : EqDecision queue_op.
Proof. solve_decision. Defined.

(** a worker at its loop head, with a number it has to process, and after the loop, with
    what it printed; [main] before and after it has filled the queue *)
Inductive client :=
| Ready (id : Z) (out : list (Z * Z)) | Busy (id num : Z) (out : list (Z * Z)) | Stopped (id : Z) (out : list (Z * Z))
| Main (filled : bool).

Definition empty_queue : TaskQueue := mkQueue (replicate NUM_TASKS 0) 0 0 0 [].

(** the loop of [main] *)
Definition add_task (q : TaskQueue) (i : Z) : TaskQueue :=
  mkQueue (<[rear q := i + 1]> (tasks q)) (front q) ((rear q + 1) mod NUM_TASKS) (qcount q + 1) (taken q).
Definition fill (q : TaskQueue) : TaskQueue := foldl add_task q (seqZ 0 (Z.of_nat NUM_TASKS)).

(** the worker's statements between the wait and the unlock *)
Definition take_task (q : TaskQueue) : TaskQueue * Z :=
  let num := default 0 (tasks q !! front q) in
  (mkQueue (tasks q) ((front q + 1) mod NUM_TASKS) (rear q) (qcount q - 1) (taken q ++ [num]), num).

Definition queue_guard (o : queue_op) (q : TaskQueue) : option unit :=
  match o with Fill => None | Take => if qcount q =? 0 then Some tt else None end.

Definition queue_body (o : queue_op) (q : TaskQueue) (l : client) : TaskQueue * client :=
  match o, l with
  | Fill, _ => (fill q, Main true)
  | Take, Ready id out => let '(q', num) := take_task q in (q', Busy id num out)
  | Take, _ => (q, l)
  end.

Definition queue_calls (l : client) (o : queue_op) : Prop :=
  match l with Ready _ _ => o = Take | Main false => o = Fill | _ => False end.

(** printing the square and the test [if (queue.count == 0) break] *)
Definition queue_local (q : TaskQueue) (l : client) (q' : TaskQueue) (l' : client) : Prop :=
  match l with
  | Busy id num out => q' = q /\ l' = (if qcount q =? 0 then Stopped else Ready) id (out ++ [(num, num * num)])
  | _ => False
  end.

#[export] Instance queue_monitor : Monitor TaskQueue client queue_op unit := {|
  entry _ q := q;
  guard := queue_guard;
  body := queue_body;
  signals o _ := match o with Fill => [Broadcast tt] | Take => [] end;
  calls := queue_calls;
  local := queue_local;
|}.

Definition main : list client := ((fun i => Ready i []) <$> seqZ 1 NUM_WORKERS) ++ [Main false].

Abbreviation conf := (@config TaskQueue client queue_op unit).

(** ** Every task once and in order *)

Definition numbers : list Z := seqZ 1 (Z.of_nat NUM_TASKS).

(** the queue after [k] tasks have been taken *)
Definition filled (k : nat) : TaskQueue :=
  mkQueue numbers (k mod NUM_TASKS) 0 (Z.of_nat NUM_TASKS - Z.of_nat k) (take k numbers).

Abbreviation thread := (status queue_op unit * client)%type.

(** [main] has not filled the queue yet *)
Definition fill_pending (x : thread) : bool :=
  match x with (Idle, Main false) | (Want Fill, _) | (In Fill, _) => true | _ => false end.

(** what a worker has printed, and what it has taken *)
Definition output (l : client) : list (Z * Z) :=
  match l with Ready _ out | Busy _ _ out | Stopped _ out => out | Main _ => [] end.
Definition worker_tasks (x : thread) : list Z :=
  (output x.2).*1 ++ match x.2 with Busy _ num _ => [num] | _ => [] end.

(** a thread is in an operation that it calls, and prints squares *)
Definition thread_ok (x : thread) : Prop :=
  match x.1 with
  | Idle => True
  | Want o | In o => queue_calls x.2 o
  | Woken o | Asleep o _ => o = Take /\ queue_calls x.2 Take
  end /\ Forall (fun p => p.2 = p.1 * p.1) (output x.2).

Record queue_ok (c : conf) : Prop := {
  qo_state : (shared c = empty_queue /\ count fill_pending (threads c) = 1) \/
             (count fill_pending (threads c) = 0 /\ exists k, (k <= NUM_TASKS)%nat /\ shared c = filled k);
  qo_threads : Forall thread_ok (threads c);
  qo_tasks : concat (worker_tasks <$> threads c) ≡ₚ taken (shared c);
}.

Lemma take_filled k : (k < NUM_TASKS)%nat -> take_task (filled k) = (filled (S k), Z.of_nat k + 1).
Proof.
  intros Hk. unfold NUM_TASKS in Hk. do 10 (destruct k as [|k]; [by vm_compute|]). lia.
Qed.

Lemma taken_filled k : (k < NUM_TASKS)%nat -> taken (filled (S k)) = taken (filled k) ++ [Z.of_nat k + 1].
Proof.
  intros Hk. unfold NUM_TASKS in Hk. do 10 (destruct k as [|k]; [by vm_compute|]). lia.
Qed.

Lemma fill_empty : fill empty_queue = filled 0.
Proof. by vm_compute. Qed.

Lemma concat_insert (f : thread -> list Z) ths t x y d : ths !! t = Some y -> f x = f y ++ d ->
  concat (f <$> <[t := x]> ths) ≡ₚ concat (f <$> ths) ++ d.
Proof.
  intros Hy Hf. rewrite (list_fmap_insert f), Hf.
  apply list_elem_of_split_length in Hy as (l1 & l2 & -> & ->). 
  rewrite fmap_app. cbn [fmap list_fmap]. rewrite <- (length_fmap f), list_insert_mid, !concat_app. simpl. solve_Permutation.
Qed.

Lemma concat_same (f : thread -> list Z) ths t x y : ths !! t = Some y -> f x = f y ->
  concat (f <$> <[t := x]> ths) ≡ₚ concat (f <$> ths).
Proof. intros Hy Hf. rewrite (concat_insert f ths t x y []) by (by rewrite ?app_nil_r). by rewrite app_nil_r. Qed.

Lemma pending_blind : wake_blind fill_pending.
Proof. by intros [] c l. Qed.

(** threads that are woken by the broadcast *)
Lemma wakes_ok sigs (ths ths' : list thread) : wakes sigs ths ths' -> Forall thread_ok ths ->
  Forall thread_ok ths' /\ concat (worker_tasks <$> ths') = concat (worker_tasks <$> ths).
Proof.
  assert (forall x, thread_ok x -> thread_ok (wake_up x)) as Hup by (intros [[] l]; done).
  induction 1 as [|c sigs ths ths' Hno _ IH|c t x sigs ths ths' Hx Hc _ IH|c sigs ths ths' _ IH]; intros Hok; [done|auto|..].
  - destruct IH as [IH1 IH2]; [apply Forall_insert; [done|]; apply Hup; by eapply Forall_lookup_1|]. split; [done|].
    rewrite IH2, list_fmap_insert, list_insert_id; [done|]. rewrite list_lookup_fmap, Hx. simpl. by destruct x as [[] l].
  - destruct IH as [IH1 IH2].
    + apply Forall_fmap. eapply Forall_impl; [exact Hok|]. intros x Hx. simpl. destruct (sleeps_on c x); auto.
    + split; [done|]. rewrite IH2, <- list_fmap_compose. f_equal. apply list_fmap_ext. intros _ x _. simpl.
      destruct (sleeps_on c x); [|done]. by destruct x as [[] l].
Qed.

(** one thread changes, the queue does not *)
Lemma queue_move sh ow ow' ths t x y : queue_ok (mkConfig sh ow ths) -> ths !! t = Some y ->
  thread_ok x -> fill_pending x = fill_pending y -> worker_tasks x = worker_tasks y ->
  queue_ok (mkConfig sh ow' (<[t := x]> ths)).
Proof.
  intros [Hs Ht Hc] Hy Hx Hf Hw. split; cbn [shared threads] in *.
  - rewrite (count_insert _ _ _ _ _ Hy), Hf. destruct Hs as [[? ?]|[? ?]]; [left|right]; (split; [done||lia|done||lia]).
  - by apply Forall_insert.
  - by rewrite (concat_same _ _ _ _ _ Hy).
Qed.

Lemma exit_fill sh ths ths' t l : queue_ok (mkConfig sh (Some t) ths) -> ths !! t = Some (In Fill, l) ->
  wakes [Broadcast tt] (<[t := (Idle, Main true)]> ths) ths' -> queue_ok (mkConfig (fill sh) None ths').
Proof.
  intros [Hs Hok Hc] Ht Hw. cbn [shared threads] in *.
  pose proof (count_lookup fill_pending _ _ _ Ht eq_refl) as H1.
  destruct Hs as [[-> Hn]|[Hn _]]; [|lia]. pose proof (Forall_lookup_1 _ _ _ _ Hok Ht) as [Hl _].
  assert (l = Main false) as -> by (destruct l as [| | |[]]; done).
  destruct (wakes_ok _ _ _ Hw) as [Hok' Hc']; [by apply Forall_insert; [|split; [done|constructor]]|].
  split; cbn [shared threads]; [right|done|].
  - rewrite (count_wakes _ _ _ _ pending_blind Hw), (count_insert _ _ _ _ _ Ht), Hn. split; [done|].
    exists 0%nat. split; [lia|apply fill_empty].
  - rewrite Hc', fill_empty. by rewrite (concat_same _ _ _ _ _ Ht).
Qed.

Lemma exit_take sh ths t l sh' l' : queue_ok (mkConfig sh (Some t) ths) -> ths !! t = Some (In Take, l) ->
  queue_guard Take sh = None -> queue_body Take sh l = (sh', l') -> queue_ok (mkConfig sh' None (<[t := (Idle, l')]> ths)).
Proof.
  intros [Hs Hok Hc] Ht Hg Hb. cbn [shared threads] in *. pose proof (Forall_lookup_1 _ _ _ _ Hok Ht) as [Hl Hsq].
  destruct l as [id out| | |[]]; try done. cbn [queue_body queue_guard] in Hg, Hb.
  destruct Hs as [[-> _]|(Hn & k & Hk & ->)]; [done|].
  assert (k < NUM_TASKS)%nat as Hk'.
  { destruct (Nat.eq_dec k NUM_TASKS) as [->|]; [done|lia]. }
  rewrite take_filled in Hb by done. injection Hb as <- <-. split; cbn [shared threads].
  - right. rewrite (count_insert _ _ _ _ _ Ht), Hn. split; [done|]. exists (S k). split; [lia|done].
  - by apply Forall_insert.
  - rewrite taken_filled, <- Hc by done. apply (concat_insert _ _ _ _ _ _ Ht). unfold worker_tasks. simpl. by rewrite app_nil_r.
Qed.

Lemma step_ok c c' : step c c' -> queue_ok c -> queue_ok c'.
Proof.
  intros Hs Hok. pose proof (qo_threads _ Hok) as Hth.
  destruct Hs as [sh ow ths t l sh' l' Ht Hl|sh ow ths t l o Ht Ho|sh ths t l o Ht|sh ths t l o Ht
    |sh ths t l o [] Ht Hg|sh ths ths' t l o sh' l' Ht Hg Hb Hw|sh ow ths t l o [] Ht]; cbn [threads] in Hth;
    pose proof (Forall_lookup_1 _ _ _ _ Hth Ht) as [Hx Hsq].
  - destruct l as [|id num out| |]; try done. destruct Hl as [-> ->]. eapply queue_move; [exact Hok|exact Ht|..].
    + split; [done|]. destruct (qcount sh =? 0); simpl; (apply Forall_app; split; [done|by constructor]).
    + by destruct (qcount sh =? 0).
    + unfold worker_tasks. destruct (qcount sh =? 0); simpl; by rewrite fmap_app, app_nil_r.
  - eapply queue_move; [exact Hok|exact Ht|by split| |done]. destruct l as [| | |[]]; simpl in Ho; first [done|by subst o].
  - eapply queue_move; [exact Hok|exact Ht|by split|done|done].
  - destruct Hx as [-> Hx]. eapply queue_move; [exact Hok|exact Ht|by split|done|done].
  - destruct o; [done|]. eapply queue_move; [exact Hok|exact Ht|by split|done|done].
  - destruct o.
    + injection Hb as <- <-. by eapply exit_fill.
    + inversion Hw; subst. by eapply exit_take.
  - destruct Hx as [-> Hx]. eapply queue_move; [exact Hok|exact Ht|by split|done|done].
Qed.

Lemma reachable_ok c : reachable empty_queue main c -> queue_ok c.
Proof.
  apply (reachable_inv queue_ok); [|intros c1 c2 _ Hok Hs; by apply (step_ok c1 c2)].
  split; [left; by split|by repeat constructor|done].
Qed.

(** ** Waiting for ever *)

Definition next_call (l : client) : option queue_op :=
  match l with Ready _ _ => Some Take | Main false => Some Fill | _ => None end.
Definition next_local (q : TaskQueue) (l : client) : option (TaskQueue * client) :=
  match l with
  | Busy id num out => Some (q, (if qcount q =? 0 then Stopped else Ready) id (out ++ [(num, num * num)]))
  | _ => None
  end.

Lemma next_call_ok l o : next_call l = Some o -> queue_calls l o.
Proof. destruct l as [| | |[]]; simpl; by intros [= <-]. Qed.

Lemma next_local_ok q l q' l' : next_local q l = Some (q', l') -> queue_local q l q' l'.
Proof. destruct l; simpl; try done. by intros [= <- <-]. Qed.

(** [main] fills the queue, the first worker takes nine tasks, the second one the last *)
Definition bad_schedule : list nat :=
  [3; 3; 3]%nat ++ concat (replicate 9 [0; 0; 0; 0]%nat) ++ [1; 1; 1; 0; 0; 0; 1; 2; 2; 2]%nat.

(** a worker that is, or will be, waiting for a task that nobody will add *)
Definition waiting (x : thread) : bool :=
  match x with (Want Take, _) | (In Take, _) | (Asleep Take _, _) | (Woken Take, _) => true | _ => false end.

(** the queue is empty and no thread will change it *)
Definition dead (c : conf) : Prop :=
  qcount (shared c) = 0 /\ Forall (fun x => waiting x = true \/ exists id out, x = (Idle, Stopped id out) \/ x = (Idle, Main true)) (threads c).

Lemma dead_step c c' : step c c' -> dead c -> dead c' /\
  forall t x, threads c !! t = Some x -> waiting x = true -> exists x', threads c' !! t = Some x' /\ waiting x' = true.
Proof.
  intros Hs [Hq Hf]. rewrite Forall_forall in Hf.
  assert (forall t x, threads c !! t = Some x -> waiting x = true \/ exists id out, x = (Idle, Stopped id out) \/ x = (Idle, Main true)) as Hf'
    by (intros t x Hx; by eapply Hf, list_elem_of_lookup_2).
  assert (forall (ths : list thread) sh ow ow' t x y, c = mkConfig sh ow ths -> ths !! t = Some y -> waiting x = true ->
    dead (mkConfig sh ow' (<[t := x]> ths)) /\ forall u z, ths !! u = Some z -> waiting z = true ->
      exists z', <[t := x]> ths !! u = Some z' /\ waiting z' = true) as Hmove.
  { intros ths sh ow ow' t x y -> Hy Hx. cbn [shared threads] in *. split.
    - split; [done|]. apply Forall_insert; [by apply Forall_forall|by left].
    - intros u z Hu Hz. destruct (decide (t = u)) as [->|Hne];
        [rewrite list_lookup_insert_eq by (by eapply lookup_lt_Some)|rewrite list_lookup_insert_ne by done]; eauto. }
  destruct Hs as [sh ow ths t l sh' l' Ht Hl|sh ow ths t l o Ht Ho|sh ths t l o Ht|sh ths t l o Ht
    |sh ths t l o [] Ht Hg|sh ths ths' t l o sh' l' Ht Hg Hb Hw|sh ow ths t l o [] Ht]; cbn [shared threads] in *;
    destruct (Hf' _ _ Ht) as [Hx|(id & out & [[= Hx]|[= Hx]])]; try done; subst; try done;
    try (destruct o; [done|]); try (by eapply Hmove).
  - change (queue_guard Take sh = None) in Hg. unfold queue_guard in Hg. by rewrite Hq in Hg.
Qed.

(** where [bad_schedule] ends *)
Definition stuck_conf : conf :=
  mkConfig (filled NUM_TASKS) None
    [(Asleep Take tt, Ready 1 ((fun n => (n, n * n)) <$> seqZ 1 9)); (Idle, Stopped 2 [(10, 100)]);
     (Asleep Take tt, Ready 3 []); (Idle, Main true)].

Lemma bad_run : run_schedule next_call next_local (start empty_queue main) bad_schedule = Some stuck_conf.
Proof. vm_compute. reflexivity. Qed.

Lemma stuck_dead : dead stuck_conf.
Proof.
  split; [done|]. do 4 (apply Forall_cons_2; [first [by left|right; eexists _, _; by left|right; exists 0, []; by right]|]).
  constructor.
Qed.

(** ** Properties *)

(** C15: every number is processed at most once: however the threads interleave, what the
    workers have taken are the first [k] of the numbers 1 to 10 in order, each by exactly
    one worker; what each of them has printed are numbers it took with their squares. *)
Theorem tasks_taken_once c : reachable empty_queue main c -> exists k, (k <= NUM_TASKS)%nat /\
  taken (shared c) = take k numbers /\ concat (worker_tasks <$> threads c) ≡ₚ take k numbers /\
  forall t x, threads c !! t = Some x -> (output x.2).*1 `prefix_of` worker_tasks x /\ Forall (fun p => p.2 = p.1 * p.1) (output x.2).
Proof.
  intros Hr. destruct (reachable_ok c Hr) as [Hs Hok Hc].
  assert (forall t x, threads c !! t = Some x -> (output x.2).*1 `prefix_of` worker_tasks x /\ Forall (fun p => p.2 = p.1 * p.1) (output x.2)) as Ho.
  { intros t x Hx. split; [apply prefix_app_r, reflexivity|]. by destruct (Forall_lookup_1 _ _ _ _ Hok Hx). }
  destruct Hs as [[He _]|(_ & k & Hk & He)].
  - exists 0%nat. rewrite He in Hc |- *. split_and!; [lia|done|done|done].
  - exists k. rewrite He in Hc |- *. by split_and!.
Qed.

(** The program may hang: there is a run after which all numbers are processed and two
    workers wait for more, and no continuation of it ever lets them return, so that
    [main] never gets past [pthread_join]. *)
Theorem workers_may_wait_forever : exists c, reachable empty_queue main c /\ taken (shared c) = numbers /\
  forall c', rtc step c c' -> exists x y, threads c' !! 0%nat = Some x /\ threads c' !! 2%nat = Some y /\
    waiting x = true /\ waiting y = true.
Proof.
  exists stuck_conf. split_and!; [exact (run_schedule_ok _ _ next_call_ok next_local_ok _ _ _ bad_run)|by vm_compute|].
  assert (exists x y, threads stuck_conf !! 0%nat = Some x /\ threads stuck_conf !! 2%nat = Some y /\
    waiting x = true /\ waiting y = true) as Hw by (by eexists _, _).
  intros c' Hs. revert Hw. generalize stuck_dead. induction Hs as [c|c c1 c2 Hs _ IH]; intros Hd (x & y & Hx & Hy & Hwx & Hwy);
    [by eexists _, _|].
  destruct (dead_step _ _ Hs Hd) as [Hd1 Hk]. apply IH; [done|].
  destruct (Hk _ _ Hx Hwx) as (x' & ? & ?), (Hk _ _ Hy Hwy) as (y' & ? & ?). by exists x', y'.
Qed.

(** the run above: the first worker has printed nine squares, the second one the last *)
Lemma tasks_taken_once_witness : reachable empty_queue main stuck_conf /\
  taken (shared stuck_conf) = numbers /\ concat (worker_tasks <$> threads stuck_conf) = numbers /\
  exists k, (k <= NUM_TASKS)%nat /\ taken (shared stuck_conf) = take k numbers /\
    concat (worker_tasks <$> threads stuck_conf) ≡ₚ take k numbers /\
    Forall (fun p => p.2 = p.1 * p.1) ((fun n => (n, n * n)) <$> seqZ 1 9).
Proof.
  assert (reachable empty_queue main stuck_conf) as Hr by exact (run_schedule_ok _ _ next_call_ok next_local_ok _ _ _ bad_run).
  split; [exact Hr|]. split; [vm_compute; reflexivity|]. split; [vm_compute; reflexivity|].
  destruct (tasks_taken_once stuck_conf Hr) as (k & Hk & H1 & H2 & H3). exists k. split; [exact Hk|]. split; [exact H1|]. split; [exact H2|].
  exact (proj2 (H3 0%nat _ eq_refl)).
Defined.
