(* ===== verification/VersionStore.v ===== *)
(** * The multi-version store of POSIX/Thread/threads.c

    The store is the list of its nodes, newest first, each with its versions, newest
    first.  The clock is an argument of the operations that read it.  The operations
    are those of one thread at a time: [get_node] takes no lock, so the program itself
    has a data race when [main]'s threads create nodes at the same time, and the model
    says nothing about such runs. *)
From S2P Require Import Prelude.

(** ** The program *)

Definition MAX_KEY : nat := 64.
Definition MAX_VAL : nat := 256.
Definition MAX_OPS : nat := 100.
Definition MAX_LOGS : nat := 1000.

Record Version := mkVersion { ver_value : string; timestamp : Z }.
Record KVNode := mkNode { node_key : string; versions : list Version }.

Inductive op_kind := SET | DEL.

Record Log := mkLog { log_tid : Z; op : op_kind; log_key : string; log_value : string; ts : Z }.

(** [op_count] is the length of [ops] *)
Record Transaction := mkTx { tid : Z; start_time : Z; ops : list Log }.

Record state := mkState { store : list KVNode; logs : list Log; tid_counter : Z }.

Definition set_store (l : list KVNode) (s : state) : state := mkState l (logs s) (tid_counter s).

Fixpoint find_node (key : string) (l : list KVNode) : option KVNode :=
  match l with
  | [] => None
  | n :: l' => if streq (node_key n) key then Some n else find_node key l'
  end.

(** the node of [key], created at the front when it is missing; [strcpy] into
    [MAX_KEY] bytes *)
Definition get_node (key : string) (s : state) : outcome (KVNode * state) :=
  match find_node key (store s) with
  | Some n => Done (n, s)
  | None =>
      if (MAX_KEY <=? strlen key)%nat then Undef
      else let n := mkNode key [] in Done (n, set_store (n :: store s) s)
  end.

(** [node->versions = vs] *)
Fixpoint set_versions (key : string) (vs : list Version) (l : list KVNode) : list KVNode :=
  match l with
  | [] => []
  | n :: l' =>
      if streq (node_key n) key then mkNode (node_key n) vs :: l' else n :: set_versions key vs l'
  end.

Definition visible (tx : Transaction) (v : Version) : bool :=
  (timestamp v <=? start_time tx) && (0 <? strlen (ver_value v))%nat.

Definition first_visible (tx : Transaction) (vs : list Version) : option string :=
  ver_value <$> List.find (visible tx) vs.

Definition kv_get (tx : Transaction) (key : string) (s : state) : outcome (option string * state) :=
  '(node, s) ← get_node key s; Done (first_visible tx (versions node), s).

Definition log_op (l : Log) (tx : Transaction) : Transaction :=
  if (length (ops tx) <? MAX_OPS)%nat then mkTx (tid tx) (start_time tx) (ops tx ++ [l]) else tx.

(** what [kv_set] and [kv_delete] share *)
Definition add_version (now : Z) (o : op_kind) (key value : string) (tx : Transaction) (s : state) :
    outcome (Transaction * state) :=
  '(node, s) ← get_node key s;
  if (MAX_VAL <=? strlen value)%nat then Undef else
  let s := set_store (set_versions key (mkVersion value now :: versions node) (store s)) s in
  Done (log_op (mkLog (tid tx) o key value now) tx, s).

Definition kv_set (now : Z) (key value : string) (tx : Transaction) (s : state) := add_version now SET key value tx s.
Definition kv_delete (now : Z) (key : string) (tx : Transaction) (s : state) := add_version now DEL key "" tx s.

Fixpoint append_logs (new : list Log) (l : list Log) : outcome (list Log) :=
  match new with
  | [] => Done l
  | x :: new' => if (MAX_LOGS <=? length l)%nat then Undef else append_logs new' (l ++ [x])
  end.

Definition commit (tx : Transaction) (s : state) : outcome state :=
  l ← append_logs (ops tx) (logs s); Done (mkState (store s) l (tid_counter s)).

(** the loop of [rollback], from the last operation to the first *)
Fixpoint undo (l : list Log) (s : state) : outcome state :=
  match l with
  | [] => Done s
  | x :: l' =>
      '(node, s) ← get_node (log_key x) s;
      undo l' (match versions node with
               | [] => s
               | _ :: vs => set_store (set_versions (log_key x) vs (store s)) s
               end)
  end.

Definition rollback (tx : Transaction) (s : state) : outcome state := undo (rev (ops tx)) s.

Definition begin_transaction (now : Z) (s : state) : Transaction * state :=
  (mkTx (tid_counter s) now [], mkState (store s) (logs s) (tid_counter s + 1)).

(** the lines of [print_store] *)
Definition print_store (tx : Transaction) (s : state) : list (string * string) :=
  omap (fun n => v ← first_visible tx (versions n); Some (node_key n, v)) (store s).

Definition list_keys (s : state) : list string := node_key <$> store s.

Definition list_versions (key : string) (s : state) : outcome (list Version * state) :=
  '(node, s) ← get_node key s; Done (versions node, s).

(** [thread_demo] with the times of its five clock readings *)
Definition thread_demo (t0 t1 t2 t3 t4 : Z) (s : state) : outcome (option string * state) :=
  let '(tx, s) := begin_transaction t0 s in
  '(tx, s) ← kv_set t1 "x" "100" tx s;
  '(tx, s) ← kv_set t2 "y" "200" tx s;
  '(tx, s) ← kv_set t3 "z" "300" tx s;
  '(tx, s) ← kv_delete t4 "y" tx s;
  '(x, s) ← kv_get tx "x" s;
  s ← commit tx s; Done (x, s).

Inductive command :=
| Get (key : string) | Set_ (key val : string) | Del (key : string) | Commit | Rollback
| List_ | Vers (key : string) | Exit | Other.

Inductive reply := Value (v : option string) | Keys (l : list string) | Versions (l : list Version) | Silent.

(** one turn of [console_demo] at time [now] *)
Definition console_step (now : Z) (c : command) (tx : Transaction) (s : state) :
    outcome (reply * Transaction * state) :=
  match c with
  | Get key => '(v, s) ← kv_get tx key s; Done (Value v, tx, s)
  | Set_ key val => '(tx, s) ← kv_set now key val tx s; Done (Silent, tx, s)
  | Del key => '(tx, s) ← kv_delete now key tx s; Done (Silent, tx, s)
  | Commit => s ← commit tx s; let '(tx, s) := begin_transaction now s in Done (Silent, tx, s)
  | Rollback => s ← rollback tx s; let '(tx, s) := begin_transaction now s in Done (Silent, tx, s)
  | List_ => Done (Keys (list_keys s), tx, s)
  | Vers key => '(vs, s) ← list_versions key s; Done (Versions vs, tx, s)
  | Exit | Other => Done (Silent, tx, s)
  end.

Fixpoint console_loop (input : list (Z * command)) (tx : Transaction) (s : state) : outcome (list reply * state) :=
  match input with
  | [] | (_, Exit) :: _ => Done ([], s)
  | (now, c) :: input' =>
      '(r, tx, s) ← console_step now c tx s;
      '(rs, s) ← console_loop input' tx s; Done (r :: rs, s)
  end.

Definition console_demo (start : Z) (input : list (Z * command)) (s : state) : outcome (list reply * state) :=
  let '(tx, s) := begin_transaction start s in console_loop input tx s.

(** ** Specification *)

(** the versions of a key; a missing node has none *)
Definition history (key : string) (s : state) : list Version :=
  match find_node key (store s) with Some n => versions n | None => [] end.

(** a write: kind, key, value and the time at which it is made *)
Record write := mkWrite { w_kind : op_kind; w_key : string; w_value : string; w_time : Z }.

Definition writable (w : write) : Prop := (strlen (w_key w) < MAX_KEY)%nat /\ (strlen (w_value w) < MAX_VAL)%nat.

Fixpoint run_writes (ws : list write) (tx : Transaction) (s : state) : outcome (Transaction * state) :=
  match ws with
  | [] => Done (tx, s)
  | w :: ws' => '(tx, s) ← add_version (w_time w) (w_kind w) (w_key w) (w_value w) tx s; run_writes ws' tx s
  end.

(** the versions that a list of writes puts in front of a key's history *)
Definition written (key : string) (ws : list write) : list Version :=
  rev ((fun w => mkVersion (w_value w) (w_time w)) <$> filter (fun w => w_key w = key) ws).

(** ** Lemmas *)

#[local] Opaque MAX_KEY MAX_VAL MAX_OPS.

Lemma find_set_versions key key' vs l :
  find_node key' (set_versions key vs l) =
    if decide (key' = key) then (fun n => mkNode (node_key n) vs) <$> find_node key l else find_node key' l.
Proof.
  induction l as [|n l IH]; simpl; [by case_decide|].
  destruct (streq (node_key n) key) eqn:Hk; simpl.
  - apply streq_spec in Hk. destruct (decide (key' = key)) as [->|Hne].
    + by rewrite (proj2 (streq_spec (node_key n) key) Hk).
    + by rewrite !(proj2 (streq_false (node_key n) key')) by congruence.
  - rewrite IH. destruct (decide (key' = key)) as [->|Hne]; [by rewrite Hk|done].
Qed.

Lemma get_node_ok key s : (strlen key < MAX_KEY)%nat ->
  exists n s', get_node key s = Done (n, s') /\ versions n = history key s /\
    find_node key (store s') = Some n /\ logs s' = logs s /\ tid_counter s' = tid_counter s /\
    forall k, history k s' = history k s.
Proof.
  intros Hk. unfold get_node, history. destruct (find_node key (store s)) as [n|] eqn:Hf.
  - exists n, s. by split_and!.
  - destruct (Nat.leb_spec MAX_KEY (strlen key)); [lia|]. exists (mkNode key []), (set_store (mkNode key [] :: store s) s).
    simpl. rewrite streq_refl. split_and!; [done..|]. intros k. destruct (streq key k) eqn:Hkk; [|done].
    apply streq_spec in Hkk as <-. by rewrite Hf.
Qed.

Lemma history_set key vs s k n : find_node key (store s) = Some n ->
  history k (set_store (set_versions key vs (store s)) s) = if decide (k = key) then vs else history k s.
Proof.
  intros Hf. unfold history. simpl. rewrite find_set_versions. destruct (decide (k = key)); [by rewrite Hf|done].
Qed.

Lemma add_version_ok now o key value tx s : (strlen key < MAX_KEY)%nat -> (strlen value < MAX_VAL)%nat ->
  exists s', add_version now o key value tx s = Done (log_op (mkLog (tid tx) o key value now) tx, s') /\
    logs s' = logs s /\ tid_counter s' = tid_counter s /\
    forall k, history k s' = if decide (k = key) then mkVersion value now :: history key s else history k s.
Proof.
  intros Hk Hv. unfold add_version. destruct (get_node_ok key s Hk) as (n & s1 & -> & Hn & Hf & Hl & Hc & Hh). simpl.
  destruct (Nat.leb_spec MAX_VAL (strlen value)); [lia|]. eexists. split; [reflexivity|].
  split; [exact Hl|]. split; [exact Hc|].
  intros k. rewrite (history_set _ _ _ _ n) by done. rewrite Hn. by destruct (decide (k = key)).
Qed.

Lemma log_op_ok l tx : (length (ops tx) < MAX_OPS)%nat ->
  log_op l tx = mkTx (tid tx) (start_time tx) (ops tx ++ [l]).
Proof. intros H. unfold log_op. by destruct (Nat.ltb_spec (length (ops tx)) MAX_OPS); [|lia]. Qed.

Definition op_log (t : Z) (w : write) : Log := mkLog t (w_kind w) (w_key w) (w_value w) (w_time w).

Lemma run_writes_ok ws tx s : Forall writable ws -> (length (ops tx) + length ws <= MAX_OPS)%nat ->
  exists s', run_writes ws tx s = Done (mkTx (tid tx) (start_time tx) (ops tx ++ (op_log (tid tx) <$> ws)), s') /\
    logs s' = logs s /\ forall k, history k s' = written k ws ++ history k s.
Proof.
  intros Hws. revert tx s. induction Hws as [|w ws [Hk Hv] _ IH]; intros tx s Hn; cbn [run_writes].
  - exists s. rewrite app_nil_r. by destruct tx.
  - simpl in Hn. destruct (add_version_ok (w_time w) (w_kind w) (w_key w) (w_value w) tx s Hk Hv) as (s1 & -> & Hl & _ & Hh).
    simpl. rewrite log_op_ok by lia.
    destruct (IH (mkTx (tid tx) (start_time tx) (ops tx ++ [op_log (tid tx) w])) s1) as (s2 & Heq & Hl2 & Hh2).
    { simpl. rewrite length_app. simpl. lia. }
    exists s2. split; [|split; [by rewrite Hl2|]].
    + unfold op_log at 1 in Heq. rewrite Heq. simpl. by rewrite <- app_assoc.
    + intros k. rewrite Hh2, Hh. unfold written. rewrite filter_cons.
      destruct (decide (w_key w = k)) as [->|Hne].
      * rewrite fmap_cons. cbn [rev]. rewrite decide_True by done. by rewrite <- app_assoc.
      * by rewrite decide_False by congruence.
Qed.

(** undoing the writes, last first *)
Lemma undo_ok t ws s base : Forall writable ws -> (forall k, history k s = written k ws ++ base k) ->
  exists s', undo (rev (op_log t <$> ws)) s = Done s' /\ logs s' = logs s /\ forall k, history k s' = base k.
Proof.
  revert s. induction ws as [|w ws IH] using rev_ind; intros s Hws Hh.
  { exists s. by split_and!. }
  apply Forall_app in Hws as [Hws [[Hk _] _]%Forall_cons]. rewrite fmap_app, rev_app_distr. simpl.
  destruct (get_node_ok (w_key w) s Hk) as (n & s1 & -> & Hn & Hf & Hl & _ & Hh1). simpl.
  rewrite Hn, Hh. unfold written at 1. rewrite filter_app, filter_cons_True, fmap_app, rev_app_distr by done. simpl.
  destruct (IH (set_store (set_versions (w_key w) (written (w_key w) ws ++ base (w_key w)) (store s1)) s1) Hws)
    as (s2 & Heq & Hl2 & Hh2).
  - intros k. rewrite (history_set _ _ _ _ n Hf). destruct (decide (k = w_key w)) as [->|Hne]; [done|].
    rewrite Hh1, Hh. unfold written. rewrite filter_app, filter_cons_False by congruence. by rewrite app_nil_r.
  - exists s2. split; [exact Heq|]. split; [by rewrite Hl2|done].
Qed.

(** ** Properties *)

#[local] Transparent MAX_KEY MAX_VAL MAX_OPS.

(** C17: rolling back undoes a transaction: after any sequence of at most 100 sets and
    deletes of keys and values that fit their buffers, [rollback] brings back the
    version history of every key, and the commit log is as before. *)
Theorem rollback_restores now ws s :
  Forall writable ws -> (length ws <= MAX_OPS)%nat ->
  exists s', ('(tx, s1) ← Done (begin_transaction now s); '(tx, s2) ← run_writes ws tx s1; rollback tx s2) = Done s' /\
    logs s' = logs s /\ forall k, history k s' = history k s.
Proof.
  intros Hws Hn. destruct (begin_transaction now s) as [tx s1] eqn:Hb. injection Hb as <- <-. simpl.
  destruct (run_writes_ok ws (mkTx (tid_counter s) now []) (mkState (store s) (logs s) (tid_counter s + 1)))
    as (s2 & -> & Hl2 & Hh2); [done|done|]. simpl. unfold rollback. simpl.
  destruct (undo_ok (tid_counter s) ws s2 (fun k => history k s)) as (s3 & -> & Hl3 & Hh3); [done|done|].
  exists s3. split; [done|]. split; [by rewrite Hl3, Hl2|done].
Qed.

Definition empty_store : state := mkState [] [] 1.

Lemma rollback_restores_witness :
  exists s', ('(tx, s1) ← Done (begin_transaction 5 empty_store);
    '(tx, s2) ← run_writes [mkWrite SET "x" "1" 5; mkWrite DEL "x" "" 6; mkWrite SET "y" "2" 7] tx s1;
    rollback tx s2) = Done s' /\ history "x" s' = [].
Proof.
  destruct (rollback_restores 5 [mkWrite SET "x" "1" 5; mkWrite DEL "x" "" 6; mkWrite SET "y" "2" 7] empty_store)
    as (s' & Heq & _ & Hh).
  - repeat (constructor; [split; simpl; unfold MAX_KEY, MAX_VAL; lia|]). constructor.
  - simpl. unfold MAX_OPS. lia.
  - exists s'. split; [done|]. by rewrite Hh.
Defined.

(** Snapshots are stable: what a transaction reads under a key is not changed by
    any write that another transaction (or it itself) makes after the second in
    which it began, to that key or any other. *)
Theorem snapshot_stable tx tx' now o key value k s :
  (strlen key < MAX_KEY)%nat -> (strlen value < MAX_VAL)%nat -> (strlen k < MAX_KEY)%nat ->
  start_time tx < now ->
  exists s' r s1 s2, add_version now o key value tx' s = Done (log_op (mkLog (tid tx') o key value now) tx', s') /\
    kv_get tx k s = Done (r, s1) /\ kv_get tx k s' = Done (r, s2).
Proof.
  intros Hk Hv Hkk Hnow. destruct (add_version_ok now o key value tx' s Hk Hv) as (s' & Heq & _ & _ & Hh).
  destruct (get_node_ok k s Hkk) as (n1 & s1 & Hg1 & Hn1 & _). destruct (get_node_ok k s' Hkk) as (n2 & s2 & Hg2 & Hn2 & _).
  exists s', (first_visible tx (versions n1)), s1, s2. split; [done|]. unfold kv_get. rewrite Hg1, Hg2. simpl.
  split; [done|]. rewrite Hn1, Hn2, Hh. destruct (decide (k = key)) as [->|]; [|done].
  unfold first_visible. simpl. unfold visible at 1. simpl. by destruct (Z.leb_spec now (start_time tx)); [lia|].
Qed.

Lemma snapshot_stable_witness :
  exists s' r s1 s2, add_version 8 SET "x" "new" (mkTx 2 8 []) empty_store =
      Done (log_op (mkLog 2 SET "x" "new" 8) (mkTx 2 8 []), s') /\
    kv_get (mkTx 1 7 []) "x" empty_store = Done (r, s1) /\ kv_get (mkTx 1 7 []) "x" s' = Done (r, s2).
Proof.
  apply (snapshot_stable (mkTx 1 7 []) (mkTx 2 8 []) 8 SET "x" "new" "x" empty_store);
    simpl; unfold MAX_KEY, MAX_VAL; lia.
Defined.

(** A delete adds an empty version, and [kv_get] passes over empty versions: it reads
    the value from before the delete. *)
Lemma delete_resurrects :
  ('(rs, _) ← console_demo 5 [(5, Set_ "x" "1"); (5, Del "x"); (5, Get "x")] empty_store; Done rs) =
  Done [Silent; Silent; Value (Some "1")].
Proof. by vm_compute. Qed.

(** A transaction does not see what it wrote itself once the clock has ticked. *)
Lemma own_write_invisible :
  ('(rs, _) ← console_demo 5 [(6, Set_ "x" "1"); (6, Get "x")] empty_store; Done rs) = Done [Silent; Value None].
Proof. by vm_compute. Qed.

(** Rolling back pops whatever is newest: the version of another transaction. *)
Lemma rollback_pops_others :
  ('(tx1, s) ← kv_set 5 "x" "mine" (mkTx 1 5 []) empty_store;
   '(tx2, s) ← kv_set 6 "x" "theirs" (mkTx 2 6 []) s;
   s ← rollback tx1 s; Done (ver_value <$> history "x" s)) = Done ["mine"].
Proof. by vm_compute. Qed.
