(* ===== verification/FileCache.v ===== *)
(** * The file cache of FIleCache/FileCahce.c over the buffer pool of bufferPool.c

    A [buffer_t*] is an index of the pool's array.  A [cached_file] is owned by its
    bucket, so a bucket is the list of its files.  Every read comes with the time and with what
    opening and reading the file gives at that time, so a file may change between two reads.  The counter [cached_files_count] starts from what [malloc] left in
    it; [malloc] is taken to succeed.  [LruCahce.c] shares only the hash function. *)
From S2P Require Import Prelude.

(** ** The program *)

Definition BUFFER_SIZE : nat := 4096.
Definition POOL_SIZE : nat := 10.
Definition CACHE_SIZE : nat := 5.
Definition NAME_SIZE : nat := 256.

(** [data] is the string that the buffer holds *)
Record buffer_t := mkBuffer { data : string; is_free : bool; buffer_id : Z; next : option nat }.
Record buffer_pool_t := mkPool { buffers : list buffer_t; free_list : option nat; total_buffers : Z; free_count : Z }.

Definition create_buffer_pool (pool_size : nat) : buffer_pool_t :=
  mkPool ((fun i => mkBuffer "" true (Z.of_nat i) (if (i =? pool_size - 1)%nat then None else Some (S i))) <$> seq 0 pool_size)
    (Some 0%nat) (Z.of_nat pool_size) (Z.of_nat pool_size).

Definition acquire_buffer (p : buffer_pool_t) : outcome (option nat * buffer_pool_t) :=
  if free_count p =? 0 then Done (None, p) else
  i ← of_option (free_list p);
  b ← of_option (buffers p !! i);
  Done (Some i, mkPool (<[i := mkBuffer (data b) false (buffer_id b) None]> (buffers p)) (next b) (total_buffers p)
    (free_count p - 1)).

Definition release_buffer (i : nat) (p : buffer_pool_t) : outcome buffer_pool_t :=
  b ← of_option (buffers p !! i);
  if is_free b then Done p else
  Done (mkPool (<[i := mkBuffer "" true (buffer_id b) (free_list p)]> (buffers p)) (Some i) (total_buffers p)
    (free_count p + 1)).

Record cached_file := mkFile { filename : string; buffer : nat; file_size : Z; last_accessed : Z }.
Record file_cache := mkCache { buffer_pool : buffer_pool_t; files : list (list cached_file); cached_files_count : Z }.

(** [junk] is the uninitialised counter *)
Definition create_file_cache (junk : Z) : file_cache :=
  mkCache (create_buffer_pool POOL_SIZE) (replicate CACHE_SIZE []) junk.

Fixpoint hash_loop (hash_value : Z) (key : string) : Z :=
  match key with
  | EmptyString => hash_value
  | String c key' => hash_loop (u32 (hash_value * 31 + schar c)) key'
  end.
Definition hash (key : string) : nat := Z.to_nat (hash_loop 0 key mod Z.of_nat CACHE_SIZE).

(** the position of the first file of that name in a bucket *)
Fixpoint find_file (name : string) (l : list cached_file) : option nat :=
  match l with
  | [] => None
  | f :: l' => if streq (filename f) name then Some O else S <$> find_file name l'
  end.

Definition touch (now : Z) (f : cached_file) : cached_file := mkFile (filename f) (buffer f) (file_size f) now.

(** what opening and reading a file gives: [open] fails, [read] fails, its bytes *)
Inductive reading := NoFile | ReadError | Bytes (s : string).

Definition set_data (i : nat) (s : string) (p : buffer_pool_t) : outcome buffer_pool_t :=
  b ← of_option (buffers p !! i);
  Done (mkPool (<[i := mkBuffer s (is_free b) (buffer_id b) (next b)]> (buffers p)) (free_list p) (total_buffers p)
    (free_count p)).

(** the miss path of [read_file_cached] *)
Definition load_file (disk : reading) (now : Z) (name : string) (index : nat) (chain : list cached_file) (c : file_cache) :
    outcome (option string * file_cache) :=
  '(buf, p) ← acquire_buffer (buffer_pool c);
  match buf with
  | None => Done (None, mkCache p (files c) (cached_files_count c))
  | Some i =>
      match disk with
      | NoFile | ReadError => p ← release_buffer i p; Done (None, mkCache p (files c) (cached_files_count c))
      | Bytes s =>
          let s := strtrunc (BUFFER_SIZE - 1) s in
          p ← set_data i s p;
          let f := mkFile (strtrunc (NAME_SIZE - 1) name) i (Z.of_nat (strlen s)) now in
          n ← int_chk (cached_files_count c + 1);
          Done (Some s, mkCache p (<[index := f :: chain]> (files c)) n)
      end
  end.

(** the string that is returned, if not NULL *)
Definition read_file_cached (disk : reading) (now : Z) (name : string) (c : file_cache) :
    outcome (option string * file_cache) :=
  let index := hash name in
  chain ← of_option (files c !! index);
  match find_file name chain with
  | Some k =>
      f ← of_option (chain !! k);
      b ← of_option (buffers (buffer_pool c) !! buffer f);
      Done (Some (data b), mkCache (buffer_pool c) (<[index := <[k := touch now f]> chain]> (files c)) (cached_files_count c))
  | None => load_file disk now name index chain c
  end.

(** unlinking and freeing the file at a position, with its buffer *)
Definition drop_file (index k : nat) (c : file_cache) : outcome file_cache :=
  chain ← of_option (files c !! index);
  f ← of_option (chain !! k);
  p ← release_buffer (buffer f) (buffer_pool c);
  n ← int_chk (cached_files_count c - 1);
  Done (mkCache p (<[index := delete k chain]> (files c)) n).

Definition remove_cache_file (name : string) (c : file_cache) : outcome file_cache :=
  chain ← of_option (files c !! hash name);
  match find_file name chain with
  | Some k => drop_file (hash name) k c
  | None => Done c
  end.

(** the double loop of the LRU and MRU removals: the best file so far and where it is *)
Fixpoint scan_chain (better : Z -> Z -> bool) (l : list cached_file) (i k : nat) (best : option (cached_file * nat * nat)) :
    option (cached_file * nat * nat) :=
  match l with
  | [] => best
  | f :: l' =>
      scan_chain better l' i (S k)
        (if match best with None => true | Some (b, _, _) => better (last_accessed f) (last_accessed b) end
         then Some (f, i, k) else best)
  end.
Fixpoint scan_files (better : Z -> Z -> bool) (l : list (list cached_file)) (i : nat) (best : option (cached_file * nat * nat)) :
    option (cached_file * nat * nat) :=
  match l with
  | [] => best
  | chain :: l' => scan_files better l' (S i) (scan_chain better chain i 0 best)
  end.

Definition remove_best (better : Z -> Z -> bool) (c : file_cache) : outcome file_cache :=
  match scan_files better (files c) 0 None with
  | Some (_, i, k) => drop_file i k c
  | None => Done c
  end.
Definition remove_lru_cached_file : file_cache -> outcome file_cache := remove_best Z.ltb.
Definition remove_mru_cached_file : file_cache -> outcome file_cache := remove_best Z.gtb.

(** a use of the cache: what is called, and for a read when, and what the file holds by then *)
Inductive op := Read (now : Z) (name : string) (disk : reading) | Remove (name : string) | RemoveLRU | RemoveMRU.

Definition run_op (o : op) (c : file_cache) : outcome (option string * file_cache) :=
  match o with
  | Read now name disk => read_file_cached disk now name c
  | Remove name => c ← remove_cache_file name c; Done (None, c)
  | RemoveLRU => c ← remove_lru_cached_file c; Done (None, c)
  | RemoveMRU => c ← remove_mru_cached_file c; Done (None, c)
  end.

Fixpoint run_ops (l : list op) (c : file_cache) : outcome (list (option string) * file_cache) :=
  match l with
  | [] => Done ([], c)
  | o :: l' => '(r, c) ← run_op o c; '(rs, c) ← run_ops l' c; Done (r :: rs, c)
  end.

(** ** The buffer pool *)

(** [free_list] runs through the free buffers [fl] *)
Fixpoint free_chain (bs : list buffer_t) (p : option nat) (fl : list nat) : Prop :=
  match fl with
  | [] => p = None
  | i :: fl' => p = Some i /\ exists b, bs !! i = Some b /\ is_free b = true /\ free_chain bs (next b) fl'
  end.

(** every buffer is either free or used *)
Record pool_ok (p : buffer_pool_t) (fl used : list nat) : Prop := {
  pool_chain : free_chain (buffers p) (free_list p) fl;
  pool_count : free_count p = Z.of_nat (length fl);
  pool_parts : fl ++ used ≡ₚ seq 0 (length (buffers p));
  pool_used : Forall (fun i => is_free <$> buffers p !! i = Some false) used;
}.

Lemma free_chain_insert (bs : list buffer_t) p fl (i : nat) b : free_chain bs p fl -> i ∉ fl -> free_chain (<[i := b]> bs) p fl.
Proof.
  revert p. induction fl as [|j fl IH]; intros p; simpl; [done|]. intros (-> & b' & Hb & Hf & Hc) Hi.
  split; [done|]. exists b'. rewrite list_lookup_insert_ne by set_solver. split_and!; [done..|]. apply IH; set_solver.
Qed.

Lemma used_insert (bs : list buffer_t) (used : list nat) (i : nat) b : Forall (fun j => is_free <$> bs !! j = Some false) used -> i ∉ used ->
  Forall (fun j => is_free <$> <[i := b]> bs !! j = Some false) used.
Proof.
  rewrite !Forall_forall. intros H Hi j Hj. rewrite list_lookup_insert_ne; [by apply H|]. congruence.
Qed.

Lemma pool_NoDup p fl used : pool_ok p fl used -> NoDup (fl ++ used).
Proof. intros [_ _ Hp _]. rewrite Hp. apply NoDup_seq. Qed.

Lemma acquire_none p used : pool_ok p [] used -> acquire_buffer p = Done (None, p).
Proof. intros [_ Hc _ _]. unfold acquire_buffer. by rewrite Hc. Qed.

Lemma acquire_some p i fl used : pool_ok p (i :: fl) used -> exists b, buffers p !! i = Some b /\
  acquire_buffer p = Done (Some i, mkPool (<[i := mkBuffer (data b) false (buffer_id b) None]> (buffers p)) (next b)
    (total_buffers p) (free_count p - 1)) /\
  pool_ok (mkPool (<[i := mkBuffer (data b) false (buffer_id b) None]> (buffers p)) (next b) (total_buffers p)
    (free_count p - 1)) fl (i :: used).
Proof.
  intros H. assert (Hnd := pool_NoDup _ _ _ H). destruct H as [[Hfl (b & Hb & _ & Hch)] Hc Hp Hu].
  exists b. simpl in Hnd. apply NoDup_cons in Hnd as [Hi _]. rewrite not_elem_of_app in Hi. destruct Hi as [Hi1 Hi2].
  split; [done|]. split.
  - unfold acquire_buffer. rewrite Hc, Hfl. simpl. by rewrite Hb.
  - constructor; simpl.
    + by apply free_chain_insert.
    + simpl in Hc. lia.
    + rewrite length_insert, <- Hp. symmetry. apply Permutation_middle.
    + constructor; [|by apply used_insert]. rewrite list_lookup_insert_eq; [done|]. by eapply lookup_lt_Some.
Qed.

Lemma release_buffer_ok p fl used1 i used2 : pool_ok p fl (used1 ++ i :: used2) -> exists p', release_buffer i p = Done p' /\
  pool_ok p' (i :: fl) (used1 ++ used2) /\ forall j, j <> i -> buffers p' !! j = buffers p !! j.
Proof.
  intros H. assert (Hnd := pool_NoDup _ _ _ H). destruct H as [Hch Hc Hp Hu].
  assert (Hi : is_free <$> buffers p !! i = Some false) by (rewrite Forall_forall in Hu; apply Hu; set_solver).
  destruct (buffers p !! i) as [b|] eqn:Hb; [|done]. simpl in Hi. injection Hi as Hi.
  rewrite app_assoc, <- Permutation_middle, <- app_assoc in Hnd. apply NoDup_cons in Hnd as [Hn Hnd].
  rewrite !not_elem_of_app in Hn. destruct Hn as (Hn1 & Hn2 & Hn3).
  unfold release_buffer. rewrite Hb. simpl. rewrite Hi. eexists. split; [done|]. split.
  - constructor; simpl.
    + split; [done|]. eexists. rewrite list_lookup_insert_eq by (by eapply lookup_lt_Some).
      split_and!; [done..|]. by apply free_chain_insert.
    + lia.
    + rewrite length_insert, <- Hp, !(app_assoc fl). apply Permutation_middle.
    + apply used_insert; [|set_solver]. rewrite Forall_app in *. destruct Hu as [? Hu]. apply Forall_cons in Hu as [_ ?]. done.
  - intros j Hj. simpl. by rewrite list_lookup_insert_ne.
Qed.

(** filling a used buffer *)
Lemma set_data_ok p fl used1 i used2 s : pool_ok p fl (used1 ++ i :: used2) -> exists p', set_data i s p = Done p' /\
  pool_ok p' fl (used1 ++ i :: used2) /\ (data <$> buffers p' !! i = Some s) /\
  forall j, j <> i -> buffers p' !! j = buffers p !! j.
Proof.
  intros H. assert (Hnd := pool_NoDup _ _ _ H). destruct H as [Hch Hc Hp Hu].
  rewrite app_assoc, <- Permutation_middle, <- app_assoc in Hnd. apply NoDup_cons in Hnd as [Hn _].
  rewrite !not_elem_of_app in Hn. destruct Hn as (Hn1 & Hn2 & Hn3).
  apply Forall_app in Hu as [Hu1 [Hi Hu2]%Forall_cons]. destruct (buffers p !! i) as [b|] eqn:Hb; [|done]. simpl in Hi. injection Hi as Hi.
  assert (Hlt := lookup_lt_Some _ _ _ Hb). unfold set_data. rewrite Hb. simpl. eexists. split; [done|]. split_and!.
  - constructor; simpl; [by apply free_chain_insert|done|by rewrite length_insert|].
    apply Forall_app. split; [by apply used_insert|]. constructor; [|by apply used_insert].
    rewrite list_lookup_insert_eq by done. simpl. by rewrite Hi.
  - simpl. by rewrite list_lookup_insert_eq.
  - intros j Hj. simpl. by rewrite list_lookup_insert_ne.
Qed.

(** ** The cache as a map *)

(** the contents of a file name and the time of its last use *)
Abbreviation cached := (gmap string (string * Z)).

Definition contents (bs : list buffer_t) (i : nat) : string := default "" (data <$> bs !! i).
Definition view (bs : list buffer_t) (f : cached_file) : string * (string * Z) :=
  (filename f, (contents bs (buffer f), last_accessed f)).
Definition to_map (bs : list buffer_t) (es : list cached_file) : cached := list_to_map (view bs <$> es).

Definition short (name : string) : Prop := (strlen name < NAME_SIZE)%nat.

(** the cache holds [m]; its counter started from [junk] *)
Record holds (junk : Z) (c : file_cache) (m : cached) : Prop := {
  h_pool : exists fl, pool_ok (buffer_pool c) fl (buffer <$> concat (files c));
  h_size : length (buffers (buffer_pool c)) = POOL_SIZE;
  h_buckets : length (files c) = CACHE_SIZE;
  h_hash : forall i chain f, files c !! i = Some chain -> f ∈ chain -> hash (filename f) = i /\ short (filename f);
  h_names : NoDup (filename <$> concat (files c));
  h_map : m = to_map (buffers (buffer_pool c)) (concat (files c));
  h_count : cached_files_count c = junk + Z.of_nat (length (concat (files c)));
}.

Lemma strtrunc_all n s : (strlen s <= n)%nat -> strtrunc n s = s.
Proof.
  revert n. induction s as [|c s IH]; intros [|n] H; simpl in *; try done; try lia. by rewrite IH by lia.
Qed.

Lemma hash_lt name : (hash name < CACHE_SIZE)%nat.
Proof. unfold hash. assert (H := Z.mod_pos_bound (hash_loop 0 name) (Z.of_nat CACHE_SIZE)). unfold CACHE_SIZE in *. lia. Qed.

Lemma find_file_Some name l k : find_file name l = Some k ->
  exists l1 f l2, l = l1 ++ f :: l2 /\ length l1 = k /\ filename f = name.
Proof.
  revert k. induction l as [|f l IH]; intros k; simpl; [done|]. destruct (streq (filename f) name) eqn:Hs.
  - intros [= <-]. exists [], f, l. by apply streq_spec in Hs.
  - destruct (find_file name l) as [j|]; [|done]. intros [= <-]. destruct (IH j eq_refl) as (l1 & f' & l2 & -> & <- & Hf).
    by exists (f :: l1), f', l2.
Qed.

Lemma find_file_None name l : find_file name l = None <-> name ∉ filename <$> l.
Proof.
  induction l as [|f l IH]; simpl; [set_solver|]. destruct (streq (filename f) name) eqn:Hs.
  - apply streq_spec in Hs. split; [done|]. set_solver.
  - apply streq_false in Hs. destruct (find_file name l); simpl; rewrite not_elem_of_cons; naive_solver.
Qed.

Lemma fst_view bs es : (view bs <$> es).*1 = filename <$> es.
Proof. rewrite <- list_fmap_compose. done. Qed.

(** one file among the others *)
Lemma to_map_mid bs A f B : NoDup (filename <$> A ++ f :: B) ->
  to_map bs (A ++ f :: B) = <[filename f := (contents bs (buffer f), last_accessed f)]> (to_map bs (A ++ B)) /\
  to_map bs (A ++ B) !! filename f = None.
Proof.
  intros Hnd. unfold to_map. split.
  - change (<[filename f := _]> (list_to_map (view bs <$> A ++ B)) : cached)
      with (list_to_map (view bs f :: (view bs <$> A ++ B)) : cached).
    apply list_to_map_proper; [by rewrite fst_view|]. rewrite <- fmap_cons. apply fmap_Permutation. symmetry. apply Permutation_middle.
  - apply not_elem_of_list_to_map_1. rewrite fst_view. rewrite fmap_app, fmap_cons, <- Permutation_middle in Hnd.
    apply NoDup_cons in Hnd as [H _]. by rewrite fmap_app.
Qed.

Lemma to_map_None bs es name : to_map bs es !! name = None <-> name ∉ filename <$> es.
Proof. unfold to_map. rewrite <- not_elem_of_list_to_map. by rewrite fst_view. Qed.

Lemma to_map_size bs es : NoDup (filename <$> es) -> size (to_map bs es) = length es.
Proof.
  intros H. unfold to_map. rewrite <- size_dom, dom_list_to_map_L, fst_view.
  rewrite (size_list_to_set (C := gset string)) by done. apply length_fmap.
Qed.

(** the map does not depend on the other buffers *)
Lemma to_map_buffers bs bs' es : (forall j, j ∈ buffer <$> es -> data <$> bs' !! j = data <$> bs !! j) ->
  to_map bs' es = to_map bs es.
Proof.
  intros H. unfold to_map. f_equal. apply list_fmap_ext. intros i f Hf. unfold view, contents. rewrite H; [done|].
  apply list_elem_of_fmap_2. by eapply list_elem_of_lookup_2.
Qed.

Lemma concat_mid {A} (L1 L2 : list (list A)) l1 x l2 :
  concat (L1 ++ (l1 ++ x :: l2) :: L2) = (concat L1 ++ l1) ++ x :: l2 ++ concat L2.
Proof. rewrite concat_app. simpl. by rewrite <- !app_assoc. Qed.

Lemma concat_mid_nil {A} (L1 L2 : list (list A)) l1 l2 :
  concat (L1 ++ (l1 ++ l2) :: L2) = (concat L1 ++ l1) ++ l2 ++ concat L2.
Proof. rewrite concat_app. simpl. by rewrite <- !app_assoc. Qed.

(** ** One operation *)

(** the uninitialised counter must leave room for the ten files that fit *)
Definition junk_ok (junk : Z) : Prop := int_min < junk /\ junk + Z.of_nat POOL_SIZE <= int_max.

Lemma holds_length junk c m : holds junk c m -> (length (concat (files c)) <= POOL_SIZE)%nat.
Proof.
  intros [(fl & [_ _ Hp _]) Hs _ _ _ _ _]. apply Permutation_length in Hp.
  rewrite length_app, length_fmap, length_seq, Hs in Hp. lia.
Qed.

(** changing one bucket *)
Lemma buckets_insert (Q : nat -> cached_file -> Prop) (fs : list (list cached_file)) i0 chain' :
  (forall i chain f, fs !! i = Some chain -> f ∈ chain -> Q i f) -> (forall f, f ∈ chain' -> Q i0 f) ->
  forall i chain f, <[i0 := chain']> fs !! i = Some chain -> f ∈ chain -> Q i f.
Proof. intros H H' i chain f [(<- & <- & _)|[_ Hi]]%list_lookup_insert_Some Hf; eauto. Qed.

Lemma drop_file_ok junk c m i l1 f l2 : holds junk c m -> junk_ok junk -> files c !! i = Some (l1 ++ f :: l2) ->
  exists c', drop_file i (length l1) c = Done c' /\ holds junk c' (delete (filename f) m).
Proof.
  intros Hh Hj Hi. assert (Hlen := holds_length _ _ _ Hh). destruct Hh as [(fl & Hpool) Hs Hb Hhash Hn Hm Hc].
  destruct (list_elem_of_split_length _ _ _ Hi) as (F1 & F2 & HF & Hl). rewrite HF, concat_mid in *.
  set (A := concat F1 ++ l1) in *. set (B := l2 ++ concat F2) in *.
  rewrite fmap_app, fmap_cons in Hpool. destruct (release_buffer_ok _ _ _ _ _ Hpool) as (p' & Hrel & Hpool' & Hsame).
  unfold drop_file. rewrite HF, list_lookup_middle by done. simpl. rewrite list_lookup_middle by done. simpl.
  rewrite Hrel. simpl. unfold int_chk. rewrite bool_decide_true.
  2: { unfold in_int, junk_ok, int_min, int_max in *. rewrite length_app in Hc, Hlen. simpl in *. lia. }
  simpl. eexists. split; [done|].
  assert (Hdel : delete (length l1) (l1 ++ f :: l2) = l1 ++ l2) by (by rewrite delete_middle).
  assert (Hin : <[i := l1 ++ l2]> (F1 ++ (l1 ++ f :: l2) :: F2) = F1 ++ (l1 ++ l2) :: F2) by (rewrite Hl; apply list_insert_mid).
  destruct (to_map_mid (buffers (buffer_pool c)) A f B Hn) as [Hmid Hnone].
  constructor; simpl; rewrite ?Hdel.
  - exists (buffer f :: fl). rewrite Hin, concat_mid_nil. fold A B. by rewrite fmap_app.
  - destruct Hpool as [_ _ Hp _], Hpool' as [_ _ Hp' _]. apply Permutation_length in Hp, Hp'.
    rewrite length_app, length_seq in Hp, Hp'. simpl in Hp'. rewrite length_app in Hp, Hp'. simpl in Hp. lia.
  - by rewrite length_insert.
  - apply buckets_insert; [exact Hhash|]. intros f' Hf'. eapply Hhash; [by rewrite Hl; apply list_lookup_middle|]. set_solver.
  - rewrite Hin, concat_mid_nil. fold A B. rewrite fmap_app, fmap_cons, <- Permutation_middle in Hn.
    apply NoDup_cons in Hn as [_ Hn]. by rewrite fmap_app.
  - rewrite Hin, concat_mid_nil. fold A B. rewrite Hm, Hmid, delete_insert_id by done.
    symmetry. apply to_map_buffers. intros j Hj'. rewrite Hsame; [done|]. intros ->.
    apply pool_NoDup in Hpool. rewrite app_assoc, <- Permutation_middle, <- app_assoc in Hpool.
    apply NoDup_cons in Hpool as [Hni _]. apply Hni. rewrite fmap_app in Hj'. set_solver.
  - rewrite Hin, concat_mid_nil. fold A B. rewrite Hc, !length_app. simpl. lia.
Qed.

(** the bucket in which a cached name is found *)
Lemma lookup_bucket junk c m name : holds junk c m -> exists chain, files c !! hash name = Some chain /\
  match find_file name chain with
  | Some k => exists l1 f l2, chain = l1 ++ f :: l2 /\ length l1 = k /\ filename f = name /\
      m !! name = Some (contents (buffers (buffer_pool c)) (buffer f), last_accessed f)
  | None => m !! name = None /\ name ∉ filename <$> concat (files c)
  end.
Proof.
  intros [_ _ Hb Hhash Hn -> _]. destruct (lookup_lt_is_Some_2 (files c) (hash name)) as [chain Hch].
  { rewrite Hb. apply hash_lt. }
  exists chain. split; [done|]. destruct (find_file name chain) as [k|] eqn:Hf.
  - destruct (find_file_Some _ _ _ Hf) as (l1 & f & l2 & -> & Hk & Hname). exists l1, f, l2. split_and!; [done..|].
    destruct (list_elem_of_split_length _ _ _ Hch) as (F1 & F2 & HF & _). rewrite HF, concat_mid in *.
    destruct (to_map_mid (buffers (buffer_pool c)) _ f _ Hn) as [-> _]. rewrite <- Hname. apply lookup_insert_eq.
  - assert (Hni : name ∉ filename <$> concat (files c)).
    { intros (f & Hname & Hin)%list_elem_of_fmap. apply list_elem_of_In, in_concat in Hin as (ch & Hch' & Hin).
      apply list_elem_of_In in Hch', Hin. apply list_elem_of_lookup in Hch' as [i Hi].
      destruct (Hhash i ch f Hi Hin) as [Hh _]. rewrite <- Hname in Hh. simplify_eq.
      apply find_file_None in Hf. apply Hf. by apply list_elem_of_fmap_2. }
    split; [by apply to_map_None|done].
Qed.

Lemma contents_used p fl used i : pool_ok p fl used -> i ∈ used -> exists b, buffers p !! i = Some b /\ contents (buffers p) i = data b.
Proof.
  intros [_ _ _ Hu] Hi. rewrite Forall_forall in Hu. specialize (Hu i Hi). unfold contents.
  destruct (buffers p !! i) as [b|]; [by exists b|done].
Qed.

Lemma touch_ok junk c m now l1 f l2 : holds junk c m -> files c !! hash (filename f) = Some (l1 ++ f :: l2) ->
  holds junk (mkCache (buffer_pool c) (<[hash (filename f) := <[length l1 := touch now f]> (l1 ++ f :: l2)]> (files c))
    (cached_files_count c)) (<[filename f := (contents (buffers (buffer_pool c)) (buffer f), now)]> m).
Proof.
  intros [(fl & Hpool) Hs Hb Hhash Hn -> Hc] Hi. rewrite list_insert_mid.
  destruct (list_elem_of_split_length _ _ _ Hi) as (F1 & F2 & HF & Hl).
  assert (Hin : <[hash (filename f) := l1 ++ touch now f :: l2]> (files c) = F1 ++ (l1 ++ touch now f :: l2) :: F2).
  { rewrite HF, Hl. apply list_insert_mid. }
  constructor; simpl; rewrite ?Hin, ?concat_mid; rewrite ?HF, ?concat_mid in Hpool, Hn, Hc.
  - exists fl. rewrite fmap_app, fmap_cons in *. exact Hpool.
  - done.
  - rewrite <- Hb, HF, !length_app. done.
  - rewrite <- Hin. apply buckets_insert; [exact Hhash|]. intros f' Hf'.
    assert (Hold : f' ∈ l1 ++ f :: l2 \/ f' = touch now f) by set_solver.
    destruct Hold as [Hold| ->]; [by eapply Hhash|]. apply (Hhash _ _ f Hi). set_solver.
  - rewrite fmap_app, fmap_cons in *. exact Hn.
  - rewrite HF, concat_mid. destruct (to_map_mid (buffers (buffer_pool c)) _ f _ Hn) as [-> _].
    rewrite insert_insert_eq. symmetry. apply to_map_mid. rewrite fmap_app, fmap_cons in *. exact Hn.
  - rewrite Hc. rewrite !length_app. simpl. lia.
Qed.

(** a new file at the front of its bucket *)
Lemma add_file_ok junk c m now name i fl s p chain : holds junk c m -> files c !! hash name = Some chain ->
  name ∉ filename <$> concat (files c) -> short name ->
  pool_ok p fl (i :: (buffer <$> concat (files c))) -> length (buffers p) = POOL_SIZE ->
  data <$> buffers p !! i = Some s -> (forall j, j <> i -> data <$> buffers p !! j = data <$> buffers (buffer_pool c) !! j) ->
  holds junk (mkCache p (<[hash name := mkFile name i (Z.of_nat (strlen s)) now :: chain]> (files c)) (cached_files_count c + 1))
    (<[name := (s, now)]> m).
Proof.
  intros [_ Hs Hb Hhash Hn -> Hc] Hi Hni Hshort Hpool Hs' Hdata Hsame. set (f := mkFile name i _ now).
  destruct (list_elem_of_split_length _ _ _ Hi) as (F1 & F2 & HF & Hl).
  assert (Hin : <[hash name := f :: chain]> (files c) = F1 ++ (f :: chain) :: F2).
  { rewrite HF, Hl. apply list_insert_mid. }
  assert (Hperm : concat (F1 ++ (f :: chain) :: F2) ≡ₚ f :: concat (files c)).
  { rewrite HF, !concat_app. simpl. symmetry. apply Permutation_middle. }
  assert (Hnd : NoDup (filename <$> f :: concat (files c))) by (rewrite fmap_cons; by constructor).
  constructor; simpl; rewrite ?Hin.
  - exists fl. destruct Hpool as [H1 H2 H3 H4]. constructor; [done|done| |].
    + by rewrite Hperm.
    + by rewrite Hperm.
  - done.
  - rewrite <- Hb, HF, !length_app. done.
  - rewrite <- Hin. apply buckets_insert; [exact Hhash|]. intros f' [->|Hf']%elem_of_cons; [done|by eapply Hhash].
  - by rewrite Hperm.
  - unfold to_map. rewrite (list_to_map_proper (M := gmap string) (view (buffers p) <$> concat (F1 ++ (f :: chain) :: F2))
      (view (buffers p) <$> f :: concat (files c)));
      [|rewrite fst_view, Hperm; exact Hnd|by rewrite Hperm].
    change (list_to_map (view (buffers p) <$> f :: concat (files c)))
      with (<[name := (contents (buffers p) i, now)]> (to_map (buffers p) (concat (files c)))).
    unfold contents at 1. rewrite Hdata. f_equal. symmetry. apply to_map_buffers. intros j Hj. apply Hsame. intros ->.
    apply pool_NoDup in Hpool. rewrite <- Permutation_middle in Hpool. apply NoDup_cons in Hpool as [Hpool _]. set_solver.
  - rewrite Hperm, Hc. simpl. lia.
Qed.

(** ** What the operations promise *)

(** the contents that are cached for a file *)
Definition loaded (r : reading) : option string :=
  match r with Bytes s => Some (strtrunc (BUFFER_SIZE - 1) s) | _ => None end.

(** the file that a removal by age takes away: none is [better] *)
Definition removes_best (better : Z -> Z -> bool) (m m' : cached) : Prop :=
  (m = ∅ /\ m' = ∅) \/
  exists name s t, m !! name = Some (s, t) /\ m' = delete name m /\
    forall name' s' t', m !! name' = Some (s', t') -> better t' t = false.

Definition spec_op (o : op) (m : cached) (r : option string) (m' : cached) : Prop :=
  match o with
  | Read now name disk =>
      match m !! name with
      | Some (s, _) => r = Some s /\ m' = <[name := (s, now)]> m
      | None =>
          match (if (size m <? POOL_SIZE)%nat then loaded disk else None) with
          | Some s => r = Some s /\ m' = <[name := (s, now)]> m
          | None => r = None /\ m' = m
          end
      end
  | Remove name => r = None /\ m' = delete name m
  | RemoveLRU => r = None /\ removes_best Z.ltb m m'
  | RemoveMRU => r = None /\ removes_best Z.gtb m m'
  end.

Definition op_short (o : op) : Prop :=
  match o with Read _ name _ | Remove name => short name | _ => True end.

Lemma holds_size junk c m : holds junk c m -> size m = length (concat (files c)).
Proof. intros [_ _ _ _ Hn -> _]. by apply to_map_size. Qed.

(** a pool that holds the same data in the used buffers *)
Lemma holds_pool junk c m fl p : holds junk c m -> pool_ok p fl (buffer <$> concat (files c)) ->
  length (buffers p) = POOL_SIZE ->
  (forall j, j ∈ buffer <$> concat (files c) -> data <$> buffers p !! j = data <$> buffers (buffer_pool c) !! j) ->
  holds junk (mkCache p (files c) (cached_files_count c)) m.
Proof.
  intros [_ Hs Hb Hhash Hn -> Hc] Hpool Hs' Hsame. constructor; simpl; try done; [by exists fl|].
  symmetry. by apply to_map_buffers.
Qed.

Lemma load_file_ok disk junk c m now name chain : holds junk c m -> junk_ok junk -> short name ->
  files c !! hash name = Some chain -> name ∉ filename <$> concat (files c) ->
  exists r c', load_file disk now name (hash name) chain c = Done (r, c') /\
    match (if (size m <? POOL_SIZE)%nat then loaded disk else None) with
    | Some s => r = Some s /\ holds junk c' (<[name := (s, now)]> m)
    | None => r = None /\ holds junk c' m
    end.
Proof.
  intros Hh Hj Hshort Hch Hni. assert (Hsz := holds_size _ _ _ Hh). assert (Hle := holds_length _ _ _ Hh).
  destruct (h_pool _ _ _ Hh) as (fl & Hpool). assert (Hlen := pool_parts _ _ _ Hpool). apply Permutation_length in Hlen.
  rewrite length_app, length_fmap, length_seq, (h_size _ _ _ Hh) in Hlen. unfold load_file.
  destruct fl as [|i fl]; simpl in Hlen.
  { rewrite (acquire_none _ _ Hpool). simpl. eexists _, _. split; [done|]. destruct (Nat.ltb_spec (size m) POOL_SIZE); [lia|].
    split; [done|]. by apply (holds_pool junk c m []); [..|apply (h_size _ _ _ Hh)|]. }
  destruct (acquire_some _ _ _ _ Hpool) as (b & Hb & Hacq & Hpool1). rewrite Hacq. cbn [mbind outcome_bind]. set (p1 := mkPool _ _ _ _) in *.
  assert (Hlen1 : length (buffers p1) = POOL_SIZE) by (simpl; rewrite length_insert; apply (h_size _ _ _ Hh)).
  assert (Hsame1 : forall j, j <> i -> buffers p1 !! j = buffers (buffer_pool c) !! j).
  { intros j Hj'. simpl. by rewrite list_lookup_insert_ne. }
  destruct (Nat.ltb_spec (size m) POOL_SIZE); [|lia].
  assert (Hiu : i ∉ buffer <$> concat (files c)).
  { apply pool_NoDup in Hpool. simpl in Hpool. apply NoDup_cons in Hpool as [Hi _]. set_solver. }
  assert (Hfail : exists r c', (p ← release_buffer i p1; Done (None, mkCache p (files c) (cached_files_count c))) = Done (r, c') /\
    r = (None : option string) /\ holds junk c' m).
  { destruct (release_buffer_ok p1 fl [] i _ Hpool1) as (p2 & -> & Hpool2 & Hsame2). simpl. eexists _, _. split; [done|]. split; [done|].
    apply (holds_pool junk c m (i :: fl)); [done|done| |].
    - destruct Hpool2 as [_ _ Hp _]. apply Permutation_length in Hp. cbn [app] in Hp.
      rewrite length_cons, length_app, length_fmap, length_seq in Hp. rewrite <- Hp. lia.
    - intros j Hj'. assert (j <> i) by (by intros ->). by rewrite Hsame2, Hsame1. }
  destruct disk as [| |s]; [exact Hfail|exact Hfail|]. simpl loaded.
  destruct (set_data_ok p1 fl [] i _ (strtrunc (BUFFER_SIZE - 1) s) Hpool1) as (p2 & -> & Hpool2 & Hdata & Hsame2).
  cbn [mbind outcome_bind]. unfold int_chk. rewrite bool_decide_true.
  2: { rewrite (h_count _ _ _ Hh). unfold in_int, junk_ok, int_min, int_max in *. lia. }
  cbn [mbind outcome_bind]. eexists _, _. split; [done|]. split; [done|].
  rewrite strtrunc_all by (unfold short, NAME_SIZE in *; lia).
  apply (add_file_ok junk c m now name i fl _ p2 chain Hh Hch Hni Hshort Hpool2); [|done|].
  - destruct Hpool2 as [_ _ Hp _]. apply Permutation_length in Hp. cbn [app] in Hp.
    rewrite length_app, length_cons, length_fmap, length_seq in Hp. rewrite <- Hp. lia.
  - intros j Hj'. by rewrite Hsame2, Hsame1.
Qed.

Lemma read_ok disk junk c m now name : holds junk c m -> junk_ok junk -> short name ->
  exists r c' m', read_file_cached disk now name c = Done (r, c') /\ spec_op (Read now name disk) m r m' /\ holds junk c' m'.
Proof.
  intros Hh Hj Hshort. destruct (lookup_bucket _ _ _ name Hh) as (chain & Hch & Hfind).
  unfold read_file_cached, spec_op. rewrite Hch. simpl. destruct (find_file name chain) as [k|].
  - destruct Hfind as (l1 & f & l2 & -> & <- & <- & Hm). rewrite list_lookup_middle by done. simpl.
    destruct (h_pool _ _ _ Hh) as (fl & Hpool). destruct (contents_used _ _ _ (buffer f) Hpool) as (b & Hb & Hd).
    { apply list_elem_of_fmap_2. apply list_elem_of_lookup_2 in Hch. apply list_elem_of_In, in_concat.
      exists (l1 ++ f :: l2). split; apply list_elem_of_In; [done|set_solver]. }
    rewrite Hb. simpl. rewrite <- Hd. eexists _, _, _. split; [done|]. rewrite Hm. split; [done|]. by apply touch_ok.
  - destruct Hfind as [Hm Hni]. destruct (load_file_ok disk junk c m now name chain Hh Hj Hshort Hch Hni) as (r & c' & -> & Hr).
    rewrite Hm. destruct (if (size m <? POOL_SIZE)%nat then loaded disk else None);
      destruct Hr as [-> Hr]; eexists _, _, _; (split; [done|]); (split; [done|]); done.
Qed.

Lemma remove_ok junk c m name : holds junk c m -> junk_ok junk ->
  exists c', remove_cache_file name c = Done c' /\ holds junk c' (delete name m).
Proof.
  intros Hh Hj. destruct (lookup_bucket _ _ _ name Hh) as (chain & Hch & Hfind). unfold remove_cache_file. rewrite Hch. simpl.
  destruct (find_file name chain) as [k|].
  - destruct Hfind as (l1 & f & l2 & -> & <- & <- & _). by apply (drop_file_ok junk c m _ l1 f l2).
  - destruct Hfind as [Hm _]. exists c. by rewrite delete_id.
Qed.

(** ** Removal by age *)

(** the comparisons that the scans may use *)
Class Better (better : Z -> Z -> bool) := {
  better_irrefl : forall a, better a a = false;
  better_trans : forall x a b, better a b = true -> better x b = false -> better x a = false;
}.

#[export] Instance better_lt : Better Z.ltb.
Proof. split; intros; [apply Z.ltb_irrefl|]. rewrite Z.ltb_ge in *. rewrite Z.ltb_lt in *. lia. Qed.
#[export] Instance better_gt : Better Z.gtb.
Proof. split; intros *; rewrite ?Z.gtb_ltb; [apply Z.ltb_irrefl|]. rewrite !Z.ltb_ge, Z.ltb_lt. lia. Qed.

Section scan.
Context (better : Z -> Z -> bool) `{!Better better} (fs : list (list cached_file)).
Implicit Types (best : option (cached_file * nat * nat)).

(** nothing that has been seen is better than the best, and the best is where it says *)
Definition best_of best (seen : list cached_file) : Prop :=
  match best with
  | None => seen = []
  | Some (b, i, k) => Forall (fun f => better (last_accessed f) (last_accessed b) = false) seen /\
      exists chain, fs !! i = Some chain /\ chain !! k = Some b
  end.

Lemma scan_chain_ok l i k best seen chain : best_of best seen -> fs !! i = Some chain -> drop k chain = l ->
  best_of (scan_chain better l i k best) (seen ++ l).
Proof.
  revert k best seen. induction l as [|f l IH]; intros k best seen Hb Hi Hk; simpl; [by rewrite app_nil_r|].
  assert (Hf : chain !! k = Some f).
  { rewrite <- (Nat.add_0_r k), <- lookup_drop, Hk. done. }
  rewrite (cons_middle f), app_assoc. apply IH; [|done|].
  - destruct best as [[[b i'] k']|]; simpl in Hb.
    + destruct (better (last_accessed f) (last_accessed b)) eqn:Hbf; simpl.
      * destruct Hb as [Hb _]. split; [|by exists chain]. apply Forall_app. split.
        -- eapply Forall_impl; [exact Hb|]. intros x Hx. by eapply better_trans.
        -- constructor; [apply better_irrefl|done].
      * destruct Hb as [Hb Hl]. split; [|done]. apply Forall_app. split; [done|by constructor].
    + subst seen. simpl. split; [|by exists chain]. constructor; [apply better_irrefl|done].
  - rewrite (drop_S chain f k Hf) in Hk. by injection Hk.
Qed.

Lemma scan_files_ok l i best seen : best_of best seen -> drop i fs = l ->
  best_of (scan_files better l i best) (seen ++ concat l).
Proof.
  revert i best seen. induction l as [|chain l IH]; intros i best seen Hb Hi; simpl; [by rewrite app_nil_r|].
  assert (Hf : fs !! i = Some chain) by (by rewrite <- (Nat.add_0_r i), <- lookup_drop, Hi).
  rewrite app_assoc. apply IH; [by eapply scan_chain_ok|]. rewrite (drop_S fs chain i Hf) in Hi. by injection Hi.
Qed.
End scan.

Lemma remove_best_ok better `{!Better better} junk c m : holds junk c m -> junk_ok junk ->
  exists c' m', remove_best better c = Done c' /\ holds junk c' m' /\ removes_best better m m'.
Proof.
  intros Hh Hj. unfold remove_best.
  assert (Hscan := scan_files_ok better (files c) (files c) 0 None [] eq_refl eq_refl). simpl in Hscan.
  destruct (scan_files better (files c) 0 None) as [[[f i] k]|]; simpl in Hscan.
  - destruct Hscan as [Hall (chain & Hi & Hk)]. destruct (list_elem_of_split_length _ _ _ Hk) as (l1 & l2 & -> & ->).
    destruct (drop_file_ok junk c m i l1 f l2 Hh Hj Hi) as (c' & Hdrop & Hh'). exists c', (delete (filename f) m).
    split; [done|]. split; [done|]. right. destruct Hh as [_ _ _ _ Hn -> _].
    assert (Hin : f ∈ concat (files c)).
    { apply list_elem_of_In, in_concat. exists (l1 ++ f :: l2). apply list_elem_of_lookup_2 in Hi.
      split; apply list_elem_of_In; [done|set_solver]. }
    assert (Hget : forall g, g ∈ concat (files c) -> to_map (buffers (buffer_pool c)) (concat (files c)) !! filename g =
      Some (contents (buffers (buffer_pool c)) (buffer g), last_accessed g)).
    { intros g Hg. apply elem_of_list_to_map_1; [by rewrite fst_view|]. apply list_elem_of_fmap. by exists g. }
    eexists _, _, _. split; [by apply Hget|]. split; [done|]. intros name' s' t' Hm.
    apply elem_of_list_to_map_2 in Hm. apply list_elem_of_fmap in Hm as (g & [= -> -> ->] & Hg).
    rewrite Forall_forall in Hall. by apply Hall.
  - exists c, m. split; [done|]. split; [done|]. left. destruct Hh as [_ _ _ _ _ -> _]. by rewrite Hscan.
Qed.

Lemma fc_run_op_ok junk c m o : holds junk c m -> junk_ok junk -> op_short o ->
  exists r c' m', run_op o c = Done (r, c') /\ spec_op o m r m' /\ holds junk c' m'.
Proof.
  intros Hh Hj Ho. destruct o as [now name disk|name| |]; simpl.
  - by apply read_ok.
  - destruct (remove_ok junk c m name Hh Hj) as (c' & -> & Hh'). simpl. eexists _, _, _. done.
  - destruct (remove_best_ok Z.ltb junk c m Hh Hj) as (c' & m' & Heq & Hh' & Hr). unfold remove_lru_cached_file. rewrite Heq.
    simpl. eexists _, _, _. done.
  - destruct (remove_best_ok Z.gtb junk c m Hh Hj) as (c' & m' & Heq & Hh' & Hr). unfold remove_mru_cached_file. rewrite Heq.
    simpl. eexists _, _, _. done.
Qed.

(** a run of the specification *)
Inductive spec_ops : list op -> cached -> list (option string) -> cached -> Prop :=
| spec_nil m : spec_ops [] m [] m
| spec_cons o l m r m1 rs m2 : spec_op o m r m1 -> spec_ops l m1 rs m2 -> spec_ops (o :: l) m (r :: rs) m2.

Lemma create_holds junk : holds junk (create_file_cache junk) ∅.
Proof.
  constructor; [exists (seq 0 POOL_SIZE)|done|done| |constructor|done|unfold create_file_cache; simpl; lia].
  - constructor; [|done|by rewrite app_nil_r|constructor]. simpl. repeat (split; [done|eexists; split; [done|split; [done|]]]). done.
  - intros i chain f Hi Hf. unfold create_file_cache in Hi. cbn [files] in Hi. apply lookup_replicate in Hi as [-> _]. by apply not_elem_of_nil in Hf.
Qed.

(** ** Properties *)

(** C16: the file cache is a map from file names to contents, of at most ten files, while the
    files themselves may change at any time.  From a new cache whose uninitialised counter of
    files, whatever it holds, leaves room in an [int] for the ten files that fit (near the end
    of the range it overflows: [junk_counter_overflows]), any sequence of reads, removals by
    name and removals by age, with names below 256 characters, runs without undefined
    behaviour; a read returns what was loaded when the file was first read since its last
    removal, or else, if a buffer is free, loads what the file now holds, up to 4095
    characters; a removal by name removes that file, and a removal by age one that no other
    beats; and every buffer stays either free or with exactly one file. *)
Theorem file_cache_refines junk l : junk_ok junk -> Forall op_short l ->
  exists rs c m, run_ops l (create_file_cache junk) = Done (rs, c) /\ spec_ops l ∅ rs m /\ holds junk c m.
Proof.
  intros Hj Hl. assert (Hh := create_holds junk). revert Hh. generalize (create_file_cache junk). generalize (∅ : cached).
  induction Hl as [|o l Ho _ IH]; intros m c Hh; simpl.
  - exists [], c, m. split; [done|]. split; [constructor|done].
  - destruct (fc_run_op_ok junk c m o Hh Hj Ho) as (r & c1 & m1 & -> & Hs & Hh1). simpl.
    destruct (IH m1 c1 Hh1) as (rs & c2 & m2 & -> & Hs2 & Hh2). simpl.
    exists (r :: rs), c2, m2. split; [done|]. split; [by econstructor|done].
Qed.

(** the file changes behind the cache, which notices it only after the file was removed *)
Definition changing_file : list op :=
  [Read 1 "a.txt" (Bytes "old"); Read 2 "b.txt" NoFile; Read 3 "a.txt" (Bytes "new"); RemoveLRU; Read 4 "a.txt" (Bytes "new")].

Lemma file_cache_refines_witness :
  ('(rs, _) ← run_ops changing_file (create_file_cache 7); Done rs) = Done [Some "old"; None; Some "old"; None; Some "new"] /\
  exists rs c m, run_ops changing_file (create_file_cache 7) = Done (rs, c) /\ spec_ops changing_file ∅ rs m /\ holds 7 c m.
Proof.
  split; [vm_compute; reflexivity|]. apply (file_cache_refines 7 changing_file).
  - split; unfold int_min, int_max, POOL_SIZE; lia.
  - repeat constructor; unfold op_short, short, NAME_SIZE; simpl; lia.
Defined.

(** A name of 256 characters or more is stored cut: the file is never found again, and
    each read of it takes another buffer. *)
Lemma long_name_leaks :
  let name := String.string_of_list_ascii (replicate 300 "x"%char) in
  let file := Bytes "hello" in
  ('(rs, c) ← run_ops [Read 1 name file; Read 2 name file; Read 3 name file] (create_file_cache 0);
   Done (rs, free_count (buffer_pool c))) = Done ([Some "hello"; Some "hello"; Some "hello"], 7).
Proof. by vm_compute. Qed.

(** An uninitialised counter near the end of its range overflows with the first file. *)
Lemma junk_counter_overflows :
  run_ops [Read 1 "a.txt" (Bytes "hello")] (create_file_cache int_max) = Undef.
Proof. by vm_compute. Qed.
