(* ===== verification/SharedLinks.v ===== *)
(** * The LRU cache of FIleCache/LruCahce.c

    A node has one [next] field for two lists: the recency list and the chain of its
    hash bucket.  The model keeps the nodes in an explicit heap with that one field, and
    the lemmas at the end show on small runs what the sharing does: a hit can take other
    keys out of their bucket.  A put of a new key followed by a get is still right. *)
From S2P Require Import Prelude LinkedHeap FileCache.

(** ** The program *)

Definition KEY_SIZE : nat := 32.
Definition DATA_SIZE : nat := 256.

Record cache_node := mkCNode { nkey : string; ndata : string; nprev : ptr; nnext : ptr }.
Record lru_cache := mkLru { head : ptr; tail : ptr; nodes : list ptr; count : Z; capacity : Z; heap : gmap loc cache_node }.

#[export] Instance lru_heap : HeapState lru_cache cache_node := {
  heap_of := heap; with_heap h c := mkLru (head c) (tail c) (nodes c) (count c) (capacity c) h;
  heap_of_with _ _ := eq_refl; with_with _ _ _ := eq_refl }.

Definition set_nprev (p : ptr) (n : cache_node) : cache_node := mkCNode (nkey n) (ndata n) p (nnext n).
Definition set_nnext (p : ptr) (n : cache_node) : cache_node := mkCNode (nkey n) (ndata n) (nprev n) p.
Definition set_ndata (d : string) (n : cache_node) : cache_node := mkCNode (nkey n) d (nprev n) (nnext n).

Definition set_head (p : ptr) (c : lru_cache) : lru_cache := mkLru p (tail c) (nodes c) (count c) (capacity c) (heap c).
Definition set_tail (p : ptr) (c : lru_cache) : lru_cache := mkLru (head c) p (nodes c) (count c) (capacity c) (heap c).
Definition set_count (n : Z) (c : lru_cache) : lru_cache := mkLru (head c) (tail c) (nodes c) n (capacity c) (heap c).
Definition set_bucket (i : nat) (p : ptr) (c : lru_cache) : lru_cache :=
  mkLru (head c) (tail c) (<[i := p]> (nodes c)) (count c) (capacity c) (heap c).
Definition get_bucket (i : nat) : cmd lru_cache ptr := c ← get; lift (of_option (nodes c !! i)).

Definition create_lru_cache : lru_cache := mkLru None None (replicate CACHE_SIZE None) 0 (Z.of_nat CACHE_SIZE) ∅.

(** [if (p) p->field = ...] *)
Definition update_if (p : ptr) (f : cache_node -> cache_node) : cmd lru_cache unit :=
  match p with None => mret tt | Some _ => update p f end.

Definition move_to_front (node : ptr) : cmd lru_cache unit :=
  h ← gets head;
  if bool_decide (h = node) then mret tt else
  n ← load node;
  update_if (nprev n) (set_nnext (nnext n));;
  update_if (nnext n) (set_nprev (nprev n));;
  t ← gets tail;
  (if bool_decide (t = node) then modify (set_tail (nprev n)) else mret tt);;
  update node (set_nprev None);;
  update node (set_nnext h);;
  update_if h (set_nprev node);;
  modify (set_head node);;
  t ← gets tail;
  if bool_decide (t = None) then modify (set_tail node) else mret tt.

Definition add_to_front (node : ptr) : cmd lru_cache unit :=
  h ← gets head;
  update node (set_nprev None);;
  update node (set_nnext h);;
  update_if h (set_nprev node);;
  modify (set_head node);;
  t ← gets tail;
  if bool_decide (t = None) then modify (set_tail node) else mret tt.

Definition remove_lru : cmd lru_cache ptr :=
  t ← gets tail;
  match t with
  | None => mret None
  | Some _ =>
      n ← load t;
      (match nprev n with Some _ => update (nprev n) (set_nnext None) | None => modify (set_head None) end);;
      modify (set_tail (nprev n));;
      mret t
  end.

(** [while (current && strcmp(current->key, key) != 0) current = current->next] *)
Fixpoint find_node (fuel : nat) (current : ptr) (key : string) : cmd lru_cache ptr :=
  match fuel with
  | O => fun _ => OutOfFuel
  | S fuel' =>
      match current with
      | None => mret None
      | Some _ => n ← load current; if streq (nkey n) key then mret current else find_node fuel' (nnext n) key
      end
  end.

(** the data of the node that is found *)
Definition cache_get (fuel : nat) (key : string) : cmd lru_cache (option string) :=
  first ← get_bucket (hash key);
  current ← find_node fuel first key;
  match current with
  | None => mret None
  | Some _ => move_to_front current;; n ← load current; mret (Some (ndata n))
  end.

Definition evict : cmd lru_cache unit :=
  lru ← remove_lru;
  match lru with
  | None => mret tt
  | Some _ =>
      n ← load lru;
      first ← get_bucket (hash (nkey n));
      (if bool_decide (first = lru) then modify (set_bucket (hash (nkey n)) (nnext n)) else mret tt);;
      free lru;;
      modify (fun c => set_count (count c - 1) c)
  end.

Definition cache_put (fuel : nat) (key data : string) : cmd lru_cache unit :=
  existing ← cache_get fuel key;
  match existing with
  | Some _ =>
      first ← get_bucket (hash key);
      current ← find_node fuel first key;
      update_if current (set_ndata (strtrunc (DATA_SIZE - 1) data))
  | None =>
      new_node ← alloc (mkCNode (strtrunc (KEY_SIZE - 1) key) (strtrunc (DATA_SIZE - 1) data) None None);
      c ← get;
      (if count c >=? capacity c then evict else mret tt);;
      add_to_front new_node;;
      first ← get_bucket (hash key);
      update new_node (set_nnext first);;
      modify (set_bucket (hash key) new_node);;
      modify (fun c => set_count (count c + 1) c)
  end.

(** a run of puts and gets: what the gets return *)
Inductive call := Put (key data : string) | Get (key : string).
Fixpoint run_calls (fuel : nat) (l : list call) : cmd lru_cache (list (option string)) :=
  match l with
  | [] => mret []
  | Put k d :: l' => cache_put fuel k d;; run_calls fuel l'
  | Get k :: l' => r ← cache_get fuel k; rs ← run_calls fuel l'; mret (r :: rs)
  end.
Definition run (l : list call) : outcome (list (option string)) :=
  '(r, _) ← run_calls 100 l create_lru_cache; Done r.

(** ** What the shared field does *)

(** One key alone in its bucket is found. *)
Lemma get_after_put : run [Put "a" "1"; Get "a"; Get "a"] = Done [Some "1"; Some "1"].
Proof. by vm_compute. Qed.

(** [a] and [f] are in the same bucket: the first hit on [a] cuts it out of the bucket,
    and the second get does not find it. *)
Lemma hit_loses_key : run [Put "a" "1"; Put "f" "2"; Get "a"; Get "a"] = Done [Some "1"; None].
Proof. by vm_compute. Qed.

(** For the same reason a put of an existing key may store nothing. *)
Lemma put_is_lost : run [Put "a" "1"; Put "f" "2"; Put "a" "3"; Get "a"] = Done [None].
Proof. by vm_compute. Qed.

(** A key of another bucket in between makes the bucket a cycle: the search for a missing
    key does not end (here the fuel is ten times the number of nodes). *)
Lemma missing_key_loops : run [Put "a" "1"; Put "b" "2"; Put "f" "3"; Get "a"; Get "k"] = OutOfFuel.
Proof. by vm_compute. Qed.

(** An eviction frees a node that another bucket still reaches: a later get reads it. *)
Lemma stale_node_read :
  run [Put "a" "1"; Put "f" "2"; Put "b" "3"; Put "k" "3"; Put "e" "3"; Get "a"; Put "p" "4"; Get "f"; Put "c" "4";
       Put "d" "4"; Get "k"; Get "f"; Get "a"] = Undef.
Proof. by vm_compute. Qed.
