(* ===== verification/MedianFinder.v ===== *)
(** * The running median of LEETCODE PROBLEMS/mediandta.c

    An AVL tree whose nodes count duplicates and know the size of their subtree.  A node
    is owned by one pointer, so a tree is a value.  [medianFinderFindMedian] returns a
    [double] that is an integer or a half: the model returns twice its value.  [int]
    additions that the caller's numbers can overflow are checked. *)
From S2P Require Import Prelude SortedSpec.

(** ** The program *)

Inductive AVLNode : Type :=
| NULL
| Node (val height_ count size_ : Z) (left right : AVLNode).

Definition height (n : AVLNode) : Z := match n with NULL => 0 | Node _ h _ _ _ _ => h end.
Definition size (n : AVLNode) : Z := match n with NULL => 0 | Node _ _ _ s _ _ => s end.
Definition max (a b : Z) : Z := if a >? b then a else b.

(** [update] of the node with these fields *)
Definition update (v c : Z) (l r : AVLNode) : AVLNode :=
  Node v (1 + max (height l) (height r)) c (c + size l + size r) l r.

Definition rightRotate (y : AVLNode) : outcome AVLNode :=
  match y with
  | Node yv _ yc _ (Node xv _ xc _ xl T2) yr => Done (update xv xc xl (update yv yc T2 yr))
  | _ => Undef
  end.

Definition leftRotate (x : AVLNode) : outcome AVLNode :=
  match x with
  | Node xv _ xc _ xl (Node yv _ yc _ T2 yr) => Done (update yv yc (update xv xc xl T2) yr)
  | _ => Undef
  end.

Definition getBalance (n : AVLNode) : Z :=
  match n with NULL => 0 | Node _ _ _ _ l r => height l - height r end.

Definition val_of (n : AVLNode) : outcome Z := match n with NULL => Undef | Node v _ _ _ _ _ => Done v end.

(** the end of [insert]: update and rebalance *)
Definition insert_fix (v c : Z) (l r : AVLNode) (val : Z) : outcome AVLNode :=
  let root := update v c l r in
  let balance := getBalance root in
  ll ← c_and (balance >? 1) (lv ← val_of l; mret (val <? lv));
  if (ll : bool) then rightRotate root else
  rr ← c_and (balance <? -1) (rv ← val_of r; mret (val >? rv));
  if (rr : bool) then leftRotate root else
  lr ← c_and (balance >? 1) (lv ← val_of l; mret (val >? lv));
  if (lr : bool) then l' ← leftRotate l; rightRotate (Node v (height root) c (size root) l' r) else
  rl ← c_and (balance <? -1) (rv ← val_of r; mret (val <? rv));
  if (rl : bool) then r' ← rightRotate r; leftRotate (Node v (height root) c (size root) l r') else
  Done root.

Fixpoint insert (root : AVLNode) (val : Z) : outcome AVLNode :=
  match root with
  | NULL => Done (Node val 1 1 1 NULL NULL)
  | Node v _ c _ l r =>
      if val <? v then l' ← insert l val; insert_fix v c l' r val
      else if val >? v then r' ← insert r val; insert_fix v c l r' val
      else insert_fix v (c + 1) l r val
  end.

Fixpoint kth (root : AVLNode) (k : Z) : Z :=
  match root with
  | NULL => -1
  | Node v _ c _ l r =>
      let leftSize := size l in
      if k <=? leftSize then kth l k
      else if k <=? leftSize + c then v
      else kth r (k - leftSize - c)
  end.

Record MedianFinder := mkMF { root : AVLNode; total : Z }.
Definition medianFinderCreate : MedianFinder := mkMF NULL 0.

Definition medianFinderAddNum (obj : MedianFinder) (num : Z) : outcome MedianFinder :=
  t ← insert (root obj) num; n ← int_chk (total obj + 1); Done (mkMF t n).

(** twice the median *)
Definition medianFinderFindMedian (obj : MedianFinder) : outcome Z :=
  if Z.rem (total obj) 2 =? 1 then
    let k := Z.quot (total obj) 2 + 1 in Done (2 * kth (root obj) k)
  else
    let k1 := Z.quot (total obj) 2 in
    let k2 := Z.quot (total obj) 2 + 1 in
    int_chk (kth (root obj) k1 + kth (root obj) k2).

(** the values in the order in which [freeAVL] frees the nodes *)
Fixpoint freeAVL (root : AVLNode) : list Z :=
  match root with NULL => [] | Node v _ _ _ l r => freeAVL l ++ freeAVL r ++ [v] end.

Fixpoint add_all (obj : MedianFinder) (nums : list Z) : outcome MedianFinder :=
  match nums with
  | [] => Done obj
  | n :: nums' => obj ← medianFinderAddNum obj n; add_all obj nums'
  end.

(** ** Specification *)

(** the values of the tree from left to right, with their numbers of occurrences *)
Fixpoint entries (t : AVLNode) : list (Z * Z) :=
  match t with NULL => [] | Node v _ c _ l r => entries l ++ (v, c) :: entries r end.

Definition flat (l : list (Z * Z)) : list Z := l ≫= fun x => replicate (Z.to_nat x.2) x.1.

(** one more occurrence of a value *)
Fixpoint einsert (x : Z) (l : list (Z * Z)) : list (Z * Z) :=
  match l with
  | [] => [(x, 1)]
  | (y, c) :: l' => if x <? y then (x, 1) :: l else if y <? x then (y, c) :: einsert x l' else (y, c + 1) :: l'
  end.

(** the stored heights and sizes are right, and every node is balanced *)
Fixpoint good (t : AVLNode) : Prop :=
  match t with
  | NULL => True
  | Node _ h c s l r =>
      h = 1 + Z.max (height l) (height r) /\ -1 <= height l - height r <= 1 /\
      1 <= c /\ s = c + size l + size r /\ good l /\ good r
  end.

(** how a tree looks when an insertion of [val] made it higher *)
Definition grown (t : AVLNode) (val : Z) : Prop :=
  match t with
  | NULL => False
  | Node v _ _ _ l r =>
      (l = NULL /\ r = NULL) \/ (val < v /\ height l = height r + 1) \/ (v < val /\ height r = height l + 1)
  end.

(** twice the median of a sorted list; [-1.0] is returned for an empty one *)
Definition median2 (s : list Z) : Z :=
  let n := length s in
  if Nat.odd n then 2 * (s !!! (n / 2)%nat)
  else match n with O => -2 | _ => (s !!! (n / 2 - 1)%nat) + (s !!! (n / 2)%nat) end.

(** ** Lemmas *)

Lemma max_eq a b : max a b = Z.max a b.
Proof. unfold max. zcases; lia. Qed.

Lemma good_height t : good t -> 0 <= height t.
Proof. induction t; simpl; [lia|]. intros (-> & ? & ? & ? & ?%IHt1 & ?%IHt2). lia. Qed.

Lemma good_size t : good t -> 0 <= size t.
Proof. induction t; simpl; [lia|]. intros (? & ? & ? & -> & ?%IHt1 & ?%IHt2). lia. Qed.

Lemma good_open t : good t -> 0 < height t -> exists v c l r, t = Node v (height t) c (c + size l + size r) l r /\
  height t = 1 + Z.max (height l) (height r) /\ -1 <= height l - height r <= 1 /\ 1 <= c /\
  good l /\ good r /\ 0 <= height l /\ 0 <= height r.
Proof.
  destruct t as [|v h c s l r]; simpl; [lia|]. intros (Hh & ? & ? & -> & Hl & Hr) ?.
  pose proof (good_height _ Hl). pose proof (good_height _ Hr). by exists v, c, l, r.
Qed.

Ltac open_good t v c l r :=
  let Ht := fresh "H" t in
  destruct (good_open t) as (v & c & l & r & Ht & ? & ? & ? & ? & ? & ? & ?); [done|lia|rewrite Ht in *; clear Ht; simpl in *].

Ltac gsolve := simpl in *; rewrite ?max_eq in *; simpl in *; split_and!;
  try done; try lia; try (repeat (rewrite <- app_assoc; simpl); done).

Section einsert.
Context (x : Z) (l r : list (Z * Z)) (y c : Z).

Lemma einsert_lt : x < y ->
  einsert x (l ++ (y, c) :: r) = einsert x l ++ (y, c) :: r.
Proof.
  intros Hx. induction l as [|[z d] l' IH]; simpl.
  - by destruct (Z.ltb_spec x y); [|lia].
  - zcases; [done| |done]. by rewrite IH.
Qed.

Lemma einsert_gt : y < x -> Forall (fun z => z < y) l.*1 -> einsert x (l ++ (y, c) :: r) = l ++ (y, c) :: einsert x r.
Proof.
  intros Hx Hl. induction l as [|[z d] l' IH]; simpl.
  - by destruct (Z.ltb_spec x y), (Z.ltb_spec y x); try lia.
  - apply Forall_cons in Hl as [? Hl]. simpl in *. zcases; try lia. by rewrite IH.
Qed.

Lemma einsert_eq : Forall (fun z => z < x) l.*1 -> einsert x (l ++ (x, c) :: r) = l ++ (x, c + 1) :: r.
Proof.
  intros Hl. induction l as [|[z d] l' IH]; simpl.
  - by destruct (Z.ltb_spec x x); [lia|].
  - apply Forall_cons in Hl as [? Hl]. simpl in *. zcases; try lia. by rewrite IH.
Qed.
End einsert.

(** insertion keeps the keys sorted and adds one occurrence *)
Lemma einsert_keys x l : (einsert x l).*1 = linsert x l.*1.
Proof.
  induction l as [|[y c] l IH]; simpl; [done|]. destruct (x <? y); [done|]. destruct (y <? x); [|done].
  exact (f_equal (cons y) IH).
Qed.

Lemma flat_cons v c l : flat ((v, c) :: l) = replicate (Z.to_nat c) v ++ flat l.
Proof. done. Qed.

Lemma flat_app l1 l2 : flat (l1 ++ l2) = flat l1 ++ flat l2.
Proof. apply bind_app. Qed.

Lemma einsert_flat x l : Forall (fun z => 1 <= z.2) l -> flat (einsert x l) ≡ₚ x :: flat l.
Proof.
  induction 1 as [|[y c] l Hc _ IH]; simpl; [done|]. destruct (Z.ltb_spec x y); [done|].
  destruct (Z.ltb_spec y x); rewrite !flat_cons.
  - rewrite IH. symmetry. apply Permutation_middle.
  - assert (x = y) as -> by lia. simpl in Hc. replace (Z.to_nat (c + 1)) with (S (Z.to_nat c)) by lia. done.
Qed.

Lemma flat_elem x l : x ∈ flat l -> x ∈ l.*1.
Proof.
  unfold flat. rewrite list_elem_of_bind. intros ([y c] & [-> _]%elem_of_replicate & Hin).
  apply list_elem_of_fmap. by exists (y, c).
Qed.

Lemma flat_sorted l : ssorted l.*1 -> StronglySorted Z.le (flat l).
Proof.
  induction l as [|[y c] l IH]; [constructor|]. intros Hs. inversion Hs as [|? ? Hs' Hlt]; subst. rewrite flat_cons.
  apply StronglySorted_app. split_and!; [|by induction (Z.to_nat c); constructor; [|by apply Forall_replicate]|by apply IH].
  intros a b [-> _]%elem_of_replicate Hb%flat_elem. rewrite Forall_forall in Hlt. specialize (Hlt b Hb). lia.
Qed.

Lemma entries_pos t : good t -> Forall (fun z => 1 <= z.2) (entries t).
Proof.
  induction t as [|v h c s l IHl r IHr]; simpl; [constructor|]. intros (_ & _ & Hc & _ & Hl & Hr).
  apply Forall_app. split; [by apply IHl|]. constructor; [done|by apply IHr].
Qed.

Lemma size_flat t : good t -> size t = Z.of_nat (length (flat (entries t))).
Proof.
  induction t as [|v h c s l IHl r IHr]; simpl; [done|]. intros (_ & _ & Hc & -> & Hl & Hr).
  rewrite flat_app, flat_cons, !length_app, length_replicate, (IHl Hl), (IHr Hr). lia.
Qed.

(** ** Insertion *)

Lemma mf_insert_fix_ok v c l r val : -1 <= height l - height r <= 1 -> insert_fix v c l r val = Done (update v c l r).
Proof.
  intros Hb. unfold insert_fix. simpl. rewrite (Z.gtb_ltb (_ - _) 1).
  destruct (Z.ltb_spec 1 (height l - height r)); [lia|].
  by destruct (Z.ltb_spec (height l - height r) (-1)); [lia|].
Qed.

Lemma update_good v c l r : -1 <= height l - height r <= 1 -> 1 <= c -> good l -> good r -> good (update v c l r).
Proof. intros. gsolve. Qed.

Lemma mf_insert_fix_left v c l r val : good l -> good r -> 1 <= c -> grown l val -> height l = height r + 2 ->
  exists t, insert_fix v c l r val = Done t /\ good t /\ height t = height l /\ entries t = entries l ++ (v, c) :: entries r.
Proof.
  intros Hl Hr Hc Hg Hh. pose proof (good_height _ Hr). open_good l lv lc ll lr. destruct Hl as (_ & _ & _ & _ & Hll & Hlr).
  unfold insert_fix. simpl. rewrite !(Z.gtb_ltb _ 1).
  destruct (Z.ltb_spec 1 (height l - height r)); [simpl|lia].
  destruct Hg as [[-> ->]|[[Hlt Hg]|[Hlt Hg]]]; simpl in *; [lia| |].
  - destruct (Z.ltb_spec val lv); [|lia]. simpl. eexists. split; [done|]. gsolve.
  - destruct (Z.ltb_spec val lv); [lia|]. simpl. destruct (Z.ltb_spec (height l - height r) (-1)); [lia|]. simpl.
    rewrite Z.gtb_ltb. destruct (Z.ltb_spec lv val); [|lia]. simpl.
    open_good lr xv xc xl xr. eexists. split; [done|]. gsolve.
Qed.

Lemma mf_insert_fix_right v c l r val : good l -> good r -> 1 <= c -> grown r val -> height r = height l + 2 ->
  exists t, insert_fix v c l r val = Done t /\ good t /\ height t = height r /\ entries t = entries l ++ (v, c) :: entries r.
Proof.
  intros Hl Hr Hc Hg Hh. pose proof (good_height _ Hl). open_good r rv rc rl rr. destruct Hr as (_ & _ & _ & _ & Hrl & Hrr).
  unfold insert_fix. simpl. rewrite !(Z.gtb_ltb (_ - _) 1).
  destruct (Z.ltb_spec 1 (height l - height r)); [lia|simpl].
  destruct (Z.ltb_spec (height l - height r) (-1)); [simpl|lia]. rewrite Z.gtb_ltb.
  destruct Hg as [[-> ->]|[[Hlt Hg]|[Hlt Hg]]]; simpl in *; [lia| |].
  - destruct (Z.ltb_spec rv val); [lia|]. simpl. destruct (Z.ltb_spec val rv); [|lia]. simpl.
    open_good rl xv xc xl xr. eexists. split; [done|]. gsolve.
  - destruct (Z.ltb_spec rv val); [|lia]. simpl. eexists. split; [done|]. gsolve.
Qed.

Lemma insert_entries t val : good t -> ssorted (entries t).*1 ->
  exists t', insert t val = Done t' /\ good t' /\ entries t' = einsert val (entries t) /\
    (height t' = height t \/ height t' = height t + 1 /\ grown t' val).
Proof.
  induction t as [|v h c s l IHl r IHr]; intros Hg Hs; simpl in *.
  - eexists. split; [done|]. gsolve. right. split; [lia|auto].
  - destruct Hg as (Hh & Hbal & Hc & -> & Hl & Hr). rewrite fmap_app, fmap_cons in Hs. simpl in Hs.
    pose proof Hs as (Hsl & Hsr & Hlv & _)%ssorted_mid. pose proof (good_height _ Hl). pose proof (good_height _ Hr).
    rewrite Z.gtb_ltb. destruct (Z.ltb_spec val v); [|destruct (Z.ltb_spec v val)].
    + destruct (IHl Hl Hsl) as (l' & -> & Hl' & Hi & Hg). simpl. rewrite einsert_lt, <- Hi by done.
      destruct (decide (height l' = height r + 2)) as [Hbig|Hok].
      * destruct (mf_insert_fix_left v c l' r val) as (t & -> & ? & ? & ?); [done..|naive_solver lia|done|].
        exists t. split_and!; [done..|]. left. lia.
      * rewrite mf_insert_fix_ok by lia. eexists. split; [done|]. split_and!; [apply update_good; (done || lia)|done|].
        simpl in *. rewrite max_eq. lia.
    + destruct (IHr Hr Hsr) as (r' & -> & Hr' & Hi & Hg). simpl. rewrite einsert_gt, <- Hi by done.
      destruct (decide (height r' = height l + 2)) as [Hbig|Hok].
      * destruct (mf_insert_fix_right v c l r' val) as (t & -> & ? & ? & ?); [done..|naive_solver lia|done|].
        exists t. split_and!; [done..|]. left. lia.
      * rewrite mf_insert_fix_ok by lia. eexists. split; [done|]. split_and!; [apply update_good; (done || lia)|done|].
        simpl in *. rewrite max_eq. lia.
    + assert (v = val) as -> by lia. rewrite mf_insert_fix_ok by lia. eexists. split; [done|].
      split_and!; [apply update_good; (done || lia)|by rewrite einsert_eq|].
      simpl. rewrite max_eq. lia.
Qed.

(** ** The k-th value *)

Lemma kth_ok t k : good t -> 1 <= k <= size t -> flat (entries t) !! Z.to_nat (k - 1) = Some (kth t k).
Proof.
  revert k. induction t as [|v h c s l IHl r IHr]; intros k; simpl; [lia|]. intros (_ & _ & Hc & -> & Hl & Hr) Hk.
  assert (Hsl := size_flat _ Hl). rewrite flat_app, flat_cons.
  destruct (Z.leb_spec k (size l)).
  - rewrite lookup_app_l by lia. apply IHl; [done|lia].
  - rewrite lookup_app_r by lia. destruct (Z.leb_spec k (size l + c)).
    + rewrite lookup_app_l by (rewrite length_replicate; lia). apply lookup_replicate_2. lia.
    + rewrite lookup_app_r by (rewrite length_replicate; lia). rewrite length_replicate, <- IHr by (done || lia). f_equal. lia.
Qed.

(** ** Properties *)

(** the numbers that have been added *)
Definition holds (obj : MedianFinder) (nums : list Z) : Prop :=
  good (root obj) /\ ssorted (entries (root obj)).*1 /\ flat (entries (root obj)) ≡ₚ nums /\
  total obj = Z.of_nat (length nums).

Lemma add_num_ok obj nums n : holds obj nums -> Z.of_nat (length nums) < int_max ->
  exists obj', medianFinderAddNum obj n = Done obj' /\ holds obj' (n :: nums).
Proof.
  intros (Hg & Hs & Hp & Ht) Hlen. destruct (insert_entries (root obj) n Hg Hs) as (t & Heq & Hg' & He & _).
  unfold medianFinderAddNum. rewrite Heq, Ht. simpl. unfold int_chk. rewrite bool_decide_true.
  2: { unfold in_int, int_min, int_max in *. lia. }
  simpl. eexists. split; [done|]. split_and!; simpl; [done| | |lia].
  - rewrite He, einsert_keys. by apply linsert_sorted.
  - rewrite He, einsert_flat by (by apply entries_pos). by rewrite Hp.
Qed.

Lemma add_all_ok l : forall obj nums, holds obj nums -> Z.of_nat (length l + length nums) <= int_max ->
  exists obj', add_all obj l = Done obj' /\ holds obj' (rev l ++ nums).
Proof.
  induction l as [|n l IH]; intros obj nums Hh Hlen; simpl in *; [by exists obj|].
  destruct (add_num_ok obj nums n Hh) as (obj1 & -> & Hh1); [lia|]. simpl.
  destruct (IH obj1 (n :: nums) Hh1) as (obj2 & -> & Hh2); [simpl; lia|]. exists obj2. split; [done|].
  by rewrite <- app_assoc.
Qed.

Lemma half_even (n : nat) : Nat.odd n = false -> Z.rem (Z.of_nat n) 2 = 0.
Proof.
  rewrite <- Nat.negb_even. intros He. apply negb_false_iff, Nat.even_spec in He as [m ->].
  rewrite Nat2Z.inj_mul. rewrite Z.mul_comm. apply Z.rem_mul. lia.
Qed.

Lemma half_odd (n : nat) : Nat.odd n = true -> Z.rem (Z.of_nat n) 2 = 1.
Proof.
  intros [m ->]%Nat.odd_spec. replace (Z.of_nat (2 * m + 1)) with (1 + Z.of_nat m * 2) by lia.
  rewrite Z.rem_add; [done|lia|lia].
Qed.

Lemma quot_half (n : nat) : Z.quot (Z.of_nat n) 2 = Z.of_nat (n / 2).
Proof. rewrite Z.quot_div_nonneg by lia. by rewrite Nat2Z.inj_div. Qed.

(** the [k]-th smallest of the numbers, and it is one of them *)
Lemma kth_sorted obj nums i : holds obj nums -> (i < length nums)%nat ->
  kth (root obj) (Z.of_nat i + 1) = merge_sort Z.le nums !!! i /\ merge_sort Z.le nums !!! i ∈ nums.
Proof.
  intros (Hg & Hs & Hp & _) Hi.
  assert (Hsort : flat (entries (root obj)) = merge_sort Z.le nums).
  { apply (StronglySorted_unique Z.le); [by apply flat_sorted|apply (StronglySorted_merge_sort Z.le)|].
    by rewrite Hp, merge_sort_Permutation. }
  assert (Hk := kth_ok (root obj) (Z.of_nat i + 1) Hg). rewrite (size_flat _ Hg), (Permutation_length Hp) in Hk.
  specialize (Hk ltac:(lia)).
  rewrite Hsort in Hk. replace (Z.to_nat (Z.of_nat i + 1 - 1)) with i in Hk by lia.
  assert (Hin := list_elem_of_lookup_2 _ _ _ Hk). apply list_lookup_total_correct in Hk. rewrite Hk.
  split; [done|]. by rewrite merge_sort_Permutation in Hin.
Qed.

Lemma median2_odd s : Nat.odd (length s) = true -> median2 s = 2 * (s !!! (length s / 2)%nat).
Proof. intros H. unfold median2. by rewrite H. Qed.

Lemma median2_even s : Nat.odd (length s) = false -> length s <> 0%nat ->
  median2 s = (s !!! (length s / 2 - 1)%nat) + (s !!! (length s / 2)%nat).
Proof. intros H Hne. unfold median2. rewrite H. by destruct (length s). Qed.

(** C27: the running median is the median: for any sequence of at most [INT_MAX] numbers,
    all between -2^30 and 2^30, the additions succeed, and the double that is returned is
    the middle of the sorted numbers, or half the sum of the two middle ones (-1.0 before
    the first number). *)
Theorem median_correct nums : Z.of_nat (length nums) <= int_max -> Forall (fun n => - 2 ^ 30 <= n < 2 ^ 30) nums ->
  exists obj, add_all medianFinderCreate nums = Done obj /\
    medianFinderFindMedian obj = Done (median2 (merge_sort Z.le nums)).
Proof.
  intros Hlen Hb. destruct (add_all_ok nums medianFinderCreate []) as (obj & Heq & Hh).
  { split_and!; [done|constructor|done|done]. }
  { simpl. rewrite Nat.add_0_r. done. }
  exists obj. split; [done|]. rewrite app_nil_r in Hh.
  assert (Hh' : holds obj nums).
  { destruct Hh as (? & ? & Hp & ?). split_and!; [done|done|by rewrite Hp, <- Permutation_rev|by rewrite <- length_rev]. }
  clear Hh. rewrite Forall_forall in Hb. assert (Hn := Permutation_length (merge_sort_Permutation Z.le nums)).
  assert (Htot : total obj = Z.of_nat (length nums)) by apply Hh'.
  unfold medianFinderFindMedian. rewrite Htot, quot_half.
  assert (Hdiv := Nat.div_mod_eq (length nums) 2). assert (Hmod := Nat.mod_upper_bound (length nums) 2 ltac:(lia)).
  destruct (Nat.odd (length nums)) eqn:Hodd.
  { rewrite half_odd, median2_odd, Hn by (by rewrite ?Hn). assert (length nums <> 0%nat) by (intros Hz; by rewrite Hz in Hodd).
    destruct (kth_sorted obj nums (length nums / 2) Hh') as [<- _]; [apply Nat.div_lt; lia|done]. }
  rewrite half_even by done. destruct (decide (length nums = 0%nat)) as [Hz|Hz].
  { destruct nums; [|done]. assert (Hr : root obj = NULL); [|by rewrite Hr].
    destruct Hh' as (Hg & _ & Hp & _). destruct (root obj) as [|v h c s l r]; [done|]. destruct Hg as (_ & _ & Hc & _).
    apply Permutation_length in Hp. simpl in Hp. rewrite flat_app, flat_cons, !length_app, length_replicate in Hp.
    simpl in Hp. lia. }
  rewrite median2_even, Hn by (by rewrite ?Hn).
  assert (Hpos : (1 <= length nums / 2 < length nums)%nat).
  { split; [apply Nat.div_str_pos|apply Nat.div_lt]; destruct (length nums) as [|[|n']]; try done; lia. }
  destruct (kth_sorted obj nums (length nums / 2 - 1) Hh') as [H1 H1']; [lia|].
  destruct (kth_sorted obj nums (length nums / 2) Hh') as [H2 H2']; [lia|].
  replace (Z.of_nat (length nums / 2 - 1) + 1) with (Z.of_nat (length nums / 2)) in H1 by lia. rewrite H1, H2.
  apply Hb in H1', H2'. change (0 =? 1) with false. cbv iota zeta.
  unfold int_chk. rewrite bool_decide_true; [done|]. unfold in_int, int_min, int_max. lia.
Qed.

Lemma median_correct_witness :
  exists obj, add_all medianFinderCreate [5; 2; 8; 2; 9; 1] = Done obj /\ medianFinderFindMedian obj = Done 7.
Proof.
  destruct (median_correct [5; 2; 8; 2; 9; 1]) as (obj & H1 & H2).
  - unfold int_max. simpl. lia.
  - repeat constructor; lia.
  - exists obj. split; [done|]. rewrite H2. by vm_compute.
Defined.

(** The two middle numbers are added as ints: their sum may overflow. *)
Lemma median_overflows :
  (obj ← add_all medianFinderCreate [int_max; int_max]; medianFinderFindMedian obj) = Undef.
Proof. by vm_compute. Qed.
