(* ===== verification/RecordFile.v ===== *)
(** * The record file of FILEIO/lowlevelfileio.c

    A file of packed records written and read by the loops [write_all] and [read_all].
    What the kernel does in each system call is an argument, the list of its answers:
    it may be interrupted, fail, or transfer only a part; when the list is used up it
    does all that is asked.  A [double] is its eight bytes.  Error messages are left out,
    the exit status is kept. *)
From S2P Require Import Prelude ByteFile.

(** ** The program *)

Record record := mkRecord { id : Z; value : bytes; name : bytes }.

(** the 44 bytes of a packed [Record] *)
Definition sizeof_Record : Z := 44.
Definition offsetof_name : Z := 12.
Definition sizeof_n : Z := 4.

Definition encode (r : record) : bytes := le 4 (id r) ++ value r ++ name r.
Definition decode (d : bytes) : record := mkRecord (le_val (take 4 d)) (take 8 (drop 4 d)) (drop 12 d).

(** an answer of the kernel: -1 with EINTR, -1 with another error, at most that many
    bytes and one more, all that is asked *)
Inductive answer := Eintr | Error | Part (m : nat) | Whole.

#[export] Instance answer_eq_dec : EqDecision answer.
Proof. solve_decision. Defined.

Record io_state := mkIo { file : bytes; pos : nat; answers : list answer }.

Definition next_answer : cmd io_state answer := fun s =>
  Done (default Whole (head (answers s)), mkIo (file s) (pos s) (tail (answers s))).

(** [open]: whether it gives a descriptor, and the file for [O_TRUNC] *)
Definition sys_open (trunc : bool) : cmd io_state bool :=
  a ← next_answer;
  match a with
  | Eintr | Error => mret false
  | Part _ | Whole => modify (fun s => mkIo (if trunc then [] else file s) 0 (answers s));; mret true
  end.

Definition sys_fsync : cmd io_state bool :=
  a ← next_answer; mret match a with Eintr | Error => false | Part _ | Whole => true end.

(** the result of a transfer: -1 and whether [errno] is EINTR, or the bytes transferred *)
Inductive transfer := Failed (eintr : bool) | Moved (d : bytes).

Definition amount (a : answer) (n : nat) : nat := match a with Part m => Nat.min (S m) n | _ => n end.

(** reading needs a descriptor that [open] gave; 0 bytes only at the end of the file *)
Definition sys_read (fd : bool) (n : nat) : cmd io_state transfer :=
  a ← next_answer;
  match a with
  | Eintr => mret (Failed true)
  | Error => mret (Failed false)
  | _ =>
      if negb fd then mret (Failed false) else
      s ← get;
      let d := take (amount a n) (drop (pos s) (file s)) in
      modify (fun s => mkIo (file s) (pos s + length d) (answers s));; mret (Moved d)
  end.

Definition sys_write (d : bytes) : cmd io_state transfer :=
  a ← next_answer;
  match a with
  | Eintr => mret (Failed true)
  | Error => mret (Failed false)
  | _ =>
      let d := take (amount a (length d)) d in
      modify (fun s => mkIo (write_at (pos s) d (file s)) (pos s + length d) (answers s));; mret (Moved d)
  end.

Definition lseek (off : Z) : cmd io_state unit := modify (fun s => mkIo (file s) (Z.to_nat off) (answers s)).

Definition no_fuel {A} : cmd io_state A := fun _ => OutOfFuel.

(** the loop of [read_all]: [acc] is what has been read *)
Fixpoint read_loop (fuel : nat) (fd : bool) (left : nat) (acc : bytes) : cmd io_state (option bytes) :=
  match left with
  | O => mret (Some acc)
  | S _ =>
      match fuel with
      | O => no_fuel
      | S fuel =>
          r ← sys_read fd left;
          match r with
          | Failed true => read_loop fuel fd left acc
          | Failed false => mret None
          | Moved [] => mret (Some acc)
          | Moved d => read_loop fuel fd (left - length d) (acc ++ d)
          end
      end
  end.

(** the bytes read, as many as the result says, [None] for -1 *)
Definition read_all (fd : bool) (count : nat) : cmd io_state (option bytes) :=
  s ← get; read_loop (S (S (length (answers s)))) fd count [].

(** the loop of [write_all]: [d] is what is left *)
Fixpoint write_loop (fuel : nat) (d : bytes) : cmd io_state bool :=
  match d with
  | [] => mret true
  | _ =>
      match fuel with
      | O => no_fuel
      | S fuel =>
          r ← sys_write d;
          match r with
          | Failed true => write_loop fuel d
          | Failed false => mret false
          | Moved d' => write_loop fuel (drop (length d') d)
          end
      end
  end.

(** whether the result is [count], not -1 *)
Definition write_all (d : bytes) : cmd io_state bool :=
  s ← get; write_loop (S (length (answers s))) d.

(** [read_all] as [main] uses it: it must give all of it *)
Definition read_exactly (fd : bool) (count : Z) : cmd io_state (option bytes) :=
  r ← read_all fd (Z.to_nat count);
  mret match r with Some d => if Z.of_nat (length d) =? count then Some d else None | None => None end.

(** the characters before the first NUL, which must be there *)
Fixpoint c_string (d : bytes) : outcome string :=
  match d with
  | [] => Undef
  | b :: d' => if decide (b = x00) then Done "" else s ← c_string d'; Done (String (ascii_of_byte b) s)
  end.

(** what is printed: the number of records, a row, the second heading *)
Inductive printed := Count (n : Z) | Row (i id : Z) (value : bytes) (name : string) | Modified.

Fixpoint write_records (rs : list record) : cmd io_state bool :=
  match rs with
  | [] => mret true
  | r :: rs' => ok ← write_all (encode r); if negb ok then mret false else write_records rs'
  end.

(** the loops that read and print the records [i], ..., [i + n - 1] *)
Fixpoint read_rows (fd : bool) (i : Z) (n : nat) : cmd io_state (bool * list printed) :=
  match n with
  | O => mret (true, [])
  | S n =>
      d ← read_exactly fd sizeof_Record;
      match d with
      | None => mret (false, [])
      | Some d =>
          let r := decode d in
          nm ← lift (c_string (name r));
          rest ← read_rows fd (i + 1) n;
          mret (rest.1, Row i (id r) (value r) nm :: rest.2)
      end
  end.

(** opening the file and reading it: the second half of each reading part of [main] *)
Definition read_file (fd : bool) (heading : Z -> printed) : cmd io_state (bool * list printed) :=
  d ← read_exactly fd sizeof_n;
  match d with
  | None => mret (false, [])
  | Some d =>
      rest ← read_rows fd 0 (Z.to_nat (le_val d));
      mret (rest.1, heading (le_val d) :: rest.2)
  end.

(** the parts of [main]: each says whether it went through, and what it printed *)
Definition create_file (rs : list record) : cmd io_state bool :=
  fd ← sys_open true;
  if negb fd then mret false else
  ok ← write_all (le 4 (Z.of_nat (length rs)));
  if negb ok then mret false else
  ok ← write_records rs;
  if negb ok then mret false else sys_fsync.

Definition patch_file (off : Z) (c : byte) : cmd io_state bool :=
  fd_rw ← sys_open false;
  if negb fd_rw then mret false else
  lseek off;;
  ok ← write_all [c];
  if negb ok then mret false else sys_fsync.

Definition padded (s : string) : bytes := String.list_byte_of_string s ++ replicate (32 - String.length s) x00.

(** the three doubles 3.14123, 2.14123 and 1.14123 *)
Definition v1 : bytes := [x70; xb6; xb9; x31; x3d; x21; x09; x40].
Definition v2 : bytes := [x70; xb6; xb9; x31; x3d; x21; x01; x40].
Definition v3 : bytes := [xdf; x6c; x73; x63; x7a; x42; xf2; x3f].

Definition records : list record :=
  [mkRecord 1 v1 (padded "Aaa"); mkRecord 2 v2 (padded "Bbb"); mkRecord 3 v3 (padded "Ccc")].

Definition byte_offset : Z := sizeof_n + 1 * sizeof_Record + offsetof_name + 1.

(** the exit status and the output *)
Definition main : cmd io_state (Z * list printed) :=
  ok ← create_file records;
  if negb ok then mret (1, []) else
  fd_read ← sys_open false;   (* [fd < 0] is tested, not [fd_read < 0] *)
  first ← read_file fd_read Count;
  let out1 := first.2 in
  if negb first.1 then mret (1, out1) else
  ok ← patch_file byte_offset x58;
  if negb ok then mret (1, out1) else
  fd_read_again ← sys_open false;
  if negb fd_read_again then mret (1, out1) else
  second ← read_file fd_read_again (fun _ => Modified);
  mret (if second.1 : bool then 0 else 1, out1 ++ second.2).

(** ** Specification *)

Definition record_ok (r : record) : Prop :=
  0 <= id r < 2 ^ 32 /\ length (value r) = 8%nat /\ length (name r) = 32%nat /\ x00 ∈ name r.

Definition text (r : record) : string := match c_string (name r) with Done s => s | _ => "" end.

Fixpoint rows (i : Z) (rs : list record) : list printed :=
  match rs with [] => [] | r :: rs' => Row i (id r) (value r) (text r) :: rows (i + 1) rs' end.

(** what the file holds *)
Definition image (rs : list record) : bytes := le 4 (Z.of_nat (length rs)) ++ concat (encode <$> rs).

(** the kernel is never asked in vain, but may interrupt and split the transfers *)
Definition gentle (l : list answer) : Prop := Forall (fun a => a <> Error) l.

(** [s'] comes after [s]: some of the answers have been given *)
Definition later (s s' : io_state) : Prop := exists used, answers s = used ++ answers s'.

(** ** Lemmas: the transfers *)

Lemma later_refl s : later s s.
Proof. by exists []. Qed.

Lemma later_trans s1 s2 s3 : later s1 s2 -> later s2 s3 -> later s1 s3.
Proof. intros [u Hu] [v Hv]. exists (u ++ v). by rewrite Hu, Hv, app_assoc. Qed.

Lemma later_gentle s s' : later s s' -> gentle (answers s) -> gentle (answers s').
Proof. intros [u Hu]. unfold gentle. rewrite Hu. by intros [_ ?]%Forall_app. Qed.

#[local] Hint Resolve later_refl later_gentle : core.

Lemma next_answer_later s : later s (mkIo (file s) (pos s) (tail (answers s))).
Proof. destruct (answers s) as [|a l] eqn:Ha; [by exists []; rewrite Ha|exists [a]; by rewrite Ha]. Qed.

Lemma write_at_nil off f : (off <= length f)%nat -> write_at off [] f = f.
Proof.
  intros Ho. unfold write_at. rewrite take_app_le, Nat.add_0_r by done. apply take_drop.
Qed.

Lemma amount_pos a n : (0 < n)%nat -> (0 < amount a n <= n)%nat.
Proof. destruct a; unfold amount; lia. Qed.

(** what one [write] does *)
Lemma sys_write_cases d s : d <> [] -> exists r, sys_write d s = Done r /\ later s r.2 /\
  answers r.2 = tail (answers s) /\
  ((exists e, r.1 = Failed e /\ file r.2 = file s /\ pos r.2 = pos s /\ (e = false -> ~ gentle (answers s)) /\
      (e = true -> answers s <> [])) \/
   exists n, (0 < n <= length d)%nat /\ (answers s = [] -> n = length d) /\
     r.1 = Moved (take n d) /\ file r.2 = write_at (pos s) (take n d) (file s) /\ pos r.2 = (pos s + n)%nat).
Proof.
  intros Hd. assert (0 < length d)%nat as Hl by (destruct d; [done|simpl; lia]).
  unfold sys_write, next_answer, modify, mbind, cmd_bind.
  destruct (default Whole (head (answers s))) as [| |m|] eqn:Ha; eexists; (split; [reflexivity|]);
    (split; [exact (next_answer_later s)|]); (split; [reflexivity|]).
  - left. exists true. split_and!; try done. intros _ Hn. by rewrite Hn in Ha.
  - left. exists false. split_and!; try done. intros _ Hg. destruct (answers s) as [|a l]; [done|].
    simpl in Ha. subst a. by apply Forall_cons in Hg as [? _].
  - right. exists (amount (Part m) (length d)). pose proof (amount_pos (Part m) _ Hl). split_and!; [lia|lia| |done|done|].
    + intros Hn. by rewrite Hn in Ha.
    + cbn [snd pos]. rewrite length_take. lia.
  - right. exists (length d). simpl amount. rewrite firstn_all. split_and!; [lia|lia|done|done|done|done].
Qed.

Lemma write_loop_ok fuel d s : (pos s <= length (file s))%nat -> (length (answers s) < fuel)%nat ->
  exists ok s', write_loop fuel d s = Done (ok, s') /\ later s s' /\ (gentle (answers s) -> ok = true) /\
    exists d1 d2, d = d1 ++ d2 /\ (ok = true -> d2 = []) /\
      file s' = write_at (pos s) d1 (file s) /\ pos s' = (pos s + length d1)%nat.
Proof.
  revert d s. induction fuel as [|fuel IH]; intros d s Hp Hf; [lia|].
  destruct (decide (d = [])) as [->|Hd].
  { exists true, s. split_and!; [done|done|done|]. exists [], []. rewrite write_at_nil by done. split_and!; [done..|simpl; lia]. }
  destruct (sys_write_cases d s Hd) as ([r s1] & H1 & Hl & Ha & Hc). cbn [fst snd] in Hl, Ha, Hc.
  assert (write_loop (S fuel) d s = match r with Failed true => write_loop fuel d s1 | Failed false => Done (false, s1)
    | Moved d' => write_loop fuel (drop (length d') d) s1 end) as ->.
  { destruct d; [done|]. cbn [write_loop]. rewrite (cmd_bind_eq _ _ _ _ _ H1). by destruct r as [[]|]. }
  destruct Hc as [(e & -> & Hfi & Hpo & Hg & Hne)|(n & Hn & Hw & -> & Hfi & Hpo)].
  - destruct e.
    + destruct (IH d s1) as (ok & s2 & H2 & Hl2 & Hg2 & d1 & d2 & -> & Hok & Hf2 & Hp2); [congruence| |].
      { specialize (Hne eq_refl). rewrite Ha. destruct (answers s); [done|simpl in *; lia]. }
      exists ok, s2. split_and!; [done|by eapply later_trans|eauto|]. exists d1, d2. rewrite Hf2, Hp2, Hfi, Hpo. done.
    + exists false, s1. split_and!; [done|done|by intros ?%Hg|]. exists [], d. rewrite write_at_nil, Hpo by done. by split_and!.
  - rewrite length_take_le by lia. assert (length (take n d) = n) as Hn' by (rewrite length_take; lia).
    destruct (decide (answers s = [])) as [He|Hne].
    { rewrite drop_ge by (rewrite Hw by done; lia). exists true, s1. split_and!; [by destruct fuel|done|done|].
      exists d, []. rewrite app_nil_r. rewrite Hw in * by done. rewrite firstn_all in *. by split_and!. }
    destruct (IH (drop n d) s1) as (ok & s2 & H2 & Hl2 & Hg2 & d1 & d2 & Hdd & Hok & Hf2 & Hp2).
    { rewrite Hfi, Hpo. rewrite length_write_at. lia. }
    { rewrite Ha. destruct (answers s); [done|simpl in *; lia]. }
    exists ok, s2. split_and!; [done|by eapply later_trans|eauto|]. exists (take n d ++ d1), d2.
    split_and!; [by rewrite <- app_assoc, <- Hdd, take_drop|done| |rewrite Hp2, Hpo, length_app; lia].
    rewrite Hf2, Hfi, Hpo. rewrite <- Hn' at 1. by rewrite write_at_write_at.
Qed.

Lemma write_all_ok d s : (pos s <= length (file s))%nat ->
  exists ok s', write_all d s = Done (ok, s') /\ later s s' /\ (gentle (answers s) -> ok = true) /\
    exists d1 d2, d = d1 ++ d2 /\ (ok = true -> d2 = []) /\
      file s' = write_at (pos s) d1 (file s) /\ pos s' = (pos s + length d1)%nat.
Proof. intros Hp. apply write_loop_ok; [done|lia]. Qed.

(** what is left of the file behind the offset *)
Definition rest (s : io_state) : bytes := drop (pos s) (file s).

Definition same_file (s s' : io_state) : Prop := file s' = file s.

(** what one [read] of a descriptor does *)
Lemma sys_read_cases n s : (0 < n)%nat -> exists r, sys_read true n s = Done r /\ later s r.2 /\
  answers r.2 = tail (answers s) /\ file r.2 = file s /\
  ((exists e, r.1 = Failed e /\ pos r.2 = pos s /\ (e = false -> ~ gentle (answers s)) /\ (e = true -> answers s <> [])) \/
   exists m, (0 < m <= n)%nat /\ (answers s = [] -> m = n) /\
     r.1 = Moved (take m (rest s)) /\ pos r.2 = (pos s + length (take m (rest s)))%nat).
Proof.
  intros Hn. unfold sys_read, next_answer, modify, get, mbind, cmd_bind.
  destruct (default Whole (head (answers s))) as [| |m|] eqn:Ha; eexists; (split; [reflexivity|]);
    (split; [exact (next_answer_later s)|]); (split; [reflexivity|]); (split; [reflexivity|]).
  - left. exists true. split_and!; try done. intros _ Hg. by rewrite Hg in Ha.
  - left. exists false. split_and!; try done. intros _ Hg. destruct (answers s) as [|a l]; [done|].
    simpl in Ha. subst a. by apply Forall_cons in Hg as [? _].
  - right. exists (amount (Part m) n). pose proof (amount_pos (Part m) _ Hn). split_and!; [lia|lia| |done|done].
    intros Hg. by rewrite Hg in Ha.
  - right. exists n. split_and!; [lia|lia|done|done|done].
Qed.

Lemma rest_step s s1 m : file s1 = file s -> pos s1 = (pos s + length (take m (rest s)))%nat -> rest s1 = drop m (rest s).
Proof.
  intros Hf Hp. unfold rest at 1. rewrite Hf, Hp. unfold rest. rewrite drop_drop, length_take, length_drop.
  destruct (Nat.le_gt_cases m (length (file s) - pos s)); [by rewrite Nat.min_l|].
  rewrite Nat.min_r by lia. rewrite !drop_ge by lia. done.
Qed.

Lemma read_loop_end fuel left acc s : rest s = [] -> answers s = [] -> (0 < fuel)%nat ->
  exists s', read_loop fuel true left acc s = Done (Some acc, s') /\ later s s' /\ file s' = file s /\ rest s' = [].
Proof.
  intros Hr Ha Hf. destruct fuel as [|fuel]; [lia|]. destruct left as [|left]; [by exists s|].
  destruct (sys_read_cases (S left) s) as ([r s1] & H1 & Hl & Ha1 & Hfi & Hc); [lia|]. cbn [fst snd] in *.
  destruct Hc as [(e & -> & _ & He1 & He2)|(m & _ & _ & -> & Hpo)].
  - destruct e; [by destruct He2|]. destruct He1; [done|]. rewrite Ha. constructor.
  - cbn [read_loop]. rewrite (cmd_bind_eq _ _ _ _ _ H1), Hr, take_nil. exists s1. split_and!; [done..|].
    by rewrite (rest_step s s1 m), Hr, drop_nil.
Qed.

Lemma take_split {A} (l : list A) m n : (m <= n)%nat ->
  take m l ++ take (n - length (take m l)) (drop m l) = take n l /\ drop (n - length (take m l)) (drop m l) = drop n l.
Proof.
  intros Hm. destruct (Nat.le_gt_cases m (length l)).
  - rewrite length_take_le, take_take_drop, drop_drop by done. replace (m + (n - m))%nat with n by lia. done.
  - rewrite !(drop_ge l) by lia. rewrite take_nil, drop_nil, app_nil_r, !take_ge by lia. done.
Qed.

(** the loop reads what it is asked, or all that is left, unless a call fails *)
Definition read_result (left : nat) (acc : bytes) (s : io_state) (r : option bytes) (s' : io_state) : Prop :=
  later s s' /\ file s' = file s /\ (gentle (answers s) -> r <> None) /\
  forall d, r = Some d -> d = acc ++ take left (rest s) /\ rest s' = drop left (rest s).

(** one transfer of some bytes and then the rest *)
Lemma read_result_step m left acc s s1 r s2 : (0 < m <= left)%nat -> later s s1 -> file s1 = file s ->
  rest s1 = drop m (rest s) ->
  read_result (left - length (take m (rest s))) (acc ++ take m (rest s)) s1 r s2 -> read_result left acc s r s2.
Proof.
  intros Hm Hl Hf Hr (Hl2 & Hf2 & Hg & Hd). destruct (take_split (rest s) m left ltac:(lia)) as [H1 H2].
  split_and!; [by eapply later_trans|congruence|eauto|]. intros d Hs. destruct (Hd d Hs) as [-> Hrs].
  rewrite Hr in *. by rewrite <- app_assoc, H1, Hrs, H2.
Qed.

Lemma read_loop_ok fuel left acc s : (S (length (answers s)) < fuel)%nat ->
  exists r s', read_loop fuel true left acc s = Done (r, s') /\ read_result left acc s r s'.
Proof.
  revert left acc s. induction fuel as [|fuel IH]; intros left acc s Hf; [lia|].
  destruct left as [|left].
  { exists (Some acc), s. split; [done|]. split_and!; [done..|]. intros d [= <-]. by rewrite app_nil_r. }
  destruct (sys_read_cases (S left) s) as ([r s1] & H1 & Hl & Ha & Hfi & Hc); [lia|]. cbn [fst snd] in Hl, Ha, Hfi, Hc.
  destruct Hc as [(e & -> & Hpo & Hg & Hne)|(m & Hm & Hw & -> & Hpo)].
  - assert (rest s1 = rest s) as Hrs by (unfold rest; congruence). cbn [read_loop]. rewrite (cmd_bind_eq _ _ _ _ _ H1). destruct e.
    + destruct (IH (S left) acc s1) as (r & s2 & H2 & Hl2 & Hf2 & Hg2 & Hd).
      { specialize (Hne eq_refl). rewrite Ha. destruct (answers s); [done|simpl in *; lia]. }
      exists r, s2. split; [done|]. rewrite Hrs in Hd.
      split_and!; [by eapply later_trans|congruence|intros Hge; apply Hg2; eauto|done].
    + exists None, s1. split; [done|]. split_and!; [done|done|by intros ?%Hg|done].
  - pose proof (rest_step s s1 m Hfi Hpo) as Hrs. pose proof (read_result_step m (S left) acc s s1) as Hstep.
    cbn [read_loop]. rewrite (cmd_bind_eq _ _ _ _ _ H1). destruct (decide (rest s = [])) as [Hre|Hre].
    { rewrite Hre, take_nil. exists (Some acc), s1. split; [done|]. split_and!; [done..|].
      intros d [= <-]. by rewrite Hrs, Hre, drop_nil, app_nil_r. }
    assert (exists b d0, take m (rest s) = b :: d0) as (b & d0 & Htk)
      by (destruct (rest s), m; [done|done|lia|by eexists _, _]).
    rewrite Htk. cbv iota. rewrite <- Htk. destruct (decide (answers s = [])) as [Hna|Hna].
    + rewrite (Hw Hna) in *. assert (answers s1 = []) as Ha1 by (by rewrite Ha, Hna).
      destruct (Nat.le_gt_cases (S left) (length (rest s))).
      * rewrite length_take_le, Nat.sub_diag in * by lia. exists (Some (acc ++ take (S left) (rest s))), s1.
        split; [by destruct fuel|]. apply Hstep; [lia|done|done|done|]. split_and!; [done..|]. intros d [= <-]. by rewrite app_nil_r.
      * destruct (read_loop_end fuel (S left - length (take (S left) (rest s))) (acc ++ take (S left) (rest s)) s1) as (s2 & H2 & Hl2 & Hf2 & Hr2);
          [by rewrite Hrs, drop_ge by lia|done|rewrite Hna in Hf; simpl in Hf; lia|].
        eexists _, s2. split; [exact H2|]. apply Hstep; [lia|done|done|done|]. split_and!; [done..|]. intros d [= <-].
        by rewrite Hr2, Hrs, (drop_ge (rest s)), take_nil, drop_nil, app_nil_r by lia.
    + destruct (IH (S left - length (take m (rest s)))%nat (acc ++ take m (rest s)) s1) as (r & s2 & H2 & Hr2);
        [rewrite Ha; destruct (answers s); [done|simpl in *; lia]|].
      exists r, s2. split; [done|]. by apply Hstep.
Qed.

(** ** Lemmas: records *)

(** a transfer of bytes that are there *)
Lemma read_exactly_ok n d post s : rest s = d ++ post -> Z.of_nat (length d) = n ->
  exists r s', read_exactly true n s = Done (r, s') /\ later s s' /\ file s' = file s /\
    ((r = Some d /\ rest s' = post) \/ (r = None /\ ~ gentle (answers s))).
Proof.
  intros Hr Hn. unfold read_exactly, read_all. set (count := Z.to_nat n).
  destruct (read_loop_ok (S (S (length (answers s)))) count [] s) as (r & s' & H1 & Hl & Hf & Hg & Hd); [lia|].
  rewrite (cmd_bind_eq (get ≫= _) _ s r s' H1). destruct r as [d'|].
  - destruct (Hd d' eq_refl) as [-> Hrs]. simpl app. assert (count = length d) as Hc by (unfold count; lia).
    rewrite Hr, Hc, take_app_length, drop_app_length, Hn, Z.eqb_refl in *. eexists _, _. split_and!; [done..|by left].
  - eexists _, _. split_and!; [done..|right]. split; [done|]. by intros ?%Hg.
Qed.

(** without a descriptor nothing is read *)
Lemma read_loop_bad fuel left acc s : (0 < left)%nat -> (length (answers s) < fuel)%nat ->
  exists s', read_loop fuel false left acc s = Done (None, s') /\ later s s' /\ file s' = file s.
Proof.
  intros Hl. revert s. induction fuel as [|fuel IH]; intros s Hf; [lia|]. destruct left as [|left]; [lia|].
  cbn [read_loop]. set (s1 := mkIo (file s) (pos s) (tail (answers s))).
  destruct (head (answers s)) as [a|] eqn:Ha.
  - destruct (decide (a = Eintr)) as [->|Hne].
    + assert (sys_read false (S left) s = Done (Failed true, s1)) as H1
        by (unfold sys_read, next_answer, mbind, cmd_bind; by rewrite Ha).
      rewrite (cmd_bind_eq _ _ _ _ _ H1). destruct (IH s1) as (s2 & H2 & Hl2 & Hf2).
      { simpl. destruct (answers s); [done|simpl in *; lia]. }
      exists s2. split_and!; [done|apply later_trans with s1; [apply next_answer_later|done]|done].
    + assert (sys_read false (S left) s = Done (Failed false, s1)) as H1
        by (unfold sys_read, next_answer, mbind, cmd_bind; rewrite Ha; by destruct a).
      rewrite (cmd_bind_eq _ _ _ _ _ H1). exists s1. split_and!; [done|apply next_answer_later|done].
  - assert (sys_read false (S left) s = Done (Failed false, s1)) as H1
      by (unfold sys_read, next_answer, mbind, cmd_bind; by rewrite Ha).
    rewrite (cmd_bind_eq _ _ _ _ _ H1). exists s1. split_and!; [done|apply next_answer_later|done].
Qed.

Lemma length_encode r : record_ok r -> length (encode r) = 44%nat.
Proof. intros (_ & Hv & Hn & _). unfold encode. by rewrite !length_app, length_le, Hv, Hn. Qed.

Lemma decode_encode r : record_ok r -> decode (encode r) = r.
Proof.
  intros (Hi & Hv & Hn & _). unfold decode, encode. destruct r as [i v n]. simpl id in *. simpl value in *. simpl name in *.
  rewrite (take_app_length' (le 4 i)), (drop_app_length' (le 4 i)) by (by rewrite length_le).
  rewrite (take_app_length' v) by done. rewrite app_assoc, (drop_app_length' (le 4 i ++ v)) by (by rewrite length_app, length_le, Hv).
  rewrite le_val_le, Z.mod_small by (simpl; lia). done.
Qed.

Lemma c_string_ok d : x00 ∈ d -> exists t, c_string d = Done t.
Proof.
  induction d as [|b d IH]; intros Hd; [by apply elem_of_nil in Hd|]. simpl. case_decide; [by eexists|].
  destruct IH as [t Ht]; [by apply elem_of_cons in Hd as [?|?]|]. rewrite Ht. by eexists.
Qed.

Lemma read_rows_ok rs i post s : Forall record_ok rs -> rest s = concat (encode <$> rs) ++ post ->
  exists ok out s', read_rows true i (length rs) s = Done ((ok, out), s') /\ later s s' /\ file s' = file s /\
    (gentle (answers s) -> ok = true) /\ (ok = true -> out = rows i rs) /\ out `prefix_of` rows i rs.
Proof.
  intros Hrs. revert i s. induction Hrs as [|r rs Hr _ IH]; intros i s Hs.
  { exists true, [], s. split_and!; try done. }
  rewrite fmap_cons in Hs. simpl in Hs. rewrite <- app_assoc in Hs. cbn [length read_rows].
  destruct (read_exactly_ok sizeof_Record (encode r) _ s Hs) as (d & s1 & H1 & Hl1 & Hf1 & Hd);
    [by rewrite length_encode|]. rewrite (cmd_bind_eq _ _ _ _ _ H1).
  destruct Hd as [[-> Hrs1]|[-> Hng]]; cycle 1.
  { exists false, [], s1. split_and!; try done. apply prefix_nil. }
  cbn zeta. rewrite decode_encode by done. destruct (c_string_ok (name r)) as [t Ht]; [apply Hr|].
  rewrite (cmd_bind_eq _ _ s1 t s1) by (unfold lift; by rewrite Ht).
  destruct (IH (i + 1) s1 Hrs1) as (ok & out & s2 & H2 & Hl2 & Hf2 & Hg2 & Ho & Hpre). rewrite (cmd_bind_eq _ _ _ _ _ H2).
  assert (text r = t) as Htx by (unfold text; by rewrite Ht).
  eexists _, _, s2. split_and!; [done|by eapply later_trans|congruence|eauto| |].
  - intros Hok. simpl. by rewrite Htx, Ho.
  - simpl. rewrite Htx. by apply prefix_cons.
Qed.

(** reading the whole file *)
Lemma read_file_ok heading rs s : Forall record_ok rs -> Z.of_nat (length rs) < 2 ^ 32 -> rest s = image rs ->
  exists ok out s', read_file true heading s = Done ((ok, out), s') /\ later s s' /\ file s' = file s /\
    (gentle (answers s) -> ok = true) /\ (ok = true -> out = heading (Z.of_nat (length rs)) :: rows 0 rs) /\
    out `prefix_of` heading (Z.of_nat (length rs)) :: rows 0 rs.
Proof.
  intros Hrs Hn Hs. unfold read_file, image in *.
  destruct (read_exactly_ok sizeof_n (le 4 (Z.of_nat (length rs))) _ s Hs) as (d & s1 & H1 & Hl1 & Hf1 & Hd);
    [by rewrite length_le|]. rewrite (cmd_bind_eq _ _ _ _ _ H1).
  destruct Hd as [[-> Hrs1]|[-> Hng]]; cycle 1.
  { exists false, [], s1. split_and!; try done. apply prefix_nil. }
  rewrite le_val_le, Z.mod_small, Nat2Z.id by (simpl; lia). rewrite <- (app_nil_r (concat _)) in Hrs1.
  destruct (read_rows_ok rs 0 [] s1 Hrs Hrs1) as (ok & out & s2 & H2 & Hl2 & Hf2 & Hg2 & Ho & Hpre).
  rewrite (cmd_bind_eq _ _ _ _ _ H2). eexists _, _, s2. split_and!; [done|by eapply later_trans|congruence|eauto| |].
  - intros Hok. simpl. by rewrite Ho.
  - by apply prefix_cons.
Qed.

Lemma write_records_ok rs s : pos s = length (file s) -> exists ok s', write_records rs s = Done (ok, s') /\ later s s' /\
  (gentle (answers s) -> ok = true) /\ (ok = true -> file s' = file s ++ concat (encode <$> rs) /\ pos s' = length (file s')).
Proof.
  revert s. induction rs as [|r rs IH]; intros s Hp; cbn [write_records].
  { exists true, s. rewrite app_nil_r. split_and!; done. }
  destruct (write_all_ok (encode r) s) as (ok & s1 & H1 & Hl1 & Hg1 & d1 & d2 & Hd & Hok & Hf1 & Hp1); [lia|].
  rewrite (cmd_bind_eq _ _ _ _ _ H1). destruct ok; cbn [negb]; [|by exists false, s1].
  rewrite (Hok eq_refl), app_nil_r in Hd. subst d1. rewrite Hp, write_at_end in Hf1.
  destruct (IH s1) as (ok & s2 & H2 & Hl2 & Hg2 & Hf2); [rewrite Hf1, length_app; lia|].
  exists ok, s2. split_and!; [done|by eapply later_trans|eauto|]. intros Hk. destruct (Hf2 Hk) as [Hf2' ?].
  split; [|done]. by rewrite Hf2', Hf1, <- app_assoc.
Qed.

(** ** Lemmas: the parts of [main] *)

Lemma sys_open_ok trunc s : exists ok s', sys_open trunc s = Done (ok, s') /\ later s s' /\
  (ok = true -> file s' = (if trunc then [] else file s) /\ pos s' = 0%nat) /\ (ok = false -> file s' = file s).
Proof.
  unfold sys_open, next_answer, modify, mbind, cmd_bind.
  destruct (default Whole (head (answers s))); eexists _, _; (split; [reflexivity|]);
    (split; [exact (next_answer_later s)|]); done.
Qed.

Lemma sys_fsync_ok s : exists ok s', sys_fsync s = Done (ok, s') /\ later s s' /\ file s' = file s.
Proof.
  unfold sys_fsync, next_answer, mbind, cmd_bind. eexists _, _. split; [reflexivity|]. split; [exact (next_answer_later s)|done].
Qed.

Lemma create_file_ok rs s : exists ok s', create_file rs s = Done (ok, s') /\ (ok = true -> file s' = image rs).
Proof.
  unfold create_file. destruct (sys_open_ok true s) as (ok & s1 & H1 & _ & Ho & _). rewrite (cmd_bind_eq _ _ _ _ _ H1).
  destruct ok; cbn [negb]; [|by exists false, s1]. destruct (Ho eq_refl) as [Hf Hp].
  destruct (write_all_ok (le 4 (Z.of_nat (length rs))) s1) as (ok & s2 & H2 & _ & _ & d1 & d2 & Hd & Hok & Hf2 & Hp2);
    [rewrite Hf, Hp; simpl; lia|]. rewrite (cmd_bind_eq _ _ _ _ _ H2).
  destruct ok; cbn [negb]; [|by exists false, s2]. rewrite (Hok eq_refl), app_nil_r in Hd. subst d1.
  rewrite Hf, Hp in Hf2. rewrite (write_at_end []) in Hf2. simpl app in Hf2.
  destruct (write_records_ok rs s2) as (ok & s3 & H3 & _ & _ & Hf3); [rewrite Hf2, Hp2, Hp; done|].
  rewrite (cmd_bind_eq _ _ _ _ _ H3). destruct ok; cbn [negb]; [|by exists false, s3].
  destruct (sys_fsync_ok s3) as (ok & s4 & H4 & _ & Hf4). exists ok, s4. split; [done|]. intros _.
  destruct (Hf3 eq_refl) as [Hf3' _]. by rewrite Hf4, Hf3', Hf2.
Qed.

Lemma patch_file_ok off c s : 0 <= off <= Z.of_nat (length (file s)) -> exists ok s', patch_file off c s = Done (ok, s') /\
  (ok = true -> file s' = write_at (Z.to_nat off) [c] (file s)).
Proof.
  intros Ho. unfold patch_file. destruct (sys_open_ok false s) as (ok & s1 & H1 & _ & Hop & _). rewrite (cmd_bind_eq _ _ _ _ _ H1).
  destruct ok; cbn [negb]; [|by exists false, s1]. destruct (Hop eq_refl) as [Hf Hp].
  erewrite cmd_bind_eq by reflexivity.
  destruct (write_all_ok [c] (mkIo (file s1) (Z.to_nat off) (answers s1))) as (ok & s2 & H2 & _ & _ & d1 & d2 & Hd & Hok & Hf2 & _);
    [simpl; rewrite Hf; lia|]. rewrite (cmd_bind_eq _ _ _ _ _ H2).
  destruct ok; cbn [negb]; [|by exists false, s2]. rewrite (Hok eq_refl), app_nil_r in Hd. subst d1.
  destruct (sys_fsync_ok s2) as (ok & s4 & H4 & _ & Hf4). exists ok, s4. split; [done|]. intros _. simpl in Hf2.
  by rewrite Hf4, Hf2, Hf.
Qed.

(** opening and reading, with or without a descriptor *)
Lemma open_read_ok heading rs s fd s1 : Forall record_ok rs -> Z.of_nat (length rs) < 2 ^ 32 -> file s = image rs ->
  sys_open false s = Done (fd, s1) -> exists ok out s', read_file fd heading s1 = Done ((ok, out), s') /\ file s' = file s /\
    (ok = true -> out = heading (Z.of_nat (length rs)) :: rows 0 rs) /\ out `prefix_of` heading (Z.of_nat (length rs)) :: rows 0 rs.
Proof.
  intros Hrs Hn Hf H1. destruct (sys_open_ok false s) as (fd' & s1' & H1' & _ & Ho & Hc). rewrite H1 in H1'. injection H1' as <- <-.
  destruct fd.
  - destruct (Ho eq_refl) as [Hf1 Hp1].
    destruct (read_file_ok heading rs s1 Hrs Hn) as (ok & out & s2 & H2 & _ & Hf2 & _ & Hok & Hpre).
    { unfold rest. by rewrite Hf1, Hp1, Hf. }
    exists ok, out, s2. split_and!; [done|congruence|done|done].
  - destruct (read_loop_bad (S (S (length (answers s1)))) (Z.to_nat sizeof_n) [] s1) as (s2 & H2 & _ & Hf2); [compute; lia|lia|].
    exists false, [], s2. split_and!; [|rewrite Hf2; by apply Hc|done|apply prefix_nil].
    unfold read_file, read_exactly, read_all. by rewrite (cmd_bind_eq _ _ s1 None s2) by (by rewrite (cmd_bind_eq (get ≫= _) _ s1 None s2 H2)).
Qed.

Definition patched : list record :=
  [mkRecord 1 v1 (padded "Aaa"); mkRecord 2 v2 (padded "BXb"); mkRecord 3 v3 (padded "Ccc")].

Lemma records_ok : Forall record_ok records /\ Forall record_ok patched.
Proof.
  split; repeat constructor; simpl; lia.
Qed.

(** ** Properties *)

(** The loops of [write_all] and [read_all] hide interruptions and partial transfers:
    whatever the kernel answers they return; unless a call fails with an error other than
    EINTR, [write_all] leaves exactly its bytes at the offset and [read_all] gives exactly
    the bytes asked for that the file still has; after an error [write_all] has written a
    prefix of its bytes and nothing else. *)
Theorem transfers_complete d n s : (pos s <= length (file s))%nat ->
  (exists ok s', write_all d s = Done (ok, s') /\ (gentle (answers s) -> ok = true) /\
     exists d1 d2, d = d1 ++ d2 /\ (ok = true -> d2 = []) /\
       file s' = write_at (pos s) d1 (file s) /\ pos s' = (pos s + length d1)%nat) /\
  (exists r s', read_all true n s = Done (r, s') /\ file s' = file s /\ (gentle (answers s) -> r <> None) /\
     (forall got, r = Some got -> got = take n (drop (pos s) (file s)))).
Proof.
  intros Hp. split.
  - destruct (write_all_ok d s Hp) as (ok & s' & H & _ & Hr). by exists ok, s'.
  - destruct (read_loop_ok (S (S (length (answers s)))) n [] s) as (r & s' & H & _ & Hf & Hg & Hd); [lia|].
    exists r, s'. split_and!; [done|done|done|]. intros got Hgot. by apply Hd.
Qed.

(** three bytes written over a file, and five bytes read from it *)
Lemma transfers_complete_witness : let s := mkIo [x01; x02; x03] 1 [Part 0; Eintr; Part 1; Whole] in
  (exists ok s', write_all [x0a; x0b; x0c] s = Done (ok, s') /\ (gentle (answers s) -> ok = true) /\
     exists d1 d2, [x0a; x0b; x0c] = d1 ++ d2 /\ (ok = true -> d2 = []) /\
       file s' = write_at (pos s) d1 (file s) /\ pos s' = (pos s + length d1)%nat) /\
  (exists r s', read_all true 5 s = Done (r, s') /\ file s' = file s /\ (gentle (answers s) -> r <> None) /\
     (forall got, r = Some got -> got = take 5 (drop (pos s) (file s)))).
Proof. intros s. apply (transfers_complete [x0a; x0b; x0c] 5 s). simpl. lia. Defined.

(** The program reads back what it wrote: from any old file and for any answers of the
    kernel it ends without undefined behaviour with status 0 or 1; what it prints is always
    a beginning of the right output, the three records and then the same with the second
    name changed to BXb, and it is all of it when the status is 0. *)
Theorem main_reads_back s : exists status out s', main s = Done ((status, out), s') /\ (status = 0 \/ status = 1) /\
  out `prefix_of` (Count 3 :: rows 0 records) ++ Modified :: rows 0 patched /\
  (status = 0 -> out = (Count 3 :: rows 0 records) ++ Modified :: rows 0 patched).
Proof.
  destruct records_ok as [Hr1 Hr2]. unfold main.
  destruct (create_file_ok records s) as (ok & s1 & H1 & Hf1). rewrite (cmd_bind_eq _ _ _ _ _ H1).
  destruct ok; cbn [negb]; [|exists 1, [], s1; split_and!; [done|by right|apply prefix_nil|done]].
  specialize (Hf1 eq_refl). destruct (sys_open_ok false s1) as (fd & s2 & H2 & _). rewrite (cmd_bind_eq _ _ _ _ _ H2).
  destruct (open_read_ok Count records s1 fd s2 Hr1 eq_refl Hf1 H2) as (ok & out1 & s3 & H3 & Hf3 & Ho3 & Hp3).
  rewrite (cmd_bind_eq _ _ _ _ _ H3). cbn [fst snd]. change (Count (Z.of_nat (length records))) with (Count 3) in *.
  destruct ok; cbn [negb]; [|exists 1, out1, s3; split_and!; [done|by right|by apply prefix_app_r|done]].
  rewrite (Ho3 eq_refl).
  destruct (patch_file_ok byte_offset x58 s3) as (ok & s4 & H4 & Hf4); [rewrite Hf3, Hf1; by vm_compute|].
  rewrite (cmd_bind_eq _ _ _ _ _ H4). destruct ok; cbn [negb]; [|exists 1; eexists _, s4; split_and!; [done|by right|by apply prefix_app_r|done]].
  assert (file s4 = image patched) as Hf4' by (rewrite (Hf4 eq_refl), Hf3, Hf1; by vm_compute).
  destruct (sys_open_ok false s4) as (fd2 & s5 & H5 & _). rewrite (cmd_bind_eq _ _ _ _ _ H5).
  destruct fd2; cbn [negb]; [|exists 1; eexists _, s5; split_and!; [done|by right|by apply prefix_app_r|done]].
  destruct (open_read_ok (fun _ => Modified) patched s4 true s5 Hr2 eq_refl Hf4' H5) as (ok & out2 & s6 & H6 & _ & Ho6 & Hp6).
  rewrite (cmd_bind_eq _ _ _ _ _ H6). cbn [fst snd]. eexists _, _, s6. split; [reflexivity|].
  destruct ok; split_and!; [by left|by apply prefix_app|intros _; by rewrite Ho6|by right|by apply prefix_app|done].
Qed.

(** a run with interrupted and partial transfers *)
Example interrupted_run : exists s', main (mkIo [x01] 0 [Whole; Eintr; Part 1; Eintr; Whole; Part 5]) =
  Done ((0, (Count 3 :: rows 0 records) ++ Modified :: rows 0 patched), s').
Proof. eexists. vm_compute. reflexivity. Qed.
