(* ===== verification/FileCopy.v ===== *)
(** * Copying, comparing and searching files

    FILEIO/lowLevelTask.c copies a file and compares the copy with it; FILEIO/memoryMapped.c
    prints where a pattern occurs in a file.  Both run over the kernel of Kernel.v. *)
From S2P Require Import Prelude ByteFile Kernel.

(** ** FILEIO/lowLevelTask.c *)

(** what is printed, error messages included *)
Inductive report :=
| SourceNotOpened | DestNotOpened | WriteError | ReadError
| Verifying | NotOpened | Mismatch (offset : nat) | SizesDiffer | Identical.

Definition BUFFER : nat := 4096.

(** the number that [read] returns *)
Definition ret (r : option bytes) : Z := match r with Some d => Z.of_nat (length d) | None => -1 end.

(** the loop of [copyfiles] and the test behind it *)
Fixpoint copy_loop (fuel : nat) (file CopyFile : Z) : cmd world (list report) :=
  match fuel with
  | O => no_fuel
  | S fuel =>
      bytesRead ← sys_read file BUFFER;
      match bytesRead with
      | None => mret [ReadError]
      | Some [] => mret []
      | Some buffer =>
          bytesWritten ← sys_write CopyFile buffer;
          if decide (bytesWritten = Some (length buffer)) then copy_loop fuel file CopyFile else mret [WriteError]
      end
  end.

Definition copyfiles (src dest : string) : cmd world (list report) :=
  file ← sys_open src O_RDONLY;
  if file <? 0 then mret [SourceNotOpened] else
  CopyFile ← sys_open dest O_WRONLY_CREAT_TRUNC;
  if CopyFile =? -1 then sys_close file;; mret [DestNotOpened] else
  w ← get;
  rs ← copy_loop (S (length (default [] (files w !! src)))) file CopyFile;
  sys_close file;; sys_close CopyFile;; mret rs.

(** the loop of [verifyfile]: what it prints, [r1], and [r2] unless it was never set *)
Fixpoint verify_loop (fuel : nat) (src_fd dest_fd : Z) (r2 : option (option bytes)) (offset : nat)
    : cmd world (list report * option bytes * option (option bytes)) :=
  match fuel with
  | O => no_fuel
  | S fuel =>
      r1 ← sys_read src_fd BUFFER;
      match r1 with
      | None | Some [] => mret ([], r1, r2)
      | Some buf1 =>
          r2 ← sys_read dest_fd BUFFER;
          match r2 with
          | None | Some [] => mret ([], r1, Some r2)
          | Some buf2 =>
              if decide (buf1 = buf2) then verify_loop fuel src_fd dest_fd (Some r2) (offset + length buf1)
              else mret ([Mismatch offset], r1, Some r2)
          end
      end
  end.

Definition verifyfile (src dest : string) : cmd world (list report) :=
  src_fd ← sys_open src O_RDONLY;
  dest_fd ← sys_open dest O_RDONLY;
  if (src_fd =? -1) || (dest_fd =? -1) then mret [Verifying; NotOpened] else
  w ← get;
  l ← verify_loop (S (length (default [] (files w !! src)))) src_fd dest_fd None 0;
  match l.2 with
  | None => undef   (* [r2] is compared but was never set *)
  | Some r2 =>
      let rs := l.1.1 ++ (if ret l.1.2 =? ret r2 then [] else [SizesDiffer]) in
      sys_close src_fd;; sys_close dest_fd;;
      mret ([Verifying] ++ rs ++ (if decide (rs = []) then [Identical] else []))
  end.

Definition main : cmd world (list report) :=
  rs1 ← copyfiles "source.txt" "destination.txt";
  rs2 ← verifyfile "source.txt" "destination.txt";
  mret (rs1 ++ rs2).

(** ** FILEIO/memoryMapped.c *)

(** the bytes [buffer[offset]], ..., which [memcmp] reads *)
Definition slice (buffer : bytes) (offset n : nat) : outcome bytes :=
  if decide (offset + n <= length buffer)%nat then Done (take n (drop offset buffer)) else Undef.

(** the loop of [scanForPattern], from an offset on: the offsets that are printed *)
Fixpoint scan_loop (fuel : nat) (buffer : bytes) (size : nat) (pattern : bytes) (offset : nat) : outcome (list nat) :=
  match fuel with
  | O => OutOfFuel
  | S fuel =>
      if decide (offset <= size - length pattern)%nat then
        b ← slice buffer offset (length pattern);
        rest ← scan_loop fuel buffer size pattern (S offset);
        Done (if decide (b = pattern) then offset :: rest else rest)
      else Done []
  end.

Definition scanForPattern (buffer : bytes) (size : nat) (pattern : bytes) : outcome (list nat) :=
  if decide (length pattern = 0%nat \/ (size < length pattern)%nat) then Done []
  else scan_loop (S (S size)) buffer size pattern 0.

(** [main] for its arguments: the exit status and the offsets; [mmap] gives the file's bytes or fails *)
Definition search (argv : list string) : cmd world (Z * list nat) :=
  match argv with
  | [_; filepath; pattern] =>
      fd ← sys_open filepath O_RDONLY;
      if fd <? 0 then mret (1, []) else
      fileSize ← sys_fstat fd;
      match fileSize with
      | None => sys_close fd;; mret (1, [])
      | Some O => sys_close fd;; mret (1, [])
      | Some fileSize =>
          a ← next_answer;
          w ← get;
          match a with
          | Fail => sys_close fd;; mret (1, [])
          | _ =>
              offsets ← lift (scanForPattern (default [] (files w !! filepath)) fileSize (String.list_byte_of_string pattern));
              sys_close fd;; mret (0, offsets)
          end
      end
  | _ => mret (1, [])
  end.

(** ** Lemmas: copying *)

(** what has been copied of the contents *)
Lemma write_at_take d p k chunk : (p <= length d)%nat -> chunk = take k (drop p d) ->
  write_at p chunk (take p d) = take (p + length chunk) d.
Proof.
  intros Hp ->. assert (p = length (take p d)) as Hl by (rewrite length_take; lia).
  rewrite Hl at 1. rewrite write_at_end, <- take_take_drop. f_equal. rewrite length_take, length_drop.
  destruct (decide (k <= length d - p)%nat); [by rewrite Nat.min_l by lia|].
  rewrite Nat.min_r by lia. rewrite !take_ge; [done|rewrite length_drop; lia|rewrite length_drop; lia].
Qed.

Lemma take_pos {A} k (l : list A) : (0 < k)%nat -> take k l = [] -> l = [].
Proof. destruct k, l; simpl; try done; lia. Qed.

Lemma copyfiles_loop_ok src dest d fuel file cfd w p wr rd : src <> dest -> file <> cfd ->
  desc_of w file = Some (mkDesc src p true wr) -> desc_of w cfd = Some (mkDesc dest p rd true) ->
  files w !! src = Some d -> files w !! dest = Some (take p d) -> (p <= length d)%nat -> (length d - p < fuel)%nat ->
  exists rs w' k, copy_loop fuel file cfd w = Done (rs, w') /\ files w' = <[dest := take k d]> (files w) /\
    (rs = [] -> take k d = d) /\ (willing w -> rs = [] /\ willing w').
Proof.
  intros Hne Hfd. revert w p. induction fuel as [|fuel IH]; intros w p Hf Hc Hs Ht Hp Hfu; [lia|].
  destruct (sys_read_ok file BUFFER w src p wr Hf) as (r & w1 & H1 & (Ho1 & Ha1 & _) & Hf1 & Hc1).
  cbn [copy_loop]. rewrite (cmd_bind_eq _ _ _ _ _ H1).
  destruct Hc1 as [(-> & _ & Hw)|(k & Hk & Hk0 & Hw & -> & Hd1)].
  { exists [ReadError], w1, p. rewrite Hf1, insert_id by done. by split_and!. }
  rewrite Hs in Hd1 |- *. cbn [default from_option id] in Hd1 |- *. unfold BUFFER in Hk0.
  assert (length (take k (drop p d)) = Nat.min k (length d - p)) as Hlen by (by rewrite length_take, length_drop).
  destruct (take k (drop p d)) as [|b0 buf] eqn:Hbuf.
  { exists [], w1, p. rewrite Hf1, insert_id by done. split_and!; [done|done| |].
    - intros _. apply take_ge. apply take_pos in Hbuf; [|lia]. apply (f_equal length) in Hbuf. rewrite length_drop in Hbuf. simpl in Hbuf. lia.
    - intros Hq. split; [done|]. unfold willing in *. by rewrite Ha1, Hq. }
  rewrite <- Ho1 in Hc by done. rewrite <- Hf1 in Ht. destruct (sys_write_ok cfd (b0 :: buf) w1 dest p rd Hc) as (r2 & w2 & H2 & (Ho2 & Ha2 & _) & Hc2).
  rewrite (cmd_bind_eq _ _ _ _ _ H2). assert (willing w -> willing w1) as Hw1 by (unfold willing; rewrite Ha1; by intros ->).
  assert (willing w1 -> willing w2) as Hw2 by (unfold willing; rewrite Ha2; by intros ->).
  destruct Hc2 as [(-> & _ & Hf2 & Hn2)|(k2 & Hk2 & Hq2 & -> & Hd2 & Hf2)].
  { rewrite decide_False by done. exists [WriteError], w2, p. rewrite Hf2, Hf1, insert_id by (by rewrite <- Hf1).
    split_and!; [done..|]. intros Hq. by destruct (Hn2 (Hw1 Hq)). }
  rewrite Ht in Hf2. cbn [default from_option id] in Hf2. rewrite Hf1 in Hf2.
  assert (take k2 (b0 :: buf) = take (Nat.min k2 k) (drop p d)) as Hch by (by rewrite <- Hbuf, take_take).
  rewrite (write_at_take d p _ _ Hp Hch), length_take_le in Hf2 by done.
  case_decide as Heq.
  - injection Heq as ->. destruct (IH w2 (p + length (b0 :: buf))%nat) as (rs & w' & k' & H' & Hf' & Hr' & Hw').
    + by rewrite Ho2, Hd1.
    + done.
    + by rewrite Hf2, lookup_insert_ne.
    + by rewrite Hf2, lookup_insert_eq.
    + lia.
    + cbn [length] in *. lia.
    + exists rs, w', k'. rewrite Hf', Hf2, insert_insert_eq. split_and!; auto.
  - exists [WriteError], w2, (p + k2)%nat. split_and!; [done|done|done|]. intros Hq. destruct Heq. by rewrite (Hq2 (Hw1 Hq)).
Qed.

(** what [copyfiles] promises: only the destination changes, to a part of the source from its
    front; without an error message it is the whole source; and a willing kernel gives none *)
Definition copied (src dest : string) (w : world) (rs : list report) (w' : world) : Prop :=
  (forall f, f <> dest -> files w' !! f = files w !! f) /\
  (files w' !! dest = files w !! dest \/ exists d k, files w !! src = Some d /\ files w' !! dest = Some (take k d)) /\
  (rs = [] -> is_Some (files w !! src) /\ files w' !! dest = files w !! src) /\
  (willing w -> is_Some (files w !! src) -> rs = [] /\ willing w').

Lemma open_files_rdonly nm m : open_files nm O_RDONLY m = m.
Proof. unfold open_files. by destruct (m !! nm). Qed.

Lemma open_files_wronly nm m : open_files nm O_WRONLY_CREAT_TRUNC m = <[nm := []]> m.
Proof. unfold open_files. by destruct (m !! nm). Qed.

Lemma copyfiles_ok src dest w : src <> dest -> exists rs w', copyfiles src dest w = Done (rs, w') /\ copied src dest w rs w'.
Proof.
  intros Hne. destruct (sys_open_cases src O_RDONLY w) as (fd & w1 & H1 & Ho1).
  unfold copyfiles. rewrite (cmd_bind_eq _ _ _ _ _ H1).
  destruct Ho1 as [w1 Hf1 _ _ _ Hq1|fd w1 (Hge1 & _) Hd1 _ Hf1 [d Hs1] Ha1 _]; rewrite open_files_rdonly in *.
  { exists [SourceNotOpened], w1. split; [done|]. unfold copied. rewrite Hf1.
    split_and!; [done|by left|done|]. intros Hq [? ?]. specialize (Hq1 Hq). congruence. }
  rewrite (proj2 (Z.ltb_ge _ _)) by lia.
  destruct (sys_open_cases dest O_WRONLY_CREAT_TRUNC w1) as (cfd & w2 & H2 & Ho2). rewrite (cmd_bind_eq _ _ _ _ _ H2).
  destruct Ho2 as [w2 Hf2 _ _ _ Hq2|cfd w2 (Hge2 & Hfree & _) Hd2 Hoth Hf2 _ Ha2 _]; rewrite open_files_wronly in *.
  { destruct (sys_close_ok fd w2) as (w3 & H3 & Hf3 & _). rewrite Z.eqb_refl, (cmd_bind_eq _ _ _ _ _ H3).
    exists [DestNotOpened], w3. split; [done|]. unfold copied. rewrite Hf3, Hf2, Hf1. split_and!; [done|by left|done|].
    intros Hq _. unfold willing in Hq, Hq2. rewrite Ha1, Hq in Hq2. rewrite lookup_insert_eq in Hq2. by specialize (Hq2 eq_refl). }
  rewrite (proj2 (Z.eqb_neq _ _)) by lia.
  assert (fd <> cfd) as Hfd by (intros ->; congruence).
  destruct (copyfiles_loop_ok src dest d (S (length (default [] (files w2 !! src)))) fd cfd w2 0 false false)
    as (rs & w3 & k & H3 & Hf3 & Hr3 & Hq3); rewrite ?Hf2, ?Hf1 in *; [done|done|by rewrite Hoth|done| | | |..].
  { by rewrite lookup_insert_ne. }
  { by rewrite lookup_insert_eq. }
  { lia. }
  { rewrite lookup_insert_ne, Hs1 by done. simpl. lia. }
  rewrite (cmd_bind_eq get _ w2 w2 w2 eq_refl), Hf2, (cmd_bind_eq _ _ _ _ _ H3).
  destruct (sys_close_ok fd w3) as (w4 & H4 & Hf4 & Ha4 & _). rewrite (cmd_bind_eq _ _ _ _ _ H4).
  destruct (sys_close_ok cfd w4) as (w5 & H5 & Hf5 & Ha5 & _). rewrite (cmd_bind_eq _ _ _ _ _ H5).
  exists rs, w5. split; [done|]. unfold copied. rewrite Hf5, Hf4, Hf3, insert_insert_eq, lookup_insert_eq, Hs1. split_and!.
  - intros f Hf. by rewrite lookup_insert_ne.
  - right. eauto.
  - intros ->%Hr3. by split; [eexists|].
  - unfold willing in *. intros Hq _. rewrite Ha5, Ha4. apply Hq3. by rewrite Ha2, Ha1, Hq.
Qed.

(** ** Lemmas: comparing *)

(** [r2] before the loop and after each turn: not set, or positive *)
Definition positive (r2 : option (option bytes)) : Prop := match r2 with None => True | Some r => 0 < ret r end.

(** the loop ends with a mismatch or with [r1] different from [r2] *)
Lemma verify_loop_differs fuel a b r2 off w rs r1 r w' : positive r2 ->
  verify_loop fuel a b r2 off w = Done ((rs, r1, Some r), w') -> (Identical ∉ rs) /\ (rs <> [] \/ ret r1 <> ret r).
Proof.
  revert r2 off w. induction fuel as [|fuel IH]; intros r2 off w Hp; [done|]. cbn [verify_loop].
  intros (x & w1 & _ & H)%cmd_bind_Done.
  destruct x as [[|b1 buf1]|].
  - injection H as <- <- -> <-. cbn [positive] in Hp. split; [set_solver|right; cbn [ret length]; lia].
  - apply cmd_bind_Done in H as (y & w2 & _ & H). destruct y as [[|b2 buf2]|].
    + injection H as <- <- <- <-. split; [set_solver|right; cbn [ret length]; lia].
    + case_decide as He; [|injection H as <- <- <- <-; split; [set_solver|by left]].
      eapply IH; [|exact H]. cbn [positive ret length]. lia.
    + injection H as <- <- <- <-. split; [set_solver|right; cbn [ret length]; lia].
  - injection H as <- <- -> <-. cbn [positive] in Hp. split; [set_solver|right; cbn [ret]; lia].
Qed.

(** ... also when the files are equal *)
Lemma verify_loop_equal src dest d fuel a b r2 off w p wr1 wr2 : a <> b -> willing w ->
  desc_of w a = Some (mkDesc src p true wr1) -> desc_of w b = Some (mkDesc dest p true wr2) ->
  files w !! src = Some d -> files w !! dest = Some d -> (p <= length d)%nat -> (length d - p < fuel)%nat ->
  exists r w', verify_loop fuel a b r2 off w = Done (([], Some [], r), w') /\ files w' = files w /\ willing w' /\
    if decide (p = length d) then r = r2 else exists x, r = Some (Some x) /\ x <> [].
Proof.
  intros Hab. revert r2 off w p. induction fuel as [|fuel IH]; intros r2 off w p Hq Ha Hb Hs Hd Hp Hfu; [lia|].
  destruct (sys_read_ok a BUFFER w src p wr1 Ha) as (r & w1 & H1 & (Ho1 & Ha1 & _) & Hf1 & Hc1).
  cbn [verify_loop]. rewrite (cmd_bind_eq _ _ _ _ _ H1).
  destruct Hc1 as [(_ & _ & Hw)|(k & _ & _ & Hk & -> & Hd1)]; [done|]. specialize (Hk Hq). subst k.
  rewrite Hs in *. cbn [default from_option id] in *. assert (willing w1) as Hq1 by (unfold willing in *; by rewrite Ha1, Hq).
  assert (length (take BUFFER (drop p d)) = Nat.min BUFFER (length d - p)) as Hlen by (by rewrite length_take, length_drop).
  unfold BUFFER in Hlen at 2. destruct (take BUFFER (drop p d)) as [|b1 buf1] eqn:Hbuf.
  { exists r2, w1. cbn [length] in Hlen. rewrite decide_True by lia. by split_and!. }
  rewrite <- Ho1 in Hb by done. rewrite <- Hf1 in Hd.
  destruct (sys_read_ok b BUFFER w1 dest p wr2 Hb) as (r & w2 & H2 & (Ho2 & Ha2 & _) & Hf2 & Hc2).
  rewrite (cmd_bind_eq _ _ _ _ _ H2). destruct Hc2 as [(_ & _ & Hw)|(k & _ & _ & Hk & -> & Hd2)]; [done|]. specialize (Hk Hq1). subst k.
  rewrite Hd in *. cbn [default from_option id] in *. rewrite Hbuf in *. rewrite decide_True by done.
  destruct (IH (Some (Some (b1 :: buf1))) (off + length (b1 :: buf1))%nat w2 (p + length (b1 :: buf1))%nat) as (r & w3 & H3 & Hf3 & Hq3 & Hr3).
  - unfold willing in *. by rewrite Ha2, Hq1.
  - by rewrite Ho2, Hd1.
  - done.
  - congruence.
  - congruence.
  - lia.
  - cbn [length] in *. lia.
  - exists r, w3. split_and!; [done|congruence|done|]. cbn [length] in *. rewrite decide_False by lia.
    case_decide; [|done]. subst r. by eexists.
Qed.

Lemma verifyfile_equal src dest d w : willing w -> files w !! src = Some d -> files w !! dest = Some d ->
  if decide (d = []) then verifyfile src dest w = Undef
  else exists w', verifyfile src dest w = Done ([Verifying; SizesDiffer], w') /\ files w' = files w.
Proof.
  intros Hq Hs Hd. unfold verifyfile.
  destruct (sys_open_cases src O_RDONLY w) as (a & w1 & H1 & Ho1). rewrite (cmd_bind_eq _ _ _ _ _ H1).
  destruct Ho1 as [w1 _ _ _ _ Hn|a w1 (Hge1 & _) Hd1 _ Hf1 _ Ha1 _]; [specialize (Hn Hq); rewrite open_files_rdonly in Hn; congruence|].
  assert (willing w1) as Hq1 by (unfold willing in *; by rewrite Ha1, Hq). rewrite open_files_rdonly in Hf1.
  destruct (sys_open_cases dest O_RDONLY w1) as (b & w2 & H2 & Ho2). rewrite (cmd_bind_eq _ _ _ _ _ H2).
  destruct Ho2 as [w2 _ _ _ _ Hn|b w2 (Hge2 & Hfree & _) Hd2 Hoth Hf2 _ Ha2 _]; [specialize (Hn Hq1); rewrite open_files_rdonly in Hn; congruence|].
  assert (willing w2) as Hq2 by (unfold willing in *; by rewrite Ha2, Hq1). rewrite open_files_rdonly in Hf2.
  rewrite (proj2 (Z.eqb_neq a _)), (proj2 (Z.eqb_neq b _)) by lia. cbn [orb].
  rewrite (cmd_bind_eq get _ w2 w2 w2 eq_refl). assert (a <> b) as Hab by (intros ->; congruence).
  destruct (verify_loop_equal src dest d (S (length (default [] (files w2 !! src)))) a b None 0 w2 0 false false)
    as (r & w3 & H3 & Hf3 & Hq3 & Hr); [done|done|by rewrite Hoth|done|congruence|congruence|lia| |].
  { rewrite Hf2, Hf1, Hs. simpl. lia. }
  rewrite (cmd_bind_eq _ _ _ _ _ H3). cbn [fst snd]. destruct (decide (d = [])) as [->|Hne]; simpl in Hr; [by subst r|].
  rewrite decide_False in Hr by (destruct d; [done|simpl; lia]). destruct Hr as (x & -> & Hx).
  rewrite (proj2 (Z.eqb_neq _ _)) by (destruct x; [done|cbn [ret length]; lia]).
  eexists. split; [reflexivity|]. cbn [files]. congruence.
Qed.

(** ** Lemmas: searching *)

(** the pattern is in the file at the offset *)
Definition occurs (buffer pattern : bytes) (offset : nat) : Prop :=
  exists before after, buffer = before ++ pattern ++ after /\ length before = offset.

Lemma occurs_slice buffer pattern offset : occurs buffer pattern offset <->
  (offset + length pattern <= length buffer)%nat /\ take (length pattern) (drop offset buffer) = pattern.
Proof.
  split.
  - intros (before & after & -> & <-). rewrite drop_app_length, take_app_length, !length_app. split; [lia|done].
  - intros [Ho Ht]. exists (take offset buffer), (drop (length pattern) (drop offset buffer)).
    split; [rewrite <- Ht at 1; by rewrite !take_drop|rewrite length_take; lia].
Qed.

#[export] Instance occurs_dec buffer pattern offset : Decision (occurs buffer pattern offset) :=
  match decide (_ /\ _) with
  | left H => left (proj2 (occurs_slice buffer pattern offset) H)
  | right H => right (fun o => H (proj1 (occurs_slice buffer pattern offset) o))
  end.

Lemma scan_loop_ok buffer pattern n fuel offset : (length pattern <= length buffer)%nat ->
  (offset + n = S (length buffer - length pattern))%nat -> (n < fuel)%nat ->
  scan_loop fuel buffer (length buffer) pattern offset = Done (filter (occurs buffer pattern) (seq offset n)).
Proof.
  intros Hl. revert offset fuel. induction n as [|n IH]; intros offset fuel Hn Hf; (destruct fuel as [|fuel]; [lia|]); cbn [scan_loop].
  { by rewrite decide_False by lia. }
  rewrite decide_True by lia. unfold slice. rewrite decide_True by lia. cbn [mbind outcome_bind].
  rewrite IH by lia. cbn [outcome_bind seq]. f_equal. rewrite filter_cons.
  destruct (decide (occurs buffer pattern offset)) as [Ho|Ho]; rewrite occurs_slice in Ho; case_decide; try done; [tauto|].
  destruct Ho. split; [lia|done].
Qed.

(** ** Properties *)

(** C31: [copyfiles] returns whatever the kernel answers; it changes no file but the destination, which
    is left alone or holds a part of the source from its front; when no error is reported it holds all of
    the source, and a kernel that does what it is asked gives no error. *)
Theorem copyfiles_correct src dest w : src <> dest ->
  exists rs w', copyfiles src dest w = Done (rs, w') /\ copied src dest w rs w'.
Proof. apply copyfiles_ok. Qed.

(** [verifyfile] never says that two files are identical, whatever they hold and whatever the kernel
    answers: behind its loop it compares the result of the last read of one file with the result of the
    read of the other before it.  So [main] with a kernel that does what it is asked copies a file that is
    not empty and then says that the sizes differ; for an empty one it compares a variable that was never set. *)
Theorem verify_never_identical :
  (forall src dest w rs w', verifyfile src dest w = Done (rs, w') -> Identical ∉ rs) /\
  (forall w d, willing w -> files w !! "source.txt" = Some d ->
     if decide (d = []) then main w = Undef
     else exists w', main w = Done ([Verifying; SizesDiffer], w') /\ files w' !! "destination.txt" = Some d).
Proof.
  split.
  - intros src dest w rs w' H. unfold verifyfile in H.
    apply cmd_bind_Done in H as (a & w1 & _ & H). apply cmd_bind_Done in H as (b & w2 & _ & H).
    destruct ((a =? -1) || (b =? -1)). { injection H as <- <-. set_solver. }
    apply cmd_bind_Done in H as (w3 & w4 & _ & H). apply cmd_bind_Done in H as ([[rs1 r1] [r|]] & w5 & Hl & H); [|done].
    apply verify_loop_differs in Hl as [Hi Hl]; [|done]. injection H as <- <-. cbn [fst snd].
    destruct (Z.eqb_spec (ret r1) (ret r)) as [He|He]; rewrite decide_False; try (by destruct rs1); [set_solver| |set_solver].
    destruct Hl as [Hl|Hl]; [|done]. by destruct rs1.
  - intros w d Hq Hs.
    destruct (copyfiles_ok "source.txt" "destination.txt" w) as (rs & w1 & H1 & Ho & _ & Hr & Hw); [done|].
    destruct Hw as [-> Hq1]; [done|by eexists|]. destruct Hr as [_ Hd]; [done|]. rewrite Hs in Hd.
    unfold main. rewrite (cmd_bind_eq _ _ _ _ _ H1).
    pose proof (verifyfile_equal "source.txt" "destination.txt" d w1 Hq1) as Hv. rewrite Ho in Hv by done. specialize (Hv Hs Hd).
    case_decide; [unfold mbind, cmd_bind; by rewrite Hv|]. destruct Hv as (w2 & H2 & Hf2). rewrite (cmd_bind_eq _ _ _ _ _ H2).
    exists w2. split; [done|congruence].
Qed.

(** [scanForPattern] stays inside the file and prints each offset where the pattern occurs, in order,
    overlapping occurrences too; an empty pattern occurs nowhere. *)
Theorem scanForPattern_correct buffer pattern :
  scanForPattern buffer (length buffer) pattern =
  Done (if decide (pattern = []) then [] else filter (occurs buffer pattern) (seq 0 (length buffer))).
Proof.
  unfold scanForPattern. destruct (decide (pattern = [])) as [->|Hne]; [by rewrite decide_True by (by left)|].
  assert (0 < length pattern)%nat by (destruct pattern; [done|simpl; lia]).
  assert (forall a n, (length buffer < a + length pattern)%nat -> filter (occurs buffer pattern) (seq a n) = []) as Hlate.
  { intros a n. revert a. induction n as [|n IH]; intros a Ha; [done|]. cbn [seq].
    rewrite filter_cons_False by (rewrite occurs_slice; lia). apply IH. lia. }
  case_decide; [by rewrite Hlate by lia|].
  rewrite (scan_loop_ok _ _ (S (length buffer - length pattern))) by lia. f_equal.
  assert (seq 0 (length buffer) = seq 0 (S (length buffer - length pattern)) ++
    seq (S (length buffer - length pattern)) (length pattern - 1)) as -> by (rewrite <- seq_app; f_equal; lia).
  by rewrite filter_app, (Hlate (S (length buffer - length pattern))), app_nil_r by lia.
Qed.

Lemma copyfiles_correct_witness : exists rs w', copyfiles "a" "b" (mkWorld {["a" := [x01; x02]]} [] [Whole; Whole; Part 0] (fun _ => None)) = Done (rs, w') /\
  copied "a" "b" (mkWorld {["a" := [x01; x02]]} [] [Whole; Whole; Part 0] (fun _ => None)) rs w'.
Proof. apply (copyfiles_correct "a" "b"). discriminate. Defined.

Lemma verify_never_identical_witness : exists w', main (mkWorld {["source.txt" := [x41; x42]]} [] [] (fun _ => None)) = Done ([Verifying; SizesDiffer], w') /\
  files w' !! "destination.txt" = Some [x41; x42].
Proof.
  exact (proj2 verify_never_identical (mkWorld {["source.txt" := [x41; x42]]} [] [] (fun _ => None)) [x41; x42] eq_refl eq_refl).
Defined.

(** overlapping occurrences *)
Example scan_overlapping : scanForPattern [x61; x61; x61; x62] 4 [x61; x61] = Done [0%nat; 1%nat].
Proof. reflexivity. Qed.
