(* ===== verification/FileBench.v ===== *)
(** * Benchmarks of buffered and direct file I/O

    FILEIO/directVSbuffer.c and FILEIO/DirectVSBufferFile.c write a file in blocks, read it
    back and collect the least, the largest and the total time of the calls, over the kernel
    of Kernel.v.  The averages in floating point that they print from these three numbers are
    left out.  Memory that is not initialised is [None]. *)
From S2P Require Import Prelude CString Numbers ByteFile Kernel.

(** ** What both programs share *)

Abbreviation cells := (list (option byte)).

Record stats := mkStats { min_ns : Z; max_ns : Z; sum_ns : Z }.

Definition LLONG_MAX : Z := 2 ^ 63 - 1.

(** [long long] arithmetic, whose overflow is undefined *)
Definition ll_chk (z : Z) : outcome Z := if bool_decide (- 2 ^ 63 <= z <= LLONG_MAX) then Done z else Undef.

Definition timespec_to_ns (t : timespec) : outcome Z :=
  s ← ll_chk (tv_sec t * 1000000000); ll_chk (s + tv_nsec t).

Definition diff_ns (a b : timespec) : outcome Z :=
  y ← timespec_to_ns b; x ← timespec_to_ns a; ll_chk (y - x).

Fixpoint fill_loop (n : nat) (iterator : Z) (buffer : cells) : outcome cells :=
  match n with
  | O => Done buffer
  | S n => buffer ← arr_set buffer iterator (Some (byte_of (Z.land iterator 255))); fill_loop n (iterator + 1) buffer
  end.

Definition fill_pattern (buffer : cells) (length : Z) : outcome cells := fill_loop (Z.to_nat length) 0 buffer.

(** the first [n] bytes of the memory, which [write] reads *)
Definition contents (buffer : cells) (n : Z) : outcome bytes :=
  if Z.of_nat (length buffer) <? n then Undef else of_option (mapM id (take (Z.to_nat n) buffer)).

(** the memory after [read] has put bytes there *)
Definition store (d : bytes) (buffer : cells) : outcome cells :=
  if (length buffer <? length d)%nat then Undef else Done ((Some <$> d) ++ drop (length d) buffer).

Definition record_time (t0 t1 : timespec) (st : stats) : outcome stats :=
  ns ← diff_ns t0 t1;
  sum ← ll_chk (sum_ns st + ns);
  Done (mkStats (if ns <? min_ns st then ns else min_ns st) (if ns >? max_ns st then ns else max_ns st) sum).

(** the loop that writes: [None] when it leaves the program with [exit(1)].  A result of -1
    is a [size_t] that differs from the size in the one program, and is tested in the other. *)
Fixpoint write_loop (n : nat) (fd : Z) (buffer : cells) (write_size : Z) (do_fsync : bool) (st : stats) : cmd world (option stats) :=
  match n with
  | O => mret (Some st)
  | S n =>
      t0 ← clock_gettime;
      match t0 with
      | None => mret None
      | Some t0 =>
          d ← lift (contents buffer write_size);
          w ← sys_write fd d;
          if decide (w <> Some (Z.to_nat write_size)) then mret None else
          synced ← (if do_fsync then sys_fsync fd else mret true);
          if negb synced then mret None else
          t1 ← clock_gettime;
          match t1 with
          | None => mret None
          | Some t1 => st ← lift (record_time t0 t1 st); write_loop n fd buffer write_size do_fsync st
          end
      end
  end.

Fixpoint read_loop (n : nat) (fd : Z) (buffer : cells) (read_size : Z) (st : stats) : cmd world (option stats) :=
  match n with
  | O => mret (Some st)
  | S n =>
      t0 ← clock_gettime;
      match t0 with
      | None => mret None
      | Some t0 =>
          r ← sys_read fd (Z.to_nat read_size);
          match r with
          | None => mret None
          | Some d =>
              buffer ← lift (store d buffer);
              if decide (length d <> Z.to_nat read_size) then mret None else
              t1 ← clock_gettime;
              match t1 with
              | None => mret None
              | Some t1 => st ← lift (record_time t0 t1 st); read_loop n fd buffer read_size st
              end
          end
      end
  end.

(** memory, or NULL; [posix_memalign] fails as well when the alignment is not allowed *)
Definition malloc (n : Z) : cmd world (option cells) :=
  a ← next_answer; mret match a with Fail => None | _ => Some (replicate (Z.to_nat n) None) end.

Definition aligned (align : Z) : bool := (0 <? align) && (align mod 8 =? 0) && (Z.land align (align - 1) =? 0).

Definition posix_memalign (align n : Z) : cmd world (option cells) :=
  a ← next_answer;
  mret match a with Fail => None | _ => if aligned align then Some (replicate (Z.to_nat n) None) else None end.

Definition total_bytes (total_mb : Z) : Z := u64 (total_mb * 1024 * 1024).


(** A part of a program that may leave it with the status 1: then it is [None]. *)
Definition or_exit {A B} (m : cmd world (option A)) (k : A -> cmd world (option B)) : cmd world (option B) :=
  o ← m; match o with None => mret None | Some x => k x end.

Notation "x ←? m ; k" := (or_exit m (fun x => k)) (at level 20, m at level 100, k at level 200, right associativity).

Definition open_or_exit (nm : string) (fl : flags) : cmd world (option Z) :=
  fd ← sys_open nm fl; mret (if fd <? 0 then None else Some fd).

Definition iterations_of (total_mb write_size : Z) : cmd world (option Z) :=
  if write_size =? 0 then undef else
  let n := total_bytes total_mb / write_size in mret (if n =? 0 then None else Some n).

(** ** FILEIO/directVSbuffer.c *)

Definition benchmark_write (fd : Z) (buffer : cells) (write_size iterations : Z) : cmd world (option stats) :=
  write_loop (Z.to_nat iterations) fd buffer write_size true (mkStats (2 ^ 62) 0 0).

Definition benchmark_read (fd : Z) (buffer : cells) (read_size iterations : Z) : cmd world (option stats) :=
  ok ← sys_rewind fd;
  if negb ok then mret None else read_loop (Z.to_nat iterations) fd buffer read_size (mkStats (2 ^ 62) 0 0).

(** the file name and the size of a block; the second number, meant for the total, replaces the first *)
Definition arguments (argv : list string) : outcome (string * Z) :=
  w ← match argv !! 2%nat with Some s => z ← atoi s; Done (u64 z) | None => Done 4096 end;
  w ← match argv !! 3%nat with Some s => z ← atoi s; Done (u64 z) | None => Done w end;
  Done (default "/tmp/test_direct_io.bin" (argv !! 1%nat), w).

Definition align_of (st_blksize page_size : Z) : Z :=
  let align := if st_blksize >? 0 then st_blksize else page_size in if align <? page_size then page_size else align.

Definition main (st_blksize page_size : Z) (argv : list string) : cmd world (option (list stats)) :=
  p ← lift (arguments argv);
  let filename := p.1 in let write_size := p.2 in
  iterations ←? iterations_of 64 write_size;
  fd_buffer ←? open_or_exit filename O_WRONLY_CREAT_TRUNC;
  buffer ←? malloc write_size;
  buffer ← lift (fill_pattern buffer write_size);
  s1 ←? benchmark_write fd_buffer buffer write_size iterations;
  sys_close fd_buffer;;
  fd_tmp ←? open_or_exit filename O_RDWR_CREAT;
  _ ←? sys_fstat fd_tmp;
  sys_close fd_tmp;;
  let align := align_of st_blksize page_size in
  fd_direct ←? open_or_exit filename O_WRONLY_CREAT_TRUNC;
  dbuffer ←? posix_memalign align write_size;
  dbuffer ← lift (fill_pattern dbuffer write_size);
  s2 ←? benchmark_write fd_direct dbuffer write_size iterations;
  sys_close fd_direct;;
  fd_rbuf ←? open_or_exit filename O_RDONLY;
  read_buffer ←? malloc write_size;
  s3 ←? benchmark_read fd_buffer read_buffer write_size iterations;   (* not [fd_rbuf] *)
  sys_close fd_buffer;;
  fd_rdirect ←? open_or_exit filename O_RDONLY;
  rd_buffer ←? posix_memalign align (if write_size =? 0 then 0 else 1);   (* [write_size != 0] *)
  s4 ←? benchmark_read fd_direct rd_buffer write_size iterations;   (* not [fd_rdirect] *)
  sys_close fd_direct;;
  mret (Some [s1; s2; s3; s4]).

(** ** FILEIO/DirectVSBufferFile.c *)

Record config := mkConfig { file : option string; block_size : Z; total_mb : Z; run_buffered : bool; run_direct : bool }.

Definition defaults : config := mkConfig (Some "./destination.txt") 4096 64 true true.

(** leave with a status, or go on with the configuration *)
Inductive menu_result := Leave (status : Z) | Go (c : config).

(** the loop over the choices, for what [optarg] points to; a [scanf] that fails ends it *)
Fixpoint menu (optarg : option string) (choices : list Z) (c : config) : outcome menu_result :=
  match choices with
  | [] => Done (Go c)
  | opt :: choices =>
      if opt =? 1 then menu optarg choices (mkConfig optarg (block_size c) (total_mb c) (run_buffered c) (run_direct c))
      else if opt =? 2 then
        s ← of_option optarg; z ← atoi s;
        menu optarg choices (mkConfig (file c) (u64 z) (total_mb c) (run_buffered c) (run_direct c))
      else if opt =? 3 then
        s ← of_option optarg; z ← atoi s;
        menu optarg choices (mkConfig (file c) (block_size c) (u64 z) (run_buffered c) (run_direct c))
      else if opt =? 4 then
        s ← of_option optarg;
        if streq s "buffered" then menu optarg choices (mkConfig (file c) (block_size c) (total_mb c) true false)
        else if streq s "direct" then menu optarg choices (mkConfig (file c) (block_size c) (total_mb c) false true)
        else if streq s "both" then menu optarg choices (mkConfig (file c) (block_size c) (total_mb c) true true)
        else Done (Leave 1)
      else if opt =? 5 then Done (Leave 0)
      else if opt =? -1 then Done (Go c)
      else Done (Leave 1)
  end.

Definition run_write_benchmark (fd : Z) (buf : cells) (size count : Z) : cmd world (option stats) :=
  write_loop (Z.to_nat count) fd buf size true (mkStats LLONG_MAX 0 0).

Definition run_read_benchmark (fd : Z) (buf : cells) (size count : Z) : cmd world (option stats) :=
  ok ← sys_rewind fd;
  if negb ok then mret None else read_loop (Z.to_nat count) fd buf size (mkStats LLONG_MAX 0 0).

Definition buffered_part (nm : string) (size count : Z) : cmd world (option (list stats)) :=
  fd_buf ←? open_or_exit nm O_WRONLY_CREAT_TRUNC;
  buf ←? malloc size;
  buf ← lift (fill_pattern buf size);
  s1 ←? run_write_benchmark fd_buf buf size count;
  sys_close fd_buf;;
  fd_rbuf ←? open_or_exit nm O_RDONLY;
  rbuf ←? malloc size;
  s2 ←? run_read_benchmark fd_rbuf rbuf size count;
  sys_close fd_rbuf;;
  mret (Some [s1; s2]).

Definition direct_part (align : Z) (nm : string) (size count : Z) : cmd world (option (list stats)) :=
  dbuf ←? posix_memalign align size;
  dbuf ← lift (fill_pattern dbuf size);
  fd_direct ←? open_or_exit nm O_WRONLY_CREAT_TRUNC;
  s1 ←? run_write_benchmark fd_direct dbuf size count;
  sys_close fd_direct;;
  rdirect_buf ←? posix_memalign align size;
  fd_rdirect ←? open_or_exit nm O_RDONLY;
  s2 ←? run_read_benchmark fd_rdirect rdirect_buf size count;
  sys_close fd_rdirect;;
  mret (Some [s1; s2]).

(** what [main] does with a configuration; printing a file name that is NULL is undefined *)
Definition run_config (page_size : Z) (c : config) : cmd world (option (list stats)) :=
  iterations ←? iterations_of (total_mb c) (block_size c);
  match file c with
  | None => undef
  | Some nm =>
      l1 ←? (if run_buffered c then buffered_part nm (block_size c) iterations else mret (Some []));
      l2 ←? (if run_direct c then direct_part page_size nm (block_size c) iterations else mret (Some []));
      mret (Some (l1 ++ l2))
  end.

(** the exit status and the results, for the choices that are typed; nothing sets [optarg] *)
Definition menu_main (page_size : Z) (choices : list Z) : cmd world (Z * list stats) :=
  r ← lift (menu None choices defaults);
  match r with
  | Leave status => mret (status, [])
  | Go c => o ← run_config page_size c; mret match o with None => (1, []) | Some l => (0, l) end
  end.

(** ** Lemmas: memory *)

(** what [fill_pattern] leaves *)
Definition pattern (n : nat) : bytes := (fun i => byte_of (Z.of_nat i)) <$> seq 0 n.

Lemma length_pattern n : length (pattern n) = n.
Proof. unfold pattern. by rewrite length_fmap, length_seq. Qed.

Lemma byte_of_land z : 0 <= z -> byte_of (Z.land z 255) = byte_of z.
Proof. intros Hz. unfold byte_of. change 255 with (Z.ones 8). by rewrite Z.land_ones, Z.mod_mod by lia. Qed.

Lemma fill_loop_ok k i buffer : length buffer = (i + k)%nat ->
  fill_loop k (Z.of_nat i) buffer = Done (take i buffer ++ ((fun j => Some (byte_of (Z.of_nat j))) <$> seq i k)).
Proof.
  revert i buffer. induction k as [|k IH]; intros i buffer Hl; cbn [fill_loop seq fmap list_fmap].
  { by rewrite app_nil_r, take_ge by lia. }
  rewrite arr_set_in by lia. cbn [mbind outcome_bind]. rewrite Nat2Z.id, byte_of_land by lia.
  replace (Z.of_nat i + 1) with (Z.of_nat (S i)) by lia. rewrite IH by (rewrite length_insert; lia).
  f_equal. erewrite take_S_r by (apply list_lookup_insert_eq; lia). rewrite take_insert_ge by lia. by rewrite <- app_assoc.
Qed.

Lemma mapM_id_Some {A} (l : list A) : mapM id (Some <$> l) = Some l.
Proof. apply mapM_Some_2, Forall2_fmap_l. by induction l; constructor. Qed.

Lemma fill_pattern_ok buffer n : length buffer = Z.to_nat n ->
  fill_pattern buffer n = Done (Some <$> pattern (Z.to_nat n)).
Proof.
  intros Hl. unfold fill_pattern. pose proof (fill_loop_ok (Z.to_nat n) 0 buffer Hl) as H.
  change (Z.of_nat 0) with 0 in H. rewrite H. f_equal. unfold pattern. by rewrite <- list_fmap_compose.
Qed.

Lemma contents_pattern n : 0 <= n -> contents (Some <$> pattern (Z.to_nat n)) n = Done (pattern (Z.to_nat n)).
Proof.
  intros Hn. unfold contents. rewrite length_fmap, length_pattern, Z2Nat.id by lia. rewrite Z.ltb_irrefl.
  rewrite take_ge by (rewrite length_fmap, length_pattern; lia). by rewrite mapM_id_Some.
Qed.

Lemma bench_store_ok (d : bytes) (buffer : cells) : (length d <= length buffer)%nat ->
  exists buffer', store d buffer = Done buffer' /\ length buffer' = length buffer.
Proof.
  intros Hl. unfold store. rewrite (proj2 (Nat.ltb_ge _ _)) by done. eexists. split; [reflexivity|].
  rewrite length_app, length_fmap, length_drop. lia.
Qed.

(** ** Lemmas: time *)

Definition ns_of (t : timespec) : Z := tv_sec t * 1000000000 + tv_nsec t.
Definition reading (c : nat -> option timespec) (n : nat) : Z := match c n with Some t => ns_of t | None => 0 end.

(** a clock that does not fail or go back, for less than 272 years *)
Definition steady (c : nat -> option timespec) : Prop :=
  forall n, reading c n <= reading c (S n) /\
    exists t, c n = Some t /\ 0 <= tv_sec t < 2 ^ 33 /\ 0 <= tv_nsec t < 1000000000.

(** the times of [n] turns, each between two readings *)
Fixpoint samples (c : nat -> option timespec) (n : nat) : list Z :=
  match n with O => [] | S n => (reading c 1 - reading c 0) :: samples (fun k => c (S (S k))) n end.

Definition summary (st : stats) (l : list Z) : stats :=
  mkStats (foldl Z.min (min_ns st) l) (foldl Z.max (max_ns st) l) (foldl Z.add (sum_ns st) l).

Lemma steady_tail c : steady c -> steady (fun n => c (S n)).
Proof. intros H n. apply (H (S n)). Qed.

Lemma ll_chk_ok z : - 2 ^ 63 <= z <= LLONG_MAX -> ll_chk z = Done z.
Proof. intros H. unfold ll_chk. by rewrite bool_decide_true. Qed.

Lemma timespec_to_ns_ok t : 0 <= tv_sec t < 2 ^ 33 -> 0 <= tv_nsec t < 1000000000 -> timespec_to_ns t = Done (ns_of t).
Proof.
  intros Hs Hn. unfold timespec_to_ns, ns_of. rewrite ll_chk_ok by (unfold LLONG_MAX; lia).
  cbn [mbind outcome_bind]. apply ll_chk_ok. unfold LLONG_MAX. lia.
Qed.

(** the state of the statistics fits the clock *)
Definition fits (st : stats) (c : nat -> option timespec) : Prop := 0 <= sum_ns st <= reading c 0.

Lemma record_time_ok c st : steady c -> fits st c -> exists t0 t1, c 0%nat = Some t0 /\ c 1%nat = Some t1 /\
  let st' := summary st [reading c 1 - reading c 0] in
  record_time t0 t1 st = Done st' /\ fits st' (fun k => c (S (S k))).
Proof.
  intros Hc Hf. destruct (Hc 0%nat) as (Hle & t0 & H0 & Hs0 & Hn0). destruct (Hc 1%nat) as (Hle1 & t1 & H1 & Hs1 & Hn1).
  exists t0, t1. split; [done|]. split; [done|]. unfold fits, reading in *. rewrite H0, H1 in *.
  unfold record_time, diff_ns. rewrite !timespec_to_ns_ok by done. cbn [mbind outcome_bind].
  unfold ns_of in *. rewrite !ll_chk_ok by (unfold LLONG_MAX; lia). cbn [mbind outcome_bind].
  rewrite ll_chk_ok by (unfold LLONG_MAX; lia). unfold summary. cbn [mbind outcome_bind foldl min_ns max_ns sum_ns]. split.
  - zcases; do 2 f_equal; lia.
  - lia.
Qed.

(** ** Lemmas: the loops *)

(** the descriptors of both worlds are the same, but for one *)
Definition same_but (fd : Z) (w w' : world) : Prop := forall fd', fd' <> fd -> desc_of w' fd' = desc_of w fd'.

Lemma same_but_trans fd w1 w2 w3 : same_but fd w1 w2 -> same_but fd w2 w3 -> same_but fd w1 w3.
Proof. intros H1 H2 fd' Hne. by rewrite H2, H1. Qed.

Lemma bench_sys_fsync_ok fd w d : desc_of w fd = Some d -> exists ok w', sys_fsync fd w = Done (ok, w') /\
  (willing w -> ok = true /\ willing w') /\ files w' = files w /\ clock w' = clock w /\ forall fd', desc_of w' fd' = desc_of w fd'.
Proof.
  intros Hd. unfold sys_fsync, next_answer, get, mbind, cmd_bind, mret, cmd_ret.
  assert (forall a c, desc_of (mkWorld (files w) (table w) a c) fd = Some d) as Hd' by done. rewrite Hd'.
  eexists _, _. split; [reflexivity|]. split_and!; try done. unfold willing. intros ->. done.
Qed.

(** what a loop does over one turn and the turns that follow *)
Lemma summary_cons st x l : summary (summary st [x]) l = summary st (x :: l).
Proof. done. Qed.

Lemma bench_write_loop_ok n fd nm rd buffer size d f st w : steady (clock w) -> fits st (clock w) ->
  contents buffer size = Done d -> length d = Z.to_nat size ->
  desc_of w fd = Some (mkDesc nm (length f) rd true) -> files w !! nm = Some f ->
  exists o w', write_loop n fd buffer size true st w = Done (o, w') /\ same_but fd w w' /\
    (willing w -> is_Some o /\ willing w') /\
    (is_Some o -> o = Some (summary st (samples (clock w) n)) /\ steady (clock w') /\ is_Some (desc_of w' fd) /\
      0 <= reading (clock w') 0 /\ files w' = <[nm := f ++ concat (replicate n d)]> (files w)).
Proof.
  intros Hc Hs Hb Hl. revert f st w Hc Hs. induction n as [|n IH]; intros f st w Hc Hs Hd Hf.
  { exists (Some st), w. unfold fits in Hs. simpl. rewrite app_nil_r, insert_id by done.
    split_and!; try done. intros _. destruct st. split_and!; first [done|by eexists|lia]. }
  destruct (record_time_ok _ _ Hc Hs) as (t0 & t1 & H0 & H1 & Hr & Hs'). cbn [write_loop samples].
  erewrite cmd_bind_eq by reflexivity. rewrite H0. erewrite cmd_bind_eq by (unfold lift; rewrite Hb; reflexivity).
  set (w1 := mkWorld _ _ _ _). destruct (sys_write_ok fd d w1 nm (length f) rd Hd) as (r & w2 & H2 & (Ho2 & Ha2 & Hc2) & Hcase).
  rewrite (cmd_bind_eq _ _ _ _ _ H2). rewrite <- Hl.
  assert (r = Some (length d) /\ files w2 = <[nm := f ++ d]> (files w) /\ desc_of w2 fd = Some (mkDesc nm (length (f ++ d)) rd true)
    \/ r <> Some (length d) /\ ~ willing w) as [(-> & Hf2 & Hd2)|[Hne Hnw]].
  { destruct Hcase as [(-> & _ & _ & Hn)|(k & Hk & Hq & -> & Hd2 & Hf2)]; [by right|].
    destruct (decide (k = length d)) as [->|Hne].
    - left. rewrite firstn_all in Hf2. cbn [w1 files] in Hf2. rewrite Hf in Hf2. cbn [default from_option id] in Hf2.
      by rewrite write_at_end, length_app in *.
    - right. split; [congruence|]. intros Hw. by apply Hne, Hq. }
  2:{ rewrite decide_True by done. exists None, w2. split_and!; [done|exact Ho2|done|]. by intros [? ?]. }
  rewrite decide_False by tauto. destruct (bench_sys_fsync_ok fd w2 _ Hd2) as (ok & w3 & H3 & Hq3 & Hf3 & Hc3 & Ho3).
  rewrite (cmd_bind_eq _ _ _ _ _ H3).
  assert (same_but fd w w3) as Hsb by (intros fd' Hfd; rewrite Ho3; by apply Ho2).
  assert (willing w -> willing w2) as Hq2 by (unfold willing; rewrite Ha2; cbn [w1 answers]; by intros ->).
  destruct ok; cbn [negb].
  2:{ exists None, w3. split_and!; [done..| |by intros [? ?]]. intros Hw. destruct (Hq3 (Hq2 Hw)); done. }
  erewrite cmd_bind_eq by reflexivity. rewrite Hc3, Hc2. cbn [w1 clock]. rewrite H1.
  erewrite cmd_bind_eq by (unfold lift; rewrite Hr; reflexivity). set (w4 := mkWorld _ _ _ _).
  destruct (IH (f ++ d) (summary st [reading (clock w) 1 - reading (clock w) 0]) w4) as (o & w5 & H5 & Hsb5 & Hq5 & Ho5).
  - cbn [w4 clock]. by do 2 apply steady_tail in Hc.
  - exact Hs'.
  - change (desc_of w4 fd) with (desc_of w3 fd). by rewrite Ho3.
  - cbn [w4 files]. by rewrite Hf3, Hf2, lookup_insert_eq.
  - exists o, w5. split_and!; [done| | |].
    + eapply same_but_trans; [exact Hsb|exact Hsb5].
    + intros Hw. apply Hq5. destruct (Hq3 (Hq2 Hw)) as [_ Hw3]. exact Hw3.
    + intros Ho. destruct (Ho5 Ho) as (He & Hc5 & Hd5 & Hr5 & Hf5). rewrite summary_cons in He. split_and!; [done..|].
      rewrite Hf5. cbn [w4 files]. by rewrite Hf3, Hf2, insert_insert_eq, <- app_assoc.
Qed.

Lemma bench_read_loop_ok n fd nm wr buffer size p f st w : steady (clock w) -> fits st (clock w) ->
  (Z.to_nat size <= length buffer)%nat -> desc_of w fd = Some (mkDesc nm p true wr) -> files w !! nm = Some f ->
  exists o w', read_loop n fd buffer size st w = Done (o, w') /\ same_but fd w w' /\ files w' = files w /\
    (willing w -> (p + n * Z.to_nat size <= length f)%nat -> is_Some o /\ willing w') /\
    (is_Some o -> o = Some (summary st (samples (clock w) n)) /\ steady (clock w') /\ is_Some (desc_of w' fd) /\
      0 <= reading (clock w') 0).
Proof.
  revert p buffer st w. induction n as [|n IH]; intros p buffer st w Hc Hs Hb Hd Hf.
  { exists (Some st), w. unfold fits in Hs. split_and!; try done. intros _. destruct st. split_and!; first [done|by eexists|lia]. }
  destruct (record_time_ok _ _ Hc Hs) as (t0 & t1 & H0 & H1 & Hr & Hs'). cbn [read_loop samples].
  erewrite cmd_bind_eq by reflexivity. rewrite H0. set (w1 := mkWorld _ _ _ _).
  destruct (sys_read_ok fd (Z.to_nat size) w1 nm p wr Hd) as (r & w2 & H2 & (Ho2 & Ha2 & Hc2) & Hf2 & Hcase).
  rewrite (cmd_bind_eq _ _ _ _ _ H2).
  assert (willing w -> willing w2) as Hq2 by (unfold willing; rewrite Ha2; cbn [w1 answers]; by intros ->).
  destruct Hcase as [(-> & _ & Hn)|(k & Hk & _ & Hq & -> & Hd2)].
  { exists None, w2. split_and!; [done|exact Ho2|done|done|by intros [? ?]]. }
  cbn [w1 files] in *. rewrite Hf in *. cbn [default from_option id] in *.
  assert (length (take k (drop p f)) = Nat.min k (length f - p)) as Hlen by (by rewrite length_take, length_drop).
  destruct (bench_store_ok (take k (drop p f)) buffer) as (buffer' & Hst & Hb'); [lia|].
  erewrite cmd_bind_eq by (unfold lift; rewrite Hst; reflexivity). case_decide as Hsz.
  { exists None, w2. split_and!; [done|exact Ho2|done| |by intros [? ?]]. intros Hw Hle. specialize (Hq Hw). lia. }
  erewrite cmd_bind_eq by reflexivity. rewrite Hc2. cbn [w1 clock]. rewrite H1.
  erewrite cmd_bind_eq by (unfold lift; rewrite Hr; reflexivity). set (w4 := mkWorld _ _ _ _).
  destruct (IH (p + length (take k (drop p f)))%nat buffer' (summary st [reading (clock w) 1 - reading (clock w) 0]) w4)
    as (o & w5 & H5 & Hsb5 & Hf5 & Hq5 & Ho5).
  - cbn [w4 clock]. by do 2 apply steady_tail in Hc.
  - exact Hs'.
  - by rewrite Hb'.
  - exact Hd2.
  - cbn [w4 files]. by rewrite Hf2.
  - exists o, w5. split_and!; [done| |by rewrite Hf5| |done].
    + eapply same_but_trans; [exact Ho2|exact Hsb5].
    + intros Hw Hle. apply Hq5; [exact (Hq2 Hw)|]. lia.
Qed.

(** a turn that reads more than the memory holds *)
Lemma read_loop_overflow n fd nm wr buffer size p f st w : steady (clock w) -> willing w ->
  (length buffer < Z.to_nat size)%nat -> desc_of w fd = Some (mkDesc nm p true wr) -> files w !! nm = Some f ->
  (p + Z.to_nat size <= length f)%nat -> read_loop (S n) fd buffer size st w = Undef.
Proof.
  intros Hc Hw Hb Hd Hf Hle. destruct (Hc 0%nat) as (_ & t0 & H0 & _). cbn [read_loop].
  erewrite cmd_bind_eq by reflexivity. rewrite H0. set (w1 := mkWorld _ _ _ _).
  destruct (sys_read_ok fd (Z.to_nat size) w1 nm p wr Hd) as (r & w2 & H2 & _ & _ & Hcase).
  rewrite (cmd_bind_eq _ _ _ _ _ H2). destruct Hcase as [(-> & _ & Hn)|(k & _ & _ & Hq & -> & _)]; [by destruct Hn|].
  specialize (Hq Hw). subst k. cbn [w1 files]. rewrite Hf. cbn [default from_option id].
  unfold mbind at 1, cmd_bind at 1. unfold lift, store. rewrite (proj2 (Nat.ltb_lt _ _)); [done|].
  rewrite length_take, length_drop. lia.
Qed.

Lemma sys_rewind_ok fd w nm p rd wr : desc_of w fd = Some (mkDesc nm p rd wr) -> exists w', sys_rewind fd w = Done (true, w') /\
  desc_of w' fd = Some (mkDesc nm 0 rd wr) /\ same_but fd w w' /\ files w' = files w /\ answers w' = answers w /\ clock w' = clock w.
Proof.
  intros Hd. unfold sys_rewind, get, modify, mbind, cmd_bind, mret, cmd_ret. rewrite Hd. eexists. split; [reflexivity|].
  split_and!; try done; [by eapply desc_of_set|]. intros fd' Hne. by apply desc_of_set_ne.
Qed.

(** ** Lemmas: the phases of a program *)

(** What one part of a program does, in any case: it does not go wrong, and it either leaves
    the program, which a willing kernel does not make it do, or establishes [Q]. *)
Definition phase {A} (P : world -> Prop) (m : cmd world (option A)) (Q : A -> world -> Prop) : Prop :=
  forall w, P w -> exists o w', m w = Done (o, w') /\ (willing w -> is_Some o /\ willing w') /\
    match o with Some x => Q x w' | None => True end.

Lemma or_exit_ret {A B} (x : A) (k : A -> cmd world (option B)) : or_exit (mret (Some x)) k = k x.
Proof. reflexivity. Qed.

Lemma phase_or_exit {A B} P (m : cmd world (option A)) Q (k : A -> cmd world (option B)) R :
  phase P m Q -> (forall x, phase (Q x) (k x) R) -> phase P (x ←? m; k x) R.
Proof.
  intros Hm Hk w Hw. destruct (Hm w Hw) as (o & w1 & H1 & Hq1 & Ho). unfold or_exit. rewrite (cmd_bind_eq _ _ _ _ _ H1).
  destruct o as [x|]; [|exists None, w1; split_and!; [done| |done]; intros Hq; by destruct (Hq1 Hq)].
  destruct (Hk x w1 Ho) as (o2 & w2 & H2 & Hq2 & Ho2). exists o2, w2. split_and!; [done| |done]. intros Hq. by apply Hq2, Hq1.
Qed.

Lemma phase_bind {A B} P (m : cmd world A) (Q : A -> world -> Prop) (k : A -> cmd world (option B)) R :
  (forall w, P w -> exists x w', m w = Done (x, w') /\ (willing w -> willing w') /\ Q x w') ->
  (forall x, phase (Q x) (k x) R) -> phase P (m ≫= k) R.
Proof.
  intros Hm Hk w Hw. destruct (Hm w Hw) as (x & w1 & H1 & Hq1 & Ho). rewrite (cmd_bind_eq _ _ _ _ _ H1).
  destruct (Hk x w1 Ho) as (o2 & w2 & H2 & Hq2 & Ho2). exists o2, w2. split_and!; [done| |done]. intros Hq. by apply Hq2, Hq1.
Qed.

Lemma phase_lift {A B} P (m : outcome A) x (k : A -> cmd world (option B)) R :
  m = Done x -> phase P (k x) R -> phase P (lift m ≫= k) R.
Proof. intros -> Hk. exact Hk. Qed.

Lemma phase_ret {A} (P : world -> Prop) (x : A) (Q : A -> world -> Prop) : (forall w, P w -> Q x w) -> phase P (mret (Some x)) Q.
Proof. intros HQ w Hw. exists (Some x), w. split_and!; [done| |by apply HQ]. intros Hq. by split. Qed.

Lemma phase_pure {A} (phi : Prop) P (m : cmd world (option A)) Q : (phi -> phase P m Q) -> phase (fun w => phi /\ P w) m Q.
Proof. intros H w [Hp Hw]. by apply H. Qed.

(** The states between the calls of a program that has one descriptor open at a time: [fd] is
    the lowest that is free in [w0], the state before; the file [nm] holds [f]. *)
Section phases.
Context (w0 : world) (fd : Z) (Hfirst : first_free w0 fd) (nm : string).

Definition sane (w : world) : Prop := steady (clock w) /\ 0 <= reading (clock w) 0 /\ same_but fd w0 w.
Definition closed (f : option bytes) (w : world) : Prop := sane w /\ files w !! nm = f /\ desc_of w fd = None.
Definition is_open (f : bytes) (rd wr : bool) (w : world) : Prop :=
  sane w /\ files w !! nm = Some f /\ desc_of w fd = Some (mkDesc nm 0 rd wr).
Definition in_use (f : bytes) (w : world) : Prop := sane w /\ files w !! nm = Some f /\ is_Some (desc_of w fd).

(** the contents after [open] *)
Definition after_open (fl : flags) (f : option bytes) : option bytes :=
  match f with
  | None => if o_creat fl then Some [] else None
  | Some d => Some (if o_trunc fl then [] else d)
  end.

Lemma open_files_after fl m : open_files nm fl m !! nm = after_open fl (m !! nm).
Proof.
  unfold open_files, after_open. destruct (m !! nm) eqn:Hm.
  - destruct (o_trunc fl); [by rewrite lookup_insert_eq|done].
  - destruct (o_creat fl); [by rewrite lookup_insert_eq|done].
Qed.

Lemma phase_open fl f g : after_open fl f = Some g ->
  phase (closed f) (open_or_exit nm fl) (fun x w => x = fd /\ is_open g (o_read fl) (o_write fl) w).
Proof.
  intros Hg w ((Hc & Hr & Hsb) & Hf & Hd). unfold open_or_exit.
  destruct (sys_open_cases nm fl w) as (x & w1 & H1 & Ho). rewrite (cmd_bind_eq _ _ _ _ _ H1).
  destruct Ho as [w1 _ _ Ha _ Hn|x w1 Hx Hd1 Hsb1 Hf1 _ Ha Hc1].
  - exists None, w1. split_and!; [done| |done]. intros Hq. specialize (Hn Hq). rewrite open_files_after, Hf in Hn. congruence.
  - assert (x = fd) as ->.
    { eapply first_free_unique; [|exact Hx|exact Hfirst]. intros fd'. destruct (decide (fd' = fd)) as [->|Hne]; [|by apply Hsb].
      rewrite Hd. by destruct Hfirst as (_ & -> & _). }
    rewrite (proj2 (Z.ltb_ge _ _)) by (destruct Hx; lia). exists (Some fd), w1. split_and!; [done| |done|].
    + unfold willing. rewrite Ha. by intros ->.
    + unfold is_open, sane. rewrite Hc1, Hf1, open_files_after, Hf. split_and!; try done. by eapply same_but_trans.
Qed.

Lemma phase_close {B} P (k : cmd world (option B)) f R : (forall w, P w -> in_use f w) ->
  phase (closed (Some f)) k R -> phase P (sys_close fd;; k) R.
Proof.
  intros HP Hk. apply phase_bind with (Q := fun _ => closed (Some f)); [|by intros []].
  intros w ((Hc & Hr & Hsb) & Hf & _)%HP. destruct (sys_close_ok fd w) as (w1 & H1 & Hf1 & Ha1 & Hc1 & Hd1 & Hs1).
  exists tt, w1. split_and!; [done|unfold willing; by rewrite Ha1|].
  unfold closed, sane. rewrite Hc1, Hf1. split_and!; try done. by eapply same_but_trans.
Qed.

(** memory: what [P] says does not depend on the answers that are left *)
Definition stable (P : world -> Prop) : Prop := forall w a, P w -> P (mkWorld (files w) (table w) a (clock w)).

Lemma phase_malloc n P : stable P -> phase P (malloc n) (fun b w => b = replicate (Z.to_nat n) None /\ P w).
Proof.
  intros HP w Hw. unfold malloc, next_answer, mbind, cmd_bind, mret, cmd_ret. eexists _, _. split; [reflexivity|]. unfold willing. split.
  - intros ->. simpl. split; [by eexists|done].
  - destruct (default Whole (head (answers w))); try done; split; try done; by apply HP.
Qed.

Lemma phase_memalign align n P : aligned align = true -> stable P ->
  phase P (posix_memalign align n) (fun b w => b = replicate (Z.to_nat n) None /\ P w).
Proof.
  intros Hal HP w Hw. unfold posix_memalign, next_answer, mbind, cmd_bind, mret, cmd_ret. rewrite Hal. eexists _, _. split; [reflexivity|].
  unfold willing. split.
  - intros ->. simpl. split; [by eexists|done].
  - destruct (default Whole (head (answers w))); try done; split; try done; by apply HP.
Qed.

Lemma stable_closed f : stable (closed f).
Proof. intros w a H. exact H. Qed.

Lemma stable_is_open f rd wr : stable (is_open f rd wr).
Proof. intros w a H. exact H. Qed.

(** what the file holds after so many blocks *)
Definition written (size n : Z) : bytes := concat (replicate (Z.to_nat n) (pattern (Z.to_nat size))).

Lemma length_written size n : length (written size n) = (Z.to_nat n * Z.to_nat size)%nat.
Proof. unfold written. induction (Z.to_nat n) as [|k IH]; [done|]. simpl. rewrite length_app, length_pattern, IH. lia. Qed.

Lemma phase_write min0 size n rd : 0 <= size ->
  phase (is_open [] rd true) (write_loop (Z.to_nat n) fd (Some <$> pattern (Z.to_nat size)) size true (mkStats min0 0 0))
    (fun _ => in_use (written size n)).
Proof.
  intros Hs w ((Hc & Hr & Hsb) & Hf & Hd).
  destruct (bench_write_loop_ok (Z.to_nat n) fd nm rd (Some <$> pattern (Z.to_nat size)) size (pattern (Z.to_nat size)) []
    (mkStats min0 0 0) w) as (o & w1 & H1 & Hs1 & Hq1 & Ho); try done.
  { by apply contents_pattern. }
  { apply length_pattern. }
  exists o, w1. split_and!; [done|done|]. destruct o as [st|]; [|done]. destruct Ho as (_ & Hc1 & Hd1 & Hr1 & Hf1); [by eexists|].
  unfold in_use, sane. rewrite Hf1, lookup_insert_eq. split_and!; try done. by eapply same_but_trans.
Qed.

(** the loop that reads, behind [lseek] *)
Lemma phase_read min0 size n f wr (buffer : cells) :
  (Z.to_nat size <= length buffer)%nat -> (Z.to_nat n * Z.to_nat size <= length f)%nat ->
  phase (is_open f true wr)
    (ok ← sys_rewind fd; if negb ok then mret None else read_loop (Z.to_nat n) fd buffer size (mkStats min0 0 0)) (fun _ => in_use f).
Proof.
  intros Hb Hl.
  apply phase_bind with (Q := fun ok w => ok = true /\ is_open f true wr w).
  - intros w ((Hc & Hr & Hsb) & Hf & Hd). destruct (sys_rewind_ok fd w nm 0 true wr Hd) as (w1 & H1 & Hd1 & Hs1 & Hf1 & Ha1 & Hc1).
    exists true, w1. split_and!; [done|unfold willing; by rewrite Ha1|done|]. unfold is_open, sane. rewrite Hc1, Hf1.
    split_and!; try done. by eapply same_but_trans.
  - intros ok w (-> & (Hc & Hr & Hsb) & Hf & Hd). cbn [negb].
    destruct (bench_read_loop_ok (Z.to_nat n) fd nm wr buffer size 0 f (mkStats min0 0 0) w) as (o & w1 & H1 & Hs1 & Hf1 & Hq1 & Ho); try done.
      exists o, w1. split_and!; [done|intros Hq; by apply Hq1|]. destruct o as [st|]; [|done].
    destruct Ho as (_ & Hc1 & Hd1 & Hr1); [by eexists|]. unfold in_use, sane. rewrite Hf1. split_and!; try done. by eapply same_but_trans.
Qed.
End phases.

(** ** Lemmas: the programs *)

Lemma fill_malloc n : fill_pattern (replicate (Z.to_nat n) None) n = Done (Some <$> pattern (Z.to_nat n)).
Proof. apply fill_pattern_ok, length_replicate. Qed.

Lemma total_bytes_64 : total_bytes 64 = 67108864.
Proof. reflexivity. Qed.

Section programs.
Context (w0 : world) (fd : Z) (Hfirst : first_free w0 fd) (nm : string) (size n : Z) (Hsize : 0 <= size).

Lemma buffered_part_ok f : phase (closed w0 fd nm f) (buffered_part nm size n)
  (fun l w => length l = 2%nat /\ closed w0 fd nm (Some (written size n)) w).
Proof using Hfirst Hsize.
  unfold buffered_part. eapply phase_or_exit; [apply (phase_open w0 fd Hfirst nm O_WRONLY_CREAT_TRUNC f []); by destruct f|]. cbn [o_read o_write O_WRONLY_CREAT_TRUNC].
  intros x. apply phase_pure. intros ->.
  eapply phase_or_exit; [apply phase_malloc, stable_is_open|]. intros b. apply phase_pure. intros ->.
  eapply phase_lift; [apply fill_malloc|].
  eapply phase_or_exit; [by eapply phase_write|]. intros s1. eapply phase_close; [done|].
  eapply phase_or_exit; [exact (phase_open w0 fd Hfirst nm O_RDONLY (Some (written size n)) _ eq_refl)|]. cbn [o_read o_write O_RDONLY]. intros x. apply phase_pure. intros ->.
  eapply phase_or_exit; [apply phase_malloc, stable_is_open|]. intros b. apply phase_pure. intros ->.
  eapply phase_or_exit; [apply phase_read; [by rewrite length_replicate|by rewrite length_written]|]. intros s2. eapply phase_close; [done|].
  by apply phase_ret.
Qed.

Lemma direct_part_ok align f : aligned align = true -> phase (closed w0 fd nm f) (direct_part align nm size n)
  (fun l w => length l = 2%nat /\ closed w0 fd nm (Some (written size n)) w).
Proof using Hfirst Hsize.
  intros Hal. unfold direct_part. eapply phase_or_exit; [apply phase_memalign, stable_closed; exact Hal|]. intros b. apply phase_pure. intros ->.
  eapply phase_lift; [apply fill_malloc|].
  eapply phase_or_exit; [apply (phase_open w0 fd Hfirst nm O_WRONLY_CREAT_TRUNC f []); by destruct f|]. cbn [o_read o_write O_WRONLY_CREAT_TRUNC].
  intros x. apply phase_pure. intros ->.
  eapply phase_or_exit; [by eapply phase_write|]. intros s1. eapply phase_close; [done|].
  eapply phase_or_exit; [apply phase_memalign, stable_closed; exact Hal|]. intros b. apply phase_pure. intros ->.
  eapply phase_or_exit; [exact (phase_open w0 fd Hfirst nm O_RDONLY (Some (written size n)) _ eq_refl)|]. cbn [o_read o_write O_RDONLY]. intros x. apply phase_pure. intros ->.
  eapply phase_or_exit; [apply phase_read; [by rewrite length_replicate|by rewrite length_written]|]. intros s2. eapply phase_close; [done|].
  by apply phase_ret.
Qed.
End programs.

(** a part of a program that goes wrong when the kernel is willing *)
Definition goes_wrong {A} (P : world -> Prop) (m : cmd world (option A)) : Prop := forall w, willing w -> P w -> m w = Undef.

Lemma wrong_or_exit {A B} P (m : cmd world (option A)) Q (k : A -> cmd world (option B)) :
  phase P m Q -> (forall x, goes_wrong (Q x) (k x)) -> goes_wrong P (x ←? m; k x).
Proof.
  intros Hm Hk w Hq Hw. destruct (Hm w Hw) as (o & w1 & H1 & Hq1 & Ho). destruct (Hq1 Hq) as [[x ->] Hq1'].
  unfold or_exit. rewrite (cmd_bind_eq _ _ _ _ _ H1). by apply Hk.
Qed.

Lemma wrong_lift {A B} P (m : outcome A) x (k : A -> cmd world (option B)) :
  m = Done x -> goes_wrong P (k x) -> goes_wrong P (lift m ≫= k).
Proof. intros -> Hk. exact Hk. Qed.

Lemma wrong_pure {A} (phi : Prop) P (m : cmd world (option A)) : (phi -> goes_wrong P m) -> goes_wrong (fun w => phi /\ P w) m.
Proof. intros H w Hq [Hp Hw]. by apply H. Qed.

Lemma wrong_close {B} w0 fd nm P (k : cmd world (option B)) f : first_free w0 fd -> (forall w, P w -> in_use w0 fd nm f w) ->
  goes_wrong (closed w0 fd nm (Some f)) k -> goes_wrong P (sys_close fd;; k).
Proof.
  intros Hfirst HP Hk w Hq ((Hc & Hr & Hsb) & Hf & _)%HP. destruct (sys_close_ok fd w) as (w1 & H1 & Hf1 & Ha1 & Hc1 & Hd1 & Hs1).
  rewrite (cmd_bind_eq _ _ _ _ _ H1). apply Hk; [unfold willing; by rewrite Ha1|].
  unfold closed, sane. rewrite Hc1, Hf1. split_and!; try done. by eapply same_but_trans.
Qed.

(** reading into memory that is too small *)
Lemma wrong_read {B} w0 fd nm min0 size n f wr (buffer : cells) (k : stats -> cmd world (option B)) :
  (0 < n) -> (length buffer < Z.to_nat size <= length f)%nat ->
  goes_wrong (is_open w0 fd nm f true wr)
    (x ←? (ok ← sys_rewind fd; if negb ok then mret None else read_loop (Z.to_nat n) fd buffer size (mkStats min0 0 0)); k x).
Proof.
  intros Hn Hb w Hq ((Hc & Hr & Hsb) & Hf & Hd). destruct (sys_rewind_ok fd w nm 0 true wr Hd) as (w1 & H1 & Hd1 & Hs1 & Hf1 & Ha1 & Hc1).
  unfold or_exit, mbind at 1, cmd_bind at 1. rewrite (cmd_bind_eq _ _ _ _ _ H1). cbn [negb].
  destruct (Z.to_nat n) as [|m] eqn:Hm; [lia|].
  rewrite (read_loop_overflow m fd nm wr buffer size 0 f); [done|by rewrite Hc1|unfold willing; by rewrite Ha1|lia|done|by rewrite Hf1|lia].
Qed.

Lemma stat_phase w0 fd nm f rd wr : phase (is_open w0 fd nm f rd wr) (sys_fstat fd) (fun _ => is_open w0 fd nm f rd wr).
Proof.
  intros w Hw. pose proof Hw as (_ & _ & Hd). unfold sys_fstat, next_answer, get, mbind, cmd_bind, mret, cmd_ret.
  assert (forall a c, desc_of (mkWorld (files w) (table w) a c) fd = desc_of w fd) as -> by done. rewrite Hd.
  eexists _, _. split; [reflexivity|]. unfold willing. split; [intros ->; simpl; split; [by eexists|done]|].
  by destruct (default Whole (head (answers w))).
Qed.

(** the second half of [main] of directVSbuffer.c, from the reading on *)
Lemma main_end_wrong w0 fd nm align size n s1 s2 : first_free w0 fd -> aligned align = true -> 1 < size -> 0 < n ->
  goes_wrong (closed w0 fd nm (Some (written size n)))
    (fd_rbuf ←? open_or_exit nm O_RDONLY;
     read_buffer ←? malloc size;
     s3 ←? benchmark_read fd read_buffer size n;
     sys_close fd;;
     fd_rdirect ←? open_or_exit nm O_RDONLY;
     rd_buffer ←? posix_memalign align 1;
     s4 ←? benchmark_read fd rd_buffer size n;
     sys_close fd;; mret (Some [s1; s2; s3; s4] : option (list stats))).
Proof.
  intros Hfirst Hal Hs Hn. assert (Z.to_nat size <= length (written size n))%nat as Hlen by (rewrite length_written; nia).
  eapply wrong_or_exit; [exact (phase_open w0 fd Hfirst nm O_RDONLY (Some (written size n)) _ eq_refl)|]. cbn [o_read o_write O_RDONLY].
  intros x. apply wrong_pure. intros _.
  eapply wrong_or_exit; [apply phase_malloc, stable_is_open|]. intros b. apply wrong_pure. intros ->.
  eapply wrong_or_exit; [apply phase_read; [by rewrite length_replicate|by rewrite length_written]|]. intros s3.
  eapply wrong_close; [done|done|].
  eapply wrong_or_exit; [exact (phase_open w0 fd Hfirst nm O_RDONLY (Some (written size n)) _ eq_refl)|]. cbn [o_read o_write O_RDONLY].
  intros x2. apply wrong_pure. intros _.
  eapply wrong_or_exit; [apply phase_memalign, stable_is_open; exact Hal|]. intros b. apply wrong_pure. intros ->.
  apply wrong_read; [done|]. rewrite length_replicate. lia.
Qed.

Lemma main_wrong w0 fd nm st_blksize page_size argv f size : first_free w0 fd -> aligned (align_of st_blksize page_size) = true ->
  arguments argv = Done (nm, size) -> 1 < size <= 67108864 -> goes_wrong (closed w0 fd nm f) (main st_blksize page_size argv).
Proof.
  intros Hfirst Hal Harg Hs. unfold main. eapply wrong_lift; [exact Harg|]. cbn [fst snd].
  assert (0 < 67108864 / size) as Hn by (apply Z.div_str_pos; lia).
  unfold iterations_of. rewrite total_bytes_64, (proj2 (Z.eqb_neq size 0)), (proj2 (Z.eqb_neq _ 0)) by lia.
  set (n := 67108864 / size) in *. rewrite or_exit_ret. clearbody n.
  eapply wrong_or_exit; [apply (phase_open w0 fd Hfirst nm O_WRONLY_CREAT_TRUNC f []); by destruct f|]. cbn [o_read o_write O_WRONLY_CREAT_TRUNC].
  intros x. apply wrong_pure. intros ->.
  eapply wrong_or_exit; [apply phase_malloc, stable_is_open|]. intros b. apply wrong_pure. intros ->.
  eapply wrong_lift; [apply fill_malloc|].
  eapply wrong_or_exit; [apply phase_write; lia|]. intros s1. eapply wrong_close; [done|done|].
  eapply wrong_or_exit; [exact (phase_open w0 fd Hfirst nm O_RDWR_CREAT (Some (written size n)) _ eq_refl)|]. cbn [o_read o_write O_RDWR_CREAT].
  intros x. apply wrong_pure. intros ->.
  eapply wrong_or_exit; [apply stat_phase|]. intros st_size. eapply wrong_close; [exact Hfirst| |].
  { intros w (Hw1 & Hw2 & Hw3). split; [exact Hw1|]. split; [exact Hw2|by eexists]. }
  eapply wrong_or_exit; [exact (phase_open w0 fd Hfirst nm O_WRONLY_CREAT_TRUNC (Some (written size n)) _ eq_refl)|]. cbn [o_read o_write O_WRONLY_CREAT_TRUNC].
  intros x. apply wrong_pure. intros ->.
  eapply wrong_or_exit; [apply phase_memalign, stable_is_open; exact Hal|]. intros b. apply wrong_pure. intros ->.
  eapply wrong_lift; [apply fill_malloc|].
  eapply wrong_or_exit; [apply phase_write; lia|]. intros s2. eapply wrong_close; [done|done|].
  apply main_end_wrong; [exact Hfirst|exact Hal|lia|exact Hn].
Qed.

Lemma steady_reading c : steady c -> 0 <= reading c 0.
Proof. intros H. destruct (H 0%nat) as (_ & t & Ht & Hs & Hn). unfold reading, ns_of. rewrite Ht. lia. Qed.

Lemma closed_start fd nm w : steady (clock w) -> first_free w fd -> closed w fd nm (files w !! nm) w.
Proof. intros Hc (_ & Hd & _). split; [split; [done|split; [by apply steady_reading|by intros fd' _]]|by split]. Qed.

(** with NULL for a file name nothing is opened *)
Lemma menu_null_file choices c : file c = None ->
  match menu None choices c with
  | Done (Go c') => file c' = None
  | Done (Leave _) | Undef => True
  | OutOfFuel => False
  end.
Proof.
  revert c. induction choices as [|opt l IH]; intros c Hf; cbn [menu]; [done|].
  destruct (opt =? 1); [by apply IH|]. destruct (opt =? 2); [done|]. destruct (opt =? 3); [done|].
  destruct (opt =? 4); [done|]. destruct (opt =? 5); [done|]. by destruct (opt =? -1).
Qed.

Lemma run_null_file page_size c w : file c = None -> run_config page_size c w = Undef \/ run_config page_size c w = Done (None, w).
Proof.
  intros Hf. unfold run_config, or_exit, mbind, cmd_bind, iterations_of. rewrite Hf.
  destruct (block_size c =? 0); [by left|]. destruct (_ =? 0); [by right|by left].
Qed.

Lemma run_defaults page_size w : aligned page_size = true -> steady (clock w) ->
  exists o w', run_config page_size defaults w = Done (o, w') /\ (willing w -> is_Some o) /\
    match o with
    | Some l => length l = 4%nat /\ files w' !! "./destination.txt" = Some (written 4096 16384)
    | None => True
    end.
Proof.
  intros Hal Hc. destruct (first_free_exists w) as [fd Hfirst].
  assert (phase (closed w fd "./destination.txt" (files w !! "./destination.txt")) (run_config page_size defaults)
    (fun l w' => length l = 4%nat /\ files w' !! "./destination.txt" = Some (written 4096 16384))) as Hp.
  { unfold run_config. cbn [total_mb block_size file run_buffered run_direct defaults].
    change (iterations_of 64 4096) with (mret (Some 16384) : cmd world (option Z)). rewrite or_exit_ret.
    eapply phase_or_exit; [by apply buffered_part_ok|]. intros l1. apply phase_pure. intros H1.
    eapply phase_or_exit; [by apply direct_part_ok|]. intros l2. apply phase_pure. intros H2.
    apply phase_ret. intros w' (_ & Hf & _). by rewrite length_app, H1, H2. }
  destruct (Hp w) as (o & w' & H1 & Hq & Ho); [by apply closed_start|]. exists o, w'. split_and!; [done| |by destruct o].
  intros Hw. by apply Hq.
Qed.

(** ** Properties *)

(** The loop that writes never goes wrong with a clock that is steady: it leaves the program, which
    it does not do when the kernel does what it is asked, or the file has gained a block for each turn, and
    the three numbers are the minimum, the maximum and the sum of the times that the turns took. *)
Theorem run_write_benchmark_correct fd buf size count nm rd f d w : steady (clock w) ->
  contents buf size = Done d -> length d = Z.to_nat size ->
  desc_of w fd = Some (mkDesc nm (length f) rd true) -> files w !! nm = Some f ->
  exists o w', run_write_benchmark fd buf size count w = Done (o, w') /\ (willing w -> is_Some o) /\
    match o with
    | None => True
    | Some st =>
        let times := samples (clock w) (Z.to_nat count) in
        min_ns st = foldl Z.min LLONG_MAX times /\ max_ns st = foldl Z.max 0 times /\ sum_ns st = foldl Z.add 0 times /\
        files w' = <[nm := f ++ concat (replicate (Z.to_nat count) d)]> (files w)
    end.
Proof.
  intros Hc Hb Hl Hd Hf. unfold run_write_benchmark.
  destruct (bench_write_loop_ok (Z.to_nat count) fd nm rd buf size d f (mkStats LLONG_MAX 0 0) w) as (o & w' & H1 & _ & Hq & Ho); try done.
  { split; [apply Z.le_refl|]. by apply steady_reading. }
  exists o, w'. split_and!; [done|by intros [? _]%Hq|]. destruct o as [st|]; [|done].
  destruct Ho as ([= ->] & _ & _ & _ & Hf'); [by eexists|]. by split_and!.
Qed.

(** C26: DirectVSBufferFile.c, for whatever is typed in its menu.  The options are read from a pointer that
    is never set: the choices 2, 3 and 4 dereference NULL, and behind the choice 1 no file is ever written.
    Otherwise 5 ends the program, -1 or anything that is not a number starts the benchmark, which either
    stops at a call that failed or leaves 16384 blocks of the pattern in the file and prints four results,
    and any other number ends it with the status 1. *)
Theorem menu_main_correct page_size choices w : aligned page_size = true -> steady (clock w) ->
  match choices with
  | [] | -1 :: _ => exists status l w', menu_main page_size choices w = Done ((status, l), w') /\
      (willing w -> status = 0) /\ (status = 0 \/ status = 1 /\ l = []) /\
      (status = 0 -> length l = 4%nat /\ files w' !! "./destination.txt" = Some (written 4096 16384))
  | 1 :: _ => menu_main page_size choices w = Undef \/ exists status, menu_main page_size choices w = Done ((status, []), w)
  | 2 :: _ | 3 :: _ | 4 :: _ => menu_main page_size choices w = Undef
  | 5 :: _ => menu_main page_size choices w = Done ((0, []), w)
  | _ :: _ => menu_main page_size choices w = Done ((1, []), w)
  end.
Proof.
  intros Hal Hc.
  assert (menu None choices defaults = Done (Go defaults) -> exists status l w', menu_main page_size choices w = Done ((status, l), w') /\
      (willing w -> status = 0) /\ (status = 0 \/ status = 1 /\ l = []) /\
      (status = 0 -> length l = 4%nat /\ files w' !! "./destination.txt" = Some (written 4096 16384))) as Hrun.
  { intros Hm. destruct (run_defaults page_size w Hal Hc) as (o & w' & H1 & Hq & Ho). unfold menu_main.
    erewrite cmd_bind_eq by (unfold lift; rewrite Hm; reflexivity). cbv beta iota. rewrite (cmd_bind_eq _ _ _ _ _ H1).
    destruct o as [l|]; [exists 0, l, w'|exists 1, [], w']; split_and!; auto; try done. intros Hw. by destruct (Hq Hw). }
  destruct choices as [|opt l]; [by apply Hrun|].
  assert (opt = 1 \/ opt <> 1) as [->|Hne] by lia.
  - pose proof (menu_null_file l (mkConfig None 4096 64 true true) eq_refl) as Hm.
    unfold menu_main, mbind, cmd_bind, lift. cbn [menu Z.eqb Pos.eqb block_size total_mb run_buffered run_direct defaults].
    destruct (menu None l _) as [[status|c]| |]; [right; by eexists| |by left|done].
    destruct (run_null_file page_size c w Hm) as [->| ->]; [by left|right; by eexists].
  - assert (opt = 2 \/ opt = 3 \/ opt = 4 \/ opt = 5 \/ opt = -1 \/
      (opt <> 2 /\ opt <> 3 /\ opt <> 4 /\ opt <> 5 /\ opt <> -1)) as [->|[->|[->|[->|[->|Hother]]]]] by lia; try done.
    + by apply Hrun.
    + assert (menu_main page_size (opt :: l) w = Done ((1, []), w)) as ->.
      { unfold menu_main, mbind, cmd_bind, lift. cbn [menu]. by rewrite !(proj2 (Z.eqb_neq opt _)) by lia. }
      destruct opt as [|[[[]|[]|]|[[]|[]|]|]|[]]; try done; lia.
Qed.

(** DirectVSbuffer.c, with a kernel that does all it is asked and a clock that is steady, for the
    block sizes for which it gets beyond its arguments (4096 when none is given) but 1: it allocates one
    byte for its last read, [posix_memalign(&rd_buffer, align, write_size != 0)], and reads a block into
    it.  (The reads before use numbers of descriptors that are closed; they work because the next [open]
    gives the same number.) *)
Theorem direct_read_overflows st_blksize page_size argv nm size w : arguments argv = Done (nm, size) -> 1 < size <= 67108864 ->
  aligned (align_of st_blksize page_size) = true -> willing w -> steady (clock w) ->
  main st_blksize page_size argv w = Undef.
Proof.
  intros Harg Hs Hal Hw Hc. destruct (first_free_exists w) as [fd Hfirst].
  eapply main_wrong; [exact Hfirst|exact Hal|exact Harg|exact Hs|exact Hw|by apply closed_start].
Qed.

(** a kernel that does all it is asked, with no files yet, and a clock that stands still *)
Definition start : world := mkWorld ∅ [] [] (fun _ => Some (mkTime 5 0)).

Lemma start_steady : steady (clock start).
Proof. intros n. split; [apply Z.le_refl|]. exists (mkTime 5 0). split; [done|]. cbn [tv_sec tv_nsec]. lia. Qed.

Lemma direct_read_overflows_witness : arguments ["bench"; "f"; "4096"; "64"] = Done ("f", 64) /\
  main 4096 4096 ["bench"; "f"; "4096"; "64"] start = Undef.
Proof.
  split; [vm_compute; reflexivity|].
  apply (direct_read_overflows 4096 4096 _ "f" 64); [vm_compute; reflexivity|lia|vm_compute; reflexivity|reflexivity|exact start_steady].
Defined.

Lemma menu_main_correct_witness : exists status l w', menu_main 4096 [-1] start = Done ((status, l), w') /\
  (willing start -> status = 0) /\ (status = 0 \/ status = 1 /\ l = []) /\
  (status = 0 -> length l = 4%nat /\ files w' !! "./destination.txt" = Some (written 4096 16384)).
Proof. apply (menu_main_correct 4096 [-1] start); [vm_compute; reflexivity|exact start_steady]. Defined.

(** a file that is open for writing *)
Definition opened : world := mkWorld {["f" := []]} [Some (mkDesc "f" 0 false true)] [] (fun _ => Some (mkTime 5 0)).

Lemma run_write_benchmark_correct_witness : exists o w', run_write_benchmark 3 [Some x41; Some x42] 2 1 opened = Done (o, w') /\ (willing opened -> is_Some o) /\
  match o with
  | None => True
  | Some st =>
      let times := samples (clock opened) 1 in
      min_ns st = foldl Z.min LLONG_MAX times /\ max_ns st = foldl Z.max 0 times /\ sum_ns st = foldl Z.add 0 times /\
      files w' = <["f" := [] ++ concat (replicate 1 [x41; x42])]> (files opened)
  end.
Proof. apply (run_write_benchmark_correct 3 _ 2 1 "f" false [] [x41; x42] opened); [exact start_steady|reflexivity|reflexivity|reflexivity|reflexivity]. Defined.
