(* ===== verification/FileMerge.v ===== *)
(** * Files that are read by threads and printed in the order of completion

    FILEIO/Task.c, over the kernel of Kernel.v.  Each thread writes only its own cell of the
    table, and what the kernel answers to its calls is arbitrary: so the threads are run one
    after the other, in any order.  [strdup] and [scanf] are taken to succeed; so few names
    or so long ones that the program would read or write what it must not are undefined.
    [getNanotime] calls clockGettime, which is not declared anywhere; it is taken as
    [clock_gettime].  [qsort] is an argument: a function that sorts. *)
From S2P Require Import Prelude CString ByteFile Kernel FileBench.

(** ** The program *)

Definition MAX_FILES : Z := 10.

(** what [content] points to: nothing, a string, or memory that was freed *)
Inductive content_ptr := Null | Text (s : bytes) | Freed.

Record FileResult := mkResult { FileName : string; content : content_ptr; completionTime : Z; size : nat }.

Definition getNanotime : cmd world Z :=
  ts ← clock_gettime;
  match ts with None => undef | Some ts => lift (timespec_to_ns ts) end.

(** the cell of the table that the thread leaves *)
Definition readFile (r : FileResult) : cmd world FileResult :=
  fd ← sys_open (FileName r) O_RDONLY;
  if fd <? 0 then mret r else
  st ← sys_fstat fd;
  match st with
  | None => sys_close fd;; mret r
  | Some st_size =>
      m ← malloc (Z.of_nat st_size + 1);
      match m with
      | None => sys_close fd;; mret (mkResult (FileName r) Null (completionTime r) st_size)
      | Some _ =>
          read_bytes ← sys_read fd st_size;
          match read_bytes with
          | None => sys_close fd;; mret (mkResult (FileName r) Freed (completionTime r) st_size)
          | Some s =>
              sys_close fd;;
              t ← getNanotime;
              mret (mkResult (FileName r) (Text s) t st_size)
          end
      end
  end.

Definition initial (name : string) : FileResult := mkResult name Null 0 0.

(** the threads, in the order in which they run *)
Fixpoint run_threads (order : list nat) (results : list FileResult) : cmd world (list FileResult) :=
  match order with
  | [] => mret results
  | i :: order =>
      r ← lift (of_option (results !! i));
      r ← readFile r;
      run_threads order (<[i := r]> results)
  end.

(** [compareResult] *)
Definition compareResult (fa fb : FileResult) : Z :=
  if completionTime fa <? completionTime fb then -1 else if completionTime fa >? completionTime fb then 1 else 0.

(** the loop that prints: NULL and freed memory must not be printed *)
Fixpoint print_files (results : list FileResult) : outcome (list (string * bytes)) :=
  match results with
  | [] => Done []
  | r :: results =>
      match content r with
      | Text s => rest ← print_files results; Done ((FileName r, c_text s) :: rest)
      | Null | Freed => Undef
      end
  end.

(** the paths that are typed, each read into 256 bytes *)
Fixpoint read_paths (n : nat) (names : list string) : outcome (list string) :=
  match n, names with
  | O, _ => Done []
  | S _, [] => Undef
  | S n, nm :: names => if (strlen nm <? 256)%nat then rest ← read_paths n names; Done (nm :: rest) else Undef
  end.

(** whether all threads are created *)
Fixpoint create_threads (n : nat) : cmd world bool :=
  match n with
  | O => mret true
  | S n => a ← next_answer; match a with Fail => mret false | _ => create_threads n end
  end.

Section merge.
Context (qsort : list FileResult -> list FileResult).

Definition merge_files (results : list FileResult) : outcome (list (string * bytes)) := print_files (qsort results).

(** the exit status and the output, for the names that are typed *)
Definition main (order : list nat) (file_count : Z) (names : list string) : cmd world (Z * list (string * bytes)) :=
  if (file_count <=? 0) || (file_count >? MAX_FILES) then mret (1, []) else
  names ← lift (read_paths (Z.to_nat file_count) names);
  created ← create_threads (length names);
  if negb created then mret (1, []) else
  results ← run_threads order (initial <$> names);
  out ← lift (merge_files results);
  mret (0, out).
End merge.

(** ** Lemmas *)

(** what [qsort] promises *)
Definition sorts (qsort : list FileResult -> list FileResult) : Prop :=
  forall l, qsort l ≡ₚ l /\ StronglySorted (fun a b => compareResult a b <= 0) (qsort l).

Lemma compare_le a b : compareResult a b <= 0 <-> completionTime a <= completionTime b.
Proof. unfold compareResult. zcases; lia. Qed.

(** a sorted permutation of a list with increasing keys is that list *)
Lemma sorted_unique (l1 l2 : list FileResult) : l1 ≡ₚ l2 -> StronglySorted (fun a b => compareResult a b <= 0) l1 ->
  StronglySorted (fun a b => completionTime a < completionTime b) l2 -> l1 = l2.
Proof.
  intros Hp H1 H2. revert l1 Hp H1. induction H2 as [|x l2 H2 IH Hx]; intros l1 Hp H1; [by apply Permutation_nil_r|].
  destruct l1 as [|y l1]; [by apply Permutation_nil_cons in Hp|]. apply StronglySorted_inv in H1 as [H1 Hy].
  rewrite Forall_forall in Hx, Hy. assert (y = x) as ->.
  { assert (y ∈ x :: l2) as [?|Hin]%elem_of_cons by (rewrite <- Hp; by left); [done|].
    assert (x ∈ y :: l1) as [?|Hin']%elem_of_cons by (rewrite Hp; by left); [done|].
    specialize (Hx y Hin). specialize (Hy x Hin'). apply compare_le in Hy. lia. }
  f_equal. apply IH; [|done]. by apply Permutation_cons_inv in Hp.
Qed.

(** a clock that is steady and goes on between the first readings *)
Definition ticking (k : nat) (c : nat -> option timespec) : Prop :=
  steady c /\ forall n, (n < k)%nat -> reading c n < reading c (S n).

Lemma ticking_tail k c : ticking (S k) c -> ticking k (fun n => c (S n)).
Proof. intros [Hs Hl]. split; [by apply steady_tail|]. intros n Hn. apply (Hl (S n)). lia. Qed.

(** a thread whose calls all succeed *)
Lemma readFile_ok r d w : willing w -> steady (clock w) -> files w !! FileName r = Some d ->
  exists w', readFile r w = Done (mkResult (FileName r) (Text d) (reading (clock w) 0) (length d), w') /\
    willing w' /\ files w' = files w /\ clock w' = fun n => clock w (S n).
Proof.
  intros Hq Hc Hf. unfold readFile. destruct (sys_open_cases (FileName r) O_RDONLY w) as (fd & w1 & H1 & Ho).
  rewrite (cmd_bind_eq _ _ _ _ _ H1). assert (open_files (FileName r) O_RDONLY (files w) = files w) as Hro by (unfold open_files; by rewrite Hf).
  destruct Ho as [w1 _ _ _ _ Hn|fd w1 (Hge & _) Hd1 _ Hf1 _ Ha1 Hc1]; [specialize (Hn Hq); congruence|].
  rewrite (proj2 (Z.ltb_ge _ _)) by lia. assert (willing w1) as Hq1 by (unfold willing in *; by rewrite Ha1, Hq).
  rewrite Hro in Hf1. rewrite (cmd_bind_eq _ _ _ _ _ (sys_fstat_willing fd _ w1 Hq1 Hd1)). cbn [d_file].
  rewrite Hf1, Hf. cbn [default from_option id].
  assert (malloc (Z.of_nat (length d) + 1) w1 = Done (Some (replicate (Z.to_nat (Z.of_nat (length d) + 1)) None), w1)) as Hm.
  { unfold malloc. by rewrite (cmd_bind_eq _ _ _ _ _ (next_answer_willing _ Hq1)). }
  rewrite (cmd_bind_eq _ _ _ _ _ Hm). destruct (sys_read_ok fd (length d) w1 (FileName r) 0 false Hd1) as (x & w2 & H2 & (_ & Ha2 & Hc2) & Hf2 & Hx).
  rewrite (cmd_bind_eq _ _ _ _ _ H2). destruct Hx as [(_ & _ & Hn)|(k & _ & _ & Hk & -> & _)]; [done|]. rewrite (Hk Hq1), Hf1, Hf.
  cbn [default from_option id drop]. rewrite firstn_all.
  destruct (sys_close_ok fd w2) as (w3 & H3 & Hf3 & Ha3 & Hc3 & _). rewrite (cmd_bind_eq _ _ _ _ _ H3).
  destruct (Hc 0%nat) as (_ & t & Ht & Hs & Hns). assert (clock w3 = clock w) as Hcw by (by rewrite Hc3, Hc2, Hc1).
  assert (getNanotime w3 = Done (ns_of t, mkWorld (files w3) (table w3) (answers w3) (fun n => clock w3 (S n)))) as Hg.
  { unfold getNanotime. erewrite cmd_bind_eq by reflexivity. rewrite Hcw, Ht. unfold lift. by rewrite timespec_to_ns_ok. }
  rewrite (cmd_bind_eq _ _ _ _ _ Hg). eexists. unfold reading. rewrite Ht. split; [reflexivity|].
  unfold willing in *. cbn [answers files clock]. rewrite Ha3, Ha2, Hq1, Hf3, Hf2, Hf1, Hcw. by split_and!.
Qed.

(** the threads, all of them, in an order *)
Lemma run_threads_ok order text results w : willing w -> ticking (length order) (clock w) -> NoDup order ->
  (forall i, i ∈ order -> exists r, results !! i = Some r /\ files w !! FileName r = Some (text (FileName r))) ->
  exists results' w', run_threads order results w = Done (results', w') /\ length results' = length results /\
    (forall i, i ∉ order -> results' !! i = results !! i) /\
    (forall i r, i ∈ order -> results !! i = Some r -> exists t, results' !! i = Some (mkResult (FileName r) (Text (text (FileName r))) t (length (text (FileName r)))) /\
       reading (clock w) 0 <= t) /\
    StronglySorted (fun a b => completionTime a < completionTime b) (omap (fun i => results' !! i) order).
Proof.
  revert results w. induction order as [|i order IH]; intros results w Hq Hc Hn Hall.
  { exists results, w. split_and!; [done|done|done|by intros i r ?%not_elem_of_nil|constructor]. }
  apply NoDup_cons in Hn as [Hi Hn]. destruct (Hall i) as (r & Hr & Hf); [by left|]. cbn [run_threads].
  erewrite cmd_bind_eq by (unfold lift; rewrite Hr; reflexivity).
  destruct (readFile_ok r _ w Hq (proj1 Hc) Hf) as (w1 & H1 & Hq1 & Hf1 & Hc1). rewrite (cmd_bind_eq _ _ _ _ _ H1).
  set (r' := mkResult _ _ _ _). pose proof Hc as [Hst Hlt].
  destruct (IH (<[i := r']> results) w1 Hq1) as (results' & w2 & H2 & Hl2 & Hout & Hin & Hsort); [rewrite Hc1; by apply ticking_tail|done| |].
  { intros j Hj. rewrite list_lookup_insert_ne by (intros ->; done). rewrite Hf1. apply Hall. by right. }
  exists results', w2. rewrite length_insert in Hl2. rewrite Hc1 in Hin.
  assert (results' !! i = Some r') as Hri by (rewrite Hout by done; apply list_lookup_insert_eq; by eapply lookup_lt_Some).
  assert (forall j x, j ∈ order -> results !! j = Some x -> exists t, results' !! j = Some (mkResult (FileName x) (Text (text (FileName x))) t
    (length (text (FileName x)))) /\ reading (clock w) 0 < t) as Hlater.
  { intros j x Hj Hx. destruct (Hin j x Hj) as (t & Ht & Hle); [by rewrite list_lookup_insert_ne by (intros ->; done)|].
    exists t. split; [done|]. specialize (Hlt 0%nat (Nat.lt_0_succ _)). unfold reading in *. lia. }
  split_and!; [done|done| | |].
  - intros j [Hne Hj]%not_elem_of_cons. rewrite Hout by done. by rewrite list_lookup_insert_ne.
  - intros j x [->|Hj]%elem_of_cons Hx.
    + rewrite Hr in Hx. injection Hx as <-. exists (reading (clock w) 0). split; [done|lia].
    + destruct (Hlater j x Hj Hx) as (t & Ht & Hle). exists t. split; [done|lia].
  - cbn. rewrite Hri. constructor; [done|]. apply Forall_forall. intros y (j & Hj & Hy)%list_elem_of_omap.
    destruct (Hall j) as (x & Hx & _); [by right|]. destruct (Hlater j x Hj Hx) as (t & Ht & Hle). rewrite Ht in Hy. by injection Hy as <-.
Qed.

Lemma omap_seq {A} (l : list A) : omap (fun i => l !! i) (seq 0 (length l)) = l.
Proof.
  assert (forall l1 l2 : list A, omap (fun i => (l1 ++ l2) !! i) (seq (length l1) (length l2)) = l2) as H; [|exact (H [] l)].
  intros l1 l2. revert l1. induction l2 as [|x l2 IH]; intros l1; [done|]. cbn [length seq]. cbn.
  rewrite list_lookup_middle by done. f_equal. specialize (IH (l1 ++ [x])). rewrite <- app_assoc, length_app, Nat.add_1_r in IH. exact IH.
Qed.

(** what is printed for results that have been read *)
Lemma print_files_ok order (names : list string) text (results : list FileResult) :
  (forall i, i ∈ order -> exists nm t, names !! i = Some nm /\ results !! i = Some (mkResult nm (Text (text nm)) t (length (text nm)))) ->
  print_files (omap (fun i => results !! i) order) = Done ((fun nm => (nm, c_text (text nm))) <$> omap (fun i => names !! i) order).
Proof.
  induction order as [|i order IH]; intros Hall; [done|]. destruct (Hall i) as (nm & t & Hn & Hr); [by left|]. cbn.
  rewrite Hn, Hr. cbn. rewrite IH; [done|]. intros j Hj. apply Hall. by right.
Qed.

Lemma print_files_undefined results r : r ∈ results -> (forall s, content r <> Text s) -> print_files results = Undef.
Proof.
  induction 1 as [r l|r x l Hr IH]; intros Hc; cbn [print_files].
  - destruct (content r) eqn:Hcr; try done. by destruct (Hc s).
  - destruct (content x); try done. by rewrite IH.
Qed.

Lemma read_paths_ok names : Forall (fun nm => strlen nm < 256)%nat names -> read_paths (length names) names = Done names.
Proof. induction 1 as [|nm names Hn _ IH]; [done|]. cbn [length read_paths]. rewrite (proj2 (Nat.ltb_lt _ _) Hn). by rewrite IH. Qed.

Lemma create_threads_ok n w : willing w -> create_threads n w = Done (true, w).
Proof.
  intros Hq. induction n as [|n IH]; [done|]. cbn [create_threads]. by rewrite (cmd_bind_eq _ _ _ _ _ (next_answer_willing _ Hq)).
Qed.

(** ** Properties *)

(** When the kernel does what it is asked and the clock goes on, and all files are there, the program
    prints each file once, up to its first NUL, in the order in which the threads finish, for every such
    order and every function that sorts. *)
Theorem merged_in_order qsort order names text w : sorts qsort -> willing w -> ticking (length names) (clock w) ->
  (0 < length names <= Z.to_nat MAX_FILES)%nat -> order ≡ₚ seq 0 (length names) ->
  Forall (fun nm => strlen nm < 256)%nat names -> Forall (fun nm => files w !! nm = Some (text nm)) names ->
  exists w', main qsort order (Z.of_nat (length names)) names w =
    Done ((0, (fun nm => (nm, c_text (text nm))) <$> omap (fun i => names !! i) order), w').
Proof.
  intros Hsort Hq Hc Hlen Hord Hshort Hall. unfold main, MAX_FILES in *.
  destruct (Z.leb_spec (Z.of_nat (length names)) 0); [lia|]. rewrite Z.gtb_ltb, (proj2 (Z.ltb_ge _ _)) by lia. cbn [orb].
  rewrite Nat2Z.id. erewrite cmd_bind_eq by (unfold lift; rewrite read_paths_ok by done; reflexivity).
  rewrite (cmd_bind_eq _ _ _ _ _ (create_threads_ok _ _ Hq)). cbn [negb]. rewrite Forall_forall in Hall.
  assert (forall i, i ∈ order -> exists nm, names !! i = Some nm) as Hnm.
  { intros i Hi. rewrite Hord in Hi. apply elem_of_seq in Hi. apply lookup_lt_is_Some_2. lia. }
  destruct (run_threads_ok order text (initial <$> names) w Hq) as (results & w1 & H1 & Hl & _ & Hin & Hss).
  { by rewrite Hord, length_seq. }
  { rewrite Hord. apply NoDup_seq. }
  { intros i Hi. destruct (Hnm i Hi) as [nm Hn]. exists (initial nm). rewrite list_lookup_fmap, Hn. split; [done|].
    cbn. by apply Hall, (list_elem_of_lookup_2 _ i). }
  rewrite (cmd_bind_eq _ _ _ _ _ H1). exists w1. rewrite length_fmap in Hl.
  assert (merge_files qsort results = print_files (omap (fun i => results !! i) order)) as Hm.
  { unfold merge_files. f_equal. destruct (Hsort results) as [Hp Hs]. apply sorted_unique; [|done|done].
    rewrite Hp. rewrite <- (omap_seq results) at 1. rewrite Hl. by rewrite Hord. }
  erewrite cmd_bind_eq; [reflexivity|]. unfold lift. rewrite Hm, (print_files_ok _ names text); [done|].
  intros i Hi. destruct (Hnm i Hi) as [nm Hn]. destruct (Hin i (initial nm) Hi) as (t & Ht & _); [by rewrite list_lookup_fmap, Hn|].
  exists nm, t. by split.
Qed.

Definition earlier (a b : FileResult) : Prop := compareResult a b <= 0.

#[local] Instance earlier_dec a b : Decision (earlier a b).
Proof. unfold earlier. apply _. Defined.

#[local] Instance earlier_trans : Transitive earlier.
Proof. intros a b c Ha%compare_le Hb%compare_le. apply compare_le. lia. Qed.

#[local] Instance earlier_total : Total earlier.
Proof. intros a b. unfold earlier. rewrite !compare_le. lia. Qed.

Definition by_time (l : list FileResult) : list FileResult := merge_sort earlier l.

Lemma by_time_sorts : sorts by_time.
Proof.
  intros l. split; [apply merge_sort_Permutation|]. apply (StronglySorted_merge_sort earlier).
Qed.

(** two files, of which the second is read first *)
Definition two_files : world :=
  mkWorld {["a" := String.list_byte_of_string "one"; "b" := String.list_byte_of_string "two"]} [] [] (fun n => Some (mkTime 0 (Z.of_nat (n `min` 2)))).

Lemma two_files_tick : ticking 2 (clock two_files).
Proof.
  split; unfold steady, reading; cbn [clock two_files]; unfold ns_of; cbn [tv_sec tv_nsec].
  - intros n. split; [lia|]. eexists. split; [done|]. cbn [tv_sec tv_nsec]. lia.
  - lia.
Qed.

Lemma merged_in_order_witness : exists w', main by_time [1%nat; 0%nat] 2 ["a"; "b"] two_files =
  Done ((0, [("b", String.list_byte_of_string "two"); ("a", String.list_byte_of_string "one")]), w').
Proof.
  apply (merged_in_order by_time [1%nat; 0%nat] ["a"; "b"] (fun nm => if streq nm "a" then String.list_byte_of_string "one" else String.list_byte_of_string "two") two_files).
  - apply by_time_sorts.
  - done.
  - exact two_files_tick.
  - unfold MAX_FILES. simpl. lia.
  - apply Permutation_swap.
  - repeat constructor; simpl; lia.
  - repeat constructor.
Defined.

(** A file that could not be opened, read or given memory makes the program print NULL or freed memory. *)
Theorem failed_file_undefined qsort results r : sorts qsort -> r ∈ results -> (forall s, content r <> Text s) ->
  merge_files qsort results = Undef.
Proof.
  intros Hsort Hr Hc. apply print_files_undefined with r; [|done]. destruct (Hsort results) as [Hp _]. by rewrite Hp.
Qed.
