(* ===== verification/AsyncIO.v ===== *)
(** * Writes that complete in any order

    FILEIO/POSIX.c hands the blocks of a file to [aio_write] and waits for all of them.  The
    kernel carries the requests out when and in the order it likes: a run is a list of events
    of the program and of the kernel.  FILEIO/IO_uring.c writes the blocks one by one through
    the ring of liburing, whose functions are a parameter with what is documented of them. *)
From S2P Require Import Prelude CString Numbers ByteFile Kernel FileBench.

(** ** FILEIO/POSIX.c: the requests *)

(** where the program is: before a call of [aio_write], waiting for a request with so many
    failures before, or at one of its ends *)
Inductive control := Issue (i : nat) | Await (i failures : nat) | Finished (failures : nat) | Refused.

(** a request is in progress ([None]), or it has returned -1 or a number of bytes *)
Record state := mkState { at_ : control; requests : list (option (option nat)); contents : bytes }.

(** The program goes on (and [aio_write], if it is called, accepts), [aio_write] refuses, or
    the kernel ends a request, with that many bytes written. *)
Inductive event := Continue | Refuse | Complete (k : nat) (written : option nat).

Section aio.
Context (block : bytes) (iterations : nat).

Definition continue_ (s : state) : option state :=
  match at_ s with
  | Issue i =>
      if (i <? iterations)%nat then Some (mkState (Issue (S i)) (requests s ++ [None]) (contents s))
      else Some (mkState (Await 0 0) (requests s) (contents s))
  | Await i e =>
      if (i <? iterations)%nat then
        match requests s !! i with
        | Some (Some ret) => Some (mkState (Await (S i) (match ret with None => S e | Some _ => e end)) (requests s) (contents s))
        | _ => None   (* the loop spins while it is in progress *)
        end
      else Some (mkState (Finished e) (requests s) (contents s))
  | Finished _ | Refused => None
  end.

Definition refuse (s : state) : option state :=
  match at_ s with
  | Issue i => if (i <? iterations)%nat then Some (mkState Refused (requests s) (contents s)) else None
  | _ => None
  end.

(** the offset is [write_size * k]; after the end the memory of the block is gone *)
Definition complete (k : nat) (written : option nat) (s : state) : option state :=
  match at_ s, requests s !! k with
  | (Issue _ | Await _ _), Some None =>
      match written with
      | None => Some (mkState (at_ s) (<[k := Some None]> (requests s)) (contents s))
      | Some m =>
          if (m <=? length block)%nat
          then Some (mkState (at_ s) (<[k := Some (Some m)]> (requests s)) (write_at (k * length block) (take m block) (contents s)))
          else None
      end
  | _, _ => None
  end.

Definition exec (e : event) : state -> option state :=
  match e with Continue => continue_ | Refuse => refuse | Complete k written => complete k written end.

Fixpoint run (events : list event) (s : state) : option state :=
  match events with [] => Some s | e :: events => s' ← exec e s; run events s' end.
End aio.

(** ** FILEIO/POSIX.c: the program *)

(** the file name, the number of megabytes and the size of a block *)
Definition posix_arguments (argv : list string) : outcome (string * Z * Z) :=
  total_mb ← match argv !! 1%nat with Some s => atoi s | None => Done 2 end;
  write_size ← match argv !! 3%nat with Some s => z ← atoi s; Done (u64 z) | None => Done 4096 end;
  Done (default "/tmp/aio_demo.bin" (argv !! 2%nat), total_mb, write_size).

(** [size_t total_bytes = total_mb * 1024 * 1024], in [int] *)
Definition posix_total (total_mb : Z) : outcome Z :=
  kb ← int_chk (total_mb * 1024); bytes ← int_chk (kb * 1024); Done (u64 bytes).

Definition calloc : cmd world (option unit) :=
  a ← next_answer; mret match a with Fail => None | _ => Some tt end.

(** a reading that must be there *)
Definition read_clock : cmd world timespec :=
  t ← clock_gettime; match t with None => undef | Some t => mret t end.

(** the loops over the requests, for a schedule; the number of failures *)
Definition write_all (nm : string) (block : bytes) (iterations : nat) (events : list event) : cmd world (option nat) :=
  w ← get;
  match run block iterations events (mkState (Issue 0) [] (default [] (files w !! nm))) with
  | None => no_fuel
  | Some s =>
      modify (fun w => mkWorld (<[nm := contents s]> (files w)) (table w) (answers w) (clock w));;
      match at_ s with
      | Finished e => mret (Some e)
      | Refused => mret None
      | Issue _ | Await _ _ => no_fuel
      end
  end.

(** [None] for the exit status 1; the failures and the time *)
Definition posix_main (argv : list string) (events : list event) : cmd world (option (nat * Z)) :=
  p ← lift (posix_arguments argv);
  let '(nm, total_mb, write_size) := p in
  total_bytes ← lift (posix_total total_mb);
  if write_size =? 0 then undef else
  let iterations := total_bytes / write_size in
  if iterations =? 0 then mret None else
  fd ←? open_or_exit nm O_WRONLY_CREAT_TRUNC;
  buffer ←? malloc write_size;
  buffer ← lift (fill_pattern buffer write_size);
  _ ←? calloc;
  tstart ← read_clock;
  block ← lift (FileBench.contents buffer write_size);
  failures ←? write_all nm block (Z.to_nat iterations) events;
  tend ← read_clock;
  elapsed ← lift (diff_ns tstart tend);
  sys_close fd;;
  mret (Some (failures, elapsed)).

(** ** FILEIO/IO_uring.c *)

(** The functions of liburing that the program calls, on a ring: whether there is an entry for
    a request, an entry filled with a write, [submit], the result of the next request (if
    [wait_cqe] finds one), [cqe_seen] and the end.  The laws hold for a kernel that does what it
    is asked: a ring goes from idle over ready, prepared, submitted and done to idle again. *)
Class Uring := {
  ring : Type;
  io_uring_queue_init : Z -> cmd world (option ring);
  io_uring_get_sqe : ring -> cmd world (bool * ring);
  io_uring_prep_write : Z -> bytes -> Z -> ring -> ring;
  io_uring_submit : ring -> cmd world ring;
  io_uring_wait_cqe : ring -> cmd world (option Z * ring);
  io_uring_cqe_seen : ring -> ring;
  io_uring_queue_exit : ring -> cmd world unit }.

Class UringLaws `{Uring} := {
  idle : ring -> Prop; ready : ring -> Prop; done_ : ring -> Prop;
  prepared : ring -> Z -> bytes -> Z -> Prop; submitted : ring -> Z -> bytes -> Z -> Prop;
  queue_init_law depth w : willing w -> exists r, io_uring_queue_init depth w = Done (Some r, w) /\ idle r;
  get_sqe_law r w : idle r -> exists r', io_uring_get_sqe r w = Done ((true, r'), w) /\ ready r';
  prep_write_law r fd d off : ready r -> prepared (io_uring_prep_write fd d off r) fd d off;
  submit_law r fd d off w : prepared r fd d off -> willing w ->
    exists r', io_uring_submit r w = Done (r', w) /\ submitted r' fd d off;
  wait_law r fd nm pos rd d off w : submitted r fd d off -> willing w -> 0 <= off -> desc_of w fd = Some (mkDesc nm pos rd true) ->
    exists r', io_uring_wait_cqe r w = Done ((Some (Z.of_nat (length d)), r'),
      mkWorld (<[nm := write_at (Z.to_nat off) d (default [] (files w !! nm))]> (files w)) (table w) (answers w) (clock w)) /\ done_ r';
  seen_law r : done_ r -> idle (io_uring_cqe_seen r);
  queue_exit_law r w : idle r -> io_uring_queue_exit r w = Done (tt, w) }.

Definition DEFAULT_FILE : string := "/tmp/simple_io_uring.bin".
Definition DEFAULT_BLOCK_SIZE : Z := 4096.
Definition DEFAULT_TOTAL_MB : Z := 64.
Definition QUEUE_DEPTH : Z := 64.

Fixpoint fill_from (n : nat) (i : Z) (buffer : cells) : outcome cells :=
  match n with
  | O => Done buffer
  | S n => buffer ← arr_set buffer i (Some (byte_of (Z.rem i 256))); fill_from n (i + 1) buffer
  end.

Definition FillBuffer (buffer : cells) (size : Z) : outcome cells := fill_from (Z.to_nat size) 0 buffer.

Definition TimeDiffNS (start end_ : timespec) : outcome Z :=
  s ← ll_chk (tv_sec end_ - tv_sec start); x ← ll_chk (s * 1000000000); y ← ll_chk (tv_nsec end_ - tv_nsec start); ll_chk (x + y).

Section uring.
Context `{Uring}.

Definition SetupUring : cmd world (option ring) := io_uring_queue_init QUEUE_DEPTH.

(** the time, or -1; an entry or a result that is not there must not be used *)
Definition perform (r : ring) (fd : Z) (buffer : cells) (size offset : Z) : cmd world (Z * ring) :=
  p ← io_uring_get_sqe r;
  if negb p.1 then undef else
  d ← lift (FileBench.contents buffer size);
  let r := io_uring_prep_write fd d offset p.2 in
  start ← read_clock;
  r ← io_uring_submit r;
  p ← io_uring_wait_cqe r;
  end_ ← read_clock;
  match p.1 with
  | None => undef
  | Some res =>
      let r := io_uring_cqe_seen p.2 in
      if res <? 0 then mret (-1, r) else ns ← lift (TimeDiffNS start end_); mret (ns, r)
  end.

(** the loop over the blocks from [i] on *)
Fixpoint perform_all (n : nat) (i : Z) (r : ring) (fd : Z) (buffer : cells) (block_size total_ns : Z) : cmd world (Z * ring) :=
  match n with
  | O => mret (total_ns, r)
  | S n =>
      offset ← lift (int_chk (i * block_size));
      p ← perform r fd buffer block_size offset;
      if p.1 <? 0 then mret (total_ns, p.2) else
      total ← lift (ll_chk (total_ns + p.1));
      perform_all n (i + 1) p.2 fd buffer block_size total
  end.

(** when it fails, the descriptor is closed before the function returns *)
Definition or_close {A} (fd : Z) (m : cmd world (option A)) : cmd world (option A) :=
  o ← m; match o with None => sys_close fd;; mret None | Some x => mret (Some x) end.

(** the total time that the average is computed from, if the benchmark is run *)
Definition run_write_benchmark (filename : string) (block_size total_mb : Z) : cmd world (option Z) :=
  kb ← lift (int_chk (total_mb * 1024));
  total_bytes ← lift (int_chk (kb * 1024));
  if block_size =? 0 then undef else
  let iterations := Z.quot total_bytes block_size in
  fd ←? open_or_exit filename O_WRONLY_CREAT_TRUNC;
  buffer ←? or_close fd (malloc block_size);
  buffer ← lift (FillBuffer buffer block_size);
  r ←? or_close fd SetupUring;
  p ← perform_all (Z.to_nat iterations) 0 r fd buffer block_size 0;
  io_uring_queue_exit p.2;;
  sys_close fd;;
  mret (Some p.1).

(** the menu, for the numbers that are typed; without a number the loop goes on forever *)
Fixpoint uring_main (choices : list Z) : cmd world (list (option Z)) :=
  match choices with
  | [] => no_fuel
  | choice :: choices =>
      if choice =? 1 then
        o ← run_write_benchmark DEFAULT_FILE DEFAULT_BLOCK_SIZE DEFAULT_TOTAL_MB;
        l ← uring_main choices; mret (o :: l)
      else if choice =? 2 then mret [] else uring_main choices
  end.
End uring.

(** ** Lemmas: writes in any order *)

(** what is written is there *)
Lemma lookup_write_at_in off src f j : (j < length src)%nat -> write_at off src f !! (off + j)%nat = src !! j.
Proof.
  intros Hj. assert (length (take off (f ++ replicate (off - length f) x00)) = off) as Hl.
  { rewrite length_take, length_app, length_replicate. lia. }
  unfold write_at. rewrite lookup_app_r by lia. rewrite Hl, lookup_app_l by lia. f_equal. lia.
Qed.

(** and what was there elsewhere is kept *)
Lemma lookup_write_at_out off src f j b : (j < off \/ off + length src <= j)%nat -> f !! j = Some b -> write_at off src f !! j = Some b.
Proof.
  intros Hj Hf. pose proof (lookup_lt_Some _ _ _ Hf) as Hlt.
  assert (length (take off (f ++ replicate (off - length f) x00)) = off) as Hl.
  { rewrite length_take, length_app, length_replicate. lia. }
  unfold write_at. destruct (decide (j < off)%nat).
  - rewrite lookup_app_l by lia. rewrite lookup_take_lt by done. by rewrite lookup_app_l.
  - rewrite lookup_app_r by lia. rewrite Hl, lookup_app_r by lia. rewrite lookup_drop. rewrite <- Hf. f_equal. lia.
Qed.

(** a file that is known block by block *)
Lemma blocks_concat (block f : bytes) n : length f = (n * length block)%nat ->
  (forall k j, (k < n)%nat -> (j < length block)%nat -> f !! (k * length block + j)%nat = block !! j) ->
  f = concat (replicate n block).
Proof.
  revert f. induction n as [|n IH]; intros f Hl Hb; [by apply nil_length_inv|]. cbn [replicate concat].
  rewrite <- (take_drop (length block) f). f_equal.
  - apply list_eq_same_length with (length block); [done|rewrite length_take, Hl; lia|].
    intros j x y Hj Hx Hy. rewrite lookup_take_lt in Hx by done. specialize (Hb 0%nat j ltac:(lia) Hj). cbn [Nat.mul Nat.add] in Hb. congruence.
  - apply IH; [rewrite length_drop; lia|]. intros k j Hk Hj. rewrite lookup_drop. rewrite <- (Hb (S k) j); [f_equal; lia|lia|done].
Qed.

(** ** Lemmas: the runs *)

Section runs.
Context (block : bytes) (iterations : nat).
#[local] Abbreviation n := (length block).

Definition returned (s : state) (k : nat) : Prop := exists r, requests s !! k = Some (Some r).

(** where the program is tells which requests are there, and which have returned *)
Definition orderly (s : state) : Prop :=
  match at_ s with
  | Issue i => length (requests s) = i /\ (i <= iterations)%nat
  | Await i _ => length (requests s) = iterations /\ (i <= iterations)%nat /\ forall k, (k < i)%nat -> returned s k
  | Finished _ => length (requests s) = iterations /\ forall k, (k < iterations)%nat -> returned s k
  | Refused => (length (requests s) <= iterations)%nat
  end.

Lemma returned_complete s k k' r c f : returned s k' -> requests s !! k = Some None ->
  returned (mkState c (<[k := Some r]> (requests s)) f) k'.
Proof. intros [r' Hr] Hk. exists r'. cbn. rewrite list_lookup_insert_ne; [done|]. intros ->. congruence. Qed.

Lemma orderly_complete s k r f : orderly s -> requests s !! k = Some None -> orderly (mkState (at_ s) (<[k := Some r]> (requests s)) f).
Proof.
  unfold orderly. destruct s as [c rs f0]. cbn [at_ requests]. intros Ho Hk. rewrite length_insert.
  destruct c as [i|i e|e|]; [done| | |done].
  - destruct Ho as (Hl & Hi & Hr). split_and!; [done|done|]. intros k' Hk'. by apply (returned_complete (mkState (Await i e) rs f0)), Hk; apply Hr.
  - destruct Ho as (Hl & Hr). split; [done|]. intros k' Hk'. by apply (returned_complete (mkState (Finished e) rs f0)), Hk; apply Hr.
Qed.

Lemma orderly_exec e s s' : orderly s -> exec block iterations e s = Some s' -> orderly s'.
Proof.
  intros Ho. destruct e as [| |k w]; cbn [exec].
  - unfold continue_. destruct s as [[i|i e|e|] rs f]; cbn [at_ requests contents] in *; unfold orderly in *; cbn [at_ requests] in *; try done.
    + destruct Ho as [Hl Hi]. destruct (Nat.ltb_spec i iterations); intros [= <-]; cbn [at_ requests].
      * rewrite length_app. simpl. lia.
      * split_and!; [lia|lia|]. intros k Hk. lia.
    + destruct Ho as (Hl & Hi & Hr). destruct (Nat.ltb_spec i iterations).
      * destruct (rs !! i) as [[r|]|] eqn:Hri; [|done|done]. intros [= <-]. cbn [at_ requests]. split_and!; [done|lia|].
        intros k Hk. destruct (decide (k = i)) as [->|]; [by exists r|]. apply Hr. lia.
      * intros [= <-]. cbn [at_ requests]. split; [done|]. intros k Hk. apply Hr. lia.
  - unfold refuse. destruct s as [[i|i e|e|] rs f]; cbn [at_ requests contents]; try done. destruct (Nat.ltb_spec i iterations); [|done].
    intros [= <-]. unfold orderly in *. cbn [at_ requests] in *. lia.
  - unfold complete. destruct (at_ s) as [i|i e|e|] eqn:Hat; try done;
      (destruct (requests s !! k) as [[r|]|] eqn:Hk; try done; destruct w as [m|]; [destruct (m <=? n)%nat; [|done]|]; intros [= <-];
       rewrite <- Hat; by apply orderly_complete).
Qed.

Definition pending_dec (x y : option (option nat)) : {x = y} + {x <> y} := decide (x = y).

(** steps that are left: of the program, and of the kernel *)
Definition steps_left (s : state) : nat :=
  count_occ pending_dec (requests s) None +
  match at_ s with
  | Issue i => 2 * (iterations - i) + iterations + 3
  | Await i _ => iterations - i + 2
  | Finished _ => 1
  | Refused => 0
  end.

Lemma pending_insert rs k (r : option nat) : rs !! k = Some None ->
  count_occ pending_dec rs None = S (count_occ pending_dec (<[k := Some r]> rs) None).
Proof.
  revert k. induction rs as [|x rs IH]; intros [|k] Hk; [done|done| |]; simpl in *.
  - by injection Hk as ->.
  - rewrite (IH k Hk). by destruct x.
Qed.

Lemma steps_left_exec e s s' : exec block iterations e s = Some s' -> (steps_left s' < steps_left s)%nat.
Proof.
  destruct e as [| |k w]; cbn [exec].
  - unfold continue_, steps_left. destruct s as [[i|i e|e|] rs f]; cbn [at_ requests contents]; try done.
    + destruct (Nat.ltb_spec i iterations); intros [= <-]; cbn [at_ requests]; [|lia]. rewrite count_occ_app. simpl. lia.
    + destruct (Nat.ltb_spec i iterations); [|intros [= <-]; cbn [at_ requests]; lia].
      destruct (rs !! i) as [[r|]|]; [|done|done]. intros [= <-]. cbn [at_ requests]. lia.
  - unfold refuse, steps_left. destruct s as [[i|i e|e|] rs f]; cbn [at_ requests contents]; try done. destruct (Nat.ltb_spec i iterations); [|done].
    intros [= <-]. cbn [at_ requests]. lia.
  - unfold complete, steps_left. destruct (requests s !! k) as [[r|]|] eqn:Hk; try by destruct (at_ s).
    destruct (at_ s) eqn:Hat; try done; (destruct w as [m|]; [destruct (m <=? n)%nat; [|done]|]; intros [= <-]; cbn [at_ requests];
      rewrite ?Hat; match goal with |- context [<[k := Some ?r]> _] => rewrite (pending_insert _ k r Hk) end; lia).
Qed.

(** a program that is not at an end can go on, at the latest when the kernel has written a block *)
Lemma can_go_on s : orderly s -> match at_ s with Issue _ | Await _ _ => True | _ => False end ->
  exists e s', (e = Continue \/ exists k, e = Complete k (Some n)) /\ exec block iterations e s = Some s'.
Proof.
  intros Ho Hat. destruct s as [[i|i e|e|] rs f]; cbn [at_] in Hat; try done.
  - exists Continue. cbn [exec]. unfold continue_. cbn [at_]. destruct (i <? iterations)%nat; (eexists; split; [by left|reflexivity]).
  - destruct Ho as (Hl & Hi & Hr). cbn [at_ requests] in *. destruct (decide (i < iterations)%nat) as [Hlt|Hge].
    + destruct (rs !! i) as [[r|]|] eqn:Hri; [| |apply lookup_ge_None in Hri; lia].
      * exists Continue. cbn [exec]. unfold continue_. cbn [at_ requests]. rewrite (proj2 (Nat.ltb_lt _ _) Hlt), Hri. eexists. split; [by left|reflexivity].
      * exists (Complete i (Some n)). cbn [exec]. unfold complete. cbn [at_ requests]. rewrite Hri, Nat.leb_refl. eexists. split; [right; by eexists|done].
    + exists Continue. cbn [exec]. unfold continue_. cbn [at_]. rewrite (proj2 (Nat.ltb_ge _ _)) by lia. eexists. split; [by left|reflexivity].
Qed.

Lemma orderly_run events s s' : orderly s -> run block iterations events s = Some s' -> orderly s'.
Proof.
  revert s. induction events as [|e events IH]; intros s Ho; cbn [run]; [by intros [= <-]|].
  destruct (exec block iterations e s) as [s1|] eqn:He; [|done]. cbn. apply IH. by eapply orderly_exec.
Qed.

Lemma run_length events s s' : run block iterations events s = Some s' -> (length events + steps_left s' <= steps_left s)%nat.
Proof.
  revert s. induction events as [|e events IH]; intros s; cbn [run]; [by intros [= <-]|].
  destruct (exec block iterations e s) as [s1|] eqn:He; [|done]. cbn. intros H%IH. apply steps_left_exec in He. lia.
Qed.

Lemma run_app events1 events2 s : run block iterations (events1 ++ events2) s = s' ← run block iterations events1 s; run block iterations events2 s'.
Proof.
  revert s. induction events1 as [|e events1 IH]; intros s; [done|]. cbn [app run]. destruct (exec block iterations e s) as [s1|]; [apply IH|done].
Qed.

(** events in which every request is accepted and written as a whole *)
Definition whole (e : event) : Prop :=
  match e with Continue => True | Refuse => False | Complete _ w => w = Some n end.

(** what is in the file then: the blocks whose requests have returned *)
Definition intact (s : state) : Prop :=
  match at_ s with Issue _ => True | Await _ e | Finished e => e = 0%nat | Refused => False end /\
  (length (contents s) <= iterations * n)%nat /\
  forall k r, requests s !! k = Some (Some r) -> r = Some n /\
    forall j, (j < n)%nat -> contents s !! (k * n + j)%nat = block !! j.

Lemma intact_complete s k : orderly s -> intact s -> requests s !! k = Some None ->
  intact (mkState (at_ s) (<[k := Some (Some n)]> (requests s)) (write_at (k * n) (take n block) (contents s))).
Proof.
  intros Ho (Hat & Hl & Hb) Hk. rewrite firstn_all. unfold intact. cbn [at_ requests contents]. split; [done|]. split.
  - rewrite length_write_at. assert (k < iterations)%nat; [|nia]. apply lookup_lt_Some in Hk.
    unfold orderly in Ho. destruct (at_ s); lia.
  - intros k' r Hr. destruct (decide (k' = k)) as [->|Hne].
    + rewrite list_lookup_insert_eq in Hr by (by eapply lookup_lt_Some). injection Hr as <-. split; [done|].
      intros j Hj. by apply lookup_write_at_in.
    + rewrite list_lookup_insert_ne in Hr by done. destruct (Hb k' r Hr) as [-> Hbk]. split; [done|]. intros j Hj.
      destruct (lookup_lt_is_Some_2 block j Hj) as [b Hbj]. rewrite Hbj. apply lookup_write_at_out; [|by rewrite Hbk].
      destruct (decide (k' < k)%nat); [left|right]; nia.
Qed.

Lemma intact_exec e s s' : whole e -> orderly s -> intact s -> exec block iterations e s = Some s' -> intact s'.
Proof.
  intros Hw Ho Hi. destruct e as [| |k w]; cbn [exec]; [|done|].
  - unfold continue_. destruct Hi as (Hat & Hl & Hb). unfold intact. destruct s as [[i|i e|e|] rs f]; cbn [at_ requests contents] in *; try done.
    + destruct (i <? iterations)%nat; intros [= <-]; cbn [at_ requests contents]; [|by split_and!].
      split_and!; [done|done|]. intros k r [Hr|[_ Hr]]%lookup_app_Some; [by apply Hb|]. by destruct (k - length rs)%nat.
    + destruct (i <? iterations)%nat; [|intros [= <-]; by split_and!].
      destruct (rs !! i) as [[r|]|] eqn:Hri; [|done|done]. intros [= <-]. cbn [at_ requests contents].
      destruct (Hb i r Hri) as [-> _]. by split_and!.
  - cbn in Hw. subst w. unfold complete. destruct (requests s !! k) as [[r|]|] eqn:Hk; try by destruct (at_ s).
    pose proof (intact_complete s k Ho Hi Hk) as Hc. rewrite Nat.leb_refl. destruct (at_ s) eqn:Hat; try done; by intros [= <-].
Qed.

Lemma intact_run events s s' : Forall whole events -> orderly s -> intact s -> run block iterations events s = Some s' -> intact s'.
Proof.
  intros Hw. revert s. induction Hw as [|e events He _ IH]; intros s Ho Hi; cbn [run]; [by intros [= <-]|].
  destruct (exec block iterations e s) as [s1|] eqn:Hs; [|done]. cbn. apply IH; [by eapply orderly_exec|by eapply intact_exec].
Qed.

Lemma orderly_start f : orderly (mkState (Issue 0) [] f).
Proof. split; [done|lia]. Qed.

(** the file at the end *)
Lemma intact_finished s e : orderly s -> intact s -> at_ s = Finished e -> e = 0%nat /\ contents s = concat (replicate iterations block).
Proof.
  unfold orderly, intact. intros Ho Hi Hat. rewrite Hat in *. destruct Ho as [Hl Hr], Hi as (He & Hlen & Hb). split; [done|].
  assert (forall k j, (k < iterations)%nat -> (j < n)%nat -> contents s !! (k * n + j)%nat = block !! j) as Hall.
  { intros k j Hk Hj. destruct (Hr k Hk) as [r Hkr]. by apply (Hb k r Hkr). }
  apply blocks_concat; [|done]. destruct (decide (iterations * n = 0)%nat) as [Hz|Hnz]; [lia|].
  assert (exists x, contents s !! ((iterations - 1) * n + (n - 1))%nat = Some x) as [x Hx].
  { rewrite Hall by nia. apply lookup_lt_is_Some_2. nia. }
  apply lookup_lt_Some in Hx. nia.
Qed.

Lemma not_refused e s s' : whole e -> at_ s <> Refused -> exec block iterations e s = Some s' -> at_ s' <> Refused.
Proof.
  intros Hw Hs. destruct e as [| |k w]; cbn [exec]; [|done|].
  - unfold continue_. destruct (at_ s); try done; (destruct (i <? iterations)%nat; [|by intros [= <-]]).
    + by intros [= <-].
    + destruct (requests s !! i) as [[r|]|]; try done. by intros [= <-].
  - unfold complete. destruct (requests s !! k) as [[r|]|]; try by destruct (at_ s).
    destruct (at_ s) eqn:Hat; try done; (destruct w as [m|]; [destruct (m <=? n)%nat; [|done]|]; intros [= <-]; cbn [at_]; congruence).
Qed.

(** from everywhere but a refusal the end can be reached, with whole writes only *)
Lemma can_finish s : orderly s -> at_ s <> Refused -> exists events s' e, Forall whole events /\
  run block iterations events s = Some s' /\ at_ s' = Finished e.
Proof.
  induction s as [s IH] using (induction_ltof1 _ steps_left). intros Ho Hat.
  destruct (at_ s) eqn:Hs; try done.
  3:{ exists [], s, failures. by split_and!. }
  all: destruct (can_go_on s Ho) as (e & s1 & He & H1); [by rewrite Hs|];
    assert (whole e) as Hw by (destruct He as [->|[k ->]]; done);
    (destruct (IH s1) as (events & s2 & x & Hws & Hr & Hx);
      [by eapply steps_left_exec|by eapply orderly_exec|eapply not_refused; [exact Hw| |exact H1]; by rewrite Hs|]);
    exists (e :: events), s2, x; (split_and!; [by constructor| |done]); cbn [run]; rewrite H1; exact Hr.
Qed.
End runs.

(** ** Lemmas: the program *)

Definition start : state := mkState (Issue 0) [] [].

Lemma posix_total_ok mb : 0 < mb < 2048 -> posix_total mb = Done (mb * 1048576).
Proof.
  intros H. unfold posix_total. rewrite int_chk_ok by (unfold int_min, int_max; lia). cbn [mbind outcome_bind].
  rewrite int_chk_ok by (unfold int_min, int_max; lia). cbn [mbind outcome_bind]. unfold u64. rewrite Z.mod_small by lia. f_equal. lia.
Qed.

(** a reading that is not later than the next ones *)
Definition read_before (t : timespec) (P : world -> Prop) (w : world) : Prop :=
  (0 <= tv_sec t < 2 ^ 33 /\ 0 <= tv_nsec t < 1000000000 /\ ns_of t <= reading (clock w) 0) /\ P w.

Section phases.
Context (w0 : world) (fd : Z) (Hfirst : first_free w0 fd) (nm : string).

Lemma read_clock_ok w : steady (clock w) -> exists t w', read_clock w = Done (t, w') /\ clock w 0%nat = Some t /\
  0 <= tv_sec t < 2 ^ 33 /\ 0 <= tv_nsec t < 1000000000 /\ w' = mkWorld (files w) (table w) (answers w) (fun k => clock w (S k)).
Proof.
  intros Hc. destruct (Hc 0%nat) as (_ & t & Ht & Hs & Hns). eexists t, _. unfold read_clock, clock_gettime, mbind, cmd_bind. rewrite Ht.
  split; [reflexivity|]. by repeat (split; [done|]).
Qed.

Lemma phase_clock {B} f rd wr (k : timespec -> cmd world (option B)) R :
  (forall t, phase (read_before t (is_open w0 fd nm f rd wr)) (k t) R) -> phase (is_open w0 fd nm f rd wr) (t ← read_clock; k t) R.
Proof using Type.
  intros Hk. apply phase_bind with (Q := fun t => read_before t (is_open w0 fd nm f rd wr)); [|done].
  intros w ((Hc & Hr & Hsb) & Hf & Hd). destruct (read_clock_ok w Hc) as (t & w' & H1 & Ht & Hs & Hns & ->). eexists t, _.
  split; [exact H1|]. split; [done|]. assert (reading (clock w) 0 = ns_of t) as Hrt by (unfold reading; by rewrite Ht).
  pose proof (Hc 0%nat) as [Hle _]. unfold read_before, is_open, sane. cbn [clock files]. unfold reading in *.
  split_and!; try done; try lia. by apply steady_tail.
Qed.

Lemma phase_calloc P : stable P -> phase P calloc (fun _ => P).
Proof using Type.
  intros HP w Hw. unfold calloc, next_answer, mbind, cmd_bind, mret, cmd_ret. eexists _, _. split; [reflexivity|]. unfold willing. split.
  - intros ->. simpl. split; [by eexists|done].
  - destruct (default Whole (head (answers w))); try done; by apply HP.
Qed.

Lemma phase_write_all t block n events s e : Forall (whole block) events -> run block n events start = Some s -> at_ s = Finished e ->
  phase (read_before t (is_open w0 fd nm [] false true)) (write_all nm block n events)
    (fun f w => f = 0%nat /\ read_before t (is_open w0 fd nm (concat (replicate n block)) false true) w).
Proof using Type.
  intros Hw Hr Hat w (Ht & (Hc & Hp & Hsb) & Hf & Hd).
  destruct (intact_finished block n s e) as [-> Hcon]; [| |done|].
  { eapply orderly_run; [|exact Hr]. apply orderly_start. }
  { eapply intact_run; [exact Hw| | |exact Hr]; [apply orderly_start|]. by split_and!; [| cbn; lia |]. }
  unfold write_all, get, modify, mbind, cmd_bind, mret, cmd_ret. rewrite Hf. cbn [default from_option id].
  change (mkState (Issue 0) [] []) with start. rewrite Hr, Hat.
  eexists (Some 0%nat), _. split; [reflexivity|]. split; [by split|]. split; [done|]. split; [done|].
  unfold is_open, sane. cbn [clock files]. rewrite lookup_insert_eq, Hcon. by split_and!.
Qed.

Lemma phase_end t f g : phase (read_before t (is_open w0 fd nm f false true))
  (tend ← read_clock; elapsed ← lift (diff_ns t tend); sys_close fd;; mret (Some (g, elapsed) : option (nat * Z)))
  (fun r w => (r.1 = g /\ 0 <= r.2) /\ files w !! nm = Some f).
Proof using Type.
  intros w ((Hs & Hns & Hle) & (Hc & Hp & Hsb) & Hf & Hd). destruct (read_clock_ok w Hc) as (t1 & w1 & H1 & Ht1 & Hs1 & Hns1 & ->).
  rewrite (cmd_bind_eq _ _ _ _ _ H1). assert (ns_of t <= ns_of t1) as Hlt by (unfold reading in Hle; by rewrite Ht1 in Hle).
  assert (diff_ns t t1 = Done (ns_of t1 - ns_of t)) as Hdiff.
  { unfold diff_ns. rewrite !timespec_to_ns_ok by done. cbn [mbind outcome_bind]. unfold ns_of in *. apply ll_chk_ok. unfold LLONG_MAX. lia. }
  erewrite cmd_bind_eq by (unfold lift; rewrite Hdiff; reflexivity).
  eexists _, _. split; [reflexivity|]. split; [by split|]. cbn [fst snd files]. split; [split; [done|lia]|done].
Qed.
End phases.

(** ** Lemmas: the ring *)

Lemma fill_from_loop n i buffer : 0 <= i -> fill_from n i buffer = fill_loop n i buffer.
Proof.
  revert i buffer. induction n as [|n IH]; intros i buffer Hi; cbn [fill_from fill_loop]; [done|].
  rewrite byte_of_land by done. assert (byte_of (Z.rem i 256) = byte_of i) as ->.
  { unfold byte_of. by rewrite Z.rem_mod_nonneg, Z.mod_mod by lia. }
  destruct (arr_set buffer i _); cbn; [apply IH; lia|done|done].
Qed.

Lemma FillBuffer_ok n : FillBuffer (replicate (Z.to_nat n) None) n = Done (Some <$> pattern (Z.to_nat n)).
Proof. unfold FillBuffer. rewrite fill_from_loop by done. apply fill_malloc. Qed.

Lemma TimeDiffNS_ok a b : 0 <= tv_sec a < 2 ^ 33 -> 0 <= tv_nsec a < 1000000000 -> 0 <= tv_sec b < 2 ^ 33 -> 0 <= tv_nsec b < 1000000000 ->
  TimeDiffNS a b = Done (ns_of b - ns_of a).
Proof.
  intros Ha1 Ha2 Hb1 Hb2. unfold TimeDiffNS. rewrite !ll_chk_ok by (unfold LLONG_MAX; lia). cbn [mbind outcome_bind].
  rewrite !ll_chk_ok by (unfold LLONG_MAX; lia). cbn [mbind outcome_bind]. rewrite !ll_chk_ok by (unfold LLONG_MAX; lia). unfold ns_of. f_equal. lia.
Qed.

(** what a part of a program does when the kernel is willing *)
Definition sure {A} (P : world -> Prop) (m : cmd world A) (Q : A -> world -> Prop) : Prop :=
  forall w, willing w -> P w -> exists x w', m w = Done (x, w') /\ willing w' /\ Q x w'.

Lemma sure_bind {A B} P (m : cmd world A) Q (k : A -> cmd world B) R : sure P m Q -> (forall x, sure (Q x) (k x) R) -> sure P (m ≫= k) R.
Proof.
  intros Hm Hk w Hq Hp. destruct (Hm w Hq Hp) as (x & w1 & H1 & Hq1 & Hx). rewrite (cmd_bind_eq _ _ _ _ _ H1). by apply Hk.
Qed.

Lemma sure_lift {A B} P (m : outcome A) x (k : A -> cmd world B) R : m = Done x -> sure P (k x) R -> sure P (lift m ≫= k) R.
Proof. intros -> Hk. exact Hk. Qed.

Lemma sure_ret {A} (P : world -> Prop) (x : A) (Q : A -> world -> Prop) : (forall w, P w -> Q x w) -> sure P (mret x) Q.
Proof. intros HQ w Hq Hw. exists x, w. by split_and!; [| |apply HQ]. Qed.

Lemma sure_or_exit {A B} P (m : cmd world (option A)) Q (k : A -> cmd world (option B)) R :
  phase P m Q -> (forall x, sure (Q x) (k x) R) -> sure P (x ←? m; k x) R.
Proof.
  intros Hm Hk w Hq Hw. destruct (Hm w Hw) as (o & w1 & H1 & Hq1 & Ho). destruct (Hq1 Hq) as [[x ->] Hq1'].
  unfold or_exit. rewrite (cmd_bind_eq _ _ _ _ _ H1). by apply Hk.
Qed.

Lemma sure_or_close {A B} P fd (m : cmd world (option A)) Q (k : A -> cmd world (option B)) R :
  sure P m (fun o w => exists x, o = Some x /\ Q x w) -> (forall x, sure (Q x) (k x) R) -> sure P (x ←? or_close fd m; k x) R.
Proof.
  intros Hm Hk w Hq Hw. destruct (Hm w Hq Hw) as (o & w1 & H1 & Hq1 & x & -> & Hx).
  assert (or_close fd m w = Done (Some x, w1)) as H2 by (unfold or_close; by rewrite (cmd_bind_eq _ _ _ _ _ H1)).
  unfold or_exit. rewrite (cmd_bind_eq _ _ _ _ _ H2). by apply Hk.
Qed.

Lemma sure_pure {A} (phi : Prop) P (m : cmd world A) Q : (phi -> sure P m Q) -> sure (fun w => phi /\ P w) m Q.
Proof. intros H w Hq [Hp Hw]. by apply H. Qed.

Lemma sure_phase {A} P (m : cmd world (option A)) Q : phase P m Q -> sure P m (fun o w => exists x, o = Some x /\ Q x w).
Proof.
  intros Hm w Hq Hw. destruct (Hm w Hw) as (o & w1 & H1 & Hq1 & Ho). destruct (Hq1 Hq) as [[x ->] Hq1'].
  exists (Some x), w1. split_and!; [done|done|]. by exists x.
Qed.

Section ring.
Context `{UringLaws}.

(** the file while the ring is idle; the time so far fits the clock *)
Definition open_idle (w0 : world) (fd : Z) (nm : string) (f : bytes) (total : Z) (r : ring) (w : world) : Prop :=
  idle r /\ 0 <= total <= reading (clock w) 0 /\ is_open w0 fd nm f false true w.

Lemma perform_ok w0 fd nm f total r size off : 0 < size -> 0 <= off ->
  sure (open_idle w0 fd nm f total r) (perform r fd (Some <$> pattern (Z.to_nat size)) size off)
    (fun p w => 0 <= p.1 /\ open_idle w0 fd nm (write_at (Z.to_nat off) (pattern (Z.to_nat size)) f) (total + p.1) p.2 w).
Proof.
  intros Hs Ho w Hq (Hi & Ht & (Hc & Hr & Hsb) & Hf & Hd). unfold perform.
  destruct (get_sqe_law r w Hi) as (r1 & H1 & Hr1). rewrite (cmd_bind_eq _ _ _ _ _ H1). cbn [fst snd negb].
  erewrite cmd_bind_eq by (unfold lift; rewrite contents_pattern by lia; reflexivity).
  destruct (read_clock_ok w Hc) as (t0 & w1 & H2 & Ht0 & Hs0 & Hns0 & ->). rewrite (cmd_bind_eq _ _ _ _ _ H2).
  destruct (submit_law _ fd (pattern (Z.to_nat size)) off (mkWorld (files w) (table w) (answers w) (fun k => clock w (S k)))
    (prep_write_law r1 fd (pattern (Z.to_nat size)) off Hr1)) as (r2 & H3 & Hr2); [done|]. rewrite (cmd_bind_eq _ _ _ _ _ H3).
  destruct (wait_law r2 fd nm 0 false (pattern (Z.to_nat size)) off (mkWorld (files w) (table w) (answers w) (fun k => clock w (S k))) Hr2)
    as (r3 & H4 & Hr3); [done|done|exact Hd|]. rewrite (cmd_bind_eq _ _ _ _ _ H4). cbn [files table answers clock].
  set (w2 := mkWorld (<[nm := _]> _) _ _ _).
  destruct (read_clock_ok w2) as (t1 & w3 & H5 & Ht1 & Hs1 & Hns1 & ->); [by apply steady_tail|]. rewrite (cmd_bind_eq _ _ _ _ _ H5). cbn [fst snd].
  rewrite (proj2 (Z.ltb_ge _ _)) by lia. erewrite cmd_bind_eq by (unfold lift; rewrite TimeDiffNS_ok by done; reflexivity).
  eexists _, _. split; [reflexivity|]. split; [exact Hq|]. cbn [fst snd]. unfold w2 in *. cbn [files table answers clock] in *.
  pose proof (Hc 0%nat) as [Hle0 _]. pose proof (Hc 1%nat) as [Hle1 _]. unfold reading in *. rewrite Ht0, Ht1 in *.
  split; [lia|]. split; [by apply seen_law|]. cbn [clock]. unfold is_open, sane, reading. cbn [files clock].
  rewrite lookup_insert_eq, Hf. split; [destruct (clock w 2%nat); lia|].
  split_and!; try done; [intros k; apply (Hc (S (S k)))|destruct (clock w 2%nat); lia].
Qed.

Lemma perform_all_ok w0 fd nm size n i total r : 0 < size -> (Z.of_nat i + Z.of_nat n) * size <= int_max ->
  sure (open_idle w0 fd nm (written size (Z.of_nat i)) total r)
    (perform_all n (Z.of_nat i) r fd (Some <$> pattern (Z.to_nat size)) size total)
    (fun p w => open_idle w0 fd nm (written size (Z.of_nat (i + n))) p.1 p.2 w).
Proof.
  intros Hs. revert i total r. induction n as [|n IH]; intros i total r Hm; cbn [perform_all].
  { rewrite Nat.add_0_r. by apply sure_ret. }
  eapply sure_lift; [apply int_chk_ok; unfold int_min in *; nia|].
  eapply sure_bind; [apply (perform_ok w0 fd nm _ total r size); [done|lia]|]. intros [ns r1]. cbn [fst snd]. apply sure_pure. intros Hns.
  rewrite (proj2 (Z.ltb_ge _ _)) by done. intros w Hq Hw. pose proof Hw as (_ & Ht & (Hc & _) & _).
  erewrite cmd_bind_eq by (unfold lift; rewrite ll_chk_ok; [reflexivity|]; destruct (Hc 0%nat) as (_ & t & Htm & Hts & Htn);
    unfold reading, ns_of, LLONG_MAX in *; rewrite Htm in Ht; lia).
  replace (Z.of_nat i + 1) with (Z.of_nat (S i)) by lia. replace (i + S n)%nat with (S i + n)%nat by lia. apply IH; [lia|done|].
  assert (written size (Z.of_nat (S i)) = write_at (Z.to_nat (Z.of_nat i * size)) (pattern (Z.to_nat size)) (written size (Z.of_nat i))) as Heq; [|by rewrite Heq].
  replace (Z.to_nat (Z.of_nat i * size)) with (length (written size (Z.of_nat i))) by (rewrite length_written; lia). rewrite write_at_end.
  unfold written. rewrite !Nat2Z.id. replace (S i) with (i + 1)%nat by lia. rewrite replicate_add, concat_app.
  cbn [replicate concat]. by rewrite app_nil_r.
Qed.

(** one run of the benchmark *)
Lemma uring_benchmark_ok w0 fd nm f : first_free w0 fd ->
  sure (closed w0 fd nm f) (run_write_benchmark nm DEFAULT_BLOCK_SIZE DEFAULT_TOTAL_MB)
    (fun o w => is_Some o /\ closed w0 fd nm (Some (written 4096 16384)) w).
Proof.
  intros Hfirst. unfold run_write_benchmark, DEFAULT_BLOCK_SIZE, DEFAULT_TOTAL_MB.
  eapply sure_lift; [by apply int_chk_ok|]. eapply sure_lift; [by apply int_chk_ok|]. cbn [Z.eqb].
  change (Z.quot (64 * 1024 * 1024) 4096) with 16384.
  eapply sure_or_exit; [apply (phase_open w0 fd Hfirst nm O_WRONLY_CREAT_TRUNC f []); by destruct f|].
  cbn [o_read o_write O_WRONLY_CREAT_TRUNC]. intros x. apply sure_pure. intros ->.
  eapply sure_or_close; [apply sure_phase, phase_malloc, stable_is_open|]. intros b. apply sure_pure. intros ->.
  eapply sure_lift; [apply FillBuffer_ok|].
  eapply (sure_or_close _ fd _ (fun r => open_idle w0 fd nm [] 0 r)).
  { intros w Hq Hw. destruct (queue_init_law QUEUE_DEPTH w Hq) as (r & H1 & Hr). exists (Some r), w. split_and!; [done|done|].
    exists r. split; [done|]. split; [done|]. split; [|done]. destruct Hw as ((_ & Hr0 & _) & _). lia. }
  intros r. eapply sure_bind; [apply (perform_all_ok w0 fd nm 4096 (Z.to_nat 16384) 0 0 r); [lia|by vm_compute]|]. intros p w Hq (Hi & _ & Hw).
  rewrite (cmd_bind_eq _ _ _ _ _ (queue_exit_law p.2 w Hi)). destruct Hw as ((Hc & Hr & Hsb) & Hf & Hd).
  destruct (sys_close_ok fd w) as (w1 & H1 & Hf1 & Ha1 & Hc1 & Hd1 & Hs1). rewrite (cmd_bind_eq _ _ _ _ _ H1).
  eexists _, w1. split; [reflexivity|]. split; [unfold willing; by rewrite Ha1|]. split; [by eexists|].
  unfold closed, sane. rewrite Hc1, Hf1, Hf. split_and!; try done. by eapply same_but_trans.
Qed.

Definition runs (choices : list Z) : nat := length (filter (fun c => c = 1) choices).

Lemma uring_main_ok w0 fd f choices rest : first_free w0 fd -> 2 ∉ choices ->
  sure (closed w0 fd DEFAULT_FILE f) (uring_main (choices ++ 2 :: rest))
    (fun l w => (Forall is_Some l /\ length l = runs choices) /\
       closed w0 fd DEFAULT_FILE (if (runs choices =? 0)%nat then f else Some (written 4096 16384)) w).
Proof.
  intros Hfirst. revert f. induction choices as [|c choices IH]; intros f H2; cbn [app uring_main].
  { cbn [Z.eqb]. apply sure_ret. intros w Hw. by split. }
  apply not_elem_of_cons in H2 as [Hc H2]. unfold runs. destruct (Z.eqb_spec c 1) as [->|Hne].
  - rewrite filter_cons_True by done. cbn [length Nat.eqb]. eapply sure_bind; [by apply uring_benchmark_ok|].
    intros o. apply sure_pure. intros Ho. eapply sure_bind; [by apply IH|]. intros l. apply sure_pure. intros [Hl Hn].
    apply sure_ret. intros w Hw. split; [split; [by constructor|cbn [length]; by rewrite Hn]|]. by destruct (runs choices =? 0)%nat.
  - rewrite filter_cons_False by done. destruct (Z.eqb_spec c 2); [congruence|]. by apply IH.
Qed.
End ring.

(** ** Properties *)

(** The program ends, in every order in which the kernel does its work: a run has at most 3 * iterations + 3
    events; the end can be reached from every state but a refusal; and at the end no request is in
    progress, so that the memory may be freed. *)
Theorem posix_writes_end block iterations events s : run block iterations events start = Some s ->
  (length events <= 3 * iterations + 3)%nat /\
  match at_ s with
  | Finished _ => length (requests s) = iterations /\ forall k, (k < iterations)%nat -> returned s k
  | Refused => True
  | Issue _ | Await _ _ => exists events' s' e, run block iterations (events ++ events') start = Some s' /\ at_ s' = Finished e
  end.
Proof.
  intros Hr. assert (orderly iterations s) as Ho by (eapply orderly_run; [apply orderly_start|exact Hr]). split.
  - apply run_length in Hr. unfold steps_left at 2, start in Hr. cbn [requests at_ count_occ] in Hr. lia.
  - destruct (at_ s) eqn:Hat; [| |unfold orderly in Ho; by rewrite Hat in Ho|done];
      (destruct (can_finish block iterations s Ho) as (events' & s' & e & _ & Hr' & He); [by rewrite Hat|];
       exists events', s', e; split; [|done]; rewrite run_app, Hr; exact Hr').
Qed.

Lemma posix_writes_end_witness : exists s, run [x00] 2 [Continue; Continue; Complete 1 (Some 1%nat)] start = Some s /\
  exists events' s' e, run [x00] 2 ([Continue; Continue; Complete 1 (Some 1%nat)] ++ events') start = Some s' /\ at_ s' = Finished e.
Proof. eexists. split; [reflexivity|]. exact (proj2 (posix_writes_end [x00] 2 [Continue; Continue; Complete 1 (Some 1%nat)] _ eq_refl)). Defined.

(** C36: Whatever the order in which the kernel writes the blocks, the file holds them in the order of their
    offsets at the end: when the arguments make sense, the clock is steady and each request is carried
    out, the program counts no failure and leaves as many copies of the pattern as it says; it gives up
    only when the kernel fails a call. *)
Theorem posix_main_correct argv nm mb size events s e w :
  posix_arguments argv = Done (nm, mb, size) -> 0 < mb < 2048 -> 0 < size <= mb * 1048576 -> steady (clock w) ->
  let n := mb * 1048576 / size in
  Forall (whole (pattern (Z.to_nat size))) events -> run (pattern (Z.to_nat size)) (Z.to_nat n) events start = Some s -> at_ s = Finished e ->
  exists o w', posix_main argv events w = Done (o, w') /\ (willing w -> is_Some o) /\
    match o with Some (failures, elapsed) => (failures = 0%nat /\ 0 <= elapsed) /\ files w' !! nm = Some (written size n) | None => True end.
Proof.
  intros Harg Hmb Hsize Hc n Hw Hr Hat. destruct (first_free_exists w) as [fd Hfirst].
  assert (phase (closed w fd nm (files w !! nm)) (posix_main argv events)
    (fun r w' => (r.1 = 0%nat /\ 0 <= r.2) /\ files w' !! nm = Some (written size n))) as Hp.
  2:{ destruct (Hp w (closed_start fd nm w Hc Hfirst)) as (o & w' & H1 & Hq & Ho). exists o, w'. split_and!; [done|naive_solver|].
      by destruct o as [[]|]. }
  unfold posix_main. eapply phase_lift; [exact Harg|]. cbn beta iota. eapply phase_lift; [by apply posix_total_ok|].
  assert (0 < n) as Hn by (apply Z.div_str_pos; lia). fold n. rewrite (proj2 (Z.eqb_neq size 0)), (proj2 (Z.eqb_neq n 0)) by lia. clearbody n.
  eapply phase_or_exit; [apply (phase_open w fd Hfirst nm O_WRONLY_CREAT_TRUNC _ []); by destruct (files w !! nm)|].
  cbn [o_read o_write O_WRONLY_CREAT_TRUNC]. intros x. apply phase_pure. intros ->.
  eapply phase_or_exit; [apply phase_malloc, stable_is_open|]. intros b. apply phase_pure. intros ->.
  eapply phase_lift; [apply fill_malloc|]. eapply phase_or_exit; [apply phase_calloc, stable_is_open|]. intros u.
  apply phase_clock. intros t. eapply phase_lift; [apply contents_pattern; lia|].
  eapply phase_or_exit; [by eapply phase_write_all|]. intros failures. apply phase_pure. intros ->. apply phase_end.
Qed.

Definition stopped_clock (fs : gmap string bytes) : world := mkWorld fs [] [] (fun _ => Some (mkTime 0 0)).

Lemma stopped_clock_steady fs : steady (clock (stopped_clock fs)).
Proof. intros n. split; [done|]. eexists. split; [reflexivity|]. cbn. lia. Qed.

Lemma posix_main_correct_witness : exists events o w', posix_main [] events (stopped_clock ∅) = Done (o, w') /\ is_Some o.
Proof.
  destruct (can_finish (pattern (Z.to_nat 4096)) (Z.to_nat (2 * 1048576 / 4096)) start (orderly_start _ _)) as (events & s & e & Hw & Hr & He); [done|].
  destruct (posix_main_correct [] "/tmp/aio_demo.bin" 2 4096 events s e (stopped_clock ∅) eq_refl ltac:(lia) ltac:(lia)
    (stopped_clock_steady _) Hw Hr He) as (o & w' & H1 & Hq & _).
  exists events, o, w'. split; [exact H1|]. by apply Hq.
Defined.

(** With a ring that does what liburing documents, and a willing kernel, each choice of 1 runs the
    benchmark to its end, whatever else is typed before the first 2, and the file then holds 16384 blocks
    of the pattern, one behind the other; without such a choice the file is what it was. *)
Theorem uring_main_correct `{UringLaws} choices rest w : willing w -> steady (clock w) -> 2 ∉ choices ->
  exists l w', uring_main (choices ++ 2 :: rest) w = Done (l, w') /\ (Forall is_Some l /\ length l = runs choices) /\
    files w' !! DEFAULT_FILE = if (runs choices =? 0)%nat then files w !! DEFAULT_FILE else Some (written 4096 16384).
Proof.
  intros Hq Hc H2. destruct (first_free_exists w) as [fd Hfirst].
  destruct (uring_main_ok w fd (files w !! DEFAULT_FILE) choices rest Hfirst H2 w Hq (closed_start _ _ _ Hc Hfirst)) as (l & w' & H1 & _ & Hl & _ & Hf & _).
  by exists l, w'.
Qed.

(** a ring that holds one request *)
Definition one_request : Type := option (Z * bytes * Z).

#[local] Instance simple_ring : Uring := {|
  ring := one_request;
  io_uring_queue_init _ := mret (Some None);
  io_uring_get_sqe r := mret (true, r);
  io_uring_prep_write fd d off _ := Some (fd, d, off);
  io_uring_submit r := mret r;
  io_uring_wait_cqe r := w ← get;
    match r with
    | Some (fd, d, off) =>
        match desc_of w fd with
        | Some ds => modify (fun w => mkWorld (<[d_file ds := write_at (Z.to_nat off) d (default [] (files w !! d_file ds))]> (files w))
            (table w) (answers w) (clock w));; mret (Some (Z.of_nat (length d)), r)
        | None => mret (Some (-9), r)
        end
    | None => mret (None, r)
    end;
  io_uring_cqe_seen _ := None;
  io_uring_queue_exit _ := mret tt |}.

#[local] Instance simple_ring_laws : UringLaws.
Proof.
  refine {| idle r := r = None; ready r := r = None; done_ _ := True;
    prepared r fd d off := r = Some (fd, d, off); submitted r fd d off := r = Some (fd, d, off) |}; intros; subst.
  - by eexists.
  - by eexists.
  - done.
  - by eexists.
  - eexists. cbn. unfold get, modify, mbind, cmd_bind, mret, cmd_ret. rewrite H2. by split.
  - done.
  - done.
Defined.

Lemma uring_main_correct_witness : exists l w', uring_main [7; 1; 1; 2] (stopped_clock ∅) = Done (l, w') /\ length l = 2%nat /\
  files w' !! DEFAULT_FILE = Some (written 4096 16384).
Proof.
  assert (2 ∉ [7; 1; 1]) as H2 by (intros H; set_solver by lia).
  destruct (uring_main_correct [7; 1; 1] [] (stopped_clock ∅) eq_refl (stopped_clock_steady _) H2) as (l & w' & H1 & [_ Hl] & Hf).
  exists l, w'. by split_and!.
Defined.

(** When [aio_write] refuses a request, the memory of the block is freed while others are in progress. *)
Example freed_in_progress : exists s, run [x00] 2 [Continue; Refuse] start = Some s /\ at_ s = Refused /\ requests s = [None].
Proof. eexists. split; [reflexivity|]. by split. Qed.
