(* ===== verification/Counting.v ===== *)
(** * Counting

    How many elements of a list satisfy a test, and what the array programs that count by
    sorting share. *)
From S2P Require Import Prelude.

(** how many elements satisfy a test *)
Fixpoint cnt (p : Z -> bool) (l : list Z) : Z :=
  match l with [] => 0 | x :: l' => Z.b2z (p x) + cnt p l' end.

Lemma cnt_bounds p l : 0 <= cnt p l <= Z.of_nat (length l).
Proof. induction l as [|x l IH]; simpl; [lia|]. destruct (p x); simpl; lia. Qed.

Lemma cnt_ext p q l : (forall x, x ∈ l -> p x = q x) -> cnt p l = cnt q l.
Proof.
  induction l as [|x l IH]; intros H; simpl; [done|]. rewrite (H x), IH; [done| |by left].
  intros y Hy. apply H. by right.
Qed.

Lemma cnt_split p q r l : (forall x, x ∈ l -> Z.b2z (p x) = Z.b2z (q x) + Z.b2z (r x)) ->
  cnt p l = cnt q l + cnt r l.
Proof.
  induction l as [|x l IH]; intros H; simpl; [done|]. rewrite (H x), IH; [lia| |by left].
  intros y Hy. apply H. by right.
Qed.

Lemma cnt_app p l1 l2 : cnt p (l1 ++ l2) = cnt p l1 + cnt p l2.
Proof. induction l1 as [|x l1 IH]; simpl; [done|]. rewrite IH. lia. Qed.

Lemma cnt_perm p l1 l2 : l1 ≡ₚ l2 -> cnt p l1 = cnt p l2.
Proof. induction 1; simpl; lia. Qed.

Lemma cnt_fmap p f l : cnt p (f <$> l) = cnt (fun x => p (f x)) l.
Proof. induction l as [|x l IH]; simpl; [done|]. rewrite <- IH. done. Qed.

Lemma cnt_all p l : (forall x, x ∈ l -> p x = true) -> cnt p l = Z.of_nat (length l).
Proof.
  induction l as [|x l IH]; intros H; simpl; [done|]. rewrite (H x) by (by left).
  rewrite IH by (intros y Hy; apply H; by right). simpl. lia.
Qed.

Lemma cnt_none p l : (forall x, x ∈ l -> p x = false) -> cnt p l = 0.
Proof.
  induction l as [|x l IH]; intros H; simpl; [done|]. rewrite (H x) by (by left).
  rewrite IH by (intros y Hy; apply H; by right). simpl. lia.
Qed.

Definition sorted (l : list Z) : Prop := StronglySorted Z.le l.

Lemma sorted_lookup l i j x y : sorted l -> l !! i = Some x -> l !! j = Some y -> (i <= j)%nat -> x <= y.
Proof.
  intros Hs. revert i j. induction Hs as [|a l _ IH Ha]; intros i j; [done|].
  destruct i as [|i], j as [|j]; simpl; intros Hi Hj Hij; [simplify_eq; lia| |lia|apply (IH i j Hi Hj); lia].
  simplify_eq. rewrite Forall_forall in Ha. apply Ha. by eapply list_elem_of_lookup_2.
Qed.

