(* ===== verification/Fenwick.v ===== *)
(** * Counting with a binary indexed tree

    "LEETCODE PROBLEMS/countersmallernumber.c" and "LEETCODE PROBLEMS/createSorted.c": the
    same tree, the same ranks by sorting and binary search, and two uses.  [qsort] is the
    sorting of the standard library; its comparison subtracts, so that numbers that are too
    far apart are undefined behaviour.  Arithmetic on [int] is checked. *)
From S2P Require Import Prelude Counting.

(** ** The program *)

Definition lowbit (x : Z) : Z := Z.land x (- x).

(** [while (idx <= size) { bit[idx] += val; idx += lowbit(idx); }] *)
Fixpoint update_loop (fuel : nat) (bit : list Z) (idx val size : Z) : outcome (list Z) :=
  if idx <=? size then
    match fuel with
    | O => OutOfFuel
    | S fuel =>
        b ← arr_get bit idx; b ← int_chk (b + val);
        bit ← arr_set bit idx b;
        idx ← int_chk (idx + lowbit idx);
        update_loop fuel bit idx val size
    end
  else Done bit.

Fixpoint query_loop (fuel : nat) (bit : list Z) (idx sum : Z) : outcome Z :=
  if idx >? 0 then
    match fuel with
    | O => OutOfFuel
    | S fuel =>
        b ← arr_get bit idx; sum ← int_chk (sum + b);
        query_loop fuel bit (idx - lowbit idx) sum
    end
  else Done sum.

(** every turn moves the index, which stays between 0 and the size *)
Definition update (bit : list Z) (idx val size : Z) : outcome (list Z) := update_loop (length bit) bit idx val size.
Definition query (bit : list Z) (idx : Z) : outcome Z := query_loop (length bit) bit idx 0.

(** [qsort] with a comparison that subtracts *)
Definition far_apart (l : list Z) : bool :=
  existsb (fun x => existsb (fun y => negb (bool_decide (in_int (x - y)))) l) l.
Definition qsort (l : list Z) : outcome (list Z) := if far_apart l then Undef else Done (merge_sort Z.le l).

(** the binary search for the rank: [r] is the number of smaller elements found so far *)
Fixpoint rank_loop (fuel : nat) (sorted : list Z) (x left right r : Z) : outcome Z :=
  if left <=? right then
    match fuel with
    | O => OutOfFuel
    | S fuel =>
        s ← int_chk (left + right);
        let mid := Z.quot s 2 in
        y ← arr_get sorted mid;
        if y <? x then rank_loop fuel sorted x (mid + 1) right (mid + 1)
        else rank_loop fuel sorted x left (mid - 1) r
    end
  else Done r.

Definition rank_of (sorted : list Z) (x : Z) : outcome Z :=
  r ← rank_loop (length sorted) sorted x 0 (Z.of_nat (length sorted) - 1) 0; Done (r + 1).

Fixpoint ranks (sorted : list Z) (nums : list Z) : outcome (list Z) :=
  match nums with
  | [] => Done []
  | x :: nums' => r ← rank_of sorted x; rs ← ranks sorted nums'; Done (r :: rs)
  end.

Definition new_bit (numsSize : nat) : list Z := replicate (numsSize + 2) 0.

(** the loop of [countSmaller] runs backwards: it returns the tree and the results *)
Fixpoint smaller_loop (rs : list Z) (maxRank : Z) (bit : list Z) : outcome (list Z * list Z) :=
  match rs with
  | [] => Done (bit, [])
  | r :: rs' =>
      '(bit, res) ← smaller_loop rs' maxRank bit;
      q ← query bit (r - 1);
      bit ← update bit r 1 (maxRank - 1);
      Done (bit, q :: res)
  end.

Definition countSmaller (nums : list Z) : outcome (list Z) :=
  match nums with
  | [] => Done []
  | _ =>
      sorted ← qsort nums;
      rs ← ranks sorted nums;
      '(_, res) ← smaller_loop rs (Z.of_nat (length nums) + 2) (new_bit (length nums));
      Done res
  end.

Definition MOD : Z := 1000000007.

(** the loop of [createSortedArray], forwards *)
Fixpoint cost_loop (rs : list Z) (i maxRank : Z) (bit : list Z) (cost : Z) : outcome Z :=
  match rs with
  | [] => Done cost
  | r :: rs' =>
      leftCount ← query bit (r - 1);
      q ← query bit r;
      let rightCount := i - q in
      let cost := Z.rem (cost + (if leftCount <? rightCount then leftCount else rightCount)) MOD in
      bit ← update bit r 1 (maxRank - 1);
      cost_loop rs' (i + 1) maxRank bit cost
  end.

Definition createSortedArray (instructions : list Z) : outcome Z :=
  match instructions with
  | [] => Done 0
  | _ =>
      sorted ← qsort instructions;
      rs ← ranks sorted instructions;
      cost_loop rs 0 (Z.of_nat (length instructions) + 2) (new_bit (length instructions)) 0
  end.

(** ** Specification *)

(** for every element, how many later ones are smaller *)
Fixpoint smaller_after (l : list Z) : list Z :=
  match l with [] => [] | x :: l' => cnt (fun y => y <? x) l' :: smaller_after l' end.

(** inserting one by one, each costs the smaller of the number of smaller and the number
    of larger elements that are there already *)
Fixpoint total_cost (before l : list Z) : Z :=
  match l with
  | [] => 0
  | x :: l' => Z.min (cnt (fun y => y <? x) before) (cnt (fun y => x <? y) before) + total_cost (x :: before) l'
  end.

(** numbers that [cmp] can subtract, not too many for [int] *)
Definition input_ok (l : list Z) : Prop :=
  (forall x y, x ∈ l -> y ∈ l -> in_int (x - y)) /\ Z.of_nat (length l) < 2 ^ 29.

(** ** Lemmas: the lowest bit *)

Lemma odd_part x : 0 < x -> exists k m, 0 <= k /\ 0 <= m /\ x = 2 ^ k * (2 * m + 1).
Proof.
  destruct x as [|x|x]; try lia. intros _. induction x as [x IH|x IH|].
  - exists 0, (Z.pos x). lia.
  - destruct IH as (k & m & Hk & Hm & Hx). exists (k + 1), m. rewrite Z.pow_add_r by lia. lia.
  - exists 0, 0. lia.
Qed.

Lemma land_odd m : Z.land (2 * m + 1) (- (2 * m + 1)) = 1.
Proof.
  replace (- (2 * m + 1)) with (Z.lnot (2 * m)) by (unfold Z.lnot; lia).
  apply Z.bits_inj'. intros n Hn. rewrite Z.land_spec, Z.lnot_spec by done.
  destruct (Z.eq_dec n 0) as [->|Hne]; [by rewrite Z.testbit_odd_0, Z.testbit_even_0|].
  replace n with (Z.succ (n - 1)) by lia. rewrite Z.testbit_odd_succ, Z.testbit_even_succ by lia.
  rewrite (Z.bits_above_log2 1) by (simpl; lia). by destruct (Z.testbit m (n - 1)).
Qed.

Lemma lowbit_spec k m : 0 <= k -> lowbit (2 ^ k * (2 * m + 1)) = 2 ^ k.
Proof.
  intros Hk. unfold lowbit. rewrite (Z.mul_comm (2 ^ k)), <- Z.mul_opp_l.
  rewrite <- !Z.shiftl_mul_pow2 by done. rewrite <- Z.shiftl_land, land_odd, Z.shiftl_mul_pow2 by done. lia.
Qed.

Lemma lowbit_bounds x : 0 < x -> 0 < lowbit x <= x.
Proof.
  intros Hx. destruct (odd_part x Hx) as (k & m & Hk & Hm & ->). rewrite lowbit_spec by done.
  pose proof (Z.pow_pos_nonneg 2 k). nia.
Qed.

(** the cell [i] of the tree counts the ranks [j] with [i - lowbit i < j <= i] *)
Definition covers (i j : Z) : bool := (i - lowbit i <? j) && (j <=? i).

Lemma covers_spec i j : covers i j = true <-> i - lowbit i < j <= i.
Proof. unfold covers. rewrite andb_true_iff, Z.ltb_lt, Z.leb_le. done. Qed.

(** the multiples of a power of two below a bound *)
Lemma mult_below q a b : 0 < q -> q * a < q * b -> q * (a + 1) <= q * b.
Proof. intros Hq H. apply Z.mul_le_mono_nonneg_l; nia. Qed.

(** [odd_part] twice: the smaller power divides the larger one *)
Lemma pow_split a b : 0 <= b -> b < a -> exists q, 0 < q /\ 2 ^ a = 2 ^ b * (2 * q).
Proof.
  intros Hb Ha. exists (2 ^ (a - b - 1)). split; [apply Z.pow_pos_nonneg; lia|].
  replace a with (b + (1 + (a - b - 1))) at 1 by lia. rewrite !Z.pow_add_r by lia. lia.
Qed.

(** a cell other than [j]'s own covers [j] exactly if it covers the next one *)
Lemma covers_next i j : 0 < i -> 0 < j -> i <> j -> covers i j = covers i (j + lowbit j).
Proof.
  intros Hi Hj Hne. apply eq_true_iff_eq. rewrite !covers_spec.
  destruct (odd_part i Hi) as (a & p & Ha & Hp & ->), (odd_part j Hj) as (b & q & Hb & Hq & ->).
  rewrite !lowbit_spec by done. pose proof (Z.pow_pos_nonneg 2 a) as Hpa. pose proof (Z.pow_pos_nonneg 2 b) as Hpb.
  destruct (Z.lt_trichotomy a b) as [Hab|[->|Hab]].
  - destruct (pow_split b a Ha Hab) as (r & Hr & ->). set (u := 2 ^ a) in *. split; intros; exfalso.
    + assert (u * (2 * p) < u * (2 * r * (2 * q + 1)) <= u * (2 * p + 1)) as [H1 H2] by nia.
      assert (2 * p < 2 * r * (2 * q + 1)) by nia. assert (2 * r * (2 * q + 1) <= 2 * p + 1) by nia. nia.
    + assert (u * (2 * p) < u * (2 * r * (2 * q + 2)) <= u * (2 * p + 1)) as [H1 H2] by nia.
      assert (2 * p < 2 * r * (2 * q + 2)) by nia. assert (2 * r * (2 * q + 2) <= 2 * p + 1) by nia. nia.
  - set (u := 2 ^ b) in *. split; intros; exfalso; [assert (p = q); [|congruence]; nia|].
    assert (2 * p < 2 * q + 2 <= 2 * p + 1) by nia. lia.
  - destruct (pow_split a b Hb Hab) as (r & Hr & ->). set (u := 2 ^ b) in *.
    assert (u * (2 * r) * (2 * p + 1) - u * (2 * r) = u * (2 * (2 * r * p))) as -> by lia.
    assert (u * (2 * r) * (2 * p + 1) = u * (2 * (r * (2 * p + 1)))) as -> by lia.
    assert (u * (2 * q + 1) + u = u * (2 * (q + 1))) as -> by lia.
    rewrite <- !Z.mul_lt_mono_pos_l, <- !Z.mul_le_mono_pos_l by lia. lia.
Qed.

Lemma covers_self j : 0 < j -> covers j j = true.
Proof. intros Hj. apply covers_spec. pose proof (lowbit_bounds j Hj). lia. Qed.

Lemma covers_le i j : covers i j = true -> j <= i.
Proof. intros H%covers_spec. lia. Qed.

(** ** Lemmas: the tree *)

(** the tree of the ranks [seen] *)
Record tree (size : Z) (bit seen : list Z) : Prop := {
  t_length : Z.of_nat (length bit) = size + 1;
  t_cell : forall i, 1 <= i <= size -> bit !! Z.to_nat i = Some (cnt (covers i) seen);
  t_ranks : forall j, j ∈ seen -> 1 <= j <= size;
  t_small : size < 2 ^ 30;
  t_count : Z.of_nat (length seen) < 2 ^ 30;
}.

Lemma get_cell size bit seen i : tree size bit seen -> 1 <= i <= size -> arr_get bit i = Done (cnt (covers i) seen).
Proof. intros Ht Hi. apply arr_get_Done. split; [lia|]. by apply (t_cell _ _ _ Ht). Qed.

Lemma query_loop_ok size bit seen fuel idx sum : tree size bit seen -> 0 <= idx <= size -> (Z.to_nat idx <= fuel)%nat ->
  0 <= sum -> sum + cnt (fun j => j <=? idx) seen <= Z.of_nat (length seen) ->
  query_loop fuel bit idx sum = Done (sum + cnt (fun j => j <=? idx) seen).
Proof.
  intros Ht. revert idx sum. induction fuel as [|fuel IH]; intros idx sum Hi Hf Hs Hle; cbn [query_loop]; zcases.
  - lia.
  - rewrite cnt_none; [f_equal; lia|]. intros j Hj. pose proof (t_ranks _ _ _ Ht j Hj). by zcases; [lia|].
  - pose proof (lowbit_bounds idx ltac:(lia)) as Hlb.
    assert (cnt (fun j => j <=? idx) seen = cnt (covers idx) seen + cnt (fun j => j <=? idx - lowbit idx) seen) as Hc.
    { apply cnt_split. intros j Hj. unfold covers. zcases; simpl; lia. }
    rewrite (get_cell size bit seen) by (done || lia). simpl. pose proof (t_count _ _ _ Ht).
    pose proof (cnt_bounds (fun j => j <=? idx - lowbit idx) seen). pose proof (cnt_bounds (covers idx) seen).
    rewrite int_chk_ok by (unfold int_min, int_max; lia). simpl. rewrite IH by lia. f_equal. lia.
  - rewrite cnt_none; [f_equal; lia|]. intros j Hj. pose proof (t_ranks _ _ _ Ht j Hj). by zcases; [lia|].
Qed.

Lemma query_ok size bit seen idx : tree size bit seen -> 0 <= idx <= size ->
  query bit idx = Done (cnt (fun j => j <=? idx) seen).
Proof.
  intros Ht Hi. unfold query. pose proof (t_length _ _ _ Ht). pose proof (cnt_bounds (fun j => j <=? idx) seen).
  by rewrite (query_loop_ok size bit seen) by (done || lia).
Qed.

(** the tree while the new rank [v] is being added: the cells before [idx] have it *)
Record adding (size v idx : Z) (bit seen : list Z) : Prop := {
  a_length : Z.of_nat (length bit) = size + 1;
  a_cell : forall i, 1 <= i <= size ->
    bit !! Z.to_nat i = Some (cnt (covers i) seen + Z.b2z (covers i v && negb (covers i idx)));
  a_covers : forall i, 0 < i -> covers i idx = true -> covers i v = true;
}.

Lemma adding_step size v idx bit seen : adding size v idx bit seen -> 1 <= idx <= size ->
  adding size v (idx + lowbit idx) (<[Z.to_nat idx := cnt (covers idx) seen + 1]> bit) seen.
Proof.
  intros [Hl Hc Hv] Hi. pose proof (lowbit_bounds idx ltac:(lia)) as Hlb. split.
  - by rewrite length_insert.
  - intros i Hi'. destruct (decide (i = idx)) as [->|Hne].
    + rewrite list_lookup_insert_eq by lia. rewrite (Hv idx) by (lia || apply covers_self; lia).
      assert (covers idx (idx + lowbit idx) = false) as ->; [|done]. apply not_true_is_false. intros ?%covers_le. lia.
    + rewrite list_lookup_insert_ne by lia. rewrite Hc by done. by rewrite (covers_next i idx) by lia.
  - intros i Hpos Hcov. apply Hv; [done|]. destruct (decide (i = idx)) as [->|Hne].
    + apply covers_le in Hcov. lia.
    + by rewrite (covers_next i idx) by lia.
Qed.

Lemma update_loop_ok size v fuel idx bit seen : adding size v idx bit seen -> 1 <= idx -> size < 2 ^ 30 ->
  Z.of_nat (length seen) < 2 ^ 30 -> (Z.to_nat (size + 1 - idx) <= fuel)%nat -> idx <= 2 * size ->
  exists bit', update_loop fuel bit idx 1 size = Done bit' /\ Z.of_nat (length bit') = size + 1 /\
    forall i, 1 <= i <= size -> bit' !! Z.to_nat i = Some (cnt (covers i) seen + Z.b2z (covers i v)).
Proof.
  revert idx bit. induction fuel as [|fuel IH]; intros idx bit Ha Hi Hs Hn Hf Hmax; cbn [update_loop]; zcases; [lia| | |].
  1,3: exists bit; split_and!; [done|by apply (a_length _ _ _ _ _ Ha)|]; intros i Hi'; rewrite (a_cell _ _ _ _ _ Ha) by done;
    replace (covers i idx) with false by (symmetry; apply not_true_is_false; intros ?%covers_le; lia); by rewrite andb_true_r.
  pose proof (lowbit_bounds idx ltac:(lia)). pose proof (cnt_bounds (covers idx) seen). pose proof (a_length _ _ _ _ _ Ha).
  assert (arr_get bit idx = Done (cnt (covers idx) seen)) as ->.
  { apply arr_get_Done. split; [lia|]. rewrite (a_cell _ _ _ _ _ Ha) by lia. rewrite (covers_self idx), andb_false_r by lia. f_equal. simpl. lia. }
  cbn [mbind outcome_bind]. rewrite (int_chk_ok (cnt (covers idx) seen + 1)) by (unfold int_min, int_max; lia). cbn [mbind outcome_bind].
  rewrite arr_set_in by lia. cbn [mbind outcome_bind].
  rewrite int_chk_ok by (unfold int_min, int_max; lia). cbn [mbind outcome_bind]. apply IH; [by apply adding_step|lia..].
Qed.

Lemma bit_update_ok size bit seen v : tree size bit seen -> 1 <= v <= size -> Z.of_nat (length seen) + 1 < 2 ^ 30 ->
  exists bit', update bit v 1 size = Done bit' /\ tree size bit' (v :: seen).
Proof.
  intros Ht Hv Hn. pose proof (t_length _ _ _ Ht) as Hl. pose proof (t_small _ _ _ Ht). unfold update.
  destruct (update_loop_ok size v (length bit) v bit seen) as (bit' & Hu & Hl' & Hc); [|lia|lia|lia|lia|lia|].
  { split; [done| |done]. intros i Hi. rewrite (t_cell _ _ _ Ht), andb_negb_r by done. f_equal. simpl. lia. }
  exists bit'. split; [done|]. split; [done| | |lia|simpl length; lia].
  - intros i Hi. rewrite Hc by done. simpl. f_equal. lia.
  - intros j [->|Hj]%elem_of_cons; [done|by apply (t_ranks _ _ _ Ht)].
Qed.

Lemma new_bit_ok n : Z.of_nat n + 1 < 2 ^ 30 -> tree (Z.of_nat n + 1) (new_bit n) [].
Proof.
  intros Hn. unfold new_bit. split; [rewrite length_replicate; lia| |by intros j ?%elem_of_nil|lia|simpl; lia].
  intros i Hi. apply lookup_replicate_2. lia.
Qed.

(** ** Lemmas: the ranks *)

(** the elements below [x] come first *)
Lemma first_cnt l x k : (k <= length l)%nat ->
  (forall j y, l !! j = Some y -> (j < k)%nat -> y < x) -> (forall j y, l !! j = Some y -> (k <= j)%nat -> x <= y) ->
  cnt (fun y => y <? x) l = Z.of_nat k.
Proof.
  intros Hk H1 H2. rewrite <- (take_drop k l), cnt_app, cnt_all, cnt_none.
  - rewrite length_take. lia.
  - intros y [j Hj]%list_elem_of_lookup. rewrite lookup_drop in Hj. apply Z.ltb_ge. apply (H2 _ _ Hj). lia.
  - intros y [j Hj]%list_elem_of_lookup. apply lookup_take_Some in Hj as [Hj Hlt]. apply Z.ltb_lt. by apply (H1 _ _ Hj).
Qed.

Lemma rank_loop_ok fuel l x left right : sorted l -> 0 <= left <= right + 1 -> right < Z.of_nat (length l) < 2 ^ 30 ->
  (forall j y, l !! j = Some y -> Z.of_nat j < left -> y < x) -> (forall j y, l !! j = Some y -> right < Z.of_nat j -> x <= y) ->
  (Z.to_nat (right + 1 - left) <= fuel)%nat ->
  rank_loop fuel l x left right left = Done (cnt (fun y => y <? x) l).
Proof.
  intros Hs. revert left right. induction fuel as [|fuel IH]; intros left right Hl Hr H1 H2 Hf; cbn [rank_loop]; zcases; try lia.
  1,3: f_equal; rewrite (first_cnt l x (Z.to_nat left)); [lia|lia| |]; intros j y Hj Hlt; [apply (H1 _ _ Hj); lia|apply (H2 _ _ Hj); lia].
  rewrite int_chk_ok by (unfold int_min, int_max; lia). cbn [mbind outcome_bind]. cbv zeta.
  rewrite Z.quot_div_nonneg by lia. set (mid := (left + right) / 2).
  assert (left <= mid <= right) as Hm by (unfold mid; Z.to_euclidean_division_equations; lia).
  destruct (lookup_lt_is_Some_2 l (Z.to_nat mid)) as [y Hy]; [lia|].
  rewrite (proj2 (arr_get_Done l mid y)) by (split; [lia|done]). cbn [mbind outcome_bind]. zcases.
  - apply IH; [lia|lia| |done|lia]. intros j z Hj Hlt. pose proof (sorted_lookup _ _ _ _ _ Hs Hj Hy ltac:(lia)). lia.
  - apply IH; [lia|lia|done| |lia]. intros j z Hj Hlt. pose proof (sorted_lookup _ _ _ _ _ Hs Hy Hj ltac:(lia)). lia.
Qed.

Definition rk (l : list Z) (x : Z) : Z := cnt (fun y => y <? x) l + 1.

Lemma rank_of_ok l x : sorted l -> Z.of_nat (length l) < 2 ^ 30 -> rank_of l x = Done (rk l x).
Proof.
  intros Hs Hl. unfold rank_of. rewrite (rank_loop_ok (length l) l x 0) by (done || lia || (intros j y ?%lookup_lt_Some; lia)). done.
Qed.

Lemma ranks_ok l nums : sorted l -> Z.of_nat (length l) < 2 ^ 30 -> ranks l nums = Done (rk l <$> nums).
Proof.
  intros Hs Hl. induction nums as [|x nums IH]; simpl; [done|]. rewrite rank_of_ok by done. simpl. by rewrite IH.
Qed.

Lemma rk_mono l x y : x <= y -> rk l x <= rk l y.
Proof.
  intros Hxy. unfold rk. rewrite (cnt_split (fun z => z <? y) (fun z => z <? x) (fun z => (x <=? z) && (z <? y))).
  - pose proof (cnt_bounds (fun z => (x <=? z) && (z <? y)) l). lia.
  - intros z _. zcases; simpl; lia.
Qed.

Lemma rk_lt l x y : x ∈ l -> x < y -> rk l x < rk l y.
Proof.
  intros Hx Hxy. unfold rk. apply list_elem_of_split in Hx as (l1 & l2 & ->).
  rewrite !cnt_app. simpl. rewrite Z.ltb_irrefl, (proj2 (Z.ltb_lt _ _) Hxy). simpl.
  pose proof (rk_mono l1 x y). pose proof (rk_mono l2 x y). unfold rk in *. lia.
Qed.

Lemma rk_ltb l x y : x ∈ l -> y ∈ l -> (rk l x <=? rk l y - 1) = (x <? y).
Proof.
  intros Hx Hy. pose proof (rk_mono l y x). pose proof (rk_lt l x y Hx). zcases; lia.
Qed.

Lemma rk_leb l x y : x ∈ l -> y ∈ l -> (rk l x <=? rk l y) = (x <=? y).
Proof.
  intros Hx Hy. pose proof (rk_mono l x y). pose proof (rk_lt l y x Hy). zcases; lia.
Qed.

Lemma rk_range l x : 1 <= rk l x <= Z.of_nat (length l) + 1.
Proof. unfold rk. pose proof (cnt_bounds (fun y => y <? x) l). lia. Qed.

(** ** Lemmas: the two functions *)

Lemma qsort_ok l : input_ok l -> exists l', qsort l = Done l' /\ sorted l' /\ l' ≡ₚ l.
Proof.
  intros [Hfar _]. exists (merge_sort Z.le l). unfold qsort. replace (far_apart l) with false.
  - split_and!; [done|apply (StronglySorted_merge_sort Z.le)|apply merge_sort_Permutation].
  - symmetry. apply not_true_is_false. unfold far_apart. intros (x & Hx & (y & Hy & Hb)%existsb_exists)%existsb_exists.
    apply negb_true_iff, bool_decide_eq_false in Hb. apply Hb, Hfar; by apply list_elem_of_In.
Qed.

Lemma smaller_loop_ok l nums maxRank bit : tree (maxRank - 1) bit [] -> Z.of_nat (length l) + 1 <= maxRank - 1 ->
  (forall x, x ∈ nums -> x ∈ l) -> Z.of_nat (length nums) + 1 < 2 ^ 30 ->
  exists bit', smaller_loop (rk l <$> nums) maxRank bit = Done (bit', smaller_after nums) /\
    tree (maxRank - 1) bit' (rk l <$> nums).
Proof.
  intros Ht Hl. induction nums as [|x nums IH]; intros Hin Hn; [by exists bit|].
  destruct IH as (bit1 & H1 & Ht1); [intros y Hy; apply Hin; by right|simpl in *; lia|].
  rewrite fmap_cons. cbn [smaller_loop]. rewrite H1. cbn [mbind outcome_bind].
  pose proof (rk_range l x). rewrite (query_ok _ _ _ _ Ht1) by lia. cbn [mbind outcome_bind].
  destruct (bit_update_ok _ _ _ (rk l x) Ht1) as (bit2 & H2 & Ht2); [lia|rewrite length_fmap; simpl in *; lia|].
  rewrite H2. cbn [mbind outcome_bind]. exists bit2. split; [|done]. do 2 f_equal. simpl. f_equal.
  rewrite cnt_fmap. apply cnt_ext. intros y Hy. apply rk_ltb; apply Hin; [by right|by left].
Qed.

Lemma cost_loop_ok l before nums maxRank bit cost : tree (maxRank - 1) bit (rk l <$> before) ->
  Z.of_nat (length l) + 1 <= maxRank - 1 -> (forall x, x ∈ before ++ nums -> x ∈ l) ->
  Z.of_nat (length (before ++ nums)) + 1 < 2 ^ 30 -> 0 <= cost < MOD ->
  cost_loop (rk l <$> nums) (Z.of_nat (length before)) maxRank bit cost = Done ((cost + total_cost before nums) mod MOD).
Proof.
  intros Ht Hl. revert before bit cost Ht. induction nums as [|x nums IH]; intros before bit cost Ht Hin Hn Hc.
  { simpl. rewrite Z.add_0_r, Z.mod_small by done. done. }
  rewrite fmap_cons. cbn [cost_loop]. pose proof (rk_range l x).
  rewrite (query_ok _ _ _ (rk l x - 1) Ht) by lia. cbn [mbind outcome_bind].
  rewrite (query_ok _ _ _ (rk l x) Ht) by lia. cbn [mbind outcome_bind]. cbv zeta.
  rewrite !cnt_fmap. rewrite (cnt_ext _ (fun y => y <? x) before) by (intros y Hy; apply rk_ltb; apply Hin; set_solver).
  rewrite (cnt_ext (fun y => rk l y <=? rk l x) (fun y => y <=? x) before) by (intros y Hy; apply rk_leb; apply Hin; set_solver).
  set (a := cnt (fun y => y <? x) before). assert (Z.of_nat (length before) - cnt (fun y => y <=? x) before = cnt (fun y => x <? y) before) as ->.
  { rewrite <- (cnt_all (fun _ => true) before) by done.
    rewrite (cnt_split (fun _ => true) (fun y => y <=? x) (fun y => x <? y)); [lia|]. intros y _. zcases; simpl; lia. }
  set (b := cnt (fun y => x <? y) before). assert ((if a <? b then a else b) = Z.min a b) as -> by (zcases; lia).
  assert (0 <= Z.min a b) as Hmin by (unfold a, b; pose proof (cnt_bounds (fun y => y <? x) before); pose proof (cnt_bounds (fun y => x <? y) before); lia).
  rewrite length_app in Hn. simpl in Hn.
  destruct (bit_update_ok _ _ _ (rk l x) Ht) as (bit2 & H2 & Ht2); [lia|rewrite length_fmap; lia|].
  rewrite H2. cbn [mbind outcome_bind]. rewrite Z.rem_mod_nonneg by (unfold MOD in *; lia).
  replace (Z.of_nat (length before) + 1) with (Z.of_nat (length (x :: before))) by (simpl; lia).
  rewrite (IH (x :: before)); [| done |intros y Hy; apply Hin; set_solver|rewrite length_app; simpl; lia|by apply Z.mod_pos_bound].
  f_equal. cbn [total_cost]. fold a b. rewrite Zplus_mod_idemp_l. f_equal. lia.
Qed.

(** ** Properties *)

(** [countSmaller] counts: for numbers that the comparison can subtract, it returns for
    every element how many later elements are smaller, reads and writes only cells of its
    tree, and no [int] overflows. *)
Theorem countSmaller_correct nums : input_ok nums -> countSmaller nums = Done (smaller_after nums).
Proof.
  intros Hin. destruct nums as [|x0 nums']; [done|]. set (nums := x0 :: nums') in *.
  change (countSmaller nums) with (sorted ← qsort nums; rs ← ranks sorted nums;
    '(_, res) ← smaller_loop rs (Z.of_nat (length nums) + 2) (new_bit (length nums)); Done res).
  destruct (qsort_ok nums Hin) as (l & -> & Hs & Hp). destruct Hin as [_ Hn]. cbn [mbind outcome_bind].
  assert (length l = length nums) as Hlen by (by rewrite Hp). rewrite ranks_ok by (done || lia). cbn [mbind outcome_bind].
  destruct (smaller_loop_ok l nums (Z.of_nat (length nums) + 2) (new_bit (length nums))) as (bit & -> & _); [|lia| |lia|done].
  - replace (Z.of_nat (length nums) + 2 - 1) with (Z.of_nat (length nums) + 1) by lia. apply new_bit_ok. lia.
  - intros x Hx. by rewrite Hp.
Qed.

Lemma countSmaller_correct_witness : countSmaller [5; 2; 6; 1] = Done [2; 1; 1; 0].
Proof.
  apply (countSmaller_correct [5; 2; 6; 1]). split; [|done]. intros x y Hx Hy.
  assert (1 <= x <= 6 /\ 1 <= y <= 6) as [? ?] by (rewrite !elem_of_cons, elem_of_nil in *; lia).
  unfold in_int, int_min, int_max. lia.
Defined.

(** [createSortedArray] returns, modulo 10^9 + 7, what inserting the numbers one by one
    into a sorted array costs when each costs the smaller of the numbers of elements before
    and behind its place. *)
Theorem createSortedArray_correct nums : input_ok nums -> createSortedArray nums = Done (total_cost [] nums mod MOD).
Proof.
  intros Hin. destruct nums as [|x0 nums']; [done|]. set (nums := x0 :: nums') in *.
  change (createSortedArray nums) with (sorted ← qsort nums; rs ← ranks sorted nums;
    cost_loop rs 0 (Z.of_nat (length nums) + 2) (new_bit (length nums)) 0).
  destruct (qsort_ok nums Hin) as (l & -> & Hs & Hp). destruct Hin as [_ Hn]. cbn [mbind outcome_bind].
  assert (length l = length nums) as Hlen by (by rewrite Hp). rewrite ranks_ok by (done || lia). cbn [mbind outcome_bind].
  rewrite (cost_loop_ok l [] nums); [done| |lia| |simpl app; lia|done].
  - replace (Z.of_nat (length nums) + 2 - 1) with (Z.of_nat (length nums) + 1) by lia. apply new_bit_ok. lia.
  - intros x Hx. by rewrite Hp.
Qed.

Lemma createSortedArray_correct_witness : createSortedArray [1; 5; 6; 2] = Done 1.
Proof.
  apply (createSortedArray_correct [1; 5; 6; 2]). split; [|done]. intros x y Hx Hy.
  assert (1 <= x <= 6 /\ 1 <= y <= 6) as [? ?] by (rewrite !elem_of_cons, elem_of_nil in *; lia).
  unfold in_int, int_min, int_max. lia.
Defined.

(** numbers whose difference is no [int] *)
Example far_numbers_undef : countSmaller [int_max; -1] = Undef.
Proof. by vm_compute. Qed.
