(* ===== verification/RangeCount.v ===== *)
(** * Counting range sums while merging

    "LEETCODE PROBLEMS/countRange.c": a merge sort over the prefix sums that counts, before
    it merges two sorted halves, the pairs whose difference lies in a range.  [long] has 64
    bits; [int] and [long] arithmetic is checked. *)
From S2P Require Import Prelude Counting.

(** ** The program *)

Definition long_chk (z : Z) : outcome Z := if bool_decide (- 2 ^ 63 <= z < 2 ^ 63) then Done z else Undef.

(** [while (k < right && p(sums[k])) k++;] *)
Fixpoint advance (fuel : nat) (p : Z -> outcome bool) (sums : list Z) (k right : Z) : outcome Z :=
  if k <? right then
    match fuel with
    | O => OutOfFuel
    | S fuel =>
        y ← arr_get sums k; b ← p y;
        if (b : bool) then advance fuel p sums (k + 1) right else Done k
    end
  else Done k.

(** [while (t < right && sums[t] < x) cache[r++] = sums[t++];] *)
Fixpoint take_less (fuel : nat) (sums : list Z) (x t right size : Z) (cache : list Z) : outcome (Z * list Z) :=
  if t <? right then
    match fuel with
    | O => OutOfFuel
    | S fuel =>
        y ← arr_get sums t;
        if y <? x then cache ← push size cache y; take_less fuel sums x (t + 1) right size cache
        else Done (t, cache)
    end
  else Done (t, cache).

(** [sums[k] - sums[i] < lower] and [sums[j] - sums[i] <= upper] *)
Definition below (x lower y : Z) : outcome bool := d ← long_chk (y - x); Done (d <? lower).
Definition within (x upper y : Z) : outcome bool := d ← long_chk (y - x); Done (d <=? upper).

(** the loop over the left half *)
Fixpoint merge_loop (fuel : nat) (sums : list Z) (mid right lower upper size i k j t : Z) (cache : list Z) (count : Z) :
    outcome (Z * list Z * Z) :=
  if i <? mid then
    match fuel with
    | O => OutOfFuel
    | S fuel =>
        x ← arr_get sums i;
        k ← advance (length sums) (below x lower) sums k right;
        j ← advance (length sums) (within x upper) sums j right;
        count ← long_chk (count + (j - k));
        '(t, cache) ← take_less (length sums) sums x t right size cache;
        cache ← push size cache x;
        merge_loop fuel sums mid right lower upper size (i + 1) k j t cache count
    end
  else Done (t, cache, count).

(** [for (i = ..; i < n; ++i) sums[left + i] = cache[i];] *)
Fixpoint copy_loop (fuel : nat) (sums cache : list Z) (left i n : Z) : outcome (list Z) :=
  if i <? n then
    match fuel with
    | O => OutOfFuel
    | S fuel =>
        x ← arr_get cache i; sums ← arr_set sums (left + i) x;
        copy_loop fuel sums cache left (i + 1) n
    end
  else Done sums.

Fixpoint countWhileMergeSort (fuel : nat) (sums : list Z) (left right lower upper : Z) : outcome (Z * list Z) :=
  if right - left <=? 1 then Done (0, sums)
  else
    match fuel with
    | O => OutOfFuel
    | S fuel =>
        s ← int_chk (left + right);
        let mid := Z.quot s 2 in
        '(count1, sums) ← countWhileMergeSort fuel sums left mid lower upper;
        '(count2, sums) ← countWhileMergeSort fuel sums mid right lower upper;
        count ← long_chk (count1 + count2);
        '(t, cache, count) ← merge_loop (length sums) sums mid right lower upper (right - left) left mid mid mid [] count;
        sums ← copy_loop (length sums) sums cache left 0 (t - left);
        Done (count, sums)
    end.

(** the prefix sums after [acc] *)
Fixpoint prefix_sums (acc : Z) (nums : list Z) : outcome (list Z) :=
  match nums with
  | [] => Done []
  | x :: nums' => s ← long_chk (acc + x); l ← prefix_sums s nums'; Done (s :: l)
  end.

(** the result is converted to [int] *)
Definition countRangeSum (nums : list Z) (lower upper : Z) : outcome Z :=
  l ← prefix_sums 0 nums;
  '(result, _) ← countWhileMergeSort (length (0 :: l)) (0 :: l) 0 (Z.of_nat (length nums) + 1) lower upper;
  Done (i32 result).

(** ** Specification *)

(** the sums of the non-empty contiguous parts that begin at the head *)
Fixpoint running (acc : Z) (nums : list Z) : list Z :=
  match nums with [] => [] | x :: nums' => (acc + x) :: running (acc + x) nums' end.

(** how many non-empty contiguous parts have a sum in the range *)
Fixpoint range_sums (lower upper : Z) (nums : list Z) : Z :=
  match nums with
  | [] => 0
  | _ :: nums' => cnt (fun s => (lower <=? s) && (s <=? upper)) (running 0 nums) + range_sums lower upper nums'
  end.

(** pairs of elements of a list, the later minus the earlier in the range *)
Definition diff_in (lower upper x y : Z) : bool := (lower <=? y - x) && (y - x <=? upper).
Fixpoint pairs_in (lower upper : Z) (l : list Z) : Z :=
  match l with [] => 0 | x :: l' => cnt (diff_in lower upper x) l' + pairs_in lower upper l' end.

(** pairs with the earlier element in [l1] and the later in [l2] *)
Fixpoint cross (lower upper : Z) (l1 l2 : list Z) : Z :=
  match l1 with [] => 0 | x :: l1' => cnt (diff_in lower upper x) l2 + cross lower upper l1' l2 end.

(** ** Lemmas: counting pairs *)

Lemma cross_app lower upper l1 l2 r : cross lower upper (l1 ++ l2) r = cross lower upper l1 r + cross lower upper l2 r.
Proof. induction l1 as [|x l1 IH]; simpl; [done|]. rewrite IH. lia. Qed.

Lemma pairs_app lower upper l1 l2 :
  pairs_in lower upper (l1 ++ l2) = pairs_in lower upper l1 + pairs_in lower upper l2 + cross lower upper l1 l2.
Proof. induction l1 as [|x l1 IH]; simpl; [lia|]. rewrite IH, cnt_app. lia. Qed.

Lemma cross_perm lower upper l1 l1' l2 l2' : l1 ≡ₚ l1' -> l2 ≡ₚ l2' -> cross lower upper l1 l2 = cross lower upper l1' l2'.
Proof.
  intros H1 H2. transitivity (cross lower upper l1 l2').
  - clear H1. induction l1 as [|x l1 IH]; simpl; [done|]. by rewrite IH, (cnt_perm _ _ _ H2).
  - induction H1; simpl; lia.
Qed.

Lemma cross_bounds lower upper l1 l2 : 0 <= cross lower upper l1 l2 <= Z.of_nat (length l1) * Z.of_nat (length l2).
Proof. induction l1 as [|x l1 IH]; simpl; [lia|]. pose proof (cnt_bounds (diff_in lower upper x) l2). lia. Qed.

Lemma pairs_bounds lower upper l : 0 <= pairs_in lower upper l <= Z.of_nat (length l) * Z.of_nat (length l).
Proof. induction l as [|x l IH]; simpl; [lia|]. pose proof (cnt_bounds (diff_in lower upper x) l). nia. Qed.

(** the differences in the range are those up to [upper] that are not below [lower] *)
Lemma cnt_diff lower upper x l : lower <= upper ->
  cnt (diff_in lower upper x) l = cnt (fun y => y - x <=? upper) l - cnt (fun y => y - x <? lower) l.
Proof.
  intros Hlu. rewrite (cnt_split (fun y => y - x <=? upper) (fun y => y - x <? lower) (diff_in lower upper x)); [lia|].
  intros y _. unfold diff_in. zcases; simpl; lia.
Qed.

(** ** Lemmas: sorted lists *)

Lemma sorted_app l1 l2 : sorted (l1 ++ l2) <-> sorted l1 /\ sorted l2 /\ (forall x y, x ∈ l1 -> y ∈ l2 -> x <= y).
Proof.
  unfold sorted. induction l1 as [|x l1 IH]; simpl.
  - split; [intros H; split_and!; [constructor|done|by intros ?? ?%elem_of_nil]|by intros (_ & H & _)].
  - split.
    + intros H. apply StronglySorted_inv in H as [Hs Hx]. apply IH in Hs as (H1 & H2 & H3). apply Forall_app in Hx as [Hx1 Hx2].
      split_and!; [by constructor|done|]. rewrite Forall_forall in Hx2.
      intros a b [->|Ha]%elem_of_cons Hb; [by apply Hx2|by apply H3].
    + intros (H1 & H2 & H3). apply StronglySorted_inv in H1 as [Hs Hx]. constructor.
      * apply IH. split_and!; [done|done|]. intros a b Ha. apply H3. by right.
      * apply Forall_app. split; [done|]. apply Forall_forall. intros b Hb. apply H3; [by left|done].
Qed.

Lemma sorted_one x : sorted [x].
Proof. repeat constructor. Qed.

(** ** Lemmas: the loops over the right half *)

Lemma long_chk_ok z : - 2 ^ 63 <= z < 2 ^ 63 -> long_chk z = Done z.
Proof. intros H. unfold long_chk. by rewrite bool_decide_true. Qed.

(** the cells of [sums] from [mid] on are [R] *)
Definition cells (sums : list Z) (mid : Z) (R : list Z) : Prop :=
  forall n y, R !! n = Some y -> arr_get sums (mid + Z.of_nat n) = Done y.

Lemma cells_app sums mid A B : cells sums mid (A ++ B) -> cells sums mid A /\ cells sums (mid + Z.of_nat (length A)) B.
Proof.
  intros H. split; intros n y Hn.
  - apply H. by apply lookup_app_l_Some.
  - replace (mid + Z.of_nat (length A) + Z.of_nat n) with (mid + Z.of_nat (length A + n)) by lia. apply H.
    rewrite lookup_app_r by lia. by replace (length A + n - length A)%nat with n by lia.
Qed.

Lemma cells_head sums mid A y B : cells sums mid (A ++ y :: B) -> arr_get sums (mid + Z.of_nat (length A)) = Done y.
Proof. intros H. apply H. by apply list_lookup_middle. Qed.

(** the walk stops behind the elements that pass a test, if those come first *)
Lemma advance_ok sums mid fuel p q R1 R2 : cells sums mid (R1 ++ R2) -> sorted (R1 ++ R2) ->
  (forall y, y ∈ R1 ++ R2 -> p y = Done (q y)) -> (forall x y, x <= y -> q y = true -> q x = true) ->
  (forall y, y ∈ R1 -> q y = true) -> (length R2 <= fuel)%nat ->
  advance fuel p sums (mid + Z.of_nat (length R1)) (mid + Z.of_nat (length (R1 ++ R2))) = Done (mid + cnt q (R1 ++ R2)).
Proof.
  revert R1 R2. induction fuel as [|fuel IH]; intros R1 R2 Hc Hs Hp Hq H1 Hf; cbn [advance];
    (destruct R2 as [|y R2]; [rewrite app_nil_r, Z.ltb_irrefl, cnt_all by done; done|]); [simpl in *; lia|].
  rewrite (proj2 (Z.ltb_lt _ _)) by (rewrite length_app; simpl; lia). rewrite (cells_head _ _ _ _ _ Hc). cbn [mbind outcome_bind].
  rewrite Hp by set_solver. cbn [mbind outcome_bind]. destruct (q y) eqn:Hy.
  - rewrite cons_middle, app_assoc in *.
    replace (mid + Z.of_nat (length R1) + 1) with (mid + Z.of_nat (length (R1 ++ [y]))) by (rewrite length_app; simpl; lia).
    apply IH; [done..| |simpl in *; lia]. intros z [Hz|Hz%list_elem_of_singleton]%elem_of_app; [by apply H1|by subst].
  - f_equal. f_equal. rewrite cnt_app, (cnt_all q R1) by done. rewrite (cnt_none q (y :: R2)); [lia|].
    apply sorted_app in Hs as (_ & Hs & _). apply StronglySorted_inv in Hs as [_ Hs]. rewrite Forall_forall in Hs.
    intros z [->|Hz]%elem_of_cons; [done|]. apply not_true_is_false. intros Hqz. by rewrite (Hq _ _ (Hs _ Hz) Hqz) in Hy.
Qed.

Lemma take_less_ok sums mid fuel x size R1 R2 cache : cells sums mid (R1 ++ R2) -> (length R2 <= fuel)%nat ->
  Z.of_nat (length cache + length R2) <= size ->
  exists T R2', R2 = T ++ R2' /\ (forall y, y ∈ T -> y < x) /\ (forall y R, R2' = y :: R -> x <= y) /\
    take_less fuel sums x (mid + Z.of_nat (length R1)) (mid + Z.of_nat (length (R1 ++ R2))) size cache =
      Done (mid + Z.of_nat (length (R1 ++ T)), cache ++ T).
Proof.
  revert R1 R2 cache. induction fuel as [|fuel IH]; intros R1 R2 cache Hc Hf Hsz; cbn [take_less];
    (destruct R2 as [|y R2]; [exists [], []; rewrite !app_nil_r, Z.ltb_irrefl; split_and!; [done|by intros y ?%elem_of_nil|done|done]|]); [simpl in *; lia|].
  rewrite (proj2 (Z.ltb_lt _ _)) by (rewrite length_app; simpl; lia). rewrite (cells_head _ _ _ _ _ Hc). cbn [mbind outcome_bind].
  destruct (Z.ltb_spec y x) as [Hy|Hy].
  - rewrite push_ok by (simpl in *; lia). cbn [mbind outcome_bind]. rewrite cons_middle, app_assoc in *.
    replace (mid + Z.of_nat (length R1) + 1) with (mid + Z.of_nat (length (R1 ++ [y]))) by (rewrite length_app; simpl; lia).
    destruct (IH (R1 ++ [y]) R2 (cache ++ [y])) as (T & R2' & -> & HT & HR & ->); [done|simpl in *; lia|rewrite length_app; simpl in *; lia|].
    exists (y :: T), R2'. split_and!; [done| |done|by rewrite <- !app_assoc].
    intros z [->|Hz]%elem_of_cons; [done|by apply HT].
  - exists [], (y :: R2). rewrite !app_nil_r. split_and!; [done|by intros z ?%elem_of_nil| |done]. by intros z R [= <- <-].
Qed.

Lemma sorted_prefix q R : sorted R -> (forall x y, x <= y -> q y = true -> q x = true) ->
  exists A B, R = A ++ B /\ (forall y, y ∈ A -> q y = true) /\ cnt q R = Z.of_nat (length A).
Proof.
  intros Hs Hq. induction Hs as [|y R _ (A & B & -> & HA & Hc) Hy]; [exists [], []; set_solver|].
  destruct (q y) eqn:Hqy.
  - exists (y :: A), B. simpl. rewrite Hqy, Hc. split_and!; [done| |simpl; lia]. by intros z [->|Hz]%elem_of_cons; [|apply HA].
  - exists [], (y :: A ++ B). split_and!; [done|by intros z ?%elem_of_nil|]. simpl. rewrite Hqy, cnt_none; [done|].
    intros z Hz. rewrite Forall_forall in Hy. apply not_true_is_false. intros Hqz. by rewrite (Hq _ _ (Hy _ Hz) Hqz) in Hqy.
Qed.

(** one of the two walks, and what it leaves for the next element *)
Lemma advance_prefix sums mid (R : list Z) (p : Z -> outcome bool) q K1 K2 : cells sums mid R -> sorted R -> R = K1 ++ K2 ->
  (forall y, y ∈ R -> p y = Done (q y)) -> (forall x y, x <= y -> q y = true -> q x = true) ->
  (forall y, y ∈ K1 -> q y = true) -> (length R <= length sums)%nat ->
  exists A B, R = A ++ B /\ (forall y, y ∈ A -> q y = true) /\ cnt q R = Z.of_nat (length A) /\
    advance (length sums) p sums (mid + Z.of_nat (length K1)) (mid + Z.of_nat (length R)) = Done (mid + Z.of_nat (length A)).
Proof.
  intros Hc Hs HR Hp Hq H1 Hlen. destruct (sorted_prefix q R Hs Hq) as (A & B & HAB & HA & Hcnt).
  exists A, B. split_and!; [done..|]. subst R. rewrite (advance_ok sums mid (length sums) p q K1 K2); try done.
  - by rewrite Hcnt.
  - rewrite length_app in Hlen. lia.
Qed.

Definition small (y : Z) : Prop := - 2 ^ 62 <= y < 2 ^ 62.

(** the merge: what is before the loop counter is in the cache, sorted, with the smaller
    elements of the right half *)
Record merging (L1 L2 R R1 R2 cache : list Z) : Prop := {
  g_right : R = R1 ++ R2;
  g_cache : cache ≡ₚ L1 ++ R1;
  g_sorted : sorted cache;
  g_below : forall c z, c ∈ cache -> z ∈ L2 ++ R2 -> c <= z;
}.

Lemma merging_step L1 x L2 R R1 T R2 cache : merging L1 (x :: L2) R R1 (T ++ R2) cache -> sorted (x :: L2) -> sorted R ->
  (forall y, y ∈ T -> y < x) -> (forall y R', R2 = y :: R' -> x <= y) ->
  merging (L1 ++ [x]) L2 R (R1 ++ T) R2 ((cache ++ T) ++ [x]).
Proof.
  intros [-> Hp Hs Hb] HL HR HT H2. apply sorted_app in HR as (_ & HR & _). apply sorted_app in HR as (HsT & HsR & HTR).
  apply StronglySorted_inv in HL as [_ HL]. rewrite Forall_forall in HL.
  assert (forall z, z ∈ R2 -> x <= z) as HxR.
  { destruct R2 as [|y R2']; [by intros z ?%elem_of_nil|]. apply StronglySorted_inv in HsR as [_ Hy]. rewrite Forall_forall in Hy.
    pose proof (H2 y R2' eq_refl). intros z [->|Hz]%elem_of_cons; [done|]. pose proof (Hy _ Hz). lia. }
  split; [by rewrite app_assoc|rewrite Hp; solve_Permutation| |].
  - apply sorted_app. split_and!; [|apply sorted_one|].
    + apply sorted_app. split_and!; [done|done|]. intros a b Ha Hb'. apply Hb; [done|]. set_solver.
    + intros a b [Ha|Ha]%elem_of_app ->%list_elem_of_singleton; [apply Hb; set_solver|]. pose proof (HT _ Ha). lia.
  - intros c z Hc Hz. apply elem_of_app in Hc as [[Hc|Hc]%elem_of_app| ->%list_elem_of_singleton].
    + apply Hb; set_solver.
    + apply elem_of_app in Hz as [Hz|Hz]; [|by apply HTR]. pose proof (HL _ Hz). pose proof (HT _ Hc). lia.
    + apply elem_of_app in Hz as [Hz|Hz]; [by apply HL|by apply HxR].
Qed.

Lemma merge_halves_ok sums left right lower upper R L2 : forall L1 fuel K1 K2 J1 J2 R1 R2 cache count,
  let mid := left + Z.of_nat (length (L1 ++ L2)) in
  lower <= upper -> cells sums left (L1 ++ L2) -> cells sums mid R -> right = mid + Z.of_nat (length R) ->
  sorted L2 -> sorted R -> (forall y, y ∈ L2 ++ R -> small y) -> (length R <= length sums)%nat -> (length L2 <= fuel)%nat ->
  R = K1 ++ K2 -> (forall x y, x ∈ L2 -> y ∈ K1 -> (y - x <? lower) = true) ->
  R = J1 ++ J2 -> (forall x y, x ∈ L2 -> y ∈ J1 -> (y - x <=? upper) = true) ->
  merging L1 L2 R R1 R2 cache -> 0 <= count -> count + cross lower upper L2 R < 2 ^ 63 ->
  exists R1' R2' cache', merging (L1 ++ L2) [] R R1' R2' cache' /\
    merge_loop fuel sums mid right lower upper (right - left) (left + Z.of_nat (length L1)) (mid + Z.of_nat (length K1))
      (mid + Z.of_nat (length J1)) (mid + Z.of_nat (length R1)) cache count =
    Done (mid + Z.of_nat (length R1'), cache', count + cross lower upper L2 R).
Proof.
  induction L2 as [|x L2 IH]; intros L1 fuel K1 K2 J1 J2 R1 R2 cache count mid Hlu HcL HcR -> HsL HsR Hsm Hlen Hf HK HK1 HJ HJ1 Hm Hc0 Hcb.
  { exists R1, R2, cache. unfold mid in *. rewrite app_nil_r in *. split; [done|].
    destruct fuel; cbn [merge_loop]; rewrite Z.ltb_irrefl; simpl; by rewrite Z.add_0_r. }
  destruct fuel as [|fuel]; [simpl in Hf; lia|]. cbn [merge_loop].
  rewrite (proj2 (Z.ltb_lt _ _)) by (unfold mid; rewrite length_app; simpl; lia).
  rewrite (cells_head _ _ _ _ _ HcL). cbn [mbind outcome_bind].
  assert (forall y, y ∈ R -> - 2 ^ 63 <= y - x < 2 ^ 63) as Hd.
  { intros y Hy. pose proof (Hsm y ltac:(set_solver)). pose proof (Hsm x ltac:(set_solver)). unfold small in *. lia. }
  destruct (advance_prefix sums mid R (below x lower) (fun y => y - x <? lower) K1 K2) as (A & B & HA & HA1 & HcA & ->); try done.
  { intros y Hy. unfold below. by rewrite long_chk_ok by (by apply Hd). }
  { intros a b Hab ?%Z.ltb_lt. apply Z.ltb_lt. lia. }
  { intros y Hy. apply HK1; [by left|done]. }
  cbn [mbind outcome_bind].
  destruct (advance_prefix sums mid R (within x upper) (fun y => y - x <=? upper) J1 J2) as (C & D & HC & HC1 & HcC & ->); try done.
  { intros y Hy. unfold within. by rewrite long_chk_ok by (by apply Hd). }
  { intros a b Hab ?%Z.leb_le. apply Z.leb_le. lia. }
  { intros y Hy. apply HJ1; [by left|done]. }
  cbn [mbind outcome_bind cross] in *. pose proof (cnt_diff lower upper x R Hlu) as Hcd. pose proof (cross_bounds lower upper L2 R).
  pose proof (cnt_bounds (diff_in lower upper x) R).
  rewrite long_chk_ok by lia. cbn [mbind outcome_bind]. pose proof (g_right _ _ _ _ _ _ Hm) as HR.
  assert (length cache = length L1 + length R1)%nat as Hcl by (by rewrite (g_cache _ _ _ _ _ _ Hm), length_app).
  assert (length R = length R1 + length R2)%nat as HRl by (by rewrite HR, length_app).
  destruct (take_less_ok sums mid (length sums) x (mid + Z.of_nat (length R) - left) R1 R2 cache) as (T & R2' & HR2 & HT & H2 & Htl);
    [by rewrite <- HR|lia|unfold mid; rewrite length_app; simpl; lia|].
  rewrite <- HR in Htl. rewrite Htl. cbn [mbind outcome_bind]. clear Htl. subst R2. rewrite length_app in HRl.
  rewrite push_ok by (unfold mid; rewrite !length_app; simpl; lia). cbn [mbind outcome_bind].
  replace (left + Z.of_nat (length L1) + 1) with (left + Z.of_nat (length (L1 ++ [x]))) by (rewrite length_app; simpl; lia).
  assert (L1 ++ x :: L2 = (L1 ++ [x]) ++ L2) as HL by (by rewrite <- app_assoc).
  pose proof (proj1 (StronglySorted_inv HsL)) as HsL2. pose proof (proj2 (StronglySorted_inv HsL)) as Hx. rewrite Forall_forall in Hx.
  specialize (IH (L1 ++ [x]) fuel A B C D (R1 ++ T) R2' ((cache ++ T) ++ [x]) (count + (mid + Z.of_nat (length C) - (mid + Z.of_nat (length A))))).
  cbv zeta in IH. rewrite <- HL in IH. destruct IH as (R1' & R2'' & cache' & Hm' & Heq); try done; try lia.
  { intros y Hy. apply Hsm. set_solver. }
  { simpl in Hf. lia. }
  { intros a b Ha Hb. pose proof (HA1 _ Hb) as Hlt%Z.ltb_lt. pose proof (Hx _ Ha). apply Z.ltb_lt. lia. }
  { intros a b Ha Hb. pose proof (HC1 _ Hb) as Hlt%Z.leb_le. pose proof (Hx _ Ha). apply Z.leb_le. lia. }
  { by apply merging_step. }
  exists R1', R2'', cache'. split; [done|]. unfold mid in *. rewrite Heq. do 2 f_equal. lia.
Qed.

(** ** Lemmas: the whole sort *)

Lemma cells_mid pre S post : cells (pre ++ S ++ post) (Z.of_nat (length pre)) S.
Proof.
  intros n y Hn. apply arr_get_Done. split; [lia|]. replace (Z.to_nat _) with (length pre + n)%nat by lia.
  rewrite lookup_app_r by lia. replace (length pre + n - length pre)%nat with n by lia. by apply lookup_app_l_Some.
Qed.

Lemma copy_loop_ok pre post fuel : forall c1 c2 old, length old = length c2 -> (length c2 <= fuel)%nat ->
  copy_loop fuel (pre ++ c1 ++ old ++ post) (c1 ++ c2) (Z.of_nat (length pre)) (Z.of_nat (length c1)) (Z.of_nat (length (c1 ++ c2))) =
    Done (pre ++ (c1 ++ c2) ++ post).
Proof.
  induction fuel as [|fuel IH]; intros c1 c2 old Hl Hf; cbn [copy_loop]; (destruct c2 as [|x c2];
    [rewrite app_nil_r, Z.ltb_irrefl; destruct old; [done|done]|]); [simpl in *; lia|].
  destruct old as [|y old]; [done|]. rewrite (proj2 (Z.ltb_lt _ _)) by (rewrite length_app; simpl; lia).
  rewrite (proj2 (arr_get_Done (c1 ++ x :: c2) _ x)) by (split; [lia|]; by apply list_lookup_middle; lia).
  cbn [mbind outcome_bind]. rewrite arr_set_in by (rewrite !length_app; simpl; lia). cbn [mbind outcome_bind].
  replace (Z.to_nat _) with (length (pre ++ c1)) by (rewrite length_app; lia).
  rewrite app_assoc. simpl app. rewrite list_insert_mid, <- app_assoc.
  replace (c1 ++ x :: c2) with ((c1 ++ [x]) ++ c2) by (by rewrite <- app_assoc).
  replace (c1 ++ x :: old ++ post) with ((c1 ++ [x]) ++ old ++ post) by (by rewrite <- app_assoc).
  replace (Z.of_nat (length c1) + 1) with (Z.of_nat (length (c1 ++ [x]))) by (rewrite length_app; simpl; lia).
  apply IH; simpl in *; lia.
Qed.

Lemma merge_ok pre L R post lower upper count : lower <= upper -> sorted L -> sorted R -> (forall y, y ∈ L ++ R -> small y) ->
  0 <= count -> count + cross lower upper L R < 2 ^ 63 ->
  let sums := pre ++ (L ++ R) ++ post in let left := Z.of_nat (length pre) in
  let mid := left + Z.of_nat (length L) in let right := mid + Z.of_nat (length R) in
  exists S', sorted S' /\ S' ≡ₚ L ++ R /\
    ('(t, cache, count) ← merge_loop (length sums) sums mid right lower upper (right - left) left mid mid mid [] count;
     sums ← copy_loop (length sums) sums cache left 0 (t - left);
     Done (count, sums)) = Done (count + cross lower upper L R, pre ++ S' ++ post).
Proof.
  intros Hlu HL HR Hsm Hc Hcb sums left mid right. pose proof (cells_mid pre (L ++ R) post) as Hcells. apply cells_app in Hcells as [HcL HcR].
  assert (merging [] L R [] R []) as Hm by (split; [done|done|constructor|by intros c z ?%elem_of_nil]).
  pose proof (merge_halves_ok sums left right lower upper R L [] (length sums) [] R [] R [] R [] count) as H. cbv zeta in H.
  simpl app in H. destruct H as (R1 & R2 & cache & [HR12 Hp Hs Hb] & Heq); try done;
    try (unfold sums; rewrite !length_app; lia); try (intros ?? _ ?%elem_of_nil; done).
  simpl length in Heq. rewrite !Z.add_0_r in Heq. fold mid in Heq. rewrite Heq. cbn [mbind outcome_bind].
  exists (cache ++ R2). split_and!.
  - apply sorted_app. subst R. apply sorted_app in HR as (_ & HR2 & _). split_and!; [done|done|]. intros x y Hx Hy. apply Hb; [done|]. set_solver.
  - rewrite Hp, HR12. simpl. by rewrite app_assoc.
  - pose proof (copy_loop_ok pre (R2 ++ post) (length sums) [] cache (L ++ R1)) as Hcopy. simpl in Hcopy. change (Z.of_nat 0) with 0 in Hcopy.
    assert (length cache = length (L ++ R1)) as Hlen by (rewrite Hp; simpl; done).
    replace (mid + Z.of_nat (length R1) - left) with (Z.of_nat (length cache)) by (rewrite Hlen, length_app; unfold mid; lia).
    unfold sums, left in *. rewrite HR12 in *. rewrite <- !app_assoc in *. rewrite Hcopy; [done|done|rewrite Hlen, !length_app; lia].
Qed.

Lemma pairs_sums_bound lower upper (l : list Z) : Z.of_nat (length l) < 2 ^ 30 -> 0 <= pairs_in lower upper l < 2 ^ 62.
Proof. intros Hl. pose proof (pairs_bounds lower upper l). nia. Qed.

Lemma sort_ok lower upper fuel : forall pre S post, lower <= upper -> (forall y, y ∈ S -> small y) ->
  Z.of_nat (length (pre ++ S)) < 2 ^ 30 -> (length S <= fuel)%nat ->
  exists S', sorted S' /\ S' ≡ₚ S /\
    countWhileMergeSort fuel (pre ++ S ++ post) (Z.of_nat (length pre)) (Z.of_nat (length (pre ++ S))) lower upper =
      Done (pairs_in lower upper S, pre ++ S' ++ post).
Proof.
  assert (forall pre S post, Z.of_nat (length S) <= 1 -> exists S', sorted S' /\ S' ≡ₚ S /\
    Done (0, pre ++ S ++ post) = Done (pairs_in lower upper S, pre ++ S' ++ post)) as Hbase.
  { intros pre S post Hl. destruct S as [|x [|]]; simpl in *; [exists []|exists [x]|lia]; split_and!; try done; repeat constructor. }
  induction fuel as [|fuel IH]; intros pre S post Hlu Hsm Hb Hf; cbn [countWhileMergeSort];
    (rewrite length_app in *; zcases; [apply Hbase; lia|]); [lia|].
  rewrite int_chk_ok by (unfold int_min, int_max; lia). cbn [mbind outcome_bind]. cbv zeta. rewrite Z.quot_div_nonneg by lia.
  set (mid := _ / 2). assert (Z.of_nat (length pre) < mid < Z.of_nat (length pre + length S)) as Hmid
    by (unfold mid; Z.to_euclidean_division_equations; lia).
  clearbody mid. assert (exists L R, S = L ++ R /\ Z.of_nat (length L) = mid - Z.of_nat (length pre)) as (L & R & -> & Hm).
  { exists (take (Z.to_nat (mid - Z.of_nat (length pre))) S), (drop (Z.to_nat (mid - Z.of_nat (length pre))) S).
    rewrite take_drop, length_take. split; [done|lia]. }
  rewrite length_app in *.
  destruct (IH pre L (R ++ post)) as (L' & HsL & HpL & HL); [done|set_solver|rewrite length_app; lia|lia|].
  replace (Z.of_nat (length (pre ++ L))) with mid in HL by (rewrite length_app; lia). rewrite <- app_assoc, HL. cbn [mbind outcome_bind].
  destruct (IH (pre ++ L') R post) as (R' & HsR & HpR & HR); [done|set_solver|rewrite !length_app, HpL; lia|lia|].
  assert (length L' = length L) as HlL by (by rewrite HpL). assert (length R' = length R) as HlR by (by rewrite HpR).
  rewrite <- !app_assoc, !length_app, HlL in HR. replace (Z.of_nat (length pre + length L)) with mid in HR by lia.
  replace (Z.of_nat (length pre + length L + length R)) with (Z.of_nat (length pre + (length L + length R))) in HR by lia.
  rewrite HR. cbn [mbind outcome_bind].
  pose proof (pairs_bounds lower upper L). pose proof (pairs_bounds lower upper R). pose proof (cross_bounds lower upper L R).
  rewrite long_chk_ok by nia. cbn [mbind outcome_bind].
  destruct (merge_ok pre L' R' post lower upper (pairs_in lower upper L + pairs_in lower upper R)) as (S' & HsS & HpS & HS); [done..| | | |].
  - intros y Hy. apply Hsm. by rewrite <- HpL, <- HpR.
  - lia.
  - rewrite (cross_perm lower upper L' L R' R HpL HpR). nia.
  - cbv zeta in HS. rewrite HlL, HlR in HS. exists S'. split_and!; [done|by rewrite HpS, HpL, HpR|].
    rewrite <- !app_assoc in HS. replace (Z.of_nat (length pre) + Z.of_nat (length L)) with mid in HS by lia.
    replace (mid + Z.of_nat (length R)) with (Z.of_nat (length pre + (length L + length R))) in HS by lia.
    rewrite HS, (cross_perm lower upper L' L R' R HpL HpR), pairs_app. done.
Qed.

(** ** Lemmas: the prefix sums *)

Lemma running_length acc nums : length (running acc nums) = length nums.
Proof. revert acc. induction nums as [|x nums IH]; intros acc; simpl; [done|]. by rewrite IH. Qed.

Lemma running_shift acc nums : running acc nums = (Z.add acc) <$> running 0 nums.
Proof.
  enough (forall a b, running (a + b) nums = (Z.add a) <$> running b nums) as H by (rewrite <- H; f_equal; lia).
  induction nums as [|x nums IH]; intros a b; simpl; [done|]. by rewrite <- IH, Z.add_assoc.
Qed.

Lemma pairs_running lower upper acc nums : pairs_in lower upper (acc :: running acc nums) = range_sums lower upper nums.
Proof.
  revert acc. induction nums as [|x nums IH]; intros acc; [done|].
  change (pairs_in lower upper (acc :: running acc (x :: nums))) with
    (cnt (diff_in lower upper acc) (running acc (x :: nums)) + pairs_in lower upper ((acc + x) :: running (acc + x) nums)).
  rewrite IH, running_shift, cnt_fmap.
  change (range_sums lower upper (x :: nums)) with
    (cnt (fun s => (lower <=? s) && (s <=? upper)) (running 0 (x :: nums)) + range_sums lower upper nums). f_equal. apply cnt_ext. intros y _. unfold diff_in.
  by replace (acc + y - acc) with y by lia.
Qed.

Lemma prefix_sums_ok acc nums : Forall in_int nums -> Z.of_nat (length nums) < 2 ^ 30 ->
  - 2 ^ 61 + 2 ^ 31 * Z.of_nat (length nums) <= acc <= 2 ^ 61 - 2 ^ 31 * Z.of_nat (length nums) ->
  prefix_sums acc nums = Done (running acc nums) /\ forall y, y ∈ running acc nums -> small y.
Proof.
  revert acc. induction nums as [|x nums IH]; intros acc Hf Hl Ha; [split; [done|by intros y ?%elem_of_nil]|].
  apply Forall_cons in Hf as [Hx Hf]. unfold in_int, int_min, int_max in Hx. cbn [prefix_sums running]. simpl length in *.
  rewrite long_chk_ok by lia. cbn [mbind outcome_bind]. destruct (IH (acc + x)) as [-> Hs]; [done|lia|lia|]. split; [done|].
  intros y [->|Hy]%elem_of_cons; [unfold small; lia|by apply Hs].
Qed.

(** ** Properties *)

(** C38: [countRangeSum] counts.  For a range that is not empty and fewer than 2^29 numbers
    it returns, converted to [int], how many contiguous parts of [nums] have their sum in
    the range; every access to [sums] and [cache] is within the array and no [int] or
    [long] overflows. *)
Theorem countRangeSum_correct nums lower upper : Forall in_int nums -> Z.of_nat (length nums) < 2 ^ 29 -> lower <= upper ->
  countRangeSum nums lower upper = Done (i32 (range_sums lower upper nums)).
Proof.
  intros Hn Hl Hlu. unfold countRangeSum. destruct (prefix_sums_ok 0 nums) as [-> Hs]; [done|lia|lia|]. cbn [mbind outcome_bind].
  destruct (sort_ok lower upper (length (0 :: running 0 nums)) [] (0 :: running 0 nums) []) as (S' & _ & _ & H); [done| | |done|].
  - intros y [->|Hy]%elem_of_cons; [unfold small; lia|by apply Hs].
  - simpl. rewrite running_length. lia.
  - rewrite app_nil_r in H. simpl app in H. change (Z.of_nat (length (@nil Z))) with 0 in H.
    replace (Z.of_nat (length (0 :: running 0 nums))) with (Z.of_nat (length nums) + 1) in H by (simpl; rewrite running_length; lia).
    rewrite H. cbn [mbind outcome_bind]. by rewrite pairs_running.
Qed.

Lemma countRangeSum_correct_witness : countRangeSum [-2; 5; -1] (-2) 2 = Done 3.
Proof.
  apply (countRangeSum_correct [-2; 5; -1] (-2) 2); [|simpl; lia|lia].
  repeat constructor; unfold int_min, int_max; lia.
Defined.
