(* ===== verification/SlidingWindow.v ===== *)
(** * The maxima of a sliding window

    "LEETCODE PROBLEMS/SlidingWindowMaximum.c": an array of indices is used as a deque whose
    values fall from front to back.  A cell of a fresh array that is read before it is
    written, and an index outside of an array, are undefined. *)
From S2P Require Import Prelude.

(** ** The program *)

(** a fresh array of [n] cells *)
Definition malloc (n : nat) : list (option Z) := replicate n None.
Definition cell (l : list (option Z)) (i : Z) : outcome Z := v ← arr_get l i; of_option v.

(** [while (back > front && nums[deque[back - 1]] < x) back--;] *)
Fixpoint pop_loop (fuel : nat) (nums : list Z) (deque : list (option Z)) (front back x : Z) : outcome Z :=
  if front <? back then
    match fuel with
    | O => OutOfFuel
    | S fuel =>
        p ← cell deque (back - 1); y ← arr_get nums p;
        if y <? x then pop_loop fuel nums deque front (back - 1) x else Done back
    end
  else Done back.

Record window := mkWindow { deque : list (option Z); front : Z; back : Z; result : list (option Z); returnSize : Z }.

(** the body of the loop for the index [i] *)
Definition slide (nums : list Z) (k i : Z) (w : window) : outcome window :=
  x ← arr_get nums i;
  back ← pop_loop (length nums) nums (deque w) (front w) (back w) x;
  deque ← arr_set (deque w) back (Some i);
  let back := back + 1 in
  d ← cell deque (front w);
  let front := if d <=? i - k then front w + 1 else front w in
  if k - 1 <=? i then
    p ← cell deque front; y ← arr_get nums p;
    result ← arr_set (result w) (returnSize w) (Some y);
    Done (mkWindow deque front back result (returnSize w + 1))
  else Done (mkWindow deque front back (result w) (returnSize w)).

Fixpoint slide_loop (n : nat) (nums : list Z) (k i : Z) (w : window) : outcome window :=
  match n with
  | O => Done w
  | S n => w ← slide nums k i w; slide_loop n nums k (i + 1) w
  end.

(** [result] and [*returnSize]; no array at all for no numbers or no window.  [malloc] of a
    negative size is left out: the windows have between one and all of the numbers. *)
Definition maxSlidingWindow (nums : list Z) (k : Z) : outcome (list (option Z) * Z) :=
  if (Z.of_nat (length nums) =? 0) || (k =? 0) then Done ([], 0)
  else
    let windowCount := Z.of_nat (length nums) - k + 1 in
    if windowCount <? 0 then Undef
    else
      w ← slide_loop (length nums) nums k 0
            (mkWindow (malloc (length nums)) 0 0 (malloc (Z.to_nat windowCount)) 0);
      Done (result w, returnSize w).

(** ** Specification *)

Fixpoint maximum (l : list Z) : Z :=
  match l with [] => 0 | [x] => x | x :: l' => Z.max x (maximum l') end.

(** the maximum of every [k] neighbours *)
Definition window_maxima (nums : list Z) (k : nat) : list Z :=
  (fun s => maximum (take k (drop s nums))) <$> seq 0 (length nums - k + 1).

(** ** Lemmas *)

Section window.
Context (nums : list Z) (k : nat).
Context (Hk : (1 <= k <= length nums)%nat).

Definition val (p : nat) : Z := nums !!! p.

Lemma val_get p : (p < length nums)%nat -> arr_get nums (Z.of_nat p) = Done (val p).
Proof.
  intros Hp. apply arr_get_Done. split; [lia|]. rewrite Nat2Z.id. by apply list_lookup_lookup_total_lt.
Qed.

(** the deque: later indices, and no larger values, towards the back *)
Definition falling (D : list nat) : Prop := StronglySorted (fun p q => (p < q)%nat /\ val q <= val p) D.

Lemma falling_app D1 D2 : falling (D1 ++ D2) <->
  falling D1 /\ falling D2 /\ (forall p q, p ∈ D1 -> q ∈ D2 -> (p < q)%nat /\ val q <= val p).
Proof.
  unfold falling. induction D1 as [|p D1 IH]; simpl.
  - split; [intros H; split_and!; [constructor|done|by intros ?? ?%elem_of_nil]|by intros (_ & H & _)].
  - split.
    + intros [Hs Hp]%StronglySorted_inv. apply IH in Hs as (H1 & H2 & H3). apply Forall_app in Hp as [Hp1 Hp2].
      split_and!; [by constructor|done|]. rewrite Forall_forall in Hp2. intros a b [->|Ha]%elem_of_cons Hb; [by apply Hp2|by apply H3].
    + intros (H1 & H2 & H3). apply StronglySorted_inv in H1 as [Hs Hp]. constructor.
      * apply IH. split_and!; [done|done|]. intros a b Ha. apply H3. by right.
      * apply Forall_app. split; [done|]. apply Forall_forall. intros b Hb. apply H3; [by left|done].
Qed.

(** [D] are the indices in the cells from [front] to [back - 1] *)
Definition holds (deque : list (option Z)) (front back : Z) (D : list nat) : Prop :=
  0 <= front /\ back = front + Z.of_nat (length D) /\
  forall j p, D !! j = Some p -> cell deque (front + Z.of_nat j) = Done (Z.of_nat p).

Lemma pop_ok deque front x fuel D back : holds deque front back D -> falling D ->
  (forall p, p ∈ D -> (p < length nums)%nat) -> (length D <= fuel)%nat ->
  exists D1 D2, D = D1 ++ D2 /\ (forall p, p ∈ D2 -> val p < x) /\ (forall p, p ∈ D1 -> x <= val p) /\
    pop_loop fuel nums deque front back x = Done (front + Z.of_nat (length D1)).
Proof.
  revert D back. induction fuel as [|fuel IH]; intros D back (H0 & -> & Hc) Hf Hr Hl; cbn [pop_loop].
  { destruct D; [|simpl in Hl; lia]. exists [], []. split_and!; try (by intros p ?%elem_of_nil); [done|].
    simpl. by rewrite Z.add_0_r, Z.ltb_irrefl. }
  destruct D as [|q D] using rev_ind; [exists [], []; split_and!; try (by intros p ?%elem_of_nil); [done|]; simpl; by rewrite Z.add_0_r, Z.ltb_irrefl|].
  clear IHD. rewrite length_app in *. simpl length in *. rewrite (proj2 (Z.ltb_lt _ _)) by lia.
  assert (cell deque (front + Z.of_nat (length D + 1) - 1) = Done (Z.of_nat q)) as ->.
  { replace (front + Z.of_nat (length D + 1) - 1) with (front + Z.of_nat (length D)) by lia. apply Hc. by apply list_lookup_middle. }
  cbn [mbind outcome_bind]. rewrite val_get by (apply Hr; set_solver). cbn [mbind outcome_bind].
  apply falling_app in Hf as (Hf & _ & Hlast). destruct (Z.ltb_spec (val q) x) as [Hq|Hq].
  - replace (front + Z.of_nat (length D + 1) - 1) with (front + Z.of_nat (length D)) by lia.
    destruct (IH D (front + Z.of_nat (length D))) as (D1 & D2 & -> & H2 & H1 & ->).
    { split_and!; [done|done|]. intros j p Hj. apply Hc. by apply lookup_app_l_Some. }
    { done. } { intros p Hp. apply Hr. set_solver. } { lia. }
    exists D1, (D2 ++ [q]). split_and!; [by rewrite app_assoc| |done|done]. intros p [Hp| ->%list_elem_of_singleton]%elem_of_app; [by apply H2|done].
  - exists (D ++ [q]), []. split_and!; [by rewrite app_nil_r|by intros p ?%elem_of_nil| |rewrite length_app; done].
    intros p [Hp| ->%list_elem_of_singleton]%elem_of_app; [|done]. destruct (Hlast p q Hp) as [_ ?]; [by apply list_elem_of_singleton|lia].
Qed.

(** after [n] numbers: every index of the window has one in the deque that is not before
    it and whose value is not smaller *)
Record covers (n : nat) (D : list nat) : Prop := {
  c_falling : falling D;
  c_range : forall p, p ∈ D -> (n - k <= p < n)%nat;
  c_above : forall q, (n - k <= q < n)%nat -> exists p, p ∈ D /\ (q <= p)%nat /\ val q <= val p;
}.

Lemma covers_push n D1 D2 : covers n (D1 ++ D2) -> (forall p, p ∈ D2 -> val p < val n) -> (forall p, p ∈ D1 -> val n <= val p) ->
  exists d D', D1 ++ [n] = d :: D' /\
    covers (S n) (if Z.of_nat d <=? Z.of_nat n - Z.of_nat k then D' else d :: D').
Proof.
  intros [Hf Hr Ha] H2 H1. apply falling_app in Hf as (Hf1 & _ & _).
  assert (falling (D1 ++ [n])) as Hf.
  { apply falling_app. split_and!; [done|repeat constructor|]. intros p q Hp ->%list_elem_of_singleton. specialize (Hr p). split; [|by apply H1].
    destruct Hr; [set_solver|done]. }
  assert (forall p, p ∈ D1 ++ [n] -> (n - k <= p < S n)%nat) as Hr'.
  { intros p [Hp| ->%list_elem_of_singleton]%elem_of_app; [|lia]. specialize (Hr p ltac:(set_solver)). lia. }
  assert (forall q, (S n - k <= q < S n)%nat -> exists p, p ∈ D1 ++ [n] /\ (q <= p)%nat /\ val q <= val p) as Ha'.
  { intros q Hq. destruct (decide (q = n)) as [->|Hne]; [exists n; split_and!; [set_solver|lia|lia]|].
    destruct (Ha q) as (p & Hp & Hqp & Hv); [lia|]. apply elem_of_app in Hp as [Hp|Hp]; [exists p; set_solver|].
    exists n. split_and!; [set_solver|lia|]. specialize (H2 p Hp). lia. }
  destruct (D1 ++ [n]) as [|d D'] eqn:HD; [by destruct D1|]. exists d, D'. split; [done|].
  apply StronglySorted_inv in Hf as Hf'. destruct Hf' as [Hf' Hd]. rewrite Forall_forall in Hd. destruct (Z.leb_spec (Z.of_nat d) (Z.of_nat n - Z.of_nat k)) as [Hle|Hgt].
  - split; [done| |].
    + intros p Hp. destruct (Hd p Hp) as [Hlt _]. pose proof (Hr' p ltac:(by right)). pose proof (Hr' d ltac:(by left)). lia.
    + intros q Hq. destruct (Ha' q Hq) as (p & [->|Hp]%elem_of_cons & Hqp & Hv); [lia|]. by exists p.
  - split; [done| |done]. intros p Hp. pose proof (Hr' p Hp). apply elem_of_cons in Hp as [->|Hp]; [lia|]. destruct (Hd p Hp). lia.
Qed.

Lemma maximum_spec l m : m ∈ l -> (forall y, y ∈ l -> y <= m) -> maximum l = m.
Proof.
  induction l as [|x [|x' l] IH]; [by intros ?%elem_of_nil|by intros ->%list_elem_of_singleton|].
  intros Hm Hle. change (maximum (x :: x' :: l)) with (Z.max x (maximum (x' :: l))).
  apply elem_of_cons in Hm as [->|Hm].
  - assert (maximum (x' :: l) <= x); [|lia]. clear IH. revert x' Hle. induction l as [|x'' l IH]; intros x' Hle; [apply Hle; set_solver|].
    change (maximum (x' :: x'' :: l)) with (Z.max x' (maximum (x'' :: l))).
    pose proof (Hle x' ltac:(set_solver)). pose proof (IH x'' ltac:(set_solver)). lia.
  - rewrite IH; [|done|set_solver]. pose proof (Hle x ltac:(by left)). lia.
Qed.

Lemma head_maximum n d D : covers n (d :: D) -> (k <= n <= length nums)%nat -> val d = maximum (take k (drop (n - k) nums)).
Proof.
  intros [Hf Hr Ha] Hn. symmetry. apply StronglySorted_inv in Hf as [_ Hd]. rewrite Forall_forall in Hd. pose proof (Hr d ltac:(by left)). apply maximum_spec.
  - apply list_elem_of_lookup. exists (d - (n - k))%nat. rewrite lookup_take_lt, lookup_drop by lia.
    replace (n - k + (d - (n - k)))%nat with d by lia. apply list_lookup_lookup_total_lt. lia.
  - intros y [j Hj]%list_elem_of_lookup. apply lookup_take_Some in Hj as [Hj Hlt]. rewrite lookup_drop in Hj.
    destruct (Ha (n - k + j)%nat) as (p & Hp & _ & Hv); [lia|]. assert (val (n - k + j) = y) as <- by (by apply list_lookup_total_correct).
    apply elem_of_cons in Hp as [->|Hp]; [done|]. destruct (Hd p Hp). lia.
Qed.

Lemma holds_push deque front back D1 D2 n : holds deque front back (D1 ++ D2) -> back <= n -> n < Z.of_nat (length deque) ->
  exists deque', arr_set deque (front + Z.of_nat (length D1)) (Some n) = Done deque' /\ length deque' = length deque /\
    holds deque' front (front + Z.of_nat (length D1) + 1) (D1 ++ [Z.to_nat n]).
Proof.
  intros (H0 & -> & Hc) Hb Hn. rewrite length_app in Hb. exists (<[Z.to_nat (front + Z.of_nat (length D1)) := Some n]> deque).
  split_and!; [apply arr_set_in; lia|by rewrite length_insert|]. split_and!; [done|rewrite length_app; simpl; lia|].
  intros j p Hj. apply lookup_app_Some in Hj as [Hj|[Hge Hj]].
  - pose proof (lookup_lt_Some _ _ _ Hj). rewrite <- (Hc j p) by (by apply lookup_app_l_Some). unfold cell, arr_get.
    by rewrite list_lookup_insert_ne by lia.
  - apply list_lookup_singleton_Some in Hj as [Hj <-]. replace j with (length D1) by lia. unfold cell, arr_get.
    rewrite (proj2 (Z.ltb_ge _ 0)) by lia. rewrite list_lookup_insert_eq by lia. simpl. f_equal. lia.
Qed.

Lemma holds_head deque front back d D : holds deque front back (d :: D) -> cell deque front = Done (Z.of_nat d).
Proof. intros (_ & _ & Hc). rewrite <- (Hc 0%nat d eq_refl). f_equal. lia. Qed.

Lemma holds_tail deque front back d D : holds deque front back (d :: D) -> holds deque (front + 1) back D.
Proof.
  intros (H0 & -> & Hc). split_and!; [lia|simpl; lia|]. intros j p Hj. rewrite <- (Hc (S j) p Hj). f_equal. lia.
Qed.

Definition maxima (n : nat) : list Z := (fun s => maximum (take k (drop s nums))) <$> seq 0 (n + 1 - k).

Record window_ok (n : nat) (w : window) (D : list nat) : Prop := {
  w_holds : holds (deque w) (front w) (back w) D;
  w_deque : length (deque w) = length nums;
  w_back : back w <= Z.of_nat n;
  w_covers : covers n D;
  w_result : result w = (Some <$> maxima n) ++ replicate (length nums + 1 - k - (n + 1 - k)) None;
  w_size : returnSize w = Z.of_nat (n + 1 - k);
}.

Lemma maxima_S n : (k <= S n)%nat -> maxima (S n) = maxima n ++ [maximum (take k (drop (S n - k) nums))].
Proof.
  intros Hn. unfold maxima. replace (S n + 1 - k)%nat with (n + 1 - k + 1)%nat by lia. rewrite seq_app, fmap_app. simpl.
  by replace (n + 1 - k)%nat with (S n - k)%nat by lia.
Qed.

Lemma maxima_length n : length (maxima n) = (n + 1 - k)%nat.
Proof. unfold maxima. by rewrite length_fmap, length_seq. Qed.

Lemma slide_ok n w D : window_ok n w D -> (n < length nums)%nat ->
  exists w' D', slide nums (Z.of_nat k) (Z.of_nat n) w = Done w' /\ window_ok (S n) w' D'.
Proof.
  intros [Hh Hdl Hb Hc Hres Hsz] Hn. unfold slide. rewrite val_get by done. cbn [mbind outcome_bind].
  assert (length D <= length nums)%nat as HDl by (destruct Hh as (? & ? & _); lia).
  destruct (pop_ok (deque w) (front w) (val n) (length nums) D (back w)) as (D1 & D2 & -> & H2 & H1 & ->); [done|apply Hc| |done|].
  { intros p Hp. pose proof (c_range _ _ Hc p Hp). lia. }
  cbn [mbind outcome_bind]. destruct (holds_push _ _ _ D1 D2 (Z.of_nat n) Hh) as (dq & -> & Hlen & Hdq); [done|lia|].
  rewrite Nat2Z.id in Hdq. cbn [mbind outcome_bind]. cbv zeta.
  destruct (covers_push n D1 D2 Hc H2 H1) as (d & D' & Hd & Hcov). rewrite Hd in Hdq. rewrite (holds_head _ _ _ _ _ Hdq). cbn [mbind outcome_bind].
  assert (front w + Z.of_nat (length D1) + 1 <= Z.of_nat (S n)) as Hb'.
  { destruct Hh as (_ & Hbk & _). rewrite Hbk, length_app in Hb. lia. }
  set (f := if Z.of_nat d <=? Z.of_nat n - Z.of_nat k then front w + 1 else front w). set (E := if Z.of_nat d <=? Z.of_nat n - Z.of_nat k then D' else d :: D') in *.
  assert (holds dq f (front w + Z.of_nat (length D1) + 1) E) as HE by (unfold f, E; zcases; [by eapply holds_tail|done]).
  clearbody f E. clear Hd Hdq D'. destruct (Z.leb_spec (Z.of_nat k - 1) (Z.of_nat n)) as [Hfull|Hpart].
  - destruct (c_above _ _ Hcov n) as (p & Hp & _); [lia|]. destruct E as [|e E]; [by apply elem_of_nil in Hp|].
    rewrite (holds_head _ _ _ _ _ HE). cbn [mbind outcome_bind].
    rewrite val_get by (pose proof (c_range _ _ Hcov e ltac:(by left)); lia). cbn [mbind outcome_bind].
    rewrite (head_maximum (S n) e E) by (done || lia). replace (length nums + 1 - k - (n + 1 - k))%nat with (S (length nums - S n)) in Hres by lia.
    simpl replicate in Hres. rewrite Hres, arr_set_in by (rewrite length_app, length_fmap, maxima_length; simpl; lia). cbn [mbind outcome_bind].
    eexists _, (e :: E). split; [done|]. split; simpl; [done|lia|done|done| |lia].
    replace (Z.to_nat (returnSize w)) with (length (Some <$> maxima n)) by (rewrite length_fmap, maxima_length; lia).
    rewrite list_insert_mid, (maxima_S n), fmap_app, <- app_assoc by lia. by replace (length nums - S n)%nat with (length nums + 1 - k - (S n + 1 - k))%nat by lia.
  - eexists _, E. split; [done|]. split; simpl; [done|lia|done|done| |lia].
    rewrite Hres. unfold maxima. replace (n + 1 - k)%nat with 0%nat by lia. replace (S n + 1 - k)%nat with 0%nat by lia.
    by replace (S (n + 1) - k)%nat with 0%nat by lia.
Qed.

Lemma slide_loop_ok m n w D : window_ok n w D -> (n + m = length nums)%nat ->
  exists w' D', slide_loop m nums (Z.of_nat k) (Z.of_nat n) w = Done w' /\ window_ok (length nums) w' D'.
Proof.
  revert n w D. induction m as [|m IH]; intros n w D Hw Hm; simpl.
  - replace n with (length nums) in * by lia. by exists w, D.
  - destruct (slide_ok n w D Hw) as (w1 & D1 & -> & Hw1); [lia|]. cbn [mbind outcome_bind].
    replace (Z.of_nat n + 1) with (Z.of_nat (S n)) by lia. by apply (IH (S n) w1 D1); [|lia].
Qed.

Lemma window_start_ok : window_ok 0 (mkWindow (malloc (length nums)) 0 0 (malloc (length nums - k + 1)) 0) [].
Proof.
  split; simpl; [|apply length_replicate|lia| | |lia].
  - split_and!; [lia|done|by intros j p ?]. 
  - split; [constructor|by intros p ?%elem_of_nil|intros q; lia].
  - unfold maxima, malloc. replace (0 + 1 - k)%nat with 0%nat by lia. simpl. f_equal. lia.
Qed.
End window.

(** ** Properties *)

(** C32: For a window of one to all of the numbers [maxSlidingWindow] returns the maximum of
    every window, in order, in an array of exactly that size; the deque is never read where
    it was not written, and no access is out of bounds. *)
Theorem maxSlidingWindow_correct nums k : (1 <= k <= length nums)%nat ->
  maxSlidingWindow nums (Z.of_nat k) = Done (Some <$> window_maxima nums k, Z.of_nat (length nums - k + 1)).
Proof.
  intros Hk. unfold maxSlidingWindow. rewrite !(proj2 (Z.eqb_neq _ _)) by lia. cbn [orb]. cbv zeta. rewrite (proj2 (Z.ltb_ge _ _)) by lia.
  replace (Z.to_nat (Z.of_nat (length nums) - Z.of_nat k + 1)) with (length nums - k + 1)%nat by lia.
  destruct (slide_loop_ok nums k Hk (length nums) 0 _ [] (window_start_ok nums k Hk)) as (w & D & Heq & [_ _ _ _ Hr Hs]); [lia|].
  change (Z.of_nat 0) with 0 in Heq. rewrite Heq. cbn [mbind outcome_bind]. rewrite Hr, Hs. rewrite Nat.sub_diag. simpl replicate. rewrite app_nil_r.
  unfold maxima, window_maxima. do 2 f_equal; [|lia]. by replace (length nums + 1 - k)%nat with (length nums - k + 1)%nat by lia.
Qed.

Lemma maxSlidingWindow_correct_witness :
  maxSlidingWindow [1; 3; -1; -3; 5; 3; 6; 7] 3 = Done (Some <$> [3; 3; 5; 5; 6; 7], 6).
Proof. apply (maxSlidingWindow_correct [1; 3; -1; -3; 5; 3; 6; 7] 3). simpl. lia. Defined.
