(* ===== verification/Anagrams.v ===== *)
(** * Grouping anagrams

    "LEETCODE PROBLEMS/validBinarysearch.c", whose program is [groupAnagrams].  The table is
    the array of its chains, a chain the list of its entries, the words of an entry a list
    with the newest first.  [key] has room for 100 bytes and [buffer] for 10. *)
From S2P Require Import Prelude CString.

(** ** The program *)

Definition TABLE_SIZE : Z := 10007.

Record Entry := mkEntry { key : string; words : list string; count : Z }.

Fixpoint hash_loop (h : Z) (str : string) : Z :=
  match str with
  | EmptyString => h
  | String c str => hash_loop (u32 (u32 (h * 131) + schar c)) str
  end.
Definition hash (str : string) : Z := hash_loop 0 str mod TABLE_SIZE.

(** [for (i = 0; str[i]; i++) count[str[i] - 'a']++;] *)
Fixpoint count_loop (str : string) (count : list Z) : outcome (list Z) :=
  match str with
  | EmptyString => Done count
  | String c str =>
      n ← arr_get count (schar c - 97);
      count ← arr_set count (schar c - 97) (n + 1);
      count_loop str count
  end.

Definition letter (i : Z) : ascii := ascii_of_N (Z.to_N (97 + i)).

(** the loop over the letters from [i] on, with their counts *)
Fixpoint key_loop (i : Z) (count : list Z) (key : string) : outcome string :=
  match count with
  | [] => Done key
  | c :: count =>
      if 0 <? c then
        let buffer := String (letter i) (pretty c) in
        if (strlen buffer <? 10)%nat && (strlen key + strlen buffer <? 100)%nat
        then key_loop (i + 1) count (key +:+ buffer) else Undef
      else key_loop (i + 1) count key
  end.

Definition generateKey (str : string) : outcome string := count ← count_loop str (replicate 26 0); key_loop 0 count "".

(** the walk along a chain: the entry of the key gets the word, if there is one *)
Fixpoint add_word (word k : string) (chain : list Entry) : option (list Entry) :=
  match chain with
  | [] => None
  | e :: chain =>
      if streq (key e) k then Some (mkEntry (key e) (word :: words e) (count e + 1) :: chain)
      else chain ← add_word word k chain; Some (e :: chain)
  end.

Definition insert (word : string) (table : list (list Entry)) : outcome (list (list Entry)) :=
  key ← generateKey word;
  chain ← arr_get table (hash key);
  arr_set table (hash key) (match add_word word key chain with Some chain => chain | None => mkEntry key [word] 1 :: chain end).

Fixpoint insert_all (strs : list string) (table : list (list Entry)) : outcome (list (list Entry)) :=
  match strs with
  | [] => Done table
  | s :: strs => table ← insert s table; insert_all strs table
  end.

(** [while (w) result[g][j++] = w->word], into [count] cells *)
Fixpoint copy_words (count : Z) (ws result : list string) : outcome (list string) :=
  match ws with
  | [] => Done result
  | w :: ws => result ← push count result w; copy_words count ws result
  end.

(** the second walk over the table; the first has counted the entries *)
Fixpoint collect (entries : list Entry) : outcome (list (list string) * list Z) :=
  match entries with
  | [] => Done ([], [])
  | e :: entries =>
      ws ← copy_words (count e) (words e) [];
      '(result, sizes) ← collect entries;
      Done (ws :: result, count e :: sizes)
  end.

(** the groups and [*returnColumnSizes] *)
Definition groupAnagrams (strs : list string) : outcome (list (list string) * list Z) :=
  table ← insert_all strs (replicate (Z.to_nat TABLE_SIZE) []);
  collect (concat table).

(** ** Specification *)

Definition letters (s : string) : list ascii := String.list_ascii_of_string s.
Definition anagram (a b : string) : Prop := letters a ≡ₚ letters b.

Definition lower (c : ascii) : bool := (97 <=? schar c) && (schar c <=? 122).
(** at most 100 lower-case letters *)
Definition word_ok (s : string) : Prop := str_all lower s = true /\ (strlen s <= 100)%nat.

(** ** Lemmas: the counts *)

Definition occ (s : string) (i : nat) : Z := Z.of_nat (length (filter (fun c => schar c = 97 + Z.of_nat i) (letters s))).

Definition counts (s : string) : list Z := occ s <$> seq 0 26.

Lemma per_letter (g : nat -> Z) j : (j < 26)%nat -> (g <$> seq 0 26) !! j = Some (g j).
Proof. intros Hj. rewrite list_lookup_fmap, lookup_seq_lt by done. done. Qed.

Lemma per_letter_length (g : nat -> Z) : length (g <$> seq 0 26) = 26%nat.
Proof. by rewrite length_fmap, length_seq. Qed.

Lemma letters_counted s (f : nat -> Z) : str_all lower s = true ->
  count_loop s (f <$> seq 0 26) = Done ((fun i => f i + occ s i) <$> seq 0 26).
Proof.
  revert f. induction s as [|c s IH]; intros f; cbn [str_all count_loop].
  - intros _. f_equal. apply list_fmap_ext. intros i x _. unfold occ. simpl. lia.
  - intros [Hc Hs]%andb_true_iff. apply andb_true_iff in Hc as [H1%Z.leb_le H2%Z.leb_le].
    assert (exists i, schar c - 97 = Z.of_nat i /\ (i < 26)%nat) as (i & Hi & Hlt) by (exists (Z.to_nat (schar c - 97)); lia).
    rewrite Hi. rewrite (proj2 (arr_get_Done _ _ (f i))); cycle 1.
    { split; [lia|]. rewrite Nat2Z.id. by apply per_letter. }
    cbn [mbind outcome_bind]. rewrite arr_set_in by (rewrite per_letter_length; lia). cbn [mbind outcome_bind]. rewrite Nat2Z.id.
    replace (<[i := f i + 1]> (f <$> seq 0 26)) with ((fun j => f j + (if decide (j = i) then 1 else 0)) <$> seq 0 26).
    + rewrite IH by done. f_equal. apply list_fmap_ext. intros j x [-> _]%lookup_seq. unfold occ. cbn [letters String.list_ascii_of_string].
      simpl (0 + j)%nat. destruct (decide (j = i)) as [->|Hne].
      * rewrite filter_cons_True by lia. cbn [length]. unfold letters. lia.
      * rewrite filter_cons_False by lia. unfold letters. lia.
    + apply list_eq. intros j. destruct (decide (j < 26)%nat).
      * rewrite per_letter by done. destruct (decide (j = i)) as [->|Hne].
        -- by rewrite list_lookup_insert_eq by (rewrite per_letter_length; lia).
        -- rewrite list_lookup_insert_ne, per_letter by done. f_equal. lia.
      * transitivity (@None Z); [|symmetry]; apply lookup_ge_None; rewrite ?length_insert, per_letter_length; lia.
Qed.

Lemma count_occ_filter (l : list ascii) x : Z.of_nat (count_occ ascii_dec l x) = Z.of_nat (length (filter (fun c => schar c = schar x) l)).
Proof.
  induction l as [|c l IH]; [done|]. simpl. destruct (ascii_dec c x) as [->|Hne].
  - rewrite filter_cons_True by done. simpl. lia.
  - rewrite filter_cons_False by (intros ?%schar_inj; done). done.
Qed.

Lemma letters_lower s x : str_all lower s = true -> x ∈ letters s -> lower x = true.
Proof.
  induction s as [|c s IH]; cbn; [by intros _ ?%elem_of_nil|]. intros [Hc Hs]%andb_true_iff [->|Hx]%elem_of_cons; [done|by apply IH].
Qed.

(** equal counts make anagrams *)
Lemma counts_anagram a b : str_all lower a = true -> str_all lower b = true -> counts a = counts b <-> anagram a b.
Proof.
  intros Ha Hb. unfold anagram. split.
  - intros Hc. apply (Permutation_count_occ ascii_dec). intros x. apply Nat2Z.inj. destruct (lower x) eqn:Hx.
    + apply andb_true_iff in Hx as [H1%Z.leb_le H2%Z.leb_le]. rewrite !count_occ_filter.
      assert (forall s, counts s !! Z.to_nat (schar x - 97) = Some (occ s (Z.to_nat (schar x - 97)))) as Hl.
      { intros s. unfold counts. apply per_letter. lia. }
      pose proof (Hl a) as Hla. rewrite Hc, Hl in Hla. injection Hla as Hla. unfold occ in Hla.
      rewrite Z2Nat.id in Hla by lia. by replace (97 + (schar x - 97)) with (schar x) in Hla by lia.
    + rewrite !(proj1 (count_occ_not_In _ _ _)); [done|..]; intros Hin%list_elem_of_In; eapply letters_lower in Hin; congruence.
  - intros Hp. apply list_fmap_ext. intros i x _. unfold occ. by rewrite Hp.
Qed.

(** ** Lemmas: the key *)

Definition digit (c : ascii) : bool := (48 <=? schar c) && (schar c <=? 57).

Lemma pretty_digits (n : N) s : str_all digit s = true -> str_all digit (pretty_N_go n s) = true.
Proof.
  revert s. induction (N.lt_wf_0 n) as [n _ IH]; intros s Hs. destruct (decide (n = 0)%N) as [->|Hn]; [done|].
  rewrite pretty_N_go_step by lia. apply IH; [apply N.div_lt; lia|]. simpl. rewrite Hs, andb_true_r.
  pose proof (N.mod_lt n 10 ltac:(done)) as Hm. revert Hm. generalize (n mod 10)%N. intros d Hd.
  assert (d = 0 \/ d = 1 \/ d = 2 \/ d = 3 \/ d = 4 \/ d = 5 \/ d = 6 \/ d = 7 \/ d = 8 \/ d = 9)%N as Hcases by lia.
  repeat (destruct Hcases as [->|Hcases]; [done|]). by subst.
Qed.

Lemma pretty_all_digits c : 0 < c -> str_all digit (pretty c) = true.
Proof.
  intros Hc. destruct c as [|p|p]; [done| |done]. change (str_all digit (pretty (N.pos p)) = true). unfold pretty, pretty_N.
  rewrite decide_False by done. by apply pretty_digits.
Qed.

(** the string that the loop appends *)
Fixpoint key_of (i : Z) (count : list Z) : string :=
  match count with
  | [] => ""
  | c :: count => if 0 <? c then String (letter i) (pretty c +:+ key_of (i + 1) count) else key_of (i + 1) count
  end.

Lemma letter_code i : 0 <= i < 26 -> schar (letter i) = 97 + i.
Proof.
  intros Hi. unfold letter, schar. rewrite N_ascii_embedding by lia. rewrite Z2N.id by lia. zcases; lia.
Qed.

(** the key of later letters is empty or begins with one of them *)
Lemma key_of_head i count : 0 <= i -> i + Z.of_nat (length count) <= 26 ->
  match key_of i count with EmptyString => True | String c _ => 97 + i <= schar c < 123 end.
Proof.
  revert i. induction count as [|c count IH]; intros i Hi Hl; simpl in *; [done|]. zcases.
  - rewrite letter_code by lia. lia.
  - specialize (IH (i + 1) ltac:(lia) ltac:(lia)). destruct (key_of (i + 1) count); [done|lia].
Qed.

Lemma head_no_digit i count : 0 <= i -> i + Z.of_nat (length count) <= 26 -> head_is digit (key_of i count) = false.
Proof.
  intros Hi Hl. pose proof (key_of_head i count Hi Hl) as H. destruct (key_of i count); [done|]. simpl. unfold digit. zcases; lia || done.
Qed.

Lemma digits_split a b s t : str_all digit a = true -> str_all digit b = true -> head_is digit s = false -> head_is digit t = false ->
  a +:+ s = b +:+ t -> a = b /\ s = t.
Proof.
  intros Ha Hb Hs Ht Heq. set (n := (strlen a + strlen b)%nat).
  pose proof (span_app n digit a s Ha ltac:(lia) (or_introl Hs)) as H1.
  pose proof (span_app n digit b t Hb ltac:(lia) (or_introl Ht)) as H2. rewrite Heq, H2 in H1. by injection H1 as -> ->.
Qed.

Lemma key_of_inj i c1 c2 : 0 <= i -> length c1 = length c2 -> i + Z.of_nat (length c1) <= 26 ->
  Forall (fun c => 0 <= c) c1 -> Forall (fun c => 0 <= c) c2 -> key_of i c1 = key_of i c2 -> c1 = c2.
Proof.
  revert i c2. induction c1 as [|x c1 IH]; intros i [|y c2] Hi Hlen Hl Hf1 Hf2; try done. simpl in Hlen, Hl.
  apply Forall_cons in Hf1 as [Hx Hf1]. apply Forall_cons in Hf2 as [Hy Hf2]. cbn [key_of].
  pose proof (key_of_head (i + 1) c1 ltac:(lia) ltac:(lia)) as Hh1. pose proof (key_of_head (i + 1) c2 ltac:(lia) ltac:(lia)) as Hh2.
  destruct (Z.ltb_spec 0 x) as [Hx0|Hx0], (Z.ltb_spec 0 y) as [Hy0|Hy0]; intros Heq.
  - injection Heq as Heq. apply digits_split in Heq as [Hp Hk]; [|by apply pretty_all_digits..|apply head_no_digit; lia|apply head_no_digit; lia].
    apply (inj pretty) in Hp as ->. f_equal. apply (IH (i + 1)); done || lia.
  - rewrite <- Heq in Hh2. rewrite letter_code in Hh2 by lia. lia.
  - rewrite Heq in Hh1. rewrite letter_code in Hh1 by lia. lia.
  - replace y with x by lia. f_equal. apply (IH (i + 1)); done || lia.
Qed.

(** ** Lemmas: the key fits *)

Definition total (l : list Z) : Z := foldr Z.add 0 l.

Lemma counts_length s : length (counts s) = 26%nat.
Proof. apply per_letter_length. Qed.

Lemma total_indicator x k n : total ((fun i => if decide (x = 97 + Z.of_nat i) then 1 else 0) <$> seq k n) =
  Z.b2z ((97 + Z.of_nat k <=? x) && (x <? 97 + Z.of_nat (k + n))).
Proof.
  revert k. induction n as [|n IH]; intros k; cbn [seq fmap list_fmap total foldr]; [zcases; simpl; lia|].
  fold (total ((fun i => if decide (x = 97 + Z.of_nat i) then 1 else 0) <$> seq (S k) n)). rewrite IH.
  case_decide; zcases; simpl; lia.
Qed.

Lemma total_add (f g : nat -> Z) l : total ((fun i => f i + g i) <$> l) = total (f <$> l) + total (g <$> l).
Proof. induction l as [|i l IH]; [done|]. rewrite !fmap_cons. unfold total in *. cbn [foldr]. rewrite IH. lia. Qed.

Lemma total_counts s : total (counts s) <= Z.of_nat (strlen s).
Proof.
  induction s as [|c s IH]; [done|].
  assert (counts (String c s) = (fun i => (if decide (schar c = 97 + Z.of_nat i) then 1 else 0) + occ s i) <$> seq 0 26) as ->.
  { apply list_fmap_ext. intros i x _. unfold occ. cbn [letters String.list_ascii_of_string]. case_decide as Hc.
    - rewrite filter_cons_True by done. cbn [length]. unfold letters. lia.
    - rewrite filter_cons_False by done. unfold letters. lia. }
  rewrite total_add, total_indicator. change (occ s <$> seq 0 26) with (counts s). cbn [strlen].
  destruct (_ && _); cbn [Z.b2z]; lia.
Qed.

Lemma counts_nonneg s : Forall (fun c => 0 <= c) (counts s).
Proof. apply Forall_fmap, Forall_forall. intros i _. unfold compose, occ. lia. Qed.

Lemma total_pos l : Forall (fun c => 0 <= c) l -> 0 <= total l.
Proof. induction 1 as [|c l Hc _ IH]; [done|]. cbn. unfold total in *. lia. Qed.

Lemma pretty_short c : 0 < c <= 100 -> Z.of_nat (strlen (pretty c)) <= 1 + c / 10 /\ (strlen (pretty c) < 9)%nat.
Proof.
  intros Hc. assert (forallb (fun n => let c := Z.of_nat n in
    (Z.of_nat (strlen (pretty c)) <=? 1 + c / 10) && (strlen (pretty c) <? 9)%nat) (seq 1 100) = true) as H by (vm_compute; reflexivity).
  rewrite forallb_forall in H. specialize (H (Z.to_nat c)). cbv beta zeta in H. rewrite Z2Nat.id in H by lia.
  apply andb_true_iff in H as [H1%Z.leb_le H2%Nat.ltb_lt]; [done|]. apply in_seq. lia.
Qed.

Lemma key_loop_ok i count key : Forall (fun c => 0 <= c) count -> total count <= 100 ->
  10 * Z.of_nat (strlen key) + 20 * Z.of_nat (length count) + total count < 1000 ->
  key_loop i count key = Done (key +:+ key_of i count).
Proof.
  revert i key. induction count as [|c count IH]; intros i key Hf Ht Hl; cbn [key_loop key_of]; [by rewrite str_app_nil_r|].
  apply Forall_cons in Hf as [Hc Hf]. cbn [total foldr] in *. fold (total count) in *.
  pose proof (total_pos count Hf).
  simpl length in Hl. destruct (Z.ltb_spec 0 c) as [H0|H0]; [|apply IH; [done|lia|lia]].
  destruct (pretty_short c) as [H1 H2]; [lia|]. cbv zeta. cbn [strlen].
  rewrite (proj2 (Nat.ltb_lt _ 10)), (proj2 (Nat.ltb_lt _ 100)) by (Z.to_euclidean_division_equations; lia). cbn [andb].
  rewrite IH; [by rewrite str_app_assoc|done|lia|]. rewrite strlen_app. cbn [strlen]. Z.to_euclidean_division_equations; lia.
Qed.

Definition key_for (s : string) : string := key_of 0 (counts s).

Lemma count_letters s : str_all lower s = true -> count_loop s (replicate 26 0) = Done (counts s).
Proof.
  intros Hl. assert (replicate 26 0 = (fun _ : nat => 0) <$> seq 0 26) as -> by reflexivity.
  rewrite letters_counted by done. f_equal.
Qed.

Lemma key_fits l n : length l = 26%nat -> Forall (fun c => 0 <= c) l -> total l <= n -> n <= 100 ->
  key_loop 0 l "" = Done (key_of 0 l).
Proof.
  intros Hc Hf Ht Hn. change (key_of 0 l) with ("" +:+ key_of 0 l). apply key_loop_ok; [done|lia|].
  rewrite Hc. change (Z.of_nat (strlen "")) with 0. lia.
Qed.

Lemma generateKey_ok s : word_ok s -> generateKey s = Done (key_for s).
Proof.
  intros [Hl Hn]. unfold generateKey. rewrite count_letters by done. cbn [mbind outcome_bind].
  apply (key_fits (counts s) (Z.of_nat (strlen s))); [apply counts_length|apply counts_nonneg|apply total_counts|lia].
Qed.

Lemma key_for_eq a b : word_ok a -> word_ok b -> key_for a = key_for b <-> anagram a b.
Proof.
  intros [Ha _] [Hb _]. rewrite <- counts_anagram by done. split; [|by unfold key_for; intros ->].
  apply key_of_inj; [lia|by rewrite !counts_length|rewrite counts_length; lia|apply counts_nonneg..].
Qed.

(** ** Lemmas: the table *)

Lemma bucket_range k : 0 <= hash k < TABLE_SIZE.
Proof. apply Z.mod_pos_bound. done. Qed.

(** an entry holds words of its key, and their number *)
Record entry_ok (e : Entry) : Prop := {
  e_words : words e <> [];
  e_count : count e = Z.of_nat (length (words e));
  e_key : forall w, w ∈ words e -> word_ok w /\ key_for w = key e;
}.

Record table_ok (table : list (list Entry)) (strs : list string) : Prop := {
  t_length : length table = Z.to_nat TABLE_SIZE;
  t_hash : forall b chain e, table !! b = Some chain -> e ∈ chain -> b = Z.to_nat (hash (key e));
  t_keys : forall b chain, table !! b = Some chain -> NoDup (key <$> chain);
  t_entries : forall b chain e, table !! b = Some chain -> e ∈ chain -> entry_ok e;
  t_words : concat (words <$> concat table) ≡ₚ strs;
}.

(** the chain after an insertion *)
Lemma add_word_ok w k chain : word_ok w -> key_for w = k -> NoDup (key <$> chain) -> Forall entry_ok chain ->
  let chain' := match add_word w k chain with Some c => c | None => mkEntry k [w] 1 :: chain end in
  NoDup (key <$> chain') /\ Forall entry_ok chain' /\ (forall e, e ∈ chain' -> key e = k \/ key e ∈ key <$> chain) /\
  concat (words <$> chain') ≡ₚ w :: concat (words <$> chain).
Proof.
  intros Hw Hk Hn Hf. cbv zeta. destruct (add_word w k chain) as [chain'|] eqn:Ha.
  - assert (key <$> chain' = key <$> chain /\ Forall entry_ok chain' /\ concat (words <$> chain') ≡ₚ w :: concat (words <$> chain)) as (H1 & H2 & H3).
    { clear Hn. revert chain' Ha. induction Hf as [|e chain [He1 He2 He3] Hf IH]; intros chain' Ha; [done|]. cbn [add_word] in Ha.
      destruct (streq (key e) k) eqn:Hek.
      - injection Ha as <-. apply streq_spec in Hek. split_and!; [done| |done]. constructor; [|done].
        split; cbn [words count key length]; [done|lia|]. intros x [->|Hx]%elem_of_cons; [by split; [|congruence]|by apply He3].
      - destruct (add_word w k chain) as [c|] eqn:Hc; [|done]. injection Ha as <-. destruct (IH c eq_refl) as (H1 & H2 & H3).
        split_and!; [by cbn; f_equal|by constructor|]. rewrite !fmap_cons. cbn [concat]. rewrite H3. solve_Permutation. }
    split_and!; [by rewrite H1|done| |done]. intros e He. right. rewrite <- H1. by apply list_elem_of_fmap_2.
  - assert (k ∉ key <$> chain) as Hni.
    { clear -Ha. induction chain as [|e chain IH]; [apply not_elem_of_nil|]. cbn [add_word] in Ha. destruct (streq (key e) k) eqn:Hek; [done|].
      apply streq_false in Hek. destruct (add_word w k chain); [done|]. rewrite fmap_cons, not_elem_of_cons. split; [congruence|by apply IH]. }
    split_and!; [by constructor| |intros e [->|He]%elem_of_cons; [by left|right; by apply list_elem_of_fmap_2]|done].
    constructor; [|done]. split; [done|done|]. by intros x ->%list_elem_of_singleton.
Qed.

Lemma key_exists w : word_ok w -> exists k, key_for w = k /\ generateKey w = Done k.
Proof. intros Hw. exists (key_for w). split; [reflexivity|by apply generateKey_ok]. Qed.

Lemma chain_exists (table : list (list Entry)) k : length table = Z.to_nat TABLE_SIZE -> 0 <= hash k < Z.of_nat (length table).
Proof. intros ->. rewrite Z2Nat.id by done. apply bucket_range. Qed.

Lemma insert_word_ok w table strs : word_ok w -> table_ok table strs ->
  exists table', insert w table = Done table' /\ table_ok table' (w :: strs).
Proof.
  intros Hw [Hl Hh Hk He Hp]. unfold insert. destruct (key_exists w Hw) as (k & Hkw & ->). cbn [mbind outcome_bind].
  pose proof (chain_exists table k Hl) as Hr. destruct (lookup_lt_is_Some_2 table (Z.to_nat (hash k))) as [chain Hc]; [lia|].
  rewrite (proj2 (arr_get_Done table _ chain)) by (split; [lia|done]). cbn [mbind outcome_bind]. rewrite arr_set_in by lia.
  destruct (add_word_ok w k chain Hw Hkw) as (H1 & H2 & H3 & H4); [by eapply Hk|by apply Forall_forall; intros; eapply He|].
  set (chain' := match add_word _ _ _ with Some _ => _ | None => _ end) in *. clearbody chain'. eexists. split; [done|]. split.
  - by rewrite length_insert.
  - intros b c e [(<- & <- & _)|[_ Hb]]%list_lookup_insert_Some Hin; [|by eapply Hh].
    destruct (H3 e Hin) as [->|(e' & -> & Hin')%list_elem_of_fmap]; [done|by eapply Hh].
  - intros b c [(<- & <- & _)|[_ Hb]]%list_lookup_insert_Some; [done|by eapply Hk].
  - intros b c e [(<- & <- & _)|[_ Hb]]%list_lookup_insert_Some Hin; [by eapply Forall_forall|by eapply He].
  - apply list_elem_of_split_length in Hc as (t1 & t2 & -> & Hlen). rewrite Hlen, list_insert_mid, <- Hp.
    rewrite !concat_app. cbn [concat]. rewrite !fmap_app, !concat_app, H4. solve_Permutation.
Qed.

Lemma table_perm table l1 l2 : table_ok table l1 -> l1 ≡ₚ l2 -> table_ok table l2.
Proof. intros [H1 H2 H3 H4 H5] Hp. split; [done..|by rewrite H5]. Qed.

Lemma insert_words_ok strs : forall table old, Forall word_ok strs -> table_ok table old ->
  exists table', insert_all strs table = Done table' /\ table_ok table' (strs ++ old).
Proof.
  induction strs as [|s strs IH]; intros table old Hf Ht; [by exists table|]. apply Forall_cons in Hf as [Hs Hf].
  destruct (insert_word_ok s table old Hs Ht) as (t1 & H1 & Ht1). destruct (IH t1 (s :: old) Hf Ht1) as (t2 & H2 & Ht2).
  exists t2. cbn [insert_all]. rewrite H1. split; [exact H2|]. eapply table_perm; [exact Ht2|]. solve_Permutation.
Qed.

Lemma empty_table_ok n : n = Z.to_nat TABLE_SIZE -> table_ok (replicate n []) [].
Proof.
  intros Hn. split.
  - by rewrite length_replicate.
  - by intros b chain e [-> _]%lookup_replicate ?%elem_of_nil.
  - intros b chain [-> _]%lookup_replicate. constructor.
  - by intros b chain e [-> _]%lookup_replicate ?%elem_of_nil.
  - clear Hn. by induction n as [|n IH].
Qed.

(** no key is in the table twice *)
Lemma keys_NoDup table strs : table_ok table strs -> NoDup (key <$> concat table).
Proof.
  intros [_ Hh Hk _ _]. enough (forall i, (forall b chain e, table !! b = Some chain -> e ∈ chain -> (i + b)%nat = Z.to_nat (hash (key e))) ->
    NoDup (key <$> concat table)) as H by (by apply (H 0%nat)). clear Hh.
  induction table as [|chain table IH]; intros i Hh; [constructor|]. cbn [concat]. rewrite fmap_app, NoDup_app. split_and!.
  - by apply (Hk 0%nat).
  - intros k (e & -> & He)%list_elem_of_fmap (e' & Heq & He')%list_elem_of_fmap.
    apply list_elem_of_In, in_concat in He' as (chain' & Hc & He'). apply list_elem_of_In, list_elem_of_lookup in Hc as [b Hb].
    apply list_elem_of_In in He'. pose proof (Hh 0%nat chain e eq_refl He). pose proof (Hh (S b) chain' e' Hb He'). rewrite <- Heq in *. lia.
  - apply (IH (fun b => Hk (S b)) (S i)). intros b c e Hb He. rewrite <- (Hh (S b) c e Hb He). lia.
Qed.

Lemma copy_words_ok n ws result : Z.of_nat (length result + length ws) <= n -> copy_words n ws result = Done (result ++ ws).
Proof.
  revert result. induction ws as [|w ws IH]; intros result Hn; cbn [copy_words]; [by rewrite app_nil_r|]. simpl length in Hn.
  rewrite push_ok by lia. cbn [mbind outcome_bind]. rewrite IH by (rewrite length_app; simpl; lia). by rewrite <- app_assoc.
Qed.

Lemma collect_ok entries : Forall entry_ok entries -> collect entries = Done (words <$> entries, count <$> entries).
Proof.
  induction 1 as [|e entries [_ Hc _] _ IH]; [done|]. cbn [collect]. rewrite copy_words_ok by (simpl; lia). cbn [mbind outcome_bind].
  by rewrite IH.
Qed.

(** ** Properties *)

(** For words of at most 100 lower-case letters [groupAnagrams] puts every word into
    exactly one group, none of them empty, and two words into the same group exactly if
    they are anagrams; the sizes it returns are those of the groups, and neither the key, the
    buffer, the table nor the groups are written out of bounds. *)
Theorem groupAnagrams_correct strs : Forall word_ok strs -> exists groups,
  groupAnagrams strs = Done (groups, (fun g => Z.of_nat (length g)) <$> groups) /\
  concat groups ≡ₚ strs /\ ([] ∉ groups) /\
  forall i j g h a b, groups !! i = Some g -> a ∈ g -> groups !! j = Some h -> b ∈ h -> (anagram a b <-> i = j).
Proof.
  intros Hf. unfold groupAnagrams.
  pose proof (empty_table_ok (Z.to_nat TABLE_SIZE) eq_refl) as Hempty. revert Hempty.
  generalize (replicate (Z.to_nat TABLE_SIZE) (@nil Entry)). intros table0 Hempty.
  destruct (insert_words_ok strs table0 [] Hf Hempty) as (table & Ht & Hok). rewrite Ht. cbn [mbind outcome_bind].
  pose proof (keys_NoDup _ _ Hok) as Hn. rewrite app_nil_r in Hok. destruct Hok as [_ _ _ He Hp].
  assert (Forall entry_ok (concat table)) as Hall.
  { apply Forall_forall. intros e (chain & Hc & Hin)%list_elem_of_In%in_concat. apply list_elem_of_In, list_elem_of_lookup in Hc as [b Hb].
    apply (He b chain e Hb). by apply list_elem_of_In. }
  rewrite collect_ok by done. set (entries := concat table) in *. clearbody entries. rewrite Forall_forall in Hall.
  exists (words <$> entries). split_and!.
  - f_equal. f_equal. rewrite <- list_fmap_compose. apply list_fmap_ext. intros i e Hi. apply Hall. by eapply list_elem_of_lookup_2.
  - done.
  - intros (e & He' & Hin)%list_elem_of_fmap. by apply (e_words e (Hall e Hin)).
  - intros i j g h a b Hi Ha Hj Hb. rewrite list_lookup_fmap in Hi, Hj.
    destruct (entries !! i) as [e|] eqn:Hei; [|done]. destruct (entries !! j) as [e'|] eqn:Hej; [|done]. simplify_eq/=.
    destruct (e_key e (Hall e (list_elem_of_lookup_2 _ _ _ Hei)) a Ha) as [Hoa Hka].
    destruct (e_key e' (Hall e' (list_elem_of_lookup_2 _ _ _ Hej)) b Hb) as [Hob Hkb].
    rewrite <- key_for_eq by done. rewrite Hka, Hkb. split; [|congruence]. intros Heq.
    eapply (NoDup_lookup _ i j (key e) Hn); rewrite list_lookup_fmap; [by rewrite Hei|by rewrite Hej, Heq].
Qed.

Lemma groupAnagrams_correct_witness : exists groups, groupAnagrams ["eat"; "tea"; "tan"; "ate"; "nat"; "bat"] =
  Done (groups, (fun g => Z.of_nat (length g)) <$> groups) /\ concat groups ≡ₚ ["eat"; "tea"; "tan"; "ate"; "nat"; "bat"].
Proof.
  destruct (groupAnagrams_correct ["eat"; "tea"; "tan"; "ate"; "nat"; "bat"]) as (groups & H & Hp & _).
  - repeat (constructor; [split; [reflexivity|simpl; lia]|]). constructor.
  - exists groups. split; [exact H|exact Hp].
Defined.
