(* ===== verification/BinaryTree.v ===== *)
(** * Binary search trees and their traversals

    TASK/TreeTask.c and TASK/TreeAssessments.c insert into the same tree; the traversals of
    "LEETCODE PROBLEMS" (binarysearchtree.c, sampletree.c, binaryTreeinorder.c and
    balancebinarytree.c) work on the same nodes.  No node of these programs has two parents,
    so that a tree is a value.  An array written behind its end is undefined. *)
From S2P Require Import Prelude.

(** ** The programs *)

Inductive tree := Null | node (data : Z) (l r : tree).

Definition createNode (value : Z) : tree := node value Null Null.

Fixpoint insert (root : tree) (value : Z) : tree :=
  match root with
  | Null => createNode value
  | node data left' right' =>
      if value <? data then node data (insert left' value) right'
      else if data <? value then node data left' (insert right' value)
      else root
  end.

(** the subtree found, or NULL *)
Fixpoint search (root : tree) (value : Z) : tree :=
  match root with
  | Null => Null
  | node data left' right' =>
      if data =? value then root
      else if value <? data then search left' value
      else search right' value
  end.

(** what is printed *)
Fixpoint inorder (root : tree) : list Z :=
  match root with Null => [] | node data left' right' => inorder left' ++ data :: inorder right' end.

Fixpoint height (root : tree) : Z :=
  match root with
  | Null => -1
  | node _ left' right' =>
      let leftHeight := height left' in
      let rightHeight := height right' in
      (if leftHeight >? rightHeight then leftHeight else rightHeight) + 1
  end.

(** the pairs of data and depth that are printed *)
Fixpoint printDepths (root : tree) (depth : Z) : list (Z * Z) :=
  match root with
  | Null => []
  | node data left' right' => (data, depth) :: printDepths left' (depth + 1) ++ printDepths right' (depth + 1)
  end.

(** [main] of TreeAssessments.c: the height and the depths it prints *)
Definition insert_all (root : tree) (nums : list Z) : tree := foldl insert root nums.
Definition main (nums : list Z) : Z * list (Z * Z) :=
  let root := insert_all Null nums in (height root, printDepths root 0).

(** one turn of the menu of TreeTask.c: the tree with which it goes on, none after [exit],
    and what is printed.  The second choice hands [scanf] the value of [value] in place of
    its address. *)
Inductive choice := Insert (value : Z) | Search | Exit | Invalid.
Definition menu (root : tree) (c : choice) : outcome (option tree * list Z) :=
  match c with
  | Insert value => let root := insert root value in Done (Some root, inorder root)
  | Search => Undef
  | Exit => Done (None, [])
  | Invalid => Done (Some root, [])
  end.

Fixpoint isSameTree (p q : tree) : bool :=
  match p, q with
  | Null, Null => true
  | Null, _ | _, Null => false
  | node x pl pr, node y ql qr => if negb (x =? y) then false else isSameTree pl ql && isSameTree pr qr
  end.

(** [inorderHelper] and [inorder] fill an array of [cap] cells *)
Fixpoint inorderHelper (cap : Z) (root : tree) (arr : list Z) : outcome (list Z) :=
  match root with
  | Null => Done arr
  | node val left' right' =>
      arr ← inorderHelper cap left' arr;
      arr ← push cap arr val;
      inorderHelper cap right' arr
  end.

Definition inorderTraversal (root : tree) : outcome (list Z) := inorderHelper 100 root [].

Fixpoint buildBalanced (fuel : nat) (arr : list Z) (start end_ : Z) : outcome tree :=
  if end_ <? start then Done Null
  else
    match fuel with
    | O => OutOfFuel
    | S fuel =>
        let mid := start + Z.quot (end_ - start) 2 in
        val ← arr_get arr mid;
        left' ← buildBalanced fuel arr start (mid - 1);
        right' ← buildBalanced fuel arr (mid + 1) end_;
        Done (node val left' right')
    end.

Definition balanceBST (root : tree) : outcome tree :=
  arr ← inorderHelper 10000 root [];
  buildBalanced (length arr) arr 0 (Z.of_nat (length arr) - 1).

(** ** Specification *)

(** a binary search tree: the data increase from left to right *)
Definition ordered (t : tree) : Prop := StronglySorted Z.lt (inorder t).

Fixpoint balanced (t : tree) : Prop :=
  match t with
  | Null => True
  | node _ l r => balanced l /\ balanced r /\ -1 <= height l - height r <= 1
  end.

Definition size (t : tree) : nat := length (inorder t).

(** ** Lemmas *)

Lemma sorted_around l1 x l2 : StronglySorted Z.lt (l1 ++ x :: l2) <->
  StronglySorted Z.lt l1 /\ StronglySorted Z.lt l2 /\ Forall (fun y => y < x) l1 /\ Forall (fun y => x < y) l2.
Proof.
  induction l1 as [|y l1 IH]; simpl.
  - split; [intros [H1 H2]%StronglySorted_inv; by repeat split; [constructor| |constructor|]|intros (_ & H1 & _ & H2); by constructor].
  - split.
    + intros [Hs Hy]%StronglySorted_inv. apply IH in Hs as (H1 & H2 & H3 & H4). apply Forall_app in Hy as [Hy1 Hy2].
      apply Forall_cons in Hy2 as [Hyx _]. split_and!; [by constructor|done|by constructor|done].
    + intros (H1 & H2 & H3 & H4). apply StronglySorted_inv in H1 as [H1 Hy]. apply Forall_cons in H3 as [Hyx H3]. constructor.
      * by apply IH.
      * apply Forall_app. split; [done|]. constructor; [done|]. eapply Forall_impl; [exact H4|]. simpl. lia.
Qed.

Lemma ordered_node x l r : ordered (node x l r) <->
  ordered l /\ ordered r /\ Forall (fun y => y < x) (inorder l) /\ Forall (fun y => x < y) (inorder r).
Proof. apply sorted_around. Qed.

Lemma insert_elem t v x : x ∈ inorder (insert t v) <-> x = v \/ x ∈ inorder t.
Proof.
  induction t as [|y l IHl r IHr]; simpl; [set_solver|].
  zcases; simpl; rewrite ?elem_of_app, ?elem_of_cons, ?IHl, ?IHr; try tauto.
  assert (y = v) as -> by lia. tauto.
Qed.

Lemma insert_ordered t v : ordered t -> ordered (insert t v).
Proof.
  induction t as [|y l IHl r IHr]; simpl; [intros _; repeat constructor|].
  intros H. apply ordered_node in H as (H1 & H2 & H3 & H4). rewrite !Forall_forall in *.
  zcases; apply ordered_node; rewrite !Forall_forall; split_and!; try done; try by auto.
  - intros x [->|Hx]%insert_elem; [lia|by apply H3].
  - intros x [->|Hx]%insert_elem; [lia|by apply H4].
Qed.

Lemma search_found t v : ordered t -> (v ∈ inorder t <-> exists l r, search t v = node v l r).
Proof.
  induction t as [|y l IHl r IHr]; simpl; [split; [by intros ?%elem_of_nil|by intros (? & ? & ?)]|].
  intros H. apply ordered_node in H as (H1 & H2 & H3 & H4). rewrite Forall_forall in *. rewrite elem_of_app, elem_of_cons.
  destruct (Z.eqb_spec y v) as [->|Hy]; [split; [by eexists _, _|by right; left]|]. destruct (Z.ltb_spec v y).
  - rewrite <- (IHl H1). split; [|by left]. intros [Hl|[->|Hr]]; [done|lia|]. specialize (H4 _ Hr). simpl in H4. lia.
  - rewrite <- (IHr H2). split; [|by right; right]. intros [Hl|[->|Hr]]; [|lia|done]. specialize (H3 _ Hl). simpl in H3. lia.
Qed.

Lemma insert_all_elem nums : forall t x, x ∈ inorder (insert_all t nums) <-> x ∈ nums \/ x ∈ inorder t.
Proof.
  unfold insert_all. induction nums as [|v nums IH]; intros t x; simpl; [set_solver|]. rewrite IH, insert_elem, elem_of_cons. tauto.
Qed.

Lemma insert_all_ordered nums : forall t, ordered t -> ordered (insert_all t nums).
Proof.
  unfold insert_all. induction nums as [|v nums IH]; intros t Ht; simpl; [done|]. by apply IH, insert_ordered.
Qed.

Lemma height_node x l r : height (node x l r) = Z.max (height l) (height r) + 1.
Proof. cbn [height]. cbv zeta. rewrite Z.gtb_ltb. zcases; lia. Qed.

Lemma height_ge t : -1 <= height t.
Proof. induction t as [|x l IHl r IHr]; [done|]. rewrite height_node. lia. Qed.

Lemma depths_range t d x k : (x, k) ∈ printDepths t d -> x ∈ inorder t /\ d <= k <= d + height t.
Proof.
  revert d. induction t as [|y l IHl r IHr]; intros d; cbn [printDepths inorder]; [by intros ?%elem_of_nil|].
  rewrite height_node, elem_of_cons, elem_of_app. pose proof (height_ge l). pose proof (height_ge r).
  intros [[= -> ->]|[Hl|Hr]]; [split; [set_solver|lia]| |].
  - destruct (IHl _ Hl). split; [set_solver|lia].
  - destruct (IHr _ Hr). split; [set_solver|lia].
Qed.

(** some node is as deep as the height says *)
Lemma deepest t d : t <> Null -> exists x, (x, d + height t) ∈ printDepths t d.
Proof.
  revert d. induction t as [|y l IHl r IHr]; intros d Ht; [done|]. rewrite height_node. cbn [printDepths].
  pose proof (height_ge l). pose proof (height_ge r).
  destruct (Z.max_spec (height l) (height r)) as [[Hlt ->]|[Hle ->]].
  - destruct (IHr (d + 1)) as [x Hx]; [intros ->; simpl in *; lia|]. exists x. right. apply elem_of_app. right.
    by replace (d + (height r + 1)) with (d + 1 + height r) by lia.
  - destruct (decide (height l = -1)) as [Hl|Hl].
    + exists y. apply elem_of_cons. left. f_equal. lia.
    + destruct (IHl (d + 1)) as [x Hx]; [by intros ->|]. exists x. right. apply elem_of_app. left.
      by replace (d + (height l + 1)) with (d + 1 + height l) by lia.
Qed.

(** [isSameTree] is equality of trees *)
Lemma isSameTree_correct p q : isSameTree p q = true <-> p = q.
Proof.
  revert q. induction p as [|x pl IHl pr IHr]; intros [|y ql qr]; simpl; try done.
  destruct (Z.eqb_spec x y) as [->|Hne]; simpl; [|split; [done|congruence]].
  rewrite andb_true_iff, IHl, IHr. split; [by intros [-> ->]|by intros [= -> ->]].
Qed.

(** ** Lemmas: rebuilding *)

Lemma inorderHelper_ok cap t arr : Z.of_nat (length arr + size t) <= cap -> inorderHelper cap t arr = Done (arr ++ inorder t).
Proof.
  revert arr. induction t as [|x l IHl r IHr]; intros arr H; simpl; [by rewrite app_nil_r|].
  unfold size in *. cbn [inorder] in H. rewrite length_app in H. simpl in H.
  rewrite IHl by lia. cbn [mbind outcome_bind]. rewrite push_ok by (rewrite length_app; lia). cbn [mbind outcome_bind].
  rewrite IHr by (rewrite !length_app; simpl; lia). by rewrite <- !app_assoc.
Qed.

(** [n] nodes in a tree of height [h] that could not be lower *)
Definition fits (n : nat) (h : Z) : Prop := -1 <= h /\ Z.of_nat n < 2 ^ (h + 1) /\ (0 <= h -> 2 ^ h <= Z.of_nat n).

Lemma fits_node m k hl hr : fits m hl -> fits k hr -> (k = m \/ k = m + 1)%nat ->
  -1 <= hl - hr <= 1 /\ fits (m + k + 1) (Z.max hl hr + 1).
Proof.
  intros (Hl & Hm & Hm') (Hr & Hk & Hk') Hmk.
  assert (hl <= hr) as Hle.
  { apply Z.nlt_ge. intros Hlt. pose proof (Z.pow_le_mono_r 2 (hr + 1) hl ltac:(lia) ltac:(lia)). specialize (Hm' ltac:(lia)). lia. }
  assert (hr <= hl + 1) as Hge.
  { apply Z.nlt_ge. intros Hlt. pose proof (Z.pow_le_mono_r 2 (hl + 1 + 1) hr ltac:(lia) ltac:(lia)) as Hp.
    rewrite (Z.pow_add_r 2 (hl + 1) 1) in Hp by lia. specialize (Hk' ltac:(lia)). lia. }
  rewrite Z.max_r by done. split; [lia|]. split_and!; [lia|rewrite (Z.pow_add_r 2 (hr + 1) 1) by lia; lia|]. intros _.
  destruct (decide (hr = -1)) as [->|Hne]; [simpl; lia|]. rewrite Z.pow_add_r by lia. specialize (Hk' ltac:(lia)). lia.
Qed.

Lemma take_mid {A} (l : list A) m n x : l !! m = Some x -> (m < n)%nat -> take n l = take m l ++ x :: take (n - 1 - m) (drop (S m) l).
Proof.
  intros Hx Hn. pose proof (lookup_lt_Some _ _ _ Hx). rewrite <- (take_drop_middle l m x) at 1 by done.
  rewrite take_app, take_take, length_take. replace (n `min` m)%nat with m by lia. f_equal.
  replace (n - m `min` length l)%nat with (S (n - 1 - m)) by lia. done.
Qed.

(** the tree over [n] cells from [start] on *)
Lemma buildBalanced_ok fuel arr start n : 0 <= start -> start + Z.of_nat n <= Z.of_nat (length arr) -> (n <= fuel)%nat ->
  exists t, buildBalanced fuel arr start (start + Z.of_nat n - 1) = Done t /\
    inorder t = take n (drop (Z.to_nat start) arr) /\ balanced t /\
    fits n (height t).
Proof.
  revert start n. induction fuel as [|fuel IH]; intros start n Hs Hle Hf; cbn [buildBalanced].
  { rewrite (proj2 (Z.ltb_lt _ _)) by lia. replace n with 0%nat by lia. exists Null. split_and!; [done..|]. split_and!; simpl; lia. }
  destruct (decide (n = 0%nat)) as [->|Hn];
    [rewrite (proj2 (Z.ltb_lt _ _)) by lia; exists Null; split_and!; [done..|]; split_and!; simpl; lia|].
  rewrite (proj2 (Z.ltb_ge _ _)) by lia. cbv zeta.
  assert (exists m, Z.quot (start + Z.of_nat n - 1 - start) 2 = Z.of_nat m /\ (2 * m <= n - 1 /\ n - 1 <= 2 * m + 1)%nat) as (m & -> & Hm1 & Hm2).
  { exists (Z.to_nat (Z.quot (start + Z.of_nat n - 1 - start) 2)). Z.to_euclidean_division_equations; lia. }
  destruct (lookup_lt_is_Some_2 arr (Z.to_nat start + m)) as [x Hx]; [lia|].
  rewrite (proj2 (arr_get_Done arr _ x)) by (split; [lia|]; by replace (Z.to_nat (start + Z.of_nat m)) with (Z.to_nat start + m)%nat by lia).
  cbn [mbind outcome_bind].
  destruct (IH start m) as (l & -> & Hl & Hbl & Hhl); [lia..|]. cbn [mbind outcome_bind].
  destruct (IH (start + Z.of_nat m + 1) (n - 1 - m)%nat) as (r & Hr & Hir & Hbr & Hhr); [lia..|].
  replace (start + Z.of_nat m + 1 + Z.of_nat (n - 1 - m) - 1) with (start + Z.of_nat n - 1) in Hr by lia.
  rewrite Hr. cbn [mbind outcome_bind]. exists (node x l r). split; [done|]. cbn [inorder balanced]. rewrite height_node.
  destruct (fits_node m (n - 1 - m) (height l) (height r)) as [Hb Hfit]; [done|done|lia|].
  split_and!; try done; try lia.
  - rewrite Hl, Hir, (take_mid (drop (Z.to_nat start) arr) m n x) by (lia || by rewrite lookup_drop). rewrite drop_drop. do 4 f_equal. lia.
  - by replace (m + (n - 1 - m) + 1)%nat with n in Hfit by lia.
Qed.

(** ** Properties *)

(** C39: [insert] keeps the tree a binary search tree and adds the number to it, if it is
    not there yet; [search] finds a node exactly for the numbers in such a tree, and returns
    the subtree with that number at its root. *)
Theorem insert_keeps_order root value : ordered root ->
  ordered (insert root value) /\ (forall x, x ∈ inorder (insert root value) <-> x = value \/ x ∈ inorder root) /\
  (value ∈ inorder root -> insert root value = root) /\
  (forall x, x ∈ inorder root <-> exists l r, search root x = node x l r).
Proof.
  intros H. split_and!; [by apply insert_ordered|intros x; apply insert_elem| |intros x; by apply search_found].
  induction root as [|y l IHl r IHr]; simpl; [by intros ?%elem_of_nil|]. apply ordered_node in H as (H1 & H2 & H3 & H4).
  rewrite Forall_forall in *. rewrite elem_of_app, elem_of_cons. intros [Hl|[->|Hr]].
  - specialize (H3 _ Hl). simpl in H3. rewrite (proj2 (Z.ltb_lt _ _)) by lia. by rewrite IHl.
  - by rewrite Z.ltb_irrefl.
  - specialize (H4 _ Hr). simpl in H4. rewrite (proj2 (Z.ltb_ge _ _)), (proj2 (Z.ltb_lt _ _)) by lia. by rewrite IHr.
Qed.

Lemma insert_keeps_order_witness : ordered (node 5 (node 3 Null Null) Null) /\ ordered (insert (node 5 (node 3 Null Null) Null) 4).
Proof.
  assert (ordered (node 5 (node 3 Null Null) Null)) as H by (repeat constructor). split; [exact H|].
  exact (proj1 (insert_keeps_order _ 4 H)).
Defined.

(** [main] of TreeAssessments.c prints a depth for every number entered and for no
    other; the depths lie between 0 and the height it prints, which is one of them. *)
Theorem main_depths nums : let '(h, depths) := main nums in
  (forall x, x ∈ nums <-> exists k, (x, k) ∈ depths) /\ (forall x k, (x, k) ∈ depths -> 0 <= k <= h) /\
  (nums <> [] -> exists x, (x, h) ∈ depths).
Proof.
  unfold main. set (t := insert_all Null nums). pose proof (insert_all_elem nums Null) as He. fold t in He. split_and!.
  - intros x. specialize (He x). simpl in He. rewrite elem_of_nil in He. transitivity (x ∈ inorder t); [tauto|]. clear He. generalize 0.
    induction t as [|y l IHl r IHr]; intros d; cbn [inorder printDepths]; [split; [by intros ?%elem_of_nil|by intros [? ?%elem_of_nil]]|].
    setoid_rewrite elem_of_cons. setoid_rewrite elem_of_app. setoid_rewrite elem_of_cons. rewrite (IHl (d + 1)), (IHr (d + 1)). naive_solver.
  - intros x k Hk. destruct (depths_range _ _ _ _ Hk). lia.
  - intros Hne. apply (deepest t 0). intros Ht. rewrite Ht in He. destruct nums as [|v nums]; [done|].
    apply (elem_of_nil v). apply He. left. by left.
Qed.

(** For a tree of at most 10000 nodes [balanceBST] returns a tree with the same numbers in
    the same order, balanced at every node and as low as a tree with so many nodes can be;
    neither its array nor the recursion goes out of bounds. *)
Theorem balanceBST_correct root : Z.of_nat (size root) <= 10000 -> exists t, balanceBST root = Done t /\
  inorder t = inorder root /\ balanced t /\ (root <> Null -> 2 ^ height t <= Z.of_nat (size root) < 2 ^ (height t + 1)).
Proof.
  intros Hs. unfold balanceBST. rewrite inorderHelper_ok by (simpl; lia). cbn [mbind outcome_bind]. simpl app.
  destruct (buildBalanced_ok (length (inorder root)) (inorder root) 0 (length (inorder root))) as (t & Ht & Hi & Hb & Hge & Hlt & Hle); [lia..|].
  rewrite Z.add_0_l in Ht. exists t. rewrite firstn_all in Hi. split_and!; [done|done|done|]. intros Hne. split; [|done]. apply Hle.
  destruct (decide (height t = -1)) as [Hh|]; [|lia]. exfalso. rewrite Hh in Hlt. simpl in Hlt.
  destruct root as [|x l r]; [done|]. simpl in Hlt. rewrite length_app in Hlt. simpl in Hlt. lia.
Qed.

Lemma balanceBST_correct_witness : exists t, balanceBST (insert_all Null [1; 2; 3; 4]) = Done t /\ balanced t.
Proof. destruct (balanceBST_correct (insert_all Null [1; 2; 3; 4])) as (t & H & _ & Hb & _); [vm_compute; discriminate|]. by exists t. Defined.

(** a tree that the array of [inorderTraversal] does not hold *)
Example traversal_overflow : inorderTraversal (insert_all Null (seqZ 0 101)) = Undef.
Proof. vm_compute. reflexivity. Qed.
