(* ===== verification/Parentheses.v ===== *)
(** * Matching brackets

    "LEETCODE PROBLEMS/ValidParentheses.c": a stack of the brackets that are open.  The
    nodes of the stack have one owner, so the stack is a list; what is still allocated when
    the function returns is part of the result. *)
From S2P Require Import Prelude CString.

(** ** The function *)

Definition opens (c : ascii) : bool := is_char 40 c || is_char 123 c || is_char 91 c.   (* ( { [ *)

(** [(c == ')' && topChar != '(') || ...] *)
Definition mismatch (c topChar : ascii) : bool :=
  (is_char 41 c && negb (is_char 40 topChar)) || (is_char 125 c && negb (is_char 123 topChar)) ||
  (is_char 93 c && negb (is_char 91 topChar)).

(** the loop, from a character on: the result, and the nodes that were not freed *)
Fixpoint valid_loop (s : string) (stack : list ascii) : bool * list ascii :=
  match s with
  | EmptyString => (match stack with [] => true | _ => false end, stack)
  | String c s =>
      if opens c then valid_loop s (c :: stack)
      else
        match stack with
        | [] => (false, [])
        | topChar :: stack => if mismatch c topChar then (false, stack) else valid_loop s stack
        end
  end.

Definition isValid (s : string) : bool * list ascii := valid_loop s [].

(** ** Specification *)

(** [c] may close what [o] opened: it opens nothing, and it is no other closing bracket.  (The
    exercise promises that there are only brackets; the code lets any other character close.) *)
Definition closes (o c : ascii) : Prop := opens c = false /\ mismatch c o = false.

Inductive balanced : string -> Prop :=
| balanced_nil : balanced EmptyString
| balanced_pair o s1 c s2 : opens o = true -> closes o c -> balanced s1 -> balanced s2 ->
    balanced (String o s1 +:+ String c s2).

(** ** Lemmas *)

(** what is still to come when these brackets are open *)
Fixpoint pending (stack : list ascii) (s : string) : Prop :=
  match stack with
  | [] => balanced s
  | o :: stack => exists s1 c s2, s = s1 +:+ String c s2 /\ balanced s1 /\ closes o c /\ pending stack s2
  end.

Lemma balanced_opens c s : balanced (String c s) -> opens c = true /\ pending [c] s.
Proof.
  intros H. inversion H as [|o s1 c' s2 Ho Hc H1 H2 Heq]; subst. split; [done|]. by exists s1, c', s2.
Qed.

Lemma app_cons c s1 s2 : String c s1 +:+ s2 = String c (s1 +:+ s2).
Proof. done. Qed.

Lemma app_assoc_str s1 s2 s3 : (s1 +:+ s2) +:+ s3 = s1 +:+ (s2 +:+ s3).
Proof. induction s1 as [|c s1 IH]; [done|]. by rewrite !app_cons, IH. Qed.

(** an opening bracket goes on the stack *)
Lemma pending_open stack c s : opens c = true -> pending stack (String c s) <-> pending (c :: stack) s.
Proof.
  intros Ho. split.
  - destruct stack as [|o stack]; [by intros [_ H]%balanced_opens|].
    intros (s1 & c1 & s2 & He & Hb & Hc & Hp). destruct s1 as [|c0 s1].
    + injection He as -> ->. destruct Hc as [Hc _]. congruence.
    + rewrite app_cons in He. injection He as -> ->. apply balanced_opens in Hb as [_ (t1 & c' & t2 & -> & Hb1 & Hc' & Hb2)].
      exists t1, c', (t2 +:+ String c1 s2). rewrite app_assoc_str, app_cons. split_and!; [done|done|done|].
      by exists t2, c1, s2.
  - intros (s1 & c1 & s2 & -> & Hb & Hc & Hp). destruct stack as [|o stack].
    + by apply (balanced_pair c s1 c1 s2).
    + destruct Hp as (t1 & c2 & t2 & -> & Hb2 & Hc2 & Hp). exists (String c s1 +:+ String c1 t1), c2, t2.
      rewrite app_assoc_str, app_cons, app_cons. split_and!; [done|by apply balanced_pair|done|done].
Qed.

(** any other character takes one from it *)
Lemma pending_other stack c s : opens c = false ->
  pending stack (String c s) <-> match stack with [] => False | o :: stack => mismatch c o = false /\ pending stack s end.
Proof.
  intros Ho. destruct stack as [|o stack]; cbn [pending].
  - split; [|done]. intros [H _]%balanced_opens. congruence.
  - split.
    + intros (s1 & c1 & s2 & He & Hb & [_ Hc] & Hp). destruct s1 as [|c0 s1]; [by injection He as -> ->|].
      rewrite app_cons in He. injection He as -> _. apply balanced_opens in Hb as [H _]. congruence.
    + intros [Hm Hp]. exists EmptyString, c, s. split_and!; [done|constructor|done|done].
Qed.

Lemma valid_loop_ok s stack : ((valid_loop s stack).1 = true <-> pending stack s) /\ ((valid_loop s stack).1 = true -> (valid_loop s stack).2 = []).
Proof.
  revert stack. induction s as [|c s IH]; intros stack; cbn [valid_loop].
  - destruct stack as [|o stack]; cbn [fst snd pending]; [by split; [split; [constructor|]|]|].
    split; [|done]. split; [done|]. by intros ([|c1 s1] & c & s2 & He & _).
  - destruct (opens c) eqn:Ho; [rewrite pending_open by done; apply IH|]. rewrite pending_other by done.
    destruct stack as [|o stack]; [done|]. destruct (mismatch c o); [by split; [split; [|intros [? _]]|]|].
    destruct (IH stack) as [H1 H2]. split; [|done]. rewrite H1. by split; [|intros [_ ?]].
Qed.

(** ** Properties *)

(** [isValid] accepts exactly the strings that are nested pairs of an opening bracket and a
    character that may close it, and then all nodes of its stack have been freed. *)
Theorem isValid_correct s : ((isValid s).1 = true <-> balanced s) /\ ((isValid s).1 = true -> (isValid s).2 = []).
Proof. apply valid_loop_ok. Qed.

(** a letter closes a bracket, and a string that is rejected leaves nodes behind *)
Example letter_closes : isValid "(a" = (true, []) /\ isValid "((]" = (false, ["("%char]).
Proof. split; reflexivity. Qed.
