(* ===== verification/TinyUrl.v ===== *)
(** * Short URLs

    "LEETCODE PROBLEMS/encodeDecode.c": two arrays of 1000 cells that are filled together.
    Strings are values: nobody changes a string that is in the arrays. *)
From S2P Require Import Prelude.

(** ** The two functions *)

Definition MAX_URLS : Z := 1000.

Record urls := mkUrls { longUrls : list string; shortUrls : list string; urlCount : Z }.

(** the loops: the cell of the second array at the first index where the first one has the string *)
Fixpoint find_loop (n : nat) (i : Z) (keys values : list string) (s : string) : outcome (option string) :=
  match n with
  | O => Done None
  | S n =>
      k ← arr_get keys i;
      if streq k s then v ← arr_get values i; Done (Some v) else find_loop n (i + 1) keys values s
  end.

Definition short_url (n : Z) : string := "http://tinyurl.com/" +:+ pretty n.

Definition encode (longUrl : string) : cmd urls string :=
  u ← get;
  o ← lift (find_loop (Z.to_nat (urlCount u)) 0 (longUrls u) (shortUrls u) longUrl);
  match o with
  | Some s => mret s
  | None =>
      long ← lift (push MAX_URLS (longUrls u) longUrl);
      short ← lift (push MAX_URLS (shortUrls u) (short_url (urlCount u)));
      modify (fun _ => mkUrls long short (urlCount u + 1));;
      mret (short_url (urlCount u))
  end.

(** the calls of [encode] for a list of URLs, one after the other, and the short URLs *)
Fixpoint encode_all (l : list string) : cmd urls (list string) :=
  match l with [] => mret [] | x :: l => s ← encode x; rest ← encode_all l; mret (s :: rest) end.

(** [None] for NULL *)
Definition decode (shortUrl : string) : cmd urls (option string) :=
  u ← get; lift (find_loop (Z.to_nat (urlCount u)) 0 (shortUrls u) (longUrls u) shortUrl).

Definition empty_urls : urls := mkUrls [] [] 0.

(** ** Lemmas *)

(** the short URL of a long one is the number of its cell *)
Record urls_ok (u : urls) : Prop := {
  uo_count : urlCount u = Z.of_nat (length (longUrls u));
  uo_short : shortUrls u = (fun i => short_url (Z.of_nat i)) <$> seq 0 (length (longUrls u));
  uo_long : NoDup (longUrls u)
}.

Lemma short_url_inj a b : short_url (Z.of_nat a) = short_url (Z.of_nat b) -> a = b.
Proof. unfold short_url. intros H. apply (inj (String.append "http://tinyurl.com/")) in H. apply (inj pretty) in H. lia. Qed.

(** searching an array without duplicates *)
Lemma find_loop_hit n i (l1 l2 values : list string) k v : i = Z.of_nat (length l1) -> (length l1 + n = length (l1 ++ l2))%nat ->
  NoDup (l1 ++ l2) -> length values = length (l1 ++ l2) ->
  forall j, (length l1 <= j)%nat -> (l1 ++ l2) !! j = Some k -> values !! j = Some v ->
  find_loop n i (l1 ++ l2) values k = Done (Some v).
Proof.
  revert i l1 l2. induction n as [|n IH]; intros i l1 l2 -> Hn Hnd Hlen j Hj Hk Hv.
  { apply lookup_lt_Some in Hk. lia. }
  destruct l2 as [|x l2]; [rewrite app_nil_r in *; lia|]. cbn [find_loop].
  assert ((l1 ++ x :: l2) !! length l1 = Some x) as Hx by by apply list_lookup_middle.
  rewrite arr_get_mid by done. cbn [mbind outcome_bind].
  destruct (decide (j = length l1)) as [->|Hne].
  - assert (x = k) as -> by congruence. rewrite streq_refl.
    rewrite (proj2 (arr_get_Done values (Z.of_nat (length l1)) v)) by (rewrite Nat2Z.id; split; [lia|done]). done.
  - rewrite (proj2 (streq_false x k)) by (intros ->; apply Hne; by eapply (NoDup_lookup (l1 ++ k :: l2))).
    replace (l1 ++ x :: l2) with ((l1 ++ [x]) ++ l2) in * by (by rewrite <- app_assoc).
    apply (IH _ (l1 ++ [x]) l2) with (j := j); rewrite ?length_app in *; simpl in *; auto; lia.
Qed.

Lemma find_loop_miss n i keys values k : 0 <= i -> (Z.to_nat i + n <= length keys)%nat -> k ∉ keys ->
  find_loop n i keys values k = Done None.
Proof.
  revert i. induction n as [|n IH]; intros i Hi Hn Hk; [done|]. cbn [find_loop].
  destruct (arr_get_in keys i) as [x Hx]; [lia|]. rewrite Hx. cbn [mbind outcome_bind].
  apply arr_get_Done in Hx as [_ Hx%list_elem_of_lookup_2]. rewrite (proj2 (streq_false x k)) by (intros ->; done).
  apply IH; [lia|lia|done].
Qed.

(** a URL that is in the arrays is found, both ways *)
Lemma find_known u j long : urls_ok u -> longUrls u !! j = Some long ->
  encode long u = Done (short_url (Z.of_nat j), u) /\ decode (short_url (Z.of_nat j)) u = Done (Some long, u).
Proof.
  intros [Hc Hs Hn] Hj. assert (j < length (longUrls u))%nat as Hlt by (by eapply lookup_lt_Some).
  assert (length (shortUrls u) = length (longUrls u)) as Hlen by (by rewrite Hs, length_fmap, length_seq).
  assert (shortUrls u !! j = Some (short_url (Z.of_nat j))) as Hsj.
  { rewrite Hs, list_lookup_fmap, lookup_seq_lt by done. done. }
  unfold encode, decode, get, lift, mbind, cmd_bind. rewrite Hc, Nat2Z.id. split.
  - by rewrite (find_loop_hit _ _ [] (longUrls u) (shortUrls u) long (short_url (Z.of_nat j))) with (j := j) by (simpl; try done; lia).
  - rewrite (find_loop_hit _ _ [] (shortUrls u) (longUrls u) (short_url (Z.of_nat j)) long) with (j := j);
      [done|done|by simpl; rewrite Hlen| |by simpl; rewrite Hlen|simpl; lia|done|done].
    cbn [app]. rewrite Hs. apply NoDup_fmap_2_strong; [|apply NoDup_seq]. intros a b _ _. apply short_url_inj.
Qed.

Lemma encode_ok u long : urls_ok u -> urlCount u < MAX_URLS -> exists j u', encode long u = Done (short_url (Z.of_nat j), u') /\
  urls_ok u' /\ longUrls u' !! j = Some long /\ longUrls u `prefix_of` longUrls u' /\ urlCount u' <= urlCount u + 1.
Proof.
  intros Hu Hmax. destruct (decide (long ∈ longUrls u)) as [[j Hj]%list_elem_of_lookup|Hnew].
  - exists j, u. destruct (find_known u j long Hu Hj) as [He _]. split_and!; [done|done|done|done|lia].
  - destruct Hu as [Hc Hs Hn]. exists (length (longUrls u)), (mkUrls (longUrls u ++ [long]) (shortUrls u ++ [short_url (urlCount u)]) (urlCount u + 1)).
    assert (length (shortUrls u) = length (longUrls u)) as Hlen by (by rewrite Hs, length_fmap, length_seq).
    split_and!; cbn [longUrls urlCount]; [|split; cbn [longUrls shortUrls urlCount]|by apply list_lookup_middle|by eexists|lia].
    + unfold encode, get, lift, modify, mbind, cmd_bind. rewrite find_loop_miss; [|lia|rewrite Hc; lia|done].
      rewrite !push_ok by lia. by rewrite <- Hc.
    + rewrite length_app. simpl. lia.
    + rewrite length_app, seq_app, fmap_app, Hs. simpl. by rewrite Hc.
    + apply NoDup_app. split_and!; [done| |apply NoDup_singleton]. intros x Hx ->%list_elem_of_singleton. done.
Qed.

Lemma encode_all_ok l u : urls_ok u -> urlCount u + Z.of_nat (length l) <= MAX_URLS -> exists ss u', encode_all l u = Done (ss, u') /\
  urls_ok u' /\ longUrls u `prefix_of` longUrls u' /\
  Forall2 (fun x s => exists j, s = short_url (Z.of_nat j) /\ longUrls u' !! j = Some x) l ss.
Proof.
  revert u. induction l as [|x l IH]; intros u Hu Hmax; [by exists [], u|]. cbn [length] in Hmax. cbn [encode_all].
  destruct (encode_ok u x Hu) as (j & u1 & H1 & Hu1 & Hj & Hp1 & Hc1); [lia|]. rewrite (cmd_bind_eq _ _ _ _ _ H1).
  destruct (IH u1 Hu1) as (ss & u2 & H2 & Hu2 & Hp2 & Hf); [lia|]. rewrite (cmd_bind_eq _ _ _ _ _ H2).
  exists (short_url (Z.of_nat j) :: ss), u2. split_and!; [done|done|by etrans|]. constructor; [|done].
  exists j. split; [done|]. by eapply prefix_lookup_Some.
Qed.

(** ** Properties *)

(** As long as the arrays have room, [encode] gives for any URLs, repeated ones too, short URLs that
    [decode] turns back into them at any later time, and it gives the same one for the same URL. *)
Theorem encode_decode l : Z.of_nat (length l) <= MAX_URLS ->
  exists ss u, encode_all l empty_urls = Done (ss, u) /\ Forall2 (fun x s => decode s u = Done (Some x, u) /\ encode x u = Done (s, u)) l ss.
Proof.
  intros Hl. destruct (encode_all_ok l empty_urls) as (ss & u & H & Hu & _ & Hf); [by split; [..|constructor]|done|].
  exists ss, u. split; [done|]. eapply Forall2_impl; [exact Hf|]. intros x s (j & -> & Hj).
  destruct (find_known u j x Hu Hj) as [He Hd]. by split.
Qed.

Lemma encode_decode_witness : exists ss u, encode_all ["a"; "b"; "a"] empty_urls = Done (ss, u) /\
  Forall2 (fun x s => decode s u = Done (Some x, u) /\ encode x u = Done (s, u)) ["a"; "b"; "a"] ss.
Proof. apply (encode_decode ["a"; "b"; "a"]). vm_compute. discriminate. Defined.
