(* ===== verification/Employees.v ===== *)
(** * The table of employees

    TASK/SQLAssessment.c and TASK/SQLTask.c: a table of 500 records, searched by department
    from end to end and by number with a binary search.  The measurements of time are left
    out; what is printed is a list. *)
From S2P Require Import Prelude.

(** ** The two programs *)

Definition MAX_RECORDS : Z := 500.
Definition NAME_LEN : nat := 50.

Record Employee := mkEmployee { id : Z; name : string; department : string }.

(** [%03d] *)
Definition pad3 (n : Z) : string := (if n <? 10 then "00" else if n <? 100 then "0" else "") +:+ pretty n.

Definition populate_one (i : Z) : Employee :=
  mkEmployee (i + 1) (strtrunc (NAME_LEN - 1) ("Employee_" +:+ pad3 (i + 1)))
    (if i mod 3 =? 0 then "Engineering" else if i mod 3 =? 1 then "Marketing" else "HR").

Definition populateRecords : list Employee := populate_one <$> seqZ 0 MAX_RECORDS.

(** the loop of [linearSearch] over [n] records from an index on *)
Fixpoint linear_loop (n : nat) (i : Z) (records : list Employee) (targetDept : string) (found : Z) : outcome Z :=
  match n with
  | O => Done found
  | S n =>
      r ← arr_get records i;
      linear_loop n (i + 1) records targetDept (if streq (department r) targetDept then found + 1 else found)
  end.

Definition linearSearch (records : list Employee) (targetDept : string) : outcome Z :=
  linear_loop (Z.to_nat MAX_RECORDS) 0 records targetDept 0.

Fixpoint binary_loop (fuel : nat) (records : list Employee) (targetId low high : Z) : outcome Z :=
  match fuel with
  | O => OutOfFuel
  | S fuel =>
      if low <=? high then
        let mid := Z.quot (low + high) 2 in
        r ← arr_get records mid;
        if id r =? targetId then Done mid
        else if id r <? targetId then binary_loop fuel records targetId (mid + 1) high
        else binary_loop fuel records targetId low (mid - 1)
      else Done (-1)
  end.

Definition binarySearch (records : list Employee) (targetId : Z) : outcome Z :=
  binary_loop (S (Z.to_nat MAX_RECORDS)) records targetId 0 (MAX_RECORDS - 1).

(** the loop of [searchByDepartment]: the rows that are printed, and their number *)
Fixpoint department_loop (n : nat) (i : Z) (records : list Employee) (targetDept : string) : outcome (list Employee * Z) :=
  match n with
  | O => Done ([], 0)
  | S n =>
      r ← arr_get records i;
      rest ← department_loop n (i + 1) records targetDept;
      Done (if streq (department r) targetDept then (r :: rest.1, rest.2 + 1) else rest)
  end.

Definition searchByDepartment (records : list Employee) (targetDept : string) : outcome (list Employee * Z) :=
  department_loop (Z.to_nat MAX_RECORDS) 0 records targetDept.

(** [main] of SQLAssessment.c: the number of matches, and the record that is found *)
Definition main : outcome (Z * option (Z * Employee)) :=
  linearMatches ← linearSearch populateRecords "Engineering";
  index ← binarySearch populateRecords 333;
  if index =? -1 then Done (linearMatches, None)
  else r ← arr_get populateRecords index; Done (linearMatches, Some (index, r)).

(** ** Lemmas *)

Definition in_department (targetDept : string) (r : Employee) : Prop := department r = targetDept.
#[export] Instance in_department_dec targetDept r : Decision (in_department targetDept r).
Proof. unfold in_department. apply _. Defined.

Lemma linear_loop_ok l1 l2 targetDept found :
  linear_loop (length l2) (Z.of_nat (length l1)) (l1 ++ l2) targetDept found =
  Done (found + Z.of_nat (length (filter (in_department targetDept) l2))).
Proof.
  revert l1 found. induction l2 as [|r l2 IH]; intros l1 found; cbn [length linear_loop]; [by rewrite Z.add_0_r|].
  rewrite arr_get_mid by done. cbn [mbind outcome_bind].
  replace (l1 ++ r :: l2) with ((l1 ++ [r]) ++ l2) by (by rewrite <- app_assoc).
  replace (Z.of_nat (length l1) + 1) with (Z.of_nat (length (l1 ++ [r]))) by (rewrite length_app; simpl; lia).
  rewrite IH. destruct (decide (in_department targetDept r)) as [Hd|Hd].
  - rewrite filter_cons_True, (proj2 (streq_spec _ _) Hd) by done. f_equal. cbn [length]. lia.
  - by rewrite filter_cons_False, (proj2 (streq_false _ _) Hd) by done.
Qed.

Lemma department_loop_ok l1 l2 targetDept :
  department_loop (length l2) (Z.of_nat (length l1)) (l1 ++ l2) targetDept =
  Done (filter (in_department targetDept) l2, Z.of_nat (length (filter (in_department targetDept) l2))).
Proof.
  revert l1. induction l2 as [|r l2 IH]; intros l1; [done|]. cbn [length department_loop].
  rewrite arr_get_mid by done. cbn [mbind outcome_bind].
  replace (l1 ++ r :: l2) with ((l1 ++ [r]) ++ l2) by (by rewrite <- app_assoc).
  replace (Z.of_nat (length l1) + 1) with (Z.of_nat (length (l1 ++ [r]))) by (rewrite length_app; simpl; lia).
  rewrite IH. cbn [mbind outcome_bind fst snd]. destruct (decide (in_department targetDept r)) as [Hd|Hd].
  - rewrite filter_cons_True, (proj2 (streq_spec _ _) Hd) by done. do 2 f_equal. cbn [length]. lia.
  - by rewrite filter_cons_False, (proj2 (streq_false _ _) Hd) by done.
Qed.

(** the numbers of the records increase *)
Definition increasing (records : list Employee) : Prop :=
  forall i j a b, (i < j)%nat -> records !! i = Some a -> records !! j = Some b -> id a < id b.

(** a number can only be between the two bounds *)
Definition only_between (records : list Employee) (targetId low high : Z) : Prop :=
  forall i r, records !! i = Some r -> id r = targetId -> low <= Z.of_nat i <= high.

Lemma binary_loop_ok records targetId fuel low high : increasing records -> only_between records targetId low high ->
  0 <= low <= high + 1 -> high < Z.of_nat (length records) -> high - low + 1 < Z.of_nat fuel ->
  exists k, binary_loop fuel records targetId low high = Done k /\
    ((k = -1 /\ forall r, r ∈ records -> id r <> targetId) \/ exists r, 0 <= k /\ records !! Z.to_nat k = Some r /\ id r = targetId).
Proof.
  intros Hinc. revert low high. induction fuel as [|fuel IH]; intros low high Hb Hl Hh Hf.
  { lia. }
  cbn [binary_loop]. destruct (Z.leb_spec low high) as [Hle|Hgt].
  2:{ exists (-1). split; [done|]. left. split; [done|]. intros r [i Hi]%list_elem_of_lookup He. specialize (Hb i r Hi He). lia. }
  set (mid := Z.quot (low + high) 2). assert (low <= mid <= high) as Hmid by (unfold mid; Z.to_euclidean_division_equations; lia).
  destruct (arr_get_in records mid) as [r Hr]; [lia|]. rewrite Hr. cbn [mbind outcome_bind]. apply arr_get_Done in Hr as [_ Hr].
  destruct (Z.eqb_spec (id r) targetId) as [He|Hne]; [exists mid; split; [done|]; right; exists r; split_and!; [lia|done|done]|].
  destruct (Z.ltb_spec (id r) targetId) as [Hlt|Hge]; apply IH; try lia; intros i x Hi Hx; specialize (Hb i x Hi Hx).
  - destruct (decide (i < Z.to_nat mid)%nat) as [Hs|Hs]; [specialize (Hinc i (Z.to_nat mid) x r Hs Hi Hr); lia|].
    destruct (decide (i = Z.to_nat mid)) as [->|]; [congruence|lia].
  - destruct (decide (Z.to_nat mid < i)%nat) as [Hs|Hs]; [specialize (Hinc (Z.to_nat mid) i r x Hs Hr Hi); lia|].
    destruct (decide (i = Z.to_nat mid)) as [->|]; [congruence|lia].
Qed.

(** ** Properties *)

(** The binary search ends on any table of 500 records with increasing numbers and stays inside it; it
    gives the index of the record with the number, or -1 when there is none. *)
Theorem binarySearch_correct records targetId : length records = Z.to_nat MAX_RECORDS -> increasing records ->
  exists k, binarySearch records targetId = Done k /\
    ((k = -1 /\ forall r, r ∈ records -> id r <> targetId) \/ exists r, 0 <= k /\ records !! Z.to_nat k = Some r /\ id r = targetId).
Proof.
  intros Hl Hinc. unfold binarySearch, MAX_RECORDS in *. apply binary_loop_ok; [done| |lia|lia|lia].
  intros i r Hi%lookup_lt_Some _. lia.
Qed.

(** Both searches by department see every record: [linearSearch] counts those of the department,
    [searchByDepartment] prints them in order with their number. *)
Theorem department_searches records targetDept : length records = Z.to_nat MAX_RECORDS ->
  let found := filter (in_department targetDept) records in
  linearSearch records targetDept = Done (Z.of_nat (length found)) /\
  searchByDepartment records targetDept = Done (found, Z.of_nat (length found)).
Proof.
  intros Hl. unfold linearSearch, searchByDepartment. rewrite <- Hl. split.
  - exact (linear_loop_ok [] records targetDept 0).
  - exact (department_loop_ok [] records targetDept).
Qed.

Lemma populated_increasing : increasing populateRecords.
Proof.
  intros i j a b Hij Ha Hb. unfold populateRecords in *. rewrite list_lookup_fmap in Ha, Hb.
  destruct (seqZ 0 MAX_RECORDS !! i) as [x|] eqn:Hx; [|done]. destruct (seqZ 0 MAX_RECORDS !! j) as [y|] eqn:Hy; [|done].
  apply lookup_seqZ in Hx as [-> _], Hy as [-> _]. injection Ha as <-. injection Hb as <-. unfold populate_one. cbn [id]. lia.
Qed.

Lemma length_populated : length populateRecords = Z.to_nat MAX_RECORDS.
Proof. unfold populateRecords. by rewrite length_fmap, length_seqZ. Qed.

(** what the program prints *)
Example assessment_prints : main = Done (167, Some (332, mkEmployee 333 "Employee_333" "HR")).
Proof. vm_compute. reflexivity. Qed.

Lemma binarySearch_correct_witness : exists k, binarySearch populateRecords 333 = Done k /\
  ((k = -1 /\ forall r, r ∈ populateRecords -> id r <> 333) \/ exists r, 0 <= k /\ populateRecords !! Z.to_nat k = Some r /\ id r = 333).
Proof. exact (binarySearch_correct populateRecords 333 length_populated populated_increasing). Defined.

Lemma department_searches_witness : let found := filter (in_department "HR") populateRecords in
  linearSearch populateRecords "HR" = Done (Z.of_nat (length found)) /\
  searchByDepartment populateRecords "HR" = Done (found, Z.of_nat (length found)).
Proof. exact (department_searches populateRecords "HR" length_populated). Defined.
