(* ===== verification/SmallExercises.v ===== *)
(** * Small programs on arrays and lists

    "LEETCODE PROBLEMS/twosums.c", firstuniqchar.c and MiddleoftheLinkedList.c, the single
    node of Trees/BTree.c and the page arithmetic of TASK/24-10-2025/PageMap.c. *)
From S2P Require Import Prelude.

(** ** twosums.c *)

(** the inner loop, from [j] on *)
Fixpoint two_sum_inner (n : nat) (nums : list Z) (target i j : Z) : outcome (option (Z * Z)) :=
  match n with
  | O => Done None
  | S n =>
      x ← arr_get nums i;
      y ← arr_get nums j;
      sum ← int_chk (x + y);
      if sum =? target then Done (Some (i, j)) else two_sum_inner n nums target i (j + 1)
  end.

Fixpoint two_sum_outer (n : nat) (nums : list Z) (numsSize target i : Z) : outcome (option (Z * Z)) :=
  match n with
  | O => Done None
  | S n =>
      r ← two_sum_inner (Z.to_nat (numsSize - (i + 1))) nums target i (i + 1);
      match r with Some p => Done (Some p) | None => two_sum_outer n nums numsSize target (i + 1) end
  end.

(** the two indices, or NULL; [*returnSize] is 2 in both cases *)
Definition twoSum (nums : list Z) (target : Z) : outcome (option (Z * Z)) :=
  two_sum_outer (length nums) nums (Z.of_nat (length nums)) target 0.

(** ** firstuniqchar.c *)

Fixpoint count_chars (s : string) (freq : list Z) : outcome (list Z) :=
  match s with
  | EmptyString => Done freq
  | String c s =>
      f ← arr_get freq (schar c - 97);
      freq ← arr_set freq (schar c - 97) (f + 1);
      count_chars s freq
  end.

Fixpoint find_unique (s : string) (freq : list Z) (i : Z) : outcome Z :=
  match s with
  | EmptyString => Done (-1)
  | String c s => f ← arr_get freq (schar c - 97); if f =? 1 then Done i else find_unique s freq (i + 1)
  end.

Definition firstUniqChar (s : string) : outcome Z :=
  freq ← count_chars s (replicate 26 0); find_unique s freq 0.

(** ** MiddleoftheLinkedList.c: a pointer into the list is the list from there on *)

Fixpoint middle_loop (fuel : nat) (node1 node2 : list Z) : outcome (list Z) :=
  match fuel with
  | O => OutOfFuel
  | S fuel =>
      match node2 with
      | _ :: _ :: node2' => match node1 with [] => Undef | _ :: node1' => middle_loop fuel node1' node2' end
      | _ => Done node1
      end
  end.

Definition middleNode (head : list Z) : outcome (list Z) := middle_loop (S (length head)) head head.

(** ** BTree.c *)

Definition MAX_KEYS : Z := 10.

Record BTreeNode := mkNode { keys : list Z; numKeys : Z; isLeaf : bool }.

(** the numbers that are read, and what is left of the input; a number that is not there leaves its cell unset *)
Definition createNode (n : Z) (input : list Z) : BTreeNode * list Z :=
  (mkNode (take (Z.to_nat n) input) n true, drop (Z.to_nat n) input).

Fixpoint search_loop (fuel : nat) (node : BTreeNode) (key i : Z) : outcome bool :=
  match fuel with
  | O => OutOfFuel
  | S fuel =>
      if i <? numKeys node then
        k ← arr_get (keys node) i;
        if k =? key then Done true else search_loop fuel node key (i + 1)
      else Done false
  end.

Definition search (node : BTreeNode) (key : Z) : outcome bool := search_loop (S (length (keys node))) node key 0.

(** [main]: [None] for the exit with status 1 *)
Definition btree_main (input : list Z) : outcome (option bool) :=
  match input with
  | n :: input =>
      if n >? MAX_KEYS then Done None else
      let p := createNode n input in
      match p.2 with
      | key :: _ => b ← search p.1 key; Done (Some b)
      | [] => Undef
      end
  | [] => Undef
  end.

(** ** PageMap.c: addresses are 64-bit integers *)

Definition ROWS : Z := 5000.
Definition COLS : Z := 5000.
Definition PAGE_SIZE : Z := 4096.
Definition totalBytes : Z := u64 (u64 (ROWS * COLS) * 4).

(** [addr & ~(PAGE_SIZE - 1)]: the int is extended with its sign *)
Definition page_of (addr : Z) : Z := Z.land addr (u64 (Z.lnot (PAGE_SIZE - 1))).

Fixpoint page_loop (fuel : nat) (addr pageEnd : Z) : outcome (list Z) :=
  match fuel with
  | O => OutOfFuel
  | S fuel =>
      if addr <=? pageEnd then rest ← page_loop fuel (u64 (addr + PAGE_SIZE)) pageEnd; Done (addr :: rest) else Done []
  end.

(** the number of pages and the addresses that are printed for an array at [array] *)
Definition page_map (array : Z) : outcome (Z * list Z) :=
  let lastAddress := u64 (array + totalBytes - 1) in
  let pageStart := page_of array in
  let pageEnd := page_of lastAddress in
  l ← page_loop (S (S (Z.to_nat (totalBytes / PAGE_SIZE + 1)))) pageStart pageEnd;
  Done (u64 (u64 (pageEnd - pageStart) / PAGE_SIZE + 1), l).

(** the example elements: row, column, address and page *)
Definition element (array i : Z) : Z * Z * Z * Z :=
  let row := i * 1000 in let col := i * 1000 in
  let addr := u64 (array + 4 * u64 (row * COLS + col)) in (row, col, addr, page_of addr).

(** ** Lemmas *)

(** numbers whose sums fit an [int] *)
Definition small (nums : list Z) : Prop := Forall (fun x => - 2 ^ 30 <= x < 2 ^ 30) nums.

Definition value (nums : list Z) (i : Z) : Z := default 0 (nums !! Z.to_nat i).

Lemma arr_get_value nums i : 0 <= i < Z.of_nat (length nums) -> arr_get nums i = Done (value nums i).
Proof.
  intros Hi. destruct (arr_get_in nums i Hi) as [x Hx]. rewrite Hx. apply arr_get_Done in Hx as [_ Hx].
  unfold value. by rewrite Hx.
Qed.

Lemma value_small nums i : small nums -> - 2 ^ 30 <= value nums i < 2 ^ 30.
Proof.
  intros Hs. unfold value. destruct (nums !! Z.to_nat i) as [x|] eqn:Hx; simpl; [|lia].
  by apply (Forall_lookup_1 _ _ _ _ Hs Hx).
Qed.

(** a pair of different places whose numbers add up *)
Definition adds_up (nums : list Z) (target i j : Z) : Prop :=
  0 <= i < j /\ j < Z.of_nat (length nums) /\ value nums i + value nums j = target.

Lemma two_sum_inner_ok n nums target i j : small nums -> 0 <= i < j -> j + Z.of_nat n = Z.of_nat (length nums) ->
  exists r, two_sum_inner n nums target i j = Done r /\
    match r with Some (a, b) => adds_up nums target a b | None => forall k, j <= k -> ~ adds_up nums target i k end.
Proof.
  intros Hs. revert j. induction n as [|n IH]; intros j Hi Hn; cbn [two_sum_inner].
  { exists None. split; [done|]. intros k Hk (_ & ? & _). lia. }
  rewrite !arr_get_value by lia. cbn [mbind outcome_bind].
  rewrite int_chk_ok by (pose proof (value_small nums i Hs); pose proof (value_small nums j Hs); unfold int_min, int_max; lia).
  cbn [mbind outcome_bind]. destruct (Z.eqb_spec (value nums i + value nums j) target) as [He|Hne].
  - eexists. split; [reflexivity|]. unfold adds_up. split_and!; lia.
  - destruct (IH (j + 1)) as ([[a b]|] & Hr & H); [lia|lia|by eexists|]. eexists. split; [exact Hr|].
    intros k Hk Ha. destruct (decide (k = j)) as [->|]; [destruct Ha as (_ & _ & Ha); congruence|]. apply (H k); [lia|done].
Qed.

Lemma two_sum_outer_ok n nums target i : small nums -> 0 <= i -> i + Z.of_nat n = Z.of_nat (length nums) ->
  exists r, two_sum_outer n nums (Z.of_nat (length nums)) target i = Done r /\
    match r with Some (a, b) => adds_up nums target a b | None => forall a b, i <= a -> ~ adds_up nums target a b end.
Proof.
  intros Hs. revert i. induction n as [|n IH]; intros i Hi Hn; cbn [two_sum_outer].
  { exists None. split; [done|]. intros a b Ha (? & ? & _). lia. }
  destruct (two_sum_inner_ok (Z.to_nat (Z.of_nat (length nums) - (i + 1))) nums target i (i + 1) Hs) as (r & -> & Hr); [lia|lia|].
  cbn [mbind outcome_bind]. destruct r as [[a b]|]; [by eexists|].
  destruct (IH (i + 1)) as (r & -> & Hr'); [lia|lia|]. exists r. split; [done|]. destruct r as [[a b]|]; [done|].
  intros a b Ha Had. destruct (decide (a = i)) as [->|]; [|apply (Hr' a b); [lia|done]].
  apply (Hr b); [by destruct Had; lia|done].
Qed.

(** the number of times a character occurs *)
Fixpoint occurrences (c : ascii) (s : string) : nat :=
  match s with EmptyString => 0 | String d s => (if decide (d = c) then 1 else 0) + occurrences c s end.

Definition lower (c : ascii) : bool := (97 <=? schar c) && (schar c <=? 122).

Fixpoint all_lower (s : string) : Prop := match s with EmptyString => True | String c s => lower c = true /\ all_lower s end.

(** [freq] counts what has been seen, on top of [base] *)
Definition counts (freq : list Z) (f : ascii -> Z) : Prop :=
  length freq = 26%nat /\ forall c, lower c = true -> freq !! Z.to_nat (schar c - 97) = Some (f c).

Lemma lower_get freq f c : counts freq f -> lower c = true -> arr_get freq (schar c - 97) = Done (f c).
Proof. intros [_ H] Hc. apply arr_get_Done. split; [|by apply H]. apply andb_true_iff in Hc as [?%Z.leb_le _]. lia. Qed.

Lemma count_chars_ok s freq f : all_lower s -> counts freq f ->
  exists freq', count_chars s freq = Done freq' /\ counts freq' (fun c => f c + Z.of_nat (occurrences c s)).
Proof.
  revert freq f. induction s as [|d s IH]; intros freq f; cbn [count_chars all_lower].
  - intros _ [Hl Hf]. exists freq. split; [done|]. split; [done|]. intros c Hc. rewrite (Hf c Hc). simpl. f_equal. lia.
  - intros [Hd Hs] Hc. rewrite (lower_get _ _ _ Hc Hd). cbn [mbind outcome_bind]. destruct Hc as [Hl Hf].
    pose proof Hd as [?%Z.leb_le ?%Z.leb_le]%andb_true_iff. rewrite arr_set_in by lia. cbn [mbind outcome_bind].
    destruct (IH (<[Z.to_nat (schar d - 97) := f d + 1]> freq) (fun c => f c + if decide (d = c) then 1 else 0) Hs) as (freq' & Hrun & Hc').
    + split; [by rewrite length_insert|]. intros c Hlc. destruct (decide (d = c)) as [->|Hne].
      * rewrite list_lookup_insert_eq by lia. done.
      * rewrite list_lookup_insert_ne; [rewrite Hf by done; f_equal; lia|]. intros He. apply Hne, schar_inj.
        pose proof Hlc as [?%Z.leb_le ?%Z.leb_le]%andb_true_iff. lia.
    + exists freq'. split; [done|]. destruct Hc' as [Hl' Hf']. split; [done|]. intros c Hlc. rewrite (Hf' c Hlc). simpl. f_equal.
      destruct (decide (d = c)); lia.
Qed.

(** the index of the first character for which [p] holds *)
Fixpoint first_index (p : ascii -> bool) (s : string) (i : Z) : Z :=
  match s with EmptyString => -1 | String c s => if p c then i else first_index p s (i + 1) end.

Lemma find_unique_ok s freq f i : all_lower s -> counts freq f ->
  find_unique s freq i = Done (first_index (fun c => f c =? 1) s i).
Proof.
  revert i. induction s as [|c s IH]; intros i; cbn [find_unique all_lower first_index]; [done|].
  intros [Hc Hs] Hf. rewrite (lower_get _ _ _ Hf Hc). cbn [mbind outcome_bind]. destruct (f c =? 1); [done|by apply IH].
Qed.

Lemma middle_loop_ok fuel node1 node2 : (length node2 <= length node1)%nat -> (length node2 < fuel)%nat ->
  middle_loop fuel node1 node2 = Done (drop (Nat.div2 (length node2)) node1).
Proof.
  revert node1 node2. induction fuel as [|fuel IH]; intros node1 node2 Hl Hf; [lia|].
  destruct node2 as [|a [|b node2]]; cbn [middle_loop]; [done|done|].
  destruct node1 as [|c node1]; [simpl in Hl; lia|]. simpl in *. rewrite IH by lia. done.
Qed.

Lemma search_loop_ok l1 l2 n b key fuel : n = Z.of_nat (length (l1 ++ l2)) -> (length l2 < fuel)%nat ->
  search_loop fuel (mkNode (l1 ++ l2) n b) key (Z.of_nat (length l1)) = Done (bool_decide (key ∈ l2)).
Proof.
  intros ->. revert fuel l1. induction l2 as [|k l2 IH]; intros [|fuel] l1 Hf; try (simpl in Hf; lia); cbn [search_loop numKeys keys].
  - rewrite app_nil_r, Z.ltb_irrefl. by rewrite bool_decide_false by set_solver.
  - rewrite length_app, (proj2 (Z.ltb_lt _ _)) by (simpl; lia).
    rewrite arr_get_mid by done.
    cbn [mbind outcome_bind]. destruct (Z.eqb_spec k key) as [->|Hne]; [by rewrite bool_decide_true by set_solver|].
    replace (Z.of_nat (length l1) + 1) with (Z.of_nat (length (l1 ++ [k]))) by (rewrite length_app; simpl; lia).
    replace (l1 ++ k :: l2) with ((l1 ++ [k]) ++ l2) by (by rewrite <- app_assoc).
    replace (length l1 + length (k :: l2))%nat with (length ((l1 ++ [k]) ++ l2)) by (rewrite !length_app; simpl; lia).
    rewrite IH by (simpl in Hf; lia). f_equal. apply bool_decide_ext. set_solver.
Qed.

Lemma page_of_ok addr : 0 <= addr < 2 ^ 64 -> page_of addr = PAGE_SIZE * (addr / PAGE_SIZE).
Proof.
  intros Ha. unfold page_of, PAGE_SIZE. change (u64 (Z.lnot (4096 - 1))) with (Z.shiftl (Z.ones 52) 12).
  replace (4096 * (addr / 4096)) with (Z.shiftl (Z.shiftr addr 12) 12) by (rewrite Z.shiftl_mul_pow2, Z.shiftr_div_pow2 by lia; change (2 ^ 12) with 4096; lia).
  apply Z.bits_inj'. intros n Hn. rewrite Z.land_spec. destruct (Z.ltb_spec n 12) as [Hlt|Hge].
  - rewrite !Z.shiftl_spec_low by lia. apply andb_false_r.
  - rewrite !Z.shiftl_spec, Z.shiftr_spec by lia. replace (n - 12 + 12) with n by lia.
    destruct (Z.ltb_spec n 64) as [Hs|Hb].
    + rewrite Z.ones_spec_low by lia. apply andb_true_r.
    + rewrite (Z.bits_above_log2 addr n); [done|lia|]. destruct (decide (addr = 0)) as [->|]; [simpl; lia|].
      apply Z.log2_lt_pow2; [lia|]. apply Z.lt_le_trans with (2 ^ 64); [lia|]. apply Z.pow_le_mono_r; lia.
Qed.

Lemma page_loop_ok fuel a n : 0 <= a -> PAGE_SIZE * (a + Z.of_nat n + 1) < 2 ^ 64 -> (S n < fuel)%nat ->
  page_loop fuel (PAGE_SIZE * a) (PAGE_SIZE * (a + Z.of_nat n)) = Done (Z.mul PAGE_SIZE <$> seqZ a (Z.of_nat (S n))).
Proof.
  unfold PAGE_SIZE. revert a fuel. induction n as [|n IH]; intros a fuel Ha Hm Hf; (destruct fuel as [|fuel]; [lia|]); cbn [page_loop];
    rewrite (proj2 (Z.leb_le _ _)) by lia; unfold PAGE_SIZE; replace (u64 (4096 * a + 4096)) with (4096 * (a + 1)) by (rewrite u64_small; lia).
  - destruct fuel as [|fuel]; [lia|]. cbn [page_loop]. rewrite (proj2 (Z.leb_gt _ _)) by lia. done.
  - replace (4096 * (a + Z.of_nat (S n))) with (4096 * (a + 1 + Z.of_nat n)) by lia. rewrite IH by lia. cbn [mbind outcome_bind].
    rewrite (seqZ_cons a) by lia. replace (Z.succ a) with (a + 1) by lia. by replace (Z.pred (Z.of_nat (S (S n)))) with (Z.of_nat (S n)) by lia.
Qed.

Lemma multiples_sorted a n : StronglySorted Z.lt (Z.mul PAGE_SIZE <$> seqZ a n).
Proof.
  destruct (decide (0 <= n)) as [Hn|Hn]; [|by rewrite seqZ_nil by lia; constructor].
  revert a. pattern n. apply natlike_ind; [by constructor| |done]. clear n Hn. intros n Hn IH a.
  rewrite seqZ_cons by lia. rewrite Z.pred_succ. cbn. constructor; [apply IH|].
  apply Forall_fmap, Forall_forall. intros x Hx%elem_of_seqZ. unfold PAGE_SIZE. simpl. lia.
Qed.

Lemma page_map_list array : 0 <= array -> array + totalBytes + PAGE_SIZE < 2 ^ 64 ->
  let s := array / PAGE_SIZE in let e := (array + totalBytes - 1) / PAGE_SIZE in
  page_map array = Done (e - s + 1, Z.mul PAGE_SIZE <$> seqZ s (e - s + 1)).
Proof.
  intros Ha Hb s e. unfold page_map. change totalBytes with 100000000 in *. unfold PAGE_SIZE in *.
  rewrite (u64_small (array + 100000000 - 1)), !page_of_ok by lia. unfold PAGE_SIZE. fold s e.
  assert (s <= e <= s + 24415 /\ 0 <= s /\ 4096 * (e + 1) < 2 ^ 64) as Hse by (unfold s, e; Z.to_euclidean_division_equations; lia).
  replace e with (s + Z.of_nat (Z.to_nat (e - s))) at 1 by lia.
  pose proof (page_loop_ok (S (S (Z.to_nat (100000000 / 4096 + 1)))) s (Z.to_nat (e - s))) as Hp. unfold PAGE_SIZE in Hp.
  change (100000000 / 4096 + 1) with 24415 in *. rewrite Hp by lia. cbn [mbind outcome_bind]. f_equal. f_equal.
  - rewrite (u64_small (4096 * e - 4096 * s)) by lia. rewrite u64_small; [|Z.to_euclidean_division_equations; lia].
    Z.to_euclidean_division_equations; lia.
  - f_equal. f_equal. lia.
Qed.

(** ** Properties *)

(** [twoSum] returns indices of two different numbers that add up to the target, and NULL when there
    are none; for numbers below 2^30 nothing overflows. *)
Theorem twoSum_correct nums target : small nums ->
  exists r, twoSum nums target = Done r /\
    match r with Some (a, b) => adds_up nums target a b | None => forall a b, ~ adds_up nums target a b end.
Proof.
  intros Hs. destruct (two_sum_outer_ok (length nums) nums target 0 Hs) as (r & Hr & H); [lia|lia|]. exists r. split; [done|].
  destruct r as [[a b]|]; [done|]. intros a b Ha. apply (H a b); [|done]. by destruct Ha; lia.
Qed.

(** For a string of lower case letters [firstUniqChar] returns the index of the first letter that
    occurs once, or -1. *)
Theorem firstUniqChar_correct s : all_lower s ->
  firstUniqChar s = Done (first_index (fun c => Z.of_nat (occurrences c s) =? 1) s 0).
Proof.
  intros Hs. unfold firstUniqChar. destruct (count_chars_ok s (replicate 26 0) (fun _ => 0) Hs) as (freq & -> & Hf).
  { split; [done|]. intros c [?%Z.leb_le ?%Z.leb_le]%andb_true_iff. apply lookup_replicate_2. lia. }
  cbn [mbind outcome_bind]. by rewrite (find_unique_ok _ _ _ _ Hs Hf).
Qed.

(** [middleNode] returns the list from its middle on, the second of two middles. *)
Theorem middleNode_correct head : middleNode head = Done (drop (Nat.div2 (length head)) head).
Proof. apply middle_loop_ok; lia. Qed.

(** The program of BTree.c, for a number of keys and at least one number more: it finds the key that
    is typed after them exactly when it is among them; more than ten keys are refused. *)
Theorem btree_main_correct n values key rest : Z.of_nat (length values) = n ->
  btree_main (n :: values ++ key :: rest) = Done (if n >? MAX_KEYS then None else Some (bool_decide (key ∈ values))).
Proof.
  intros <-. unfold btree_main, createNode. destruct (_ >? MAX_KEYS); [done|]. cbn [fst snd].
  rewrite Nat2Z.id, drop_app_length, take_app_length. 
  assert (search (mkNode values (Z.of_nat (length values)) true) key = Done (bool_decide (key ∈ values))) as ->; [|done].
  apply (search_loop_ok [] values); [done|cbn [keys]; lia].
Qed.

(** PageMap.c prints, for an array anywhere below the last pages, the pages that hold a byte of it,
    each once and in order, with their number; the five example elements lie in pages of the list. *)
Theorem page_map_correct array : 0 <= array -> array + totalBytes + PAGE_SIZE < 2 ^ 64 ->
  exists l, page_map array = Done (Z.of_nat (length l), l) /\ StronglySorted Z.lt l /\
    (forall p, p ∈ l <-> exists addr, array <= addr < array + totalBytes /\ p = PAGE_SIZE * (addr / PAGE_SIZE)) /\
    (forall i, 0 <= i < 5 -> (element array i).2 ∈ l).
Proof.
  intros Ha Hb. set (s := array / PAGE_SIZE). set (e := (array + totalBytes - 1) / PAGE_SIZE).
  assert (s <= e) as Hse by (apply Z.div_le_mono; [done|change totalBytes with 100000000; lia]).
  exists (Z.mul PAGE_SIZE <$> seqZ s (e - s + 1)). split_and!.
  - rewrite (page_map_list array Ha Hb). fold s e. f_equal. rewrite length_fmap, length_seqZ. f_equal. lia.
  - apply multiples_sorted.
  - intros p. rewrite list_elem_of_fmap. setoid_rewrite elem_of_seqZ. unfold PAGE_SIZE in *. split.
    + intros (k & -> & Hk). exists (Z.max array (4096 * k)). unfold s, e in Hk.
      assert (Z.max array (4096 * k) / 4096 = k) as -> by (Z.to_euclidean_division_equations; lia).
      change totalBytes with 100000000 in *. split; [Z.to_euclidean_division_equations; lia|done].
    + intros (addr & Haddr & ->). exists (addr / 4096). split; [done|]. unfold s, e.
      change totalBytes with 100000000 in *. Z.to_euclidean_division_equations; lia.
  - intros i Hi. unfold element. cbn [snd]. change totalBytes with 100000000 in *.
    assert (0 <= i * 1000 * COLS + i * 1000 < 25000000) as Hidx by (unfold COLS; lia).
    rewrite (u64_small (i * 1000 * COLS + i * 1000)) by lia. unfold PAGE_SIZE in *. rewrite u64_small, page_of_ok by lia.
    apply list_elem_of_fmap. eexists. split; [done|]. apply elem_of_seqZ. unfold s, e. change totalBytes with 100000000. unfold PAGE_SIZE.
    generalize dependent (i * 1000 * COLS + i * 1000). intros. Z.to_euclidean_division_equations; lia.
Qed.

Lemma page_map_correct_witness : exists l, page_map 8200 = Done (Z.of_nat (length l), l) /\ StronglySorted Z.lt l /\
  (forall p, p ∈ l <-> exists addr, 8200 <= addr < 8200 + totalBytes /\ p = PAGE_SIZE * (addr / PAGE_SIZE)) /\
  (forall i, 0 <= i < 5 -> (element 8200 i).2 ∈ l).
Proof. apply (page_map_correct 8200); [discriminate|reflexivity]. Defined.

Lemma twoSum_correct_witness : exists r, twoSum [3; 2; 4] 6 = Done r /\
  match r with Some (a, b) => adds_up [3; 2; 4] 6 a b | None => forall a b, ~ adds_up [3; 2; 4] 6 a b end.
Proof. apply (twoSum_correct [3; 2; 4] 6). repeat constructor; discriminate. Defined.

Lemma firstUniqChar_correct_witness : firstUniqChar "aabcb" = Done (first_index (fun c => Z.of_nat (occurrences c "aabcb") =? 1) "aabcb" 0).
Proof. apply (firstUniqChar_correct "aabcb"). by repeat split. Defined.

Lemma btree_main_correct_witness : btree_main [2; 7; 8; 8] = Done (if 2 >? MAX_KEYS then None else Some (bool_decide (8 ∈ [7; 8]))).
Proof. exact (btree_main_correct 2 [7; 8] 8 [] eq_refl). Defined.
