(* ===== verification/Students.v ===== *)
(** * The student records of filegets.c

    The menu of filegets.c over what is typed, the table of at most 100 students, the reports
    that are printed and exported, and the statistics of the class, in single precision.
    What is typed is a string, without NUL, that the conversions of [scanf] read.  [fopen] may
    refuse any file.  An allocation that fails is not modelled: the program would write to
    NULL.  So is a conversion that finds nothing it can read: the variable keeps what it held
    and the menu goes round for ever. *)
From S2P Require Import Prelude CString Float32 Numbers.

(** ** The program *)

Definition MAX_NAME_LEN : nat := 100.
Definition PASS_MARKS : Z := 35.
Definition MAX_STUDENTS : nat := 100.

Record Subject := mkSubject { sub_name : string; marks : Z }.
Record Student := mkStudent { name : string; roll_no : Z; subjects : list Subject; total : float; average : float }.

(** a line that is printed or written *)
Inductive line :=
| Message (s : string)
| Name (s : string) | RollNo (z : Z) | Mark (s : string) (z : Z) | Total (f : float) | Average (f : float)
| Exported (roll : Z)
| ClassPercentage (f : float) | PassPercentage (f : float) (passed count : Z).

Record state := mkState { input : string; students : list Student; out : list line; exports : gmap Z (list line) }.

Definition set_input (i : string) (s : state) : state := mkState i (students s) (out s) (exports s).

Definition print (l : list line) : cmd state unit := modify (fun s => mkState (input s) (students s) (out s ++ l) (exports s)).

(** [scanf("%d")] *)
Definition scan_d : cmd state Z :=
  s ← get;
  p ← lift (scan_int (input s));
  match p with (Some z, i) => modify (set_input i);; mret z | _ => undef end.

(** [scanf(" %[^\n]")] into [MAX_NAME_LEN] bytes: white space, empty lines too, is skipped before the line *)
Definition scan_name : cmd state string :=
  s ← get;
  let r := skip_ws (input s) in
  match scan_line (strlen r) r with
  | Some (l, i) => if (strlen l <? MAX_NAME_LEN)%nat then modify (set_input i);; mret l else undef
  | None => undef
  end.

(** the loop over the subjects, with [s->total] so far *)
Fixpoint read_marks (subject_names : list string) (total : float) : cmd state (list Subject * float) :=
  match subject_names with
  | [] => mret ([], total)
  | n :: subject_names =>
      m ← scan_d;
      p ← read_marks subject_names (fadd total (f_of_int m));
      mret (mkSubject n m :: p.1, p.2)
  end.

(** the array has 100 places *)
Definition add_student (subject_count : Z) (subject_names : list string) : cmd state unit :=
  s ← get;
  if (MAX_STUDENTS <=? length (students s))%nat then undef else
  n ← scan_name;
  r ← scan_d;
  p ← read_marks subject_names (f_of_int 0);
  let st := mkStudent n r p.1 p.2 (fdiv p.2 (f_of_int subject_count)) in
  modify (fun s => mkState (input s) (students s ++ [st]) (out s) (exports s)).

(** what [display_student] prints and [export_student] writes *)
Definition report (s : Student) : list line :=
  [Name (name s); RollNo (roll_no s); Message "Subjects and Marks:"] ++
  ((fun x => Mark (sub_name x) (marks x)) <$> subjects s) ++ [Total (total s); Average (average s)].

Definition display_student (s : Student) : cmd state unit := print (report s).

Section files.
(** whether [fopen] gives the file of a number, the [n]-th time it is asked *)
Context (fopen_ok : Z -> bool).

Definition export_student (s : Student) : cmd state unit :=
  if negb (fopen_ok (roll_no s)) then print [Message "Error writing to file!"] else
  modify (fun st => mkState (input st) (students st) (out st) (<[roll_no s := report s]> (exports st)));;
  print [Exported (roll_no s)].

Fixpoint for_each (f : Student -> cmd state unit) (l : list Student) : cmd state unit :=
  match l with [] => mret tt | s :: l => f s;; for_each f l end.

(** the loop over the marks of a student, with its [break] *)
Fixpoint passed (l : list Subject) : bool :=
  match l with [] => true | x :: l => if marks x <? PASS_MARKS then false else passed l end.

Fixpoint class_loop (l : list Student) (class_total : float) (pass_count : Z) : float * Z :=
  match l with
  | [] => (class_total, pass_count)
  | s :: l => class_loop l (fadd class_total (total s)) (if passed (subjects s) then pass_count + 1 else pass_count)
  end.

Definition class_stats (l : list Student) (student_count subject_count : Z) : cmd state unit :=
  x ← lift (int_chk (student_count * subject_count));
  total_marks_possible ← lift (int_chk (x * 100));
  let '(class_total, pass_count) := class_loop l (f_of_int 0) 0 in
  let class_percentage := fmul (fdiv class_total (f_of_int total_marks_possible)) (f_of_int 100) in
  let pass_percentage := fmul (fdiv (f_of_int pass_count) (f_of_int student_count)) (f_of_int 100) in
  print [ClassPercentage class_percentage; PassPercentage pass_percentage pass_count student_count].

(** one choice of the menu *)
Definition choose (choice subject_count : Z) (subject_names : list string) : cmd state unit :=
  s ← get;
  let none := match students s with [] => true | _ => false end in
  if choice =? 1 then add_student subject_count subject_names
  else if choice =? 2 then if none then print [Message "No students added yet."] else for_each display_student (students s)
  else if choice =? 3 then if none then print [Message "No students to export."] else for_each export_student (students s)
  else if choice =? 4 then
    if none then print [Message "No student data available for statistics."]
    else class_stats (students s) (Z.of_nat (length (students s))) subject_count
  else if negb (choice =? 5) then print [Message "Invalid choice."] else mret tt.

(** the loop of the menu *)
Fixpoint menu (fuel : nat) (subject_count : Z) (subject_names : list string) : cmd state unit :=
  match fuel with
  | O => fun _ => OutOfFuel
  | S fuel =>
      choice ← scan_d;
      choose choice subject_count subject_names;;
      if choice =? 5 then mret tt else menu fuel subject_count subject_names
  end.

Fixpoint read_names (n : nat) : cmd state (list string) :=
  match n with O => mret [] | S n => x ← scan_name; l ← read_names n; mret (x :: l) end.

(** the exit status; each turn of the menu takes a character or more of what is typed *)
Definition main : cmd state Z :=
  subject_count ← scan_d;
  if subject_count <? 3 then print [Message "Minimum 3 subjects required."];; mret 1 else
  subject_names ← read_names (Z.to_nat subject_count);
  s ← get;
  menu (S (strlen (input s))) subject_count subject_names;;
  print [Message "Program terminated."];;
  mret 0.
End files.

(** ** Specification *)

(** a student and a choice, as they are meant *)
Record typed := mkTyped { t_name : string; t_roll : Z; t_marks : list Z }.
Inductive choice := Add (t : typed) | Display | Export | Stats | Other (z : Z).

(** what is typed, each on a line of its own, with [rest] behind *)
Inductive token := Num (z : Z) | Line (s : string).

Definition shown (t : token) : string := match t with Num z => pretty z | Line l => l end.

Definition typed_text (ts : list token) (rest : string) : string := foldr (fun t r => nl +:+ shown t +:+ r) rest ts.

Definition tokens (c : choice) : list token :=
  match c with
  | Add t => [Num 1; Line (t_name t); Num (t_roll t)] ++ (Num <$> t_marks t)
  | Display => [Num 2]
  | Export => [Num 3]
  | Stats => [Num 4]
  | Other z => [Num z]
  end.

Definition sum : list Z -> Z := foldr Z.add 0.

Section spec.
Context (fopen_ok : Z -> bool) (names : list string).
#[local] Abbreviation n := (Z.of_nat (length names)).

(** the record of a student: the total is the sum of the marks *)
Definition record (t : typed) : Student :=
  mkStudent (t_name t) (t_roll t) (zip_with mkSubject names (t_marks t)) (f_of_int (sum (t_marks t)))
    (fdiv (f_of_int (sum (t_marks t))) (f_of_int n)).

(** who has 35 marks in each subject *)
Definition passes (t : typed) : Prop := Forall (fun m => PASS_MARKS <= m) (t_marks t).
#[local] Instance passes_dec t : Decision (passes t).
Proof. unfold passes. apply _. Defined.

Definition statistics (ts : list typed) : list line :=
  let count := Z.of_nat (length ts) in
  let good := Z.of_nat (length (filter passes ts)) in
  [ClassPercentage (fmul (fdiv (f_of_int (sum ((fun t => sum (t_marks t)) <$> ts))) (f_of_int (count * n * 100))) (f_of_int 100));
   PassPercentage (fmul (fdiv (f_of_int good) (f_of_int count)) (f_of_int 100)) good count].

(** what a session prints for the students so far, and what it exports; the last export of a number stays *)
Definition exported (ts : list typed) : list line :=
  (fun t => if fopen_ok (t_roll t) then Exported (t_roll t) else Message "Error writing to file!") <$> ts.

Definition export_all (ts : list typed) (m : gmap Z (list line)) : gmap Z (list line) :=
  foldl (fun m t => if fopen_ok (t_roll t) then <[t_roll t := report (record t)]> m else m) m ts.

Fixpoint session (ts : list typed) (cs : list choice) (m : gmap Z (list line)) : list line * list typed * gmap Z (list line) :=
  match cs with
  | [] => ([], ts, m)
  | c :: cs =>
      let ts' := match c with Add t => ts ++ [t] | _ => ts end in
      let m' := match c with Export => export_all ts m | _ => m end in
      let now := match c, ts with
                 | Add _, _ => []
                 | Display, [] => [Message "No students added yet."]
                 | Display, _ => ts ≫= (fun t => report (record t))
                 | Export, [] => [Message "No students to export."]
                 | Export, _ => exported ts
                 | Stats, [] => [Message "No student data available for statistics."]
                 | Stats, _ => statistics ts
                 | Other _, _ => [Message "Invalid choice."]
                 end in
      let '(o, ts'', m'') := session ts' cs m' in (now ++ o, ts'', m'')
  end.

(** marks whose sums a float holds exactly *)
Definition good_marks (l : list Z) : Prop := sum (Z.abs <$> l) < 2 ^ 24.

(** a name that is read as it is typed: not empty, no white space in front, one line, and short enough *)
Definition good_name (l : string) : Prop :=
  l <> "" /\ head_is is_space l = false /\ str_all (fun a => negb (is_newline a)) l = true /\ (strlen l < MAX_NAME_LEN)%nat.

Definition good_student (t : typed) : Prop :=
  good_name (t_name t) /\ in_int (t_roll t) /\ length (t_marks t) = length names.

Definition good_choice (c : choice) : Prop :=
  match c with Add t => good_student t | Other z => in_int z /\ z <> 1 /\ z <> 2 /\ z <> 3 /\ z <> 4 /\ z <> 5 | _ => True end.

Definition added (cs : list choice) : list typed := omap (fun c => match c with Add t => Some t | _ => None end) cs.

(** all the marks of students *)
Definition all_marks (ts : list typed) : list Z := ts ≫= t_marks.
End spec.

(** ** Lemmas: sums *)

Lemma sum_app l1 l2 : sum (l1 ++ l2) = sum l1 + sum l2.
Proof. unfold sum. induction l1 as [|x l1 IH]; [done|]. cbn [app foldr]. rewrite IH. lia. Qed.

Lemma sum_abs l : 0 <= sum (Z.abs <$> l) /\ Z.abs (sum l) <= sum (Z.abs <$> l).
Proof. unfold sum. induction l as [|x l IH]; [done|]. cbn [fmap list_fmap foldr]. fold (fmap Z.abs l). lia. Qed.

Lemma abs_app l1 l2 : sum (Z.abs <$> (l1 ++ l2)) = sum (Z.abs <$> l1) + sum (Z.abs <$> l2).
Proof. by rewrite fmap_app, sum_app. Qed.

Lemma sum_all_marks ts : sum (all_marks ts) = sum ((fun t => sum (t_marks t)) <$> ts).
Proof. unfold all_marks. induction ts as [|t ts IH]; [done|]. cbn [mbind list_bind fmap list_fmap]. by rewrite sum_app, IH. Qed.

(** ** Lemmas: the parts of the program *)

Lemma typed_text_app ts us r : typed_text (ts ++ us) r = typed_text ts (typed_text us r).
Proof. apply foldr_app. Qed.

Lemma typed_text_cons t ts r : typed_text (t :: ts) r = nl +:+ shown t +:+ typed_text ts r.
Proof. done. Qed.

Lemma typed_text_no_digit ts r : head_is is_digit r = false -> head_is is_digit (typed_text ts r) = false.
Proof. by destruct ts. Qed.

Lemma typed_text_nl ts r : exists r', typed_text ts (nl +:+ r) = nl +:+ r'.
Proof. destruct ts as [|t ts]; [by eexists|]. rewrite typed_text_cons. by eexists. Qed.

Lemma typed_text_length ts r : (length ts + strlen r <= strlen (typed_text ts r))%nat.
Proof. induction ts as [|t ts IH]; [done|]. rewrite typed_text_cons, !strlen_app. change (strlen nl) with 1%nat. cbn [length]. lia. Qed.

Lemma scan_d_ok z r s : in_int z -> head_is is_digit r = false -> input s = nl +:+ pretty z +:+ r -> scan_d s = Done (z, set_input r s).
Proof.
  intros Hz Hr Hi. unfold scan_d, get, lift, mbind, cmd_bind. rewrite Hi. change (scan_int (nl +:+ ?x)) with (scan_int x).
  by rewrite scan_int_pretty.
Qed.

Lemma scan_name_ok l r s : good_name l -> input s = nl +:+ l +:+ nl +:+ r -> scan_name s = Done (l, set_input (nl +:+ r) s).
Proof.
  intros (Hne & Hh & Hl & Hlen) Hi. unfold scan_name, get, mbind, cmd_bind. rewrite Hi. change (skip_ws (nl +:+ ?x)) with (skip_ws x).
  rewrite skip_ws_id by by destruct l. unfold scan_line. rewrite span_app by (done || (rewrite strlen_app; lia) || by left).
  destruct l as [|a l]; [done|]. by rewrite (proj2 (Nat.ltb_lt _ _)).
Qed.

Lemma read_names_ok l r s : Forall good_name l -> input s = typed_text (Line <$> l) (nl +:+ r) ->
  read_names (length l) s = Done (l, set_input (nl +:+ r) s).
Proof.
  intros Hl. revert s. induction Hl as [|x l Hx _ IH]; intros s Hi; cbn [length read_names].
  { destruct s. cbn in Hi. by subst. }
  cbn [fmap list_fmap] in Hi. rewrite typed_text_cons in Hi. destruct (typed_text_nl (Line <$> l) r) as [r' Hr].
  change (list_fmap _ _ Line l) with (Line <$> l) in Hi. rewrite Hr in Hi.
  rewrite (cmd_bind_eq _ _ _ _ _ (scan_name_ok x r' s Hx Hi)). by rewrite (cmd_bind_eq _ _ _ _ _ (IH (set_input _ s) (eq_sym Hr))).
Qed.

Lemma read_marks_ok names ms acc r s : length ms = length names -> Z.abs acc + sum (Z.abs <$> ms) < 2 ^ 24 ->
  head_is is_digit r = false -> input s = typed_text (Num <$> ms) r ->
  read_marks names (f_of_int acc) s = Done ((zip_with mkSubject names ms, f_of_int (acc + sum ms)), set_input r s).
Proof.
  intros Hl Ha Hr. revert ms acc s Hl Ha. induction names as [|x names IH]; intros [|m ms] acc s Hl Ha Hi; try done; cbn [read_marks].
  { destruct s. cbn in Hi. subst. cbn. by rewrite Z.add_0_r. }
  cbn [fmap list_fmap sum foldr] in Ha. fold (fmap Z.abs ms) in Ha. fold (sum (Z.abs <$> ms)) in Ha. pose proof (sum_abs ms) as [Hs _].
  rewrite (cmd_bind_eq _ _ _ _ _ (scan_d_ok m (typed_text (Num <$> ms) r) s ltac:(unfold in_int, int_min, int_max; lia) (typed_text_no_digit _ _ Hr) Hi)).
  rewrite fadd_int by lia. erewrite cmd_bind_eq by (apply (IH ms); [by injection Hl|lia|done]).
  cbn [zip_with sum foldr fst snd]. by rewrite Z.add_assoc.
Qed.

Lemma add_student_ok names t r s : good_student names t -> sum (Z.abs <$> t_marks t) < 2 ^ 24 -> (length (students s) < MAX_STUDENTS)%nat ->
  head_is is_digit r = false -> input s = typed_text (Line (t_name t) :: Num (t_roll t) :: (Num <$> t_marks t)) r ->
  add_student (Z.of_nat (length names)) names s = Done (tt, mkState r (students s ++ [record names t]) (out s) (exports s)).
Proof.
  intros (Hn & Hr & Hl) Hm Hc Hd Hi. unfold add_student. erewrite cmd_bind_eq by reflexivity. rewrite (proj2 (Nat.leb_gt _ _)) by done.
  rewrite (cmd_bind_eq _ _ _ _ _ (scan_name_ok (t_name t) (pretty (t_roll t) +:+ typed_text (Num <$> t_marks t) r) s Hn Hi)).
  rewrite (cmd_bind_eq _ _ _ _ _ (scan_d_ok _ _ (set_input _ s) Hr (typed_text_no_digit (Num <$> t_marks t) r Hd) eq_refl)).
  erewrite cmd_bind_eq by (apply (read_marks_ok names (t_marks t)); [done|simpl; lia|exact Hd|reflexivity]). cbn [fst snd].
  unfold modify. by rewrite Z.add_0_l.
Qed.

Definition add_out (l : list line) (s : state) : state := mkState (input s) (students s) (out s ++ l) (exports s).

Lemma display_ok l s : for_each display_student l s = Done (tt, add_out (l ≫= report) s).
Proof.
  revert s. induction l as [|x l IH]; intros s; cbn [for_each]; [destruct s; unfold add_out; cbn; by rewrite app_nil_r|].
  erewrite cmd_bind_eq by reflexivity. rewrite IH. unfold add_out. cbn [input students out exports]. by rewrite <- app_assoc.
Qed.

Lemma export_one fopen_ok x s : export_student fopen_ok x s =
  Done (tt, mkState (input s) (students s) (out s ++ [if fopen_ok (roll_no x) then Exported (roll_no x) else Message "Error writing to file!"])
    (if fopen_ok (roll_no x) then <[roll_no x := report x]> (exports s) else exports s)).
Proof. unfold export_student. by destruct (fopen_ok (roll_no x)). Qed.

Lemma export_ok fopen_ok names ts s : for_each (export_student fopen_ok) (record names <$> ts) s =
  Done (tt, mkState (input s) (students s) (out s ++ exported fopen_ok ts) (export_all fopen_ok names ts (exports s))).
Proof.
  revert s. induction ts as [|t ts IH]; intros s; cbn [for_each fmap list_fmap]; [destruct s; cbn; by rewrite app_nil_r|].
  rewrite (cmd_bind_eq _ _ _ _ _ (export_one fopen_ok (record names t) s)). fold (fmap (record names) ts). rewrite IH.
  cbn [input students out exports]. by rewrite <- app_assoc.
Qed.

Lemma passed_ok names ms : length ms = length names -> passed (zip_with mkSubject names ms) = bool_decide (Forall (fun m => PASS_MARKS <= m) ms).
Proof.
  revert names. induction ms as [|m ms IH]; intros [|x names] Hl; try done. cbn [zip_with passed marks].
  destruct (Z.ltb_spec m PASS_MARKS) as [Hlt|Hge].
  - symmetry. apply bool_decide_eq_false. intros H%Forall_cons. lia.
  - rewrite IH by (by injection Hl). apply bool_decide_ext. rewrite Forall_cons. tauto.
Qed.

Lemma class_loop_ok names ts acc k : Forall (fun t => length (t_marks t) = length names) ts ->
  Z.abs acc + sum (Z.abs <$> all_marks ts) < 2 ^ 24 ->
  class_loop (record names <$> ts) (f_of_int acc) k = (f_of_int (acc + sum (all_marks ts)), k + Z.of_nat (length (filter passes ts))).
Proof.
  intros Hl. revert acc k. induction Hl as [|t ts Ht _ IH]; intros acc k Ha; cbn [class_loop fmap list_fmap].
  { cbn. by rewrite !Z.add_0_r. }
  unfold all_marks in *. cbn [mbind list_bind] in *. rewrite abs_app in Ha. rewrite sum_app. fold (all_marks ts) in *.
  pose proof (sum_abs (t_marks t)) as [H1 H2]. pose proof (sum_abs (all_marks ts)) as [H3 H4].
  cbn [record total subjects]. rewrite fadd_int by lia. fold (fmap (record names) ts). rewrite IH by lia. rewrite passed_ok by done.
  f_equal; [by rewrite Z.add_assoc|]. destruct (decide (passes t)) as [Hp|Hp].
  - rewrite bool_decide_true by done. rewrite filter_cons_True by done. cbn [length]. lia.
  - rewrite bool_decide_false by done. by rewrite filter_cons_False.
Qed.

(** ** Lemmas: the session *)

Definition typed_in (cs : list choice) : list token := cs ≫= tokens.

Lemma length_typed_in cs : (length cs <= length (typed_in cs))%nat.
Proof. unfold typed_in. induction cs as [|c cs IH]; [done|]. cbn [mbind list_bind]. rewrite length_app. destruct c; simpl in *; lia. Qed.

Section sessions.
Context (fopen_ok : Z -> bool) (names : list string) (Hmany : Z.of_nat (length names) <= 200000).
#[local] Abbreviation n := (Z.of_nat (length names)).

(** what the students so far must be like *)
Definition good_table (ts : list typed) : Prop :=
  Forall (good_student names) ts /\ (length ts <= MAX_STUDENTS)%nat /\ sum (Z.abs <$> all_marks ts) < 2 ^ 24.

Definition table (i : string) (ts : list typed) (o : list line) (m : gmap Z (list line)) : state := mkState i (record names <$> ts) o m.

Lemma stats_ok ts i o m : good_table ts -> class_stats (record names <$> ts) (Z.of_nat (length ts)) n (table i ts o m) =
  Done (tt, table i ts (o ++ statistics names ts) m).
Proof using Hmany.
  intros (Hg & Hc & Hm). unfold class_stats, MAX_STUDENTS in *.
  erewrite cmd_bind_eq by (unfold lift; rewrite int_chk_ok by (unfold int_min, int_max; nia); reflexivity).
  erewrite cmd_bind_eq by (unfold lift; rewrite int_chk_ok by (unfold int_min, int_max; nia); reflexivity).
  rewrite class_loop_ok; [|by eapply Forall_impl; [exact Hg|intros t (_ & _ & Ht)]|simpl; lia].
  unfold statistics. by rewrite !Z.add_0_l, sum_all_marks.
Qed.

(** one turn of the menu, but for the last *)
Lemma choose_ok c ts i o m : head_is is_digit i = false -> good_choice names c -> good_table (match c with Add t => ts ++ [t] | _ => ts end) ->
  exists k rest now, tokens c = Num k :: rest /\ in_int k /\ k <> 5 /\
    (forall cs, (session fopen_ok names ts (c :: cs) m) =
       let '(o', ts', m') := session fopen_ok names (match c with Add t => ts ++ [t] | _ => ts end) cs (match c with Export => export_all fopen_ok names ts m | _ => m end) in
       (now ++ o', ts', m')) /\
    choose fopen_ok k n names (table (typed_text rest i) ts o m) =
      Done (tt, table i (match c with Add t => ts ++ [t] | _ => ts end) (o ++ now) (match c with Export => export_all fopen_ok names ts m | _ => m end)).
Proof using Hmany.
  intros Hd Hc Hg. destruct c as [t| | | |z]; cbn [tokens app].
  - exists 1, (Line (t_name t) :: Num (t_roll t) :: (Num <$> t_marks t)), []. split_and!; try done.
    unfold choose. erewrite cmd_bind_eq by reflexivity. cbn [Z.eqb Pos.eqb]. destruct Hg as (Hg & Hlen & Hm).
    unfold all_marks in Hm. rewrite bind_app, abs_app in Hm. cbn [mbind list_bind] in Hm. rewrite app_nil_r in Hm. pose proof (sum_abs (ts ≫= t_marks)) as [Hs _].
    rewrite length_app in Hlen. simpl in Hlen.
    rewrite (add_student_ok names t i); [|done|lia|cbn; rewrite length_fmap; unfold MAX_STUDENTS in *; lia|done|done].
    unfold table. cbn [out students exports]. by rewrite app_nil_r, fmap_app.
  - exists 2, [], (match ts with [] => [Message "No students added yet."] | _ => ts ≫= (fun t => report (record names t)) end).
    split_and!; try done. unfold choose. erewrite cmd_bind_eq by reflexivity. cbn [Z.eqb Pos.eqb table students].
    destruct ts as [|t ts]; [done|]. etransitivity; [exact (display_ok (record names <$> (t :: ts)) (table i (t :: ts) o m))|].
    unfold add_out, table. cbn [input students out exports]. do 4 f_equal. exact (list_fmap_bind (record names) report (t :: ts)).
  - exists 3, [], (match ts with [] => [Message "No students to export."] | _ => exported fopen_ok ts end).
    split_and!; try done. unfold choose. erewrite cmd_bind_eq by reflexivity. cbn [Z.eqb Pos.eqb table students].
    destruct ts as [|t ts]; [done|]. exact (export_ok fopen_ok names (t :: ts) (table i (t :: ts) o m)).
  - exists 4, [], (match ts with [] => [Message "No student data available for statistics."] | _ => statistics names ts end).
    split_and!; try done. unfold choose. erewrite cmd_bind_eq by reflexivity. cbn [Z.eqb Pos.eqb table students].
    destruct ts as [|t ts]; [done|].
    etransitivity; [|by apply (stats_ok (t :: ts) i o m)]. unfold table. cbn [students]. by rewrite length_fmap.
  - destruct Hc as (Hz & H1 & H2 & H3 & H4 & H5). exists z, [], [Message "Invalid choice."]. split_and!; try done.
    unfold choose. erewrite cmd_bind_eq by reflexivity. rewrite !(proj2 (Z.eqb_neq _ _)) by done. done.
Qed.

Lemma good_table_prefix ts us : good_table (ts ++ us) -> good_table ts.
Proof using Type.
  intros (Hg & Hl & Hm). apply Forall_app in Hg as [Hg _]. rewrite length_app in Hl. unfold all_marks in Hm. rewrite bind_app, abs_app in Hm.
  pose proof (sum_abs (us ≫= t_marks)) as [Hs _]. split_and!; [done|lia|unfold all_marks; lia].
Qed.

(** the turns of the menu for some choices *)
Lemma menu_ok cs ts o m fuel i : head_is is_digit i = false -> Forall (good_choice names) cs -> good_table (ts ++ added cs) ->
  menu fopen_ok (length cs + fuel) n names (table (typed_text (typed_in cs) i) ts o m) =
    let '(o', ts', m') := session fopen_ok names ts cs m in menu fopen_ok fuel n names (table i ts' (o ++ o') m').
Proof using Hmany.
  intros Hi Hc. revert ts o m. induction Hc as [|c cs Hc _ IH]; intros ts o m Hg; [cbn; by rewrite app_nil_r|].
  assert (good_table ((match c with Add t => ts ++ [t] | _ => ts end) ++ added cs)) as Hg'.
  { destruct c; try exact Hg. by rewrite <- app_assoc. }
  pose proof (typed_text_no_digit (typed_in cs) i Hi) as Hi'.
  destruct (choose_ok c ts (typed_text (typed_in cs) i) o m Hi' Hc (good_table_prefix _ _ Hg')) as (k & rest & now & Ht & Hk & H5 & Hs & Hch).
  change (typed_in (c :: cs)) with (tokens c ++ typed_in cs). rewrite typed_text_app, Ht, typed_text_cons.
  cbn [length Nat.add menu shown].
  rewrite (cmd_bind_eq _ _ _ _ _ (scan_d_ok k (typed_text rest (typed_text (typed_in cs) i)) (table _ ts o m) Hk (typed_text_no_digit _ _ Hi') eq_refl)).
  rewrite (cmd_bind_eq _ _ _ _ _ Hch). rewrite (proj2 (Z.eqb_neq k 5)) by done. rewrite IH by done. rewrite Hs.
  destruct (session _ _ _ cs _) as [[o' ts'] m']. by rewrite <- app_assoc.
Qed.

Lemma session_students ts cs m : (session fopen_ok names ts cs m).1.2 = ts ++ added cs.
Proof using Type.
  revert ts m. induction cs as [|c cs IH]; intros ts m; [by rewrite app_nil_r|]. cbn [session].
  specialize (IH (match c with Add t => ts ++ [t] | _ => ts end) (match c with Export => export_all fopen_ok names ts m | _ => m end)).
  destruct (session _ _ _ cs _) as [[o' ts'] m']. cbn [fst snd] in *. rewrite IH. destruct c; try done. by rewrite <- app_assoc.
Qed.

(** the number of subjects, their names, and the choices, each on its line, then [rest] *)
Definition session_input (cs : list choice) (rest : string) : string :=
  pretty n +:+ typed_text ((Line <$> names) ++ typed_in cs) rest.

Definition first_state (i : string) : state := mkState i [] [] ∅.

(** the program up to the menu, and through the choices *)
Lemma main_ok cs rest : (3 <= length names)%nat -> Forall good_name names ->
  Forall (good_choice names) cs -> good_table (added cs) ->
  exists fuel, (strlen rest < fuel)%nat /\ main fopen_ok (first_state (session_input cs (nl +:+ rest))) =
    let '(o, ts, m) := session fopen_ok names [] cs ∅ in
    (menu fopen_ok fuel n names;; print [Message "Program terminated."];; mret 0) (table (nl +:+ rest) ts o m).
Proof using Hmany.
  intros H3 Hn Hc Hg. set (text := typed_text (typed_in cs) (nl +:+ rest)). exists (S (strlen text) - length cs)%nat.
  pose proof (length_typed_in cs) as Hl. pose proof (typed_text_length (typed_in cs) (nl +:+ rest)) as Ht. fold text in Ht.
  rewrite strlen_app in Ht. change (strlen nl) with 1%nat in Ht. split; [lia|]. unfold main.
  assert (scan_d (first_state (session_input cs (nl +:+ rest))) = Done (n, first_state (typed_text (Line <$> names) text))) as Hs.
  { unfold scan_d, session_input, get, lift, mbind, cmd_bind. cbn [input first_state]. rewrite typed_text_app, scan_int_pretty; [done| |].
    - unfold in_int, int_min, int_max. lia.
    - by do 2 apply typed_text_no_digit. }
  rewrite (cmd_bind_eq _ _ _ _ _ Hs). rewrite (proj2 (Z.ltb_ge n 3)) by lia. rewrite Nat2Z.id.
  destruct (typed_text_nl (typed_in cs) rest) as [r Hr]. fold text in Hr.
  assert (read_names (length names) (first_state (typed_text (Line <$> names) text)) = Done (names, first_state text)) as Hnames.
  { rewrite Hr. by apply read_names_ok. }
  rewrite (cmd_bind_eq _ _ _ _ _ Hnames). erewrite cmd_bind_eq by reflexivity. cbn [input first_state].
  pose proof (menu_ok cs [] [] ∅ (S (strlen text) - length cs) (nl +:+ rest) eq_refl Hc Hg) as Hm. fold text in Hm.
  replace (length cs + (S (strlen text) - length cs))%nat with (S (strlen text)) in Hm by lia.
  destruct (session fopen_ok names [] cs ∅) as [[o ts] m]. unfold mbind at 1 3, cmd_bind at 1 3.
  change (first_state text) with (table text [] [] ∅). by rewrite Hm.
Qed.
End sessions.

(** ** Properties *)

(** C37: Typed are the number of subjects, at least three and at most 200000, their names, choices
    of the menu with what they ask for, and then 5, each on a line; every name of a subject or a
    student is one line of 1 to 99 characters, none of them NUL, that does not begin with white space; a student has
    a mark for each subject; roll numbers and choices are ints; there are at most 100 students, and
    the absolute values of all marks add up to less than 2^24.  Then the program ends with status 0
    and prints and exports what its menu promises: the names and marks as typed, with the exact
    total and the average rounded once, the last report of each number that could be opened, and
    statistics that count a student as passed when no mark is below 35. *)
Theorem students_main_correct fopen_ok names cs rest : (3 <= length names)%nat -> Z.of_nat (length names) <= 200000 ->
  Forall good_name names -> Forall (good_choice names) cs -> good_table names (added cs) -> head_is is_digit rest = false ->
  main fopen_ok (first_state (session_input names cs (nl +:+ pretty 5 +:+ rest))) =
    let '(o, ts, m) := session fopen_ok names [] cs ∅ in
    Done (0, table names rest ts (o ++ [Message "Program terminated."]) m).
Proof.
  intros H3 Hmany Hn Hc Hg Hr. destruct (main_ok fopen_ok names Hmany cs (pretty 5 +:+ rest) H3 Hn Hc Hg) as (fuel & Hf & ->).
  destruct (session fopen_ok names [] cs ∅) as [[o ts] m]. destruct fuel as [|fuel]; [lia|]. cbn [menu].
  assert (scan_d (table names (nl +:+ pretty 5 +:+ rest) ts o m) = Done (5, table names rest ts o m)) as H5.
  { by apply (scan_d_ok 5 rest (table names (nl +:+ pretty 5 +:+ rest) ts o m)). }
  unfold mbind at 1, cmd_bind at 1. rewrite (cmd_bind_eq _ _ _ _ _ H5). reflexivity.
Qed.

(** The 101st student is written behind the table. *)
Theorem student_overflow fopen_ok names cs rest : (3 <= length names)%nat -> Z.of_nat (length names) <= 200000 ->
  Forall good_name names -> Forall (good_choice names) cs -> good_table names (added cs) -> head_is is_digit rest = false ->
  length (added cs) = MAX_STUDENTS ->
  main fopen_ok (first_state (session_input names cs (nl +:+ pretty 1 +:+ rest))) = Undef.
Proof.
  intros H3 Hmany Hn Hc Hg Hr Hfull. destruct (main_ok fopen_ok names Hmany cs (pretty 1 +:+ rest) H3 Hn Hc Hg) as (fuel & Hf & ->).
  pose proof (session_students fopen_ok names [] cs ∅) as Hs. destruct (session fopen_ok names [] cs ∅) as [[o ts] m]. cbn [fst snd app] in Hs. subst ts.
  destruct fuel as [|fuel]; [lia|]. cbn [menu]. unfold mbind at 1, cmd_bind at 1.
  assert (scan_d (table names (nl +:+ pretty 1 +:+ rest) (added cs) o m) = Done (1, table names rest (added cs) o m)) as H1.
  { by apply (scan_d_ok 1 rest (table names (nl +:+ pretty 1 +:+ rest) (added cs) o m)). }
  rewrite (cmd_bind_eq _ _ _ _ _ H1).
  assert (choose fopen_ok 1 (Z.of_nat (length names)) names (table names rest (added cs) o m) = Undef) as Hu.
  { unfold choose. erewrite cmd_bind_eq by reflexivity. cbn [Z.eqb Pos.eqb]. unfold add_student. erewrite cmd_bind_eq by reflexivity.
    cbn [students table]. by rewrite length_fmap, Hfull. }
  unfold mbind at 1, cmd_bind at 1. by rewrite Hu.
Qed.

(** An empty line before a name is skipped; a name of 100 characters is written behind its buffer. *)
Lemma empty_line_skipped : scan_name (first_state (nl +:+ nl +:+ "  Ann" +:+ nl)) = Done ("Ann", first_state nl).
Proof. by vm_compute. Qed.

Lemma long_name_overflows : scan_name (first_state (String.concat "" (replicate 100 "x"))) = Undef.
Proof. by vm_compute. Qed.

(** ** Witnesses *)

Definition three : list string := ["Maths"; "Physics"; "Art"].
Definition ann : typed := mkTyped "Ann" 7 [90; 35; 70].
Definition bob : typed := mkTyped "Bob" 8 [20; 99; 34].

Lemma students_main_correct_witness : exists o m,
  main (fun _ => true) (first_state (session_input three [Other 9; Add ann; Add bob; Stats; Export] (nl +:+ pretty 5 +:+ nl))) = Done (0, table three nl [ann; bob] o m) /\
  Forall (fun l => match l with PassPercentage _ passed _ => passed = 1 | _ => True end) o.
Proof.
  eexists _, _. split; [eapply (students_main_correct (fun _ => true) three [Other 9; Add ann; Add bob; Stats; Export] nl)|].
  - by simpl.
  - by simpl.
  - repeat constructor; simpl; unfold MAX_NAME_LEN; (done || lia).
  - repeat constructor; simpl; unfold MAX_NAME_LEN, int_min, int_max; (done || lia).
  - split_and!; [repeat constructor; simpl; unfold MAX_NAME_LEN, int_min, int_max; (done || lia)|simpl; unfold MAX_STUDENTS; lia|done].
  - done.
  - vm_compute. repeat constructor.
Defined.

Lemma student_overflow_witness : main (fun _ => true) (first_state (session_input three (replicate 100 (Add ann)) (nl +:+ pretty 1 +:+ nl))) = Undef.
Proof.
  apply (student_overflow (fun _ => true) three (replicate 100 (Add ann)) nl).
  - by simpl.
  - by simpl.
  - repeat constructor; simpl; unfold MAX_NAME_LEN; (done || lia).
  - apply Forall_replicate. repeat constructor; simpl; unfold MAX_NAME_LEN, int_min, int_max; (done || lia).
  - split_and!; [|by vm_compute|by vm_compute]. change (added (replicate 100 (Add ann))) with (replicate 100 ann). apply Forall_replicate.
    repeat constructor; simpl; unfold MAX_NAME_LEN, int_min, int_max; (done || lia).
  - done.
  - reflexivity.
Defined.
