(* ===== verification/MarkSheet.v ===== *)
(** * The mark sheets

    Students_Marksheet.c: the menu over what is typed, the table of students, the reports in
    studentsReport.csv and in one file per student.  Floats are single precision; what is
    typed is a string that the conversions of [scanf] read.  Allocations succeed.  What C leaves
    open is an argument: how many students fit the table, whose size is computed from a
    variable that was never set, whether each [fopen] succeeds, whether a string literal can
    be written to, and the text of a NaN. *)
From S2P Require Import Prelude CString Float32 Numbers Strtok.

Definition MAX_NAME_LEN : nat := 100.
Definition MAX_LINE_LEN : nat := 200.
Definition MAX_SUBJECTS : nat := 20.

(** ** The state *)

Record Subject := mkSubject { sub_name : string; marks : Z }.

(** a name or a number that was not read is indeterminate *)
Record Student := mkStudent { Name : option string; RollNO : option Z; subjects : list Subject; Total : float; Average : float }.

(** [next_roll]: what the roll number of the first free place holds *)
Record state := mkState {
  input : string; studentList : list Student; next_roll : option Z;
  SubjectCount : option Z; subjectNames : option (list string); MaxStudents : option Z; choice : option Z;
  files : gmap string string; opened : nat; out : list string }.

Definition set_input i s := mkState i (studentList s) (next_roll s) (SubjectCount s) (subjectNames s) (MaxStudents s) (choice s) (files s) (opened s) (out s).
Definition set_students l s := mkState (input s) l None (SubjectCount s) (subjectNames s) (MaxStudents s) (choice s) (files s) (opened s) (out s).
Definition set_roll r s := mkState (input s) (studentList s) r (SubjectCount s) (subjectNames s) (MaxStudents s) (choice s) (files s) (opened s) (out s).
Definition set_count k s := mkState (input s) (studentList s) (next_roll s) k (subjectNames s) (MaxStudents s) (choice s) (files s) (opened s) (out s).
Definition set_names n s := mkState (input s) (studentList s) (next_roll s) (SubjectCount s) n (MaxStudents s) (choice s) (files s) (opened s) (out s).
Definition set_max m s := mkState (input s) (studentList s) (next_roll s) (SubjectCount s) (subjectNames s) m (choice s) (files s) (opened s) (out s).
Definition set_choice c s := mkState (input s) (studentList s) (next_roll s) (SubjectCount s) (subjectNames s) (MaxStudents s) c (files s) (opened s) (out s).
Definition set_files f s := mkState (input s) (studentList s) (next_roll s) (SubjectCount s) (subjectNames s) (MaxStudents s) (choice s) f (S (opened s)) (out s).
Definition add_out l s := mkState (input s) (studentList s) (next_roll s) (SubjectCount s) (subjectNames s) (MaxStudents s) (choice s) (files s) (opened s) (out s ++ l).

Definition print (l : string) : cmd state unit := modify (add_out [l]).

(** [scanf("%d", &x)]: [None] when it fails, and then [x] keeps its value *)
Definition scan_d : cmd state (option Z) :=
  s ← get; p ← lift (scan_int (input s)); modify (set_input p.2);; mret p.1.

(** [scanf("%s")] into [MAX_NAME_LEN] bytes; [None] at the end of the input *)
Definition scan_word : cmd state (option string) :=
  s ← get;
  match scan_s (strlen (input s)) (input s) with
  | None => modify (set_input "");; mret None
  | Some (w, r) => if (strlen w <? MAX_NAME_LEN)%nat then modify (set_input r);; mret (Some w) else undef
  end.

Definition getchar : cmd state unit := modify (fun s => set_input (match input s with String _ r => r | EmptyString => "" end) s).

Definition known {A} (o : option A) : cmd state A := lift (of_option o).

Definition report_csv : string := "studentsReport.csv".

Definition is_comma : ascii -> bool := is_char 44.

(** ** DisplayAll *)

(** a call of [strtok] on what the last one left *)
Definition next_token (s : string) : option string * string :=
  match strtok is_comma s with Some (t, r) => (Some t, r) | None => (None, "") end.

(** the subjects of the header line, from the third token on *)
Fixpoint header_loop (fuel count : nat) (p : option string * string) : outcome (list string) :=
  match fuel with
  | O => OutOfFuel
  | S fuel =>
      match p.1 with
      | None => Done []
      | Some token =>
          if streq token "Total" then Done []
          else if (count <? MAX_SUBJECTS)%nat
          then l ← header_loop fuel (S count) (next_token p.2); Done (token :: l)
          else Undef
      end
  end.

Definition header_subjects (line : string) : outcome (list string) :=
  let line := cut is_newline line in
  let p := next_token line in let p := next_token p.2 in let p := next_token p.2 in
  header_loop (S (strlen line)) 0 p.

(** the loop over the marks of a row, with the total so far *)
Fixpoint row_marks (names : list string) (rest : string) (total : float) : outcome (list Subject * float * string) :=
  match names with
  | [] => Done ([], total, rest)
  | n :: names =>
      let '(token, rest) := next_token rest in
      t ← of_option token;
      m ← atoi t;
      '(l, total, rest) ← row_marks names rest (fadd total (f_of_int m));
      Done (mkSubject n m :: l, total, rest)
  end.

Section program.
Context (room : nat) (fopen_ok : nat -> bool) (writable : bool) (nan_text : string).

Abbreviation show x := (show_f nan_text x).

(** what is printed for a student *)
Definition report (index : Z) (name : string) (roll : Z) (l : list Subject) (total average : float) : list string :=
  [nl +:+ "Student " +:+ pretty index +:+ nl; "Name: " +:+ name +:+ nl; "Roll Number: " +:+ pretty roll +:+ nl] ++
  ((fun x => sub_name x +:+ ": " +:+ pretty (marks x) +:+ nl) <$> l) ++
  ["Total: " +:+ show total +:+ nl; "Average: " +:+ show average +:+ nl].

Definition display_row (names : list string) (index : Z) (line : string) : outcome (list string) :=
  let '(token, rest) := next_token (cut is_newline line) in
  name ← of_option token;
  if (strlen name <? MAX_NAME_LEN)%nat then
    let '(token, rest) := next_token rest in
    t ← of_option token;
    roll ← atoi t;
    '(l, total, rest) ← row_marks names rest (f_of_int 0);
    let '(_, rest) := next_token rest in
    let '(token, _) := next_token rest in
    t ← of_option token;
    Done (report index name roll l total (d_to_f (atof t)))
  else Undef.

(** the loop over the lines behind the header *)
Fixpoint display_rows (fuel : nat) (names : list string) (index : Z) (content : string) : outcome (list string) :=
  match fuel with
  | O => OutOfFuel
  | S fuel =>
      match content with
      | EmptyString => Done []
      | _ =>
          let p := fgets (MAX_LINE_LEN - 1) content in
          l ← display_row names index p.1;
          rest ← display_rows fuel names (index + 1) p.2;
          Done (l ++ rest)
      end
  end.

(** what is printed for the content of the file *)
Definition display (content : string) : outcome (list string) :=
  match content with
  | EmptyString => Done []
  | _ =>
      let p := fgets (MAX_LINE_LEN - 1) content in
      names ← header_subjects p.1;
      display_rows (S (strlen p.2)) names 1 p.2
  end.

Definition DisplayAll : cmd state Z :=
  s ← get;
  match (if fopen_ok (opened s) then files s !! report_csv else None) with
  | None => modify (set_files (files s));; print ("No students to display." +:+ nl);; mret 0
  | Some content => modify (set_files (files s));; l ← lift (display content); modify (add_out l);; mret 1
  end.

(** ** AddStudent *)

Fixpoint isRollNoDuplicate (list : list Student) (rollNo : option Z) : outcome bool :=
  match list with
  | [] => Done false
  | x :: list =>
      a ← of_option (RollNO x); b ← of_option rollNo;
      if a =? b then Done true else isRollNoDuplicate list rollNo
  end.

(** [fgets] of a subject name and the cut of its newline; nothing is read at the end of the input *)
Definition read_subject_name (i : Z) : cmd state string :=
  print ("Enter Subject " +:+ pretty (i + 1) +:+ " Name: ");;
  s ← get;
  match input s with
  | EmptyString => undef
  | _ => let p := fgets (MAX_NAME_LEN - 1) (input s) in modify (set_input p.2);; mret (cut is_newline p.1)
  end.

Fixpoint read_subject_names (n : nat) (i : Z) : cmd state (list string) :=
  match n with
  | O => mret []
  | S n => x ← read_subject_name i; l ← read_subject_names n (i + 1); mret (x :: l)
  end.

Definition csv_header (names : list string) : string :=
  "NAME,ROLL.NO." +:+ String.concat "" ((fun n => "," +:+ n) <$> names) +:+ ",TOTAL,AVERAGE" +:+ nl.

(** the questions for the first student; whether there is a second part *)
Definition first_student : cmd state bool :=
  print "Enter number of subjects: ";;
  k ← scan_d;
  match k with Some _ => modify (set_count k) | None => mret tt end;;
  s ← get;
  count ← known (SubjectCount s);
  if count <? 3 then print ("Minimum 3 subjects required." +:+ nl);; mret false else
  getchar;;
  names ← read_subject_names (Z.to_nat count) 0;
  modify (set_names (Some names));;
  s ← get;
  if fopen_ok (opened s) then modify (set_files (<[report_csv := csv_header names]> (files s)));; mret true
  else modify (set_files (files s));; print ("Error creating file." +:+ nl);; mret false.

Fixpoint read_marks (names : list string) (total : float) : cmd state (list Subject * float) :=
  match names with
  | [] => mret ([], total)
  | n :: names =>
      print ("Enter mark for " +:+ n +:+ ": ");;
      k ← scan_d;
      m ← known k;
      p ← read_marks names (fadd total (f_of_int m));
      mret (mkSubject n m :: p.1, p.2)
  end.

(** the marks, the new place, and the row of the report, whose [%d] is given a [double] *)
Definition store_student (name : option string) (roll : option Z) : cmd state Z :=
  s ← get;
  names ← known (subjectNames s);
  count ← known (SubjectCount s);
  p ← read_marks names (f_of_int 0);
  let st := mkStudent name roll p.1 p.2 (fdiv p.2 (f_of_int count)) in
  modify (fun s => set_students (studentList s ++ [st]) s);;
  s ← get;
  if fopen_ok (opened s) then undef
  else modify (set_files (files s));; print ("Error opening file for appending." +:+ nl);; mret 0.

Definition AddStudent : cmd state Z :=
  s ← get;
  if (room <=? length (studentList s))%nat then undef else
  print "Enter Student Name: ";;
  name ← scan_word;
  print "Enter Roll Number: ";;
  r ← scan_d;
  match r with Some _ => modify (set_roll r) | None => mret tt end;;
  s ← get;
  let roll := next_roll s in
  duplicate ← lift (isRollNoDuplicate (studentList s) roll);
  if duplicate : bool then print ("⚠️ Roll number already exists. Try again." +:+ nl);; mret 0 else
  go_on ← (match studentList s with [] => first_student | _ => mret true end);
  if negb go_on then mret 0 else store_student name roll.

(** ** ExportFile *)

Definition export_header (names : list string) : string :=
  "Name,Roll No" +:+ String.concat "" ((fun n => "," +:+ n) <$> names) +:+ ",Total,Average" +:+ nl.

Definition export_row (name : string) (roll : Z) (l : list Subject) (total average : float) : string :=
  name +:+ "," +:+ pretty roll +:+ String.concat "" ((fun x => "," +:+ pretty (marks x)) <$> l) +:+
  "," +:+ show total +:+ "," +:+ show average +:+ nl.

(** [sprintf] writes the name of the file into a string literal *)
Definition export_one (names : list string) (x : Student) : cmd state unit :=
  if negb writable then undef else
  roll ← known (RollNO x);
  let filename := pretty roll +:+ ".csv" in
  s ← get;
  if fopen_ok (opened s) then
    name ← known (Name x);
    modify (set_files (<[filename := export_header names +:+ export_row name roll (subjects x) (Total x) (Average x)]> (files s)));;
    print ("Exported data to '" +:+ filename +:+ "'" +:+ nl)
  else modify (set_files (files s));; print ("Error opening file " +:+ filename +:+ " for writing." +:+ nl).

Fixpoint export_loop (names : list string) (l : list Student) : cmd state unit :=
  match l with [] => mret tt | x :: l => export_one names x;; export_loop names l end.

Definition ExportFile : cmd state Z :=
  s ← get;
  match studentList s with
  | [] => mret 1
  | l => names ← known (subjectNames s); export_loop names l;; mret 1
  end.

(** ** ClassStats and FindStudent *)

Definition ClassStats : cmd state Z :=
  s ← get;
  match studentList s with
  | [] => print ("No student data for stats." +:+ nl);; mret 0
  | l =>
      let total_avg := fold_left (fun t x => fadd t (Average x)) l (S754_zero false) in
      print (nl +:+ "Class Average Percentage: " +:+ show (fdiv total_avg (f_of_int (Z.of_nat (length l)))) +:+ nl);; mret 1
  end.

(** the loop up to a subject without a name, which there is none: from the 20 places those that exist *)
Fixpoint print_subjects (fuel : nat) (l : list Subject) : outcome (list string) :=
  match fuel, l with
  | O, _ => Done []
  | S _, [] => Undef
  | S fuel, x :: l => r ← print_subjects fuel l; Done ((sub_name x +:+ ": " +:+ pretty (marks x) +:+ nl) :: r)
  end.

Fixpoint find_loop (l : list Student) (query : string) : cmd state bool :=
  match l with
  | [] => mret false
  | x :: l =>
      name ← known (Name x);
      same ← (if streq name query then mret true else roll ← known (RollNO x); q ← lift (atoi query); mret (roll =? q));
      if same : bool then
        print (nl +:+ "Match Found:" +:+ nl);;
        print ("Name: " +:+ name +:+ nl);;
        roll ← known (RollNO x);
        print ("Roll No: " +:+ pretty roll +:+ nl);;
        lines ← lift (print_subjects MAX_SUBJECTS (subjects x));
        modify (add_out lines);;
        print ("Total: " +:+ show (Total x) +:+ nl);;
        print ("Average: " +:+ show (Average x) +:+ nl);;
        mret true
      else find_loop l query
  end.

Definition FindStudent : cmd state Z :=
  s ← get;
  match studentList s with
  | [] => print ("No student data available." +:+ nl);; mret 0
  | l =>
      print "Enter name or roll number to search: ";;
      w ← scan_word;
      query ← known w;
      found ← find_loop l query;
      (if found : bool then mret tt else print ("No matching student found." +:+ nl));;
      mret 1
  end.

(** ** main *)

Definition menu_text : list string :=
  [nl +:+ "Menu:" +:+ nl; "1. Add Student" +:+ nl +:+ "2. Display All" +:+ nl +:+ "3. Export" +:+ nl +:+ "4. Class Stats" +:+ nl +:+
   "5. Find Student " +:+ nl +:+ "6. Exit" +:+ nl +:+ "Enter Choice: "].

Fixpoint add_loop (n : nat) : cmd state unit :=
  match n with O => mret tt | S n => AddStudent;; add_loop n end.

Definition add_students : cmd state unit :=
  print "Enter the  Number of Students: ";;
  k ← scan_d;
  match k with Some _ => modify (set_max k) | None => mret tt end;;
  s ← get;
  m ← known (MaxStudents s);
  if Z.of_nat (length (studentList s)) >? m
  then print ("Cannot add more than " +:+ pretty m +:+ " students." +:+ nl)
  else add_loop (Z.to_nat m).

(** what is done for one choice *)
Definition choose (c : Z) : cmd state unit :=
  if c =? 1 then add_students
  else if c =? 2 then DisplayAll;; mret tt
  else if c =? 3 then ExportFile;; mret tt
  else if c =? 4 then ClassStats;; mret tt
  else if c =? 5 then FindStudent;; mret tt
  else if c =? 6 then print ("Exiting program." +:+ nl)
  else print ("Invalid choice." +:+ nl).

Fixpoint menu (fuel : nat) : cmd state unit :=
  match fuel with
  | O => fun _ => OutOfFuel
  | S fuel =>
      modify (add_out menu_text);;
      k ← scan_d;
      match k with Some _ => modify (set_choice k) | None => mret tt end;;
      s ← get;
      c ← known (choice s);
      choose c;;
      if c =? 6 then mret tt else menu fuel
  end.

(** the frees at the end: they read [SubjectCount] and [subjectNames] *)
Definition free_all : cmd state Z :=
  s ← get;
  count ← known (SubjectCount s);
  names ← known (subjectNames s);
  if count <=? Z.of_nat (length names) then mret 0 else undef.

Definition main (fuel : nat) : cmd state Z := menu fuel;; free_all.

Definition start (typed : string) (disk : gmap string string) : state :=
  mkState typed [] None None None None None disk 0 [].
End program.

(** ** What the exported files hold *)

(** a class file: the subjects, and for each student the marks and the average *)
Record sheet := mkSheet { s_name : string; s_roll : Z; s_marks : list Z; s_average : float }.

Definition total_of (t : float) (ms : list Z) : float := fold_left (fun t m => fadd t (f_of_int m)) ms t.

Section sheets.
Context (nan_text : string) (names : list string).

Abbreviation show x := (show_f nan_text x).

Definition sheet_subjects (x : sheet) : list Subject := zip_with mkSubject names (s_marks x).

(** the row that [ExportFile] writes, and what [DisplayAll] is to print *)
Definition sheet_row (x : sheet) : string :=
  export_row nan_text (s_name x) (s_roll x) (sheet_subjects x) (total_of (f_of_int 0) (s_marks x)) (s_average x).

Definition sheet_report (index : Z) (x : sheet) : list string :=
  report nan_text index (s_name x) (s_roll x) (sheet_subjects x) (total_of (f_of_int 0) (s_marks x)) (d_to_f (atof (show (s_average x)))).

Fixpoint sheet_reports (index : Z) (xs : list sheet) : list string :=
  match xs with [] => [] | x :: xs => sheet_report index x ++ sheet_reports (index + 1) xs end.

(** a text without commas and newlines *)
Definition field (t : string) : Prop := plain_token is_comma t /\ str_all (fun a => negb (is_newline a)) t = true.

Definition good_names : Prop :=
  Forall (fun n => field n /\ n <> "Total") names /\ (length names <= MAX_SUBJECTS)%nat /\
  (strlen (export_header names) < MAX_LINE_LEN)%nat.

Definition good_sheet (x : sheet) : Prop :=
  field (s_name x) /\ (strlen (s_name x) < MAX_NAME_LEN)%nat /\ in_int (s_roll x) /\ Forall in_int (s_marks x) /\
  length (s_marks x) = length names /\ (strlen (sheet_row x) < MAX_LINE_LEN)%nat.

(** ** Lemmas *)

(** *** Fields *)

(** fields with commas between them, and [z] behind *)
Definition body (ts : list string) (z : string) : string := foldr (fun t r => t +:+ "," +:+ r) z ts.

Lemma concat_cons (t : string) ts : String.concat "" (t :: ts) = t +:+ String.concat "" ts.
Proof using Type. destruct ts; [by rewrite str_app_nil_r|done]. Qed.

Lemma concat_body ts z : String.concat "" ((fun t => "," +:+ t) <$> ts) +:+ "," +:+ z = "," +:+ body ts z.
Proof using Type.
  induction ts as [|t ts IH]; [done|]. rewrite fmap_cons, concat_cons, !str_app_assoc, IH. done.
Qed.

Lemma body_app ts z u : body ts z +:+ u = body ts (z +:+ u).
Proof using Type. induction ts as [|t ts IH]; [done|]. cbn [body foldr]. fold (body ts z). fold (body ts (z +:+ u)). by rewrite <- IH, !str_app_assoc. Qed.

Lemma next_field t r : field t -> next_token (t +:+ "," +:+ r) = (Some t, r).
Proof using Type. intros [Ht _]. unfold next_token. change ("," +:+ r) with (String "," r). by rewrite strtok_token. Qed.

Lemma last_field t : field t -> next_token t = (Some t, "").
Proof using Type. intros [Ht _]. unfold next_token. by rewrite strtok_last. Qed.

Lemma field_app t u : field t -> str_all (fun c => negb (is_comma c)) u = true -> str_all (fun c => negb (is_newline c)) u = true -> field (t +:+ u).
Proof using Type.
  intros [[Hne Ht] Hn] Hu Hun. split; [split|].
  - by destruct t.
  - by rewrite str_all_app, Ht.
  - by rewrite str_all_app, Hn.
Qed.

(** the texts of numbers are fields *)
Definition number_char (a : ascii) : bool := negb (is_comma a) && negb (is_newline a).

Lemma pretty_ne (z : Z) : pretty z <> "".
Proof using Type. destruct z as [|p|p]; [done|by destruct (pretty_pos p) as (_ & _ & ?)|by rewrite pretty_neg]. Qed.

Lemma field_chars t : t <> "" -> str_all number_char t = true -> field t.
Proof using Type.
  intros Hne Ht. split; [split; [done|]|]; revert Ht; apply str_all_impl; intros a; by intros [? ?]%andb_true_iff.
Qed.

Lemma pretty_chars (z : Z) : str_all number_char (pretty z) = true.
Proof using Type.
  apply str_all_pretty; [|done]. intros a Ha. unfold number_char, is_comma, is_newline. by rewrite !digit_not by (done || lia).
Qed.

Lemma pretty_field (z : Z) : field (pretty z).
Proof using Type. apply field_chars; [apply pretty_ne|apply pretty_chars]. Qed.

Context (Hnan : field nan_text).

Lemma show_field x : field (show x).
Proof.
  assert (forall neg n, field (show_hundredths neg n)) as Hh.
  { intros neg n. unfold show_hundredths, pad2. apply field_chars.
    - destruct neg; [done|]. cbn. intros He. destruct (pretty (n / 100)) eqn:Hp; [by apply pretty_ne in Hp|done].
    - rewrite !str_all_app, !pretty_chars. by destruct neg, (n mod 100 <? 10). }
  destruct x as [neg|neg| |neg m e]; [apply Hh|by destruct neg|exact Hnan|apply Hh].
Qed.

(** *** The header *)

Lemma header_loop_ok ns fuel count : Forall (fun n => field n /\ n <> "Total") ns -> (length ns < fuel)%nat ->
  (count + length ns <= MAX_SUBJECTS)%nat -> header_loop fuel count (next_token (body ns "Total,Average")) = Done ns.
Proof using Type.
  intros Hns. revert fuel count. induction Hns as [|n ns [Hn Ht] _ IH]; intros [|fuel] count Hf Hc; try (cbn in Hf; lia); [done|].
  cbn [body foldr]. fold (body ns "Total,Average"). rewrite next_field by done. cbn [header_loop fst snd].
  rewrite (proj2 (streq_false _ _) Ht). cbn [length] in *. rewrite (proj2 (Nat.ltb_lt _ _)) by lia. rewrite IH by lia. done.
Qed.

Lemma body_newline ts z : Forall field ts -> str_all (fun a => negb (is_newline a)) z = true -> str_all (fun a => negb (is_newline a)) (body ts z) = true.
Proof using Type.
  intros Ht Hz. induction Ht as [|t ts [_ Ht] _ IH]; [done|]. cbn [body foldr]. fold (body ts z). by rewrite !str_all_app, Ht, IH.
Qed.

Lemma body_length ts z : (length ts <= strlen (body ts z))%nat.
Proof using Type. induction ts as [|t ts IH]; [simpl; lia|]. cbn [body foldr length]. fold (body ts z). rewrite !strlen_app. cbn [strlen]. lia. Qed.

Lemma export_header_body ns : export_header ns = "Name,Roll No," +:+ body ns "Total,Average" +:+ nl.
Proof using Type.
  unfold export_header. change (",Total,Average" +:+ nl) with ("," +:+ "Total,Average" +:+ nl). rewrite concat_body.
  by rewrite body_app.
Qed.

Lemma header_ok : good_names -> header_subjects (export_header names) = Done names.
Proof using Type.
  intros (Hn & Hl & _). unfold header_subjects. rewrite export_header_body. rewrite <- str_app_assoc.
  assert (Forall field names) as Hf by (eapply Forall_impl; [exact Hn|by intros ? []]).
  rewrite cut_app by (done || (rewrite str_all_app; by apply body_newline)).
  change ("Name,Roll No," +:+ body names "Total,Average") with ("Name" +:+ "," +:+ "Roll No" +:+ "," +:+ body names "Total,Average").
  rewrite !next_field by (by apply field_chars). cbn [snd]. rewrite next_field by (by apply field_chars). cbn [snd].
  apply header_loop_ok; [done| |done]. pose proof (body_length names "Total,Average"). rewrite !strlen_app. lia.
Qed.

(** *** The rows *)

Lemma row_marks_ok ns ms z total : length ms = length ns -> Forall in_int ms ->
  row_marks ns (body (pretty <$> ms) z) total = Done (zip_with mkSubject ns ms, total_of total ms, z).
Proof using Type.
  intros Hl Hm. revert ns total Hl. induction Hm as [|m ms Hm _ IH]; intros [|n ns] total Hl; try done.
  cbn [fmap list_fmap body foldr row_marks zip_with]. fold (body (pretty <$> ms) z).
  change (list_fmap Z string pretty ms) with (pretty <$> ms).
  rewrite next_field by apply pretty_field. cbn [of_option mbind outcome_bind]. pose proof (atoi_pretty m "" Hm eq_refl) as Ha.
  rewrite str_app_nil_r in Ha. rewrite Ha. cbn [mbind outcome_bind]. by rewrite IH by (cbn in Hl; lia).
Qed.

(** a row with the fields behind the roll number made plain *)
Lemma sheet_row_body x : length (s_marks x) = length names ->
  sheet_row x = (s_name x +:+ "," +:+ pretty (s_roll x) +:+ "," +:+
    body (pretty <$> s_marks x) (show (total_of (f_of_int 0) (s_marks x)) +:+ "," +:+ show (s_average x))) +:+ nl.
Proof using Type.
  intros Hl. unfold sheet_row, export_row, sheet_subjects. rewrite !str_app_assoc. do 3 f_equal.
  assert ((fun x : Subject => "," +:+ pretty (marks x)) <$> zip_with mkSubject names (s_marks x) = (fun t => "," +:+ t) <$> (pretty <$> s_marks x)) as ->.
  { rewrite <- list_fmap_compose. revert Hl. generalize (s_marks x) as ms. clear Hnan. intros ms. revert names. induction ms as [|m ms IH]; intros [|n ns] Hl; try done.
    cbn. f_equal. apply IH. cbn in Hl. lia. }
  rewrite concat_body, body_app. by rewrite !str_app_assoc.
Qed.

Lemma display_row_ok index x : good_sheet x -> display_row nan_text names index (sheet_row x) = Done (sheet_report index x).
Proof.
  intros (Hn & Hl & Hr & Hm & Hlen & _). unfold display_row. rewrite sheet_row_body by done.
  rewrite cut_app; [|rewrite !str_all_app; destruct Hn as [_ ->], (pretty_field (s_roll x)) as [_ ->]; apply body_newline|done].
  - rewrite next_field by done. cbn [of_option mbind outcome_bind]. rewrite (proj2 (Nat.ltb_lt _ _) Hl). rewrite next_field by apply pretty_field.
    cbn [of_option mbind outcome_bind]. pose proof (atoi_pretty (s_roll x) "" Hr eq_refl) as Ha. rewrite str_app_nil_r in Ha. rewrite Ha.
    cbn [mbind outcome_bind]. rewrite row_marks_ok by done. cbn [mbind outcome_bind]. rewrite next_field, last_field by apply show_field. done.
  - apply Forall_fmap, Forall_true. intros z. apply pretty_field.
  - rewrite !str_all_app. destruct (show_field (total_of (f_of_int 0) (s_marks x))) as [_ ->], (show_field (s_average x)) as [_ ->]. done.
Qed.

Lemma sheet_line x : good_sheet x -> exists l, sheet_row x = l +:+ nl /\ str_all (fun a => negb (is_newline a)) l = true /\
  (strlen l < MAX_LINE_LEN - 1)%nat.
Proof.
  intros (Hn & _ & _ & _ & Hlen & Hs). rewrite sheet_row_body in * by done. eexists. split; [done|]. split.
  - rewrite !str_all_app. destruct Hn as [_ ->], (pretty_field (s_roll x)) as [_ ->]. apply body_newline.
    + apply Forall_fmap, Forall_true. intros z. apply pretty_field.
    + rewrite !str_all_app. destruct (show_field (total_of (f_of_int 0) (s_marks x))) as [_ ->], (show_field (s_average x)) as [_ ->]. done.
  - rewrite strlen_app in Hs. unfold MAX_LINE_LEN in *. cbn [strlen nl] in Hs. lia.
Qed.

Lemma display_rows_ok xs index fuel : Forall good_sheet xs -> (length xs < fuel)%nat ->
  display_rows nan_text fuel names index (String.concat "" (sheet_row <$> xs)) = Done (sheet_reports index xs).
Proof.
  intros Hx. revert index fuel. induction Hx as [|x xs Hx _ IH]; intros index [|fuel] Hf; try (cbn in Hf; lia); [done|].
  rewrite fmap_cons, concat_cons. destruct (sheet_line x Hx) as (l & Hl & Hn & Hs).
  cbn [display_rows]. destruct (sheet_row x +:+ String.concat "" (sheet_row <$> xs)) as [|c r] eqn:He.
  { rewrite Hl in He. by destruct l. }
  rewrite <- He, Hl, str_app_assoc, fgets_line by done. cbn [fst snd]. rewrite <- Hl, display_row_ok by done.
  cbn [mbind outcome_bind length] in *. by rewrite IH by lia.
Qed.

Lemma rows_length xs : (length xs <= strlen (String.concat "" (sheet_row <$> xs)))%nat.
Proof using Type.
  clear Hnan. induction xs as [|x xs IH]; [cbn; lia|]. rewrite fmap_cons, concat_cons, strlen_app. cbn [length].
  assert (0 < strlen (sheet_row x))%nat; [|lia]. unfold sheet_row, export_row. rewrite !strlen_app. cbn [strlen]. lia.
Qed.

Lemma display_file_ok xs : good_names -> Forall good_sheet xs ->
  display nan_text (export_header names +:+ String.concat "" (sheet_row <$> xs)) = Done (sheet_reports 1 xs).
Proof.
  intros Hg Hx. unfold display. pose proof (header_ok Hg) as Hh. destruct Hg as (Hn & _ & Hl).
  assert (Forall field names) as Hf by (eapply Forall_impl; [exact Hn|by intros ? []]).
  assert (exists l, export_header names = l +:+ nl /\ str_all (fun a => negb (is_newline a)) l = true) as (l & He & Hnl).
  { exists ("Name,Roll No," +:+ body names "Total,Average"). rewrite export_header_body, str_app_assoc. split; [done|].
    rewrite str_all_app. by apply body_newline. }
  destruct (export_header names +:+ _) as [|c r] eqn:Hc; [rewrite He in Hc; by destruct l|]. rewrite <- Hc, He, str_app_assoc.
  rewrite fgets_line; [|done|rewrite He, strlen_app in Hl; unfold MAX_LINE_LEN in *; cbn [strlen nl] in Hl; lia].
  cbn [fst snd]. rewrite <- He, Hh. cbn [mbind outcome_bind]. apply display_rows_ok; [done|]. pose proof (rows_length xs). lia.
Qed.
End sheets.

(** *** Roll numbers *)

Lemma not_duplicate l r : isRollNoDuplicate l r = Done false -> r ∉ (RollNO <$> l).
Proof.
  induction l as [|x l IH]; cbn; [set_solver|]. destruct (RollNO x) as [a|] eqn:Ha, r as [b|]; cbn; try done.
  destruct (Z.eqb_spec a b) as [|Hne]; [done|]. intros Hd. rewrite not_elem_of_cons. split; [congruence|by apply IH].
Qed.

(** the table is left alone *)
Definition keeps {A} (m : cmd state A) : Prop := forall s a s', m s = Done (a, s') -> studentList s' = studentList s.

Lemma keeps_bind {A B} (m : cmd state A) (f : A -> cmd state B) : keeps m -> (forall a, keeps (f a)) -> keeps (m ≫= f).
Proof. intros Hm Hf s b s' (a & s1 & H1 & H2)%cmd_bind_Done. rewrite (Hf _ _ _ _ H2). by eapply Hm. Qed.

Lemma keeps_modify f : (forall s, studentList (f s) = studentList s) -> keeps (modify f).
Proof. intros Hf s a s' [= _ <-]. apply Hf. Qed.

Lemma keeps_ret {A} (a : A) : keeps (mret a).
Proof. by intros s b s' [= _ <-]. Qed.

Lemma keeps_get : keeps get.
Proof. by intros s b s' [= _ <-]. Qed.

Lemma keeps_lift {A} (m : outcome A) : keeps (lift m).
Proof. intros s b s'. unfold lift. destruct m; [|done..]. by intros [= _ <-]. Qed.

Lemma keeps_undef {A} : keeps (undef (A := A)).
Proof. done. Qed.

Ltac keeps_tac :=
  repeat first
    [ apply keeps_ret | apply keeps_get | apply keeps_lift | apply keeps_undef
    | apply keeps_modify; intros; reflexivity
    | apply keeps_bind; [|intros ?]
    | progress unfold print, scan_d, scan_word, known, getchar
    | case_match ].

Lemma keeps_read_marks names t : keeps (read_marks names t).
Proof. revert t. induction names as [|n names IH]; intros t; cbn [read_marks]; keeps_tac. apply IH. Qed.

Lemma keeps_read_names n i : keeps (read_subject_names n i).
Proof. revert i. induction n as [|n IH]; intros i; cbn [read_subject_names]; unfold read_subject_name; keeps_tac. apply IH. Qed.

Lemma keeps_first fopen_ok : keeps (first_student fopen_ok).
Proof. unfold first_student. keeps_tac; apply keeps_read_names. Qed.

Definition rolls_distinct (s : state) : Prop := NoDup (RollNO <$> studentList s).

(** what holds when a command returns *)
Definition post {A} (m : cmd state A) (s : state) (P : state -> Prop) : Prop := forall a s', m s = Done (a, s') -> P s'.

Lemma post_keeps {A B} (m : cmd state A) (f : A -> cmd state B) s P : keeps m ->
  (forall a s1, studentList s1 = studentList s -> post (f a) s1 P) -> post (m ≫= f) s P.
Proof. intros Hm Hf b s' (a & s1 & H1 & H2)%cmd_bind_Done. eapply Hf; [|done]. by eapply Hm. Qed.

Lemma post_last {A} (m : cmd state A) s P : keeps m -> (forall s1, studentList s1 = studentList s -> P s1) -> post m s P.
Proof. intros Hm Hp a s' H. apply Hp. by eapply Hm. Qed.

Lemma post_get {B} (f : state -> cmd state B) s P : post (f s) s P -> post (get ≫= f) s P.
Proof. done. Qed.

Ltac skip := first [apply post_get | apply post_keeps; [by keeps_tac|intros ? ? ?]].

Lemma store_distinct fopen_ok name roll s : roll ∉ (RollNO <$> studentList s) -> rolls_distinct s ->
  post (store_student fopen_ok name roll) s rolls_distinct.
Proof.
  intros Hr Hd. unfold store_student. do 3 skip. apply post_keeps; [apply keeps_read_marks|]. intros p s4 H4.
  intros b s' (? & s5 & [= _ <-] & H5)%cmd_bind_Done. revert b s' H5. apply post_get, post_last; [by keeps_tac|].
  intros s6 H6. unfold rolls_distinct. rewrite H6. cbn [studentList set_students].
  rewrite fmap_app. apply NoDup_app. unfold rolls_distinct in Hd. replace (studentList s4) with (studentList s) by congruence.
  split_and!; [done| |apply NoDup_singleton]. intros y Hy ->%list_elem_of_singleton. done.
Qed.

Lemma add_distinct room fopen_ok s : rolls_distinct s -> post (AddStudent room fopen_ok) s rolls_distinct.
Proof.
  intros Hd. unfold AddStudent. skip. case_match; [by intros ? ?|]. do 6 skip.
  intros b s' (d & s8 & H8 & H9)%cmd_bind_Done. revert b s' H9. unfold lift in H8.
  destruct (isRollNoDuplicate _ _) as [d'| |] eqn:Hdup; [|done..]. injection H8 as <- <-.
  match goal with |- forall b s', _ ?s9 = _ -> _ => assert (studentList s9 = studentList s) as Hs by congruence end.
  destruct d'; [apply post_last; [by keeps_tac|]; intros sx Hsx; unfold rolls_distinct in *; congruence|].
  apply not_duplicate in Hdup. rewrite Hs in Hdup. apply post_keeps; [case_match; [apply keeps_first|apply keeps_ret]|]. intros go_on s9 H9.
  destruct (negb go_on); [apply post_last; [by keeps_tac|]; intros sx Hsx; unfold rolls_distinct in *; congruence|].
  assert (studentList s9 = studentList s) as Hs9 by congruence. apply store_distinct; unfold rolls_distinct; by rewrite Hs9.
Qed.

(** *** The whole program *)

Lemma keeps_display fopen_ok nan_text : keeps (DisplayAll fopen_ok nan_text).
Proof. unfold DisplayAll. keeps_tac. Qed.

Lemma keeps_export fopen_ok writable nan_text : keeps (ExportFile fopen_ok writable nan_text).
Proof.
  assert (forall names x, keeps (export_one fopen_ok writable nan_text names x)) as Ho by (intros names x; unfold export_one; keeps_tac).
  assert (forall names l, keeps (export_loop fopen_ok writable nan_text names l)) as Hl.
  { intros names l. induction l as [|x l IH]; cbn [export_loop]; [apply keeps_ret|]. by apply keeps_bind. }
  unfold ExportFile. keeps_tac; apply Hl || apply Ho.
Qed.

Lemma keeps_stats nan_text : keeps (ClassStats nan_text).
Proof. unfold ClassStats. keeps_tac. Qed.

Lemma keeps_find nan_text : keeps (FindStudent nan_text).
Proof.
  assert (forall l q, keeps (find_loop nan_text l q)) as Hl.
  { intros l q. induction l as [|x l IH]; cbn [find_loop]; keeps_tac; apply IH. }
  unfold FindStudent. keeps_tac; apply Hl.
Qed.

Lemma post_bind {A B} (m : cmd state A) (f : A -> cmd state B) s P : post m s P ->
  (forall a s1, P s1 -> post (f a) s1 P) -> post (m ≫= f) s P.
Proof. intros Hm Hf b s' (a & s1 & H1 & H2)%cmd_bind_Done. eapply Hf; [|done]. by eapply Hm. Qed.

(** what keeps the table keeps its roll numbers distinct *)
Lemma post_same {A} (m : cmd state A) s : keeps m -> rolls_distinct s -> post m s rolls_distinct.
Proof. intros Hm Hd. apply post_last; [done|]. intros s1 Hs. unfold rolls_distinct. by rewrite Hs. Qed.

Lemma add_loop_distinct room fopen_ok n s : rolls_distinct s -> post (add_loop room fopen_ok n) s rolls_distinct.
Proof.
  revert s. induction n as [|n IH]; intros s Hd; cbn [add_loop]; [by apply post_same; [apply keeps_ret|]|].
  apply post_bind; [by apply add_distinct|]. intros _ s1 Hs1. by apply IH.
Qed.

(** one part after the other *)
Ltac same_part := apply post_bind; [by apply post_same; [keeps_tac|]|]; intros ? ? ?.

Lemma add_students_distinct room fopen_ok s : rolls_distinct s -> post (add_students room fopen_ok) s rolls_distinct.
Proof.
  intros Hd. unfold add_students. do 3 same_part. apply post_get. same_part. case_match; [by apply post_same; [keeps_tac|]|by apply add_loop_distinct].
Qed.

Lemma choose_distinct room fopen_ok writable nan_text c s : rolls_distinct s ->
  post (choose room fopen_ok writable nan_text c) s rolls_distinct.
Proof.
  intros Hd. unfold choose. case_match; [by apply add_students_distinct|].
  assert (forall m : cmd state Z, keeps m -> post (m;; mret tt) s rolls_distinct) as Hm.
  { intros m Hk. apply post_same; [|done]. apply keeps_bind; [done|]. intros _. apply keeps_ret. }
  repeat (case_match; [first [apply Hm; first [apply keeps_display|apply keeps_export|apply keeps_stats|apply keeps_find] | by apply post_same; [keeps_tac|]]|]).
  by apply post_same; [keeps_tac|].
Qed.

Lemma menu_distinct room fopen_ok writable nan_text fuel s : rolls_distinct s ->
  post (menu room fopen_ok writable nan_text fuel) s rolls_distinct.
Proof.
  revert s. induction fuel as [|fuel IH]; intros s Hd; cbn [menu]; [by intros ? ?|].
  do 3 same_part. apply post_get. same_part. apply post_bind; [by apply choose_distinct|].
  intros _ sx Hsx. case_match; [by apply post_same; [keeps_tac|]|by apply IH].
Qed.

(** ** Properties *)

(** What [DisplayAll] makes of a report in the layout of the files of [ExportFile], one row for each
    of any number of students.  Nothing in the program writes such a file under the name that
    [DisplayAll] opens: the files of [ExportFile] have one row and the name of a roll number, and the
    report of [AddStudent] has another header (see below); it has to be put there.  When its names
    and subjects are fields that fit the buffers and no subject is called Total, it prints for each
    student the name, the roll number, the subjects with their marks, the total as the program adds
    it up in single precision, and the average that was written. *)
Theorem display_reads_export nan_text names xs : field nan_text -> good_names names -> Forall (good_sheet nan_text names) xs ->
  display nan_text (export_header names +:+ String.concat "" (sheet_row nan_text names <$> xs)) = Done (sheet_reports nan_text names 1 xs).
Proof. intros Hn Hg Hx. by apply display_file_ok. Qed.

(** Whatever is typed and whichever files can be opened, no two students of the table have the
    same roll number when the menu ends. *)
Theorem rolls_stay_distinct room fopen_ok writable nan_text fuel typed disk s :
  menu room fopen_ok writable nan_text fuel (start typed disk) = Done (tt, s) -> NoDup (RollNO <$> studentList s).
Proof. intros H. eapply (menu_distinct room fopen_ok writable nan_text fuel (start typed disk)); [constructor|exact H]. Qed.

(** *** What goes wrong *)

Definition typed_lines (l : list string) : string := String.concat "" ((fun x => x +:+ nl) <$> l).

Definition one_student : string := typed_lines ["1"; "1"; "Ann"; "7"; "3"; "A"; "B"; "C"; "50"; "60"; "71"; "4"; "5"; "Bob"; "6"].

(** To leave without a student reads variables that were never set. *)
Lemma leave_at_once : main 1 (fun _ => true) false "nan" 5 (start (typed_lines ["6"]) ∅) = Undef.
Proof. by vm_compute. Qed.

(** A student that is added has its total printed through a format for an [int]. *)
Lemma adding_is_undefined : main 1 (fun _ => true) false "nan" 5 (start one_student ∅) = Undef.
Proof. by vm_compute. Qed.

(** The header of [AddStudent] says TOTAL where [DisplayAll] looks for Total: both last columns are
    taken for subjects, and the row has too few fields. *)
Lemma display_own_header :
  display "nan" (csv_header ["A"; "B"; "C"] +:+ "Ann,7,50,60,71,181,60.33" +:+ nl) = Undef.
Proof. by vm_compute. Qed.

(** A student that is found has fewer than 20 subjects: the loop reads behind them. *)
Lemma find_reads_behind : print_subjects MAX_SUBJECTS [mkSubject "A" 50; mkSubject "B" 60; mkSubject "C" 71] = Undef.
Proof. done. Qed.

(** If the report can be made but not appended to, the session goes on with the student. *)
Definition session : outcome (Z * state) := main 1 (fun n => (n =? 0)%nat) false "nan" 5 (start one_student ∅).

Example session_out :
  match session with
  | Done (r, s) => (r =? 0) && bool_decide ((nl +:+ "Class Average Percentage: 60.33" +:+ nl) ∈ out s) &&
      bool_decide (("No matching student found." +:+ nl) ∈ out s)
  | _ => false
  end = true.
Proof. by vm_compute. Qed.

(** ** Witnesses *)

Definition ann : sheet := mkSheet "Ann" 7 [90; 85] (fdiv (f_of_int 175) (f_of_int 2)).

Lemma display_reads_export_witness :
  display "nan" (export_header ["Maths"; "Art"] +:+ sheet_row "nan" ["Maths"; "Art"] ann) =
    Done [nl +:+ "Student 1" +:+ nl; "Name: Ann" +:+ nl; "Roll Number: 7" +:+ nl; "Maths: 90" +:+ nl; "Art: 85" +:+ nl;
          "Total: 175.00" +:+ nl; "Average: 87.50" +:+ nl].
Proof.
  etransitivity; [apply (display_reads_export "nan" ["Maths"; "Art"] [ann])|by vm_compute].
  - by repeat split.
  - split_and!; [by repeat constructor|apply Nat.leb_le; by vm_compute|apply Nat.ltb_lt; by vm_compute].
  - constructor; [|constructor]. split_and!; [by repeat split|apply Nat.ltb_lt; by vm_compute|by split| |done|apply Nat.ltb_lt; by vm_compute].
    repeat constructor; by vm_compute.
Defined.

Lemma rolls_stay_distinct_witness : exists s, menu 2 (fun n => (n =? 0)%nat) false "nan" 5
    (start (typed_lines ["1"; "2"; "Ann"; "7"; "3"; "A"; "B"; "C"; "50"; "60"; "71"; "Bob"; "7"; "6"]) ∅) = Done (tt, s) /\
  length (studentList s) = 1%nat /\ NoDup (RollNO <$> studentList s).
Proof.
  destruct (menu 2 (fun n => (n =? 0)%nat) false "nan" 5
    (start (typed_lines ["1"; "2"; "Ann"; "7"; "3"; "A"; "B"; "C"; "50"; "60"; "71"; "Bob"; "7"; "6"]) ∅)) as [[[] s]| |] eqn:Hr; [|by vm_compute in Hr..].
  exists s. split; [done|]. split; [|by apply (rolls_stay_distinct _ _ _ _ _ _ _ _ Hr)].
  revert Hr. vm_compute. by intros [= <-].
Defined.
