(* ===== verification/LevelOrder.v ===== *)
(** * The level-order tree of Trees/trees.c

    A new node takes the first free place in level order; the places are searched, and the
    tree is printed, with a queue in an array of 100 cells that is never reused from the
    front.  Writing behind the array, and a cell that was not written, are undefined. *)
From S2P Require Import Prelude LinkedHeap.

(** ** The program *)

Record Node := mkNode { data : Z; left : ptr; right : ptr }.
Abbreviation memory := (gmap loc Node).
#[export] Instance tree_heap : HeapState memory Node := {
  heap_of h := h; with_heap h _ := h; heap_of_with _ _ := eq_refl; with_with _ _ _ := eq_refl }.

Definition set_left (p : ptr) (n : Node) : Node := mkNode (data n) p (right n).
Definition set_right (p : ptr) (n : Node) : Node := mkNode (data n) (left n) p.

Definition createNode (value : Z) : cmd memory ptr := alloc (mkNode value None None).

Record Queue := mkQueue { arr : list (option ptr); front : Z; rear : Z }.

Definition createQueue (size : nat) : Queue := mkQueue (replicate size None) 0 0.
Definition isEmpty (q : Queue) : bool := front q =? rear q.
Definition enqueue (q : Queue) (node : ptr) : outcome Queue :=
  a ← arr_set (arr q) (rear q) (Some node); Done (mkQueue a (front q) (rear q + 1)).
Definition dequeue (q : Queue) : outcome (ptr * Queue) :=
  c ← arr_get (arr q) (front q); p ← of_option c; Done (p, mkQueue (arr q) (front q + 1) (rear q)).

(** the loop of [insertLevelOrder] *)
Fixpoint insert_loop (fuel : nat) (q : Queue) (value : Z) : cmd memory unit :=
  if isEmpty q then mret tt
  else
    match fuel with
    | O => lift OutOfFuel
    | S fuel =>
        '(temp, q) ← lift (dequeue q);
        n ← load temp;
        match left n with
        | None => p ← createNode value; update temp (set_left p)
        | Some l =>
            q ← lift (enqueue q (Some l));
            match right n with
            | None => p ← createNode value; update temp (set_right p)
            | Some r => q ← lift (enqueue q (Some r)); insert_loop fuel q value
            end
        end
    end.

(** the new [*root] *)
Definition insertLevelOrder (root : ptr) (value : Z) : cmd memory ptr :=
  match root with
  | None => createNode value
  | Some _ => q ← lift (enqueue (createQueue 100) root); insert_loop 100 q value;; mret root
  end.

Definition enqueue_child (q : Queue) (p : ptr) : outcome Queue :=
  match p with None => Done q | Some _ => enqueue q p end.

(** the loop of [printLevelOrder]: the data printed *)
Fixpoint print_loop (fuel : nat) (q : Queue) : cmd memory (list Z) :=
  if isEmpty q then mret []
  else
    match fuel with
    | O => lift OutOfFuel
    | S fuel =>
        '(temp, q) ← lift (dequeue q);
        n ← load temp;
        q ← lift (enqueue_child q (left n));
        q ← lift (enqueue_child q (right n));
        out ← print_loop fuel q; mret (data n :: out)
    end.

Definition printLevelOrder (root : ptr) : cmd memory (list Z) :=
  match root with
  | None => mret []
  | Some _ => q ← lift (enqueue (createQueue 100) root); print_loop 100 q
  end.

Fixpoint insert_all (root : ptr) (values : list Z) : cmd memory ptr :=
  match values with
  | [] => mret root
  | v :: values => root ← insertLevelOrder root v; insert_all root values
  end.

(** [main] with the values that were entered *)
Definition main (values : list Z) : cmd memory (list Z) := root ← insert_all None values; printLevelOrder root.

(** ** Specification *)

(** a complete tree: node [i] in level order has the children [2 i + 1] and [2 i + 2], as far
    as there are so many nodes *)
Record complete (h : memory) (ls : list loc) (vs : list Z) : Prop := {
  k_length : length ls = length vs;
  k_locs : forall p, p ∈ ls <-> is_Some (h !! p);
  k_node : forall i p v, ls !! i = Some p -> vs !! i = Some v ->
    h !! p = Some (mkNode v (ls !! (2 * i + 1)%nat) (ls !! (2 * i + 2)%nat));
  k_nodup : NoDup ls;
}.

(** ** Lemmas *)

(** the queue holds, behind those dequeued, nodes in level order *)
Record queued (q : Queue) (ls : list loc) (j r : nat) : Prop := {
  q_size : length (arr q) = 100%nat;
  q_front : front q = Z.of_nat j;
  q_rear : rear q = Z.of_nat r;
  q_cells : forall i p, ls !! i = Some p -> (i < r)%nat -> arr q !! i = Some (Some (Some p));
}.

Lemma queued_empty q ls j r : queued q ls j r -> isEmpty q = (j =? r)%nat.
Proof. intros [_ Hf Hr _]. unfold isEmpty. rewrite Hf, Hr. destruct (Nat.eqb_spec j r); zcases; lia || done. Qed.

Lemma enqueue_queued q ls j r p : queued q ls j r -> ls !! r = Some p -> (r < 100)%nat ->
  exists q', enqueue q (Some p) = Done q' /\ queued q' ls j (S r).
Proof.
  intros [Hs Hf Hr Hc] Hp Hlt. unfold enqueue. rewrite arr_set_in by lia. cbn [mbind outcome_bind]. eexists. split; [done|].
  split; simpl; [by rewrite length_insert|done|lia|]. intros i p' Hi Hle. replace (Z.to_nat (rear q)) with r by lia.
  destruct (decide (i = r)) as [->|Hne]; [rewrite list_lookup_insert_eq by lia; congruence|].
  rewrite list_lookup_insert_ne by lia. apply Hc; [done|lia].
Qed.

Lemma dequeue_queued q ls j r p : queued q ls j r -> ls !! j = Some p -> (j < r)%nat ->
  exists q', dequeue q = Done (Some p, q') /\ queued q' ls (S j) r.
Proof.
  intros [Hs Hf Hr Hc] Hp Hlt. unfold dequeue. rewrite (proj2 (arr_get_Done (arr q) (front q) (Some (Some p)))).
  - eexists. split; [done|]. split; simpl; [done|lia|done|done].
  - split; [lia|]. replace (Z.to_nat (front q)) with j by lia. by apply Hc.
Qed.

Lemma queue_start ls p : ls !! 0%nat = Some p -> exists q, enqueue (createQueue 100) (Some p) = Done q /\ queued q ls 0 1.
Proof.
  intros Hp. apply (enqueue_queued (createQueue 100) ls 0 0 p); [|done|lia]. split; [done|done|done|]. intros i q _ ?. lia.
Qed.

Lemma complete_load h ls vs i p : complete h ls vs -> ls !! i = Some p ->
  exists v, vs !! i = Some v /\ h !! p = Some (mkNode v (ls !! (2 * i + 1)%nat) (ls !! (2 * i + 2)%nat)).
Proof.
  intros Hk Hp. destruct (lookup_lt_is_Some_2 vs i) as [v Hv]; [rewrite <- (k_length _ _ _ Hk); by eapply lookup_lt_Some|].
  exists v. split; [done|]. by apply (k_node _ _ _ Hk).
Qed.

Lemma lookup_snoc_ne {A} (l : list A) x i : i <> length l -> (l ++ [x]) !! i = l !! i.
Proof.
  intros Hi. destruct (decide (i < length l)%nat); [by apply lookup_app_l|].
  rewrite lookup_app_r, (proj2 (lookup_ge_None l i)) by lia. destruct (i - length l)%nat eqn:Hd; [lia|done].
Qed.

(** a new node in the first free place, whose parent is [j] *)
Lemma complete_add h ls vs j p q v (f : Node -> Node) : complete h ls vs -> ls !! j = Some p -> h !! q = None ->
  (length ls = 2 * j + 1 \/ length ls = 2 * j + 2)%nat ->
  (forall w, f (mkNode w (ls !! (2 * j + 1)%nat) (ls !! (2 * j + 2)%nat)) =
     mkNode w ((ls ++ [q]) !! (2 * j + 1)%nat) ((ls ++ [q]) !! (2 * j + 2)%nat)) ->
  complete (alter f p (<[q := mkNode v None None]> h)) (ls ++ [q]) (vs ++ [v]).
Proof.
  intros Hk Hp Hq Hlen Hf. pose proof Hk as [Hl Hlocs Hnode Hnd].
  assert (q ∉ ls) as Hni by (rewrite Hlocs, Hq; by intros [? ?]).
  assert (p <> q) as Hpq by (intros ->; apply Hni; by eapply list_elem_of_lookup_2). split.
  - rewrite !length_app, Hl. done.
  - intros r. rewrite elem_of_app, list_elem_of_singleton, Hlocs. destruct (decide (r = q)) as [->|Hqr].
    + rewrite lookup_alter_ne, lookup_insert_eq by done. split; [by eexists|by right].
    + assert (is_Some (alter f p (<[q := mkNode v None None]> h) !! r) <-> is_Some (h !! r)) as ->; [|naive_solver].
      destruct (decide (r = p)) as [->|Hrp]; [by rewrite lookup_alter_eq, lookup_insert_ne, fmap_is_Some|].
      by rewrite lookup_alter_ne, lookup_insert_ne.
  - intros i r w Hr Hw. destruct (decide (i = length ls)) as [->|Hi].
    + rewrite list_lookup_middle in Hr by done. rewrite Hl, list_lookup_middle in Hw by done. simplify_eq.
      rewrite lookup_alter_ne, lookup_insert_eq by done. by rewrite !(proj2 (lookup_ge_None _ _)) by (rewrite length_app; simpl; lia).
    + rewrite lookup_snoc_ne in Hr by done. rewrite lookup_snoc_ne in Hw by lia.
      assert (r <> q) by (intros ->; apply Hni; by eapply list_elem_of_lookup_2). destruct (decide (r = p)) as [->|Hrp].
      * replace i with j in * by (by eapply NoDup_lookup). rewrite lookup_alter_eq, lookup_insert_ne by done.
        rewrite (Hnode _ _ _ Hr Hw). simpl. by rewrite Hf.
      * assert (i <> j) by (intros ->; congruence). rewrite lookup_alter_ne, lookup_insert_ne, !lookup_snoc_ne by (done || lia). by apply Hnode.
  - apply NoDup_app. split_and!; [done| |apply NoDup_singleton]. intros x Hx ->%list_elem_of_singleton. done.
Qed.

Lemma insert_loop_ok fuel q v h ls vs j : complete h ls vs -> queued q ls j (2 * j + 1) -> (2 * j < length ls)%nat ->
  (length ls <= 100)%nat -> (length ls <= fuel + j)%nat ->
  exists h' p, insert_loop fuel q v h = Done (tt, h') /\ complete h' (ls ++ [p]) (vs ++ [v]).
Proof.
  revert q j. induction fuel as [|fuel IH]; intros q j Hk Hq Hj H100 Hf; cbn [insert_loop]; rewrite (queued_empty _ _ _ _ Hq);
    (destruct (Nat.eqb_spec j (2 * j + 1)); [lia|]); [lia|].
  destruct (lookup_lt_is_Some_2 ls j) as [p Hp]; [lia|]. destruct (dequeue_queued _ _ _ _ _ Hq Hp) as (q1 & Hd & Hq1); [lia|].
  erewrite cmd_bind_eq; [|unfold lift; by rewrite Hd]. cbv beta match.
  destruct (complete_load _ _ _ _ _ Hk Hp) as (w & _ & Hw). erewrite cmd_bind_eq; [|apply load_ok; exact Hw]. cbn [left right].
  destruct (alloc_ok h (mkNode v None None)) as (r & Hr & Ha).
  destruct (ls !! (2 * j + 1)%nat) as [l|] eqn:Hl.
  - pose proof (lookup_lt_Some _ _ _ Hl). destruct (enqueue_queued _ _ _ _ _ Hq1 Hl) as (q2 & He & Hq2); [lia|].
    erewrite cmd_bind_eq; [|unfold lift; by rewrite He]. cbv beta. destruct (ls !! (2 * j + 2)%nat) as [r'|] eqn:Hr'.
    + pose proof (lookup_lt_Some _ _ _ Hr'). replace (S (2 * j + 1)) with (2 * j + 2)%nat in Hq2 by lia.
      destruct (enqueue_queued _ _ _ _ _ Hq2 Hr') as (q3 & He3 & Hq3); [lia|].
      erewrite cmd_bind_eq; [|unfold lift; by rewrite He3]. cbv beta. replace (S (2 * j + 2)) with (2 * S j + 1)%nat in Hq3 by lia.
      apply (IH q3 (S j)); [done|done|lia|done|lia].
    + apply lookup_ge_None in Hr'. eexists _, r. unfold createNode. rewrite (cmd_bind_eq _ _ _ _ _ Ha). simpl heap_of in *. simpl with_heap.
      rewrite (update_ok _ p _ (mkNode w (Some l) None)) by (simpl; rewrite lookup_insert_ne by congruence; done). split; [done|].
      apply (complete_add h ls vs j p r v); [done|done|done|lia|]. intros u. rewrite lookup_snoc_ne, Hl by lia.
      replace (2 * j + 2)%nat with (length ls) by lia. by rewrite list_lookup_middle.
  - apply lookup_ge_None in Hl. eexists _, r. unfold createNode. rewrite (cmd_bind_eq _ _ _ _ _ Ha). simpl heap_of in *. simpl with_heap.
    rewrite (update_ok _ p _ _) by (simpl; rewrite lookup_insert_ne by congruence; exact Hw). split; [done|].
    apply (complete_add h ls vs j p r v); [done|done|done|lia|]. intros u. rewrite (lookup_snoc_ne _ _ (2 * j + 2)) by lia.
    replace (2 * j + 1)%nat with (length ls) by lia. by rewrite list_lookup_middle.
Qed.

(** a child that is there is enqueued *)
Lemma enqueue_child_queued q ls j i : queued q ls j (Nat.min (length ls) i) -> (length ls <= 100)%nat ->
  exists q', enqueue_child q (ls !! i) = Done q' /\ queued q' ls j (Nat.min (length ls) (S i)).
Proof.
  intros Hq Hl. destruct (ls !! i) as [p|] eqn:Hp; simpl.
  - pose proof (lookup_lt_Some _ _ _ Hp). rewrite (Nat.min_r (length ls) i) in Hq by lia. rewrite Nat.min_r by lia.
    by apply enqueue_queued; [..|lia].
  - apply lookup_ge_None in Hp. exists q. rewrite Nat.min_l in Hq |- * by lia. done.
Qed.

Lemma print_loop_ok fuel q h ls vs j : complete h ls vs -> queued q ls j (Nat.min (length ls) (2 * j + 1)) ->
  (length ls <= 100)%nat -> (j <= length ls <= fuel + j)%nat -> print_loop fuel q h = Done (drop j vs, h).
Proof.
  intros Hk. revert q j. induction fuel as [|fuel IH]; intros q j Hq H100 Hf; cbn [print_loop]; rewrite (queued_empty _ _ _ _ Hq).
  { rewrite (proj2 (Nat.eqb_eq _ _)) by lia. by rewrite drop_ge by (rewrite <- (k_length _ _ _ Hk); lia). }
  destruct (decide (j = length ls)) as [Hj|Hj].
  { rewrite (proj2 (Nat.eqb_eq _ _)) by lia. by rewrite drop_ge by (rewrite <- (k_length _ _ _ Hk); lia). }
  rewrite (proj2 (Nat.eqb_neq _ _)) by lia. destruct (lookup_lt_is_Some_2 ls j) as [p Hp]; [lia|].
  destruct (dequeue_queued _ _ _ _ _ Hq Hp) as (q1 & Hd & Hq1); [lia|]. erewrite cmd_bind_eq; [|unfold lift; by rewrite Hd]. cbv beta match.
  destruct (complete_load _ _ _ _ _ Hk Hp) as (w & Hv & Hw). erewrite cmd_bind_eq; [|apply load_ok; exact Hw]. cbn [left right data].
  destruct (enqueue_child_queued _ _ _ _ Hq1 H100) as (q2 & He2 & Hq2). replace (S (2 * j + 1)) with (2 * j + 2)%nat in Hq2 by lia.
  erewrite cmd_bind_eq; [|unfold lift; by rewrite He2]. cbv beta.
  destruct (enqueue_child_queued _ _ _ _ Hq2 H100) as (q3 & He3 & Hq3). replace (S (2 * j + 2)) with (2 * S j + 1)%nat in Hq3 by lia.
  erewrite cmd_bind_eq; [|unfold lift; by rewrite He3]. cbv beta.
  erewrite cmd_bind_eq; [|apply (IH q3 (S j)); [done|done|lia]]. by rewrite (drop_S vs w j).
Qed.

(** the tree whose root is [root] *)
Definition tree_of (root : ptr) (h : memory) (vs : list Z) : Prop := exists ls, complete h ls vs /\ root = ls !! 0%nat.

Lemma insertLevelOrder_ok root h vs v : tree_of root h vs -> (length vs <= 100)%nat ->
  exists root' h', insertLevelOrder root v h = Done (root', h') /\ tree_of root' h' (vs ++ [v]).
Proof.
  intros (ls & Hk & ->) Hl. pose proof (k_length _ _ _ Hk) as Hlen. destruct ls as [|p ls].
  - destruct vs; [|done]. simpl. destruct (alloc_ok h (mkNode v None None)) as (q & Hq & Ha). eexists _, _. split; [exact Ha|].
    exists [q]. split; [|done]. split; [done| | |apply NoDup_singleton].
    + intros r. rewrite list_elem_of_singleton. split; [intros ->; exists (mkNode v None None); apply lookup_insert_eq|].
      destruct (decide (r = q)) as [->|Hne]; [done|]. simpl. rewrite lookup_insert_ne by done. intros Hr. apply (k_locs _ _ _ Hk) in Hr. by apply elem_of_nil in Hr.
    + intros [|i] r w Hr Hw; simplify_eq/=. apply lookup_insert_eq.
  - cbn [lookup list_lookup insertLevelOrder]. destruct (queue_start (p :: ls) p eq_refl) as (q & He & Hq).
    erewrite cmd_bind_eq; [|unfold lift; by rewrite He]. cbv beta.
    destruct (insert_loop_ok 100 q v h (p :: ls) vs 0 Hk Hq) as (h' & r & Hi & Hk'); [simpl; lia|lia|lia|].
    rewrite (cmd_bind_eq _ _ _ _ _ Hi). eexists _, _. split; [done|]. by exists ((p :: ls) ++ [r]).
Qed.

Lemma insert_values_ok values : forall root h vs, tree_of root h vs -> (length vs + length values <= 100)%nat ->
  exists root' h', insert_all root values h = Done (root', h') /\ tree_of root' h' (vs ++ values).
Proof.
  induction values as [|v values IH]; intros root h vs Ht Hl; cbn [insert_all].
  - exists root, h. by rewrite app_nil_r.
  - destruct (insertLevelOrder_ok root h vs v Ht) as (root1 & h1 & Hi & Ht1); [lia|]. rewrite (cmd_bind_eq _ _ _ _ _ Hi).
    destruct (IH root1 h1 (vs ++ [v]) Ht1) as (root2 & h2 & Ha & Ht2); [rewrite length_app; simpl in *; lia|].
    exists root2, h2. by rewrite <- app_assoc in Ht2.
Qed.

(** ** Properties *)

(** Up to 100 values, [main] builds the complete tree whose nodes hold the values in
    level order, and [printLevelOrder] prints them in the order they were entered; no queue
    is written or read outside of its array, and both loops end. *)
Theorem main_prints_in_order values : (length values <= 100)%nat ->
  exists root h, insert_all None values ∅ = Done (root, h) /\ tree_of root h values /\ main values ∅ = Done (values, h).
Proof.
  intros Hl. destruct (insert_values_ok values None ∅ []) as (root & h & Hi & ls & Hk & Hroot); [|simpl; lia|].
  - exists []. split; [|done]. split; [done|intros p; rewrite lookup_empty; split; [by intros ?%elem_of_nil|by intros [? ?]]|done|constructor].
  - exists root, h. split_and!; [done|by exists ls|]. unfold main. rewrite (cmd_bind_eq _ _ _ _ _ Hi). simpl app in Hk.
    pose proof (k_length _ _ _ Hk) as Hlen. destruct root as [p|]; simpl.
    + destruct (queue_start ls p (eq_sym Hroot)) as (q & He & Hq). erewrite cmd_bind_eq; [|unfold lift; by rewrite He]. cbv beta.
      apply (print_loop_ok 100 q h ls values 0); [done| |lia|lia]. symmetry in Hroot. apply lookup_lt_Some in Hroot. by rewrite Nat.min_r by lia.
    + destruct ls; [|done]. by destruct values.
Qed.

Lemma main_prints_in_order_witness : exists h, main [5; 3; 8; 1] ∅ = Done ([5; 3; 8; 1], h).
Proof. destruct (main_prints_in_order [5; 3; 8; 1]) as (root & h & _ & _ & H); [simpl; lia|]. by exists h. Defined.

(** with one value more the queue of [printLevelOrder] is written behind its end *)
Example queue_overflow : main (seqZ 0 101) ∅ = Undef.
Proof. vm_compute. reflexivity. Qed.
