(* ===== verification/WordCount.v ===== *)
(** * Counting words with several threads

    POSIX/PosixTask.c.  [split_and_count] gives every thread a part of the buffer, moved
    forward to the next blank, and adds up what they count.  The threads share nothing that
    is written but their own records, so that each is a function.  Reading outside of the
    buffer is undefined. *)
From S2P Require Import Prelude Counting.

(** ** The program *)

Definition MAX_THREADS : Z := 4.

(** [isspace] of the C locale *)
Definition isspace (c : ascii) : bool := let n := Z.of_N (N_of_ascii c) in ((9 <=? n) && (n <=? 13)) || (n =? 32).

Record ThreadData := mkData { start : Z; end_ : Z }.

Fixpoint count_loop (fuel : nat) (buffer : list ascii) (i e : Z) (in_word : bool) (count : Z) : outcome Z :=
  if i <? e then
    match fuel with
    | O => OutOfFuel
    | S fuel =>
        c ← arr_get buffer i;
        if isspace c then count_loop fuel buffer (i + 1) e false count
        else if negb in_word then count_loop fuel buffer (i + 1) e true (count + 1)
        else count_loop fuel buffer (i + 1) e in_word count
    end
  else Done count.

Definition count_words (buffer : list ascii) (d : ThreadData) : outcome Z :=
  count_loop (length buffer) buffer (start d) (end_ d) false 0.

(** [while (start < filesize && !isspace(buffer[start])) start++;] *)
Fixpoint skip_word (fuel : nat) (buffer : list ascii) (filesize s : Z) : outcome Z :=
  if s <? filesize then
    match fuel with
    | O => OutOfFuel
    | S fuel =>
        c ← arr_get buffer s;
        if negb (isspace c) then skip_word fuel buffer filesize (s + 1) else Done s
    end
  else Done s.

(** the part of thread [i] *)
Definition part (buffer : list ascii) (filesize i : Z) : outcome ThreadData :=
  let chunk_size := Z.quot filesize MAX_THREADS in
  let e := if i =? MAX_THREADS - 1 then filesize else (i + 1) * chunk_size in
  s ← (if 0 <? i then skip_word (length buffer) buffer filesize (i * chunk_size) else Done (i * chunk_size));
  Done (mkData s e).

Fixpoint total_loop (parts : list ThreadData) (buffer : list ascii) (total_count : Z) : outcome Z :=
  match parts with
  | [] => Done total_count
  | d :: parts => n ← count_words buffer d; total_loop parts buffer (total_count + n)
  end.

Fixpoint parts_loop (n : nat) (buffer : list ascii) (filesize i : Z) : outcome (list ThreadData) :=
  match n with
  | O => Done []
  | S n => d ← part buffer filesize i; ds ← parts_loop n buffer filesize (i + 1); Done (d :: ds)
  end.

(** the printed total *)
Definition split_and_count (buffer : list ascii) (filesize : Z) : outcome Z :=
  parts ← parts_loop (Z.to_nat MAX_THREADS) buffer filesize 0;
  total_loop parts buffer 0.

(** ** Specification *)

Definition blank_at (buffer : list ascii) (p : Z) : bool :=
  match buffer !! Z.to_nat p with Some c => isspace c | None => true end.

(** a word begins at [p] *)
Definition word_start (buffer : list ascii) (p : Z) : bool :=
  negb (blank_at buffer p) && ((p =? 0) || blank_at buffer (p - 1)).

Definition starts (buffer : list ascii) (a b : Z) : Z := cnt (word_start buffer) (seqZ a (b - a)).
Definition words (buffer : list ascii) : Z := starts buffer 0 (Z.of_nat (length buffer)).

Definition text (s : string) : list ascii := String.list_ascii_of_string s.

(** ** Lemmas *)

Lemma starts_empty buffer a b : b <= a -> starts buffer a b = 0.
Proof. intros H. unfold starts. by rewrite seqZ_nil by lia. Qed.

Lemma starts_cons buffer a b : a < b -> starts buffer a b = Z.b2z (word_start buffer a) + starts buffer (a + 1) b.
Proof.
  intros H. unfold starts. rewrite seqZ_cons by lia. simpl. unfold Z.succ, Z.pred. do 3 f_equal. lia.
Qed.

Lemma starts_split buffer a b c : a <= b <= c -> starts buffer a c = starts buffer a b + starts buffer b c.
Proof.
  intros H. unfold starts. replace (c - a) with ((b - a) + (c - b)) by lia. rewrite seqZ_app, cnt_app by lia.
  by replace (a + (b - a)) with b by lia.
Qed.

Lemma blank_get buffer p : 0 <= p < Z.of_nat (length buffer) ->
  exists c, arr_get buffer p = Done c /\ isspace c = blank_at buffer p.
Proof.
  intros Hp. destruct (lookup_lt_is_Some_2 buffer (Z.to_nat p)) as [c Hc]; [lia|]. exists c. split.
  - apply arr_get_Done. split; [lia|done].
  - unfold blank_at. by rewrite Hc.
Qed.

(** the flag says that the byte before is part of a word *)
Lemma count_loop_ok buffer fuel i e in_word count : 0 <= i -> e <= Z.of_nat (length buffer) -> e - i <= Z.of_nat fuel ->
  (in_word = negb ((i =? 0) || blank_at buffer (i - 1)) \/ in_word = false /\ blank_at buffer i = true) ->
  count_loop fuel buffer i e in_word count = Done (count + starts buffer i e).
Proof.
  revert i in_word count. induction fuel as [|fuel IH]; intros i in_word count Hi He Hf Hw; cbn [count_loop]; zcases;
    [lia|rewrite starts_empty by lia; by rewrite Z.add_0_r| |rewrite starts_empty by lia; by rewrite Z.add_0_r].
  destruct (blank_get buffer i) as (c & -> & Hc); [lia|]. cbn [mbind outcome_bind]. rewrite Hc. clear Hc. rewrite starts_cons by done. unfold word_start.
  destruct (blank_at buffer i) eqn:Hb; cbn [negb andb].
  - rewrite IH; [simpl; f_equal; lia|lia|lia|lia|]. left. replace (i + 1 - 1) with i by lia. rewrite Hb. by rewrite orb_true_r.
  - destruct Hw as [-> |[_ ?]]; [|done].
    assert (forall w, w = true -> w = negb ((i + 1 =? 0) || blank_at buffer (i + 1 - 1))) as Hnext.
    { intros w ->. replace (i + 1 - 1) with i by lia. rewrite Hb, (proj2 (Z.eqb_neq _ _)) by lia. done. }
    destruct ((i =? 0) || blank_at buffer (i - 1)); cbn [negb Z.b2z]; rewrite IH; try lia; (f_equal; lia) || (left; by apply Hnext).
Qed.

(** the blank, or the end, that a part is moved to *)
Lemma skip_word_ok buffer fuel s : 0 <= s <= Z.of_nat (length buffer) -> Z.of_nat (length buffer) - s <= Z.of_nat fuel ->
  exists s', skip_word fuel buffer (Z.of_nat (length buffer)) s = Done s' /\ s <= s' <= Z.of_nat (length buffer) /\
    blank_at buffer s' = true /\ forall p, s <= p < s' -> blank_at buffer p = false.
Proof.
  revert s. induction fuel as [|fuel IH]; intros s Hs Hf; cbn [skip_word]; zcases; [lia| | |].
  1,3: exists s; split_and!; [done|lia|lia| |lia]; unfold blank_at; by rewrite (proj2 (lookup_ge_None _ _)) by lia.
  destruct (blank_get buffer s) as (c & -> & Hc); [lia|]. cbn [mbind outcome_bind]. rewrite Hc. clear Hc.
  destruct (blank_at buffer s) eqn:Hb; cbn [negb]; [exists s; split_and!; [done|lia|lia|done|lia]|].
  destruct (IH (s + 1)) as (s' & -> & Hs' & Hb' & Hall); [lia|lia|]. exists s'. split_and!; [done|lia|lia|done|].
  intros p Hp. destruct (decide (p = s)) as [->|Hne]; [done|]. apply Hall. lia.
Qed.

(** no word begins right after a byte of a word *)
Lemma no_starts buffer a b : 0 <= a -> (forall p, a <= p < b -> 0 < p /\ blank_at buffer (p - 1) = false) -> starts buffer a b = 0.
Proof.
  intros Ha H. unfold starts. apply cnt_none. intros p Hp. apply elem_of_seqZ in Hp. destruct (H p) as [Hp0 Hb]; [lia|].
  unfold word_start. rewrite Hb, (proj2 (Z.eqb_neq _ _)) by lia. by rewrite andb_false_r.
Qed.

(** what a moved part misses: the word that begins where it began *)
Lemma moved_count buffer b e s : 0 <= b < e -> e <= Z.of_nat (length buffer) -> b <= s <= Z.of_nat (length buffer) ->
  blank_at buffer s = true -> (forall p, b <= p < s -> blank_at buffer p = false) ->
  count_words buffer (mkData s e) = Done (starts buffer b e - Z.b2z (word_start buffer b)).
Proof.
  intros Hb He Hs Hbl Hall. unfold count_words. cbn [start end_]. rewrite count_loop_ok by (lia || by right). f_equal. simpl.
  destruct (decide (s = b)) as [->|Hne].
  - unfold word_start. rewrite Hbl. simpl. lia.
  - assert (forall p, b + 1 <= p < Z.min (s + 1) e -> 0 < p /\ blank_at buffer (p - 1) = false) as Hp.
    { intros p Hp. split; [lia|]. apply Hall. lia. }
    rewrite (starts_cons buffer b e) by lia. destruct (Z.le_gt_cases e s) as [Hes|Hse].
    + rewrite (starts_empty _ s e), (no_starts buffer (b + 1) e) by (lia || (intros p Hpr; apply Hp; lia)). lia.
    + rewrite (starts_split buffer (b + 1) s e), (no_starts buffer (b + 1) s) by (lia || (intros p Hpr; apply Hp; lia)). lia.
Qed.

Lemma part_count buffer i : let n := Z.of_nat (length buffer) in let chunk := n / 4 in
  4 <= n -> 0 < i < 4 -> exists d, part buffer n i = Done d /\
    count_words buffer d = Done (starts buffer (i * chunk) (if i =? 3 then n else (i + 1) * chunk) - Z.b2z (word_start buffer (i * chunk))).
Proof.
  intros n chunk Hn Hi. unfold part. cbv zeta. unfold MAX_THREADS. rewrite Z.quot_div_nonneg by lia. fold chunk.
  rewrite (proj2 (Z.ltb_lt 0 i)) by lia. assert (1 <= chunk /\ 4 * chunk <= n) as [H1 H4] by (unfold chunk; Z.to_euclidean_division_equations; lia).
  destruct (skip_word_ok buffer (length buffer) (i * chunk)) as (s & Heq & Hs & Hb & Hall); [fold n; nia|lia|].
  fold n in Heq. rewrite Heq. cbn [mbind outcome_bind]. eexists. split; [done|]. change (4 - 1) with 3.
  apply moved_count; try done; destruct (Z.eqb_spec i 3); fold n; nia.
Qed.

(** ** Properties *)

(** [split_and_count] counts all words but those that begin exactly where the second,
    third or fourth part begins: such a word is skipped by the thread whose part begins
    there, and the thread before has stopped.  No byte outside of the buffer is read. *)
Theorem split_and_count_total buffer : let n := Z.of_nat (length buffer) in let chunk := n / 4 in 4 <= n ->
  split_and_count buffer n = Done (words buffer - (Z.b2z (word_start buffer chunk) +
    Z.b2z (word_start buffer (2 * chunk)) + Z.b2z (word_start buffer (3 * chunk)))).
Proof.
  intros n chunk Hn. unfold split_and_count. change (Z.to_nat MAX_THREADS) with 4%nat. cbn [parts_loop].
  assert (1 <= chunk /\ 4 * chunk <= n) as [H1 H4] by (unfold chunk; Z.to_euclidean_division_equations; lia).
  assert (part buffer n 0 = Done (mkData 0 chunk)) as ->.
  { unfold part, MAX_THREADS. cbv zeta. rewrite Z.quot_div_nonneg by lia. fold chunk. simpl. by rewrite Z.mul_1_l. }
  destruct (part_count buffer 1) as (d1 & E1 & C1), (part_count buffer 2) as (d2 & E2 & C2), (part_count buffer 3) as (d3 & E3 & C3); try lia.
  cbn [mbind outcome_bind]. change (0 + 1) with 1. change (1 + 1) with 2. change (2 + 1) with 3. fold n in E1, E2, E3. rewrite E1, E2, E3. cbn [mbind outcome_bind total_loop].
  rewrite C1, C2, C3. assert (count_words buffer (mkData 0 chunk) = Done (starts buffer 0 chunk)) as ->
    by (unfold count_words; cbn [start end_]; rewrite count_loop_ok by (lia || by left); done).
  cbn [mbind outcome_bind Z.eqb]. fold n chunk. simpl Z.eqb. cbv match. f_equal. unfold words. fold n.
  rewrite (starts_split buffer 0 chunk n), (starts_split buffer chunk (2 * chunk) n), (starts_split buffer (2 * chunk) (3 * chunk) n) by lia.
  rewrite !Z.mul_1_l. change (1 + 1) with 2. change (2 + 1) with 3. cbn [Pos.eqb]. lia.
Qed.

(** two words, one of which begins where the second part does *)
Lemma split_and_count_total_witness : split_and_count (text "abc efghijklmnop") 16 = Done 1 /\ words (text "abc efghijklmnop") = 2.
Proof.
  split; [|vm_compute; reflexivity]. apply (split_and_count_total (text "abc efghijklmnop")). simpl. lia.
Defined.
