(* ===== verification/SelectServer.v ===== *)
(** * Servers around select

    IPCs/clientchatserver/server.c sends what one client says to all others,
    IPCs/Nonblocking/server.c sends it back.  Both are the same loop: [select] on all
    descriptors, then a pass over them that accepts, receives and closes.  What the kernel
    answers in a turn of the loop is an argument.  Calls of [send] are collected; that a send
    may fail or be partial is not tested by the code. *)
From S2P Require Import Prelude ByteFile.

(** ** The loop *)

Definition FD_SETSIZE : Z := 1024.
Definition BUFFER_SIZE : Z := 1024.

(** what the kernel answers in one turn: which descriptors are ready, unless [select] fails;
    the result of [accept]; what [recv] gives on each descriptor, [None] for -1 *)
Record turn := mkTurn { ready : option (Z -> bool); accepted : option Z; received : Z -> option bytes }.

Record server := mkServer { master_set : gset Z; max_fd : Z; sent : list (Z * bytes) }.

Definition FD_ISSET (fd : Z) (set : gset Z) : bool := bool_decide (fd ∈ set).

(** the set is an array of that many bits *)
Definition FD_SET (fd : Z) (set : gset Z) : outcome (gset Z) :=
  if (fd <? 0) || (FD_SETSIZE <=? fd) then Undef else Done ({[fd]} ∪ set).

Definition send (fd : Z) (msg : bytes) (s : server) : server := mkServer (master_set s) (max_fd s) (sent s ++ [(fd, msg)]).

(** the loop of [broadcast] over [fd], ..., [fd + n - 1] *)
Fixpoint broadcast_loop (n : nat) (fd sender_fd : Z) (clients : gset Z) (msg : bytes) (s : server) : server :=
  match n with
  | O => s
  | S n =>
      broadcast_loop n (fd + 1) sender_fd clients msg
        (if FD_ISSET fd clients && negb (fd =? sender_fd) then send fd msg s else s)
  end.

Definition broadcast (sender_fd : Z) (clients : gset Z) (max_fd : Z) (msg : bytes) (s : server) : server :=
  broadcast_loop (Z.to_nat (max_fd + 1)) 0 sender_fd clients msg s.

(** what the chat server does with a message: first a NUL is put behind it in the buffer *)
Definition chat_reply (fd : Z) (msg : bytes) (s : server) : outcome server :=
  if BUFFER_SIZE <=? Z.of_nat (length msg) then Undef
  else Done (broadcast fd (master_set s) (max_fd s) msg s).

(** ... and what the echo server does *)
Definition echo_reply (fd : Z) (msg : bytes) (s : server) : outcome server := Done (send fd msg s).

Section loop.
Context (reply : Z -> bytes -> server -> outcome server) (server_fd : Z).

(** the body of the loop over the descriptors *)
Definition visit (read_set : gset Z) (t : turn) (fd : Z) (s : server) : outcome server :=
  if negb (FD_ISSET fd read_set) then Done s
  else if fd =? server_fd then
    match accepted t with
    | None => Done s
    | Some client_fd =>
        set ← FD_SET client_fd (master_set s);
        Done (mkServer set (if client_fd >? max_fd s then client_fd else max_fd s) (sent s))
    end
  else
    match received t fd with
    | None | Some [] => Done (mkServer (master_set s ∖ {[fd]}) (max_fd s) (sent s))
    | Some msg => reply fd msg s
    end.

(** the loop: [max_fd] may grow on the way *)
Fixpoint visit_loop (fuel : nat) (read_set : gset Z) (t : turn) (fd : Z) (s : server) : outcome server :=
  match fuel with
  | O => OutOfFuel
  | S fuel =>
      if fd <=? max_fd s then s ← visit read_set t fd s; visit_loop fuel read_set t (fd + 1) s
      else Done s
  end.

Definition one_turn (t : turn) (s : server) : outcome server :=
  match ready t with
  | None => Done s
  | Some r => visit_loop (S (Z.to_nat FD_SETSIZE)) (filter (fun fd => r fd = true) (master_set s)) t 0 s
  end.

(** the first so many turns of the loop that does not end *)
Fixpoint turns (ts : list turn) (s : server) : outcome server :=
  match ts with [] => Done s | t :: ts => s ← one_turn t s; turns ts s end.

Definition start : server := mkServer {[server_fd]} server_fd [].
Definition serve (ts : list turn) : outcome server := turns ts start.
End loop.

Definition chat_server : Z -> list turn -> outcome server := serve chat_reply.
Definition echo_server : Z -> list turn -> outcome server := serve echo_reply.

(** ** Specification: a room *)

Inductive event := Join (fd : Z) | Leave (fd : Z) | Say (fd : Z) (msg : bytes).

(** the descriptors in order *)
Definition all_fds : list Z := seqZ 0 FD_SETSIZE.

(** what happens at one descriptor in a turn, for the members before it *)
Definition event_at (server_fd : Z) (t : turn) (members : gset Z) (fd : Z) : option event :=
  match ready t with
  | Some r =>
      if negb (r fd && FD_ISSET fd members) then None
      else if fd =? server_fd then Join <$> accepted t
      else Some (match received t fd with None | Some [] => Leave fd | Some msg => Say fd msg end)
  | None => None
  end.

Definition events (server_fd : Z) (t : turn) (members : gset Z) : list event := omap (event_at server_fd t members) all_fds.


Section room.
Context (hears : gset Z -> Z -> list Z).

Definition happen (e : event) (r : gset Z * list (Z * bytes)) : gset Z * list (Z * bytes) :=
  match e with
  | Join fd => ({[fd]} ∪ r.1, r.2)
  | Leave fd => (r.1 ∖ {[fd]}, r.2)
  | Say fd msg => (r.1, r.2 ++ ((fun x => (x, msg)) <$> hears r.1 fd))
  end.

Definition room_turn (server_fd : Z) (t : turn) (r : gset Z * list (Z * bytes)) : gset Z * list (Z * bytes) :=
  foldl (flip happen) r (events server_fd t r.1).

Definition room (server_fd : Z) (ts : list turn) (r : gset Z * list (Z * bytes)) : gset Z * list (Z * bytes) :=
  foldl (flip (room_turn server_fd)) r ts.

(** all that happens in the room in these turns *)
Fixpoint room_events (server_fd : Z) (ts : list turn) (r : gset Z * list (Z * bytes)) : list event :=
  match ts with
  | [] => []
  | t :: ts => events server_fd t r.1 ++ room_events server_fd ts (room_turn server_fd t r)
  end.
End room.

(** what the arrays of a server take: a descriptor that is a bit of the set, a message that [ok] allows *)
Definition fits (ok : bytes -> bool) (e : event) : bool :=
  match e with Join fd => (0 <=? fd) && (fd <? FD_SETSIZE) | Leave _ => true | Say _ msg => ok msg end.


(** ** Lemmas *)

Definition server_ok (server_fd : Z) (s : server) : Prop :=
  (forall fd, fd ∈ master_set s -> 0 <= fd <= max_fd s) /\ max_fd s < FD_SETSIZE /\ server_fd ∈ master_set s.

Definition view (s : server) : gset Z * list (Z * bytes) := (master_set s, sent s).




Lemma foldl_step {A B} (f : A -> B -> A) x y l : foldl f x (y :: l) = foldl f (f x y) l.
Proof. reflexivity. Qed.

Section refinement.
Context (reply : Z -> bytes -> server -> outcome server) (hears : gset Z -> Z -> list Z) (ok : bytes -> bool) (server_fd : Z).
Context (Hreply : forall fd msg s, server_ok server_fd s -> reply fd msg s =
  if ok msg then Done (mkServer (master_set s) (max_fd s) (sent s ++ ((fun x => (x, msg)) <$> hears (master_set s) fd))) else Undef).

(** the server goes through the events [es] as the room does, up to the first that does not fit *)
Definition follows (es : list event) (s : server) (o : outcome server) : Prop :=
  if forallb (fits ok) es
  then exists s', o = Done s' /\ server_ok server_fd s' /\ view s' = foldl (flip (happen hears)) (view s) es /\ max_fd s <= max_fd s'
  else o = Undef.

Lemma follows_nil s : server_ok server_fd s -> follows [] s (Done s).
Proof using Type. intros Hs. exists s. by split_and!. Qed.

Lemma follows_app es es' s o f : follows es s o -> (forall s', server_ok server_fd s' -> max_fd s <= max_fd s' ->
  view s' = foldl (flip (happen hears)) (view s) es -> follows es' s' (f s')) -> follows (es ++ es') s (s' ← o; f s').
Proof using Type.
  unfold follows. rewrite forallb_app. destruct (forallb (fits ok) es); cbn [andb]; [|by intros ->].
  intros (s1 & -> & Hs1 & Hv1 & Hm1) Hf. specialize (Hf s1 Hs1 Hm1 Hv1). cbn [mbind outcome_bind].
  destruct (forallb (fits ok) es'); [|done]. destruct Hf as (s2 & -> & Hs2 & Hv2 & Hm2). exists s2.
  split_and!; [done|done|by rewrite foldl_app, <- Hv1|lia].
Qed.

Lemma visit_ok r t members fd s : ready t = Some r -> server_ok server_fd s ->
  follows (option_list (event_at server_fd t members fd)) s
    (visit reply server_fd (filter (fun fd => r fd = true) members) t fd s).
Proof using Hreply.
  intros Hr Hs. pose proof Hs as (Hm & Hmax & Hin). unfold visit, event_at. rewrite Hr.
  assert (FD_ISSET fd (filter (fun fd => r fd = true) members) = r fd && FD_ISSET fd members) as ->.
  { unfold FD_ISSET. apply eq_bool_prop_intro. rewrite andb_True, !bool_decide_spec, elem_of_filter, Is_true_true. done. }
  destruct (r fd && FD_ISSET fd members); cbn [negb]; [|by apply follows_nil].
  destruct (Z.eqb_spec fd server_fd) as [->|Hne].
  - destruct (accepted t) as [c|]; [|by apply follows_nil]. unfold follows, FD_SET.
    change (option_list (Join <$> Some c)) with [Join c]. cbn [forallb fits]. destruct (Z.ltb_spec c 0), (Z.leb_spec 0 c), (Z.leb_spec FD_SETSIZE c), (Z.ltb_spec c FD_SETSIZE); try lia; try done.
    cbn [orb andb mbind outcome_bind]. eexists. split; [reflexivity|]. unfold server_ok. cbn [master_set max_fd sent].
    split_and!; [|zcases; lia|set_solver|done|zcases; lia].
    intros x [->%elem_of_singleton|Hx%Hm]%elem_of_union; zcases; lia.
  - assert (server_ok server_fd (mkServer (master_set s ∖ {[fd]}) (max_fd s) (sent s))) as Hleave.
    { unfold server_ok. cbn [master_set max_fd]. split_and!; [|done|set_solver]. intros x Hx. apply Hm. set_solver. }
    destruct (received t fd) as [[|b msg]|]; [by eexists| |by eexists]. rewrite Hreply by done. unfold follows.
    change (option_list _) with [Say fd (b :: msg)]. cbn [forallb fits]. destruct (ok (b :: msg)); [|done]. by eexists.
Qed.

Lemma omap_beyond t members fd n m : (forall x, x ∈ members -> x <= m) -> m < fd -> omap (event_at server_fd t members) (seqZ fd n) = [].
Proof.
  intros Hm Hfd. assert (forall x, x ∈ seqZ fd n -> event_at server_fd t members x = None) as He.
  { intros x Hx%elem_of_seqZ. unfold event_at. destruct (ready t) as [r|]; [|done]. unfold FD_ISSET.
    rewrite bool_decide_false by (intros Hin%Hm; lia). by rewrite andb_false_r. }
  revert He. induction (seqZ fd n) as [|x l IH]; intros He; [done|]. cbn. rewrite He by by left. apply IH. intros y Hy. apply He. by right.
Qed.

Lemma events_cons t members fd : fd < FD_SETSIZE -> omap (event_at server_fd t members) (seqZ fd (FD_SETSIZE - fd)) =
  option_list (event_at server_fd t members fd) ++ omap (event_at server_fd t members) (seqZ (fd + 1) (FD_SETSIZE - (fd + 1))).
Proof using Type.
  intros Hfd. rewrite (seqZ_cons fd) by lia. replace (Z.succ fd) with (fd + 1) by lia.
  replace (Z.pred (FD_SETSIZE - fd)) with (FD_SETSIZE - (fd + 1)) by lia. cbn. by destruct (event_at server_fd t members fd).
Qed.

Lemma visit_loop_ok r t members fuel fd s : ready t = Some r -> server_ok server_fd s ->
  (forall x, x ∈ members -> x <= max_fd s) -> 0 <= fd <= FD_SETSIZE -> FD_SETSIZE - fd < Z.of_nat fuel ->
  follows (omap (event_at server_fd t members) (seqZ fd (FD_SETSIZE - fd))) s
    (visit_loop reply server_fd fuel (filter (fun fd => r fd = true) members) t fd s).
Proof using Hreply.
  intros Hr. revert fd s. induction fuel as [|fuel IH]; intros fd s Hs Hm Hfd Hfu; [lia|]. cbn [visit_loop].
  destruct (Z.leb_spec fd (max_fd s)) as [Hle|Hgt].
  2:{ rewrite (omap_beyond t members fd _ (max_fd s)) by done. by apply follows_nil. }
  assert (max_fd s < FD_SETSIZE) by apply Hs. rewrite events_cons by lia. apply follows_app; [by apply visit_ok|].
  intros s1 Hs1 Hmax _. apply IH; [done|intros x Hx%Hm; lia|lia|lia].
Qed.

Lemma no_events t members : ready t = None -> events server_fd t members = [].
Proof.
  intros Hr. unfold events. induction all_fds as [|x l IH]; [done|]. cbn. unfold event_at at 1. by rewrite Hr.
Qed.

Lemma one_turn_ok t s : server_ok server_fd s -> follows (events server_fd t (master_set s)) s (one_turn reply server_fd t s).
Proof using Hreply.
  intros Hs. unfold one_turn. destruct (ready t) as [r|] eqn:Hr.
  - unfold events, all_fds. replace (seqZ 0 FD_SETSIZE) with (seqZ 0 (FD_SETSIZE - 0)) by (by rewrite Z.sub_0_r).
    apply visit_loop_ok; [exact Hr|exact Hs|intros x Hx; by apply Hs| |].
    + unfold FD_SETSIZE. lia.
    + rewrite Nat2Z.inj_succ, Z2Nat.id; unfold FD_SETSIZE; lia.
  - rewrite no_events by done. by apply follows_nil.
Qed.

Lemma room_foldl ts r : room hears server_fd ts r = foldl (flip (happen hears)) r (room_events hears server_fd ts r).
Proof using Type.
  revert r. induction ts as [|t ts IH]; intros r; [done|]. cbn [room_events]. rewrite foldl_app. unfold room in *. rewrite foldl_step.
  unfold flip at 2. by rewrite IH.
Qed.

Lemma turns_ok ts s : server_ok server_fd s -> follows (room_events hears server_fd ts (view s)) s (turns reply server_fd ts s).
Proof using Hreply.
  revert s. induction ts as [|t ts IH]; intros s Hs; [by apply follows_nil|]. cbn [room_events turns].
  apply follows_app; [by apply one_turn_ok|]. intros s1 Hs1 _ Hv1.
  assert (room_turn hears server_fd t (view s) = view s1) as -> by exact (eq_sym Hv1). by apply IH.
Qed.

Lemma serve_ok ts : 0 <= server_fd < FD_SETSIZE ->
  if forallb (fits ok) (room_events hears server_fd ts ({[server_fd]}, []))
  then exists s, serve reply server_fd ts = Done s /\ server_ok server_fd s /\ view s = room hears server_fd ts ({[server_fd]}, [])
  else serve reply server_fd ts = Undef.
Proof using Hreply.
  intros Hfd. pose proof (turns_ok ts (start server_fd)) as Hf. unfold follows in Hf. change (view (start server_fd)) with (({[server_fd]} : gset Z), [] : list (Z * bytes)) in Hf.
  rewrite room_foldl. case_match; [|apply Hf]; [destruct Hf as (s & ? & ? & ? & _); [|by exists s]|];
    (unfold server_ok, start; cbn [master_set max_fd]; split_and!; [intros x ->%elem_of_singleton; lia|lia|set_solver]).
Qed.
End refinement.

(** ** Properties *)


(** In any run of the echo server whose descriptors are bits of its set each client is sent what it
    sent, in order and in full, also a full buffer, and nobody else's bytes. *)
Theorem echo_server_refines_room server_fd ts : 0 <= server_fd < FD_SETSIZE ->
  if forallb (fits (fun _ => true)) (room_events (fun _ fd => [fd]) server_fd ts ({[server_fd]}, []))
  then exists s, echo_server server_fd ts = Done s /\ server_ok server_fd s /\
    view s = room (fun _ fd => [fd]) server_fd ts ({[server_fd]}, [])
  else echo_server server_fd ts = Undef.
Proof. apply serve_ok. intros fd msg s Hs. done. Qed.

(** A client of the chat server that sends a full buffer at once makes it write behind its buffer. *)
Theorem chat_overflow server_fd members fd t s msg : server_ok server_fd s -> ready t = Some (fun x => x =? fd) ->
  fd ∈ master_set s -> fd <> server_fd -> received t fd = Some msg -> Z.of_nat (length msg) = BUFFER_SIZE ->
  members = filter (fun x => (x =? fd) = true) (master_set s) ->
  visit chat_reply server_fd members t fd s = Undef.
Proof.
  intros Hs Hr Hin Hne Hd Hl ->. unfold visit, FD_ISSET. rewrite bool_decide_true by (apply elem_of_filter; by rewrite Z.eqb_refl).
  cbn [negb]. rewrite (proj2 (Z.eqb_neq _ _)) by done. rewrite Hd. destruct msg; [done|]. unfold chat_reply. by rewrite Hl.
Qed.

(** two clients connect to the server on descriptor 3, and the first says something *)
Definition two_clients : list turn :=
  let only fd := Some (fun x => x =? fd) in
  [mkTurn (only 3) (Some 4) (fun _ => None); mkTurn (only 3) (Some 5) (fun _ => None);
   mkTurn (only 4) None (fun fd => if fd =? 4 then Some [x48; x69] else None)].

(** the message also goes to the socket that listens *)
Example chat_two_clients : (s ← chat_server 3 two_clients; Done (sent s)) = Done [(3, [x48; x69]); (5, [x48; x69])].
Proof. vm_compute. reflexivity. Qed.



Lemma echo_server_refines_room_witness : exists s, echo_server 3 two_clients = Done s /\ server_ok 3 s /\
  view s = room (fun _ fd => [fd]) 3 two_clients ({[3]}, []).
Proof.
  pose proof (echo_server_refines_room 3 two_clients) as H1.
  assert (forallb (fits (fun _ => true)) (room_events (fun _ fd => [fd]) 3 two_clients ({[3]}, [])) = true) as E1 by (vm_compute; reflexivity).
  rewrite E1 in H1. apply H1. unfold FD_SETSIZE. lia.
Defined.
