(* ===== verification/Poll.v ===== *)
(** * A reader that polls

    IPCs/Poll: a child sends one message through a socket (pollhup_socket.c) or a named pipe
    (hub_pipe.c), and its parent polls, reads up to 99 bytes when there is something to read,
    and stops when the other end is closed.  A state holds both processes and the channel; the
    bytes and the end of the stream arrive some time after they are sent.  A poll that times
    out changes nothing and is not an event. *)
From S2P Require Import Prelude ByteFile.

(** ** The program *)

Inductive channel := Socket | Fifo.

(** the child: before [connect] or [open], before [write], before [close], at its end *)
Inductive child_control := Before | Opened | Written | Closed.

(** the parent: in [accept], before [poll], behind it with POLLIN and POLLHUP set or not, at its end *)
Inductive parent_control := Accepting | Polling | Polled (pollin pollhup : bool) | Ended.

Record state := mkState {
  child : child_control; parent : parent_control;
  in_flight : bytes; arrived : bytes; fin : bool;   (* [fin]: the end of the stream has arrived *)
  printed : list bytes }.   (* what [printf] was given *)

(** a step of the child; the arrival of some bytes and of the end; a step of the parent, with
    the POLLHUP that a socket may report *)
Inductive event := Child | Deliver (k : nat) | Fin | Parent (hup : bool).

(** [sizeof(buffer) - 1] *)
Definition BUFFER : nat := 99.

Section poll.
Context (ch : channel) (msg : bytes).

Definition child_step (s : state) : option state :=
  match child s with
  | Before => Some (mkState Opened (parent s) (in_flight s) (arrived s) (fin s) (printed s))
  | Opened => Some (mkState Written (parent s) (in_flight s ++ msg) (arrived s) (fin s) (printed s))
  | Written => Some (mkState Closed (parent s) (in_flight s) (arrived s) (fin s) (printed s))
  | Closed => None
  end.

Definition deliver (k : nat) (s : state) : option state :=
  if (0 <? k)%nat && (k <=? length (in_flight s))%nat
  then Some (mkState (child s) (parent s) (drop k (in_flight s)) (arrived s ++ take k (in_flight s)) (fin s) (printed s))
  else None.

Definition deliver_fin (s : state) : option state :=
  match child s, in_flight s, fin s with
  | Closed, [], false => Some (mkState (child s) (parent s) [] (arrived s) true (printed s))
  | _, _, _ => None
  end.

Definition nonempty (d : bytes) : bool := match d with [] => false | _ => true end.

(** POLLIN: there is something to read; a socket has it at the end of the stream as well *)
Definition pollin (s : state) : bool := nonempty (arrived s) || match ch with Socket => fin s | Fifo => false end.

(** [poll]: POLLHUP is set for a pipe when its other end is closed; for a socket it may be *)
Definition poll (hup : bool) (s : state) : option state :=
  let hup := match ch with Socket => hup && fin s | Fifo => fin s end in
  if pollin s || hup then Some (mkState (child s) (Polled (pollin s) hup) (in_flight s) (arrived s) (fin s) (printed s)) else None.

(** the rest of the loop: the [read], if POLLIN is set, and the test of POLLHUP *)
Definition react (pin hup : bool) (s : state) : state :=
  let next := if hup then Ended else Polling in
  if pin then
    match take BUFFER (arrived s) with
    | [] => mkState (child s) (match ch with Socket => Ended | Fifo => next end) (in_flight s) (arrived s) (fin s) (printed s)
    | d => mkState (child s) next (in_flight s) (drop BUFFER (arrived s)) (fin s) (printed s ++ [d])
    end
  else mkState (child s) next (in_flight s) (arrived s) (fin s) (printed s).

Definition parent_step (hup : bool) (s : state) : option state :=
  match parent s with
  | Accepting => match child s with
                 | Before => None
                 | _ => Some (mkState (child s) Polling (in_flight s) (arrived s) (fin s) (printed s))
                 end
  | Polling => poll hup s
  | Polled pin hup => Some (react pin hup s)
  | Ended => None
  end.

Definition exec (e : event) : state -> option state :=
  match e with Child => child_step | Deliver k => deliver k | Fin => deliver_fin | Parent hup => parent_step hup end.

Fixpoint run (events : list event) (s : state) : option state :=
  match events with [] => Some s | e :: events => s' ← exec e s; run events s' end.

(** the parent of the pipe opens it without waiting *)
Definition start : state := mkState Before (match ch with Socket => Accepting | Fifo => Polling end) [] [] false [].
End poll.

(** the messages: the socket gets the text, the pipe the array with its NUL *)
Definition hello : bytes := String.list_byte_of_string "Hello! This is child process".
Definition message (ch : channel) : bytes := match ch with Socket => hello | Fifo => hello ++ [x00] end.

(** what the parent has printed *)
Definition output (s : state) : bytes := concat (c_text <$> printed s).

(** ** Lemmas *)

Section lemmas.
Context (ch : channel) (msg : bytes).

Definition unsent (s : state) : bytes := match child s with Before | Opened => msg | _ => [] end.

(** nothing is lost or exchanged, and what the parent has seen still holds *)
Definition sound (s : state) : Prop :=
  concat (printed s) ++ arrived s ++ in_flight s ++ unsent s = msg /\
  (fin s = true -> child s = Closed /\ in_flight s = []) /\
  match parent s with
  | Accepting | Polling => True
  | Polled pin hup => (pin = true -> nonempty (arrived s) = true \/ fin s = true /\ ch = Socket) /\
      (hup = true -> fin s = true /\ (nonempty (arrived s) = true -> pin = true)) /\ (pin || hup = true)
  | Ended => fin s = true /\ arrived s = []
  end.

Lemma sound_start : sound (start ch).
Proof. unfold sound, start. simpl. split_and!; [done|done|]. by destruct ch. Qed.

Lemma nonempty_app a b : nonempty a = true -> nonempty (a ++ b) = true.
Proof. by destruct a. Qed.

Lemma sound_child s s' : sound s -> child_step msg s = Some s' -> sound s'.
Proof.
  intros (Hm & Hf & Hp). unfold child_step, sound, unsent in *. destruct (child s) eqn:Hc; [| | |done]; intros [= <-];
    cbn [child parent in_flight arrived fin printed]; (split; [etransitivity; [|exact Hm]; by rewrite ?app_nil_r, <- ?app_assoc|split; [|done]]).
  - intros H. by destruct (Hf H).
  - intros H. by destruct (Hf H).
  - intros H. by destruct (Hf H).
Qed.

Lemma sound_deliver k s s' : sound s -> deliver k s = Some s' -> sound s'.
Proof.
  intros (Hm & Hf & Hp). unfold deliver, sound, unsent in *. destruct (0 <? k)%nat eqn:Hk, (k <=? length (in_flight s))%nat eqn:Hl; try done.
  intros [= <-]. cbn [child parent in_flight arrived fin printed andb] in *.
  apply Nat.ltb_lt in Hk. apply Nat.leb_le in Hl. split_and!.
  - etransitivity; [|exact Hm]. rewrite <- (take_drop k (in_flight s)) at 3. by rewrite <- !app_assoc.
  - intros H. destruct (Hf H) as [_ Hn]. rewrite Hn in Hl. simpl in Hl. lia.
  - assert (fin s <> true) as Hnf by (intros H; destruct (Hf H) as [_ Hn]; rewrite Hn in Hl; simpl in Hl; lia).
    destruct (parent s) as [| |pin hup|]; [done|done| |by destruct Hp].
    destruct Hp as (Hin & Hhup & Hor). split_and!; [|by intros H; destruct (Hhup H)|done].
    intros H. destruct (Hin H) as [Hne|[Hfin _]]; [left; by apply nonempty_app|done].
Qed.

Lemma sound_fin s s' : sound s -> deliver_fin s = Some s' -> sound s'.
Proof.
  intros (Hm & Hf & Hp). unfold deliver_fin, sound, unsent in *. destruct (child s) eqn:Hc; try done.
  destruct (in_flight s) eqn:Hi; [|done]. destruct (fin s) eqn:Hfin; [done|]. intros [= <-].
  cbn [child parent in_flight arrived fin printed]. split_and!; [done|done|].
  destruct (parent s) as [| |pin hup|]; [done|done| |by destruct Hp]. destruct Hp as (Hin & Hhup & Hor).
  split_and!; [|by intros H; destruct (Hhup H)|done]. intros H. destruct (Hin H) as [|[]]; [by left|done].
Qed.

(** a message that fits the buffer is read as a whole *)
Lemma sound_parent hup s s' : (length msg <= BUFFER)%nat -> sound s -> parent_step ch hup s = Some s' -> sound s'.
Proof.
  intros Hlen (Hm & Hf & Hp). unfold parent_step, sound, unsent in *. destruct (parent s) as [| |pin h|] eqn:Hpar; [| | |done].
  - destruct (child s); try done; intros [= <-]; by split_and!.
  - unfold poll. set (h := match ch with Socket => hup && fin s | Fifo => fin s end).
    destruct (pollin ch s || h) eqn:Hor; [|done]. intros [= <-]. cbn [child parent in_flight arrived fin printed]. split_and!; [done|done| | |done].
    + unfold pollin. intros [Hne|Hs]%orb_true_iff; [by left|]. destruct ch; [by right|done].
    + intros Hh. assert (fin s = true) as Hfin by (unfold h in Hh; destruct ch; [by apply andb_true_iff in Hh as [_ ->]|done]).
      split; [done|]. unfold pollin. by intros ->.
  - destruct Hp as (Hin & Hhup & Hor). intros [= <-]. unfold react.
    assert (length (arrived s) <= BUFFER)%nat as Hla.
    { rewrite <- Hm in Hlen. rewrite !length_app in Hlen. lia. }
    rewrite take_ge, drop_ge by done. destruct pin.
    + destruct (arrived s) as [|b d] eqn:Ha; cbn [child parent in_flight arrived fin printed].
      * destruct (Hin eq_refl) as [|[Hfin ->]]; [done|]. by split_and!.
      * rewrite concat_app. cbn [concat app]. rewrite app_nil_r, <- app_assoc. split_and!; [done|done|].
        destruct h; [|done]. by destruct (Hhup eq_refl).
    + destruct h; [|done]. destruct (Hhup eq_refl) as [Hfin Hne]. cbn [child parent in_flight arrived fin printed].
      split_and!; [done|done|done|]. destruct (arrived s); [done|]. by specialize (Hne eq_refl).
Qed.

Lemma sound_run events s s' : (length msg <= BUFFER)%nat -> sound s -> run ch msg events s = Some s' -> sound s'.
Proof.
  intros Hlen. revert s. induction events as [|e events IH]; intros s Hs; cbn [run]; [by intros [= <-]|].
  destruct (exec ch msg e s) as [s1|] eqn:He; [|done]. cbn. apply IH. destruct e; cbn [exec] in He;
    eauto using sound_child, sound_deliver, sound_fin, sound_parent.
Qed.

(** the events that are left *)
Definition events_left (s : state) : nat :=
  match child s with Before => 3 | Opened => 2 | Written => 1 | Closed => 0 end + (if fin s then 0 else 1) +
  4 * length (unsent s) + 4 * length (in_flight s) + 3 * length (arrived s) +
  match parent s with Accepting => 3 | Polling => 2 | Polled _ _ => 1 | Ended => 0 end.

Lemma react_left pin hup s : pin || hup = true -> (pin = true -> nonempty (arrived s) = true \/ ch = Socket) -> parent s = Polled pin hup ->
  (events_left (react ch pin hup s) < events_left s)%nat.
Proof.
  intros Hor Hin Hp. unfold react, events_left, unsent. rewrite Hp. destruct pin.
  - destruct (arrived s) as [|b d] eqn:Ha.
    + destruct (Hin eq_refl) as [|Hch]; [done|]. rewrite Hch. simpl. lia.
    + simpl take. cbn [child parent in_flight arrived fin printed]. rewrite length_drop. unfold BUFFER. simpl. destruct hup; lia.
  - destruct hup; [|done]. simpl. lia.
Qed.

Lemma events_left_exec e s s' : sound s -> exec ch msg e s = Some s' -> (events_left s' < events_left s)%nat.
Proof.
  intros (_ & Hf & Hs). destruct e as [|k| |hup]; cbn [exec].
  - unfold child_step, events_left, unsent. destruct (child s) eqn:Hc; [| | |done]; intros [= <-];
      cbn [child parent in_flight arrived fin printed]; rewrite ?length_app; simpl; lia.
  - unfold deliver, events_left, unsent. destruct (0 <? k)%nat eqn:Hk, (k <=? length (in_flight s))%nat eqn:Hl; try done. intros [= <-].
    apply Nat.ltb_lt in Hk. apply Nat.leb_le in Hl. cbn [child parent in_flight arrived fin printed].
    rewrite length_app, length_drop, length_take. lia.
  - unfold deliver_fin, events_left, unsent. destruct (child s) eqn:Hc; try done. destruct (in_flight s) eqn:Hi; [|done].
    destruct (fin s); [done|]. intros [= <-]. simpl. lia.
  - unfold parent_step. destruct (parent s) as [| |pin h|] eqn:Hp; [| | |done].
    + destruct (child s) eqn:Hc; try done; intros [= <-]; unfold events_left, unsent; cbn [child parent in_flight arrived fin printed];
        rewrite Hp, ?Hc; lia.
    + unfold poll. destruct (pollin ch s || _); [|done]. intros [= <-]. unfold events_left, unsent. cbn [child parent in_flight arrived fin printed].
      rewrite Hp. lia.
    + intros [= <-]. destruct Hs as (Hin & _ & Hor). apply react_left; [done| |done]. intros H. destruct (Hin H) as [|[]]; tauto.
Qed.

Lemma run_bound events s s' : (length msg <= BUFFER)%nat -> sound s -> run ch msg events s = Some s' ->
  (length events + events_left s' <= events_left s)%nat.
Proof.
  intros Hlen. revert s. induction events as [|e events IH]; intros s Hs; cbn [run]; [by intros [= <-]|].
  destruct (exec ch msg e s) as [s1|] eqn:He; [|done]. cbn. intros Hr. pose proof (events_left_exec e s s1 Hs He).
  assert (run ch msg [e] s = Some s1) as H1 by (cbn [run]; by rewrite He).
  specialize (IH s1 (sound_run [e] s s1 Hlen Hs H1) Hr). cbn [length]. lia.
Qed.

(** when nothing can happen any more, the parent has ended *)
Lemma stuck_ended s : sound s -> (forall e, exec ch msg e s = None) -> child s = Closed /\ parent s = Ended.
Proof.
  intros (_ & Hf & Hs) Hno. assert (child s = Closed) as Hc.
  { specialize (Hno Child). cbn [exec] in Hno. unfold child_step in Hno. by destruct (child s). }
  split; [done|]. assert (in_flight s = []) as Hi.
  { specialize (Hno (Deliver (length (in_flight s)))). cbn [exec] in Hno. unfold deliver in Hno. rewrite Nat.leb_refl in Hno.
    destruct (in_flight s); [done|]. by simpl in Hno. }
  assert (fin s = true) as Hfin.
  { specialize (Hno Fin). cbn [exec] in Hno. unfold deliver_fin in Hno. rewrite Hc, Hi in Hno. by destruct (fin s). }
  specialize (Hno (Parent true)). cbn [exec] in Hno. unfold parent_step in Hno. destruct (parent s) as [| |pin h|] eqn:Hp; [| | |done].
  - by rewrite Hc in Hno.
  - unfold poll in Hno. rewrite Hfin in Hno. destruct ch; rewrite orb_true_r in Hno; done.
  - done.
Qed.
End lemmas.

(** the chunks that are printed, for a text that may end with a NUL *)
Lemma concat_c_text chunks t z : x00 ∉ t -> z = [] \/ z = [x00] -> concat chunks = t ++ z -> concat (c_text <$> chunks) = t.
Proof.
  revert t. induction chunks as [|c chunks IH]; intros t Ht Hz; cbn [concat fmap list_fmap]; intros He.
  { symmetry in He. by apply app_eq_nil in He as [-> _]. }
  destruct (decide (length c <= length t)%nat) as [Hle|Hgt].
  - assert (exists t', t = c ++ t') as [t' ->].
    { exists (drop (length c) t). rewrite <- (take_drop (length c) t) in He at 1. rewrite <- app_assoc in He.
      apply app_inj_1 in He as [Hc _]; [|rewrite length_take; lia]. rewrite Hc at 1. by rewrite take_drop. }
    apply not_elem_of_app in Ht as [Hc Ht]. rewrite <- app_assoc in He. apply app_inv_head in He.
    rewrite <- (app_nil_r c) at 1. rewrite c_text_app, <- app_assoc by done. cbn [c_text app]. f_equal. by apply IH.
  - assert (length z <= 1)%nat as Hz1 by (destruct Hz as [-> | ->]; simpl; lia).
    pose proof (f_equal length He) as Hl. rewrite !length_app in Hl.
    assert (concat chunks = []) as Hn by (apply nil_length_inv; lia). rewrite Hn, app_nil_r in He. subst c.
    rewrite c_text_app by done. assert (c_text z = []) as -> by (destruct Hz as [-> | ->]; done).
    assert (concat (c_text <$> chunks) = []) as ->; [|by rewrite !app_nil_r].
    assert (Forall (fun c => c = []) chunks) as Hall.
    { clear -Hn. induction chunks as [|c chunks IH]; [constructor|]. apply app_eq_nil in Hn as [-> Hn]. constructor; [done|by apply IH]. }
    clear -Hall. by induction Hall as [|c chunks -> _ IH].
Qed.

(** ** Properties *)

(** In every run the programs end, after at most as many events as [events_left] says, with the parent at
    its end when nothing can happen any more; and when the parent ends, it has printed the message of the
    child, whole, in order and once, however the bytes arrive and whenever POLLHUP is seen. *)
Theorem parent_prints_message ch events s : run ch (message ch) events (start ch) = Some s ->
  (length events <= events_left (message ch) (start ch))%nat /\
  ((forall e, exec ch (message ch) e s = None) -> child s = Closed /\ parent s = Ended) /\
  (parent s = Ended -> output s = hello).
Proof.
  intros Hr. assert (length (message ch) <= BUFFER)%nat as Hlen by (destruct ch; by apply Nat.leb_le).
  pose proof (sound_start ch (message ch)) as Hs0. pose proof (sound_run ch _ events _ s Hlen Hs0 Hr) as Hs. split; [|split].
  - pose proof (run_bound ch _ events _ s Hlen Hs0 Hr). lia.
  - by eapply stuck_ended.
  - intros He. destruct Hs as (Hm & Hf & Hp). rewrite He in Hp. destruct Hp as [Hfin Ha]. destruct (Hf Hfin) as [Hc Hi].
    unfold unsent in Hm. rewrite Hc, Hi, Ha, !app_nil_r in Hm. unfold output.
    apply concat_c_text with (match ch with Socket => [] | Fifo => [x00] end).
    + by apply (bool_decide_eq_true_1 _).
    + destruct ch; [by left|by right].
    + rewrite Hm. by destruct ch.
Qed.

(** the message arrives in two parts, and the second together with the end *)
Definition two_parts : list event := [Child; Child; Deliver 5; Parent false; Parent false; Parent false; Child; Deliver 23; Fin; Parent true; Parent true].

Lemma parent_prints_message_witness : exists s, run Socket (message Socket) two_parts (start Socket) = Some s /\ parent s = Ended /\ output s = hello.
Proof.
  assert (parent <$> run Socket (message Socket) two_parts (start Socket) = Some Ended) as Hp by by vm_compute.
  destruct (run Socket (message Socket) two_parts (start Socket)) as [s|] eqn:Hr; [|done]. injection Hp as Hp.
  exists s. split; [done|]. split; [done|]. by apply (parent_prints_message Socket two_parts).
Defined.

(** A longer message can be cut: when POLLHUP is seen with 100 bytes there, the last is not read. *)
Example hup_cuts : (fun s => (parent s, length (concat (printed s)))) <$>
  run Fifo (replicate 100 "a"%byte) [Child; Child; Deliver 100; Child; Fin; Parent true; Parent true] (start Fifo) = Some (Ended, 99%nat).
Proof. by vm_compute. Qed.
