(* ===== verification/Multiplex.v ===== *)
(** * Polling the keyboard and a file

    IPCs/SharedMemory/multiplexing-poll.c: one loop over [poll] on the standard input and on a
    regular file, which is always ready.  A turn is one [poll] with what has been typed since
    the last one.  [printf] prints up to the first NUL. *)
From S2P Require Import Prelude CString.

(** ** The program *)

Definition BUFFER_SIZE : nat := 100.

(** what [poll] returns: an error, or the descriptors that are ready; [arrived] is new input *)
Inductive turn := PollFails | Polled (arrived : string).

Inductive line := Monitoring | Typed (s : string) | Content (s : string) | OpenError | PollError.

(** [read] into [buffer] and the [printf] behind it, if there was something *)
Definition read_print (print : string -> line) (s : string) : list line * string :=
  match s with
  | EmptyString => ([], EmptyString)
  | _ => let p := span (BUFFER_SIZE - 1) (fun _ => true) s in ([print (cut (is_char 0) p.1)], p.2)
  end.

(** the loop, with what waits to be read on each of the two; the flag: it goes on *)
Fixpoint poll_loop (turns : list turn) (pending rest : string) : list line * (string * string) * bool :=
  match turns with
  | [] => ([], (pending, rest), true)
  | PollFails :: _ => ([PollError], (pending, rest), false)
  | Polled arrived :: turns =>
      let k := read_print Typed (pending +:+ arrived) in
      let f := read_print Content rest in
      let '(out, s, go_on) := poll_loop turns k.2 f.2 in
      (k.1 ++ f.1 ++ out, s, go_on)
  end.

(** [main]; [file]: what test.txt holds, if it can be opened; the last component is the value
    that is returned, when the loop has ended *)
Definition main (file : option string) (turns : list turn) : list line * option Z :=
  match file with
  | None => ([OpenError], Some 1)
  | Some content =>
      let '(out, _, go_on) := poll_loop turns "" content in
      (Monitoring :: out, if go_on : bool then None else Some 0)
  end.

(** ** Lemmas *)

Definition no_nul (s : string) : Prop := str_all (fun a => negb (is_char 0 a)) s = true.

Definition typed_part (l : list line) : string := foldr (fun x s => match x with Typed t => t +:+ s | _ => s end) "" l.
Definition content_part (l : list line) : string := foldr (fun x s => match x with Content t => t +:+ s | _ => s end) "" l.

Definition all_arrived (turns : list turn) : string := foldr (fun t s => match t with Polled a => a +:+ s | _ => s end) "" turns.

Lemma typed_app l1 l2 : typed_part (l1 ++ l2) = typed_part l1 +:+ typed_part l2.
Proof. unfold typed_part. induction l1 as [|[] l1 IH]; cbn in *; rewrite ?IH, ?str_app_assoc; done. Qed.

Lemma content_app l1 l2 : content_part (l1 ++ l2) = content_part l1 +:+ content_part l2.
Proof. unfold content_part. induction l1 as [|[] l1 IH]; cbn in *; rewrite ?IH, ?str_app_assoc; done. Qed.

Lemma span_parts n s : (span n (fun _ => true) s).1 +:+ (span n (fun _ => true) s).2 = s.
Proof.
  revert s. induction n as [|n IH]; intros [|a s]; try done. cbn [span]. specialize (IH s). destruct (span n _ s) as [t r]. cbn in *. by rewrite IH.
Qed.

Lemma span_rest_length n s : strlen (span n (fun _ => true) s).2 = (strlen s - n)%nat.
Proof.
  revert s. induction n as [|n IH]; intros [|a s]; try done. cbn [span]. specialize (IH s). destruct (span n _ s) as [t r]. cbn in *. lia.
Qed.

(** a read prints what it takes: nothing is lost, and at most 99 characters stay behind less *)
Lemma read_print_parts print s : no_nul s ->
  (exists t, (read_print print s).1 = (if streq s "" then [] else [print t]) /\ t +:+ (read_print print s).2 = s) /\
  no_nul (read_print print s).2 /\ strlen (read_print print s).2 = (strlen s - (BUFFER_SIZE - 1))%nat.
Proof.
  intros Hs. destruct s as [|a s']; [split; [by exists ""|done]|]. remember (String a s') as s eqn:He.
  assert (read_print print s = ([print (cut (is_char 0) (span (BUFFER_SIZE - 1) (fun _ => true) s).1)], (span (BUFFER_SIZE - 1) (fun _ => true) s).2)) as ->
    by by rewrite He.
  cbn [fst snd]. pose proof (span_parts (BUFFER_SIZE - 1) s) as Hp. pose proof (span_rest_length (BUFFER_SIZE - 1) s) as Hl.
  destruct (span (BUFFER_SIZE - 1) _ s) as [t r]. cbn [fst snd] in *. unfold no_nul in *. rewrite <- Hp, str_all_app in Hs. apply andb_true_iff in Hs as [Ht Hr].
  split; [|done]. exists t. rewrite cut_id by done. split; [|done]. rewrite (proj2 (streq_false _ _)); [done|]. by rewrite He.
Qed.

Lemma typed_read s : no_nul s -> typed_part (read_print Typed s).1 +:+ (read_print Typed s).2 = s /\ content_part (read_print Typed s).1 = "".
Proof.
  intros Hs. destruct (read_print_parts Typed s Hs) as [(t & -> & Ht) _]. destruct (streq s "") eqn:He; cbn.
  - by apply streq_spec in He as ->.
  - by rewrite str_app_nil_r.
Qed.

Lemma content_read s : no_nul s -> content_part (read_print Content s).1 +:+ (read_print Content s).2 = s /\ typed_part (read_print Content s).1 = "".
Proof.
  intros Hs. destruct (read_print_parts Content s Hs) as [(t & -> & Ht) _]. destruct (streq s "") eqn:He; cbn.
  - by apply streq_spec in He as ->.
  - by rewrite str_app_nil_r.
Qed.

Definition all_polled (turns : list turn) : Prop := Forall (fun t => t <> PollFails) turns.

Lemma poll_loop_ok turns pending rest : all_polled turns -> no_nul (all_arrived turns) -> no_nul pending -> no_nul rest ->
  let '(out, (p, r), go_on) := poll_loop turns pending rest in
  go_on = true /\ typed_part out +:+ p = pending +:+ all_arrived turns /\ content_part out +:+ r = rest /\
  strlen r = (strlen rest - length turns * (BUFFER_SIZE - 1))%nat.
Proof.
  intros Ha. revert pending rest. induction Ha as [|t turns Ht _ IH]; intros pending rest Hn Hp Hr.
  - cbn. split_and!; [done|by rewrite str_app_nil_r|done|lia].
  - destruct t as [|arrived]; [done|]. cbn [poll_loop]. unfold no_nul in Hn. cbn [all_arrived foldr] in Hn. fold (all_arrived turns) in Hn.
    rewrite str_all_app in Hn. apply andb_true_iff in Hn as [Hna Hn].
    assert (no_nul (pending +:+ arrived)) as Hpa by (unfold no_nul; rewrite str_all_app, Hna; by apply andb_true_iff).
    destruct (typed_read _ Hpa) as [Et Ec]. destruct (content_read _ Hr) as [Fc Ft].
    destruct (read_print_parts Typed _ Hpa) as (_ & Hk & _). destruct (read_print_parts Content _ Hr) as (_ & Hf & Hl).
    specialize (IH _ _ Hn Hk Hf). destruct (poll_loop turns _ _) as [[out [p r]] go_on]. destruct IH as (-> & I1 & I2 & I3).
    rewrite !typed_app, !content_app, Ec, Ft. cbn [String.append]. cbn [all_arrived foldr length]. fold (all_arrived turns). split_and!; [done| | |].
    + rewrite str_app_assoc, I1, <- str_app_assoc, Et. by rewrite str_app_assoc.
    + by rewrite str_app_assoc, I2.
    + rewrite I3, Hl. lia.
Qed.

(** ** Properties *)

(** As long as [poll] does not fail the loop goes on, whether or not there is anything left to
    read: everything that is typed is printed in order up to what still waits, and the
    file is printed piece by piece, all of it after one turn per 99 characters, and only once. *)
Theorem multiplex_correct content turns : all_polled turns -> no_nul (all_arrived turns) -> no_nul content ->
  exists out, main (Some content) turns = (Monitoring :: out, None) /\
  (exists waits, typed_part out +:+ waits = all_arrived turns) /\
  (exists rest, content_part out +:+ rest = content /\ ((strlen content <= length turns * 99)%nat -> rest = "")).
Proof.
  intros Ha Hn Hc. pose proof (poll_loop_ok turns "" content Ha Hn eq_refl Hc) as H. unfold main.
  destruct (poll_loop turns "" content) as [[out [p r]] go_on]. destruct H as (-> & H1 & H2 & H3). exists out. split_and!; [done|by exists p|].
  exists r. split; [done|]. intros Hl. unfold BUFFER_SIZE in H3. assert (strlen r = 0%nat) as Hz by lia. by destruct r.
Qed.

(** the loop ends when [poll] fails, and only then *)
Lemma poll_error content turns turns' : all_polled turns -> (main (Some content) (turns ++ PollFails :: turns')).2 = Some 0.
Proof.
  intros Ha. unfold main. cbn [snd]. assert (forall p r, (poll_loop (turns ++ PollFails :: turns') p r).2 = false) as H.
  { induction Ha as [|t turns Ht _ IH]; intros p r; [done|]. destruct t as [|a]; [done|]. cbn [app poll_loop].
    specialize (IH (read_print Typed (p +:+ a)).2 (read_print Content r).2). by destruct (poll_loop _ _ _) as [[? ?] ?]. }
  specialize (H "" content). destruct (poll_loop _ "" content) as [[? ?] ?]. cbn in *. by rewrite H.
Qed.

Lemma multiplex_correct_witness : exists out, main (Some "abc") [Polled "x"; Polled ""; Polled "yz"] = (Monitoring :: out, None) /\ content_part out = "abc".
Proof.
  destruct (multiplex_correct "abc" [Polled "x"; Polled ""; Polled "yz"]) as (out & Hm & _ & rest & Hr & Hz); [by repeat constructor|done|done|].
  exists out. split; [done|]. rewrite Hz in Hr by (cbn; lia). by rewrite str_app_nil_r in Hr.
Defined.
