(* ===== verification/EventFiles.v ===== *)
(** * Polling several files

    EBFP/ebfp.c: a loop over [poll] on three files until each is at its end.  A turn is what
    one [poll] answers; a descriptor that was closed is -1, which [poll] passes over.  Only the
    number of bytes is printed, so a file is the number of bytes that are left. *)
From S2P Require Import Prelude.

(** ** The program *)

Definition MAX_FILES : nat := 3.
Definition BUFFER_SIZE : nat := 64.

(** a descriptor: whether it is open, and what is left to read *)
Record file := mkFile { is_open : bool; left_ : nat }.

(** [revents] and [read]: not ready; ready; ready, but [read] fails *)
Inductive revent := NotReady | Readable | Broken.

Inductive turn := PollError | PollTimeout | PollReady (l : list revent).

Inductive line := CannotOpen (i : nat) | PollFailed | NoData | ReadBytes (i n : nat) | ClosedFile (i : nat).

(** the body of the loop over the descriptors *)
Definition read_one (i : nat) (e : revent) (f : file) : list line * file :=
  let closed := ([ClosedFile i], mkFile false (left_ f)) in
  if negb (is_open f) then ([], f) else
  match e with
  | NotReady => ([], f)
  | Broken => closed
  | Readable =>
      let bytes := (BUFFER_SIZE `min` left_ f)%nat in
      if (bytes =? 0)%nat then closed else ([ReadBytes i bytes], mkFile true (left_ f - bytes))
  end.

(** the loop over the descriptors from [i] on, with [active] *)
Fixpoint read_files (i : nat) (l : list revent) (fs : list file) (active : Z) : list line * list file * Z :=
  match fs with
  | [] => ([], [], active)
  | f :: fs =>
      let '(out, f') := read_one i (default NotReady (head l)) f in
      let active := if is_open f && negb (is_open f') then active - 1 else active in
      let '(out', fs', active) := read_files (S i) (tail l) fs active in
      (out ++ out', f' :: fs', active)
  end.

(** the loop; the flag: it has ended *)
Fixpoint poll_files (turns : list turn) (fs : list file) (active : Z) : list line * list file * bool :=
  if active >? 0 then
    match turns with
    | [] => ([], fs, false)
    | PollError :: _ => ([PollFailed], fs, true)
    | PollTimeout :: turns => let '(out, fs, over) := poll_files turns fs active in (NoData :: out, fs, over)
    | PollReady l :: turns =>
        let '(out, fs, active) := read_files 0 l fs active in
        let '(out', fs, over) := poll_files turns fs active in
        (out ++ out', fs, over)
    end
  else ([], fs, true).

(** the files one after the other, [None] for one that cannot be opened *)
Fixpoint open_files (i : nat) (sizes : list (option nat)) : nat + list file :=
  match sizes with
  | [] => inr []
  | None :: _ => inl i
  | Some n :: sizes => match open_files (S i) sizes with inl j => inl j | inr fs => inr (mkFile true n :: fs) end
  end.

(** what is printed, and the status, once the program has ended *)
Definition main (sizes : list (option nat)) (turns : list turn) : list line * option Z :=
  match open_files 0 sizes with
  | inl i => ([CannotOpen i], Some 1)
  | inr fs => let '(out, _, over) := poll_files turns fs (Z.of_nat MAX_FILES) in (out, if over : bool then Some 0 else None)
  end.

(** ** Specification *)

(** what the lines say about file [i] *)
Definition bytes_of (i : nat) (l : list line) : nat :=
  sum_list_with (fun x => match x with ReadBytes j n => if (j =? i)%nat then n else 0 | _ => 0 end%nat) l.
Definition closings (i : nat) (l : list line) : nat :=
  sum_list_with (fun x => match x with ClosedFile j => if (j =? i)%nat then 1 else 0 | _ => 0 end%nat) l.

(** how many of the descriptors are open *)
Definition open_count (fs : list file) : Z := Z.of_nat (sum_list_with (fun f => if is_open f then 1 else 0)%nat fs).

(** turns of regular files: always ready, and [read] does not fail *)
Definition all_ready : turn := PollReady (replicate MAX_FILES Readable).

(** what one file [f] becomes when the lines [out] are printed *)
Definition file_ok (i : nat) (out : list line) (f f' : file) : Prop :=
  (bytes_of i out + left_ f' = left_ f)%nat /\ (closings i out = if is_open f && negb (is_open f') then 1 else 0)%nat /\
  (is_open f' = true -> is_open f = true).

(** [poll] does not fail *)
Definition no_error (t : turn) : Prop := t <> PollError.

(** [k] turns in which all are ready suffice: one turn reads 64 bytes, or the rest, or closes *)
Definition turns_left (fs : list file) (k : nat) : Prop :=
  Forall (fun f => is_open f = true -> (left_ f + BUFFER_SIZE <= BUFFER_SIZE * k)%nat) fs.

(** no [read] fails *)
Definition reads_work (t : turn) : Prop := match t with PollReady l => Broken ∉ l | _ => True end.

(** what is closed has been read to its end *)
Definition read_through (fs : list file) : Prop := Forall (fun f => is_open f = false -> left_ f = 0%nat) fs.

(** ** Lemmas *)

(** a file behind one turn: nothing is lost, and it is closed at most once *)
Lemma read_one_ok i e f out f' : read_one i e f = (out, f') ->
  (bytes_of i out + left_ f' = left_ f)%nat /\ (closings i out = if is_open f && negb (is_open f') then 1 else 0)%nat /\
  (is_open f' = true -> is_open f = true) /\ (forall j, j <> i -> bytes_of j out = 0 /\ closings j out = 0)%nat.
Proof.
  unfold read_one. destruct f as [[] n]; cbn [is_open left_ negb]; [|by intros [= <- <-]].
  destruct e; [intros [= <- <-]; by split_and!| |].
  - set (n' := (BUFFER_SIZE `min` n)%nat). assert (n' <= n)%nat by (subst n'; lia). clearbody n'.
    destruct (Nat.eqb_spec n' 0) as [Hz|Hz]; intros [= <- <-]; unfold bytes_of, closings; cbn;
      rewrite ?Nat.eqb_refl; (split_and!; [lia|done|done|]); intros j Hj; by rewrite ?(proj2 (Nat.eqb_neq i j)).
  - intros [= <- <-]. unfold bytes_of, closings. cbn. rewrite Nat.eqb_refl.
    split_and!; [lia|done|done|]. intros j Hj. by rewrite (proj2 (Nat.eqb_neq i j)).
Qed.

Lemma bytes_app i l1 l2 : bytes_of i (l1 ++ l2) = (bytes_of i l1 + bytes_of i l2)%nat.
Proof. apply sum_list_with_app. Qed.

Lemma closings_app i l1 l2 : closings i (l1 ++ l2) = (closings i l1 + closings i l2)%nat.
Proof. apply sum_list_with_app. Qed.

Lemma open_cons f fs : open_count (f :: fs) = (if is_open f then 1 else 0) + open_count fs.
Proof. unfold open_count. cbn [sum_list_with]. destruct (is_open f); lia. Qed.

Lemma file_ok_app i out1 out2 f1 f2 f3 : file_ok i out1 f1 f2 -> file_ok i out2 f2 f3 -> file_ok i (out1 ++ out2) f1 f3.
Proof.
  intros (B1 & C1 & O1) (B2 & C2 & O2). unfold file_ok. rewrite bytes_app, closings_app. split_and!; [lia| |auto].
  rewrite C1, C2. destruct (is_open f1), (is_open f2), (is_open f3); cbn; try done; exfalso; by (specialize (O1 eq_refl) || specialize (O2 eq_refl)).
Qed.

Lemma read_files_ok l fs : forall i active, let '(out, fs', active') := read_files i l fs active in
  length fs' = length fs /\ active' + open_count fs = active + open_count fs' /\
  (forall k f f', fs !! k = Some f -> fs' !! k = Some f' -> file_ok (i + k) out f f') /\
  (forall j, (j < i)%nat -> bytes_of j out = 0 /\ closings j out = 0)%nat.
Proof.
  revert l. induction fs as [|f fs IH]; intros l i active; [cbn; by split_and!|]. cbn [read_files].
  destruct (read_one i (default NotReady (head l)) f) as [out f'] eqn:Hr. destruct (read_one_ok _ _ _ _ _ Hr) as (B & C & O & N).
  specialize (IH (tail l) (S i) (if is_open f && negb (is_open f') then active - 1 else active)).
  destruct (read_files (S i) (tail l) fs _) as [[out' fs'] active']. destruct IH as (Hl & Ha & Hk & Hj).
  cbn [length]. rewrite !open_cons. split_and!; [lia| | |].
  - destruct (is_open f), (is_open f'); cbn [andb negb] in *; try lia; by specialize (O eq_refl).
  - intros [|k] g g' Hg Hg'; cbn in Hg, Hg'.
    + injection Hg as <-. injection Hg' as <-. rewrite Nat.add_0_r. destruct (Hj i ltac:(lia)) as [Hb Hc].
      unfold file_ok. rewrite bytes_app, closings_app, Hb, Hc, !Nat.add_0_r. by split_and!.
    + replace (i + S k)%nat with (S i + k)%nat by lia. destruct (Hk k g g' Hg Hg') as (B' & C' & O').
      destruct (N (S i + k)%nat ltac:(lia)) as [Hb Hc]. unfold file_ok. rewrite bytes_app, closings_app, Hb, Hc. by split_and!.
  - intros j Hlt. rewrite bytes_app, closings_app. destruct (N j ltac:(lia)) as [-> ->], (Hj j ltac:(lia)) as [-> ->]. done.
Qed.

(** the whole loop; it is over when no descriptor is open *)
Lemma poll_files_ok turns fs : Forall no_error turns -> let '(out, fs', over) := poll_files turns fs (open_count fs) in
  length fs' = length fs /\ (over = true <-> open_count fs' = 0) /\
  forall k f f', fs !! k = Some f -> fs' !! k = Some f' -> file_ok k out f f'.
Proof.
  intros Ht. revert fs. induction Ht as [|t turns Hne _ IH]; intros fs; cbn [poll_files].
  all: assert (forall k f f', fs !! k = Some f -> fs !! k = Some f' -> file_ok k [] f f') as Hsame
    by (intros k f f' -> [= <-]; split_and!; [done|by destruct (is_open f)|done]).
  all: rewrite Z.gtb_ltb; destruct (Z.ltb_spec 0 (open_count fs)) as [Hlt|Hge];
    [|split_and!; [done|split; [unfold open_count in *; lia|done]|exact Hsame]].
  - split_and!; [done|split; [done|lia]|exact Hsame].
  - destruct t as [| |l]; [done| |].
    + specialize (IH fs). destruct (poll_files turns fs _) as [[out fs'] over]. destruct IH as (Hl & Ho & Hk). split_and!; [done..|].
      intros k f f' Hf Hf'. destruct (Hk k f f' Hf Hf') as (B & C & O). by split_and!.
    + pose proof (read_files_ok l fs 0 (open_count fs)) as Hr. destruct (read_files 0 l fs _) as [[out fs1] active1]. destruct Hr as (Hl1 & Ha & Hk1 & _).
      assert (active1 = open_count fs1) as -> by lia. specialize (IH fs1). destruct (poll_files turns fs1 _) as [[out' fs'] over].
      destruct IH as (Hl & Ho & Hk). split_and!; [lia|done|]. intros k f f' Hf Hf'.
      destruct (lookup_lt_is_Some_2 fs1 k) as [f1 Hf1]; [rewrite Hl1; by eapply lookup_lt_Some|].
      eapply file_ok_app; [by apply (Hk1 k)|by apply Hk].
Qed.

Lemma read_files_ready m : forall i fs active k, (length fs <= m)%nat -> turns_left fs (S k) ->
  turns_left (read_files i (replicate m Readable) fs active).1.2 k.
Proof.
  induction m as [|m IH]; intros i [|f fs] active k Hm Hk; try (by constructor); [cbn in Hm; lia|].
  apply Forall_cons_1 in Hk as [Hf Hfs]. cbn [read_files]. change (tail (replicate (S m) Readable)) with (replicate m Readable).
  change (default NotReady (head (replicate (S m) Readable))) with Readable.
  destruct (read_one i Readable f) as [out f'] eqn:Hr.
  specialize (IH (S i) fs (if is_open f && negb (is_open f') then active - 1 else active) k ltac:(cbn in Hm; lia) Hfs).
  destruct (read_files (S i) _ fs _) as [[out' fs'] active']. constructor; [|exact IH].
  clear IH. unfold read_one in Hr. destruct f as [[] n]; cbn [is_open negb left_] in Hr, Hf; [|by injection Hr as <- <-].
  specialize (Hf eq_refl). unfold BUFFER_SIZE in *.
  remember (64 `min` n)%nat as n' eqn:Hn'.
  destruct (Nat.eqb_spec n' 0) as [Hz|Hz]; injection Hr as <- <-; cbn [is_open left_]; [done|intros _; lia].
Qed.

Lemma poll_files_ready m : forall fs k, (length fs <= MAX_FILES)%nat -> turns_left fs m ->
  (m <= k)%nat -> (poll_files (replicate k all_ready) fs (open_count fs)).2 = true.
Proof.
  induction m as [|m IH]; intros fs k Hl Hm Hk.
  - assert (open_count fs = 0) as ->; [|by destruct k]. clear -Hm. induction Hm as [|f fs Hf _ IH]; [done|].
    rewrite open_cons, IH. destruct (is_open f); [|done]. specialize (Hf eq_refl). unfold BUFFER_SIZE in Hf. lia.
  - destruct k as [|k]; [lia|]. cbn [replicate poll_files]. destruct (open_count fs >? 0); [|done]. unfold all_ready at 1.
    pose proof (read_files_ok (replicate MAX_FILES Readable) fs 0 (open_count fs)) as Hr.
    pose proof (read_files_ready MAX_FILES 0 fs (open_count fs) m Hl Hm) as Ht.
    destruct (read_files 0 _ fs _) as [[out fs1] active1]. destruct Hr as (Hl1 & Ha & _). assert (active1 = open_count fs1) as -> by lia.
    specialize (IH fs1 k ltac:(lia) Ht ltac:(lia)). by destruct (poll_files _ fs1 _) as [[out' fs2] over].
Qed.

Lemma read_files_through l fs : forall i active, Broken ∉ l -> read_through fs -> read_through (read_files i l fs active).1.2.
Proof.
  revert l. induction fs as [|f fs IH]; intros l i active Hb Hfs; [constructor|]. apply Forall_cons_1 in Hfs as [Hf Hfs]. cbn [read_files].
  destruct (read_one i (default NotReady (head l)) f) as [out f'] eqn:Hr.
  assert (Broken ∉ tail l) as Hb' by (destruct l; cbn in *; set_solver).
  specialize (IH (tail l) (S i) (if is_open f && negb (is_open f') then active - 1 else active) Hb' Hfs).
  destruct (read_files (S i) (tail l) fs _) as [[out' fs'] active']. constructor; [|exact IH].
  clear IH Hfs Hb'. unfold read_one in Hr. destruct f as [[] n]; cbn [is_open negb left_] in *; [|by injection Hr as <- <-].
  destruct l as [|[] l]; cbn [head default from_option id] in Hr; [by injection Hr as <- <-..| |set_solver].
  remember (BUFFER_SIZE `min` n)%nat as n' eqn:Hn'. unfold BUFFER_SIZE in Hn'.
  destruct (Nat.eqb_spec n' 0) as [Hz|Hz]; injection Hr as <- <-; cbn [is_open left_]; [lia|done].
Qed.

Lemma poll_files_through turns : forall fs active, Forall reads_work turns -> read_through fs -> read_through (poll_files turns fs active).1.2.
Proof.
  induction turns as [|t turns IH]; intros fs active Ht Hfs; cbn [poll_files]; (destruct (active >? 0); [|done]); [done|].
  apply Forall_cons_1 in Ht as [Hb Ht]. destruct t as [| |l]; [done| |].
  - specialize (IH fs active Ht Hfs). by destruct (poll_files turns fs active) as [[out fs'] over].
  - pose proof (read_files_through l fs 0 active Hb Hfs) as Hr. destruct (read_files 0 l fs active) as [[out fs1] active1].
    specialize (IH fs1 active1 Ht Hr). by destruct (poll_files turns fs1 active1) as [[out' fs'] over].
Qed.

Lemma open_files_ok sizes : forall i, open_files i (Some <$> sizes) = inr (mkFile true <$> sizes).
Proof. induction sizes as [|n sizes IH]; intros i; cbn [fmap list_fmap open_files]; [done|by rewrite IH]. Qed.

Lemma open_count_all sizes : open_count (mkFile true <$> sizes) = Z.of_nat (length sizes).
Proof. induction sizes as [|n sizes IH]; [done|]. cbn [fmap list_fmap length]. rewrite open_cons, IH. cbn [is_open]. lia. Qed.

Lemma none_open fs : open_count fs = 0 <-> (forall k f, fs !! k = Some f -> is_open f = false).
Proof.
  induction fs as [|f fs IH]; [by split|]. rewrite open_cons. split.
  - intros H [|k] g Hg; cbn in Hg; [injection Hg as <-; destruct (is_open f); [unfold open_count in *; lia|done]|].
    apply IH with k; [destruct (is_open f); unfold open_count in *; lia|done].
  - intros H. rewrite (H 0%nat f eq_refl). rewrite (proj2 IH); [done|]. intros k g Hg. by apply (H (S k)).
Qed.

(** ** Every file is read through *)

(** Polling three files.  When [poll] does not fail, no more bytes of a file are reported
    than it holds and it is closed at most once; the program ends, with status 0, exactly when
    each file has been closed.  If no [read] fails either, the counts printed for a file then
    sum to its size.  When all files are always ready it does end, within one turn per 64 bytes
    of the largest and one more. *)
Theorem polled_to_the_end (sizes : list nat) (Hs : length sizes = MAX_FILES) :
  (forall turns out status, Forall no_error turns -> main (Some <$> sizes) turns = (out, status) ->
     (forall i n, sizes !! i = Some n -> bytes_of i out <= n /\ closings i out <= 1)%nat /\
     (status = Some 0 <-> forall i, (i < MAX_FILES)%nat -> closings i out = 1%nat) /\
     (status = Some 0 -> Forall reads_work turns -> forall i n, sizes !! i = Some n -> bytes_of i out = n)) /\
  (forall k m, Forall (fun n => n + BUFFER_SIZE <= BUFFER_SIZE * m)%nat sizes -> (m <= k)%nat ->
     (main (Some <$> sizes) (replicate k all_ready)).2 = Some 0).
Proof.
  unfold main. rewrite open_files_ok. set (fs := mkFile true <$> sizes).
  assert (Z.of_nat MAX_FILES = open_count fs) as -> by (unfold fs; by rewrite open_count_all, Hs). split.
  - intros turns out status Ht Hm. pose proof (poll_files_ok turns fs Ht) as Hok.
    pose proof (poll_files_through turns fs (open_count fs)) as Hthr.
    destruct (poll_files turns fs _) as [[out' fs'] over]. injection Hm as <- <-. destruct Hok as (Hl & Ho & Hk).
    assert (forall i n, sizes !! i = Some n -> exists f', fs' !! i = Some f' /\ file_ok i out' (mkFile true n) f') as Hall.
    { intros i n Hn. assert (fs !! i = Some (mkFile true n)) as Hf by (unfold fs; by rewrite list_lookup_fmap, Hn).
      destruct (lookup_lt_is_Some_2 fs' i) as [f' Hf']; [rewrite Hl; by eapply lookup_lt_Some|]. exists f'. split; [done|by apply (Hk i)]. }
    assert (length fs' = MAX_FILES) as Hl' by (by rewrite Hl; unfold fs; rewrite length_fmap).
    assert ((if over then Some 0 else None) = Some 0 <-> over = true) as -> by (by destruct over). rewrite Ho, none_open. split_and!.
    + intros i n Hn. destruct (Hall i n Hn) as (f' & _ & B & C & _). cbn in B, C. split; [lia|]. destruct (is_open f'); cbn in C; lia.
    + split.
      * intros H i Hi. rewrite <- Hs in Hi. apply lookup_lt_is_Some_2 in Hi as [n Hn].
        destruct (Hall i n Hn) as (f' & Hf' & _ & C & _). rewrite C. by rewrite (H i f' Hf').
      * intros H i f' Hf'. pose proof (lookup_lt_Some _ _ _ Hf') as Hi. rewrite Hl' in Hi. specialize (H i Hi).
        rewrite <- Hs in Hi. apply lookup_lt_is_Some_2 in Hi as [n Hn]. destruct (Hall i n Hn) as (f2 & Hf2 & _ & C & _).
        rewrite Hf' in Hf2. injection Hf2 as <-. rewrite H in C. by destruct (is_open f').
    + intros H Hw i n Hn. destruct (Hall i n Hn) as (f' & Hf' & B & _ & _). cbn in B.
      assert (read_through fs) as Hr0 by (apply Forall_fmap, Forall_true; done). specialize (Hthr Hw Hr0). cbn in Hthr.
      rewrite (Forall_lookup_1 _ _ _ _ Hthr Hf' (H i f' Hf')) in B. lia.
  - intros k m Hm Hk. pose proof (poll_files_ready m fs k) as Hover.
    destruct (poll_files _ fs _) as [[out fs'] over]. cbn in Hover |- *. rewrite Hover; [done| | |done].
    + unfold fs. rewrite length_fmap. lia.
    + apply Forall_fmap. eapply Forall_impl; [exact Hm|]. intros n Hn _. exact Hn.
Qed.

Lemma polled_to_the_end_witness :
  main [Some 70; Some 0; Some 64]%nat (replicate 3 all_ready) =
    ([ReadBytes 0 64; ClosedFile 1; ReadBytes 2 64; ReadBytes 0 6; ClosedFile 2; ClosedFile 0], Some 0) /\
  (main (Some <$> [70; 0; 64]%nat) (replicate 9 all_ready)).2 = Some 0 /\
  (main (Some <$> [70; 0; 64]%nat) (PollTimeout :: replicate 2 all_ready)).2 = None.
Proof.
  split_and!; [vm_compute; reflexivity| |vm_compute; reflexivity].
  apply (proj2 (polled_to_the_end [70; 0; 64]%nat eq_refl) 9%nat 3%nat); [repeat constructor; vm_compute; lia|lia].
Defined.
