(* ===== verification/EchoSession.v ===== *)
(** * Sessions with the echo server

    IPCs/Nonblocking: the server of SelectServer.v together with any number of clients
    (client.c), over stream sockets of the local domain: [send] hands over the whole line,
    [recv] gives what is there up to the size of the buffer.  A step is one call of a client
    that may block, or what the server does with one descriptor that is ready; that any ready
    descriptor may be next includes every order in which the loop over the set meets them. *)
From S2P Require Import Prelude ByteFile Actors SelectServer.

(** ** The state *)

(** where a client is: at [connect], [fgets], [recv], past its loop, or killed by a signal *)
Inductive control := CConnect | CPrompt | CWait | CDone | CKilled.

(** the server's end of a connection *)
Inductive link := NotAccepted | Accepted (fd : Z) | Gone.
#[export] Instance link_eq_decision : EqDecision link.
Proof. solve_decision. Defined.

(** a client and its connection: what is left on its input, what it has printed, and what is
    under way in both directions *)
Record conn := mkConn { at_ : control; rest : bytes; echoed : list bytes; to_server : bytes; to_client : bytes; on : link }.

Inductive life := Up (s : server) | Killed | Undefined.

Record world := mkWorld { conns : list conn; life_ : life }.

(** ** The client *)

(** [fgets] for [n + 1]: at most [n] bytes, up to and with a newline *)
Fixpoint fgets (n : nat) (s : bytes) : bytes * bytes :=
  match n, s with
  | O, _ | _, [] => ([], s)
  | S n, b :: s => if decide (b = x0a) then ([b], s) else let p := fgets n s in (b :: p.1, p.2)
  end.

Definition closed (c : conn) : bool := match at_ c with CDone | CKilled => true | _ => false end.

Definition hung_up (l : life) (c : conn) : bool :=
  match l, on c with Up _, (NotAccepted | Accepted _) => false | _, _ => true end.

Definition client_buffer : nat := Z.to_nat BUFFER_SIZE - 1.

Definition client_step (l : life) (c : conn) : option conn :=
  match at_ c with
  | CConnect => Some (mkConn (match l with Up _ => CPrompt | _ => CDone end) (rest c) (echoed c) (to_server c) (to_client c) (on c))
  | CPrompt =>
      match rest c with
      | [] => Some (mkConn CDone [] (echoed c) (to_server c) (to_client c) (on c))
      | _ =>
          let p := fgets client_buffer (rest c) in
          if hung_up l c then Some (mkConn CKilled p.2 (echoed c) (to_server c) (to_client c) (on c))
          else Some (mkConn CWait p.2 (echoed c) (to_server c ++ c_text p.1) (to_client c) (on c))
      end
  | CWait =>
      match to_client c with
      | [] => if hung_up l c then Some (mkConn CDone (rest c) (echoed c) (to_server c) [] (on c)) else None
      | _ =>
          Some (mkConn CPrompt (rest c) (echoed c ++ [c_text (take client_buffer (to_client c))]) (to_server c)
            (drop client_buffer (to_client c)) (on c))
      end
  | CDone | CKilled => None
  end.

Definition client_act (i : nat) (w : world) : option world :=
  c ← conns w !! i; c' ← client_step (life_ w) c; Some (mkWorld (<[i := c']> (conns w)) (life_ w)).

(** ** The server *)

(** the first descriptor of its process; 0, 1 and 2 are the standard streams *)
Definition server_fd : Z := 3.

(** the least descriptor that is not in use *)
Definition free_fd (s : server) : option Z := head (filter (fun fd => fd ∉ ({[0; 1; 2]} ∪ master_set s : gset Z)) all_fds).

(** the listening socket is ready: [accept] of the connection [i] *)
Definition accept_act (i : nat) (w : world) : option world :=
  c ← conns w !! i;
  match on c, at_ c, life_ w with
  | _, CConnect, _ => None
  | NotAccepted, _, Up s =>
      let only fd := fd =? server_fd in
      let t := mkTurn (Some only) (free_fd s) (fun _ => None) in
      match visit echo_reply server_fd (filter (fun fd => only fd = true) (master_set s)) t server_fd s with
      | Done s' =>
          let c' := mkConn (at_ c) (rest c) (echoed c) (to_server c) (to_client c)
            (match free_fd s with Some fd => Accepted fd | None => NotAccepted end) in
          Some (mkWorld (<[i := c']> (conns w)) (Up s'))
      | _ => Some (mkWorld (conns w) Undefined)
      end
  | _, _, _ => None
  end.

(** the effect of the calls of [send]; the flag: no signal, since no receiver has closed *)
Fixpoint deliver (ms : list (Z * bytes)) (cs : list conn) : list conn * bool :=
  match ms with
  | [] => (cs, true)
  | (fd, msg) :: ms =>
      let hears c := bool_decide (on c = Accepted fd) in
      if existsb (fun c => hears c && closed c) cs then (cs, false)
      else deliver ms ((fun c => if hears c
             then mkConn (at_ c) (rest c) (echoed c) (to_server c) (to_client c ++ msg) (on c) else c) <$> cs)
  end.

(** the descriptor of the connection [i] is ready *)
Definition receive_act (i : nat) (w : world) : option world :=
  c ← conns w !! i;
  match on c, life_ w with
  | Accepted fd, Up s =>
      if bool_decide (to_server c = []) && negb (closed c) then None else
      let n := Z.to_nat BUFFER_SIZE in
      let only x := x =? fd in
      let t := mkTurn (Some only) None (fun x => if only x then Some (take n (to_server c)) else None) in
      match visit echo_reply server_fd (filter (fun x => only x = true) (master_set s)) t fd s with
      | Done s' =>
          let c' := mkConn (at_ c) (rest c) (echoed c) (drop n (to_server c)) (to_client c)
            (if FD_ISSET fd (master_set s') then Accepted fd else Gone) in
          let p := deliver (drop (length (sent s)) (sent s')) (<[i := c']> (conns w)) in
          Some (mkWorld p.1 (if p.2 then Up s' else Killed))
      | _ => Some (mkWorld (conns w) Undefined)
      end
  | _, _ => None
  end.

Inductive actor := Client (i : nat) | Accept (i : nat) | Receive (i : nat).

Definition act (a : actor) (w : world) : option world :=
  match a with Client i => client_act i w | Accept i => accept_act i w | Receive i => receive_act i w end.

Definition step : world -> world -> Prop := act_step act.

(** clients with what is typed to each of them *)
Definition start (texts : list bytes) : world :=
  mkWorld ((fun t => mkConn CConnect t [] [] [] NotAccepted) <$> texts) (Up (SelectServer.start server_fd)).

(** ** The invariant *)

Definition line_ok (m : bytes) : Prop := (0 < length m < Z.to_nat BUFFER_SIZE)%nat.

Inductive conn_ok : bytes -> conn -> Prop :=
| ok_start t : conn_ok t (mkConn CConnect t [] [] [] NotAccepted)
| ok_prompt e r l : Forall line_ok e -> l <> Gone -> conn_ok (concat e ++ r) (mkConn CPrompt r e [] [] l)
| ok_asked e m r l : Forall line_ok e -> line_ok m -> l <> Gone -> conn_ok (concat e ++ m ++ r) (mkConn CWait r e m [] l)
| ok_answered e m r fd : Forall line_ok e -> line_ok m -> conn_ok (concat e ++ m ++ r) (mkConn CWait r e [] m (Accepted fd))
| ok_done e l : Forall line_ok e -> conn_ok (concat e) (mkConn CDone [] e [] [] l).

(** the set of the server and the connections it has *)
Definition fds_ok (s : server) (cs : list conn) : Prop :=
  server_fd ∈ master_set s /\
  (forall fd, fd ∈ master_set s -> fd = server_fd \/ exists i c, cs !! i = Some c /\ on c = Accepted fd) /\
  (forall i c fd, cs !! i = Some c -> on c = Accepted fd -> fd ∈ master_set s /\ fd <> server_fd) /\
  (forall i j c d fd, cs !! i = Some c -> cs !! j = Some d -> on c = Accepted fd -> on d = Accepted fd -> i = j).

Definition inv (texts : list bytes) (w : world) : Prop :=
  exists s, life_ w = Up s /\ fds_ok s (conns w) /\ Forall2 conn_ok texts (conns w).

(** what a client and its connection have ahead of them, in steps *)
Definition ahead (c : conn) : nat :=
  3 * length (rest c) + match on c with NotAccepted => 2 | Accepted _ => 1 | Gone => 0 end +
  match at_ c with CConnect => 2 | CPrompt => 1 | CWait => if to_server c is [] then 2 else 3 | CDone | CKilled => 0 end.

Definition measure (w : world) : nat := sum_list_with ahead (conns w).

Definition stuck (w : world) : Prop := forall w', ~ step w w'.

(** ** Lemmas *)

Lemma fgets_ok n s : (0 < n)%nat -> s <> [] ->
  s = (fgets n s).1 ++ (fgets n s).2 /\ (0 < length (fgets n s).1 <= n)%nat.
Proof.
  revert s. induction n as [|n IH]; intros [|b s] Hn Hs; [lia..|done|]. cbn [fgets].
  destruct (decide (b = x0a)); [cbn; split; [done|lia]|]. cbn [fst snd length app].
  destruct n as [|n]; [by cbn; split; [|lia]|]. destruct s as [|b' s]; [by cbn; split; [|lia]|].
  destruct (IH (b' :: s) ltac:(lia) ltac:(done)) as [He Hl]. split; [by f_equal|lia].
Qed.

Lemma c_text_id s : x00 ∉ s -> c_text s = s.
Proof. intros H. rewrite <- (app_nil_r s) at 1. rewrite c_text_app by done. apply app_nil_r. Qed.

(** *** One connection *)

Lemma client_step_ok s text c c' : x00 ∉ text -> conn_ok text c -> client_step (Up s) c = Some c' ->
  conn_ok text c' /\ on c' = on c /\ (ahead c' < ahead c)%nat.
Proof.
  intros Hz Hok. revert Hz. destruct Hok as [t|e r l He Hl|e m r l He Hm Hl|e m r fd He Hm|e l He]; intros Hz H; unfold client_step in H; cbn [at_ rest hung_up on to_client echoed to_server] in H.
  - injection H as <-. split_and!; [by apply (ok_prompt [] t)|done|unfold ahead; cbn; lia].
  - destruct r as [|b r]; [injection H as <-; rewrite app_nil_r; split_and!; [by constructor|done|unfold ahead; cbn; lia]|].
    destruct (fgets_ok client_buffer (b :: r)) as [Hf Hn]; [unfold client_buffer, BUFFER_SIZE; lia|done|].
    destruct (fgets client_buffer (b :: r)) as [m r']. cbn [fst snd] in *.
    assert (hung_up (Up s) (mkConn CPrompt (b :: r) e [] [] l) = false) as Hh by (by destruct l).
    unfold hung_up in H, Hh. cbn [on] in Hh. rewrite Hh in H. injection H as <-. rewrite Hf in Hz. rewrite !not_elem_of_app in Hz.
    rewrite c_text_id by tauto. cbn [app]. split_and!; [rewrite Hf; constructor; [done| |done]|done|].
    + unfold line_ok, client_buffer, BUFFER_SIZE in *. lia.
    + unfold ahead. cbn [rest on at_ to_server]. rewrite Hf, length_app. destruct m; cbn [length] in *; lia.
  - by destruct l.
  - destruct m as [|b m]; [unfold line_ok in Hm; cbn in Hm; lia|].
    rewrite !not_elem_of_app in Hz. rewrite take_ge, drop_ge, c_text_id in H by (tauto || (unfold line_ok, client_buffer in *; lia)).
    injection H as <-. split_and!; [|done|unfold ahead; cbn [rest on at_ to_server]; lia].
    replace (concat e ++ (b :: m) ++ r) with (concat (e ++ [b :: m]) ++ r) by (by rewrite concat_app; cbn; rewrite app_nil_r, <- app_assoc).
    constructor; [|done]. apply Forall_app; split; [done|by apply Forall_singleton].
  - done.
Qed.

(** *** The descriptors *)

Lemma fds_same s cs i c c' : fds_ok s cs -> cs !! i = Some c -> on c' = on c -> fds_ok s (<[i := c']> cs).
Proof.
  intros (Hs & H1 & H2 & H3) Hc Ho. assert (forall j x, <[i := c']> cs !! j = Some x -> exists x0, cs !! j = Some x0 /\ on x = on x0) as Hold.
  { intros j x Hx. destruct (decide (j = i)) as [->|?]; [|rewrite list_lookup_insert_ne in Hx by done; by exists x].
    rewrite list_lookup_insert_eq in Hx by (by eapply lookup_lt_Some). injection Hx as <-. by exists c. }
  split_and!; [done| | |].
  - intros fd [->|(j & x & Hx & Hon)]%H1; [by left|right]. destruct (decide (j = i)) as [->|?].
    + exists i, c'. rewrite list_lookup_insert_eq by (by eapply lookup_lt_Some). split; [done|]. simplify_eq. congruence.
    + exists j, x. by rewrite list_lookup_insert_ne.
  - intros j x fd (x0 & Hx & He)%Hold Hon. eapply H2; [done|congruence].
  - intros j k x y fd (x0 & Hx & Hex)%Hold (y0 & Hy & Hey)%Hold Hox Hoy. eapply H3; [exact Hx|exact Hy|by rewrite <- Hex|by rewrite <- Hey].
Qed.

(** a descriptor that was free is given to connection [i] *)
Lemma fds_accept s s' cs i c c' fd : fds_ok s cs -> cs !! i = Some c -> on c = NotAccepted -> fd ∉ master_set s -> fd <> server_fd ->
  on c' = Accepted fd -> master_set s' = {[fd]} ∪ master_set s -> fds_ok s' (<[i := c']> cs).
Proof.
  intros (Hs & H1 & H2 & H3) Hc Hn Hfd Hne Ho Hm. pose proof (lookup_lt_Some _ _ _ Hc) as Hi. split_and!.
  - rewrite Hm. set_solver.
  - intros x. rewrite Hm. intros [->%elem_of_singleton|Hx]%elem_of_union; [right; exists i, c'; by rewrite list_lookup_insert_eq|].
    apply H1 in Hx as [->|(j & d & Hd & Hon)]; [by left|right]. exists j, d. by rewrite list_lookup_insert_ne by congruence.
  - intros j d x Hd Hon. rewrite Hm. destruct (decide (j = i)) as [->|?].
    + rewrite list_lookup_insert_eq in Hd by done. injection Hd as <-. assert (x = fd) as -> by congruence. split; [set_solver|done].
    + rewrite list_lookup_insert_ne in Hd by done. destruct (H2 j d x Hd Hon). split; [set_solver|done].
  - assert (forall j d, j <> i -> <[i := c']> cs !! j = Some d -> cs !! j = Some d /\ on d <> Accepted fd) as Hother.
    { intros j d Hj Hd. rewrite list_lookup_insert_ne in Hd by done. split; [done|]. intros Hd'. by apply Hfd, (H2 j d). }
    intros j k d e x Hd He Hod Hoe. destruct (decide (j = i)) as [->|Hj], (decide (k = i)) as [->|Hk]; [done| | |].
    + rewrite list_lookup_insert_eq in Hd by done. injection Hd as <-. destruct (Hother k e Hk He). congruence.
    + rewrite list_lookup_insert_eq in He by done. injection He as <-. destruct (Hother j d Hj Hd). congruence.
    + destruct (Hother k e Hk He), (Hother j d Hj Hd). by eapply H3.
Qed.

(** ... and connection [i] gives its descriptor back *)
Lemma fds_close s s' cs i c c' fd : fds_ok s cs -> cs !! i = Some c -> on c = Accepted fd -> on c' = Gone ->
  master_set s' = master_set s ∖ {[fd]} -> fds_ok s' (<[i := c']> cs).
Proof.
  intros (Hs & H1 & H2 & H3) Hc Hn Ho Hm. pose proof (lookup_lt_Some _ _ _ Hc) as Hi.
  assert (forall j d x, <[i := c']> cs !! j = Some d -> on d = Accepted x -> j <> i /\ cs !! j = Some d) as Hother.
  { intros j d x Hd Hon. destruct (decide (j = i)) as [->|?]; [|by rewrite list_lookup_insert_ne in Hd].
    rewrite list_lookup_insert_eq in Hd by done. congruence. }
  destruct (H2 i c fd Hc Hn) as [_ Hne]. split_and!.
  - rewrite Hm. set_solver.
  - intros x. rewrite Hm. intros [[->|(j & d & Hd & Hon)]%H1 Hx]%elem_of_difference; [by left|right]. exists j, d.
    rewrite list_lookup_insert_ne; [done|]. intros <-. apply Hx, elem_of_singleton. congruence.
  - intros j d x Hd Hon. destruct (Hother j d x Hd Hon) as [Hj Hd']. destruct (H2 j d x Hd' Hon) as [Hx Hx']. split; [|done].
    rewrite Hm. apply elem_of_difference. split; [done|]. intros ->%elem_of_singleton. by apply Hj, (H3 j i d c fd).
  - intros j k d e x Hd He Hod Hoe. destruct (Hother j d x Hd Hod), (Hother k e x He Hoe). by eapply H3.
Qed.

Lemma free_fd_ok s fd : free_fd s = Some fd -> 0 <= fd < FD_SETSIZE /\ fd ∉ master_set s.
Proof.
  unfold free_fd. intros Hh%head_Some_elem_of. apply list_elem_of_filter in Hh as [Hm Hfd%elem_of_seqZ]. split; [lia|set_solver].
Qed.

(** with few connections there is always a free descriptor *)
Lemma free_fd_some s cs : fds_ok s cs -> (length cs + 4 < Z.to_nat FD_SETSIZE)%nat -> is_Some (free_fd s).
Proof.
  intros (_ & H1 & _) Hl. unfold free_fd. destruct (filter _ all_fds) as [|x l] eqn:Hf; [exfalso|by eexists].
  set (opened := omap (fun c => match on c with Accepted fd => Some fd | _ => None end) cs).
  assert (length all_fds <= length ([0; 1; 2; server_fd]%Z ++ opened))%nat as Hle.
  { apply submseteq_length, NoDup_submseteq; [apply NoDup_seqZ|]. intros x Hx. destruct (decide (x ∈ ({[0; 1; 2]} ∪ master_set s : gset Z))) as [Hin|Hout].
    - apply elem_of_app. apply elem_of_union in Hin as [Hin|[->|(i & c & Hc & Hon)]%H1]; [left; set_solver|left; set_solver|right].
      apply list_elem_of_omap. exists c. split; [by eapply list_elem_of_lookup_2|by rewrite Hon].
    - assert (x ∈ filter (fun fd => fd ∉ ({[0; 1; 2]} ∪ master_set s : gset Z)) all_fds) as Hin by (by apply list_elem_of_filter).
      rewrite Hf in Hin. by apply elem_of_nil in Hin. }
  assert (length opened <= length cs)%nat as Ho.
  { unfold opened. clear. induction cs as [|c cs IH]; [done|]. cbn. destruct (on c); cbn; lia. }
  unfold all_fds in Hle. rewrite length_seqZ, length_app in Hle. change (length [0; 1; 2; server_fd]) with 4%nat in Hle. lia.
Qed.

(** *** What the server does *)

Lemma visit_accept s fd r a : server_fd ∈ master_set s -> 0 <= fd < FD_SETSIZE ->
  exists m, visit echo_reply server_fd (filter (fun x => (x =? server_fd) = true) (master_set s)) (mkTurn a (Some fd) r) server_fd s =
    Done (mkServer ({[fd]} ∪ master_set s) m (sent s)).
Proof.
  intros Hs Hfd. unfold visit, FD_ISSET. rewrite bool_decide_true by (by apply elem_of_filter; rewrite Z.eqb_refl).
  cbn [negb]. rewrite Z.eqb_refl. cbn [accepted]. unfold FD_SET. destruct (Z.ltb_spec fd 0), (Z.leb_spec FD_SETSIZE fd); try lia. by eexists.
Qed.

Lemma visit_receive s fd (r : Z -> bool) a msg : fd ∈ master_set s -> fd <> server_fd -> r fd = true ->
  visit echo_reply server_fd (filter (fun x => r x = true) (master_set s)) (mkTurn (Some r) a (fun x => if r x then Some msg else None)) fd s =
  Done (match msg with [] => mkServer (master_set s ∖ {[fd]}) (max_fd s) (sent s) | _ => send fd msg s end).
Proof.
  intros Hs Hne Hr. unfold visit, FD_ISSET. rewrite bool_decide_true by (by apply elem_of_filter).
  cbn [negb]. rewrite (proj2 (Z.eqb_neq _ _)) by done. cbn [received]. rewrite Hr. by destruct msg.
Qed.

Lemma deliver_one s cs i c fd msg : fds_ok s cs -> cs !! i = Some c -> on c = Accepted fd -> closed c = false ->
  deliver [(fd, msg)] cs = (<[i := mkConn (at_ c) (rest c) (echoed c) (to_server c) (to_client c ++ msg) (on c)]> cs, true).
Proof.
  intros (_ & _ & _ & H3) Hc Ho Hcl. cbn [deliver].
  assert (forall j d, cs !! j = Some d -> bool_decide (on d = Accepted fd) = bool_decide (j = i)) as Hon.
  { intros j d Hd. destruct (decide (j = i)) as [->|Hj]; [rewrite !bool_decide_true by congruence; done|].
    rewrite (bool_decide_false (j = i)) by done. apply bool_decide_false. intros Hod. by eapply Hj, H3. }
  assert (existsb (fun c => bool_decide (on c = Accepted fd) && closed c) cs = false) as ->.
  { apply not_true_is_false. intros (d & Hd & H)%existsb_exists. apply list_elem_of_In, list_elem_of_lookup_1 in Hd as [j Hd].
    rewrite (Hon j d Hd) in H. apply andb_true_iff in H as [Hj%bool_decide_eq_true Hc']. congruence. }
  f_equal. apply list_eq. intros j. rewrite list_lookup_fmap. destruct (decide (j = i)) as [->|Hj].
  - rewrite Hc, list_lookup_insert_eq by (by eapply lookup_lt_Some). cbn. by rewrite bool_decide_true.
  - rewrite list_lookup_insert_ne by done. destruct (cs !! j) as [d|] eqn:Hd; [|done]. cbn. rewrite (Hon j d Hd).
    by rewrite bool_decide_false.
Qed.

(** *** Every step *)

Lemma put_ok texts w i c c' s : Forall2 conn_ok texts (conns w) -> conns w !! i = Some c ->
  (forall text, texts !! i = Some text -> conn_ok text c -> conn_ok text c') -> (ahead c' < ahead c)%nat -> fds_ok s (<[i := c']> (conns w)) ->
  let w' := mkWorld (<[i := c']> (conns w)) (Up s) in inv texts w' /\ (measure w' < measure w)%nat.
Proof.
  intros Hok Hc Hc' Ha Hfds w'. split.
  - exists s. split_and!; [done..|]. destruct (Forall2_lookup_r _ _ _ _ _ Hok Hc) as (text & Ht & Htc).
    rewrite <- (list_insert_id texts i text) by done. apply Forall2_insert; auto.
  - unfold measure. cbn [conns w']. pose proof (sum_list_with_insert ahead _ i c c' Hc). lia.
Qed.

Lemma echo_client_step texts i w w' : Forall (fun t => x00 ∉ t) texts -> inv texts w -> client_act i w = Some w' ->
  inv texts w' /\ (measure w' < measure w)%nat.
Proof.
  intros Hz (s & Hl & Hfds & Hok). unfold client_act. destruct (conns w !! i) as [c|] eqn:Hc; [|done]. rewrite Hl. cbn [mbind option_bind].
  destruct (client_step (Up s) c) as [c'|] eqn:Hs; [|done]. intros [= <-].
  destruct (Forall2_lookup_r _ _ _ _ _ Hok Hc) as (text & Ht & Htc).
  destruct (client_step_ok s text c c') as (H1 & H2 & H3); [by eapply Forall_lookup_1 in Hz|done..|].
  apply (put_ok texts w i c c' s); [done|done| |done|by eapply fds_same]. intros text' Ht'. congruence.
Qed.

Lemma conn_ok_accepted text c fd : conn_ok text c -> on c = NotAccepted -> at_ c <> CConnect ->
  conn_ok text (mkConn (at_ c) (rest c) (echoed c) (to_server c) (to_client c) (Accepted fd)).
Proof. intros [] Ho Hne; cbn in *; try done; by constructor. Qed.

Lemma echo_accept_step texts i w w' : (length texts + 4 < Z.to_nat FD_SETSIZE)%nat -> inv texts w -> accept_act i w = Some w' ->
  inv texts w' /\ (measure w' < measure w)%nat.
Proof.
  intros Hn (s & Hl & Hfds & Hok). unfold accept_act. destruct (conns w !! i) as [c|] eqn:Hc; [|done]. rewrite Hl. cbn [mbind option_bind].
  destruct (free_fd_some s (conns w) Hfds) as [fd Hfd]; [by rewrite <- (Forall2_length _ _ _ Hok)|].
  destruct (free_fd_ok s fd Hfd) as [Hr Hm]. rewrite Hfd.
  destruct (visit_accept s fd (fun _ => None) (Some (fun x => x =? server_fd)) (proj1 Hfds) Hr) as [m Hv]. rewrite Hv.
  destruct (on c) eqn:Ho; [|by destruct (at_ c)..]. intros H.
  assert (at_ c <> CConnect /\ w' = mkWorld (<[i := mkConn (at_ c) (rest c) (echoed c) (to_server c) (to_client c) (Accepted fd)]> (conns w))
    (Up (mkServer ({[fd]} ∪ master_set s) m (sent s)))) as [Hat ->] by (destruct (at_ c); cbn in H; try done; (split; [done|congruence])).
  eapply put_ok; [done|done| | |].
  - intros text _ Htc. by apply conn_ok_accepted.
  - unfold ahead. cbn [rest on at_ to_server]. rewrite Ho. lia.
  - eapply fds_accept; try done. intros ->. by apply Hm, Hfds.
Qed.

Lemma echo_receive_step texts i w w' : inv texts w -> receive_act i w = Some w' -> inv texts w' /\ (measure w' < measure w)%nat.
Proof.
  intros (s & Hl & Hfds & Hok). unfold receive_act. destruct (conns w !! i) as [c|] eqn:Hc; [|done]. rewrite Hl. cbn [mbind option_bind].
  destruct (on c) as [|fd|] eqn:Ho; [done| |done]. pose proof Hfds as (_ & _ & H2 & _). destruct (H2 i c fd Hc Ho) as [Hin Hne].
  rewrite visit_receive by (done || apply Z.eqb_refl). pose proof (lookup_lt_Some _ _ _ Hc) as Hi.
  destruct (Forall2_lookup_r _ _ _ _ _ Hok Hc) as (text & Ht & Htc).
  destruct Htc as [t|e r l He Hr|e m r l He Hm Hr|e m r fd' He Hm|e l He]; cbn [to_server closed at_ rest echoed to_client on] in *; subst; try done.
  - rewrite bool_decide_false by (intros ->; unfold line_ok in Hm; cbn in Hm; lia). cbn [andb].
    rewrite take_ge, (drop_ge m) by (unfold line_ok in Hm; lia). destruct m as [|b m]; [unfold line_ok in Hm; cbn in Hm; lia|].
    cbn [send master_set sent FD_ISSET]. unfold FD_ISSET. rewrite bool_decide_true, drop_app_length by done.
    set (c1 := mkConn CWait r e [] [] (Accepted fd)). intros H.
    rewrite (deliver_one s (<[i := c1]> (conns w)) i c1) in H; [|by eapply fds_same|by rewrite list_lookup_insert_eq|done..].
    cbn [fst snd c1 on to_client at_ rest echoed to_server app] in H. rewrite list_insert_insert_eq in H. injection H as <-.
    eapply put_ok; [done|done| | |].
    + intros text' Ht' _. assert (text' = concat e ++ (b :: m) ++ r) as -> by congruence. by constructor.
    + unfold ahead. cbn [rest on at_ to_server]. lia.
    + eapply (fds_same _ _ _ _ _ Hfds); [done|done].
  - rewrite bool_decide_true by done. cbn [andb negb take drop firstn skipn sent]. rewrite drop_all. cbn [deliver fst snd master_set]. unfold FD_ISSET.
    rewrite bool_decide_false by set_solver. intros [= <-]. eapply put_ok; [done|done| | |].
    + intros text' Ht' _. assert (text' = concat e) as -> by congruence. by constructor.
    + unfold ahead. cbn [rest on at_ to_server]. lia.
    + by eapply fds_close.
Qed.

Lemma echo_step texts w w' : Forall (fun t => x00 ∉ t) texts -> (length texts + 4 < Z.to_nat FD_SETSIZE)%nat ->
  inv texts w -> step w w' -> inv texts w' /\ (measure w' < measure w)%nat.
Proof.
  intros Hz Hn Hi [[i|i|i] Ha]; [by eapply echo_client_step|by eapply echo_accept_step|by eapply echo_receive_step].
Qed.

Lemma echo_start_inv texts : inv texts (start texts).
Proof.
  eexists. split_and!; [reflexivity| |].
  - assert (forall i c, conns (start texts) !! i = Some c -> on c = NotAccepted) as Hn.
    { intros i c. unfold start. cbn [conns]. rewrite list_lookup_fmap. by destruct (texts !! i); cbn; [intros [= <-]|]. }
    unfold fds_ok. change (master_set _) with ({[server_fd]} : gset Z). split_and!; [set_solver|intros fd ->%elem_of_singleton; by left| |].
    + intros i c fd Hc%Hn Ho. congruence.
    + intros i j c d fd Hc%Hn _ Ho. congruence.
  - unfold start. cbn [conns]. apply Forall2_fmap_r. apply Forall_Forall2_diag, Forall_true. constructor.
Qed.

Lemma start_measure texts : measure (start texts) = sum_list_with (fun t => 3 * length t + 4)%nat texts.
Proof.
  unfold measure, start. cbn [conns]. induction texts as [|t texts IH]; [done|]. cbn [fmap list_fmap sum_list_with]. rewrite IH.
  unfold ahead at 1. cbn [rest on at_]. lia.
Qed.

(** when nothing moves any more, every conversation is over *)
Lemma stuck_over texts w : inv texts w -> stuck w ->
  Forall2 (fun t c => at_ c = CDone /\ concat (echoed c) = t /\ Forall line_ok (echoed c) /\ on c = Gone) texts (conns w).
Proof.
  intros (s & Hl & Hfds & Hok) Hst. assert (forall a, act a w = None) as Hact.
  { intros a. destruct (act a w) as [w'|] eqn:Ha; [|done]. destruct (Hst w'). by exists a. }
  apply Forall2_same_length_lookup_2; [by eapply Forall2_length|]. intros i t c Ht Hc.
  pose proof (Forall2_lookup_lr _ _ _ _ _ _ Hok Ht Hc) as Hcc.
  pose proof (Hact (Client i)) as H1. pose proof (Hact (Accept i)) as H2. pose proof (Hact (Receive i)) as H3.
  cbn [act] in *. unfold client_act, accept_act, receive_act in *. rewrite Hc, Hl in *. cbn [mbind option_bind] in *.
  destruct Hcc as [t|e r l He Hr|e m r l He Hm Hr|e m r fd' He Hm|e l He]; unfold client_step in H1; cbn [at_ rest hung_up on to_client to_server closed] in *.
  - done.
  - destruct r; [done|]. by destruct l.
  - destruct l as [|fd|]; [|..|done]; exfalso; [by destruct (visit _ _ _ _ _ _)|].
    rewrite bool_decide_false in H3 by (intros ->; unfold line_ok in Hm; cbn in Hm; lia). cbn [andb] in H3. by destruct (visit _ _ _ _ _ _).
  - destruct m; [unfold line_ok in Hm; cbn in Hm; lia|done].
  - destruct l as [|fd|]; [|..|done]; exfalso; [by destruct (visit _ _ _ _ _ _)|].
    rewrite andb_false_r in H3. by destruct (visit _ _ _ _ _ _).
Qed.

Lemma all_gone_set s cs : fds_ok s cs -> (forall i c, cs !! i = Some c -> on c = Gone) -> master_set s = {[server_fd]}.
Proof.
  intros (Hs & H1 & _) Hg. apply set_eq. intros fd. rewrite elem_of_singleton. split; [|by intros ->].
  intros [->|(i & c & Hc & Ho)]%H1; [done|]. specialize (Hg i c Hc). congruence.
Qed.

Lemma conn_ok_prefix t c : conn_ok t c -> concat (echoed c) `prefix_of` t.
Proof.
  intros []; cbn [echoed concat]; [apply prefix_nil|by apply prefix_app_r..|done].
Qed.

(** ** The conversations *)

(** C20: any number of clients of the echo server that leaves it a free descriptor, typing
    anything without NUL bytes.  In every interleaving the number of steps is bounded, the server
    never fails, and what a client has printed is always a beginning of what was typed to it.
    When nothing moves any more, every client has printed its whole input, piece by piece, and is
    done; the server has closed every connection and only listens. *)
Theorem echo_sessions_end (texts : list bytes) (Hz : Forall (fun t => x00 ∉ t) texts)
    (Hn : (length texts + 4 < Z.to_nat FD_SETSIZE)%nat) k w : nsteps step k (start texts) w ->
  (k <= sum_list_with (fun t => 3 * length t + 4) texts)%nat /\
  Forall2 (fun t c => concat (echoed c) `prefix_of` t) texts (conns w) /\
  exists s, life_ w = Up s /\
    (stuck w -> master_set s = {[server_fd]} /\
       Forall2 (fun t c => at_ c = CDone /\ concat (echoed c) = t /\ Forall line_ok (echoed c) /\ on c = Gone) texts (conns w)).
Proof.
  intros Hk. destruct (nsteps_bounded act (inv texts) measure (fun w w' => echo_step texts w w' Hz Hn) k (start texts) w Hk (echo_start_inv texts)) as [Hi Hm].
  rewrite start_measure in Hm. destruct Hi as (s & Hl & Hfds & Hok). split_and!; [lia| |].
  - eapply Forall2_impl; [exact Hok|]. intros t c. apply conn_ok_prefix.
  - exists s. split; [done|]. intros Hst. pose proof (stuck_over texts w (ex_intro _ s (conj Hl (conj Hfds Hok))) Hst) as Hov. split; [|exact Hov].
    apply (all_gone_set s (conns w)); [done|]. intros i c Hc. by destruct (Forall2_lookup_r _ _ _ _ _ Hov Hc) as (t & _ & _ & _ & _ & Hg).
Qed.

(** two clients, one of which types two lines *)
Definition two_texts : list bytes := [[x61; x62; x0a; x63; x0a]; [x64]].
Definition two_actors : list actor := [Client 0; Client 1; Accept 0; Accept 1; Receive 0; Receive 1].

Lemma echo_sessions_end_witness :
  let w := (run_first act two_actors 40 (start two_texts)).2 in
  echoed <$> conns w = [[[x61; x62; x0a]; [x63; x0a]]; [[x64]]] /\
  exists s, life_ w = Up s /\ Forall2 (fun t c => concat (echoed c) `prefix_of` t) two_texts (conns w).
Proof.
  intros w. split; [vm_compute; reflexivity|].
  assert (Forall (fun t => x00 ∉ t) two_texts) as Hz by (apply (bool_decide_unpack _); vm_compute; exact I).
  assert (length two_texts + 4 < Z.to_nat FD_SETSIZE)%nat as Hn by (unfold FD_SETSIZE; cbn [length two_texts]; lia).
  assert (exists k, nsteps step k (start two_texts) w) as [k Hk] by (eexists; exact (run_first_steps act two_actors 40 (start two_texts))).
  clearbody w. destruct (echo_sessions_end two_texts Hz Hn k w Hk) as (_ & Hp & s & Hs & _). by exists s.
Defined.

(** A line that begins with a NUL byte is never sent ([strlen]): its client waits for ever. *)
Example echo_nul_waits : let w := (run_first act [Client 0; Accept 0; Receive 0] 10 (start [[x00; x0a]])).2 in
  (at_ <$> conns w = [CWait]) /\ stuck w.
Proof.
  intros w. split; [vm_compute; reflexivity|]. intros w' [a Ha]. assert (act a w = None) as Hn; [|congruence].
  assert (exists c, conns w = [c]) as [c Hc] by (eexists; vm_compute; reflexivity).
  destruct a as [[|i]|[|i]|[|i]]; [vm_compute; reflexivity| |vm_compute; reflexivity| |vm_compute; reflexivity|];
    cbn [act]; unfold client_act, accept_act, receive_act; by rewrite Hc.
Qed.
