(* ===== verification/ChatClient.v ===== *)
(** * The client of the chat server

    IPCs/clientchatserver/client.c: a loop over [select] on the standard input and the socket.
    What the kernel answers in a turn is an argument, as for the server in SelectServer.v. *)
From S2P Require Import Prelude ByteFile EchoSession.

(** ** The program *)

(** one [select]: it fails; or which of the two descriptors is ready, with what [recv] gives
    ([] also for an error), and whether the server has closed the connection when [send] is called *)
Inductive turn := SelectFails | Ready (typed : bool) (incoming : option bytes) (server_gone : bool).

(** [Stopped]: at the end of [main]; [Killed]: by the signal of a [send] to a closed connection *)
Inductive status := Running | Stopped | Killed.

Record client := mkClient { rest : bytes; sent : list bytes; printed : list bytes; now : status }.

(** the keyboard: [fgets] and [send] *)
Definition from_keyboard (server_gone : bool) (c : client) : client :=
  match rest c with
  | [] => mkClient [] (sent c) (printed c) Stopped
  | _ =>
      let p := fgets client_buffer (rest c) in
      if server_gone then mkClient p.2 (sent c) (printed c) Killed
      else mkClient p.2 (sent c ++ [c_text p.1]) (printed c) Running
  end.

(** the socket: [recv] and [printf] *)
Definition from_socket (msg : bytes) (c : client) : client :=
  match msg with
  | [] => mkClient (rest c) (sent c) (printed c) Stopped
  | _ => mkClient (rest c) (sent c) (printed c ++ [c_text msg]) Running
  end.

(** the body of the loop; each branch may leave it *)
Definition one_turn (t : turn) (c : client) : client :=
  match t with
  | SelectFails => mkClient (rest c) (sent c) (printed c) Stopped
  | Ready typed incoming server_gone =>
      let c := if typed then from_keyboard server_gone c else c in
      match now c, incoming with
      | Running, Some msg => from_socket msg c
      | _, _ => c
      end
  end.

Fixpoint turns (ts : list turn) (c : client) : client :=
  match ts with
  | [] => c
  | t :: ts => match now c with Running => turns ts (one_turn t c) | _ => c end
  end.

Definition main (text : bytes) (ts : list turn) : client := turns ts (mkClient text [] [] Running).

(** ** Specification *)

(** what has come in, turn by turn *)
Definition incoming_of (ts : list turn) : list bytes := omap (fun t => match t with Ready _ m _ => m | _ => None end) ts.

(** the messages are texts that fit the buffer *)
Definition message_ok (m : bytes) : Prop := (length m <= client_buffer)%nat /\ x00 ∉ m.

(** a turn that keeps the client in its loop and lets it read its keyboard *)
Definition keeps_typing (t : turn) : Prop :=
  match t with Ready true None false => True | Ready true (Some m) false => m <> [] | _ => False end.

(** ** Lemmas *)

Definition typed_ok (text : bytes) (c : client) : Prop :=
  (now c <> Killed -> concat (sent c) ++ rest c = text) /\
  (exists r, concat (sent c) ++ r = text) /\
  Forall (fun l => 0 < length l <= client_buffer)%nat (sent c) /\ x00 ∉ rest c.

Lemma keyboard_ok text gone c : now c = Running -> typed_ok text c -> typed_ok text (from_keyboard gone c) /\
  printed (from_keyboard gone c) = printed c /\
  (gone = false -> now (from_keyboard gone c) = Running /\ (length (rest (from_keyboard gone c)) < length (rest c))%nat \/
                   now (from_keyboard gone c) = Stopped /\ rest c = []).
Proof.
  intros Hrun (H1 & H2 & H3 & H4). unfold from_keyboard. specialize (H1 ltac:(by rewrite Hrun)). destruct (rest c) as [|b r] eqn:Hr.
  { split; [|split; [done|by right]]. unfold typed_ok. cbn. split_and!; [intros _; exact H1|done|done|apply not_elem_of_nil]. }
  destruct (fgets_ok client_buffer (b :: r)) as [Hf Hn]; [unfold client_buffer, SelectServer.BUFFER_SIZE; lia|done|].
  destruct (fgets client_buffer (b :: r)) as [l r']. cbn [fst snd] in *. rewrite Hf in H4. apply not_elem_of_app in H4 as [Hl Hr'].
  destruct gone; (split; [|split; [done|]]); try done.
  - unfold typed_ok. cbn. rewrite c_text_id by done. rewrite concat_app. cbn. rewrite app_nil_r, <- app_assoc, <- Hf.
    split_and!; [intros _; exact H1|exists r'; by rewrite <- app_assoc, <- Hf|apply Forall_app; split; [done|by apply Forall_singleton]|done].
  - intros _. left. split; [done|]. rewrite Hf, length_app. cbn [rest length]. lia.
Qed.

Lemma client_turn_ok text t c : now c = Running -> typed_ok text c -> Forall message_ok (incoming_of [t]) ->
  typed_ok text (one_turn t c) /\
  (printed (one_turn t c) = printed c \/ printed (one_turn t c) = printed c ++ incoming_of [t]) /\
  (now (one_turn t c) = Running -> printed (one_turn t c) = printed c ++ incoming_of [t]).
Proof.
  intros Hrun Hok Hm. destruct t as [|typed m gone].
  { destruct Hok as (H1 & H2). split; [split; [intros _; apply H1; by rewrite Hrun|exact H2]|split; [by left|done]]. }
  cbn [one_turn].
  set (c1 := if typed then from_keyboard gone c else c).
  assert (typed_ok text c1 /\ printed c1 = printed c) as [Hok1 Hp1].
  { destruct typed; [|done]. by destruct (keyboard_ok text gone c Hrun Hok) as (? & ? & _). }
  destruct (now c1) eqn:Hn.
  2,3: (split; [by destruct m|split; [left; by destruct m|intros Hx; destruct m; congruence]]).
  destruct m as [msg|]; cbn [incoming_of omap list_omap] in *; [|rewrite app_nil_r; split; [done|split; [by left|done]]].
  apply Forall_singleton in Hm as [_ Hz]. destruct Hok1 as (H1 & H2 & H3 & H4). specialize (H1 ltac:(by rewrite Hn)).
  destruct msg as [|b msg]; cbn [from_socket now rest sent printed]; rewrite ?Hp1.
  - split; [|split; [by left|done]]. unfold typed_ok. by split_and!.
  - rewrite c_text_id by done. split; [|split; [by right|done]]. unfold typed_ok. by split_and!.
Qed.

Lemma incoming_cons t ts : incoming_of (t :: ts) = incoming_of [t] ++ incoming_of ts.
Proof. by destruct t as [|typed [m|] gone]. Qed.

Lemma chat_turns_ok text ts : forall c, now c = Running -> typed_ok text c -> Forall message_ok (incoming_of ts) ->
  typed_ok text (turns ts c) /\ exists later, printed c ++ incoming_of ts = printed (turns ts c) ++ later /\
  (now (turns ts c) = Running -> later = []).
Proof.
  induction ts as [|t ts IH]; intros c Hrun Hok Hm; [split; [done|exists []; cbn; done]|].
  rewrite incoming_cons in Hm |- *. apply Forall_app in Hm as [Hm Hms]. cbn [turns]. rewrite Hrun.
  destruct (client_turn_ok text t c Hrun Hok Hm) as (Hok1 & Hp & Hp').
  destruct (now (one_turn t c)) eqn:Hn.
  2,3: (assert (turns ts (one_turn t c) = one_turn t c) as -> by (destruct ts; [done|cbn; by rewrite Hn]); split; [done|];
    destruct Hp as [-> | ->]; eexists; (split; [rewrite <- ?app_assoc; reflexivity|congruence])).
  destruct (IH (one_turn t c) Hn Hok1 Hms) as (H1 & later & H2 & H3). split; [done|]. exists later. split; [|done].
  rewrite <- H2, (Hp' eq_refl). by rewrite <- app_assoc.
Qed.

Lemma chat_turns_end text ts : forall c, now c = Running -> typed_ok text c -> Forall message_ok (incoming_of ts) -> Forall keeps_typing ts ->
  (length (rest c) < length ts)%nat -> now (turns ts c) = Stopped /\ rest (turns ts c) = [].
Proof.
  induction ts as [|t ts IH]; intros c Hrun Hok Hm Ht Hl; [cbn in Hl; lia|].
  rewrite incoming_cons in Hm. apply Forall_app in Hm as [Hm Hms]. apply Forall_cons_1 in Ht as [Ht Hts]. cbn [turns]. rewrite Hrun.
  destruct (client_turn_ok text t c Hrun Hok Hm) as (Hok1 & _). destruct t as [|[] m []]; try (by destruct Ht); try (by destruct m). cbn [keeps_typing one_turn] in *.
  destruct (keyboard_ok text false c Hrun Hok) as (_ & _ & [[Hn Hlt]|[Hn Hr]]); [done| |].
  - rewrite Hn in Hok1 |- *. cbn [length] in Hl. destruct m as [[|b m]|]; [done| |]; apply IH; try done; cbn [from_socket rest now] in *; try done; lia.
  - rewrite Hn. assert (turns ts (from_keyboard false c) = from_keyboard false c) as -> by (destruct ts; [done|cbn; by rewrite Hn]).
    split; [done|]. unfold from_keyboard. by rewrite Hr.
Qed.

(** ** Typing and listening *)

(** A client of the chat server, over any answers of the kernel: what it has sent is always
    a beginning of what was typed, in pieces that fit its buffer, and what it has printed is a
    beginning of the messages that came in, all of them as long as it runs.  If its keyboard is
    always ready and the server stays, it ends when everything that was typed has been sent. *)
Theorem chat_client_correct (text : bytes) (ts : list turn) : x00 ∉ text -> Forall message_ok (incoming_of ts) ->
  let c := main text ts in
  (concat (sent c) `prefix_of` text) /\ Forall (fun l => 0 < length l <= client_buffer)%nat (sent c) /\
  (printed c `prefix_of` incoming_of ts) /\
  (now c = Running -> printed c = incoming_of ts /\ concat (sent c) ++ rest c = text) /\
  (Forall keeps_typing ts -> (length text < length ts)%nat -> now c = Stopped /\ concat (sent c) = text).
Proof.
  intros Hz Hm. cbv zeta. set (c := main text ts). assert (typed_ok text (mkClient text [] [] Running)) as H0 by (split; [done|split; [by exists text|done]]).
  destruct (chat_turns_ok text ts (mkClient text [] [] Running) eq_refl H0 Hm) as ((H1 & (r & H2) & H3 & _) & later & H4 & H5).
  change (turns ts (mkClient text [] [] Running)) with c in *. cbn [printed app] in H4. split_and!.
  - by exists r.
  - done.
  - by exists later.
  - intros Hrun. rewrite H4, (H5 Hrun), app_nil_r. split; [done|]. apply H1. by rewrite Hrun.
  - intros Ht Hl. destruct (chat_turns_end text ts (mkClient text [] [] Running) eq_refl H0 Hm Ht Hl) as [Hn Hr]. split; [exact Hn|].
    change (rest c = []) in Hr. change (now c = Stopped) in Hn. rewrite Hr, app_nil_r in H1. apply H1. by rewrite Hn.
Qed.

Lemma chat_client_correct_witness :
  let c := main [x61; x0a; x62; x0a] [Ready true None false; Ready true (Some [x63]) false; Ready true None false; Ready true None false; Ready true None false] in
  sent c = [[x61; x0a]; [x62; x0a]] /\ printed c = [[x63]] /\ now c = Stopped /\ concat (sent c) = [x61; x0a; x62; x0a].
Proof.
  intros c. split; [reflexivity|split; [reflexivity|]]. apply chat_client_correct.
  - apply (bool_decide_unpack _). vm_compute. exact I.
  - apply Forall_singleton. split; [unfold client_buffer, SelectServer.BUFFER_SIZE; cbn [length]; lia|]. apply (bool_decide_unpack _). vm_compute. exact I.
  - by repeat (constructor; [done|]).
  - cbn. lia.
Defined.
