(* ===== verification/TwoProcesses.v ===== *)
(** * Two processes that interleave

    The step relation of two processes that are given as functions, with [None] for a process
    that is blocked or at its end, schedules that execute it, and the rule for invariants.
    Used by the programs of IPCs/SharedMemory. *)
From S2P Require Import Prelude.

Section processes.
Context {S : Type} (first second : S -> option S).

Definition interleave (s s' : S) : Prop := first s = Some s' \/ second s = Some s'.

(** a schedule: whether the first takes the next step *)
Fixpoint run (sch : list bool) (s : S) : option S :=
  match sch with [] => Some s | a :: sch => s' ← (if a : bool then first s else second s); run sch s' end.

Lemma run_rtc sch s s' : run sch s = Some s' -> rtc interleave s s'.
Proof.
  revert s. induction sch as [|a sch IH]; intros s; cbn [run]; [by intros [= ->]|].
  destruct (if a : bool then first s else second s) as [s1|] eqn:Hs; [|done]. cbn. intros H. eapply rtc_l; [|by apply IH].
  destruct a; [by left|by right].
Qed.

Lemma not_step s : first s = None -> second s = None -> forall s', ~ interleave s s'.
Proof. intros Ha Hb s' [H|H]; congruence. Qed.

Lemma stuck_first s : (forall s', ~ interleave s s') -> first s = None.
Proof. intros H. destruct (first s) eqn:Hf; [exfalso; eapply H; by left|done]. Qed.

Lemma stuck_second s : (forall s', ~ interleave s s') -> second s = None.
Proof. intros H. destruct (second s) eqn:Hf; [exfalso; eapply H; by right|done]. Qed.

(** what both processes preserve holds in every state that is reached *)
Lemma rtc_inv (I : S -> Prop) s s' : (forall s1 s2, I s1 -> first s1 = Some s2 -> I s2) -> (forall s1 s2, I s1 -> second s1 = Some s2 -> I s2) ->
  I s -> rtc interleave s s' -> I s'.
Proof. intros Hf Hs Hi Hr. revert Hi. induction Hr as [s|s s1 s2 [H|H] _ IH]; eauto. Qed.
End processes.
