(* ===== verification/Calculator.v ===== *)
(** * The remote calculator

    IPCs/task: the client sends the line that is typed, [server.c] takes a command and two
    doubles from it and sends back the result with two decimals, or an error.  A state holds
    both processes and what is on its way between them; a step is one system call of one
    process with the code behind it, from the connection on.  The calls do not fail, and one
    [read] gets what one [send] wrote.  [response] holds arbitrary characters at first, up to
    some terminator. *)
From S2P Require Import Prelude CString Float32 Numbers TwoProcesses.

(** ** The server *)

Definition BUFFER_SIZE : nat := 1024.
Definition COMMAND_SIZE : nat := 10.
Definition RESPONSE_SIZE : nat := 100.

(** [sscanf(buffer, "%s %lf %lf", command, &a, &b)], if it matches all three *)
Definition scan_command (buffer : string) : outcome (option (string * float * float)) :=
  match scan_s (strlen buffer) buffer with
  | None => Done None
  | Some (command, rest) =>
      if (strlen command <? COMMAND_SIZE)%nat
      then Done ('(a, rest) ← scan_lf rest; '(b, _) ← scan_lf rest; Some (command, a, b))
      else Undef
  end.

Section calculator.
(** the text of a NaN, and what [response] holds before it is written *)
Context (nan_text : string) (junk : string).

(** [response] and [result] behind the tests of the command *)
Definition execute (command : string) (a b : float) : string * float :=
  let result := S754_zero false in
  if streq command "ADD" then (junk, dadd a b)
  else if streq command "SUB" then (junk, dsub a b)
  else if streq command "MUL" then (junk, dmul a b)
  else if streq command "DIV" then
    if SFeqb b (S754_zero false) then ("ERROR Division by zero", result) else (junk, ddiv a b)
  else ("ERROR Unknown command", result).

(** the answer to what was received *)
Definition answer (buffer : string) : outcome string :=
  matched ← scan_command buffer;
  match matched with
  | Some (command, a, b) =>
      let '(response, result) := execute command a b in
      if starts_with "ERROR" response then Done response else
      let response := "RESULT " +:+ show_f nan_text result in
      if (strlen response <? RESPONSE_SIZE)%nat then Done response else Undef
  | None => Done "ERROR Invalid format"
  end.

(** ** Client and server *)

Inductive c_control := CInput | CReply | CEnd | CWild.
Inductive s_control := SRead | SSend (response : string) | SEnd | SWild.

Record state := mkState {
  c_at : c_control; s_at : s_control; to_server : string; to_client : string; printed : option string }.

Definition MESSAGE_SIZE : nat := 100.

(** one call of the client, when [typed] is its input; [message] is not set if nothing is typed *)
Definition client_step (typed : string) (s : state) : option state :=
  match c_at s with
  | CInput =>
      match typed with
      | EmptyString => Some (mkState CWild (s_at s) (to_server s) (to_client s) None)
      | _ => Some (mkState CReply (s_at s) (to_server s +:+ cut is_newline (fgets (MESSAGE_SIZE - 1) typed).1) (to_client s) None)
      end
  | CReply =>
      match to_client s, s_at s with
      | EmptyString, SEnd => Some (mkState CEnd SEnd (to_server s) "" (Some ""))
      | EmptyString, _ => None
      | _, _ =>
          let p := span (BUFFER_SIZE - 1) (fun _ => true) (to_client s) in
          Some (mkState CEnd (s_at s) (to_server s) p.2 (Some p.1))
      end
  | CEnd | CWild => None
  end.

(** one call of the server *)
Definition server_step (s : state) : option state :=
  match s_at s with
  | SRead =>
      let p := span (BUFFER_SIZE - 1) (fun _ => true) (to_server s) in
      let goto r := Some (mkState (c_at s) r p.2 (to_client s) (printed s)) in
      match to_server s, c_at s with
      | EmptyString, (CInput | CReply) => None
      | _, _ => match answer p.1 with Done r => goto (SSend r) | _ => goto SWild end
      end
  | SSend r => Some (mkState (c_at s) SEnd (to_server s) (to_client s +:+ r) (printed s))
  | SEnd | SWild => None
  end.

Definition step (typed : string) : state -> state -> Prop := interleave (client_step typed) server_step.

Definition start : state := mkState CInput SRead "" "" None.

(** ** The specification *)

(** the exact operations *)
Inductive operation := Add (a b : Z) | Sub (a b : Z) | Mul (a b : Z) | Div (q b : Z).

(** a value that a double holds *)
Definition exact (z : Z) : Prop := - 2 ^ 53 < z < 2 ^ 53.

Definition operands_exact (o : operation) : Prop :=
  match o with
  | Add a b => exact a /\ exact b /\ exact (a + b)
  | Sub a b => exact a /\ exact b /\ exact (a - b)
  | Mul a b => exact a /\ exact b /\ exact (a * b)
  | Div q b => exact q /\ exact b /\ exact (q * b)
  end.

(** what is typed: for a division, the dividend is [q * b] *)
Definition command_line (o : operation) : string :=
  let line c a b := c +:+ " " +:+ pretty a +:+ " " +:+ pretty b in
  match o with
  | Add a b => line "ADD" a b | Sub a b => line "SUB" a b | Mul a b => line "MUL" a b | Div q b => line "DIV" (q * b) b
  end.

(** a zero that comes out of a product or a quotient keeps its sign *)
Definition signed (z : Z) (neg : bool) : string := (if z =? 0 then minus neg +:+ "0" else pretty z) +:+ ".00".

Definition expected (o : operation) : string :=
  match o with
  | Add a b => "RESULT " +:+ pretty (a + b) +:+ ".00"
  | Sub a b => "RESULT " +:+ pretty (a - b) +:+ ".00"
  | Mul a b => "RESULT " +:+ signed (a * b) (xorb (a <? 0) (b <? 0))
  | Div q b => if b =? 0 then "ERROR Division by zero" else "RESULT " +:+ signed q (b <? 0)
  end.

(** ** Lemmas *)

Lemma scan_two c a b : c <> "" -> str_all (fun x => negb (is_space x)) c = true -> (strlen c <? COMMAND_SIZE)%nat = true ->
  scan_command (c +:+ " " +:+ pretty a +:+ " " +:+ pretty b) = Done (Some (c, d_of_int a, d_of_int b)).
Proof.
  intros Hne Hc Hl. unfold scan_command. rewrite scan_s_app by (done || (by left) || (rewrite !strlen_app; lia)).
  rewrite Hl. f_equal. cbn [String.append]. rewrite scan_lf_skip by done.
  rewrite scan_lf_pretty by by right. cbn [mbind option_bind]. rewrite scan_lf_skip by done. rewrite <- (str_app_nil_r (pretty b)).
  by rewrite scan_lf_pretty by by left.
Qed.

Lemma eqb_zero b : exact b -> SFeqb (d_of_int b) (S754_zero false) = (b =? 0).
Proof.
  intros Hb. change (d_of_int b) with (binary_normalize (Z.of_nat 53) 1024 b 0 false). rewrite of_int_canon by (done || lia).
  by destruct b.
Qed.

Lemma exact_short z : exact z -> (strlen (pretty z) <= 17)%nat.
Proof. unfold exact. intros Hz. apply (strlen_pretty 16); [lia|]. simpl. lia. Qed.

Lemma show_signed z neg : exact z -> show_f nan_text (if z =? 0 then S754_zero neg else d_of_int z) = signed z neg.
Proof.
  intros Hz. unfold signed. destruct (Z.eqb_spec z 0) as [->|Hne]; [by destruct neg|]. by apply show_d_int.
Qed.

Lemma result_fits r : (strlen r < 90)%nat -> (strlen ("RESULT " +:+ r) <? RESPONSE_SIZE)%nat = true.
Proof. intros Hr. apply Nat.ltb_lt. rewrite strlen_app. unfold RESPONSE_SIZE. cbn [strlen]. lia. Qed.

Lemma signed_short z neg : exact z -> (strlen (signed z neg) < 90)%nat.
Proof.
  intros Hz%exact_short. unfold signed. destruct (z =? 0), neg; cbn [minus]; rewrite ?strlen_app; cbn [strlen String.append]; lia.
Qed.

Lemma plain_short z : exact z -> (strlen (pretty z +:+ ".00") < 90)%nat.
Proof. intros Hz%exact_short. rewrite strlen_app. cbn [strlen]. lia. Qed.

Context (Hjunk : starts_with "ERROR" junk = false).

Lemma answer_result c a b x r : c <> "" -> str_all (fun x => negb (is_space x)) c = true -> (strlen c <? COMMAND_SIZE)%nat = true ->
  execute c (d_of_int a) (d_of_int b) = (junk, x) -> show_f nan_text x = r -> (strlen r < 90)%nat ->
  answer (c +:+ " " +:+ pretty a +:+ " " +:+ pretty b) = Done ("RESULT " +:+ r).
Proof.
  intros Hne Hc Hl Hx Hr Hs. unfold answer. rewrite scan_two by done. cbn [mbind outcome_bind]. rewrite Hx, Hjunk, Hr. cbv zeta. by rewrite result_fits.
Qed.

Lemma answer_expected o : operands_exact o -> answer (command_line o) = Done (expected o).
Proof.
  destruct o as [a b|a b|a b|q b]; cbn [operands_exact command_line expected]; intros (Ha & Hb & Hc).
  - apply (answer_result "ADD" a b (d_of_int (a + b))); try done; [by rewrite <- dadd_int|by apply show_d_int|by apply plain_short].
  - apply (answer_result "SUB" a b (d_of_int (a - b))); try done; [by rewrite <- dsub_int|by apply show_d_int|by apply plain_short].
  - eapply (answer_result "MUL" a b); [done..| |by apply show_signed|by apply signed_short].
    by rewrite <- dmul_int.
  - destruct (Z.eqb_spec b 0) as [->|Hne].
    + unfold answer. rewrite scan_two by done. reflexivity.
    + eapply (answer_result "DIV" (q * b) b); [done..| |by apply show_signed|by apply signed_short].
      rewrite <- ddiv_int by done. change (execute "DIV" (d_of_int (q * b)) (d_of_int b)) with
        (if SFeqb (d_of_int b) (S754_zero false) then ("ERROR Division by zero", S754_zero false) else (junk, ddiv (d_of_int (q * b)) (d_of_int b))).
      by rewrite eqb_zero, (proj2 (Z.eqb_neq b 0)).
Qed.

(** *** The conversation *)

(** a line that [message] holds, without its newline *)
Definition one_line (m : string) : Prop :=
  m <> "" /\ str_all (fun a => negb (is_newline a)) m = true /\ (strlen m < MESSAGE_SIZE - 1)%nat.

(** The states of a conversation about the line [m], which is answered with [r]. *)
Inductive talk (m r : string) : state -> Prop :=
| talk_start : talk m r start
| talk_sent : talk m r (mkState CReply SRead m "" None)
| talk_answer : talk m r (mkState CReply (SSend r) "" "" None)
| talk_reply : talk m r (mkState CReply SEnd "" r None)
| talk_end : talk m r (mkState CEnd SEnd "" "" (Some r)).

Lemma span_all n m : (strlen m <= n)%nat -> span n (fun _ => true) m = (m, "").
Proof. intros Hl. apply span_whole; [|done]. clear Hl. by induction m. Qed.

Lemma send_line m : one_line m -> cut is_newline (fgets (MESSAGE_SIZE - 1) (m +:+ nl)).1 = m.
Proof.
  intros (_ & Hm & Hl). rewrite <- (str_app_nil_r nl) at 1. rewrite fgets_line by done. cbn [fst]. by apply cut_app.
Qed.

(** how many calls are left *)
Definition left (s : state) : nat :=
  (match c_at s with CInput => 2 | CReply => 1 | _ => 0 end + match s_at s with SRead => 2 | SSend _ => 1 | _ => 0 end)%nat.

Lemma talk_steps m r s s' : one_line m -> answer m = Done r -> (0 < strlen r < BUFFER_SIZE)%nat -> talk m r s ->
  step (m +:+ nl) s s' -> talk m r s' /\ left s = S (left s').
Proof.
  intros Hm Ha Hr Ht [Hs|Hs]; unfold client_step, server_step in Hs; destruct Ht;
    cbn [start c_at s_at to_server to_client printed] in Hs; try done.
  - destruct m as [|c m']; [by destruct Hm|]. cbn [String.append] in Hs. apply (inj Some) in Hs as <-.
    change (String c (m' +:+ nl)) with (String c m' +:+ nl). rewrite send_line by done. by split; [constructor|].
  - destruct r as [|c r']; [simpl in Hr; lia|]. rewrite span_all in Hs by (unfold BUFFER_SIZE in *; lia). apply (inj Some) in Hs as <-. by split; [constructor|].
  - rewrite span_all in Hs by (destruct Hm as (_ & _ & Hl); unfold BUFFER_SIZE, MESSAGE_SIZE in *; lia).
    cbn [fst snd] in Hs. rewrite Ha in Hs. destruct m; [by destruct Hm|]. apply (inj Some) in Hs as <-. by split; [constructor|].
  - apply (inj Some) in Hs as <-. by split; [constructor|].
Qed.

Lemma talk_stuck m r s : answer m = Done r -> (0 < strlen r)%nat -> one_line m -> talk m r s -> (forall s', ~ step (m +:+ nl) s s') ->
  s = mkState CEnd SEnd "" "" (Some r).
Proof.
  intros Ha Hr Hm Ht Hs. pose proof (stuck_first _ _ _ Hs) as Hc. pose proof (stuck_second _ _ _ Hs) as Hv. unfold client_step in Hc. unfold server_step in Hv.
  destruct Ht; cbn [start c_at s_at to_server to_client printed] in Hc, Hv; try done.
  - destruct m; [by destruct Hm|done].
  - rewrite span_all in Hv by (destruct Hm as (_ & _ & Hl); unfold BUFFER_SIZE, MESSAGE_SIZE in *; lia). cbn [fst snd] in Hv. rewrite Ha in Hv.
    destruct m; [by destruct Hm|done].
  - destruct r; [simpl in Hr; lia|done].
Qed.
End calculator.

Lemma pretty_no_newline (z : Z) : str_all (fun a => negb (is_newline a)) (pretty z) = true.
Proof. apply str_all_pretty; [|done]. intros a Ha. unfold is_newline. by rewrite digit_not by (done || lia). Qed.

Lemma command_one_line o : operands_exact o -> one_line (command_line o).
Proof.
  assert (forall c a b, c <> "" -> str_all (fun x => negb (is_newline x)) c = true -> (strlen c <= 10)%nat -> exact a -> exact b ->
    one_line (c +:+ " " +:+ pretty a +:+ " " +:+ pretty b)) as Hl.
  { intros c a b Hne Hc Hlen Ha%exact_short Hb%exact_short. split_and!; [by destruct c| |].
    - rewrite !str_all_app, Hc, !pretty_no_newline. done.
    - rewrite !strlen_app. unfold MESSAGE_SIZE. cbn [strlen]. lia. }
  destruct o; intros (Ha & Hb & Hc); apply Hl; try done; simpl; lia.
Qed.

Lemma expected_short o : operands_exact o -> (0 < strlen (expected o) < BUFFER_SIZE)%nat.
Proof.
  assert (forall r, (strlen r < 90)%nat -> (0 < strlen ("RESULT " +:+ r) < BUFFER_SIZE)%nat) as Hr.
  { intros r Hr. rewrite strlen_app. unfold BUFFER_SIZE. cbn [strlen]. lia. }
  destruct o as [a b|a b|a b|q b]; intros (Ha & Hb & Hc); cbn [expected]; [by apply Hr, plain_short..|by apply Hr, signed_short|].
  destruct (b =? 0); [unfold BUFFER_SIZE; cbn [strlen]; lia|by apply Hr, signed_short].
Qed.

Lemma talk_run nan_text junk m r k s s' : one_line m -> answer nan_text junk m = Done r -> (0 < strlen r < BUFFER_SIZE)%nat -> talk m r s ->
  nsteps (step nan_text junk (m +:+ nl)) k s s' -> talk m r s' /\ left s = (k + left s')%nat.
Proof.
  intros Hm Ha Hr Ht Hs. revert Ht. induction Hs as [s|k s s1 s' H1 _ IH]; intros Ht; [done|].
  destruct (talk_steps nan_text junk m r s s1 Hm Ha Hr Ht H1) as [Ht1 Hl]. destruct (IH Ht1) as [Ht' Hl']. split; [done|lia].
Qed.

(** ** Properties *)

(** C30: for every sum, difference, product and exact quotient of integers that a double holds exactly,
    in every interleaving of client and server: no run is longer than the four calls on the connection,
    and a run can only stop when both have ended and the client has printed the exact result with two
    decimals, or the error for a division by zero, whatever characters [response] held before,
    as long as they do not begin with ERROR. *)
Theorem calculator_correct nan_text junk o k s : starts_with "ERROR" junk = false -> operands_exact o ->
  nsteps (step nan_text junk (command_line o +:+ nl)) k start s ->
  (k <= 4)%nat /\ ((forall s', ~ step nan_text junk (command_line o +:+ nl) s s') ->
    s = mkState CEnd SEnd "" "" (Some (expected o)) /\ k = 4%nat).
Proof.
  intros Hj Ho Hs. pose proof (command_one_line o Ho) as Hm. pose proof (answer_expected nan_text junk Hj o Ho) as Ha.
  pose proof (expected_short o Ho) as Hr. destruct (talk_run nan_text junk _ _ _ _ _ Hm Ha Hr (talk_start _ _) Hs) as [Ht Hl].
  change (left start) with 4%nat in Hl. split; [lia|]. intros Hstuck.
  assert (s = mkState CEnd SEnd "" "" (Some (expected o))) as -> by (eapply talk_stuck; [done|lia|done..]). cbn in Hl. split; [done|lia].
Qed.

(** An empty line: [send] writes nothing, and both processes wait in [read] for ever. *)
Lemma empty_line_waits nan_text junk :
  rtc (step nan_text junk nl) start (mkState CReply SRead "" "" None) /\
  forall s', ~ step nan_text junk nl (mkState CReply SRead "" "" None) s'.
Proof.
  split; [apply rtc_once; by left|]. apply not_step; done.
Qed.

(** A first word of ten characters or more overruns [command]. *)
Lemma long_command nan_text junk : answer nan_text junk "MULTIPLYBY 1 2" = Undef.
Proof. done. Qed.

(** A result of more than ninety digits overruns [response]. *)
Lemma long_result nan_text : answer nan_text "" "MUL 1e50 1e50" = Undef.
Proof. vm_compute. done. Qed.

(** What [response] happens to hold decides whether the result is written at all. *)
Lemma left_over_error nan_text : answer nan_text "ERROR in an earlier call" "ADD 1 2" = Done "ERROR in an earlier call".
Proof. done. Qed.

Example answers : answer "nan" "" <$> ["DIV 2 3"; "SUB 0.125 1e-3"; "MUL 0 -5"; "POW 2 3"; "ADD 1"; "ADD 0x1p4 inf"] =
  Done <$> ["RESULT 0.67"; "RESULT 0.12"; "RESULT -0.00"; "ERROR Unknown command"; "ERROR Invalid format"; "RESULT inf"].
Proof. by vm_compute. Qed.

(** ** Witness *)

Lemma calculator_correct_witness : exists k s, nsteps (step "nan" "" (command_line (Div (-7) 6) +:+ nl)) k start s /\
  printed s = Some "RESULT -7.00" /\ (k <= 4)%nat.
Proof.
  destruct (run (client_step (command_line (Div (-7) 6) +:+ nl)) (server_step "nan" "") [true; false; false; true] start) as [s|] eqn:Hr; [|by vm_compute in Hr].
  apply run_rtc in Hr as Hs. apply rtc_nsteps in Hs as [k Hs]. exists k, s. split; [exact Hs|]. split; [vm_compute in Hr; by injection Hr as <-|].
  apply (calculator_correct "nan" "" (Div (-7) 6) k s); [done|repeat split; simpl; lia|exact Hs].
Defined.
