(* ===== verification/Latency.v ===== *)
(** * The latency client and its server

    IPCs/checkLatency: client.c makes ten connections, one after the other, with one message
    on each; server.c accepts ten connections and answers the message on each.  A state holds
    both processes and all connections that were made; a step is one system call of one
    process with the code up to the next one.  The server listens before the client starts,
    the calls that could fail for want of resources succeed, and a message, which is small,
    arrives as a whole.  The measured times are left out. *)
From S2P Require Import Prelude ByteFile TwoProcesses.

(** ** The two processes *)

Definition BUF_SIZE : nat := 1024.
Definition REQUESTS : nat := 10.

(** [CWild] and [SWild]: a byte was written behind the buffer *)
Inductive client_control := CConnect | CSend | CRecv | CClose | CExited | CRefused | CWild.
Inductive server_control := SAccept | SRead | SWrite | SClose | SExited | SWild.

Record connection := mkConn { request : bytes; reply : bytes; client_closed : bool; server_closed : bool }.

Record state := mkState {
  client : client_control; c_turn : nat; server : server_control; s_turn : nat;   (* the variables [i] *)
  conns : list connection; replies : list bytes; received : list bytes }.

Definition OK : bytes := ["O"%byte; "K"%byte; "010"%byte].

Section latency.
Context (msg : bytes).

(** one step of the client, if it is not blocked or at its end *)
Definition step_client (s : state) : option state :=
  let goto c cs := mkState c (c_turn s) (server s) (s_turn s) cs (replies s) (received s) in
  match client s with
  | CConnect =>
      match server s with
      | SExited => Some (goto CRefused (conns s))
      | _ => Some (goto CSend (conns s ++ [mkConn [] [] false false]))
      end
  | CSend =>
      c ← conns s !! c_turn s;
      Some (goto CRecv (<[c_turn s := mkConn (request c ++ msg) (reply c) (client_closed c) (server_closed c)]> (conns s)))
  | CRecv =>
      c ← conns s !! c_turn s;
      match take BUF_SIZE (reply c) with
      | [] => if server_closed c then Some (goto CClose (conns s)) else None
      | d =>
          if (length d =? BUF_SIZE)%nat then Some (goto CWild (conns s)) else   (* buffer[bytes] = '\0' *)
          Some (mkState CClose (c_turn s) (server s) (s_turn s)
            (<[c_turn s := mkConn (request c) (drop BUF_SIZE (reply c)) (client_closed c) (server_closed c)]> (conns s)) (replies s ++ [d]) (received s))
      end
  | CClose =>
      c ← conns s !! c_turn s;
      Some (mkState (if (S (c_turn s) <? REQUESTS)%nat then CConnect else CExited) (S (c_turn s)) (server s) (s_turn s)
        (<[c_turn s := mkConn (request c) (reply c) true (server_closed c)]> (conns s)) (replies s) (received s))
  | CExited | CRefused | CWild => None
  end.

(** one step of the server; [accept] takes the connections in the order in which they were made *)
Definition step_server (s : state) : option state :=
  let goto c cs := mkState (client s) (c_turn s) c (s_turn s) cs (replies s) (received s) in
  match server s with
  | SAccept => _ ← conns s !! s_turn s; Some (goto SRead (conns s))
  | SRead =>
      c ← conns s !! s_turn s;
      match take BUF_SIZE (request c) with
      | [] => if client_closed c then Some (goto SClose (conns s)) else None
      | d =>
          if (length d =? BUF_SIZE)%nat then Some (goto SWild (conns s)) else
          Some (mkState (client s) (c_turn s) SWrite (s_turn s)
            (<[s_turn s := mkConn (drop BUF_SIZE (request c)) (reply c) (client_closed c) (server_closed c)]> (conns s)) (replies s) (received s ++ [d]))
      end
  | SWrite =>
      c ← conns s !! s_turn s;
      Some (goto SClose (<[s_turn s := mkConn (request c) (reply c ++ OK) (client_closed c) (server_closed c)]> (conns s)))
  | SClose =>
      c ← conns s !! s_turn s;
      Some (mkState (client s) (c_turn s) (if (S (s_turn s) <? REQUESTS)%nat then SAccept else SExited) (S (s_turn s))
        (<[s_turn s := mkConn (request c) (reply c) (client_closed c) true]> (conns s)) (replies s) (received s))
  | SExited | SWild => None
  end.

Definition step : state -> state -> Prop := interleave step_client step_server.
End latency.

Definition start : state := mkState CConnect 0 SAccept 0 [] [] [].

(** [msg] of the client *)
Definition ping : bytes := String.list_byte_of_string "ping" ++ ["010"%byte].

(** ** The invariant *)

(** the server is between the conversations [i - 1] and [i]: it has still to close, or it waits *)
Definition between (i : nat) (c : server_control) (j : nat) : Prop :=
  c = SClose /\ S j = i \/ j = i /\ c = (if (i <? REQUESTS)%nat then SAccept else SExited).

Section invariant.
Context (msg : bytes).

(** how far the conversation [i] of the client is *)
Inductive talk (i : nat) : client_control -> server_control -> nat -> option connection -> nat -> nat -> Prop :=
| talk_none sc j : (i <= REQUESTS)%nat -> between i sc j -> talk i (if (i <? REQUESTS)%nat then CConnect else CExited) sc j None i i
| talk_new sc j : (i < REQUESTS)%nat -> between i sc j \/ sc = SRead /\ j = i -> talk i CSend sc j (Some (mkConn [] [] false false)) i i
| talk_asked sc j : (i < REQUESTS)%nat -> between i sc j \/ sc = SRead /\ j = i -> talk i CRecv sc j (Some (mkConn msg [] false false)) i i
| talk_read : (i < REQUESTS)%nat -> talk i CRecv SWrite i (Some (mkConn [] [] false false)) i (S i)
| talk_answered sc j b : (i < REQUESTS)%nat -> between (S i) sc j -> talk i CRecv sc j (Some (mkConn [] OK false b)) i (S i)
| talk_heard sc j b : (i < REQUESTS)%nat -> between (S i) sc j -> talk i CClose sc j (Some (mkConn [] [] false b)) (S i) (S i).

Definition inv (s : state) : Prop := exists nr ns,
  talk (c_turn s) (client s) (server s) (s_turn s) (conns s !! c_turn s) nr ns /\ (length (conns s) <= S (c_turn s))%nat /\
  (c_turn s <= length (conns s))%nat /\ replies s = replicate nr OK /\ received s = replicate ns msg.

Lemma replicate_snoc {A} n (x : A) : replicate n x ++ [x] = replicate (S n) x.
Proof. symmetry. apply replicate_S_end. Qed.

Lemma inv_start : inv start.
Proof.
  exists 0%nat, 0%nat. split_and!; [|simpl; lia|simpl; lia|done|done]. apply (talk_none 0 SAccept 0); [unfold REQUESTS; lia|by right].
Qed.

(** a message that is not empty and not as long as the buffer is read as it is *)
Lemma read_whole (d : bytes) : (0 < length d < BUF_SIZE)%nat ->
  (exists b d', d = b :: d') /\ take BUF_SIZE d = d /\ (length d =? BUF_SIZE)%nat = false /\ drop BUF_SIZE d = [].
Proof.
  intros Hd. destruct d as [|b d]; [simpl in Hd; lia|]. split; [by eexists _, _|]. rewrite take_ge, drop_ge by lia. split_and!; [done| |done].
  apply Nat.eqb_neq. lia.
Qed.

Lemma server_reads d c i cs rs gs : (0 < length d < BUF_SIZE)%nat -> cs !! i = Some (mkConn d [] false false) ->
  step_server (mkState c i SRead i cs rs gs) = Some (mkState c i SWrite i (<[i := mkConn [] [] false false]> cs) rs (gs ++ [d])).
Proof.
  intros Hd Hc. destruct (read_whole d Hd) as ((b & d' & ->) & Htk & Hlen & Hdr). unfold step_server.
  cbn [server s_turn conns client c_turn replies received]. rewrite Hc. cbn [mbind option_bind request reply client_closed server_closed].
  by rewrite Htk, Hdr, Hlen.
Qed.

Lemma last_turn {A} (cs : list A) i : cs !! i = None -> (i <= length cs)%nat -> length cs = i.
Proof. intros Hn%lookup_ge_None Hi. lia. Qed.

Lemma insert_conn (cs : list connection) i c x : cs !! i = Some c -> <[i := x]> cs !! i = Some x.
Proof. intros H. apply list_lookup_insert_eq. by eapply lookup_lt_Some. Qed.

(** what the invariant says of the numbers, for a state that is given by its parts *)
Lemma inv_intro c i sc j cs nr ns : talk i c sc j (cs !! i) nr ns -> (i <= length cs <= S i)%nat ->
  inv (mkState c i sc j cs (replicate nr OK) (replicate ns msg)).
Proof. intros Ht Hl. exists nr, ns. cbn. split; [done|]. split_and!; first [lia|done]. Qed.

Lemma step_client_inv s s' : inv s -> step_client msg s = Some s' -> inv s'.
Proof.
  intros (nr & ns & Ht & Hl & Hl' & Hr & Hg). destruct s as [c i sc j cs rs gs]. cbn in Ht, Hl, Hl', Hr, Hg. subst rs gs.
  unfold step_client. cbn [client c_turn server s_turn conns replies received].
  remember (cs !! i) as o eqn:Hc. destruct Ht as [sc j Hi Hb|sc j Hi Hb|sc j Hi Hb| |sc j b Hi Hb|sc j b Hi Hb]; symmetry in Hc.
  - destruct (Nat.ltb_spec i REQUESTS) as [Hlt|]; [|done]. pose proof (last_turn _ _ Hc Hl') as Hlen.
    assert (sc <> SExited) as Hsc by (destruct Hb as [[-> _]|[_ ->]]; [done|by rewrite (proj2 (Nat.ltb_lt _ _) Hlt)]).
    intros H. assert (s' = mkState CSend i sc j (cs ++ [mkConn [] [] false false]) (replicate i OK) (replicate i msg)) as ->.
    { destruct sc; try done; by injection H. }
    apply inv_intro; [|rewrite length_app; simpl; lia]. rewrite list_lookup_middle by done. apply talk_new; [done|by left].
  - cbn [mbind option_bind request reply client_closed server_closed app]. intros [= <-].
    apply inv_intro; [|by rewrite length_insert]. rewrite (insert_conn _ _ _ _ Hc). by apply talk_asked.
  - by cbn.
  - by cbn.
  - destruct (read_whole OK) as (_ & Htk & Hlen & Hdr); [unfold BUF_SIZE; simpl; lia|].
    cbn [mbind option_bind request reply client_closed server_closed]. rewrite Htk, Hdr. cbn [OK]. fold OK. rewrite Hlen, replicate_snoc. intros [= <-].
    apply (inv_intro _ _ _ _ _ (S i) (S i)); [|by rewrite length_insert]. rewrite (insert_conn _ _ _ _ Hc). by apply talk_heard.
  - cbn [mbind option_bind request reply client_closed server_closed]. intros [= <-].
    assert (length cs = S i) as Hlen by (apply lookup_lt_Some in Hc; lia).
    apply (inv_intro _ _ _ _ _ (S i) (S i)); [|rewrite length_insert; lia]. rewrite (lookup_ge_None_2 _ (S i)) by (rewrite length_insert; lia).
    apply talk_none; [lia|done].
Qed.

(** the end of a conversation of the server *)
Lemma between_close i j : between i SClose j -> between i (if (S j <? REQUESTS)%nat then SAccept else SExited) (S j).
Proof. intros [[_ <-]|[_ H]]; [right; done|]. by destruct (i <? REQUESTS)%nat. Qed.

Lemma between_accept i j : between i SAccept j -> j = i /\ (i < REQUESTS)%nat.
Proof. intros [[H _]|[-> H]]; [done|]. split; [done|]. by destruct (Nat.ltb_spec i REQUESTS). Qed.

(** closing the last connection of the server does not touch the one that the client has made since *)
Lemma close_other (cs : list connection) i j x : (j < i)%nat -> <[j := x]> cs !! i = cs !! i.
Proof. intros H. apply list_lookup_insert_ne. lia. Qed.

Context (Hmsg : (0 < length msg < BUF_SIZE)%nat).

(** what the server does between two conversations *)
Lemma server_between k c i sc j cs rs gs s' : between k sc j -> step_server (mkState c i sc j cs rs gs) = Some s' ->
  (sc = SAccept /\ j = k /\ is_Some (cs !! k) /\ s' = mkState c i SRead k cs rs gs) \/
  (S j = k /\ exists x, cs !! j = Some x /\ between k (if (S j <? REQUESTS)%nat then SAccept else SExited) (S j) /\
    s' = mkState c i (if (S j <? REQUESTS)%nat then SAccept else SExited) (S j)
      (<[j := mkConn (request x) (reply x) (client_closed x) true]> cs) rs gs).
Proof.
  intros Hb. unfold step_server. cbn [client c_turn server s_turn conns replies received]. pose proof Hb as [[-> Hj]|[-> Hsc]].
  - destruct (cs !! j) as [x|] eqn:Hx; [|done]. intros [= <-]. right. split; [done|]. exists x. split_and!; [done|by apply between_close|done].
  - rewrite Hsc. destruct (k <? REQUESTS)%nat; [|done]. destruct (cs !! k) as [x|]; [|done]. intros [= <-]. left. by split_and!.
Qed.

(** the connection [i] when the server closes one *)
Lemma closed_lookup (cs : list connection) i j x : cs !! j = Some x ->
  <[j := mkConn (request x) (reply x) (client_closed x) true]> cs !! i =
    if decide (j = i) then Some (mkConn (request x) (reply x) (client_closed x) true) else cs !! i.
Proof. intros Hx. case_decide as H; [subst; by eapply insert_conn|by apply list_lookup_insert_ne]. Qed.

Lemma step_server_inv s s' : inv s -> step_server s = Some s' -> inv s'.
Proof using Hmsg.
  intros (nr & ns & Ht & Hl & Hl' & Hr & Hg). destruct s as [c i sc j cs rs gs]. cbn in Ht, Hl, Hl', Hr, Hg. subst rs gs.
  remember (cs !! i) as o eqn:Hc. destruct Ht as [sc j Hi Hb|sc j Hi [Hb|[-> ->]]|sc j Hi [Hb|[-> ->]]| |sc j b Hi Hb|sc j b Hi Hb]; symmetry in Hc.
  1,2,4,7,8: intros H; destruct (server_between _ _ _ _ _ _ _ _ _ Hb H) as [(-> & -> & [y Hy] & ->)|(Hj & x & Hx & Hb' & ->)];
    (apply inv_intro; [|rewrite ?length_insert; lia]); rewrite ?(closed_lookup _ i _ _ Hx), ?Hc.
  - congruence.
  - rewrite decide_False by lia. by apply talk_none.
  - apply talk_new; [done|]. right. by split.
  - rewrite decide_False by lia. apply talk_new; [done|by left].
  - apply talk_asked; [done|]. right. by split.
  - rewrite decide_False by lia. apply talk_asked; [done|by left].
  - apply lookup_lt_Some in Hy. lia.
  - rewrite decide_True by lia. replace x with (mkConn [] OK false b) by congruence. by apply talk_answered.
  - apply lookup_lt_Some in Hy. lia.
  - rewrite decide_True by lia. replace x with (mkConn [] [] false b) by congruence. by apply talk_heard.
  - unfold step_server. cbn [server s_turn conns]. rewrite Hc. by cbn.
  - rewrite (server_reads msg) by done. rewrite replicate_snoc. intros [= <-].
    apply (inv_intro _ _ _ _ _ i (S i)); [|by rewrite length_insert]. rewrite (insert_conn _ _ _ _ Hc). by apply talk_read.
  - unfold step_server. cbn [server s_turn conns client c_turn replies received]. rewrite Hc.
    cbn [mbind option_bind request reply client_closed server_closed app]. intros [= <-].
    apply (inv_intro _ _ _ _ _ i (S i)); [|by rewrite length_insert]. rewrite (insert_conn _ _ _ _ Hc). apply talk_answered; [done|]. left. by split.
Qed.

Lemma latency_inv s : rtc (step msg) start s -> inv s.
Proof using Hmsg. apply rtc_inv; [apply step_client_inv|apply step_server_inv|apply inv_start]. Qed.

Lemma between_bounds k sc j : between k sc j -> (k <= REQUESTS)%nat -> sc <> SWild /\ ((j < REQUESTS)%nat \/ sc = SExited) /\ (j <= REQUESTS)%nat.
Proof using Type. clear Hmsg. intros [[-> Hj]|[-> ->]] Hk; [split_and!; [done|left; lia|lia]|]. destruct (Nat.ltb_spec k REQUESTS); split_and!; auto. Qed.

(** nobody is refused, nothing is written behind a buffer, and the turns are those of the loops *)
Lemma inv_bounds s : inv s -> (client s <> CRefused /\ client s <> CWild /\ ((c_turn s < REQUESTS)%nat \/ client s = CExited)) /\
  server s <> SWild /\ ((s_turn s < REQUESTS)%nat \/ server s = SExited) /\ (s_turn s <= REQUESTS)%nat.
Proof using Type.
  clear Hmsg.
  intros (nr & ns & Ht & _). destruct s as [c i sc j cs rs gs]. cbn [client c_turn server s_turn conns] in *. remember (cs !! i) as o.
  destruct Ht as [sc j Hi Hb|sc j Hi [Hb|[-> ->]]|sc j Hi [Hb|[-> ->]]|Hi|sc j b Hi Hb|sc j b Hi Hb];
    (split; [|first [exact (between_bounds _ _ _ Hb ltac:(lia))|split; [done|split; [left; lia|lia]]]]); try (split_and!; [done|done|by left]).
  destruct (Nat.ltb_spec i REQUESTS); split_and!; auto.
Qed.

(** the steps that are left *)
Definition client_phase (c : client_control) : nat := match c with CSend => 1 | CRecv => 2 | CClose => 3 | _ => 0 end.
Definition server_phase (c : server_control) : nat := match c with SRead => 1 | SWrite => 2 | SClose => 3 | _ => 0 end.

Definition steps_left (s : state) : nat :=
  (4 * (REQUESTS - c_turn s) - client_phase (client s)) + (4 * (REQUESTS - s_turn s) - server_phase (server s)).

Lemma client_left s s' : inv s -> step_client msg s = Some s' -> (steps_left s' < steps_left s)%nat.
Proof using Type.
  clear Hmsg.
  intros Hi Hs. destruct (inv_bounds s Hi) as ((_ & _ & Hb) & _). destruct (inv_bounds s' (step_client_inv s s' Hi Hs)) as ((Hr & Hw & _) & _).
  destruct s as [c i sc j cs rs gs]. unfold step_client in Hs. cbn [client c_turn server s_turn conns replies received] in *.
  destruct c; try done; destruct Hb as [Hb|Hb]; try done; unfold steps_left.
  - destruct sc; injection Hs as <-; cbn [client c_turn server s_turn client_phase server_phase] in Hr |- *; first [done|lia].
  - destruct (cs !! i) as [x|]; [|done]. injection Hs as <-. cbn [client c_turn server s_turn client_phase server_phase]. lia.
  - destruct (cs !! i) as [x|]; [|done]. cbn [mbind option_bind] in Hs. destruct (take BUF_SIZE (reply x)) as [|y d].
    + destruct (server_closed x); [|done]. injection Hs as <-. cbn [client c_turn server s_turn client_phase server_phase]. lia.
    + destruct (length (y :: d) =? BUF_SIZE)%nat; injection Hs as <-; [done|]. cbn [client c_turn server s_turn client_phase server_phase]. lia.
  - destruct (cs !! i) as [x|]; [|done]. injection Hs as <-. cbn [client c_turn server s_turn client_phase server_phase]. destruct (_ <? _)%nat; lia.
Qed.

Lemma server_left s s' : inv s -> step_server s = Some s' -> (steps_left s' < steps_left s)%nat.
Proof using Hmsg.
  intros Hi Hs. destruct (inv_bounds s Hi) as (_ & _ & Hb & _). destruct (inv_bounds s' (step_server_inv s s' Hi Hs)) as (_ & Hw & _).
  destruct s as [c i sc j cs rs gs]. unfold step_server in Hs. cbn [client c_turn server s_turn conns replies received] in *.
  destruct sc; try done; destruct Hb as [Hb|Hb]; try done; unfold steps_left; destruct (cs !! j) as [x|]; try done; cbn [mbind option_bind] in Hs.
  - injection Hs as <-. cbn [client c_turn server s_turn client_phase server_phase]. lia.
  - destruct (take BUF_SIZE (request x)) as [|y d].
    + destruct (client_closed x); [|done]. injection Hs as <-. cbn [client c_turn server s_turn client_phase server_phase]. lia.
    + destruct (length (y :: d) =? BUF_SIZE)%nat; injection Hs as <-; [done|]. cbn [client c_turn server s_turn client_phase server_phase]. lia.
  - injection Hs as <-. cbn [client c_turn server s_turn client_phase server_phase]. lia.
  - injection Hs as <-. cbn [client c_turn server s_turn client_phase server_phase]. destruct (_ <? _)%nat; lia.
Qed.

Lemma run_left sch s s' : inv s -> run (step_client msg) step_server sch s = Some s' -> inv s' /\ (length sch + steps_left s' <= steps_left s)%nat.
Proof using Hmsg.
  revert s. induction sch as [|b sch IH]; intros s Hi; cbn [run]; [intros [= <-]; split; [done|simpl; lia]|].
  destruct b; [destruct (step_client msg s) as [s1|] eqn:H1|destruct (step_server s) as [s1|] eqn:H1]; try done; cbn [mbind option_bind length]; intros Hr.
  - pose proof (client_left _ _ Hi H1). destruct (IH s1 (step_client_inv _ _ Hi H1) Hr). split; [done|lia].
  - pose proof (server_left _ _ Hi H1). destruct (IH s1 (step_server_inv _ _ Hi H1) Hr). split; [done|lia].
Qed.

Lemma between_goes_on k c i sc j cs rs gs : between k sc j -> (j < length cs)%nat -> sc <> SExited -> step_server (mkState c i sc j cs rs gs) <> None.
Proof using Type.
  clear Hmsg. intros Hb Hj Hsc. destruct (lookup_lt_is_Some_2 cs j Hj) as [x Hx]. unfold step_server. cbn [server s_turn conns client c_turn replies received].
  rewrite Hx. destruct Hb as [[-> _]|[_ ->]]; [done|]. by destruct (k <? REQUESTS)%nat.
Qed.

(** one of the two can go on until both are at their ends *)
Lemma not_stuck s : inv s -> step_client msg s = None -> step_server s = None -> client s = CExited /\ server s = SExited /\
  replies s = replicate REQUESTS OK /\ received s = replicate REQUESTS msg.
Proof using Hmsg.
  intros (nr & ns & Ht & Hl & Hl' & Hr & Hg) Hc Hs. destruct s as [c i sc j cs rs gs]. cbn in Ht, Hl, Hl', Hr, Hg |- *. subst rs gs.
  unfold step_client in Hc. cbn [client c_turn server s_turn conns replies received] in Hc. remember (cs !! i) as o eqn:Ho.
  destruct Ht as [sc j Hi Hb|sc j Hi Hb|sc j Hi [Hb|[-> ->]]| |sc j b Hi Hb|sc j b Hi Hb]; symmetry in Ho; try done.
  - pose proof (last_turn _ _ Ho Hl') as Hlen. destruct (Nat.ltb_spec i REQUESTS); [by destruct sc|].
    assert (i = REQUESTS) as -> by lia. pose proof Hb as [[-> Hj]|[-> ->]]; [|by rewrite Nat.ltb_irrefl].
    by destruct (between_goes_on _ CExited REQUESTS _ _ cs (replicate REQUESTS OK) (replicate REQUESTS msg) Hb ltac:(lia)).
  - apply lookup_lt_Some in Ho. destruct (between_bounds _ _ _ Hb) as (_ & Hj & _); [lia|].
    assert (sc <> SExited) as Hne by (destruct Hb as [[-> _]|[_ ->]]; [done|by rewrite (proj2 (Nat.ltb_lt _ _) Hi)]).
    destruct (between_goes_on i CRecv i sc j cs (replicate i OK) (replicate i msg) Hb); [destruct Hb as [[_ ?]|[? _]]; lia|done|done].
  - by rewrite (server_reads msg) in Hs.
  - unfold step_server in Hs. cbn in Hs. by rewrite Ho in Hs.
Qed.
End invariant.

(** ** Properties *)

(** C29: For a message that fits, however the two processes run, the ten conversations take place: a run has
    at most 80 steps, nobody is refused or writes behind its buffer, and when no step is left the server has
    received the message ten times, the client has its ten answers, and both have left their loops. *)
Theorem ten_conversations msg sch s : (0 < length msg < BUF_SIZE)%nat -> run (step_client msg) step_server sch start = Some s ->
  (length sch <= 80)%nat /\ (client s <> CRefused /\ client s <> CWild /\ server s <> SWild) /\
  ((forall s', ~ step msg s s') -> client s = CExited /\ server s = SExited /\
    replies s = replicate REQUESTS OK /\ received s = replicate REQUESTS msg).
Proof.
  intros Hmsg Hr. destruct (run_left msg Hmsg sch start s (inv_start msg) Hr) as [Hi Hl]. change (steps_left start) with 80%nat in Hl.
  destruct (inv_bounds msg s Hi) as ((H1 & H2 & _) & H3 & _). split; [lia|]. split; [done|]. intros Hstuck.
  apply (not_stuck msg Hmsg s Hi); [by eapply stuck_first|by eapply stuck_second].
Qed.

(** the two take turns *)
Definition one_by_one : list bool := concat (replicate REQUESTS [true; true; false; false; false; false; true; true]).

Lemma ten_conversations_witness : exists s, run (step_client ping) step_server one_by_one start = Some s /\
  client s = CExited /\ server s = SExited /\ replies s = replicate REQUESTS OK /\ received s = replicate REQUESTS ping.
Proof.
  assert ((0 < length ping < BUF_SIZE)%nat) as Hp by (unfold BUF_SIZE; simpl; lia).
  assert ((fun s => (step_client ping s, step_server s)) <$> run (step_client ping) step_server one_by_one start = Some (None, None)) as He by by vm_compute.
  destruct (run (step_client ping) step_server one_by_one start) as [s|] eqn:Hr; [|done]. injection He as Hc Hs.
  exists s. split; [done|]. apply (ten_conversations ping one_by_one s Hp Hr). by apply not_step.
Defined.

(** A message of 1024 bytes makes the server write behind its buffer. *)
Example long_message : server <$> run (step_client (replicate 1024 x00)) step_server [true; true; false; false] start = Some SWild.
Proof. by vm_compute. Qed.
