(* ===== verification/MiniServer.v ===== *)
(** * The mini server

    IPCs/miniServer: [server.c] answers each connection in a child process or in a detached
    thread, and [client.c] opens ten connections one after the other.  Any number of clients
    run; a step is one system call of a client, of the server's [main] or of a worker with
    the code up to the next one.  Nobody waits for the children: a child that has exited stays
    in the process table, and [fork] fails when the table has no room for the user any more
    ([RLIMIT_NPROC]).  Other calls do not fail; the queue of [listen] blocks [connect] when it
    is full, and is not taken to be in order. *)
From S2P Require Import Prelude CString Actors.

(** ** The programs *)

Definition BACKLOG : nat := 10.
Definition BUF_SIZE : nat := 1024.
Definition REQUESTS : nat := 10.

Inductive server_mode := Fork | Threads.

(** [argv[1]]: whatever is not "thread" means processes *)
Definition mode_of (arg : string) : server_mode := if streq arg "thread" then Threads else Fork.

(** the client on a connection: before [send], in [recv], before [close], behind it *)
Inductive c_control := CSend | CRecv | CClose | CDone.

(** the server: not accepted, in [read], before [write], before [close], behind it, and
    closed by [main] because there was no child *)
Inductive w_control := WNone | WRead | WWrite | WClose | WDone | WDropped.

#[export] Instance c_control_eq_dec : EqDecision c_control.
Proof. solve_decision. Defined.
#[export] Instance w_control_eq_dec : EqDecision w_control.
Proof. solve_decision. Defined.

(** a connection, with what is on its way and what [recv] got *)
Record conn := mkConn { c_at : c_control; w_at : w_control; to_server : string; to_client : string; reply : string }.

(** a client: the requests it still makes, and the connection it is on *)
Record client := mkClient { requests : nat; current : option nat }.

(** the clients, all connections so far, and the children that were made, running or not reaped *)
Record world := mkWorld { clients : list client; conns : list conn; children : nat }.

Definition waiting (c : conn) : nat := match w_at c with WNone => 1 | _ => 0 end.

Section server.
Context (mode : server_mode) (limit : nat).

(** the calls of a client on its connection *)
Definition conn_client (c : conn) : option conn :=
  match c_at c with
  | CSend => Some (mkConn CRecv (w_at c) (to_server c +:+ "ping" +:+ nl) (to_client c) (reply c))
  | CRecv =>
      match to_client c, w_at c with
      | EmptyString, (WDone | WDropped) => Some (mkConn CClose (w_at c) (to_server c) "" "")
      | EmptyString, _ => None
      | _, _ =>
          let p := span BUF_SIZE (fun _ => true) (to_client c) in
          Some (mkConn CClose (w_at c) (to_server c) p.2 p.1)
      end
  | CClose => Some (mkConn CDone (w_at c) (to_server c) (to_client c) (reply c))
  | CDone => None
  end.

(** [handle_client]: [read], [write], [close] *)
Definition conn_worker (c : conn) : option conn :=
  match w_at c with
  | WRead =>
      match to_server c, c_at c with
      | EmptyString, (CSend | CRecv | CClose) => None
      | _, _ => Some (mkConn (c_at c) WWrite (span BUF_SIZE (fun _ => true) (to_server c)).2 (to_client c) (reply c))
      end
  | WWrite => Some (mkConn (c_at c) WClose (to_server c) (to_client c +:+ "OK" +:+ nl) (reply c))
  | WClose => Some (mkConn (c_at c) WDone (to_server c) (to_client c) (reply c))
  | WNone | WDone | WDropped => None
  end.

Definition put (i : nat) (c : conn) (w : world) : world := mkWorld (clients w) (<[i := c]> (conns w)) (children w).

(** one call of client [j]: on its connection, or the next [connect] *)
Definition client_act (j : nat) (w : world) : option world :=
  k ← clients w !! j;
  let connect :=
    match requests k with
    | O => None
    | S r =>
        if (sum_list_with waiting (conns w) <=? BACKLOG)%nat
        then Some (mkWorld (<[j := mkClient r (Some (length (conns w)))]> (clients w))
          (conns w ++ [mkConn CSend WNone "" "" ""]) (children w))
        else None
    end in
  match current k with
  | None => connect
  | Some i =>
      c ← conns w !! i;
      match c_at c with CDone => connect | _ => c' ← conn_client c; Some (put i c' w) end
  end.

Definition worker_act (i : nat) (w : world) : option world :=
  c ← conns w !! i; c' ← conn_worker c; Some (put i c' w).

(** one turn of the loop of [main]: [accept] of a connection that waits, then [fork] or
    [pthread_create] *)
Definition main_act (i : nat) (w : world) : option world :=
  c ← conns w !! i;
  let goto h := mkConn (c_at c) h (to_server c) (to_client c) (reply c) in
  match w_at c with
  | WNone =>
      match mode with
      | Threads => Some (put i (goto WRead) w)
      | Fork =>
          if (children w <? limit)%nat
          then Some (mkWorld (clients w) (<[i := goto WRead]> (conns w)) (S (children w)))
          else Some (put i (goto WDropped) w)
      end
  | _ => None
  end.

Inductive actor := Client (j : nat) | Worker (i : nat) | Accept (i : nat).

Definition act (a : actor) (w : world) : option world :=
  match a with Client j => client_act j w | Worker i => worker_act i w | Accept i => main_act i w end.

Definition step : world -> world -> Prop := act_step act.

Definition start (n : nat) : world := mkWorld (replicate n (mkClient REQUESTS None)) [] 0.

(** ** The specification *)

(** the connections that are answered when [n] are made in all *)
Definition answered (n : nat) : nat := match mode with Threads => n | Fork => n `min` limit end.

Definition OK : string := "OK" +:+ nl.

(** ** The invariant *)

(** the states of a connection, and the reply its client has *)
Inductive conn_ok : conn -> Prop :=
| ok_connected w : w = WNone \/ w = WRead \/ w = WDropped -> conn_ok (mkConn CSend w "" "" "")
| ok_sent w : w = WNone \/ w = WRead \/ w = WDropped -> conn_ok (mkConn CRecv w ("ping" +:+ nl) "" "")
| ok_read : conn_ok (mkConn CRecv WWrite "" "" "")
| ok_written w : w = WClose \/ w = WDone -> conn_ok (mkConn CRecv w "" OK "")
| ok_got c w : c = CClose \/ c = CDone -> w = WClose \/ w = WDone -> conn_ok (mkConn c w "" "" OK)
| ok_lost c : c = CClose \/ c = CDone -> conn_ok (mkConn c WDropped ("ping" +:+ nl) "" "").

(** the connections that have, or had, a worker, and those that were dropped *)
Definition served (c : conn) : nat := match w_at c with WNone | WDropped => 0 | _ => 1 end.
Definition dropped (c : conn) : nat := match w_at c with WDropped => 1 | _ => 0 end.

Definition inv (n : nat) (w : world) : Prop :=
  Forall conn_ok (conns w) /\
  (sum_list_with requests (clients w) + length (conns w))%nat = (REQUESTS * n)%nat /\
  (mode = Fork -> children w = sum_list_with served (conns w) /\ (children w <= limit)%nat) /\
  (mode = Threads -> children w = 0%nat /\ sum_list_with dropped (conns w) = 0%nat) /\
  (0 < sum_list_with dropped (conns w) -> children w = limit)%nat /\
  (forall i c, conns w !! i = Some c -> c_at c <> CDone -> exists j k, clients w !! j = Some k /\ current k = Some i) /\
  (forall j k i, clients w !! j = Some k -> current k = Some i -> (i < length (conns w))%nat).

(** ** Lemmas *)

Lemma put_inv n w i c c' : inv n w -> conns w !! i = Some c -> conn_ok c' -> served c' = served c -> dropped c' = dropped c ->
  (c_at c' <> CDone -> c_at c <> CDone) -> inv n (put i c' w).
Proof.
  intros (Hok & Hsum & Hf & Ht & Hd & Hown & Hcur) Hc Hc' Hs Hdr Hat. unfold inv, put. cbn.
  pose proof (sum_list_with_insert served _ i c c' Hc) as Es. pose proof (sum_list_with_insert dropped _ i c c' Hc) as Ed.
  replace (sum_list_with served (<[i:=c']> (conns w))) with (sum_list_with served (conns w)) by lia.
  replace (sum_list_with dropped (<[i:=c']> (conns w))) with (sum_list_with dropped (conns w)) by lia. rewrite length_insert.
  split_and!; try done; [by apply Forall_insert|]. intros i' x Hx Hne. destruct (decide (i' = i)) as [->|?].
  - rewrite list_lookup_insert_eq in Hx by (by eapply lookup_lt_Some). injection Hx as ->. eapply Hown; [done|by apply Hat].
  - rewrite list_lookup_insert_ne in Hx by done. by eapply Hown.
Qed.

Lemma conn_ok_client c c' : conn_ok c -> conn_client c = Some c' ->
  conn_ok c' /\ served c' = served c /\ dropped c' = dropped c /\ c_at c <> CDone.
Proof.
  intros [w Hw|w Hw| |w Hw|x w Hx Hw|x Hx] Hs; unfold conn_client in Hs; cbn in Hs.
  - injection Hs as <-. by split_and!; [constructor|..].
  - destruct Hw as [-> |[-> | ->]]; try done. injection Hs as <-. split_and!; [constructor; by left|done..].
  - done.
  - assert (Some (mkConn CClose w "" "" OK) = Some c') as [= <-] by (rewrite <- Hs; by destruct w).
    by split_and!; [constructor; [by left|]|..].
  - destruct Hx as [-> | ->]; [|done]. injection Hs as <-. by split_and!; [constructor; [by right|]|..].
  - destruct Hx as [-> | ->]; [|done]. injection Hs as <-. by split_and!; [constructor; by right|..].
Qed.

Lemma conn_ok_worker c c' : conn_ok c -> conn_worker c = Some c' ->
  conn_ok c' /\ served c' = served c /\ dropped c' = dropped c /\ c_at c' = c_at c.
Proof.
  intros [w Hw|w Hw| |w Hw|x w Hx Hw|x Hx] Hs; unfold conn_worker in Hs; cbn in Hs.
  - by destruct Hw as [-> |[-> | ->]].
  - destruct Hw as [-> |[-> | ->]]; try done. injection Hs as <-. by split_and!; [constructor|..].
  - injection Hs as <-. by split_and!; [constructor; left|..].
  - destruct Hw as [-> | ->]; [|done]. injection Hs as <-. by split_and!; [constructor; right|..].
  - destruct Hw as [-> | ->]; [|done]. injection Hs as <-. by split_and!; [constructor; [|right]|..].
  - done.
Qed.

Lemma connect_inv n w j k r : inv n w -> clients w !! j = Some k -> requests k = S r ->
  (forall i c, current k = Some i -> conns w !! i = Some c -> c_at c = CDone) ->
  inv n (mkWorld (<[j := mkClient r (Some (length (conns w)))]> (clients w)) (conns w ++ [mkConn CSend WNone "" "" ""]) (children w)).
Proof.
  intros (Hok & Hsum & Hf & Ht & Hd & Hown & Hcur) Hj Hr Hdone. unfold inv. cbn [clients conns children].
  pose proof (sum_list_with_insert requests _ j k (mkClient r (Some (length (conns w)))) Hj) as Er. cbn [requests] in Er.
  assert (j < length (clients w))%nat as Hlt by (by eapply lookup_lt_Some).
  rewrite !sum_list_with_app, length_app. cbn [sum_list_with served dropped w_at length]. rewrite !Nat.add_0_r. split_and!; try done.
  - apply Forall_app. split; [done|]. constructor; [|constructor]. constructor. by left.
  - lia.
  - intros i c Hc Hne. apply lookup_app_Some in Hc as [Hc|[Hi Hc]].
    + destruct (Hown i c Hc Hne) as (j' & k' & Hj' & Hk'). exists j', k'. split; [|done].
      rewrite list_lookup_insert_ne; [done|]. intros <-. rewrite Hj in Hj'. injection Hj' as <-. by eapply Hne, Hdone.
    + exists j, (mkClient r (Some (length (conns w)))). rewrite list_lookup_insert_eq by done. split; [done|]. cbn. f_equal.
      apply list_lookup_singleton_Some in Hc as [Hc _]. lia.
  - intros j' k' i Hj' Hi. destruct (decide (j' = j)) as [->|?].
    + rewrite list_lookup_insert_eq in Hj' by done. injection Hj' as <-. cbn in Hi. injection Hi as <-. lia.
    + rewrite list_lookup_insert_ne in Hj' by done. specialize (Hcur j' k' i Hj' Hi). lia.
Qed.

Lemma mini_client_inv n j w w' : inv n w -> client_act j w = Some w' -> inv n w'.
Proof.
  intros Hi. pose proof Hi as (Hok & _ & _ & _ & _ & _ & Hcur). unfold client_act. destruct (clients w !! j) as [k|] eqn:Hj; [|done]. cbn [mbind option_bind].
  assert (forall w', (match requests k with O => None | S r =>
      if (sum_list_with waiting (conns w) <=? BACKLOG)%nat
      then Some (mkWorld (<[j := mkClient r (Some (length (conns w)))]> (clients w)) (conns w ++ [mkConn CSend WNone "" "" ""]) (children w))
      else None end) = Some w' -> (forall i c, current k = Some i -> conns w !! i = Some c -> c_at c = CDone) -> inv n w') as Hconn.
  { intros w1 H Hd. destruct (requests k) as [|r] eqn:Hr; [done|]. destruct (_ <=? _)%nat; [|done]. injection H as <-. by eapply connect_inv. }
  destruct (current k) as [i|] eqn:Hk; [|intros H; by apply Hconn].
  destruct (conns w !! i) as [c|] eqn:Hc; [|done]. cbn [mbind option_bind]. rewrite Forall_lookup in Hok.
  destruct (decide (c_at c = CDone)) as [Hd|Hd].
  - rewrite Hd. intros H. apply Hconn; [done|]. intros i' c' [= <-] Hc'. congruence.
  - destruct (conn_client c) as [c'|] eqn:Hs; [|by destruct (c_at c)].
    destruct (conn_ok_client c c') as (H1 & H2 & H3 & H4); [by eapply Hok|done|]. intros H.
    assert (put i c' w = w') as <- by (destruct (c_at c); cbn in H; congruence). by eapply put_inv.
Qed.

Lemma worker_inv n i w w' : inv n w -> worker_act i w = Some w' -> inv n w'.
Proof.
  intros Hi. pose proof Hi as (Hok & _). unfold worker_act. destruct (conns w !! i) as [c|] eqn:Hc; [|done]. cbn.
  destruct (conn_worker c) as [c'|] eqn:Hs; [|done]. cbn. intros [= <-]. rewrite Forall_lookup in Hok.
  destruct (conn_ok_worker c c') as (H1 & H2 & H3 & H4); [by eapply Hok|done|]. eapply put_inv; try done. by rewrite H4.
Qed.

(** [accept] of a connection: it gets a worker, or is dropped *)
Lemma conn_ok_accept c h : conn_ok c -> w_at c = WNone -> h = WRead \/ h = WDropped ->
  conn_ok (mkConn (c_at c) h (to_server c) (to_client c) (reply c)).
Proof.
  intros [w Hw|w Hw| |w Hw|x w Hx Hw|x Hx] He Hh; cbn in *; try done; try (destruct Hw; by subst); constructor; by right.
Qed.

Lemma mini_main_inv n i w w' : inv n w -> main_act i w = Some w' -> inv n w'.
Proof.
  intros (Hok & Hsum & Hf & Ht & Hd & Hown & Hcur). unfold main_act. destruct (conns w !! i) as [c|] eqn:Hc; [|done]. cbn [mbind option_bind].
  destruct (w_at c) eqn:Hw; try done. pose proof (proj1 (Forall_lookup _ _) Hok i c Hc) as Hcc.
  assert (forall h ch, h = WRead \/ h = WDropped -> let c' := mkConn (c_at c) h (to_server c) (to_client c) (reply c) in
    let s := (sum_list_with served (conns w) + served c')%nat in let d := (sum_list_with dropped (conns w) + dropped c')%nat in
    (mode = Fork -> ch = s /\ (ch <= limit)%nat) -> (mode = Threads -> ch = 0%nat /\ d = 0%nat) -> (0 < d -> ch = limit)%nat ->
    inv n (mkWorld (clients w) (<[i := c']> (conns w)) ch)) as Hinv.
  { intros h ch Hh c' s d H1 H2 H3. unfold inv. cbn [clients conns children]. rewrite length_insert.
    pose proof (sum_list_with_insert served _ i c c' Hc) as Es. pose proof (sum_list_with_insert dropped _ i c c' Hc) as Ed.
    unfold served at 2 in Es. unfold dropped at 2 in Ed. rewrite Hw in Es, Ed.
    replace (sum_list_with served (<[i:=c']> (conns w))) with s by lia. replace (sum_list_with dropped (<[i:=c']> (conns w))) with d by lia.
    split_and!; try done; [apply Forall_insert; [done|by apply conn_ok_accept]|]. intros i' x Hx Hne. destruct (decide (i' = i)) as [->|?].
    - rewrite list_lookup_insert_eq in Hx by (by eapply lookup_lt_Some). injection Hx as <-. by eapply Hown.
    - rewrite list_lookup_insert_ne in Hx by done. by eapply Hown. }
  destruct mode; [destruct (Nat.ltb_spec (children w) limit)|]; intros [= <-].
  - apply Hinv; [by left|..]; cbn; [intros _; destruct Hf; [done|]; lia|done|lia].
  - apply Hinv; [by right|..]; cbn; [intros _; destruct Hf; [done|]; lia|done|destruct Hf; [done|]; lia].
  - apply Hinv; [by left|..]; cbn; [done|intros _; destruct Ht; [done|]; lia|destruct Ht; [done|]; lia].
Qed.

Lemma mini_step_inv n w w' : inv n w -> step w w' -> inv n w'.
Proof. intros Hi ([j|i|i] & Ha); [by eapply mini_client_inv|by eapply worker_inv|by eapply mini_main_inv]. Qed.

(** *** Progress and termination *)

Definition c_weight (c : c_control) : nat := match c with CSend => 3 | CRecv => 2 | CClose => 1 | CDone => 0 end.
Definition w_weight (w : w_control) : nat := match w with WNone => 4 | WRead => 3 | WWrite => 2 | WClose => 1 | WDone | WDropped => 0 end.
Definition conn_weight (c : conn) : nat := (c_weight (c_at c) + w_weight (w_at c))%nat.

Definition weight (w : world) : nat := (8 * sum_list_with requests (clients w) + sum_list_with conn_weight (conns w))%nat.

Lemma mini_weight_put i c c' w : conns w !! i = Some c -> (conn_weight c' < conn_weight c)%nat -> (weight (put i c' w) < weight w)%nat.
Proof using Type. intros Hc Hlt. unfold weight, put. cbn [clients conns]. pose proof (sum_list_with_decr conn_weight _ i c c' Hc Hlt). lia. Qed.

Lemma conn_client_weight c c' : conn_client c = Some c' -> (conn_weight c' < conn_weight c)%nat.
Proof using Type. destruct c as [x h ts tc r]. unfold conn_client. cbn [c_at w_at to_client]. destruct x; repeat case_match; intros [= <-]; unfold conn_weight; cbn [c_at w_at c_weight]; lia. Qed.

Lemma conn_worker_weight c c' : conn_worker c = Some c' -> (conn_weight c' < conn_weight c)%nat.
Proof using Type. destruct c as [x h ts tc r]. unfold conn_worker. cbn [c_at w_at to_server]. destruct h; repeat case_match; intros [= <-]; unfold conn_weight; cbn [c_at w_at w_weight]; lia. Qed.

Lemma connect_weight w j k r : clients w !! j = Some k -> requests k = S r ->
  (weight (mkWorld (<[j := mkClient r (Some (length (conns w)))]> (clients w)) (conns w ++ [mkConn CSend WNone "" "" ""]) (children w)) < weight w)%nat.
Proof using Type.
  intros Hj Hr. unfold weight. cbn [clients conns]. pose proof (sum_list_with_insert requests _ j k (mkClient r (Some (length (conns w)))) Hj) as Er.
  rewrite sum_list_with_app. cbn [requests sum_list_with] in *.
  change (conn_weight (mkConn CSend WNone "" "" "")) with 7%nat. lia.
Qed.

Lemma mini_client_weight j w w' : client_act j w = Some w' -> (weight w' < weight w)%nat.
Proof using Type.
  unfold client_act. destruct (clients w !! j) as [k|] eqn:Hj; [|done]. cbn [mbind option_bind].
  destruct (current k) as [i|]; [destruct (conns w !! i) as [c|] eqn:Hc; [|done]; cbn [mbind option_bind]|].
  - destruct (c_at c) eqn:Hat; [| | |destruct (requests k) eqn:Hr; [done|]; case_match; [|done]; intros [= <-]; by eapply connect_weight].
    all: destruct (conn_client c) as [c'|] eqn:Hs; [|done]; intros [= <-]; eapply mini_weight_put; [done|by apply conn_client_weight].
  - destruct (requests k) eqn:Hr; [done|]; case_match; [|done]; intros [= <-]; by eapply connect_weight.
Qed.

Lemma mini_step_weight w w' : step w w' -> (weight w' < weight w)%nat.
Proof using Type.
  intros ([j|i|i] & Ha); cbn [act] in Ha; [by eapply mini_client_weight| |].
  - unfold worker_act in Ha. destruct (conns w !! i) as [c|] eqn:Hc; [|done]. cbn [mbind option_bind] in Ha.
    destruct (conn_worker c) as [c'|] eqn:Hs; [|done]. injection Ha as <-. eapply mini_weight_put; [done|by apply conn_worker_weight].
  - unfold main_act in Ha. destruct (conns w !! i) as [c|] eqn:Hc; [|done]. cbn [mbind option_bind] in Ha.
    destruct (w_at c) eqn:Hw; try done.
    assert (forall h, h = WRead \/ h = WDropped -> (weight (put i (mkConn (c_at c) h (to_server c) (to_client c) (reply c)) w) < weight w)%nat) as Hp.
    { intros h Hh. eapply mini_weight_put; [done|]. unfold conn_weight. cbn [c_at w_at]. rewrite Hw. destruct Hh as [-> | ->]; cbn [w_weight]; lia. }
    destruct mode; [case_match|]; injection Ha as <-; [apply (Hp WRead)|apply (Hp WDropped)|apply (Hp WRead)]; auto.
Qed.

Lemma mini_steps n k w w' : nsteps step k w w' -> inv n w -> inv n w' /\ (k + weight w' <= weight w)%nat.
Proof. apply nsteps_bounded. intros w1 w2 Hi Hs. split; [by eapply mini_step_inv|by apply mini_step_weight]. Qed.

(** a connection that both sides have closed *)
Definition finished (c : conn) : Prop := c_at c = CDone /\ (w_at c = WDone \/ w_at c = WDropped).

#[local] Instance finished_dec c : Decision (finished c).
Proof using Type. unfold finished. apply _. Defined.

Lemma conn_progress n w i c : inv n w -> conns w !! i = Some c -> ~ finished c -> exists w', step w w'.
Proof.
  intros (Hok & _ & _ & _ & _ & Hown & _) Hc Hnf. pose proof (proj1 (Forall_lookup _ _) Hok i c Hc) as Hcc.
  assert (c_at c <> CDone -> is_Some (conn_client c) -> exists w', step w w') as Hcl.
  { intros Hne [c' Hs]. destruct (Hown i c Hc Hne) as (j & k & Hj & Hk). exists (put i c' w), (Client j). cbn. unfold client_act.
    rewrite Hj. cbn [mbind option_bind]. rewrite Hk, Hc. cbn [mbind option_bind]. rewrite Hs. by destruct (c_at c). }
  assert (is_Some (conn_worker c) -> exists w', step w w') as Hw.
  { intros [c' Hs]. exists (put i c' w), (Worker i). cbn. unfold worker_act. rewrite Hc. cbn [mbind option_bind]. by rewrite Hs. }
  assert (w_at c = WNone -> exists w', step w w') as Hacc.
  { intros Hn. assert (is_Some (main_act i w)) as [w' Ha]; [|by exists w', (Accept i)].
    unfold main_act. rewrite Hc. cbn [mbind option_bind]. rewrite Hn. destruct mode; [case_match|]; eauto. }
  destruct Hcc as [h Hh|h Hh| |h Hh|x h Hx Hh|x Hx].
  - apply Hcl; [done|]. cbn. eauto.
  - destruct Hh as [-> |[-> | ->]]; [by apply Hacc|apply Hw; unfold conn_worker; cbn; eauto|apply Hcl; [done|cbn; eauto]].
  - apply Hw. cbn. eauto.
  - apply Hcl; [done|]. cbn. eauto.
  - destruct Hh as [-> | ->]; [apply Hw; cbn; eauto|]. destruct Hx as [-> | ->]; [apply Hcl; [done|cbn; eauto]|].
    exfalso. apply Hnf. split; [done|by left].
  - destruct Hx as [-> | ->]; [apply Hcl; [done|cbn; eauto]|]. exfalso. apply Hnf. split; [done|by right].
Qed.

Lemma sum_zero {A} (f : A -> nat) l : (forall x, x ∈ l -> f x = 0%nat) -> sum_list_with f l = 0%nat.
Proof using Type. induction l as [|x l IH]; intros Hf; [done|]. cbn. rewrite (Hf x) by by left. apply IH. intros y Hy. apply Hf. by right. Qed.

Lemma sum_pos {A} (f : A -> nat) l : sum_list_with f l <> 0%nat -> exists i x, l !! i = Some x /\ f x <> 0%nat.
Proof using Type.
  induction l as [|x l IH]; [done|]. cbn. intros Hne. destruct (decide (f x = 0%nat)) as [Hz|Hz]; [|by exists 0%nat, x].
  destruct IH as (i & y & Hi & Hy); [lia|]. by exists (S i), y.
Qed.

Lemma mini_progress n w : inv n w -> (exists w', step w w') \/ (Forall finished (conns w) /\ sum_list_with requests (clients w) = 0%nat).
Proof.
  intros Hi. destruct (decide (Forall finished (conns w))) as [Hf|Hnf].
  - destruct (decide (sum_list_with requests (clients w) = 0%nat)) as [Hz|Hz]; [by right|left].
    destruct (sum_pos _ _ Hz) as (j & k & Hj & Hk). destruct (requests k) as [|r] eqn:Hr; [done|].
    assert ((sum_list_with waiting (conns w) <=? BACKLOG)%nat = true) as Hw.
    { rewrite sum_zero; [done|]. intros c Hc. rewrite Forall_forall in Hf. destruct (Hf c Hc) as [_ [Hx|Hx]]; unfold waiting; by rewrite Hx. }
    assert (is_Some (client_act j w)) as [w' Ha]; [|by exists w', (Client j)].
    unfold client_act. rewrite Hj. cbn [mbind option_bind]. rewrite Hr, Hw. destruct (current k) as [i|] eqn:Hcur; [|eauto].
    destruct Hi as (_ & _ & _ & _ & _ & _ & Hcu). destruct (lookup_lt_is_Some_2 (conns w) i) as [c Hc]; [by eapply Hcu|].
    rewrite Hc. cbn [mbind option_bind]. rewrite Forall_lookup in Hf. destruct (Hf i c Hc) as [-> _]. eauto.
  - left. apply not_Forall_Exists in Hnf; [|apply _]. apply Exists_exists in Hnf as (c & [i Hc]%list_elem_of_lookup & Hn). by eapply conn_progress.
Qed.

Lemma mini_start_inv n : inv n (start n) /\ weight (start n) = (80 * n)%nat.
Proof using Type.
  assert (sum_list_with requests (replicate n (mkClient REQUESTS None)) = (REQUESTS * n)%nat) as Hs.
  { induction n as [|n IH]; [by rewrite Nat.mul_0_r|]. cbn [replicate sum_list_with requests]. rewrite IH. unfold REQUESTS. lia. }
  unfold inv, weight, start. cbn [clients conns children]. rewrite Hs. split; [|unfold REQUESTS; simpl; lia].
  split_and!; try done; try (cbn [length]; lia).
  - intros _. cbn. lia.
  - cbn. lia.
  - by intros j k i [-> _]%lookup_replicate.
Qed.

(** the replies of connections that are finished *)
Lemma finished_replies cs : Forall conn_ok cs -> Forall finished cs ->
  length cs = (sum_list_with served cs + sum_list_with dropped cs)%nat /\
  length (filter (fun c => reply c = OK) cs) = sum_list_with served cs /\
  Forall (fun c => reply c = OK \/ reply c = "") cs.
Proof using Type.
  induction 1 as [|c cs Hc _ IH]; intros Hf; [done|]. apply Forall_cons in Hf as [Hf Hfs]. destruct (IH Hfs) as (H1 & H2 & H3).
  cbn [length sum_list_with]. assert ((reply c = OK /\ served c = 1 /\ dropped c = 0 \/ reply c = "" /\ served c = 0 /\ dropped c = 1)%nat) as Hr.
  { destruct Hf as [Hd Hw]. destruct Hc as [w Hx|w Hx| |w Hx|x w Hx Hy|x Hx]; cbn in *; try done; [|by right].
    left. destruct Hy as [-> | ->]; cbn; done || by destruct Hw. }
  destruct Hr as [(Hr & -> & ->)|(Hr & -> & ->)].
  - rewrite filter_cons_True by done. cbn [length]. split_and!; [lia|lia|constructor; auto].
  - rewrite filter_cons_False by (by rewrite Hr). split_and!; [lia|lia|constructor; auto].
Qed.
End server.

(** ** Properties *)

(** C21: any number of clients with their ten requests each, in every interleaving with the
    workers and with [main], whichever connection [accept] takes next: no run has more than
    80 steps per client, and a run can only stop when every client has made all its
    requests and both sides have closed every connection.  Threads answer all of them; processes
    answer exactly as many as children fit the process table, since none is ever reaped:
    every later connection is closed without an answer. *)
Theorem mini_server_correct mode limit n k w : nsteps (step mode limit) k (start n) w ->
  (k <= 80 * n)%nat /\
  ((exists w', step mode limit w w') \/
   sum_list_with requests (clients w) = 0%nat /\ length (conns w) = (10 * n)%nat /\ Forall finished (conns w) /\
   length (filter (fun c => reply c = OK) (conns w)) = answered mode limit (10 * n) /\
   Forall (fun c => reply c = OK \/ reply c = "") (conns w) /\
   children w = match mode with Fork => (10 * n) `min` limit | Threads => 0 end%nat).
Proof.
  intros Hs. destruct (mini_start_inv mode limit n) as [Hi Hw]. destruct (mini_steps mode limit n k _ _ Hs Hi) as [Hi' Hle]. split; [lia|].
  destruct (mini_progress mode limit n w Hi') as [?|[Hf Hz]]; [by left|right]. destruct Hi' as (Hok & Hsum & Hfk & Hth & Hd & _).
  destruct (finished_replies _ Hok Hf) as (Hl & Hr & Hall). rewrite Hz in Hsum. unfold REQUESTS in Hsum. split_and!; try (done || lia).
  - rewrite Hr. destruct mode; cbn [answered]; [destruct Hfk; [done|]; lia|destruct Hth; [done|]; lia].
  - destruct mode; [destruct Hfk; [done|]; lia|by destruct Hth].
Qed.

(** ** Witness *)

Definition all_actors : list actor := Client 0 :: Client 1 :: (Worker <$> seq 0 20) ++ (Accept <$> seq 0 20).

(** two clients of the server with processes, where the table has room for 15 children *)
Lemma mini_server_correct_witness : exists k w, nsteps (step Fork 15) k (start 2) w /\ (k <= 160)%nat /\
  children w = 15%nat /\ length (filter (fun c => reply c = OK) (conns w)) = 15%nat.
Proof.
  exists (run_first (act Fork 15) all_actors 200 (start 2)).1, (run_first (act Fork 15) all_actors 200 (start 2)).2.
  pose proof (run_first_steps (act Fork 15) all_actors 200 (start 2)) as Hs. split; [done|].
  split; [by apply (mini_server_correct Fork 15 2 _ _ Hs)|by vm_compute].
Defined.
