(* ===== verification/Chat.v ===== *)
(** * The chat over a message queue

    IPCs/SharedMemory/Chat: chata.c and chatb.c take turns over one System V message queue,
    with messages of type 1 from A and of type 2 from B.  A state holds both processes, the
    queue, what is typed and what was sent and received; a step is one system call of one
    process with the code up to the next one, and any interleaving is a run. *)
From S2P Require Import Prelude CString TwoProcesses.

(** ** The two processes *)

Definition MAX_TEXT : nat := 256.

(** where A is: before [msgget], at its prompt, in [msgrcv], before [msgctl], and its ends;
    [AWild]: [strcspn] on a text that was never set *)
Inductive a_control := AStart | ASend | AReceive | ARemove | AExited | AFailed | AWild.

(** where B is; [BNoQueue]: its [msgget] failed, [BFailed]: another call did *)
Inductive b_control := BStart | BReceive | BSend | BExited | BNoQueue | BFailed.

#[export] Instance a_control_eq_dec : EqDecision a_control.
Proof. solve_decision. Defined.
#[export] Instance b_control_eq_dec : EqDecision b_control.
Proof. solve_decision. Defined.

Record state := mkState {
  a_at : a_control; b_at : b_control;
  queue : option (list (Z * string));   (* [None]: there is none *)
  a_text : option string; b_text : option string;   (* [message.text], once it is set *)
  a_in : string; b_in : string;   (* what is typed *)
  a_sent : list string; b_got : list string; b_sent : list string; a_got : list string }.

(** [fgets] and the cut at the newline: the text and the rest of the input.  At the end of
    the input [message.text] is what it was before. *)
Definition type_line (text : option string) (input : string) : option (string * string) :=
  match input with
  | EmptyString => t ← text; Some (cut is_newline t, EmptyString)
  | _ => let p := fgets (MAX_TEXT - 1) input in Some (cut is_newline p.1, p.2)
  end.

(** the first message of a type, and the queue without it *)
Fixpoint take_message (ty : Z) (q : list (Z * string)) : option (string * list (Z * string)) :=
  match q with
  | [] => None
  | (ty', m) :: q' => if ty' =? ty then Some (m, q') else p ← take_message ty q'; Some (p.1, (ty', m) :: p.2)
  end.

(** one step of A, if it is not blocked or at its end *)
Definition step_a (s : state) : option state :=
  let goto c q := mkState c (b_at s) q (a_text s) (b_text s) (a_in s) (b_in s) (a_sent s) (b_got s) (b_sent s) (a_got s) in
  match a_at s with
  | AStart => Some (goto ASend (Some (default [] (queue s))))   (* IPC_CREAT *)
  | ASend =>
      match type_line (a_text s) (a_in s) with
      | None => Some (goto AWild (queue s))
      | Some (text, rest) =>
          match queue s with
          | None => Some (goto AFailed None)
          | Some q => Some (mkState (if streq text "exit" then ARemove else AReceive) (b_at s) (Some (q ++ [(1, text)]))
              (Some text) (b_text s) rest (b_in s) (a_sent s ++ [text]) (b_got s) (b_sent s) (a_got s))
          end
      end
  | AReceive =>
      match queue s with
      | None => Some (goto AFailed None)
      | Some q =>
          p ← take_message 2 q;   (* blocked when there is none *)
          Some (mkState (if streq p.1 "exit" then ARemove else ASend) (b_at s) (Some p.2)
            (Some p.1) (b_text s) (a_in s) (b_in s) (a_sent s) (b_got s) (b_sent s) (a_got s ++ [p.1]))
      end
  | ARemove => Some (goto AExited None)
  | AExited | AFailed | AWild => None
  end.

(** one step of B *)
Definition step_b (s : state) : option state :=
  let goto c := mkState (a_at s) c (queue s) (a_text s) (b_text s) (a_in s) (b_in s) (a_sent s) (b_got s) (b_sent s) (a_got s) in
  match b_at s with
  | BStart => Some (goto (match queue s with None => BNoQueue | Some _ => BReceive end))
  | BReceive =>
      match queue s with
      | None => Some (goto BFailed)   (* EIDRM or EINVAL *)
      | Some q =>
          p ← take_message 1 q;
          Some (mkState (a_at s) (if streq p.1 "exit" then BExited else BSend) (Some p.2)
            (a_text s) (Some p.1) (a_in s) (b_in s) (a_sent s) (b_got s ++ [p.1]) (b_sent s) (a_got s))
      end
  | BSend =>
      match type_line (b_text s) (b_in s) with
      | None => None   (* not met: B has received before it sends *)
      | Some (text, rest) =>
          match queue s with
          | None => Some (goto BFailed)
          | Some q => Some (mkState (a_at s) (if streq text "exit" then BExited else BReceive) (Some (q ++ [(2, text)]))
              (a_text s) (Some text) (a_in s) rest (a_sent s) (b_got s) (b_sent s ++ [text]) (a_got s))
          end
      end
  | BExited | BNoQueue | BFailed => None
  end.

Definition step : state -> state -> Prop := interleave step_a step_b.

(** the processes before they start, for what will be typed *)
Definition start (ain bin : string) : state := mkState AStart BStart None None None ain bin [] [] [] [].

Definition reachable (ain bin : string) (s : state) : Prop := rtc step (start ain bin) s.

(** ** The invariant *)

(** B waits for a message, or does not take part *)
Definition b_waits (b : b_control) (got : list string) : Prop := b = BReceive \/ (b = BStart \/ b = BNoQueue) /\ got = [].

(** Whose turn it is.  [xs] is what A has sent and B received, [ys] the other way round. *)
Inductive turn (xs ys : list string) : a_control -> b_control -> option (list (Z * string)) -> list string -> list string -> Prop :=
| turn_new b : xs = [] -> ys = [] -> b = BStart \/ b = BNoQueue -> turn xs ys AStart b None [] []
| turn_a b : b_waits b xs -> length xs = length ys -> turn xs ys ASend b (Some []) xs ys
| turn_to_b b m : b_waits b xs -> length xs = length ys ->
    turn xs ys (if streq m "exit" then ARemove else AReceive) b (Some [(1, m)]) (xs ++ [m]) ys
| turn_b : length xs = S (length ys) -> turn xs ys AReceive BSend (Some []) xs ys
| turn_to_a m : length xs = S (length ys) ->
    turn xs ys AReceive (if streq m "exit" then BExited else BReceive) (Some [(2, m)]) xs (ys ++ [m])
| turn_last : (length ys <= length xs <= S (length ys))%nat -> turn xs ys ARemove BExited (Some []) xs ys
| turn_over : (length ys <= length xs <= S (length ys))%nat -> turn xs ys AExited BExited None xs ys
| turn_lost b : b_waits b xs \/ b = BFailed -> length xs = length ys -> turn xs ys AExited b None (xs ++ ["exit"]) ys.

Definition wild (s : state) : Prop :=
  a_at s = AWild /\ queue s = Some [] /\ b_waits (b_at s) [] /\ a_sent s = [] /\ b_got s = [] /\ b_sent s = [] /\ a_got s = [] /\
  a_in s = EmptyString.

Definition inv (ain : string) (s : state) : Prop :=
  (wild s \/ turn (b_got s) (a_got s) (a_at s) (b_at s) (queue s) (a_sent s) (b_sent s)) /\
  (a_text s = None -> a_sent s = []) /\ (b_at s = BSend -> is_Some (b_text s)) /\ (a_sent s = [] -> a_in s = ain).

(** ** Lemmas *)

Lemma type_line_None text input : type_line text input = None -> text = None /\ input = EmptyString.
Proof. destruct input; [destruct text; done|done]. Qed.

Lemma app_not_nil {A} (l : list A) x : l ++ [x] <> [].
Proof. by destruct l. Qed.

Lemma step_a_inv ain s s' : inv ain s -> step_a s = Some s' -> inv ain s'.
Proof.
  intros (Ht & Hta & Htb & Hin) H. destruct s as [a b q ta tb ai bi as_ bg bs ag]. cbn in Hta, Htb, Hin.
  unfold step_a in H. cbn in H, Ht. destruct Ht as [(Ha & _)|Ht]; [cbn in Ha; by subst a|].
  inversion Ht; subst; cbn in H.
  - (* turn_new *) injection H as <-. split; [right; cbn|done]. apply turn_a; [right; by split|done].
  - (* turn_a *) destruct (type_line ta ai) as [[text rest]|] eqn:Htl.
    + injection H as <-. split; [right; cbn; by apply turn_to_b|]. cbn. split_and!; [done|done|]. by intros ?%app_not_nil.
    + injection H as <-. apply type_line_None in Htl as [-> ->]. specialize (Hta eq_refl). subst.
      destruct bs; [|done]. split; [left; by split_and!|]. cbn. by split_and!.
  - (* turn_to_b *) destruct (streq m "exit") eqn:Hm; cbn in H; [|done]. injection H as <-. apply streq_spec in Hm as ->.
    split; [right; cbn; apply turn_lost; [by left|done]|]. cbn. by split_and!.
  - done.
  - (* turn_to_a *) injection H as <-. split; [right; cbn|].
    + destruct (streq m "exit"); [apply turn_last|apply turn_a; [by left|]]; rewrite length_app; simpl; lia.
    + cbn. split_and!; [done|by destruct (streq m "exit")|done].
  - (* turn_last *) injection H as <-. split; [right; cbn; by apply turn_over|]. cbn. by split_and!.
  - done.
  - done.
Qed.

Lemma step_b_inv ain s s' : inv ain s -> step_b s = Some s' -> inv ain s'.
Proof.
  intros (Ht & Hta & Htb & Hin) H. destruct s as [a b q ta tb ai bi as_ bg bs ag]. cbn in Hta, Htb, Hin.
  unfold step_b in H. cbn in H, Ht.
  destruct Ht as [(Ha & Hq & Hb & Has & Hbg & Hbs & Hag & Hai)|Ht].
  { cbn in *. subst. destruct Hb as [->|[[->| ->] _]]; cbn in H; [done| |done].
    injection H as <-. split; [left|by split_and!]. split_and!; try done. by left. }
  inversion Ht; subst; cbn in H.
  - (* turn_new *) destruct H2 as [->| ->]; [|done]. injection H as <-. split; [right; cbn; apply turn_new; by auto|]. by split_and!.
  - (* turn_a *) destruct H0 as [->|[[->| ->] ->]]; cbn in H; [done| |done]. injection H as <-.
    split; [right; cbn; apply turn_a; [by left|done]|]. by split_and!.
  - (* turn_to_b *) destruct H0 as [->|[[->| ->] ->]]; cbn in H; [| |done]; injection H as <-.
    + split; [right; cbn|].
      * destruct (streq m "exit"); [apply turn_last|apply turn_b]; rewrite length_app; simpl; lia.
      * cbn. split_and!; [done|by destruct (streq m "exit")|done].
    + split; [right; cbn; apply turn_to_b; [by left|done]|]. by split_and!.
  - (* turn_b *) destruct (type_line tb bi) as [[text rest]|] eqn:Htl; [|done]. injection H as <-.
    split; [right; cbn; by apply turn_to_a|]. cbn. split_and!; [done|by destruct (streq text "exit")|done].
  - (* turn_to_a *) destruct (streq m "exit"); cbn in H; done.
  - done.
  - done.
  - (* turn_lost *) destruct H0 as [[->|[[->| ->] ->]]| ->]; cbn in H; try done; injection H as <-.
    + split; [right; cbn; apply turn_lost; [by right|done]|]. by split_and!.
    + split; [right; cbn; apply turn_lost; [left; right; by auto|done]|]. by split_and!.
Qed.

Lemma chat_inv ain bin s : reachable ain bin s -> inv ain s.
Proof.
  apply rtc_inv; [apply step_a_inv|apply step_b_inv|]. split; [right; apply turn_new; by auto|]. by split_and!.
Qed.

(** ** Properties *)

(** Whatever is typed and however the two processes run, the chat is in order and in turns: each has
    received what the other sent, in that order and without gaps, all but at most the last message; nobody
    sends twice before the other has answered.  [msgsnd] and [msgrcv] never fail for A. *)
Theorem chat_in_order ain bin s : reachable ain bin s ->
  b_got s `prefix_of` a_sent s /\ a_got s `prefix_of` b_sent s /\
  (length (a_got s) <= length (b_sent s) <= length (b_got s) /\ length (b_got s) <= length (a_sent s) <= S (length (a_got s)))%nat /\
  a_at s <> AFailed.
Proof.
  intros (Ht & _)%chat_inv. destruct Ht as [(Ha & _ & _ & -> & -> & -> & -> & _)|Ht]; [rewrite Ha; split_and!; first [done|simpl; lia|reflexivity]|].
  destruct s; cbn in *. inversion Ht; subst; rewrite ?length_app; simpl; split_and!; first [done|lia|reflexivity|by eexists|by destruct (streq m "exit")].
Qed.

(** C24: The chat does not get stuck: when no step is left, both have left the loop and everything that was
    sent was received; or A sent exit and removed the queue before B received it, so that B's last call fails;
    or B was started before there was a queue, and gave up.  (A has something to type at first.) *)
Theorem chat_ends ain bin s : ain <> EmptyString -> reachable ain bin s -> (forall s', ~ step s s') ->
  (a_at s = AExited /\ b_at s = BExited /\ b_got s = a_sent s /\ a_got s = b_sent s) \/
  (a_at s = AExited /\ b_at s = BFailed /\ a_sent s = b_got s ++ ["exit"] /\ a_got s = b_sent s) \/
  (b_at s = BNoQueue /\ b_got s = [] /\ (a_at s = AReceive \/ a_at s = AExited)).
Proof.
  intros Hne Hr Hstuck. pose proof (chat_inv _ _ _ Hr) as (Ht & _ & Htb & Hin).
  pose proof (stuck_first _ _ _ Hstuck) as Ha.
  pose proof (stuck_second _ _ _ Hstuck) as Hb.
  destruct s as [a b q ta tb ai bi as_ bg bs ag]. unfold step_a, step_b in Ha, Hb. cbn in *.
  destruct Ht as [(_ & _ & _ & Has & _ & _ & _ & Hai)|Ht]; [cbn in *; rewrite Hin in Hai by done; done|].
  inversion Ht; subst; cbn in *; try done.
  - by destruct (type_line ta ai) as [[text rest]|].
  - destruct H as [->|[[->| ->] ->]]; cbn in Hb; try done. destruct (streq m "exit"); [done|]. right. right. by auto.
  - destruct (Htb eq_refl) as [t ->]. destruct bi; done.
  - by left.
  - destruct H as [[->|[[->| ->] ->]]| ->]; cbn in Hb; try done; right; [right; by auto|left; by split_and!].
Qed.

(** A says hi, B answers, A says exit *)
Definition typed_a : string := "hi" +:+ nl +:+ "exit" +:+ nl.
Definition typed_b : string := "yo" +:+ nl.

(** the state after B has received exit, and the one in which A has been faster *)
Definition both_left : state :=
  mkState AExited BExited None (Some "exit") (Some "exit") EmptyString EmptyString ["hi"; "exit"] ["hi"; "exit"] ["yo"] ["yo"].
Definition exit_lost : state :=
  mkState AExited BFailed None (Some "exit") (Some "yo") EmptyString EmptyString ["hi"; "exit"] ["hi"] ["yo"] ["yo"].

Lemma both_left_reachable : reachable typed_a typed_b both_left.
Proof. apply (run_rtc step_a step_b [true; false; true; false; false; true; true; false; true]). vm_compute. reflexivity. Qed.

(** with the same input the last message may be lost *)
Example exit_lost_reachable : reachable typed_a typed_b exit_lost.
Proof. apply (run_rtc step_a step_b [true; false; true; false; false; true; true; true; false]). vm_compute. reflexivity. Qed.

Lemma chat_in_order_witness : b_got exit_lost `prefix_of` a_sent exit_lost /\ a_got exit_lost `prefix_of` b_sent exit_lost /\
  (length (a_got exit_lost) <= length (b_sent exit_lost) <= length (b_got exit_lost) /\
   length (b_got exit_lost) <= length (a_sent exit_lost) <= S (length (a_got exit_lost)))%nat /\ a_at exit_lost <> AFailed.
Proof. exact (chat_in_order typed_a typed_b exit_lost exit_lost_reachable). Defined.

Lemma chat_ends_witness :
  (a_at both_left = AExited /\ b_at both_left = BExited /\ b_got both_left = a_sent both_left /\ a_got both_left = b_sent both_left) \/
  (a_at both_left = AExited /\ b_at both_left = BFailed /\ a_sent both_left = b_got both_left ++ ["exit"] /\ a_got both_left = b_sent both_left) \/
  (b_at both_left = BNoQueue /\ b_got both_left = [] /\ (a_at both_left = AReceive \/ a_at both_left = AExited)).
Proof. apply (chat_ends typed_a typed_b both_left); [discriminate|exact both_left_reachable|apply not_step; reflexivity]. Defined.
