(* ===== verification/FileTransfer.v ===== *)
(** * Sending a file through a FIFO

    IPCs/SharedMemory/FileTransfer: sender.c writes a file in blocks and then the four bytes
    of EOF; receiver.c reads until a block starts with EOF.  A state holds both processes
    and what is in the pipe; a step is one system call with the code up to the next one.  A
    write is atomic, a read takes what is there, at most a block.  The steps before the
    transfer, opening both FIFOs and asking for the name, are left out. *)
From S2P Require Import Prelude ByteFile TwoProcesses.

(** ** The two processes *)

Definition MAX : nat := 1024.

(** the bytes that mark the end *)
Definition marker : bytes := [x45; x4f; x46; x00].

(** the blocks that [fread] gives *)
Fixpoint chunks (fuel : nat) (d : bytes) : list bytes :=
  match d, fuel with
  | [], _ | _, O => []
  | _, S fuel => take MAX d :: chunks fuel (drop MAX d)
  end.

Inductive s_control := SWriting | SWaiting | SDone.
(** [RWild]: [strncmp] on bytes that were never set *)
Inductive r_control := RReading | RDone | RWild.

Record state := mkState {
  s_at : s_control; todo : list bytes;   (* the sender, and the blocks it has still to write *)
  pipe : bytes;
  r_at : r_control; buffer : list (option byte); received : bytes }.

Definition step_s (s : state) : option state :=
  match s_at s with
  | SWriting =>
      match todo s with
      | c :: cs => Some (mkState SWriting cs (pipe s ++ c) (r_at s) (buffer s) (received s))
      | [] => Some (mkState SWaiting [] (pipe s ++ marker) (r_at s) (buffer s) (received s))
      end
  | SWaiting =>   (* for the acknowledgment *)
      match r_at s with
      | RDone => Some (mkState SDone (todo s) (pipe s) RDone (buffer s) (received s))
      | _ => None
      end
  | SDone => None
  end.

(** the buffer after a read; what was there before stays behind it *)
Definition overlay (c : bytes) (buffer : list (option byte)) : list (option byte) := (Some <$> c) ++ drop (length c) buffer.

(** [strncmp(buffer, pat, strlen(pat)) == 0] *)
Fixpoint has_prefix (pat : bytes) (buffer : list (option byte)) : outcome bool :=
  match pat, buffer with
  | [], _ => Done true
  | p :: pat, Some b :: buffer => if decide (b = p) then has_prefix pat buffer else Done false
  | _, _ => Undef
  end.

Definition is_eof (buffer : list (option byte)) : outcome bool := has_prefix (take 3 marker) buffer.

Definition step_r (s : state) : option state :=
  match r_at s with
  | RReading =>
      match pipe s with
      | [] =>   (* end of file when the sender is gone, otherwise blocked *)
          match s_at s with
          | SDone => Some (mkState SDone (todo s) [] RDone (buffer s) (received s))
          | _ => None
          end
      | _ =>
          let c := take MAX (pipe s) in
          let buf := overlay c (buffer s) in
          let rest := drop MAX (pipe s) in
          match is_eof buf with
          | Done true => Some (mkState (s_at s) (todo s) rest RDone buf (received s))
          | Done false => Some (mkState (s_at s) (todo s) rest RReading buf (received s ++ c))
          | _ => Some (mkState (s_at s) (todo s) rest RWild buf (received s))
          end
      end
  | RDone | RWild => None
  end.

Definition step : state -> state -> Prop := interleave step_s step_r.

Definition no_buffer : list (option byte) := replicate MAX None.
Definition blocks (file : bytes) : list bytes := chunks (length file) file.

(** both processes before the transfer of a file *)
Definition start (file : bytes) : state := mkState SWriting (blocks file) [] RReading no_buffer [].
Definition reachable (file : bytes) (s : state) : Prop := rtc step (start file) s.

(** no block of the file looks like the end, also together with what was in the buffer before *)
Fixpoint clean (buffer : list (option byte)) (cs : list bytes) : Prop :=
  match cs with
  | [] => True
  | c :: cs => is_eof (overlay c buffer) = Done false /\ clean (overlay c buffer) cs
  end.

#[export] Instance clean_dec buffer cs : Decision (clean buffer cs).
Proof.
  revert buffer. induction cs as [|c cs IH]; intros buffer; cbn; [apply _|].
  assert (Decision (is_eof (overlay c buffer) = Done false)).
  { destruct (is_eof (overlay c buffer)) as [[]| |]; [by right|by left|by right|by right]. }
  apply _.
Defined.

(** ** The invariant *)

(** all blocks are full but the last one *)
Fixpoint blocked (cs : list bytes) : Prop :=
  match cs with
  | [] => True
  | [c] => (0 < length c <= MAX)%nat
  | c :: cs => length c = MAX /\ blocked cs
  end.

Definition sent (s : s_control) : bytes := match s with SWriting => [] | _ => marker end.

(** What is to come from the pipe, [ahead], and from the sender, [todo], for a file that is
    received so far; or the transfer is over; or the end was not seen, because it came in one
    block with the last bytes. *)
Inductive inv (file : bytes) : state -> Prop :=
| inv_going s ahead cs p buf rec : blocked (ahead ++ cs) -> clean buf (ahead ++ cs) -> p = concat ahead ++ sent s ->
    s = SWriting \/ s = SWaiting /\ cs = [] -> file = rec ++ concat (ahead ++ cs) ->
    (length rec mod MAX = 0)%nat \/ ahead ++ cs = [] ->
    inv file (mkState s cs p RReading buf rec)
| inv_done s buf : s = SWaiting \/ s = SDone -> inv file (mkState s [] [] RDone buf file)
| inv_missed p buf rec : rec ++ p = file ++ marker -> (length p < 4)%nat -> (length file mod MAX <> 0)%nat ->
    inv file (mkState SWaiting [] p RReading buf rec).

(** ** Lemmas: blocks *)

Lemma blocked_cons c cs : blocked (c :: cs) -> (0 < length c <= MAX)%nat /\ blocked cs /\ (cs = [] \/ length c = MAX).
Proof. destruct cs as [|c2 cs]; [intros H; cbn in H; split_and!; [lia|lia|done|by left]|]. intros [H ?]. unfold MAX in *. split_and!; [lia|lia|done|by right]. Qed.

Lemma blocked_app_l l1 l2 : blocked (l1 ++ l2) -> blocked l1.
Proof.
  induction l1 as [|c l1 IH]; [done|]. intros (Hc & Hb & Hor)%blocked_cons. destruct l1 as [|c2 l1]; [exact Hc|].
  destruct Hor as [Hor|Hor]; [done|]. by split; [|apply IH].
Qed.

Lemma chunks_ok fuel d : (length d <= fuel)%nat -> concat (chunks fuel d) = d /\ blocked (chunks fuel d).
Proof.
  revert d. induction fuel as [|fuel IH]; intros d Hd; [by destruct d; [|simpl in Hd; lia]|].
  destruct d as [|b d]; [done|]. set (l := b :: d) in *.
  assert (chunks (S fuel) l = take MAX l :: chunks fuel (drop MAX l)) as -> by done.
  destruct (IH (drop MAX l)) as [Hc Hb]. { rewrite length_drop. unfold MAX. simpl in *. lia. }
  split; [cbn [concat]; by rewrite Hc, take_drop|].
  destruct (chunks fuel (drop MAX l)) as [|c cs] eqn:Hch.
  - cbn [blocked]. rewrite length_take. unfold l, MAX. simpl length. lia.
  - split; [|done]. rewrite length_take. destruct (decide (MAX <= length l)%nat); [lia|].
    rewrite drop_ge in Hch by lia. by destruct fuel.
Qed.

(** ** Lemmas: the test for the end *)

Lemma is_eof_marker buf : is_eof (overlay marker buf) = Done true.
Proof. reflexivity. Qed.

Lemma is_eof_other b c buf : b <> x45 -> is_eof (overlay (b :: c) buf) = Done false.
Proof. intros Hb. unfold is_eof, overlay. simpl. by rewrite decide_False. Qed.

(** the end behind the last bytes of the file, in one block with them *)
Lemma is_eof_merged c m buf : c <> [] -> (3 <= length c)%nat \/ m = marker -> is_eof (overlay c buf) = Done false ->
  is_eof (overlay (c ++ m) buf) = Done false.
Proof.
  intros Hne Hl H. unfold is_eof, overlay in *. destruct c as [|b1 [|b2 [|b3 c]]]; [done| | |].
  - destruct Hl as [Hl| ->]; [simpl in Hl; lia|]. simpl. by case_decide.
  - destruct Hl as [Hl| ->]; [simpl in Hl; lia|]. simpl. by repeat case_decide.
  - simpl in *. by repeat case_decide.
Qed.

(** a part of the end is not taken for it *)
Lemma is_eof_tail rec p file buf : rec ++ p = file ++ marker -> (length p < 4)%nat -> p <> [] -> is_eof (overlay p buf) = Done false.
Proof.
  intros He Hp Hne. assert (p = drop (4 - length p) marker) as Hd.
  { assert (length rec + length p = length file + 4)%nat as Hlen by (apply (f_equal length) in He; by rewrite !length_app in He).
    apply (f_equal (drop (length rec))) in He as Hd. rewrite drop_app_length, drop_app_ge in Hd by lia.
    rewrite Hd at 1. f_equal. lia. }
  rewrite Hd. destruct (length p) as [|[|[|[|n]]]] eqn:Hl; [by destruct p|by apply is_eof_other..|lia].
Qed.

(** ** Lemmas: the steps *)

Lemma step_s_inv file s s' : inv file s -> step_s s = Some s' -> inv file s'.
Proof.
  intros Hi H. inversion Hi as [s0 ahead cs p buf rec Hb Hc -> Hs Hf Hm|s0 buf Hs|p buf rec He Hp Hf]; subst; unfold step_s in H; cbn in H.
  - destruct Hs as [->|[-> ->]]; [|done]. destruct cs as [|c cs]; injection H as <-.
    + apply (inv_going _ _ ahead); try done; [cbn [sent]; by rewrite app_nil_r|by right].
    + apply (inv_going _ _ (ahead ++ [c])); rewrite <- ?app_assoc; try done; [|by left].
      cbn [sent]. rewrite concat_app. cbn. by rewrite !app_nil_r.
  - destruct Hs as [->| ->]; [|done]. injection H as <-. apply inv_done. by right.
  - done.
Qed.

(** one read of the receiver *)
Lemma step_r_read s cs p buf rec : p <> [] -> step_r (mkState s cs p RReading buf rec) =
  match is_eof (overlay (take MAX p) buf) with
  | Done true => Some (mkState s cs (drop MAX p) RDone (overlay (take MAX p) buf) rec)
  | Done false => Some (mkState s cs (drop MAX p) RReading (overlay (take MAX p) buf) (rec ++ take MAX p))
  | _ => Some (mkState s cs (drop MAX p) RWild (overlay (take MAX p) buf) rec)
  end.
Proof. by destruct p. Qed.

(** ... with the last bytes and the end in one block *)
Lemma step_r_merged file c buf rec s' : blocked [c] -> length c <> MAX -> is_eof (overlay c buf) = Done false ->
  file = rec ++ c -> (length rec mod MAX = 0)%nat ->
  step_r (mkState SWaiting [] (c ++ marker) RReading buf rec) = Some s' -> inv file s'.
Proof.
  intros Hb Hne Heof -> Hm H. cbn [blocked] in Hb. rewrite step_r_read in H by (by destruct c).
  rewrite take_app_ge in H by lia. rewrite is_eof_merged in H; [|by destruct c; simpl in Hb; [lia|]| |done].
  2:{ destruct (decide (3 <= length c)%nat); [by left|right]. rewrite take_ge; [done|]. change (length marker) with 4%nat. unfold MAX. lia. }
  injection H as <-. apply inv_missed.
  - rewrite <- take_app_ge by lia. by rewrite <- !app_assoc, take_drop.
  - rewrite length_drop, length_app. change (length marker) with 4%nat. lia.
  - rewrite length_app, Nat.Div0.add_mod, Hm, Nat.add_0_l, Nat.Div0.mod_mod, Nat.mod_small by lia. lia.
Qed.

Lemma step_r_inv file s s' : inv file s -> step_r s = Some s' -> inv file s'.
Proof.
  intros Hi H. inversion Hi as [s0 ahead cs p buf rec Hb Hc Hp Hs Hf Hm|s0 buf Hs|p buf rec He Hp Hf]; subst s; [| |].
  - destruct ahead as [|c ahead].
    + cbn in Hp. destruct Hs as [->|[-> ->]]; cbn in Hp; subst p; [done|]. cbn in Hf. rewrite app_nil_r in Hf. subst rec.
      rewrite step_r_read in H by done. change (take MAX marker) with marker in H. rewrite is_eof_marker in H. injection H as <-.
      apply inv_done. by left.
    + apply blocked_cons in Hb as Hb'. destruct Hb' as (Hl & Hb' & Hor). destruct Hc as [Heof Hc]. cbn [concat app] in Hp, Hf.
      assert (p <> []) as Hne by (subst p; destruct c; [simpl in Hl; lia|done]).
      destruct (decide (length c = MAX)) as [Hfull|Hshort].
      * rewrite step_r_read in H by done. rewrite Hp, <- app_assoc, <- Hfull, take_app_length, drop_app_length, Heof in H.
        injection H as <-. apply (inv_going _ _ ahead); try done; [by rewrite <- app_assoc|left].
        destruct Hm as [Hm|Hm]; [|done]. by rewrite length_app, Hfull, Nat.Div0.add_mod, Hm, Nat.Div0.mod_same.
      * destruct Hor as [Hnil|]; [|done]. apply app_eq_nil in Hnil as [-> ->]. destruct Hm as [Hm|]; [|done].
        cbn in Hp, Hf. rewrite app_nil_r in Hp, Hf. destruct Hs as [->|[-> _]]; cbn [sent] in Hp.
        -- rewrite app_nil_r in Hp. subst p. rewrite step_r_read in H by done. rewrite take_ge, drop_ge, Heof in H by lia.
           injection H as <-. apply (inv_going _ _ []); try done; [by left|by rewrite app_nil_r|by right].
        -- subst p. by eapply step_r_merged; [| | | |exact Hm|exact H].
  - done.
  - destruct p as [|b p]; [done|]. rewrite step_r_read in H by done.
    rewrite take_ge, drop_ge in H by (unfold MAX; lia). erewrite is_eof_tail in H by done. injection H as <-.
    apply inv_missed; [by rewrite app_nil_r|simpl; lia|done].
Qed.

Lemma transfer_inv file s : clean no_buffer (blocks file) -> reachable file s -> inv file s.
Proof.
  intros Hc. apply rtc_inv; [apply step_s_inv|apply step_r_inv|].
  destruct (chunks_ok (length file) file) as [He Hb]; [done|]. apply (inv_going _ _ []); try done; by left.
Qed.

Lemma step_r_reads s cs p buf rec : p <> [] -> exists s', step_r (mkState s cs p RReading buf rec) = Some s'.
Proof. intros Hp. rewrite step_r_read by done. destruct (is_eof _) as [[]| |]; by eexists. Qed.

(** ** Properties *)

(** C23: For a file none of whose blocks looks like the end, and for every interleaving of the two
    processes: what is received is at any time the beginning of the file and the mark of its end, and when the
    receiver stops it is the file.  The transfer ends, unless the last block of the file is shorter than a
    block and is read together with the mark: then the receiver takes the mark for data, and both wait for ever. *)
Theorem transfer_correct file s : clean no_buffer (blocks file) -> reachable file s ->
  received s `prefix_of` file ++ marker /\ r_at s <> RWild /\ (r_at s = RDone -> received s = file) /\
  ((forall s', ~ step s s') ->
     s_at s = SDone /\ r_at s = RDone \/
     s_at s = SWaiting /\ r_at s = RReading /\ received s = file ++ marker /\ (length file mod MAX <> 0)%nat).
Proof.
  intros Hc Hr. pose proof (transfer_inv _ _ Hc Hr) as Hi.
  destruct Hi as [s ahead cs p buf rec Hb Hcl -> Hs Hf Hm|s buf Hs|p buf rec He Hp Hf]; cbn [received r_at s_at].
  - split_and!; [rewrite Hf, <- app_assoc; by eexists|done|done|]. intros Hstuck. exfalso.
    destruct Hs as [->|[-> ->]].
    + destruct cs; eapply Hstuck; left; reflexivity.
    + destruct (step_r_reads SWaiting [] (concat ahead ++ sent SWaiting) buf rec) as [s' H]; [by destruct (concat ahead)|].
      eapply Hstuck. by right.
  - split_and!; [by eexists|done|done|]. intros Hstuck. destruct Hs as [->| ->]; [|by left].
    exfalso. eapply Hstuck. by left.
  - split_and!; [rewrite <- He; by eexists|done|done|]. intros Hstuck. right. destruct p as [|b p].
    + rewrite app_nil_r in He. by split_and!.
    + destruct (step_r_reads SWaiting [] (b :: p) buf rec) as [s' H]; [done|]. exfalso. eapply Hstuck. by right.
Qed.

(** the state of the second kind, for a file of two bytes: both writes come before the read *)
Definition hi : bytes := [x68; x69].
Definition missed : state :=
  mkState SWaiting [] [] RReading ((Some <$> hi ++ marker) ++ replicate 1018 None) (hi ++ marker).

Example missed_reachable : reachable hi missed /\ forall s', ~ step missed s'.
Proof.
  split; [apply (run_rtc step_s step_r [true; true; false]); vm_compute; reflexivity|]. by intros s' [H|H].
Qed.

(** the end is also seen too early: a file that begins with EOF is received as an empty one *)
Example early_end : exists s, reachable [x45; x4f; x46; x21] s /\ r_at s = RDone /\ received s = [].
Proof.
  destruct (run step_s step_r [true; false] (start [x45; x4f; x46; x21])) as [s|] eqn:H; [|by vm_compute in H].
  exists s. split; [by eapply run_rtc|]. vm_compute in H. injection H as <-. done.
Qed.

Lemma hi_received : reachable hi (mkState SDone [] [] RDone ((Some <$> marker) ++ replicate 1020 None) hi).
Proof. apply (run_rtc step_s step_r [true; false; true; false; true]). vm_compute. reflexivity. Qed.

Lemma transfer_correct_witness : clean no_buffer (blocks hi) /\
  (received missed `prefix_of` hi ++ marker /\ r_at missed <> RWild /\ (r_at missed = RDone -> received missed = hi) /\
  ((forall s', ~ step missed s') -> s_at missed = SDone /\ r_at missed = RDone \/
     s_at missed = SWaiting /\ r_at missed = RReading /\ received missed = hi ++ marker /\ (length hi mod MAX <> 0)%nat)).
Proof.
  assert (clean no_buffer (blocks hi)) as Hc by (split; [reflexivity|exact I]).
  split; [exact Hc|]. apply (transfer_correct hi missed Hc). exact (proj1 missed_reachable).
Defined.
