(* ===== verification/ShmFlag.v ===== *)
(** * A message behind a ready flag in shared memory

    IPCs/SharedMemory/shmForkDemo.c (parent and child), shmWriter.c and shmReader.c (two
    programs, with the segment of commonShm.c): one process stores a text and its length and
    then sets a flag with release order; the other polls the flag with acquire order and then
    reads.  A state holds the segment and both processes; a step is one access to the
    segment, a byte, the length or the flag.  Creating, attaching and removing the segment
    is left out. *)
From S2P Require Import Prelude ByteFile TwoProcesses.

(** ** The segment and the two processes *)

Record payload := mkPayload { ready : Z; len : nat; text : bytes }.

(** the stores of the writer *)
Inductive store := SetReady (z : Z) | SetByte (i : nat) (b : byte) | SetLength (n : nat).

Definition apply_store (x : store) (p : payload) : outcome payload :=
  match x with
  | SetReady z => Done (mkPayload z (len p) (text p))
  | SetByte i b => text' ← arr_set (text p) (Z.of_nat i) b; Done (mkPayload (ready p) (len p) text')
  | SetLength n => Done (mkPayload (ready p) n (text p))
  end.

(** [strnlen]: the bytes before the first NUL, at most so many *)
Fixpoint strnlen (max : nat) (s : bytes) : nat :=
  match max, s with
  | S max, b :: s => if decide (b = x00) then O else S (strnlen max s)
  | _, _ => O
  end.

(** the writer's stores of a message in a text of [cap] bytes: [memcpy], the NUL, the length, the flag *)
Definition publish (cap : nat) (message : bytes) : list store :=
  let n := strnlen (cap - 1) message in
  imap SetByte (take n message) ++ [SetByte n x00; SetLength n; SetReady 1].

(** the stores of shmWriter.c, which starts with the flag *)
Definition shmWriter (cap : nat) (message : bytes) : list store := SetReady 0 :: publish cap message.

(** the reader: polling; reading the text from an index on, after the length; done with what it prints *)
Inductive reader := Polling | ReadLength | ReadText (n : nat) (i : nat) (acc : bytes) | Printed (n : nat) (s : bytes) | Wild.

Record state := mkState { segment : payload; todo : list store; reads : reader }.

Definition step_writer (s : state) : option state :=
  match todo s with
  | [] => None
  | x :: todo =>
      match apply_store x (segment s) with
      | Done p => Some (mkState p todo (reads s))
      | _ => Some (mkState (segment s) todo Wild)
      end
  end.

Definition step_reader (s : state) : option state :=
  let goto r := Some (mkState (segment s) (todo s) r) in
  match reads s with
  | Polling => goto (if ready (segment s) =? 0 then Polling else ReadLength)
  | ReadLength => goto (ReadText (len (segment s)) 0 [])
  | ReadText n i acc =>
      goto match arr_get (text (segment s)) (Z.of_nat i) with
           | Done b => if decide (b = x00) then Printed n acc else ReadText n (S i) (acc ++ [b])
           | _ => Wild
           end
  | Printed _ _ | Wild => None
  end.

Definition step : state -> state -> Prop := interleave step_writer step_reader.

(** shmForkDemo.c: the flag is cleared before the fork *)
Definition TEXT_CAP : nat := 128.
Definition fork_demo (old : payload) (message : bytes) : state :=
  mkState (mkPayload 0 (len old) (text old)) (publish TEXT_CAP message) Polling.

(** shmWriter.c for a list of messages, one run after the other, and shmReader.c *)
Definition SHM_TEXT_CAP : nat := 256.
Definition writers (old : payload) (messages : list bytes) : state :=
  mkState old (concat (shmWriter SHM_TEXT_CAP <$> messages)) Polling.

(** ** The invariant of one message *)

(** the bytes of the message that fit *)
Definition printed_text (cap : nat) (message : bytes) : bytes := take (strnlen (cap - 1) message) message.

(** the segment when everything is stored *)
Definition complete (cap : nat) (message : bytes) (p : payload) : Prop :=
  ready p = 1 /\ len p = strnlen (cap - 1) message /\
  take (S (strnlen (cap - 1) message)) (text p) = printed_text cap message ++ [x00].

Inductive inv (cap : nat) (message : bytes) : state -> Prop :=
| inv_writing p done_ todo : done_ ++ todo = publish cap message -> todo <> [] -> ready p = 0 -> length (text p) = cap ->
    (forall i b, SetByte i b ∈ done_ -> text p !! i = Some b) -> (SetLength (strnlen (cap - 1) message) ∈ done_ -> len p = strnlen (cap - 1) message) ->
    inv cap message (mkState p todo Polling)
| inv_written p r : complete cap message p ->
    match r with
    | Polling | ReadLength => True
    | ReadText n i acc => n = strnlen (cap - 1) message /\ acc = take i (printed_text cap message) /\ (i <= n)%nat
    | Printed n s => n = strnlen (cap - 1) message /\ s = printed_text cap message
    | Wild => False
    end -> inv cap message (mkState p [] r).

(** ** Lemmas *)

Lemma strnlen_le max s : (strnlen max s <= max /\ strnlen max s <= length s)%nat.
Proof.
  revert s. induction max as [|max IH]; intros [|b s]; simpl; try lia. case_decide; [lia|]. specialize (IH s). lia.
Qed.

Lemma strnlen_no_nul max s i b : take (strnlen max s) s !! i = Some b -> b <> x00.
Proof.
  revert s i. induction max as [|max IH]; intros [|b' s] i; simpl; try done. case_decide; [done|].
  destruct i as [|i]; simpl; [by intros [= <-]|apply IH].
Qed.

Lemma length_printed cap message : length (printed_text cap message) = strnlen (cap - 1) message.
Proof. unfold printed_text. pose proof (strnlen_le (cap - 1) message). rewrite length_take. lia. Qed.

(** the byte that a store of the message sets *)
Definition final (cap : nat) (message : bytes) (i : nat) : option byte := (printed_text cap message ++ [x00]) !! i.

Lemma publish_bytes cap message i b : SetByte i b ∈ publish cap message <-> final cap message i = Some b.
Proof.
  unfold publish, final. rewrite elem_of_app, !elem_of_cons, elem_of_nil.
  assert (SetByte i b ∈ imap SetByte (printed_text cap message) <-> printed_text cap message !! i = Some b) as H.
  { rewrite list_elem_of_lookup. setoid_rewrite list_lookup_imap_Some. split; [by intros (j & x & Hx & [= -> ->])|].
    intros Hi. by exists i, b. }
  fold (printed_text cap message). rewrite H. rewrite <- (length_printed cap message).
  destruct (decide (i < length (printed_text cap message))%nat) as [Hl|Hl].
  - rewrite lookup_app_l by done. split; [|by left]. intros [?|[[= -> ->]|[|[|]]]]; [done|lia|done..].
  - rewrite (lookup_ge_None_2 (printed_text cap message)), lookup_app_r by lia. split.
    + intros [?|[[= -> ->]|[|[|]]]]; [done| |done..]. by rewrite Nat.sub_diag.
    + intros Hx. destruct (i - length (printed_text cap message))%nat as [|k] eqn:Hk; [|done].
      injection Hx as <-. right. left. f_equal. lia.
Qed.

Lemma publish_members cap message x : x ∈ publish cap message ->
  (exists i b, x = SetByte i b /\ final cap message i = Some b) \/ x = SetLength (strnlen (cap - 1) message) \/ x = SetReady 1.
Proof.
  intros Hx. destruct x as [z|i b|n].
  - right. right. unfold publish in Hx. rewrite elem_of_app, !elem_of_cons, elem_of_nil in Hx.
    destruct Hx as [(j & y & ? & _)%elem_of_lookup_imap|[?|[?|[?|[]]]]]; done.
  - left. exists i, b. split; [done|]. by apply publish_bytes.
  - right. left. unfold publish in Hx. rewrite elem_of_app, !elem_of_cons, elem_of_nil in Hx.
    destruct Hx as [(j & y & ? & _)%elem_of_lookup_imap|[?|[?|[?|[]]]]]; done.
Qed.

(** setting the flag is the last store *)
Lemma publish_last cap message l1 x l2 : l1 ++ x :: l2 = publish cap message -> (x = SetReady 1 <-> l2 = []).
Proof.
  unfold publish. set (pre := imap _ _). intros H.
  assert (l1 ++ x :: l2 = (pre ++ [SetByte (strnlen (cap - 1) message) x00; SetLength (strnlen (cap - 1) message)]) ++ [SetReady 1])
    as He by (rewrite H, <- app_assoc; done). clear H.
  destruct l2 as [|y l2 _] using rev_ind.
  - apply app_inj_tail in He as [_ ->]. done.
  - rewrite app_comm_cons, app_assoc in He. apply app_inj_tail in He as [He _]. split; [|by destruct l2].
    intros ->. exfalso. assert (SetReady 1 ∈ l1 ++ SetReady 1 :: l2) as Hin by set_solver. rewrite He in Hin.
    rewrite elem_of_app, !elem_of_cons, elem_of_nil in Hin.
    destruct Hin as [(j & z & ? & _)%elem_of_lookup_imap|[?|[?|[]]]]; done.
Qed.

Lemma final_bound cap message i b : (0 < cap)%nat -> final cap message i = Some b -> (i < cap)%nat.
Proof.
  unfold final. intros Hc Hi%lookup_lt_Some. rewrite length_app, length_printed in Hi. simpl in Hi.
  pose proof (strnlen_le (cap - 1) message). lia.
Qed.

Lemma take_pointwise {A} (l t : list A) : (forall i x, l !! i = Some x -> t !! i = Some x) -> take (length l) t = l.
Proof.
  intros H. apply list_eq. intros i. destruct (decide (i < length l)%nat) as [Hi|Hi].
  - destruct (lookup_lt_is_Some_2 l i Hi) as [x Hx]. rewrite Hx, lookup_take, decide_True by done. by apply H.
  - rewrite lookup_take, decide_False, (lookup_ge_None_2 l) by lia. done.
Qed.

Lemma all_stored cap message t : (forall i b, final cap message i = Some b -> t !! i = Some b) ->
  take (S (strnlen (cap - 1) message)) t = printed_text cap message ++ [x00].
Proof.
  intros H. apply take_pointwise in H. by rewrite length_app, length_printed, Nat.add_1_r in H.
Qed.

Lemma writing_inv cap message p done_ x todo s' : (0 < cap)%nat -> done_ ++ x :: todo = publish cap message ->
  ready p = 0 -> length (text p) = cap ->
  (forall i b, SetByte i b ∈ done_ -> text p !! i = Some b) ->
  (SetLength (strnlen (cap - 1) message) ∈ done_ -> len p = strnlen (cap - 1) message) ->
  step_writer (mkState p (x :: todo) Polling) = Some s' -> inv cap message s'.
Proof.
  intros Hcap Hp Hr Hl Hb Hn H. pose proof (publish_last _ _ _ _ _ Hp) as Hlast.
  assert (x ∈ publish cap message) as Hx by (rewrite <- Hp; set_solver).
  assert (forall i b, SetByte i b ∈ done_ -> final cap message i = Some b) as Hfin.
  { intros i b Hi. apply publish_bytes. rewrite <- Hp. set_solver. }
  assert (done_ ++ x :: todo = (done_ ++ [x]) ++ todo) as Happ by (by rewrite <- app_assoc).
  destruct (publish_members _ _ _ Hx) as [(i & b & -> & Hf)|[->| ->]]; unfold step_writer in H; cbn in H.
  - pose proof (final_bound _ _ _ _ Hcap Hf). rewrite arr_set_in in H by lia. cbn in H. injection H as <-. rewrite Nat2Z.id.
    apply (inv_writing _ _ _ (done_ ++ [SetByte i b])); cbn [ready text len]; [congruence| |done|by rewrite length_insert| |].
    + intros ->. discriminate (proj2 Hlast eq_refl).
    + intros j c [Hj|[= -> ->]%list_elem_of_singleton]%elem_of_app; [|apply list_lookup_insert_eq; lia].
      destruct (decide (i = j)) as [->|Hne]; [|rewrite list_lookup_insert_ne by done; by apply Hb].
      rewrite list_lookup_insert_eq by lia. apply Hfin in Hj. congruence.
    + intros [Hj|?%list_elem_of_singleton]%elem_of_app; [by apply Hn|done].
  - injection H as <-. apply (inv_writing _ _ _ (done_ ++ [SetLength (strnlen (cap - 1) message)])); cbn [ready text len]; [congruence| |done|done| |].
    + intros ->. discriminate (proj2 Hlast eq_refl).
    + intros j c [Hj|?%list_elem_of_singleton]%elem_of_app; [by apply Hb|done].
    + done.
  - injection H as <-. rewrite (proj1 Hlast eq_refl) in *. apply inv_written; [|done].
    assert (forall y, y ∈ publish cap message -> y <> SetReady 1 -> y ∈ done_) as Hall.
    { intros y. rewrite <- Hp. set_solver. }
    split_and!; [done|apply Hn, Hall; [unfold publish; set_solver|done]|]. cbn [text].
    apply all_stored. intros i b Hi. apply Hb, Hall; [by apply publish_bytes|done].
Qed.

Lemma reader_inv cap message p r s' : complete cap message p ->
  match r with
  | Polling | ReadLength => True
  | ReadText n i acc => n = strnlen (cap - 1) message /\ acc = take i (printed_text cap message) /\ (i <= n)%nat
  | Printed n s => n = strnlen (cap - 1) message /\ s = printed_text cap message
  | Wild => False
  end -> step_reader (mkState p [] r) = Some s' -> inv cap message s'.
Proof.
  intros Hc Hr H. pose proof Hc as (Hr1 & Hn & Ht). destruct r as [| |n i acc|n s|]; unfold step_reader in H; cbn in H; try done.
  - rewrite Hr1 in H. injection H as <-. by apply inv_written.
  - injection H as <-. apply inv_written; [done|]. split_and!; [done|done|lia].
  - destruct Hr as (-> & -> & Hi). injection H as <-.
    assert (text p !! i = (printed_text cap message ++ [x00]) !! i) as Hb.
    { rewrite <- Ht, lookup_take, decide_True by lia. done. }
    unfold arr_get. destruct (Z.ltb_spec (Z.of_nat i) 0); [lia|]. rewrite Nat2Z.id, Hb.
    pose proof (length_printed cap message) as Hlen. apply inv_written; [done|].
    destruct (decide (i < strnlen (cap - 1) message)%nat) as [Hlt|Hge].
    + rewrite lookup_app_l by lia. destruct (lookup_lt_is_Some_2 (printed_text cap message) i) as [b Hx]; [lia|].
      rewrite Hx. cbn [of_option]. rewrite decide_False by (by eapply strnlen_no_nul). split_and!; [done| |lia].
      symmetry. by apply take_S_r.
    + rewrite lookup_app_r by lia. replace (i - length (printed_text cap message))%nat with O by lia. cbn.
      split; [done|]. apply take_ge. lia.
Qed.

Lemma step_inv cap message s s' : (0 < cap)%nat -> inv cap message s -> step s s' -> inv cap message s'.
Proof.
  intros Hcap Hi [H|H]; destruct Hi as [p done_ todo Hp Ht Hr Hl Hb Hn|p r Hc Hr].
  - destruct todo as [|x todo]; [done|]. by eapply writing_inv.
  - done.
  - unfold step_reader in H. cbn in H. rewrite Hr in H. injection H as <-. by eapply inv_writing.
  - by eapply reader_inv.
Qed.

Lemma start_inv old message : length (text old) = TEXT_CAP -> inv TEXT_CAP message (fork_demo old message).
Proof.
  intros Hl. apply (inv_writing _ _ _ []); [done| |done|done| |].
  - unfold publish. by destruct (imap _ _).
  - by intros i b ?%not_elem_of_nil.
  - by intros ?%not_elem_of_nil.
Qed.

(** ** Properties *)

(** Parent and child of shmForkDemo.c, for any message, whatever the segment held before and
    however the accesses interleave: the child never reads beyond the text, what it prints is the message up
    to the size of the text with its length, and as long as it has not printed, a step is left to do. *)
Theorem child_gets_message old message s : length (text old) = TEXT_CAP -> rtc step (fork_demo old message) s ->
  reads s <> Wild /\
  (forall n t, reads s = Printed n t -> n = strnlen (TEXT_CAP - 1) message /\ t = take n message) /\
  ((forall n t, reads s <> Printed n t) -> exists s', step s s').
Proof.
  intros Hl Hr. assert (inv TEXT_CAP message s) as Hi.
  { pose proof (start_inv old message Hl) as Hi. revert Hi. induction Hr as [s|s s1 s2 Hs _ IH]; [done|].
    intros Hi. apply IH. eapply step_inv; [|exact Hi|exact Hs]. unfold TEXT_CAP. lia. }
  destruct Hi as [p done_ todo Hp Ht Hr0 _ _ _|p r Hc Hr0]; cbn [reads].
  - split_and!; [done|done|]. intros _. eexists. right. reflexivity.
  - split_and!; [by intros ->|intros n t ->; by destruct Hr0 as [-> ->]|].
    intros Hno. destruct r; try (eexists; right; reflexivity); [by destruct (Hno n s)|done].
Qed.

Definition empty_segment (cap : nat) : payload := mkPayload 0 0 (replicate cap x00).

(** Two runs of shmWriter.c: the second overwrites the text while the reader, let in by the first, reads it. *)
Example torn_message : exists s, rtc step (writers (empty_segment SHM_TEXT_CAP) [[x61; x61]; [x62; x62]]) s /\
  reads s = Printed 2 [x61; x62].
Proof.
  destruct (run step_writer step_reader (replicate 6 true ++ replicate 3 false ++ replicate 3 true ++ replicate 2 false)
    (writers (empty_segment SHM_TEXT_CAP) [[x61; x61]; [x62; x62]])) as [s|] eqn:H; [|by vm_compute in H].
  exists s. split; [by eapply run_rtc|]. vm_compute in H. by injection H as <-.
Qed.

Lemma child_gets_message_witness : exists s, rtc step (fork_demo (empty_segment TEXT_CAP) [x61; x62]) s /\
  reads s = Printed 2 [x61; x62] /\
  (reads s <> Wild /\ (forall n t, reads s = Printed n t -> n = strnlen (TEXT_CAP - 1) [x61; x62] /\ t = take n [x61; x62]) /\
   ((forall n t, reads s <> Printed n t) -> exists s', step s s')).
Proof.
  destruct (run step_writer step_reader (false :: replicate 5 true ++ replicate 5 false) (fork_demo (empty_segment TEXT_CAP) [x61; x62])) as [s|] eqn:H;
    [|exfalso; vm_compute in H; discriminate].
  apply run_rtc in H as Hr. exists s. split; [exact Hr|]. split; [vm_compute in H; injection H as <-; reflexivity|].
  apply (child_gets_message (empty_segment TEXT_CAP) [x61; x62] s); [reflexivity|exact Hr].
Defined.
