(* ===== verification/ShmLife.v ===== *)
(** * The life of a shared memory segment

    The mains of IPCs/SharedMemory/shmForkDemo.c, shmWriter.c and shmReader.c with the calls
    that make, attach, detach and remove the segment; what is stored in it and read from
    it is that of ShmFlag.v.  Whether each call succeeds is an argument; a process that ends
    is detached by the kernel.  The interleaving of single accesses is the matter of
    ShmFlag.v: here the child reads when the parent has published, and a reader runs
    between the calls of a writer or after it. *)
From S2P Require Import Prelude ByteFile TwoProcesses ShmFlag.

(** ** The kernel's table *)

(** a segment: how often it is attached, and what it holds *)
Record segment := mkSegment { nattch : nat; content : payload }.

(** [calls]: how many calls were made; [keyed]: the segment of the [ftok] key *)
Record world := mkWorld {
  calls : nat; key_file : bool; keyed : option Z; table : gmap Z segment; fresh : Z; out : list string;
  received : list (nat * bytes) }.

Definition set_table (t : gmap Z segment) (w : world) : world := mkWorld (calls w) (key_file w) (keyed w) t (fresh w) (out w) (received w).
Definition add_out (l : string) (w : world) : world := mkWorld (calls w) (key_file w) (keyed w) (table w) (fresh w) (out w ++ [l]) (received w).
Definition add_received (m : nat * bytes) (w : world) : world := mkWorld (calls w) (key_file w) (keyed w) (table w) (fresh w) (out w) (received w ++ [m]).
Definition set_key_file (w : world) : world := mkWorld (calls w) true (keyed w) (table w) (fresh w) (out w) (received w).

Definition print (l : string) : cmd world unit := modify (add_out l).

Section programs.
(** whether the [n]-th call succeeds *)
Context (ok : nat -> bool).

Definition next_ok : cmd world bool :=
  w ← get;
  modify (fun w => mkWorld (S (calls w)) (key_file w) (keyed w) (table w) (fresh w) (out w) (received w));;
  mret (ok (calls w)).

(** [shmget] of a new segment of [cap] characters *)
Definition new_segment (cap : nat) : cmd world Z :=
  w ← get;
  modify (set_table (<[fresh w := mkSegment 0 (mkPayload 0 0 (replicate cap x00))]> (table w)));;
  modify (fun w => mkWorld (calls w) (key_file w) (keyed w) (table w) (fresh w + 1) (out w) (received w));;
  mret (fresh w).

Definition attach (id : Z) : cmd world unit :=
  modify (fun w => set_table (alter (fun s => mkSegment (S (nattch s)) (content s)) id (table w)) w).
Definition detach (id : Z) : cmd world unit :=
  modify (fun w => set_table (alter (fun s => mkSegment (pred (nattch s)) (content s)) id (table w)) w).

(** [shmctl(IPC_RMID)] of a segment that nobody is attached to *)
Definition remove (id : Z) : cmd world unit := modify (fun w => set_table (delete id (table w)) w).

(** stores into the segment *)
Fixpoint apply_stores (l : list store) (p : payload) : outcome payload :=
  match l with [] => Done p | x :: l => p ← apply_store x p; apply_stores l p end.

Definition write_segment (id : Z) (l : list store) : cmd world unit :=
  w ← get;
  s ← lift (of_option (table w !! id));
  p ← lift (apply_stores l (content s));
  modify (set_table (<[id := mkSegment (nattch s) p]> (table w))).

(** [printf("%s")] of the text: the bytes up to the first NUL *)
Fixpoint read_text (t : bytes) : outcome bytes :=
  match t with
  | [] => Undef
  | b :: t => if decide (b = x00) then Done [] else r ← read_text t; Done (b :: r)
  end.

Definition wait_for_ever : cmd world unit := fun _ => OutOfFuel.

(** the loop that waits for the flag, when nobody else runs, and what is printed *)
Definition read_message (id : Z) : cmd world unit :=
  w ← get;
  s ← lift (of_option (table w !! id));
  if ready (content s) =? 0 then wait_for_ever else
  t ← lift (read_text (text (content s)));
  modify (add_received (len (content s), t)).

(** [perror] and [exit]: a process that is attached [n] times is detached *)
Fixpoint leave (n : nat) (id : Z) : cmd world unit := match n with O => mret tt | S n => detach id;; leave n id end.

Definition die (message : string) : cmd world Z := print message;; mret 1.

(** ** shmForkDemo.c *)

Definition fork_message : bytes := String.list_byte_of_string "Hello from the parent(writer) via IPC PRIVATE".

(** the child, which has inherited one attachment *)
Definition child (id : Z) : cmd world unit :=
  attached ← next_ok;
  if negb attached then die "shmat child";; leave 1 id else
  attach id;;
  read_message id;;
  detached ← next_ok;
  if negb detached then die "shmdt child";; leave 2 id else
  detach id;; leave 1 id.

Definition fork_main : cmd world Z :=
  made ← next_ok;
  if negb made then die "shmget" else
  shmid ← new_segment TEXT_CAP;
  attached ← next_ok;
  if negb attached then die "shmat parent" else
  attach shmid;;
  write_segment shmid [SetReady 0];;
  forked ← next_ok;
  if negb forked then leave 1 shmid;; die "fork" else
  attach shmid;;
  write_segment shmid (publish TEXT_CAP fork_message);;
  child shmid;;
  detached ← next_ok;
  if negb detached then leave 1 shmid;; die "shmdt parent" else
  detach shmid;;
  removed ← next_ok;
  if negb removed then die "shmctl IPC_RMID" else
  remove shmid;;
  print "[parent] Done";; mret 0.

(** ** shmWriter.c and shmReader.c *)

(** [shmget] with the key: the segment that exists, or a new one where [create] is set *)
Definition shmget_key (create : bool) : cmd world (option Z) :=
  granted ← next_ok;
  w ← get;
  if negb granted then mret None else
  match keyed w with
  | Some id => mret (Some id)
  | None =>
      if create then
        id ← new_segment SHM_TEXT_CAP;
        modify (fun w => mkWorld (calls w) (key_file w) (Some id) (table w) (fresh w) (out w) (received w));;
        mret (Some id)
      else mret None
  end.

(** [access] and, in the writer, the [fopen] that makes the file; then [ftok] *)
Definition key_of_file (create : bool) : cmd world (option string) :=
  w ← get;
  present ← (if key_file w then mret true else
    if create then made ← next_ok; (if made : bool then modify set_key_file else mret tt);; mret made else mret false);
  if negb present then mret (Some (if create then "fopen key file" else "Missing key file")) else
  given ← next_ok;
  mret (if given : bool then None else Some "ftok").

(** the writer up to its [sleep]: the segment it is attached to, or [None] with its status *)
Definition writer_publish (argv : list bytes) : cmd world (option Z) :=
  match argv with
  | message :: _ =>
      failed ← key_of_file true;
      match failed with
      | Some m => die m;; mret None
      | None =>
          shmid ← shmget_key true;
          match shmid with
          | None => die "shmget";; mret None
          | Some id =>
              attached ← next_ok;
              if negb attached then die "shmat";; mret None else
              attach id;;
              write_segment id (shmWriter SHM_TEXT_CAP message);;
              print "[writer] wrote";; mret (Some id)
          end
      end
  | [] => print "Usage";; mret None
  end.

(** ... and behind it *)
Definition writer_leave (id : Z) : cmd world Z :=
  detached ← next_ok;
  if negb detached then leave 1 id;; die "shmdt (writer)" else
  detach id;; print "[writer] Detached";; mret 0.

Definition reader_main : cmd world Z :=
  failed ← key_of_file false;
  match failed with
  | Some m => die m
  | None =>
      shmid ← shmget_key false;
      match shmid with
      | None => die "shmget (reader)"
      | Some id =>
          attached ← next_ok;
          if negb attached then die "shmat" else
          attach id;;
          print "[reader] Attached";;
          read_message id;;
          detached ← next_ok;
          if negb detached then leave 1 id;; die "shmdt (reader)" else
          detach id;; print "[reader] Detached";; mret 0
      end
  end.

(** a writer with a reader during its sleep, or after it *)
Definition writer_and_reader (message : bytes) (during : bool) : cmd world Z :=
  id ← writer_publish [message];
  match id with
  | None => mret 1
  | Some id => if during then reader_main;; writer_leave id else writer_leave id;; reader_main
  end.
End programs.

(** ** Lemmas *)

(** *** Storing and reading the text *)

Lemma store_bytes l k p : (k + length l <= length (text p))%nat ->
  apply_stores (imap (fun i b => SetByte (k + i) b) l) p = Done (mkPayload (ready p) (len p) (take k (text p) ++ l ++ drop (k + length l) (text p))).
Proof.
  revert k p. induction l as [|b l IH]; intros k p Hl.
  - cbn. rewrite Nat.add_0_r, take_drop. by destruct p.
  - cbn [imap length] in *. cbn [apply_stores]. rewrite Nat.add_0_r. cbn [apply_store]. rewrite arr_set_in by lia. cbn [mbind outcome_bind]. rewrite Nat2Z.id.
    assert (imap (fun i b => SetByte (k + S i) b) l = imap (fun i b => SetByte (S k + i) b) l) as He.
    { apply imap_ext. intros i x _. f_equal. lia. }
    unfold compose. rewrite He, IH by (cbn [text]; rewrite length_insert; lia). cbn [ready len text].
    assert (take (S k) (<[k := b]> (text p)) = take k (text p) ++ [b]) as ->.
    { rewrite (take_S_r _ _ b) by (apply list_lookup_insert_eq; lia). by rewrite take_insert_ge by lia. }
    rewrite drop_insert_lt by lia. rewrite <- app_assoc. cbn [app].
    by replace (k + S (length l))%nat with (S k + length l)%nat by lia.
Qed.

Lemma apply_stores_app l1 l2 p p1 : apply_stores l1 p = Done p1 -> apply_stores (l1 ++ l2) p = apply_stores l2 p1.
Proof.
  revert p. induction l1 as [|x l1 IH]; intros p; cbn [apply_stores app]; [by intros [= ->]|].
  destruct (apply_store x p) as [q| |]; [|done..]. apply IH.
Qed.

Lemma publish_stores cap message p : (0 < cap)%nat -> length (text p) = cap ->
  exists p', apply_stores (publish cap message) p = Done p' /\ complete cap message p' /\ length (text p') = cap.
Proof.
  intros Hc Hl. unfold publish. set (n := strnlen (cap - 1) message). pose proof (strnlen_le (cap - 1) message) as [Hn Hm]. fold n in Hn, Hm.
  assert (length (take n message) = n) as Ht by (rewrite length_take; lia).
  erewrite apply_stores_app by (apply (store_bytes _ 0); lia). cbn [apply_stores apply_store text]. rewrite take_0. cbn [app plus].
  rewrite arr_set_in by (rewrite length_app, length_drop; lia). cbn [mbind outcome_bind apply_stores apply_store ready len text]. rewrite Nat2Z.id, Ht.
  eexists. split; [done|]. assert (drop n (text p) <> []) as Hd by (intros He%(f_equal length); rewrite length_drop in He; simpl in He; lia).
  destruct (drop n (text p)) as [|x r] eqn:Hdr; [done|].
  assert (<[n := x00]> (take n message ++ x :: r) = take n message ++ x00 :: r) as He by (rewrite <- Ht at 1; apply list_insert_mid).
  rewrite He. split; [split_and!; [done|done|]|].
  - cbn [text]. unfold printed_text. fold n. rewrite take_app_ge, Ht by lia. by replace (S n - n)%nat with 1%nat by lia.
  - cbn [text]. rewrite length_app, Ht. assert (length (drop n (text p)) = (cap - n)%nat) as Hld by (rewrite length_drop; lia). rewrite Hdr in Hld. cbn [length] in *. lia.
Qed.

Lemma read_stored cap message p : complete cap message p -> read_text (text p) = Done (printed_text cap message).
Proof.
  intros (_ & _ & Ht). rewrite <- (take_drop (S (strnlen (cap - 1) message)) (text p)), Ht. clear Ht.
  assert (forall i b, printed_text cap message !! i = Some b -> b <> x00) as Hno by (intros i b; apply strnlen_no_nul).
  induction (printed_text cap message) as [|b l IH]; [done|]. cbn [app read_text]. rewrite decide_False by by apply (Hno 0%nat).
  rewrite IH; [done|]. intros i c Hi. by apply (Hno (S i)).
Qed.

(** *** The calls on the one segment that matters *)

Definition with_segment (w : world) (id : Z) (s : segment) : world := set_table (<[id := s]> (table w)) w.
Definition tick (w : world) : world := mkWorld (S (calls w)) (key_file w) (keyed w) (table w) (fresh w) (out w) (received w).

Section calls.
Context (ok : nat -> bool).
Implicit Types (w : world) (id : Z) (p : payload).

Lemma next_ok_eq w : next_ok ok w = Done (ok (calls w), tick w).
Proof. done. Qed.

Lemma next_ok_seg w id s : next_ok ok (with_segment w id s) = Done (ok (calls w), with_segment (tick w) id s).
Proof. done. Qed.

Lemma attach_eq w id k p : attach id (with_segment w id (mkSegment k p)) = Done (tt, with_segment w id (mkSegment (S k) p)).
Proof. unfold attach, modify, with_segment, set_table. cbn. by rewrite alter_insert_eq. Qed.

Lemma detach_eq w id k p : detach id (with_segment w id (mkSegment k p)) = Done (tt, with_segment w id (mkSegment (pred k) p)).
Proof. unfold detach, modify, with_segment, set_table. cbn. by rewrite alter_insert_eq. Qed.

Lemma leave_eq w id k n p : leave n id (with_segment w id (mkSegment (n + k) p)) = Done (tt, with_segment w id (mkSegment k p)).
Proof. induction n as [|n IH]; [done|]. cbn [leave plus]. by rewrite (cmd_bind_eq _ _ _ _ _ (detach_eq _ _ _ _)). Qed.

Lemma write_eq w id k p l p' : apply_stores l p = Done p' ->
  write_segment id l (with_segment w id (mkSegment k p)) = Done (tt, with_segment w id (mkSegment k p')).
Proof.
  intros Hl. unfold write_segment, with_segment, set_table, modify, lift, get, mbind, cmd_bind. cbn. rewrite lookup_insert_eq. cbn. rewrite Hl.
  cbn. by rewrite insert_insert_eq.
Qed.

Lemma read_eq w id k cap message p : complete cap message p ->
  read_message id (with_segment w id (mkSegment k p)) =
    Done (tt, with_segment (add_received (strnlen (cap - 1) message, printed_text cap message) w) id (mkSegment k p)).
Proof.
  intros Hc. unfold read_message, with_segment, set_table, modify, lift, get, mbind, cmd_bind. cbn. rewrite lookup_insert_eq. cbn.
  pose proof (read_stored _ _ _ Hc) as Hr. destruct Hc as (-> & Hn & _). cbn. rewrite Hr, Hn. done.
Qed.

Lemma die_seg m w id s : die m (with_segment w id s) = Done (1, with_segment (add_out m w) id s).
Proof. done. Qed.

Lemma print_seg m w id s : print m (with_segment w id s) = Done (tt, with_segment (add_out m w) id s).
Proof. done. Qed.

(** the segment that [shmget] makes *)
Definition bump w : world := mkWorld (calls w) (key_file w) (keyed w) (table w) (fresh w + 1) (out w) (received w).

Lemma new_segment_eq cap w : new_segment cap w = Done (fresh w, with_segment (bump w) (fresh w) (mkSegment 0 (mkPayload 0 0 (replicate cap x00)))).
Proof. done. Qed.

Lemma remove_eq w id s : table w !! id = None -> exists w', remove id (with_segment w id s) = Done (tt, w') /\ table w' = table w /\ received w' = received w /\ calls w' = calls w.
Proof. intros Hn. eexists. split; [done|]. cbn. by rewrite delete_insert_id. Qed.

Ltac call L := rewrite (cmd_bind_eq _ _ _ _ _ L).

(** *** The fork demo *)

(** what a process that reads adds to what was received *)
Definition reads_if (b : bool) : list (nat * bytes) := if b then [(length fork_message, fork_message)] else [].

(** the child ends and is detached, whatever fails; it has read if it could attach *)
Lemma child_ok w id p : complete TEXT_CAP fork_message p -> exists w', child ok id (with_segment w id (mkSegment 2 p)) = Done (tt, with_segment w' id (mkSegment 1 p)) /\
  table w' = table w /\ received w' = received w ++ reads_if (ok (calls w)).
Proof.
  intros Hc. unfold child. call (next_ok_seg w id (mkSegment 2 p)). destruct (ok (calls w)); cbn [negb].
  - call (attach_eq (tick w) id 2 p). call (read_eq (tick w) id 3 _ _ _ Hc). call (next_ok_seg (add_received (strnlen (TEXT_CAP - 1) fork_message, printed_text TEXT_CAP fork_message) (tick w)) id (mkSegment 3 p)).
    destruct (ok _); cbn [negb].
    + call (detach_eq (tick (add_received (strnlen (TEXT_CAP - 1) fork_message, printed_text TEXT_CAP fork_message) (tick w))) id 3 p).
      rewrite (leave_eq _ id 1 1 p). eexists. by split.
    + call (die_seg "shmdt child" (tick (add_received (strnlen (TEXT_CAP - 1) fork_message, printed_text TEXT_CAP fork_message) (tick w))) id (mkSegment 3 p)).
      rewrite (leave_eq _ id 1 2 p). eexists. by split.
  - call (die_seg "shmat child" (tick w) id (mkSegment 2 p)). rewrite (leave_eq _ id 1 1 p). eexists. split; [done|]. by rewrite app_nil_r.
Qed.

(** how a process ends that may leave the new segment behind *)
Definition ends_with w w' (r : Z) : Prop :=
  r = 0 /\ table w' = table w \/ r = 1 /\ (table w' = table w \/ exists p, table w' = <[fresh w := mkSegment 0 p]> (table w)).

(** the parent behind its [wait] *)
Lemma parent_end w0 w id p : table w = table w0 -> id = fresh w0 -> table w0 !! id = None -> exists r w',
  (detached ← next_ok ok;
   if negb detached then leave 1 id;; die "shmdt parent" else
   detach id;;
   removed ← next_ok ok;
   if negb removed then die "shmctl IPC_RMID" else
   remove id;; print "[parent] Done";; mret 0) (with_segment w id (mkSegment 1 p)) = Done (r, w') /\ ends_with w0 w' r /\ received w' = received w.
Proof.
  intros Ht -> Hn. call (next_ok_seg w (fresh w0) (mkSegment 1 p)). destruct (ok (calls w)); cbn [negb].
  - call (detach_eq (tick w) (fresh w0) 1 p). call (next_ok_seg (tick w) (fresh w0) (mkSegment 0 p)). destruct (ok _); cbn [negb].
    + destruct (remove_eq (tick (tick w)) (fresh w0) (mkSegment 0 p)) as (w1 & Hr & Ht1 & Hrec & _); [by cbn; rewrite Ht|].
      call Hr. eexists _, _. split; [done|]. split; [|exact Hrec]. left. split; [done|]. cbn. rewrite Ht1. exact Ht.
    + rewrite die_seg. eexists _, _. split; [done|]. split; [|done]. right. split; [done|]. right. exists p. cbn. by rewrite Ht.
  - call (leave_eq (tick w) (fresh w0) 0 1 p). rewrite die_seg. eexists _, _. split; [done|]. split; [|done].
    right. split; [done|]. right. exists p. cbn. by rewrite Ht.
Qed.

Lemma fork_main_ok w : table w !! fresh w = None -> exists r w', fork_main ok w = Done (r, w') /\ ends_with w w' r /\
  received w' = received w ++ reads_if (ok (calls w) && ok (S (calls w)) && ok (S (S (calls w))) && ok (S (S (S (calls w))))).
Proof.
  intros Hn. unfold fork_main. call (next_ok_eq w). destruct (ok (calls w)); cbn [negb andb].
  2:{ eexists _, _. split; [done|]. split; [right; split; [done|by left]|by rewrite app_nil_r]. }
  call (new_segment_eq TEXT_CAP (tick w)). set (p0 := mkPayload 0 0 (replicate TEXT_CAP x00)). set (w1 := bump (tick w)). change (fresh (tick w)) with (fresh w).
  call (next_ok_seg w1 (fresh w) (mkSegment 0 p0)). change (ok (calls w1)) with (ok (S (calls w))). destruct (ok (S (calls w))); cbn [negb andb].
  2:{ rewrite die_seg. eexists _, _. split; [done|]. split; [right; split; [done|right; by exists p0]|by rewrite app_nil_r]. }
  call (attach_eq (tick w1) (fresh w) 0 p0). call (write_eq (tick w1) (fresh w) 1 p0 [SetReady 0] p0 eq_refl).
  call (next_ok_seg (tick w1) (fresh w) (mkSegment 1 p0)). change (ok (calls (tick w1))) with (ok (S (S (calls w)))).
  destruct (ok (S (S (calls w)))); cbn [negb andb].
  2:{ call (leave_eq (tick (tick w1)) (fresh w) 0 1 p0). rewrite die_seg. eexists _, _. split; [done|].
      split; [right; split; [done|right; by exists p0]|by rewrite app_nil_r]. }
  call (attach_eq (tick (tick w1)) (fresh w) 1 p0).
  destruct (publish_stores TEXT_CAP fork_message p0) as (p & Hp & Hc & _); [unfold TEXT_CAP; lia|apply length_replicate|].
  call (write_eq (tick (tick w1)) (fresh w) 2 p0 _ p Hp).
  destruct (child_ok (tick (tick w1)) (fresh w) p Hc) as (w2 & Hch & Ht2 & Hr2). call Hch.
  destruct (parent_end w w2 (fresh w) p) as (r & w' & -> & He & Hr); [by rewrite Ht2|done|done|]. exists r, w'. split; [done|]. split; [done|].
  by rewrite Hr, Hr2.
Qed.
End calls.

(** ** Properties *)

(** C33: whichever calls of shmForkDemo.c fail, parent and child both end; when the parent ends well the table
    of segments is as it was before; when it gives up, at most the new segment stays behind, and nobody is
    attached to it; and the child has received the whole message exactly if the segment was made, the parent
    could attach and fork, and the child could attach. *)
Theorem fork_demo_segment ok w : table w !! fresh w = None -> exists r w', fork_main ok w = Done (r, w') /\
  (r = 0 /\ table w' = table w \/ r = 1 /\ (table w' = table w \/ exists p, table w' = <[fresh w := mkSegment 0 p]> (table w))) /\
  received w' = received w ++
    (if ok (calls w) && ok (S (calls w)) && ok (S (S (calls w))) && ok (S (S (S (calls w)))) then [(length fork_message, fork_message)] else []).
Proof. apply fork_main_ok. Qed.

(** The parent says that it is done although its child could not attach and printed nothing. *)
Lemma done_without_child : exists w', fork_main (fun n => negb (n =? 3)%nat) (mkWorld 0 false None ∅ 0 [] []) = Done (0, w') /\
  out w' = ["shmat child"; "[parent] Done"] /\ received w' = [].
Proof. eexists. split; [vm_compute; reflexivity|]. by split. Qed.

Definition all_well : nat -> bool := fun _ => true.

Definition no_segments : world := mkWorld 0 false None ∅ 0 [] [].

(** A reader finds the message, during the sleep of the writer and after it; the segment is never removed. *)
Lemma writer_reader_example during :
  match writer_and_reader all_well [x68; x69] during no_segments with
  | Done (r, w) => r = 0 /\ received w = [(2%nat, [x68; x69])] /\ keyed w = Some 0 /\ (nattch <$> table w !! 0) = Some 0%nat
  | _ => False
  end.
Proof. destruct during; by vm_compute. Qed.

(** A reader that is first waits for a writer, but only if the segment is there: at the first start it gives up. *)
Lemma reader_before_writer : exists w', reader_main all_well no_segments = Done (1, w') /\ out w' = ["Missing key file"].
Proof. eexists. by split; [vm_compute; reflexivity|]. Qed.

(** ** Witness *)

Lemma fork_demo_segment_witness : exists r w', fork_main all_well no_segments = Done (r, w') /\ received w' = [(45%nat, fork_message)].
Proof.
  destruct (fork_demo_segment all_well no_segments) as (r & w' & Hm & _ & Hr); [reflexivity|]. exists r, w'. split; [exact Hm|]. exact Hr.
Defined.
