(* ===== verification/Signals.v ===== *)
(** * Signals and their handlers

    IPCs/signals/multiplesignal.c, IPCs/signals/signals.c and Timer/periodicSetTime.c: processes
    that install handlers and then loop.  A signal that arrives is pending, once however often it
    arrives; delivery interrupts whatever runs, also another handler, and blocks the signal until
    its handler returns.  A run is any sequence of such events.  A handler acts when it returns;
    the elapsed time is kept in nanoseconds, its conversion to seconds is left out. *)
From S2P Require Import Prelude.

(** ** Processes with handlers *)

Inductive signal := SIGINT | SIGTERM | SIGUSR1 | SIGALRM.
#[export] Instance signal_eq_decision : EqDecision signal.
Proof. solve_decision. Defined.

Section process.
Context {St E : Type}.
(** the signals with a handler, the handlers, the body of the loop of [main], and what may happen outside *)
Context (caught : signal -> bool) (handler : signal -> St -> St) (loop : St -> St) (outside : E -> St -> option (St * option signal)).

(** [handlers]: the stack of the handlers that have been entered *)
Record process := mkProcess { pending : list signal; handlers : list signal; state : St; alive : bool }.

Inductive event := Outside (e : E) | Deliver (s : signal) | Return | Loop.

Definition arrive (s : signal) (p : process) : process :=
  if caught s then
    mkProcess (if decide (s ∈ pending p) then pending p else pending p ++ [s]) (handlers p) (state p) (alive p)
  else mkProcess (pending p) (handlers p) (state p) false.

Definition step (e : event) (p : process) : option process :=
  if alive p then
    match e with
    | Outside e =>
        '(st, o) ← outside e (state p);
        let p := mkProcess (pending p) (handlers p) st true in
        Some (match o with Some s => arrive s p | None => p end)
    | Deliver s =>
        if decide (s ∈ pending p /\ s ∉ handlers p)
        then Some (mkProcess (filter (fun x => x <> s) (pending p)) (s :: handlers p) (state p) true) else None
    | Return =>
        match handlers p with
        | [] => None
        | s :: l => Some (mkProcess (pending p) l (handler s (state p)) true)
        end
    | Loop => match handlers p with [] => Some (mkProcess (pending p) [] (loop (state p)) true) | _ => None end
    end
  else None.

Fixpoint run (es : list event) (p : process) : option process :=
  match es with [] => Some p | e :: es => p ← step e p; run es p end.
End process.
Arguments process St : clear implicits.
Arguments event E : clear implicits.

(** ** The programs *)

Inductive line := ProcessRunning | Caught (s : signal).
#[export] Instance line_eq_decision : EqDecision line.
Proof. solve_decision. Defined.

(** the [handler] of both programs, and the loop of [main], whose [sleep] a signal cuts short *)
Definition report (s : signal) (out : list line) : list line := match s with SIGALRM => out | _ => out ++ [Caught s] end.
Definition main_loop (out : list line) : list line := out ++ [ProcessRunning].

(** any signal may be sent to the process *)
Definition sent (s : signal) (out : list line) : option (list line * option signal) := Some (out, Some s).

(** the calls of [sigaction] *)
Definition multiple_caught (s : signal) : bool := match s with SIGALRM => false | _ => true end.
Definition single_caught (s : signal) : bool := match s with SIGINT => true | _ => false end.

Definition multiple_run := run multiple_caught report main_loop sent.
Definition single_run := run single_caught report main_loop sent.
Definition start : process (list line) := mkProcess [] [] [] true.

(** the timer: the clock and when the timer expires next, in nanoseconds; the tasks, with what is
    printed for each: its number and the time that has passed *)
Definition INTERVAL : Z := 1000000000.
Record timer := mkTimer { start_time : Z; clock : Z; expires : Z; count : Z; tasks : list (Z * Z) }.

Definition run_task (t : timer) : timer :=
  mkTimer (start_time t) (clock t) (expires t) (count t + 1) (tasks t ++ [(count t + 1, clock t - start_time t)]).

Definition handle_sigalrm (s : signal) (t : timer) : timer := match s with SIGALRM => run_task t | _ => t end.

Definition timer_caught (s : signal) : bool := match s with SIGALRM => true | _ => false end.

(** the clock goes on; the timer expires and is set again *)
Inductive tick := Tick (d : N) | Expire.
Definition time (e : tick) (t : timer) : option (timer * option signal) :=
  match e with
  | Tick d => Some (mkTimer (start_time t) (clock t + Z.of_N d) (expires t) (count t) (tasks t), None)
  | Expire =>
      if expires t <=? clock t
      then Some (mkTimer (start_time t) (clock t) (expires t + INTERVAL) (count t) (tasks t), Some SIGALRM) else None
  end.

(** [pause] does nothing *)
Definition timer_run := run timer_caught handle_sigalrm id time.

(** after [setup_timer], at [t1] *)
Definition timer_start (t0 t1 : Z) : process timer := mkProcess [] [] (mkTimer t0 t1 (t1 + INTERVAL) 0 []) true.

(** ** Specification *)

Definition arrivals (s : signal) (es : list (event signal)) : nat :=
  sum_list_with (fun e => match e with Outside x => if decide (x = s) then 1 else 0 | _ => 0 end)%nat es.

Definition reports (s : signal) (out : list line) : nat := sum_list_with (fun l => if decide (l = Caught s) then 1 else 0)%nat out.

(** one for a signal that is in the list *)
Definition inside (s : signal) (l : list signal) : nat := if decide (s ∈ l) then 1 else 0.

(** a signal without a handler has been sent *)
Definition uncaught (caught : signal -> bool) (es : list (event signal)) : bool :=
  existsb (fun e => match e with Outside s => negb (caught s) | _ => false end) es.

(** what is known of a process that reports its signals when they have arrived so often *)
Definition process_ok (caught : signal -> bool) (n : signal -> nat) (p : process (list line)) : Prop :=
  alive p = true /\ NoDup (pending p) /\ NoDup (handlers p) /\
  Forall (fun s => caught s = true) (pending p) /\ Forall (fun s => caught s = true) (handlers p) /\
  forall s, caught s = true -> let k := (reports s (state p) + inside s (handlers p) + inside s (pending p))%nat in
    (k <= n s)%nat /\ (0 < n s -> 0 < k)%nat.

Definition timer_ok (t0 t1 : Z) (p : process timer) : Prop :=
  let t := state p in
  alive p = true /\ start_time t = t0 /\ t0 <= t1 <= clock t /\
  (exists k, 0 <= k /\ expires t = t1 + (k + 1) * INTERVAL /\ t1 + k * INTERVAL <= clock t /\
     count t + Z.of_nat (length (pending p)) + Z.of_nat (length (handlers p)) <= k) /\
  Forall (eq SIGALRM) (pending p) /\ Forall (eq SIGALRM) (handlers p) /\ (length (handlers p) <= 1)%nat /\
  (fst <$> tasks t) = seqZ 1 (count t) /\ 0 <= count t /\ StronglySorted Z.le (snd <$> tasks t) /\
  Forall (fun x => x.1 * INTERVAL <= x.2 <= clock t - t0) (tasks t).

(** ** Lemmas *)

Lemma process_run_app {St E} c h lp o (es1 es2 : list (event E)) (p : process St) :
  run c h lp o (es1 ++ es2) p = (p' ← run c h lp o es1 p; run c h lp o es2 p').
Proof. revert p. induction es1 as [|e es1 IH]; intros p; [done|]. cbn [app run]. destruct (step c h lp o e p); [apply IH|done]. Qed.

(** handlers that have been entered return, and what is pending is delivered *)
Lemma comes_to_rest {St E} c h lp o m : forall p : process St, alive p = true ->
  (2 * length (pending p) + length (handlers p) <= m)%nat ->
  exists (es : list (event E)) p', run c h lp o es p = Some p' /\ alive p' = true /\ pending p' = [] /\ handlers p' = [] /\
    Forall (fun e => match e with Outside _ => False | _ => True end) es.
Proof.
  induction m as [|m IH]; intros [l hs st a] Ha Hm; cbn in Ha, Hm; subst a.
  { destruct l, hs; try (cbn in Hm; lia). by exists [], (mkProcess [] [] st true). }
  destruct hs as [|s hs].
  - destruct l as [|s l]; [by exists [], (mkProcess [] [] st true)|].
    assert (step c h lp o (Deliver s) (mkProcess (s :: l) [] st true) = Some (mkProcess (filter (fun x => x <> s) (s :: l)) [s] st true)) as Hs.
    { cbn [step alive pending handlers]. rewrite decide_True; [done|]. split; [by left|apply not_elem_of_nil]. }
    destruct (IH (mkProcess (filter (fun x => x <> s) (s :: l)) [s] st true)) as (es & p' & Hr & Ha & Hp & Hh & Hf); [done| |].
    + cbn [pending handlers]. rewrite filter_cons_False by tauto. pose proof (length_filter (fun x => x <> s) l). cbn [length] in *. lia.
    + exists (Deliver s :: es), p'. cbn [run]. rewrite Hs. cbn [mbind option_bind]. split_and!; try done. by constructor.
  - destruct (IH (mkProcess l hs (h s st) true)) as (es & p' & Hr & Ha & Hp & Hh & Hf); [done|cbn in *; lia|].
    exists (Return :: es), p'. cbn [run step alive handlers mbind option_bind pending state]. split_and!; try done. by constructor.
Qed.

(** *** The first two programs *)

Lemma inside_in s l : s ∈ l -> inside s l = 1%nat.
Proof. intros H. unfold inside. by rewrite decide_True. Qed.

Lemma inside_out s l : s ∉ l -> inside s l = 0%nat.
Proof. intros H. unfold inside. by rewrite decide_False. Qed.

Lemma inside_iff s l l' : (s ∈ l <-> s ∈ l') -> inside s l = inside s l'.
Proof. intros H. unfold inside. by do 2 case_decide; try tauto. Qed.

Lemma reports_snoc s l out : reports s (out ++ [l]) = (reports s out + if decide (l = Caught s) then 1 else 0)%nat.
Proof. unfold reports. rewrite sum_list_with_app. cbn. lia. Qed.

Lemma arrivals_cons s e es : arrivals s (e :: es) = (arrivals s [e] + arrivals s es)%nat.
Proof. unfold arrivals. cbn. lia. Qed.

Lemma dead_run {St E} c h lp o (es : list (event E)) (p p' : process St) : alive p = false -> run c h lp o es p = Some p' -> p' = p.
Proof. intros Ha. destruct es as [|e es]; cbn [run]; [by intros [= <-]|]. unfold step. by rewrite Ha. Qed.

Section reporting.
Context (caught : signal -> bool) (Hcaught : forall s, caught s = true -> s <> SIGALRM).

Lemma process_step n p p' e : process_ok caught n p -> step caught report main_loop sent e p = Some p' ->
  if uncaught caught [e] then alive p' = false else process_ok caught (fun s => n s + arrivals s [e])%nat p'.
Proof using Hcaught.
  intros (Ha & Hp & Hh & Hpa & Hha & Hn). unfold step. rewrite Ha. destruct p as [l hs out a]. cbn [pending handlers state alive] in *.
  destruct e as [x|x| |]; unfold uncaught; cbn [sent mbind option_bind existsb orb].
  - intros [= <-]. unfold arrive. destruct (caught x) eqn:Hc; [|done]. cbn [pending handlers state alive negb orb]. split_and!; cbn [pending handlers state alive]; try done.
    + case_decide; [done|]. apply NoDup_app. split_and!; [done| |apply NoDup_singleton]. intros y Hy ->%list_elem_of_singleton. done.
    + case_decide; [done|]. apply Forall_app. split; [done|by apply Forall_singleton].
    + intros s Hs. specialize (Hn s Hs); cbv zeta in Hn |- *. unfold arrivals. cbn. destruct (decide (x = s)) as [->|Hne].
      * replace (inside s (if decide (s ∈ l) then l else l ++ [s])) with 1%nat; [destruct (decide (s ∈ l)) as [Hin|Hout]|].
        -- rewrite (inside_in s l Hin) in Hn. lia.
        -- rewrite (inside_out s l Hout) in Hn. lia.
        -- symmetry. apply inside_in. case_decide; [done|]. set_solver.
      * rewrite (inside_iff s (if decide (x ∈ l) then l else l ++ [x]) l); [lia|]. case_decide; [done|]. set_solver.
  - case_decide as Hd; [|done]. destruct Hd as [Hin Hout]. intros [= <-]. split_and!; cbn [pending handlers state alive]; try done.
    + by apply NoDup_filter.
    + by constructor.
    + apply Forall_forall. intros s [_ Hs]%list_elem_of_filter. by eapply Forall_forall in Hpa.
    + constructor; [by eapply Forall_forall in Hpa|done].
    + intros s Hs. specialize (Hn s Hs); cbv zeta in Hn |- *. change (arrivals s [Deliver x]) with 0%nat. destruct (decide (s = x)) as [->|Hne].
      * rewrite (inside_in x l Hin), (inside_out x hs Hout) in Hn. rewrite (inside_in x (x :: hs)) by (by left).
        rewrite inside_out by (intros [? _]%list_elem_of_filter; done). lia.
      * rewrite (inside_iff s (x :: hs) hs), (inside_iff s (filter _ l) l); [lia| |].
        -- rewrite list_elem_of_filter. tauto.
        -- rewrite elem_of_cons. tauto.
  - destruct hs as [|x hs]; [done|]. intros [= <-]. apply NoDup_cons in Hh as [Hx Hh]. apply Forall_cons_1 in Hha as [Hxa Hha].
    split_and!; cbn [pending handlers state alive]; try done. intros s Hs. specialize (Hn s Hs); cbv zeta in Hn |- *. change (arrivals s [Return]) with 0%nat.
    replace (report x out) with (out ++ [Caught x]) by (specialize (Hcaught x Hxa); by destruct x). rewrite reports_snoc. destruct (decide (s = x)) as [->|Hne].
    + rewrite decide_True by done. rewrite (inside_in x (x :: hs)) in Hn by (by left). rewrite (inside_out x hs Hx). lia.
    + rewrite decide_False by congruence. rewrite (inside_iff s (x :: hs) hs) in Hn by (rewrite elem_of_cons; tauto). lia.
  - destruct hs; [|done]. intros [= <-]. split_and!; cbn [pending handlers state alive]; try done. intros s Hs. specialize (Hn s Hs); cbv zeta in Hn |- *.
    unfold main_loop. rewrite reports_snoc, decide_False by done. change (arrivals s [Loop]) with 0%nat. lia.
Qed.

Lemma process_run es : forall n p p', process_ok caught n p -> run caught report main_loop sent es p = Some p' ->
  if uncaught caught es then alive p' = false else process_ok caught (fun s => n s + arrivals s es)%nat p'.
Proof using Hcaught.
  induction es as [|e es IH]; intros n p p' Hok Hr.
  - cbn in Hr. injection Hr as <-. destruct Hok as (H1 & H2 & H3 & H4 & H5 & H6). split_and!; try done.
    intros s Hs. specialize (H6 s Hs); cbv zeta in H6 |- *. change (arrivals s []) with 0%nat. lia.
  - cbn [run] in Hr. destruct (step caught report main_loop sent e p) as [p1|] eqn:Hs; [|done]. cbn [mbind option_bind] in Hr.
    pose proof (process_step n p p1 e Hok Hs) as Hp1. unfold uncaught in *. cbn [existsb] in *. rewrite orb_false_r in Hp1.
    destruct (match e with Outside s => negb (caught s) | _ => false end); cbn [orb].
    + by rewrite (dead_run _ _ _ _ _ _ _ Hp1 Hr).
    + specialize (IH _ p1 p' Hp1 Hr). destruct (existsb _ es); [done|]. destruct IH as (K1 & K2 & K3 & K4 & K5 & K6).
      split_and!; try done. intros s Hsa. specialize (K6 s Hsa); cbv zeta in K6 |- *. rewrite (arrivals_cons s e es). lia.
Qed.

(** runs from the start of either program *)
Lemma reports_correct es p : run caught report main_loop sent es start = Some p ->
  if uncaught caught es then alive p = false
  else alive p = true /\ (length (handlers p) <= 3)%nat /\
    forall s, caught s = true -> (reports s (state p) <= arrivals s es)%nat /\
      (pending p = [] -> handlers p = [] -> 0 < arrivals s es -> 0 < reports s (state p))%nat.
Proof using Hcaught.
  intros Hr. assert (process_ok caught (fun _ => 0%nat) start) as H0.
  { split; [done|]. do 4 (split; [constructor|]). intros s _. cbv zeta. rewrite !inside_out by apply not_elem_of_nil. cbn. lia. }
  pose proof (process_run es _ start p H0 Hr) as H. destruct (uncaught caught es); [done|].
  destruct H as (H1 & _ & H3 & _ & H5 & H6). split_and!; [done| |].
  - apply (submseteq_length _ [SIGINT; SIGTERM; SIGUSR1]), NoDup_submseteq; [done|]. intros s Hs.
    rewrite Forall_forall in H5. specialize (Hcaught s (H5 s Hs)). destruct s; set_solver.
  - intros s Hs. specialize (H6 s Hs). cbv zeta in H6. split; [lia|]. intros Hp Hh Hn. rewrite Hp, Hh, !inside_out in H6 by apply not_elem_of_nil. lia.
Qed.
End reporting.


(** *** The timer *)

Lemma pending_alarms l : Forall (eq SIGALRM) l -> SIGALRM ∉ l -> l = [].
Proof. intros Hl Hn. destruct l as [|s l]; [done|]. apply Forall_cons_1 in Hl as [<- _]. destruct Hn. by left. Qed.

Lemma timer_task (t : timer) t0 k : start_time t = t0 -> (fst <$> tasks t) = seqZ 1 (count t) -> 0 <= count t ->
  count t + 1 <= k -> t0 + k * INTERVAL <= clock t ->
  StronglySorted Z.le (snd <$> tasks t) -> Forall (fun x => x.1 * INTERVAL <= x.2 <= clock t - t0) (tasks t) ->
  let t' := run_task t in
  (fst <$> tasks t') = seqZ 1 (count t') /\ StronglySorted Z.le (snd <$> tasks t') /\
  Forall (fun x => x.1 * INTERVAL <= x.2 <= clock t' - t0) (tasks t').
Proof.
  intros Ht0 Hs Hc Hk Hclk Hso Hf t'. unfold t', run_task. cbn [tasks count clock start_time]. rewrite !fmap_app. cbn [fmap list_fmap fst snd]. split_and!.
  - rewrite Hs. rewrite (seqZ_app 1 (count t) 1) by lia. by replace (1 + count t) with (count t + 1) by lia.
  - apply StronglySorted_app_2; [|done|by repeat constructor]. intros x y Hx ->%list_elem_of_singleton.
    apply list_elem_of_fmap in Hx as (z & -> & Hz). rewrite Forall_forall in Hf. specialize (Hf z Hz). cbn in Hf. lia.
  - apply Forall_app. split; [done|]. apply Forall_singleton. cbn [fst snd]. unfold INTERVAL in *. lia.
Qed.

Lemma timer_step t0 t1 p p' e : timer_ok t0 t1 p -> step timer_caught handle_sigalrm id time e p = Some p' -> timer_ok t0 t1 p'.
Proof.
  intros (Ha & Hst & Ht & (k & Hk & He & Hclk & Hn) & Hp & Hh & Hl & Hs & Hc & Hso & Hf). unfold step. rewrite Ha.
  destruct p as [l hs t a]. cbn [pending handlers state alive] in *. destruct e as [[d|]|x| |]; cbn [time mbind option_bind].
  - intros [= <-]. split_and!; cbn [state alive pending handlers start_time clock expires count tasks]; try done; try lia.
    + exists k. split_and!; try done; lia.
    + eapply Forall_impl; [exact Hf|]. cbn. intros x. lia.
  - destruct (Z.leb_spec (expires t) (clock t)) as [Hle|]; [|done]. cbn [mbind option_bind]. intros [= <-]. unfold arrive. cbn [timer_caught pending handlers state alive].
    split_and!; cbn [state alive pending handlers start_time clock expires count tasks]; try done; try lia.
    + exists (k + 1). split_and!; [lia|lia|lia|]. case_decide; [lia|]. rewrite length_app. cbn [length]. lia.
    + case_decide; [done|]. apply Forall_app. split; [done|by apply Forall_singleton].
  - case_decide as Hd; [|done]. destruct Hd as [Hin Hout]. intros [= <-]. rewrite (pending_alarms hs Hh) in * by (rewrite Forall_forall in Hp; by rewrite (Hp x Hin)).
    assert (x = SIGALRM) as -> by (rewrite Forall_forall in Hp; symmetry; by apply Hp).
    assert (filter (fun y => y <> SIGALRM) l = []) as ->.
    { apply filter_none, Forall_forall. intros y Hy Hne. rewrite Forall_forall in Hp. by specialize (Hp y Hy). }
    split_and!; cbn [state alive pending handlers]; try done; try lia; try (by constructor).
    exists k. split_and!; [done..|]. destruct l as [|y l]; [by apply elem_of_nil in Hin|]. cbn [length] in *. lia.
  - destruct hs as [|x [|y hs]]; [done| |cbn in Hl; lia]. intros [= <-]. apply Forall_cons_1 in Hh as [<- _]. cbn [handle_sigalrm length] in *.
    destruct (timer_task t t0 k Hst Hs Hc ltac:(lia) ltac:(lia) Hso Hf) as (H1 & H2 & H3).
    split_and!; cbn [state alive pending handlers]; try done; try (cbn; lia).
    exists k. cbn [run_task expires clock count length]. split_and!; try done; lia.
  - destruct hs; [|done]. intros [= <-]. split_and!; cbn [id state pending handlers alive length]; try done; try lia. by exists k.
Qed.

(** ** What is reported *)

(** multiplesignal.c, whatever is sent to it: a signal other than the three that it catches ends
    it; otherwise it never ends, at most three handlers are nested, no signal is reported more
    often than it arrived, and it always can come to rest without further signals; at rest every
    signal that arrived has been reported at least once. *)
Theorem multiple_signals_reported es p : multiple_run es start = Some p ->
  if uncaught multiple_caught es then alive p = false
  else alive p = true /\ (length (handlers p) <= 3)%nat /\
    (forall s, multiple_caught s = true -> (reports s (state p) <= arrivals s es)%nat) /\
    exists es' p', multiple_run es' p = Some p' /\ uncaught multiple_caught es' = false /\ pending p' = [] /\ handlers p' = [] /\
      forall s, multiple_caught s = true -> arrivals s es' = 0%nat /\ (0 < arrivals s es -> 0 < reports s (state p'))%nat.
Proof.
  intros Hr. assert (forall s, multiple_caught s = true -> s <> SIGALRM) as Hc by (by intros []).
  pose proof (reports_correct _ Hc es p Hr) as H. destruct (uncaught multiple_caught es) eqn:Hu; [done|]. destruct H as (Ha & Hl & Hrep).
  split_and!; [done..|intros s Hs; by apply Hrep|].
  destruct (comes_to_rest multiple_caught report main_loop sent _ p Ha (le_n _)) as (es' & p' & Hr' & Ha' & Hp' & Hh' & Hf).
  assert (uncaught multiple_caught es' = false /\ forall s, arrivals s es' = 0%nat) as [Hu' Hn].
  { clear -Hf. induction Hf as [|e es' He _ [IHu IHn]]; [done|]. by destruct e. }
  exists es', p'. split_and!; try done. intros s Hs. split; [done|]. intros H0.
  pose proof (reports_correct _ Hc (es ++ es') p') as Hfin. unfold multiple_run in Hr. rewrite process_run_app, Hr in Hfin. cbn [mbind option_bind] in Hfin. specialize (Hfin Hr').
  unfold uncaught in Hfin, Hu, Hu'. rewrite existsb_app, Hu, Hu' in Hfin. cbn [orb] in Hfin.
  destruct Hfin as (_ & _ & Hfin). destruct (Hfin s Hs) as [_ Hpos]. apply Hpos; [done..|]. unfold arrivals in *. rewrite sum_list_with_app. lia.
Qed.

Lemma multiple_signals_reported_witness : exists p, multiple_run [Loop; Outside SIGINT; Outside SIGTERM; Outside SIGINT; Deliver SIGINT; Deliver SIGTERM; Return; Return] start = Some p /\
  state p = [ProcessRunning; Caught SIGTERM; Caught SIGINT] /\ (reports SIGINT (state p) <= 2)%nat.
Proof.
  eexists. split; [reflexivity|]. split; [reflexivity|]. pose proof (multiple_signals_reported
    [Loop; Outside SIGINT; Outside SIGTERM; Outside SIGINT; Deliver SIGINT; Deliver SIGTERM; Return; Return] _ eq_refl) as (_ & _ & H & _).
  exact (H SIGINT eq_refl).
Defined.

(** signals.c: the same for SIGINT, and any other signal ends it. *)
Theorem single_signal_reported es p : single_run es start = Some p ->
  if uncaught single_caught es then alive p = false
  else alive p = true /\ (reports SIGINT (state p) <= arrivals SIGINT es)%nat /\
    (pending p = [] -> handlers p = [] -> 0 < arrivals SIGINT es -> 0 < reports SIGINT (state p))%nat.
Proof.
  intros Hr. assert (forall s, single_caught s = true -> s <> SIGALRM) as Hc by (by intros []).
  pose proof (reports_correct _ Hc es p Hr) as H. destruct (uncaught single_caught es); [done|].
  destruct H as (Ha & _ & H). destruct (H SIGINT eq_refl) as [H1 H2]. by split_and!.
Qed.

Lemma single_signal_reported_witness : exists p, single_run [Outside SIGINT; Outside SIGINT; Deliver SIGINT; Return; Loop] start = Some p /\
  state p = [Caught SIGINT; ProcessRunning] /\ alive p = true.
Proof.
  eexists. split; [reflexivity|]. split; [reflexivity|].
  exact (proj1 (single_signal_reported [Outside SIGINT; Outside SIGINT; Deliver SIGINT; Return; Loop] _ eq_refl)).
Defined.

(** The timer of periodicSetTime.c: however late the signals are delivered, the process goes on,
    its tasks are numbered 1, 2, ..., the times that are printed do not decrease, the task of
    number k runs when at least k seconds have passed, and so there are never more tasks than
    seconds. *)
Theorem timer_tasks t0 t1 es p : t0 <= t1 -> timer_run es (timer_start t0 t1) = Some p ->
  let t := state p in
  alive p = true /\ (fst <$> tasks t) = seqZ 1 (count t) /\ StronglySorted Z.le (snd <$> tasks t) /\
  Forall (fun x => x.1 * INTERVAL <= x.2 <= clock t - t0) (tasks t) /\ count t * INTERVAL <= clock t - t0.
Proof.
  intros Ht Hr. assert (timer_ok t0 t1 (timer_start t0 t1)) as H0.
  { split_and!; cbn; try done; try lia; try by constructor. exists 0. lia. }
  assert (timer_ok t0 t1 p) as Hok.
  { revert H0 Hr. generalize (timer_start t0 t1). unfold timer_run. induction es as [|e es IH]; intros q Hq Hr; [by injection Hr as <-|].
    cbn [run] in Hr. destruct (step timer_caught handle_sigalrm id time e q) as [q'|] eqn:Hs; [|done]. cbn [mbind option_bind] in Hr.
    by eapply IH; [eapply timer_step|]. }
  destruct Hok as (Ha & _ & Hc & (k & Hk & _ & Hclk & Hn) & _ & _ & _ & H1 & H2 & H3 & H4). split_and!; try done.
  unfold INTERVAL in *. lia.
Qed.

(** the signal of the second interval is late, and the third one joins it *)
Definition late_run : list (event tick) :=
  [Outside (Tick 1000000000); Outside Expire; Deliver SIGALRM; Return; Outside (Tick 2500000000); Outside Expire; Outside Expire; Deliver SIGALRM; Return].

Lemma timer_tasks_witness : exists p, timer_run late_run (timer_start 5 6) = Some p /\
  tasks (state p) = [(1, 1000000001); (2, 3500000001)] /\ count (state p) * INTERVAL <= clock (state p) - 5.
Proof.
  eexists. split; [vm_compute; reflexivity|]. split; [vm_compute; reflexivity|].
  refine (proj2 (proj2 (proj2 (proj2 (timer_tasks 5 6 late_run _ _ _))))); [lia|vm_compute; reflexivity].
Defined.
