(* ===== verification/Supervisor.v ===== *)
(** * The job controller

    IPCs/signals/controller.c keeps three children and handles SIGHUP, SIGINT and SIGTERM.
    A signal may interrupt the main program and, as no signal is masked but the one that is
    handled, another handler: the state has a stack of handlers that run.  A step is one
    system call or one store.  A child that gets SIGTERM ends at once; what the children
    print, and the handler that only reaps, are left out. *)
From S2P Require Import Prelude.

(** ** The program *)

Definition MAX_CHILDREN : nat := 3.

Inductive signal := SIGINT | SIGHUP | SIGTERM.

#[export] Instance signal_eq_dec : EqDecision signal.
Proof. solve_decision. Defined.

(** what is left to do of a function, call by call *)
Inductive op := Stop | Kill (i : nat) | Sleep | Spawn (i : nat).

#[export] Instance op_eq_dec : EqDecision op.
Proof. solve_decision. Defined.

(** the loops over the children *)
Definition kill_children : list op := Kill <$> seq 0 MAX_CHILDREN.
Definition spawn_children : list op := Spawn <$> seq 0 MAX_CHILDREN.
Definition restart_children : list op := kill_children ++ [Sleep] ++ spawn_children.

Definition handle_signal (sig : signal) : list op :=
  match sig with
  | SIGINT | SIGTERM => Stop :: kill_children
  | SIGHUP => restart_children
  end.

(** the main program: in its first loop, at the test of [running], before [pause], in it, at its end *)
Inductive control := Starting (l : list op) | Checking | Tested | Pausing | Exited (status : Z).

Record state := mkState {
  children : list nat;   (* process numbers, 0 for none *)
  alive : gset nat;   (* the children that run *)
  next_pid : nat;
  running : bool;
  frames : list (signal * list op);   (* the handlers that run, the innermost first *)
  at_main : control }.

Definition set_children (c : list nat) (a : gset nat) (n : nat) (s : state) : state :=
  mkState c a n (running s) (frames s) (at_main s).

(** one call, and whether the program goes on: [fork] may fail *)
Inductive exec : op -> state -> state -> Prop :=
| exec_stop s : exec Stop s (mkState (children s) (alive s) (next_pid s) false (frames s) (at_main s))
| exec_kill i s : exec (Kill i) s (set_children (children s) (alive s ∖ {[default 0%nat (children s !! i)]}) (next_pid s) s)
| exec_sleep s : exec Sleep s s
| exec_spawn i s : exec (Spawn i) s (set_children (<[i := next_pid s]> (children s)) ({[next_pid s]} ∪ alive s) (S (next_pid s)) s)
| exec_fork_fails i s : exec (Spawn i) s (mkState (children s) (alive s) (next_pid s) (running s) [] (Exited 1)).

Definition set_frames (fs : list (signal * list op)) (s : state) : state :=
  mkState (children s) (alive s) (next_pid s) (running s) fs (at_main s).
Definition set_main (m : control) (s : state) : state :=
  mkState (children s) (alive s) (next_pid s) (running s) (frames s) m.

(** the return of the last handler ends [pause] *)
Definition resume (fs : list (signal * list op)) (m : control) : control :=
  match fs, m with [], Pausing => Checking | _, _ => m end.

Inductive step : state -> state -> Prop :=
| step_signal sig s : sig ∉ (frames s).*1 -> (forall n, at_main s <> Exited n) -> step s (set_frames ((sig, handle_signal sig) :: frames s) s)
| step_handler sig o ops fs s s' : frames s = (sig, o :: ops) :: fs -> exec o (set_frames ((sig, ops) :: fs) s) s' -> step s s'
| step_return sig fs s : frames s = (sig, []) :: fs ->
    step s (set_main (resume fs (at_main s)) (set_frames fs s))
| step_start o ops s s' : frames s = [] -> at_main s = Starting (o :: ops) -> exec o (set_main (Starting ops) s) s' -> step s s'
| step_started s : frames s = [] -> at_main s = Starting [] -> step s (set_main Checking s)
| step_check s : frames s = [] -> at_main s = Checking -> step s (set_main (if running s then Tested else Exited 0) s)
| step_pause s : frames s = [] -> at_main s = Tested -> step s (set_main Pausing s).

Definition start : state := mkState [0%nat; 0%nat; 0%nat] ∅ 1 true [] (Starting spawn_children).

(** ** The invariant *)

(** the handler has already killed the child in whose place it will put a new one *)
Definition cleared (s : state) (ops : list op) : Prop :=
  forall i, Spawn i ∈ ops -> Kill i ∉ ops -> default 0%nat (children s !! i) ∉ alive s.

(** what a handler may have left to do *)
Definition frame_ok (f : signal * list op) : Prop :=
  exists done_, handle_signal f.1 = done_ ++ f.2.

Record supervised (s : state) : Prop := {
  su_length : length (children s) = MAX_CHILDREN;
  su_recorded : forall p, p ∈ alive s -> p ∈ children s;
  su_fresh : forall p, p ∈ alive s \/ p ∈ children s -> (p < next_pid s)%nat;
  su_frames : Forall frame_ok (frames s);
  su_nested : NoDup (frames s).*1;
  su_cleared : Forall (fun f => cleared s f.2) (frames s);
  su_main : forall l, at_main s <> Starting l
}.

(** ** Lemmas *)

Lemma handler_nodup sig : NoDup (handle_signal sig).
Proof. destruct sig; cbn; repeat (constructor; [set_solver|]); constructor. Qed.

Lemma handler_spawns sig i : Spawn i ∈ handle_signal sig -> sig = SIGHUP /\ (i < MAX_CHILDREN)%nat /\ Kill i ∈ handle_signal sig.
Proof.
  destruct sig; cbn; rewrite ?elem_of_cons, ?elem_of_nil; intros H; repeat destruct H as [H|H]; try done; injection H as ->;
    (split; [done|]; split; [unfold MAX_CHILDREN; lia|]; tauto).
Qed.

Lemma frame_spawns f i : frame_ok f -> Spawn i ∈ f.2 -> f.1 = SIGHUP /\ (i < MAX_CHILDREN)%nat.
Proof.
  intros [d Hd] Hi. destruct (handler_spawns f.1 i) as (H1 & H2 & _); [rewrite Hd; set_solver|]. done.
Qed.

Lemma frame_tail sig o ops : frame_ok (sig, o :: ops) -> frame_ok (sig, ops).
Proof. intros [d Hd]. exists (d ++ [o]). by rewrite <- app_assoc. Qed.

(** only one handler at a time creates children *)
Lemma others_spawn_nothing sig ops fs i : NoDup ((sig, ops) :: fs).*1 -> Forall frame_ok ((sig, ops) :: fs) -> Spawn i ∈ ops ->
  forall f j, f ∈ fs -> Spawn j ∉ f.2.
Proof.
  intros [Hn _]%NoDup_cons [Hf Hfs]%Forall_cons Hi f j Hin Hj.
  destruct (frame_spawns _ _ Hf Hi) as [Hs _]. cbn in Hs. subst sig. rewrite Forall_forall in Hfs.
  destruct (frame_spawns _ _ (Hfs f Hin) Hj) as [Hs _]. apply Hn, list_elem_of_fmap. by exists f.
Qed.

Lemma ops_nodup sig o ops : frame_ok (sig, o :: ops) -> (o ∉ ops) /\ NoDup ops.
Proof.
  intros [d Hd]. pose proof (handler_nodup sig) as Hn. cbn in Hd. rewrite Hd in Hn. apply NoDup_app in Hn as (_ & _ & Hn). by apply NoDup_cons in Hn.
Qed.

Lemma default_fresh (l : list nat) i n : (forall p, p ∈ l -> (p < n)%nat) -> (i < length l)%nat -> default 0%nat (l !! i) <> n.
Proof.
  intros Hl Hi. destruct (lookup_lt_is_Some_2 l i Hi) as [p Hp]. rewrite Hp. cbn. apply list_elem_of_lookup_2, Hl in Hp. lia.
Qed.

(** killing a child *)
Lemma kill_supervised sig i ops fs s : supervised s -> frames s = (sig, Kill i :: ops) :: fs ->
  supervised (set_children (children s) (alive s ∖ {[default 0%nat (children s !! i)]}) (next_pid s) (set_frames ((sig, ops) :: fs) s)).
Proof.
  intros [Hl Hr Hf Hok Hn Hc Hm] Hfr. rewrite Hfr in *. apply Forall_cons in Hok as [Hf0 Hok], Hc as [Hc0 Hc].
  split; cbn [children alive next_pid frames at_main set_children set_frames]; try done.
  - intros p Hp. apply Hr. set_solver.
  - intros p [Hp|Hp]; apply Hf; [left; set_solver|by right].
  - constructor; [by eapply frame_tail|done].
  - constructor.
    + intros j Hj Hk. cbn [alive children set_children set_frames]. destruct (decide (i = j)) as [->|Hne]; [set_solver|].
      specialize (Hc0 j). cbn in Hc0. assert (Kill j ∉ Kill i :: ops) as Hk' by (apply not_elem_of_cons; split; [congruence|done]).
      specialize (Hc0 ltac:(by right) Hk'). set_solver.
    + eapply Forall_impl; [exact Hc|]. intros f Hcf j Hj Hk. cbn [alive children set_children set_frames]. specialize (Hcf j Hj Hk). set_solver.
Qed.

(** the old children are killed before the first new one is created *)
Lemma spawn_after_kills sig d i ops j : handle_signal sig = d ++ Spawn i :: ops -> Kill j ∉ Spawn i :: ops.
Proof.
  intros H. assert (Spawn i :: ops = drop (length d) (handle_signal sig)) as Hd by (by rewrite H, drop_app_length).
  clear H. revert Hd. generalize (length d) as n. intros n Hd.
  destruct sig; do 8 (destruct n as [|n]; [cbn in Hd; first [discriminate Hd|injection Hd as -> ->; set_solver]|]); by destruct n.
Qed.

(** creating a child in the place of one that was killed *)
Lemma spawn_supervised sig i ops fs s : supervised s -> frames s = (sig, Spawn i :: ops) :: fs ->
  supervised (set_children (<[i := next_pid s]> (children s)) ({[next_pid s]} ∪ alive s) (S (next_pid s)) (set_frames ((sig, ops) :: fs) s)).
Proof.
  intros [Hl Hr Hf Hok Hn Hc Hm] Hfr. rewrite Hfr in *.
  assert (Spawn i ∈ (Spawn i :: ops)) as Hi0 by by left.
  pose proof (others_spawn_nothing _ _ _ i Hn Hok Hi0) as Hothers.
  apply Forall_cons in Hok as [Hf0 Hok], Hc as [Hc0 Hc]. destruct (frame_spawns _ _ Hf0 Hi0) as [_ Hi].
  destruct (ops_nodup _ _ _ Hf0) as [Hnot _]. rewrite <- Hl in Hi.
  assert (forall j, Kill j ∉ Spawn i :: ops) as Hkill by (intros j; destruct Hf0 as [d Hd]; by eapply spawn_after_kills).
  pose proof (Hc0 i Hi0 (Hkill i)) as Hold. cbn in Hold.
  split; cbn [children alive next_pid frames at_main set_children set_frames]; try done.
  - by rewrite length_insert.
  - intros p [->%elem_of_singleton|Hp]%elem_of_union; [by apply list_elem_of_insert|].
    specialize (Hr p Hp). apply list_elem_of_lookup in Hr as [k Hk]. apply list_elem_of_lookup.
    exists k. rewrite list_lookup_insert_ne; [done|]. intros <-. by rewrite Hk in Hold.
  - intros p [[->%elem_of_singleton|Hp]%elem_of_union|Hp]; [lia|specialize (Hf p (or_introl Hp)); lia|].
    apply list_elem_of_lookup in Hp as [k Hk]. apply list_lookup_insert_Some in Hk as [(_ & <- & _)|[_ Hk]]; [lia|].
    specialize (Hf p (or_intror (list_elem_of_lookup_2 _ _ _ Hk))). lia.
  - constructor; [by eapply frame_tail|done].
  - constructor.
    + intros j Hj _. cbn [alive children set_children set_frames snd] in *. rewrite list_lookup_insert_ne by (intros ->; done).
      pose proof (Hc0 j ltac:(by right) (Hkill j)) as Hj'. cbn in Hj'.
      destruct (frame_spawns _ j Hf0 ltac:(by right)) as [_ Hj3]. rewrite <- Hl in Hj3.
      pose proof (default_fresh (children s) j (next_pid s) (fun p Hp => Hf p (or_intror Hp)) Hj3). set_solver.
    + apply Forall_forall. intros f Hin j Hj. by destruct (Hothers f j Hin).
Qed.

Lemma supervised_frames s fs : supervised s -> Forall frame_ok fs -> NoDup fs.*1 -> Forall (fun f => cleared s f.2) fs ->
  supervised (set_frames fs s).
Proof. by intros [Hl Hr Hf Hok Hn Hc Hm] Hok' Hn' Hc'. Qed.

Lemma supervised_main s m : supervised s -> (forall l, m <> Starting l) -> supervised (set_main m s).
Proof. by intros [Hl Hr Hf Hok Hn Hc Hm] Hm'. Qed.

Lemma step_supervised s s' : supervised s -> step s s' -> supervised s'.
Proof.
  intros Hs Hst. pose proof Hs as [Hl Hr Hf Hok Hn Hc Hm].
  destruct Hst as [sig s Hsig He|sig o ops fs s s' Hfr Hex|sig fs s Hfr|o ops s s' _ Hst|s _ Hst|s Hfr Hck|s Hfr Ht].
  - apply supervised_frames; [done|constructor; [by exists []|done]|by constructor|]. constructor; [|done].
    intros i Hi Hk. cbn in *. by destruct (handler_spawns sig i Hi) as (_ & _ & ?).
  - destruct o as [|i| |i].
    + inversion Hex; subst. rewrite Hfr in *. apply Forall_cons in Hok as [Hf0 Hok], Hc as [Hc0 Hc].
      split; cbn; try done; (constructor; [|done]); [by eapply frame_tail|].
      intros i Hi Hk. apply (Hc0 i); [by right|]. intros [?|?]%elem_of_cons; done.
    + inversion Hex; subst. exact (kill_supervised sig i ops fs s Hs Hfr).
    + inversion Hex; subst. rewrite Hfr in *. apply Forall_cons in Hok as [Hf0 Hok], Hc as [Hc0 Hc].
      split; cbn; try done; (constructor; [|done]); [by eapply frame_tail|].
      intros i Hi Hk. apply (Hc0 i); [by right|]. intros [?|?]%elem_of_cons; done.
    + inversion Hex; subst; [exact (spawn_supervised sig i ops fs s Hs Hfr)|]. split; cbn; try done; constructor.
  - rewrite Hfr in *. apply Forall_cons in Hok as [_ Hok], Hc as [_ Hc]. apply NoDup_cons in Hn as [_ Hn].
    apply supervised_main; [by apply supervised_frames|]. intros l. unfold resume. destruct fs, (at_main s) eqn:Hmain; try done; by destruct (Hm l0).
  - by destruct (Hm _ Hst).
  - by destruct (Hm _ Hst).
  - apply supervised_main; [done|]. by destruct (running s).
  - by apply supervised_main.
Qed.

Lemma rtc_supervised s s' : supervised s -> rtc step s s' -> supervised s'.
Proof. intros Hs Hr. revert Hs. induction Hr as [s|s s1 s2 Hst _ IH]; [done|]. intros Hs. by eapply IH, step_supervised. Qed.

(** ** Schedules *)

Definition perform (o : op) (s : state) : state :=
  match o with
  | Stop => mkState (children s) (alive s) (next_pid s) false (frames s) (at_main s)
  | Kill i => set_children (children s) (alive s ∖ {[default 0%nat (children s !! i)]}) (next_pid s) s
  | Sleep => s
  | Spawn i => set_children (<[i := next_pid s]> (children s)) ({[next_pid s]} ∪ alive s) (S (next_pid s)) s
  end.

(** the next step that is not a signal, when [fork] succeeds *)
Definition go (s : state) : option state :=
  match frames s, at_main s with
  | (sig, o :: ops) :: fs, _ => Some (perform o (set_frames ((sig, ops) :: fs) s))
  | (sig, []) :: fs, m => Some (set_main (resume fs m) (set_frames fs s))
  | [], Starting (o :: ops) => Some (perform o (set_main (Starting ops) s))
  | [], Starting [] => Some (set_main Checking s)
  | [], Checking => Some (set_main (if running s then Tested else Exited 0) s)
  | [], Tested => Some (set_main Pausing s)
  | [], _ => None
  end.

Definition deliver (sig : signal) (s : state) : option state :=
  match at_main s with
  | Exited _ => None
  | _ => if decide (sig ∈ (frames s).*1) then None else Some (set_frames ((sig, handle_signal sig) :: frames s) s)
  end.

(** a schedule: a signal, or so many other steps *)
Inductive choice := Sig (sig : signal) | Go (n : nat).

Fixpoint go_on (n : nat) (s : state) : option state := match n with O => Some s | S n => s' ← go s; go_on n s' end.

Fixpoint run (l : list choice) (s : state) : option state :=
  match l with
  | [] => Some s
  | Sig sig :: l => s' ← deliver sig s; run l s'
  | Go n :: l => s' ← go_on n s; run l s'
  end.

Lemma perform_exec o s : exec o s (perform o s).
Proof. destruct o; constructor. Qed.

Lemma go_step s s' : go s = Some s' -> step s s'.
Proof.
  unfold go. destruct (frames s) as [|[sig [|o ops]] fs] eqn:Hf.
  - destruct (at_main s) as [[|o ops]| | | |] eqn:Hm; try done; intros [= <-].
    + by apply step_started.
    + eapply step_start; [done|done|apply perform_exec].
    + by apply step_check.
    + by apply step_pause.
  - intros [= <-]. by eapply step_return.
  - intros [= <-]. eapply step_handler; [done|apply perform_exec].
Qed.

Lemma deliver_step sig s s' : deliver sig s = Some s' -> step s s'.
Proof.
  unfold deliver. destruct (at_main s) eqn:Hm; try done; case_decide; try done; intros [= <-]; (apply step_signal; [done|by rewrite Hm]).
Qed.

Lemma go_on_rtc n s s' : go_on n s = Some s' -> rtc step s s'.
Proof.
  revert s. induction n as [|n IH]; intros s; cbn [go_on]; [by intros [= ->]|].
  destruct (go s) as [s1|] eqn:Hs; [|done]. cbn. intros H. eapply rtc_l; [by apply go_step|by apply IH].
Qed.

Lemma run_rtc_step l s s' : run l s = Some s' -> rtc step s s'.
Proof.
  revert s. induction l as [|[sig|n] l IH]; intros s; cbn [run]; [by intros [= ->]| |].
  - destruct (deliver sig s) as [s1|] eqn:Hs; [|done]. cbn. intros H. eapply rtc_l; [by eapply deliver_step|by apply IH].
  - destruct (go_on n s) as [s1|] eqn:Hs; [|done]. cbn. intros H. etrans; [by eapply go_on_rtc|by apply IH].
Qed.

(** after the first loop of [main] *)
Definition ready : state := mkState [1; 2; 3]%nat {[1%nat; 2%nat; 3%nat]} 4 true [] Checking.

Lemma ready_supervised : supervised ready.
Proof.
  split; cbn; try done; try (by constructor).
  - intros p Hp. set_solver.
  - intros p [Hp|Hp]; [|rewrite !elem_of_cons, elem_of_nil in Hp; lia].
    assert (p = 1%nat \/ p = 2%nat \/ p = 3%nat) by set_solver. lia.
Qed.

Lemma list_to_set_size (l : list nat) : (size (list_to_set l : gset nat) <= length l)%nat.
Proof.
  induction l as [|x l IH]; [done|]. cbn [list_to_set length]. rewrite size_union_alt, size_singleton.
  assert (size ((list_to_set l : gset nat) ∖ {[x]}) <= size (list_to_set l : gset nat))%nat by (apply subseteq_size; set_solver). lia.
Qed.

Lemma all_killed (c : list nat) (a : gset nat) : length c = MAX_CHILDREN -> (forall p, p ∈ a -> p ∈ c) ->
  a ∖ {[default 0%nat (c !! 0%nat)]} ∖ {[default 0%nat (c !! 1%nat)]} ∖ {[default 0%nat (c !! 2%nat)]} = ∅.
Proof. destruct c as [|x [|y [|z [|]]]]; try done. cbn. intros _ H. set_solver. Qed.

(** the state after a handler that nothing interrupts *)
Lemma handled s sig : frames s = [] -> at_main s = Checking \/ at_main s = Pausing -> exists s',
  rtc step s s' /\ frames s' = [] /\ at_main s' = Checking /\
  s' = set_main Checking (set_frames [] (foldl (flip perform) s (handle_signal sig))).
Proof.
  intros Hf Hm. eexists. split_and!; [|shelve|shelve|reflexivity].
  apply (run_rtc_step [Sig sig; Go (S (length (handle_signal sig)))]).
  destruct s as [c a n r fs m]. cbn in Hf, Hm. subst fs. destruct Hm as [->| ->]; destruct sig; reflexivity.
  Unshelve. all: done.
Qed.

(** ** Properties *)

(** From the end of the first loop on, however the signals interrupt the program and each other, and
    whichever call of [fork] fails: every child that runs is recorded in the array, so that there are never
    more than three and the next signal to stop reaches all of them. *)
Theorem children_recorded s : rtc step ready s -> (forall p, p ∈ alive s -> p ∈ children s) /\ (size (alive s) <= MAX_CHILDREN)%nat.
Proof.
  intros Hr. destruct (rtc_supervised _ _ ready_supervised Hr) as [Hl Hrec _ _ _ _ _]. split; [done|].
  rewrite <- Hl. etrans; [|apply (list_to_set_size (children s))]. apply subseteq_size. intros p Hp. apply elem_of_list_to_set. by apply Hrec.
Qed.

(** A handler that nothing interrupts does what its signal asks: SIGINT and SIGTERM leave no child and
    make the main loop end; SIGHUP leaves three new children in the places of the old ones, which are gone. *)
Theorem signal_handled sig s : rtc step ready s -> frames s = [] -> at_main s = Checking \/ at_main s = Pausing ->
  exists s', rtc step s s' /\ frames s' = [] /\ at_main s' = Checking /\
    match sig with
    | SIGINT | SIGTERM => alive s' = ∅ /\ running s' = false
    | SIGHUP => running s' = running s /\ children s' = [next_pid s; S (next_pid s); S (S (next_pid s))] /\ alive s' = list_to_set (children s')
    end.
Proof.
  intros Hr Hf Hm. destruct (rtc_supervised _ _ ready_supervised Hr) as [Hl Hrec _ _ _ _ _].
  destruct (handled s sig Hf Hm) as (s' & Hr' & Hf' & Hm' & ->). eexists. split; [exact Hr'|]. split; [done|]. split; [done|].
  pose proof (all_killed _ _ Hl Hrec) as Hk. destruct s as [c a n r fs m]. cbn in Hl, Hrec, Hk |- *.
  destruct sig; cbn; [by split| |by split]. destruct c as [|x [|y [|z [|]]]]; try done. cbn in Hk |- *. rewrite Hk.
  split_and!; [done|done|set_solver].
Qed.

(** What goes wrong when signals come together: SIGINT during a restart, whose new children outlive the program; *)
Example orphans_at_exit : exists s, rtc step ready s /\ at_main s = Exited 0 /\ alive s = {[4%nat; 5%nat; 6%nat]}.
Proof.
  destruct (run [Go 2; Sig SIGHUP; Go 4; Sig SIGINT; Go 10] ready) as [s|] eqn:H; [|by vm_compute in H].
  exists s. split; [by eapply run_rtc_step|]. vm_compute in H. injection H as <-. split; [done|]. apply set_eq. intros x. vm_compute. set_solver.
Qed.

(** a signal between the test of [running] and [pause], which then waits although nothing is left to wait for; *)
Example stop_is_missed : exists s, rtc step ready s /\ frames s = [] /\ at_main s = Pausing /\ running s = false /\ alive s = ∅.
Proof.
  destruct (run [Go 1; Sig SIGTERM; Go 6] ready) as [s|] eqn:H; [|by vm_compute in H].
  exists s. split; [by eapply run_rtc_step|]. vm_compute in H. injection H as <-. by split_and!.
Qed.

(** SIGHUP during the first loop, which then puts other children in the places of those that the handler created. *)
Example orphan_of_the_start : exists s, rtc step start s /\ at_main s = Checking /\ frames s = [] /\ (exists p, p ∈ alive s /\ p ∉ children s).
Proof.
  destruct (run [Go 1; Sig SIGHUP; Go 11] start) as [s|] eqn:H; [|by vm_compute in H].
  exists s. split; [by eapply run_rtc_step|]. vm_compute in H. injection H as <-. split_and!; [done|done|].
  exists 3%nat. split; [by apply (bool_decide_unpack _)|by apply (bool_decide_unpack _)].
Qed.

Lemma children_recorded_witness : exists s, rtc step ready s /\ frames s = [(SIGINT, [Kill 1; Kill 2]); (SIGHUP, [Spawn 1; Spawn 2])] /\
  (forall p, p ∈ alive s -> p ∈ children s) /\ (size (alive s) <= MAX_CHILDREN)%nat.
Proof.
  destruct (run [Go 2; Sig SIGHUP; Go 5; Sig SIGINT; Go 2] ready) as [s|] eqn:H; [|exfalso; vm_compute in H; discriminate].
  apply run_rtc_step in H as Hr. exists s. split; [exact Hr|]. split; [vm_compute in H; injection H as <-; reflexivity|].
  apply (children_recorded s Hr).
Defined.

Lemma signal_handled_witness : exists s', rtc step ready s' /\ frames s' = [] /\ at_main s' = Checking /\
  (running s' = running ready /\ children s' = [next_pid ready; S (next_pid ready); S (S (next_pid ready))] /\ alive s' = list_to_set (children s')).
Proof. apply (signal_handled SIGHUP ready); [apply rtc_refl|reflexivity|left; reflexivity]. Defined.
