(* ===== verification/Shell.v ===== *)
(** * The small shell

    IPCs/exec/shell.c: reads lines, cuts each into words with [strtok], and runs them with
    [fork] and [execvp].  The result is the list of commands that are run. *)
From S2P Require Import Prelude CString Strtok.

(** ** The program *)

Definition MAX_INPUT : nat := 1024.
Definition MAX_ARGS : nat := 64.

Definition is_delimiter (c : ascii) : bool := is_char 32 c || is_char 9 c.

(** the loop that fills [args] from [i] on *)
Fixpoint args_loop (fuel i : nat) (s : string) : outcome (list string) :=
  match fuel with
  | O => OutOfFuel
  | S fuel =>
      match strtok is_delimiter s with
      | None => Done []
      | Some (token, rest) =>
          if (i <? MAX_ARGS - 1)%nat then args ← args_loop fuel (S i) rest; Done (token :: args) else Done []
      end
  end.

(** the loop of [main] over what is typed: the commands *)
Fixpoint shell_loop (fuel : nat) (input : string) : outcome (list (list string)) :=
  match fuel with
  | O => OutOfFuel
  | S fuel =>
      match input with
      | EmptyString => Done []
      | _ =>
          let p := fgets (MAX_INPUT - 1) input in
          let line := cut is_newline p.1 in
          if streq line "exit" then Done [] else
          args ← args_loop (S (strlen line)) 0 line;
          rest ← shell_loop fuel p.2;
          Done (match args with [] => rest | _ => args :: rest end)
      end
  end.

Definition shell (input : string) : outcome (list (list string)) := shell_loop (S (strlen input)) input.

(** ** Specification *)

(** the commands of lines that are typed *)
Fixpoint commands (lines : list string) : list (list string) :=
  match lines with
  | [] => []
  | l :: lines =>
      if decide (l = "exit") then []
      else match take (MAX_ARGS - 1) (words is_delimiter l) with [] => commands lines | args => args :: commands lines end
  end.

Definition typed (lines : list string) : string := foldr (fun l s => l +:+ nl +:+ s) EmptyString lines.

(** ** Lemmas *)

Lemma args_loop_ok fuel i s : (strlen s < fuel)%nat -> (i <= MAX_ARGS - 1)%nat ->
  args_loop fuel i s = Done (take (MAX_ARGS - 1 - i) (words is_delimiter s)).
Proof.
  revert i s. induction fuel as [|fuel IH]; intros i s Hf Hi; [lia|]. cbn [args_loop].
  pose proof (strtok_words is_delimiter s) as Ht. destruct (strtok is_delimiter s) as [[t r]|]; [|by rewrite Ht, take_nil].
  destruct Ht as [-> Hl]. destruct (Nat.ltb_spec i (MAX_ARGS - 1)) as [Hlt|Hge].
  - rewrite IH by lia. cbn [mbind outcome_bind]. replace (MAX_ARGS - 1 - i)%nat with (S (MAX_ARGS - 1 - S i)) by lia. done.
  - by replace (MAX_ARGS - 1 - i)%nat with 0%nat by lia.
Qed.

Definition plain (l : string) : Prop := str_all (fun a => negb (is_newline a)) l = true /\ (strlen l < MAX_INPUT - 1)%nat.

Lemma cut_line l : plain l -> cut is_newline (l +:+ nl) = l.
Proof.
  intros [Hl _]. unfold cut. rewrite strlen_app. rewrite span_app; [done|done|simpl; lia|by left].
Qed.

Lemma shell_loop_ok fuel lines : Forall plain lines -> (length lines < fuel)%nat ->
  shell_loop fuel (typed lines) = Done (commands lines).
Proof.
  intros Hp. revert fuel. induction Hp as [|l lines Hl _ IH]; intros [|fuel] Hf; try (simpl in Hf; lia); [done|].
  cbn [shell_loop typed foldr commands]. fold (typed lines). destruct Hl as [Hl1 Hl2].
  assert (exists c s, l +:+ nl +:+ typed lines = String c s) as (c & s & He) by (destruct l as [|c l]; by eexists _, _).
  rewrite He, <- He. rewrite fgets_line by done. cbn [fst snd]. rewrite cut_line by done.
  case_decide as Hex; [subst l; by rewrite streq_refl|]. rewrite (proj2 (streq_false _ _)) by done.
  rewrite args_loop_ok by lia. rewrite Nat.sub_0_r. cbn [mbind outcome_bind]. rewrite IH by (simpl in Hf; lia).
  cbn [outcome_bind]. by destruct (take (MAX_ARGS - 1) (words is_delimiter l)).
Qed.

Lemma typed_length lines : (length lines <= strlen (typed lines))%nat.
Proof. induction lines as [|l lines IH]; [done|]. cbn [typed foldr]. fold (typed lines). rewrite !strlen_app. simpl. lia. Qed.

(** ** Properties *)

(** C35: For lines that fit its buffer the shell runs, up to the first line that is exit, the words of each
    line that has any, at most 63 of them: [strtok] gives the pieces between the delimiters but the empty ones. *)
Theorem shell_correct lines : Forall plain lines -> shell (typed lines) = Done (commands lines).
Proof. intros Hp. apply shell_loop_ok; [done|]. pose proof (typed_length lines). lia. Qed.

Lemma shell_correct_witness : shell (typed ["ls  -l"; " "; "exit"; "ls"]) = Done (commands ["ls  -l"; " "; "exit"; "ls"]).
Proof. apply shell_correct. repeat constructor; simpl; unfold MAX_INPUT; lia. Defined.

Example shell_runs : commands ["ls  -l"; " "; "exit"; "ls"] = [["ls"; "-l"]].
Proof. reflexivity. Qed.
