(* ===== verification/ConcurrentMap.v ===== *)
(** * The concurrent hash map of POSIX/thread-safe.c

    Every bucket has its own lock.  The threads interleave after every step of a walk along
    a chain, not only after whole operations.  The state carries [history], the operations
    in the order in which they took effect: the code does not store it and no step reads
    it.  [exec c t] is the next step of thread [t], none if it is blocked or at its end. *)
From S2P Require Import Prelude.

(** ** The program *)

Definition NUM_BUCKETS : nat := 16.

(** a node is its key and its value, a chain the list of its nodes *)
Abbreviation chain := (list (string * Z)).

Fixpoint hash_loop (h : Z) (key : string) : Z :=
  match key with
  | EmptyString => h
  | String c key' => hash_loop (u64 (u64 (Z.shiftl h 5 + h) + schar c)) key'
  end.
Definition hash (key : string) : nat := Z.to_nat (hash_loop 5381 key mod Z.of_nat NUM_BUCKETS).

Inductive op := Insert (key : string) (value : Z) | Lookup (key : string).
Definition op_key (o : op) : string := match o with Insert k _ | Lookup k => k end.

(** what a call returns: nothing, the value with [*found = 1], or -1 with [*found = 0] *)
Inductive result := Inserted | Found (value : Z) | NotFound.

(** between two calls; at the lock; at the node [curr] of the chain; at the unlock *)
Inductive place := Idle | AtLock (o : op) | Walk (o : op) (curr : nat) | AtUnlock (o : op) (r : result).

Record thread := mkThread { at_ : place; todo : list op; returned : list result }.

Record map_state := mkState {
  buckets : list chain;
  locks : list (option nat);  (* the owner of each bucket's lock *)
  threads : list thread;
  history : list (nat * op * result)
}.

Definition hashmapInit (programs : list (list op)) : map_state :=
  mkState (replicate NUM_BUCKETS []) (replicate NUM_BUCKETS None) ((fun p => mkThread Idle p []) <$> programs) [].

(** the loop body and what follows the loop: the next node, or the new chain and the result *)
Definition visit (o : op) (curr : nat) (ch : chain) : nat + chain * result :=
  match ch !! curr with
  | Some (k, v) =>
      if streq k (op_key o) then
        match o with
        | Insert key value => inr (<[curr := (key, value)]> ch, Inserted)
        | Lookup _ => inr (ch, Found v)
        end
      else inl (S curr)
  | None =>
      match o with
      | Insert key value => inr ((key, value) :: ch, Inserted)
      | Lookup _ => inr (ch, NotFound)
      end
  end.

Definition set_thread (c : map_state) (t : nat) (th : thread) : map_state :=
  mkState (buckets c) (locks c) (<[t := th]> (threads c)) (history c).

Definition exec (c : map_state) (t : nat) : option map_state :=
  th ← threads c !! t;
  match at_ th with
  | Idle =>
      match todo th with
      | [] => None
      | o :: rest => Some (set_thread c t (mkThread (AtLock o) rest (returned th)))
      end
  | AtLock o =>
      match locks c !! hash (op_key o) with
      | Some None =>
          Some (mkState (buckets c) (<[hash (op_key o) := Some t]> (locks c))
                  (<[t := mkThread (Walk o 0) (todo th) (returned th)]> (threads c)) (history c))
      | _ => None
      end
  | Walk o curr =>
      ch ← buckets c !! hash (op_key o);
      match visit o curr ch with
      | inl curr => Some (set_thread c t (mkThread (Walk o curr) (todo th) (returned th)))
      | inr (ch, r) =>
          Some (mkState (<[hash (op_key o) := ch]> (buckets c)) (locks c)
                  (<[t := mkThread (AtUnlock o r) (todo th) (returned th)]> (threads c)) (history c ++ [(t, o, r)]))
      end
  | AtUnlock o r =>
      Some (mkState (buckets c) (<[hash (op_key o) := None]> (locks c))
              (<[t := mkThread Idle (todo th) (returned th ++ [r])]> (threads c)) (history c))
  end.

Definition step (c c' : map_state) : Prop := exists t, exec c t = Some c'.
Definition reachable (programs : list (list op)) : map_state -> Prop := rtc step (hashmapInit programs).

(** [hashmapDestroy] after the joins: the keys of the nodes it frees; a lock that is held
    would never be given *)
Definition hashmapDestroy (c : map_state) : outcome (list string) :=
  if bool_decide (Forall (eq None) (locks c)) then Done (concat (buckets c)).*1 else OutOfFuel.

Definition key_ (i : Z) : string := "key_" +:+ pretty i.
Definition writer_thread : list op := (fun i => Insert (key_ i) (i * 100)) <$> seqZ 0 10.
Definition reader_thread : list op := (fun i => Lookup (key_ i)) <$> seqZ 0 10.
Definition main : list (list op) := [writer_thread; reader_thread].

(** ** Specification: a map *)

Abbreviation contents := (gmap string Z).

Definition spec_op (o : op) (m : contents) : result * contents :=
  match o with
  | Insert k v => (Inserted, <[k := v]> m)
  | Lookup k => (match m !! k with Some v => Found v | None => NotFound end, m)
  end.

(** the map after a history whose results are those of the map, one operation at a time *)
Inductive legal : list (nat * op * result) -> contents -> Prop :=
| legal_nil : legal [] ∅
| legal_snoc h m t o : legal h m -> legal (h ++ [(t, o, (spec_op o m).1)]) (spec_op o m).2.

(** the calls of a thread in the history *)
Definition calls_of (t : nat) (h : list (nat * op * result)) : list (op * result) :=
  omap (fun e => if decide (e.1.1 = t) then Some (e.1.2, e.2) else None) h.

(** a bucket holds the keys that hash to it, each once, with the values of the map *)
Record bucket_ok (m : contents) (b : nat) (ch : chain) : Prop := {
  b_hash : forall k, k ∈ ch.*1 -> hash k = b;
  b_nodup : NoDup ch.*1;
  b_value : forall k, hash k = b -> assoc k ch = m !! k;
}.

(** the operation that a thread has taken effect for but not returned from, and the one
    that it has been called for *)
Definition unreturned (p : place) : list result := match p with AtUnlock _ r => [r] | _ => [] end.
Definition pending (p : place) : list op := match p with AtLock o | Walk o _ => [o] | _ => [] end.
Definition holds_lock (p : place) : option nat :=
  match p with Walk o _ | AtUnlock o _ => Some (hash (op_key o)) | _ => None end.

Record thread_ok (c : map_state) (prog : list op) (t : nat) (th : thread) : Prop := {
  th_results : (calls_of t (history c)).*2 = returned th ++ unreturned (at_ th);
  th_program : (calls_of t (history c)).*1 ++ pending (at_ th) ++ todo th = prog;
  th_lock : forall b, locks c !! b = Some (Some t) <-> holds_lock (at_ th) = Some b;
  th_walk : forall o curr ch, at_ th = Walk o curr -> buckets c !! hash (op_key o) = Some ch ->
    (curr <= length ch)%nat /\ op_key o ∉ (take curr ch).*1;
}.

Record map_ok (programs : list (list op)) (c : map_state) : Prop := {
  m_lengths : length (buckets c) = NUM_BUCKETS /\ length (locks c) = NUM_BUCKETS /\ length (threads c) = length programs;
  m_legal : exists m, legal (history c) m /\ forall b ch, buckets c !! b = Some ch -> bucket_ok m b ch;
  m_threads : forall t th prog, threads c !! t = Some th -> programs !! t = Some prog -> thread_ok c prog t th;
  m_others : forall t o r, (t, o, r) ∈ history c -> (t < length programs)%nat;
  m_owners : forall b t, locks c !! b = Some (Some t) -> (t < length programs)%nat;
}.

(** ** Lemmas: one bucket *)

Lemma map_hash_lt k : (hash k < NUM_BUCKETS)%nat.
Proof.
  unfold hash. pose proof (Z.mod_pos_bound (hash_loop 5381 k) (Z.of_nat NUM_BUCKETS)). unfold NUM_BUCKETS in *. lia.
Qed.

Lemma take_keys (ch : chain) n k v : ch !! n = Some (k, v) -> (take (S n) ch).*1 = (take n ch).*1 ++ [k].
Proof. intros H. by rewrite (take_S_r _ _ _ H), fmap_app. Qed.

Lemma visit_next o curr ch curr' : visit o curr ch = inl curr' -> op_key o ∉ (take curr ch).*1 ->
  curr' = S curr /\ (S curr <= length ch)%nat /\ op_key o ∉ (take (S curr) ch).*1.
Proof.
  unfold visit. destruct (ch !! curr) as [[k v]|] eqn:Hc; [|by destruct o].
  destruct (streq k (op_key o)) eqn:Hk; [by destruct o|]. intros [= <-] Hn. split_and!; [done|by eapply lookup_lt_Some|].
  rewrite (take_keys _ _ _ _ Hc), not_elem_of_app, list_elem_of_singleton. split; [done|]. apply streq_false in Hk. congruence.
Qed.

Lemma bucket_found m b ch curr k v : bucket_ok m b ch -> ch !! curr = Some (k, v) -> hash k = b /\ m !! k = Some v.
Proof.
  intros [Hh Hn Hv] Hc. apply list_elem_of_lookup_2 in Hc. assert (k ∈ ch.*1) as Hk by (apply list_elem_of_fmap; by exists (k, v)).
  pose proof (Hh k Hk) as Hb. split; [done|]. rewrite <- (Hv k Hb). by apply assoc_NoDup.
Qed.

Lemma keys_insert (ch : chain) curr k v w : ch !! curr = Some (k, v) -> (<[curr := (k, w)]> ch).*1 = ch.*1.
Proof.
  intros Hc. rewrite list_fmap_insert. apply list_insert_id. by rewrite list_lookup_fmap, Hc.
Qed.

Lemma chain_update m b ch curr k v w : bucket_ok m b ch -> ch !! curr = Some (k, v) ->
  bucket_ok (<[k := w]> m) b (<[curr := (k, w)]> ch).
Proof.
  intros Hb Hc. pose proof (keys_insert ch curr k v w Hc) as Hk. destruct Hb as [Hh Hn Hv]. split; rewrite ?Hk; [done|done|].
  intros k' Hk'. rewrite lookup_insert. case_decide as Heq.
  - subst k'. apply assoc_NoDup; [by rewrite Hk|]. apply list_elem_of_lookup. exists curr.
    apply list_lookup_insert_eq. by eapply lookup_lt_Some.
  - rewrite <- Hv by done. apply list_elem_of_split_length in Hc as (l1 & l2 & -> & ->).
    rewrite list_insert_mid, !assoc_app. simpl. by rewrite !decide_False by congruence.
Qed.

Lemma bucket_add m b ch k w : bucket_ok m b ch -> hash k = b -> k ∉ ch.*1 -> bucket_ok (<[k := w]> m) b ((k, w) :: ch).
Proof.
  intros [Hh Hn Hv] Hk Hni. split; simpl.
  - intros k' [->|Hin]%elem_of_cons; [done|exact (Hh k' Hin)].
  - by constructor.
  - intros k' Hk'. rewrite lookup_insert. case_decide; [done|by apply Hv].
Qed.

(** the end of a walk answers and changes the bucket as the map does *)
Lemma visit_end m o curr ch ch' r : bucket_ok m (hash (op_key o)) ch -> visit o curr ch = inr (ch', r) ->
  op_key o ∉ (take curr ch).*1 -> r = (spec_op o m).1 /\ bucket_ok (spec_op o m).2 (hash (op_key o)) ch'.
Proof.
  intros Hb. unfold visit. destruct (ch !! curr) as [[k v]|] eqn:Hc.
  - destruct (streq k (op_key o)) eqn:Hk; [|done]. apply streq_spec in Hk.
    destruct (bucket_found _ _ _ _ _ _ Hb Hc) as [_ Hm]. destruct o as [key value|key]; simpl in *; subst k; intros [= <- <-] _.
    + split; [done|]. by apply chain_update with v.
    + by rewrite Hm.
  - apply lookup_ge_None_1 in Hc. intros Hv Hn. rewrite take_ge in Hn by done.
    destruct o as [key value|key]; simpl in *; injection Hv as <- <-.
    + split; [done|by apply bucket_add].
    + split; [|done]. rewrite <- (b_value _ _ _ Hb) by done. by rewrite (proj2 (assoc_None _ _)).
Qed.

Lemma bucket_other m o b ch : bucket_ok m b ch -> b <> hash (op_key o) -> bucket_ok (spec_op o m).2 b ch.
Proof.
  intros [Hh Hn Hv] Hne. destruct o as [key value|key]; simpl in *; [|done]. split; [done|done|].
  intros k Hk. rewrite lookup_insert_ne by congruence. by apply Hv.
Qed.

Lemma calls_of_snoc t h u o r : calls_of t (h ++ [(u, o, r)]) = calls_of t h ++ (if decide (u = t) then [(o, r)] else []).
Proof. unfold calls_of. rewrite omap_app. simpl. by case_decide. Qed.

(** ** Lemmas: the threads *)

(** a thread is not disturbed by a step of another one *)
Lemma thread_frame c c' prog u th : thread_ok c prog u th -> calls_of u (history c') = calls_of u (history c) ->
  (forall b, locks c' !! b = Some (Some u) <-> locks c !! b = Some (Some u)) ->
  (forall b, locks c !! b = Some (Some u) -> buckets c' !! b = buckets c !! b) -> thread_ok c' prog u th.
Proof.
  intros [H1 H2 H3 H4] Hc Hl Hb. split; rewrite ?Hc; [done|done|intros b; by rewrite Hl|].
  intros o curr ch Ha Hch. rewrite Hb in Hch; [by eapply H4|]. apply H3. by rewrite Ha.
Qed.

Lemma threads_insert (P : nat -> thread -> Prop) (ths : list thread) t th0 th : ths !! t = Some th0 -> P t th ->
  (forall u x, u <> t -> ths !! u = Some x -> P u x) -> forall u x, <[t := th]> ths !! u = Some x -> P u x.
Proof. intros Ht Hp Ho u x [[<- [<- _]]|[Hne Hu]]%list_lookup_insert_Some; [done|by apply Ho]. Qed.

(** calling, and moving along the chain: nothing but the thread changes *)
Lemma move_ok programs c t th th' : map_ok programs c -> threads c !! t = Some th ->
  (forall prog, programs !! t = Some prog -> thread_ok c prog t th -> thread_ok (set_thread c t th') prog t th') ->
  map_ok programs (set_thread c t th').
Proof.
  intros [Hl Hm Ht Ho Hw] Hth Hok. split; simpl; [by rewrite length_insert|done| |done|done].
  intros u x prog Hu Hp. revert Hp. revert u x Hu.
  apply (threads_insert (fun u x => programs !! u = Some prog -> thread_ok (set_thread c t th') prog u x) _ _ _ _ Hth).
  - intros Hp. apply Hok; [done|by apply Ht].
  - intros u x Hne Hu Hp. by apply (thread_frame c); [apply Ht|..].
Qed.

Lemma lock_ok programs c t th o : map_ok programs c -> threads c !! t = Some th -> at_ th = AtLock o ->
  locks c !! hash (op_key o) = Some None ->
  map_ok programs (mkState (buckets c) (<[hash (op_key o) := Some t]> (locks c))
    (<[t := mkThread (Walk o 0) (todo th) (returned th)]> (threads c)) (history c)).
Proof.
  intros [(H1 & H2 & H3) Hm Ht Ho Hw] Hth Ha Hlk. assert (t < length programs)%nat as Htp by (apply lookup_lt_Some in Hth; lia).
  assert (hash (op_key o) < length (locks c))%nat as Hlt by (by eapply lookup_lt_Some).
  split; simpl; [by rewrite !length_insert|done| |done|].
  - intros u x prog Hu Hp. revert Hp. revert u x Hu.
    apply (threads_insert (fun u x => programs !! u = Some prog -> thread_ok _ prog u x) _ _ _ _ Hth).
    + intros Hp. destruct (Ht _ _ _ Hth Hp) as [R1 R2 R3 R4]. rewrite Ha in *. split; simpl in *; [done|done| |].
      * intros b. rewrite list_lookup_insert. case_decide as Hb; [destruct Hb as [-> _]; naive_solver|].
        rewrite R3. split; [done|]. intros [= <-]. naive_solver.
      * intros o' curr ch [= <- <-] _. rewrite take_0. split; [lia|apply not_elem_of_nil].
    + intros u x Hne Hu Hp. apply (thread_frame c); [by apply Ht|done| |done]. simpl.
      intros b. rewrite list_lookup_insert. case_decide as Hb; [|done]. destruct Hb as [<- _]. rewrite Hlk. split; congruence.
  - intros b u [[<- [[= ->] _]]|[_ Hu]]%list_lookup_insert_Some; [done|by eapply Hw].
Qed.

Lemma unlock_ok programs c t th o r : map_ok programs c -> threads c !! t = Some th -> at_ th = AtUnlock o r ->
  map_ok programs (mkState (buckets c) (<[hash (op_key o) := None]> (locks c))
    (<[t := mkThread Idle (todo th) (returned th ++ [r])]> (threads c)) (history c)).
Proof.
  intros [(H1 & H2 & H3) Hm Ht Ho Hw] Hth Ha.
  destruct (lookup_lt_is_Some_2 programs t) as [prog0 Hp0]; [apply lookup_lt_Some in Hth; lia|].
  assert (locks c !! hash (op_key o) = Some (Some t)) as Hlk by (apply (th_lock _ _ _ _ (Ht _ _ _ Hth Hp0)); by rewrite Ha).
  assert (hash (op_key o) < length (locks c))%nat as Hlt by (by eapply lookup_lt_Some).
  split; simpl; [by rewrite !length_insert|done| |done|].
  - intros u x prog Hu Hp. revert Hp. revert u x Hu.
    apply (threads_insert (fun u x => programs !! u = Some prog -> thread_ok _ prog u x) _ _ _ _ Hth).
    + intros Hp. destruct (Ht _ _ _ Hth Hp) as [R1 R2 R3 R4]. rewrite Ha in *. split; simpl in *; [by rewrite app_nil_r|done| |done].
      intros b. rewrite list_lookup_insert. case_decide as Hb; [naive_solver|]. rewrite R3. split; [|done]. intros [= <-]. naive_solver.
    + intros u x Hne Hu Hp. apply (thread_frame c); [by apply Ht|done| |done]. simpl.
      intros b. rewrite list_lookup_insert. case_decide as Hb; [|done]. destruct Hb as [<- _]. rewrite Hlk. split; congruence.
  - intros b u [[<- [[=] _]]|[_ Hu]]%list_lookup_insert_Some. by eapply Hw.
Qed.

Lemma effect_ok programs c t th o curr ch ch' r : map_ok programs c -> threads c !! t = Some th -> at_ th = Walk o curr ->
  buckets c !! hash (op_key o) = Some ch -> visit o curr ch = inr (ch', r) ->
  map_ok programs (mkState (<[hash (op_key o) := ch']> (buckets c)) (locks c)
    (<[t := mkThread (AtUnlock o r) (todo th) (returned th)]> (threads c)) (history c ++ [(t, o, r)])).
Proof.
  intros [(H1 & H2 & H3) (m & Hleg & Hb) Ht Ho Hw] Hth Ha Hch Hv. assert (t < length programs)%nat as Htp by (apply lookup_lt_Some in Hth; lia).
  destruct (lookup_lt_is_Some_2 programs t) as [prog0 Hp0]; [done|]. pose proof (Ht _ _ _ Hth Hp0) as [_ _ L0 W0].
  assert (locks c !! hash (op_key o) = Some (Some t)) as Hlk by (apply L0; by rewrite Ha).
  destruct (visit_end m o curr ch ch' r (Hb _ _ Hch) Hv (proj2 (W0 _ _ _ Ha Hch))) as [-> Hb'].
  split; simpl; [by rewrite !length_insert| | | |done].
  - exists (spec_op o m).2. split; [by constructor|].
    intros b x [[<- [<- _]]|[Hne Hx]]%list_lookup_insert_Some; [done|]. apply bucket_other; [by apply Hb|congruence].
  - intros u x prog Hu Hp. revert Hp. revert u x Hu.
    apply (threads_insert (fun u x => programs !! u = Some prog -> thread_ok _ prog u x) _ _ _ _ Hth).
    + intros Hp. destruct (Ht _ _ _ Hth Hp) as [R1 R2 R3 R4]. rewrite Ha in *. simpl in *.
      split; simpl; rewrite ?calls_of_snoc, ?decide_True, ?fmap_app by done; simpl; [by rewrite R1, app_nil_r|by rewrite <- app_assoc|done|done].
    + intros u x Hne Hu Hp. apply (thread_frame c); [by apply Ht| |done|]; simpl.
      * rewrite calls_of_snoc, decide_False by done. apply app_nil_r.
      * intros b Hbl. rewrite list_lookup_insert_ne; [done|]. intros <-. congruence.
  - intros u o' r' [Hu|Hu%list_elem_of_singleton]%elem_of_app; [by eapply Ho|]. by injection Hu as -> _ _.
Qed.

Lemma exec_ok programs c t c' : map_ok programs c -> exec c t = Some c' -> map_ok programs c'.
Proof.
  intros Hok. unfold exec. destruct (threads c !! t) as [th|] eqn:Hth; [|done]. cbn [mbind option_bind].
  destruct (at_ th) as [|o|o curr|o r] eqn:Ha.
  - destruct (todo th) as [|o rest] eqn:Htd; [done|]. intros [= <-]. apply move_ok with th; [done|done|].
    intros prog _ [R1 R2 R3 R4]. rewrite Ha, Htd in *. by split.
  - destruct (locks c !! hash (op_key o)) as [[|]|] eqn:Hl; [done| |done]. intros [= <-]. by apply lock_ok.
  - destruct (buckets c !! hash (op_key o)) as [ch|] eqn:Hch; [|done]. cbn [mbind option_bind].
    destruct (visit o curr ch) as [curr'|[ch' r]] eqn:Hv; intros [= <-].
    + apply move_ok with th; [done|done|]. intros prog _ [R1 R2 R3 R4]. rewrite Ha in *. split; simpl; [done|done|done|].
      intros o' n ch1 [= <- <-] Hch1. assert (ch1 = ch) as -> by congruence. destruct (visit_next o curr ch curr' Hv) as [-> ?]; [by apply (R4 o curr)|done].
    + by apply effect_ok with curr ch.
  - intros [= <-]. by apply unlock_ok.
Qed.

Lemma init_ok programs : map_ok programs (hashmapInit programs).
Proof.
  split; unfold hashmapInit; cbn [buckets locks threads history].
  - by rewrite !length_replicate, length_fmap.
  - exists ∅. split; [constructor|]. intros b ch [-> _]%lookup_replicate. split; [set_solver|constructor|done].
  - intros t th prog Ht Hp. rewrite list_lookup_fmap, Hp in Ht. injection Ht as <-. split; [done|done| |done].
    intros b. split; [|done]. cbn [locks]. by intros [[=] _]%lookup_replicate.
  - by intros ??? ?%elem_of_nil.
  - by intros b t [[=] _]%lookup_replicate.
Qed.

Lemma map_reachable_ok programs c : reachable programs c -> map_ok programs c.
Proof.
  intros H. unfold reachable in H. apply (rtc_ind_r (R := step) (map_ok programs) (hashmapInit programs)); [apply init_ok| |done].
  intros c1 c2 _ [t Ht] Hok. by eapply exec_ok.
Qed.

(** ** Lemmas: progress *)

Lemma exec_history c t c' : exec c t = Some c' -> history c `prefix_of` history c'.
Proof.
  unfold exec. destruct (threads c !! t) as [th|]; [|done]. cbn [mbind option_bind].
  destruct (at_ th) as [|o|o curr|o r]; [| |destruct (buckets c !! _); [cbn [mbind option_bind]|done]|];
    repeat case_match; intros [= <-] || done; reflexivity || by eexists.
Qed.

Lemma history_grows c c' : rtc step c c' -> history c `prefix_of` history c'.
Proof. induction 1 as [|c c1 c2 [t Ht] _ IH]; [done|]. etrans; [by eapply exec_history|done]. Qed.

(** the keys of the map are keys of calls of the programs *)
Lemma legal_keys h m k v : legal h m -> m !! k = Some v -> exists t o r, (t, o, r) ∈ h /\ op_key o = k.
Proof.
  intros Hl. revert v. induction Hl as [|h m t o _ IH]; intros v; [by rewrite lookup_empty|].
  assert (m !! k = Some v -> exists t' o' r, (t', o', r) ∈ h ++ [(t, o, (spec_op o m).1)] /\ op_key o' = k) as Hold.
  { intros (t' & o' & r & Hin & Hk)%IH. exists t', o', r. split; [apply elem_of_app; by left|done]. }
  destruct o as [k' v'|k']; simpl in *; [|done]. rewrite lookup_insert. case_decide as Hk; [|done].
  intros _. exists t, (Insert k' v'), Inserted. split; [|done]. apply elem_of_app. right. by apply list_elem_of_singleton.
Qed.

Lemma elem_of_calls t o r h : (t, o, r) ∈ h -> o ∈ (calls_of t h).*1.
Proof.
  intros H. apply list_elem_of_fmap. exists (o, r). split; [done|]. apply list_elem_of_omap. exists (t, o, r).
  split; [done|]. simpl. by rewrite decide_True.
Qed.

Definition program_keys (programs : list (list op)) : list string := op_key <$> concat programs.

Lemma history_program programs c t o r : map_ok programs c -> (t, o, r) ∈ history c -> op_key o ∈ program_keys programs.
Proof.
  intros [(_ & _ & H3) _ Ht Ho _] Hin. pose proof (Ho _ _ _ Hin) as Hlt.
  destruct (lookup_lt_is_Some_2 programs t Hlt) as [prog Hp].
  destruct (lookup_lt_is_Some_2 (threads c) t) as [th Hth]; [lia|].
  apply list_elem_of_fmap. exists o. split; [done|]. apply list_elem_of_In, in_concat. exists prog.
  split; apply list_elem_of_In; [by eapply list_elem_of_lookup_2|].
  rewrite <- (th_program _ _ _ _ (Ht _ _ _ Hth Hp)). apply elem_of_app. left. by eapply elem_of_calls.
Qed.

(** a chain is never longer than the number of calls *)
Lemma chain_length programs c b ch : map_ok programs c -> buckets c !! b = Some ch ->
  (length ch <= length (concat programs))%nat.
Proof.
  intros Hok Hch. destruct (m_legal _ _ Hok) as (m & Hleg & Hb). destruct (Hb _ _ Hch) as [Hh Hn Hv].
  rewrite <- (length_fmap fst ch). change (length (concat programs)) with (length (concat programs)).
  rewrite <- (length_fmap op_key (concat programs)). apply submseteq_length, NoDup_submseteq; [done|].
  intros k Hk. pose proof (Hh k Hk) as Hb'. apply list_elem_of_fmap in Hk as ([k' v] & -> & Hin). simpl in *.
  assert (m !! k' = Some v) as Hm by (rewrite <- (Hv k' Hb'); by apply assoc_NoDup).
  destruct (legal_keys _ _ _ _ Hleg Hm) as (t & o & r & Hin' & <-). by eapply history_program.
Qed.

(** what is left of a thread's work, [n] being the length of the longest possible chain *)
Definition place_cost (n : nat) (p : place) : nat :=
  match p with Idle => 0 | AtLock _ => n + 3 | Walk _ curr => n + 2 - curr | AtUnlock _ _ => 1 end.
Definition thread_cost (n : nat) (th : thread) : nat := place_cost n (at_ th) + length (todo th) * (n + 4).
Definition cost (n : nat) (c : map_state) : nat := sum_list_with (thread_cost n) (threads c).

Lemma exec_cost programs c t c' : map_ok programs c -> exec c t = Some c' ->
  (cost (length (concat programs)) c' < cost (length (concat programs)) c)%nat.
Proof.
  intros Hok. unfold exec, cost. destruct (threads c !! t) as [th|] eqn:Hth; [|done]. cbn [mbind option_bind].
  destruct (at_ th) as [|o|o curr|o r] eqn:Ha.
  - destruct (todo th) as [|o rest] eqn:Htd; [done|]. intros [= <-]. apply sum_list_with_decr with th; [done|].
    unfold thread_cost. rewrite Ha, Htd. simpl. lia.
  - destruct (locks c !! hash (op_key o)) as [[|]|]; [done| |done]. intros [= <-]. apply sum_list_with_decr with th; [done|].
    unfold thread_cost. rewrite Ha. simpl. lia.
  - destruct (buckets c !! hash (op_key o)) as [ch|] eqn:Hch; [|done]. cbn [mbind option_bind].
    pose proof (chain_length _ _ _ _ Hok Hch) as Hlen.
    assert (forall th', todo th' = todo th -> (place_cost (length (concat programs)) (at_ th') <
      length (concat programs) + 2 - curr)%nat ->
      (thread_cost (length (concat programs)) th' < thread_cost (length (concat programs)) th)%nat) as Hstep.
    { intros th' Htd Hp. unfold thread_cost. rewrite Ha, Htd. simpl. lia. }
    unfold visit. destruct (ch !! curr) as [[k v]|] eqn:Hc.
    + apply lookup_lt_Some in Hc. destruct (streq k (op_key o)); [destruct o|];
        intros [= <-]; (apply sum_list_with_decr with th; [done|]); apply Hstep; simpl; lia || done.
    + destruct (lookup_lt_is_Some_2 programs t) as [prog Hp].
      { rewrite <- (proj2 (proj2 (m_lengths _ _ Hok))). by eapply lookup_lt_Some. }
      destruct (th_walk _ _ _ _ (m_threads _ _ Hok _ _ _ Hth Hp) _ _ _ Ha Hch) as [Hcurr _].
      destruct o; intros [= <-]; (apply sum_list_with_decr with th; [done|]); apply Hstep; simpl; lia || done.
  - intros [= <-]. apply sum_list_with_decr with th; [done|]. unfold thread_cost. rewrite Ha. simpl. lia.
Qed.

Definition thread_done (th : thread) : bool := match at_ th, todo th with Idle, [] => true | _, _ => false end.
Definition all_done (c : map_state) : bool := forallb thread_done (threads c).

Lemma exec_free programs c t th : map_ok programs c -> threads c !! t = Some th -> thread_done th = false ->
  (forall o, at_ th = AtLock o -> locks c !! hash (op_key o) = Some None) -> is_Some (exec c t).
Proof.
  intros Hok Hth Hd Hl. unfold exec. rewrite Hth. cbn [mbind option_bind]. unfold thread_done in Hd.
  destruct (at_ th) as [|o|o curr|o r]; [by destruct (todo th)|by rewrite Hl| |done].
  destruct (lookup_lt_is_Some_2 (buckets c) (hash (op_key o))) as [ch ->].
  { rewrite (proj1 (m_lengths _ _ Hok)). apply map_hash_lt. }
  cbn [mbind option_bind]. by destruct (visit o curr ch) as [|[]].
Qed.

(** the owner of a lock can always go on *)
Lemma progress programs c : map_ok programs c -> all_done c = false -> exists c', step c c'.
Proof.
  intros Hok Hd. apply not_true_iff_false in Hd. unfold all_done in Hd. rewrite forallb_forall in Hd.
  assert (exists t th, threads c !! t = Some th /\ thread_done th = false) as (t & th & Hth & Hdone).
  { destruct (decide (Exists (fun th => thread_done th = false) (threads c))) as [He|He].
    - apply Exists_exists in He as (th & Hin & Hf). apply list_elem_of_lookup in Hin as [t Ht]. by exists t, th.
    - destruct Hd. intros th Hin%list_elem_of_In. apply not_false_iff_true. intros Hf. apply He, Exists_exists. by exists th. }
  assert ((exists o u, at_ th = AtLock o /\ locks c !! hash (op_key o) = Some (Some u)) \/
    (forall o u, at_ th = AtLock o -> locks c !! hash (op_key o) <> Some (Some u))) as [Hblocked|Hfree].
  { destruct (at_ th) as [|o|o curr|o r]; [by right| |by right..].
    destruct (locks c !! hash (op_key o)) as [[u|]|] eqn:Hu; [left; by exists o, u|right; naive_solver..]. }
  - destruct Hblocked as (o & u & _ & Hu). destruct (lookup_lt_is_Some_2 programs u) as [prog Hp]; [by eapply m_owners|].
    destruct (lookup_lt_is_Some_2 (threads c) u) as [th' Hth']; [rewrite (proj2 (proj2 (m_lengths _ _ Hok))); by eapply m_owners|].
    apply (th_lock _ _ _ _ (m_threads _ _ Hok _ _ _ Hth' Hp)) in Hu.
    destruct (exec_free programs c u th') as [c' Hc']; [done|done| |intros o' Ho; by rewrite Ho in Hu|by exists c', u].
    unfold thread_done. by destruct (at_ th').
  - destruct (exec_free programs c t th) as [c' Hc']; [done..| |by exists c', t].
    intros o Ho. destruct (lookup_lt_is_Some_2 (locks c) (hash (op_key o))) as [[u|] Hl]; [|naive_solver|done].
    rewrite (proj1 (proj2 (m_lengths _ _ Hok))). apply map_hash_lt.
Qed.

Lemma steps_cost programs n c c' : map_ok programs c -> nsteps step n c c' ->
  (n + cost (length (concat programs)) c' <= cost (length (concat programs)) c)%nat.
Proof.
  intros Hok H. induction H as [c|n c c1 c2 [t Ht] _ IH]; [lia|].
  pose proof (exec_cost _ _ _ _ Hok Ht). pose proof (IH (exec_ok _ _ _ _ Hok Ht)). lia.
Qed.

Lemma init_cost n programs : cost n (hashmapInit programs) = (length (concat programs) * (n + 4))%nat.
Proof.
  unfold cost. cbn [hashmapInit threads]. induction programs as [|p programs IH]; [done|].
  cbn [fmap list_fmap sum_list_with]. simpl concat. rewrite length_app, IH. unfold thread_cost. simpl. lia.
Qed.

(** ** Lemmas: the end *)

Lemma end_unlocked programs c : map_ok programs c -> all_done c = true -> Forall (eq None) (locks c).
Proof.
  intros Hok Hd. apply Forall_lookup. intros b [u|] Hb; [|done]. unfold all_done in Hd. rewrite forallb_forall in Hd.
  destruct (lookup_lt_is_Some_2 programs u) as [prog Hp]; [by eapply m_owners|].
  destruct (lookup_lt_is_Some_2 (threads c) u) as [th Hth]; [rewrite (proj2 (proj2 (m_lengths _ _ Hok))); by eapply m_owners|].
  apply (th_lock _ _ _ _ (m_threads _ _ Hok _ _ _ Hth Hp)) in Hb.
  specialize (Hd th (proj1 (list_elem_of_In _ _) (list_elem_of_lookup_2 _ _ _ Hth))). unfold thread_done in Hd.
  by destruct (at_ th).
Qed.

(** the keys of all chains are those of the map, each once *)
Lemma all_keys m bs : length bs = NUM_BUCKETS -> (forall b ch, bs !! b = Some ch -> bucket_ok m b ch) ->
  (concat bs).*1 ≡ₚ (map_to_list m).*1.
Proof.
  intros Hlen Hb. apply NoDup_Permutation.
  - assert (forall i, (forall b ch, bs !! b = Some ch -> bucket_ok m (i + b)%nat ch) -> NoDup (concat bs).*1) as H; [|by apply (H 0%nat)].
    clear Hlen Hb. induction bs as [|ch bs IH]; intros i Hb; [constructor|]. simpl. rewrite fmap_app, NoDup_app.
    pose proof (Hb 0%nat ch eq_refl) as [Hh Hn _]. split_and!; [done| |].
    + intros k Hk (x & -> & Hx)%list_elem_of_fmap. apply list_elem_of_In, in_concat in Hx as (ch' & Hch' & Hx).
      apply list_elem_of_In, list_elem_of_lookup in Hch' as [j Hj]. apply list_elem_of_In in Hx.
      pose proof (Hh _ Hk). pose proof (b_hash _ _ _ (Hb (S j) ch' Hj) x.1 (list_elem_of_fmap_2 _ _ _ Hx)). lia.
    + apply (IH (S i)). intros b ch' Hch'. replace (S i + b)%nat with (i + S b)%nat by lia. by apply Hb.
  - apply NoDup_fst_map_to_list.
  - intros k. rewrite !list_elem_of_fmap. split.
    + intros ([k' v] & -> & Hx). apply list_elem_of_In, in_concat in Hx as (ch & Hch & Hx).
      apply list_elem_of_In, list_elem_of_lookup in Hch as [b Hch]. apply list_elem_of_In, list_elem_of_lookup in Hx as [i Hx].
      exists (k', v). split; [done|]. apply elem_of_map_to_list. by eapply bucket_found; [apply Hb|].
    + intros ([k' v] & -> & Hx%elem_of_map_to_list). destruct (lookup_lt_is_Some_2 bs (hash k')) as [ch Hch]; [rewrite Hlen; apply map_hash_lt|].
      exists (k', v). split; [done|]. apply list_elem_of_In, in_concat. exists ch.
      split; apply list_elem_of_In; [by eapply list_elem_of_lookup_2|]. apply assoc_elem.
      by rewrite (b_value _ _ _ (Hb _ _ Hch)).
Qed.

(** ** Properties *)

(** C3: the map is linearizable.  However the steps of the calls interleave, the results of
    all calls are those that one map gives when the calls are made one at a time in the
    order of [history]; that order is the program order of every thread, every returned
    call is in it with the result it returned, it is only ever extended (so that a call
    that returned comes before one that starts later), and at any time a chain holds
    what that map holds for its keys, each key once. *)
Theorem linearizable programs c : reachable programs c -> exists m, legal (history c) m /\
  (forall b ch, buckets c !! b = Some ch -> NoDup ch.*1 /\ forall k, hash k = b -> assoc k ch = m !! k) /\
  (forall t th prog, threads c !! t = Some th -> programs !! t = Some prog ->
    (calls_of t (history c)).*1 ++ pending (at_ th) ++ todo th = prog /\
    (calls_of t (history c)).*2 = returned th ++ unreturned (at_ th)) /\
  (forall c', rtc step c c' -> history c `prefix_of` history c').
Proof.
  intros H%map_reachable_ok. destruct (m_legal _ _ H) as (m & Hleg & Hb). exists m. split_and!; [done| | |apply history_grows].
  - intros b ch [_ Hn Hv]%Hb. by split.
  - intros t th prog Ht Hp. by destruct (m_threads _ _ H _ _ _ Ht Hp).
Qed.

(** Every schedule ends, with all calls returned.  With [n] calls in all, no execution
    has more than [n * (n + 4)] steps; as long as a thread is not at its end some thread can
    step (no deadlock); and when all are at their ends no lock is held, and
    [hashmapDestroy] frees one node for every key of the map. *)
Theorem calls_return programs n c : nsteps step n (hashmapInit programs) c ->
  (n <= length (concat programs) * (length (concat programs) + 4))%nat /\
  (all_done c = false -> exists c', step c c') /\
  (all_done c = true -> exists m freed, legal (history c) m /\
    hashmapDestroy c = Done freed /\ freed ≡ₚ (map_to_list m).*1).
Proof.
  intros H. pose proof (steps_cost programs n _ _ (init_ok programs) H) as Hc. rewrite init_cost in Hc.
  assert (map_ok programs c) as Hok by (apply map_reachable_ok, rtc_nsteps; by exists n).
  split_and!; [lia|by apply (progress programs)|]. intros Hd. destruct (m_legal _ _ Hok) as (m & Hleg & Hb).
  exists m, (concat (buckets c)).*1. split_and!; [done| |apply all_keys; [apply (m_lengths programs c Hok)|done]].
  unfold hashmapDestroy. rewrite bool_decide_eq_true_2; [done|]. by apply (end_unlocked programs).
Qed.

(** ** Witnesses: the two threads of [main] in turn, a blocked one being passed over *)

Definition run (c : map_state) (ts : list nat) : map_state :=
  foldl (fun c t => default c (exec c t)) c ts.

Lemma run_steps c ts : rtc step c (run c ts).
Proof.
  revert c. induction ts as [|t ts IH]; intros c; [done|]. simpl.
  destruct (exec c t) as [c'|] eqn:He; simpl; [|apply IH]. eapply rtc_l; [by exists t|apply IH].
Qed.

Definition in_turn (n : nat) : map_state := run (hashmapInit main) (concat (replicate n [0; 1]%nat)).

Lemma in_turn_reachable n : reachable main (in_turn n).
Proof. unfold reachable, in_turn. apply run_steps. Qed.

(** in the middle of a run *)
Lemma linearizable_witness : exists c m, reachable main c /\ legal (history c) m /\ length (history c) = 6%nat /\ all_done c = false.
Proof.
  pose proof (in_turn_reachable 14) as H.
  destruct (linearizable main (in_turn 14) H) as (m & Hm & _). exists (in_turn 14), m.
  split_and!; [exact H|exact Hm|vm_compute; reflexivity|vm_compute; reflexivity].
Defined.

Lemma calls_return_witness : exists freed, hashmapDestroy (in_turn 60) = Done freed /\ all_done (in_turn 60) = true.
Proof.
  pose proof (in_turn_reachable 60) as H. unfold reachable in H. apply rtc_nsteps in H as [n H]. destruct (calls_return main n (in_turn 60) H) as (_ & _ & Hd).
  destruct Hd as (m & freed & _ & Hf & _); [vm_compute; reflexivity|]. exists freed. split; [exact Hf|vm_compute; reflexivity].
Defined.

Example reader_follows : returned <$> threads (in_turn 60) = [replicate 10 Inserted; (fun i => Found (i * 100)) <$> seqZ 0 10].
Proof. vm_compute. reflexivity. Qed.

Example reader_first : returned <$> threads (run (hashmapInit main) (replicate 60 1%nat ++ replicate 60 0%nat)) =
  [replicate 10 Inserted; replicate 10 NotFound].
Proof. vm_compute. reflexivity. Qed.
