(* ===== verification/Counters.v ===== *)
(** * Shared counters

    Workers that increment one counter: under a mutex or as one atomic operation in
    POSIX/atomic_counter.c, under a semaphore in IPCs/SharedMemory/Counters.c.  An increment
    that is not atomic is a load and a store, between which any other worker may run.  The
    benchmark around the workers measures time and is left out. *)
From stdpp Require Import relations.
From S2P Require Import Prelude Actors.

(** ** The workers *)

Definition LONG_MAX : Z := 2 ^ 63 - 1.

(** where a worker is in its turn: at the lock, at the load and the store of [counter++], at
    the unlock *)
Inductive control := CLock | CLoad | CStore (tmp : Z) | CUnlock.

(** a worker and the turns it has left, with the one it is in *)
Record worker := mkWorker { at_ : control; left_ : nat }.

(** the counter, which has no value once it has overflowed; who has taken the lock *)
Record state := mkState { counter : outcome Z; owner : option nat; workers : list worker }.

Section locked.
(** the largest value of the counter's type: [long] or [int] *)
Context (max : Z).

(** one step of [mutex_worker], and of a child in Counters.c *)
Definition worker_act (t : nat) (s : state) : option state :=
  w ← workers s !! t;
  let goto c := <[t := mkWorker c (left_ w)]> (workers s) in
  match at_ w with
  | CLock =>
      match left_ w, owner s with
      | S _, None => Some (mkState (counter s) (Some t) (goto CLoad))
      | _, _ => None
      end
  | CLoad => match counter s with Done c => Some (mkState (Done c) (owner s) (goto (CStore c))) | _ => None end
  | CStore tmp => Some (mkState (if tmp + 1 <=? max then Done (tmp + 1) else Undef) (owner s) (goto CUnlock))
  | CUnlock => Some (mkState (counter s) None (<[t := mkWorker CLock (pred (left_ w))]> (workers s)))
  end.

Definition step : state -> state -> Prop := act_step worker_act.
End locked.

(** workers with so many turns each *)
Definition start (ls : list nat) : state := mkState (Done 0) None (mkWorker CLock <$> ls).

(** one turn of [atomic_worker] is one step; [atomic_fetch_add] wraps around *)
Definition wrap (z : Z) : Z := (z + 2 ^ 63) mod 2 ^ 64 - 2 ^ 63.

Inductive atomic_step : Z * list nat -> Z * list nat -> Prop :=
| atomic_fetch_add c ls t left : ls !! t = Some (S left) -> atomic_step (c, ls) (wrap (c + 1), <[t := left]> ls).

Definition THREADS : nat := 32.
Definition INCREMENTS_PER_THREAD : nat := Z.to_nat 100000.
Definition MAX_WORKERS : Z := 10.

(** the workers that [benchmark] creates *)
Definition benchmark_workers : list nat := replicate THREADS INCREMENTS_PER_THREAD.

(** the children that [main] of Counters.c forks, for the two numbers that are read, or its exit status *)
Definition children (num_workers increments : Z) : Z + list nat :=
  if (num_workers <=? 0) || (MAX_WORKERS <? num_workers) then inl 1
  else if increments <=? 0 then inl 1
  else inr (replicate (Z.to_nat num_workers) (Z.to_nat increments)).

(** ** Lemmas *)

Definition total (ls : list nat) : Z := Z.of_nat (sum_list ls).

Lemma total_replicate n k : total (replicate n k) = Z.of_nat n * Z.of_nat k.
Proof. unfold total. induction n as [|n IH]; [done|]. simpl in *. lia. Qed.

Lemma sum_list_insert ls t x y : ls !! t = Some x -> (sum_list (<[t := y]> ls) + x = sum_list ls + y)%nat.
Proof.
  revert t. induction ls as [|z ls IH]; intros [|t]; simpl; try done.
  - intros [= ->]. lia.
  - intros Hx%(IH t). lia.
Qed.

Lemma sum_list_zero ls : sum_list ls = O <-> Forall (fun l => l = O) ls.
Proof.
  induction ls as [|l ls IH]; simpl; [by split; [constructor|]|]. rewrite Forall_cons, <- IH. lia.
Qed.

(** the steps that a worker has ahead of it: four for each increment *)
Definition ahead (w : worker) : nat :=
  match at_ w with CLock => 4 * left_ w | CLoad => 4 * left_ w - 1 | CStore _ => 4 * left_ w - 2 | CUnlock => 4 * left_ w - 3 end.

(** the increments that it still has to store *)
Definition pending (w : worker) : nat := match at_ w with CUnlock => pred (left_ w) | _ => left_ w end.

(** inside the lock *)
Definition inside (w : worker) : Prop := at_ w <> CLock.

(** the number of increments that are left is [n - k] when the counter is [k]; a worker is inside
    exactly when it is the owner, and what it has loaded is the value of the counter *)
Record counter_ok (n : Z) (s : state) : Prop := {
  co_count : exists k, counter s = Done k /\ k + Z.of_nat (sum_list_with pending (workers s)) = n;
  co_owner : forall t w, workers s !! t = Some w -> (inside w <-> owner s = Some t);
  co_someone : forall t, owner s = Some t -> (t < length (workers s))%nat;
  co_left : forall t w, workers s !! t = Some w -> inside w -> left_ w <> O;
  co_loaded : forall t w tmp, workers s !! t = Some w -> at_ w = CStore tmp -> counter s = Done tmp;
}.

Section locked_ok.
Context (max n : Z) (Hn : n <= max).

(** a step of the owner, or of a worker that becomes it *)
Lemma counter_put s t w w' c o : counter_ok n s -> workers s !! t = Some w -> (owner s = None \/ owner s = Some t) ->
  (inside w' <-> o = Some t) -> (o = Some t \/ o = None) -> (inside w' -> left_ w' <> O) ->
  (exists k k', counter s = Done k /\ c = Done k' /\ (k' + Z.of_nat (pending w') = k + Z.of_nat (pending w))) ->
  (forall tmp, at_ w' = CStore tmp -> c = Done tmp) -> counter_ok n (mkState c o (<[t := w']> (workers s))).
Proof using Type.
  intros [(k0 & Hk & Hsum) Ho Hs Hl Hld] Ht Hown Hin Hot Hleft (k & k' & Hc & -> & Hpend) Hstore. pose proof (lookup_lt_Some _ _ _ Ht) as Hlt.
  assert (forall u x, u <> t -> workers s !! u = Some x -> ~ inside x) as Hother.
  { intros u x Hne Hx Hinx. apply (Ho u x Hx) in Hinx. destruct Hown; congruence. }
  split; cbn [counter owner workers].
  - exists k'. split; [done|]. pose proof (sum_list_with_insert pending _ t w w' Ht). assert (k0 = k) by congruence. lia.
  - intros u x Hx. destruct (decide (u = t)) as [->|Hne].
    + rewrite list_lookup_insert_eq in Hx by done. injection Hx as <-. done.
    + rewrite list_lookup_insert_ne in Hx by done. specialize (Hother u x Hne Hx). split; [done|]. intros. destruct Hot; congruence.
  - intros u Hu. rewrite length_insert. destruct Hot; [|congruence]. by assert (u = t) as -> by congruence.
  - intros u x Hx. destruct (decide (u = t)) as [->|Hne].
    + rewrite list_lookup_insert_eq in Hx by done. injection Hx as <-. done.
    + rewrite list_lookup_insert_ne in Hx by done. by eapply Hl.
  - intros u x tmp Hx Hat. destruct (decide (u = t)) as [->|Hne].
    + rewrite list_lookup_insert_eq in Hx by done. injection Hx as <-. by apply Hstore.
    + rewrite list_lookup_insert_ne in Hx by done. destruct (Hother u x Hne Hx). unfold inside. by rewrite Hat.
Qed.

Lemma counter_step s s' : counter_ok n s -> step max s s' ->
  counter_ok n s' /\ (S (sum_list_with ahead (workers s')) = sum_list_with ahead (workers s))%nat.
Proof using Hn.
  intros Hok [t Ha]. pose proof Hok as [(k & Hk & Hsum) Ho _ Hl Hld]. unfold worker_act in Ha.
  destruct (workers s !! t) as [w|] eqn:Ht; [|done]. cbn [mbind option_bind] in Ha.
  assert (forall w', (S (ahead w') = ahead w)%nat -> (S (sum_list_with ahead (<[t := w']> (workers s))) = sum_list_with ahead (workers s))%nat) as Hw.
  { intros w' Hw. pose proof (sum_list_with_insert ahead _ t w w' Ht). lia. }
  assert (inside w -> owner s = None \/ owner s = Some t) as Hown by (intros Hin%(Ho t w Ht); by right).
  specialize (Ho t w Ht). specialize (Hl t w Ht). destruct w as [c l]. unfold inside in *. destruct c as [| |tmp|]; cbn [at_ left_] in *.
  - destruct l as [|l]; [done|]. destruct (owner s) eqn:Hos; [done|]. injection Ha as <-.
    split; [|apply Hw; unfold ahead; cbn [at_ left_]; lia]. eapply (counter_put s t); [done|done|by left| |by left|done| |done].
    + unfold inside. cbn. by split.
    + exists k, k. rewrite Hk. split_and!; [done..|]. unfold pending. cbn [at_ left_]. lia.
  - rewrite Hk in Ha. injection Ha as <-. specialize (Hl ltac:(done)).
    split; [|apply Hw; unfold ahead; cbn [at_ left_]; lia].
    eapply (counter_put s t); [done|done|by apply Hown| |left; by apply Ho|done| |by intros tmp [= <-]].
    + rewrite <- Ho. unfold inside. cbn. by split.
    + exists k, k. rewrite Hk. split_and!; [done..|]. unfold pending. cbn [at_ left_]. lia.
  - injection Ha as <-. specialize (Hl ltac:(done)). pose proof (Hld t _ tmp Ht eq_refl) as Htmp. assert (tmp = k) as -> by congruence.
    assert (pending (mkWorker (CStore k) l) <= sum_list_with pending (workers s))%nat as Hle.
    { pose proof (sum_list_with_insert pending _ t _ (mkWorker CUnlock 0) Ht) as Hi. assert (pending (mkWorker CUnlock 0) = 0)%nat as He by done. lia. }
    change (pending (mkWorker (CStore k) l)) with l in Hle. rewrite (proj2 (Z.leb_le _ _)) by lia.
    split; [|apply Hw; unfold ahead; cbn [at_ left_]; lia].
    eapply (counter_put s t); [done|done|by apply Hown| |left; by apply Ho|done| |done].
    + rewrite <- Ho. unfold inside. cbn. by split.
    + exists k, (k + 1). rewrite Hk. split_and!; [done..|]. unfold pending. cbn [at_ left_]. lia.
  - injection Ha as <-. specialize (Hl ltac:(done)). split; [|apply Hw; unfold ahead; cbn [at_ left_]; lia].
    eapply (counter_put s t); [done|done|by apply Hown| |by right|done| |done].
    + unfold inside. cbn. by split.
    + exists k, k. rewrite Hk. split_and!; [done..|]. unfold pending. cbn [at_ left_]. lia.
Qed.

Lemma run_ok m s s' : nsteps (step max) m s s' -> counter_ok n s ->
  counter_ok n s' /\ (m + sum_list_with ahead (workers s') = sum_list_with ahead (workers s))%nat.
Proof using Hn.
  induction 1 as [s|m s s1 s2 Hs _ IH]; intros Hc; [done|]. destruct (counter_step _ _ Hc Hs) as [Hc1 Hw]. destruct (IH Hc1) as [Hc2 Hw2].
  split; [done|lia].
Qed.

(** somebody can go on as long as there is something left to do *)
Lemma stuck_done s : counter_ok n s -> (forall s', ~ step max s s') -> Forall (fun w => w = mkWorker CLock 0) (workers s).
Proof using Type.
  intros [(k & Hk & _) Ho Hs Hl _] Hstuck.
  assert (forall t w, workers s !! t = Some w -> worker_act max t s <> None -> False) as Hmove.
  { intros t w Ht Ha. destruct (worker_act max t s) as [s'|] eqn:He; [|done]. destruct (Hstuck s'). by exists t. }
  destruct (owner s) as [u|] eqn:Hown.
  - destruct (lookup_lt_is_Some_2 _ _ (Hs u eq_refl)) as [w Hw]. exfalso. apply (Hmove u w Hw). unfold worker_act. rewrite Hw. cbn [mbind option_bind].
    pose proof (proj2 (Ho u w Hw) eq_refl) as Hin. unfold inside in Hin. destruct (at_ w); [done|by rewrite Hk|done|done].
  - apply Forall_lookup. intros t w Hw. destruct w as [c l]. assert (c = CLock) as ->.
    { destruct c; [done|..]; exfalso; assert (None = Some t) by (by apply (Ho t _ Hw)); done. }
    destruct l as [|l]; [done|]. exfalso. apply (Hmove t _ Hw). unfold worker_act. rewrite Hw. cbn. by rewrite Hown.
Qed.
End locked_ok.

Lemma counters_start_ok n ls : total ls = n -> counter_ok n (start ls) /\ sum_list_with ahead (workers (start ls)) = (4 * sum_list ls)%nat.
Proof.
  intros Hl. assert (forall t w, workers (start ls) !! t = Some w -> at_ w = CLock) as Hc.
  { intros t w. unfold start. cbn [workers]. rewrite list_lookup_fmap. destruct (ls !! t); [|done]. by intros [= <-]. }
  split; [split|].
  - exists 0. split; [done|]. subst n. unfold total. assert (sum_list_with pending (workers (start ls)) = sum_list ls) as ->; [|lia].
    clear Hc. induction ls as [|l ls IH]; [done|]. change (l + sum_list_with pending (workers (start ls)) = l + sum_list ls)%nat. lia.
  - intros t w Hw. unfold inside. rewrite (Hc t w Hw). by split.
  - done.
  - intros t w Hw. unfold inside. by rewrite (Hc t w Hw).
  - intros t w tmp Hw. by rewrite (Hc t w Hw).
  - clear. induction ls as [|l ls IH]; [done|].
    change (4 * l + sum_list_with ahead (workers (start ls)) = 4 * (l + sum_list ls))%nat. lia.
Qed.


Lemma wrap_small z : - 2 ^ 63 <= z <= LONG_MAX -> wrap z = z.
Proof. intros Hz. unfold wrap, LONG_MAX in *. rewrite Z.mod_small by lia. lia. Qed.

Lemma atomic_run m p q : nsteps atomic_step m p q -> 0 <= p.1 -> p.1 + Z.of_nat (sum_list p.2) <= LONG_MAX ->
  q.1 = p.1 + Z.of_nat m /\ (sum_list q.2 + m = sum_list p.2)%nat.
Proof.
  induction 1 as [p|m p p1 q Hs _ IH]; intros H0 Hmax; [split; lia|].
  destruct Hs as [c ls t left Ht]. cbn [fst snd] in *. pose proof (sum_list_insert ls t (S left) left Ht) as Hi.
  rewrite wrap_small in IH by (unfold LONG_MAX in *; lia). destruct IH as [-> Hsum]; lia.
Qed.

(** ** Properties *)

(** the two totals that [main] prints *)
Lemma benchmark_total : total benchmark_workers = 3200000.
Proof. unfold benchmark_workers. rewrite total_replicate. unfold THREADS, INCREMENTS_PER_THREAD. lia. Qed.

Lemma children_total w i ls : children w i = inr ls -> total ls = w * i.
Proof.
  unfold children. destruct (Z.leb_spec w 0), (Z.ltb_spec MAX_WORKERS w), (Z.leb_spec i 0); cbn [orb]; try done.
  intros [= <-]. rewrite total_replicate. lia.
Qed.

(** C34: Any number of workers that increment a counter behind a lock, every increment being a
    load and a store that other workers may come between: every run ends, after four steps for
    each increment (lock, load, store and unlock); at any time the counter is the number of the
    increments that have been stored, so that none is lost, and at the end the number of all of
    them.  The one condition is that this number fits the counter's type. *)
Theorem locked_counter_correct max ls m s : total ls <= max -> nsteps (step max) m (start ls) s ->
  (m <= 4 * sum_list ls)%nat /\
  counter s = Done (total ls - Z.of_nat (sum_list_with pending (workers s))) /\
  ((forall s', ~ step max s s') -> counter s = Done (total ls) /\ m = (4 * sum_list ls)%nat).
Proof.
  intros Hmax Hrun. destruct (counters_start_ok (total ls) ls eq_refl) as [Hok Hw].
  destruct (run_ok max (total ls) Hmax m _ _ Hrun Hok) as [Hok' Hm]. rewrite Hw in Hm. pose proof Hok' as [(k & Hk & Hsum) _ _ _ _].
  split_and!; [lia|rewrite Hk; f_equal; lia|]. intros Hstuck. pose proof (stuck_done max (total ls) s Hok' Hstuck) as Hf.
  assert (sum_list_with pending (workers s) = 0 /\ sum_list_with ahead (workers s) = 0)%nat as [Hp Ha].
  { clear -Hf. induction Hf as [|w ws -> _ [IHp IHa]]; [done|]. cbn. by rewrite IHp, IHa. }
  rewrite Hk. split; [f_equal; lia|lia].
Qed.

(** The workers that increment an atomic counter end with the same total, in one step for each. *)
Theorem atomic_counter_correct ls m c ls' : total ls <= LONG_MAX -> nsteps atomic_step m (0, ls) (c, ls') ->
  c = Z.of_nat m /\ (m <= sum_list ls)%nat /\ ((forall x, ~ atomic_step (c, ls') x) -> c = total ls).
Proof.
  intros Hmax Hrun. assert (c = 0 + Z.of_nat m /\ (sum_list ls' + m = sum_list ls)%nat) as [-> Hm].
  { apply (atomic_run m (0, ls) (c, ls') Hrun); cbn; [lia|]. unfold total in Hmax. lia. }
  split_and!; [lia|lia|]. intros Hstuck. unfold total. rewrite <- Hm.
  rewrite (proj2 (sum_list_zero ls')); [lia|]. apply Forall_lookup. intros t [|left] Ht; [done|].
  exfalso. eapply Hstuck. by apply (atomic_fetch_add _ _ t left).
Qed.

(** two workers with two turns each *)
Lemma locked_counter_correct_witness :
  let s := (run_first (worker_act int_max) [1; 0]%nat 20 (start [2; 2]%nat)).2 in
  counter s = Done 4 /\ exists m, nsteps (step int_max) m (start [2; 2]%nat) s /\ (m <= 16)%nat.
Proof.
  intros s. split; [vm_compute; reflexivity|]. eexists. split; [apply (run_first_steps (worker_act int_max))|].
  apply (locked_counter_correct int_max [2; 2]%nat _ s); [vm_compute; discriminate|]. apply (run_first_steps (worker_act int_max)).
Defined.

Lemma atomic_counter_correct_witness : 1 = Z.of_nat 1 /\ (1 <= sum_list [1])%nat /\ ((forall x, ~ atomic_step (1, [O]) x) -> 1 = total [1%nat]).
Proof.
  apply (atomic_counter_correct [1%nat] 1 1 [O]); [vm_compute; discriminate|].
  eapply nsteps_l; [|apply nsteps_O]. apply (atomic_fetch_add 0 [1%nat] 0 O). reflexivity.
Defined.
